(* ===== verification/_CoqProject ===== *)
-Q . S2P
Prelude.v
Architecture.v
OverflowSafeInt.v
LLVMInterfaces.v
MetaAddressType.v
MetaAddress.v
MetaAddressText.v
BasicBlockID.v
MetaAddressRange.v
SortedVector.v
ZipMap.v
ConstantRangeSet.v
MFP.v
TupleTree.v
TupleTreeDiff.v
GenericGraph.v
Reachability.v
DepthFirst.v
GraphAlgorithms.v
GraphPreparation.v
NodeRanking.v
RegisterUsage.v
LLVMBitVector.v
Liveness.v
ReachingDefinitions.v
RegisterUsageAnalyses.v
SmallMap.v
PrimitiveKind.v
PrimitiveType.v
ABI.v
Register.v
ModelTypes.v
ModelSize.v
TypeVerification.v
Expected.v
Requests.v
MemoryStorage.v
PipelineDescription.v
Runner.v
PipeRuns.v
Invalidation.v
PipelineSessions.v
CDataModel.v
ABIDefinition.v
ABIData.v
Alignment.v
ValueDistributor.v
ValueDistribution.v
RegisterStateDeductions.v
Layout.v
LayoutProperties.v
DLATypeSystem.v
DLATypeSystemProperties.v
DLAGraphs.v
DLASizes.v
DLABackedges.v
DLAInterference.v
DLASchedule.v
