(* ===== verification/Prelude.v ===== *)
(** * A verification library for the core of rev.ng

    rev.ng lifts a binary, recovers a model of it (its functions, types and
    segments) and emits C code. Its state is the model, a tree of generated
    structures that analyses edit and every pass reads; around it are the
    containers the structures are built from, the analyses that compute what goes in
    the model, the rules that decide where the arguments of a function are, and the
    runner, which produces what the user asks for and forgets it when the model
    changes. This library models those parts, as shallow embeddings that can be
    executed, and proves them correct.

    ** Conventions

    - A computation of the program is a value of [outcome]: a result, a failed
      assertion, [revng_abort], or undefined behaviour. What a caller handles is an
      ordinary value ([option], or [Expected], Expected.v). [OutOfFuel] is what a
      definition with a bound on its recursion gives when it runs out; every
      theorem about such a definition proves that some fuel suffices, for which
      it gives the result, and that more fuel changes nothing, or states
      divergence by showing that no fuel does.
    - Integers are in [Z] with the wrapping of their width written out ([wrap]), sets
      and maps are those of stdpp, except where their order or their duplicates can
      be seen.
    - A comment before a definition gives the file, the lines and the name of what it
      translates; paths are relative to the root of the repository.
    - LLVM, [std::sort] and the contents of the registry of pipes are known by
      interfaces: type classes with laws, with an instance for each that shows the
      laws can hold (LLVMInterfaces.v, LLVMBitVector.v, Reachability.v, DepthFirst.v,
      [LLVMTriple] in Architecture.v, the pipeline of PipelineSessions.v).

    ** Addresses

    - Architecture.v, ABI.v, Register.v: the enumerations of the model and their
      tables (include/revng/Model). A register is stored in CPU state variables
      whose names lead back to it ([Register.csv_roundtrip]).
    - OverflowSafeInt.v, MetaAddressType.v, MetaAddress.v, MetaAddressText.v,
      BasicBlockID.v, MetaAddressRange.v (include/revng/Support/MetaAddress.h and its
      neighbours): an address has a type, an epoch and an address space, and becomes
      invalid when an operation leaves its range. Arithmetic is exact
      ([arithmetic_exact]) and no operation breaks the invariant
      ([operations_preserve_inv]); the order is total; texts, bytes and program
      counters read back, up to what the code loses.

    ** Containers

    - SortedVector.v, SmallMap.v (include/revng/ADT) refine finite maps: an
      abstraction function to [gmap], and every operation acts on the map as its name
      says. SortedVector.v has batches too, which are equivalent to their insertions
      one by one. ZipMap.v walks two sorted containers: the outer join.
    - ConstantRangeSet.v refines sets of integers, with complement and union.
    - GenericGraph.v refines multigraphs with labels; the invariant relates the two
      halves that an edge has in its two nodes.
    - TupleTree.v, TupleTreeDiff.v (include/revng/TupleTree): trees, paths, and
      differences, which are applied and inverted ([diff_apply_roundtrip]).

    ** Types

    - PrimitiveKind.v, PrimitiveType.v, ModelTypes.v, ModelSize.v,
      TypeVerification.v (lib/Model): types and their definitions, the order, the
      sizes with their cache, and verification, which is sound
      ([verification_sound]): what passes is well formed, has sizes, and fields that do
      not overlap. The fuel is the depth of definitions; [verification_diverges] shows
      the binaries on which the code does not end.

    ** Data flow

    - MFP.v (include/revng/MFP): the worklist algorithm ends, with the least
      solution, on every monotone instance of finite height; the fuel is the
      number of labels plus the heights.
    - RegisterUsage.v, Liveness.v, ReachingDefinitions.v, RegisterUsageAnalyses.v
      (include/revng/RegisterUsageAnalyses, lib/EarlyFunctionAnalysis): the graphs of
      accesses to registers, built on GenericGraph.v, their simplification, the
      two analyses, which are instances of MFP.v, and what is made of their results.
      The theorems relate the results to the paths of the graph
      ([registers_exact]).

    ** Data layout analysis

    - DLATypeSystem.v, DLATypeSystemProperties.v
      (lib/DataLayoutAnalysis/DLATypeSystem.cpp): a graph of the layouts of the values
      of a program, whose links say that layouts are equal, contain or point to each
      other. The two ends of a link agree after every operation, and the operations act
      on the set of links as their names say ([links_refine_graph]); a value is in the
      class of exactly one node, that its node was merged into, or of none, when it was
      removed ([layouts_follow_merges]).
    - DLAGraphs.v: views of the graph, checks of cycles, and the walk from the roots that
      most steps make; [forEachRoot_visits] is its rule of induction.
    - DLASizes.v (lib/DataLayoutAnalysis/Middleend): the steps about sizes, which compute
      the only solution of the equations of sizes ([sizes_exact]), remove what has no
      size ([pruned_exactly]) and the links whose strides are too small ([strides_fixed]).
    - DLABackedges.v: the removal of the links that close loops. The visit ends, with a
      fuel of a step for every link and every node, and keeps the links at offset 0
      ([backedges_cut]); what it leaves and takes is not the loops ([backedges_inexact]).
    - DLAInterference.v: the children of a node whose bytes overlap are put in a union.
      The step leaves structures whose fields are disjoint, unions whose
      fields overlap, and every field where it was ([interference_resolved]).
    - DLASchedule.v: the manager of the steps, and the schedule of the analysis, which
      has the steps that each one relies on in force when it runs.

    ** Graphs

    - Reachability.v, DepthFirst.v: the walks of LLVM over graphs as interfaces (post
      order, strongly connected components, and the stacks of a depth first visit), with
      an instance that shows the laws hold together. The closures use the number of nodes
      as fuel, and the depth first visit the number of calls that are left to make.
    - GraphAlgorithms.v (include/revng/Support/GraphAlgorithms.h): the backedges of a visit,
      without which a graph has no loops and the same nodes can be reached
      ([backedges_break_loops]), the nodes on the paths between two nodes
      ([nodes_between_exact]), and the entry points, which are right for graphs without
      loops ([entry_points_acyclic]) and miss the loops that are left without
      predecessors from outside ([entry_points_missed]).
    - GraphPreparation.v, NodeRanking.v (lib/GraphLayout/SugiyamaStyle): how a graph is
      made ready to be laid out. It is converted to one without loops, by turning its
      backedges ([converted_to_dag]); its nodes are ranked in topological order
      ([topological_ranks]), and ranks are updated to the least ones that are consistent
      with the edges ([ranks_updated]). The fuel of the test for disjoint branches is the
      number of nodes that can enter its queue ([disjoint_is_unreachable]).

    ** Calling conventions

    - CDataModel.v, ABIDefinition.v, ABIData.v, Alignment.v: the traits of an ABI
      (lib/Model/ABIDefinition.cpp), and the 22 that are shipped (share/revng/abi).
    - ValueDistributor.v, ValueDistribution.v, Layout.v, LayoutProperties.v
      (lib/ABI/FunctionType): how arguments are given registers and parts of
      the stack. For a sound ABI ([Sound]; [shipped_sound] is that all of those that
      are shipped are) the distribution never fails and gives each argument room, but for
      floats in vector registers ([arguments_placed]), registers are given once and parts
      of the stack are disjoint ([arguments_disjoint]). The layout of a function whose
      arguments have sizes, and scalars that the ABI knows ([alignable]), is computed and
      verifies ([layout_verifies]).
    - RegisterStateDeductions.v: the registers that must be used when some are.

    ** The pipeline

    - Requests.v, MemoryStorage.v, PipelineDescription.v, Runner.v, PipeRuns.v,
      Invalidation.v, PipelineSessions.v (lib/Runner, include/revng/PipeboxCommon):
      the description is read from a document and its savepoints numbered; a
      request is scheduled backwards from the target to the savepoints and run
      forwards; what is produced is stored with what of the model it has read, and
      erased when that changes, as long as it was not stored anew without that
      ([changed_path_erases]). Pipes are abstract in Runner.v, where a request
      gives what the pipeline would produce from nothing ([production_correct]);
      PipelineSessions.v has a concrete pipeline.

    ** Not modelled

    The translation from and to LLVM IR and Clift (Lift, Canonicalize, FunctionIsolation,
    Clifter, RestructureCFG, PromoteStackPointer, and the emission of C): the code is
    about values of LLVM and MLIR, which are not under src/. Input and output (the
    loaders of binaries and of debug information, YAML, PTML, the server, the Python
    side). Generated code, but for what is said of the schema above. Logging and
    messages. In the parts that are modelled: [MutableEdgeNode] of GenericGraph.h; the
    visits of a whole tuple tree; the conversion of prototypes
    ([ToRawConverter::convert], Conversion.cpp), which edits the model; the steps of the
    data layout analysis between those that are modelled; the reading of
    LLVM functions in AnalyzeRegisterUsage.cpp; the textual form of objects; the layout of
    graphs after the ranks (partitions of edges, permutations of layers, coordinates and
    routing), and the breadth first and disjoint rankings. *)

From stdpp Require Export base tactics option list numbers decidable sets.
From Stdlib Require Export ZArith Lia.
From Stdlib Require Import Znumtheory.

#[export] Set Default Proof Using "Type".

(** ** Program outcomes

    The C++ code ends a computation early in three ways: a failed
    [revng_assert]/[revng_check], a call to [revng_abort], and (silently) by
    executing an operation whose behaviour the language leaves undefined.
    [OutOfFuel] is not a behaviour of the program: it is what a definition
    returns when the bound on its recursion is too small for the input. *)

Inductive fault : Set :=
  | AssertionFailed
  | Aborted
  | UndefinedBehaviour
  | OutOfFuel.

Inductive outcome (A : Type) : Type :=
  | Ok (a : A)
  | Fault (f : fault).

Arguments Ok {A} a.
Arguments Fault {A} f.

#[global] Instance fault_eq_dec : EqDecision fault.
Proof. solve_decision. Defined.

#[global] Instance outcome_eq_dec {A} `{EqDecision A} : EqDecision (outcome A).
Proof. solve_decision. Defined.

#[global] Instance outcome_ret : MRet outcome := @Ok.

#[global] Instance outcome_bind : MBind outcome := λ A B f m,
  match m with Ok a => f a | Fault e => Fault e end.

#[global] Instance outcome_fmap : FMap outcome := λ A B f m,
  match m with Ok a => Ok (f a) | Fault e => Fault e end.

(** [revng_assert(b)] and [revng_check(b)]: fail when [b] is false. *)
Definition revng_assert (b : bool) : outcome unit :=
  if b then Ok tt else Fault AssertionFailed.

(** [revng_abort()]. *)
Notation revng_abort := (Fault Aborted).

(** A use of an operation outside its domain (for instance a shift by at least
    the width of the operand). *)
Notation undefined := (Fault UndefinedBehaviour).

Lemma bind_ok {A B} (a : A) (f : A → outcome B) : (Ok a ≫= f) = f a.
Proof. done. Qed.

Lemma bind_inv {A B} (m : outcome A) (f : A → outcome B) b :
  m ≫= f = Ok b → ∃ a, m = Ok a ∧ f a = Ok b.
Proof. destruct m; simpl; naive_solver. Qed.

Lemma bind_assoc {A B C} (m : outcome A) (f : A → outcome B) (g : B → outcome C) :
  (m ≫= f) ≫= g = m ≫= (λ a, f a ≫= g).
Proof. by destruct m. Qed.

Lemma assert_true {A} (b : bool) (k : unit → outcome A) :
  b = true → (revng_assert b ≫= k) = k tt.
Proof. by intros ->. Qed.

Lemma assert_inv {A} (b : bool) (k : unit → outcome A) a :
  (revng_assert b ≫= k) = Ok a → b = true ∧ k tt = Ok a.
Proof. destruct b; simpl; naive_solver. Qed.

Lemma mapM_ok {A B} (f : A → outcome B) (P : A → B → Prop) l :
  (∀ x, x ∈ l → ∃ y, f x = Ok y ∧ P x y) → ∃ k, mapM f l = Ok k ∧ Forall2 P l k.
Proof.
  induction l as [|x l IH]; intros Hall; [by exists []|].
  destruct (Hall x) as (y & Hy & HP); [by left|]. destruct IH as (k & Hk & Hf); [intros z Hz; apply Hall; by right|].
  exists (y :: k). split; [|by constructor]. cbn. by rewrite Hy, bind_ok, Hk, bind_ok.
Qed.

(** ** Machine integers

    A [w]-bit unsigned integer is a [Z] in [0, 2^w). *)

Definition wrap (w z : Z) : Z := (z mod 2 ^ w)%Z.

Definition in_width (w z : Z) : Prop := (0 ≤ z < 2 ^ w)%Z.

#[global] Instance in_width_dec w z : Decision (in_width w z).
Proof. unfold in_width. apply _. Defined.

#[global] Instance Z_divide_decision a b : Decision (a | b)%Z := Zdivide_dec a b.

Section machine_integers.
  Local Open Scope Z_scope.

Lemma wrap_small w z : in_width w z → wrap w z = z.
Proof. intros ?. by apply Z.mod_small. Qed.

Lemma wrap_in_width w z : 0 ≤ w → in_width w (wrap w z).
Proof. intros ?. apply Z.mod_pos_bound. lia. Qed.

Lemma in_width_weaken w w' z : 0 ≤ w ≤ w' → in_width w z → in_width w' z.
Proof.
  intros ? [??]. split; [done|].
  apply Z.lt_le_trans with (2 ^ w); [done|]. apply Z.pow_le_mono_r; lia.
Qed.

  (** [z & (~0 >> (n - w))] is [z] modulo [2^w]. *)
Lemma land_mask w z : 0 ≤ w → Z.land z (Z.ones w) = wrap w z.
Proof. intros. by apply Z.land_ones. Qed.

Lemma shiftr_ones n w : 0 ≤ w ≤ n → Z.shiftr (Z.ones n) (n - w) = Z.ones w.
Proof.
  intros. apply Z.bits_inj'. intros i Hi. rewrite Z.shiftr_spec by done.
  rewrite !Z.testbit_ones_nonneg by lia. apply eq_bool_prop_intro.
  rewrite !Is_true_true, !Z.ltb_lt. lia.
Qed.

Lemma testbit_high w z i : in_width w z → w ≤ i → Z.testbit z i = false.
Proof.
  intros [Hz Hw] Hi. destruct (decide (z = 0)) as [->|]; [apply Z.testbit_0_l|].
  apply Z.bits_above_log2; [done|].
  apply Z.lt_le_trans with w; [|done]. apply Z.log2_lt_pow2; lia.
Qed.

Lemma in_width_bits w z :
  0 ≤ w → 0 ≤ z → (∀ i, w ≤ i → Z.testbit z i = false) → in_width w z.
Proof.
  intros Hw Hz Hb. split; [done|].
  destruct (decide (z = 0)) as [->|Hn]; [lia|].
  apply Z.log2_lt_pow2; [lia|].
  destruct (Z.lt_ge_cases (Z.log2 z) w) as [|Hge]; [done|].
  apply Hb in Hge. rewrite Z.bit_log2 in Hge by lia. done.
Qed.
End machine_integers.

(** ** Comparison of words and tuples of words *)

Definition lex (c1 c2 : comparison) : comparison :=
  match c1 with Eq => c2 | _ => c1 end.

Lemma lex_opp a b c d :
  a = CompOpp b → c = CompOpp d → lex a c = CompOpp (lex b d).
Proof. intros -> ->. by destruct b. Qed.

Lemma lex_Eq a b : lex a b = Eq ↔ a = Eq ∧ b = Eq.
Proof. destruct a; naive_solver. Qed.

Lemma lex_Lt a b : lex a b = Lt ↔ a = Lt ∨ a = Eq ∧ b = Lt.
Proof. destruct a; naive_solver. Qed.

(** A lexicographic comparison is transitive when its components are. *)
Lemma lex_trans a1 a2 a3 b1 b2 b3 :
  (a1 = Eq → a2 = Eq → a3 = Eq) → (a1 = Lt → a2 = Lt → a3 = Lt) →
  (a1 = Eq → a2 = Lt → a3 = Lt) → (a1 = Lt → a2 = Eq → a3 = Lt) →
  (b1 = Lt → b2 = Lt → b3 = Lt) →
  lex a1 b1 = Lt → lex a2 b2 = Lt → lex a3 b3 = Lt.
Proof. rewrite !lex_Lt. naive_solver. Qed.

(** ** Loops *)

(** Run a function over a list, from the first element on. *)
Fixpoint forEachM {A T} (f : A → T → outcome T) (l : list A) (s : T) : outcome T :=
  match l with
  | [] => Ok s
  | x :: l => s ← f x s; forEachM f l s
  end.

(** ** Automation *)

Create HintDb width.
#[export] Hint Resolve wrap_in_width : width.
#[export] Hint Extern 3 (in_width _ _) => (unfold in_width; lia) : width.

(** Split a hypothesis [_ ≫= _ = Ok _] (or a successful assertion) into the
    results of its steps. *)
Ltac invert_ok :=
  repeat match goal with
  | H : (revng_assert _ ≫= _) = Ok _ |- _ =>
      apply assert_inv in H as [? H]
  | H : (_ ≫= _) = Ok _ |- _ =>
      let x := fresh "r" in let E := fresh "E" in
      apply bind_inv in H as (x & E & H)
  | H : Ok _ = Ok _ |- _ => injection H as H
  | H : Fault _ = Ok _ |- _ => discriminate H
  end.

(** [lia] with the equations of the divisions and remainders of the goal. *)
Ltac divlia := Z.to_euclidean_division_equations; lia.
