(* ===== verification/Architecture.v ===== *)
(** * Processor architectures and operating systems

    [model::Architecture] (include/revng/Model/Architecture.h) and the two
    enumerations it is stated over. The enumerations are declared in the
    tuple-tree schema, whose generator puts [Invalid] first and [Count] last.
    Each [switch] with a [default: revng_abort()] is a function to [outcome]. *)

From S2P Require Import Prelude.
From stdpp Require Import strings.

(* include/revng/Model/model-schema.yml:1183-1196 Architecture *)
Inductive Values : Set :=
  | Invalid
  | x86 | x86_64 | arm | aarch64 | mips | mipsel | systemz
  | Count.

#[global] Instance Values_eq_dec : EqDecision Values.
Proof. solve_decision. Defined.

(* scripts/tuple_tree_generator/templates/enum.h.tpl:30-42 Architecture::getName *)
Definition getName (V : Values) : outcome string :=
  match V with
  | Invalid => Ok "Invalid"
  | x86 => Ok "x86"
  | x86_64 => Ok "x86_64"
  | arm => Ok "arm"
  | aarch64 => Ok "aarch64"
  | mips => Ok "mips"
  | mipsel => Ok "mipsel"
  | systemz => Ok "systemz"
  | Count => revng_abort
  end.

(* scripts/tuple_tree_generator/templates/enum.h.tpl:61-64 Architecture::isValid *)
Definition isValid (V : Values) : outcome bool :=
  revng_assert match V with Count => false | _ => true end;;
  Ok match V with Invalid => false | _ => true end.

(** The architectures of the schema, in its order. *)
Definition members : list Values := [x86; x86_64; arm; aarch64; mips; mipsel; systemz].

(** The enumerator is neither [Invalid] nor [Count]. *)
Definition isMember (V : Values) : bool :=
  match V with Invalid | Count => false | _ => true end.

Lemma isMember_elem V : isMember V = true ↔ V ∈ members.
Proof. unfold members. destruct V; simpl; set_solver. Qed.

(* include/revng/Model/model-schema.yml:1198-1207 OperatingSystem *)
Inductive OperatingSystem : Set :=
  | OS_Invalid
  | Linux | Windows | MacOS
  | OS_Count.

(* include/revng/Model/Architecture.h:15-29 isLittleEndian *)
Definition isLittleEndian (V : Values) : outcome bool :=
  match V with
  | x86 | x86_64 | arm | aarch64 | mipsel => Ok true
  | mips | systemz => Ok false
  | _ => revng_abort
  end.

(** ** LLVM's architectures

    [llvm::Triple::ArchType] is LLVM's enumeration: the model only assumes the
    seven enumerators the code names, pairwise distinct. *)
Class LLVMTriple := {
  ArchType : Type;
  ArchType_eq_dec :: EqDecision ArchType;
  Triple_x86 : ArchType;
  Triple_x86_64 : ArchType;
  Triple_arm : ArchType;
  Triple_aarch64 : ArchType;
  Triple_mips : ArchType;
  Triple_mipsel : ArchType;
  Triple_systemz : ArchType;
  Triple_distinct :
    NoDup [Triple_x86; Triple_x86_64; Triple_arm; Triple_aarch64; Triple_mips;
           Triple_mipsel; Triple_systemz];
}.

Section llvm.
  Context `{LLVMTriple}.

(* include/revng/Model/Architecture.h:31-50 fromLLVMArchitecture *)
Definition fromLLVMArchitecture (A : ArchType) : Values :=
  if decide (A = Triple_x86) then x86
  else if decide (A = Triple_x86_64) then x86_64
  else if decide (A = Triple_arm) then arm
  else if decide (A = Triple_aarch64) then aarch64
  else if decide (A = Triple_mips) then mips
  else if decide (A = Triple_mipsel) then mipsel
  else if decide (A = Triple_systemz) then systemz
  else Invalid.

(* include/revng/Model/Architecture.h:52-71 toLLVMArchitecture *)
Definition toLLVMArchitecture (V : Values) : outcome ArchType :=
  match V with
  | x86 => Ok Triple_x86
  | x86_64 => Ok Triple_x86_64
  | arm => Ok Triple_arm
  | aarch64 => Ok Triple_aarch64
  | mips => Ok Triple_mips
  | mipsel => Ok Triple_mipsel
  | systemz => Ok Triple_systemz
  | _ => revng_abort
  end.

End llvm.

(* include/revng/Model/Architecture.h:73-88 getPointerSize *)
Definition getPointerSize (V : Values) : outcome Z :=
  match V with
  | x86 | arm | mips | mipsel => Ok 4%Z
  | x86_64 | aarch64 | systemz => Ok 8%Z
  | _ => revng_abort
  end.

(* include/revng/Model/Architecture.h:90-108 getCallPushSize *)
Definition getCallPushSize (V : Values) : outcome Z :=
  match V with
  | x86 => Ok 4%Z
  | x86_64 => Ok 8%Z
  | arm | mips | mipsel | aarch64 | systemz => Ok 0%Z
  | _ => revng_abort
  end.

(** The pattern is an [llvm::ArrayRef<char>] built from a string literal, so it
    spans the whole array, with the literal's terminating NUL. *)
(* include/revng/Model/Architecture.h:110-139 getBasicBlockEndingPattern *)
Definition getBasicBlockEndingPattern (V : Values) : outcome (list Z) :=
  match V with
  | x86 | x86_64 => Ok [0xcc; 0]%Z
  | arm => Ok [0x1e; 0xff; 0x2f; 0xe1; 0]%Z
  | mips => Ok [0x08; 0x00; 0xe0; 0x03; 0]%Z
  | mipsel => Ok [0x03; 0xe0; 0x00; 0x08; 0]%Z
  | aarch64 => Ok [0xc0; 0x03; 0x5f; 0xd6; 0]%Z
  | systemz => Ok [0]%Z
  | _ => revng_abort
  end.

(* include/revng/Model/Architecture.h:141-163 getSyscallHelper *)
Definition getSyscallHelper (V : Values) : outcome string :=
  match V with
  | x86 => Ok "helper_raise_interrupt"
  | x86_64 => Ok "helper_syscall"
  | arm | aarch64 => Ok "helper_exception_with_syndrome"
  | mips | mipsel => Ok "helper_raise_exception"
  | systemz => Ok "helper_exception"
  | _ => revng_abort
  end.

(* include/revng/Model/Architecture.h:165-226 getNoReturnSyscallNumbers *)
Definition getNoReturnSyscallNumbers (V : Values) : outcome (list Z) :=
  match V with
  | x86 => Ok [0xfc; 0x01; 0x0b]%Z
  | x86_64 => Ok [0xe7; 0x3c; 0x3b]%Z
  | arm => Ok [0xf8; 0x1; 0xb]%Z
  | aarch64 => Ok [0x5e; 0x5d; 0xdd]%Z
  | mips | mipsel => Ok [0x1096; 0xfa1; 0xfab]%Z
  | systemz => Ok [0xf8; 0x1; 0xb]%Z
  | _ => revng_abort
  end.

(* include/revng/Model/Architecture.h:228-244 hasELFRelocationAddend *)
Definition hasELFRelocationAddend (V : Values) : outcome bool :=
  match V with
  | x86_64 | systemz | aarch64 => Ok true
  | x86 | arm | mips | mipsel => Ok false
  | _ => revng_abort
  end.

(* include/revng/Model/Architecture.h:246-262 getReadRegisterAssembly *)
Definition getReadRegisterAssembly (V : Values) : outcome string :=
  match V with
  | x86_64 => Ok "movq %REGISTER, $0"
  | systemz | x86 | arm | aarch64 | mips | mipsel => Ok ""
  | _ => revng_abort
  end.

(* include/revng/Model/Architecture.h:264-280 getWriteRegisterAssembly *)
Definition getWriteRegisterAssembly (V : Values) : outcome string :=
  match V with
  | x86_64 => Ok "movq $0, %REGISTER"
  | systemz | x86 | arm | aarch64 | mips | mipsel => Ok ""
  | _ => revng_abort
  end.

(* include/revng/Model/Architecture.h:282-298 getJumpAssembly *)
Definition getJumpAssembly (V : Values) : outcome string :=
  match V with
  | x86_64 => Ok "jmpq *$0"
  | systemz | x86 | arm | aarch64 | mips | mipsel => Ok ""
  | _ => revng_abort
  end.

(* include/revng/Model/Architecture.h:302-321 getQEMUName *)
Definition getQEMUName (V : Values) : outcome string :=
  match V with
  | x86_64 => Ok "x86_64"
  | systemz => Ok "s390x"
  | x86 => Ok "i386"
  | arm => Ok "arm"
  | aarch64 => Ok "aarch64"
  | mips => Ok "mips"
  | mipsel => Ok "mipsel"
  | _ => revng_abort
  end.

(* include/revng/Model/Architecture.h:323-340 fromQEMUName *)
Definition fromQEMUName (Name : string) : outcome Values :=
  if String.eqb Name "x86_64" then Ok x86_64
  else if String.eqb Name "s390x" then Ok systemz
  else if String.eqb Name "i386" then Ok x86
  else if String.eqb Name "arm" then Ok arm
  else if String.eqb Name "aarch64" then Ok aarch64
  else if String.eqb Name "mips" then Ok mips
  else if String.eqb Name "mipsel" then Ok mipsel
  else revng_abort.

(* include/revng/Model/Architecture.h:342-360 getMinimalFinalStackOffset *)
Definition getMinimalFinalStackOffset (V : Values) : outcome Z :=
  match V with
  | x86_64 => Ok 8%Z
  | x86 => Ok 4%Z
  | systemz | arm | aarch64 | mips | mipsel => Ok 0%Z
  | _ => revng_abort
  end.

(* include/revng/Model/Architecture.h:362-377 getAssemblyCommentIndicator *)
Definition getAssemblyCommentIndicator (V : Values) : outcome string :=
  match V with
  | x86 | x86_64 | mips | mipsel | systemz => Ok "#"
  | arm => Ok "@"
  | aarch64 => Ok "//"
  | _ => revng_abort
  end.

(* include/revng/Model/Architecture.h:379-392 getAssemblyLabelIndicator *)
Definition getAssemblyLabelIndicator (V : Values) : outcome string :=
  match V with
  | x86 | x86_64 | arm | aarch64 | mips | mipsel | systemz => Ok ":"
  | _ => revng_abort
  end.

(* include/revng/Model/Architecture.h:394-408 hasDelaySlot *)
Definition hasDelaySlot (V : Values) : outcome bool :=
  match V with
  | x86 | x86_64 | arm | aarch64 | systemz => Ok false
  | mips | mipsel => Ok true
  | _ => revng_abort
  end.

(* include/revng/Model/Architecture.h:410-468 isAvailableFor *)
Definition isAvailableFor (V : Values) (OS : OperatingSystem) : outcome bool :=
  match OS with
  | Linux =>
    match V with
    | x86_64 | aarch64 | x86 | arm | mips | mipsel | systemz => Ok true
    | Count | Invalid => revng_abort
    end
  | Windows =>
    match V with
    | x86_64 | aarch64 | x86 | arm => Ok true
    | mips | mipsel | systemz => Ok false
    | Count | Invalid => revng_abort
    end
  | MacOS =>
    match V with
    | x86_64 | aarch64 => Ok true
    | x86 | arm | mips | mipsel | systemz => Ok false
    | Count | Invalid => revng_abort
    end
  | OS_Invalid =>
    revng_assert (negb (bool_decide (V = Invalid)));;
    Ok true
  | OS_Count => revng_abort
  end.

(** ** Properties *)

Lemma fromLLVM_toLLVM `{LLVMTriple} V A :
  toLLVMArchitecture V = Ok A → fromLLVMArchitecture A = V.
Proof.
  pose proof Triple_distinct as Hd. rewrite !NoDup_cons in Hd.
  unfold fromLLVMArchitecture.
  destruct V; simpl; intros; simplify_eq;
    repeat (case_decide; [set_solver|]); repeat case_decide; done.
Qed.

Lemma fromQEMUName_getQEMUName V Name :
  getQEMUName V = Ok Name → fromQEMUName Name = Ok V.
Proof. destruct V; simpl; intros; simplify_eq; done. Qed.

Lemma getQEMUName_fromQEMUName V Name :
  fromQEMUName Name = Ok V → getQEMUName V = Ok Name.
Proof.
  unfold fromQEMUName. intros HV.
  repeat case_match; simplify_eq; rewrite String.eqb_eq in *; by subst.
Qed.

(** A call pushes exactly what the callee still finds on the stack on exit. *)
Lemma call_push_is_final_offset V : getCallPushSize V = getMinimalFinalStackOffset V.
Proof. by destruct V. Qed.
