(* ===== verification/OverflowSafeInt.v ===== *)
(** * Overflow-checked integers

    [OverflowSafeInt<T>] (include/revng/Support/OverflowSafeInt.h): an integer
    of a C++ integral type that becomes empty as soon as an operation leaves the
    range of the type. *)

From S2P Require Import Prelude.
Local Open Scope Z_scope.

(** A C++ integral type: its signedness and its width in bits. *)
Record int_type := IntType { is_signed : bool; width : Z }.

#[global] Instance int_type_eq_dec : EqDecision int_type.
Proof. solve_decision. Defined.

Definition uint16 := IntType false 16.
Definition uint32 := IntType false 32.
Definition uint64 := IntType false 64.
Definition int32 := IntType true 32.
Definition int64 := IntType true 64.

Definition type_min (T : int_type) : Z :=
  if is_signed T then - 2 ^ (width T - 1) else 0.

Definition type_max (T : int_type) : Z :=
  if is_signed T then 2 ^ (width T - 1) - 1 else 2 ^ width T - 1.

Definition in_type (T : int_type) (z : Z) : Prop := type_min T ≤ z ≤ type_max T.

#[global] Instance in_type_dec T z : Decision (in_type T z).
Proof. unfold in_type. apply _. Defined.

(** The value of [z] after conversion to [T]: congruent modulo [2^width]. *)
Definition cast (T : int_type) (z : Z) : Z :=
  if is_signed T
  then (z + 2 ^ (width T - 1)) mod 2 ^ width T - 2 ^ (width T - 1)
  else z mod 2 ^ width T.

(** [llvm::isPowerOf2_64] belongs to LLVM; the class records its documented
    behaviour. *)
Class LLVMMath := {
  isPowerOf2_64 : Z → bool;
  isPowerOf2_64_spec z :
    0 ≤ z < 2 ^ 64 → isPowerOf2_64 z = true ↔ ∃ k, 0 ≤ k ∧ z = 2 ^ k;
}.

(** A concrete power-of-two test, to instantiate the interface to LLVM. *)
Definition isPowerOf2 (z : Z) : bool := bool_decide (0 < z) && (z =? 2 ^ Z.log2 z).

Lemma isPowerOf2_spec z :
  0 ≤ z < 2 ^ 64 → isPowerOf2 z = true ↔ ∃ k, 0 ≤ k ∧ z = 2 ^ k.
Proof.
  intros Hz. unfold isPowerOf2. rewrite andb_true_iff, bool_decide_eq_true, Z.eqb_eq.
  split.
  - intros [? Heq]. exists (Z.log2 z). split; [apply Z.log2_nonneg|done].
  - intros (k & Hk & ->). rewrite Z.log2_pow2 by done. split; [lia|done].
Qed.

Definition concreteMath : LLVMMath := {|
  isPowerOf2_64 := isPowerOf2;
  isPowerOf2_64_spec := isPowerOf2_spec;
|}.

(* include/revng/Support/OverflowSafeInt.h:14-32 OverflowSafeInt *)
Definition OverflowSafeInt (T : int_type) : Type := option Z.

Section operations.
  Context (T : int_type).

(** Compilers define [__builtin_add_overflow] and its siblings on the exact
    result: the flag tells whether it fits in [T]. *)
Definition builtin_overflow (exact : Z) : Z * bool :=
  (cast T exact, negb (bool_decide (in_type T exact))).

(* include/revng/Support/OverflowSafeInt.h:87-96 OverflowSafeInt::add *)
Definition add (FirstOperand SecondOperand : Z) : option Z :=
  let '(Result, Overflow) := builtin_overflow (FirstOperand + SecondOperand) in
  if Overflow then None else Some Result.

(* include/revng/Support/OverflowSafeInt.h:98-107 OverflowSafeInt::sub *)
Definition sub (FirstOperand SecondOperand : Z) : option Z :=
  let '(Result, Overflow) := builtin_overflow (FirstOperand - SecondOperand) in
  if Overflow then None else Some Result.

(* include/revng/Support/OverflowSafeInt.h:109-118 OverflowSafeInt::mul *)
Definition mul (FirstOperand SecondOperand : Z) : option Z :=
  let '(Result, Overflow) := builtin_overflow (FirstOperand * SecondOperand) in
  if Overflow then None else Some Result.

(* include/revng/Support/OverflowSafeInt.h:35-40 OverflowSafeInt::operator+ *)
Definition safe_add (This Other : OverflowSafeInt T) : OverflowSafeInt T :=
  match This, Other with
  | Some a, Some b => add a b
  | _, _ => None
  end.

(* include/revng/Support/OverflowSafeInt.h:42-47 OverflowSafeInt::operator- *)
Definition safe_sub (This Other : OverflowSafeInt T) : OverflowSafeInt T :=
  match This, Other with
  | Some a, Some b => sub a b
  | _, _ => None
  end.

(* include/revng/Support/OverflowSafeInt.h:49-54 OverflowSafeInt::operator* *)
Definition safe_mul (This Other : OverflowSafeInt T) : OverflowSafeInt T :=
  match This, Other with
  | Some a, Some b => mul a b
  | _, _ => None
  end.

(* include/revng/Support/OverflowSafeInt.h:56-63 OverflowSafeInt::operator/ *)
Definition safe_div `{LLVMMath} (This : OverflowSafeInt T) (Other : Z) :
    outcome (OverflowSafeInt T) :=
  revng_assert (isPowerOf2_64 (cast uint64 Other));;
  match This with
  | None => Ok None
  | Some a => Ok (Some (cast T (Z.quot a Other)))
  end.

(* include/revng/Support/OverflowSafeInt.h:29-32 OverflowSafeInt::operator* (dereference) *)
Definition deref (This : OverflowSafeInt T) : outcome Z :=
  match This with
  | Some v => Ok v
  | None => Fault AssertionFailed
  end.

End operations.

(** ** Conversions *)

Lemma cast_in_type T z : 0 < width T → in_type T (cast T z).
Proof.
  intros Hw. unfold in_type, cast, type_min, type_max.
  destruct (is_signed T).
  - pose proof (Z.mod_pos_bound (z + 2 ^ (width T - 1)) (2 ^ width T)).
    replace (2 ^ width T) with (2 * 2 ^ (width T - 1)) in *
      by (rewrite <- Z.pow_succ_r by lia; f_equal; lia).
    lia.
  - pose proof (Z.mod_pos_bound z (2 ^ width T)). lia.
Qed.

Lemma cast_id T z : 0 < width T → in_type T z → cast T z = z.
Proof.
  intros Hw. unfold in_type, cast, type_min, type_max. intros Hz.
  destruct (is_signed T).
  - rewrite Z.mod_small; [lia|].
    replace (2 ^ width T) with (2 * 2 ^ (width T - 1))
      by (rewrite <- Z.pow_succ_r by lia; f_equal; lia).
    lia.
  - apply Z.mod_small. lia.
Qed.

Lemma in_type_unsigned w z : in_type (IntType false w) z ↔ in_width w z.
Proof. unfold in_type, in_width, type_min, type_max; simpl. lia. Qed.

Lemma in_type_uint64 z : in_type uint64 z ↔ in_width 64 z.
Proof. apply in_type_unsigned. Qed.

Lemma cast_unsigned w z : cast (IntType false w) z = wrap w z.
Proof. done. Qed.

(** ** The arithmetic is exact or empty *)

Definition exact (T : int_type) (z : Z) : option Z :=
  if decide (in_type T z) then Some z else None.

Section exactness.
  Context (T : int_type) (Hw : 0 < width T).

Lemma builtin_exact z :
  (let '(Result, Overflow) := builtin_overflow T z in
   if Overflow then None else Some Result) = exact T z.
Proof using Hw.
  unfold builtin_overflow, exact. simpl.
  case_decide; case_bool_decide; simpl; try done. by rewrite cast_id.
Qed.

Lemma add_exact a b : add T a b = exact T (a + b).
Proof using Hw. apply builtin_exact. Qed.

Lemma sub_exact a b : sub T a b = exact T (a - b).
Proof using Hw. apply builtin_exact. Qed.

Lemma mul_exact a b : mul T a b = exact T (a * b).
Proof using Hw. apply builtin_exact. Qed.
End exactness.

Lemma exact_Some T z v : exact T z = Some v ↔ v = z ∧ in_type T z.
Proof. unfold exact. case_decide; naive_solver. Qed.

Lemma exact_None T z : exact T z = None ↔ ¬ in_type T z.
Proof. unfold exact. case_decide; naive_solver. Qed.
