(* ===== verification/LLVMInterfaces.v ===== *)
(** * Interfaces to LLVM's support library

    The classes of this file are what rev.ng relies on in the parts of LLVM it
    calls: arbitrary-precision integers ([llvm::APInt]), string parsing and
    printing, and endian-aware memory access. Each class states documented
    behaviour, and each has a concrete instance showing that it can be
    implemented. *)

From S2P Require Import Prelude.
From S2P Require Import OverflowSafeInt.
From stdpp Require Import strings.
From Stdlib Require Import Ascii.
From Stdlib Require Import DecimalString HexadecimalString DecimalN HexadecimalN DecimalFacts HexadecimalFacts.
Local Open Scope Z_scope.

(** ** Arbitrary-precision integers

    An [APInt] has a bit width and an unsigned value below 2^width. The laws
    give the width and the value of the result of each operation; the
    operations on two operands require equal widths. *)
Class APIntOps := {
  APInt : Type;
  APInt_eq_dec :: EqDecision APInt;
  getBitWidth : APInt → Z;
  getValue : APInt → Z;
  mkAPInt : Z → Z → APInt;
  ap_add : APInt → APInt → APInt;
  ap_sub : APInt → APInt → APInt;
  ap_shl : APInt → Z → APInt;
  ap_lshr : APInt → Z → APInt;
  ap_zext : APInt → Z → APInt;
  ap_sext : APInt → Z → APInt;
  ap_trunc : APInt → Z → APInt;
  ap_and : APInt → Z → APInt;
  getLimitedValue : APInt → Z;
  ap_eq : APInt → APInt → bool;
  ap_ult : APInt → APInt → bool;
  ap_isZero : APInt → bool;
  ap_isMaxValue : APInt → bool;
  ap_inc : APInt → APInt;
  getHighBitsSet : Z → Z → APInt;
}.

(** The signed reading of a [w]-bit value. *)
Definition signed_value (w z : Z) : Z := if z <? 2 ^ (w - 1) then z else z - 2 ^ w.

Class APIntLaws `{!APIntOps} : Prop := {
  ap_width_pos a : 0 ≤ getBitWidth a;
  ap_range a : in_width (getBitWidth a) (getValue a);
  ap_ext a b : getBitWidth a = getBitWidth b → getValue a = getValue b → a = b;
  mk_width w z : 0 ≤ w → getBitWidth (mkAPInt w z) = w;
  mk_value w z : 0 ≤ w → getValue (mkAPInt w z) = wrap w z;
  add_width a b : getBitWidth a = getBitWidth b →
    getBitWidth (ap_add a b) = getBitWidth a;
  add_value a b : getBitWidth a = getBitWidth b →
    getValue (ap_add a b) = wrap (getBitWidth a) (getValue a + getValue b);
  sub_width a b : getBitWidth a = getBitWidth b →
    getBitWidth (ap_sub a b) = getBitWidth a;
  sub_value a b : getBitWidth a = getBitWidth b →
    getValue (ap_sub a b) = wrap (getBitWidth a) (getValue a - getValue b);
  shl_width a k : 0 ≤ k ≤ getBitWidth a → getBitWidth (ap_shl a k) = getBitWidth a;
  shl_value a k : 0 ≤ k ≤ getBitWidth a →
    getValue (ap_shl a k) = wrap (getBitWidth a) (getValue a * 2 ^ k);
  lshr_width a k : 0 ≤ k ≤ getBitWidth a → getBitWidth (ap_lshr a k) = getBitWidth a;
  lshr_value a k : 0 ≤ k ≤ getBitWidth a →
    getValue (ap_lshr a k) = getValue a / 2 ^ k;
  zext_width a w : getBitWidth a ≤ w → getBitWidth (ap_zext a w) = w;
  zext_value a w : getBitWidth a ≤ w → getValue (ap_zext a w) = getValue a;
  sext_width a w : getBitWidth a ≤ w → getBitWidth (ap_sext a w) = w;
  sext_value a w : 0 < getBitWidth a ≤ w →
    getValue (ap_sext a w) = wrap w (signed_value (getBitWidth a) (getValue a));
  trunc_width a w : 0 ≤ w ≤ getBitWidth a → getBitWidth (ap_trunc a w) = w;
  trunc_value a w : 0 ≤ w ≤ getBitWidth a → getValue (ap_trunc a w) = wrap w (getValue a);
  and_width a z : getBitWidth (ap_and a z) = getBitWidth a;
  and_value a z : 0 ≤ z → getValue (ap_and a z) = Z.land (getValue a) z;
  limited_value a : getLimitedValue a = Z.min (getValue a) (2 ^ 64 - 1);
  eq_value a b : getBitWidth a = getBitWidth b → ap_eq a b = (getValue a =? getValue b);
  ult_value a b : getBitWidth a = getBitWidth b → ap_ult a b = (getValue a <? getValue b);
  isZero_value a : ap_isZero a = (getValue a =? 0);
  isMaxValue_value a : ap_isMaxValue a = (getValue a =? 2 ^ getBitWidth a - 1);
  inc_width a : getBitWidth (ap_inc a) = getBitWidth a;
  inc_value a : getValue (ap_inc a) = wrap (getBitWidth a) (getValue a + 1);
  highBits_width w k : 0 ≤ k ≤ w → getBitWidth (getHighBitsSet w k) = w;
  highBits_value w k : 0 ≤ k ≤ w → getValue (getHighBitsSet w k) = 2 ^ w - 2 ^ (w - k);
}.

Lemma land_le a z : 0 ≤ a → Z.land a z ≤ a.
Proof.
  intros Ha. apply Z.ldiff_le; [done|]. apply Z.bits_inj'. intros i _.
  rewrite Z.ldiff_spec, Z.land_spec, Z.testbit_0_l.
  by destruct (Z.testbit a i), (Z.testbit z i).
Qed.

(** An implementation: a width and an unreduced representative. *)
Module ConcreteAPInt.

Record rep := mk { rep_width : Z; rep_value : Z }.

#[global] Instance rep_eq_dec : EqDecision rep.
Proof. solve_decision. Defined.

(** Only reduced pairs are integers. *)
Definition reduced (r : rep) : bool :=
  bool_decide (0 ≤ rep_width r) && bool_decide (in_width (rep_width r) (rep_value r)).

Record t := pack { unpack : rep; unpack_reduced : Is_true (reduced unpack) }.

Lemma t_eq (a b : t) : unpack a = unpack b → a = b.
Proof. destruct a as [r p], b as [r' p']. simpl. intros ->. f_equal. apply proof_irrel. Qed.

#[global] Instance t_eq_dec : EqDecision t.
Proof.
  intros a b. destruct (decide (unpack a = unpack b)) as [H|H].
  - left. by apply t_eq.
  - right. by intros ->.
Defined.

Lemma mk_reduced w z : Is_true (reduced (mk (Z.max 0 w) (wrap (Z.max 0 w) z))).
Proof.
  apply andb_prop_intro; split; apply bool_decide_pack; simpl; [lia|].
  apply wrap_in_width. lia.
Qed.

Definition make (w z : Z) : t := pack _ (mk_reduced w z).

Definition bw (a : t) : Z := rep_width (unpack a).
Definition val (a : t) : Z := rep_value (unpack a).

#[global] Instance ops : APIntOps := {|
  APInt := t;
  getBitWidth := bw;
  getValue := val;
  mkAPInt := make;
  ap_add a b := make (bw a) (val a + val b);
  ap_sub a b := make (bw a) (val a - val b);
  ap_shl a k := make (bw a) (val a * 2 ^ k);
  ap_lshr a k := make (bw a) (val a / 2 ^ k);
  ap_zext a w := make w (val a);
  ap_sext a w := make w (signed_value (bw a) (val a));
  ap_trunc a w := make w (val a);
  ap_and a z := make (bw a) (Z.land (val a) z);
  getLimitedValue a := Z.min (val a) (2 ^ 64 - 1);
  ap_eq a b := val a =? val b;
  ap_ult a b := val a <? val b;
  ap_isZero a := val a =? 0;
  ap_isMaxValue a := val a =? 2 ^ bw a - 1;
  ap_inc a := make (bw a) (val a + 1);
  getHighBitsSet w k := make w (2 ^ w - 2 ^ (w - k));
|}.

Lemma t_props (a : t) : 0 ≤ bw a ∧ in_width (bw a) (val a).
Proof.
  destruct a as [r H]. pose proof (andb_prop_elim _ _ H) as [H1 H2].
  split; [exact (bool_decide_unpack _ H1)|exact (bool_decide_unpack _ H2)].
Qed.

Lemma make_bw w z : 0 ≤ w → bw (make w z) = w.
Proof. unfold bw. simpl. lia. Qed.

Lemma make_val w z : 0 ≤ w → val (make w z) = wrap w z.
Proof. unfold val. simpl. intros. by rewrite Z.max_r. Qed.

#[global] Instance laws : APIntLaws.
Proof.
  split; simpl; try (intros a; pose proof (t_props a) as [Ha Hr]); try done; intros.
  - apply t_eq. unfold bw, val in *. destruct (unpack a), (unpack b). simpl in *. congruence.
  - by apply make_bw.
  - by apply make_val.
  - by apply make_bw.
  - by apply make_val.
  - by apply make_bw.
  - by apply make_val.
  - by apply make_bw.
  - by apply make_val.
  - by apply make_bw.
  - rewrite make_val by done. apply wrap_small. destruct Hr as [Hr0 Hr1]. split.
    + apply Z.div_pos; [done|]. apply Z.pow_pos_nonneg; lia.
    + eapply Z.le_lt_trans; [|exact Hr1].
      apply Z.div_le_upper_bound; [apply Z.pow_pos_nonneg; lia|].
      assert (0 < 2 ^ k) by (apply Z.pow_pos_nonneg; lia). nia.
  - apply make_bw. lia.
  - rewrite make_val by lia. apply wrap_small. eapply in_width_weaken; [|done]. lia.
  - apply make_bw. lia.
  - apply make_val. lia.
  - apply make_bw. lia.
  - apply make_val. lia.
  - by apply make_bw.
  - rewrite make_val by done. apply wrap_small. destruct Hr as [Hr0 Hr1].
    assert (0 ≤ Z.land (val a) z) by (apply Z.land_nonneg; lia). split; [done|].
    eapply Z.le_lt_trans; [|exact Hr1]. apply land_le. lia.
  - by apply make_bw.
  - by apply make_val.
  - apply make_bw. lia.
  - rewrite make_val by lia. apply wrap_small. unfold in_width.
    assert (2 ^ (w - k) ≤ 2 ^ w) by (apply Z.pow_le_mono_r; lia).
    assert (0 < 2 ^ (w - k)) by (apply Z.pow_pos_nonneg; lia). lia.
Qed.

End ConcreteAPInt.

(** ** Strings

    [splitText] is [StringRef::split] with its default arguments on a one-character
    separator; [getAsInteger radix T] parses a whole string as a value of [T],
    radix 0 standing for the radix announced by the
    prefix, and [getAsAPInt] as an integer as wide as needed; [consumeInteger]
    parses the longest numeric prefix and also returns the rest; [utohexstr],
    [utohexstrLower] and [printInt] are [llvm::utohexstr] with each case and
    [raw_ostream::operator<<] (or [std::to_string]) on unsigned integers. *)

Fixpoint hasChar (c : ascii) (s : string) : bool :=
  match s with
  | EmptyString => false
  | String d s => Ascii.eqb c d || hasChar c s
  end.

Fixpoint joinText (c : ascii) (parts : list string) : string :=
  match parts with
  | [] => EmptyString
  | [p] => p
  | p :: parts => p +:+ String c (joinText c parts)
  end.

Class StringOps `{!APIntOps} := {
  utohexstr : Z → string;
  utohexstrLower : Z → string;
  printInt : Z → string;
  getAsInteger : Z → int_type → string → option Z;
  getAsAPInt : Z → string → option APInt;
  consumeInteger : Z → int_type → string → option (Z * string);
  splitText : string → ascii → list string;
}.

(** The characters the printers never produce. *)
Definition punctuation (c : ascii) : bool :=
  Ascii.eqb c ":" || Ascii.eqb c "_" || Ascii.eqb c "-".

Class StringLaws `{!APIntOps, !StringOps} : Prop := {
  hex_chars n c : 0 ≤ n → punctuation c = true → hasChar c (utohexstr n) = false;
  dec_chars n c : 0 ≤ n → punctuation c = true → hasChar c (printInt n) = false;
  dec_nonempty n : 0 ≤ n → printInt n ≠ ""%string;
  parse_hex n T : 0 ≤ n → in_type T n →
    getAsInteger 0 T ("0x" +:+ utohexstr n) = Some n;
  parse_dec n T : 0 ≤ n → in_type T n → getAsInteger 0 T (printInt n) = Some n;
  parse_dec10 n T : 0 ≤ n → in_type T n → getAsInteger 10 T (printInt n) = Some n;
  parse_hex16 n T : 0 ≤ n → in_type T n → getAsInteger 16 T (utohexstrLower n) = Some n;
  consume_dec n T : 0 ≤ n → in_type T n → consumeInteger 10 T (printInt n) = Some (n, ""%string);
  consume_range radix T s n rest : consumeInteger radix T s = Some (n, rest) → in_type T n;
  parse_range radix T s n : getAsInteger radix T s = Some n → in_type T n;
  parse_ap n : 0 ≤ n → ∃ a, getAsAPInt 10 (printInt n) = Some a ∧ getValue a = n;
  split_nonempty c s : splitText s c ≠ [];
  split_join c parts : parts ≠ [] → Forall (λ p, hasChar c p = false) parts →
    splitText (joinText c parts) c = parts;
}.

Module ConcreteStrings.

Fixpoint splitOn (c : ascii) (s : string) : string * list string :=
  match s with
  | EmptyString => (EmptyString, [])
  | String d s =>
      let '(p, rest) := splitOn c s in
      if Ascii.eqb c d then (EmptyString, p :: rest) else (String d p, rest)
  end.

Definition decOf (n : Z) : string := DecimalString.NilZero.string_of_uint (N.to_uint (Z.to_N n)).
Definition hexaOf (n : Z) : string :=
  HexadecimalString.NilZero.string_of_uint (N.to_hex_uint (Z.to_N n)).

Definition checked (T : int_type) (n : Z) : option Z :=
  if decide (in_type T n) then Some n else None.

Definition parseDec (T : int_type) (s : string) : option Z :=
  d ← DecimalString.NilZero.uint_of_string s; checked T (Z.of_N (N.of_uint d)).

Definition parseHex (T : int_type) (s : string) : option Z :=
  d ← HexadecimalString.NilZero.uint_of_string s; checked T (Z.of_N (N.of_hex_uint d)).

Definition parse (radix : Z) (T : int_type) (s : string) : option Z :=
  if radix =? 0 then
    match s with
    | String a (String b rest) =>
        if Ascii.eqb a "0" && Ascii.eqb b "x" then parseHex T rest else parseDec T s
    | _ => parseDec T s
    end
  else if radix =? 16 then parseHex T s
  else parseDec T s.

Definition isDigit (c : ascii) : bool := (48 <=? N_of_ascii c)%N && (N_of_ascii c <=? 57)%N.

Fixpoint splitDigits (s : string) : string * string :=
  match s with
  | EmptyString => (EmptyString, EmptyString)
  | String c rest =>
      if isDigit c then let '(d, r) := splitDigits rest in (String c d, r) else (EmptyString, s)
  end.

Definition consume (radix : Z) (T : int_type) (s : string) : option (Z * string) :=
  let '(d, rest) := splitDigits s in n ← parseDec T d; Some (n, rest).

Definition parseAPInt (radix : Z) (s : string) : option ConcreteAPInt.t :=
  d ← DecimalString.NilZero.uint_of_string s;
  let n := Z.of_N (N.of_uint d) in
  Some (ConcreteAPInt.make (Z.log2_up (n + 1)) n).

#[global] Instance ops : StringOps := {|
  utohexstr := hexaOf;
  utohexstrLower := hexaOf;
  printInt := decOf;
  getAsInteger := parse;
  getAsAPInt := parseAPInt;
  consumeInteger := consume;
  splitText s c := let '(p, rest) := splitOn c s in p :: rest;
|}.

Lemma punctuation_cases c : punctuation c = true → c = ":"%char ∨ c = "_"%char ∨ c = "-"%char.
Proof. unfold punctuation. rewrite !orb_true_iff, !Ascii.eqb_eq. tauto. Qed.

Lemma hexa_chars d c :
  punctuation c = true → hasChar c (HexadecimalString.NilZero.string_of_uint d) = false.
Proof.
  intros [-> | [-> | ->]]%punctuation_cases;
    (destruct d as [|d|d|d|d|d|d|d|d|d|d|d|d|d|d|d|d]; [done|..]);
    simpl; induction d; done.
Qed.

Lemma deci_chars d c :
  punctuation c = true → hasChar c (DecimalString.NilZero.string_of_uint d) = false.
Proof.
  intros [-> | [-> | ->]]%punctuation_cases;
    (destruct d as [|d|d|d|d|d|d|d|d|d|d]; [done|..]); simpl; induction d; done.
Qed.

Lemma dec_roundtrip n :
  DecimalString.NilZero.uint_of_string (decOf n) = Some (N.to_uint (Z.to_N n)).
Proof. apply DecimalString.NilZero.usu. unfold N.to_uint. destruct (Z.to_N n); [done|]. apply DecimalPos.Unsigned.to_uint_nonnil. Qed.

Lemma hexa_roundtrip n :
  HexadecimalString.NilZero.uint_of_string (hexaOf n) = Some (N.to_hex_uint (Z.to_N n)).
Proof. apply HexadecimalString.NilZero.usu. unfold N.to_hex_uint. destruct (Z.to_N n); [done|]. apply HexadecimalPos.Unsigned.to_uint_nonnil. Qed.

Lemma parseDec_print T n : 0 ≤ n → in_type T n → parseDec T (decOf n) = Some n.
Proof.
  intros. unfold parseDec. rewrite dec_roundtrip. simpl.
  rewrite DecimalN.Unsigned.of_to, Z2N.id by done. unfold checked. by rewrite decide_True.
Qed.

Lemma parseHex_print T n : 0 ≤ n → in_type T n → parseHex T (hexaOf n) = Some n.
Proof.
  intros. unfold parseHex. rewrite hexa_roundtrip. simpl.
  rewrite HexadecimalN.Unsigned.of_to, Z2N.id by done. unfold checked. by rewrite decide_True.
Qed.

Lemma split_no_char c s : hasChar c s = false → splitOn c s = (s, []).
Proof.
  induction s as [|d s IH]; simpl; [done|]. rewrite orb_false_iff. intros [Hd Hs].
  by rewrite IH, Hd.
Qed.

Lemma split_app c p s :
  hasChar c p = false →
  splitOn c (p +:+ String c s) = (p, let '(q, rest) := splitOn c s in q :: rest).
Proof.
  induction p as [|d p IH]; simpl.
  - intros _. destruct (splitOn c s). by rewrite Ascii.eqb_refl.
  - rewrite orb_false_iff. intros [Hd Hs]. by rewrite IH, Hd.
Qed.

Lemma parse_zero T s : hasChar "x" s = false → parse 0 T s = parseDec T s.
Proof.
  destruct s as [|a [|b s]]; [done..|]. unfold parse. cbn [hasChar Z.eqb].
  rewrite !orb_false_iff, (Ascii.eqb_sym "x" b). intros (_ & -> & _). by rewrite andb_false_r.
Qed.

Lemma deci_no_x d : hasChar "x" (DecimalString.NilZero.string_of_uint d) = false.
Proof.
  assert (∀ d, hasChar "x" (DecimalString.NilEmpty.string_of_uint d) = false) as Hd.
  { induction d0; done. }
  destruct d; simpl; try done; apply (Hd (_ d)).
Qed.

Lemma split_digits d :
  splitDigits (DecimalString.NilEmpty.string_of_uint d) = (DecimalString.NilEmpty.string_of_uint d, ""%string).
Proof. induction d as [|d IH|d IH|d IH|d IH|d IH|d IH|d IH|d IH|d IH|d IH]; simpl; by rewrite ?IH. Qed.

Lemma consume_print n : splitDigits (decOf n) = (decOf n, ""%string).
Proof.
  unfold decOf. destruct (N.to_uint (Z.to_N n)) as [|d|d|d|d|d|d|d|d|d|d]; [done|..];
    exact (split_digits (_ d)).
Qed.

#[global] Instance laws : StringLaws.
Proof.
  split; simpl.
  - intros. by apply hexa_chars.
  - intros. by apply deci_chars.
  - intros n _ He. pose proof (dec_roundtrip n) as H. by rewrite He in H.
  - intros. unfold parse. simpl. by apply parseHex_print.
  - intros. rewrite parse_zero by apply deci_no_x. by apply parseDec_print.
  - intros. unfold parse. simpl. by apply parseDec_print.
  - intros. unfold parse. simpl. by apply parseHex_print.
  - intros. unfold consume. rewrite consume_print, parseDec_print by done. done.
  - intros radix T s n rest. unfold consume, parseDec, checked. destruct (splitDigits s) as [d r].
    intros Hc. repeat case_match; simplify_option_eq; done.
  - intros radix T s n. unfold parse, parseDec, parseHex, checked.
    repeat case_match; intros ?; simplify_option_eq; done.
  - intros n Hn. unfold parseAPInt. rewrite dec_roundtrip. simpl.
    rewrite DecimalN.Unsigned.of_to, Z2N.id by done. eexists; split; [done|].
    rewrite ConcreteAPInt.make_val by apply Z.log2_up_nonneg. apply wrap_small. split; [done|].
    destruct (decide (n = 0)) as [->|]; [done|].
    destruct (Z.log2_up_spec (n + 1)) as [_ ?]; lia.
  - intros c s. by destruct (splitOn c s).
  - intros c parts Hne Hf. induction Hf as [|p parts Hp Hf IH]; [done|]. simpl.
    destruct parts as [|q parts]; [by rewrite split_no_char|].
    rewrite split_app by done. rewrite IH by done. done.
Qed.

End ConcreteStrings.
