(* ===== verification/MetaAddressType.v ===== *)
(** * Address types

    [MetaAddressType] (include/revng/Support/MetaAddress.h, first part): the
    enumeration of the address types and the tables over it. *)

From S2P Require Import Prelude.
From S2P Require Architecture.
From stdpp Require Import strings.

(** The enumeration has [uint16_t] as its underlying type, and values of it are
    produced by casts from integers: [Unnamed r] is the value [r] above [Count]
    that no enumerator names. *)
(* include/revng/Support/MetaAddress.h:39-74 MetaAddressType::Values *)
Inductive Values : Set :=
  | Invalid
  | Generic32
  | Generic64
  | Code_x86
  | Code_x86_64
  | Code_mips
  | Code_mipsel
  | Code_arm
  | Code_arm_thumb
  | Code_aarch64
  | Code_systemz
  | Count
  | Unnamed (raw : Z).

#[global] Instance Values_eq_dec : EqDecision Values.
Proof. solve_decision. Defined.

(** The conversions between the enumeration and its underlying type. *)
Definition toRaw (V : Values) : Z :=
  match V with
  | Invalid => 0 | Generic32 => 1 | Generic64 => 2 | Code_x86 => 3
  | Code_x86_64 => 4 | Code_mips => 5 | Code_mipsel => 6 | Code_arm => 7
  | Code_arm_thumb => 8 | Code_aarch64 => 9 | Code_systemz => 10 | Count => 11
  | Unnamed raw => raw
  end.

Definition fromRaw (raw : Z) : Values :=
  match raw with
  | 0 => Invalid | 1 => Generic32 | 2 => Generic64 | 3 => Code_x86
  | 4 => Code_x86_64 | 5 => Code_mips | 6 => Code_mipsel | 7 => Code_arm
  | 8 => Code_arm_thumb | 9 => Code_aarch64 | 10 => Code_systemz | 11 => Count
  | _ => Unnamed raw
  end%Z.

(** Every value is the cast of its 16-bit representation. *)
Definition wf (V : Values) : Prop :=
  match V with Unnamed raw => (11 < raw < 2 ^ 16)%Z | _ => True end.

(* include/revng/Support/MetaAddress.h:76-94 MetaAddressType::isValid *)
Definition isValid (V : Values) : bool :=
  match V with
  | Invalid | Generic32 | Generic64 | Code_x86 | Code_x86_64 | Code_mips
  | Code_mipsel | Code_arm | Code_arm_thumb | Code_aarch64 | Code_systemz => true
  | _ => false
  end.

(* include/revng/Support/MetaAddress.h:96-124 MetaAddressType::toString *)
Definition toString (V : Values) : outcome string :=
  match V with
  | Invalid => Ok "Invalid"
  | Generic32 => Ok "Generic32"
  | Generic64 => Ok "Generic64"
  | Code_x86 => Ok "Code_x86"
  | Code_x86_64 => Ok "Code_x86_64"
  | Code_mips => Ok "Code_mips"
  | Code_mipsel => Ok "Code_mipsel"
  | Code_arm => Ok "Code_arm"
  | Code_arm_thumb => Ok "Code_arm_thumb"
  | Code_aarch64 => Ok "Code_aarch64"
  | Code_systemz => Ok "Code_systemz"
  | _ => revng_abort
  end.

(* include/revng/Support/MetaAddress.h:126-150 MetaAddressType::fromString *)
Definition fromString (Str : string) : Values :=
  if String.eqb Str "Generic32" then Generic32
  else if String.eqb Str "Generic64" then Generic64
  else if String.eqb Str "Code_x86" then Code_x86
  else if String.eqb Str "Code_x86_64" then Code_x86_64
  else if String.eqb Str "Code_mips" then Code_mips
  else if String.eqb Str "Code_mipsel" then Code_mipsel
  else if String.eqb Str "Code_arm" then Code_arm
  else if String.eqb Str "Code_arm_thumb" then Code_arm_thumb
  else if String.eqb Str "Code_aarch64" then Code_aarch64
  else if String.eqb Str "Code_systemz" then Code_systemz
  else Invalid.

(** The loop over [Index]: [fuel] bounds the number of enumerators left. *)
(* include/revng/Support/MetaAddress.h:152-163 MetaAddressType::consumeFromString *)
Fixpoint consumeLoop (fuel : nat) (Index : Values) (Str : string) : outcome string :=
  match fuel with
  | O => Ok Str
  | S fuel =>
    if bool_decide (toRaw Index < toRaw Count)%Z then
      Serialized ← toString Index;
      if String.prefix Serialized Str
      then Ok (String.substring (String.length Serialized)
                 (String.length Str - String.length Serialized) Str)
      else consumeLoop fuel (fromRaw (toRaw Index + 1)) Str
    else Ok Str
  end.

(* include/revng/Support/MetaAddress.h:152-163 MetaAddressType::consumeFromString *)
Definition consumeFromString (Str : string) : outcome string :=
  consumeLoop 12 Invalid Str.

(* include/revng/Support/MetaAddress.h:165-190 MetaAddressType::arch *)
Definition arch (V : Values) : outcome Architecture.Values :=
  match V with
  | Code_x86 => Ok Architecture.x86
  | Code_x86_64 => Ok Architecture.x86_64
  | Code_mips => Ok Architecture.mips
  | Code_mipsel => Ok Architecture.mipsel
  | Code_arm | Code_arm_thumb => Ok Architecture.arm
  | Code_aarch64 => Ok Architecture.aarch64
  | Code_systemz => Ok Architecture.systemz
  | Invalid | Generic32 | Generic64 => Ok Architecture.Invalid
  | _ => revng_abort
  end.

(* include/revng/Support/MetaAddress.h:192-208 MetaAddressType::genericFromArch *)
Definition genericFromArch (Arch : Architecture.Values) : outcome Values :=
  match Arch with
  | Architecture.x86 | Architecture.arm | Architecture.mips | Architecture.mipsel =>
      Ok Generic32
  | Architecture.x86_64 | Architecture.aarch64 | Architecture.systemz =>
      Ok Generic64
  | _ => revng_abort
  end.

(* include/revng/Support/MetaAddress.h:210-236 MetaAddressType::toGeneric *)
Definition toGeneric (Type_ : Values) : outcome Values :=
  match Type_ with
  | Invalid => revng_abort
  | Generic32 | Generic64 => Ok Type_
  | Code_x86 | Code_arm_thumb | Code_mips | Code_mipsel | Code_arm => Ok Generic32
  | Code_x86_64 | Code_systemz | Code_aarch64 => Ok Generic64
  | _ => revng_abort
  end.

(* include/revng/Support/MetaAddress.h:238-258 MetaAddressType::defaultCodeFromArch *)
Definition defaultCodeFromArch (Arch : Architecture.Values) : outcome Values :=
  match Arch with
  | Architecture.x86 => Ok Code_x86
  | Architecture.arm => Ok Code_arm
  | Architecture.mips => Ok Code_mips
  | Architecture.mipsel => Ok Code_mipsel
  | Architecture.x86_64 => Ok Code_x86_64
  | Architecture.aarch64 => Ok Code_aarch64
  | Architecture.systemz => Ok Code_systemz
  | _ => revng_abort
  end.

(* include/revng/Support/MetaAddress.h:260-294 MetaAddressType::archCodeTypes *)
Definition archCodeTypes (Arch : Architecture.Values) : outcome (list Values) :=
  match Arch with
  | Architecture.x86 => Ok [Code_x86]
  | Architecture.arm => Ok [Code_arm; Code_arm_thumb]
  | Architecture.mips => Ok [Code_mips]
  | Architecture.mipsel => Ok [Code_mipsel]
  | Architecture.x86_64 => Ok [Code_x86_64]
  | Architecture.aarch64 => Ok [Code_aarch64]
  | Architecture.systemz => Ok [Code_systemz]
  | _ => revng_abort
  end.

(* include/revng/Support/MetaAddress.h:296-321 MetaAddressType::alignment *)
Definition alignment (Type_ : Values) : outcome Z :=
  match Type_ with
  | Invalid => revng_abort
  | Generic32 | Generic64 | Code_x86 | Code_x86_64 => Ok 1%Z
  | Code_arm_thumb | Code_systemz => Ok 2%Z
  | Code_mips | Code_mipsel | Code_arm | Code_aarch64 => Ok 4%Z
  | _ => revng_abort
  end.

(* include/revng/Support/MetaAddress.h:323-345 MetaAddressType::bitSize *)
Definition bitSize (Type_ : Values) : outcome Z :=
  match Type_ with
  | Invalid => revng_abort
  | Generic32 | Code_x86 | Code_arm_thumb | Code_mips | Code_mipsel | Code_arm =>
      Ok 32%Z
  | Generic64 | Code_x86_64 | Code_systemz | Code_aarch64 => Ok 64%Z
  | _ => revng_abort
  end.

(* include/revng/Support/MetaAddress.h:347-353 MetaAddressType::addressMask *)
Definition addressMask (Type_ : Values) : outcome Z :=
  Size ← bitSize Type_;
  revng_assert (negb (Size =? 0)%Z);;
  Ok (Z.shiftr (2 ^ 64 - 1) (64 - Size)).

(* include/revng/Support/MetaAddress.h:355-377 MetaAddressType::isCode *)
Definition isCode (Type_ : Values) : outcome bool :=
  match Type_ with
  | Invalid | Generic32 | Generic64 => Ok false
  | Code_x86 | Code_arm_thumb | Code_mips | Code_mipsel | Code_arm | Code_x86_64
  | Code_systemz | Code_aarch64 => Ok true
  | _ => revng_abort
  end.

(* include/revng/Support/MetaAddress.h:379-399 MetaAddressType::isCode (two arguments) *)
Definition isCodeFor (Type_ : Values) (Arch : Architecture.Values) : outcome bool :=
  match Arch with
  | Architecture.x86 => Ok (bool_decide (Type_ = Code_x86))
  | Architecture.arm =>
      Ok (bool_decide (Type_ = Code_arm) || bool_decide (Type_ = Code_arm_thumb))
  | Architecture.mips => Ok (bool_decide (Type_ = Code_mips))
  | Architecture.mipsel => Ok (bool_decide (Type_ = Code_mipsel))
  | Architecture.x86_64 => Ok (bool_decide (Type_ = Code_x86_64))
  | Architecture.aarch64 => Ok (bool_decide (Type_ = Code_aarch64))
  | Architecture.systemz => Ok (bool_decide (Type_ = Code_systemz))
  | _ => revng_abort
  end.

(* include/revng/Support/MetaAddress.h:401-423 MetaAddressType::isGeneric *)
Definition isGeneric (Type_ : Values) : outcome bool :=
  match Type_ with
  | Invalid | Code_x86 | Code_arm_thumb | Code_mips | Code_mipsel | Code_arm
  | Code_x86_64 | Code_systemz | Code_aarch64 => Ok false
  | Generic32 | Generic64 => Ok true
  | _ => revng_abort
  end.

(* include/revng/Support/MetaAddress.h:425-445 MetaAddressType::isDefaultCode *)
Definition isDefaultCode (Type_ : Values) : outcome bool :=
  match Type_ with
  | Code_x86 | Code_mips | Code_mipsel | Code_arm | Code_x86_64 | Code_systemz
  | Code_aarch64 => Ok true
  | Invalid | Generic32 | Generic64 | Code_arm_thumb => Ok false
  | _ => revng_abort
  end.

(* include/revng/Support/MetaAddress.h:447-467 MetaAddressType::getLLVMCPUFeatures *)
Definition getLLVMCPUFeatures (Type_ : Values) : outcome string :=
  match Type_ with
  | Code_arm_thumb => Ok "+thumb-mode"
  | Invalid | Generic32 | Generic64 | Code_x86 | Code_mips | Code_mipsel | Code_arm
  | Code_x86_64 | Code_systemz | Code_aarch64 => Ok ""
  | _ => revng_abort
  end.

(** ** Properties of the tables *)

(** The types a valid address can have. *)
Definition proper (V : Values) : bool :=
  match V with Invalid => false | _ => isValid V end.

(** Total views of [bitSize] and [alignment] (0 where the code aborts). *)
Definition bits (V : Values) : Z :=
  match bitSize V with Ok b => b | Fault _ => 0 end.

Definition align (V : Values) : Z :=
  match alignment V with Ok a => a | Fault _ => 0 end.

Lemma bitSize_proper V : proper V = true → bitSize V = Ok (bits V).
Proof. by destruct V. Qed.

Lemma alignment_proper V : proper V = true → alignment V = Ok (align V).
Proof. by destruct V. Qed.

Lemma bits_cases V : proper V = true → bits V = 32%Z ∨ bits V = 64%Z.
Proof. destruct V; naive_solver. Qed.

Lemma align_cases V :
  proper V = true → align V = 1%Z ∨ align V = 2%Z ∨ align V = 4%Z.
Proof. destruct V; naive_solver. Qed.

Lemma addressMask_proper V :
  proper V = true → addressMask V = Ok (Z.ones (bits V)).
Proof. by destruct V. Qed.

Lemma toRaw_fromRaw raw : toRaw (fromRaw raw) = raw.
Proof.
  destruct raw as [|p|p]; [done| |done].
  repeat (destruct p as [p|p|]; [| |]; try done).
Qed.

Lemma fromRaw_toRaw V : wf V → fromRaw (toRaw V) = V.
Proof.
  destruct V as [| | | | | | | | | | | |raw]; try done. simpl. intros [Hlo _].
  destruct raw as [|p|p]; [lia| |lia].
  repeat (destruct p as [p|p|]; [| |]; try done; try lia).
Qed.

Lemma toRaw_inj V W : wf V → wf W → toRaw V = toRaw W → V = W.
Proof. intros HV HW Heq. by rewrite <-(fromRaw_toRaw V), <-(fromRaw_toRaw W), Heq. Qed.

Lemma toRaw_range V : wf V → in_width 16 (toRaw V).
Proof. unfold in_width. destruct V; simpl; lia. Qed.

Lemma proper_wf V : proper V = true → wf V.
Proof. by destruct V. Qed.

(** The order of the raw values singles out the proper types. *)
Lemma proper_raw V : wf V → proper V = true ↔ V ≠ Invalid ∧ (toRaw V < toRaw Count)%Z.
Proof. destruct V; simpl; naive_solver lia. Qed.

Lemma fromString_toString V Name :
  isValid V = true → toString V = Ok Name → fromString Name = V.
Proof. destruct V; simpl; intros; simplify_eq; done. Qed.

Lemma fromString_proper Name : fromString Name = Invalid ∨ proper (fromString Name) = true.
Proof. unfold fromString. repeat case_match; naive_solver. Qed.

Lemma toString_fromString Name :
  fromString Name ≠ Invalid → toString (fromString Name) = Ok Name.
Proof.
  unfold fromString. intros H.
  repeat case_match; rewrite ?String.eqb_eq in *; by subst.
Qed.

(** ** The type tables and the architecture tables agree *)

(** For every architecture, the code types listed by [archCodeTypes] are
    exactly those [isCode] accepts for it, exactly those [arch] maps back to
    it, and their bit size is that of the architecture's pointers and of its
    generic type. *)
Lemma code_types_of_arch Arch V :
  Architecture.isMember Arch = true →
  isCodeFor V Arch = Ok true ↔ arch V = Ok Arch.
Proof. by destruct Arch, V. Qed.

Lemma archCodeTypes_spec Arch l V :
  archCodeTypes Arch = Ok l → V ∈ l ↔ isCodeFor V Arch = Ok true.
Proof.
  destruct Arch; simpl; intros [= <-]; destruct V; simpl;
    rewrite ?elem_of_cons, ?elem_of_nil; naive_solver.
Qed.

Lemma bits_of_arch V Arch :
  arch V = Ok Arch → Architecture.isMember Arch = true →
  Architecture.getPointerSize Arch = Ok (bits V / 8)%Z ∧
  toGeneric V = genericFromArch Arch.
Proof. destruct V; simpl; intros [= <-]; done. Qed.

Lemma defaultCode_spec Arch V :
  defaultCodeFromArch Arch = Ok V → arch V = Ok Arch ∧ isDefaultCode V = Ok true.
Proof. destruct Arch; simpl; intros [= <-]; done. Qed.

(** [Invalid], generic and code types partition the valid types. *)
Lemma type_partition V :
  isValid V = true →
  (V = Invalid ∧ isGeneric V = Ok false ∧ isCode V = Ok false) ∨
  (isGeneric V = Ok true ∧ isCode V = Ok false ∧ arch V = Ok Architecture.Invalid) ∨
  (isGeneric V = Ok false ∧ isCode V = Ok true ∧
   ∃ Arch, arch V = Ok Arch ∧ Architecture.isMember Arch = true).
Proof. destruct V; simpl; naive_solver. Qed.
