(* ===== verification/MetaAddress.v ===== *)
(** * Meta-addresses

    [MetaAddress] (include/revng/Support/MetaAddress.h): an address with a
    type, an address space and an epoch, and arithmetic that turns into the
    invalid address whenever it leaves the range (or the alignment) of the
    type. *)

From S2P Require Import Prelude.
From S2P Require Import OverflowSafeInt.
From S2P Require Architecture.
From S2P Require MetaAddressType.
Local Open Scope Z_scope.

Notation AType := MetaAddressType.Values.

(* include/revng/Runtime/PlainMetaAddress.h:9-14 PlainMetaAddress *)
Record MetaAddress := mkMA {
  Epoch : Z;
  AddressSpace : Z;
  Type_ : AType;
  Address : Z;
}.

#[global] Instance MetaAddress_eq_dec : EqDecision MetaAddress.
Proof. solve_decision. Defined.

(** The fields fit their C++ types. *)
Record wf (m : MetaAddress) : Prop := {
  wf_Epoch : in_width 32 (Epoch m);
  wf_AddressSpace : in_width 16 (AddressSpace m);
  wf_Type : MetaAddressType.wf (Type_ m);
  wf_Address : in_width 64 (Address m);
}.

(** ** Construction and validation *)

(* include/revng/Support/MetaAddress.h:520-523 MetaAddress::MetaAddress() *)
Definition default : MetaAddress := mkMA 0 0 MetaAddressType.Invalid 0.

(* include/revng/Support/MetaAddress.h:550-551 MetaAddress::invalid *)
Definition invalid : MetaAddress := default.

(* include/revng/Support/MetaAddress.h:538-541 MetaAddress::MetaAddress(Tombstone) *)
Definition tombstone : MetaAddress := mkMA 0 0 MetaAddressType.Invalid 1.

(* include/revng/Support/MetaAddress.h:882-884 MetaAddress::isInvalid *)
Definition isInvalid (m : MetaAddress) : bool :=
  bool_decide (Type_ m = MetaAddressType.Invalid).

(* include/revng/Support/MetaAddress.h:885-885 MetaAddress::isValid *)
Definition isValid (m : MetaAddress) : bool := negb (isInvalid m).

(* include/revng/Support/MetaAddress.h:1003-1005 MetaAddress::addressMask *)
Definition addressMask (m : MetaAddress) : outcome Z :=
  MetaAddressType.addressMask (Type_ m).

(* include/revng/Support/MetaAddress.h:978-994 MetaAddress::verify *)
Definition verify (m : MetaAddress) : outcome bool :=
  if bool_decide (Type_ m = MetaAddressType.Invalid) ||
     (MetaAddressType.toRaw MetaAddressType.Count <=? MetaAddressType.toRaw (Type_ m))
  then Ok false
  else
    Alignment ← MetaAddressType.alignment (Type_ m);
    if negb (Address m mod Alignment =? 0) then Ok false
    else
      Mask ← addressMask m;
      if negb (Address m =? Z.land (Address m) Mask) then Ok false
      else Ok true.

(* include/revng/Support/MetaAddress.h:996-1001 MetaAddress::validate, setInvalid *)
Definition validate (m : MetaAddress) : outcome MetaAddress :=
  v ← verify m;
  if negb v then Ok default else Ok m.

(* include/revng/Support/MetaAddress.h:525-536 MetaAddress::MetaAddress(Address, Type, Epoch, AddressSpace) *)
Definition make (Address_ : Z) (Ty : AType) (Epoch_ AddressSpace_ : Z) :
    outcome MetaAddress :=
  validate (mkMA Epoch_ AddressSpace_ Ty Address_).

Definition withType (m : MetaAddress) (Ty : AType) : MetaAddress :=
  mkMA (Epoch m) (AddressSpace m) Ty (Address m).

Definition withAddress (m : MetaAddress) (a : Z) : MetaAddress :=
  mkMA (Epoch m) (AddressSpace m) (Type_ m) a.

(* include/revng/Support/MetaAddress.h:1021-1024 MetaAddress::setAddress *)
Definition setAddress (m : MetaAddress) (NewAddress : Z) : outcome MetaAddress :=
  Mask ← addressMask m;
  validate (withAddress m (Z.land NewAddress Mask)).

(* include/revng/Support/MetaAddress.h:1007-1019 MetaAddress::setPC *)
Definition setPC (m : MetaAddress) (PC : Z) : outcome MetaAddress :=
  if bool_decide (Type_ m = MetaAddressType.Code_arm_thumb) then
    if Z.land PC 1 =? 0 then Ok default
    else setAddress m (Z.land PC (2 ^ 64 - 2))
  else setAddress m PC.

(** ** Factories *)

(* include/revng/Support/MetaAddress.h:553-581 MetaAddress::fromPC *)
Definition fromPC (Arch : Architecture.Values) (PC Epoch_ AddressSpace_ : Z) :
    outcome MetaAddress :=
  Ty ← MetaAddressType.defaultCodeFromArch Arch;
  Result ← make 0 Ty Epoch_ AddressSpace_;
  revng_assert (isValid Result);;
  let Result :=
    if bool_decide (Arch = Architecture.arm) && (Z.land PC 1 =? 1)
    then withType Result MetaAddressType.Code_arm_thumb
    else Result in
  Result ← setPC Result PC;
  validate Result.

(* include/revng/Support/MetaAddress.h:594-603 MetaAddress::fromGeneric *)
Definition fromGeneric (Arch : Architecture.Values) (Address_ Epoch_ AddressSpace_ : Z) :
    outcome MetaAddress :=
  Ty ← MetaAddressType.genericFromArch Arch;
  make Address_ Ty Epoch_ AddressSpace_.

(* include/revng/Support/MetaAddress.h:505-513 MetaAddress::Features *)
Record Features := mkFeatures {
  fArchitecture : Architecture.Values;
  fEpoch : Z;
  fAddressSpace : Z;
}.

(* include/revng/Support/MetaAddress.h:587-592 MetaAddress::fromPC(Address, Features) *)
Definition fromPCFeatures (Address_ : Z) (F : Features) : outcome MetaAddress :=
  fromPC (fArchitecture F) Address_ (fEpoch F) (fAddressSpace F).

(* include/revng/Support/MetaAddress.h:605-611 MetaAddress::fromGeneric(Address, Features) *)
Definition fromGenericFeatures (Address_ : Z) (F : Features) : outcome MetaAddress :=
  Ty ← MetaAddressType.genericFromArch (fArchitecture F);
  make Address_ Ty (fEpoch F) (fAddressSpace F).

(** ** Accessors *)

(* include/revng/Support/MetaAddress.h:822-825 MetaAddress::address *)
Definition address (m : MetaAddress) : outcome Z :=
  revng_assert (isValid m);; Ok (Address m).

(* include/revng/Support/MetaAddress.h:867-870 MetaAddress::addressSpace *)
Definition addressSpace (m : MetaAddress) : outcome Z :=
  revng_assert (isValid m);; Ok (AddressSpace m).

(* include/revng/Support/MetaAddress.h:871-871 MetaAddress::isDefaultAddressSpace *)
Definition isDefaultAddressSpace (m : MetaAddress) : outcome bool :=
  s ← addressSpace m; Ok (s =? 0).

(* include/revng/Support/MetaAddress.h:873-876 MetaAddress::epoch *)
Definition epoch (m : MetaAddress) : outcome Z :=
  revng_assert (isValid m);; Ok (Epoch m).

(* include/revng/Support/MetaAddress.h:877-877 MetaAddress::isDefaultEpoch *)
Definition isDefaultEpoch (m : MetaAddress) : outcome bool :=
  e ← epoch m; Ok (e =? 0).

(* include/revng/Support/MetaAddress.h:886-886 MetaAddress::isCode *)
Definition isCode (m : MetaAddress) : outcome bool := MetaAddressType.isCode (Type_ m).

(* include/revng/Support/MetaAddress.h:887-889 MetaAddress::isCode(Arch) *)
Definition isCodeFor (m : MetaAddress) (Arch : Architecture.Values) : outcome bool :=
  MetaAddressType.isCodeFor (Type_ m) Arch.

(* include/revng/Support/MetaAddress.h:890-892 MetaAddress::isGeneric *)
Definition isGeneric (m : MetaAddress) : outcome bool :=
  MetaAddressType.isGeneric (Type_ m).

(* include/revng/Support/MetaAddress.h:893-895 MetaAddress::bitSize *)
Definition bitSize (m : MetaAddress) : outcome Z := MetaAddressType.bitSize (Type_ m).

(* include/revng/Support/MetaAddress.h:896-898 MetaAddress::alignment *)
Definition alignment (m : MetaAddress) : outcome Z :=
  MetaAddressType.alignment (Type_ m).

(* include/revng/Support/MetaAddress.h:900-902 MetaAddress::arch *)
Definition arch (m : MetaAddress) : outcome Architecture.Values :=
  MetaAddressType.arch (Type_ m).

(* include/revng/Support/MetaAddress.h:904-906 MetaAddress::isDefaultCode *)
Definition isDefaultCode (m : MetaAddress) : outcome bool :=
  MetaAddressType.isDefaultCode (Type_ m).

(* include/revng/Support/MetaAddress.h:835-865 MetaAddress::asPCOrZero *)
Definition asPCOrZero (m : MetaAddress) : outcome Z :=
  code ← isCode m;
  revng_assert (code || isInvalid m);;
  match Type_ m with
  | MetaAddressType.Invalid => revng_assert (Address m =? 0);; Ok 0
  | MetaAddressType.Code_arm_thumb =>
      revng_assert (Z.land (Address m) 1 =? 0);;
      Ok (Z.lor (Address m) 1)
  | MetaAddressType.Code_x86 | MetaAddressType.Code_x86_64
  | MetaAddressType.Code_systemz | MetaAddressType.Code_mips
  | MetaAddressType.Code_mipsel | MetaAddressType.Code_arm
  | MetaAddressType.Code_aarch64 => Ok (Address m)
  | _ => revng_abort
  end.

(* include/revng/Support/MetaAddress.h:827-833 MetaAddress::asPC *)
Definition asPC (m : MetaAddress) : outcome Z :=
  revng_assert (isValid m);; asPCOrZero m.

(* include/revng/Support/MetaAddress.h:583-585 MetaAddress::fromPC(Base, Address) *)
Definition fromPCBase (Base : MetaAddress) (Address_ : Z) : outcome MetaAddress :=
  a ← arch Base;
  e ← epoch Base;
  s ← addressSpace Base;
  fromPC a Address_ e s.

(* include/revng/Support/MetaAddress.h:654-656 MetaAddress::features *)
Definition features (m : MetaAddress) : outcome Features :=
  a ← arch m; Ok (mkFeatures a (Epoch m) (AddressSpace m)).

(** ** Conversions *)

(* include/revng/Support/MetaAddress.h:633-640 MetaAddress::toGeneric *)
Definition toGeneric (m : MetaAddress) : outcome MetaAddress :=
  revng_assert (isValid m);;
  Ty ← MetaAddressType.toGeneric (Type_ m);
  Ok (withType m Ty).

(* include/revng/Support/MetaAddress.h:642-648 MetaAddress::toGeneric64 *)
Definition toGeneric64 (m : MetaAddress) : outcome MetaAddress :=
  revng_assert (isValid m);;
  Ok (withType m MetaAddressType.Generic64).

(* include/revng/Support/MetaAddress.h:650-652 MetaAddress::toPC *)
Definition toPC (m : MetaAddress) (Arch : Architecture.Values) : outcome MetaAddress :=
  fromPC Arch (Address m) (Epoch m) (AddressSpace m).

(* include/revng/Support/MetaAddress.h:795-806 MetaAddress::replaceAddress *)
Definition replaceAddress (m : MetaAddress) (Address_ : Z) : outcome MetaAddress :=
  revng_assert (isValid m);;
  Result ← setAddress m Address_;
  validate Result.

(* include/revng/Support/MetaAddress.h:808-816 MetaAddress::replaceType *)
Definition replaceType (m : MetaAddress) (NewType : AType) : outcome MetaAddress :=
  revng_assert (isValid m);;
  validate (withType m NewType).

(** ** Comparisons *)

(* include/revng/Support/MetaAddress.h:1037-1043 MetaAddress::tie *)
Definition tie (m : MetaAddress) : Z * Z * Z * Z :=
  (Epoch m, AddressSpace m, MetaAddressType.toRaw (Type_ m), Address m).

(* include/revng/Support/MetaAddress.h:659-661 MetaAddress::operator<=> *)
Definition compare (m o : MetaAddress) : comparison :=
  let '(e1, s1, t1, a1) := tie m in
  let '(e2, s2, t2, a2) := tie o in
  lex (e1 ?= e2) (lex (s1 ?= s2) (lex (t1 ?= t2) (a1 ?= a2))).

(* include/revng/Support/MetaAddress.h:662-664 MetaAddress::operator== *)
Definition equals (m o : MetaAddress) : bool := bool_decide (tie m = tie o).

Definition ltb (m o : MetaAddress) : bool := bool_decide (compare m o = Lt).
Definition leb (m o : MetaAddress) : bool := negb (bool_decide (compare m o = Gt)).

(* include/revng/Support/MetaAddress.h:672-676 MetaAddress::addressEquals *)
Definition addressEquals (m o : MetaAddress) : outcome bool :=
  revng_assert (isValid m);;
  revng_assert (isValid o);;
  m' ← toGeneric64 m; o' ← toGeneric64 o; Ok (equals m' o').

(* include/revng/Support/MetaAddress.h:678-682 MetaAddress::addressDiffers *)
Definition addressDiffers (m o : MetaAddress) : outcome bool :=
  revng_assert (isValid m);;
  revng_assert (isValid o);;
  negb <$> addressEquals m o.

(* include/revng/Support/MetaAddress.h:684-688 MetaAddress::addressLowerThan *)
Definition addressLowerThan (m o : MetaAddress) : outcome bool :=
  revng_assert (isValid m);;
  revng_assert (isValid o);;
  m' ← toGeneric64 m; o' ← toGeneric64 o; Ok (ltb m' o').

(* include/revng/Support/MetaAddress.h:690-694 MetaAddress::addressLowerThanOrEqual *)
Definition addressLowerThanOrEqual (m o : MetaAddress) : outcome bool :=
  revng_assert (isValid m);;
  revng_assert (isValid o);;
  m' ← toGeneric64 m; o' ← toGeneric64 o; Ok (leb m' o').

(* include/revng/Support/MetaAddress.h:696-700 MetaAddress::addressGreaterThanOrEqual *)
Definition addressGreaterThanOrEqual (m o : MetaAddress) : outcome bool :=
  revng_assert (isValid m);;
  revng_assert (isValid o);;
  negb <$> addressLowerThan m o.

(* include/revng/Support/MetaAddress.h:702-706 MetaAddress::addressGreaterThan *)
Definition addressGreaterThan (m o : MetaAddress) : outcome bool :=
  revng_assert (isValid m);;
  revng_assert (isValid o);;
  negb <$> addressLowerThanOrEqual m o.

(* include/revng/Support/MetaAddress.h:708-714 MetaAddress::operator-(MetaAddress) *)
Definition difference (m o : MetaAddress) : outcome (option Z) :=
  revng_assert (isValid m);;
  revng_assert (isValid o);;
  revng_assert (Epoch m =? Epoch o);;
  revng_assert (AddressSpace m =? AddressSpace o);;
  Ok (safe_sub uint64 (Some (Address m)) (Some (Address o))).

(* include/revng/Support/MetaAddress.h:929-931 MetaAddress::isIn *)
Definition isIn (m Start End_ : MetaAddress) : bool := leb Start m && ltb m End_.

(** ** Arithmetic

    The offset is an integer of the integral type [T]. It is converted to the
    unsigned type of the address before the checked operation. *)

(** Integral promotion, the type of the expression [-Offset]. *)
Definition promoted (T : int_type) : int_type := if width T <? 32 then int32 else T.

Definition negated (T : int_type) (Offset : Z) : outcome Z :=
  if decide (in_type (promoted T) (- Offset)) then Ok (- Offset) else undefined.

(* include/revng/Support/MetaAddress.h:742-745 MetaAddress::operator+= (choice of the OverflowSafeInt) *)
Definition addressInt (m : MetaAddress) : outcome int_type :=
  Size ← bitSize m;
  Ok (if Size =? 32 then uint32 else uint64).

Definition finish (m : MetaAddress) (NewAddress : option Z) : outcome MetaAddress :=
  match NewAddress with
  | Some a => setAddress m a
  | None => Ok invalid
  end.

(* include/revng/Support/MetaAddress.h:721-748 MetaAddress::operator+= *)
Definition add_assign (T : int_type) (m : MetaAddress) (Offset : Z) : outcome MetaAddress :=
  if isInvalid m then Ok m
  else
    U ← addressInt m;
    let NewAddress := Some (cast U (Address m)) in
    NewAddress ←
      (if is_signed T then
         if 0 <=? Offset then Ok (safe_add U NewAddress (Some (cast U Offset)))
         else Opposite ← negated T Offset;
              Ok (safe_sub U NewAddress (Some (cast U Opposite)))
       else Ok (safe_add U NewAddress (Some (cast U Offset))));
    finish m NewAddress.

(* include/revng/Support/MetaAddress.h:750-777 MetaAddress::operator-= *)
Definition sub_assign (T : int_type) (m : MetaAddress) (Offset : Z) : outcome MetaAddress :=
  if isInvalid m then Ok m
  else
    U ← addressInt m;
    let NewAddress := Some (cast U (Address m)) in
    NewAddress ←
      (if is_signed T then
         if 0 <=? Offset then Ok (safe_sub U NewAddress (Some (cast U Offset)))
         else Opposite ← negated T Offset;
              Ok (safe_add U NewAddress (Some (cast U Opposite)))
       else Ok (safe_sub U NewAddress (Some (cast U Offset))));
    finish m NewAddress.

(* include/revng/Support/MetaAddress.h:779-784 MetaAddress::operator+ *)
Definition plus (T : int_type) (m : MetaAddress) (Offset : Z) : outcome MetaAddress :=
  add_assign T m Offset.

(* include/revng/Support/MetaAddress.h:786-791 MetaAddress::operator- *)
Definition minus (T : int_type) (m : MetaAddress) (Offset : Z) : outcome MetaAddress :=
  sub_assign T m Offset.

(* include/revng/Support/MetaAddress.h:960-963 MetaAddress::pageStart *)
Definition pageStart (m : MetaAddress) : outcome MetaAddress :=
  revng_assert (isValid m);;
  g ← toGeneric m;
  minus uint64 g (Address m mod 4096).

(* include/revng/Support/MetaAddress.h:965-975 MetaAddress::nextPageStart *)
Definition nextPageStart `{LLVMMath} (m : MetaAddress) : outcome MetaAddress :=
  revng_assert (isValid m);;
  Quotient ← safe_div uint64 (safe_add uint64 (Some (Address m)) (Some (4096 - 1))) 4096;
  let Addend := safe_sub uint64 (safe_mul uint64 Quotient (Some 4096)) (Some (Address m)) in
  match Addend with
  | None => Ok invalid
  | Some a => g ← toGeneric m; plus uint64 g a
  end.

(** ** The invariant of valid addresses

    [valid m] says that [m] is what every public operation maintains for an
    address that is not invalid: it has a proper type, is aligned for it and
    fits its bit size. *)

Record valid (m : MetaAddress) : Prop := {
  valid_type : MetaAddressType.proper (Type_ m) = true;
  valid_align : (MetaAddressType.align (Type_ m) | Address m);
  valid_bits : in_width (MetaAddressType.bits (Type_ m)) (Address m);
}.

Lemma bits_bounds V : MetaAddressType.proper V = true → 0 < MetaAddressType.bits V ≤ 64.
Proof. intros [-> | ->]%MetaAddressType.bits_cases; lia. Qed.

Lemma align_pos V : MetaAddressType.proper V = true → 0 < MetaAddressType.align V.
Proof. intros [-> | [-> | ->]]%MetaAddressType.align_cases; lia. Qed.

Lemma valid_width64 m : valid m → in_width 64 (Address m).
Proof.
  intros [Ht _ Hb]. pose proof (bits_bounds _ Ht).
  eapply in_width_weaken; [|done]. lia.
Qed.

Lemma valid_isValid m : valid m → isValid m = true.
Proof. intros [Ht _ _]. unfold isValid, isInvalid. by destruct (Type_ m). Qed.

Lemma valid_bits_U m U :
  valid m → addressInt m = Ok U → U = IntType false (MetaAddressType.bits (Type_ m)).
Proof.
  intros [Ht _ _]. unfold addressInt, bitSize.
  rewrite MetaAddressType.bitSize_proper by done. intros [= <-].
  by destruct (MetaAddressType.bits_cases _ Ht) as [-> | ->].
Qed.

Lemma land_mask_id w z : 0 ≤ w → 0 ≤ z → Z.land z (Z.ones w) = z ↔ in_width w z.
Proof.
  intros Hw Hz. rewrite land_mask by done. split; [|apply wrap_small].
  intros <-. by apply wrap_in_width.
Qed.

(** [verify] decides the invariant. *)
Lemma verify_spec m :
  MetaAddressType.wf (Type_ m) → 0 ≤ Address m →
  ∃ b, verify m = Ok b ∧ (b = true ↔ valid m).
Proof.
  intros Hty Hpos. unfold verify, addressMask.
  destruct (MetaAddressType.proper (Type_ m)) eqn:Ht.
  - assert (bool_decide (Type_ m = MetaAddressType.Invalid) ||
      (MetaAddressType.toRaw MetaAddressType.Count <=? MetaAddressType.toRaw (Type_ m))
      = false) as -> by (by destruct (Type_ m)).
    rewrite MetaAddressType.alignment_proper, MetaAddressType.addressMask_proper by done.
    simpl. pose proof (bits_bounds _ Ht). pose proof (align_pos _ Ht).
    destruct (Z.eqb_spec (Address m mod MetaAddressType.align (Type_ m)) 0) as [Ha|Ha]; simpl.
    + destruct (Z.eqb_spec (Address m)
        (Z.land (Address m) (Z.ones (MetaAddressType.bits (Type_ m))))) as [Hm|Hm]; simpl.
      * exists true. split; [done|]. split; [intros _|done]. split; [done| |].
        -- apply Z.mod_divide; lia.
        -- apply land_mask_id; [lia|done|done].
      * exists false. split; [done|]. split; [done|]. intros [_ _ Hb].
        destruct Hm. symmetry. apply land_mask_id; [lia|done|done].
    + exists false. split; [done|]. split; [done|]. intros [_ Hd _].
      destruct Ha. apply Z.mod_divide; [lia|done].
  - exists false. split.
    + assert (bool_decide (Type_ m = MetaAddressType.Invalid) ||
        (MetaAddressType.toRaw MetaAddressType.Count <=? MetaAddressType.toRaw (Type_ m))
        = true) as ->; [|done].
      destruct (Type_ m); simpl in *; try done.
      rewrite Z.leb_le. lia.
    + split; [done|]. intros [Ht' _ _]. congruence.
Qed.

Lemma validate_cases m :
  MetaAddressType.wf (Type_ m) → 0 ≤ Address m →
  (valid m ∧ validate m = Ok m) ∨ (¬ valid m ∧ validate m = Ok default).
Proof.
  intros Hty Hpos. destruct (verify_spec m Hty Hpos) as ([|] & Hv & Hiff);
    unfold validate; rewrite Hv; simpl; naive_solver.
Qed.

Lemma validate_valid m : valid m → validate m = Ok m.
Proof.
  intros Hm. destruct (validate_cases m) as [[_ ?]|[? _]]; [..|done|done].
  - apply MetaAddressType.proper_wf, Hm.
  - apply valid_bits in Hm as [? _]. done.
Qed.

(** Every address the class hands out is valid or the invalid address. *)
Definition inv (m : MetaAddress) : Prop := valid m ∨ m = default.

Lemma validate_inv m m' :
  MetaAddressType.wf (Type_ m) → 0 ≤ Address m → validate m = Ok m' → inv m'.
Proof.
  intros Hty Hpos Hv. unfold inv.
  destruct (validate_cases m Hty Hpos) as [[? Hv']|[_ Hv']];
    rewrite Hv' in Hv; injection Hv as <-; auto.
Qed.

Lemma addressMask_valid m :
  valid m → addressMask m = Ok (Z.ones (MetaAddressType.bits (Type_ m))).
Proof. intros [Ht _ _]. by apply MetaAddressType.addressMask_proper. Qed.

(** [setAddress] keeps the low bits and re-checks the alignment. *)
Lemma setAddress_cases m a :
  MetaAddressType.proper (Type_ m) = true →
  let a' := wrap (MetaAddressType.bits (Type_ m)) a in
  (valid (withAddress m a') ∧ setAddress m a = Ok (withAddress m a')) ∨
  (¬ (MetaAddressType.align (Type_ m) | a') ∧ setAddress m a = Ok default).
Proof.
  intros Ht a'. pose proof (bits_bounds _ Ht).
  assert (in_width (MetaAddressType.bits (Type_ m)) a') as Hw by (apply wrap_in_width; lia).
  unfold setAddress, addressMask. rewrite MetaAddressType.addressMask_proper by done.
  simpl. rewrite land_mask by lia. fold a'.
  destruct (validate_cases (withAddress m a')) as [[??]|[Hn ?]]; simpl.
  - by apply MetaAddressType.proper_wf.
  - apply Hw.
  - by left.
  - right. split; [|done]. intros Hd. by apply Hn.
Qed.

(** The address [d] bytes away from [m], or the invalid address when there is
    none: the contract of the arithmetic operators. *)
Definition shifted (m : MetaAddress) (d : Z) : MetaAddress :=
  let a := Address m + d in
  if decide (in_width (MetaAddressType.bits (Type_ m)) a ∧
             (MetaAddressType.align (Type_ m) | a))
  then withAddress m a
  else invalid.

Lemma shifted_inv m d : valid m → inv (shifted m d).
Proof.
  intros Hm. unfold shifted. case_decide as Hd; [left|by right].
  split; [apply Hm|apply Hd|apply Hd].
Qed.

Lemma finish_exact m z :
  valid m →
  finish m (exact (IntType false (MetaAddressType.bits (Type_ m))) z) =
  Ok (shifted m (z - Address m)).
Proof.
  intros Hm. unfold shifted, finish, exact.
  replace (Address m + (z - Address m)) with z by lia.
  case_decide as Hz; rewrite in_type_unsigned in Hz.
  - destruct (setAddress_cases m z) as [[Hv ->]|[Hn ->]]; [apply Hm| |];
      rewrite wrap_small in * by done.
    + rewrite decide_True; [done|]. split; [done|apply Hv].
    + rewrite decide_False; [done|]. naive_solver.
  - rewrite decide_False; [done|]. naive_solver.
Qed.

(** The offsets for which the operators are exact: values of [T] whose
    magnitude fits the address, and whose opposite is defined when negative. *)
Definition offset_ok (T : int_type) (m : MetaAddress) (d : Z) : Prop :=
  in_type T d ∧ 0 < width T ∧
  (d < 0 → in_type (promoted T) (- d)) ∧
  Z.abs d < 2 ^ MetaAddressType.bits (Type_ m).

Lemma addressInt_valid m :
  valid m → addressInt m = Ok (IntType false (MetaAddressType.bits (Type_ m))).
Proof.
  intros Hm. destruct Hm as [Ht ? ?]. unfold addressInt, bitSize.
  rewrite MetaAddressType.bitSize_proper by done. simpl.
  by destruct (MetaAddressType.bits_cases _ Ht) as [-> | ->].
Qed.

Lemma isInvalid_valid m : valid m → isInvalid m = false.
Proof. intros Hm%valid_isValid. unfold isValid in Hm. by destruct (isInvalid m). Qed.

Lemma cast_unsigned_small U d :
  is_signed U = false → 0 ≤ d < 2 ^ width U → cast U d = d.
Proof. destruct U as [[] w]; simpl; [done|]. intros _ Hd. by apply wrap_small. Qed.

Lemma add_assign_shifted T m d :
  valid m → offset_ok T m d → add_assign T m d = Ok (shifted m d).
Proof.
  intros Hm (Hin & Hw & Hneg & Habs). unfold add_assign.
  rewrite isInvalid_valid, addressInt_valid by done. simpl.
  pose proof (bits_bounds _ (valid_type _ Hm)). pose proof (valid_bits _ Hm) as Hb.
  rewrite !(cast_unsigned_small (IntType _ _) (Address m)) by done.
  destruct (Z.leb_spec 0 d) as [Hd|Hd].
  - rewrite !(cast_unsigned_small (IntType _ _) d) by (simpl; lia). simpl.
    rewrite add_exact by (simpl; lia).
    destruct (is_signed T); simpl; rewrite finish_exact by done; do 2 f_equal; lia.
  - assert (is_signed T = true) as ->.
    { destruct T as [[] w]; [done|]. apply in_type_unsigned in Hin. destruct Hin. lia. }
    unfold negated. rewrite decide_True by auto. simpl.
    rewrite cast_unsigned_small by (simpl; lia). simpl.
    rewrite sub_exact by (simpl; lia). rewrite finish_exact by done. do 2 f_equal. lia.
Qed.

Lemma sub_assign_shifted T m d :
  valid m → offset_ok T m d → sub_assign T m d = Ok (shifted m (- d)).
Proof.
  intros Hm (Hin & Hw & Hneg & Habs). unfold sub_assign.
  rewrite isInvalid_valid, addressInt_valid by done. simpl.
  pose proof (bits_bounds _ (valid_type _ Hm)). pose proof (valid_bits _ Hm) as Hb.
  rewrite !(cast_unsigned_small (IntType _ _) (Address m)) by done.
  destruct (Z.leb_spec 0 d) as [Hd|Hd].
  - rewrite !(cast_unsigned_small (IntType _ _) d) by (simpl; lia). simpl.
    rewrite sub_exact by (simpl; lia).
    destruct (is_signed T); simpl; rewrite finish_exact by done; do 2 f_equal; lia.
  - assert (is_signed T = true) as ->.
    { destruct T as [[] w]; [done|]. apply in_type_unsigned in Hin. destruct Hin. lia. }
    unfold negated. rewrite decide_True by auto. simpl.
    rewrite cast_unsigned_small by (simpl; lia). simpl.
    rewrite add_exact by (simpl; lia). rewrite finish_exact by done. do 2 f_equal. lia.
Qed.

(** The conversion of the offset to the type of the address loses its high
    bits, before any overflow check. *)
Lemma add_assign_cast U m d :
  isInvalid m = false → addressInt m = Ok (IntType false (width U)) →
  is_signed U = false → 0 < width U →
  add_assign uint64 m d = add_assign uint64 m (wrap (width U) d).
Proof.
  intros Hi HU Hs Hw. unfold add_assign. rewrite Hi, HU. simpl.
  unfold cast, wrap; simpl. by rewrite Zmod_mod.
Qed.

Lemma shifted_Some m d :
  shifted m d ≠ invalid →
  valid m → shifted m d = withAddress m (Address m + d) ∧ valid (shifted m d).
Proof.
  unfold shifted. case_decide as Hd; [|done]. intros _ Hm.
  split; [done|]. split; [apply Hm|apply Hd|apply Hd].
Qed.

Lemma withAddress_id m : withAddress m (Address m) = m.
Proof. by destruct m. Qed.

Lemma shifted_shifted m d e :
  valid m → shifted m d ≠ invalid → shifted (shifted m d) e = shifted m (d + e).
Proof.
  intros Hm Hd. destruct (shifted_Some _ _ Hd Hm) as [-> _].
  unfold shifted; simpl. by rewrite Z.add_assoc.
Qed.

Lemma shifted_0 m : valid m → shifted m 0 = m.
Proof.
  intros Hm. unfold shifted. rewrite Z.add_0_r, decide_True by (split; apply Hm).
  apply withAddress_id.
Qed.

(** ** The order *)

Lemma compare_antisym m o : compare m o = CompOpp (compare o m).
Proof.
  unfold compare; simpl. repeat apply lex_opp; apply Z.compare_antisym.
Qed.

Lemma compare_Eq m o : compare m o = Eq ↔ tie m = tie o.
Proof.
  unfold compare; simpl. rewrite !lex_Eq, !Z.compare_eq_iff. unfold tie.
  split; [intros (-> & -> & -> & ->)|intros [= -> -> -> ->]]; done.
Qed.

Lemma tie_inj m o : wf m → wf o → tie m = tie o → m = o.
Proof.
  intros [_ _ Hm _] [_ _ Ho _]. destruct m, o; unfold tie; simpl in *.
  intros; simplify_eq. f_equal. by apply MetaAddressType.toRaw_inj.
Qed.

(** The lexicographic comparison as a proposition. *)
Definition lt (m o : MetaAddress) : Prop :=
  Epoch m < Epoch o ∨ Epoch m = Epoch o ∧
  (AddressSpace m < AddressSpace o ∨ AddressSpace m = AddressSpace o ∧
   (MetaAddressType.toRaw (Type_ m) < MetaAddressType.toRaw (Type_ o) ∨
    MetaAddressType.toRaw (Type_ m) = MetaAddressType.toRaw (Type_ o) ∧
    Address m < Address o)).

Lemma compare_Lt m o : compare m o = Lt ↔ lt m o.
Proof.
  unfold compare, lt; simpl.
  by rewrite !lex_Lt, !Z.compare_lt_iff, !Z.compare_eq_iff.
Qed.

Lemma compare_Gt m o : compare m o = Gt ↔ lt o m.
Proof. rewrite compare_antisym, <-compare_Lt. by destruct (compare o m). Qed.

Lemma ltb_lt m o : ltb m o = true ↔ lt m o.
Proof. unfold ltb. by rewrite bool_decide_eq_true, compare_Lt. Qed.

Lemma leb_lt m o : leb m o = true ↔ ¬ lt o m.
Proof.
  unfold leb. rewrite negb_true_iff, bool_decide_eq_false. by rewrite compare_Gt.
Qed.

Lemma leb_cases m o : leb m o = true ↔ lt m o ∨ tie m = tie o.
Proof.
  unfold leb. rewrite negb_true_iff, bool_decide_eq_false, <-compare_Lt, <-compare_Eq.
  destruct (compare m o); naive_solver.
Qed.

#[global] Instance lt_strict : StrictOrder lt.
Proof.
  split.
  - intros m. unfold complement, lt. lia.
  - intros a b c. unfold lt. lia.
Qed.

(** On addresses of one epoch and one address space, the comparisons ignoring
    the type compare the numeric addresses. *)
Definition comparable (m o : MetaAddress) : Prop :=
  Epoch m = Epoch o ∧ AddressSpace m = AddressSpace o.

Lemma addressLowerThan_spec m o :
  valid m → valid o → comparable m o →
  addressLowerThan m o = Ok (Address m <? Address o).
Proof.
  intros Hm%valid_isValid Ho%valid_isValid [He Hs].
  unfold addressLowerThan, toGeneric64. rewrite Hm, Ho. simpl. f_equal.
  apply eq_true_iff_eq. rewrite ltb_lt, Z.ltb_lt. unfold lt; simpl. lia.
Qed.

Lemma addressLowerThanOrEqual_spec m o :
  valid m → valid o → comparable m o →
  addressLowerThanOrEqual m o = Ok (Address m <=? Address o).
Proof.
  intros Hm%valid_isValid Ho%valid_isValid [He Hs].
  unfold addressLowerThanOrEqual, toGeneric64. rewrite Hm, Ho. simpl. f_equal.
  apply eq_true_iff_eq. rewrite leb_lt, Z.leb_le. unfold lt; simpl. lia.
Qed.

Lemma addressEquals_spec m o :
  valid m → valid o → comparable m o →
  addressEquals m o = Ok (Address m =? Address o).
Proof.
  intros Hm%valid_isValid Ho%valid_isValid [He Hs].
  unfold addressEquals, toGeneric64. rewrite Hm, Ho. simpl. f_equal.
  apply eq_true_iff_eq. unfold equals, tie. simpl.
  rewrite bool_decide_eq_true, Z.eqb_eq, He, Hs.
  by split; [intros [= ->]|intros ->].
Qed.

(** ** Program counters *)

Lemma land_1 z : Z.land z 1 = z mod 2.
Proof. by apply (Z.land_ones z 1). Qed.

(** [PC & ~1] on 64 bits clears the least significant bit. *)
Lemma land_clear_lsb z : in_width 64 z → Z.land z (2 ^ 64 - 2) = z - z mod 2.
Proof.
  intros Hz. change (2 ^ 64 - 2) with (Z.shiftl (Z.ones 63) 1).
  transitivity (Z.shiftl (Z.shiftr z 1) 1).
  - apply Z.bits_inj'. intros i Hi. rewrite Z.land_spec, !Z.shiftl_spec by done.
    destruct (Z.eq_dec i 0) as [->|Hi0].
    { rewrite !(Z.testbit_neg_r _ (0 - 1)) by lia. by rewrite andb_false_r. }
    rewrite Z.shiftr_spec, Z.testbit_ones_nonneg by lia.
    replace (i - 1 + 1) with i by lia.
    destruct (Z.ltb_spec (i - 1) 63); [by rewrite andb_true_r|].
    rewrite (testbit_high 64) by (done || lia). done.
  - rewrite Z.shiftl_mul_pow2, Z.shiftr_div_pow2 by lia.
    change (2 ^ 1) with 2. pose proof (Z.div_mod z 2). lia.
Qed.

Lemma lor_1_even z : z mod 2 = 0 → Z.lor z 1 = z + 1.
Proof.
  intros Hz. rewrite Z.add_nocarry_lxor; [apply Z.bits_inj'; intros i Hi|];
    rewrite ?Z.lor_spec, ?Z.lxor_spec, ?land_1 by done; [|done].
  change 1 with (2 ^ 0). rewrite Z.pow2_bits_eqb by done.
  destruct (Z.eqb_spec 0 i) as [<-|]; [|by rewrite orb_false_r, xorb_false_r].
  rewrite Z.bit0_odd, <-Z.negb_even. by rewrite Zeven_mod, Hz.
Qed.

(** The code type and the address a program counter stands for. *)
Definition pcType (Arch : Architecture.Values) (PC : Z) : AType :=
  if bool_decide (Arch = Architecture.arm) && (Z.land PC 1 =? 1)
  then MetaAddressType.Code_arm_thumb
  else match MetaAddressType.defaultCodeFromArch Arch with
       | Ok V => V | Fault _ => MetaAddressType.Invalid end.

Definition pcAddress (Arch : Architecture.Values) (PC : Z) : Z :=
  wrap (MetaAddressType.bits (pcType Arch PC))
    (if bool_decide (pcType Arch PC = MetaAddressType.Code_arm_thumb)
     then PC - 1 else PC).

Lemma pcType_proper Arch PC :
  Architecture.isMember Arch = true → MetaAddressType.proper (pcType Arch PC) = true.
Proof. unfold pcType. case_match; [done|]. by destruct Arch. Qed.

Lemma pcType_arch Arch PC :
  Architecture.isMember Arch = true → MetaAddressType.arch (pcType Arch PC) = Ok Arch.
Proof.
  unfold pcType. case_match eqn:E; [|by destruct Arch].
  apply andb_true_iff in E as [->%bool_decide_eq_true _]. done.
Qed.

Lemma setPC_cases m Arch PC :
  Type_ m = pcType Arch PC → MetaAddressType.proper (Type_ m) = true → in_width 64 PC →
  (valid (withAddress m (pcAddress Arch PC)) ∧
   setPC m PC = Ok (withAddress m (pcAddress Arch PC))) ∨
  (¬ (MetaAddressType.align (Type_ m) | pcAddress Arch PC) ∧ setPC m PC = Ok default).
Proof.
  intros Hty Hp HPC. unfold setPC. unfold pcAddress. rewrite <-Hty.
  case_bool_decide as Ht.
  - assert (Z.land PC 1 = 1) as H1.
    { rewrite Hty in Ht. unfold pcType in Ht. case_match eqn:E.
      - by apply andb_true_iff in E as [_ ?%Z.eqb_eq].
      - by destruct Arch. }
    rewrite H1. simpl. rewrite land_clear_lsb by done. rewrite land_1 in H1.
    rewrite H1. apply (setAddress_cases m (PC - 1)). done.
  - apply (setAddress_cases m PC). done.
Qed.

Lemma fromPC_cases Arch PC e s :
  Architecture.isMember Arch = true → in_width 64 PC →
  let m := mkMA e s (pcType Arch PC) (pcAddress Arch PC) in
  (valid m ∧ fromPC Arch PC e s = Ok m) ∨
  (¬ valid m ∧ fromPC Arch PC e s = Ok default).
Proof.
  intros HA HPC m. unfold fromPC.
  assert (∃ V, MetaAddressType.defaultCodeFromArch Arch = Ok V ∧
               MetaAddressType.proper V = true) as (V & HV & Hp)
    by (destruct Arch; simpl in *; eauto; done).
  rewrite HV. simpl. unfold make.
  assert (valid (mkMA e s V 0)) as Hv0.
  { split; simpl; [done|apply Z.divide_0_r|].
    pose proof (bits_bounds _ Hp). unfold in_width. lia. }
  rewrite validate_valid by done. simpl. rewrite valid_isValid by done. simpl.
  set (m0 := if _ && _ then _ else _).
  assert (m0 = mkMA e s (pcType Arch PC) 0) as ->.
  { subst m0. unfold pcType. rewrite HV. by case_match. }
  destruct (setPC_cases (mkMA e s (pcType Arch PC) 0) Arch PC) as [[Hv ->]|[Hn ->]];
    [done|by apply pcType_proper|done|left|right]; simpl.
  - by rewrite validate_valid.
  - split; [|done]. intros Hv. by destruct Hn; apply Hv.
Qed.

(** The program counter of a code address. *)
Definition pcOf (m : MetaAddress) : Z :=
  if bool_decide (Type_ m = MetaAddressType.Code_arm_thumb)
  then Address m + 1 else Address m.

Lemma asPC_valid m : valid m → isCode m = Ok true → asPC m = Ok (pcOf m).
Proof.
  intros Hm Hc. unfold asPC, asPCOrZero. rewrite valid_isValid, Hc by done. simpl.
  unfold pcOf. unfold isCode in Hc. pose proof (valid_align _ Hm) as Ha.
  destruct (Type_ m) eqn:Ht; simpl in *; try done.
  apply Z.mod_divide in Ha; [|done]. change (Address m mod 2 = 0) in Ha.
  rewrite land_1, Ha. simpl. by rewrite lor_1_even.
Qed.

Lemma pcOf_width m : valid m → isCode m = Ok true → in_width (MetaAddressType.bits (Type_ m)) (pcOf m).
Proof.
  intros Hm Hc. unfold pcOf. pose proof (valid_bits _ Hm) as Hb.
  pose proof (valid_align _ Hm) as Ha.
  case_bool_decide as Ht; [|done]. rewrite Ht in *. simpl in *.
  apply Z.mod_divide in Ha; [|done]. change (Address m mod 2 = 0) in Ha.
  change (MetaAddressType.bits MetaAddressType.Code_arm_thumb) with 32 in *.
  unfold in_width in *.
  assert (Address m ≠ 2 ^ 32 - 1); [|lia].
  intros Heq. rewrite Heq in Ha. discriminate Ha.
Qed.

(** ** Generic addresses and pages *)

Lemma toGeneric_valid m :
  valid m → ∃ Ty, MetaAddressType.toGeneric (Type_ m) = Ok Ty ∧
    MetaAddressType.isGeneric Ty = Ok true ∧
    MetaAddressType.bits Ty = MetaAddressType.bits (Type_ m) ∧
    MetaAddressType.align Ty = 1 ∧
    toGeneric m = Ok (withType m Ty) ∧ valid (withType m Ty).
Proof.
  intros Hm. pose proof (valid_isValid _ Hm) as Hv. destruct Hm as [Ht _ Hb].
  unfold toGeneric. rewrite Hv. simpl.
  destruct (Type_ m) eqn:E; try done; simpl; eexists; (split_and!; [done..|]);
    (split; simpl; [done|apply Z.divide_1_l|exact Hb]).
Qed.

Lemma offset_ok_unsigned m d :
  valid m → 0 ≤ d < 2 ^ MetaAddressType.bits (Type_ m) → offset_ok uint64 m d.
Proof.
  intros Hm Hd. pose proof (bits_bounds _ (valid_type _ Hm)).
  assert (in_width 64 d) by (eapply in_width_weaken; [|exact Hd]; lia).
  split_and!; [by apply in_type_uint64|done|lia|lia].
Qed.

Lemma pageStart_shifted m :
  valid m → ∃ g, toGeneric m = Ok g ∧ valid g ∧
    pageStart m = Ok (shifted g (- (Address m mod 4096))).
Proof.
  intros Hm. destruct (toGeneric_valid m Hm) as (Ty & _ & _ & Hbits & Hal & Hg & Hvg).
  eexists; split; [done|]. split; [done|].
  unfold pageStart, minus. rewrite valid_isValid, Hg by done. simpl.
  apply sub_assign_shifted; [done|]. apply offset_ok_unsigned; [done|]. simpl.
  pose proof (Z.mod_pos_bound (Address m) 4096). pose proof (valid_bits _ Hvg) as Hb.
  pose proof (Z.mod_le (Address m) 4096). unfold in_width in Hb. simpl in Hb. lia.
Qed.

Lemma pageStart_lemma m :
  valid m → ∃ g, toGeneric m = Ok g ∧
    pageStart m = Ok (withAddress g (4096 * (Address m / 4096))) ∧
    valid (withAddress g (4096 * (Address m / 4096))).
Proof.
  intros Hm. destruct (pageStart_shifted m Hm) as (g & Hg & Hvg & ->).
  exists g. split; [done|].
  destruct (toGeneric_valid m Hm) as (Ty & _ & _ & Hbits & Hal & Hg' & _).
  rewrite Hg in Hg'. injection Hg' as ->. simpl in *.
  pose proof (Z.div_mod (Address m) 4096). pose proof (Z.mod_pos_bound (Address m) 4096).
  pose proof (valid_bits _ Hvg) as Hb. unfold in_width in Hb. simpl in Hb.
  assert (0 ≤ Address m / 4096) by (apply Z.div_pos; lia).
  assert (valid (withAddress (withType m Ty) (4096 * (Address m / 4096)))) as Hv.
  { split; simpl; [apply Hvg|rewrite Hal; apply Z.divide_1_l|unfold in_width; lia]. }
  split; [|done]. unfold shifted. simpl.
  replace (Address m + - (Address m mod 4096)) with (4096 * (Address m / 4096)) by lia.
  rewrite decide_True; [done|]. split; apply Hv.
Qed.

Lemma nextPageStart_lemma `{LLVMMath} m :
  valid m →
  let up := 4096 * ((Address m + 4095) / 4096) in
  ∃ g, toGeneric m = Ok g ∧
    nextPageStart m =
      Ok (if decide (in_width (MetaAddressType.bits (Type_ m)) up)
          then withAddress g up else invalid).
Proof.
  intros Hm up. destruct (toGeneric_valid m Hm) as (Ty & _ & _ & Hbits & Hal & Hg & Hvg).
  exists (withType m Ty). split; [done|].
  pose proof (valid_width64 _ Hm) as H64. pose proof (bits_bounds _ (valid_type _ Hm)) as Hbb.
  pose proof (valid_bits _ Hm) as Hb. unfold in_width in Hb.
  unfold nextPageStart. rewrite valid_isValid by done. simpl.
  change (4096 - 1) with 4095. rewrite add_exact by done. unfold safe_div.
  assert (isPowerOf2_64 (cast uint64 4096) = true) as ->.
  { apply isPowerOf2_64_spec; [done|]. by exists 12. }
  simpl. unfold exact at 1.
  pose proof (Z.div_mod (Address m + 4095) 4096) as Hdm.
  pose proof (Z.mod_pos_bound (Address m + 4095) 4096) as Hmb.
  case_decide as Hov; rewrite in_type_uint64 in Hov; unfold in_width in Hov.
  - simpl. rewrite Z.quot_div_nonneg by lia.
    assert (0 ≤ (Address m + 4095) / 4096) by (apply Z.div_pos; lia).
    rewrite (cast_unsigned_small uint64) by (simpl; lia).
    rewrite mul_exact by done. unfold exact at 1.
    rewrite decide_True by (apply in_type_uint64; unfold in_width; lia).
    unfold safe_sub. rewrite sub_exact by done. unfold exact at 1.
    rewrite decide_True by (apply in_type_uint64; unfold in_width; lia). simpl.
    rewrite Hg. simpl. unfold plus. rewrite add_assign_shifted; [|done|].
    + f_equal. unfold shifted. simpl.
      replace (Address m + ((Address m + 4095) / 4096 * 4096 - Address m)) with up
        by (unfold up; lia).
      rewrite Hbits, Hal.
      assert ((1 | up)) by apply Z.divide_1_l.
      repeat case_decide; naive_solver.
    + apply offset_ok_unsigned; [done|]. simpl. rewrite Hbits.
      assert (2 ^ 32 ≤ 2 ^ MetaAddressType.bits (Type_ m)); [|lia].
      destruct (MetaAddressType.bits_cases _ (valid_type _ Hm)) as [-> | ->]; done.
  - simpl. rewrite decide_False; [done|].
    assert (2 ^ 32 ≤ 2 ^ MetaAddressType.bits (Type_ m) ≤ 2 ^ 64) as Hpow.
    { destruct (MetaAddressType.bits_cases _ (valid_type _ Hm)) as [-> | ->]; done. }
    intros [_ Hup]. unfold up in *.
    assert (2 ^ 64 ≤ Address m + 4095) as Hlow by lia.
    assert (2 ^ 64 / 4096 ≤ (Address m + 4095) / 4096) as Hdiv by (apply Z.div_le_mono; lia).
    change (2 ^ 64 / 4096) with (2 ^ 52) in Hdiv. lia.
Qed.

Lemma difference_spec m o :
  valid m → valid o → comparable m o →
  difference m o =
    Ok (if decide (Address o ≤ Address m) then Some (Address m - Address o) else None).
Proof.
  intros Hm Ho [He Hs]. unfold difference. rewrite !valid_isValid by done. simpl.
  rewrite He, Hs, !Z.eqb_refl. simpl. rewrite sub_exact by done. f_equal.
  pose proof (valid_width64 _ Hm). pose proof (valid_width64 _ Ho).
  unfold exact, in_width in *. repeat case_decide; rewrite in_type_uint64 in *;
    unfold in_width in *; try done; lia.
Qed.

(** ** Every operation preserves the invariant *)

Lemma setAddress_inv m a m' :
  MetaAddressType.proper (Type_ m) = true → setAddress m a = Ok m' → inv m'.
Proof.
  intros Ht. destruct (setAddress_cases m a Ht) as [[Hv ->]|[_ ->]];
    intros [= <-]; [by left|by right].
Qed.

Lemma finish_inv m o m' : valid m → finish m o = Ok m' → inv m'.
Proof.
  intros Hm. destruct o; simpl; [apply setAddress_inv, Hm|]. intros [= <-]. by right.
Qed.

Lemma add_assign_inv T m d m' : inv m → add_assign T m d = Ok m' → inv m'.
Proof.
  unfold add_assign. intros [Hm| ->]; [|by intros [= <-]; right].
  rewrite isInvalid_valid by done. intros H. invert_ok. by eapply finish_inv.
Qed.

Lemma sub_assign_inv T m d m' : inv m → sub_assign T m d = Ok m' → inv m'.
Proof.
  unfold sub_assign. intros [Hm| ->]; [|by intros [= <-]; right].
  rewrite isInvalid_valid by done. intros H. invert_ok. by eapply finish_inv.
Qed.

Lemma inv_isValid m : inv m → isValid m = true → valid m.
Proof. by intros [?| ->]. Qed.

Lemma fromPC_inv Arch PC e s m : in_width 64 PC → fromPC Arch PC e s = Ok m → inv m.
Proof.
  intros HPC Hf. destruct (Architecture.isMember Arch) eqn:HA.
  - destruct (fromPC_cases Arch PC e s HA HPC) as [[Hv Heq]|[_ Heq]];
      rewrite Heq in Hf; injection Hf as <-; [by left|by right].
  - by destruct Arch.
Qed.

Lemma toGeneric_inv m m' : inv m → toGeneric m = Ok m' → inv m'.
Proof.
  intros [Hm| ->]; [|done].
  destruct (toGeneric_valid m Hm) as (Ty & _ & _ & _ & _ & -> & Hv).
  intros [= <-]. by left.
Qed.

Lemma replaceAddress_inv m a m' : inv m → replaceAddress m a = Ok m' → inv m'.
Proof.
  unfold replaceAddress. intros Hm H. invert_ok. apply inv_isValid in Hm; [|done].
  apply setAddress_inv in E; [|apply Hm].
  destruct E as [Hr| ->]; [|injection H as <-; by right].
  rewrite validate_valid in H by done. injection H as <-. by left.
Qed.

Lemma replaceType_inv m Ty m' :
  inv m → MetaAddressType.wf Ty → replaceType m Ty = Ok m' → inv m'.
Proof.
  unfold replaceType. intros Hm HT H. invert_ok. apply inv_isValid in Hm; [|done].
  eapply validate_inv; [..|done]; [done|]. apply (valid_bits _ Hm).
Qed.

Lemma makeAddress_inv a Ty e s m : in_width 64 a → MetaAddressType.wf Ty → make a Ty e s = Ok m → inv m.
Proof. intros [Ha _] HT. by apply validate_inv. Qed.

Lemma fromGeneric_inv Arch a e s m : in_width 64 a → fromGeneric Arch a e s = Ok m → inv m.
Proof.
  intros [Ha _]. unfold fromGeneric. intros H. invert_ok.
  eapply validate_inv; [..|done]; [|done]. by destruct Arch; simplify_eq/=.
Qed.

Lemma inv_width64 m : inv m → in_width 64 (Address m).
Proof. intros [Hm| ->]; [by apply valid_width64|done]. Qed.

Lemma toGeneric64_inv m m' : inv m → toGeneric64 m = Ok m' → inv m'.
Proof.
  unfold toGeneric64. intros Hm H. invert_ok. apply inv_isValid in Hm; [|done]. subst m'. left. split.
  - done.
  - exists (Address m). cbn. lia.
  - cbn. by apply valid_width64.
Qed.

Lemma toPC_inv m Arch m' : inv m → toPC m Arch = Ok m' → inv m'.
Proof. intros Hm. by apply fromPC_inv, inv_width64. Qed.

Lemma fromPCBase_inv Base PC m : in_width 64 PC → fromPCBase Base PC = Ok m → inv m.
Proof. unfold fromPCBase. intros HPC H. invert_ok. by eapply fromPC_inv. Qed.

Lemma pageStart_inv m m' : inv m → pageStart m = Ok m' → inv m'.
Proof. unfold pageStart. intros Hm H. invert_ok. eapply sub_assign_inv; [|done]. by eapply toGeneric_inv. Qed.

Lemma nextPageStart_inv `{LLVMMath} m m' : inv m → nextPageStart m = Ok m' → inv m'.
Proof.
  unfold nextPageStart. intros Hm Hrun. invert_ok. destruct (safe_sub _ _ _); [|injection Hrun as <-; by right].
  invert_ok. eapply add_assign_inv; [|done]. by eapply toGeneric_inv.
Qed.

Lemma pcType_pcOf m Arch :
  valid m → isCode m = Ok true → arch m = Ok Arch →
  pcType Arch (pcOf m) = Type_ m ∧ pcAddress Arch (pcOf m) = Address m.
Proof.
  intros Hm Hc Ha.
  assert (pcType Arch (pcOf m) = Type_ m) as HT.
  { pose proof (valid_align _ Hm) as Hal. apply Z.mod_divide in Hal;
      [|pose proof (align_pos _ (valid_type _ Hm)); lia].
    unfold pcType, pcOf, isCode, arch in *. rewrite land_1.
    destruct (Type_ m); simplify_eq/=; try done.
    - change (Address m mod 4 = 0) in Hal.
      assert (Address m mod 2 = 0) as -> by divlia. done.
    - change (Address m mod 2 = 0) in Hal.
      assert ((Address m + 1) mod 2 = 1) as -> by divlia. done. }
  split; [done|]. unfold pcAddress. rewrite HT. unfold pcOf.
  case_bool_decide; rewrite ?Z.add_simpl_r; apply wrap_small, Hm.
Qed.

Lemma fromPC_asPC_lemma m :
  valid m → isCode m = Ok true → fromPCBase m (pcOf m) = Ok m.
Proof.
  intros Hm Hc. unfold fromPCBase, epoch, addressSpace.
  rewrite valid_isValid by done.
  assert (∃ Arch, arch m = Ok Arch ∧ Architecture.isMember Arch = true) as (Arch & HA & Hmem).
  { unfold arch, isCode in *. destruct (Type_ m); simplify_eq/=; eauto. }
  rewrite HA. simpl.
  destruct (pcType_pcOf m Arch Hm Hc HA) as [HT Had].
  assert (in_width 64 (pcOf m)) as H64.
  { pose proof (bits_bounds _ (valid_type _ Hm)).
    eapply in_width_weaken; [|by apply pcOf_width]. lia. }
  assert (mkMA (Epoch m) (AddressSpace m) (pcType Arch (pcOf m)) (pcAddress Arch (pcOf m)) = m)
    as Heq by (rewrite HT, Had; by destruct m).
  destruct (fromPC_cases Arch (pcOf m) (Epoch m) (AddressSpace m) Hmem H64)
    as [[_ ->]|[Hn _]]; rewrite Heq in *; done.
Qed.

Lemma fromPC_asPC_fields Arch PC e s m :
  Architecture.isMember Arch = true →
  in_width (MetaAddressType.bits (pcType Arch PC)) PC →
  fromPC Arch PC e s = Ok m → isValid m = true →
  asPC m = Ok PC ∧ arch m = Ok Arch ∧ isCodeFor m Arch = Ok true ∧
  epoch m = Ok e ∧ addressSpace m = Ok s.
Proof.
  intros Hmem HPC Hf Hv. pose proof (bits_bounds _ (pcType_proper Arch PC Hmem)).
  assert (in_width 64 PC) as H64 by (eapply in_width_weaken; [|done]; lia).
  pose proof (pcType_arch Arch PC Hmem) as HA.
  destruct (fromPC_cases Arch PC e s Hmem H64) as [[Hval Heq]|[_ Heq]];
    rewrite Heq in Hf; injection Hf as <-; [|done].
  set (m := mkMA _ _ _ _) in *.
  assert (isCodeFor m Arch = Ok true) as Hcf by by apply MetaAddressType.code_types_of_arch.
  assert (isCode m = Ok true) as Hc.
  { unfold isCode, isCodeFor in *. simpl in *. by destruct (pcType Arch PC), Arch. }
  rewrite asPC_valid by done. unfold epoch, addressSpace. rewrite Hv. simpl.
  split_and!; try done. f_equal. unfold pcOf. simpl. unfold pcAddress.
  case_bool_decide as Ht; [|by apply wrap_small].
  assert (PC mod 2 = 1).
  { unfold pcType in Ht. case_match eqn:E; [|by destruct Arch].
    apply andb_true_iff in E as [_ E%Z.eqb_eq]. by rewrite land_1 in E. }
  unfold in_width in *. rewrite wrap_small; [lia|]. unfold in_width.
  assert (PC ≠ 0) by (intros ->; done). lia.
Qed.

(** ** Properties *)

(** C32: the arithmetic operators are exact: on a valid address and an offset
    whose magnitude fits the address, [+] and [-] yield the address displaced
    by the offset, and the invalid address exactly when the displaced address
    leaves the bit size of the type or its alignment. *)
Theorem arithmetic_exact T m d :
  valid m → offset_ok T m d →
  plus T m d = Ok (shifted m d) ∧ minus T m d = Ok (shifted m (- d)).
Proof. intros; split; [by apply add_assign_shifted|by apply sub_assign_shifted]. Qed.

Definition sample : MetaAddress := mkMA 0 0 MetaAddressType.Code_arm 0x1000.

Lemma sample_valid : valid sample.
Proof. split; [done| |done]. by exists 1024. Qed.

Lemma arithmetic_exact_witness :
  plus int32 sample (-4) = Ok (shifted sample (-4)) ∧
  minus int32 sample (-4) = Ok (shifted sample (- -4)).
Proof.
  apply arithmetic_exact; [apply sample_valid|].
  split_and!; [by vm_compute|done|by vm_compute|done].
Defined.

(** Adding an offset and subtracting it again gives the address back,
    provided the intermediate address is valid; and two successive additions
    are one. *)
Theorem plus_minus_roundtrip m d e m' :
  valid m →
  0 ≤ d < 2 ^ MetaAddressType.bits (Type_ m) →
  0 ≤ e → d + e < 2 ^ MetaAddressType.bits (Type_ m) →
  plus uint64 m d = Ok m' → isValid m' = true →
  minus uint64 m' d = Ok m ∧ plus uint64 m' e = plus uint64 m (d + e).
Proof.
  unfold plus, minus. intros Hm Hd He Hde.
  rewrite !add_assign_shifted by (done || (apply offset_ok_unsigned; [done|lia])).
  intros [= <-] Hv.
  assert (shifted m d ≠ invalid) as Hne by (intros E; by rewrite E in Hv).
  destruct (shifted_Some m d Hne Hm) as [Hs Hvs].
  assert (Type_ (shifted m d) = Type_ m) as HT by (by rewrite Hs).
  rewrite (sub_assign_shifted uint64 (shifted m d) d),
    (add_assign_shifted uint64 (shifted m d) e)
    by (done || (apply offset_ok_unsigned; [done|rewrite HT; lia])).
  rewrite !shifted_shifted by done. rewrite Z.add_opp_diag_r, shifted_0 by done.
  rewrite add_assign_shifted; [done..|]. apply offset_ok_unsigned; [done|lia].
Qed.

Lemma plus_minus_roundtrip_witness :
  minus uint64 (withAddress sample 0x1008) 8 = Ok sample ∧
  plus uint64 (withAddress sample 0x1008) 4 = plus uint64 sample (8 + 4).
Proof. by apply plus_minus_roundtrip; [apply sample_valid|..]. Defined.

(** [operator<=>] is a strict total order on well-formed addresses whose
    equality is [==], and on addresses of one epoch and address space the
    [address...] comparisons decide the order of the numeric addresses,
    whatever the types. *)
Theorem comparisons_correct :
  StrictOrder lt ∧
  (∀ m o, compare m o = Lt ↔ lt m o) ∧
  (∀ m o, wf m → wf o → lt m o ∨ m = o ∨ lt o m) ∧
  (∀ m o, wf m → wf o → equals m o = true ↔ m = o) ∧
  (∀ m o, valid m → valid o → comparable m o →
     addressEquals m o = Ok (Address m =? Address o) ∧
     addressLowerThan m o = Ok (Address m <? Address o) ∧
     addressLowerThanOrEqual m o = Ok (Address m <=? Address o) ∧
     addressGreaterThan m o = Ok (Address o <? Address m) ∧
     addressGreaterThanOrEqual m o = Ok (Address o <=? Address m)).
Proof.
  split; [apply _|]. split; [apply compare_Lt|].
  split; [|split].
  - intros m o Hm Ho. destruct (compare m o) eqn:E.
    + right; left. by apply tie_inj, compare_Eq.
    + left. by apply compare_Lt.
    + right; right. by apply compare_Gt.
  - intros m o Hm Ho. unfold equals. rewrite bool_decide_eq_true.
    split; [by apply tie_inj|by intros ->].
  - intros m o Hm Ho Hc. unfold addressGreaterThan, addressGreaterThanOrEqual.
    rewrite addressEquals_spec, addressLowerThan_spec, addressLowerThanOrEqual_spec by done.
    rewrite !valid_isValid by done. simpl.
    split_and!; try done; f_equal; symmetry; [apply Z.ltb_antisym|apply Z.leb_antisym].
Qed.

(** Program counters round-trip. A code address is rebuilt from its own
    program counter, architecture, epoch and address space; and for a program
    counter within the pointer size, [fromPC] either yields an invalid address
    or a code address of that architecture with that program counter. *)
Theorem pc_roundtrip :
  (∀ m PC, valid m → asPC m = Ok PC → fromPCBase m PC = Ok m) ∧
  (∀ Arch PC e s m,
     Architecture.isMember Arch = true →
     in_width (MetaAddressType.bits (pcType Arch PC)) PC →
     fromPC Arch PC e s = Ok m → isValid m = true →
     asPC m = Ok PC ∧ arch m = Ok Arch ∧ isCodeFor m Arch = Ok true ∧
     epoch m = Ok e ∧ addressSpace m = Ok s).
Proof.
  split.
  - intros m PC Hm HPC. pose proof (valid_isValid _ Hm) as Hv.
    assert (isCode m = Ok true) as Hc.
    { unfold asPC, asPCOrZero in HPC. invert_ok. rewrite E.
      unfold isInvalid in H0. apply valid_type in Hm. by destruct r, (Type_ m). }
    rewrite asPC_valid in HPC by done. injection HPC as <-.
    apply fromPC_asPC_lemma; done.
  - apply fromPC_asPC_fields.
Qed.

(** The distance between two comparable addresses is their numeric
    difference when it is non-negative and empty otherwise, and adding a
    distance back to its origin gives the other address. *)
Theorem difference_roundtrip m o :
  valid m → valid o → comparable m o →
  difference m o =
    Ok (if decide (Address o ≤ Address m) then Some (Address m - Address o) else None) ∧
  ∀ d, difference m o = Ok (Some d) → Type_ m = Type_ o → plus uint64 o d = Ok m.
Proof.
  intros Hm Ho Hc. split; [by apply difference_spec|].
  intros d Hd HT. rewrite difference_spec in Hd by done. injection Hd as Hd.
  case_decide; [|done]. injection Hd as <-.
  pose proof (valid_bits _ Hm) as Hbm. pose proof (valid_bits _ Ho) as Hbo.
  rewrite HT in Hbm. unfold in_width in Hbm, Hbo.
  unfold plus. rewrite add_assign_shifted; [|done|apply offset_ok_unsigned; [done|lia]].
  f_equal. unfold shifted. rewrite Zplus_minus, decide_True.
  - destruct Hc. by destruct m, o; simplify_eq/=.
  - rewrite <-HT. split; apply Hm.
Qed.

Lemma difference_roundtrip_witness :
  difference (withAddress sample 0x1010) sample =
    Ok (if decide (Address sample ≤ Address (withAddress sample 0x1010))
        then Some (Address (withAddress sample 0x1010) - Address sample) else None) ∧
  ∀ d, difference (withAddress sample 0x1010) sample = Ok (Some d) →
    Type_ (withAddress sample 0x1010) = Type_ sample →
    plus uint64 sample d = Ok (withAddress sample 0x1010).
Proof.
  apply (difference_roundtrip (withAddress sample 0x1010) sample).
  - split; [done| |done]. by exists 1028.
  - apply sample_valid.
  - done.
Defined.

(** [pageStart] of a valid address is the generic address of the greatest
    multiple of the page size that does not exceed it; [nextPageStart] is that
    of the least multiple that is not below it, or the invalid address when
    that multiple does not fit the address. *)
Theorem pages_correct `{LLVMMath} m :
  valid m → ∃ g, toGeneric m = Ok g ∧
    (∃ p, pageStart m = Ok (withAddress g p) ∧ valid (withAddress g p) ∧
          (4096 | p) ∧ p ≤ Address m < p + 4096) ∧
    (∃ p, (4096 | p) ∧ p - 4096 < Address m ≤ p ∧
          nextPageStart m =
            Ok (if decide (in_width (MetaAddressType.bits (Type_ m)) p)
                then withAddress g p else invalid)).
Proof.
  intros Hm. destruct (pageStart_lemma m Hm) as (g & Hg & Hp & Hv).
  destruct (nextPageStart_lemma m Hm) as (g' & Hg' & Hn).
  rewrite Hg in Hg'. injection Hg' as <-.
  exists g. split; [done|]. split.
  - exists (4096 * (Address m / 4096)). split_and!; try done.
    + apply Z.divide_factor_l.
    + divlia.
    + divlia.
  - exists (4096 * ((Address m + 4095) / 4096)). split; [apply Z.divide_factor_l|].
    split; [divlia|done].
Qed.

Lemma pages_correct_witness :
  ∃ g, toGeneric sample = Ok g ∧
    (∃ p, pageStart sample = Ok (withAddress g p) ∧ valid (withAddress g p) ∧
          (4096 | p) ∧ p ≤ Address sample < p + 4096) ∧
    (∃ p, (4096 | p) ∧ p - 4096 < Address sample ≤ p ∧
          @nextPageStart concreteMath sample =
            Ok (if decide (in_width (MetaAddressType.bits (Type_ sample)) p)
                then withAddress g p else invalid)).
Proof. exact (@pages_correct concreteMath sample sample_valid). Defined.

(** On a 32-bit address, a 64-bit offset is first reduced modulo 2^32, so
    offsets of 4 GiB and more are not rejected: in particular adding a multiple
    of 2^32 returns the address unchanged instead of an invalid address. *)
Theorem wide_offset_truncated m d :
  valid m → MetaAddressType.bits (Type_ m) = 32 →
  plus uint64 m d = plus uint64 m (wrap 32 d) ∧
  ∀ k, plus uint64 m (k * 2 ^ 32) = Ok m.
Proof.
  intros Hm Hb.
  assert (∀ d, plus uint64 m d = plus uint64 m (wrap 32 d)) as Hw.
  { intros d'. apply (add_assign_cast uint32); [by apply isInvalid_valid| |done|done].
    rewrite addressInt_valid, Hb; done. }
  split; [apply Hw|]. intros k. rewrite Hw. unfold wrap. rewrite Z.mod_mul by done.
  unfold plus. rewrite add_assign_shifted, shifted_0; try done.
  apply offset_ok_unsigned; [done|]. by rewrite Hb.
Qed.

Lemma wide_offset_truncated_witness :
  plus uint64 sample 0x100000010 = plus uint64 sample (wrap 32 0x100000010) ∧
  ∀ k, plus uint64 sample (k * 2 ^ 32) = Ok sample.
Proof. apply wide_offset_truncated; [apply sample_valid|done]. Defined.
