(* ===== verification/MetaAddressText.v ===== *)
(** * Encodings of meta-addresses

    The textual form of a [MetaAddress] (lib/Support/MetaAddress.cpp and the
    YAML traits), its packed bytes (include/revng/Support/IntegerSerialization.h)
    and its 128-bit integer form. *)

From S2P Require Import Prelude.
From S2P Require Import OverflowSafeInt.
From S2P Require Import LLVMInterfaces.
From S2P Require Architecture.
From S2P Require MetaAddressType.
From S2P Require Import MetaAddress.
From stdpp Require Import strings.
From Stdlib Require Import Ascii.
Local Open Scope Z_scope.

(** ** Packed integers *)

(** [llvm::support::endian::write] and [readNext] on unaligned little-endian
    integers of [size] bytes. *)
Class LLVMEndian := {
  writeLE : nat → Z → list Z;
  readLE : nat → list Z → Z;
  writeLE_length size v : length (writeLE size v) = size;
  writeLE_byte size v i : (i < size)%nat →
    writeLE size v !! i = Some ((v / 2 ^ (8 * Z.of_nat i)) mod 256);
  readLE_range size bs : length bs = size → Forall (in_width 8) bs →
    in_width (8 * Z.of_nat size) (readLE size bs);
  readLE_byte size bs i b : length bs = size → Forall (in_width 8) bs →
    bs !! i = Some b → (readLE size bs / 2 ^ (8 * Z.of_nat i)) mod 256 = b;
}.

Section packed.
  Context `{LLVMEndian}.

(* include/revng/Support/IntegerSerialization.h:18-40 packedTupleSize, packedSize *)
Definition packedSize (sizes : list nat) : nat := foldr Nat.add 0%nat sizes.

(** Each element is the size of a type and a value of it. *)
(* include/revng/Support/IntegerSerialization.h:42-71 toBytes, writeNext *)
Fixpoint packBytes (Values : list (nat * Z)) : list Z :=
  match Values with
  | [] => []
  | (size, v) :: Values => writeLE size v ++ packBytes Values
  end.

(* include/revng/Support/IntegerSerialization.h:50-53 readNext *)
Fixpoint readAll (sizes : list nat) (Ptr : list Z) : list Z :=
  match sizes with
  | [] => []
  | size :: sizes => readLE size (take size Ptr) :: readAll sizes (drop size Ptr)
  end.

(* include/revng/Support/IntegerSerialization.h:80-92 fromBytes *)
Definition unpackBytes (sizes : list nat) (Data : list Z) : outcome (list Z) :=
  revng_assert (bool_decide (length Data = packedSize sizes));;
  Ok (readAll sizes Data).

(** Two integers of [n] bytes with the same bytes are equal. *)
Lemma bytes_ext n x y :
  in_width (8 * Z.of_nat n) x → in_width (8 * Z.of_nat n) y →
  (∀ i, (i < n)%nat →
    (x / 2 ^ (8 * Z.of_nat i)) mod 256 = (y / 2 ^ (8 * Z.of_nat i)) mod 256) →
  x = y.
Proof.
  revert x y. induction n as [|n IH]; intros x y Hx Hy Hb.
  - unfold in_width in *. simpl in *. lia.
  - assert (∀ z, in_width (8 * Z.of_nat (S n)) z →
              in_width (8 * Z.of_nat n) (z / 256)) as Hd.
    { unfold in_width. intros z [??].
      replace (8 * Z.of_nat (S n)) with (8 + 8 * Z.of_nat n) in * by lia.
      rewrite Z.pow_add_r in * by lia. split; [apply Z.div_pos; lia|].
      apply Z.div_lt_upper_bound; lia. }
    assert (x / 256 = y / 256) as Heq.
    { apply IH; [by apply Hd..|]. intros i Hi. specialize (Hb (S i) ltac:(lia)).
      replace (8 * Z.of_nat (S i)) with (8 + 8 * Z.of_nat i) in Hb by lia.
      rewrite Z.pow_add_r in Hb by lia. change (2 ^ 8) with 256 in Hb.
      rewrite <-!Z.div_div in Hb by lia. exact Hb. }
    specialize (Hb 0%nat ltac:(lia)). rewrite Z.mul_0_r, !Z.div_1_r in Hb.
    rewrite (Z.div_mod x 256), (Z.div_mod y 256) by lia. lia.
Qed.

Lemma writeLE_Forall size v : Forall (in_width 8) (writeLE size v).
Proof.
  apply Forall_lookup. intros i b Hi.
  assert (i < size)%nat as Hl by (apply lookup_lt_Some in Hi; by rewrite writeLE_length in Hi).
  rewrite (writeLE_byte _ _ _ Hl) in Hi. simplify_eq.
  change 256 with (2 ^ 8). by apply (wrap_in_width 8).
Qed.

Lemma readLE_writeLE size v :
  in_width (8 * Z.of_nat size) v → readLE size (writeLE size v) = v.
Proof.
  intros Hv. apply (bytes_ext size); [|done|].
  - apply readLE_range; [apply writeLE_length|apply writeLE_Forall].
  - intros i Hi. apply (readLE_byte size); [apply writeLE_length|apply writeLE_Forall|].
    by apply writeLE_byte.
Qed.

Lemma writeLE_readLE size bs :
  length bs = size → Forall (in_width 8) bs → writeLE size (readLE size bs) = bs.
Proof.
  intros Hl Hf. apply list_eq. intros i.
  destruct (decide (i < size)%nat) as [Hi|Hi].
  - rewrite writeLE_byte by done.
    destruct (bs !! i) as [b|] eqn:Hb; [|apply lookup_ge_None in Hb; lia].
    f_equal. by apply readLE_byte.
  - rewrite !lookup_ge_None_2; [done|lia|]. rewrite writeLE_length. lia.
Qed.

Lemma packBytes_length Values :
  length (packBytes Values) = packedSize (Values.*1).
Proof.
  induction Values as [|[size v] Values IH]; [done|].
  unfold packedSize in *. simpl. rewrite length_app, writeLE_length. by rewrite IH.
Qed.

Lemma readAll_packBytes Values :
  Forall (λ sv, in_width (8 * Z.of_nat (sv.1)) (sv.2)) Values →
  readAll (Values.*1) (packBytes Values) = Values.*2.
Proof.
  induction 1 as [|[size v] Values Hv _ IH]; [done|]. csimpl in *.
  rewrite take_app_length', drop_app_length' by (by rewrite writeLE_length).
  by rewrite readLE_writeLE, IH.
Qed.

Lemma packBytes_readAll sizes Data :
  length Data = packedSize sizes → Forall (in_width 8) Data →
  packBytes (zip sizes (readAll sizes Data)) = Data.
Proof.
  revert Data. induction sizes as [|size sizes IH]; intros Data Hl Hf; unfold packedSize in *; simpl in *.
  - by destruct Data.
  - rewrite writeLE_readLE.
    + rewrite IH; [apply take_drop| |by apply Forall_drop].
      rewrite length_drop. unfold packedSize in *. lia.
    + rewrite length_take. unfold packedSize in *. lia.
    + by apply Forall_take.
Qed.

(* include/revng/Support/MetaAddress.h:911-911 MetaAddress::BytesSize *)
Definition BytesSize : nat := 16.

(* include/revng/Support/MetaAddress.h:913-915 MetaAddress::toBytes *)
Definition toBytes (m : MetaAddress) : list Z :=
  packBytes [(4%nat, Epoch m); (2%nat, AddressSpace m);
             (2%nat, MetaAddressType.toRaw (Type_ m)); (8%nat, Address m)].

(* include/revng/Support/MetaAddress.h:917-926 MetaAddress::fromBytes *)
Definition fromBytes (Data : list Z) : outcome MetaAddress :=
  fields ← unpackBytes [4; 2; 2; 8]%nat Data;
  match fields with
  | [Epoch; AddressSpace; Type_; Address] =>
      validate (mkMA Epoch AddressSpace (MetaAddressType.fromRaw Type_) Address)
  | _ => undefined
  end.
End packed.

(** ** The 128-bit integer form *)

Section integer.
  Context `{!APIntOps}.

(** The value the emitted instructions compute from the values of the four
    operands. *)
(* lib/Support/MetaAddress.cpp:24-40 MetaAddress::composeIntegerPC *)
Definition composeIntegerPC (AddressValue EpochValue AddressSpaceValue TypeValue : APInt) :
    APInt :=
  let Load128 V := ap_zext V 128 in
  let Epoch := ap_shl (Load128 EpochValue) 64 in
  let AddressSpace := ap_shl (Load128 AddressSpaceValue) (64 + 32) in
  let Type_ := ap_shl (Load128 TypeValue) (64 + 32 + 16) in
  ap_add (Load128 AddressValue) (ap_add Epoch (ap_add AddressSpace Type_)).

(* lib/Support/MetaAddress.cpp:42-59 MetaAddress::decomposeIntegerPC *)
Definition decomposeIntegerPC (Value : APInt) : outcome MetaAddress :=
  revng_assert (getBitWidth Value =? 128);;
  let Lower := getLimitedValue (ap_and Value (2 ^ 64 - 1)) in
  let Upper := getLimitedValue (ap_lshr Value 64) in
  validate
    (mkMA (Z.land Upper 0xFFFFFFFF)
       (Z.land (Z.shiftr Upper 32) 0xFFFF)
       (MetaAddressType.fromRaw (Z.shiftr Upper (32 + 16)))
       Lower).
End integer.

(** ** Text *)

Section text.
  Context `{!APIntOps, !StringOps}.

(* include/revng/Support/MetaAddress.h:502-502 MetaAddress::Separator *)
Definition Separator : ascii := ":".

(* lib/Support/MetaAddress.cpp:61-90 toStringImpl *)
Definition toStringImpl (m : MetaAddress) (Arch : Architecture.Values)
    (Separator : string) : outcome string :=
  if isInvalid m then Ok (Separator +:+ "Invalid")
  else
    ShouldPrintTheType ←
      (if bool_decide (Arch = Architecture.Invalid) then Ok true
       else
         MetaAddressType.genericFromArch Arch;;
         a ← arch m;
         Ok (negb (negb (bool_decide (a = Architecture.Invalid)) &&
                   bool_decide (a = Arch))));
    a ← address m;
    let Result := "0x" +:+ utohexstr a in
    Result ← (if ShouldPrintTheType : bool
              then t ← MetaAddressType.toString (Type_ m);
                   Ok (Result +:+ Separator +:+ t)
              else Ok Result);
    d ← isDefaultEpoch m;
    Result ← (if negb d
              then e ← epoch m; Ok (Result +:+ Separator +:+ printInt e)
              else Ok Result);
    d ← isDefaultAddressSpace m;
    (if negb d
     then s ← addressSpace m; Ok (Result +:+ Separator +:+ printInt s)
     else Ok Result).

(* lib/Support/MetaAddress.cpp:92-95 MetaAddress::toString *)
Definition toString (m : MetaAddress) (Arch : Architecture.Values) : outcome string :=
  toStringImpl m Arch (String Separator "").

(* lib/Support/MetaAddress.cpp:97-100 MetaAddress::toIdentifier *)
Definition toIdentifier (m : MetaAddress) (Arch : Architecture.Values) : outcome string :=
  toStringImpl m Arch "_".

(** The part of [fromString] after the parts have been split; [option] is the
    early [return MetaAddress::invalid()]. *)
(* lib/Support/MetaAddress.cpp:113-144 MetaAddress::fromString *)
Definition parseParts (Parts : list string) : option MetaAddress :=
  match Parts with
  | p0 :: p1 :: rest =>
      if (2 <? Z.of_nat (length rest)) then None
      else
        Address ← getAsInteger 0 uint64 p0;
        let Type_ := MetaAddressType.fromString p1 in
        if bool_decide (Type_ = MetaAddressType.Invalid) then None
        else
          Epoch ← match rest with
                  | p2 :: _ => if bool_decide (p2 = ""%string) then Some 0
                               else getAsInteger 0 uint32 p2
                  | [] => Some 0
                  end;
          AddressSpace ← match rest with
                         | [_; p3] => if bool_decide (p3 = ""%string) then Some 0
                                      else getAsInteger 0 uint16 p3
                         | _ => Some 0
                         end;
          Some (mkMA Epoch AddressSpace Type_ Address)
  | _ => None
  end.

(* lib/Support/MetaAddress.cpp:102-149 MetaAddress::fromString *)
Definition fromString (Text : string) : outcome MetaAddress :=
  if (String.length Text <=? 1)%nat then Ok invalid
  else if String.eqb Text (String Separator "Invalid") then Ok invalid
  else
    match parseParts (splitText Text Separator) with
    | None => Ok invalid
    | Some Result => validate Result
    end.

(** The error message, and the parsed value. *)
(* include/revng/Support/MetaAddress/YAMLTraits.h:21-28 ScalarTraits::input *)
Definition input (Scalar : string) : outcome (option string * MetaAddress) :=
  Value ← fromString Scalar;
  Invalid ← toString invalid Architecture.Invalid;
  if isInvalid Value && negb (String.eqb Scalar Invalid)
  then Ok (Some "not a MetaAddress"%string, Value)
  else Ok (None, Value).

(* include/revng/Support/MetaAddress.h:941-957 MetaAddress::dumpRelativeTo *)
Definition dumpRelativeTo (m Base : MetaAddress) (BaseName : string) : outcome string :=
  if equals Base m then Ok BaseName
  else
    MaybeDifference ← MetaAddress.difference m Base;
    match MaybeDifference with
    | None => t ← toString invalid Architecture.Invalid; Ok (BaseName +:+ "." +:+ t)
    | Some d => Ok (BaseName +:+ "." +:+ "0x" +:+ utohexstr d)
    end.

(* include/revng/Support/MetaAddress.h:1116-1128 addressesToString *)
Definition addressesToString (Addresses : list MetaAddress) : outcome string :=
  match Addresses with
  | [] => Ok ""%string
  | _ =>
      Result ← foldl (λ acc a, r ← acc; t ← toString a Architecture.Invalid;
                       Ok (r +:+ t +:+ " + ")%string) (Ok ""%string) Addresses;
      Ok (String.substring 0 (String.length Result - 3) Result)
  end.
End text.

(** ** Properties of the text *)

#[local] Arguments String.append !_ _ : simpl nomatch.

Lemma append_assoc (a b c : string) : ((a +:+ b) +:+ c = a +:+ (b +:+ c))%string.
Proof. induction a as [|x a IH]; simpl; [done|]. by rewrite IH. Qed.

Lemma append_length (a b : string) :
  String.length (a +:+ b) = (String.length a + String.length b)%nat.
Proof. induction a as [|x a IH]; simpl; [done|]. by rewrite IH. Qed.

Lemma hasChar_app c (a b : string) : hasChar c (a +:+ b) = hasChar c a || hasChar c b.
Proof. induction a as [|x a IH]; simpl; [done|]. by rewrite IH, orb_assoc. Qed.

Lemma join_snoc c p ps q :
  joinText c (p :: ps) +:+ String c "" +:+ q = joinText c ((p :: ps) ++ [q]).
Proof.
  revert p. induction ps as [|p' ps IH]; intros p; [done|].
  change (joinText c ((p :: p' :: ps) ++ [q]))
    with (p +:+ String c (joinText c ((p' :: ps) ++ [q]))).
  rewrite <-IH. change (joinText c (p :: p' :: ps)) with (p +:+ String c (joinText c (p' :: ps))).
  by rewrite append_assoc.
Qed.

#[local] Set Default Proof Using "Type*".
Section text_facts.
  Context `{!APIntOps, !StringOps, !StringLaws}.

(** The parts [toString] writes. *)
Definition partsOf (m : MetaAddress) (Name : string) : list string :=
  ["0x" +:+ utohexstr (Address m); Name] ++
  (if Epoch m =? 0 then [] else [printInt (Epoch m)]) ++
  (if AddressSpace m =? 0 then [] else [printInt (AddressSpace m)]).

Lemma toString_valid m :
  valid m →
  ∃ Name, MetaAddressType.toString (Type_ m) = Ok Name ∧
    toString m Architecture.Invalid = Ok (joinText Separator (partsOf m Name)).
Proof.
  intros Hm. assert (∃ Name, MetaAddressType.toString (Type_ m) = Ok Name) as [Name HN].
  { pose proof (valid_type _ Hm). destruct (Type_ m); naive_solver. }
  exists Name. split; [done|]. unfold toString, toStringImpl.
  rewrite isInvalid_valid by done. simpl.
  unfold address, isDefaultEpoch, isDefaultAddressSpace, epoch, addressSpace.
  rewrite (valid_isValid _ Hm). simpl. rewrite HN. simpl. unfold partsOf.
  destruct (Epoch m =? 0), (AddressSpace m =? 0); simpl;
    repeat (rewrite ?append_assoc; simpl); done.
Qed.

Lemma name_chars V Name c :
  MetaAddressType.toString V = Ok Name → c = ":"%char ∨ c = "-"%char → hasChar c Name = false.
Proof. destruct V; simpl; intros [= <-] [-> | ->]; done. Qed.

Lemma partsOf_chars m Name c :
  wf m → MetaAddressType.toString (Type_ m) = Ok Name → c = ":"%char ∨ c = "-"%char →
  Forall (λ p, hasChar c p = false) (partsOf m Name).
Proof.
  intros [[He _] [Hs _] _ [Ha _]] HN Hc.
  assert (punctuation c = true) as Hp by (by destruct Hc as [-> | ->]).
  unfold partsOf. rewrite !Forall_app, !Forall_cons. split_and!; try done.
  - rewrite hasChar_app, hex_chars by done. by destruct Hc as [-> | ->].
  - by eapply name_chars.
  - destruct (Epoch m =? 0); constructor; [by apply dec_chars|done].
  - destruct (AddressSpace m =? 0); constructor; [by apply dec_chars|done].
Qed.

(** What is read back from the text of [m]: an address space printed without an
    epoch takes the position of the epoch. *)
Definition reparsed (m : MetaAddress) : MetaAddress :=
  if Epoch m =? 0 then mkMA (AddressSpace m) 0 (Type_ m) (Address m) else m.

Lemma in_type_width (w z : Z) : in_width w z → in_type (IntType false w) z.
Proof. unfold in_width, in_type, type_min, type_max. simpl. lia. Qed.

Lemma print_not_empty n : 0 ≤ n → bool_decide (printInt n = ""%string) = false.
Proof. intros. by apply bool_decide_eq_false, dec_nonempty. Qed.

Lemma parseParts_partsOf m Name :
  valid m → wf m → MetaAddressType.toString (Type_ m) = Ok Name →
  parseParts (partsOf m Name) = Some (reparsed m).
Proof.
  intros Hm [He Hs _ Ha] HN.
  assert (MetaAddressType.fromString Name = Type_ m) as HT.
  { apply MetaAddressType.fromString_toString; [|done].
    pose proof (valid_type _ Hm). by destruct (Type_ m). }
  assert (bool_decide (Type_ m = MetaAddressType.Invalid) = false) as Hi
    by (apply isInvalid_valid; done).
  assert (in_width 32 (AddressSpace m)) as Hs32 by (eapply in_width_weaken; [|done]; lia).
  pose proof He as [He0 _]. pose proof Hs as [Hs0 _]. pose proof Ha as [Ha0 _].
  apply in_type_width in He as Het, Hs as Hst, Ha as Hat, Hs32 as Hst32.
  unfold partsOf, reparsed. destruct m as [e s t a]. simpl in *.
  pose proof (parse_hex a uint64 Ha0 Hat) as Hhex. simpl in Hhex.
  destruct (Z.eqb_spec e 0), (Z.eqb_spec s 0); simpl;
    rewrite Hhex; simpl; rewrite HT, Hi; simpl;
    rewrite ?print_not_empty by done; rewrite ?parse_dec by done; simpl;
    rewrite ?parse_dec by done; simpl; by subst.
Qed.

Lemma reparsed_valid m : valid m → valid (reparsed m).
Proof. intros Hm. unfold reparsed. case_match; [|done]. by destruct Hm; split. Qed.

Lemma join_shape m Name :
  (String.length (joinText Separator (partsOf m Name)) <=? 1)%nat = false ∧
  String.eqb (joinText Separator (partsOf m Name)) (String Separator "Invalid") = false.
Proof. unfold partsOf. destruct (Epoch m =? 0), (AddressSpace m =? 0); done. Qed.

Lemma fromString_toString_valid m s :
  valid m → wf m → toString m Architecture.Invalid = Ok s →
  fromString s = Ok (reparsed m).
Proof.
  intros Hm Hw Hs. destruct (toString_valid m Hm) as (Name & HN & HS).
  assert (s = joinText Separator (partsOf m Name)) as -> by congruence.
  unfold fromString. destruct (join_shape m Name) as [-> ->].
  rewrite split_join.
  - rewrite (parseParts_partsOf m Name) by done. by apply validate_valid, reparsed_valid.
  - done.
  - apply partsOf_chars; auto.
Qed.

Lemma default_wf : wf MetaAddress.default.
Proof. split; unfold MetaAddress.default, in_width; simpl; (lia || done). Qed.

Lemma fromString_type_wf Name : MetaAddressType.wf (MetaAddressType.fromString Name).
Proof.
  destruct (MetaAddressType.fromString_proper Name) as [->|?]; [done|].
  by apply MetaAddressType.proper_wf.
Qed.

Lemma type_in_width (w z : Z) : in_type (IntType false w) z → in_width w z.
Proof. unfold in_width, in_type, type_min, type_max. simpl. lia. Qed.

Lemma parse_width s w z : getAsInteger 0 (IntType false w) s = Some z → in_width w z.
Proof. intros ?. eapply type_in_width, parse_range. done. Qed.

Lemma parseParts_wf Parts m : parseParts Parts = Some m → wf m.
Proof.
  destruct Parts as [|p0 [|p1 rest]]; [done..|]. unfold parseParts.
  case_match; [done|]. intros Hp.
  apply bind_Some in Hp as (a & Ha%parse_width & Hp). simpl in Hp.
  case_match; [done|].
  apply bind_Some in Hp as (e & He & Hp). apply bind_Some in Hp as (sp & Hs & [= <-]).
  assert (in_width 32 0 ∧ in_width 16 0) as [Hz Hz'] by (unfold in_width; lia).
  split; simpl; [| |apply fromString_type_wf|exact Ha].
  - destruct rest as [|p2 rest]; [by simplify_eq|]. destruct (bool_decide (p2 = ""%string)); [by simplify_eq|].
    by apply parse_width in He.
  - destruct rest as [|p2 [|p3 [|]]]; try by simplify_eq. destruct (bool_decide (p3 = ""%string)); [by simplify_eq|].
    by apply parse_width in Hs.
Qed.

Lemma fromString_total Text : ∃ m, fromString Text = Ok m ∧ inv m ∧ wf m.
Proof.
  assert (inv invalid ∧ wf invalid) as [Hi Hiw].
  { split; [by right|exact default_wf]. }
  unfold fromString. repeat case_match; try (by eexists).
  match goal with H : parseParts _ = Some ?m |- _ =>
    apply parseParts_wf in H as Hw; destruct (validate_cases m) as [[? ->]|[? ->]] end.
  - apply Hw.
  - by destruct Hw as [_ _ _ [? _]].
  - eexists. split; [done|]. split; [by left|done].
  - by eexists.
Qed.

Lemma toString_invalid m Arch :
  isInvalid m = true → toString m Arch = Ok (String Separator "Invalid").
Proof. intros Hi. unfold toString, toStringImpl. by rewrite Hi. Qed.

Lemma fromString_invalid : fromString (String Separator "Invalid") = Ok invalid.
Proof. done. Qed.
End text_facts.

Section integer_facts.
  Context `{!APIntOps, !APIntLaws}.

(** The operands of [composeIntegerPC]: integers holding the four fields, of
    any width up to 128 bits. *)
Record holds (a : APInt) (z : Z) : Prop := {
  holds_width : getBitWidth a ≤ 128;
  holds_value : getValue a = z;
}.

Lemma zext_holds a z : holds a z →
  getBitWidth (ap_zext a 128) = 128 ∧ getValue (ap_zext a 128) = z.
Proof. intros [Hw <-]. by rewrite zext_width, zext_value by done. Qed.

Lemma shl_holds a z k :
  getBitWidth a = 128 → getValue a = z → 0 ≤ k ≤ 128 → in_width (128 - k) z →
  getBitWidth (ap_shl a k) = 128 ∧ getValue (ap_shl a k) = z * 2 ^ k.
Proof.
  intros Hw Hv Hk [Hz0 Hz]. rewrite shl_width, shl_value, Hw, Hv by lia.
  split; [done|]. apply wrap_small. unfold in_width. assert (0 < 2 ^ k) by (apply Z.pow_pos_nonneg; lia).
  assert (2 ^ 128 = 2 ^ (128 - k) * 2 ^ k) as ->.
  { rewrite <-Z.pow_add_r by lia. f_equal. lia. }
  split; [lia|]. nia.
Qed.

Lemma add_holds a b x y :
  getBitWidth a = 128 → getBitWidth b = 128 → getValue a = x → getValue b = y →
  in_width 128 (x + y) →
  getBitWidth (ap_add a b) = 128 ∧ getValue (ap_add a b) = x + y.
Proof.
  intros Ha Hb <- <- Hs. rewrite add_width, add_value, Ha by congruence.
  split; [done|]. by apply wrap_small.
Qed.

(** The integer with the four fields at their positions. *)
Definition packedPC (a e s t : Z) : Z := a + (e * 2 ^ 64 + (s * 2 ^ 96 + t * 2 ^ 112)).

Lemma compose_value va ve vs vt a e s t :
  holds va a → holds ve e → holds vs s → holds vt t →
  in_width 64 a → in_width 32 e → in_width 16 s → in_width 16 t →
  getBitWidth (composeIntegerPC va ve vs vt) = 128 ∧
  getValue (composeIntegerPC va ve vs vt) = packedPC a e s t.
Proof.
  intros [Wa Va]%zext_holds [We Ve]%zext_holds [Ws Vs]%zext_holds [Wt Vt]%zext_holds.
  intros Ha He Hs Ht. unfold composeIntegerPC, packedPC.
  destruct (shl_holds _ _ 64 We Ve) as [We' Ve'];
    [lia|by eapply in_width_weaken; [|done]|].
  destruct (shl_holds _ _ (64 + 32) Ws Vs) as [Ws' Vs'];
    [lia|by eapply in_width_weaken; [|done]|].
  destruct (shl_holds _ _ (64 + 32 + 16) Wt Vt) as [Wt' Vt'];
    [lia|by eapply in_width_weaken; [|done]|].
  unfold in_width in *. simpl Z.add in *.
  edestruct (add_holds _ _ _ _ Ws' Wt' Vs' Vt') as [W1 V1]; [unfold in_width; lia|].
  edestruct (add_holds _ _ _ _ We' W1 Ve' V1) as [W2 V2]; [unfold in_width; lia|].
  apply add_holds; try done. unfold in_width; lia.
Qed.

Lemma decompose_value v a e s t :
  getBitWidth v = 128 → getValue v = packedPC a e s t →
  in_width 64 a → in_width 32 e → in_width 16 s → in_width 16 t →
  decomposeIntegerPC v = validate (mkMA e s (MetaAddressType.fromRaw t) a).
Proof.
  intros Hw Hv Ha He Hs Ht. unfold decomposeIntegerPC.
  rewrite Hw, Z.eqb_refl, assert_true by done. cbv zeta.
  rewrite !limited_value, and_value, lshr_value, Hv by (rewrite ?Hw; lia).
  assert (∀ z, Z.land z (2 ^ 64 - 1) = wrap 64 z) as -> by (intros z; by apply (land_mask 64)).
  change 4294967295 with (Z.ones 32). change 65535 with (Z.ones 16).
  rewrite !land_mask, !Z.shiftr_div_pow2 by lia.
  unfold packedPC, wrap, in_width in *.
  set (v' := a + (e * 2 ^ 64 + (s * 2 ^ 96 + t * 2 ^ 112))).
  set (u := e + s * 2 ^ 32 + t * 2 ^ 48).
  assert (v' mod 2 ^ 64 = a) as ->
    by (symmetry; apply Z.mod_unique with u; unfold v', u; lia).
  assert (v' / 2 ^ 64 = u) as -> by (symmetry; apply Z.div_unique with a; unfold v', u; lia).
  rewrite !Z.min_l by (unfold u; lia).
  assert (u mod 2 ^ 32 = e) as ->
    by (symmetry; apply Z.mod_unique with (s + t * 2 ^ 16); unfold u; lia).
  assert (u / 2 ^ 32 = s + t * 2 ^ 16) as ->
    by (symmetry; apply Z.div_unique with e; unfold u; lia).
  assert ((s + t * 2 ^ 16) mod 2 ^ 16 = s) as ->
    by (symmetry; apply Z.mod_unique with t; lia).
  assert (u / 2 ^ (32 + 16) = t) as ->
    by (symmetry; apply Z.div_unique with (e + s * 2 ^ 32); unfold u; lia).
  done.
Qed.
End integer_facts.

(** ** Theorems *)

(** C40: The text of an address can be read back: every address the class hands
    out has a text, which [fromString] and the YAML reader accept; what they
    return is the address itself exactly when its epoch is not the default or
    its address space is. *)
Theorem text_roundtrip `{!APIntOps, !StringOps, !StringLaws} m :
  inv m → wf m →
  ∃ s, toString m Architecture.Invalid = Ok s ∧
    fromString s = Ok (reparsed m) ∧
    input s = Ok (None, reparsed m) ∧
    (reparsed m = m ↔ Epoch m ≠ 0 ∨ AddressSpace m = 0).
Proof.
  intros [Hm| ->] Hw.
  - destruct (toString_valid m Hm) as (Name & HN & HS). eexists. split; [exact HS|].
    pose proof (fromString_toString_valid m _ Hm Hw HS) as HF. split; [done|]. split.
    + unfold input. rewrite HF. simpl. rewrite isInvalid_valid by by apply reparsed_valid.
      done.
    + unfold reparsed. destruct (Z.eqb_spec (Epoch m) 0); [|naive_solver].
      destruct m; simpl in *; naive_solver.
  - eexists. split; [by apply toString_invalid|]. naive_solver.
Qed.

Lemma text_roundtrip_witness :
  let m := mkMA 5 3 MetaAddressType.Code_x86_64 0x400000 in
  ∃ s, toString m Architecture.Invalid = Ok s ∧
    fromString s = Ok (reparsed m) ∧ input s = Ok (None, reparsed m) ∧
    (reparsed m = m ↔ Epoch m ≠ 0 ∨ AddressSpace m = 0).
Proof.
  intros m. apply (text_roundtrip m).
  - left. split; [done| |by vm_compute]. exists 0x400000. done.
  - split; unfold in_width; simpl; (lia || done).
Defined.

(** The text of an address with the default epoch and another address space
    is that of a different address, whose epoch is that address space: reading
    it back moves the address space into the epoch, and two addresses share one
    text. *)
Theorem address_space_lost `{!APIntOps, !StringOps, !StringLaws} m :
  valid m → wf m → Epoch m = 0 → AddressSpace m ≠ 0 →
  ∃ s m', toString m Architecture.Invalid = Ok s ∧ fromString s = Ok m' ∧
    toString m' Architecture.Invalid = Ok s ∧
    Epoch m' = AddressSpace m ∧ AddressSpace m' = 0 ∧ MetaAddress.compare m m' = Lt.
Proof.
  intros Hm Hw He Hs. destruct (toString_valid m Hm) as (Name & HN & HS).
  pose proof (fromString_toString_valid m _ Hm Hw HS) as HF.
  destruct (toString_valid _ (reparsed_valid _ Hm)) as (Name' & HN' & HS').
  eexists _, _. split; [exact HS|]. split; [exact HF|].
  destruct Hw as [_ [Hs0 _] _ _]. destruct m as [e s t a]. simpl in *. subst e.
  unfold reparsed in *. simpl in *. split_and!; try done.
  - rewrite HS'. rewrite HN in HN'. injection HN' as <-. unfold partsOf. simpl.
    by destruct (Z.eqb_spec s 0).
  - unfold MetaAddress.compare. by destruct s.
Qed.

Lemma address_space_lost_witness :
  let m := mkMA 0 3 MetaAddressType.Code_x86_64 0x400000 in
  ∃ s m', toString m Architecture.Invalid = Ok s ∧ fromString s = Ok m' ∧
    toString m' Architecture.Invalid = Ok s ∧
    Epoch m' = AddressSpace m ∧ AddressSpace m' = 0 ∧ MetaAddress.compare m m' = Lt.
Proof.
  intros m. apply (address_space_lost m); try done.
  split; [done| |by vm_compute]. exists 0x400000. done.
Defined.

(** Reading never fails: any text at all gives a valid address or the
    invalid one, with fields in range; the YAML reader reports an error exactly
    when the address is invalid and the text is not the one of the invalid
    address. *)
Theorem input_total `{!APIntOps, !StringOps, !StringLaws} Scalar :
  ∃ Error m, input Scalar = Ok (Error, m) ∧ fromString Scalar = Ok m ∧ inv m ∧ wf m ∧
    (Error = None ↔ valid m ∨ Scalar = String Separator "Invalid").
Proof.
  destruct (fromString_total Scalar) as (m & HF & Hi & Hw). unfold input.
  rewrite HF, bind_ok, toString_invalid, bind_ok by done.
  destruct (isInvalid m) eqn:Hinv, (String.eqb_spec Scalar (String Separator "Invalid"));
    simpl; eexists _, _; (split; [done|]); split_and!; try done; try naive_solver.
  - split; [done|]. intros [Hv|?]; [|done]. by rewrite isInvalid_valid in Hinv.
  - split; [|done]. intros _. left. destruct Hi as [|Hd]; [done|]. by rewrite Hd in Hinv.
Qed.

Lemma readAll_fields `{LLVMEndian} Data :
  length Data = BytesSize → Forall (in_width 8) Data →
  ∃ e s t a, readAll [4; 2; 2; 8]%nat Data = [e; s; t; a] ∧
    in_width 32 e ∧ in_width 16 s ∧ in_width 16 t ∧ in_width 64 a.
Proof.
  intros Hl Hf. eexists _, _, _, _. split; [done|].
  assert (∀ n k, (n + k ≤ 16)%nat →
    in_width (8 * Z.of_nat n) (readLE n (take n (drop k Data)))) as Hr.
  { intros n k Hk. apply readLE_range; [|by apply Forall_take, Forall_drop].
    rewrite length_take, length_drop, Hl. unfold BytesSize. lia. }
  rewrite !drop_drop. split_and!.
  - by apply (Hr 4%nat 0%nat ltac:(lia)).
  - by apply (Hr 2%nat 4%nat ltac:(lia)).
  - by apply (Hr 2%nat 6%nat ltac:(lia)).
  - by apply (Hr 8%nat 8%nat ltac:(lia)).
Qed.

Lemma raw_wf t : in_width 16 t → MetaAddressType.wf (MetaAddressType.fromRaw t).
Proof.
  intros [Ht0 Ht1].
  assert (MetaAddressType.toRaw (MetaAddressType.fromRaw t) = t) as Hr
    by apply MetaAddressType.toRaw_fromRaw.
  destruct (MetaAddressType.fromRaw t) eqn:HE; try done. simpl in *. subst raw.
  destruct t as [|p|p]; [done| |lia].
  do 4 (try (destruct p as [p|p|]; try done)); lia.
Qed.

Lemma unpack_exact `{LLVMEndian} sizes Data :
  length Data = packedSize sizes → unpackBytes sizes Data = Ok (readAll sizes Data).
Proof. intros Hl. unfold unpackBytes. by rewrite bool_decide_eq_true_2. Qed.

(** Packed bytes and addresses correspond one to one: the bytes of an
    address have the size of the structure and give the address back, any block
    of that size reads as a valid address, whose bytes it is, or as the invalid
    one, and a block of another size is refused. *)
Theorem bytes_roundtrip `{LLVMEndian} :
  (∀ m, inv m → wf m → length (toBytes m) = BytesSize ∧ fromBytes (toBytes m) = Ok m) ∧
  (∀ Data, length Data = BytesSize → Forall (in_width 8) Data →
    ∃ m, fromBytes Data = Ok m ∧ inv m ∧ (valid m → toBytes m = Data)) ∧
  (∀ Data, length Data ≠ BytesSize → fromBytes Data = Fault AssertionFailed).
Proof.
  split_and!.
  - intros m Hi [He Hs Ht Ha].
    assert (length (toBytes m) = BytesSize) as Hl by apply packBytes_length.
    split; [done|]. unfold fromBytes. rewrite unpack_exact by done. unfold toBytes.
    assert (readAll [4; 2; 2; 8]%nat (toBytes m) =
      [Epoch m; AddressSpace m; MetaAddressType.toRaw (Type_ m); Address m]) as Hr.
    { apply (readAll_packBytes [(4%nat, Epoch m); (2%nat, AddressSpace m);
             (2%nat, MetaAddressType.toRaw (Type_ m)); (8%nat, Address m)]).
      repeat constructor; simpl; try apply MetaAddressType.toRaw_range; done || apply Ht || apply He
        || apply Hs || apply Ha. }
    unfold toBytes in Hr. rewrite Hr, bind_ok, MetaAddressType.fromRaw_toRaw by done.
    destruct m as [e s t a]. simpl. destruct Hi as [Hm| ->]; [by apply validate_valid|done].
  - intros Data Hl Hf. destruct (readAll_fields Data Hl Hf) as (e & s & t & a & Hr & He & Hs & Ht & Ha).
    unfold fromBytes. rewrite unpack_exact, Hr by done. simpl.
    destruct (validate_cases (mkMA e s (MetaAddressType.fromRaw t) a)) as [[Hv ->]|[Hv ->]];
      [by apply raw_wf|exact (proj1 Ha)|..]; eexists; (split; [done|]).
    + split; [by left|]. intros _. unfold toBytes. simpl.
      rewrite MetaAddressType.toRaw_fromRaw. etrans; [|exact (packBytes_readAll [4; 2; 2; 8]%nat Data Hl Hf)].
      by rewrite Hr.
    + split; [by right|]. intros Hd. by apply valid_type in Hd.
  - intros Data Hl. unfold fromBytes, unpackBytes.
    by rewrite (bool_decide_eq_false_2 (length Data = _)).
Qed.

(** The integer form of an address, composed from operands that hold its
    fields, decomposes into that address; and [decomposeIntegerPC] refuses an
    integer that does not have 128 bits. *)
Theorem integer_roundtrip `{!APIntOps, !APIntLaws} :
  (∀ m va ve vs vt, inv m → wf m →
    holds va (Address m) → holds ve (Epoch m) → holds vs (AddressSpace m) →
    holds vt (MetaAddressType.toRaw (Type_ m)) →
    decomposeIntegerPC (composeIntegerPC va ve vs vt) = Ok m) ∧
  (∀ v, getBitWidth v ≠ 128 → decomposeIntegerPC v = Fault AssertionFailed).
Proof.
  split.
  - intros m va ve vs vt Hi [He Hs Ht Ha] Va Ve Vs Vt.
    pose proof (MetaAddressType.toRaw_range _ Ht) as Htr.
    destruct (compose_value _ _ _ _ _ _ _ _ Va Ve Vs Vt Ha He Hs Htr) as [Hw Hv].
    rewrite (decompose_value _ _ _ _ _ Hw Hv Ha He Hs Htr).
    rewrite MetaAddressType.fromRaw_toRaw by done.
    destruct m as [e s t a]. simpl. destruct Hi as [Hm| ->]; [by apply validate_valid|done].
  - intros v Hv. unfold decomposeIntegerPC. by destruct (Z.eqb_spec (getBitWidth v) 128).
Qed.

Lemma fromBytes_inv `{LLVMEndian} Data m : Forall (in_width 8) Data → fromBytes Data = Ok m → inv m.
Proof.
  intros Hf Hm. destruct (decide (length Data = BytesSize)) as [Hl|Hl].
  - destruct (readAll_fields Data Hl Hf) as (e & s & t & a & Hr & He & Hs & Ht & [Ha _]).
    unfold fromBytes in Hm. rewrite unpack_exact, Hr in Hm by done. by apply validate_inv in Hm; [|apply raw_wf|].
  - unfold fromBytes, unpackBytes in Hm. by rewrite (bool_decide_eq_false_2 (length Data = _)) in Hm.
Qed.

Lemma packedPC_fields V : in_width 128 V →
  V = packedPC (V mod 2 ^ 64) ((V / 2 ^ 64) mod 2 ^ 32) ((V / 2 ^ 96) mod 2 ^ 16) ((V / 2 ^ 112) mod 2 ^ 16).
Proof.
  intros Hv. unfold packedPC.
  pose proof (Z.div_mod V (2 ^ 64) ltac:(lia)) as H0.
  pose proof (Z.div_mod (V / 2 ^ 64) (2 ^ 32) ltac:(lia)) as H1. rewrite Z.div_div in H1 by lia.
  pose proof (Z.div_mod (V / 2 ^ 96) (2 ^ 16) ltac:(lia)) as H2. rewrite Z.div_div in H2 by lia.
  change (2 ^ 64 * 2 ^ 32) with (2 ^ 96) in H1. change (2 ^ 96 * 2 ^ 16) with (2 ^ 112) in H2.
  rewrite (Z.mod_small (V / 2 ^ 112)); [lia|].
  unfold in_width in Hv. split; [apply Z.div_pos; lia|apply Z.div_lt_upper_bound; lia].
Qed.

Lemma decomposeIntegerPC_inv `{!APIntOps, !APIntLaws} v m : decomposeIntegerPC v = Ok m → inv m.
Proof.
  intros Hm. destruct (Z.eq_dec (getBitWidth v) 128) as [Hw|Hw].
  - pose proof (ap_range v) as Hv. rewrite Hw in Hv. set (V := getValue v) in *.
    assert (∀ k w, 0 ≤ k → 0 ≤ w → in_width w ((V / 2 ^ k) mod 2 ^ w)) as Hf
      by (intros; apply Z.mod_pos_bound, Z.pow_pos_nonneg; lia).
    assert (V = packedPC (V mod 2 ^ 64) ((V / 2 ^ 64) mod 2 ^ 32) ((V / 2 ^ 96) mod 2 ^ 16) ((V / 2 ^ 112) mod 2 ^ 16)) as HV
      by exact (packedPC_fields V Hv).
    rewrite (decompose_value v _ _ _ _ Hw HV) in Hm; [|rewrite <- (Z.div_1_r V); by apply (Hf 0)|by apply Hf..].
    apply validate_inv in Hm; [done|by apply raw_wf, Hf|exact (proj1 (Z.mod_pos_bound V (2 ^ 64) ltac:(lia)))].
  - unfold decomposeIntegerPC in Hm. by destruct (Z.eqb_spec (getBitWidth v) 128).
Qed.

(** C39: the operations on addresses keep the invariant: whatever the operands (offsets of
    any type and value, program counters of 64 bits, any replacement type, any text, any
    block of bytes, any integer), an operation that returns an address yields a valid one,
    with a proper type, aligned for it and within its bits, or the invalid one. The
    operations are those that make an address of its parts or of a program counter,
    add, subtract, convert to a generic address or to one of code, replace the
    address or the type, round to pages, and read a text, bytes or an integer. *)
Theorem operations_preserve_inv `{LLVMMath, LLVMEndian, !APIntOps, !APIntLaws, !StringOps, !StringLaws} :
  (∀ a Ty e s m, in_width 64 a → MetaAddressType.wf Ty → make a Ty e s = Ok m → inv m) ∧
  (∀ Arch a e s m, in_width 64 a → fromGeneric Arch a e s = Ok m → inv m) ∧
  (∀ Arch PC e s m, in_width 64 PC → fromPC Arch PC e s = Ok m → inv m) ∧
  (∀ Base PC m, in_width 64 PC → fromPCBase Base PC = Ok m → inv m) ∧
  (∀ T m d m', inv m → MetaAddress.plus T m d = Ok m' → inv m') ∧
  (∀ T m d m', inv m → MetaAddress.minus T m d = Ok m' → inv m') ∧
  (∀ m m', inv m → toGeneric m = Ok m' → inv m') ∧
  (∀ m m', inv m → toGeneric64 m = Ok m' → inv m') ∧
  (∀ m Arch m', inv m → toPC m Arch = Ok m' → inv m') ∧
  (∀ m a m', inv m → replaceAddress m a = Ok m' → inv m') ∧
  (∀ m Ty m', inv m → MetaAddressType.wf Ty → replaceType m Ty = Ok m' → inv m') ∧
  (∀ m m', inv m → pageStart m = Ok m' → inv m') ∧
  (∀ m m', inv m → nextPageStart m = Ok m' → inv m') ∧
  (∀ Text, ∃ m, fromString Text = Ok m ∧ inv m) ∧
  (∀ Data m, Forall (in_width 8) Data → fromBytes Data = Ok m → inv m) ∧
  (∀ v m, decomposeIntegerPC v = Ok m → inv m).
Proof.
  split_and!; [exact makeAddress_inv|exact fromGeneric_inv|exact fromPC_inv|exact fromPCBase_inv|exact add_assign_inv|exact sub_assign_inv
    |exact toGeneric_inv|exact toGeneric64_inv|exact toPC_inv|exact replaceAddress_inv|exact replaceType_inv|exact pageStart_inv
    |exact nextPageStart_inv| |exact fromBytes_inv|exact decomposeIntegerPC_inv].
  intros Text. destruct (fromString_total Text) as (m & ? & ? & _). by exists m.
Qed.

(** ** Concrete instances *)

Lemma input_total_witness :
  ∃ Error m, input "0x1001:Code_arm" = Ok (Error, m) ∧ fromString "0x1001:Code_arm" = Ok m ∧
    inv m ∧ wf m ∧
    (Error = None ↔ valid m ∨ "0x1001:Code_arm"%string = String Separator "Invalid").
Proof. apply (input_total "0x1001:Code_arm"). Defined.

Lemma integer_roundtrip_witness :
  decomposeIntegerPC (composeIntegerPC (mkAPInt 64 0x1000) (mkAPInt 32 5) (mkAPInt 16 3)
    (mkAPInt 16 7)) = Ok (mkMA 5 3 MetaAddressType.Code_arm 0x1000).
Proof.
  apply (proj1 integer_roundtrip (mkMA 5 3 MetaAddressType.Code_arm 0x1000)).
  - left. split; [done| |by vm_compute]. exists 0x400. done.
  - split; unfold in_width; simpl; (lia || done).
  - by split.
  - by split.
  - by split.
  - by split.
Defined.

Definition concreteWrite (size : nat) (v : Z) : list Z :=
  (λ i, (v / 2 ^ (8 * Z.of_nat i)) mod 256) <$> seq 0 size.

Definition concreteRead (size : nat) (bs : list Z) : Z :=
  foldr (λ b acc, b + 256 * acc) 0 bs.

Lemma concreteRead_byte bs i b :
  Forall (in_width 8) bs → bs !! i = Some b →
  (concreteRead 0 bs / 2 ^ (8 * Z.of_nat i)) mod 256 = b.
Proof.
  intros Hf. revert i b. induction Hf as [|b' bs Hb' Hf IH]; intros i b Hi; [done|].
  unfold concreteRead in *. simpl.
  set (r := foldr (λ b acc, b + 256 * acc) 0 bs) in *.
  assert ((b' + 256 * r) / 256 = r) as Hd
    by (symmetry; apply Z.div_unique with b'; unfold in_width in *; lia).
  destruct i as [|i]; simpl in Hi.
  - injection Hi as Hi. rewrite <-Hi, Z.mul_0_r, Z.div_1_r.
    symmetry. apply Z.mod_unique with r; unfold in_width in *; lia.
  - replace (8 * Z.of_nat (S i)) with (8 + 8 * Z.of_nat i) by lia.
    rewrite Z.pow_add_r by lia. change (2 ^ 8) with 256.
    rewrite <-Z.div_div, Hd by lia. by apply IH.
Qed.

Lemma concreteRead_range bs :
  Forall (in_width 8) bs → in_width (8 * Z.of_nat (length bs)) (concreteRead 0 bs).
Proof.
  induction 1 as [|b bs Hb Hf IH]; [done|]. unfold concreteRead in *. simpl.
  replace (8 * Z.of_nat (S (length bs))) with (8 + 8 * Z.of_nat (length bs)) by lia.
  unfold in_width in *. rewrite Z.pow_add_r by lia. change (2 ^ 8) with 256 in *. lia.
Qed.

Lemma concreteWrite_byte size v i :
  (i < size)%nat →
  concreteWrite size v !! i = Some ((v / 2 ^ (8 * Z.of_nat i)) mod 256).
Proof.
  intros Hi. unfold concreteWrite. rewrite list_lookup_fmap, lookup_seq_lt by done. done.
Qed.

Definition concreteEndian : LLVMEndian.
Proof.
  refine {| writeLE := concreteWrite; readLE := concreteRead |}.
  - intros. unfold concreteWrite. by rewrite length_fmap, length_seq.
  - apply concreteWrite_byte.
  - intros size bs <- Hf. by apply concreteRead_range.
  - intros size bs i b _. apply concreteRead_byte.
Defined.

Lemma bytes_roundtrip_witness :
  let m := mkMA 5 3 MetaAddressType.Code_arm 0x1000 in
  length (@toBytes concreteEndian m) = BytesSize ∧
  @fromBytes concreteEndian (@toBytes concreteEndian m) = Ok m.
Proof.
  intros m. apply (proj1 (@bytes_roundtrip concreteEndian) m).
  - left. split; [done| |by vm_compute]. exists 0x400. done.
  - split; unfold in_width; simpl; (lia || done).
Defined.

Lemma operations_preserve_inv_witness :
  let m := mkMA 5 3 MetaAddressType.Code_arm 0x1000 in
  inv m ∧ MetaAddress.minus int32 m (-2) = Ok MetaAddress.default ∧ replaceType m MetaAddressType.Code_arm_thumb = Ok (withType m MetaAddressType.Code_arm_thumb) ∧
  inv (withType m MetaAddressType.Code_arm_thumb).
Proof.
  intros m. assert (inv m) as Hm by (left; split; [done|by exists 0x400|by vm_compute]).
  split; [exact Hm|]. split; [vm_compute; reflexivity|].
  assert (replaceType m MetaAddressType.Code_arm_thumb = Ok (withType m MetaAddressType.Code_arm_thumb)) as Hr by (vm_compute; reflexivity).
  split; [exact Hr|].
  destruct (@operations_preserve_inv concreteMath concreteEndian _ _ _ _) as (_ & _ & _ & _ & _ & _ & _ & _ & _ & _ & Hty & _).
  refine (Hty m _ _ Hm _ Hr). vm_compute. exact I.
Defined.
