(* ===== verification/BasicBlockID.v ===== *)
(** * Identifiers of basic blocks

    [BasicBlockID] (include/revng/Support/BasicBlockID.h and
    lib/Support/BasicBlockID.cpp): the address of a basic block and the index of
    the inlined copy it belongs to. *)

From S2P Require Import Prelude.
From S2P Require Import OverflowSafeInt.
From S2P Require Import LLVMInterfaces.
From S2P Require Architecture.
From S2P Require MetaAddressType.
From S2P Require Import MetaAddress.
From S2P Require MetaAddressText.
From stdpp Require Import strings.
From Stdlib Require Import Ascii.
Local Open Scope Z_scope.

(* include/revng/Support/BasicBlockID.h:12-15 BasicBlockID *)
Record BasicBlockID := mkID {
  Start : MetaAddress;
  InliningIndex : Z;
}.

#[global] Instance BasicBlockID_eq_dec : EqDecision BasicBlockID.
Proof. solve_decision. Defined.

(* include/revng/Support/BasicBlockID.h:76-82 BasicBlockID::verify *)
Definition verify (b : BasicBlockID) : bool :=
  if isInvalid (Start b) then InliningIndex b =? 0 else true.

(* include/revng/Support/BasicBlockID.h:20-22 BasicBlockID(MetaAddress, uint64_t) *)
Definition make (Start_ : MetaAddress) (Index : Z) : outcome BasicBlockID :=
  revng_assert (verify (mkID Start_ Index));; Ok (mkID Start_ Index).

(* include/revng/Support/BasicBlockID.h:24-25 BasicBlockID::invalid *)
Definition invalid : BasicBlockID := mkID MetaAddress.invalid 0.

(* include/revng/Support/BasicBlockID.h:30-33 BasicBlockID::notInlinedAddress *)
Definition notInlinedAddress (b : BasicBlockID) : outcome MetaAddress :=
  revng_assert (InliningIndex b =? 0);; Ok (Start b).

(* include/revng/Support/BasicBlockID.h:36-36 BasicBlockID::isInlined *)
Definition isInlined (b : BasicBlockID) : bool := negb (InliningIndex b =? 0).

(* include/revng/Support/BasicBlockID.h:37-37 BasicBlockID::isValid *)
Definition isValid (b : BasicBlockID) : bool := MetaAddress.isValid (Start b).

(* include/revng/Support/BasicBlockID.h:47-71 BasicBlockID::operator<=>, tie *)
Definition compare (a b : BasicBlockID) : comparison :=
  lex (MetaAddress.compare (Start a) (Start b)) (InliningIndex a ?= InliningIndex b).

Section text.
  Context `{!APIntOps, !StringOps}.

(* lib/Support/BasicBlockID.cpp:38-47 BasicBlockID::toString *)
Definition toString (b : BasicBlockID) (Arch : Architecture.Values) : outcome string :=
  Result ← MetaAddressText.toString (Start b) Arch;
  if isInlined b then Ok (Result +:+ "-" +:+ printInt (InliningIndex b)) else Ok Result.

(** [None] is an early [return BasicBlockID::invalid()]. *)
(* lib/Support/BasicBlockID.cpp:25-33 BasicBlockID::fromString *)
Definition parseIndex (Parts : list string) : option Z :=
  match Parts with
  | [_; p1] =>
      APIndex ← getAsAPInt 10 p1;
      if 64 <? getBitWidth APIndex then None else Some (getLimitedValue APIndex)
  | _ => Some 0
  end.

(* lib/Support/BasicBlockID.cpp:13-36 BasicBlockID::fromString *)
Definition fromString (Text : string) : outcome BasicBlockID :=
  let Parts := splitText Text "-" in
  match Parts with
  | [] => Ok invalid
  | p0 :: _ =>
      if 2 <? Z.of_nat (length Parts) then Ok invalid
      else
        Start ← MetaAddressText.fromString p0;
        if negb (MetaAddress.isValid Start) then Ok invalid
        else
          match parseIndex Parts with
          | None => Ok invalid
          | Some InliningIndex => make Start InliningIndex
          end
  end.
End text.

(** ** Properties *)

(** What the class maintains. *)
Record inv (b : BasicBlockID) : Prop := {
  inv_start : MetaAddress.inv (Start b) ∧ wf (Start b);
  inv_index : in_width 64 (InliningIndex b);
  inv_verify : verify b = true;
}.

Lemma id_compare_Eq a b : compare a b = Eq ↔ tie (Start a) = tie (Start b) ∧ InliningIndex a = InliningIndex b.
Proof. unfold compare. by rewrite lex_Eq, MetaAddress.compare_Eq, Z.compare_eq_iff. Qed.

Lemma compare_opp a b : compare a b = CompOpp (compare b a).
Proof.
  unfold compare. rewrite (MetaAddress.compare_antisym (Start a)), (Z.compare_antisym (InliningIndex b)).
  by destruct (MetaAddress.compare (Start b) (Start a)).
Qed.

Section text_facts.
  Context `{!APIntOps, !APIntLaws, !StringOps, !StringLaws}.
  #[local] Set Default Proof Using "Type*".

Lemma joinText_chars c d ps :
  Ascii.eqb c d = false → Forall (λ p, hasChar c p = false) ps →
  hasChar c (joinText d ps) = false.
Proof.
  intros Hcd. induction 1 as [|p ps Hp Hf IH]; [done|]. simpl.
  destruct ps as [|q ps]; [done|].
  rewrite MetaAddressText.hasChar_app, Hp. simpl in *. by rewrite Hcd, IH.
Qed.

Lemma address_text_chars m s :
  valid m → wf m → MetaAddressText.toString m Architecture.Invalid = Ok s →
  hasChar "-" s = false.
Proof.
  intros Hm Hw Hs. destruct (MetaAddressText.toString_valid m Hm) as (Name & HN & HS).
  assert (s = joinText MetaAddressText.Separator (MetaAddressText.partsOf m Name)) as ->
    by congruence.
  apply joinText_chars; [done|]. apply MetaAddressText.partsOf_chars; auto.
Qed.

Lemma parsed_index n :
  in_width 64 n →
  ∃ a, getAsAPInt 10 (printInt n) = Some a ∧ getLimitedValue a = n.
Proof.
  intros [Hn0 Hn]. destruct (parse_ap n Hn0) as (a & Ha & Hv). exists a.
  split; [done|]. rewrite limited_value, Hv. lia.
Qed.
(** The integer the printed index is parsed into fits 64 bits. *)
Definition indexFits (b : BasicBlockID) : bool :=
  negb (isInlined b) ||
  match getAsAPInt 10 (printInt (InliningIndex b)) with
  | Some a => getBitWidth a <=? 64
  | None => false
  end.

Lemma reparsed_wf m : wf m → wf (MetaAddressText.reparsed m).
Proof.
  intros [He Hs Ht Ha]. unfold MetaAddressText.reparsed. case_match; [|by split].
  split; simpl; [| |done|done]; [|unfold in_width; lia].
  eapply in_width_weaken; [|done]. lia.
Qed.

Lemma inv_cases b :
  inv b → (valid (Start b) ∧ wf (Start b) ∧ in_width 64 (InliningIndex b)) ∨ b = invalid.
Proof.
  intros [[[Hv|Hd] Hw] Hi Hver]; [by left|right].
  destruct b as [m i]. simpl in *. subst m. unfold verify in Hver. simpl in Hver.
  apply Z.eqb_eq in Hver. by subst.
Qed.

Lemma split_single s : hasChar "-" s = false → splitText s "-" = [s].
Proof. intros Hs. by apply (split_join "-" [s]); [|constructor]. Qed.

Lemma split_pair s t :
  hasChar "-" s = false → hasChar "-" t = false →
  splitText (s +:+ "-" +:+ t) "-" = [s; t].
Proof. intros Hs Ht. apply (split_join "-" [s; t]); [done|]. by repeat constructor. Qed.

Lemma fromString_parts Text p0 ps m :
  splitText Text "-" = p0 :: ps → (length ps ≤ 1)%nat →
  MetaAddressText.fromString p0 = Ok m → valid m →
  fromString Text =
    match parseIndex (p0 :: ps) with
    | None => Ok invalid
    | Some i => Ok (mkID m i)
    end.
Proof.
  intros HT Hl HF Hm. unfold fromString. rewrite HT.
  assert ((2 <? Z.of_nat (length (p0 :: ps))) = false) as ->
    by (apply Z.ltb_ge; simpl; lia).
  rewrite HF, bind_ok, (valid_isValid _ Hm). simpl negb. cbv iota.
  destruct (parseIndex (p0 :: ps)) as [i|]; [|done]. unfold make, verify. simpl.
  by rewrite isInvalid_valid.
Qed.

Lemma toString_fromString_valid b :
  valid (Start b) → wf (Start b) → in_width 64 (InliningIndex b) →
  ∃ s, toString b Architecture.Invalid = Ok s ∧
    fromString s = Ok (if indexFits b
      then mkID (MetaAddressText.reparsed (Start b)) (InliningIndex b) else invalid).
Proof.
  destruct b as [m i]. simpl. intros Hm Hw Hi.
  destruct (MetaAddressText.toString_valid m Hm) as (Name & _ & HS).
  pose proof (address_text_chars m _ Hm Hw HS) as Hc.
  pose proof (MetaAddressText.fromString_toString_valid m _ Hm Hw HS) as HF.
  pose proof (MetaAddressText.reparsed_valid m Hm) as Hrv.
  unfold toString, indexFits, isInlined. simpl. rewrite HS, bind_ok.
  destruct (Z.eqb_spec i 0) as [->|Hne]; simpl negb; cbv iota; eexists; (split; [done|]).
  - by rewrite (fromString_parts _ _ [] _ (split_single _ Hc) (le_0_n _) HF Hrv).
  - assert (hasChar "-" (printInt i) = false) as Hp by (apply dec_chars; [apply Hi|done]).
    rewrite (fromString_parts _ _ [_] _ (split_pair _ _ Hc Hp) (le_n _) HF Hrv). simpl.
    destruct (parsed_index i Hi) as (a & -> & Hl). simpl.
    rewrite Z.ltb_antisym. destruct (getBitWidth a <=? 64); simpl; by rewrite ?Hl.
Qed.
End text_facts.

(** The text of an identifier reads back as the same identifier (its address
    as the text of the address reads back) when the integer its index is parsed
    into is at most 64 bits wide, and as the invalid identifier otherwise; and
    no text at all makes the parser fail. *)
Theorem id_text_roundtrip `{!APIntOps, !APIntLaws, !StringOps, !StringLaws} :
  (∀ b, inv b → ∃ s, toString b Architecture.Invalid = Ok s ∧
    fromString s = Ok (if indexFits b
      then mkID (MetaAddressText.reparsed (Start b)) (InliningIndex b) else invalid)) ∧
  (∀ Text, ∃ b, fromString Text = Ok b ∧ verify b = true ∧ MetaAddress.inv (Start b)).
Proof.
  assert (verify invalid = true ∧ MetaAddress.inv (Start invalid)) as Hinvalid
    by (split; [done|by right]).
  split.
  - intros b [(Hm & Hw & Hi)| ->]%inv_cases; [by apply toString_fromString_valid|].
    eexists. split; [done|]. unfold fromString. by rewrite split_single by done.
  - intros Text. unfold fromString.
    destruct (splitText Text "-") as [|p0 ps]; [by eexists|].
    case_match; [by eexists|].
    destruct (MetaAddressText.fromString_total p0) as (m & -> & Hm & _). rewrite bind_ok.
    destruct (MetaAddress.isValid m) eqn:Hv; simpl negb; cbv iota; [|by eexists].
    destruct (parseIndex (p0 :: ps)) as [i|]; [|by eexists].
    pose proof (inv_isValid _ Hm Hv) as Hvalid.
    exists (mkID m i). unfold make, verify. simpl. by rewrite isInvalid_valid.
Qed.

Lemma id_text_roundtrip_witness :
  ∃ s, toString (mkID sample 2) Architecture.Invalid = Ok s ∧
    fromString s = Ok (if indexFits (mkID sample 2)
      then mkID (MetaAddressText.reparsed (Start (mkID sample 2))) 2 else invalid).
Proof.
  apply (proj1 id_text_roundtrip (mkID sample 2)). split; [|by vm_compute|done].
  split; [left; apply sample_valid|]. split; unfold in_width; simpl; (lia || done).
Defined.
