(* ===== verification/MetaAddressRange.v ===== *)
(** * Ranges of meta-addresses

    [MetaAddressRange] and [MetaAddressRangeSet]
    (include/revng/Support/MetaAddress/MetaAddressRange.h): half-open ranges of
    addresses and unions of them. *)

From S2P Require Import Prelude.
From S2P Require Import OverflowSafeInt.
From S2P Require MetaAddressType.
From S2P Require Import MetaAddress.
Local Open Scope Z_scope.

(* include/revng/Support/MetaAddress/MetaAddressRange.h:12-26 MetaAddressRange *)
Record MetaAddressRange := mkRange { start : MetaAddress; end_ : MetaAddress }.

(* include/revng/Support/MetaAddress/MetaAddressRange.h:17-22 MetaAddressRange::MetaAddressRange *)
Definition makeRange (Start End_ : MetaAddress) : outcome MetaAddressRange :=
  revng_assert (isValid Start);;
  revng_assert (isValid End_);;
  revng_assert (leb Start End_);;
  Ok (mkRange Start End_).

(** [std::optional::value] on an empty optional throws, and the code is built
    without exceptions. *)
(* include/revng/Support/MetaAddress/MetaAddressRange.h:27-27 MetaAddressRange::size *)
Definition size (R : MetaAddressRange) : outcome Z :=
  d ← MetaAddress.difference (end_ R) (start R);
  match d with Some n => Ok n | None => Fault Aborted end.

(** [and] and [or] evaluate their second operand only when needed. *)
Definition and_also (a b : outcome bool) : outcome bool :=
  x ← a; if x : bool then b else Ok false.
Definition or_else (a b : outcome bool) : outcome bool :=
  x ← a; if x : bool then Ok true else b.

(* include/revng/Support/MetaAddress/MetaAddressRange.h:30-34 MetaAddressRange::contains(MetaAddress) *)
Definition contains (R : MetaAddressRange) (A : MetaAddress) : outcome bool :=
  revng_assert (isValid A);;
  and_also (addressLowerThanOrEqual (start R) A) (addressLowerThan A (end_ R)).

(* include/revng/Support/MetaAddress/MetaAddressRange.h:36-47 MetaAddressRange::contains(MetaAddress, MetaAddress) *)
Definition containsRange (R : MetaAddressRange) (OtherStart OtherEnd : MetaAddress) :
    outcome bool :=
  revng_assert (isValid OtherStart && isValid OtherEnd);;
  and_also (addressLowerThanOrEqual (start R) OtherStart)
    (and_also (addressLowerThanOrEqual OtherStart (end_ R))
      (and_also (addressLowerThanOrEqual (start R) OtherEnd)
        (addressLowerThanOrEqual OtherEnd (end_ R)))).

(* include/revng/Support/MetaAddress/MetaAddressRange.h:49-51 MetaAddressRange::overlaps *)
Definition overlaps (R Other : MetaAddressRange) : outcome bool :=
  or_else (contains R (start Other)) (contains Other (start R)).

(* include/revng/Support/MetaAddress/MetaAddressRange.h:53-56 MetaAddressRange::overlaps(MetaAddress, MetaAddress) *)
Definition overlapsAddresses (R : MetaAddressRange) (OtherStart OtherEnd : MetaAddress) :
    outcome bool :=
  Other ← makeRange OtherStart OtherEnd; overlaps R Other.

(** ** Sets of ranges *)

Notation MetaAddressRangeSet := (list MetaAddressRange).

(** The loops: return [true] at the first range that satisfies the test. *)
Fixpoint anyRange (test : MetaAddressRange → outcome bool) (Ranges : MetaAddressRangeSet) :
    outcome bool :=
  match Ranges with
  | [] => Ok false
  | Range :: Ranges => or_else (test Range) (anyRange test Ranges)
  end.

(* include/revng/Support/MetaAddress/MetaAddressRange.h:69-75 MetaAddressRangeSet::contains(MetaAddress) *)
Definition setContains (S : MetaAddressRangeSet) (A : MetaAddress) : outcome bool :=
  revng_assert (isValid A);;
  anyRange (λ R, contains R A) S.

(* include/revng/Support/MetaAddress/MetaAddressRange.h:77-83 MetaAddressRangeSet::contains(MetaAddress, MetaAddress) *)
Definition setContainsRange (S : MetaAddressRangeSet) (Start End_ : MetaAddress) : outcome bool :=
  revng_assert (isValid Start && isValid End_);;
  anyRange (λ R, containsRange R Start End_) S.

(* include/revng/Support/MetaAddress/MetaAddressRange.h:85-95 MetaAddressRangeSet::overlaps *)
Definition setOverlaps (S : MetaAddressRangeSet) (Start End_ : MetaAddress) : outcome bool :=
  revng_assert (isValid Start && isValid End_);;
  anyRange (λ R, overlapsAddresses R Start End_) S.

(* include/revng/Support/MetaAddress/MetaAddressRange.h:98-100 MetaAddressRangeSet::add *)
Definition setAdd (S : MetaAddressRangeSet) (Start End_ : MetaAddress) :
    outcome MetaAddressRangeSet :=
  R ← makeRange Start End_; Ok (S ++ [R]).

(** ** Ranks

    The comparisons that ignore the type order addresses by epoch, address space
    and numeric address: by a single number. *)

Definition rank (m : MetaAddress) : Z :=
  (Epoch m * 2 ^ 16 + AddressSpace m) * 2 ^ 64 + Address m.

(** A valid address with fields in range. *)
Definition good (m : MetaAddress) : Prop := valid m ∧ wf m.

Definition good_range (R : MetaAddressRange) : Prop := good (start R) ∧ good (end_ R).

(** The ranks of the addresses of a range. *)
Definition within (R : MetaAddressRange) (n : Z) : Prop :=
  rank (start R) ≤ n < rank (end_ R).

#[global] Instance within_dec R n : Decision (within R n).
Proof. unfold within. apply _. Defined.

Lemma lowerThan_rank m o :
  good m → good o → addressLowerThan m o = Ok (rank m <? rank o).
Proof.
  intros [Hm%valid_isValid [Em Sm _ Am]] [Ho%valid_isValid [Eo So _ Ao]].
  unfold addressLowerThan, toGeneric64. rewrite Hm, Ho. simpl. f_equal.
  apply eq_true_iff_eq. rewrite ltb_lt, Z.ltb_lt. unfold MetaAddress.lt, rank, in_width in *. simpl. lia.
Qed.

Lemma lowerThanOrEqual_rank m o :
  good m → good o → addressLowerThanOrEqual m o = Ok (rank m <=? rank o).
Proof.
  intros [Hm%valid_isValid [Em Sm _ Am]] [Ho%valid_isValid [Eo So _ Ao]].
  unfold addressLowerThanOrEqual, toGeneric64. rewrite Hm, Ho. simpl. f_equal.
  apply eq_true_iff_eq. rewrite leb_lt, Z.leb_le. unfold MetaAddress.lt, rank, in_width in *. simpl. lia.
Qed.

Lemma good_isValid m : good m → isValid m = true.
Proof. intros [? _]. by apply valid_isValid. Qed.

Lemma and_also_Ok a b : and_also (Ok a) (Ok b) = Ok (a && b).
Proof. by destruct a. Qed.

Lemma or_else_Ok a b : or_else (Ok a) (Ok b) = Ok (a || b).
Proof. by destruct a. Qed.

Lemma contains_within R A :
  good_range R → good A → contains R A = Ok (bool_decide (within R (rank A))).
Proof.
  intros [Hs He] HA. unfold contains.
  rewrite (good_isValid A HA), assert_true, lowerThan_rank, lowerThanOrEqual_rank, and_also_Ok by done.
  f_equal. apply eq_true_iff_eq. unfold within.
  rewrite bool_decide_eq_true, andb_true_iff, Z.leb_le, Z.ltb_lt. done.
Qed.

Lemma containsRange_ranks R S E :
  good_range R → good S → good E →
  containsRange R S E = Ok (bool_decide (rank (start R) ≤ rank S ≤ rank (end_ R) ∧
                                         rank (start R) ≤ rank E ≤ rank (end_ R))).
Proof.
  intros [Hs He] HS HE. unfold containsRange.
  rewrite !good_isValid, assert_true, !lowerThanOrEqual_rank, !and_also_Ok by done.
  f_equal. apply eq_true_iff_eq.
  rewrite bool_decide_eq_true, !andb_true_iff, !Z.leb_le. tauto.
Qed.

Lemma overlaps_within R S :
  good_range R → good_range S →
  overlaps R S = Ok (bool_decide (within R (rank (start S)) ∨ within S (rank (start R)))).
Proof.
  intros HR HS. unfold overlaps. rewrite !contains_within, or_else_Ok by (done || apply HR || apply HS).
  f_equal. apply eq_true_iff_eq. by rewrite orb_true_iff, !bool_decide_eq_true.
Qed.

Lemma anyRange_exists (test : MetaAddressRange → outcome bool) (P : MetaAddressRange → Prop)
    `{∀ R, Decision (P R)} Ranges :
  Forall (λ R, test R = Ok (bool_decide (P R))) Ranges →
  anyRange test Ranges = Ok (bool_decide (Exists P Ranges)).
Proof.
  induction 1 as [|R Ranges HR _ IH]; [done|]. simpl. rewrite HR, IH, or_else_Ok.
  f_equal. apply eq_true_iff_eq. rewrite orb_true_iff, !bool_decide_eq_true. by rewrite Exists_cons.
Qed.

Lemma makeRange_inv Start End_ R :
  makeRange Start End_ = Ok R →
  isValid Start = true ∧ isValid End_ = true ∧ leb Start End_ = true ∧ R = mkRange Start End_.
Proof. unfold makeRange. intros H. invert_ok. subst. auto. Qed.

Lemma leb_rank m o :
  good m → good o → Type_ m = Type_ o → leb m o = true ↔ rank m ≤ rank o.
Proof.
  intros [_ [Em Sm _ Am]] [_ [Eo So _ Ao]] Ht. rewrite leb_lt.
  unfold MetaAddress.lt, rank, in_width in *. rewrite Ht. lia.
Qed.

Lemma size_ranks R :
  good_range R → comparable (start R) (end_ R) → rank (start R) ≤ rank (end_ R) →
  size R = Ok (rank (end_ R) - rank (start R)).
Proof.
  intros [Hs He] [HE HS] Hr. unfold size, MetaAddress.difference.
  rewrite !good_isValid by done. rewrite HE, HS, !Z.eqb_refl, !assert_true by done.
  destruct Hs as [_ [_ _ _ As]], He as [_ [_ _ _ Ae]].
  unfold rank, in_width in *. rewrite HE, HS in Hr.
  unfold safe_sub. simpl. unfold sub. simpl.
  rewrite bool_decide_eq_true_2; [|unfold in_type, type_min, type_max; simpl; lia].
  simpl. f_equal. unfold cast. simpl. rewrite Z.mod_small by lia. rewrite HE, HS. lia.
Qed.

(** The queries on ranges of valid addresses compute what their names say:
    membership in the half-open interval of ranks, inclusion of both bounds, the
    number of addresses, and, on non-empty ranges, the existence of a common
    address; [overlaps] is symmetric. *)
Theorem range_queries R S :
  good_range R → good_range S →
  (∀ A, good A → contains R A = Ok (bool_decide (within R (rank A)))) ∧
  (containsRange R (start S) (end_ S) = Ok true → ∀ n, within S n → within R n) ∧
  (comparable (start R) (end_ R) → rank (start R) ≤ rank (end_ R) →
    size R = Ok (rank (end_ R) - rank (start R))) ∧
  overlaps R S = overlaps S R ∧
  (rank (start R) < rank (end_ R) → rank (start S) < rank (end_ S) →
    overlaps R S = Ok true ↔ ∃ A, good A ∧ contains R A = Ok true ∧ contains S A = Ok true).
Proof.
  intros HR HS. split_and!.
  - intros A HA. by apply contains_within.
  - rewrite containsRange_ranks by (done || apply HS). intros [= Hb].
    apply bool_decide_eq_true in Hb. unfold within. lia.
  - by apply size_ranks.
  - rewrite !overlaps_within by done. f_equal. apply bool_decide_ext. tauto.
  - intros HneR HneS. rewrite overlaps_within by done. split.
    + intros [= [Ho|Ho]%bool_decide_eq_true].
      * exists (start S). split; [apply HS|]. split; rewrite contains_within by (done || apply HS);
          f_equal; apply bool_decide_eq_true_2; unfold within in *; lia.
      * exists (start R). split; [apply HR|]. split; rewrite contains_within by (done || apply HR);
          f_equal; apply bool_decide_eq_true_2; unfold within in *; lia.
    + intros (A & HA & H1 & H2). rewrite contains_within in H1, H2 by done.
      injection H1 as H1%bool_decide_eq_true. injection H2 as H2%bool_decide_eq_true.
      f_equal. apply bool_decide_eq_true_2. unfold within in *. lia.
Qed.

Lemma good_generic e s a :
  in_width 32 e → in_width 16 s → in_width 64 a → good (mkMA e s MetaAddressType.Generic64 a).
Proof.
  intros. split; split; simpl; try done. apply Z.divide_1_l.
Qed.

Definition sampleAddress (a : Z) : MetaAddress := mkMA 0 0 MetaAddressType.Generic64 a.

Lemma range_queries_witness :
  overlaps (mkRange (sampleAddress 16) (sampleAddress 32))
    (mkRange (sampleAddress 24) (sampleAddress 48)) =
  overlaps (mkRange (sampleAddress 24) (sampleAddress 48))
    (mkRange (sampleAddress 16) (sampleAddress 32)).
Proof.
  refine (proj1 (proj2 (proj2 (proj2 (range_queries (mkRange (sampleAddress 16) (sampleAddress 32))
    (mkRange (sampleAddress 24) (sampleAddress 48)) _ _)))));
    split; apply good_generic; unfold in_width; simpl; lia.
Defined.

(** A set of ranges answers membership, inclusion and overlap queries as the
    union of the ranges added to it (inclusion within one of them), and the
    order in which they were added does not matter. *)
Theorem range_set_queries Ranges :
  Forall good_range Ranges →
  (∀ A, good A → setContains Ranges A =
    Ok (bool_decide (Exists (λ R, within R (rank A)) Ranges))) ∧
  (∀ S E, good S → good E → setContainsRange Ranges S E = Ok true →
    ∀ n, rank S ≤ n < rank E → Exists (λ R, within R n) Ranges) ∧
  (∀ S E, good S → good E → leb S E = true → setOverlaps Ranges S E =
    Ok (bool_decide (Exists (λ R, within R (rank S) ∨ within (mkRange S E) (rank (start R))) Ranges))) ∧
  (∀ Start End_ Ranges', setAdd Ranges Start End_ = Ok Ranges' → good Start → good End_ →
    Forall good_range Ranges' ∧
    ∀ A, Exists (λ R, within R (rank A)) Ranges' ↔
      Exists (λ R, within R (rank A)) Ranges ∨ within (mkRange Start End_) (rank A)).
Proof.
  intros Hg. split_and!.
  - intros A HA. unfold setContains. rewrite good_isValid, assert_true by done.
    apply anyRange_exists. eapply Forall_impl; [exact Hg|]. intros R HR. by apply contains_within.
  - intros S E HS HE. unfold setContainsRange. rewrite !good_isValid, assert_true by done.
    erewrite anyRange_exists; [|eapply Forall_impl; [exact Hg|]; intros R HR; simpl;
      by apply containsRange_ranks].
    intros [= Hb%bool_decide_eq_true] n Hn. eapply Exists_impl; [exact Hb|].
    intros R ?. unfold within. simpl in *. lia.
  - intros S E HS HE Hle. unfold setOverlaps. rewrite !good_isValid, assert_true by done.
    apply anyRange_exists. eapply Forall_impl; [exact Hg|]. intros R HR. simpl.
    unfold overlapsAddresses, makeRange. rewrite !good_isValid, Hle, !assert_true by done.
    rewrite bind_ok. by apply overlaps_within.
  - intros Start End_ Ranges' Ha HS HE. unfold setAdd in Ha. invert_ok. subst Ranges'.
    apply makeRange_inv in E as (_ & _ & _ & ->). split.
    + apply Forall_app. split; [done|]. by constructor.
    + intros A. rewrite Exists_app, Exists_cons, Exists_nil. tauto.
Qed.

Lemma range_set_queries_witness :
  setContains [mkRange (sampleAddress 16) (sampleAddress 32)] (sampleAddress 20) =
    Ok (bool_decide (Exists (λ R, within R (rank (sampleAddress 20)))
      [mkRange (sampleAddress 16) (sampleAddress 32)])).
Proof.
  refine (proj1 (range_set_queries [mkRange (sampleAddress 16) (sampleAddress 32)] _) _ _).
  - constructor; [|constructor]. split; apply good_generic; unfold in_width; simpl; lia.
  - apply good_generic; unfold in_width; simpl; lia.
Defined.

(** The constructor compares the bounds with their types although every
    query ignores them: bounds of one type are accepted exactly when they are in
    order, but bounds of one epoch and address space whose types differ are
    accepted or rejected by the order of the types alone, whatever their
    addresses. *)
Theorem range_constructor S E :
  good S → good E →
  (Type_ S = Type_ E →
    makeRange S E = if rank S <=? rank E then Ok (mkRange S E) else Fault AssertionFailed) ∧
  (Type_ S ≠ Type_ E → comparable S E →
    makeRange S E = if MetaAddressType.toRaw (Type_ S) <? MetaAddressType.toRaw (Type_ E)
                    then Ok (mkRange S E) else Fault AssertionFailed).
Proof.
  intros HS HE. unfold makeRange. rewrite !good_isValid, !assert_true by done. split.
  - intros Ht. pose proof (leb_rank S E HS HE Ht) as Hl.
    destruct (leb S E), (Z.leb_spec (rank S) (rank E)); simpl; try done; naive_solver lia.
  - intros Ht [He Hs].
    assert (leb S E = (MetaAddressType.toRaw (Type_ S) <? MetaAddressType.toRaw (Type_ E))) as ->.
    { apply eq_true_iff_eq. rewrite leb_lt, Z.ltb_lt. unfold MetaAddress.lt.
      destruct HS as [_ [_ _ TS _]], HE as [_ [_ _ TE _]].
      assert (MetaAddressType.toRaw (Type_ S) ≠ MetaAddressType.toRaw (Type_ E))
        by (intros Hr; by apply Ht, MetaAddressType.toRaw_inj).
      lia. }
    by destruct (_ <? _).
Qed.

Lemma range_constructor_witness :
  makeRange (mkMA 0 0 MetaAddressType.Code_x86_64 16) (sampleAddress 32) = Fault AssertionFailed.
Proof.
  refine (proj2 (range_constructor (mkMA 0 0 MetaAddressType.Code_x86_64 16) (sampleAddress 32) _ _) _ _).
  - split; split; simpl; unfold in_width; try (done || lia). apply Z.divide_1_l.
  - apply good_generic; unfold in_width; simpl; lia.
  - done.
  - done.
Defined.
