(* ===== verification/SortedVector.v ===== *)
(** * Sorted vectors

    [SortedVector] (include/revng/ADT/SortedVector.h): a vector of elements kept
    in strictly increasing order of their keys, with a batch mode in which
    elements are appended and the vector is sorted at the end. *)

From S2P Require Import Prelude.
From stdpp Require Import sorting.

(** ** The interface of the elements

    An element has a key and can be made from a key; [Compare] is a strict total
    order on the keys. [moved_from] is the state a move leaves its source in,
    and [self_moved] the state of an object after a move from itself. *)
Class KeyedObject (T K : Type) := {
  key : T → K;
  fromKey : K → T;
  Compare : K → K → bool;
  moved_from : T → T;
  self_moved : T → T;
}.

Class KeyedObjectLaws (T K : Type) `{KeyedObject T K} : Prop := {
  key_fromKey k : key (fromKey k) = k;
  Compare_irrefl k : Compare k k = false;
  Compare_trans a b c : Compare a b = true → Compare b c = true → Compare a c = true;
  Compare_total a b : Compare a b = false → Compare b a = false → a = b;
}.

(** ** Algorithms of the standard library *)

Fixpoint prefix_length {A} (f : A → bool) (l : list A) : nat :=
  match l with
  | [] => 0
  | x :: l => if f x then S (prefix_length f l) else 0
  end.

(** [std::lower_bound]: the furthest position before which every element is
    less than the value. *)
Definition std_lower_bound {A} (comp : A → A → bool) (l : list A) (v : A) : nat :=
  prefix_length (λ x, comp x v) l.

(** [std::upper_bound]: the furthest position before which the value is less
    than no element. *)
Definition std_upper_bound {A} (comp : A → A → bool) (l : list A) (v : A) : nat :=
  prefix_length (λ x, negb (comp v x)) l.

(** [std::stable_sort]. *)
Fixpoint insert_before {A} (comp : A → A → bool) (x : A) (l : list A) : list A :=
  match l with
  | [] => [x]
  | y :: l => if comp y x then y :: insert_before comp x l else x :: y :: l
  end.

Definition std_stable_sort {A} (comp : A → A → bool) (l : list A) : list A :=
  foldr (insert_before comp) [] l.

(** [std::adjacent_find]: the position of the first of two adjacent elements
    that satisfy the predicate, or the end. *)
Fixpoint std_adjacent_find {A} (p : A → A → bool) (l : list A) : nat :=
  match l with
  | x :: (y :: _) as l' => if p x y then 0 else S (std_adjacent_find p l')
  | _ => length l
  end.

(** [std::sort] leaves the order of equivalent elements unspecified: it is any
    function that returns a permutation in which no element is less than one
    before it. *)
Class StdSort := {
  std_sort {A} : (A → A → bool) → list A → list A;
  std_sort_perm {A} (comp : A → A → bool) l : std_sort comp l ≡ₚ l;
  std_sort_sorted {A} (comp : A → A → bool) l :
    (∀ a, comp a a = false) →
    (∀ a b c, comp a b = true → comp b c = true → comp a c = true) →
    (∀ a b c, comp a b = false → comp b c = false → comp a c = false) →
    StronglySorted (λ a b, comp b a = false) (std_sort comp l);
}.

(** ** The container *)

(* include/revng/ADT/SortedVector.h:60-62 SortedVector *)
Record SortedVector (T : Type) := mkSV {
  TheVector : list T;
  BatchInsertInProgress : bool;
}.
Arguments mkSV {T}.
Arguments TheVector {T}.
Arguments BatchInsertInProgress {T}.

Section operations.
  Context {T K : Type} `{KeyedObject T K, StdSort}.
  Implicit Types (sv : SortedVector T).

(** The assertion every public operation starts with. *)
Definition guard sv : outcome unit := revng_assert (negb (BatchInsertInProgress sv)).

Definition withVector sv (v : list T) : SortedVector T := mkSV v (BatchInsertInProgress sv).

(* include/revng/ADT/SortedVector.h:429-431 SortedVector::compareKeys *)
Definition compareKeys (LHS RHS : K) : bool := Compare LHS RHS.

(* include/revng/ADT/SortedVector.h:424-427 SortedVector::compareElements *)
Definition compareElements (LHS RHS : T) : bool := compareKeys (key LHS) (key RHS).

(* include/revng/ADT/SortedVector.h:438-440 SortedVector::keysEqual *)
Definition keysEqual (LHS RHS : K) : bool :=
  negb (compareKeys LHS RHS) && negb (compareKeys RHS LHS).

(* include/revng/ADT/SortedVector.h:433-436 SortedVector::elementsEqual *)
Definition elementsEqual (LHS RHS : T) : bool := keysEqual (key LHS) (key RHS).

(** The body of the loop of [unique_last] on the positions [Result] and
    [First] of the vector; [fuel] bounds the elements left. *)
(* include/revng/ADT/SortedVector.h:13-29 unique_last *)
Fixpoint unique_last_loop (Predicate : T → T → bool) (fuel : nat) (v : list T)
    (Result First : nat) : outcome (list T * nat) :=
  match fuel with
  | O => Ok (v, S Result)
  | S fuel =>
    let First := S First in
    if bool_decide (First = length v) then Ok (v, S Result)
    else
      match v !! Result, v !! First with
      | Some r, Some f =>
          if negb (Predicate r f) then
            let Result := S Result in
            if bool_decide (Result ≠ First) then
              unique_last_loop Predicate fuel
                (<[First := moved_from f]> (<[Result := f]> v)) Result First
            else unique_last_loop Predicate fuel (<[First := self_moved f]> v) Result First
          else
            unique_last_loop Predicate fuel
              (<[First := moved_from f]> (<[Result := f]> v)) Result First
      | _, _ => undefined
      end
  end.

(** The vector after the moves and the position [unique_last] returns. *)
(* include/revng/ADT/SortedVector.h:13-29 unique_last *)
Definition unique_last (Predicate : T → T → bool) (v : list T) : outcome (list T * nat) :=
  match v with
  | [] => Ok (v, 0)
  | _ => unique_last_loop Predicate (length v) v 0 0
  end.

(* include/revng/ADT/SortedVector.h:442-453 SortedVector::sort *)
Definition sort (EnsureUnique : bool) sv : outcome (SortedVector T) :=
  guard sv;;
  if EnsureUnique then
    let v := std_sort compareElements (TheVector sv) in
    revng_assert (bool_decide (std_adjacent_find elementsEqual v = length v));;
    Ok (withVector sv v)
  else
    let v := std_stable_sort compareElements (TheVector sv) in
    '(v, NewEnd) ← unique_last elementsEqual v;
    Ok (withVector sv (take NewEnd v)).

(* include/revng/ADT/SortedVector.h:308-316 SortedVector::lower_bound *)
Definition lower_bound sv (Key : K) : outcome nat :=
  guard sv;; Ok (std_lower_bound compareElements (TheVector sv) (fromKey Key)).

(* include/revng/ADT/SortedVector.h:318-326 SortedVector::upper_bound *)
Definition upper_bound sv (Key : K) : outcome nat :=
  guard sv;; Ok (std_upper_bound compareElements (TheVector sv) (fromKey Key)).

(** [end()] is the length; dereferencing a position below it gives the element. *)
(* include/revng/ADT/SortedVector.h:284-304 SortedVector::find *)
Definition find sv (Key : K) : outcome nat :=
  guard sv;;
  It ← lower_bound sv Key;
  match TheVector sv !! It with
  | Some e => if Compare Key (key e) then Ok (length (TheVector sv)) else Ok It
  | None => Ok It
  end.

(* include/revng/ADT/SortedVector.h:306-306 SortedVector::contains *)
Definition contains sv (Key : K) : outcome bool :=
  It ← find sv Key; guard sv;; Ok (negb (bool_decide (It = length (TheVector sv)))).

(* include/revng/ADT/SortedVector.h:279-282 SortedVector::count *)
Definition count sv (Key : K) : outcome nat :=
  guard sv;;
  It ← find sv Key; Ok (if bool_decide (It = length (TheVector sv)) then 0 else 1).

(* include/revng/ADT/SortedVector.h:97-109 SortedVector::at *)
Definition at_ sv (Key : K) : outcome T :=
  guard sv;;
  It ← find sv Key;
  revng_assert (negb (bool_decide (It = length (TheVector sv))));;
  match TheVector sv !! It with Some e => Ok e | None => undefined end.

(** The state, the position of the element and whether it was inserted. *)
(* include/revng/ADT/SortedVector.h:211-228 SortedVector::insert, emplace *)
Definition emplace sv (Value : T) : outcome (SortedVector T * (nat * bool)) :=
  guard sv;;
  It ← lower_bound sv (key Value);
  match TheVector sv !! It with
  | None => Ok (withVector sv (TheVector sv ++ [Value]), (length (TheVector sv), true))
  | Some e =>
      if keysEqual (key e) (key Value) then Ok (sv, (It, false))
      else Ok (withVector sv (take It (TheVector sv) ++ Value :: drop It (TheVector sv)), (It, true))
  end.

(* include/revng/ADT/SortedVector.h:230-250 SortedVector::insert_or_assign, emplace_or_assign *)
Definition emplace_or_assign sv (Value : T) : outcome (SortedVector T * (nat * bool)) :=
  guard sv;;
  It ← lower_bound sv (key Value);
  match TheVector sv !! It with
  | None => Ok (withVector sv (TheVector sv ++ [Value]), (length (TheVector sv), true))
  | Some e =>
      if keysEqual (key e) (key Value)
      then Ok (withVector sv (<[It := Value]> (TheVector sv)), (It, false))
      else Ok (withVector sv (take It (TheVector sv) ++ Value :: drop It (TheVector sv)), (It, true))
  end.

(** The state and the element the reference designates. *)
(* include/revng/ADT/SortedVector.h:111-119 SortedVector::operator[] *)
Definition index sv (Key : K) : outcome (SortedVector T * T) :=
  guard sv;;
  '(sv, (It, _)) ← emplace sv (fromKey Key);
  match TheVector sv !! It with Some e => Ok (sv, e) | None => undefined end.

(* include/revng/ADT/SortedVector.h:252-255 SortedVector::erase(iterator) *)
Definition eraseAt sv (Pos : nat) : outcome (SortedVector T * nat) :=
  guard sv;;
  if bool_decide (Pos < length (TheVector sv))
  then Ok (withVector sv (delete Pos (TheVector sv)), Pos) else undefined.

(* include/revng/ADT/SortedVector.h:257-260 SortedVector::erase(const_iterator, const_iterator) *)
Definition eraseRange sv (First Last : nat) : outcome (SortedVector T * nat) :=
  guard sv;;
  if bool_decide (First ≤ Last ≤ length (TheVector sv))
  then Ok (withVector sv (take First (TheVector sv) ++ drop Last (TheVector sv)), First)
  else undefined.

(* include/revng/ADT/SortedVector.h:262-271 SortedVector::erase(key_type) *)
Definition erase sv (Key : K) : outcome (SortedVector T * nat) :=
  guard sv;;
  It ← find sv Key;
  if bool_decide (It = length (TheVector sv)) then Ok (sv, 0)
  else '(sv, _) ← eraseAt sv It; Ok (sv, 1).

(* include/revng/ADT/SortedVector.h:273-277 SortedVector::erase_if *)
Definition erase_if sv (Callable : T → bool) : outcome (SortedVector T * nat) :=
  guard sv;;
  let v := filter (λ e, Callable e = false) (TheVector sv) in
  Ok (withVector sv v, length (TheVector sv) - length v).

(* include/revng/ADT/SortedVector.h:196-199 SortedVector::clear *)
Definition clear sv : outcome (SortedVector T) := guard sv;; Ok (withVector sv []).

(* include/revng/ADT/SortedVector.h:186-189 SortedVector::size *)
Definition size sv : outcome nat := guard sv;; Ok (length (TheVector sv)).

(* include/revng/ADT/SortedVector.h:181-184 SortedVector::empty *)
Definition empty sv : outcome bool := guard sv;; Ok (bool_decide (TheVector sv = [])).

(** Only the vectors are exchanged. *)
(* include/revng/ADT/SortedVector.h:80-83 SortedVector::swap *)
Definition swap sv (Other : SortedVector T) : outcome (SortedVector T * SortedVector T) :=
  guard sv;; Ok (withVector sv (TheVector Other), withVector Other (TheVector sv)).

(** [three_way] is the [operator<=>] of the elements, and [eqb] their equality. *)
Fixpoint firstDifference (eqb : T → T → bool) (three_way : T → T → comparison) (l r : list T) :
    comparison :=
  match l, r with
  | LHS :: l, RHS :: r =>
      if negb (eqb LHS RHS) then three_way LHS RHS else firstDifference eqb three_way l r
  | _, _ => Eq
  end.

(* include/revng/ADT/SortedVector.h:86-94 SortedVector::operator<=> *)
Definition spaceship (eqb : T → T → bool) (three_way : T → T → comparison)
    sv (Other : SortedVector T) : outcome comparison :=
  guard sv;; guard Other;;
  if negb (bool_decide (length (TheVector sv) = length (TheVector Other)))
  then Ok (Nat.compare (length (TheVector sv)) (length (TheVector Other)))
  else Ok (firstDifference eqb three_way (TheVector sv) (TheVector Other)).

(** *** Batch insertion *)

(* include/revng/ADT/SortedVector.h:335-338 BatchInserterBase::BatchInserterBase *)
Definition batchBegin sv : outcome (SortedVector T) :=
  guard sv;; Ok (mkSV (TheVector sv) true).

(* include/revng/ADT/SortedVector.h:362-368 BatchInserterBase::emplaceImpl *)
Definition batchEmplace sv (Value : T) : outcome (SortedVector T) :=
  revng_assert (BatchInsertInProgress sv);;
  Ok (withVector sv (TheVector sv ++ [Value])).

(* include/revng/ADT/SortedVector.h:353-360 BatchInserterBase::commit, ~BatchInserterBase *)
Definition commit (EnsureUnique : bool) sv : outcome (SortedVector T) :=
  if BatchInsertInProgress sv
  then sort EnsureUnique (mkSV (TheVector sv) false)
  else Ok sv.

(** A batch: [batch_insert()] when [EnsureUnique], else
    [batch_insert_or_assign()], the insertion of [Values] and the destruction of
    the inserter. *)
(* include/revng/ADT/SortedVector.h:371-403 BatchInserter, BatchInsertOrAssigner *)
Definition batch (EnsureUnique : bool) sv (Values : list T) : outcome (SortedVector T) :=
  guard sv;;
  sv ← batchBegin sv;
  sv ← foldl (λ s Value, sv ← s; batchEmplace sv Value) (Ok sv) Values;
  commit EnsureUnique sv.

(* include/revng/ADT/SortedVector.h:65-65 SortedVector::SortedVector() *)
Definition default : SortedVector T := mkSV [] false.

(* include/revng/ADT/SortedVector.h:67-72 SortedVector(std::initializer_list) *)
Definition fromList (List : list T) : outcome (SortedVector T) := batch false default List.

(* include/revng/ADT/SortedVector.h:74-77 SortedVector(From, To) *)
Definition fromRange (List : list T) : outcome (SortedVector T) := sort true (mkSV List false).

(* include/revng/ADT/SortedVector.h:405-421 SortedVector::isSorted *)
Fixpoint isSortedFrom (v : list T) : bool :=
  match v with
  | Left :: (Right :: _) as v' =>
      if negb (compareElements Left Right) then false else isSortedFrom v'
  | _ => true
  end.

(* include/revng/ADT/SortedVector.h:405-421 SortedVector::isSorted *)
Definition isSorted sv : outcome bool := guard sv;; Ok (isSortedFrom (TheVector sv)).
End operations.

(** ** Positions *)

Section prefix.
  Context {A : Type} (f : A → bool).

Lemma prefix_length_split (l : list A) :
  ∃ l1 l2, l = l1 ++ l2 ∧ length l1 = prefix_length f l ∧
    Forall (λ x, f x = true) l1 ∧ (∀ x, head l2 = Some x → f x = false).
Proof.
  induction l as [|x l (l1 & l2 & -> & Hl & H1 & H2)]; simpl.
  - by exists [], [].
  - destruct (f x) eqn:Hx.
    + exists (x :: l1), l2. simpl. rewrite Hl. split_and!; try done. by constructor.
    + exists [], (x :: l1 ++ l2). split_and!; try done. by intros ? [= <-].
Qed.
End prefix.

Section facts.
  Context {T K : Type} `{KO : KeyedObject T K} `{KL : !KeyedObjectLaws T K} `{SS : !StdSort}.
  Implicit Types (sv : SortedVector T) (v l : list T).
  #[local] Set Default Proof Using "Type*".

(** The elements in strictly increasing order of their keys. *)
Definition precedes (a b : T) : Prop := Compare (key a) (key b) = true.

Definition strictlySorted (v : list T) : Prop := StronglySorted precedes v.

(** What every operation outside of a batch maintains. *)
Record inv sv : Prop := {
  inv_sorted : strictlySorted (TheVector sv);
  inv_flag : BatchInsertInProgress sv = false;
}.

(** The abstract view: a finite map from keys to elements. *)
Fixpoint get (k : K) (v : list T) : option T :=
  match v with
  | [] => None
  | e :: v => if keysEqual (key e) k then Some e else get k v
  end.

Lemma keysEqual_eq a b : keysEqual a b = true ↔ a = b.
Proof.
  unfold keysEqual, compareKeys. rewrite andb_true_iff, !negb_true_iff. split.
  - intros [??]. by apply Compare_total.
  - intros ->. by rewrite Compare_irrefl.
Qed.

Lemma keysEqual_refl a : keysEqual a a = true.
Proof. by apply keysEqual_eq. Qed.

Lemma keysEqual_ne a b : a ≠ b → keysEqual a b = false.
Proof. intros Hne. apply not_true_is_false. by rewrite keysEqual_eq. Qed.

#[global] Instance precedes_trans : Transitive precedes.
Proof. intros a b c. apply Compare_trans. Qed.

Lemma precedes_irrefl a : ¬ precedes a a.
Proof. unfold precedes. by rewrite Compare_irrefl. Qed.

Lemma Compare_asym a b : Compare a b = true → Compare b a = false.
Proof.
  intros Hab. apply not_true_is_false. intros Hba.
  pose proof (Compare_trans _ _ _ Hab Hba) as Haa. by rewrite Compare_irrefl in Haa.
Qed.

Lemma Compare_ne a b : Compare a b = true → a ≠ b.
Proof. intros Hab ->. by rewrite Compare_irrefl in Hab. Qed.

Lemma get_app k v1 v2 :
  get k (v1 ++ v2) = match get k v1 with Some e => Some e | None => get k v2 end.
Proof. induction v1 as [|e v1 IH]; simpl; [done|]. by destruct (keysEqual _ _). Qed.

Lemma get_None k v : Forall (λ e, key e ≠ k) v → get k v = None.
Proof. induction 1 as [|e v He _ IH]; simpl; [done|]. by rewrite keysEqual_ne. Qed.

Lemma get_Some k v e : get k v = Some e → e ∈ v ∧ key e = k.
Proof.
  induction v as [|e' v IH]; simpl; [done|]. destruct (keysEqual _ _) eqn:Hk.
  - intros [= <-]. apply keysEqual_eq in Hk. split; [left|done].
  - intros [??]%IH. split; [by right|done].
Qed.

Lemma get_elem v e : strictlySorted v → e ∈ v → get (key e) v = Some e.
Proof.
  intros Hs. induction Hs as [|e' v Hs IH He']; [by intros ?%elem_of_nil|].
  rewrite elem_of_cons. intros [->|Hin]; simpl; [by rewrite keysEqual_refl|].
  rewrite keysEqual_ne; [by apply IH|].
  rewrite Forall_forall in He'. by apply Compare_ne, He'.
Qed.

Lemma sorted_app v1 v2 :
  strictlySorted (v1 ++ v2) ↔
  strictlySorted v1 ∧ strictlySorted v2 ∧ (∀ a b, a ∈ v1 → b ∈ v2 → precedes a b).
Proof. unfold strictlySorted. rewrite StronglySorted_app. naive_solver. Qed.

Lemma sorted_cons e v :
  strictlySorted (e :: v) ↔ strictlySorted v ∧ Forall (precedes e) v.
Proof. unfold strictlySorted. rewrite StronglySorted_cons. tauto. Qed.

(** The vector around the position of a key. *)
Lemma split_at_key v k :
  strictlySorted v →
  ∃ v1 v2, v = v1 ++ v2 ∧
    length v1 = std_lower_bound compareElements v (fromKey k) ∧
    Forall (λ e, Compare (key e) k = true) v1 ∧
    match v2 with
    | [] => True
    | e :: v3 => Compare (key e) k = false ∧ Forall (λ e', Compare k (key e') = true) v3
    end.
Proof.
  intros Hs. unfold std_lower_bound.
  destruct (prefix_length_split (λ e, compareElements e (fromKey k)) v)
    as (v1 & v2 & -> & Hl & H1 & H2).
  exists v1, v2. split_and!; [done|done| |].
  - eapply Forall_impl; [exact H1|]. unfold compareElements, compareKeys. simpl.
    intros e. by rewrite key_fromKey.
  - destruct v2 as [|e v3]; [done|]. specialize (H2 e eq_refl).
    unfold compareElements, compareKeys in H2. rewrite key_fromKey in H2. split; [done|].
    apply sorted_app in Hs as (_ & [_ Hf]%sorted_cons & _).
    eapply Forall_impl; [exact Hf|]. intros e' He'. unfold precedes in He'.
    destruct (Compare k (key e')) eqn:Hk; [done|].
    destruct (Compare k (key e)) eqn:Hke.
    + by rewrite (Compare_trans _ _ _ Hke He') in Hk.
    + rewrite (Compare_total _ _ Hke H2) in Hk. congruence.
Qed.

Lemma get_split k v1 v2 :
  Forall (λ e, Compare (key e) k = true) v1 → get k (v1 ++ v2) = get k v2.
Proof.
  intros H1. rewrite get_app, get_None; [done|].
  eapply Forall_impl; [exact H1|]. intros e. apply Compare_ne.
Qed.

Lemma get_greater k v : Forall (λ e, Compare k (key e) = true) v → get k v = None.
Proof.
  intros Hf. apply get_None. eapply Forall_impl; [exact Hf|].
  intros e He Heq. symmetry in Heq. by apply (Compare_ne _ _ He).
Qed.

(** Two sorted vectors with the same view are equal. *)
Lemma get_ext v w :
  strictlySorted v → strictlySorted w → (∀ k, get k v = get k w) → v = w.
Proof.
  revert w. induction v as [|e v IH]; intros [|e' w] Hv Hw Hg; [done|..].
  - specialize (Hg (key e')). simpl in Hg. by rewrite keysEqual_refl in Hg.
  - specialize (Hg (key e)). simpl in Hg. by rewrite keysEqual_refl in Hg.
  - apply sorted_cons in Hv as [Hv Hfv], Hw as [Hw Hfw].
    assert (∀ a l, Forall (precedes a) l → get (key a) l = None) as Hnone
      by (intros a l Hl; by apply get_greater).
    assert (key e = key e') as Hk.
    { pose proof (Hg (key e)) as H1. pose proof (Hg (key e')) as H2. simpl in *.
      rewrite keysEqual_refl in H1, H2. destruct (keysEqual (key e') (key e)) eqn:Hee.
      { symmetry. by apply keysEqual_eq. }
      symmetry in H1. apply get_Some in H1 as [H1 _].
      destruct (keysEqual (key e) (key e')) eqn:Hee'; [by apply keysEqual_eq|].
      apply get_Some in H2 as [H2 _]. rewrite Forall_forall in Hfv, Hfw.
      destruct (precedes_irrefl e). etrans; [by apply Hfv|by apply Hfw]. }
    assert (e = e') as ->.
    { specialize (Hg (key e)). simpl in Hg. rewrite keysEqual_refl, <-Hk, keysEqual_refl in Hg.
      congruence. }
    f_equal. apply IH; [done..|]. intros k. specialize (Hg k). simpl in Hg.
    destruct (keysEqual (key e') k) eqn:Hek; [|done]. apply keysEqual_eq in Hek. subst k.
    by rewrite !Hnone.
Qed.
(** *** The operations on the view *)

(** The specification of the container: a partial function from keys. *)
Definition view sv : K → option T := λ k, get k (TheVector sv).

Definition update (m : K → option T) (k : K) (o : option T) : K → option T :=
  λ k', if keysEqual k k' then o else m k'.

Lemma keysEqual_sym a b : keysEqual a b = keysEqual b a.
Proof. unfold keysEqual. apply andb_comm. Qed.

Lemma get_middle k v1 e v2 :
  Forall (λ a, Compare (key a) k = true) v1 → key e = k → get k (v1 ++ e :: v2) = Some e.
Proof. intros H1 <-. rewrite get_split by done. simpl. by rewrite keysEqual_refl. Qed.

Lemma get_insert v1 x v2 k :
  key x ≠ k → get k (v1 ++ x :: v2) = get k (v1 ++ v2).
Proof. intros Hne. rewrite !get_app. simpl. by rewrite keysEqual_ne. Qed.

Lemma insert_view v1 x v2 :
  Forall (λ e, Compare (key e) (key x) = true) v1 →
  ∀ k, get k (v1 ++ x :: v2) = update (λ k, get k (v1 ++ v2)) (key x) (Some x) k.
Proof.
  intros H1 k. unfold update. destruct (keysEqual (key x) k) eqn:Hk.
  - apply keysEqual_eq in Hk as <-. by apply get_middle.
  - apply get_insert. intros <-. by rewrite keysEqual_refl in Hk.
Qed.

Lemma insert_sorted v1 x v2 :
  strictlySorted (v1 ++ v2) → Forall (λ e, Compare (key e) (key x) = true) v1 →
  Forall (λ e, Compare (key x) (key e) = true) v2 → strictlySorted (v1 ++ x :: v2).
Proof.
  intros (H1 & H2 & H3)%sorted_app Hl Hr. apply sorted_app. rewrite sorted_cons.
  rewrite Forall_forall in Hl. split_and!; try done.
  intros a b Ha [->|Hb]%elem_of_cons; [by apply Hl|by apply H3].
Qed.

Lemma replace_sorted v1 e x v2 :
  strictlySorted (v1 ++ e :: v2) → key e = key x → strictlySorted (v1 ++ x :: v2).
Proof.
  rewrite !sorted_app, !sorted_cons. unfold precedes. intros (H1 & [H2 Hf] & H3) Hk.
  rewrite <-Hk. split_and!; try done. intros a b Ha [->|Hb]%elem_of_cons.
  - rewrite <-Hk. apply H3; [done|left].
  - apply H3; [done|by right].
Qed.

Lemma delete_sorted v1 e v2 : strictlySorted (v1 ++ e :: v2) → strictlySorted (v1 ++ v2).
Proof.
  rewrite !sorted_app, sorted_cons. intros (H1 & [H2 _] & H3). split_and!; try done.
  intros a b Ha Hb. apply H3; [done|by right].
Qed.

Lemma delete_view v1 e v2 :
  strictlySorted (v1 ++ e :: v2) →
  ∀ k, get k (v1 ++ v2) = update (λ k, get k (v1 ++ e :: v2)) (key e) None k.
Proof.
  intros (_ & [_ H2]%sorted_cons & H3)%sorted_app k. unfold update.
  destruct (keysEqual (key e) k) eqn:Hk.
  - apply keysEqual_eq in Hk as <-. rewrite get_split; [by apply get_greater|].
    apply Forall_forall. intros a Ha. apply (H3 a e); [done|left].
  - symmetry. apply get_insert. intros <-. by rewrite keysEqual_refl in Hk.
Qed.

Lemma lookup_split {A} (v1 v2 : list A) i : length v1 = i → (v1 ++ v2) !! i = head v2.
Proof. intros <-. rewrite lookup_app_r, Nat.sub_diag by lia. by destruct v2. Qed.

Lemma guard_ok sv {A} (k : unit → outcome A) : inv sv → (guard sv ≫= k) = k tt.
Proof. intros [_ Hf]. unfold guard. by rewrite Hf. Qed.

(** The position of a key, and the vector around it. *)
Lemma lower_bound_split sv k :
  inv sv → ∃ v1 v2, TheVector sv = v1 ++ v2 ∧ lower_bound sv k = Ok (length v1) ∧
    TheVector sv !! length v1 = head v2 ∧
    Forall (λ e, Compare (key e) k = true) v1 ∧
    match v2 with
    | [] => True
    | e :: v3 => Compare (key e) k = false ∧ Forall (λ e', Compare k (key e') = true) v3
    end.
Proof.
  intros Hinv. destruct (split_at_key _ k (inv_sorted _ Hinv)) as (v1 & v2 & Hv & Hl & H1 & H2).
  exists v1, v2. split_and!; try done.
  - unfold lower_bound. rewrite guard_ok by done. by rewrite Hl.
  - rewrite Hv. by apply lookup_split.
Qed.

Lemma find_spec sv k :
  inv sv → ∃ It, find sv k = Ok It ∧
    match view sv k with
    | Some e => TheVector sv !! It = Some e ∧ It < length (TheVector sv)
    | None => It = length (TheVector sv)
    end.
Proof.
  intros Hinv. destruct (lower_bound_split sv k Hinv) as (v1 & v2 & Hv & Hlb & Hlook & H1 & H2).
  unfold find, view. rewrite guard_ok, Hlb, bind_ok, Hlook by done.
  rewrite Hv, get_split by done. destruct v2 as [|e v3]; simpl.
  - eexists. split; [done|]. rewrite app_nil_r. done.
  - destruct H2 as [He H3]. destruct (Compare k (key e)) eqn:Hke; eexists; (split; [done|]).
    + rewrite keysEqual_ne; [|intros Heq; by rewrite Heq, Compare_irrefl in Hke].
      by rewrite get_greater.
    + rewrite (Compare_total _ _ Hke He), keysEqual_refl.
      split; [by apply list_lookup_middle|]. rewrite length_app. simpl. lia.
Qed.

(** The result of looking up the key of a new element before inserting it. *)
Lemma emplace_spec sv x :
  inv sv → ∃ sv' It, emplace sv x = Ok (sv', (It, bool_decide (view sv (key x) = None))) ∧
    inv sv' ∧ TheVector sv' !! It = view sv' (key x) ∧
    ∀ k, view sv' k =
      update (view sv) (key x) (Some (from_option id x (view sv (key x)))) k.
Proof.
  intros Hinv. destruct (lower_bound_split sv (key x) Hinv) as (v1 & v2 & Hv & Hlb & Hlook & H1 & H2).
  pose proof Hinv as [Hs Hf]. rewrite Hv in Hs.
  unfold emplace, view. rewrite guard_ok, Hlb, bind_ok, Hlook by done.
  rewrite Hv, (get_split (key x)) by done. destruct v2 as [|e v3]; simpl.
  - rewrite app_nil_r in *. eexists _, _. split; [done|]. split_and!.
    + split; [|done]. by apply insert_sorted; [rewrite app_nil_r| |constructor].
    + simpl. rewrite get_middle by done. by apply list_lookup_middle.
    + intros k. simpl. rewrite insert_view by done. by rewrite app_nil_r.
  - destruct H2 as [He H3]. destruct (keysEqual (key e) (key x)) eqn:Hk.
    + apply keysEqual_eq in Hk. eexists sv, _. split; [done|]. split_and!; [done| |].
      * rewrite Hv, get_middle by done. by apply list_lookup_middle.
      * intros k. rewrite Hv. unfold update. destruct (keysEqual (key x) k) eqn:Hxk; [|done].
        apply keysEqual_eq in Hxk as <-. by apply get_middle.
    + assert (Compare (key x) (key e) = true) as Hxe.
      { destruct (Compare (key x) (key e)) eqn:E; [done|]. exfalso.
        rewrite (Compare_total _ _ E He), keysEqual_refl in Hk. done. }
      rewrite get_greater by done. eexists _, _. split; [done|].
      rewrite take_app_length, drop_app_length. split_and!.
      * split; [|done]. apply insert_sorted; [done..|]. by constructor.
      * simpl. rewrite get_middle by done. by apply list_lookup_middle.
      * intros k. by apply insert_view.
Qed.

Lemma emplace_or_assign_spec sv x :
  inv sv → ∃ sv' It,
    emplace_or_assign sv x = Ok (sv', (It, bool_decide (view sv (key x) = None))) ∧
    inv sv' ∧ TheVector sv' !! It = Some x ∧
    ∀ k, view sv' k = update (view sv) (key x) (Some x) k.
Proof.
  intros Hinv. destruct (lower_bound_split sv (key x) Hinv) as (v1 & v2 & Hv & Hlb & Hlook & H1 & H2).
  pose proof Hinv as [Hs Hf]. rewrite Hv in Hs.
  unfold emplace_or_assign, view. rewrite guard_ok, Hlb, bind_ok, Hlook by done.
  rewrite Hv, (get_split (key x)) by done. destruct v2 as [|e v3]; simpl.
  - rewrite app_nil_r in *. eexists _, _. split; [done|]. split_and!.
    + split; [|done]. by apply insert_sorted; [rewrite app_nil_r| |constructor].
    + by apply list_lookup_middle.
    + intros k. simpl. rewrite insert_view by done. by rewrite app_nil_r.
  - destruct H2 as [He H3]. destruct (keysEqual (key e) (key x)) eqn:Hk.
    + apply keysEqual_eq in Hk. eexists _, _. split; [done|].
      rewrite insert_app_r_alt, Nat.sub_diag by lia. simpl. split_and!.
      * split; [|done]. by apply (replace_sorted v1 e).
      * by apply list_lookup_middle.
      * intros k. simpl. rewrite insert_view by done. unfold update.
        destruct (keysEqual (key x) k) eqn:Hxk; [done|]. symmetry. apply get_insert.
        intros Heq. by rewrite <-Hk, Heq, keysEqual_refl in Hxk.
    + assert (Compare (key x) (key e) = true) as Hxe.
      { destruct (Compare (key x) (key e)) eqn:E; [done|]. exfalso.
        rewrite (Compare_total _ _ E He), keysEqual_refl in Hk. done. }
      rewrite get_greater by done. eexists _, _. split; [done|].
      rewrite take_app_length, drop_app_length. split_and!.
      * split; [|done]. apply insert_sorted; [done..|]. by constructor.
      * by apply list_lookup_middle.
      * intros k. by apply insert_view.
Qed.
Lemma erase_spec sv k :
  inv sv → ∃ sv', erase sv k = Ok (sv', if view sv k then 1 else 0) ∧ inv sv' ∧
    ∀ k', view sv' k' = update (view sv) k None k'.
Proof.
  intros Hinv. destruct (find_spec sv k Hinv) as (It & Hfind & HIt).
  unfold erase. rewrite guard_ok, Hfind, bind_ok by done.
  destruct (view sv k) as [e|] eqn:Hk.
  - destruct HIt as [He Hlt]. rewrite bool_decide_eq_false_2 by lia.
    unfold eraseAt. rewrite guard_ok, bool_decide_eq_true_2 by done. simpl.
    eexists. split; [done|]. pose proof Hinv as [Hs Hf].
    rewrite <-(take_drop_middle _ _ _ He) in Hs.
    rewrite delete_take_drop. split; [split; [by eapply delete_sorted|done]|].
    intros k'. unfold view in *. simpl. rewrite (delete_view _ e) by done.
    rewrite (take_drop_middle _ _ _ He). apply get_Some in Hk as [_ ->]. done.
  - rewrite bool_decide_eq_true_2 by done. exists sv. split_and!; [done..|].
    intros k'. unfold update. destruct (keysEqual k k') eqn:E; [|done].
    by apply keysEqual_eq in E as <-.
Qed.

Lemma erase_if_spec sv f :
  inv sv → ∃ sv' n, erase_if sv f = Ok (sv', n) ∧ inv sv' ∧
    n = length (filter (λ e, f e = true) (TheVector sv)) ∧
    ∀ k, view sv' k = (e ← view sv k; if f e then None else Some e).
Proof.
  intros Hinv. unfold erase_if. rewrite guard_ok by done. destruct Hinv as [Hs Hf].
  eexists _, _. split; [done|]. unfold view. simpl.
  induction Hs as [|e v Hs IH He]; [split_and!; [by split; [constructor|]|done..]|].
  destruct IH as ([Hs' _] & Hn & Hv). simpl in *. rewrite !filter_cons.
  assert (length (filter (λ e, f e = false) v) ≤ length v) by apply length_filter.
  destruct (f e) eqn:Hfe; simpl.
  - split_and!; [by split|simpl; lia|]. intros k. destruct (keysEqual (key e) k) eqn:Hk; [|done].
    simpl. rewrite Hfe. apply keysEqual_eq in Hk as <-. rewrite Hv, get_greater; done.
  - split_and!; [split; [|done]|lia|].
    + apply sorted_cons. split; [done|]. rewrite Forall_forall in *.
      intros a [_ Ha]%list_elem_of_filter. by apply He.
    + intros k. destruct (keysEqual (key e) k); simpl; [by rewrite Hfe|done].
Qed.

Lemma eraseAt_spec sv Pos e :
  inv sv → TheVector sv !! Pos = Some e →
  ∃ sv', eraseAt sv Pos = Ok (sv', Pos) ∧ inv sv' ∧ ∀ k, view sv' k = update (view sv) (key e) None k.
Proof.
  intros Hinv He. unfold eraseAt. rewrite guard_ok, bool_decide_eq_true_2 by (done || by eapply lookup_lt_Some).
  eexists. split; [done|]. destruct sv as [v f], Hinv as [Hs Hf]. cbn in *.
  apply list_elem_of_split_length in He as (v1 & v2 & -> & ->). rewrite delete_middle. split.
  - split; [by eapply delete_sorted|done].
  - intros k. by apply delete_view.
Qed.

Lemma eraseRange_spec sv First Last :
  inv sv → First ≤ Last ≤ length (TheVector sv) →
  ∃ sv', eraseRange sv First Last = Ok (sv', First) ∧ inv sv' ∧
    ∀ k e, view sv' k = Some e ↔ view sv k = Some e ∧ e ∉ take (Last - First) (drop First (TheVector sv)).
Proof.
  intros Hinv Hr. unfold eraseRange. rewrite guard_ok, bool_decide_eq_true_2 by done. eexists. split; [done|].
  destruct sv as [v f], Hinv as [Hs Hf]. cbn in *. set (v1 := take First v). set (v2 := take (Last - First) (drop First v)). set (v3 := drop Last v).
  assert (v = v1 ++ v2 ++ v3) as Hv.
  { subst v1 v2 v3. rewrite <- (take_drop First v) at 1. f_equal. rewrite <- (take_drop (Last - First) (drop First v)) at 1. f_equal.
    rewrite drop_drop. f_equal. lia. }
  clearbody v1 v2 v3. subst v. assert (strictlySorted (v1 ++ v3)) as Hs'.
  { apply sorted_app in Hs as (Hs1 & (Hs2 & Hs3 & Hb)%sorted_app & Ha). apply sorted_app. split_and!; [done|done|].
    intros a b Hia Hib. apply Ha; [done|]. apply elem_of_app. by right. }
  split; [done|]. unfold view. cbn. intros k e. split.
  - intros (Hin & <-)%get_Some. assert (e ∈ v1 ++ v2 ++ v3) as Hin' by (rewrite !elem_of_app in *; tauto).
    split; [by apply get_elem|]. intros He2. apply sorted_app in Hs as (_ & (_ & _ & Hb)%sorted_app & Ha).
    apply elem_of_app in Hin as [Hin|Hin]; apply (precedes_irrefl e); [apply Ha; [done|apply elem_of_app; by left]|by apply Hb].
  - intros [(Hin & <-)%get_Some Hno]. apply get_elem; [done|]. rewrite !elem_of_app in *. tauto.
Qed.

Lemma index_spec sv k :
  inv sv → ∃ sv', index sv k = Ok (sv', from_option id (fromKey k) (view sv k)) ∧ inv sv' ∧
    ∀ k', view sv' k' = update (view sv) k (Some (from_option id (fromKey k) (view sv k))) k'.
Proof.
  intros Hinv. destruct (emplace_spec sv (fromKey k) Hinv) as (sv' & It & He & Hi & Hl & Hv).
  unfold index. rewrite guard_ok, He, bind_ok by done. rewrite key_fromKey in *.
  exists sv'. rewrite Hl, Hv. unfold update at 1. rewrite keysEqual_refl. simpl. auto.
Qed.

Lemma isSortedFrom_spec v : isSortedFrom v = true ↔ strictlySorted v.
Proof.
  unfold strictlySorted. split.
  - intros Hv. apply Sorted_StronglySorted. { apply _. }
    induction v as [|e v IH]; [constructor|]. simpl in Hv.
    destruct v as [|e' v]; [by repeat constructor|].
    unfold compareElements, compareKeys in Hv. destruct (Compare (key e) (key e')) eqn:Hc; [|done].
    constructor; [by apply IH|]. by constructor.
  - induction 1 as [|e v Hs IH Hf]; [done|]. simpl. destruct v as [|e' v]; [done|].
    apply Forall_cons in Hf as [Hf _]. unfold compareElements, compareKeys. by rewrite Hf.
Qed.

(** *** Sorting a batch *)

(** The last element with a key. *)
Definition lastWith (k : K) (v : list T) : option T :=
  last (filter (λ e, keysEqual (key e) k = true) v).

Definition weaklySorted (v : list T) : Prop :=
  StronglySorted (λ a b, compareElements b a = false) v.

Lemma lastWith_cons k e v :
  lastWith k (e :: v) =
    match lastWith k v with
    | Some e' => Some e'
    | None => if keysEqual (key e) k then Some e else None
    end.
Proof.
  unfold lastWith. rewrite filter_cons. destruct (keysEqual (key e) k); simpl.
  - rewrite last_cons. by destruct (last _).
  - by destruct (last _).
Qed.

Lemma lastWith_app k v w :
  lastWith k (v ++ w) = match lastWith k w with Some e => Some e | None => lastWith k v end.
Proof. unfold lastWith. rewrite filter_app, last_app. done. Qed.

Lemma lastWith_Some k v e : lastWith k v = Some e → e ∈ v ∧ key e = k.
Proof.
  unfold lastWith. intros Hl%last_Some_elem_of. apply list_elem_of_filter in Hl as [Hk ?].
  by apply keysEqual_eq in Hk.
Qed.

Lemma lastWith_None k v : lastWith k v = None → ∀ e, e ∈ v → key e ≠ k.
Proof.
  unfold lastWith. rewrite last_None. intros Hf e He Hk.
  assert (e ∈ filter (λ e, keysEqual (key e) k = true) v) as Hin
    by (apply list_elem_of_filter; split; [by apply keysEqual_eq|done]).
  rewrite Hf in Hin. by apply elem_of_nil in Hin.
Qed.

Lemma lastWith_get k v : strictlySorted v → lastWith k v = get k v.
Proof.
  intros Hs. destruct (lastWith k v) as [e|] eqn:Hl.
  - apply lastWith_Some in Hl as [Hin <-]. symmetry. by apply get_elem.
  - symmetry. apply get_None, Forall_forall. by apply lastWith_None.
Qed.

Lemma insert_before_perm (x : T) v : insert_before compareElements x v ≡ₚ x :: v.
Proof.
  induction v as [|y v IH]; simpl; [done|]. destruct (compareElements y x); [|done].
  rewrite IH. apply Permutation_swap.
Qed.

Lemma stable_sort_perm v : std_stable_sort compareElements v ≡ₚ v.
Proof.
  induction v as [|x v IH]; simpl; [done|]. rewrite insert_before_perm. by rewrite IH.
Qed.

Lemma compare_weak_trans a b c :
  compareElements b a = false → compareElements c b = false → compareElements c a = false.
Proof.
  unfold compareElements, compareKeys. intros H1 H2. apply not_true_is_false. intros H3.
  destruct (Compare (key b) (key c)) eqn:Hbc.
  - by rewrite (Compare_trans _ _ _ Hbc H3) in H1.
  - by rewrite (Compare_total _ _ Hbc H2) in H1; rewrite H3 in H1.
Qed.

Lemma insert_before_sorted x v :
  weaklySorted v → weaklySorted (insert_before compareElements x v).
Proof.
  unfold weaklySorted. induction 1 as [|y v Hs IH Hf]; simpl; [by repeat constructor|].
  destruct (compareElements y x) eqn:Hyx.
  - constructor; [done|]. rewrite insert_before_perm. constructor; [|done].
    unfold compareElements, compareKeys in *. by apply Compare_asym.
  - constructor; [by constructor|]. constructor; [done|].
    eapply Forall_impl; [exact Hf|]. intros z Hz. simpl in *. by eapply compare_weak_trans.
Qed.

Lemma stable_sort_sorted v : weaklySorted (std_stable_sort compareElements v).
Proof.
  induction v as [|x v IH]; simpl; [constructor|]. by apply insert_before_sorted.
Qed.

Lemma insert_before_lastWith k x v :
  weaklySorted v → lastWith k (insert_before compareElements x v) = lastWith k (x :: v).
Proof.
  induction 1 as [|y v Hs IH Hf]; [done|]. simpl. destruct (compareElements y x) eqn:Hyx; [|done].
  rewrite lastWith_cons, IH, !lastWith_cons.
  destruct (lastWith k v); [done|]. destruct (keysEqual (key x) k) eqn:Hx, (keysEqual (key y) k) eqn:Hy;
    try done.
  apply keysEqual_eq in Hx, Hy. unfold compareElements, compareKeys in Hyx.
  by rewrite Hx, Hy, Compare_irrefl in Hyx.
Qed.

(** The sort is stable: the last element with each key is the same. *)
Lemma stable_sort_lastWith k v : lastWith k (std_stable_sort compareElements v) = lastWith k v.
Proof.
  induction v as [|x v IH]; [done|]. simpl.
  rewrite insert_before_lastWith by apply stable_sort_sorted.
  by rewrite !lastWith_cons, IH.
Qed.
(** *** [unique_last] *)

(** Of every run of elements with equal keys, the last. *)
Fixpoint collapse (x : T) (v : list T) : list T :=
  match v with
  | [] => [x]
  | y :: v => if elementsEqual x y then collapse y v else x :: collapse y v
  end.

Lemma unique_last_loop_spec rest fuel pre x mid :
  length rest < fuel → Forall (λ e, self_moved e = e) rest →
  ∃ v n, unique_last_loop elementsEqual fuel (pre ++ x :: mid ++ rest) (length pre)
      (length pre + length mid) = Ok (v, n) ∧ take n v = pre ++ collapse x rest.
Proof.
  revert fuel pre x mid. induction rest as [|y ys IH]; intros fuel pre x mid Hfuel Hself;
    (destruct fuel as [|fuel]; [simpl in Hfuel; lia|]); simpl.
  - rewrite bool_decide_eq_true_2 by (rewrite app_nil_r, length_app; simpl; lia).
    eexists _, _. split; [done|]. rewrite app_nil_r.
    rewrite cons_middle, app_assoc. apply take_app_length'. rewrite length_app. simpl. lia.
  - apply Forall_cons in Hself as [Hy Hself]. simpl in Hfuel.
    rewrite bool_decide_eq_false_2 by (rewrite !length_app; simpl; rewrite length_app; simpl; lia).
    rewrite list_lookup_middle by done.
    assert (∀ w, (pre ++ w :: mid ++ y :: ys) !! S (length pre + length mid) = Some y) as Hlook.
    { intros w. rewrite app_comm_cons, app_assoc. apply list_lookup_middle.
      rewrite length_app. simpl. lia. }
    assert (∀ w z, <[S (length pre + length mid):=z]> (pre ++ w :: mid ++ y :: ys) =
                   pre ++ w :: (mid ++ [z]) ++ ys) as Hins.
    { intros w z. rewrite app_comm_cons, app_assoc.
      rewrite insert_app_r_alt by (rewrite length_app; simpl; lia).
      rewrite length_app. simpl. replace (S (length pre + length mid) - _) with 0 by lia.
      simpl. by rewrite <-!app_assoc. }
    rewrite Hlook. destruct (elementsEqual x y); simpl.
    + rewrite insert_app_r_alt, Nat.sub_diag by lia. simpl. rewrite Hins.
      replace (S (length pre + length mid)) with (length pre + length (mid ++ [moved_from y]))
        by (rewrite length_app; simpl; lia).
      apply IH; [lia|done].
    + destruct mid as [|m mid].
      * rewrite bool_decide_eq_false_2 by (simpl; lia). rewrite Hins, Hy.
        replace (S (length pre + length [])) with (length (pre ++ [x]) + length (A:=T) [])
          by (rewrite length_app; simpl; lia).
        replace (S (length pre)) with (length (pre ++ [x])) by (rewrite length_app; simpl; lia).
        destruct (IH fuel (pre ++ [x]) y [] ltac:(lia) Hself) as (v & n & Hv & Ht).
        simpl in *. rewrite <-!app_assoc in *. simpl in *. eauto.
      * rewrite bool_decide_eq_true_2 by (simpl; lia).
        assert (<[S (length pre):=y]> (pre ++ x :: (m :: mid) ++ y :: ys) =
                (pre ++ [x]) ++ y :: mid ++ y :: ys) as ->.
        { rewrite insert_app_r_alt by lia.
          replace (S (length pre) - length pre) with 1 by lia. simpl. by rewrite <-app_assoc. }
        destruct (IH fuel (pre ++ [x]) y (mid ++ [moved_from y]) ltac:(lia) Hself)
          as (v & n & Hv & Ht).
        exists v, n. rewrite <-!app_assoc in Ht. simpl in Ht. split; [|done]. rewrite <-Hv.
        rewrite length_app. simpl. f_equal; [|lia|rewrite length_app; simpl; lia].
        rewrite app_comm_cons, app_assoc, insert_app_r_alt by (rewrite !length_app; simpl; lia).
        rewrite !length_app. simpl. replace (S _ - _) with 0 by lia. simpl.
        by rewrite <-!app_assoc.
Qed.

Lemma unique_last_spec v :
  Forall (λ e, self_moved e = e) v →
  ∃ v' n, unique_last elementsEqual v = Ok (v', n) ∧
    take n v' = match v with [] => [] | x :: v => collapse x v end.
Proof.
  intros Hself. destruct v as [|x v]; [by eexists _, _|]. apply Forall_cons in Hself as [_ Hself].
  apply (unique_last_loop_spec v (length (x :: v)) [] x []); [simpl; lia|done].
Qed.

Lemma collapse_keys x v :
  weaklySorted (x :: v) → Forall (λ e, Compare (key e) (key x) = false) (collapse x v).
Proof.
  revert x. induction v as [|y v IH]; intros x Hs; simpl.
  - constructor; [apply Compare_irrefl|done].
  - unfold weaklySorted in Hs. apply StronglySorted_cons in Hs as [Hf Hs].
    pose proof (IH y Hs) as Hc. apply Forall_cons in Hf as [Hxy Hf].
    unfold compareElements, compareKeys in Hxy.
    assert (Forall (λ e, Compare (key e) (key x) = false) (collapse y v)) as Hc'.
    { eapply Forall_impl; [exact Hc|]. intros e He. simpl in *.
      by eapply (compare_weak_trans x y e). }
    destruct (elementsEqual x y); [done|]. constructor; [apply Compare_irrefl|done].
Qed.

Lemma collapse_sorted x v : weaklySorted (x :: v) → strictlySorted (collapse x v).
Proof.
  revert x. induction v as [|y v IH]; intros x Hs; simpl; [by repeat constructor|].
  apply StronglySorted_cons in Hs as [Hf Hs]. pose proof (IH y Hs) as Hc.
  destruct (elementsEqual x y) eqn:He; [done|].
  apply sorted_cons. split; [done|].
  apply Forall_cons in Hf as [Hxy _]. unfold compareElements, compareKeys in Hxy.
  assert (Compare (key x) (key y) = true) as Hlt.
  { destruct (Compare (key x) (key y)) eqn:E; [done|]. exfalso.
    unfold elementsEqual in He. rewrite (Compare_total _ _ E Hxy), keysEqual_refl in He. done. }
  eapply Forall_impl; [by apply collapse_keys|]. intros e Hey. simpl in *. unfold precedes.
  destruct (Compare (key x) (key e)) eqn:E; [done|]. exfalso.
  assert (Compare (key e) (key x) = true ∨ key e = key x) as [Hex|Hex].
  { destruct (Compare (key e) (key x)) eqn:E'; [by left|right]. by apply Compare_total. }
  - by rewrite (Compare_trans _ _ _ Hex Hlt) in Hey.
  - by rewrite Hex, Hlt in Hey.
Qed.

Lemma collapse_lastWith k x v : lastWith k (collapse x v) = lastWith k (x :: v).
Proof.
  revert x. induction v as [|y v IH]; intros x; simpl; [done|].
  destruct (elementsEqual x y) eqn:He.
  - apply keysEqual_eq in He. rewrite IH, !lastWith_cons, He.
    by destruct (lastWith k v), (keysEqual (key y) k).
  - by rewrite lastWith_cons, IH, <-lastWith_cons.
Qed.

Lemma sort_false_spec sv :
  BatchInsertInProgress sv = false → (∀ e : T, self_moved e = e) →
  ∃ sv', sort false sv = Ok sv' ∧ inv sv' ∧ ∀ k, view sv' k = lastWith k (TheVector sv).
Proof.
  intros Hf Hself. unfold sort, guard. rewrite Hf, assert_true by done.
  set (w := std_stable_sort compareElements (TheVector sv)).
  destruct (unique_last_spec w) as (v' & n & -> & Ht).
  { apply Forall_forall. auto. }
  rewrite bind_ok. eexists. split; [done|]. unfold view. simpl. rewrite Ht.
  assert (weaklySorted w) as Hw by apply stable_sort_sorted.
  assert (∀ k, lastWith k w = lastWith k (TheVector sv)) as Hl
    by (intros k; apply stable_sort_lastWith).
  split; [split; [|done]; simpl|].
  - destruct w; [constructor|]. by apply collapse_sorted.
  - intros k. rewrite <-Hl, <-lastWith_get.
    + destruct w; [done|]. apply collapse_lastWith.
    + destruct w; [constructor|]. by apply collapse_sorted.
Qed.

Lemma adjacent_find_sorted v :
  weaklySorted v →
  (std_adjacent_find elementsEqual v = length v ↔ strictlySorted v) ∧
  std_adjacent_find elementsEqual v ≤ length v.
Proof.
  induction v as [|x v IH]; intros Hs; [by split; [split; [constructor|]|]|].
  apply StronglySorted_cons in Hs as [Hf Hs]. specialize (IH Hs) as [IH Hle].
  destruct v as [|y v]; [split; [split; [by repeat constructor|done]|done]|].
  change (std_adjacent_find elementsEqual (x :: y :: v)) with
    (if elementsEqual x y then 0 else S (std_adjacent_find elementsEqual (y :: v))).
  apply Forall_cons in Hf as [Hxy _]. unfold compareElements, compareKeys in Hxy.
  destruct (elementsEqual x y) eqn:He.
  - apply keysEqual_eq in He. split; [|lia]. split; [done|].
    intros [_ [Hp _]%Forall_cons]%sorted_cons. unfold precedes in Hp.
    by rewrite He, Compare_irrefl in Hp.
  - split; [|simpl in *; lia]. rewrite sorted_cons, <-IH. simpl. split; [|by intros [-> _]].
    intros [= Heq]. split; [done|].
    assert (precedes x y) as Hp.
    { unfold precedes. destruct (Compare (key x) (key y)) eqn:E; [done|]. exfalso.
      unfold elementsEqual in He. rewrite (Compare_total _ _ E Hxy), keysEqual_refl in He. done. }
    constructor; [done|]. apply IH in Heq. apply sorted_cons in Heq as [_ Hf].
    eapply Forall_impl; [exact Hf|]. intros e. by apply transitivity.
Qed.
(** *** Batches and single insertions *)

Definition emplaceAll sv (Values : list T) : outcome (SortedVector T) :=
  foldl (λ s x, sv ← s; '(sv, _) ← emplace sv x; Ok sv) (Ok sv) Values.

Definition assignAll sv (Values : list T) : outcome (SortedVector T) :=
  foldl (λ s x, sv ← s; '(sv, _) ← emplace_or_assign sv x; Ok sv) (Ok sv) Values.

Lemma assignAll_spec sv Values :
  inv sv → ∃ sv', assignAll sv Values = Ok sv' ∧ inv sv' ∧
    ∀ k, view sv' k = lastWith k (TheVector sv ++ Values).
Proof.
  revert sv. induction Values as [|x Values IH]; intros sv Hinv.
  - exists sv. split_and!; [done..|]. intros k. rewrite app_nil_r.
    symmetry. apply lastWith_get, Hinv.
  - unfold assignAll. simpl. destruct (emplace_or_assign_spec sv x Hinv) as (sv1 & It & -> & H1 & _ & V1).
    rewrite bind_ok. destruct (IH sv1 H1) as (sv2 & He & H2 & V2). exists sv2.
    split_and!; [exact He|done|]. intros k.
    rewrite V2, (lastWith_app k _ Values), (lastWith_get k (TheVector sv1)) by apply H1.
    change (get k (TheVector sv1)) with (view sv1 k). rewrite V1.
    rewrite lastWith_app, lastWith_cons, (lastWith_get k (TheVector sv)) by apply Hinv.
    unfold update. by destruct (lastWith k Values), (keysEqual (key x) k).
Qed.

Lemma foldl_batch sv Values :
  BatchInsertInProgress sv = true →
  foldl (λ s Value, sv ← s; batchEmplace sv Value) (Ok sv) Values =
    Ok (mkSV (TheVector sv ++ Values) true).
Proof.
  revert sv. induction Values as [|x Values IH]; intros sv Hf; simpl.
  - rewrite app_nil_r, <-Hf. by destruct sv.
  - unfold batchEmplace at 2. rewrite Hf. simpl. rewrite IH by done. simpl.
    by rewrite <-app_assoc.
Qed.

Lemma batch_sort EnsureUnique sv Values :
  inv sv → batch EnsureUnique sv Values = sort EnsureUnique (mkSV (TheVector sv ++ Values) false).
Proof.
  intros Hinv. unfold batch, batchBegin. rewrite !guard_ok, bind_ok by done.
  rewrite foldl_batch by done. done.
Qed.

Lemma emplaceAll_spec sv Values :
  inv sv → NoDup (key <$> (TheVector sv ++ Values)) →
  ∃ sv', emplaceAll sv Values = Ok sv' ∧ inv sv' ∧ TheVector sv' ≡ₚ TheVector sv ++ Values.
Proof.
  revert sv. induction Values as [|x Values IH]; intros sv Hinv Hnd.
  - exists sv. by rewrite app_nil_r.
  - unfold emplaceAll. simpl.
    assert (view sv (key x) = None) as Hx.
    { apply get_None, Forall_forall. intros e He Hk. rewrite fmap_app, NoDup_app in Hnd.
      destruct Hnd as (_ & Hnd & _). apply (Hnd (key e)).
      - by apply list_elem_of_fmap_2.
      - rewrite Hk. left. }
    destruct (lower_bound_split sv (key x) Hinv) as (v1 & v2 & Hv & Hlb & Hlook & H1 & H2).
    destruct (emplace_spec sv x Hinv) as (sv1 & It & He & Hi & _ & _).
    assert (TheVector sv1 ≡ₚ TheVector sv ++ [x]) as Hp.
    { unfold emplace in He. rewrite guard_ok, Hlb, bind_ok, Hlook in He by done.
      unfold view in Hx. rewrite Hv, get_split in Hx by done.
      destruct v2 as [|e v3]; simpl in *; [by simplify_eq|].
      destruct (keysEqual (key e) (key x)); [done|]. simplify_eq. simpl.
      rewrite Hv, take_app_length, drop_app_length. solve_Permutation. }
    rewrite He, bind_ok. destruct (IH sv1 Hi) as (sv2 & Hs2 & Hi2 & Hp2).
    { rewrite fmap_app, Hp, <-fmap_app, <-app_assoc. done. }
    exists sv2. split_and!; [done..|]. by rewrite Hp2, Hp, <-app_assoc.
Qed.

Lemma std_sort_weak v : weaklySorted (std_sort compareElements v).
Proof.
  apply std_sort_sorted.
  - intros a. apply Compare_irrefl.
  - intros a b c. apply Compare_trans.
  - intros a b c Hab Hbc. by apply (compare_weak_trans c b a).
Qed.

Lemma sorted_perm_eq v w : strictlySorted v → strictlySorted w → v ≡ₚ w → v = w.
Proof.
  intros Hv Hw Hp. apply get_ext; [done..|]. intros k.
  destruct (get k v) as [e|] eqn:Hg.
  - apply get_Some in Hg as [Hin <-]. symmetry. apply get_elem; [done|]. by rewrite <-Hp.
  - destruct (get k w) as [e|] eqn:Hg'; [|done].
    apply get_Some in Hg' as [Hin <-]. rewrite <-Hg. apply get_elem; [done|]. by rewrite Hp.
Qed.

Lemma strictlySorted_NoDup v : strictlySorted v → NoDup (key <$> v).
Proof.
  induction 1 as [|e v Hs IH Hf]; [constructor|]. rewrite fmap_cons. constructor; [|done].
  intros (e' & Hk & Hin)%list_elem_of_fmap. rewrite Forall_forall in Hf.
  apply (Compare_ne _ _ (Hf _ Hin)). done.
Qed.

Lemma weak_NoDup_strict v : weaklySorted v → NoDup (key <$> v) → strictlySorted v.
Proof.
  induction 1 as [|e v Hs IH Hf]; rewrite ?fmap_cons; [constructor|].
  intros [Hnin Hnd]%NoDup_cons. apply sorted_cons. split; [by apply IH|].
  rewrite Forall_forall in *. intros a Ha. specialize (Hf a Ha).
  unfold precedes, compareElements, compareKeys in *.
  destruct (Compare (key e) (key a)) eqn:E; [done|]. exfalso. apply Hnin.
  rewrite (Compare_total _ _ E Hf). by apply list_elem_of_fmap_2.
Qed.

Lemma sort_true_spec sv :
  BatchInsertInProgress sv = false →
  (NoDup (key <$> TheVector sv) ∧
   ∃ sv', sort true sv = Ok sv' ∧ inv sv' ∧ TheVector sv' ≡ₚ TheVector sv) ∨
  (¬ NoDup (key <$> TheVector sv) ∧ sort true sv = Fault AssertionFailed).
Proof.
  intros Hf. unfold sort, guard. rewrite Hf, assert_true by done.
  set (w := std_sort compareElements (TheVector sv)).
  assert (w ≡ₚ TheVector sv) as Hp by apply std_sort_perm.
  pose proof (std_sort_weak (TheVector sv)) as Hw. fold w in Hw.
  destruct (adjacent_find_sorted w Hw) as [Hadj _].
  case_bool_decide as Had; simpl.
  - left. apply Hadj in Had. split; [rewrite <-Hp; by apply strictlySorted_NoDup|].
    eexists. by split_and!.
  - right. split; [|done]. intros Hnd. apply Had, Hadj, weak_NoDup_strict; [done|]. by rewrite Hp.
Qed.
End facts.

(** ** Concrete instances *)

Lemma insert_before_permutation {A} (comp : A → A → bool) x l : insert_before comp x l ≡ₚ x :: l.
Proof.
  induction l as [|y l IH]; simpl; [done|]. destruct (comp y x); [|done].
  rewrite IH. apply Permutation_swap.
Qed.

Definition insertionSort : StdSort.
Proof.
  refine {| std_sort A comp l := std_stable_sort comp l |}.
  - intros A comp l. induction l as [|x l IH]; simpl; [done|].
    rewrite insert_before_permutation. by rewrite IH.
  - intros A comp l Hirr Htr Hneg. induction l as [|x l IH]; simpl; [constructor|].
    induction IH as [|y l' Hs IH Hf]; simpl; [by repeat constructor|].
    destruct (comp y x) eqn:Hyx.
    + constructor; [done|]. rewrite insert_before_permutation. constructor; [|done].
      apply not_true_is_false. intros Hxy. specialize (Htr _ _ _ Hyx Hxy). by rewrite Hirr in Htr.
    + constructor; [by constructor|]. constructor; [done|].
      eapply Forall_impl; [exact Hf|]. intros z Hz. simpl in *. by eapply Hneg.
Defined.

(** Pairs of a key and a payload, with moves that copy. *)
Definition pairs : KeyedObject (Z * Z) Z := {|
  key := fst; fromKey k := (k, 0%Z); Compare := Z.ltb; moved_from e := e; self_moved e := e;
|}.

Lemma pairs_laws : @KeyedObjectLaws _ _ pairs.
Proof.
  split; simpl; intros.
  - done.
  - apply Z.ltb_irrefl.
  - rewrite Z.ltb_lt in *. lia.
  - rewrite Z.ltb_ge in *. lia.
Qed.

Definition samplePairs : SortedVector (Z * Z) := mkSV [(1, 10); (3, 30)]%Z false.

Lemma samplePairs_inv : @inv _ _ pairs samplePairs.
Proof. split; [|done]. repeat constructor. Qed.

(** ** Theorems *)

(** C20: The sorted vector implements a finite map from keys to elements: on a
    strictly sorted vector outside of a batch, each operation keeps it strictly sorted
    and acts on the map as its name says (lookup, insertion of a new key only, insertion
    or replacement, insertion of a default, removal of a key, of the element at a
    position or of those of a range of positions, filtering, clearing, exchange with
    another); two sorted vectors with the same map are equal. No assertion fails but that
    of [at] on a key that is not there. *)
Theorem sorted_vector_refines_map {T K} `{KO : KeyedObject T K, !KeyedObjectLaws T K} sv :
  inv sv →
  (∀ k, contains sv k = Ok (bool_decide (is_Some (view sv k))) ∧
        count sv k = Ok (if view sv k then 1 else 0) ∧
        at_ sv k = match view sv k with Some e => Ok e | None => Fault AssertionFailed end) ∧
  (∀ x, ∃ sv' It, emplace sv x = Ok (sv', (It, bool_decide (view sv (key x) = None))) ∧
        inv sv' ∧ TheVector sv' !! It = view sv' (key x) ∧
        ∀ k, view sv' k = update (view sv) (key x) (Some (from_option id x (view sv (key x)))) k) ∧
  (∀ x, ∃ sv' It, emplace_or_assign sv x = Ok (sv', (It, bool_decide (view sv (key x) = None))) ∧
        inv sv' ∧ TheVector sv' !! It = Some x ∧
        ∀ k, view sv' k = update (view sv) (key x) (Some x) k) ∧
  (∀ k, ∃ sv', index sv k = Ok (sv', from_option id (fromKey k) (view sv k)) ∧ inv sv' ∧
        ∀ k', view sv' k' = update (view sv) k (Some (from_option id (fromKey k) (view sv k))) k') ∧
  (∀ k, ∃ sv', erase sv k = Ok (sv', if view sv k then 1 else 0) ∧ inv sv' ∧
        ∀ k', view sv' k' = update (view sv) k None k') ∧
  (∀ f, ∃ sv' n, erase_if sv f = Ok (sv', n) ∧ inv sv' ∧
        n = length (filter (λ e, f e = true) (TheVector sv)) ∧
        ∀ k, view sv' k = (e ← view sv k; if f e then None else Some e)) ∧
  isSorted sv = Ok true ∧
  (∀ sv', inv sv' → (∀ k, view sv k = view sv' k) → sv = sv') ∧
  (∀ Pos e, TheVector sv !! Pos = Some e →
     ∃ sv', eraseAt sv Pos = Ok (sv', Pos) ∧ inv sv' ∧ ∀ k, view sv' k = update (view sv) (key e) None k) ∧
  (∀ First Last, First ≤ Last ≤ length (TheVector sv) →
     ∃ sv', eraseRange sv First Last = Ok (sv', First) ∧ inv sv' ∧
       ∀ k e, view sv' k = Some e ↔ view sv k = Some e ∧ e ∉ take (Last - First) (drop First (TheVector sv))) ∧
  (∃ sv', clear sv = Ok sv' ∧ inv sv' ∧ ∀ k, view sv' k = None) ∧
  (∃ b, empty sv = Ok b ∧ (b = true ↔ ∀ k, view sv k = None)) ∧
  (∀ Other, inv Other → swap sv Other = Ok (Other, sv)).
Proof.
  intros Hinv. split_and!.
  - intros k. destruct (find_spec sv k Hinv) as (It & Hf & HIt).
    unfold contains, count, at_. rewrite Hf, !guard_ok by done. rewrite !bind_ok, guard_ok by done.
    destruct (view sv k) as [e|].
    + destruct HIt as [He Hlt]. rewrite bool_decide_eq_false_2 by lia. simpl. by rewrite He.
    + by rewrite bool_decide_eq_true_2.
  - intros x. by apply emplace_spec.
  - intros x. by apply emplace_or_assign_spec.
  - intros k. by apply index_spec.
  - intros k. by apply erase_spec.
  - intros f. by apply erase_if_spec.
  - unfold isSorted. rewrite guard_ok by done. f_equal. apply isSortedFrom_spec, Hinv.
  - intros sv' Hinv' Hv. destruct sv as [v f], sv' as [v' f'], Hinv as [Hs Hf], Hinv' as [Hs' Hf'].
    simpl in *. subst. f_equal. by apply get_ext.
  - intros Pos e. by apply eraseAt_spec.
  - intros First Last. by apply eraseRange_spec.
  - unfold clear. rewrite guard_ok by done. eexists. split; [done|]. split; [split; [constructor|apply Hinv]|done].
  - unfold empty. rewrite guard_ok by done. eexists. split; [done|]. rewrite bool_decide_eq_true. unfold view.
    split; [by intros ->|]. intros Hv. destruct (TheVector sv) as [|e v]; [done|]. specialize (Hv (key e)). cbn in Hv.
    by rewrite keysEqual_refl in Hv.
  - intros Other Hinv'. unfold swap. rewrite guard_ok by done.
    destruct sv as [v f], Other as [v' f'], Hinv as [_ Hf], Hinv' as [_ Hf']. cbn in *. by subst.
Qed.

Lemma sorted_vector_refines_map_witness :
  ∃ sv', @erase _ _ pairs samplePairs 3%Z = Ok (sv', 1) ∧ @inv _ _ pairs sv'.
Proof.
  destruct (proj1 (proj2 (proj2 (proj2 (proj2
    (@sorted_vector_refines_map _ _ pairs pairs_laws samplePairs samplePairs_inv))))) 3%Z)
    as (sv' & He & Hi & _).
  by exists sv'.
Defined.

(** For elements that a move from themselves leaves unchanged, a batch of
    [insert_or_assign] (an append, a stable sort, and the removal of all but the
    last of equal elements) gives exactly the vector that inserting or assigning
    the elements one at a time gives; the constructor from a list is this batch
    on the empty vector. *)
Theorem batch_assign_equivalent {T K} `{KO : KeyedObject T K, !KeyedObjectLaws T K, !StdSort}
    sv Values :
  inv sv → (∀ e : T, self_moved e = e) →
  (∃ sv', batch false sv Values = Ok sv' ∧ assignAll sv Values = Ok sv' ∧ inv sv' ∧
    ∀ k, view sv' k = match lastWith k Values with Some e => Some e | None => view sv k end) ∧
  fromList Values = batch false default Values.
Proof.
  intros Hinv Hself. split; [|done]. rewrite batch_sort by done.
  destruct (sort_false_spec (mkSV (TheVector sv ++ Values) false) eq_refl Hself) as (s1 & -> & I1 & V1).
  destruct (assignAll_spec sv Values Hinv) as (s2 & -> & I2 & V2).
  assert (s1 = s2) as <-.
  { destruct s1 as [v f], s2 as [v' f'], I1 as [Hs Hf], I2 as [Hs' Hf']. simpl in *. subst. f_equal.
    apply get_ext; [done..|]. intros k. change (view (mkSV v false) k = view (mkSV v' false) k).
    by rewrite V1, V2. }
  exists s1. split_and!; [done..|]. intros k. rewrite V1. simpl. rewrite lastWith_app.
  unfold view. by rewrite (lastWith_get k (TheVector sv)) by apply Hinv.
Qed.

Lemma batch_assign_equivalent_witness :
  ∃ sv', @batch _ _ pairs insertionSort false samplePairs [(3, 31); (2, 20); (3, 32)]%Z = Ok sv' ∧
    @assignAll _ _ pairs samplePairs [(3, 31); (2, 20); (3, 32)]%Z = Ok sv'.
Proof.
  destruct (@batch_assign_equivalent _ _ pairs pairs_laws insertionSort samplePairs
    [(3, 31); (2, 20); (3, 32)]%Z samplePairs_inv (λ _, eq_refl)) as [(sv' & H1 & H2 & _) _].
  by exists sv'.
Defined.

(** A batch of [insert] succeeds exactly when no two elements, old or new,
    have equal keys, whatever order the unstable sort leaves equal elements in,
    and then gives the vector that single insertions give; with a duplicate key
    it fails its check. *)
Theorem batch_insert_unique {T K} `{KO : KeyedObject T K, !KeyedObjectLaws T K, !StdSort}
    sv Values :
  inv sv →
  (NoDup (key <$> (TheVector sv ++ Values)) →
    ∃ sv', batch true sv Values = Ok sv' ∧ emplaceAll sv Values = Ok sv' ∧ inv sv' ∧
      TheVector sv' ≡ₚ TheVector sv ++ Values) ∧
  (¬ NoDup (key <$> (TheVector sv ++ Values)) → batch true sv Values = Fault AssertionFailed).
Proof.
  intros Hinv. rewrite batch_sort by done.
  destruct (sort_true_spec (mkSV (TheVector sv ++ Values) false) eq_refl)
    as [(Hnd & s1 & -> & I1 & P1)|[Hnd ->]]; (split; [|done]); [|done].
  intros _. destruct (emplaceAll_spec sv Values Hinv Hnd) as (s2 & -> & I2 & P2).
  exists s1. split_and!; try done. f_equal. simpl in P1.
  destruct s1 as [v f], s2 as [v' f'], I1 as [Hs Hf], I2 as [Hs' Hf']. simpl in *. subst. f_equal.
  apply sorted_perm_eq; [done..|]. by rewrite P1, P2.
Qed.

Lemma batch_insert_unique_witness :
  @batch _ _ pairs insertionSort true samplePairs [(3, 31)]%Z = Fault AssertionFailed.
Proof.
  apply (@batch_insert_unique _ _ pairs pairs_laws insertionSort samplePairs [(3, 31)]%Z samplePairs_inv).
  simpl. rewrite !NoDup_cons. set_solver.
Defined.

(** While a batch is in progress every operation of the container fails its
    assertion and leaves it untouched; only appending to the batch and
    committing it are possible, and committing an inserter twice does nothing. *)
Theorem batch_excludes_operations {T K} `{KO : KeyedObject T K, !StdSort} sv Key Value :
  BatchInsertInProgress sv = true →
  find sv Key = Fault AssertionFailed ∧ contains sv Key = Fault AssertionFailed ∧
  count sv Key = Fault AssertionFailed ∧ at_ sv Key = Fault AssertionFailed ∧
  lower_bound sv Key = Fault AssertionFailed ∧ upper_bound sv Key = Fault AssertionFailed ∧
  emplace sv Value = Fault AssertionFailed ∧ emplace_or_assign sv Value = Fault AssertionFailed ∧
  index sv Key = Fault AssertionFailed ∧ erase sv Key = Fault AssertionFailed ∧
  (∀ f, erase_if sv f = Fault AssertionFailed) ∧ clear sv = Fault AssertionFailed ∧
  size sv = Fault AssertionFailed ∧ empty sv = Fault AssertionFailed ∧
  (∀ o, swap sv o = Fault AssertionFailed) ∧ batchBegin sv = Fault AssertionFailed ∧
  (∀ u Values, batch u sv Values = Fault AssertionFailed) ∧
  batchEmplace sv Value = Ok (mkSV (TheVector sv ++ [Value]) true) ∧
  (∀ u sv', commit u sv = Ok sv' → BatchInsertInProgress sv' = false ∧ commit u sv' = Ok sv').
Proof.
  destruct sv as [v f]. simpl. intros ->. split_and!; try done.
  intros u sv' Hc. assert (BatchInsertInProgress sv' = false) as Hf.
  { unfold commit, sort in Hc. simpl in Hc. destruct u; invert_ok; [by subst|].
    destruct r as [v' n]. by invert_ok; subst. }
  split; [done|]. unfold commit. by rewrite Hf.
Qed.

Lemma batch_excludes_operations_witness :
  @erase _ _ pairs (mkSV [(1, 10)]%Z true) 1%Z = Fault AssertionFailed.
Proof.
  apply (@batch_excludes_operations _ _ pairs insertionSort (mkSV [(1, 10)]%Z true) 1%Z (0, 0)%Z eq_refl).
Defined.

(** [unique_last] moves an element onto itself whenever no element before it
    was dropped: two elements in order with different keys come out of the
    constructor as the first element and the state a move from itself leaves the
    second in. *)
Theorem unique_last_self_moves {T K} `{KO : KeyedObject T K, !KeyedObjectLaws T K, !StdSort} (x y : T) :
  Compare (key x) (key y) = true → fromList [x; y] = Ok (mkSV [x; self_moved y] false).
Proof.
  intros Hxy. unfold fromList. rewrite batch_sort by (split; [constructor|done]).
  unfold sort. simpl. unfold compareElements, compareKeys. rewrite (Compare_asym _ _ Hxy).
  unfold unique_last. simpl. unfold elementsEqual, keysEqual, compareKeys. rewrite Hxy. done.
Qed.

(** Pairs whose payload is emptied by a move, also by one onto itself. *)
Definition emptied : KeyedObject (Z * Z) Z := {|
  key := fst; fromKey k := (k, 0%Z); Compare := Z.ltb;
  moved_from e := (fst e, 0%Z); self_moved e := (fst e, 0%Z);
|}.

Lemma emptied_laws : @KeyedObjectLaws _ _ emptied.
Proof. destruct pairs_laws. by split. Qed.

Lemma unique_last_self_moves_witness :
  @fromList _ _ emptied insertionSort [(1, 10); (2, 20)]%Z = Ok (mkSV [(1, 10); (2, 0)]%Z false).
Proof.
  apply (@unique_last_self_moves _ _ emptied emptied_laws insertionSort (1, 10)%Z (2, 20)%Z eq_refl).
Defined.
