(* ===== verification/ZipMap.v ===== *)
(** * Walking two sorted containers together

    [ZipMapIterator] (include/revng/ADT/ZipMapIterator.h): an iterator over two
    containers sorted by the same keys that pairs the elements with equal keys. *)

From S2P Require Import Prelude.
From stdpp Require Import sorting.
Local Open Scope Z_scope.

Section zipmap.
  Context {A B : Type} (compare : A → B → Z).

(** The inner iterators are the elements still ahead of them; [Current] holds
    the pointers to the current elements, [None] for null. *)
(* include/revng/ADT/ZipMapIterator.h:137-142 ZipMapIterator *)
Record ZipMapIterator := mkZip {
  Current : option A * option B;
  LeftIt : list A;
  RightIt : list B;
}.

(* include/revng/ADT/ZipMapIterator.h:174-208 ZipMapIterator::next *)
Definition next (It : ZipMapIterator) : outcome ZipMapIterator :=
  match LeftIt It, RightIt It with
  | l :: ls, r :: rs =>
      match compare l r with
      | 0 => Ok (mkZip (Some l, Some r) ls rs)
      | -1 => Ok (mkZip (Some l, None) ls (r :: rs))
      | 1 => Ok (mkZip (None, Some r) (l :: ls) rs)
      | _ => revng_abort
      end
  | l :: ls, [] => Ok (mkZip (Some l, None) ls [])
  | [], r :: rs => Ok (mkZip (None, Some r) [] rs)
  | [], [] => Ok (mkZip (None, None) [] [])
  end.

(* include/revng/ADT/ZipMapIterator.h:145-152 ZipMapIterator::ZipMapIterator *)
Definition zipmap_begin (Left : list A) (Right : list B) : outcome ZipMapIterator :=
  next (mkZip (None, None) Left Right).

(** Comparison with the end iterator, both of whose inner iterators are at the
    end and whose pointers are null. *)
(* include/revng/ADT/ZipMapIterator.h:158-164 ZipMapIterator::operator== *)
Definition atEnd (It : ZipMapIterator) : bool :=
  match LeftIt It, RightIt It, Current It with
  | [], [], (None, None) => true
  | _, _, _ => false
  end.

(** The elements a loop over the range visits; [fuel] bounds their number. *)
(* include/revng/ADT/ZipMapIterator.h:166-171 ZipMapIterator::operator++, operator* *)
Fixpoint visit (fuel : nat) (It : ZipMapIterator) : outcome (list (option A * option B)) :=
  match fuel with
  | O => Ok []
  | S fuel =>
      if atEnd It then Ok []
      else It' ← next It; rest ← visit fuel It'; Ok (Current It :: rest)
  end.

(* include/revng/ADT/ZipMapIterator.h:234-243 zipmap_range *)
Definition zipmap_range (Left : list A) (Right : list B) : outcome (list (option A * option B)) :=
  It ← zipmap_begin Left Right; visit (S (length Left + length Right)) It.
End zipmap.

(** The comparator on keys. *)
(* include/revng/ADT/ZipMapIterator.h:91-106 DefaultComparator::compare *)
Definition defaultCompare {A B K} (Less : K → K → bool) (leftKey : A → K) (rightKey : B → K)
    (LHS : A) (RHS : B) : Z :=
  let LHSKey := leftKey LHS in
  let RHSKey := rightKey RHS in
  if Less LHSKey RHSKey then -1 else if Less RHSKey LHSKey then 1 else 0.

(** Containers whose elements are equal one by one. *)
Lemma visit_equal {A B} (compare : A → B → Z) L R fuel c :
  Forall2 (λ a b, compare a b = 0) L R → (length L < fuel)%nat → c ≠ (None, None) →
  visit compare fuel (mkZip c L R) = Ok (c :: zip_with (λ a b, (Some a, Some b)) L R).
Proof.
  intros Hf. revert fuel c. induction Hf as [|a b L R Hab Hf IH]; intros fuel c Hfuel Hc.
  - destruct fuel as [|fuel]; [simpl in Hfuel; lia|]. cbn [visit].
    assert (atEnd (mkZip c [] ([] : list B)) = false) as -> by by destruct c as [[|] [|]].
    cbn [next LeftIt RightIt]. rewrite bind_ok. by destruct fuel.
  - destruct fuel as [|fuel]; [simpl in Hfuel; lia|]. cbn [visit].
    assert (atEnd (mkZip c (a :: L) (b :: R)) = false) as -> by done.
    cbn [next LeftIt RightIt]. rewrite Hab, bind_ok, IH by (done || simpl in *; lia). done.
Qed.

Lemma zipmap_equal {A B} (compare : A → B → Z) L R :
  Forall2 (λ a b, compare a b = 0) L R →
  zipmap_range compare L R = Ok (zip_with (λ a b, (Some a, Some b)) L R).
Proof.
  intros Hf. unfold zipmap_range, zipmap_begin. destruct Hf as [|a b L R Hab Hf]; [done|].
  cbn [next LeftIt RightIt]. rewrite Hab, bind_ok. apply visit_equal; [done|simpl; lia|done].
Qed.

(** ** The outer join *)

(** The specification: every element appears once, with the one of equal key on
    the other side if there is one, and the keys increase. *)
Section join.
  #[local] Set Default Proof Using "Type*".
  Context {A B K : Type} (leftKey : A → K) (rightKey : B → K) (Less : K → K → bool).

Definition keyOf (p : option A * option B) : option K :=
  match p with
  | (Some a, _) => Some (leftKey a)
  | (None, Some b) => Some (rightKey b)
  | (None, None) => None
  end.

Record joins (L : list A) (R : list B) (J : list (option A * option B)) : Prop := {
  joins_left : omap fst J = L;
  joins_right : omap snd J = R;
  joins_equal : Forall (λ p, match p with
                             | (Some a, Some b) => leftKey a = rightKey b
                             | (None, None) => False
                             | _ => True
                             end) J;
  joins_sorted : StronglySorted (λ k k', Less k k' = true) (omap keyOf J);
}.

(** What the comparator has to be, on the elements that satisfy [PA] and [PB]. *)
Context (PA : A → Prop) (PB : B → Prop).

Record agrees (compare : A → B → Z) : Prop := {
  agrees_lt a b : PA a → PB b → Less (leftKey a) (rightKey b) = true → compare a b = -1;
  agrees_gt a b : PA a → PB b → Less (rightKey b) (leftKey a) = true → compare a b = 1;
  agrees_eq a b : PA a → PB b → leftKey a = rightKey b → compare a b = 0;
}.

Context (Less_trans : ∀ x y z, Less x y = true → Less y z = true → Less x z = true).
Context (Less_total : ∀ x y, Less x y = true ∨ x = y ∨ Less y x = true).

(** The default comparator does. *)
Lemma defaultCompare_agrees :
  (∀ x, Less x x = false) → agrees (defaultCompare Less leftKey rightKey).
Proof using Less_trans.
  intros Hirr. unfold defaultCompare. split; intros a b _ _ Hab.
  - by rewrite Hab.
  - rewrite Hab. destruct (Less (leftKey a) (rightKey b)) eqn:Hba; [|done].
    pose proof (Less_trans _ _ _ Hab Hba) as Hbb. by rewrite Hirr in Hbb.
  - by rewrite Hab, Hirr.
Qed.

(** The join as a recursive function of the two lists. *)
Fixpoint joinFuel (compare : A → B → Z) (fuel : nat) (L : list A) (R : list B) :
    list (option A * option B) :=
  match fuel with
  | O => []
  | S fuel =>
      match L, R with
      | [], [] => []
      | a :: L, [] => (Some a, None) :: joinFuel compare fuel L []
      | [], b :: R => (None, Some b) :: joinFuel compare fuel [] R
      | a :: L', b :: R' =>
          match compare a b with
          | 0 => (Some a, Some b) :: joinFuel compare fuel L' R'
          | -1 => (Some a, None) :: joinFuel compare fuel L' R
          | _ => (None, Some b) :: joinFuel compare fuel L R'
          end
      end
  end.

Lemma visit_joinFuel compare fuel fuel' c L R :
  agrees compare → Forall PA L → Forall PB R →
  (length L + length R < fuel)%nat → (length L + length R ≤ fuel')%nat → c ≠ (None, None) →
  visit compare fuel (mkZip c L R) = Ok (c :: joinFuel compare fuel' L R).
Proof.
  intros Hc. revert fuel' c L R. induction fuel as [|fuel IH]; intros fuel' c L R HPA HPB Hf Hf' Hne; [lia|].
  assert (atEnd (mkZip c L R) = false) as Hend.
  { unfold atEnd. destruct c as [[|] [|]], L, R; simpl; done. }
  cbn [visit]. rewrite Hend.
  destruct L as [|a L], R as [|b R]; cbn [next LeftIt RightIt]; simpl in Hf, Hf'.
  all: try (apply Forall_cons in HPA as [Pa HPA']); try (apply Forall_cons in HPB as [Pb HPB']).
  - destruct fuel, fuel'; done.
  - destruct fuel' as [|fuel']; [lia|]. rewrite bind_ok, (IH fuel') by (done || (by constructor) || simpl; lia). done.
  - destruct fuel' as [|fuel']; [lia|]. rewrite bind_ok, (IH fuel') by (done || (by constructor) || simpl; lia). done.
  - destruct fuel' as [|fuel']; [lia|]. cbn [joinFuel].
    destruct (Less_total (leftKey a) (rightKey b)) as [Hlt|[Heq|Hgt]].
    + rewrite (agrees_lt _ Hc), bind_ok, (IH fuel') by (done || (by constructor) || simpl; lia). done.
    + rewrite (agrees_eq _ Hc), bind_ok, (IH fuel') by (done || (by constructor) || simpl; lia). done.
    + rewrite (agrees_gt _ Hc), bind_ok, (IH fuel') by (done || (by constructor) || simpl; lia). done.
Qed.

Definition leftSorted (L : list A) : Prop :=
  StronglySorted (λ a a', Less (leftKey a) (leftKey a') = true) L.
Definition rightSorted (R : list B) : Prop :=
  StronglySorted (λ b b', Less (rightKey b) (rightKey b') = true) R.

(** Every key of a join is a key of one of the lists. *)
Lemma joins_keys L R J (P : K → Prop) :
  joins L R J → Forall (λ a, P (leftKey a)) L → Forall (λ b, P (rightKey b)) R →
  Forall P (omap keyOf J).
Proof.
  intros [HL HR _ _] PL PR. subst L R. induction J as [|[[a|] [b|]] J IH]; simpl in *; [done|..].
  - apply Forall_cons in PL as [? ?], PR as [? ?]. constructor; auto.
  - apply Forall_cons in PL as [? ?]. constructor; auto.
  - apply Forall_cons in PR as [? ?]. constructor; auto.
  - auto.
Qed.

(** The elements of a join, taken from it. *)
Lemma joins_inv p L R J :
  joins L R (p :: J) → ∃ L' R' k, L = option_list (fst p) ++ L' ∧ R = option_list (snd p) ++ R' ∧ keyOf p = Some k ∧
    match p with (Some a, Some b) => leftKey a = rightKey b | (None, None) => False | _ => True end ∧
    joins L' R' J ∧ Forall (λ k', Less k k' = true) (omap keyOf J).
Proof using Type.
  intros [JL JR JE JS]. apply Forall_cons in JE as [Jp JE].
  assert (∃ k, keyOf p = Some k) as [k Hk] by (destruct p as [[a|] [b|]]; try done; by eexists).
  change (omap keyOf (p :: J)) with (match keyOf p with Some k => k :: omap keyOf J | None => omap keyOf J end) in JS.
  rewrite Hk in JS. apply StronglySorted_cons in JS as [Hlt JS].
  exists (omap fst J), (omap snd J), k. split; [by subst L; destruct p as [[a|] [b|]]|].
  split; [by subst R; destruct p as [[a|] [b|]]|]. split; [done|]. split; [done|]. split; [|done]. by split.
Qed.

Lemma joins_elements L R J (P : K → Prop) :
  joins L R J → Forall P (omap keyOf J) → Forall (λ a, P (leftKey a)) L ∧ Forall (λ b, P (rightKey b)) R.
Proof using Type.
  revert L R. induction J as [|p J IH]; intros L R HJ HP.
  - destruct HJ as [<- <- _ _]. by split.
  - destruct (joins_inv _ _ _ _ HJ) as (L' & R' & k & -> & -> & Hk & Hp & HJ' & _).
    change (omap keyOf (p :: J)) with (match keyOf p with Some k => k :: omap keyOf J | None => omap keyOf J end) in HP.
    rewrite Hk in HP. apply Forall_cons in HP as [Pk HP]. destruct (IH L' R' HJ' HP) as [HL HR].
    destruct p as [[a|] [b|]]; cbn in Hk, Hp |- *; simplify_eq; try done; (split; [|]); try done; try (by constructor).
    constructor; [|done]. by rewrite <-Hp.
Qed.

Lemma joins_cons p L R J k :
  keyOf p = Some k →
  match p with (Some a, Some b) => leftKey a = rightKey b | _ => True end →
  joins L R J → Forall (λ a, Less k (leftKey a) = true) L →
  Forall (λ b, Less k (rightKey b) = true) R →
  joins (option_list (fst p) ++ L) (option_list (snd p) ++ R) (p :: J).
Proof.
  intros Hk Heq HJ HL HR. pose proof (joins_keys L R J (λ k', Less k k' = true) HJ HL HR) as Hkeys.
  destruct HJ as [JL JR JE JS]. subst. split.
  - by destruct p as [[a|] [b|]].
  - by destruct p as [[a|] [b|]].
  - constructor; [|done]. by destruct p as [[a|] [b|]].
  - change (omap keyOf (p :: J)) with
      (match keyOf p with Some k => k :: omap keyOf J | None => omap keyOf J end).
    rewrite Hk. by constructor.
Qed.

Lemma Forall_Less_trans {C} (key : C → K) k k' (l : list C) :
  Less k k' = true → Forall (λ c, Less k' (key c) = true) l → Forall (λ c, Less k (key c) = true) l.
Proof. intros Hk Hf. eapply Forall_impl; [exact Hf|]. intros c. simpl. by apply Less_trans. Qed.

Lemma joinFuel_joins compare fuel L R :
  agrees compare → Forall PA L → Forall PB R → leftSorted L → rightSorted R →
  (length L + length R ≤ fuel)%nat →
  joins L R (joinFuel compare fuel L R).
Proof.
  intros Hc. revert L R. induction fuel as [|fuel IH]; intros L R HPA HPB HL HR Hf.
  - destruct L, R; simpl in Hf; try lia. split; constructor.
  - destruct L as [|a L], R as [|b R]; cbn [joinFuel].
    all: pose proof HPA as HPL; pose proof HPB as HPR.
    all: try (apply Forall_cons in HPA as [Pa HPA']); try (apply Forall_cons in HPB as [Pb HPB']).
    + split; constructor.
    + apply StronglySorted_cons in HR as [Hb HR].
      apply (joins_cons (None, Some b) [] R _ (rightKey b)); [done|done| |done|done].
      apply IH; [done|done|done|done|simpl in *; lia].
    + apply StronglySorted_cons in HL as [Ha HL].
      apply (joins_cons (Some a, None) L [] _ (leftKey a)); [done|done| |done|done].
      apply IH; [done|done|done|done|simpl in *; lia].
    + pose proof HL as HL'. pose proof HR as HR'.
      apply StronglySorted_cons in HL as [Ha HL], HR as [Hb HR]. simpl in Hf.
      destruct (Less_total (leftKey a) (rightKey b)) as [Hlt|[Heq|Hgt]].
      * rewrite (agrees_lt _ Hc) by done.
        apply (joins_cons (Some a, None) L (b :: R) _ (leftKey a)); [done|done| |done|].
        -- apply IH; [done|done|done|done|simpl; lia].
        -- constructor; [done|]. by eapply Forall_Less_trans.
      * rewrite (agrees_eq _ Hc) by done.
        apply (joins_cons (Some a, Some b) L R _ (leftKey a)); [done|done| |done|by rewrite Heq].
        apply IH; [done|done|done|done|lia].
      * rewrite (agrees_gt _ Hc) by done.
        apply (joins_cons (None, Some b) (a :: L) R _ (rightKey b)); [done|done| | |done].
        -- apply IH; [done|done|done|done|simpl; lia].
        -- constructor; [done|]. by eapply Forall_Less_trans.
Qed.

Lemma zipmap_joinFuel compare L R :
  agrees compare → Forall PA L → Forall PB R →
  zipmap_range compare L R = Ok (joinFuel compare (S (length L + length R)) L R).
Proof.
  intros Hc HPA HPB. unfold zipmap_range, zipmap_begin.
  destruct L as [|a L], R as [|b R]; cbn [next LeftIt RightIt joinFuel].
  all: try (apply Forall_cons in HPA as [Pa HPA']); try (apply Forall_cons in HPB as [Pb HPB']).
  - done.
  - rewrite bind_ok. apply visit_joinFuel; (done || (by constructor) || simpl; lia).
  - rewrite bind_ok. apply visit_joinFuel; (done || (by constructor) || simpl; lia).
  - destruct (Less_total (leftKey a) (rightKey b)) as [Hlt|[Heq|Hgt]].
    + rewrite (agrees_lt _ Hc), bind_ok by done. apply visit_joinFuel; (done || (by constructor) || simpl; lia).
    + rewrite (agrees_eq _ Hc), bind_ok by done. apply visit_joinFuel; (done || (by constructor) || simpl; lia).
    + rewrite (agrees_gt _ Hc), bind_ok by done. apply visit_joinFuel; (done || (by constructor) || simpl; lia).
Qed.

Lemma zipmap_joins compare L R :
  agrees compare → Forall PA L → Forall PB R → leftSorted L → rightSorted R →
  ∃ J, zipmap_range compare L R = Ok J ∧ joins L R J.
Proof.
  intros Hc HPA HPB HL HR. exists (joinFuel compare (S (length L + length R)) L R).
  split; [by apply zipmap_joinFuel|]. apply joinFuel_joins; auto; lia.
Qed.
End join.

(** The join the other way around, and of elements that carry something else. *)
Definition swapPair {A B} (p : option A * option B) : option B * option A := (p.2, p.1).

Lemma joinFuel_swap {A B} (compare : A → B → Z) (compare' : B → A → Z) fuel L R :
  (∀ a b, compare' b a = - compare a b) → (∀ a b, compare a b = -1 ∨ compare a b = 0 ∨ compare a b = 1) →
  joinFuel compare' fuel R L = map swapPair (joinFuel compare fuel L R).
Proof.
  intros Hs Hc. revert L R. induction fuel as [|fuel IH]; intros L R; [done|]. cbn [joinFuel].
  destruct L as [|a L], R as [|b R]; cbn [map swapPair fst snd]; [done|by rewrite IH..|].
  rewrite Hs. destruct (Hc a b) as [Hab|[Hab|Hab]]; rewrite Hab; simpl; f_equal; apply IH.
Qed.

Lemma joinFuel_map {A A' B} (f : A → A') (compare : A → B → Z) (compare' : A' → B → Z) fuel L R :
  (∀ a b, compare' (f a) b = compare a b) →
  joinFuel compare' fuel (map f L) R = map (λ p, (f <$> p.1, p.2)) (joinFuel compare fuel L R).
Proof.
  intros Hs. revert L R. induction fuel as [|fuel IH]; intros L R; [done|].
  destruct L as [|a L], R as [|b R]; cbn [map joinFuel]; [done| | |].
  - cbn. f_equal. apply (IH [] R).
  - cbn. f_equal. apply (IH L []).
  - rewrite Hs. destruct (compare a b) as [|p|p]; simpl; [f_equal; apply IH|f_equal; apply (IH (a :: L) R)|].
    destruct p; simpl; f_equal; first [apply (IH (a :: L) R)|apply (IH L (b :: R))].
Qed.

(** On two containers sorted by key, the loop over [zipmap_range] terminates
    and visits their outer join: every element of each container once and in
    order, elements of equal keys together, keys in strictly increasing order. *)
Theorem zipmap_outer_join {A B K} (leftKey : A → K) (rightKey : B → K) (Less : K → K → bool) L R :
  (∀ x y z, Less x y = true → Less y z = true → Less x z = true) →
  (∀ x, Less x x = false) →
  (∀ x y, Less x y = true ∨ x = y ∨ Less y x = true) →
  leftSorted leftKey Less L → rightSorted rightKey Less R →
  ∃ J, zipmap_range (defaultCompare Less leftKey rightKey) L R = Ok J ∧
    joins leftKey rightKey Less L R J.
Proof.
  intros Htr Hirr Htot HL HR. apply (zipmap_joins _ _ _ (λ _, True) (λ _, True) Htr Htot);
    [|by apply Forall_true|by apply Forall_true|done|done].
  by apply defaultCompare_agrees.
Qed.

Lemma zipmap_outer_join_witness :
  ∃ J, zipmap_range (defaultCompare Z.ltb fst snd) [(1, 10); (3, 30)] [(20, 2); (33, 3)] = Ok J ∧
    joins fst snd Z.ltb [(1, 10); (3, 30)] [(20, 2); (33, 3)] J.
Proof.
  apply (zipmap_outer_join fst snd Z.ltb [(1, 10); (3, 30)] [(20, 2); (33, 3)]).
  - intros x y z. rewrite !Z.ltb_lt. lia.
  - apply Z.ltb_irrefl.
  - intros x y. rewrite !Z.ltb_lt. lia.
  - repeat constructor.
  - repeat constructor.
Defined.
