(* ===== verification/ConstantRangeSet.v ===== *)
(** * Sets of integers as boundaries

    [ConstantRangeSet] (include/revng/ADT/ConstantRangeSet.h): a set of integers
    of a fixed width, kept as the increasing list of the values at which
    membership flips, starting from "outside". *)

From S2P Require Import Prelude.
From S2P Require Import LLVMInterfaces.
From S2P Require Import ZipMap.
From stdpp Require Import sorting.
Local Open Scope Z_scope.

(** ** [llvm::ConstantRange]

    A half-open, possibly wrapping range; equal bounds stand for the full or for
    the empty set. *)
Class LLVMConstantRange `{!APIntOps} := {
  ConstantRange : Type;
  getRangeWidth : ConstantRange → Z;
  getLower : ConstantRange → APInt;
  getUpper : ConstantRange → APInt;
  rangeIsFull : ConstantRange → bool;
  rangeIsEmpty : ConstantRange → bool;
  rangeIsWrapped : ConstantRange → bool;
  rangeContains : ConstantRange → Z → bool;
}.

Class LLVMConstantRangeLaws `{!APIntOps, !LLVMConstantRange} : Prop := {
  range_width R : 0 ≤ getRangeWidth R;
  lower_width R : getBitWidth (getLower R) = getRangeWidth R;
  upper_width R : getBitWidth (getUpper R) = getRangeWidth R;
  full_contains R n : rangeIsFull R = true → in_width (getRangeWidth R) n → rangeContains R n = true;
  empty_contains R n : rangeIsEmpty R = true → rangeContains R n = false;
  bounds_differ R : rangeIsFull R = false → rangeIsEmpty R = false →
    getValue (getLower R) ≠ getValue (getUpper R);
  wrapped_spec R : rangeIsFull R = false → rangeIsEmpty R = false →
    rangeIsWrapped R = (getValue (getUpper R) <? getValue (getLower R)) &&
                       negb (getValue (getUpper R) =? 0);
  contains_spec R n : rangeIsFull R = false → rangeIsEmpty R = false →
    in_width (getRangeWidth R) n →
    rangeContains R n =
      if getValue (getLower R) <? getValue (getUpper R)
      then (getValue (getLower R) <=? n) && (n <? getValue (getUpper R))
      else (getValue (getLower R) <=? n) || (n <? getValue (getUpper R));
}.

(** ** The set *)

Section operations.
  Context `{!APIntOps}.

(* include/revng/ADT/ConstantRangeSet.h:105-108 ConstantRangeSet *)
Record ConstantRangeSet := mkCRS {
  Bounds : list APInt;
  BitWidth : Z;
}.

(* include/revng/ADT/ConstantRangeSet.h:111-111 ConstantRangeSet::ConstantRangeSet() *)
Definition default : ConstantRangeSet := mkCRS [] 0.

(* include/revng/ADT/ConstantRangeSet.h:113-116 ConstantRangeSet(uint32_t, bool) *)
Definition make (BitWidth : Z) (IsFullSet : bool) : ConstantRangeSet :=
  mkCRS (if IsFullSet then [mkAPInt BitWidth 0] else []) BitWidth.

(* include/revng/ADT/ConstantRangeSet.h:118-134 ConstantRangeSet(llvm::ConstantRange) *)
Definition fromRange `{!LLVMConstantRange} (Range : ConstantRange) : ConstantRangeSet :=
  let BitWidth := getRangeWidth Range in
  mkCRS
    (if rangeIsFull Range then [mkAPInt BitWidth 0]
     else if rangeIsEmpty Range then []
     else if rangeIsWrapped Range then [mkAPInt BitWidth 0; getUpper Range; getLower Range]
     else if negb (ap_eq (getUpper Range) (mkAPInt BitWidth 0))
          then [getLower Range; getUpper Range] else [getLower Range])
    BitWidth.

(* include/revng/ADT/ConstantRangeSet.h:195-195 ConstantRangeSet::isEmptySet *)
Definition isEmptySet (S : ConstantRangeSet) : bool := bool_decide (length (Bounds S) = 0%nat).

(* include/revng/ADT/ConstantRangeSet.h:192-194 ConstantRangeSet::isFullSet *)
Definition isFullSet (S : ConstantRangeSet) : bool :=
  match Bounds S with [b] => ap_isZero b | _ => false end.

(* include/revng/ADT/ConstantRangeSet.h:137-151 ConstantRangeSet::complement *)
Definition complement (S : ConstantRangeSet) : ConstantRangeSet :=
  match Bounds S with
  | [] => make (BitWidth S) true
  | b :: bs =>
      if ap_isZero b then mkCRS bs (BitWidth S)
      else mkCRS (mkAPInt (BitWidth S) 0 :: b :: bs) (BitWidth S)
  end.

(* include/revng/ADT/ConstantRangeSet.h:16-25 APIntVectorKeyContainer::compare *)
Definition compareAPInt (LHS RHS : APInt) : Z :=
  if ap_eq LHS RHS then 0 else if ap_ult LHS RHS then -1 else 1.

(** The body of the loop of [merge] over the pairs of boundaries. *)
(* include/revng/ADT/ConstantRangeSet.h:325-350 ConstantRangeSet::merge *)
Fixpoint mergeLoop (And : bool) (ResultBitWidth : Z) (pairs : list (option APInt * option APInt))
    (LastOutput LeftActive RightActive : bool) (Result : list APInt) : outcome (list APInt) :=
  match pairs with
  | [] => Ok Result
  | (Left, Right) :: pairs =>
      LeftActive ← match Left with
                   | Some l => revng_assert (getBitWidth l =? ResultBitWidth);; Ok (negb LeftActive)
                   | None => Ok LeftActive
                   end;
      RightActive ← match Right with
                    | Some r => revng_assert (getBitWidth r =? ResultBitWidth);; Ok (negb RightActive)
                    | None => Ok RightActive
                    end;
      let Value := match Left with None => Right | Some _ => Left end in
      match Value with
      | None => Fault AssertionFailed
      | Some Value =>
          let NewOutput := if And then LeftActive && RightActive else LeftActive || RightActive in
          let Result := if xorb NewOutput LastOutput then Result ++ [Value] else Result in
          mergeLoop And ResultBitWidth pairs NewOutput LeftActive RightActive Result
      end
  end.

(* include/revng/ADT/ConstantRangeSet.h:310-353 ConstantRangeSet::merge *)
Definition merge (And : bool) (S Other : ConstantRangeSet) : outcome ConstantRangeSet :=
  let ResultBitWidth := Z.max (BitWidth S) (BitWidth Other) in
  revng_assert ((BitWidth S =? 0) || (BitWidth Other =? 0) || (BitWidth S =? BitWidth Other));;
  pairs ← zipmap_range compareAPInt (Bounds S) (Bounds Other);
  bs ← mergeLoop And ResultBitWidth pairs false false false [];
  Ok (mkCRS bs ResultBitWidth).

(* include/revng/ADT/ConstantRangeSet.h:153-159 ConstantRangeSet::unionWith *)
Definition unionWith (S Other : ConstantRangeSet) : outcome ConstantRangeSet := merge false S Other.

(* include/revng/ADT/ConstantRangeSet.h:161-167 ConstantRangeSet::intersectWith *)
Definition intersectWith (S Other : ConstantRangeSet) : outcome ConstantRangeSet :=
  merge true S Other.

(** Vectors of integers are equal when they have the same length and equal
    elements. *)
Fixpoint boundsEqual (l r : list APInt) : bool :=
  match l, r with
  | [], [] => true
  | a :: l, b :: r => ap_eq a b && boundsEqual l r
  | _, _ => false
  end.

(* include/revng/ADT/ConstantRangeSet.h:173-175 ConstantRangeSet::operator== *)
Definition equal (S Other : ConstantRangeSet) : bool := boundsEqual (Bounds S) (Bounds Other).

(* include/revng/ADT/ConstantRangeSet.h:169-171 ConstantRangeSet::contains *)
Definition contains (S Other : ConstantRangeSet) : outcome bool :=
  I ← intersectWith S Other; Ok (equal I Other).

(* include/revng/ADT/ConstantRangeSet.h:177-182 ConstantRangeSet::setWidth *)
Definition setWidth (S : ConstantRangeSet) (NewBitWidth : Z) : outcome ConstantRangeSet :=
  if BitWidth S =? 0 then Ok (mkCRS (Bounds S) NewBitWidth)
  else revng_assert (BitWidth S =? NewBitWidth);; Ok S.

(** The loop of [size]; [Last] is the pending lower boundary. *)
(* include/revng/ADT/ConstantRangeSet.h:205-219 ConstantRangeSet::size *)
Fixpoint sizeLoop (SizeBitWidth : Z) (bs : list APInt) (Last : option APInt) (Size : APInt) : APInt :=
  match bs with
  | [] =>
      match Last with
      | Some Last =>
          ap_add Size (ap_sub (getHighBitsSet SizeBitWidth 1) (ap_zext Last SizeBitWidth))
      | None => Size
      end
  | N :: bs =>
      match Last with
      | None => sizeLoop SizeBitWidth bs (Some N) Size
      | Some Last =>
          sizeLoop SizeBitWidth bs None (ap_add Size (ap_zext (ap_sub N Last) SizeBitWidth))
      end
  end.

(* include/revng/ADT/ConstantRangeSet.h:197-222 ConstantRangeSet::size *)
Definition size (S : ConstantRangeSet) : APInt :=
  let SizeBitWidth := BitWidth S + 1 in
  sizeLoop SizeBitWidth (Bounds S) None (mkAPInt SizeBitWidth 0).

(* include/revng/ADT/ConstantRangeSet.h:239-257 ConstantRangeSet::changeSize *)
Definition changeSize (S : ConstantRangeSet) (NewSize : Z) (SignExtend : bool) : ConstantRangeSet :=
  let OldSize := BitWidth S in
  if NewSize =? OldSize then S
  else if OldSize <? NewSize then
    mkCRS ((λ b, if SignExtend then ap_sext b NewSize else ap_zext b NewSize) <$> Bounds S) NewSize
  else mkCRS ((λ b, ap_trunc b NewSize) <$> Bounds S) NewSize.

(* include/revng/ADT/ConstantRangeSet.h:225-230 ConstantRangeSet::zext *)
Definition zext (S : ConstantRangeSet) (NewSize : Z) : outcome ConstantRangeSet :=
  revng_assert (BitWidth S <=? NewSize);; Ok (changeSize S NewSize false).

(* include/revng/ADT/ConstantRangeSet.h:232-237 ConstantRangeSet::sext *)
Definition sext (S : ConstantRangeSet) (NewSize : Z) : outcome ConstantRangeSet :=
  revng_assert (BitWidth S <=? NewSize);; Ok (changeSize S NewSize true).

(** *** The iterator *)

(** [NextBound] is the part of the boundaries it points to. *)
(* include/revng/ADT/ConstantRangeSet.h:33-40 ConstantRangeSetIterator *)
Record ConstantRangeSetIterator := mkIt {
  ItCurrent : APInt;
  NextBound : list APInt;
  ToLast : bool;
  Done : bool;
}.

(* include/revng/ADT/ConstantRangeSet.h:43-53 ConstantRangeSetIterator::ConstantRangeSetIterator *)
Definition begin (S : ConstantRangeSet) : ConstantRangeSetIterator :=
  match Bounds S with
  | b :: bs => mkIt b bs (bool_decide (bs = [])) false
  | [] => mkIt (mkAPInt 1 0) [] false true
  end.

(* include/revng/ADT/ConstantRangeSet.h:65-87 ConstantRangeSetIterator::operator++ *)
Definition advance (It : ConstantRangeSetIterator) : outcome ConstantRangeSetIterator :=
  revng_assert (negb (Done It));;
  if ToLast It && ap_isMaxValue (ItCurrent It)
  then Ok (mkIt (ItCurrent It) (NextBound It) (ToLast It) true)
  else
    let Current := ap_inc (ItCurrent It) in
    if ToLast It then Ok (mkIt Current (NextBound It) true false)
    else
      match NextBound It with
      | [] => undefined
      | b :: bs =>
          if ap_eq Current b then
            match bs with
            | [] => Ok (mkIt Current [] false true)
            | b' :: bs' => Ok (mkIt b' bs' (bool_decide (bs' = [])) false)
            end
          else Ok (mkIt Current (b :: bs) false false)
      end.

(** The values a loop from [begin()] to [end()] visits: it stops when the
    iterator is done; [fuel] bounds their number. *)
(* include/revng/ADT/ConstantRangeSet.h:55-63 ConstantRangeSetIterator::operator!= *)
Fixpoint visitAll (fuel : nat) (It : ConstantRangeSetIterator) : outcome (list APInt) :=
  if Done It then Ok []
  else
    match fuel with
    | O => undefined
    | S fuel => It' ← advance It; rest ← visitAll fuel It'; Ok (ItCurrent It :: rest)
    end.
End operations.

(** ** The set a list of boundaries stands for *)

(** Membership flips at every boundary not above [n]. *)
Fixpoint inside (vs : list Z) (n : Z) : bool :=
  match vs with
  | [] => false
  | v :: vs => xorb (v <=? n) (inside vs n)
  end.

Lemma inside_below vs n : Forall (λ v, n < v) vs → inside vs n = false.
Proof.
  induction 1 as [|v vs Hv _ IH]; [done|]. simpl. rewrite IH.
  by destruct (Z.leb_spec v n); [lia|].
Qed.

Lemma inside_app vs ws n : inside (vs ++ ws) n = xorb (inside vs n) (inside ws n).
Proof. induction vs as [|v vs IH]; simpl; [by destruct (inside ws n)|]. by rewrite IH, xorb_assoc. Qed.

Lemma inside_last_even vs n : Forall (λ v, v ≤ n) vs → inside vs n = Nat.odd (length vs).
Proof.
  induction 1 as [|v vs Hv _ IH]; [done|]. simpl inside. rewrite IH.
  destruct (Z.leb_spec v n); [|lia]. cbn [length]. rewrite Nat.odd_succ, <-Nat.negb_odd.
  by destruct (Nat.odd (length vs)).
Qed.

(** The boundaries of a set are determined by its elements. *)
Lemma inside_ext N vs ws :
  StronglySorted Z.lt vs → StronglySorted Z.lt ws →
  Forall (λ v, 0 ≤ v < N) vs → Forall (λ v, 0 ≤ v < N) ws →
  (∀ n, 0 ≤ n < N → inside vs n = inside ws n) → vs = ws.
Proof.
  revert ws. induction vs as [|v vs IH]; intros [|w ws] Hv Hw Hbv Hbw He; [done|..].
  - apply Forall_cons in Hbw as [Hb _]. apply StronglySorted_cons in Hw as [Hf _].
    specialize (He w Hb). simpl in He. rewrite Z.leb_refl, inside_below in He; [done|].
    eapply Forall_impl; [exact Hf|]. done.
  - apply Forall_cons in Hbv as [Hb _]. apply StronglySorted_cons in Hv as [Hf _].
    specialize (He v Hb). simpl in He. rewrite Z.leb_refl, inside_below in He; [done|].
    eapply Forall_impl; [exact Hf|]. done.
  - apply Forall_cons in Hbv as [Hb Hbv], Hbw as [Hb' Hbw].
    apply StronglySorted_cons in Hv as [Hf Hv], Hw as [Hf' Hw].
    assert (∀ a b l l', a < b → 0 ≤ a < N → Forall (Z.lt a) l → Forall (Z.lt b) l' →
      inside (a :: l) a ≠ inside (b :: l') a) as Hne.
    { intros a b l l' Hab _ Hl Hl'. simpl.
      rewrite Z.leb_refl, (inside_below l), (inside_below l'); try done.
      - destruct (Z.leb_spec b a); [lia|done].
      - eapply Forall_impl; [exact Hl'|]. simpl. lia. }
    assert (v = w) as ->.
    { destruct (Z.lt_total v w) as [Hlt|[Heq|Hlt]]; [exfalso|done|exfalso].
      - by apply (Hne v w vs ws Hlt Hb Hf Hf'), He.
      - by apply (Hne w v ws vs Hlt Hb' Hf' Hf); rewrite He. }
    f_equal. apply IH; try done. intros n Hn. specialize (He n Hn). simpl in He.
    by destruct (w <=? n), (inside vs n), (inside ws n).
Qed.

Lemma pairs_ind {A} (P : list A → Prop) :
  P [] → (∀ a, P [a]) → (∀ a b l, P l → P (a :: b :: l)) → ∀ l, P l.
Proof.
  intros H0 H1 H2 l. assert (P l ∧ ∀ a, P (a :: l)) as [? _]; [|done].
  induction l as [|b l [IH1 IH2]]; split; auto.
Qed.

Lemma StronglySorted_weaken {A} (R R' : A → A → Prop) l :
  (∀ x y, R x y → R' x y) → StronglySorted R l → StronglySorted R' l.
Proof.
  intros Hr. induction 1 as [|x l Hs IH Hf]; constructor; [done|].
  eapply Forall_impl; [exact Hf|]. auto.
Qed.

Lemma StronglySorted_fmap_iff {A B} (f : A → B) (R : B → B → Prop) l :
  StronglySorted R (f <$> l) ↔ StronglySorted (λ a a', R (f a) (f a')) l.
Proof.
  induction l as [|x l IH]; [by split; constructor|].
  by rewrite fmap_cons, !StronglySorted_cons, IH, Forall_fmap.
Qed.

Section facts.
  Context `{!APIntOps, !APIntLaws}.
  Implicit Types (S Other : ConstantRangeSet).
  #[local] Set Default Proof Using "Type*".

Definition valuesOf (bs : list APInt) : list Z := getValue <$> bs.

(** What every set the class builds satisfies: boundaries of the width of the
    set, in strictly increasing order. *)
Record inv S : Prop := {
  inv_width : 0 ≤ BitWidth S;
  inv_bounds : Forall (λ b, getBitWidth b = BitWidth S) (Bounds S);
  inv_sorted : StronglySorted Z.lt (valuesOf (Bounds S));
}.

Definition member S (n : Z) : bool := inside (valuesOf (Bounds S)) n.

Lemma values_range w bs :
  Forall (λ b, getBitWidth b = w) bs → Forall (λ v, 0 ≤ v < 2 ^ w) (valuesOf bs).
Proof.
  intros Hf. unfold valuesOf. rewrite Forall_fmap. eapply Forall_impl; [exact Hf|].
  intros b <-. simpl. apply ap_range.
Qed.

Lemma zero_value w : 0 ≤ w → getValue (mkAPInt w 0) = 0.
Proof. intros. rewrite mk_value by done. apply wrap_small. split; [done|]. by apply Z.pow_pos_nonneg. Qed.

Lemma make_inv w b : 0 ≤ w → inv (make w b).
Proof.
  intros Hw. unfold make. split; simpl; [done|..]; destruct b; repeat constructor.
  by apply mk_width.
Qed.

Lemma make_member w b n : 0 ≤ w → 0 ≤ n → member (make w b) n = b.
Proof.
  intros Hw Hn. unfold member, make. destruct b; [|done]. simpl. rewrite zero_value by done.
  by destruct (Z.leb_spec 0 n); [|lia].
Qed.

Lemma complement_spec S :
  inv S → inv (complement S) ∧ BitWidth (complement S) = BitWidth S ∧
    ∀ n, 0 ≤ n → member (complement S) n = negb (member S n).
Proof.
  intros [Hw Hb Hs]. unfold complement, member. destruct S as [[|b bs] w]; simpl in *.
  - split; [by apply make_inv|]. split; [done|]. intros n Hn. by apply (make_member w true).
  - rewrite isZero_value. apply Forall_cons in Hb as [Hb Hbs].
    apply StronglySorted_cons in Hs as [Hf Hs]. destruct (Z.eqb_spec (getValue b) 0) as [Hz|Hz].
    + split; [by split|]. split; [done|]. intros n Hn. simpl. rewrite Hz.
      destruct (Z.leb_spec 0 n); [|lia]. by destruct (inside _ n).
    + pose proof (ap_range b) as [Hb0 _]. split; [split; simpl|split].
      * done.
      * constructor; [by apply mk_width|]. by constructor.
      * rewrite zero_value by done. constructor; [by constructor|].
        constructor; [lia|]. eapply Forall_impl; [exact Hf|]. simpl. lia.
      * done.
      * intros n Hn. simpl. rewrite zero_value by done. by destruct (Z.leb_spec 0 n); [|lia].
Qed.

(** *** [merge] *)

Definition op (And : bool) (a b : bool) : bool := if And then a && b else a || b.

Lemma keys_above k pairs :
  Forall (λ p : option APInt * option APInt, match p with
               | (Some a, Some b) => getValue a = getValue b
               | (None, None) => False
               | _ => True
               end) pairs →
  Forall (Z.lt k) (omap (keyOf getValue getValue) pairs) →
  Forall (Z.lt k) (valuesOf (omap fst pairs)) ∧ Forall (Z.lt k) (valuesOf (omap snd pairs)).
Proof.
  unfold valuesOf. induction 1 as [|[[a|] [b|]] pairs Hp _ IH]; csimpl; [by split|..].
  - intros [Hk [H1 H2]%IH]%Forall_cons. rewrite <-Hp. auto.
  - intros [Hk [H1 H2]%IH]%Forall_cons. auto.
  - intros [Hk [H1 H2]%IH]%Forall_cons. auto.
  - done.
Qed.

(** One step of the loop: a boundary [k] is emitted when the output flips. *)
Lemma merge_step And LO LA RA (l r : bool) k n vs ls rs :
  let LA' := xorb LA l in let RA' := xorb RA r in let LO' := op And LA' RA' in
  LO = op And LA RA →
  xorb LO' (inside vs n) = op And (xorb LA' (inside ls n)) (xorb RA' (inside rs n)) →
  (n < k → inside vs n = false ∧ inside ls n = false ∧ inside rs n = false) →
  xorb LO (xorb (xorb LO' LO && (k <=? n)) (inside vs n)) =
    op And (xorb LA (xorb (l && (k <=? n)) (inside ls n)))
           (xorb RA (xorb (r && (k <=? n)) (inside rs n))).
Proof.
  intros LA' RA' LO' -> Heq Hk. destruct (Z.leb_spec k n) as [_|Hlt].
  - subst LA' RA' LO'. revert Heq.
    by destruct And, LA, RA, l, r, (inside vs n), (inside ls n), (inside rs n).
  - destruct (Hk Hlt) as (-> & -> & ->). subst LA' RA' LO'.
    by destruct And, LA, RA, l, r.
Qed.

Definition present {A} (o : option A) : bool := match o with Some _ => true | None => false end.

Lemma mergeLoop_cons And w (p : option APInt * option APInt) pairs LO LA RA Result v :
  match fst p with None => snd p | Some _ => fst p end = Some v →
  (∀ a, fst p = Some a → getBitWidth a = w) → (∀ b, snd p = Some b → getBitWidth b = w) →
  let LA' := xorb LA (present (fst p)) in
  let RA' := xorb RA (present (snd p)) in
  let LO' := op And LA' RA' in
  mergeLoop And w (p :: pairs) LO LA RA Result =
    mergeLoop And w pairs LO' LA' RA' (if xorb LO' LO then Result ++ [v] else Result).
Proof.
  intros Hv Hl Hr. destruct p as [[a|] [b|]]; simpl in *; simplify_eq;
    rewrite ?(Hl _ eq_refl), ?(Hr _ eq_refl), ?Z.eqb_refl; simpl;
    rewrite ?xorb_true_r, ?xorb_false_r; done.
Qed.

Lemma mergeLoop_spec And w pairs LO LA RA Result :
  LO = op And LA RA →
  Forall (λ b, getBitWidth b = w) (omap fst pairs) →
  Forall (λ b, getBitWidth b = w) (omap snd pairs) →
  Forall (λ p, match p with
               | (Some a, Some b) => getValue a = getValue b
               | (None, None) => False
               | _ => True
               end) pairs →
  StronglySorted Z.lt (omap (keyOf getValue getValue) pairs) →
  ∃ bs, mergeLoop And w pairs LO LA RA Result = Ok (Result ++ bs) ∧
    Forall (λ b, getBitWidth b = w) bs ∧
    StronglySorted Z.lt (valuesOf bs) ∧
    (∀ k, Forall (Z.lt k) (omap (keyOf getValue getValue) pairs) → Forall (Z.lt k) (valuesOf bs)) ∧
    ∀ n, xorb LO (inside (valuesOf bs) n) =
      op And (xorb LA (inside (valuesOf (omap fst pairs)) n))
             (xorb RA (inside (valuesOf (omap snd pairs)) n)).
Proof.
  intros HLO Hl Hr Heq Hs. revert LO LA RA Result HLO Hl Hr Hs.
  induction Heq as [|p pairs Hp Heq IH]; intros LO LA RA Result HLO Hl Hr Hs.
  { exists []. rewrite app_nil_r. split_and!; try done; try (by constructor).
    intros n. simpl. by rewrite !xorb_false_r. }
  assert (∃ k v (l r : bool), keyOf getValue getValue p = Some k ∧
    (match fst p with None => snd p | Some _ => fst p end) = Some v ∧ getValue v = k ∧
    l = present (fst p) ∧ r = present (snd p) ∧
    getBitWidth v = w ∧
    (∀ n, inside (valuesOf (omap fst (p :: pairs))) n =
       xorb (l && (k <=? n)) (inside (valuesOf (omap fst pairs)) n)) ∧
    (∀ n, inside (valuesOf (omap snd (p :: pairs))) n =
       xorb (r && (k <=? n)) (inside (valuesOf (omap snd pairs)) n)))
    as (k & v & l & r & Hkey & Hv & Hvk & Hll & Hrr & Hw & Hinl & Hinr).
  { destruct p as [[a|] [b|]]; csimpl in *; [| | |done];
      eexists _, _, _, _; split_and!; try done;
      try (by apply Forall_cons in Hl as [? _]); try (by apply Forall_cons in Hr as [? _]);
      intros n; simpl; rewrite <-?Hp; by destruct (inside _ n). }
  assert (Forall (λ b, getBitWidth b = w) (omap fst pairs)) as Hl'
    by (destruct p as [[a|] ?]; csimpl in Hl; [by apply Forall_cons in Hl as [_ ?]|done]).
  assert (Forall (λ b, getBitWidth b = w) (omap snd pairs)) as Hr'
    by (destruct p as [? [b|]]; csimpl in Hr; [by apply Forall_cons in Hr as [_ ?]|done]).
  csimpl in Hs. rewrite Hkey in Hs. apply StronglySorted_cons in Hs as [Hk Hs].
  set (LA' := xorb LA l). set (RA' := xorb RA r). set (LO' := op And LA' RA').
  destruct (IH LO' LA' RA' (if xorb LO' LO then Result ++ [v] else Result) eq_refl Hl' Hr' Hs)
    as (bs & Hloop & Hbw & Hbs & Habove & Hin).
  exists ((if xorb LO' LO then [v] else []) ++ bs). split_and!.
  - rewrite (mergeLoop_cons _ _ _ _ _ _ _ _ v Hv).
    + rewrite <-Hll, <-Hrr. fold LA' RA' LO'. rewrite Hloop.
      destruct (xorb LO' LO); simpl; by rewrite <-?app_assoc.
    + intros a Ha. destruct p as [? ?]. simpl in Ha. subst. by apply Forall_cons in Hl as [? _].
    + intros b Hb. destruct p as [? ?]. simpl in Hb. subst. by apply Forall_cons in Hr as [? _].
  - apply Forall_app. split; [|done]. destruct (xorb LO' LO); [by constructor|done].
  - destruct (xorb LO' LO); [|done]. simpl. constructor; [done|]. rewrite Hvk. by apply Habove.
  - csimpl. rewrite Hkey. intros k' [Hk' Hf]%Forall_cons. specialize (Habove k' Hf).
    destruct (xorb LO' LO); [|done]. simpl. constructor; [by rewrite Hvk|done].
  - intros n. rewrite Hinl, Hinr.
    assert (inside (valuesOf ((if xorb LO' LO then [v] else []) ++ bs)) n =
      xorb (xorb LO' LO && (k <=? n)) (inside (valuesOf bs) n)) as ->.
    { destruct (xorb LO' LO); simpl; [by rewrite Hvk|]. by destruct (inside _ n). }
    apply merge_step; [done|apply Hin|]. intros Hlt.
    destruct (keys_above k pairs Heq Hk) as [H1 H2].
    assert (∀ vs, Forall (Z.lt k) vs → inside vs n = false) as Hbelow.
    { intros vs Hvs. apply inside_below. eapply Forall_impl; [exact Hvs|]. simpl. lia. }
    split_and!; apply Hbelow; try done. by apply Habove.
Qed.
(** Sets of one width, or one that is the default, empty, set. *)
Definition compatible S Other : Prop :=
  BitWidth S = BitWidth Other ∨
  (BitWidth S = 0 ∧ Bounds S = []) ∨ (BitWidth Other = 0 ∧ Bounds Other = []).

Lemma compareAPInt_agrees w :
  agrees getValue getValue Z.ltb (λ a, getBitWidth a = w) (λ b, getBitWidth b = w) compareAPInt.
Proof.
  unfold compareAPInt. split; intros a b Ha Hb; rewrite eq_value, ult_value by congruence;
    rewrite ?Z.ltb_lt; intros; case_match; rewrite ?Z.eqb_eq, ?Z.eqb_neq in *; try lia;
    case_match; rewrite ?Z.ltb_lt, ?Z.ltb_ge in *; (done || lia).
Qed.

Lemma Sorted_Zltb vs : StronglySorted (λ k k', (k <? k') = true) vs ↔ StronglySorted Z.lt vs.
Proof.
  split; apply StronglySorted_weaken; intros k k'; by rewrite Z.ltb_lt.
Qed.

Lemma values_sorted bs :
  StronglySorted Z.lt (valuesOf bs) ↔ StronglySorted (λ a a', (getValue a <? getValue a') = true) bs.
Proof.
  unfold valuesOf. rewrite StronglySorted_fmap_iff.
  split; apply StronglySorted_weaken; intros a a'; by rewrite Z.ltb_lt.
Qed.

Lemma merge_spec And S Other :
  inv S → inv Other → compatible S Other →
  ∃ R, merge And S Other = Ok R ∧ inv R ∧ BitWidth R = Z.max (BitWidth S) (BitWidth Other) ∧
    ∀ n, member R n = op And (member S n) (member Other n).
Proof.
  intros [Hw Hb Hs] [Hw' Hb' Hs'] Hc. unfold merge.
  rewrite assert_true; [|destruct Hc as [->|[[-> _]|[-> _]]];
    rewrite ?Z.eqb_refl, ?orb_true_r; done].
  set (w := Z.max (BitWidth S) (BitWidth Other)).
  assert (Forall (λ b, getBitWidth b = w) (Bounds S)) as Hbw.
  { destruct Hc as [He|[[_ ->]|[He _]]]; [|constructor|];
      (eapply Forall_impl; [exact Hb|]; simpl; lia). }
  assert (Forall (λ b, getBitWidth b = w) (Bounds Other)) as Hbw'.
  { destruct Hc as [He|[[He _]|[_ ->]]]; [| |constructor];
      (eapply Forall_impl; [exact Hb'|]; simpl; lia). }
  destruct (zipmap_joins getValue getValue Z.ltb (λ a, getBitWidth a = w) (λ b, getBitWidth b = w)
    ltac:(intros x y z; rewrite !Z.ltb_lt; lia) ltac:(intros x y; rewrite !Z.ltb_lt; lia)
    compareAPInt (Bounds S) (Bounds Other) (compareAPInt_agrees w) Hbw Hbw')
    as (J & -> & [HJl HJr HJe HJs]); [by apply values_sorted|by apply values_sorted|].
  rewrite bind_ok. apply Sorted_Zltb in HJs.
  destruct (mergeLoop_spec And w J false false false []) as (bs & -> & B1 & B2 & _ & B3);
    [by destruct And|by rewrite HJl|by rewrite HJr|done|done|].
  eexists. split; [done|]. split; [split; [simpl; lia|done|done]|]. split; [done|].
  intros n. specialize (B3 n). rewrite HJl, HJr, !xorb_false_l in B3. exact B3.
Qed.

Lemma equal_spec S Other :
  inv S → inv Other → BitWidth S = BitWidth Other →
  equal S Other = true ↔ ∀ n, in_width (BitWidth S) n → member S n = member Other n.
Proof.
  intros [Hw Hb Hs] [Hw' Hb' Hs'] He. rewrite <-He in Hb'.
  assert (equal S Other = true ↔ valuesOf (Bounds S) = valuesOf (Bounds Other)) as ->.
  { clear Hs Hs'. unfold equal. revert Hb'. generalize (Bounds Other) as bs'.
    induction Hb as [|b bs Hb1 Hb2 IH]; intros [|b' bs']; csimpl; intros Hb'; try done.
    apply Forall_cons in Hb' as [Hb1' Hb2']. rewrite andb_true_iff, eq_value by congruence.
    rewrite Z.eqb_eq, (IH bs' Hb2'). unfold valuesOf. csimpl. split; [by intros [-> ->]|].
    by intros [= -> ->]. }
  unfold member. split; [by intros ->|]. intros Hm.
  apply (inside_ext (2 ^ BitWidth S)); try done; by apply values_range.
Qed.

(** The bounds are all that is compared, so that the width of an empty set does not
    matter. *)
Lemma equal_compatible S Other :
  inv S → inv Other → compatible S Other →
  equal S Other = true ↔ ∀ n, in_width (Z.max (BitWidth S) (BitWidth Other)) n → member S n = member Other n.
Proof.
  intros HS HO [He|[[Hw Hb]|[Hw Hb]]].
  - rewrite equal_spec, <- He, Z.max_id by done. done.
  - rewrite Hw, Z.max_r by apply HO. assert (inv (mkCRS [] (BitWidth Other))) as HE by (split; [apply HO|constructor|constructor]).
    unfold equal, member. rewrite Hb. by apply (equal_spec (mkCRS [] (BitWidth Other)) Other).
  - rewrite Hw, Z.max_l by apply HS. assert (inv (mkCRS [] (BitWidth S))) as HE by (split; [apply HS|constructor|constructor]).
    unfold equal, member. rewrite Hb. by apply (equal_spec S (mkCRS [] (BitWidth S))).
Qed.

Lemma contains_compatible S Other :
  inv S → inv Other → compatible S Other →
  ∃ b, contains S Other = Ok b ∧
    (b = true ↔ ∀ n, in_width (Z.max (BitWidth S) (BitWidth Other)) n → member Other n = true → member S n = true).
Proof.
  intros HS HO Hc. destruct (merge_spec true S Other HS HO) as (R & HR & IR & WR & MR); [done|].
  unfold contains, intersectWith. rewrite HR, bind_ok. eexists. split; [done|].
  pose proof (inv_width _ HS). pose proof (inv_width _ HO). rewrite equal_compatible, WR; [|done|done|].
  - replace (Z.max (Z.max (BitWidth S) (BitWidth Other)) (BitWidth Other)) with (Z.max (BitWidth S) (BitWidth Other)) by lia.
    split; intros Hm n Hn; specialize (Hm n Hn); rewrite MR in *; simpl in *;
      destruct (member S n), (member Other n); naive_solver.
  - destruct Hc as [He|[[Hw _]|?]]; [left|left|by right; right]; rewrite WR; lia.
Qed.

(** *** [size] and iteration *)

(** The elements below [N], in increasing order. *)
Fixpoint elements (N : Z) (vs : list Z) : list Z :=
  match vs with
  | [] => []
  | [a] => seqZ a (N - a)
  | a :: b :: vs => seqZ a (b - a) ++ elements N vs
  end.

Lemma elements_spec N vs n :
  StronglySorted Z.lt vs → Forall (λ v, 0 ≤ v < N) vs →
  n ∈ elements N vs ↔ n < N ∧ inside vs n = true.
Proof.
  induction vs as [|a|a b vs IH] using pairs_ind; intros Hs Hf.
  - split; [by intros ?%elem_of_nil|by intros [_ ?]].
  - simpl. rewrite elem_of_seqZ, xorb_false_r, Z.leb_le.
    apply Forall_cons in Hf as [Ha _]. lia.
  - apply StronglySorted_cons in Hs as [Hfa Hs]. apply StronglySorted_cons in Hs as [Hfb Hs].
    apply Forall_cons in Hf as [Ha Hf]. apply Forall_cons in Hf as [Hb Hf].
    apply Forall_cons in Hfa as [Hab Hfa].
    simpl elements. rewrite elem_of_app, elem_of_seqZ, (IH Hs Hf). simpl.
    destruct (Z.leb_spec a n), (Z.leb_spec b n); rewrite ?xorb_false_l;
      try (rewrite (inside_below vs) by (eapply Forall_impl; [exact Hfb|]; simpl; lia));
      simpl; destruct (inside vs n); simpl; split; intros; naive_solver lia.
Qed.
Lemma elements_bounds N vs lo n :
  StronglySorted Z.lt vs → Forall (λ v, lo ≤ v < N) vs → n ∈ elements N vs → lo ≤ n < N.
Proof.
  induction vs as [|a|a b vs IH] using pairs_ind; intros Hs Hf; simpl.
  - by intros ?%elem_of_nil.
  - rewrite elem_of_seqZ. apply Forall_cons in Hf as [Ha _]. lia.
  - apply StronglySorted_cons in Hs as [_ Hs]. apply StronglySorted_cons in Hs as [_ Hs].
    apply Forall_cons in Hf as [Ha Hf]. apply Forall_cons in Hf as [Hb Hf].
    rewrite elem_of_app, elem_of_seqZ. intros [?|?]; [lia|by apply IH].
Qed.

Lemma seqZ_sorted a n : StronglySorted Z.lt (seqZ a n).
Proof.
  destruct (Z.lt_ge_cases n 0) as [Hn|Hn]; [by rewrite seqZ_nil by lia; constructor|].
  revert a. pattern n. apply natlike_ind; [constructor| |done].
  intros m Hm IH a. rewrite seqZ_cons, Z.pred_succ by lia. constructor; [apply IH|].
  apply Forall_forall. intros x. rewrite elem_of_seqZ. lia.
Qed.

Lemma elements_sorted N vs :
  StronglySorted Z.lt vs → Forall (λ v, v < N) vs → StronglySorted Z.lt (elements N vs).
Proof.
  induction vs as [|a|a b vs IH] using pairs_ind; intros Hs Hf; simpl.
  - constructor.
  - apply seqZ_sorted.
  - apply StronglySorted_cons in Hs as [Hfa Hs]. apply StronglySorted_cons in Hs as [Hfb Hs].
    apply Forall_cons in Hf as [Ha Hf]. apply Forall_cons in Hf as [Hb Hf].
    apply StronglySorted_app. split_and!; [|apply seqZ_sorted|by apply IH].
    intros x y Hx%elem_of_seqZ Hy. apply (elements_bounds N vs b) in Hy; [lia|done|].
    rewrite Forall_forall in *. intros v Hv. specialize (Hfb v Hv). specialize (Hf v Hv).
    simpl in *. lia.
Qed.

Lemma sizeLoop_spec w bs Size :
  0 ≤ w → getBitWidth Size = w + 1 → Forall (λ b, getBitWidth b = w) bs →
  StronglySorted Z.lt (valuesOf bs) → Forall (λ v, getValue Size ≤ v) (valuesOf bs) →
  getValue Size ≤ 2 ^ w →
  getValue (sizeLoop (w + 1) bs None Size) =
    getValue Size + Z.of_nat (length (elements (2 ^ w) (valuesOf bs))).
Proof.
  intros Hw. revert Size. unfold valuesOf.
  induction bs as [|a|a b bs IH] using pairs_ind; intros Size HS Hb Hs Hf HSw; csimpl in *.
  - lia.
  - apply Forall_cons in Hb as [Ha _], Hf as [Hf _].
    pose proof (ap_range a) as Hr. pose proof (ap_range Size) as [Hr0 _].
    rewrite Ha in Hr. unfold in_width in Hr.
    assert (2 ^ (w + 1) = 2 * 2 ^ w) as Hp by (rewrite Z.pow_add_r by lia; lia).
    assert (getBitWidth (getHighBitsSet (w + 1) 1) = w + 1) as Hh by (apply highBits_width; lia).
    assert (getBitWidth (ap_zext a (w + 1)) = w + 1) as Hz by (apply zext_width; lia).
    assert (getValue (ap_sub (getHighBitsSet (w + 1) 1) (ap_zext a (w + 1))) =
      2 ^ w - getValue a) as Hv.
    { rewrite sub_value, highBits_value, zext_value, Hh by lia.
      replace (w + 1 - 1) with w by lia.
      rewrite wrap_small; [lia|]. unfold in_width. lia. }
    rewrite add_value, Hv, HS by (rewrite sub_width; lia).
    rewrite length_seqZ, Z2Nat.id by lia. rewrite wrap_small; [lia|]. unfold in_width. lia.
  - apply Forall_cons in Hb as [Ha Hb]. apply Forall_cons in Hb as [Hb Hbs].
    apply Forall_cons in Hf as [Hfa Hf]. apply Forall_cons in Hf as [_ Hf].
    apply StronglySorted_cons in Hs as [Hsa Hs]. apply StronglySorted_cons in Hs as [Hsb Hs].
    apply Forall_cons in Hsa as [Hab _].
    pose proof (ap_range a) as Hra. pose proof (ap_range b) as Hrb.
    pose proof (ap_range Size) as [Hr0 _]. rewrite Ha in Hra. rewrite Hb in Hrb.
    unfold in_width in Hra, Hrb.
    assert (2 ^ (w + 1) = 2 * 2 ^ w) as Hp by (rewrite Z.pow_add_r by lia; lia).
    assert (getBitWidth (ap_sub b a) = w) as Hsw by (rewrite sub_width; congruence).
    assert (getValue (ap_zext (ap_sub b a) (w + 1)) = getValue b - getValue a) as Hv.
    { rewrite zext_value, sub_value, Hb by (rewrite ?Hsw; congruence || lia).
      apply wrap_small. unfold in_width. lia. }
    assert (getBitWidth (ap_zext (ap_sub b a) (w + 1)) = w + 1) as Hzw by (apply zext_width; lia).
    assert (getValue (ap_add Size (ap_zext (ap_sub b a) (w + 1))) =
      getValue Size + (getValue b - getValue a)) as Hadd.
    { rewrite add_value, Hv, HS by congruence. apply wrap_small. unfold in_width. lia. }
    rewrite IH; try done.
    + rewrite Hadd, length_app, length_seqZ, Nat2Z.inj_add, Z2Nat.id by lia. lia.
    + rewrite add_width; congruence.
    + eapply Forall_impl; [exact Hsb|]. simpl. intros v ?. rewrite Hadd. lia.
    + rewrite Hadd. lia.
Qed.

Lemma size_spec S :
  inv S → getValue (size S) = Z.of_nat (length (elements (2 ^ BitWidth S) (valuesOf (Bounds S)))).
Proof.
  intros [Hw Hb Hs]. unfold size.
  assert (getValue (mkAPInt (BitWidth S + 1) 0) = 0) as Hz by (apply zero_value; lia).
  rewrite sizeLoop_spec; try done.
  - rewrite Hz. lia.
  - apply mk_width. lia.
  - rewrite Hz. eapply Forall_impl; [by apply values_range|]. simpl. lia.
  - rewrite Hz. apply Z.pow_nonneg. lia.
Qed.

(** The states of the iterator before it is done, and the values it has ahead. *)
Record running (w : Z) (It : ConstantRangeSetIterator) : Prop := {
  run_done : Done It = false;
  run_width : getBitWidth (ItCurrent It) = w;
  run_bounds : Forall (λ b, getBitWidth b = w) (NextBound It);
  run_sorted : StronglySorted Z.lt (getValue (ItCurrent It) :: valuesOf (NextBound It));
  run_last : ToLast It = bool_decide (NextBound It = []);
}.

Definition ahead (w : Z) (It : ConstantRangeSetIterator) : list Z :=
  elements (2 ^ w) (getValue (ItCurrent It) :: valuesOf (NextBound It)).

Lemma done_visit fuel It : Done It = true → visitAll fuel It = Ok [].
Proof. intros Hd. destruct fuel; simpl; by rewrite Hd. Qed.

Lemma inc_below w a : getBitWidth a = w → getValue a < 2 ^ w - 1 → getValue (ap_inc a) = getValue a + 1.
Proof.
  intros Ha Hlt. rewrite inc_value, Ha. apply wrap_small.
  pose proof (ap_range a) as [? _]. unfold in_width. lia.
Qed.

Lemma advance_spec w It :
  running w It → ∃ It', advance It = Ok It' ∧
    ((Done It' = true ∧ ahead w It = [getValue (ItCurrent It)]) ∨
     (running w It' ∧ ahead w It = getValue (ItCurrent It) :: ahead w It')).
Proof.
  destruct It as [c nb tl d]. intros [Hd Hw Hb Hs Hl]. simpl in *. subst d tl.
  unfold advance, ahead. simpl. rewrite isMaxValue_value, Hw.
  pose proof (ap_range c) as [Hc0 Hc]. rewrite Hw in Hc.
  destruct nb as [|b bs]; csimpl.
  - destruct (Z.eqb_spec (getValue c) (2 ^ w - 1)) as [Hm|Hm]; simpl; eexists; (split; [done|]).
    + left. split; [done|]. replace (2 ^ w - getValue c) with (Z.succ 0) by lia.
      by rewrite seqZ_cons, Z.pred_succ by lia.
    + right. assert (getValue (ap_inc c) = getValue c + 1) as Hi by (apply (inc_below w); [done|lia]).
      split.
      * split; simpl; try done; [by rewrite inc_width|by repeat constructor].
      * simpl. rewrite Hi. rewrite seqZ_cons by lia. f_equal. f_equal; lia.
  - apply Forall_cons in Hb as [Hbw Hb].
    pose proof Hs as Hs'. apply StronglySorted_cons in Hs' as [Hf Hs'].
    apply Forall_cons in Hf as [Hcb Hf].
    pose proof (ap_range b) as [Hb0 Hbm]. rewrite Hbw in Hbm.
    assert (getValue (ap_inc c) = getValue c + 1) as Hi by (apply (inc_below w); [done|lia]).
    rewrite eq_value, Hi by (rewrite inc_width; congruence).
    apply StronglySorted_cons in Hs' as [Hfb Hs'].
    destruct (Z.eqb_spec (getValue c + 1) (getValue b)) as [He|He].
    + destruct bs as [|b' bs']; eexists; (split; [done|]).
      * left. split; [done|]. simpl. replace (getValue b - getValue c) with (Z.succ 0) by lia.
        by rewrite seqZ_cons, Z.pred_succ by lia.
      * right. apply Forall_cons in Hb as [Hbw' Hb]. split; [by split|].
        simpl. rewrite (seqZ_cons (getValue c)) by lia.
        replace (Z.pred (getValue b - getValue c)) with 0 by lia. done.
    + eexists; split; [done|]. right. split.
      * split; simpl; try done; [by rewrite inc_width|by constructor|].
        rewrite Hi. csimpl. constructor; [by constructor|]. constructor; [lia|].
        eapply Forall_impl; [exact Hfb|]. simpl. lia.
      * simpl. rewrite Hi. rewrite (seqZ_cons (getValue c)) by lia. simpl. f_equal. f_equal. f_equal; lia.
Qed.

Lemma visitAll_spec w fuel It :
  running w It → (length (ahead w It) ≤ fuel)%nat →
  ∃ l, visitAll fuel It = Ok l ∧ getValue <$> l = ahead w It.
Proof.
  revert It. induction fuel as [|fuel IH]; intros It Hr Hf;
    destruct (advance_spec w It Hr) as (It' & Ha & Hc).
  - exfalso. destruct Hc as [[_ Hc]|[_ Hc]]; rewrite Hc in Hf; simpl in Hf; lia.
  - simpl. rewrite (run_done _ _ Hr), Ha, bind_ok. destruct Hc as [[Hd Hc]|[Hr' Hc]].
    + rewrite done_visit by done. eexists. split; [done|]. by rewrite Hc.
    + destruct (IH It' Hr') as (l & -> & Hl); [rewrite Hc in Hf; simpl in Hf; lia|].
      eexists. split; [done|]. csimpl. by rewrite Hl, Hc.
Qed.
Lemma sizes_agree S :
  inv S → ∃ l, visitAll (length (elements (2 ^ BitWidth S) (valuesOf (Bounds S)))) (begin S) = Ok l ∧
    getValue <$> l = elements (2 ^ BitWidth S) (valuesOf (Bounds S)).
Proof.
  intros [Hw Hb Hs]. unfold begin. destruct (Bounds S) as [|b bs]; [by exists []|].
  apply Forall_cons in Hb as [Hb Hbs].
  destruct (visitAll_spec (BitWidth S) _ (mkIt b bs (bool_decide (bs = [])) false)
    ltac:(by split) (le_n _)) as (l & Hl & Hv). eauto.
Qed.

(** *** Conversions *)

Lemma fromRange_spec `{!LLVMConstantRange, !LLVMConstantRangeLaws} R :
  inv (fromRange R) ∧ BitWidth (fromRange R) = getRangeWidth R ∧
  ∀ n, in_width (getRangeWidth R) n → member (fromRange R) n = rangeContains R n.
Proof.
  pose proof (range_width R) as Hw.
  pose proof (lower_width R) as Hlw. pose proof (upper_width R) as Huw.
  pose proof (ap_range (getLower R)) as Hlr. pose proof (ap_range (getUpper R)) as Hur.
  rewrite Hlw in Hlr. rewrite Huw in Hur. unfold in_width in Hlr, Hur.
  assert (getBitWidth (mkAPInt (getRangeWidth R) 0) = getRangeWidth R) as Hzw by by apply mk_width.
  assert (getValue (mkAPInt (getRangeWidth R) 0) = 0) as Hzv by by apply zero_value.
  unfold fromRange, member. simpl. rewrite eq_value, Hzv by congruence.
  destruct (rangeIsFull R) eqn:Hfull; [|destruct (rangeIsEmpty R) eqn:Hempty].
  - split; [split; simpl; [done|by constructor|repeat constructor]|]. split; [done|].
    intros n Hn. rewrite full_contains by done. simpl. rewrite Hzv.
    destruct Hn. by destruct (Z.leb_spec 0 n); [|lia].
  - split; [split; simpl; [done|constructor|constructor]|]. split; [done|].
    intros n Hn. by rewrite empty_contains.
  - pose proof (bounds_differ R Hfull Hempty) as Hne.
    rewrite (wrapped_spec R Hfull Hempty).
    destruct (Z.ltb_spec (getValue (getUpper R)) (getValue (getLower R))) as [Hul|Hul],
      (Z.eqb_spec (getValue (getUpper R)) 0) as [Hu0|Hu0]; simpl;
      (split; [split; simpl; [done|by repeat constructor|csimpl; repeat constructor; lia]|]);
      (split; [done|]); intros n Hn; rewrite (contains_spec R n Hfull Hempty Hn);
      destruct Hn as [Hn0 Hn1]; simpl; rewrite ?Hzv;
      destruct (Z.ltb_spec (getValue (getLower R)) (getValue (getUpper R))); try lia;
      repeat match goal with |- context [?a <=? ?b] => destruct (Z.leb_spec a b) end;
      repeat match goal with |- context [?a <? ?b] => destruct (Z.ltb_spec a b) end;
      simpl; (done || lia).
Qed.

Lemma zext_values S NewSize :
  inv S → BitWidth S < NewSize → valuesOf (Bounds (changeSize S NewSize false)) = valuesOf (Bounds S).
Proof.
  intros [Hw Hb Hs] Hlt. unfold changeSize.
  destruct (Z.eqb_spec NewSize (BitWidth S)); [lia|]. destruct (Z.ltb_spec (BitWidth S) NewSize); [|lia].
  simpl. unfold valuesOf. rewrite <-list_fmap_compose. apply list_fmap_ext. intros i b Hi. simpl.
  rewrite Forall_lookup in Hb. apply zext_value. rewrite (Hb i b Hi). lia.
Qed.

(** The boundaries after a sign extension: those above the largest positive
    value move up. *)
Definition signExtended (w NewSize v : Z) : Z :=
  if v <? 2 ^ (w - 1) then v else v + (2 ^ NewSize - 2 ^ w).

Lemma sext_values S NewSize :
  inv S → 0 < BitWidth S < NewSize →
  valuesOf (Bounds (changeSize S NewSize true)) =
    signExtended (BitWidth S) NewSize <$> valuesOf (Bounds S).
Proof.
  intros [Hw Hb Hs] Hlt. unfold changeSize.
  destruct (Z.eqb_spec NewSize (BitWidth S)); [lia|]. destruct (Z.ltb_spec (BitWidth S) NewSize); [|lia].
  simpl. unfold valuesOf. rewrite <-!list_fmap_compose. apply list_fmap_ext. intros i b Hi. simpl.
  rewrite Forall_lookup in Hb. pose proof (ap_range b) as Hr. rewrite (Hb i b Hi) in Hr.
  rewrite sext_value by (rewrite (Hb i b Hi); lia). rewrite (Hb i b Hi).
  unfold signed_value, signExtended, in_width in *.
  assert (2 ^ BitWidth S < 2 ^ NewSize) by (apply Z.pow_lt_mono_r; lia).
  destruct (Z.ltb_spec (getValue b) (2 ^ (BitWidth S - 1))).
  - apply wrap_small. unfold in_width. lia.
  - unfold wrap. symmetry. apply Z.mod_unique with (-1); lia.
Qed.

Lemma inside_map_even (f : Z → Z) vs n m :
  Forall (λ v, f v ≤ n ↔ v ≤ m) vs → inside (f <$> vs) n = inside vs m.
Proof.
  induction 1 as [|v vs Hv _ IH]; [done|]. csimpl. rewrite IH. f_equal.
  destruct (Z.leb_spec (f v) n), (Z.leb_spec v m); tauto || lia.
Qed.
End facts.

(** ** Theorems *)

(** C33: Complement, union, intersection, inclusion and equality are those of
    sets of integers, on sets of one width or with the default set, which is empty,
    and the sets they give satisfy the invariant; the union and the intersection of two
    sets of different non-zero widths fail an assertion. *)
Theorem set_algebra `{!APIntOps, !APIntLaws} (S Other : ConstantRangeSet) :
  inv S → inv Other →
  (inv (complement S) ∧ BitWidth (complement S) = BitWidth S ∧
   ∀ n, 0 ≤ n → member (complement S) n = negb (member S n)) ∧
  (compatible S Other →
   (∃ R, unionWith S Other = Ok R ∧ inv R ∧ BitWidth R = Z.max (BitWidth S) (BitWidth Other) ∧
     ∀ n, member R n = member S n || member Other n) ∧
   (∃ R, intersectWith S Other = Ok R ∧ inv R ∧ BitWidth R = Z.max (BitWidth S) (BitWidth Other) ∧
     ∀ n, member R n = member S n && member Other n) ∧
   (∃ b, contains S Other = Ok b ∧
     (b = true ↔ ∀ n, in_width (Z.max (BitWidth S) (BitWidth Other)) n → member Other n = true → member S n = true)) ∧
   (equal S Other = true ↔ ∀ n, in_width (Z.max (BitWidth S) (BitWidth Other)) n → member S n = member Other n)) ∧
  (BitWidth S ≠ BitWidth Other → BitWidth S ≠ 0 → BitWidth Other ≠ 0 →
   ∀ And, merge And S Other = Fault AssertionFailed).
Proof.
  intros HS HO. split_and!.
  - by apply complement_spec.
  - by apply complement_spec.
  - by apply complement_spec.
  - intros Hc. split_and!; [by apply (merge_spec false)|by apply (merge_spec true)|by apply contains_compatible|..]; by apply equal_compatible.
  - intros H1 H2 H3 And. unfold merge.
    by rewrite (proj2 (Z.eqb_neq _ _) H1), (proj2 (Z.eqb_neq _ _) H2), (proj2 (Z.eqb_neq _ _) H3).
Qed.

(** The set of the 8-bit integers from [a] (up to [b]). *)
Definition sampleSet (a : Z) : ConstantRangeSet := mkCRS [mkAPInt 8 a] 8.
Definition sampleRange (a b : Z) : ConstantRangeSet := mkCRS [mkAPInt 8 a; mkAPInt 8 b] 8.

Lemma sampleSet_inv : inv (sampleSet 10).
Proof. split; [done|by repeat constructor|repeat constructor]. Qed.

Lemma sampleRange_inv : inv (sampleRange 16 144).
Proof. split; [done|by repeat constructor|repeat constructor]. Qed.

Lemma set_algebra_witness :
  ∃ R, unionWith (sampleSet 10) (sampleRange 16 144) = Ok R ∧ inv R ∧
    ∀ n, member R n = member (sampleSet 10) n || member (sampleRange 16 144) n.
Proof.
  destruct (proj1 (proj1 (proj2 (set_algebra (sampleSet 10) (sampleRange 16 144)
    sampleSet_inv sampleRange_inv)) ltac:(by left))) as (R & H1 & H2 & _ & H3).
  exists R. split; [exact H1|]. split; [exact H2|exact H3].
Defined.

(** The iterator visits exactly the elements of the set, once each and in
    increasing order, and then stops, even when the set contains the largest
    value of its width; [size] is their number, with no overflow. *)
Theorem iteration_and_size `{!APIntOps, !APIntLaws} (S : ConstantRangeSet) :
  inv S →
  ∃ l, visitAll (Z.to_nat (getValue (size S))) (begin S) = Ok l ∧
    StronglySorted Z.lt (getValue <$> l) ∧
    (∀ n, n ∈ getValue <$> l ↔ n < 2 ^ BitWidth S ∧ member S n = true) ∧
    getValue (size S) = Z.of_nat (length l).
Proof.
  intros HS. pose proof HS as [Hw Hb Hs]. destruct (sizes_agree S HS) as (l & Hl & Hv).
  pose proof (values_range _ _ Hb) as Hr.
  exists l. rewrite (size_spec S HS), Nat2Z.id, Hl, Hv. split_and!.
  - done.
  - apply elements_sorted; [done|]. eapply Forall_impl; [exact Hr|]. simpl. lia.
  - intros n. by apply elements_spec.
  - f_equal. rewrite <-Hv. by rewrite length_fmap.
Qed.

Lemma iteration_and_size_witness :
  ∃ l, visitAll (Z.to_nat (getValue (size (sampleSet 10)))) (begin (sampleSet 10)) = Ok l ∧
    getValue (size (sampleSet 10)) = Z.of_nat (length l).
Proof.
  destruct (iteration_and_size (sampleSet 10) sampleSet_inv) as (l & H1 & _ & _ & H2).
  exists l. split; [exact H1|exact H2].
Defined.

(** The set made from an LLVM range satisfies the invariant and has the
    width and the elements of the range, whether it is full, empty, wrapping or
    ends at the largest value. *)
Theorem from_constant_range
    `{!APIntOps, !APIntLaws, !LLVMConstantRange, !LLVMConstantRangeLaws} R :
  inv (fromRange R) ∧ BitWidth (fromRange R) = getRangeWidth R ∧
  ∀ n, in_width (getRangeWidth R) n → member (fromRange R) n = rangeContains R n.
Proof. apply fromRange_spec. Qed.

(** Ranges of 8-bit integers: the bounds, reduced, and whether equal bounds stand
    for the full set. *)
Definition bytePoint (v : Z) : APInt := mkAPInt 8 v.

Lemma bytePoint_value v : getValue (bytePoint v) = wrap 8 v.
Proof. by apply mk_value. Qed.

#[local] Instance byteRanges : LLVMConstantRange := {|
  ConstantRange := Z * Z * bool;
  getRangeWidth _ := 8;
  getLower '(lo, _, _) := bytePoint lo;
  getUpper '(_, up, _) := bytePoint up;
  rangeIsFull '(lo, up, full) := (wrap 8 lo =? wrap 8 up) && full;
  rangeIsEmpty '(lo, up, full) := (wrap 8 lo =? wrap 8 up) && negb full;
  rangeIsWrapped '(lo, up, _) := (wrap 8 up <? wrap 8 lo) && negb (wrap 8 up =? 0);
  rangeContains '(lo, up, full) n :=
    if wrap 8 lo =? wrap 8 up then full
    else if wrap 8 lo <? wrap 8 up then (wrap 8 lo <=? n) && (n <? wrap 8 up)
    else (wrap 8 lo <=? n) || (n <? wrap 8 up);
|}.

Lemma byteRanges_laws : LLVMConstantRangeLaws.
Proof.
  split; cbn [getRangeWidth getLower getUpper rangeIsFull rangeIsEmpty rangeIsWrapped
    rangeContains byteRanges].
  - done.
  - intros [[lo up] full]. by apply mk_width.
  - intros [[lo up] full]. by apply mk_width.
  - intros [[lo up] full] n. destruct (wrap 8 lo =? wrap 8 up); [by destruct full|done].
  - intros [[lo up] full] n. destruct (wrap 8 lo =? wrap 8 up); [by destruct full|done].
  - intros [[lo up] full]. rewrite !bytePoint_value.
    destruct (Z.eqb_spec (wrap 8 lo) (wrap 8 up)); [by destruct full|done].
  - intros [[lo up] full] _ _. by rewrite !bytePoint_value.
  - intros [[lo up] full] n. rewrite !bytePoint_value.
    destruct (Z.eqb_spec (wrap 8 lo) (wrap 8 up)); [by destruct full|done].
Qed.

Lemma from_constant_range_witness :
  inv (fromRange (250, 5, false)) ∧ member (fromRange (250, 5, false)) 3 = rangeContains (250, 5, false) 3.
Proof.
  destruct (@from_constant_range _ _ byteRanges byteRanges_laws (250, 5, false)) as (H1 & _ & H2).
  split; [exact H1|]. apply H2. done.
Defined.

(** Extending a set moves its boundaries but does not close it: after a zero
    extension all the new values belong to the set as soon as the largest old
    value did, and after a sign extension all the values between the positive
    and the negative halves belong to it as soon as the largest positive value
    did. *)
Theorem extension_adds_values `{!APIntOps, !APIntLaws} (S : ConstantRangeSet) NewSize :
  inv S → 0 < BitWidth S < NewSize →
  (∃ R, zext S NewSize = Ok R ∧ BitWidth R = NewSize ∧
    (∀ n, in_width (BitWidth S) n → member R n = member S n) ∧
    (∀ n, 2 ^ BitWidth S ≤ n → member R n = member S (2 ^ BitWidth S - 1))) ∧
  (∃ R, sext S NewSize = Ok R ∧ BitWidth R = NewSize ∧
    (∀ n, in_width (BitWidth S - 1) n → member R n = member S n) ∧
    (∀ n, 2 ^ (BitWidth S - 1) ≤ n < 2 ^ NewSize - 2 ^ (BitWidth S - 1) →
      member R n = member S (2 ^ (BitWidth S - 1) - 1))).
Proof.
  intros HS Hlt. pose proof HS as [Hw Hb Hs]. pose proof (values_range _ _ Hb) as Hr.
  unfold zext, sext. destruct (Z.leb_spec (BitWidth S) NewSize); [|lia].
  assert (∀ e, BitWidth (changeSize S NewSize e) = NewSize) as HW.
  { intros e. unfold changeSize. destruct (Z.eqb_spec NewSize (BitWidth S)); [lia|].
    by destruct (Z.ltb_spec (BitWidth S) NewSize); [|lia]. }
  assert (2 ^ BitWidth S = 2 * 2 ^ (BitWidth S - 1)) as Hp.
  { rewrite <-Z.pow_succ_r by lia. f_equal. lia. }
  assert (2 ^ BitWidth S < 2 ^ NewSize) as HN by (apply Z.pow_lt_mono_r; lia).
  split; eexists; (split; [done|]); (split; [by apply HW|]); unfold member.
  - rewrite zext_values by (done || lia). split; [done|]. intros n Hn.
    rewrite !inside_last_even; [done|..]; eapply Forall_impl; try exact Hr; simpl; lia.
  - rewrite sext_values by (done || lia). unfold in_width.
    split; intros n Hn; apply inside_map_even; (eapply Forall_impl; [exact Hr|]);
      intros v Hv; simpl in *; unfold signExtended;
      destruct (Z.ltb_spec v (2 ^ (BitWidth S - 1))); lia.
Qed.

Lemma extension_adds_values_witness :
  ∃ R, zext (sampleSet 10) 16 = Ok R ∧ member (sampleSet 10) 255 = true ∧ member R 256 = true.
Proof.
  destruct (extension_adds_values (sampleSet 10) 16 sampleSet_inv ltac:(done))
    as [(R & H1 & _ & _ & H2) _].
  assert (member (sampleSet 10) 255 = true) as Hm by (vm_compute; reflexivity).
  exists R. split; [exact H1|]. split; [exact Hm|]. rewrite (H2 256 ltac:(done)). exact Hm.
Defined.

(** A truncation may leave the boundaries out of order. *)
Lemma truncation_unsorted :
  valuesOf (Bounds (changeSize (mkCRS [mkAPInt 16 240; mkAPInt 16 272] 16) 8 false)) = [240; 16].
Proof. by vm_compute. Qed.
