(* ===== verification/MFP.v ===== *)
(** * The monotone framework

    [mfp::getMaximalFixedPoint] (include/revng/MFP/MFP.h): the worklist algorithm
    that solves the instances of the monotone framework, with the extra state
    its transfer functions record into; and the lattices of
    include/revng/MFP/SetLattices.h. *)

From S2P Require Import Prelude.
From stdpp Require Import gmap relations.

(** ** Interfaces *)

(** A monotone framework instance: the lattice and the transfer function, which
    also updates the extra state. [DefaultElement] is the value the default
    constructor of the lattice element gives. *)
Class MonotoneFrameworkInstance (Label LatticeElement ExtraState : Type) := {
  combineValues : LatticeElement → LatticeElement → LatticeElement;
  isLessOrEqual : LatticeElement → LatticeElement → bool;
  applyTransferFunction : Label → LatticeElement → ExtraState → LatticeElement * ExtraState;
  DefaultElement : LatticeElement;
}.

(** What an instance promises on its valid elements: a join semilattice of finite
    height, and a monotone transfer function [transfer] whose value does not
    depend on the extra state. *)
Class MonotoneLaws (Label L ES : Type) `{MonotoneFrameworkInstance Label L ES} := {
  valid : L → Prop;
  height : L → nat;
  transfer : Label → L → L;
  le_refl a : valid a → isLessOrEqual a a = true;
  le_trans a b c : valid a → valid b → valid c →
    isLessOrEqual a b = true → isLessOrEqual b c = true → isLessOrEqual a c = true;
  combine_valid a b : valid a → valid b → valid (combineValues a b);
  combine_left a b : valid a → valid b → isLessOrEqual a (combineValues a b) = true;
  combine_right a b : valid a → valid b → isLessOrEqual b (combineValues a b) = true;
  combine_least a b c : valid a → valid b → valid c → isLessOrEqual a c = true →
    isLessOrEqual b c = true → isLessOrEqual (combineValues a b) c = true;
  height_strict a b : valid a → valid b → isLessOrEqual a b = true →
    isLessOrEqual b a = false → height b < height a;
  transfer_fst l a es : fst (applyTransferFunction l a es) = transfer l a;
  transfer_valid l a : valid a → valid (transfer l a);
  transfer_mono l a b : valid a → valid b → isLessOrEqual a b = true →
    isLessOrEqual (transfer l a) (transfer l b) = true;
}.

(** A graph as [llvm::GraphTraits] shows it. *)
Class GraphTraits (Label : Type) := {
  getEntryNode : option Label;
  nodes : option (list Label);
  successors : Label → list Label;
}.

(** [llvm::po_ext_iterator] walks, in post order, the nodes that can be reached
    from a node without going through the nodes of the external set. *)
Class LLVMPostOrder (Label : Type) `{Countable Label, GraphTraits Label} := {
  post_order : Label → gset Label → list Label;
  post_order_NoDup s V : NoDup (post_order s V);
  post_order_elem s V l : s ∉ V →
    l ∈ post_order s V ↔ rtc (λ a b, b ∈ successors a ∧ b ∉ V) s l;
}.

(** ** The extra state *)

Inductive Position : Set := Before | After.

#[global] Instance Position_eq_dec : EqDecision Position.
Proof. solve_decision. Defined.

#[global] Instance Position_countable : Countable Position.
Proof.
  refine (inj_countable' (λ p, match p with Before => true | After => false end)
    (λ b : bool, if b then Before else After) _). by intros [].
Defined.

Module ExtraState.
Section extra_state.
  Context {Key L : Type} `{Countable Key} (defaultElement : L).

Notation ExtraState := (gmap (Key * Position) L).

(** [try_emplace] leaves an existing entry alone. *)
(* include/revng/MFP/MFP.h:104-110 ExtraState::registerAsInterestingBefore, registerAsInterestingAfter *)
Definition registerAsInteresting (P : Position) (K : Key) (Map : ExtraState) : ExtraState :=
  match Map !! (K, P) with
  | Some _ => Map
  | None => <[(K, P) := defaultElement]> Map
  end.

(* include/revng/MFP/MFP.h:116-126 ExtraState::registerBefore, registerAfter *)
Definition register (P : Position) (K : Key) (Value : L) (Map : ExtraState) : ExtraState :=
  match Map !! (K, P) with
  | Some _ => <[(K, P) := Value]> Map
  | None => Map
  end.

(* include/revng/MFP/MFP.h:131-141 ExtraState::getBefore, getAfter *)
Definition get (P : Position) (K : Key) (Map : ExtraState) : outcome L :=
  match Map !! (K, P) with Some v => Ok v | None => Fault AssertionFailed end.

Lemma register_lookup P K V Map k :
  register P K V Map !! k = if decide (k = (K, P)) then (λ _, V) <$> Map !! k else Map !! k.
Proof.
  unfold register. case_decide as Hk.
  - subst k. destruct (Map !! (K, P)) eqn:Hm; [by rewrite lookup_insert_eq|by rewrite Hm].
  - destruct (Map !! (K, P)); [|done]. by rewrite lookup_insert_ne.
Qed.
End extra_state.
End ExtraState.

(** ** The algorithm *)

(* include/revng/MFP/MFP.h:158-162 MFPResult *)
Record MFPResult (L : Type) := mkResult { InValue : L; OutValue : L }.
Arguments mkResult {L}.
Arguments InValue {L}.
Arguments OutValue {L}.

(* include/revng/MFP/MFP.h:47-59 EntryLabelsOptions *)
Inductive EntryLabelsOptions (Label : Type) : Type :=
  | Entry
  | All
  | Explicit (Labels : list Label).
Arguments Entry {Label}.
Arguments All {Label}.
Arguments Explicit {Label}.

(** [std::map::at] on a key that is not there throws, and the code is built
    without exceptions. *)
Definition map_at {K A} `{Countable K} (m : gmap K A) (k : K) : outcome A :=
  match m !! k with Some a => Ok a | None => Fault Aborted end.

Section algorithm.
  Context {Label L ES : Type} `{Countable Label, !MonotoneFrameworkInstance Label L ES}.
  Context `{!GraphTraits Label, !LLVMPostOrder Label}.
  Context (labelLess : Label → Label → bool).

(** [WorklistItem]. *)
Notation WorklistItem := (nat * Label)%type.

(** The order of the items: by priority, then by label. *)
(* include/revng/MFP/MFP.h:351-351 WorklistItem::operator<=> *)
Definition itemLess (a b : WorklistItem) : bool :=
  (a.1 <? b.1) || ((a.1 =? b.1) && labelLess a.2 b.2).

(** [std::set::insert]. *)
Fixpoint insertItem (a : WorklistItem) (W : list WorklistItem) : list WorklistItem :=
  match W with
  | [] => [a]
  | b :: W =>
      if itemLess a b then a :: b :: W
      else if bool_decide (a = b) then b :: W else b :: insertItem a W
  end.

Record State := mkState {
  AnalysisResult : gmap Label (MFPResult L);
  Worklist : list WorklistItem;
  Extra : ES;
}.

(** The resolution of the variant. *)
(* include/revng/MFP/MFP.h:286-310 getMaximalFixedPointImpl *)
Definition resolveEntryLabels (Option : EntryLabelsOptions Label) : outcome (list Label) :=
  match Option with
  | Entry => Ok match getEntryNode with Some Seed => [Seed] | None => [] end
  | All => match nodes with Some l => Ok l | None => revng_abort end
  | Explicit Labels => Ok Labels
  end.

(** [AnalysisResult[l].InValue = v]: a new entry has the default out value. *)
Definition setInValue (m : gmap Label (MFPResult L)) (l : Label) (v : L) : gmap Label (MFPResult L) :=
  <[l := mkResult v match m !! l with Some r => OutValue r | None => DefaultElement end]> m.

(* include/revng/MFP/MFP.h:340-345 getMaximalFixedPointImpl *)
Definition initialExtremal (ExtremalValue : L) (ExtremalLabels : list Label) :
    gmap Label (MFPResult L) :=
  foldl (λ m l, setInValue m l ExtremalValue) ∅ ExtremalLabels.

(* include/revng/ADT/ReversePostOrderTraversal.h:9-38 ReversePostOrderTraversalExt *)
Definition ReversePostOrderTraversalExt (G : Label) (WhiteList : gset Label) : list Label :=
  reverse (post_order G WhiteList).

Record Seeds := mkSeeds {
  LabelPriority : gmap Label nat;
  SeedWorklist : list WorklistItem;
  SeedResult : gmap Label (MFPResult L);
}.

(** The body of the loop over the nodes of one traversal. *)
(* include/revng/MFP/MFP.h:372-379 getMaximalFixedPointImpl *)
Definition seedNode (Bottom : L) (s : Seeds) (Node : Label) : Seeds :=
  let Priority := size (LabelPriority s) in
  mkSeeds (<[Node := Priority]> (LabelPriority s))
    (insertItem (Priority, Node) (SeedWorklist s))
    match SeedResult s !! Node with
    | Some _ => SeedResult s
    | None => setInValue (SeedResult s) Node Bottom
    end.

(** The traversal adds the nodes it visits to the shared set. *)
(* include/revng/MFP/MFP.h:363-381 getMaximalFixedPointImpl *)
Fixpoint seedAll (Bottom : L) (EntryLabels : list Label) (Visited : gset Label) (s : Seeds) :
    gset Label * Seeds :=
  match EntryLabels with
  | [] => (Visited, s)
  | Start :: EntryLabels =>
      if bool_decide (Start ∈ Visited) then seedAll Bottom EntryLabels Visited s
      else
        let RPOT := ReversePostOrderTraversalExt Start Visited in
        seedAll Bottom EntryLabels (Visited ∪ list_to_set RPOT)
          (foldl (seedNode Bottom) s RPOT)
  end.

(* include/revng/MFP/MFP.h:437-473 getMaximalFixedPointImpl *)
Fixpoint processSuccessors (Priority : gmap Label nat) (Out : L) (Successors : list Label)
    (Result : gmap Label (MFPResult L)) (W : list WorklistItem) :
    outcome (gmap Label (MFPResult L) * list WorklistItem) :=
  match Successors with
  | [] => Ok (Result, W)
  | Successor :: Successors =>
      SuccessorResults ← map_at Result Successor;
      if negb (isLessOrEqual Out (InValue SuccessorResults)) then
        let Result := <[Successor :=
          mkResult (combineValues (InValue SuccessorResults) Out) (OutValue SuccessorResults)]> Result in
        P ← map_at Priority Successor;
        processSuccessors Priority Out Successors Result (insertItem (P, Successor) W)
      else processSuccessors Priority Out Successors Result W
  end.

(** One iteration on the first item of the worklist. *)
(* include/revng/MFP/MFP.h:388-476 getMaximalFixedPointImpl *)
Definition iteration (Priority : gmap Label nat) (s : State) (First : WorklistItem)
    (W : list WorklistItem) : outcome State :=
  let Start := First.2 in
  LabelAnalysis ← map_at (AnalysisResult s) Start;
  let '(New, Extra) := applyTransferFunction Start (InValue LabelAnalysis) (Extra s) in
  '(Result, W) ← processSuccessors Priority New (successors Start)
    (<[Start := mkResult (InValue LabelAnalysis) New]> (AnalysisResult s)) W;
  Ok (mkState Result W Extra).

(** The loop, for at most [fuel] iterations; [None] when they were not enough. *)
(* include/revng/MFP/MFP.h:388-476 getMaximalFixedPointImpl *)
Fixpoint iterate (fuel : nat) (Priority : gmap Label nat) (s : State) : outcome (option State) :=
  match Worklist s with
  | [] => Ok (Some s)
  | First :: W =>
      match fuel with
      | O => Ok None
      | S fuel => s ← iteration Priority s First W; iterate fuel Priority s
      end
  end.

(* include/revng/MFP/MFP.h:272-479 getMaximalFixedPointImpl *)
Definition getMaximalFixedPointImpl (fuel : nat) (Bottom ExtremalValue : L)
    (ExtremalLabels : list Label) (EntryLabels : EntryLabelsOptions Label) (ExtraState : ES) :
    outcome (option (gmap Label (MFPResult L) * ES)) :=
  EntryLabels ← resolveEntryLabels EntryLabels;
  let '(_, s) := seedAll Bottom EntryLabels ∅
    (mkSeeds ∅ [] (initialExtremal ExtremalValue ExtremalLabels)) in
  r ← iterate fuel (LabelPriority s) (mkState (SeedResult s) (SeedWorklist s) ExtraState);
  Ok match r with
     | Some s => Some (AnalysisResult s, Extra s)
     | None => None
     end.

(** The configuration; the optional fields are the pointers that may be null. *)
(* include/revng/MFP/MFP.h:228-262 MFPConfiguration *)
Record MFPConfiguration := mkConfiguration {
  cBottom : option L;
  cExtremalValue : option L;
  cExtremalLabels : option (list Label);
  cEntryLabels : EntryLabelsOptions Label;
  cExtraState : option ES;
}.

(** [defaultExtra] is the empty extra state. *)
(* include/revng/MFP/MFP.h:481-521 getMaximalFixedPoint *)
Definition getMaximalFixedPoint (fuel : nat) (defaultExtra : ES) (C : MFPConfiguration) :
    outcome (option (gmap Label (MFPResult L) * ES)) :=
  getMaximalFixedPointImpl fuel
    (default DefaultElement (cBottom C))
    (default DefaultElement (cExtremalValue C))
    (default [] (cExtremalLabels C))
    (cEntryLabels C)
    (default defaultExtra (cExtraState C)).
End algorithm.

(** ** Auxiliary facts *)

Lemma sum_le {A} (f g : A → nat) l :
  (∀ x, x ∈ l → f x ≤ g x) → sum_list_with f l ≤ sum_list_with g l.
Proof.
  induction l as [|x l IH]; simpl; [lia|]. intros Hle.
  assert (f x ≤ g x) by (apply Hle; left).
  assert (sum_list_with f l ≤ sum_list_with g l) by (apply IH; intros; apply Hle; by right). lia.
Qed.

Lemma sum_lt {A} (f g : A → nat) l y :
  (∀ x, x ∈ l → f x ≤ g x) → y ∈ l → f y < g y → sum_list_with f l < sum_list_with g l.
Proof.
  induction l as [|x l IH]; simpl; [by intros _ ?%elem_of_nil|]. intros Hle Hy Hlt.
  assert (f x ≤ g x) by (apply Hle; left).
  assert (sum_list_with f l ≤ sum_list_with g l) by (apply sum_le; intros; apply Hle; by right).
  apply elem_of_cons in Hy as [->|Hy]; [lia|].
  assert (sum_list_with f l < sum_list_with g l); [|lia].
  apply IH; [|done|done]. intros. apply Hle. by right.
Qed.

Section facts.
  Context {Label L ES : Type} `{EqDecision Label, !Countable Label}.
  Context `{MI : !MonotoneFrameworkInstance Label L ES, ML : !MonotoneLaws Label L ES}.
  Context `{GT : !GraphTraits Label, PO : !LLVMPostOrder Label}.
  Context (labelLess : Label → Label → bool).
  #[local] Set Default Proof Using "Type*".
  Notation WorklistItem := (nat * Label)%type.
  Notation le a b := (isLessOrEqual a b = true).
  Notation Results := (gmap Label (MFPResult L)).
  Implicit Types (R : Results) (W : list WorklistItem) (Reach : gset Label).

Lemma insertItem_elem a W x : x ∈ insertItem labelLess a W ↔ x = a ∨ x ∈ W.
Proof.
  induction W as [|b W IH]; simpl.
  - by rewrite elem_of_cons, elem_of_nil.
  - destruct (itemLess labelLess a b); [by rewrite !elem_of_cons|].
    case_bool_decide; [subst; rewrite !elem_of_cons; tauto|].
    rewrite !elem_of_cons, IH. tauto.
Qed.

Lemma insertItem_length a W : length (insertItem labelLess a W) ≤ S (length W).
Proof.
  induction W as [|b W IH]; simpl; [lia|].
  destruct (itemLess labelLess a b); simpl; [lia|]. case_bool_decide; simpl; lia.
Qed.

(** The heights of the in values of the labels, which bound the iterations. *)
Definition labelHeight R (l : Label) : nat :=
  match R !! l with Some r => height (InValue r) | None => 0 end.

Definition heights Reach R : nat := sum_list_with (labelHeight R) (elements Reach).

Section run.
  Context (Priority : gmap Label nat) (Reach : gset Label).

(** The invariant on the data that holds at every point of the loop. *)
Record wellFormed R W : Prop := {
  wf_dom l : l ∈ Reach → is_Some (R !! l);
  wf_valid l r : l ∈ Reach → R !! l = Some r → valid (InValue r);
  wf_work p l : (p, l) ∈ W → l ∈ Reach ∧ Priority !! l = Some p;
}.

(** What updating the successors does to the results and the worklist. *)
Record evolves R W R' W' : Prop := {
  ev_wf : wellFormed R' W';
  ev_out l r r' : R !! l = Some r → R' !! l = Some r' → OutValue r' = OutValue r;
  ev_le l r r' : l ∈ Reach → R !! l = Some r → R' !! l = Some r' → le (InValue r) (InValue r');
  ev_work x : x ∈ W → x ∈ W';
  ev_same l : (∀ p, (p, l) ∉ W') → R' !! l = R !! l;
  ev_measure : length W' + heights Reach R' ≤ length W + heights Reach R;
}.

Lemma evolves_refl R W : wellFormed R W → evolves R W R W.
Proof.
  intros Hwf. split; try done.
  - intros l r r' -> [= ->]. done.
  - intros l r r' Hl Hr Hr'. simplify_eq. by apply le_refl, (wf_valid _ _ Hwf l).
Qed.

Lemma evolves_trans R1 W1 R2 W2 R3 W3 :
  wellFormed R1 W1 → evolves R1 W1 R2 W2 → evolves R2 W2 R3 W3 → evolves R1 W1 R3 W3.
Proof.
  intros Hwf1 [Hwf2 Ho Hl Hw Hs Hm] [Hwf3 Ho' Hl' Hw' Hs' Hm'].
  assert (∀ l r, R1 !! l = Some r → R2 !! l = None → R3 !! l = None) as Hnone.
  { intros l r H1 H2. destruct (decide (l ∈ Reach)) as [Hin|Hnin].
    - destruct (wf_dom _ _ Hwf2 l Hin). congruence.
    - rewrite Hs'; [done|]. intros p Hp. by apply (wf_work _ _ Hwf3) in Hp as [? _]. }
  split; try done.
  - intros l r r' H1 H3. destruct (R2 !! l) as [r2|] eqn:H2.
    + rewrite (Ho' l r2 r') by done. by apply (Ho l).
    + by rewrite (Hnone l r) in H3.
  - intros l r r' Hin H1 H3. destruct (wf_dom _ _ Hwf2 l Hin) as [r2 H2].
    apply (le_trans _ (InValue r2)).
    + by apply (wf_valid _ _ Hwf1 l).
    + by apply (wf_valid _ _ Hwf2 l).
    + by apply (wf_valid _ _ Hwf3 l).
    + by apply (Hl l).
    + by apply (Hl' l).
  - auto.
  - intros l Hl3. rewrite Hs' by done. apply Hs. intros p Hp. by apply (Hl3 p), Hw'.
  - lia.
Qed.

(** One successor whose in value does not include the new out value. *)
Lemma evolves_step R W Successor r Out p :
  wellFormed R W → Successor ∈ Reach → R !! Successor = Some r → valid Out →
  Priority !! Successor = Some p → isLessOrEqual Out (InValue r) = false →
  evolves R W
    (<[Successor := mkResult (combineValues (InValue r) Out) (OutValue r)]> R)
    (insertItem labelLess (p, Successor) W).
Proof.
  intros Hwf Hin Hr HOut Hp Hle.
  assert (valid (InValue r)) as Hv by (by apply (wf_valid _ _ Hwf Successor)).
  assert (valid (combineValues (InValue r) Out)) as Hc by by apply combine_valid.
  assert (height (combineValues (InValue r) Out) < height (InValue r)) as Hh.
  { apply height_strict; [done|done|by apply combine_left|].
    apply not_true_is_false. intros Hcr. rewrite (le_trans Out (combineValues (InValue r) Out)) in Hle;
      try done. by apply combine_right. }
  split.
  - split.
    + intros l Hl. destruct (decide (l = Successor)) as [->|]; [by rewrite lookup_insert_eq|].
      rewrite lookup_insert_ne by done. by apply (wf_dom _ _ Hwf).
    + intros l r' Hl. destruct (decide (l = Successor)) as [->|].
      * rewrite lookup_insert_eq. by intros [= <-].
      * rewrite lookup_insert_ne by done. by apply (wf_valid _ _ Hwf).
    + intros p' l [[= -> ->]|Hx]%insertItem_elem; [done|]. by apply (wf_work _ _ Hwf).
  - intros l r1 r2 H1. destruct (decide (l = Successor)) as [->|].
    + rewrite lookup_insert_eq. intros [= <-]. simpl. congruence.
    + rewrite lookup_insert_ne by done. congruence.
  - intros l r1 r2 Hl H1. destruct (decide (l = Successor)) as [->|].
    + rewrite lookup_insert_eq. intros [= <-]. simpl. simplify_eq. by apply combine_left.
    + rewrite lookup_insert_ne by done. intros. simplify_eq. by apply le_refl, (wf_valid _ _ Hwf l).
  - intros x Hx. apply insertItem_elem. by right.
  - intros l Hl. destruct (decide (l = Successor)) as [->|]; [|by rewrite lookup_insert_ne].
    destruct (Hl p). apply insertItem_elem. by left.
  - pose proof (insertItem_length (p, Successor) W).
    assert (heights Reach (<[Successor := mkResult (combineValues (InValue r) Out) (OutValue r)]> R)
      < heights Reach R); [|lia].
    apply (sum_lt _ _ _ Successor).
    + intros l _. unfold labelHeight. destruct (decide (l = Successor)) as [->|].
      * rewrite lookup_insert_eq, Hr. simpl. lia.
      * by rewrite lookup_insert_ne.
    + by apply elem_of_elements.
    + unfold labelHeight. rewrite lookup_insert_eq, Hr. done.
Qed.

Lemma processSuccessors_spec Successors R W Out :
  wellFormed R W → valid Out →
  (∀ l, l ∈ Successors → l ∈ Reach) → (∀ l, l ∈ Reach → is_Some (Priority !! l)) →
  ∃ R' W', processSuccessors labelLess Priority Out Successors R W = Ok (R', W') ∧
    evolves R W R' W' ∧
    (∀ l r, l ∈ Successors → R' !! l = Some r → le Out (InValue r)) ∧
    (∀ Q : Label → L → Prop,
      (∀ l r, l ∈ Reach → R !! l = Some r → Q l (InValue r)) →
      (∀ l v, l ∈ Successors → valid v → Q l v → Q l (combineValues v Out)) →
      ∀ l r, l ∈ Reach → R' !! l = Some r → Q l (InValue r)).
Proof.
  intros Hwf HOut Hsub Hprio. revert R W Hwf Hsub.
  induction Successors as [|Successor Successors IH]; intros R W Hwf Hsub; simpl.
  { exists R, W. split; [done|]. split; [by apply evolves_refl|]. split; [|auto].
    by intros ?? ?%elem_of_nil. }
  assert (Successor ∈ Reach) as Hin by (apply Hsub; left).
  destruct (wf_dom _ _ Hwf Successor Hin) as [r Hr].
  unfold map_at. rewrite Hr, bind_ok.
  destruct (isLessOrEqual Out (InValue r)) eqn:Hle; simpl.
  - destruct (IH R W Hwf) as (R' & W' & -> & Hev & Hout & Hleast); [intros; apply Hsub; by right|].
    exists R', W'. split; [done|]. split; [done|]. split.
    + intros l r' [->|Hl]%elem_of_cons Hr'; [|by apply (Hout l)].
      pose proof (ev_le _ _ _ _ Hev Successor r r' Hin Hr Hr').
      apply (le_trans _ (InValue r)); try done.
      * by apply (wf_valid _ _ Hwf Successor).
      * by apply (wf_valid _ _ (ev_wf _ _ _ _ Hev) Successor).
    + intros Q Hbelow HQ. apply Hleast; [done|]. intros l v Hl. apply HQ. by right.
  - destruct (Hprio Successor Hin) as [p Hp]. rewrite Hp. simpl.
    pose proof (evolves_step R W Successor r Out p Hwf Hin Hr HOut Hp Hle) as Hstep.
    destruct (IH _ _ (ev_wf _ _ _ _ Hstep)) as (R' & W' & -> & Hev & Hout & Hleast);
      [intros; apply Hsub; by right|].
    exists R', W'. split; [done|]. split; [by eapply evolves_trans|]. split.
    + intros l r' [->|Hl]%elem_of_cons Hr'; [|by apply (Hout l)].
      assert (valid (InValue r)) as Hv by by apply (wf_valid _ _ Hwf Successor).
      apply (le_trans _ (combineValues (InValue r) Out)).
      * done.
      * by apply combine_valid.
      * by apply (wf_valid _ _ (ev_wf _ _ _ _ Hev) Successor).
      * by apply combine_right.
      * apply (ev_le _ _ _ _ Hev Successor (mkResult (combineValues (InValue r) Out) (OutValue r)) r');
          [done|by rewrite lookup_insert_eq|done].
    + intros Q Hbelow HQ. apply Hleast; [|intros l v Hl; apply HQ; by right].
      intros l r' Hl. destruct (decide (l = Successor)) as [->|].
      * rewrite lookup_insert_eq. intros [= <-]. simpl. apply HQ; [left| |by apply Hbelow].
        by apply (wf_valid _ _ Hwf Successor).
      * rewrite lookup_insert_ne by done. by apply Hbelow.
Qed.
(** *** The loop *)

Context (initial : Label → L) (recorded : Label → L → ES → Prop).

(** What a solution is: above the initial values and closed under the transfer
    functions along the edges. *)
Record solution (X : Label → L) : Prop := {
  sol_valid l : l ∈ Reach → valid (X l);
  sol_initial l : l ∈ Reach → le (initial l) (X l);
  sol_edges l l' : l ∈ Reach → l' ∈ successors l → le (transfer l (X l)) (X l');
}.

(** What the in values satisfy because of how they are computed: it holds of the
    initial values and of what an edge combines. *)
Record justified (Q : Label → L → Prop) : Prop := {
  jst_initial l : l ∈ Reach → Q l (initial l);
  jst_edges l l' v v' : l ∈ Reach → l' ∈ successors l → valid v → valid v' →
    Q l v → Q l' v' → Q l' (combineValues v' (transfer l v));
}.

(** The invariant of the loop: the in values are above the initial values and
    justified, and the labels that are not in the worklist are up to date:
    their out value, what their successors take in and what the extra state
    records of them correspond to their in value. *)
Record loopInv (s : State (Label := Label) (L := L) (ES := ES)) : Prop := {
  li_wf : wellFormed (AnalysisResult s) (Worklist s);
  li_initial l r : l ∈ Reach → AnalysisResult s !! l = Some r → le (initial l) (InValue r);
  li_justified Q l r : justified Q → l ∈ Reach → AnalysisResult s !! l = Some r → Q l (InValue r);
  li_done l r : l ∈ Reach → AnalysisResult s !! l = Some r → (∀ p, (p, l) ∉ Worklist s) →
    OutValue r = transfer l (InValue r) ∧ recorded l (InValue r) (Extra s) ∧
    ∀ l' r', l' ∈ successors l → AnalysisResult s !! l' = Some r' → le (OutValue r) (InValue r');
}.

Definition measure (s : State (Label := Label) (L := L) (ES := ES)) : nat :=
  length (Worklist s) + heights Reach (AnalysisResult s).

Context (Reach_closed : ∀ l l', l ∈ Reach → l' ∈ successors l → l' ∈ Reach).
Context (Priority_total : ∀ l, l ∈ Reach → is_Some (Priority !! l)).
Context (initial_valid : ∀ l, l ∈ Reach → valid (initial l)).
Context (recorded_self : ∀ l v es, recorded l v (snd (applyTransferFunction l v es))).
Context (recorded_other : ∀ l l' v v' es, l ≠ l' → recorded l v es →
  recorded l v (snd (applyTransferFunction l' v' es))).

(** Saving the out value of the label under analysis changes no in value. *)
Lemma setOut_facts R W Start r New :
  wellFormed R W → R !! Start = Some r →
  let R1 := <[Start := mkResult (InValue r) New]> R in
  wellFormed R1 W ∧ heights Reach R1 = heights Reach R ∧
  ∀ l r1, R1 !! l = Some r1 → ∃ r0, R !! l = Some r0 ∧ InValue r1 = InValue r0.
Proof.
  intros Hwf Hr R1.
  assert (∀ l r1, R1 !! l = Some r1 → ∃ r0, R !! l = Some r0 ∧ InValue r1 = InValue r0) as Hin.
  { intros l r1. unfold R1. destruct (decide (l = Start)) as [->|].
    - rewrite lookup_insert_eq. intros [= <-]. by exists r.
    - rewrite lookup_insert_ne by done. eauto. }
  split; [split|split; [|done]].
  - intros l Hl. unfold R1. destruct (decide (l = Start)) as [->|]; [by rewrite lookup_insert_eq|].
    rewrite lookup_insert_ne by done. by apply (wf_dom _ _ Hwf).
  - intros l r1 Hl (r0 & H0 & ->)%Hin. by apply (wf_valid _ _ Hwf l).
  - apply (wf_work _ _ Hwf).
  - unfold heights. apply Nat.le_antisymm; apply sum_le; intros l _; unfold labelHeight, R1;
      (destruct (decide (l = Start)) as [->|];
        [rewrite lookup_insert_eq, Hr; simpl; lia|by rewrite lookup_insert_ne]).
Qed.

Lemma iteration_spec s First W :
  loopInv s → Worklist s = First :: W →
  ∃ s', iteration labelLess Priority s First W = Ok s' ∧ loopInv s' ∧ measure s' < measure s.
Proof.
  intros [Hwf Hinit Hleast Hdone] HW. destruct First as [p Start].
  assert (Start ∈ Reach) as Hin.
  { apply (wf_work _ _ Hwf p Start). rewrite HW. left. }
  destruct (wf_dom _ _ Hwf Start Hin) as [r Hr].
  pose proof (wf_valid _ _ Hwf Start r Hin Hr) as Hv.
  unfold iteration. simpl. unfold map_at at 1. rewrite Hr, bind_ok.
  destruct (applyTransferFunction Start (InValue r) (Extra s)) as [New Ex] eqn:Happ.
  assert (New = transfer Start (InValue r)) as HNew by (by rewrite <-(transfer_fst _ _ (Extra s)), Happ).
  assert (valid New) as HNv by (rewrite HNew; by apply transfer_valid).
  assert (wellFormed (AnalysisResult s) W) as Hwf0.
  { split; [apply (wf_dom _ _ Hwf)|apply (wf_valid _ _ Hwf)|].
    intros p' l Hx. apply (wf_work _ _ Hwf p'). rewrite HW. by right. }
  destruct (setOut_facts _ W Start r New Hwf0 Hr) as (Hwf1 & Hh1 & Hin1).
  set (R1 := <[Start := mkResult (InValue r) New]> (AnalysisResult s)) in *.
  destruct (processSuccessors_spec (successors Start) R1 W New Hwf1 HNv)
    as (R' & W' & -> & Hev & Hout & Hbelow); [intros l; by apply Reach_closed|done|].
  rewrite bind_ok. eexists. split; [done|]. split; [split|]; simpl.
  - apply (ev_wf _ _ _ _ Hev).
  - intros l r' Hl Hr'. destruct (wf_dom _ _ Hwf1 l Hl) as [r1 Hr1].
    destruct (Hin1 _ _ Hr1) as (r0 & Hr0 & Heq).
    apply (le_trans _ (InValue r1)).
    + by apply initial_valid.
    + by apply (wf_valid _ _ Hwf1 l).
    + by apply (wf_valid _ _ (ev_wf _ _ _ _ Hev) l).
    + rewrite Heq. by apply Hinit.
    + by apply (ev_le _ _ _ _ Hev l).
  - intros Q l r' HQ Hl Hr'. eapply (Hbelow Q); [| |exact Hl|exact Hr'].
    + intros l0 r0 Hl0 (r1 & Hr1 & ->)%Hin1. by apply Hleast.
    + intros l' v Hl' Hv' Hq. rewrite HNew. apply (jst_edges _ HQ Start l'); try done. by apply Hleast.
  - intros l r' Hl Hr' Hnin. pose proof Hr' as Hr1. rewrite (ev_same _ _ _ _ Hev l Hnin) in Hr1.
    destruct (decide (l = Start)) as [->|Hne].
    + unfold R1 in Hr1. rewrite lookup_insert_eq in Hr1. injection Hr1 as <-. simpl.
      split; [done|]. split.
      * pose proof (recorded_self Start (InValue r) (Extra s)) as Hrec. by rewrite Happ in Hrec.
      * intros l' r'' Hl' Hr''. by apply (Hout l').
    + unfold R1 in Hr1. rewrite lookup_insert_ne in Hr1 by done.
      destruct (Hdone l r' Hl Hr1) as (HO & Hrec & Hsucc).
      { intros p' Hp'. rewrite HW in Hp'. apply elem_of_cons in Hp' as [[= -> ->]|Hp']; [done|].
        by apply (Hnin p'), (ev_work _ _ _ _ Hev). }
      split; [done|]. split.
      * pose proof (recorded_other l Start _ (InValue r) (Extra s) Hne Hrec) as Hrec'.
        by rewrite Happ in Hrec'.
      * intros l' r'' Hl' Hr''. assert (l' ∈ Reach) as Hin' by by apply (Reach_closed l).
        destruct (wf_dom _ _ Hwf1 l' Hin') as [r1' Hr1'].
        destruct (Hin1 _ _ Hr1') as (r0 & Hr0 & Heq).
        apply (le_trans _ (InValue r1')).
        -- rewrite HO. apply transfer_valid. by apply (wf_valid _ _ Hwf l).
        -- by apply (wf_valid _ _ Hwf1 l').
        -- by apply (wf_valid _ _ (ev_wf _ _ _ _ Hev) l').
        -- rewrite Heq. by apply (Hsucc l').
        -- by apply (ev_le _ _ _ _ Hev l').
  - unfold measure. simpl. rewrite HW. simpl. pose proof (ev_measure _ _ _ _ Hev). lia.
Qed.

(** In particular they are below every solution. *)
Lemma justified_least X : solution X → justified (λ l v, valid v → le v (X l)).
Proof using ML GT Reach_closed.
  intros HX. split.
  - intros l Hl _. by apply HX.
  - intros l l' v v' Hl Hl' Hv Hv' HQ HQ' _.
    assert (l' ∈ Reach) as Hin' by by apply (Reach_closed l).
    apply combine_least; auto using transfer_valid; [by apply HX|].
    apply (le_trans _ (transfer l (X l))); try by apply HX.
    + by apply transfer_valid.
    + apply transfer_valid. by apply HX.
    + apply transfer_mono; [done|by apply HX|by apply HQ].
Qed.

Lemma iterate_spec fuel s :
  loopInv s → measure s ≤ fuel →
  ∃ s', iterate labelLess fuel Priority s = Ok (Some s') ∧ loopInv s' ∧ Worklist s' = [].
Proof.
  revert s. induction fuel as [|fuel IH]; intros s Hinv Hm;
    simpl; destruct (Worklist s) as [|First W] eqn:HW; try (by exists s).
  - unfold measure in Hm. rewrite HW in Hm. simpl in Hm. lia.
  - destruct (iteration_spec s First W Hinv HW) as (s' & -> & Hinv' & Hm').
    rewrite bind_ok. apply IH; [done|lia].
Qed.
End run.
(** *** The seeds *)

Section seeds.
  Context (Bottom ExtremalValue : L) (ExtremalLabels : list Label).

Definition initialValue (l : Label) : L :=
  if decide (l ∈ ExtremalLabels) then ExtremalValue else Bottom.

Record seeded (Visited : gset Label) (s : Seeds (Label := Label) (L := L)) : Prop := {
  sd_dom : dom (LabelPriority s) = Visited;
  sd_work p l : (p, l) ∈ SeedWorklist s ↔ LabelPriority s !! l = Some p;
  sd_result l : l ∈ Visited ∨ l ∈ ExtremalLabels → is_Some (SeedResult s !! l);
  sd_value l r : SeedResult s !! l = Some r → InValue r = initialValue l;
  sd_length : length (SeedWorklist s) ≤ size Visited;
}.

Lemma setInValue_lookup (m : Results) l v l' :
  setInValue (ES := ES) m l v !! l' =
    if decide (l' = l)
    then Some (mkResult v match m !! l with Some r => OutValue r | None => DefaultElement end)
    else m !! l'.
Proof.
  unfold setInValue. destruct (decide (l' = l)) as [->|]; [by rewrite lookup_insert_eq|].
  by rewrite lookup_insert_ne.
Qed.

Lemma initialExtremal_spec l :
  match initialExtremal (ES := ES) ExtremalValue ExtremalLabels !! l with
  | Some r => l ∈ ExtremalLabels ∧ InValue r = ExtremalValue
  | None => l ∉ ExtremalLabels
  end.
Proof.
  unfold initialExtremal. induction ExtremalLabels as [|x l' IH] using rev_ind; simpl.
  - rewrite lookup_empty. by apply not_elem_of_nil.
  - rewrite foldl_app. simpl. rewrite setInValue_lookup.
    destruct (decide (l = x)) as [->|Hne]; [split; [set_solver|done]|].
    revert IH. destruct (foldl _ _ _ !! l) as [r|]; set_solver.
Qed.

Lemma seeded_start :
  seeded ∅ (mkSeeds ∅ [] (initialExtremal (ES := ES) ExtremalValue ExtremalLabels)).
Proof.
  split; simpl.
  - apply dom_empty_L.
  - intros p l. rewrite lookup_empty, elem_of_nil. naive_solver.
  - intros l [?|Hl]; [set_solver|]. pose proof (initialExtremal_spec l).
    destruct (_ !! l); [by eexists|done].
  - intros l r Hr. pose proof (initialExtremal_spec l) as Hl. rewrite Hr in Hl.
    unfold initialValue. destruct Hl as [? ->]. by rewrite decide_True.
  - lia.
Qed.

Lemma seedNode_spec Visited s Node :
  seeded Visited s → Node ∉ Visited →
  seeded ({[Node]} ∪ Visited) (seedNode (ES := ES) labelLess Bottom s Node).
Proof.
  intros [Hdom Hwork Hres Hval Hlen] Hnin.
  assert (LabelPriority s !! Node = None) as Hnone by (apply not_elem_of_dom; by rewrite Hdom).
  split; simpl.
  - by rewrite dom_insert_L, Hdom.
  - intros p l. rewrite insertItem_elem, Hwork. destruct (decide (l = Node)) as [->|Hne].
    + rewrite lookup_insert_eq, Hnone. naive_solver.
    + rewrite lookup_insert_ne by done. naive_solver.
  - intros l Hl. destruct (SeedResult s !! Node) as [r|] eqn:Hr.
    + destruct (decide (l = Node)) as [->|]; [by eexists|]. apply Hres. set_solver.
    + rewrite setInValue_lookup. destruct (decide (l = Node)); [by eexists|]. apply Hres. set_solver.
  - intros l r. destruct (SeedResult s !! Node) as [r'|] eqn:Hr; [apply Hval|].
    rewrite setInValue_lookup. destruct (decide (l = Node)) as [->|]; [|apply Hval].
    intros [= <-]. simpl. unfold initialValue. rewrite decide_False; [done|]. intros Hext.
    destruct (Hres Node); [by right|congruence].
  - pose proof (insertItem_length (size (LabelPriority s), Node) (SeedWorklist s)).
    rewrite size_union, size_singleton by set_solver. lia.
Qed.

Lemma seedNodes_spec l Visited s :
  seeded Visited s → NoDup l → (∀ x, x ∈ l → x ∉ Visited) →
  seeded (Visited ∪ list_to_set l) (foldl (seedNode (ES := ES) labelLess Bottom) s l).
Proof.
  revert Visited s. induction l as [|x l IH]; intros Visited s Hs Hnd Hdisj; simpl.
  - by rewrite union_empty_r_L.
  - apply NoDup_cons in Hnd as [Hx Hnd].
    replace (Visited ∪ ({[x]} ∪ list_to_set l)) with (({[x]} ∪ Visited) ∪ list_to_set l) by set_solver.
    apply IH; [|done|].
    + apply seedNode_spec; [done|]. apply Hdisj. left.
    + intros y Hy. rewrite not_elem_of_union, not_elem_of_singleton. split; [by intros ->|].
      apply Hdisj. by right.
Qed.

Definition edge (a b : Label) : Prop := b ∈ successors a.

Definition closed (V : gset Label) : Prop := ∀ l l', l ∈ V → edge l l' → l' ∈ V.

Lemma seedAll_spec EntryLabels Visited s :
  seeded Visited s → closed Visited →
  ∃ V' s', seedAll (ES := ES) labelLess Bottom EntryLabels Visited s = (V', s') ∧
    seeded V' s' ∧ closed V' ∧
    ∀ l, l ∈ V' ↔ l ∈ Visited ∨ ∃ e, e ∈ EntryLabels ∧ rtc edge e l.
Proof.
  revert Visited s. induction EntryLabels as [|Start EntryLabels IH]; intros Visited s Hs Hc; simpl.
  { exists Visited, s. split_and!; try done. intros l. split; [by left|].
    intros [?|(e & He & _)]; [done|]. by apply elem_of_nil in He. }
  assert (∀ V l, closed V → Start ∈ V → rtc edge Start l → l ∈ V) as Hin.
  { intros V l HV HS Hr. revert HS. induction Hr as [|x y z Hxy _ IHr]; [done|].
    intros Hx. apply IHr. by apply (HV x). }
  case_bool_decide as HS.
  - destruct (IH Visited s Hs Hc) as (V' & s' & -> & Hs' & Hc' & HV'). exists V', s'.
    split_and!; try done. intros l. rewrite HV'. split.
    + intros [?|(e & He & Hr)]; [by left|right]. exists e. split; [by right|done].
    + intros [?|(e & [->|He]%elem_of_cons & Hr)]; [by left|left; by apply Hin|right; by exists e].
  - set (po := post_order Start Visited). unfold ReversePostOrderTraversalExt. fold po.
    assert (∀ l, l ∈ po ↔ rtc (λ a b, edge a b ∧ b ∉ Visited) Start l) as Hpo
      by (intros l; by apply post_order_elem).
    assert (∀ l, l ∈ po → l ∉ Visited) as Hfresh.
    { intros l Hl%Hpo. apply rtc_inv_r in Hl as [->|(y & _ & [_ ?])]; done. }
    assert (closed (Visited ∪ list_to_set (reverse po))) as Hc1.
    { intros l l' Hl He. destruct (decide (l' ∈ Visited)); [set_solver|].
      apply elem_of_union in Hl as [Hl|Hl]; [set_solver|].
      apply elem_of_union_r. rewrite elem_of_list_to_set, elem_of_reverse in *.
      apply Hpo. apply Hpo in Hl. by eapply rtc_r. }
    destruct (IH (Visited ∪ list_to_set (reverse po))
      (foldl (seedNode (ES := ES) labelLess Bottom) s (reverse po))) as (V' & s' & -> & Hs' & Hc' & HV').
    { apply seedNodes_spec; [done| |].
      - rewrite reverse_Permutation. apply post_order_NoDup.
      - intros x. rewrite elem_of_reverse. apply Hfresh. }
    { exact Hc1. }
    exists V', s'. split_and!; try done. intros l. rewrite HV'. split.
    + intros [[?|Hl]%elem_of_union|(e & He & Hr)]; [by left| |].
      * right. exists Start. split; [left|].
        rewrite elem_of_list_to_set, elem_of_reverse in Hl. apply Hpo in Hl.
        eapply rtc_subrel; [|exact Hl]. by intros ?? [??].
      * right. exists e. split; [by right|done].
    + intros [?|(e & [->|He]%elem_of_cons & Hr)]; [left; set_solver| |right; by exists e].
      left. apply Hin; [done| |done]. apply elem_of_union_r.
      rewrite elem_of_list_to_set, elem_of_reverse. by apply Hpo.
Qed.
End seeds.
End facts.

(** ** The lattices of sets *)

Section lattices.
  Context {A : Type} `{Countable A}.
  Implicit Types (Left Right : gset A).

(** [std::set_union] on sorted ranges. *)
(* include/revng/MFP/SetLattices.h:13-22 SetUnionLattice::combineValues *)
Definition unionCombineValues Left Right : gset A := Left ∪ Right.

(** [std::includes] on sorted ranges. *)
(* include/revng/MFP/SetLattices.h:24-29 SetUnionLattice::isLessOrEqual *)
Definition unionIsLessOrEqual Left Right : bool :=
  if bool_decide (size Right < size Left) then false else bool_decide (Left ⊆ Right).

(* include/revng/MFP/SetLattices.h:36-45 SetIntersectionLattice::combineValues *)
Definition intersectionCombineValues Left Right : gset A := Left ∩ Right.

(* include/revng/MFP/SetLattices.h:47-52 SetIntersectionLattice::isLessOrEqual *)
Definition intersectionIsLessOrEqual Left Right : bool :=
  if bool_decide (size Left < size Right) then false else bool_decide (Right ⊆ Left).
End lattices.

Section set_lattices.
  Context {A : Type} `{Countable A}.
  Implicit Types (Left Right : gset A).

Lemma union_le Left Right :
  unionIsLessOrEqual Left Right = bool_decide (Left ⊆ Right).
Proof.
  unfold unionIsLessOrEqual. case_bool_decide as Hs; [|done].
  symmetry. apply bool_decide_eq_false. intros Hsub%subseteq_size. lia.
Qed.

Lemma intersection_le Left Right :
  intersectionIsLessOrEqual Left Right = bool_decide (Right ⊆ Left).
Proof.
  unfold intersectionIsLessOrEqual. case_bool_decide as Hs; [|done].
  symmetry. apply bool_decide_eq_false. intros Hsub%subseteq_size. lia.
Qed.
End set_lattices.

(** *** An instance: sets of facts a label generates

    The lattice of sets below a finite universe, the transfer function that adds
    the facts a label generates, and an extra state that records the out value
    of the labels of interest. *)
Section generate.
  Context {Label A : Type} `{Countable Label, Countable A} (universe : gset A) (gen : Label → gset A).

Definition generate (l : Label) (v : gset A) : gset A := v ∪ (gen l ∩ universe).

#[local] Instance generateInstance :
    MonotoneFrameworkInstance Label (gset A) (gmap (Label * Position) (gset A)) := {|
  combineValues := unionCombineValues;
  isLessOrEqual := unionIsLessOrEqual;
  applyTransferFunction l v es :=
    (generate l v, ExtraState.register After l (generate l v) es);
  DefaultElement := ∅;
|}.

Lemma universe_height (a b : gset A) :
  a ⊆ universe → b ⊆ universe → a ⊆ b → ¬ b ⊆ a → size (universe ∖ b) < size (universe ∖ a).
Proof.
  intros Ha Hb Hab Hba. apply subset_size. split; [set_solver|]. intros Hs. apply Hba.
  intros x Hx. destruct (decide (x ∈ a)) as [|Hn]; [done|].
  assert (x ∈ universe ∖ a) as Hxa by (apply elem_of_difference; auto).
  by apply Hs, elem_of_difference in Hxa as [_ ?].
Qed.

#[local] Instance generateLaws : MonotoneLaws Label (gset A) _ (H := generateInstance).
Proof.
  refine {| valid s := s ⊆ universe; height s := size (universe ∖ s); transfer := generate |};
    simpl; intros *; rewrite ?union_le, ?bool_decide_eq_true, ?bool_decide_eq_false;
    unfold unionCombineValues, generate.
  - set_solver.
  - set_solver.
  - set_solver.
  - set_solver.
  - set_solver.
  - set_solver.
  - apply universe_height.
  - done.
  - set_solver.
  - set_solver.
Defined.

Definition recordedOut (l : Label) (v : gset A) (es : gmap (Label * Position) (gset A)) :
    Prop :=
  ∀ w, es !! (l, After) = Some w → w = generate l v.

Lemma recordedOut_self l v es :
  recordedOut l v (snd (applyTransferFunction l v es)).
Proof.
  unfold recordedOut. simpl. intros w. rewrite ExtraState.register_lookup, decide_True by done.
  destruct (es !! _); simpl; congruence.
Qed.

Lemma recordedOut_other l l' v v' es :
  l ≠ l' → recordedOut l v es → recordedOut l v (snd (applyTransferFunction l' v' es)).
Proof.
  unfold recordedOut. simpl. intros Hne Hrec w.
  rewrite ExtraState.register_lookup, decide_False by congruence. apply Hrec.
Qed.
End generate.

(** Two labels that lead to each other. *)
#[local] Instance twoLabels : GraphTraits bool := {|
  getEntryNode := Some true; nodes := Some [true; false]; successors b := [negb b];
|}.

#[local] Instance twoLabelsPostOrder : LLVMPostOrder bool.
Proof.
  refine {| post_order s V := if decide (negb s ∈ V) then [s] else [negb s; s] |}.
  - intros s V. case_decide; [apply NoDup_singleton|].
    rewrite NoDup_cons, list_elem_of_singleton. split; [by destruct s|apply NoDup_singleton].
  - intros s V l Hs. assert (∀ P Q : Prop, (P ↔ Q) → (P ↔ Q)) by done.
    case_decide as Hn; split.
    + rewrite list_elem_of_singleton. by intros ->.
    + intros Hr. induction Hr as [x|x y z [Hxy Hy] _ IH]; [left|]. simpl in Hxy.
      apply list_elem_of_singleton in Hxy as ->. done.
    + rewrite elem_of_cons, list_elem_of_singleton. intros [->| ->]; [|done].
      apply rtc_once. split; [simpl; set_solver|done].
    + intros _. rewrite !elem_of_cons. destruct s, l; simpl; auto.
Defined.

(** The algorithm on a monotone instance: it ends, and its result is justified and
    closed under the edges. *)
Lemma getMaximalFixedPoint_spec {Label L ES} `{Countable Label}
    `{MI : !MonotoneFrameworkInstance Label L ES, ML : !MonotoneLaws Label L ES}
    `{GT : !GraphTraits Label, PO : !LLVMPostOrder Label}
    (labelLess : Label → Label → bool) (recorded : Label → L → ES → Prop)
    (C : MFPConfiguration (Label := Label) (L := L) (ES := ES)) (defaultExtra : ES) EntryLabels :
  let Bottom := default DefaultElement (cBottom C) in
  let ExtremalValue := default DefaultElement (cExtremalValue C) in
  let ExtremalLabels := default [] (cExtremalLabels C) in
  valid Bottom → valid ExtremalValue →
  (∀ l v es, recorded l v (snd (applyTransferFunction l v es))) →
  (∀ l l' v v' es, l ≠ l' → recorded l v es →
    recorded l v (snd (applyTransferFunction l' v' es))) →
  resolveEntryLabels (cEntryLabels C) = Ok EntryLabels →
  let initial := initialValue Bottom ExtremalValue ExtremalLabels in
  ∃ Reach : gset Label, (∀ l, l ∈ Reach ↔ ∃ e, e ∈ EntryLabels ∧ rtc edge e l) ∧
  (∀ l l', l ∈ Reach → l' ∈ successors l → l' ∈ Reach) ∧
  ∀ fuel, sum_list_with (λ l, S (height (initial l))) (elements Reach) ≤ fuel →
  ∃ R es', getMaximalFixedPoint labelLess fuel defaultExtra C = Ok (Some (R, es')) ∧
    ∀ l, l ∈ Reach → ∃ r, R !! l = Some r ∧ valid (InValue r) ∧ isLessOrEqual (initial l) (InValue r) = true ∧
      OutValue r = transfer l (InValue r) ∧ recorded l (InValue r) es' ∧
      (∀ l', l' ∈ successors l → ∃ r', R !! l' = Some r' ∧
        isLessOrEqual (OutValue r) (InValue r') = true) ∧
      (∀ Q, justified Reach initial Q → Q l (InValue r)).
Proof.
  intros Bottom ExtremalValue ExtremalLabels HB HE Hself Hother Hres initial.
  set (es := default defaultExtra (cExtraState C)).
  assert (∀ l, valid (initial l)) as Hinit by (intros l; unfold initial, initialValue; by case_decide).
  destruct (seedAll_spec labelLess Bottom ExtremalValue ExtremalLabels EntryLabels ∅ _
    (seeded_start labelLess Bottom ExtremalValue ExtremalLabels) ltac:(by intros ??)) as
    (Reach & s & Hseed & [Hdom Hwork Hresult Hval Hlen] & Hclosed & Hreach).
  exists Reach. split; [intros l; rewrite Hreach; set_solver|]. split; [by apply Hclosed|]. intros fuel Hfuel.
  assert (∀ l, l ∈ Reach → is_Some (LabelPriority s !! l)) as Hprio
    by (intros l Hl; by apply elem_of_dom; rewrite Hdom).
  assert (loopInv (LabelPriority s) Reach initial recorded
    (mkState (SeedResult s) (SeedWorklist s) es)) as Hloop.
  { split; simpl.
    - split; [by auto|by intros l r _ ->%Hval|].
      intros p l Hp%Hwork. split; [|done]. rewrite <-Hdom. by apply elem_of_dom_2 in Hp.
    - intros l r Hl ->%Hval. by apply le_refl.
    - intros Q l r HQ Hl ->%Hval. by apply HQ.
    - intros l r Hl _ Hn. destruct (Hprio l Hl) as [p Hp]. exfalso. apply (Hn p), (Hwork p l), Hp. }
  destruct (iterate_spec labelLess (LabelPriority s) Reach initial recorded Hclosed Hprio
    (λ l _, Hinit l) Hself Hother fuel _ Hloop) as (s' & Hit & [Hwf Hi Hleast Hdone] & HW).
  { unfold measure. simpl. etrans; [|exact Hfuel].
    assert (heights Reach (SeedResult s) ≤ sum_list_with (λ l, height (initial l)) (elements Reach)).
    { apply sum_le. intros l Hl%elem_of_elements. unfold labelHeight.
      destruct (Hresult l) as [r Hr]; [by left|]. by rewrite Hr, (Hval l r Hr). }
    assert (∀ (f : Label → nat) k, sum_list_with (λ l, S (f l)) k = length k + sum_list_with f k) as ->.
    { intros f k. induction k as [|x k IHk]; simpl; lia. }
    unfold size, set_size in Hlen. simpl in Hlen. lia. }
  exists (AnalysisResult s'), (Extra s'). split.
  { unfold getMaximalFixedPoint, getMaximalFixedPointImpl.
    rewrite Hres, bind_ok. fold Bottom ExtremalValue ExtremalLabels es. by rewrite Hseed, Hit. }
  intros l Hl. destruct (wf_dom _ _ _ _ Hwf l Hl) as [r Hr]. exists r.
  destruct (Hdone l r Hl Hr) as (HO & Hrec & Hsucc); [rewrite HW; by intros p ?%elem_of_nil|].
  split_and!; try done.
  - by apply (wf_valid _ _ _ _ Hwf l).
  - by apply Hi.
  - intros l' Hl'. destruct (wf_dom _ _ _ _ Hwf l') as [r' Hr']; [by apply (Hclosed l)|].
    exists r'. split; [done|]. by apply (Hsucc l').
  - intros Q HQ. by apply Hleast.
Qed.

(** ** Theorems *)

(** The union and intersection lattices are what the framework asks of a
    lattice: [isLessOrEqual] is a partial order (the shortcut on the sizes never
    changes its answer) and [combineValues] the least upper bound. *)
Theorem set_lattices {A} `{Countable A} :
  (∀ a b : gset A, unionIsLessOrEqual a b = true ↔ a ⊆ b) ∧
  (∀ a b c : gset A, unionIsLessOrEqual (unionCombineValues a b) c = true ↔
    unionIsLessOrEqual a c = true ∧ unionIsLessOrEqual b c = true) ∧
  (∀ a b : gset A, intersectionIsLessOrEqual a b = true ↔ b ⊆ a) ∧
  (∀ a b c : gset A,
    intersectionIsLessOrEqual (intersectionCombineValues a b) c = true ↔
    intersectionIsLessOrEqual a c = true ∧ intersectionIsLessOrEqual b c = true).
Proof.
  unfold unionCombineValues, intersectionCombineValues.
  split_and!; intros *; rewrite ?union_le, ?intersection_le, !bool_decide_eq_true; set_solver.
Qed.

(** C22: On every finite graph and every monotone instance of finite height the
    algorithm terminates, within as many iterations as reachable labels plus the
    heights of their initial values, and never fails. Its result on the labels
    reachable from the entry labels is the least solution: the in values are
    above the initial values (the extremal value on extremal labels), out values
    are the transfer of in values and flow into the in values of the successors,
    every other solution is above; and what the transfer function last recorded
    for a label in the extra state is what it records on the final in value. *)
Theorem maximal_fixed_point {Label L ES} `{Countable Label}
    `{MI : !MonotoneFrameworkInstance Label L ES, ML : !MonotoneLaws Label L ES}
    `{GT : !GraphTraits Label, PO : !LLVMPostOrder Label}
    (labelLess : Label → Label → bool) (recorded : Label → L → ES → Prop)
    (C : MFPConfiguration (Label := Label) (L := L) (ES := ES)) (defaultExtra : ES) EntryLabels :
  let Bottom := default DefaultElement (cBottom C) in
  let ExtremalValue := default DefaultElement (cExtremalValue C) in
  let ExtremalLabels := default [] (cExtremalLabels C) in
  valid Bottom → valid ExtremalValue →
  (∀ l v es, recorded l v (snd (applyTransferFunction l v es))) →
  (∀ l l' v v' es, l ≠ l' → recorded l v es →
    recorded l v (snd (applyTransferFunction l' v' es))) →
  resolveEntryLabels (cEntryLabels C) = Ok EntryLabels →
  let initial := initialValue Bottom ExtremalValue ExtremalLabels in
  ∃ Reach : gset Label, (∀ l, l ∈ Reach ↔ ∃ e, e ∈ EntryLabels ∧ rtc edge e l) ∧
  ∀ fuel, sum_list_with (λ l, S (height (initial l))) (elements Reach) ≤ fuel →
  ∃ R es', getMaximalFixedPoint labelLess fuel defaultExtra C = Ok (Some (R, es')) ∧
    ∀ l, l ∈ Reach → ∃ r, R !! l = Some r ∧ isLessOrEqual (initial l) (InValue r) = true ∧
      OutValue r = transfer l (InValue r) ∧ recorded l (InValue r) es' ∧
      (∀ l', l' ∈ successors l → ∃ r', R !! l' = Some r' ∧
        isLessOrEqual (OutValue r) (InValue r') = true) ∧
      (∀ X, solution Reach initial X → isLessOrEqual (InValue r) (X l) = true).
Proof.
  intros Bottom ExtremalValue ExtremalLabels HB HE Hself Hother Hres initial.
  destruct (getMaximalFixedPoint_spec labelLess recorded C defaultExtra EntryLabels HB HE Hself Hother Hres)
    as (Reach & HReach & Hclosed & Hrun). exists Reach. split; [done|]. intros fuel Hfuel.
  destruct (Hrun fuel Hfuel) as (R & es' & HR & Hl). exists R, es'. split; [done|]. intros l Hin.
  destruct (Hl l Hin) as (r & Hr & Hv & Hi & HO & Hrec & Hs & HQ). exists r. split_and!; try done.
  intros X HX. by apply (HQ _ (justified_least Reach initial Hclosed X HX)).
Qed.

(** The facts 1 and 2, each generated at one of two labels in a loop. *)
Definition twoFacts : gset nat := {[1; 2]}.
Definition factOf (b : bool) : gset nat := if b then {[1]} else {[2]}.

Definition twoConfiguration :
    MFPConfiguration (Label := bool) (L := gset nat) (ES := gmap (bool * Position) (gset nat)) :=
  mkConfiguration None (Some {[2]}) (Some [true]) Entry None.

Lemma maximal_fixed_point_witness :
  ∃ Reach : gset bool, (∀ l, l ∈ Reach ↔ ∃ e, e ∈ [true] ∧ rtc edge e l) ∧
    ∃ fuel R es', getMaximalFixedPoint (MonotoneFrameworkInstance0 := generateInstance twoFacts factOf)
      (λ a b, negb a && b) fuel ∅ twoConfiguration = Ok (Some (R, es')).
Proof.
  destruct (maximal_fixed_point (ML := generateLaws twoFacts factOf) (λ a b, negb a && b)
    (recordedOut twoFacts factOf) twoConfiguration ∅ [true]) as (Reach & HR & Hrun).
  - apply empty_subseteq.
  - apply singleton_subseteq_l. apply elem_of_union_r, elem_of_singleton_2. reflexivity.
  - apply recordedOut_self.
  - apply recordedOut_other.
  - reflexivity.
  - exists Reach. split; [exact HR|].
    destruct (Hrun _ (le_n _)) as (R & es' & Hr & _). eauto.
Defined.
