(* ===== verification/TupleTree.v ===== *)
(** * Tuple trees

    The data the generated structures are made of (tuples, keyed containers,
    pointers to one of several structures, scalars), the paths in it and the
    functions that walk along a path (include/revng/TupleTree/Visits.h,
    VisitsImpl.h). *)

From S2P Require Import Prelude.
From stdpp Require Import list sorting countable.

(** ** Types and data *)

(** What the concepts of TupleTreeCompatible.h tell apart: the fields of a tuple,
    the structures an [UpcastablePointer] can point to, by kind, the elements of a
    container. The types refer to each other by name. *)
Inductive TypeShape (TypeId Kind : Type) :=
  | Scalar
  | Tuple (Fields : list TypeId)
  | Pointer (Alternatives : list (Kind * TypeId))
  | Container (Element : TypeId).
Arguments Scalar {TypeId Kind}.
Arguments Tuple {TypeId Kind}.
Arguments Pointer {TypeId Kind}.
Arguments Container {TypeId Kind}.

(** A pointer is null or points to a structure; containers are the sequence of
    their elements. *)
Inductive value (Kind S : Type) :=
  | VScalar (s : S)
  | VTuple (Fields : list (value Kind S))
  | VPointer (Pointee : option (Kind * list (value Kind S)))
  | VContainer (Elements : list (value Kind S)).
Arguments VScalar {Kind S}.
Arguments VTuple {Kind S}.
Arguments VPointer {Kind S}.
Arguments VContainer {Kind S}.

Section values.
  Context {Kind S : Type}.

(** Induction on the data, with the hypothesis on all the elements of a list. *)
Lemma value_ind' (P : value Kind S → Prop) :
  (∀ s, P (VScalar s)) → (∀ fs, Forall P fs → P (VTuple fs)) → P (VPointer None) →
  (∀ k fs, Forall P fs → P (VPointer (Some (k, fs)))) → (∀ es, Forall P es → P (VContainer es)) → ∀ v, P v.
Proof.
  intros HS HT HN HP HC. fix self 1. intros v.
  assert (∀ l : list (value Kind S), Forall P l) as Hall by (fix go 1; intros [|x l]; constructor; [apply self|apply go]).
  destruct v as [s|fs|[[k fs]|]|es]; [apply HS|apply HT, Hall|apply HP, Hall|exact HN|apply HC, Hall].
Qed.

#[global] Instance value_eq_dec `{EqDecision Kind, EqDecision S} : EqDecision (value Kind S).
Proof.
  unfold EqDecision, Decision. fix self 1. intros v w.
  assert (∀ l l' : list (value Kind S), {l = l'} + {l ≠ l'}) as Hl.
  { fix go 1. intros [|x l] [|y l']; [by left|by right|by right|].
    destruct (self x y) as [->|]; [|right; congruence]. destruct (go l l') as [->|]; [by left|right; congruence]. }
  destruct v as [s|fs|[[k fs]|]|es], w as [s'|fs'|[[k' fs']|]|es']; try (by right).
  - destruct (decide (s = s')) as [->|]; [by left|right; congruence].
  - destruct (Hl fs fs') as [->|]; [by left|right; congruence].
  - destruct (decide (k = k')) as [->|]; [|right; congruence]. destruct (Hl fs fs') as [->|]; [by left|right; congruence].
  - by left.
  - destruct (Hl es es') as [->|]; [by left|right; congruence].
Defined.
End values.

(** Values are countable: they are finite trees. *)
Section countable.
  Context {Kind S : Type} `{Countable Kind, Countable S}.

Fixpoint toTree (v : value Kind S) : gen_tree (Kind + S) :=
  match v with
  | VScalar s => GenLeaf (inr s)
  | VTuple fs => GenNode 0 (map toTree fs)
  | VPointer None => GenNode 1 []
  | VPointer (Some (k, fs)) => GenNode 2 (GenLeaf (inl k) :: map toTree fs)
  | VContainer es => GenNode 3 (map toTree es)
  end.

Fixpoint fromTree (t : gen_tree (Kind + S)) : value Kind S :=
  match t with
  | GenLeaf (inr s) => VScalar s
  | GenNode 0 ts => VTuple (map fromTree ts)
  | GenNode 2 (GenLeaf (inl k) :: ts) => VPointer (Some (k, map fromTree ts))
  | GenNode 3 ts => VContainer (map fromTree ts)
  | _ => VPointer None
  end.

Lemma fromTree_toTree v : fromTree (toTree v) = v.
Proof.
  assert (∀ l, Forall (λ v, fromTree (toTree v) = v) l → map fromTree (map toTree l) = l) as Hl.
  { intros l Hl. rewrite map_map. induction Hl as [|x l Hx _ IH]; [done|]. cbn. by rewrite Hx, IH. }
  induction v as [s|fs IH| |k fs IH|es IH] using value_ind'; cbn; [done|by rewrite Hl|done|by rewrite Hl|by rewrite Hl].
Qed.

#[global] Instance value_countable : Countable (value Kind S) := inj_countable' toTree fromTree fromTree_toTree.
End countable.

(** The key of an element: the fields its type says, and its kind for a pointer. *)
Notation Key Kind S := (list (option (value Kind S)) * option Kind)%type.

(** The schema the structures are generated from. *)
Class Schema (TypeId Kind S : Type) := {
  shape : TypeId → TypeShape TypeId Kind;
  keyFields : TypeId → list nat;
  Less : Key Kind S → Key Kind S → bool;
}.

Section trees.
  Context {TypeId Kind S : Type} `{EqDecision TypeId, EqDecision Kind, EqDecision S, !Schema TypeId Kind S}.
  #[local] Notation value := (value Kind S).
  #[local] Notation Key := (Key Kind S).

(** [KeyedObjectTraits::key]. *)
Definition keyOf (Element : TypeId) (v : value) : Key :=
  match v with
  | VTuple fs => ((λ i, fs !! i) <$> keyFields Element, None)
  | VPointer (Some (k, fs)) => ((λ i, fs !! i) <$> keyFields Element, Some k)
  | _ => ([Some v], None)
  end.

(** The structure [upcast] finds for a kind. *)
Definition upcastTo (Alternatives : list (Kind * TypeId)) (k : Kind) : option TypeId :=
  snd <$> (snd <$> list_find (λ a : Kind * TypeId, a.1 = k) Alternatives).

(** The fields of a structure. *)
Definition fieldsOf (T : TypeId) : option (list TypeId) :=
  match shape T with Tuple Fields => Some Fields | _ => None end.

(** ** Paths *)

(** The contents of a [TupleTreeKeyWrapper]: the index of a field, the kind of
    what is pointed to, the key of an element. *)
(* include/revng/TupleTree/TupleTreePath.h:69-110 TupleTreeKeyWrapper *)
Inductive KeyWrapper := KIndex (Index : nat) | KKind (k : Kind) | KKey (key : Key).

#[global] Instance KeyWrapper_eq_dec : EqDecision KeyWrapper.
Proof using EqDecision1 EqDecision2. solve_decision. Defined.

(* include/revng/TupleTree/TupleTreePath.h:112-198 TupleTreePath *)
Definition TupleTreePath : Type := list KeyWrapper.

(* include/revng/TupleTree/TupleTreePath.h:184-193 TupleTreePath::isPrefixOf *)
Fixpoint isPrefixOf (Path Other : TupleTreePath) : bool :=
  match Path, Other with
  | [], _ => true
  | k :: Path, o :: Other => if bool_decide (k = o) then isPrefixOf Path Other else false
  | _ :: _, [] => false
  end.

(** *** Along types *)

(** The calls a visitor receives. *)
Inductive Step :=
  | TupleElement (T : TypeId) (Idx : nat)
  | PolymorphicElement (T : TypeId) (Idx : nat) (k : Kind)
  | ContainerElement (T : TypeId) (key : Key).

(** The result and the calls that were made. A component that holds another type
    is dereferenced through a null pointer. *)
(* include/revng/TupleTree/Visits.h:90-178 callOnPathSteps *)
Fixpoint callOnTypeSteps (T : TypeId) (Path : TupleTreePath) : outcome (bool * list Step) :=
  match Path with
  | [] => Ok (true, [])
  | First :: Rest =>
    match shape T with
    | Scalar => revng_abort
    | Tuple Fields =>
      match First with
      | KIndex Idx =>
        match Fields !! Idx with
        | Some next => '(b, Steps) ← callOnTypeSteps next Rest; Ok (b, TupleElement T Idx :: Steps)
        | None => Ok (false, [])
        end
      | _ => undefined
      end
    | Pointer Alternatives =>
      match Rest with
      | [] => Fault AssertionFailed
      | Second :: Rest =>
        match First with
        | KKind k =>
          match upcastTo Alternatives k with
          | None => revng_abort
          | Some U =>
            match fieldsOf U, Second with
            | Some Fields, KIndex Idx =>
              match Fields !! Idx with
              | Some next => '(b, Steps) ← callOnTypeSteps next Rest; Ok (b, PolymorphicElement U Idx k :: Steps)
              | None => Ok (false, [])
              end
            | _, _ => undefined
            end
          end
        | _ => undefined
        end
      end
    | Container Element =>
      match First with
      | KKey key => '(b, Steps) ← callOnTypeSteps Element Rest; Ok (b, ContainerElement T key :: Steps)
      | _ => undefined
      end
    end
  end.

(** The calls that [CallByPathVisitor] lets through. *)
(* include/revng/TupleTree/Visits.h:293-321 CallByPathVisitor *)
Fixpoint lastCalls (PathSize : nat) (Steps : list Step) : list Step :=
  match Steps with
  | [] => []
  | s :: Steps =>
    let PathSize := PathSize - match s with PolymorphicElement _ _ _ => 2 | _ => 1 end in
    if PathSize =? 0 then s :: lastCalls PathSize Steps else lastCalls PathSize Steps
  end.

(* include/revng/TupleTree/Visits.h:324-329 callByPath *)
Definition callByTypePath (Root : TypeId) (Path : TupleTreePath) : outcome (bool * list Step) :=
  '(b, Steps) ← callOnTypeSteps Root Path; Ok (b, lastCalls (length Path) Steps).

(** *** Along data *)

(** What a visitor does to an element, and to what a pointer in a container points
    to. *)
Record Visitor (E : Type) := mkVisitor {
  visitElement : TypeId → value → E → outcome (value * E);
  visitPointee : TypeId → value → E → outcome (value * E);
}.
Arguments visitElement {E}.
Arguments visitPointee {E}.

(** [M.find(Key)]: the position of the element. *)
Definition findKey (Element : TypeId) (key : Key) (Elements : list value) : option nat :=
  fst <$> list_find (λ e, keyOf Element e = key) Elements.

Definition isPointer (T : TypeId) : bool := match shape T with Pointer _ => true | _ => false end.

(** The visitor, with what is left of the path. The first component of the result
    is what the function returns. The kind in the path is not compared with the
    one of the structure pointed to. *)
(* include/revng/TupleTree/Visits.h:183-287 callOnPathSteps *)
Fixpoint callOnPathSteps {E} (V : Visitor E) (T : TypeId) (Path : TupleTreePath) (PathSize : nat) (M : value) (e : E) :
    outcome (bool * value * E) :=
  match shape T, M with
  | Scalar, VScalar _ => match Path with [] => Ok (true, M, e) | _ => revng_abort end
  | Tuple Fields, VTuple fs =>
    match Path with
    | [] => Ok (true, M, e)
    | KIndex Idx :: Rest =>
      match Fields !! Idx, fs !! Idx with
      | Some next, Some f =>
        let PathSize := PathSize - 1 in
        '(f, e) ← (if PathSize =? 0 then visitElement V next f e else Ok (f, e));
        '(b, f, e) ← callOnPathSteps V next Rest PathSize f e;
        Ok (b, VTuple (<[Idx := f]> fs), e)
      | _, _ => Ok (false, M, e)
      end
    | _ => undefined
    end
  | Pointer Alternatives, VPointer None => Ok (false, M, e)
  | Pointer Alternatives, VPointer (Some (k, fs)) =>
    match Path with
    | [] => Ok (true, M, e)
    | KKind _ :: KIndex Idx :: Rest =>
      match upcastTo Alternatives k ≫= fieldsOf with
      | None => revng_abort
      | Some Fields =>
        match Fields !! Idx, fs !! Idx with
        | Some next, Some f =>
          let PathSize := PathSize - 2 in
          '(f, e) ← (if PathSize =? 0 then visitElement V next f e else Ok (f, e));
          '(b, f, e) ← callOnPathSteps V next Rest PathSize f e;
          Ok (b, VPointer (Some (k, <[Idx := f]> fs)), e)
        | _, _ => Ok (false, M, e)
        end
      end
    | _ => undefined
    end
  | Container Element, VContainer es =>
    match Path with
    | [] => Ok (true, M, e)
    | KKey key :: Rest =>
      match findKey Element key es with
      | None => Ok (false, M, e)
      | Some It =>
        match es !! It with
        | Some x =>
          let PathSize := PathSize - 1 in
          '(x, e) ← (if PathSize =? 0 then (if isPointer Element then visitPointee V else visitElement V) Element x e
                     else Ok (x, e));
          '(b, x, e) ← callOnPathSteps V Element Rest PathSize x e;
          Ok (b, VContainer (<[It := x]> es), e)
        | None => undefined
        end
      end
    | _ => undefined
    end
  | _, _ => undefined
  end.

(* include/revng/TupleTree/Visits.h:335-381 callByPath *)
Definition callByPath {E} (V : Visitor E) (Root : TypeId) (Path : TupleTreePath) (M : value) (e : E) :
    outcome (bool * value * E) :=
  callOnPathSteps V Root Path (length Path) M e.

(** The last element a path leads to, if it has the type that is asked for. *)
(* include/revng/TupleTree/VisitsImpl.h:15-45 GetByPathVisitor *)
Definition GetByPathVisitor (ExpectedType : TypeId) : Visitor (option value) :=
  mkVisitor _
    (λ T Element _, Ok (Element, if bool_decide (T = ExpectedType) then Some Element else None))
    (λ T Element _, Ok (Element, None)).

(** The element itself, instead of a pointer to it. *)
(* include/revng/TupleTree/VisitsImpl.h:49-59 getByPath *)
Definition getByPath (ResultT Root : TypeId) (Path : TupleTreePath) (M : value) : outcome (option value) :=
  '(Found, _, Result) ← callByPath (GetByPathVisitor ResultT) Root Path M None;
  Ok (if (Found : bool) then Result else None).

(** What is assigned through the pointer to the element. *)
Definition AssignVisitor (ActualValue : value) : Visitor unit :=
  mkVisitor _ (λ _ _ _, Ok (ActualValue, ())) (λ _ Element _, Ok (Element, ())).

(* include/revng/TupleTree/VisitsImpl.h:64-76 setByPath *)
Definition setByPath (T Root : TypeId) (Path : TupleTreePath) (M Value : value) : outcome (value * bool) :=
  ValueInM ← getByPath T Root Path M;
  match ValueInM with
  | None => Ok (M, false)
  | Some _ => '(_, M, _) ← callByPath (AssignVisitor Value) Root Path M (); Ok (M, true)
  end.
End trees.
