(* ===== verification/TupleTreeDiff.v ===== *)
(** * Differences between tuple trees

    Computing the difference of two tuple trees, inverting it and applying it
    (include/revng/TupleTree/TupleTreeDiff.h). *)

From S2P Require Import Prelude.
From stdpp Require Import countable.
From stdpp Require Import list sorting.
From S2P Require ZipMap.
From S2P Require Import TupleTree.

Section diffs.
  Context {TypeId Kind S : Type} `{EqDecision TypeId, EqDecision Kind, EqDecision S, !Schema TypeId Kind S}.
  #[local] Notation value := (value Kind S).
  #[local] Notation Key := (Key Kind S).
  #[local] Notation TupleTreePath := (list (KeyWrapper (Kind := Kind) (S := S))).
  #[local] Notation Step := (Step (TypeId := TypeId) (Kind := Kind) (S := S)).
  #[local] Notation Visitor := (Visitor (TypeId := TypeId) (Kind := Kind) (S := S)).

(** ** Changes *)

(** The contents of the variant of all the types: a value with its type. *)
Record entry := mkEntry { EntryType : TypeId; Content : value }.

(* include/revng/TupleTree/TupleTreeDiff.h:120-135 Change *)
Record Change := mkChange { Path : TupleTreePath; Old : option entry; New : option entry }.

(** The type the visitor expects at the end of a path, when it ends at a field. *)
(* include/revng/TupleTree/TupleTreeDiff.h:71-105 CheckTypeIsCorrect *)
Definition checkStep (Alternatives : entry) (IsCorrect : bool) (s : Step) : bool :=
  let visit T Idx :=
    match fieldsOf T ≫= (.!! Idx) with
    | Some U =>
      bool_decide (EntryType Alternatives = match shape U with Container Element => Element | _ => U end)
    | None => IsCorrect
    end in
  match s with
  | TupleElement T Idx => visit T Idx
  | PolymorphicElement T Idx _ => visit T Idx
  | ContainerElement _ _ => IsCorrect
  end.

(* include/revng/TupleTree/TupleTreeDiff.h:107-116 checkTypeIsCorrect *)
Definition checkTypeIsCorrect (Root : TypeId) (Path : TupleTreePath) (Content : entry) : outcome bool :=
  '(Result, Calls) ← callByTypePath Root Path;
  revng_assert Result;;
  Ok (foldl (checkStep Content) false Calls).

(* include/revng/TupleTree/TupleTreeDiff.h:138-141 Change::createRemoval *)
Definition createRemoval (Root : TypeId) (Path : TupleTreePath) (Old : entry) : outcome Change :=
  c ← checkTypeIsCorrect Root Path Old; revng_assert c;; Ok (mkChange Path (Some Old) None).

(* include/revng/TupleTree/TupleTreeDiff.h:143-146 Change::createAddition *)
Definition createAddition (Root : TypeId) (Path : TupleTreePath) (New : entry) : outcome Change :=
  c ← checkTypeIsCorrect Root Path New; revng_assert c;; Ok (mkChange Path None (Some New)).

(* include/revng/TupleTree/TupleTreeDiff.h:148-152 Change::createChange *)
Definition createChange (Root : TypeId) (Path : TupleTreePath) (Old New : entry) : outcome Change :=
  c ← checkTypeIsCorrect Root Path New; revng_assert c;;
  c ← checkTypeIsCorrect Root Path Old; revng_assert c;;
  Ok (mkChange Path (Some Old) (Some New)).

(* include/revng/TupleTree/TupleTreeDiff.h:168-174 TupleTreeDiff::invert *)
Definition invert (Changes : list Change) : list Change :=
  map (λ c, mkChange (Path c) (New c) (Old c)) Changes.

(** ** Computing a difference *)

(** The results for the elements of a list, one after the other. *)
Definition collect {A B} (f : A → outcome (list B)) (l : list A) : outcome (list B) :=
  foldr (λ x Rest, Here ← f x; Rest ← Rest; Ok (Here ++ Rest)) (Ok []) l.

Section diff.
  Context (Root : TypeId).

(* include/revng/TupleTree/TupleTreeDiff.h:187-191 TupleTreeDiff::change *)
Definition change (T : TypeId) (Stack : TupleTreePath) (From To : value) : outcome (list Change) :=
  c ← createChange Root Stack (mkEntry T From) (mkEntry T To); Ok [c].

(** The fields one after the other; [Step] is what a field adds to the stack. *)
Section tuple.
  Context (diffField : TypeId → TupleTreePath → value → value → outcome (list Change)).
  Context (Stack : TupleTreePath) (Step : nat → TupleTreePath).

(* include/revng/TupleTree/TupleTreeDiff.h:354-366 Diff::diffTuple *)
Fixpoint diffTuple (Idx : nat) (Fields : list TypeId) (ls rs : list value) {struct ls} : outcome (list Change) :=
  match Fields, ls, rs with
  | T :: Fields, l :: ls, r :: rs =>
    Here ← diffField T (Stack ++ Step Idx) l r;
    Rest ← diffTuple (1 + Idx) Fields ls rs;
    Ok (Here ++ Rest)
  | [], [], [] => Ok []
  | _, _, _ => undefined
  end.
End tuple.

(** An element of the left container comes with the function that compares it. *)
(* include/revng/TupleTree/TupleTreeDiff.h:395-412 Diff::diffImpl *)
Definition diffPair (Element : TypeId) (Stack : TupleTreePath)
    (Pair : option (value * (value → outcome (list Change))) * option value) : outcome (list Change) :=
  match Pair with
  | (None, Some RHSElement) => c ← createAddition Root Stack (mkEntry Element RHSElement); Ok [c]
  | (Some LHSElement, None) => c ← createRemoval Root Stack (mkEntry Element LHSElement.1); Ok [c]
  | (Some LHSElement, Some RHSElement) => LHSElement.2 RHSElement
  | (None, None) => undefined
  end.

(** The changes are returned instead of appended to the result. *)
(* include/revng/TupleTree/TupleTreeDiff.h:368-419 Diff::diffImpl *)
Fixpoint diffImpl (T : TypeId) (Stack : TupleTreePath) (LHS RHS : value) {struct LHS} : outcome (list Change) :=
  match shape T, LHS, RHS with
  | Pointer Alternatives, VPointer L, VPointer R =>
    match L, R with
    | Some (k, ls), Some (k', rs) =>
      if decide (k = k') then
        match upcastTo Alternatives k ≫= fieldsOf with
        | Some Fields => diffTuple diffImpl Stack (λ Idx, [KKind k; KIndex Idx]) 0 Fields ls rs
        | None => revng_abort
        end
      else change T Stack LHS RHS
    | _, _ => if bool_decide (LHS ≠ RHS) then change T Stack LHS RHS else Ok []
    end
  | Tuple Fields, VTuple ls, VTuple rs => diffTuple diffImpl Stack (λ Idx, [KIndex Idx]) 0 Fields ls rs
  | Container Element, VContainer ls, VContainer rs =>
    Pairs ← ZipMap.zipmap_range
      (ZipMap.defaultCompare Less (λ l : value * (value → outcome (list Change)), keyOf Element l.1) (keyOf Element))
      (map (λ l, (l, diffImpl Element (Stack ++ [KKey (keyOf Element l)]) l)) ls) rs;
    collect (diffPair Element Stack) Pairs
  | Scalar, VScalar _, VScalar _ => if bool_decide (LHS ≠ RHS) then change T Stack LHS RHS else Ok []
  | _, _, _ => undefined
  end.

(* include/revng/TupleTree/TupleTreeDiff.h:349-352 Diff::diff *)
Definition diff (LHS RHS : value) : outcome (list Change) := diffImpl Root [] LHS RHS.
End diff.

(** ** Applying a difference *)

(* include/revng/TupleTree/DiffError.h:18-23 DiffLocation::KindType *)
Inductive DiffLocation := LocationAll | LocationNew | LocationOld | LocationPath.

(** The reasons of the error: the index of a change and what of it is wrong. *)
Definition Reasons : Type := list (nat * DiffLocation).

(** [insert_or_assign] of a container sorted by key. *)
(* include/revng/TupleTree/TupleTreeDiff.h:46-54 addToContainer *)
Fixpoint addToContainer (Element : TypeId) (Value : value) (Elements : list value) : list value :=
  match Elements with
  | [] => [Value]
  | e :: Elements =>
    if Less (keyOf Element Value) (keyOf Element e) then Value :: e :: Elements
    else if Less (keyOf Element e) (keyOf Element Value) then e :: addToContainer Element Value Elements
    else Value :: Elements
  end.

Section apply.
  Context (C : Change) (ChangeIndex : nat).

(* include/revng/TupleTree/TupleTreeDiff.h:503-513 ApplyDiffVisitor::generateError *)
Definition generateError (EL : Reasons) (Kind : DiffLocation) : Reasons := EL ++ [(ChangeIndex, Kind)].

(** [std::get] fails on a variant that holds another type. *)
Definition getContent (T : TypeId) (e : entry) : outcome value :=
  if decide (EntryType e = T) then Ok (Content e) else revng_abort.

(* include/revng/TupleTree/TupleTreeDiff.h:532-571 ApplyDiffVisitor::visit *)
Definition visitContainer (Element : TypeId) (M : list value) (EL : Reasons) : outcome (list value * Reasons) :=
  match Old C, New C with
  | None, None => Ok (M, generateError EL LocationAll)
  | Some _, Some _ => Ok (M, generateError EL LocationAll)
  | Some Old, None =>
    o ← getContent Element Old;
    let Kept := filter (λ V, keyOf Element V ≠ keyOf Element o) M in
    Ok (Kept, if length M =? length Kept + 1 then EL else generateError EL LocationOld)
  | None, Some New =>
    n ← getContent Element New;
    let Added := addToContainer Element n M in
    Ok (Added, if length M + 1 =? length Added then EL else generateError EL LocationNew)
  end.

(* include/revng/TupleTree/TupleTreeDiff.h:573-605 ApplyDiffVisitor::visit *)
Definition visitOther (T : TypeId) (M : value) (EL : Reasons) : outcome (value * Reasons) :=
  Matches ← match Old C with
            | None => Ok (isPointer T && bool_decide (M = VPointer None))
            | Some Old => o ← getContent T Old; Ok (bool_decide (o = M))
            end;
  if negb Matches then Ok (M, generateError EL LocationOld) else
  match New C with
  | Some New => n ← getContent T New; Ok (n, EL)
  | None => if isPointer T then Ok (VPointer None, EL) else Ok (M, generateError EL LocationNew)
  end.

(* include/revng/TupleTree/TupleTreeDiff.h:516-530 ApplyDiffVisitor::visitTupleElement *)
Definition visitField (T : TypeId) (M : value) (EL : Reasons) : outcome (value * Reasons) :=
  match shape T, M with
  | Container Element, VContainer es => '(es, EL) ← visitContainer Element es EL; Ok (VContainer es, EL)
  | Container _, _ => undefined
  | _, _ => visitOther T M EL
  end.

(** What a pointer in a container points to is visited as an object of the base
    class, of which a change has no contents. *)
(* include/revng/TupleTree/TupleTreeDiff.h:527-530 ApplyDiffVisitor::visitContainerElement *)
Definition visitBase (T : TypeId) (M : value) (EL : Reasons) : outcome (value * Reasons) :=
  match Old C with
  | None => Ok (M, generateError EL LocationOld)
  | Some _ => revng_abort
  end.

(* include/revng/TupleTree/TupleTreeDiff.h:492-606 ApplyDiffVisitor *)
Definition ApplyDiffVisitor : Visitor Reasons := mkVisitor _ visitField visitBase.
End apply.

(* include/revng/TupleTree/TupleTreeDiff.h:618-631 TupleTreeDiff::apply *)
Fixpoint applyFrom (Root : TypeId) (Index : nat) (Changes : list Change) (M : value) (Error : Reasons) :
    outcome (value * Reasons) :=
  match Changes with
  | [] => Ok (M, Error)
  | C :: Changes =>
    '(M, Error) ← (if bool_decide (Path C = []) then Ok (M, Error ++ [(Index, LocationPath)])
                   else
                     '(Found, M, Error) ← callByPath (ApplyDiffVisitor C Index) Root (Path C) M Error;
                     Ok (M, if (Found : bool) then Error else Error ++ [(Index, LocationPath)]));
    applyFrom Root (1 + Index) Changes M Error
  end.

(** The references are scalars, whose root is not part of them. *)
(* include/revng/TupleTree/TupleTreeDiff.h:610-638 TupleTreeDiff::apply *)
Definition apply (Root : TypeId) (Changes : list Change) (M : value) : outcome (value * Reasons) :=
  applyFrom Root 0 Changes M [].

(** ** What a difference affects *)

(* include/revng/TupleTree/TupleTreeDiff.h:446-464 elementPath *)
Definition elementPath (isElement : TypeId → bool) (C : Change) : option TupleTreePath :=
  match Old C, New C with
  | None, Some Element | Some Element, None =>
    if isElement (EntryType Element) then Some (Path C ++ [KKey (keyOf (EntryType Element) (Content Element))]) else None
  | _, _ => None
  end.
End diffs.

(** ** Well-typed data *)

Section facts.
  Context {TypeId Kind S : Type} `{EqDecision TypeId, EqDecision Kind, EqDecision S, !Schema TypeId Kind S}.
  #[local] Notation value := (value Kind S).
  #[local] Notation Key := (Key Kind S).
  #[local] Notation TupleTreePath := (list (KeyWrapper (Kind := Kind) (S := S))).
  #[local] Notation Step := (Step (TypeId := TypeId) (Kind := Kind) (S := S)).
  #[local] Notation Change := (Change (TypeId := TypeId) (Kind := Kind) (S := S)).
  #[local] Set Default Proof Using "Type*".

(** Keys are totally ordered. *)
Record keysOrdered : Prop := {
  ko_irrefl (k : Key) : Less k k = false;
  ko_trans (x y z : Key) : Less x y = true → Less y z = true → Less x z = true;
  ko_total (x y : Key) : Less x y = true ∨ x = y ∨ Less y x = true;
}.

Definition byKey (Element : TypeId) (a b : value) : Prop := Less (keyOf Element a) (keyOf Element b) = true.

(** The elements of a container are sorted by key, are not null and are not
    containers themselves. *)
Inductive typed : TypeId → value → Prop :=
  | typed_scalar T s : shape T = Scalar → typed T (VScalar s)
  | typed_tuple T Fields fs : shape T = Tuple Fields → Forall2 typed Fields fs → typed T (VTuple fs)
  | typed_null T Alternatives : shape T = Pointer Alternatives → typed T (VPointer None)
  | typed_pointer T Alternatives k Fields fs :
      shape T = Pointer Alternatives → upcastTo Alternatives k ≫= fieldsOf = Some Fields → Forall2 typed Fields fs →
      typed T (VPointer (Some (k, fs)))
  | typed_container T Element es :
      shape T = Container Element → (∀ E, shape Element ≠ Container E) → Forall (typed Element) es →
      Forall (λ e, e ≠ VPointer None) es → StronglySorted (byKey Element) es → typed T (VContainer es).

(** *** The type at the end of a path

    [true] when the path ends at a field. *)
Inductive reaches (Root : TypeId) : TupleTreePath → TypeId → bool → Prop :=
  | reaches_root : reaches Root [] Root false
  | reaches_field P T b Fields Idx U :
      reaches Root P T b → shape T = Tuple Fields → Fields !! Idx = Some U → reaches Root (P ++ [KIndex Idx]) U true
  | reaches_pointee P T b Alternatives k Fields Idx U :
      reaches Root P T b → shape T = Pointer Alternatives → upcastTo Alternatives k ≫= fieldsOf = Some Fields →
      Fields !! Idx = Some U → reaches Root (P ++ [KKind k; KIndex Idx]) U true
  | reaches_element P T b Element key :
      reaches Root P T b → shape T = Container Element → reaches Root (P ++ [KKey key]) Element false.

Definition stepSize (s : Step) : nat := match s with PolymorphicElement _ _ _ => 2 | _ => 1 end.

(** The type of the field a step is about. *)
Definition stepType (s : Step) : option TypeId :=
  match s with
  | TupleElement T Idx => fieldsOf T ≫= (.!! Idx)
  | PolymorphicElement T Idx _ => fieldsOf T ≫= (.!! Idx)
  | ContainerElement _ _ => None
  end.

Lemma callOnTypeSteps_reaches Root P T b :
  reaches Root P T b → ∃ Steps, sum_list_with stepSize Steps = length P ∧
    (b = true → ∃ Before s, Steps = Before ++ [s] ∧ stepType s = Some T) ∧
    ∀ Q, callOnTypeSteps Root (P ++ Q) = '(r, After) ← callOnTypeSteps T Q; Ok (r, Steps ++ After).
Proof.
  intros Hr. induction Hr as [|P T b Fields Idx U _ IH HT HU|P T b A k Fields Idx U _ IH HT Hk HU|P T b E key _ IH HT].
  - exists []. split; [done|]. split; [done|]. intros Q. cbn. by destruct (callOnTypeSteps Root Q) as [[? ?]|].
  - destruct IH as (Steps & Hs & _ & HQ). exists (Steps ++ [TupleElement T Idx]). split; [|split].
    + rewrite sum_list_with_app, Hs, length_app. done.
    + intros _. exists Steps, (TupleElement T Idx). split; [done|]. cbn. unfold fieldsOf. by rewrite HT.
    + intros Q. rewrite <-app_assoc, HQ. cbn. rewrite HT, HU.
      destruct (callOnTypeSteps U Q) as [[? ?]|]; cbn; [|done]. by rewrite <-app_assoc.
  - destruct IH as (Steps & Hs & _ & HQ). destruct (upcastTo A k) as [V|] eqn:HV; [|done]. cbn in Hk.
    exists (Steps ++ [PolymorphicElement V Idx k]). split; [|split].
    + rewrite sum_list_with_app, Hs, length_app. done.
    + intros _. exists Steps, (PolymorphicElement V Idx k). split; [done|]. cbn. by rewrite Hk.
    + intros Q. rewrite <-app_assoc, HQ. cbn. rewrite HT, HV, Hk, HU.
      destruct (callOnTypeSteps U Q) as [[? ?]|]; cbn; [|done]. by rewrite <-app_assoc.
  - destruct IH as (Steps & Hs & _ & HQ). exists (Steps ++ [ContainerElement T key]). split; [|split; [done|]].
    + rewrite sum_list_with_app, Hs, length_app. done.
    + intros Q. rewrite <-app_assoc, HQ. cbn. rewrite HT.
      destruct (callOnTypeSteps E Q) as [[? ?]|]; cbn; [|done]. by rewrite <-app_assoc.
Qed.

Lemma lastCalls_last Before s n :
  sum_list_with stepSize (Before ++ [s]) = n → lastCalls n (Before ++ [s]) = [s].
Proof.
  revert n. induction Before as [|a Before IH]; intros n Hn; cbn [lastCalls app].
  - cbn in Hn. assert (n - match s with PolymorphicElement _ _ _ => 2 | _ => 1 end = 0) as -> by (destruct s; cbn in *; lia). done.
  - assert (0 < stepSize s) by (destruct s; cbn; lia).
    rewrite <-app_comm_cons in Hn. cbn [sum_list_with] in Hn. rewrite sum_list_with_app in Hn. cbn in Hn.
    assert (n - match a with PolymorphicElement _ _ _ => 2 | _ => 1 end = n - stepSize a) as -> by by destruct a.
    destruct (Nat.eqb_spec (n - stepSize a) 0); [lia|]. apply IH. rewrite sum_list_with_app. cbn. lia.
Qed.

(** The type a change at a field has to have. *)
Lemma checkTypeIsCorrect_field Root P T v :
  reaches Root P T true →
  checkTypeIsCorrect Root P (mkEntry (match shape T with Container E => E | _ => T end) v) = Ok true.
Proof.
  intros Hr. destruct (callOnTypeSteps_reaches Root P T true Hr) as (Steps & Hs & Hlast & HQ).
  destruct (Hlast eq_refl) as (Before & s & -> & Ht).
  unfold checkTypeIsCorrect, callByTypePath. specialize (HQ []). rewrite !app_nil_r in HQ. rewrite HQ. cbn.
  rewrite app_nil_r, (lastCalls_last Before s) by done. cbn.
  unfold checkStep. destruct s; cbn in Ht |- *; [rewrite Ht|rewrite Ht|done]; by rewrite bool_decide_true.
Qed.
End facts.

(** *** Equal data *)

Section changes.
  Context {TypeId Kind S : Type} `{EqDecision TypeId, EqDecision Kind, EqDecision S, !Schema TypeId Kind S}.
  #[local] Notation value := (value Kind S).
  #[local] Notation Key := (Key Kind S).
  #[local] Notation TupleTreePath := (list (KeyWrapper (Kind := Kind) (S := S))).
  #[local] Notation Change := (Change (TypeId := TypeId) (Kind := Kind) (S := S)).
  #[local] Set Default Proof Using "Type*".
  Context (Ordered : keysOrdered (TypeId := TypeId) (Kind := Kind) (S := S)) (Root : TypeId).

Lemma collect_nil {A B} (f : A → outcome (list B)) l : (∀ x, x ∈ l → f x = Ok []) → collect f l = Ok [].
Proof using Type.
  induction l as [|x l IH]; [done|]. intros Hall. cbn. rewrite (Hall x) by by left. rewrite bind_ok.
  unfold collect in IH. rewrite IH; [done|]. intros y Hy. apply Hall. by right.
Qed.

Lemma diffTuple_nil diffField (Stack : TupleTreePath) Step Idx (Fields : list TypeId) (ls : list value) :
  length Fields = length ls →
  (∀ T l P, l ∈ ls → (T, l) ∈ zip Fields ls → diffField T P l l = Ok []) →
  diffTuple (TypeId := TypeId) diffField Stack Step Idx Fields ls ls = Ok [].
Proof using Type.
  revert Idx Fields. induction ls as [|l ls IH]; intros Idx [|T Fields] Hl Hd; try done. cbn [diffTuple].
  rewrite Hd by (left || (cbn; left)). rewrite bind_ok, IH; [done|by injection Hl|].
  intros T' l' P Hl' Hz. apply Hd; [by right|cbn; by right].
Qed.

(** The difference between a value and itself is empty. *)
Lemma diffImpl_self v T Stack : typed T v → diffImpl Root T Stack v v = Ok [].
Proof.
  revert T Stack. induction v as [s|fs IH| |k fs IH|es IH] using value_ind'; intros T Stack Ht;
    inversion Ht as [? ? HT|? Fields ? HT Hf|? A HT|? A ? Fields ? HT Hk Hf|? E ? HT HE Hf Hn Hs]; subst; cbn [diffImpl]; rewrite HT.
  - by rewrite bool_decide_false by (intros Hn; by apply Hn).
  - apply diffTuple_nil; [by eapply Forall2_length|]. intros U l P Hl Hz.
    rewrite Forall_forall in IH. apply IH; [done|].
    apply list_elem_of_lookup in Hz as [i Hi]. rewrite lookup_zip_Some in Hi. destruct Hi as [HU Hli].
    by eapply (Forall2_lookup_lr _ _ _ _ _ _ Hf).
  - by rewrite bool_decide_false by (intros Hn; by apply Hn).
  - rewrite decide_True by done. rewrite Hk. apply diffTuple_nil; [by eapply Forall2_length|]. intros U l P Hl Hz.
    rewrite Forall_forall in IH. apply IH; [done|].
    apply list_elem_of_lookup in Hz as [i Hi]. rewrite lookup_zip_Some in Hi. destruct Hi as [HU Hli].
    by eapply (Forall2_lookup_lr _ _ _ _ _ _ Hf).
  - rewrite ZipMap.zipmap_equal.
    2: { apply Forall2_fmap_l. apply Forall_Forall2_diag, Forall_true. intros x.
         unfold ZipMap.defaultCompare. cbn. by rewrite (ko_irrefl Ordered). }
    rewrite bind_ok. apply collect_nil. intros p Hp. apply list_elem_of_lookup in Hp as [i Hi].
    rewrite lookup_zip_with_Some in Hi. destruct Hi as (x & y & -> & Hx & Hy).
    rewrite list_lookup_fmap, Hy in Hx. cbn in Hx. injection Hx as <-. cbn.
    rewrite Forall_lookup in IH, Hf. apply (IH i); [done|]. by apply (Hf i).
Qed.

(** *** Changes in context *)

Definition under (P : TupleTreePath) (c : Change) : Change := mkChange (P ++ Path c) (Old c) (New c).

(** A change reaches an element with what is left of its path. *)
Definition enter (C : Change) (Idx : nat) (T : TypeId) (P : TupleTreePath) (M : value) (EL : Reasons) :
    outcome (bool * value * Reasons) :=
  '(M, EL) ← (if length P =? 0 then visitField C Idx T M EL else Ok (M, EL));
  callOnPathSteps (ApplyDiffVisitor C Idx) T P (length P) M EL.

(** The changes of a list, with paths from an element of type [T]. *)
Fixpoint runs (T : TypeId) (cs : list Change) (Idx : nat) (M : value) (EL : Reasons) : outcome (value * Reasons) :=
  match cs with
  | [] => Ok (M, EL)
  | c :: cs =>
    '(b, M, EL) ← enter c Idx T (Path c) M EL;
    runs T cs (1 + Idx) M (if (b : bool) then EL else EL ++ [(Idx, LocationPath)])
  end.

(** The reasons for the changes that leave a pointer empty. *)
Fixpoint emptied (Idx : nat) (cs : list Change) : Reasons :=
  match cs with
  | [] => []
  | c :: cs =>
    (match New c with Some e => if decide (Content e = VPointer None) then [(Idx, LocationPath)] else [] | None => [] end) ++
    emptied (1 + Idx) cs
  end.

Lemma runs_app T a b Idx M EL :
  runs T (a ++ b) Idx M EL = '(M, EL) ← runs T a Idx M EL; runs T b (length a + Idx) M EL.
Proof using Type.
  revert Idx M EL. induction a as [|c a IH]; intros Idx M EL; [done|]. cbn [app runs].
  destruct (enter c Idx T (Path c) M EL) as [[[b' M'] EL']|]; cbn; [|done]. rewrite IH.
  by rewrite Nat.add_succ_r.
Qed.

Lemma emptied_app a b Idx : emptied Idx (a ++ b) = emptied Idx a ++ emptied (length a + Idx) b.
Proof using Type.
  revert Idx. induction a as [|c a IH]; intros Idx; [done|]. cbn [app emptied]. rewrite IH, app_assoc. cbn.
  by rewrite Nat.add_succ_r.
Qed.

Lemma emptied_under P cs Idx : emptied Idx (map (under P) cs) = emptied Idx cs.
Proof using Type. revert Idx. induction cs as [|c cs IH]; intros Idx; [done|]. cbn. by rewrite IH. Qed.

Lemma under_under P Q cs : map (under P) (map (under Q) cs) = map (under (P ++ Q)) cs.
Proof using Type. rewrite map_map. apply map_ext. intros c. unfold under. cbn. by rewrite app_assoc. Qed.

(** [wrap] puts an element of type [U] in a value of type [T], at [Pre]. *)
Definition wraps (T : TypeId) (Pre : TupleTreePath) (wrap : value → value) (U : TypeId) (ok : value → Prop)
    (okPath : TupleTreePath → Prop) : Prop :=
  ∀ C Idx P f EL, ok f → okPath P →
    enter C Idx T (Pre ++ P) (wrap f) EL = '(b, f, EL) ← enter C Idx U P f EL; Ok (b, wrap f, EL).

Lemma runs_wrap T Pre wrap U ok okPath cs Idx f EL f' EL' :
  wraps T Pre wrap U ok okPath → Forall (λ c, okPath (Path c)) cs →
  (∀ c Idx f b f' EL EL', c ∈ cs → ok f → enter c Idx U (Path c) f EL = Ok (b, f', EL') → ok f') →
  ok f → runs U cs Idx f EL = Ok (f', EL') → runs T (map (under Pre) cs) Idx (wrap f) EL = Ok (wrap f', EL').
Proof using Type.
  intros Hw HP Hok. revert Idx f EL. induction cs as [|c cs IH]; intros Idx f EL Hf Hr; cbn [runs map] in *; [congruence|].
  apply Forall_cons in HP as [Hc HP].
  destruct (enter c Idx U (Path c) f EL) as [[[b g] EL1]|] eqn:He; [|done]. cbn in Hr.
  change (enter (under Pre c) Idx T (Path (under Pre c)) (wrap f) EL) with (enter c Idx T (Pre ++ Path c) (wrap f) EL).
  rewrite Hw by done. rewrite He. cbn. apply IH; [done| | |done].
  - intros c' ? ? ? ? ? ? Hc'. eapply Hok. by right.
  - eapply Hok; [left|exact Hf|exact He].
Qed.

Lemma wraps_field T Fields before after U :
  shape T = Tuple Fields → Fields !! length before = Some U →
  wraps T [KIndex (length before)] (λ f, VTuple (before ++ f :: after)) U (λ _, True) (λ _, True).
Proof using Type.
  intros HT HU C Idx P f EL _ _. unfold enter. cbn. rewrite HT, HU, list_lookup_middle, Nat.sub_0_r by done.
  destruct (if length P =? 0 then _ else _) as [[g EL1]|]; cbn; [|done].
  destruct (callOnPathSteps _ U P _ g EL1) as [[[b h] EL2]|]; cbn; [|done]. by rewrite insert_app_r_alt, Nat.sub_diag by done.
Qed.

Lemma wraps_pointee T A k Fields before after U :
  shape T = Pointer A → upcastTo A k ≫= fieldsOf = Some Fields → Fields !! length before = Some U →
  wraps T [KKind k; KIndex (length before)] (λ f, VPointer (Some (k, before ++ f :: after))) U (λ _, True) (λ _, True).
Proof using Type.
  intros HT Hk HU C Idx P f EL _ _. unfold enter. cbn. rewrite HT, Hk, HU, list_lookup_middle, Nat.sub_0_r by done.
  destruct (if length P =? 0 then _ else _) as [[g EL1]|]; cbn; [|done].
  destruct (callOnPathSteps _ U P _ g EL1) as [[[b h] EL2]|]; cbn; [|done]. by rewrite insert_app_r_alt, Nat.sub_diag by done.
Qed.

Lemma findKey_middle E key before x after :
  keyOf E x = key → Forall (λ e, keyOf E e ≠ key) before → findKey E key (before ++ x :: after) = Some (length before).
Proof using Type.
  intros Hx Hb. unfold findKey. rewrite list_find_app_r; [|by apply list_find_None].
  cbn. by rewrite decide_True by done.
Qed.

Lemma wraps_element T E key before after :
  shape T = Container E → Forall (λ e, keyOf E e ≠ key) before →
  wraps T [KKey key] (λ x, VContainer (before ++ x :: after)) E (λ x, keyOf E x = key) (λ P, P ≠ []).
Proof using Type.
  intros HT Hb C Idx P f EL Hf HP. unfold enter. cbn. rewrite HT, findKey_middle, list_lookup_middle, Nat.sub_0_r by done.
  destruct P as [|p P]; [done|]. cbn [length Nat.eqb]. cbn -[callOnPathSteps].
  destruct (callOnPathSteps _ E (p :: P) _ f EL) as [[[b h] EL2]|]; cbn; [|done]. by rewrite insert_app_r_alt, Nat.sub_diag by done.
Qed.

(** *** What a difference does *)

(** The changes are only on the fields that are not equal. *)
Definition changesOnly (l r : value) (c : Change) : Prop :=
  match l, r with
  | VTuple ls, VTuple rs => ∃ Idx P, Path c = KIndex Idx :: P ∧ ls !! Idx ≠ rs !! Idx
  | VPointer (Some (k, ls)), VPointer (Some (k', rs)) =>
    k = k' → ∃ Idx P, Path c = KKind k :: KIndex Idx :: P ∧ ls !! Idx ≠ rs !! Idx
  | _, _ => True
  end.

(** Two values that are compared at the end of a path that is not a field's. *)
Definition comparable (T : TypeId) (l r : value) : Prop :=
  match shape T with
  | Tuple _ => True
  | Scalar => l = r
  | Pointer _ => ∃ k ls rs, l = VPointer (Some (k, ls)) ∧ r = VPointer (Some (k, rs))
  | Container _ => False
  end.

Definition diffRuns (l : value) : Prop := ∀ T r Stack b,
  typed T l → typed T r → reaches Root Stack T b → b = true ∨ comparable T l r →
  ∃ ds, diffImpl Root T Stack l r = Ok (map (under Stack) ds) ∧
    (∀ Idx EL, runs T ds Idx l EL = Ok (r, EL ++ emptied Idx ds)) ∧ Forall (changesOnly l r) ds.

(** A change of the whole value at a field. *)
Lemma change_runs T l r Stack :
  reaches Root Stack T true → (∀ E, shape T ≠ Container E) → l ≠ r →
  (∃ A o, shape T = Pointer A ∧ r = VPointer o) ∨ (∃ s, r = VScalar s ∧ shape T = Scalar) →
  ∃ ds, change Root T Stack l r = Ok (map (under Stack) ds) ∧
    (∀ Idx EL, runs T ds Idx l EL = Ok (r, EL ++ emptied Idx ds)) ∧ Forall (λ c, Path c = []) ds.
Proof using Type.
  intros Hr HT Hne Hshape. set (c := mkChange [] (Some (mkEntry T l)) (Some (mkEntry T r))).
  exists [c]. split; [|split; [|by constructor]].
  - unfold change, createChange. pose proof (checkTypeIsCorrect_field Root Stack T) as Hc.
    assert (match shape T with Container E => E | _ => T end = T) as HE by (destruct (shape T); [done..|by edestruct HT]).
    rewrite HE in Hc. rewrite !Hc by done. cbn. unfold under. cbn. by rewrite app_nil_r.
  - intros Idx EL. cbn [runs Path c]. unfold enter. cbn [length Nat.eqb].
    assert (visitField c Idx T l EL = Ok (r, EL)) as Hv.
    { unfold visitField. destruct (shape T) as [| | |E] eqn:HS; [..|by edestruct HT]; unfold visitOther, getContent, c; cbn;
        rewrite !decide_True by done; cbn; by rewrite bool_decide_true. }
    rewrite Hv, bind_ok. cbn [callOnPathSteps]. destruct Hshape as [(A & o & HA & ->)|(s & -> & HS)].
    + rewrite HA. destruct o as [[k fs]|]; cbn; [by rewrite app_nil_r|done].
    + rewrite HS. cbn. by rewrite app_nil_r.
Qed.

Lemma diffTuple_runs T Stack (step : nat → TupleTreePath) (wrap : list value → value) Fields :
  (∀ Idx U, Fields !! Idx = Some U → reaches Root (Stack ++ step Idx) U true) →
  (∀ U before after, Fields !! length before = Some U →
    wraps T (step (length before)) (λ f, wrap (before ++ f :: after)) U (λ _, True) (λ _, True)) →
  ∀ ls Fs1 Fs2 before rs, Fields = Fs1 ++ Fs2 → length before = length Fs1 →
    Forall diffRuns ls → Forall2 typed Fs2 ls → Forall2 typed Fs2 rs →
    ∃ ds, diffTuple (diffImpl Root) Stack step (length before) Fs2 ls rs = Ok (map (under Stack) ds) ∧
      (∀ Idx EL, runs T ds Idx (wrap (before ++ ls)) EL = Ok (wrap (before ++ rs), EL ++ emptied Idx ds)) ∧
      Forall (λ c, ∃ J P, Path c = step (length before + J) ++ P ∧ ls !! J ≠ rs !! J) ds.
Proof.
  intros Hreach Hwrap ls. induction ls as [|l ls IH]; intros Fs1 Fs2 before rs HF Hb Hruns Hl Hr.
  - apply Forall2_nil_inv_r in Hl as ->. apply Forall2_nil_inv_l in Hr as ->.
    exists []. split; [done|]. split; [|constructor]. intros Idx EL. cbn. by rewrite !app_nil_r.
  - apply Forall2_cons_inv_r in Hl as (U & Fs3 & Hl & Hls & ->). apply Forall2_cons_inv_l in Hr as (r & rs' & Hr & Hrs & ->).
    apply Forall_cons in Hruns as [Hd Hruns].
    assert (Fields !! length before = Some U) as HU by (subst Fields; rewrite Hb; by apply list_lookup_middle).
    destruct (Hd U r (Stack ++ step (length before)) true Hl Hr) as (ds1 & Hds1 & Hr1 & _); [by apply Hreach|by left|].
    destruct (IH (Fs1 ++ [U]) Fs3 (before ++ [r]) rs') as (ds2 & Hds2 & Hr2 & Hc2);
      [by rewrite HF, <-app_assoc|rewrite !length_app; cbn; lia|done|done|done|].
    exists (map (under (step (length before))) ds1 ++ ds2). split; [|split].
    + cbn [diffTuple]. rewrite Hds1, bind_ok. replace (length (before ++ [r])) with (1 + length before) in Hds2 by (rewrite length_app; cbn; lia).
      rewrite Hds2, bind_ok. by rewrite map_app, under_under.
    + intros Idx EL. rewrite runs_app.
      rewrite (runs_wrap T (step (length before)) (λ f, wrap (before ++ f :: ls)) U (λ _, True) (λ _, True) ds1 Idx l EL r
        (EL ++ emptied Idx ds1)); [|exact (Hwrap U before ls HU)|by apply Forall_true|done|done|apply Hr1].
      rewrite bind_ok. specialize (Hr2 (length (map (under (step (length before))) ds1) + Idx) (EL ++ emptied Idx ds1)).
      rewrite <-!app_assoc in Hr2. cbn [app] in Hr2. rewrite Hr2.
      by rewrite emptied_app, emptied_under, app_assoc.
    + apply Forall_app. split.
      * apply Forall_map, Forall_forall. intros c Hc. exists 0, (Path c). rewrite Nat.add_0_r. split; [done|]. cbn.
        intros [= ->]. rewrite (diffImpl_self r U) in Hds1 by done. by destruct ds1; [apply elem_of_nil in Hc|].
      * eapply Forall_impl; [exact Hc2|]. intros c (J & P & HP & HJ). exists (1 + J), P. split; [|done].
        rewrite HP, length_app. cbn. do 2 f_equal. lia.
Qed.

(** A change of a field that is not part of the key leaves the key alone. *)
Lemma enter_keeps_key E c Idx P P' Field f b f' EL EL' :
  Path c = P' ++ KIndex Field :: P →
  (∃ Fields, shape E = Tuple Fields ∧ P' = []) ∨ (∃ A k, shape E = Pointer A ∧ P' = [KKind k]) →
  Field ∉ keyFields E → enter c Idx E (Path c) f EL = Ok (b, f', EL') → keyOf E f' = keyOf E f.
Proof using Type.
  intros -> HE Hf. unfold enter.
  assert (∀ (fs : list value) x, (λ i, <[Field := x]> fs !! i) <$> keyFields E = (λ i, fs !! i) <$> keyFields E) as Hext.
  { intros fs x. apply list_fmap_ext. intros i j Hj. rewrite list_lookup_insert_ne; [done|].
    intros <-. apply Hf. by eapply list_elem_of_lookup_2. }
  destruct HE as [(Fields & HE & ->)|(A & k & HE & ->)]; cbn; rewrite HE; destruct f as [|fs|[[k' fs]|]|]; try done.
  - destruct (Fields !! Field) as [U|], (fs !! Field) as [x|]; try (intros [= <- <- <-]; done).
    destruct (if length P - 0 =? 0 then _ else _) as [[g EL1]|]; cbn; [|done].
    destruct (callOnPathSteps _ U P _ g EL1) as [[[b' h] EL2]|]; cbn; [|done]. intros [= <- <- <-]. cbn. by rewrite Hext.
  - destruct (upcastTo A k' ≫= fieldsOf) as [Fields|]; [|done].
    destruct (Fields !! Field) as [U|], (fs !! Field) as [x|]; try (intros [= <- <- <-]; done).
    destruct (if length P - 0 =? 0 then _ else _) as [[g EL1]|]; cbn; [|done].
    destruct (callOnPathSteps _ U P _ g EL1) as [[[b' h] EL2]|]; cbn; [|done]. intros [= <- <- <-]. cbn. by rewrite Hext.
  - intros [= <- <- <-]. done.
Qed.

(** Elements with the same key: they are compared field by field, and the changes
    are of fields that are not part of the key. *)
Lemma element_runs T E l r Stack before after b :
  shape T = Container E → (∀ E', shape E ≠ Container E') → reaches Root Stack T b →
  typed E l → typed E r → l ≠ VPointer None → r ≠ VPointer None → keyOf E l = keyOf E r →
  Forall (λ e, keyOf E e ≠ keyOf E l) before → diffRuns l →
  ∃ ds, diffImpl Root E (Stack ++ [KKey (keyOf E l)]) l r = Ok (map (under Stack) ds) ∧
    ∀ Idx EL, runs T ds Idx (VContainer (before ++ l :: after)) EL =
      Ok (VContainer (before ++ r :: after), EL ++ emptied Idx ds).
Proof.
  intros HT HE Hreach Hl Hr Hnl Hnr Hkey Hbefore Hd.
  destruct (Hd E r (Stack ++ [KKey (keyOf E l)]) false Hl Hr) as (ds & Hds & Hruns & Honly).
  { by eapply reaches_element. }
  { right. unfold comparable. inversion Hl as [? s HU|? Fs fs HU|? A HU|? A k Fs fs HU|? E' es HU HE']; subst; rewrite ?HU; try done.
    - inversion Hr as [? s' HU'|? ? ? HU'|? ? HU'|? ? ? ? ? HU'|? ? ? HU']; subst; rewrite HU in HU'; try done.
      by injection Hkey as ->.
    - inversion Hr as [? s' HU'|? ? ? HU'|? ? HU'|? ? k' ? fs' HU'|? ? ? HU']; subst; rewrite HU in HU'; try done.
      injection Hkey as _ ->. by eexists _, _, _.
    - by edestruct HE. }
  exists (map (under [KKey (keyOf E l)]) ds). rewrite under_under. split; [done|]. intros Idx EL.
  rewrite emptied_under.
  assert (∀ c, c ∈ ds → ∃ P' Field P, Path c = P' ++ KIndex Field :: P ∧ Field ∉ keyFields E ∧
    ((∃ Fields, shape E = Tuple Fields ∧ P' = []) ∨ (∃ A k, shape E = Pointer A ∧ P' = [KKind k]))) as Hpath.
  { intros c Hc. rewrite Forall_forall in Honly. specialize (Honly c Hc).
    assert (∀ (fs fs' : list value) Field, ((λ i, fs !! i) <$> keyFields E) = ((λ i, fs' !! i) <$> keyFields E) →
      fs !! Field ≠ fs' !! Field → Field ∉ keyFields E) as Hnot.
    { intros fs fs' Field Heq Hne [j Hj]%list_elem_of_lookup_1. apply Hne.
      assert (((λ i, fs !! i) <$> keyFields E) !! j = ((λ i, fs' !! i) <$> keyFields E) !! j) as Hat by by rewrite Heq.
      rewrite !list_lookup_fmap, Hj in Hat. cbn in Hat. congruence. }
    inversion Hl as [? s HU|? Fs fs HU|? A HU|? A k Fs fs HU|? E' es HU HE']; subst; try done.
    - inversion Hr as [? s' HU'|? ? ? HU'|? ? HU'|? ? ? ? ? HU'|? ? ? HU']; subst; rewrite HU in HU'; try done.
      injection Hkey as ->. rewrite (diffImpl_self (VScalar s') E) in Hds by by constructor.
      destruct ds; [by apply elem_of_nil in Hc|done].
    - inversion Hr as [? s' HU'|? ? fs' HU'|? ? HU'|? ? ? ? ? HU'|? ? ? HU']; subst; rewrite HU in HU'; try done.
      destruct Honly as (Field & P & HP & Hne). injection Hkey as Hkey. exists [], Field, P. split; [done|].
      split; [by eapply Hnot|]. left. by eexists.
    - inversion Hr as [? s' HU'|? ? ? HU'|? ? HU'|? ? k' ? fs' HU'|? ? ? HU']; subst; rewrite HU in HU'; try done.
      injection Hkey as Hkey ->. destruct Honly as (Field & P & HP & Hne); [done|]. exists [KKind k'], Field, P. split; [done|].
      split; [by eapply Hnot|]. right. by eexists _, _.
    - by edestruct HE. }
  apply (runs_wrap T _ (λ x, VContainer (before ++ x :: after)) E (λ x, keyOf E x = keyOf E l) (λ P, P ≠ [])); [|..|apply Hruns].
  - by apply wraps_element.
  - apply Forall_forall. intros c Hc. destruct (Hpath c Hc) as (P' & Field & P & -> & _). by destruct P'.
  - intros c Idx' f b' f' EL1 EL2 Hc <- He. destruct (Hpath c Hc) as (P' & Field & P & HP & Hf & HE').
    by eapply enter_keeps_key.
  - done.
Qed.

(** The changes of the elements of a container only. *)
Lemma add_middle E r before after :
  Forall (λ e, Less (keyOf E e) (keyOf E r) = true) before → Forall (λ e, Less (keyOf E r) (keyOf E e) = true) after →
  addToContainer E r (before ++ after) = before ++ r :: after.
Proof.
  intros Hb Ha. induction Hb as [|e before He Hb IH]; cbn [app addToContainer].
  - destruct Ha as [|e after He _]; [done|]. cbn [addToContainer]. by rewrite He.
  - rewrite He, IH. destruct (Less (keyOf E r) (keyOf E e)) eqn:Hre; [|done].
    pose proof (ko_trans Ordered _ _ _ He Hre) as Hc. by rewrite (ko_irrefl Ordered) in Hc.
Qed.

Lemma Less_ne (k k' : Key) : Less k k' = true → k ≠ k'.
Proof. intros Hl ->. by rewrite (ko_irrefl Ordered) in Hl. Qed.

Lemma filter_others E key (es : list value) :
  Forall (λ e, keyOf E e ≠ key) es → filter (λ e, keyOf E e ≠ key) es = es.
Proof using Type. induction 1 as [|e es He _ IH]; [done|]. by rewrite filter_cons_True, IH. Qed.

Lemma addition_runs T E r Stack before after Idx EL :
  shape T = Container E → r ≠ VPointer None →
  Forall (λ e, Less (keyOf E e) (keyOf E r) = true) before → Forall (λ e, Less (keyOf E r) (keyOf E e) = true) after →
  let c := mkChange [] None (Some (mkEntry E r)) in
  (reaches Root Stack T true → createAddition Root Stack (mkEntry E r) = Ok (under Stack c)) ∧
  enter c Idx T (Path c) (VContainer (before ++ after)) EL = Ok (true, VContainer (before ++ r :: after), EL) ∧
  emptied Idx [c] = [].
Proof.
  intros HT Hr Hb Ha c. split; [|split].
  - intros Hreach. pose proof (checkTypeIsCorrect_field Root Stack T r Hreach) as Hc. rewrite HT in Hc.
    unfold createAddition. rewrite Hc. cbn. unfold under. cbn. by rewrite app_nil_r.
  - unfold enter, visitField, visitContainer, getContent, c. cbn [length Nat.eqb Path Old New EntryType Content].
    rewrite HT, decide_True, bind_ok by done. rewrite add_middle by done.
    rewrite (proj2 (Nat.eqb_eq _ _)) by (rewrite !length_app; cbn; lia). cbn. by rewrite HT.
  - cbn. by rewrite decide_False.
Qed.

Lemma removal_runs T E l Stack before after Idx EL :
  shape T = Container E →
  Forall (λ e, Less (keyOf E e) (keyOf E l) = true) before → Forall (λ e, Less (keyOf E l) (keyOf E e) = true) after →
  let c := mkChange [] (Some (mkEntry E l)) None in
  (reaches Root Stack T true → createRemoval Root Stack (mkEntry E l) = Ok (under Stack c)) ∧
  enter c Idx T (Path c) (VContainer (before ++ l :: after)) EL = Ok (true, VContainer (before ++ after), EL) ∧
  emptied Idx [c] = [].
Proof.
  intros HT Hb Ha c. split; [|split; [|done]].
  - intros Hreach. pose proof (checkTypeIsCorrect_field Root Stack T l Hreach) as Hc. rewrite HT in Hc.
    unfold createRemoval. rewrite Hc. cbn. unfold under. cbn. by rewrite app_nil_r.
  - unfold enter, visitField, visitContainer, getContent, c. cbn [length Nat.eqb Path Old New EntryType Content].
    rewrite HT, decide_True, bind_ok by done. rewrite filter_app, filter_cons_False, !filter_others; [| | |by intros Hn].
    + rewrite (proj2 (Nat.eqb_eq _ _)) by (rewrite !length_app; cbn; lia). cbn. by rewrite HT.
    + eapply Forall_impl; [exact Ha|]. intros e He%Less_ne. by apply not_eq_sym.
    + eapply Forall_impl; [exact Hb|]. intros e He%Less_ne. done.
Qed.

Lemma runs_cons T c cs Idx M EL M' :
  (∀ EL, enter c Idx T (Path c) M EL = Ok (true, M', EL)) →
  runs T (c :: cs) Idx M EL = runs T cs (1 + Idx) M' EL.
Proof using Type. intros Hc. cbn [runs]. by rewrite Hc. Qed.

Lemma pairs_runs T E Stack (J : list (option (value * (value → outcome (list Change))) * option value)) L R before :
  shape T = Container E → (∀ E', shape E ≠ Container E') → reaches Root Stack T true →
  ZipMap.joins (λ l : value * (value → outcome (list Change)), keyOf E l.1) (keyOf E) Less L R J →
  Forall (λ l : value * (value → outcome (list Change)),
    typed E l.1 ∧ l.1 ≠ VPointer None ∧ diffRuns l.1 ∧ l.2 = diffImpl Root E (Stack ++ [KKey (keyOf E l.1)]) l.1) L →
  Forall (λ r, typed E r ∧ r ≠ VPointer None) R →
  Forall (λ e, Forall (λ k, Less (keyOf E e) k = true)
    (omap (ZipMap.keyOf (λ l : value * (value → outcome (list Change)), keyOf E l.1) (keyOf E)) J)) before →
  ∃ ds, collect (diffPair Root E Stack) J = Ok (map (under Stack) ds) ∧
    ∀ Idx EL, runs T ds Idx (VContainer (before ++ (fst <$> L))) EL =
      Ok (VContainer (before ++ R), EL ++ emptied Idx ds).
Proof.
  intros HT HE Hreach. revert L R before. induction J as [|p J IH]; intros L R before HJ HL HR Hb.
  { destruct HJ as [<- <- _ _]. exists []. split; [done|]. intros Idx EL. cbn. by rewrite !app_nil_r. }
  destruct (ZipMap.joins_inv _ _ _ _ _ _ _ HJ) as (L' & R' & k & -> & -> & Hk & Hp & HJ' & Hlt).
  destruct (ZipMap.joins_elements _ _ _ _ _ _ _ HJ' Hlt) as [HkL HkR].
  apply Forall_app in HL as [HLp HL], HR as [HRp HR].
  assert (Forall (λ e, Less (keyOf E e) k = true) before ∧ Forall (λ e, Forall (λ k, Less (keyOf E e) k = true)
    (omap (ZipMap.keyOf (λ l : value * (value → outcome (list Change)), keyOf E l.1) (keyOf E)) J)) before) as [Hbk Hbefore].
  { rewrite !Forall_forall in *. split; intros e He; specialize (Hb e He); rewrite Forall_forall in *;
      [apply Hb|intros k' Hk'; apply Hb]; change (omap ?f (p :: J)) with (match f p with Some k => k :: omap f J | None => omap f J end);
      rewrite Hk; [by left|by right]. }
  assert (Forall (λ e, Less k (keyOf E e) = true) (fst <$> L')) as HkL' by by apply Forall_fmap.
  assert (∀ x, keyOf E x = k → Forall (λ e, Forall (λ k, Less (keyOf E e) k = true)
    (omap (ZipMap.keyOf (λ l : value * (value → outcome (list Change)), keyOf E l.1) (keyOf E)) J)) (before ++ [x])) as Hnext.
  { intros x Hx. apply Forall_app. split; [done|]. constructor; [|done]. by rewrite Hx. }
  destruct p as [[[l f]|] [r|]]; cbn in Hk, Hp; try done; cbn [option_list option_rect fst snd app] in *.
  - apply Forall_cons in HLp as [(Hlt' & Hln & Hld & Hlf) _], HRp as [[Hrt Hrn] _]. cbn in Hlt', Hln, Hld, Hlf. injection Hk as Hk.
    destruct (element_runs T E l r Stack before (fst <$> L') true HT HE Hreach Hlt' Hrt Hln Hrn Hp) as (ds1 & Hds1 & Hruns1).
    { rewrite Hk. eapply Forall_impl; [exact Hbk|]. intros e He%Less_ne. done. } { done. }
    destruct (IH L' R' (before ++ [r]) HJ' HL HR) as (ds2 & Hds2 & Hruns2); [apply Hnext; congruence|].
    exists (ds1 ++ ds2). split.
    + unfold collect in *. cbn [foldr diffPair snd]. rewrite Hlf, Hds1, bind_ok, Hds2, bind_ok. by rewrite map_app.
    + intros Idx EL. rewrite fmap_cons, runs_app, Hruns1, bind_ok.
      specialize (Hruns2 (length ds1 + Idx) (EL ++ emptied Idx ds1)). rewrite <-!app_assoc in Hruns2. cbn [app] in Hruns2.
      by rewrite Hruns2, emptied_app.
  - apply Forall_cons in HLp as [(_ & Hln & _ & _) _]. injection Hk as Hk. subst k.
    destruct (IH L' R' before HJ' HL HR Hbefore) as (ds2 & Hds2 & Hruns2).
    exists (mkChange [] (Some (mkEntry E l)) None :: ds2). split.
    + destruct (removal_runs T E l Stack before (fst <$> L') 0 [] HT Hbk HkL') as (Hc & _).
      unfold collect in *. cbn [foldr diffPair fst]. rewrite Hc, !bind_ok, Hds2, bind_ok by done. done.
    + intros Idx EL. rewrite fmap_cons, (runs_cons T _ ds2 Idx _ EL (VContainer (before ++ (fst <$> L')))).
      * by rewrite Hruns2.
      * intros EL'. by apply (removal_runs T E l Stack before (fst <$> L') Idx EL').
  - apply Forall_cons in HRp as [[Hrt Hrn] _]. injection Hk as Hk. subst k.
    destruct (IH L' R' (before ++ [r]) HJ' HL HR) as (ds2 & Hds2 & Hruns2); [by apply Hnext|].
    exists (mkChange [] None (Some (mkEntry E r)) :: ds2). split.
    + destruct (addition_runs T E r Stack before (fst <$> L') 0 [] HT Hrn Hbk HkL') as (Hc & _).
      unfold collect in *. cbn [foldr diffPair]. rewrite Hc, !bind_ok, Hds2, bind_ok by done. done.
    + intros Idx EL. rewrite (runs_cons T _ ds2 Idx _ EL (VContainer (before ++ r :: (fst <$> L')))).
      * rewrite <-!app_assoc in Hruns2. cbn [app] in Hruns2. rewrite Hruns2. cbn [emptied New Content]. by rewrite decide_False.
      * intros EL'. by apply (addition_runs T E r Stack before (fst <$> L') Idx EL').
Qed.

Lemma diffRuns_all v : diffRuns v.
Proof.
  induction v as [s|fs IH| |k fs IH|es IH] using value_ind'; intros T r Stack b Hl Hr Hreach Hb.
  - inversion Hl as [? ? HT| | | |]; subst. inversion Hr as [? s' HT'|? ? ? HT'|? ? HT'|? ? ? ? ? HT'|? ? ? HT']; subst; try congruence.
    cbn [diffImpl]. rewrite HT. case_bool_decide as Hne.
    + destruct Hb as [->|Hb]; [|unfold comparable in Hb; by rewrite HT in Hb].
      destruct (change_runs T (VScalar s) (VScalar s') Stack) as (ds & Hds & Hruns & _); [done|by rewrite HT|done|right; by eexists|].
      exists ds. split; [done|]. split; [done|]. by apply Forall_true.
    + assert (VScalar s = VScalar s') as Heq by (destruct (decide (VScalar s = VScalar s' :> value)); [done|by destruct Hne]).
      injection Heq as ->. exists []. split; [done|]. split; [|constructor]. intros Idx EL. cbn. by rewrite app_nil_r.
  - inversion Hl as [|? Fields ? HT Hf| | |]; subst. inversion Hr as [? ? HT'|? ? rs HT' Hf'|? ? HT'|? ? ? ? ? HT'|? ? ? HT']; subst; try congruence.
    assert (Fields0 = Fields) as -> by congruence. cbn [diffImpl]. rewrite HT.
    destruct (diffTuple_runs T Stack (λ Idx, [KIndex Idx]) VTuple Fields) with (ls := fs) (Fs1 := @nil TypeId)
      (Fs2 := Fields) (before := @nil value) (rs := rs) as (ds & Hds & Hruns & Honly); try done.
    { intros Idx U HU. by eapply reaches_field. } { intros U before after HU. by eapply wraps_field. }
    exists ds. split; [done|]. split; [done|]. eapply Forall_impl; [exact Honly|]. intros c (J & P & HP & HJ). by exists J, P.
  - inversion Hl as [| |? A HT| |]; subst. inversion Hr as [? ? HT'|? ? ? HT'|? ? HT'|? ? k' ? fs' HT'|? ? ? HT']; subst; try congruence.
    + cbn [diffImpl]. rewrite HT, bool_decide_false by (intros Hn; by apply Hn). exists []. split; [done|]. split; [|constructor].
      intros Idx EL. cbn. by rewrite app_nil_r.
    + destruct Hb as [->|Hb]; [|unfold comparable in Hb; rewrite HT in Hb; by destruct Hb as (? & ? & ? & ? & ?)].
      cbn [diffImpl]. rewrite HT, bool_decide_true by done.
      destruct (change_runs T (VPointer None) (VPointer (Some (k', fs'))) Stack) as (ds & Hds & Hruns & _);
        [done|by rewrite HT|done|left; by eexists _, _|].
      exists ds. split; [done|]. split; [done|]. by apply Forall_true.
  - inversion Hl as [| | |? A ? Fields ? HT Hk Hf|]; subst.
    inversion Hr as [? ? HT'|? ? ? HT'|? ? HT'|? A' k' Fields' fs' HT' Hk' Hf'|? ? ? HT']; subst; try congruence.
    + destruct Hb as [->|Hb]; [|unfold comparable in Hb; rewrite HT in Hb; by destruct Hb as (? & ? & ? & ? & ?)].
      cbn [diffImpl]. rewrite HT, bool_decide_true by done.
      destruct (change_runs T (VPointer (Some (k, fs))) (VPointer None) Stack) as (ds & Hds & Hruns & _);
        [done|by rewrite HT|done|left; by eexists _, _|].
      exists ds. split; [done|]. split; [done|]. by apply Forall_true.
    + assert (A' = A) as -> by congruence. cbn [diffImpl]. rewrite HT. destruct (decide (k = k')) as [<-|Hkk].
      * rewrite Hk. assert (Fields' = Fields) as -> by congruence.
        destruct (diffTuple_runs T Stack (λ Idx, [KKind k; KIndex Idx]) (λ fs, VPointer (Some (k, fs))) Fields)
          with (ls := fs) (Fs1 := @nil TypeId) (Fs2 := Fields) (before := @nil value) (rs := fs') as (ds & Hds & Hruns & Honly); try done.
        { intros Idx U HU. by eapply reaches_pointee. } { intros U before after HU. by eapply wraps_pointee. }
        exists ds. split; [done|]. split; [done|]. eapply Forall_impl; [exact Honly|]. intros c (J & P & HP & HJ) _. by exists J, P.
      * destruct Hb as [->|Hb].
        2: { unfold comparable in Hb. rewrite HT in Hb. destruct Hb as (? & ? & ? & ? & ?). congruence. }
        destruct (change_runs T (VPointer (Some (k, fs))) (VPointer (Some (k', fs'))) Stack) as (ds & Hds & Hruns & _);
          [done|by rewrite HT|congruence|left; by eexists _, _|].
        exists ds. split; [done|]. split; [done|]. apply Forall_forall. by intros c _ Heq.
  - inversion Hl as [| | | |? E ? HT HE Hes Hn Hs]; subst.
    inversion Hr as [? ? HT'|? ? ? HT'|? ? HT'|? ? ? ? ? HT'|? E' rs HT' _ Hrs Hn' Hs']; subst; try congruence.
    assert (E' = E) as -> by congruence.
    destruct Hb as [->|Hb]; [|unfold comparable in Hb; by rewrite HT in Hb].
    cbn [diffImpl]. rewrite HT. set (L := map _ es).
    assert (fst <$> L = es) as HLes.
    { unfold L. clear. induction es as [|e es IHe]; [done|]. cbn. by rewrite IHe. }
    destruct (ZipMap.zipmap_joins (λ l : value * (value → outcome (list Change)), keyOf E l.1) (keyOf E) Less (λ _, True) (λ _, True)
      (ko_trans Ordered) (ko_total Ordered)
      (ZipMap.defaultCompare Less (λ l : value * (value → outcome (list Change)), keyOf E l.1) (keyOf E)) L rs) as (J & HJ & Hjoins).
    { apply ZipMap.defaultCompare_agrees; apply Ordered. }
    { by apply Forall_true. } { by apply Forall_true. }
    { unfold ZipMap.leftSorted, L. clear -Hs. induction Hs as [|e es Hs IHe He]; [constructor|]. cbn. constructor; [done|].
      rewrite Forall_fmap. exact He. }
    { exact Hs'. }
    rewrite HJ, bind_ok.
    destruct (pairs_runs T E Stack J L rs []) as (ds & Hds & Hruns); try done.
    { unfold L. apply Forall_fmap. rewrite Forall_forall in *. intros e He. cbn. split_and!; [by apply Hes|by apply Hn|by apply IH|done]. }
    { rewrite Forall_forall in *. intros e He. split; [by apply Hrs|by apply Hn']. }
    exists ds. split; [done|]. split; [|by apply Forall_true]. intros Idx EL. rewrite <-HLes at 1. apply Hruns.
Qed.

(** *** Inverting *)

Lemma invert_app a b : invert (a ++ b) = invert a ++ invert (TypeId := TypeId) (Kind := Kind) (S := S) b.
Proof using Type. apply map_app. Qed.

Lemma invert_invert (cs : list Change) : invert (invert cs) = cs.
Proof using Type. unfold invert. rewrite map_map. rewrite <-(map_id cs) at 2. apply map_ext. by intros []. Qed.

Lemma change_swap T Stack l r : change Root T Stack r l = invert <$> change Root T Stack l r.
Proof using Type.
  unfold change, createChange, checkTypeIsCorrect. destruct (callByTypePath Root Stack) as [[b Calls]|]; [|done]. cbn.
  destruct b; [|done]. cbn.
  assert (∀ c v w, foldl (checkStep (mkEntry T v)) c Calls = foldl (checkStep (mkEntry T w)) c Calls) as Heq.
  { intros c v w. revert c. induction Calls as [|s Calls IH]; intros c; [done|]. apply IH. }
  rewrite (Heq false l r). by destruct (foldl _ false Calls).
Qed.

Lemma diffTuple_swap Stack step Idx Fields ls rs :
  Forall (λ l, ∀ T Stack r, typed T l → typed T r → diffImpl Root T Stack r l = invert <$> diffImpl Root T Stack l r) ls →
  Forall2 typed Fields ls → Forall2 typed Fields rs →
  diffTuple (diffImpl Root) Stack step Idx Fields rs ls = invert <$> diffTuple (diffImpl Root) Stack step Idx Fields ls rs.
Proof using Type.
  intros Hl Hls. revert rs Idx. induction Hls as [|U l Fs ls Ht Hls IH]; intros rs Idx Hrs.
  - by apply Forall2_nil_inv_l in Hrs as ->.
  - apply Forall2_cons_inv_l in Hrs as (r & rs' & Hr & Hrs & ->). apply Forall_cons in Hl as [Hl1 Hl2].
    cbn [diffTuple]. rewrite (Hl1 U _ r) by done.
    destruct (diffImpl Root U _ l r) as [Here|]; [|done]. cbn -[Nat.add]. rewrite IH by done.
    destruct (diffTuple _ Stack step (1 + Idx) Fs ls rs') as [Rest|]; [|done]. cbn. by rewrite invert_app.
Qed.

Lemma collect_swap {A B} (f : A → outcome (list Change)) (f' : B → outcome (list Change)) (g : A → B) J :
  (∀ p, p ∈ J → f' (g p) = invert <$> f p) → collect f' (map g J) = invert <$> collect f J.
Proof using Type.
  induction J as [|p J IH]; intros Hp; [done|]. unfold collect in *. cbn [map foldr]. rewrite (Hp p) by by left.
  destruct (f p) as [Here|]; [|done]. cbn. rewrite IH; [|intros q Hq; apply Hp; by right].
  destruct (foldr _ (Ok []) J) as [Rest|]; [|done]. cbn. by rewrite invert_app.
Qed.

(** The pairs of a container, without the functions. *)
Lemma pairs_plain E (f : value → value → outcome (list Change)) ls rs :
  Forall (λ _, True) ls →
  ZipMap.zipmap_range (ZipMap.defaultCompare Less (λ l : value * (value → outcome (list Change)), keyOf E l.1) (keyOf E))
    (map (λ l, (l, f l)) ls) rs =
  Ok (map (λ p : option value * option value, ((λ l, (l, f l)) <$> p.1, p.2))
    (ZipMap.joinFuel (ZipMap.defaultCompare Less (keyOf E) (keyOf E)) (1 + (length ls + length rs)) ls rs)).
Proof.
  intros _. rewrite (ZipMap.zipmap_joinFuel (λ l : value * (value → outcome (list Change)), keyOf E l.1) (keyOf E) Less
    (λ _, True) (λ _, True) (ko_trans Ordered) (ko_total Ordered)); [| |by apply Forall_true|by apply Forall_true].
  - rewrite length_map. f_equal. by apply ZipMap.joinFuel_map.
  - apply ZipMap.defaultCompare_agrees; apply Ordered.
Qed.

Lemma compare_swap E (a b : value) :
  ZipMap.defaultCompare Less (keyOf E) (keyOf E) b a = (- ZipMap.defaultCompare Less (keyOf E) (keyOf E) a b)%Z.
Proof.
  unfold ZipMap.defaultCompare. destruct (Less (keyOf E a) (keyOf E b)) eqn:Hab, (Less (keyOf E b) (keyOf E a)) eqn:Hba; try done.
  pose proof (ko_trans Ordered _ _ _ Hab Hba) as Hcc. by rewrite (ko_irrefl Ordered) in Hcc.
Qed.

Lemma sorted_joins E es rs :
  StronglySorted (byKey E) es → StronglySorted (byKey E) rs →
  let J := ZipMap.joinFuel (ZipMap.defaultCompare Less (keyOf E) (keyOf E)) (1 + (length es + length rs)) es rs in
  omap fst J = es ∧ omap snd J = rs ∧
  Forall (λ p, match p with (Some a, Some b) => keyOf E a = keyOf E b | (None, None) => False | _ => True end) J.
Proof.
  intros Hs Hs'.
  assert (ZipMap.agrees (keyOf E) (keyOf E) Less (λ _, True) (λ _, True)
    (ZipMap.defaultCompare Less (keyOf E) (keyOf E))) as Hag by (apply ZipMap.defaultCompare_agrees; apply Ordered).
  destruct (ZipMap.joinFuel_joins (keyOf E) (keyOf E) Less (λ _, True) (λ _, True) (ko_trans Ordered) (ko_total Ordered)
    _ (1 + (length es + length rs)) es rs Hag) as [H1 H2 H3 _]; [by apply Forall_true|by apply Forall_true|done|done|lia|].
  done.
Qed.

(** Inverting the difference is exchanging its operands. *)
Lemma diffImpl_swap v T Stack r : typed T v → typed T r → diffImpl Root T Stack r v = invert <$> diffImpl Root T Stack v r.
Proof.
  revert T Stack r. induction v as [s|fs IH| |k fs IH|es IH] using value_ind'; intros T Stack r Hl Hr.
  - inversion Hl as [? ? HT| | | |]; subst. inversion Hr as [? s' HT'|? ? ? HT'|? ? HT'|? ? ? ? ? HT'|? ? ? HT']; subst; try congruence.
    cbn [diffImpl]. rewrite HT. rewrite change_swap.
    case_bool_decide as H1; case_bool_decide as H2; try done; exfalso; naive_solver congruence.
  - inversion Hl as [|? Fields ? HT Hf| | |]; subst. inversion Hr as [? ? HT'|? ? rs HT' Hf'|? ? HT'|? ? ? ? ? HT'|? ? ? HT']; subst; try congruence.
    assert (Fields0 = Fields) as -> by congruence. cbn [diffImpl]. rewrite HT. by apply diffTuple_swap.
  - inversion Hl as [| |? A HT| |]; subst. inversion Hr as [? ? HT'|? ? ? HT'|? ? HT'|? ? k' ? fs' HT'|? ? ? HT']; subst; try congruence.
    + cbn [diffImpl]. rewrite HT, bool_decide_false by (intros Hn; by apply Hn). done.
    + cbn [diffImpl]. rewrite HT, !bool_decide_true by done. apply change_swap.
  - inversion Hl as [| | |? A ? Fields ? HT Hk Hf|]; subst.
    inversion Hr as [? ? HT'|? ? ? HT'|? ? HT'|? A' k' Fields' fs' HT' Hk' Hf'|? ? ? HT']; subst; try congruence.
    + cbn [diffImpl]. rewrite HT, !bool_decide_true by done. apply change_swap.
    + assert (A' = A) as -> by congruence. cbn [diffImpl]. rewrite HT. destruct (decide (k = k')) as [<-|Hkk].
      * rewrite decide_True by done. rewrite Hk. assert (Fields' = Fields) as -> by congruence. by apply diffTuple_swap.
      * rewrite decide_False by done. apply change_swap.
  - inversion Hl as [| | | |? E ? HT HE Hes Hn Hs]; subst.
    inversion Hr as [? ? HT'|? ? ? HT'|? ? HT'|? ? ? ? ? HT'|? E' rs HT' _ Hrs Hn' Hs']; subst; try congruence.
    assert (E' = E) as -> by congruence. cbn [diffImpl]. rewrite HT.
    rewrite (pairs_plain E (λ l, diffImpl Root E (Stack ++ [KKey (keyOf E l)]) l) es rs) by by apply Forall_true.
    rewrite (pairs_plain E (λ l, diffImpl Root E (Stack ++ [KKey (keyOf E l)]) l) rs es) by by apply Forall_true.
    rewrite !bind_ok. rewrite (Nat.add_comm (length rs)).
    rewrite (ZipMap.joinFuel_swap (ZipMap.defaultCompare Less (keyOf E) (keyOf E)) (ZipMap.defaultCompare Less (keyOf E) (keyOf E))
      (1 + (length es + length rs)) es rs); [|intros; apply compare_swap|intros a b; unfold ZipMap.defaultCompare; repeat case_match; auto].
    destruct (sorted_joins E es rs Hs Hs') as (HJL & HJR & HJE). set (J := ZipMap.joinFuel _ _ es rs) in *.
    rewrite (map_map ZipMap.swapPair).
    rewrite <-(collect_swap (diffPair Root E Stack) (diffPair Root E Stack)
      (λ p : option (value * (value → outcome (list Change))) * option value,
        ((λ l, (l, diffImpl Root E (Stack ++ [KKey (keyOf E l)]) l)) <$> p.2, fst <$> p.1))).
    { rewrite map_map. f_equal. apply map_ext_in. intros [[a|] [b|]] Hp; done. }
    intros p Hp. apply list_elem_of_In, in_map_iff in Hp as ([a b] & <- & Hp). cbn.
    apply list_elem_of_In in Hp. rewrite Forall_forall in HJE. specialize (HJE _ Hp).
    destruct a as [a|], b as [b|]; cbn; try done.
    + rewrite Forall_forall in IH, Hes, Hrs. cbn in HJE. rewrite <-HJE. apply IH.
      * rewrite <-HJL. apply list_elem_of_omap. by eexists (Some a, Some b).
      * apply Hes. rewrite <-HJL. apply list_elem_of_omap. by eexists (Some a, Some b).
      * apply Hrs. rewrite <-HJR. apply list_elem_of_omap. by eexists (Some a, Some b).
    + unfold createAddition, createRemoval. by destruct (checkTypeIsCorrect _ _ _) as [[]|].
    + unfold createAddition, createRemoval. by destruct (checkTypeIsCorrect _ _ _) as [[]|].
Qed.
End changes.

(** ** Properties *)

(** The changes of a difference between structures have a path. *)
Lemma applyFrom_runs {TypeId Kind S} `{EqDecision TypeId, EqDecision Kind, EqDecision S, !Schema TypeId Kind S}
    (Root : TypeId) (cs : list (Change (Kind := Kind) (S := S))) Idx M EL :
  Forall (λ c, Path c ≠ []) cs → applyFrom Root Idx cs M EL = runs Root cs Idx M EL.
Proof.
  intros Hcs. revert Idx M EL. induction Hcs as [|c cs Hc _ IH]; intros Idx M EL; [done|]. cbn [applyFrom runs].
  rewrite bool_decide_false by done. unfold callByPath, enter.
  assert (length (Path c) =? 0 = false) as -> by (by destruct (Path c)). rewrite bind_ok.
  destruct (callOnPathSteps _ Root (Path c) _ M EL) as [[[b M'] EL']|]; [|done]. apply IH.
Qed.

(** A difference between two structures, applied to the first one. *)
Lemma diff_runs {TypeId Kind S} `{EqDecision TypeId, EqDecision Kind, EqDecision S, !Schema TypeId Kind S}
    (Root : TypeId) Fields (LHS RHS : value Kind S) :
  keysOrdered (TypeId := TypeId) (Kind := Kind) (S := S) → shape Root = Tuple Fields →
  typed Root LHS → typed Root RHS →
  ∃ cs, diff Root LHS RHS = Ok cs ∧ apply Root cs LHS = Ok (RHS, emptied 0 cs).
Proof.
  intros Hord HRoot Hl Hr.
  destruct (diffRuns_all Hord Root LHS Root RHS [] false Hl Hr) as (cs & Hcs & Hruns & Honly).
  { constructor. } { right. unfold comparable. by rewrite HRoot. }
  assert (map (under []) cs = cs) as Hunder.
  { rewrite <-(map_id cs) at 2. apply map_ext. by intros []. }
  rewrite Hunder in Hcs. exists cs. split; [done|]. unfold apply. rewrite applyFrom_runs; [apply Hruns|].
  inversion Hl as [? ? HT|? ? ls|? ? HT|? ? ? ? ? HT|? ? ? HT]; subst; try congruence.
  inversion Hr as [? ? HT|? ? rs|? ? HT|? ? ? ? ? HT|? ? ? HT]; subst; try congruence.
  eapply Forall_impl; [exact Honly|]. intros c (Idx & P & -> & _). done.
Qed.

(** C9: applying the difference between two well-typed trees to the first one
    never fails and gives the second one, and applying the inverted difference to
    the second one gives the first one back; inverting it is exchanging the
    operands, and it is empty exactly when the trees are equal. The only errors
    that are reported are for the changes that leave a pointer empty. *)
Theorem diff_apply_roundtrip {TypeId Kind S} `{EqDecision TypeId, EqDecision Kind, EqDecision S, !Schema TypeId Kind S}
    (Root : TypeId) Fields (LHS RHS : value Kind S) :
  keysOrdered (TypeId := TypeId) (Kind := Kind) (S := S) → shape Root = Tuple Fields →
  typed Root LHS → typed Root RHS →
  ∃ cs, diff Root LHS RHS = Ok cs ∧ diff Root RHS LHS = Ok (invert cs) ∧
    apply Root cs LHS = Ok (RHS, emptied 0 cs) ∧
    apply Root (invert cs) RHS = Ok (LHS, emptied 0 (invert cs)) ∧
    (cs = [] ↔ LHS = RHS).
Proof.
  intros Hord HRoot Hl Hr.
  destruct (diff_runs Root Fields LHS RHS Hord HRoot Hl Hr) as (cs & Hcs & Happly). exists cs.
  destruct (diff_runs Root Fields RHS LHS Hord HRoot Hr Hl) as (cs' & Hcs' & Happly').
  assert (diff Root RHS LHS = Ok (invert cs)) as Hinv.
  { unfold diff in *. rewrite (diffImpl_swap Hord Root LHS Root [] RHS) by done. by rewrite Hcs. }
  rewrite Hinv in Hcs'. injection Hcs' as <-. do 4 (split; [done|]). split.
  - intros ->. cbn in Happly. by injection Happly as ->.
  - intros ->. unfold diff in Hcs. rewrite (diffImpl_self Hord) in Hcs by done. congruence.
Qed.

(** *** An example

    A structure with a number, a pointer to one of two structures and a set of
    pairs whose first element is their key. Keys are ordered by their encoding. *)
Module Example.
Inductive TypeId : Set := Root | Number | Choice | Left | Right | Pairs | Pair.

#[global] Instance TypeId_eq_dec : EqDecision TypeId.
Proof. solve_decision. Defined.

#[global] Instance schema : Schema TypeId bool nat := {|
  shape T := match T with
             | Root => Tuple [Number; Choice; Pairs]
             | Number => Scalar
             | Choice => Pointer [(true, Left); (false, Right)]
             | Left => Tuple [Number]
             | Right => Tuple [Number; Number]
             | Pairs => Container Pair
             | Pair => Tuple [Number; Number]
             end;
  keyFields T := match T with Pair => [0] | _ => [] end;
  Less k k' := (encode k <? encode k')%positive;
|}.

Lemma ordered : keysOrdered (TypeId := TypeId) (Kind := bool) (S := nat).
Proof.
  split; cbn; intros *; rewrite ?Pos.ltb_lt; [apply Pos.ltb_irrefl|lia|].
  intros. destruct (Pos.lt_total (encode x) (encode y)) as [?|[Heq|?]]; [by left| |by right; right].
  right; left. by apply encode_inj in Heq.
Qed.

Definition number (n : nat) : value bool nat := VScalar n.
Definition pair (k n : nat) : value bool nat := VTuple [number k; number n].
Definition before : value bool nat :=
  VTuple [number 1; VPointer (Some (true, [number 5])); VContainer [pair 2 10; pair 1 20]].
Definition after : value bool nat :=
  VTuple [number 1; VPointer (Some (false, [number 5; number 6])); VContainer [pair 2 11; pair 3 30]].

Lemma number_typed n : typed (TypeId := TypeId) Number (number n).
Proof. by constructor. Qed.

Lemma pair_typed k n : typed (TypeId := TypeId) Pair (pair k n).
Proof. apply (typed_tuple Pair [Number; Number]); [done|]. by repeat constructor. Qed.

Lemma pairs_typed k n k' n' :
  Less (keyOf Pair (pair k n)) (keyOf Pair (pair k' n')) = true →
  typed (TypeId := TypeId) Pairs (VContainer [pair k n; pair k' n']).
Proof.
  intros Hk. apply (typed_container Pairs Pair); [done|done| | |].
  - repeat constructor; apply pair_typed.
  - by repeat constructor.
  - repeat constructor. exact Hk.
Qed.

Lemma left_typed n : typed (TypeId := TypeId) Choice (VPointer (Some (true, [number n]))).
Proof.
  apply (typed_pointer Choice [(true, Left); (false, Right)] true [Number]); [done|done|].
  constructor; [apply number_typed|constructor].
Qed.

Lemma right_typed n m : typed (TypeId := TypeId) Choice (VPointer (Some (false, [number n; number m]))).
Proof.
  apply (typed_pointer Choice [(true, Left); (false, Right)] false [Number; Number]); [done|done|].
  constructor; [apply number_typed|constructor; [apply number_typed|constructor]].
Qed.

Lemma root_typed n p es :
  typed (TypeId := TypeId) Choice p → typed (TypeId := TypeId) Pairs es → typed Root (VTuple [number n; p; es]).
Proof.
  intros Hp He. apply (typed_tuple Root [Number; Choice; Pairs]); [done|].
  constructor; [apply number_typed|constructor; [done|constructor; [done|constructor]]].
Qed.
End Example.

Lemma diff_apply_roundtrip_witness :
  Example.before ≠ Example.after ∧
  ∃ cs, diff Example.Root Example.before Example.after = Ok cs ∧
    apply Example.Root cs Example.before = Ok (Example.after, []) ∧
    apply Example.Root (invert cs) Example.after = Ok (Example.before, []).
Proof.
  split; [discriminate|].
  destruct (diff_apply_roundtrip Example.Root [Example.Number; Example.Choice; Example.Pairs] Example.before Example.after
    Example.ordered) as (cs & Hcs & _ & H1 & H2 & _).
  - reflexivity.
  - apply Example.root_typed; [apply Example.left_typed|apply Example.pairs_typed; vm_compute; reflexivity].
  - apply Example.root_typed; [apply Example.right_typed|apply Example.pairs_typed; vm_compute; reflexivity].
  - exists cs. split; [exact Hcs|].
    assert (∀ cs', diff Example.Root Example.before Example.after = Ok cs' → emptied 0 cs' = [] ∧ emptied 0 (invert cs') = []) as Hnone.
    { intros cs' Hcs'. assert (match diff Example.Root Example.before Example.after with Ok cs => (emptied 0 cs, emptied 0 (invert cs)) | _ => ([], []) end = ([], []))
        as Hc by (vm_compute; reflexivity). rewrite Hcs' in Hc. injection Hc as He1 He2. exact (conj He1 He2). }
    destruct (Hnone cs Hcs) as [He1 He2]. rewrite He1 in H1. rewrite He2 in H2. split; [exact H1|exact H2].
Defined.

(** A change that leaves a pointer empty is made, and reported as an error:
    after the visit the walk goes on to what the pointer points to, and a null
    pointer is taken for a path that is not there. *)
Theorem emptied_pointer_reported :
  let full := VTuple [Example.number 1; VPointer (Some (true, [Example.number 5])); VContainer []] in
  let empty := VTuple [Example.number 1; VPointer None; VContainer []] in
  ∃ cs, diff Example.Root full empty = Ok cs ∧
    apply Example.Root cs full = Ok (empty, [(0, LocationPath)]) ∧
    apply Example.Root (invert cs) empty = Ok (full, []).
Proof. eexists. split; [vm_compute; reflexivity|]. split; vm_compute; reflexivity. Qed.

(** The kind in a path is not compared with the kind of what the pointer
    points to: a change of a field of one structure is applied without errors to
    the field with the same index of another one. *)
Theorem kind_not_compared :
  let left n := VTuple [Example.number 1; VPointer (Some (true, [Example.number n])); VContainer []] in
  let right n := VTuple [Example.number 1; VPointer (Some (false, [Example.number n; Example.number 9])); VContainer []] in
  ∃ cs, diff Example.Root (left 5) (left 7) = Ok cs ∧
    map Path cs = [[KIndex 1; KKind true; KIndex 0]] ∧
    apply Example.Root cs (right 5) = Ok (right 7, []).
Proof. eexists. split; [vm_compute; reflexivity|]. split; vm_compute; reflexivity. Qed.
