(* ===== verification/GenericGraph.v ===== *)
(** * Generic graphs

    [GenericGraph] with its [ForwardNode]s and [BidirectionalNode]s
    (include/revng/ADT/GenericGraph.h): a graph owns its nodes, which hold the
    two halves of their edges. *)

From S2P Require Import Prelude.
From stdpp Require Import gmap list.

(** The address of a node. *)
Notation NodeT := positive.

(** ** State *)

Section graph.
  Context {NodeData EdgeLabel : Type} `{EqDecision EdgeLabel}.

(** An edge is the neighbor and the label. *)
(* include/revng/ADT/GenericGraph.h:103-109 Edge *)
Definition Edge : Type := NodeT * EdgeLabel.

(* include/revng/ADT/GenericGraph.h:358-398 BidirectionalNode *)
Record Node := mkNode {
  data : NodeData;
  Successors : list Edge;
  Predecessors : list Edge;
}.

(** [Nodes] is the order of the nodes the graph owns, [Store] their contents. *)
(* include/revng/ADT/GenericGraph.h:1297-1315 GenericGraph *)
Record GenericGraph := mkGraph {
  Nodes : list NodeT;
  Store : gmap NodeT Node;
  EntryNode : option NodeT;
}.

(** A read through a pointer to a node that does not exist, or through an
    iterator past the end, is undefined. *)
Definition deref (g : GenericGraph) (N : NodeT) : outcome Node :=
  match Store g !! N with Some n => Ok n | None => undefined end.

Definition elementAt {A} (l : list A) (It : nat) : outcome A :=
  match l !! It with Some e => Ok e | None => undefined end.

Definition modify (f : Node → Node) (N : NodeT) (g : GenericGraph) : outcome GenericGraph :=
  n ← deref g N; Ok (mkGraph (Nodes g) (<[N := f n]> (Store g)) (EntryNode g)).

Definition withSuccessors (f : list Edge → list Edge) (n : Node) : Node :=
  mkNode (data n) (f (Successors n)) (Predecessors n).

Definition withPredecessors (f : list Edge → list Edge) (n : Node) : Node :=
  mkNode (data n) (Successors n) (f (Predecessors n)).

Definition emplace_back (e : Edge) (l : list Edge) : list Edge := l ++ [e].
Definition eraseAt (It : nat) (l : list Edge) : list Edge := delete It l.

(** ** Forward nodes *)

(* include/revng/ADT/GenericGraph.h:270-276 ForwardNode::addSuccessor *)
Definition forwardAddSuccessor (this NewSuccessor : NodeT) (EL : EdgeLabel) : GenericGraph → outcome GenericGraph :=
  modify (withSuccessors (emplace_back (NewSuccessor, EL))) this.

(* include/revng/ADT/GenericGraph.h:279-286 ForwardNode::removeSuccessor *)
Definition forwardRemoveSuccessor (this : NodeT) (It : nat) (g : GenericGraph) : outcome GenericGraph :=
  n ← deref g this; _ ← elementAt (Successors n) It; modify (withSuccessors (eraseAt It)) this g.

(* include/revng/ADT/GenericGraph.h:288-288 ForwardNode::clearSuccessors *)
Definition forwardClearSuccessors (this : NodeT) : GenericGraph → outcome GenericGraph :=
  modify (withSuccessors (λ _, [])) this.

(* include/revng/ADT/GenericGraph.h:291-297 ForwardNode::successors *)
Definition successors (g : GenericGraph) (N : NodeT) : outcome (list NodeT) :=
  n ← deref g N; Ok (map fst (Successors n)).

(* include/revng/ADT/GenericGraph.h:308-308 ForwardNode::successorCount *)
Definition successorCount (g : GenericGraph) (N : NodeT) : outcome nat :=
  n ← deref g N; Ok (length (Successors n)).

(* include/revng/ADT/GenericGraph.h:309-313 ForwardNode::hasSuccessor *)
Definition hasSuccessor (g : GenericGraph) (N S : NodeT) : outcome bool :=
  n ← deref g N; Ok (bool_decide (S ∈ map fst (Successors n))).

(** ** Bidirectional nodes *)

(* include/revng/ADT/GenericGraph.h:400-408 BidirectionalNode::addSuccessor *)
Definition addSuccessor (this NewSuccessor : NodeT) (EL : EdgeLabel) (g : GenericGraph) : outcome GenericGraph :=
  g ← modify (withSuccessors (emplace_back (NewSuccessor, EL))) this g;
  modify (withPredecessors (emplace_back (this, EL))) NewSuccessor g.

(* include/revng/ADT/GenericGraph.h:410-418 BidirectionalNode::addPredecessor *)
Definition addPredecessor (this NewPredecessor : NodeT) (EL : EdgeLabel) (g : GenericGraph) : outcome GenericGraph :=
  g ← modify (withPredecessors (emplace_back (NewPredecessor, EL))) this g;
  modify (withSuccessors (emplace_back (this, EL))) NewPredecessor g.

(** The copy [Edge] takes the label of the edge it is then compared with: only
    the neighbor is compared. *)
(* include/revng/ADT/GenericGraph.h:421-441 BidirectionalNode::removePredecessor *)
Definition removePredecessor (this : NodeT) (It : nat) (g : GenericGraph) : outcome GenericGraph :=
  n ← deref g this;
  '(Predecessor, _) ← elementAt (Predecessors n) It;
  p ← deref g Predecessor;
  match list_find (λ e : Edge, e.1 = this) (Successors p) with
  | None => Fault AssertionFailed
  | Some (PredecessorIt, _) =>
    g ← modify (withSuccessors (eraseAt PredecessorIt)) Predecessor g;
    modify (withPredecessors (eraseAt It)) this g
  end.

(* include/revng/ADT/GenericGraph.h:443-468 BidirectionalNode::removePredecessorEdge *)
Definition removePredecessorEdge (this : NodeT) (It : nat) (g : GenericGraph) : outcome GenericGraph :=
  n ← deref g this;
  '(Predecessor, EL) ← elementAt (Predecessors n) It;
  p ← deref g Predecessor;
  match list_find (λ e : Edge, e = (this, EL)) (Successors p) with
  | None => Fault AssertionFailed
  | Some (PredecessorIt, _) =>
    g ← modify (withSuccessors (eraseAt PredecessorIt)) Predecessor g;
    modify (withPredecessors (eraseAt It)) this g
  end.

(* include/revng/ADT/GenericGraph.h:475-496 BidirectionalNode::removeSuccessor *)
Definition removeSuccessor (this : NodeT) (It : nat) (g : GenericGraph) : outcome GenericGraph :=
  n ← deref g this;
  '(Successor, _) ← elementAt (Successors n) It;
  s ← deref g Successor;
  match list_find (λ e : Edge, e.1 = this) (Predecessors s) with
  | None => Fault AssertionFailed
  | Some (SuccessorIt, _) =>
    g ← modify (withPredecessors (eraseAt SuccessorIt)) Successor g;
    modify (withSuccessors (eraseAt It)) this g
  end.

(* include/revng/ADT/GenericGraph.h:498-523 BidirectionalNode::removeSuccessorEdge *)
Definition removeSuccessorEdge (this : NodeT) (It : nat) (g : GenericGraph) : outcome GenericGraph :=
  n ← deref g this;
  '(Successor, EL) ← elementAt (Successors n) It;
  s ← deref g Successor;
  match list_find (λ e : Edge, e = (this, EL)) (Predecessors s) with
  | None => Fault AssertionFailed
  | Some (SuccessorIt, _) =>
    g ← modify (withPredecessors (eraseAt SuccessorIt)) Successor g;
    modify (withSuccessors (eraseAt It)) this g
  end.

(** The loop of [clearPredecessors]; the number of predecessors is enough fuel. *)
Fixpoint clearPredecessorsLoop (fuel : nat) (this : NodeT) (g : GenericGraph) : outcome GenericGraph :=
  n ← deref g this;
  match Predecessors n, fuel with
  | [], _ => Ok g
  | _, O => Fault OutOfFuel
  | _, S fuel => g ← removePredecessorEdge this 0 g; clearPredecessorsLoop fuel this g
  end.

(* include/revng/ADT/GenericGraph.h:470-473 BidirectionalNode::clearPredecessors *)
Definition clearPredecessors (this : NodeT) (g : GenericGraph) : outcome GenericGraph :=
  n ← deref g this; clearPredecessorsLoop (length (Predecessors n)) this g.

Fixpoint clearSuccessorsLoop (fuel : nat) (this : NodeT) (g : GenericGraph) : outcome GenericGraph :=
  n ← deref g this;
  match Successors n, fuel with
  | [], _ => Ok g
  | _, O => Fault OutOfFuel
  | _, S fuel => g ← removeSuccessorEdge this 0 g; clearSuccessorsLoop fuel this g
  end.

(* include/revng/ADT/GenericGraph.h:525-528 BidirectionalNode::clearSuccessors *)
Definition clearSuccessors (this : NodeT) (g : GenericGraph) : outcome GenericGraph :=
  n ← deref g this; clearSuccessorsLoop (length (Successors n)) this g.

(* include/revng/ADT/GenericGraph.h:531-537 BidirectionalNode::predecessors *)
Definition predecessors (g : GenericGraph) (N : NodeT) : outcome (list NodeT) :=
  n ← deref g N; Ok (map fst (Predecessors n)).

(* include/revng/ADT/GenericGraph.h:548-548 BidirectionalNode::predecessorCount *)
Definition predecessorCount (g : GenericGraph) (N : NodeT) : outcome nat :=
  n ← deref g N; Ok (length (Predecessors n)).

(* include/revng/ADT/GenericGraph.h:549-553 BidirectionalNode::hasPredecessor *)
Definition hasPredecessor (g : GenericGraph) (N P : NodeT) : outcome bool :=
  n ← deref g N; Ok (bool_decide (P ∈ map fst (Predecessors n))).

(** ** The graph *)

Definition emptyGraph : GenericGraph := mkGraph [] ∅ None.

(* include/revng/ADT/GenericGraph.h:1283-1290 EntryNode::setEntryNode *)
Definition setEntryNode (Entry : option NodeT) (g : GenericGraph) : GenericGraph :=
  mkGraph (Nodes g) (Store g) Entry.

(** Whether every neighbor is a node of the graph. *)
(* include/revng/ADT/GenericGraph.h:1317-1349 GenericGraph::verify *)
Definition verify (g : GenericGraph) : outcome bool :=
  foldr (λ N rest,
    n ← deref g N;
    if negb (forallb (λ e : Edge, bool_decide (e.1 ∈ Nodes g)) (Successors n)) then Ok false
    else if negb (forallb (λ e : Edge, bool_decide (e.1 ∈ Nodes g)) (Predecessors n)) then Ok false
    else rest) (Ok true) (Nodes g).

(* include/revng/ADT/GenericGraph.h:1375-1375 GenericGraph::size *)
Definition size (g : GenericGraph) : nat := length (Nodes g).

(* include/revng/ADT/GenericGraph.h:1379-1388 GenericGraph::findNode *)
Definition findNode (g : GenericGraph) (N : NodeT) : nat :=
  match list_find (λ M, M = N) (Nodes g) with Some (It, _) => It | None => length (Nodes g) end.

(* include/revng/ADT/GenericGraph.h:1392-1394 GenericGraph::hasNode *)
Definition hasNode (g : GenericGraph) (N : NodeT) : bool := negb (findNode g N =? length (Nodes g)).

(** A new node has an address no other node has. *)
Definition newNode (g : GenericGraph) : NodeT := fresh (dom (Store g)).

(* include/revng/ADT/GenericGraph.h:1397-1410 GenericGraph::addNode *)
Definition addNode (d : NodeData) (g : GenericGraph) : NodeT * GenericGraph :=
  (newNode g, mkGraph (Nodes g ++ [newNode g]) (<[newNode g := mkNode d [] []]> (Store g)) (EntryNode g)).

(* include/revng/ADT/GenericGraph.h:1424-1434 GenericGraph::insertNode *)
Definition insertNode (Where : nat) (d : NodeData) (g : GenericGraph) : NodeT * GenericGraph :=
  (newNode g, mkGraph (take Where (Nodes g) ++ newNode g :: drop Where (Nodes g))
    (<[newNode g := mkNode d [] []]> (Store g)) (EntryNode g)).

(** Bidirectional nodes are not disconnected. *)
(* include/revng/ADT/GenericGraph.h:1412-1421 GenericGraph::removeNode *)
Definition removeNode (It : nat) (g : GenericGraph) : outcome GenericGraph :=
  N ← elementAt (Nodes g) It;
  Ok (mkGraph (delete It (Nodes g)) (delete N (Store g)) (EntryNode g)).

(* include/revng/ADT/GenericGraph.h:1438-1438 GenericGraph::clear *)
Definition clear (g : GenericGraph) : GenericGraph := mkGraph [] ∅ (EntryNode g).
End graph.

Arguments Edge : clear implicits.
Arguments Node : clear implicits.
Arguments GenericGraph : clear implicits.

(** ** The multigraph a graph stands for *)

Fixpoint count {A} `{EqDecision A} (x : A) (l : list A) : nat :=
  match l with [] => 0 | y :: l => (if decide (y = x) then 1 else 0) + count x l end.

Lemma count_app {A} `{EqDecision A} (x : A) l l' : count x (l ++ l') = count x l + count x l'.
Proof. induction l as [|y l IH]; simpl; [done|]. rewrite IH. lia. Qed.

Lemma count_delete {A} `{EqDecision A} (x y : A) i l :
  l !! i = Some y → count x l = (if decide (y = x) then 1 else 0) + count x (delete i l).
Proof.
  revert i. induction l as [|z l IH]; [done|]. intros [|i] Hi; simpl in *; [by injection Hi as ->|].
  rewrite (IH i Hi). lia.
Qed.

Lemma count_pos {A} `{EqDecision A} (x : A) l : 0 < count x l ↔ x ∈ l.
Proof.
  induction l as [|y l IH]; simpl; [rewrite elem_of_nil; lia|].
  rewrite elem_of_cons, <-IH. case_decide; [naive_solver lia|]. naive_solver.
Qed.

Lemma list_find_elem {A} `{EqDecision A} (x : A) l :
  x ∈ l → ∃ j, list_find (λ e, e = x) l = Some (j, x) ∧ l !! j = Some x.
Proof.
  intros Hx. destruct (list_find_elem_of (λ e, e = x) l x Hx eq_refl) as [[j y] Hj].
  pose proof Hj as Hj'. apply list_find_Some in Hj' as (Hl & -> & _). by exists j.
Qed.

Section mirror.
  Context {NodeData EdgeLabel : Type} `{EqDecision EdgeLabel}.
  Notation Graph := (GenericGraph NodeData EdgeLabel).
  Implicit Types (g : Graph) (a b x y : NodeT) (l : EdgeLabel).
  #[local] Set Default Proof Using "Type*".

Definition succs g a : list (Edge EdgeLabel) := match Store g !! a with Some n => Successors n | None => [] end.
Definition preds g a : list (Edge EdgeLabel) := match Store g !! a with Some n => Predecessors n | None => [] end.

(** How many edges from [a] to [b] have the label [l]. *)
Definition edgesOf g a b l : nat := count (b, l) (succs g a).

(** Every edge has its two halves. *)
Definition mirrored g : Prop := ∀ a b l, count (b, l) (succs g a) = count (a, l) (preds g b).

(** The nodes the graph owns are the nodes there are. *)
Definition owned g : Prop := NoDup (Nodes g) ∧ ∀ N, N ∈ Nodes g ↔ is_Some (Store g !! N).

(** The nodes and their data are the same. *)
Definition sameNodes g g' : Prop :=
  Nodes g' = Nodes g ∧ EntryNode g' = EntryNode g ∧ ∀ N, data <$> Store g' !! N = data <$> Store g !! N.

Lemma sameNodes_refl g : sameNodes g g.
Proof. done. Qed.

Lemma sameNodes_trans g1 g2 g3 : sameNodes g1 g2 → sameNodes g2 g3 → sameNodes g1 g3.
Proof. intros (? & ? & H12) (? & ? & H23). split; [congruence|]. split; [congruence|]. intros N. by rewrite H23. Qed.

Lemma sameNodes_is_Some g g' N : sameNodes g g' → is_Some (Store g' !! N) ↔ is_Some (Store g !! N).
Proof.
  intros (_ & _ & Hd). specialize (Hd N). rewrite <-(fmap_is_Some data (Store g !! N)), <-Hd. by rewrite fmap_is_Some.
Qed.

Lemma sameNodes_owned g g' : sameNodes g g' → owned g → owned g'.
Proof.
  intros Hs [HN Ho]. split; [by destruct Hs as [-> _]|]. intros N. rewrite (sameNodes_is_Some g g' N Hs).
  by destruct Hs as [-> _].
Qed.

Lemma deref_Ok g N n : deref g N = Ok n ↔ Store g !! N = Some n.
Proof. unfold deref. destruct (Store g !! N); naive_solver. Qed.

Lemma elementAt_Ok {A} (k : list A) i e : elementAt k i = Ok e ↔ k !! i = Some e.
Proof. unfold elementAt. destruct (k !! i); naive_solver. Qed.

(** *** Changing one list of one node *)

Lemma modify_Ok f N g : is_Some (Store g !! N) → ∃ n, Store g !! N = Some n ∧
  modify f N g = Ok (mkGraph (Nodes g) (<[N := f n]> (Store g)) (EntryNode g)).
Proof. intros [n Hn]. exists n. unfold modify, deref. by rewrite Hn. Qed.

(** What changing the successors of a node with [F] does. *)
Definition changesSuccs F N g g' : Prop :=
  sameNodes g g' ∧ (∀ x, succs g' x = if decide (x = N) then F (succs g N) else succs g x) ∧
  (∀ x, preds g' x = preds g x).

Definition changesPreds F N g g' : Prop :=
  sameNodes g g' ∧ (∀ x, preds g' x = if decide (x = N) then F (preds g N) else preds g x) ∧
  (∀ x, succs g' x = succs g x).

Lemma withSuccessors_changes F N g :
  is_Some (Store g !! N) → ∃ g', modify (withSuccessors F) N g = Ok g' ∧ changesSuccs F N g g'.
Proof.
  intros HN. destruct (modify_Ok (withSuccessors F) N g HN) as (n & Hn & ->). eexists. split; [done|].
  unfold changesSuccs, sameNodes, succs, preds. simpl.
  split; [split; [done|split; [done|]]|split]; intros x; (destruct (decide (x = N)) as [->|];
    [rewrite lookup_insert_eq, ?Hn, ?decide_True; done|rewrite lookup_insert_ne, ?decide_False by done; done]).
Qed.

Lemma withPredecessors_changes F N g :
  is_Some (Store g !! N) → ∃ g', modify (withPredecessors F) N g = Ok g' ∧ changesPreds F N g g'.
Proof.
  intros HN. destruct (modify_Ok (withPredecessors F) N g HN) as (n & Hn & ->). eexists. split; [done|].
  unfold changesPreds, sameNodes, succs, preds. simpl.
  split; [split; [done|split; [done|]]|split]; intros x; (destruct (decide (x = N)) as [->|];
    [rewrite lookup_insert_eq, ?Hn, ?decide_True; done|rewrite lookup_insert_ne, ?decide_False by done; done]).
Qed.

(** One list of successors and one of predecessors changed. *)
Definition changesBoth F a G b g g' : Prop :=
  sameNodes g g' ∧ (∀ x, succs g' x = if decide (x = a) then F (succs g a) else succs g x) ∧
  (∀ x, preds g' x = if decide (x = b) then G (preds g b) else preds g x).

Lemma modify_both_succ F a G b g :
  is_Some (Store g !! a) → is_Some (Store g !! b) →
  ∃ g', (g1 ← modify (withSuccessors F) a g; modify (withPredecessors G) b g1) = Ok g' ∧ changesBoth F a G b g g'.
Proof.
  intros Ha Hb. destruct (withSuccessors_changes F a g Ha) as (g1 & -> & Hs1 & HS1 & HP1). simpl.
  destruct (withPredecessors_changes G b g1) as (g2 & -> & Hs2 & HP2 & HS2); [by apply (sameNodes_is_Some g)|].
  exists g2. split; [done|]. split; [by eapply sameNodes_trans|]. split; intros x.
  - by rewrite HS2, HS1.
  - by rewrite HP2, !HP1.
Qed.

Lemma modify_both_pred F a G b g :
  is_Some (Store g !! a) → is_Some (Store g !! b) →
  ∃ g', (g1 ← modify (withPredecessors G) b g; modify (withSuccessors F) a g1) = Ok g' ∧ changesBoth F a G b g g'.
Proof.
  intros Ha Hb. destruct (withPredecessors_changes G b g Hb) as (g1 & -> & Hs1 & HP1 & HS1). simpl.
  destruct (withSuccessors_changes F a g1) as (g2 & -> & Hs2 & HS2 & HP2); [by apply (sameNodes_is_Some g)|].
  exists g2. split; [done|]. split; [by eapply sameNodes_trans|]. split; intros x.
  - by rewrite HS2, !HS1.
  - by rewrite HP2, HP1.
Qed.

(** *** The effect on edges *)

(** One more, and one less, edge from [a] to [b]. *)
Definition addsEdge a b l g g' : Prop :=
  mirrored g' ∧ ∀ x y m, edgesOf g' x y m = edgesOf g x y m + (if decide ((x, y, m) = (a, b, l)) then 1 else 0).

Definition removesEdge a b l g g' : Prop :=
  mirrored g' ∧ ∀ x y m, edgesOf g x y m = edgesOf g' x y m + (if decide ((x, y, m) = (a, b, l)) then 1 else 0).

Lemma changes_add a b l g g' :
  mirrored g → changesBoth (emplace_back (b, l)) a (emplace_back (a, l)) b g g' → addsEdge a b l g g'.
Proof.
  intros Hm (_ & HS & HP). unfold emplace_back, Edge in *. split; intros x y m; unfold edgesOf; rewrite HS, ?HP.
  - specialize (Hm x y m). unfold Edge in *.
    repeat case_decide; simplify_eq; rewrite ?count_app; simpl; repeat case_decide; simplify_eq; first [lia|congruence].
  - repeat case_decide; simplify_eq; rewrite ?count_app; simpl; repeat case_decide; simplify_eq; first [lia|congruence].
Qed.

Lemma changes_remove a b l i j g g' :
  mirrored g → succs g a !! i = Some (b, l) → preds g b !! j = Some (a, l) →
  changesBoth (eraseAt i) a (eraseAt j) b g g' → removesEdge a b l g g'.
Proof.
  intros Hm Hi Hj (_ & HS & HP). unfold eraseAt, Edge in *. split; intros x y m; unfold edgesOf; rewrite HS, ?HP;
    pose proof (count_delete (y, m) (b, l) i _ Hi) as Hci; pose proof (count_delete (x, m) (a, l) j _ Hj) as Hcj.
  - specialize (Hm x y m). unfold Edge in *. repeat case_decide; simplify_eq; first [lia|congruence].
  - unfold Edge in *. repeat case_decide; simplify_eq; first [lia|congruence].
Qed.

Lemma mirrored_is_Some g a b l : mirrored g → (b, l) ∈ succs g a → is_Some (Store g !! b).
Proof.
  intros Hm Hin%count_pos. specialize (Hm a b l). unfold Edge in *. rewrite Hm in Hin. apply count_pos in Hin.
  unfold preds in Hin. destruct (Store g !! b); [done|]. by apply elem_of_nil in Hin.
Qed.

Lemma mirrored_halves g a b l : mirrored g → (b, l) ∈ succs g a ↔ (a, l) ∈ preds g b.
Proof. intros Hm. specialize (Hm a b l). rewrite <-!count_pos. unfold Edge in *. by rewrite Hm. Qed.

Lemma mirrored_is_Some_pred g a b l : mirrored g → (a, l) ∈ preds g b → is_Some (Store g !! a).
Proof.
  intros Hm Hin%(mirrored_halves g a b l Hm). unfold succs in Hin.
  destruct (Store g !! a); [done|]. by apply elem_of_nil in Hin.
Qed.

Lemma preds_deref g b i e : preds g b !! i = Some e → ∃ n, deref g b = Ok n ∧ Predecessors n !! i = Some e.
Proof. unfold preds, deref. destruct (Store g !! b) as [n|]; [by exists n|done]. Qed.

Lemma succs_deref g b i e : succs g b !! i = Some e → ∃ n, deref g b = Ok n ∧ Successors n !! i = Some e.
Proof. unfold succs, deref. destruct (Store g !! b) as [n|]; [by exists n|done]. Qed.

Lemma succs_elem g a e : e ∈ succs g a → ∃ n, deref g a = Ok n ∧ e ∈ Successors n ∧ succs g a = Successors n.
Proof. unfold succs, deref. destruct (Store g !! a) as [n|]; [by exists n|by intros ?%elem_of_nil]. Qed.

Lemma preds_elem g a e : e ∈ preds g a → ∃ n, deref g a = Ok n ∧ e ∈ Predecessors n ∧ preds g a = Predecessors n.
Proof. unfold preds, deref. destruct (Store g !! a) as [n|]; [by exists n|by intros ?%elem_of_nil]. Qed.

(** *** The operations on edges *)

Lemma addSuccessor_spec g a b l :
  mirrored g → is_Some (Store g !! a) → is_Some (Store g !! b) →
  ∃ g', addSuccessor a b l g = Ok g' ∧ sameNodes g g' ∧ addsEdge a b l g g'.
Proof.
  intros Hm Ha Hb. destruct (modify_both_succ (emplace_back (b, l)) a (emplace_back (a, l)) b g Ha Hb) as (g' & Hg & Hc).
  exists g'. split; [done|]. split; [apply Hc|]. by apply changes_add.
Qed.

Lemma addPredecessor_spec g a b l :
  mirrored g → is_Some (Store g !! a) → is_Some (Store g !! b) →
  ∃ g', addPredecessor b a l g = Ok g' ∧ sameNodes g g' ∧ addsEdge a b l g g'.
Proof.
  intros Hm Ha Hb. destruct (modify_both_pred (emplace_back (b, l)) a (emplace_back (a, l)) b g Ha Hb) as (g' & Hg & Hc).
  exists g'. split; [done|]. split; [apply Hc|]. by apply changes_add.
Qed.

Lemma removePredecessorEdge_spec g a b l i :
  mirrored g → preds g b !! i = Some (a, l) →
  ∃ g', removePredecessorEdge b i g = Ok g' ∧ sameNodes g g' ∧ removesEdge a b l g g' ∧
    preds g' b = delete i (preds g b).
Proof.
  intros Hm Hi. assert ((a, l) ∈ preds g b) as Hin by by eapply list_elem_of_lookup_2.
  pose proof (mirrored_is_Some_pred g a b l Hm Hin) as Ha.
  apply (mirrored_halves g a b l Hm) in Hin. destruct (succs_elem g a _ Hin) as (p & Hp & Hin' & Hps).
  destruct (preds_deref g b i _ Hi) as (n & Hn & Hi'). destruct (list_find_elem _ _ Hin') as (j & Hf & Hj).
  assert (is_Some (Store g !! b)) as Hb by (apply deref_Ok in Hn; by exists n).
  destruct (modify_both_succ (eraseAt j) a (eraseAt i) b g Ha Hb) as (g' & Hg & Hc). exists g'. split.
  - unfold removePredecessorEdge. rewrite Hn. simpl. unfold elementAt. rewrite Hi'. simpl. rewrite Hp. simpl.
    by rewrite Hf.
  - split; [apply Hc|]. split; [eapply changes_remove; [done|by rewrite Hps|done|done]|].
    destruct Hc as (_ & _ & ->). by rewrite decide_True.
Qed.

Lemma removeSuccessorEdge_spec g a b l i :
  mirrored g → succs g a !! i = Some (b, l) →
  ∃ g', removeSuccessorEdge a i g = Ok g' ∧ sameNodes g g' ∧ removesEdge a b l g g' ∧
    succs g' a = delete i (succs g a).
Proof.
  intros Hm Hi. assert ((b, l) ∈ succs g a) as Hin by by eapply list_elem_of_lookup_2.
  pose proof (mirrored_is_Some g a b l Hm Hin) as Hb.
  apply (mirrored_halves g a b l Hm) in Hin. destruct (preds_elem g b _ Hin) as (p & Hp & Hin' & Hps).
  destruct (succs_deref g a i _ Hi) as (n & Hn & Hi'). destruct (list_find_elem _ _ Hin') as (j & Hf & Hj).
  assert (is_Some (Store g !! a)) as Ha by (apply deref_Ok in Hn; by exists n).
  destruct (modify_both_pred (eraseAt i) a (eraseAt j) b g Ha Hb) as (g' & Hg & Hc). exists g'. split.
  - unfold removeSuccessorEdge. rewrite Hn. simpl. unfold elementAt. rewrite Hi'. simpl. rewrite Hp. simpl.
    by rewrite Hf.
  - split; [apply Hc|]. split; [eapply changes_remove; [done|done|by rewrite Hps|done]|].
    destruct Hc as (_ & -> & _). by rewrite decide_True.
Qed.

(** The edges that enter, and that leave, a node are removed. *)
Definition clearsInto b g g' : Prop :=
  sameNodes g g' ∧ mirrored g' ∧ ∀ x y m, edgesOf g' x y m = if decide (y = b) then 0 else edgesOf g x y m.

Definition clearsFrom a g g' : Prop :=
  sameNodes g g' ∧ mirrored g' ∧ ∀ x y m, edgesOf g' x y m = if decide (x = a) then 0 else edgesOf g x y m.

Lemma clearPredecessors_spec g b :
  mirrored g → is_Some (Store g !! b) → ∃ g', clearPredecessors b g = Ok g' ∧ clearsInto b g g'.
Proof.
  intros Hm [n Hn]. unfold clearPredecessors, deref. rewrite Hn. simpl.
  assert (Predecessors n = preds g b) as Hp by (unfold preds; by rewrite Hn). rewrite Hp. clear Hp.
  remember (length (preds g b)) as k eqn:Hk. revert g n Hm Hn Hk. induction k as [|k IH]; intros g n Hm Hn Hk; simpl.
  - exists g. unfold deref. rewrite Hn. simpl.
    assert (Predecessors n = []) as -> by (apply nil_length_inv; unfold preds in Hk; by rewrite Hn in Hk).
    split; [done|]. split; [done|]. split; [done|]. intros x y m. case_decide as Hy; [subst|done].
    unfold edgesOf. rewrite Hm. by rewrite (nil_length_inv (preds g b)).
  - assert (∃ a l k', preds g b = (a, l) :: k') as (a & l & k' & Hp) by (destruct (preds g b) as [|[a l] k']; [done|eauto]).
    destruct (removePredecessorEdge_spec g a b l 0 Hm) as (g1 & Hg1 & Hs1 & [Hm1 He1] & Hp1); [by rewrite Hp|].
    unfold deref at 1. rewrite Hn. simpl.
    assert (Predecessors n = (a, l) :: k') as -> by (unfold preds in Hp; by rewrite Hn in Hp).
    rewrite Hg1. simpl. assert (is_Some (Store g1 !! b)) as [n1 Hn1] by by (apply (sameNodes_is_Some g); [|exists n]).
    destruct (IH g1 n1 Hm1 Hn1) as (g' & Hg' & Hs' & Hm' & He'); [rewrite Hp1, Hp in *; simpl in *; lia|].
    exists g'. split; [done|]. split; [by eapply sameNodes_trans|]. split; [done|].
    intros x y m. rewrite He', He1. case_decide; [done|]. rewrite decide_False by congruence. lia.
Qed.

Lemma clearSuccessors_spec g a :
  mirrored g → is_Some (Store g !! a) → ∃ g', clearSuccessors a g = Ok g' ∧ clearsFrom a g g'.
Proof.
  intros Hm [n Hn]. unfold clearSuccessors, deref. rewrite Hn. simpl.
  assert (Successors n = succs g a) as Hp by (unfold succs; by rewrite Hn). rewrite Hp. clear Hp.
  remember (length (succs g a)) as k eqn:Hk. revert g n Hm Hn Hk. induction k as [|k IH]; intros g n Hm Hn Hk; simpl.
  - exists g. unfold deref. rewrite Hn. simpl.
    assert (Successors n = []) as -> by (apply nil_length_inv; unfold succs in Hk; by rewrite Hn in Hk).
    split; [done|]. split; [done|]. split; [done|]. intros x y m. case_decide as Hy; [subst|done].
    unfold edgesOf. by rewrite (nil_length_inv (succs g a)).
  - assert (∃ b l k', succs g a = (b, l) :: k') as (b & l & k' & Hp) by (destruct (succs g a) as [|[b l] k']; [done|eauto]).
    destruct (removeSuccessorEdge_spec g a b l 0 Hm) as (g1 & Hg1 & Hs1 & [Hm1 He1] & Hp1); [by rewrite Hp|].
    unfold deref at 1. rewrite Hn. simpl.
    assert (Successors n = (b, l) :: k') as -> by (unfold succs in Hp; by rewrite Hn in Hp).
    rewrite Hg1. simpl. assert (is_Some (Store g1 !! a)) as [n1 Hn1] by by (apply (sameNodes_is_Some g); [|exists n]).
    destruct (IH g1 n1 Hm1 Hn1) as (g' & Hg' & Hs' & Hm' & He'); [rewrite Hp1, Hp in *; simpl in *; lia|].
    exists g'. split; [done|]. split; [by eapply sameNodes_trans|]. split; [done|].
    intros x y m. rewrite He', He1. case_decide; [done|]. rewrite decide_False by congruence. lia.
Qed.
(** *** The operations on nodes *)

(** A consistent graph. *)
Definition wf g : Prop := mirrored g ∧ owned g.

Lemma newNode_fresh g : Store g !! newNode g = None.
Proof. apply not_elem_of_dom, is_fresh. Qed.

Lemma insert_fresh g N d x :
  Store g !! N = None →
  let S := <[N := mkNode d [] []]> (Store g) in
  (match S !! x with Some n => Successors n | None => [] end = succs g x) ∧
  (match S !! x with Some n => Predecessors n | None => [] end = preds g x).
Proof.
  intros HN. unfold succs, preds. destruct (decide (x = N)) as [->|].
  - by rewrite lookup_insert_eq, HN.
  - by rewrite lookup_insert_ne.
Qed.

(** Inserting a new node anywhere in the order. *)
Lemma fresh_wf g N d front back :
  wf g → Store g !! N = None → Nodes g = front ++ back →
  wf (mkGraph (front ++ N :: back) (<[N := mkNode d [] []]> (Store g)) (EntryNode g)) ∧
  ∀ x y m, edgesOf (mkGraph (front ++ N :: back) (<[N := mkNode d [] []]> (Store g)) (EntryNode g)) x y m = edgesOf g x y m.
Proof.
  intros [Hm [HND Ho]] HN Hl. set (g' := mkGraph _ _ _).
  assert (∀ x, succs g' x = succs g x) as HS by (intros x; by apply (insert_fresh g N d x)).
  assert (∀ x, preds g' x = preds g x) as HP by (intros x; by apply (insert_fresh g N d x)).
  split; [split; [|split]|].
  - intros x y m. by rewrite HS, HP.
  - simpl. rewrite Hl in HND, Ho. assert (N ∉ front ++ back) as Hnin by (rewrite Ho, HN; by intros [? ?]).
    rewrite <-Permutation_middle. by apply NoDup_cons.
  - intros x. simpl. rewrite Hl in Ho. rewrite <-Permutation_middle, elem_of_cons, Ho.
    destruct (decide (x = N)) as [->|]; [rewrite lookup_insert_eq; naive_solver|].
    rewrite lookup_insert_ne by done. naive_solver.
  - intros x y m. unfold edgesOf. by rewrite HS.
Qed.

Lemma removeNode_spec g It N :
  wf g → Nodes g !! It = Some N → (∀ x m, edgesOf g x N m = 0 ∧ edgesOf g N x m = 0) →
  ∃ g', removeNode It g = Ok g' ∧ wf g' ∧ Nodes g' = delete It (Nodes g) ∧
    (∀ x, x ≠ N → Store g' !! x = Store g !! x) ∧ ∀ x y m, edgesOf g' x y m = edgesOf g x y m.
Proof.
  intros [Hm [HND Ho]] HIt H0. eexists. unfold removeNode, elementAt. rewrite HIt. simpl. split; [done|].
  set (g' := mkGraph _ _ _).
  assert (∀ k : list (Edge EdgeLabel), (∀ x m, count (x, m) k = 0) → k = []) as Hnil.
  { intros [|[x m] k]; [done|]. intros Hk. specialize (Hk x m). simpl in Hk. by rewrite decide_True in Hk. }
  assert (succs g N = []) as HsN by (apply Hnil; intros x m; apply (H0 x m)).
  assert (preds g N = []) as HpN by (apply Hnil; intros x m; unfold Edge; rewrite <-(Hm x N m); apply (H0 x m)).
  assert (∀ x, succs g' x = succs g x) as HS.
  { intros x. unfold succs, g'. simpl. destruct (decide (x = N)) as [->|].
    - rewrite lookup_delete_eq. unfold succs in HsN. by destruct (Store g !! N).
    - by rewrite lookup_delete_ne. }
  assert (∀ x, preds g' x = preds g x) as HP.
  { intros x. unfold preds, g'. simpl. destruct (decide (x = N)) as [->|].
    - rewrite lookup_delete_eq. unfold preds in HpN. by destruct (Store g !! N).
    - by rewrite lookup_delete_ne. }
  assert (Nodes g ≡ₚ N :: delete It (Nodes g)) as Hperm by by apply delete_Permutation.
  split; [split; [|split]|split; [done|split]].
  - intros x y m. by rewrite HS, HP.
  - rewrite Hperm in HND. by apply NoDup_cons in HND as [_ ?].
  - intros x. simpl. rewrite Hperm in HND. apply NoDup_cons in HND as [Hnin _].
    specialize (Ho x). rewrite Hperm, elem_of_cons in Ho. destruct (decide (x = N)) as [->|].
    + rewrite lookup_delete_eq. split; [done|by intros [? ?]].
    + rewrite lookup_delete_ne by done. naive_solver.
  - intros x Hx. simpl. by rewrite lookup_delete_ne.
  - intros x y m. unfold edgesOf. by rewrite HS.
Qed.

(** An iterator over neighbors has no label: what is removed in the other node is the first
    half of an edge from the same node, and the graph stays consistent exactly when that
    half has the same label. *)
Lemma changes_halves a b l l' i j g g' :
  wf g → succs g a !! i = Some (b, l) → preds g b !! j = Some (a, l') →
  changesBoth (eraseAt i) a (eraseAt j) b g g' → (l' = l → removesEdge a b l g g') ∧ (wf g' ↔ l' = l).
Proof.
  intros [Hm Ho] Hi Hj Hc. assert (l' = l → removesEdge a b l g g') as Hr by (intros ->; by eapply changes_remove).
  split; [done|]. split; [|intros Hl; split; [by apply Hr|by apply (sameNodes_owned g); [apply Hc|]]].
  intros [Hm' _]. destruct (decide (l' = l)) as [|Hne]; [done|]. exfalso. destruct Hc as (_ & HS & HP).
  specialize (Hm a b l). specialize (Hm' a b l). unfold eraseAt, Edge in *. rewrite HS, HP, !decide_True in Hm' by done.
  pose proof (count_delete (b, l) (b, l) i _ Hi) as Hci. pose proof (count_delete (a, l) (a, l') j _ Hj) as Hcj.
  rewrite decide_True in Hci by done. rewrite decide_False in Hcj by congruence. lia.
Qed.

Lemma removeSuccessor_spec g a b l i :
  wf g → succs g a !! i = Some (b, l) →
  ∃ j l' g', list_find (λ e, e.1 = a) (preds g b) = Some (j, (a, l')) ∧ removeSuccessor a i g = Ok g' ∧
    sameNodes g g' ∧ (l' = l → removesEdge a b l g g') ∧ (wf g' ↔ l' = l).
Proof.
  intros Hwf Hi. pose proof Hwf as [Hm _]. assert ((b, l) ∈ succs g a) as Hin by by eapply list_elem_of_lookup_2.
  pose proof (mirrored_is_Some g a b l Hm Hin) as Hb. apply (mirrored_halves g a b l Hm) in Hin.
  destruct (preds_elem g b _ Hin) as (p & Hp & Hin' & Hps). destruct (succs_deref g a i _ Hi) as (n & Hn & Hi').
  assert (is_Some (Store g !! a)) as Ha by (apply deref_Ok in Hn; by exists n).
  destruct (list_find_elem_of (λ e : Edge EdgeLabel, e.1 = a) _ _ Hin' eq_refl) as [[j [a' l']] Hf].
  pose proof Hf as (Hj & Ha' & _)%list_find_Some. cbn in Ha'. subst a'.
  destruct (modify_both_pred (eraseAt i) a (eraseAt j) b g Ha Hb) as (g' & Hg & Hc). exists j, l', g'.
  split; [by rewrite Hps|]. split; [|split; [apply Hc|eapply changes_halves; [done|done|by rewrite Hps|done]]].
  unfold removeSuccessor. rewrite Hn. simpl. unfold elementAt. rewrite Hi'. simpl. rewrite Hp. simpl. by rewrite Hf.
Qed.

Lemma removePredecessor_spec g a b l i :
  wf g → preds g b !! i = Some (a, l) →
  ∃ j l' g', list_find (λ e, e.1 = b) (succs g a) = Some (j, (b, l')) ∧ removePredecessor b i g = Ok g' ∧
    sameNodes g g' ∧ (l' = l → removesEdge a b l g g') ∧ (wf g' ↔ l' = l).
Proof.
  intros Hwf Hi. pose proof Hwf as [Hm _]. assert ((a, l) ∈ preds g b) as Hin by by eapply list_elem_of_lookup_2.
  pose proof (mirrored_is_Some_pred g a b l Hm Hin) as Ha. apply (mirrored_halves g a b l Hm) in Hin.
  destruct (succs_elem g a _ Hin) as (p & Hp & Hin' & Hps). destruct (preds_deref g b i _ Hi) as (n & Hn & Hi').
  assert (is_Some (Store g !! b)) as Hb by (apply deref_Ok in Hn; by exists n).
  destruct (list_find_elem_of (λ e : Edge EdgeLabel, e.1 = b) _ _ Hin' eq_refl) as [[j [b' l']] Hf].
  pose proof Hf as (Hj & Hb' & _)%list_find_Some. cbn in Hb'. subst b'.
  destruct (modify_both_succ (eraseAt j) a (eraseAt i) b g Ha Hb) as (g' & Hg & Hc). exists j, l', g'.
  split; [by rewrite Hps|]. rewrite <- Hps in Hj.
  split; [|split; [apply Hc|destruct (changes_halves a b l' l j i g g' Hwf Hj Hi Hc) as [Hr Hw]]].
  - unfold removePredecessor. rewrite Hn. simpl. unfold elementAt. rewrite Hi'. simpl. rewrite Hp. simpl. by rewrite Hf.
  - split; [intros ->; by apply Hr|]. rewrite Hw. by split.
Qed.

(** Removing a node that has an edge with another one leaves a half of it. *)
Lemma removeNode_dangling g It N x m :
  wf g → Nodes g !! It = Some N → x ≠ N → 0 < edgesOf g x N m ∨ 0 < edgesOf g N x m →
  ∃ g', removeNode It g = Ok g' ∧ ¬ wf g'.
Proof.
  intros [Hm _] HIt Hne He. eexists. unfold removeNode, elementAt. rewrite HIt. simpl. split; [done|].
  intros [Hm' _]. destruct He as [He|He].
  - specialize (Hm' x N m). unfold edgesOf, succs, preds in *. simpl in Hm'. rewrite lookup_delete_ne, lookup_delete_eq in Hm' by done.
    simpl in Hm'. lia.
  - unfold edgesOf in He. rewrite (Hm N x m) in He. specialize (Hm' N x m). unfold edgesOf, succs, preds in *. simpl in Hm'.
    rewrite lookup_delete_eq, lookup_delete_ne in Hm' by done. simpl in Hm'. lia.
Qed.

Lemma wf_verify g : wf g → verify g = Ok true.
Proof.
  intros [Hm [_ Ho]]. unfold verify.
  assert (∀ Ns, (∀ x, x ∈ Ns → x ∈ Nodes g) →
    foldr (λ N rest, n ← deref g N;
      if negb (forallb (λ e : Edge EdgeLabel, bool_decide (e.1 ∈ Nodes g)) (Successors n)) then Ok false
      else if negb (forallb (λ e : Edge EdgeLabel, bool_decide (e.1 ∈ Nodes g)) (Predecessors n)) then Ok false
      else rest) (Ok true) Ns = Ok true) as Hall; [|by apply Hall].
  intros Ns. induction Ns as [|N Ns IH]; [done|]. intros Hl. simpl.
  assert (is_Some (Store g !! N)) as [n Hn] by (apply Ho, Hl; by left).
  unfold deref. rewrite Hn. simpl.
  assert (forallb (λ e : Edge EdgeLabel, bool_decide (e.1 ∈ Nodes g)) (Successors n) = true) as ->.
  { apply forallb_forall. intros [y m] Hin%list_elem_of_In. apply bool_decide_eq_true, Ho. simpl.
    eapply (mirrored_is_Some g N y m Hm). unfold succs. by rewrite Hn. }
  assert (forallb (λ e : Edge EdgeLabel, bool_decide (e.1 ∈ Nodes g)) (Predecessors n) = true) as ->.
  { apply forallb_forall. intros [y m] Hin%list_elem_of_In. apply bool_decide_eq_true, Ho. simpl.
    eapply (mirrored_is_Some_pred g y N m Hm). unfold preds. by rewrite Hn. }
  apply IH. intros x Hx. apply Hl. by right.
Qed.

(** What the queries on neighbors answer. *)
Lemma neighbors_spec g a b :
  is_Some (Store g !! a) →
  hasSuccessor g a b = Ok (bool_decide (b ∈ map fst (succs g a))) ∧
  hasPredecessor g a b = Ok (bool_decide (b ∈ map fst (preds g a))).
Proof. intros [n Hn]. unfold hasSuccessor, hasPredecessor, deref, succs, preds. by rewrite Hn. Qed.

Lemma elem_succs g a b : b ∈ map fst (succs g a) ↔ ∃ l, 0 < edgesOf g a b l.
Proof.
  unfold edgesOf. split.
  - intros ([b' l] & -> & Hin)%list_elem_of_fmap. exists l. by apply count_pos.
  - intros [l Hl%count_pos]. apply list_elem_of_fmap. by exists (b, l).
Qed.

Lemma elem_preds g a b : mirrored g → a ∈ map fst (preds g b) ↔ ∃ l, 0 < edgesOf g a b l.
Proof.
  intros Hm. unfold edgesOf. split.
  - intros ([a' l] & -> & Hin)%list_elem_of_fmap. exists l. rewrite Hm. by apply count_pos.
  - intros [l Hl]. rewrite Hm in Hl. apply count_pos in Hl. apply list_elem_of_fmap. by exists (a, l).
Qed.

Lemma sameNodes_wf g g' : sameNodes g g' → mirrored g' → wf g → wf g'.
Proof. intros Hs Hm [_ Ho]. split; [done|]. by eapply sameNodes_owned. Qed.

Lemma wf_is_Some g N : wf g → N ∈ Nodes g → is_Some (Store g !! N).
Proof. intros [_ [_ Ho]]. apply Ho. Qed.

(** Whether a graph is consistent. *)
Definition consistent g : bool :=
  bool_decide (NoDup (Nodes g)) && bool_decide (list_to_set (Nodes g) = dom (Store g)) &&
  forallb (λ a, forallb (λ e : NodeT * EdgeLabel, count e (succs g a) =? count (a, e.2) (preds g e.1)) (succs g a) &&
                forallb (λ e : NodeT * EdgeLabel, count e (preds g a) =? count (a, e.2) (succs g e.1)) (preds g a))
    (elements (dom (Store g))).

Lemma consistent_wf g : consistent g = true → wf g.
Proof.
  unfold consistent. rewrite !andb_true_iff, !bool_decide_eq_true, forallb_forall. intros [[HND Hdom] Hall].
  assert (∀ a, is_Some (Store g !! a) →
    (∀ e, e ∈ succs g a → count e (succs g a) = count (a, e.2) (preds g e.1)) ∧
    (∀ e, e ∈ preds g a → count e (preds g a) = count (a, e.2) (succs g e.1))) as Hc.
  { intros a Ha. specialize (Hall a). rewrite andb_true_iff, !forallb_forall in Hall.
    destruct Hall as [H1 H2]; [by apply list_elem_of_In, elem_of_elements, elem_of_dom|].
    split; intros e He; apply Nat.eqb_eq; [apply H1|apply H2]; by apply list_elem_of_In. }
  split; [|split; [done|]].
  - intros a b l. destruct (decide (0 < count (b, l) (succs g a))) as [Hp|Hn].
    + assert (is_Some (Store g !! a)) as Ha.
      { apply count_pos in Hp. unfold succs in Hp. destruct (Store g !! a); [done|by apply elem_of_nil in Hp]. }
      apply (proj1 (Hc a Ha) (b, l)). by apply count_pos.
    + destruct (decide (0 < count (a, l) (preds g b))) as [Hp|Hn']; [|unfold Edge in *; lia].
      assert (is_Some (Store g !! b)) as Hb.
      { apply count_pos in Hp. unfold preds in Hp. destruct (Store g !! b); [done|by apply elem_of_nil in Hp]. }
      symmetry. apply (proj2 (Hc b Hb) (a, l)). by apply count_pos.
  - intros N. rewrite <-elem_of_dom, <-Hdom. by rewrite elem_of_list_to_set.
Qed.
End mirror.

(** ** Properties *)

(** C23: a graph of bidirectional nodes implements a multigraph with labelled
    edges. On a consistent graph (the two halves of every edge are there, the nodes are
    those it owns), adding nodes and edges, removing edges and clearing the edges of a
    node are defined, fail no assertion, keep the graph consistent and change the edges
    as they say; the neighbors reported are those of the edges, and [verify] accepts.
    Removing a neighbor, by an iterator that has no label, keeps the graph consistent,
    and removes one edge, exactly when the first half of an edge between the two nodes
    that the other node has is of the same label. Removing a node that has no edges
    changes no edge; removing one that has an edge with another node leaves a graph that
    is not consistent. *)
Theorem graph_refines_multigraph {NodeData EdgeLabel} `{EqDecision EdgeLabel}
    (g : GenericGraph NodeData EdgeLabel) :
  wf g →
  (∀ d, let '(N, g') := addNode d g in
     N ∉ Nodes g ∧ wf g' ∧ Nodes g' = Nodes g ++ [N] ∧ ∀ x y m, edgesOf g' x y m = edgesOf g x y m) ∧
  (∀ a b l, a ∈ Nodes g → b ∈ Nodes g →
     (∃ g', addSuccessor a b l g = Ok g' ∧ wf g' ∧ sameNodes g g' ∧ addsEdge a b l g g') ∧
     (∃ g', addPredecessor b a l g = Ok g' ∧ wf g' ∧ sameNodes g g' ∧ addsEdge a b l g g')) ∧
  (∀ a b l i, succs g a !! i = Some (b, l) →
     ∃ g', removeSuccessorEdge a i g = Ok g' ∧ wf g' ∧ sameNodes g g' ∧ removesEdge a b l g g') ∧
  (∀ a b l i, preds g b !! i = Some (a, l) →
     ∃ g', removePredecessorEdge b i g = Ok g' ∧ wf g' ∧ sameNodes g g' ∧ removesEdge a b l g g') ∧
  (∀ a, a ∈ Nodes g →
     (∃ g', clearSuccessors a g = Ok g' ∧ wf g' ∧ clearsFrom a g g') ∧
     (∃ g', clearPredecessors a g = Ok g' ∧ wf g' ∧ clearsInto a g g')) ∧
  (∀ N i, Nodes g !! i = Some N → (∀ x m, edgesOf g x N m = 0 ∧ edgesOf g N x m = 0) →
     ∃ g', removeNode i g = Ok g' ∧ wf g' ∧ Nodes g' = delete i (Nodes g) ∧
       ∀ x y m, edgesOf g' x y m = edgesOf g x y m) ∧
  (∀ N i x m, Nodes g !! i = Some N → x ≠ N → 0 < edgesOf g x N m ∨ 0 < edgesOf g N x m →
     ∃ g', removeNode i g = Ok g' ∧ ¬ wf g') ∧
  (∀ a b l i, succs g a !! i = Some (b, l) →
     ∃ j l' g', list_find (λ e, e.1 = a) (preds g b) = Some (j, (a, l')) ∧ removeSuccessor a i g = Ok g' ∧
       sameNodes g g' ∧ (l' = l → removesEdge a b l g g') ∧ (wf g' ↔ l' = l)) ∧
  (∀ a b l i, preds g b !! i = Some (a, l) →
     ∃ j l' g', list_find (λ e, e.1 = b) (succs g a) = Some (j, (b, l')) ∧ removePredecessor b i g = Ok g' ∧
       sameNodes g g' ∧ (l' = l → removesEdge a b l g g') ∧ (wf g' ↔ l' = l)) ∧
  (∀ a b, a ∈ Nodes g → b ∈ Nodes g →
     (hasSuccessor g a b = Ok true ↔ ∃ l, 0 < edgesOf g a b l) ∧
     (hasPredecessor g b a = Ok true ↔ ∃ l, 0 < edgesOf g a b l)) ∧
  verify g = Ok true.
Proof.
  intros Hwf. pose proof Hwf as [Hm Ho].
  assert (∀ g', sameNodes g g' → mirrored g' → wf g') as Hwf' by (intros g' Hs Hg'; by eapply sameNodes_wf).
  split; [|split; [|split; [|split; [|split; [|split; [|split; [|split; [|split; [|split]]]]]]]]].
  - intros d. simpl. pose proof (newNode_fresh g) as Hf.
    destruct (fresh_wf g (newNode g) d (Nodes g) [] Hwf Hf) as [? ?]; [by rewrite app_nil_r|].
    split; [|done]. destruct Ho as [_ Ho]. rewrite Ho, Hf. by intros [? ?].
  - intros a b l Ha%(wf_is_Some g a Hwf) Hb%(wf_is_Some g b Hwf). split.
    + destruct (addSuccessor_spec g a b l Hm Ha Hb) as (g' & ? & ? & [? ?]). exists g'. split; [done|]. split; [by apply Hwf'|done].
    + destruct (addPredecessor_spec g a b l Hm Ha Hb) as (g' & ? & ? & [? ?]). exists g'. split; [done|]. split; [by apply Hwf'|done].
  - intros a b l i Hi. destruct (removeSuccessorEdge_spec g a b l i Hm Hi) as (g' & ? & ? & [? ?] & _). exists g'. split; [done|]. split; [by apply Hwf'|done].
  - intros a b l i Hi. destruct (removePredecessorEdge_spec g a b l i Hm Hi) as (g' & ? & ? & [? ?] & _). exists g'. split; [done|]. split; [by apply Hwf'|done].
  - intros a Ha%(wf_is_Some g a Hwf). split.
    + destruct (clearSuccessors_spec g a Hm Ha) as (g' & ? & Hs & Hm' & He). exists g'. split; [done|]. split; [by apply Hwf'|done].
    + destruct (clearPredecessors_spec g a Hm Ha) as (g' & ? & Hs & Hm' & He). exists g'. split; [done|]. split; [by apply Hwf'|done].
  - intros N i Hi H0. destruct (removeNode_spec g i N Hwf Hi H0) as (g' & ? & ? & ? & _ & ?). by exists g'.
  - intros N i x m. by apply removeNode_dangling.
  - intros a b l i. by apply removeSuccessor_spec.
  - intros a b l i. by apply removePredecessor_spec.
  - intros a b Ha%(wf_is_Some g a Hwf) Hb%(wf_is_Some g b Hwf).
    destruct (neighbors_spec g a b Ha) as [-> _], (neighbors_spec g b a Hb) as [_ ->].
    pose proof (elem_succs g a b). pose proof (elem_preds g a b Hm). split; case_bool_decide; naive_solver.
  - by apply wf_verify.
Qed.

(** Two nodes and two edges between them. *)
Definition twoNodes : GenericGraph unit bool :=
  mkGraph [1; 2]%positive
    {[1%positive := mkNode tt [(2%positive, true); (2%positive, false)] [];
      2%positive := mkNode tt [] [(1%positive, true); (1%positive, false)]]} (Some 1%positive).

Lemma twoNodes_wf : wf twoNodes.
Proof. apply consistent_wf. vm_compute. reflexivity. Qed.

Lemma graph_refines_multigraph_witness :
  ∃ g', clearPredecessors 2%positive twoNodes = Ok g' ∧ wf g' ∧ clearsInto 2%positive twoNodes g'.
Proof.
  destruct (graph_refines_multigraph twoNodes twoNodes_wf) as (_ & _ & _ & _ & Hc & _).
  assert (2%positive ∈ Nodes twoNodes) as Hin by (unfold twoNodes; simpl; apply elem_of_cons; right; apply elem_of_cons; by left).
  exact (proj2 (Hc 2%positive Hin)).
Defined.

(** [removeSuccessor] on an iterator over neighbors ignores the labels: between
    two nodes joined by two edges with different labels, removing the second
    one erases its half in the source and the half of the first one in the
    target. The remaining halves do not match, and removing what is left of the
    edge fails an assertion. *)
Theorem parallel_edges_mismatched :
  ∃ g', removeSuccessor 1%positive 1 twoNodes = Ok g' ∧
    edgesOf g' 1%positive 2%positive true = 1 ∧ count (1%positive, true) (preds g' 2%positive) = 0 ∧
    ¬ wf g' ∧ removeSuccessorEdge 1%positive 0 g' = Fault AssertionFailed.
Proof.
  eexists. split; [vm_compute; reflexivity|]. split; [done|]. split; [done|]. split; [|done].
  intros [Hm _]. specialize (Hm 1%positive 2%positive true). vm_compute in Hm. done.
Qed.
