(* ===== verification/Reachability.v ===== *)
(** * Reachability in finite graphs

    The nodes that can be reached from a node, computed by iteration; and the walks of
    LLVM over finite graphs (post order, strongly connected components), as an interface
    with an instance. *)

From S2P Require Import Prelude.
From stdpp Require Import gmap list relations sorting.

(** ** The closure under a function *)

Section closure.
  Context {A : Type} `{Countable A} (next : A → list A) (support : gset A).
  Hypothesis support_spec : ∀ x, x ∉ support → next x = [].

Definition nexts (X : gset A) : gset A := list_to_set (flat_map next (elements X)).

Fixpoint closure (fuel : nat) (X : gset A) : gset A :=
  match fuel with
  | O => X
  | S fuel => if decide (nexts X ⊆ X) then X else closure fuel (X ∪ nexts X)
  end.

Lemma nexts_spec X y : y ∈ nexts X ↔ ∃ x, x ∈ X ∧ y ∈ next x.
Proof using Type.
  unfold nexts. rewrite elem_of_list_to_set, list_elem_of_In, in_flat_map. split.
  - intros (x & Hx%list_elem_of_In & Hy%list_elem_of_In). exists x. by rewrite <-elem_of_elements.
  - intros (x & Hx & Hy). exists x. rewrite <-!list_elem_of_In. by rewrite elem_of_elements.
Qed.

Definition closureFuel : nat := base.size (nexts support).

Lemma closure_spec fuel X :
  base.size (nexts support ∖ X) ≤ fuel →
  X ⊆ closure fuel X ∧ nexts (closure fuel X) ⊆ closure fuel X ∧
  ∀ y, y ∈ closure fuel X → ∃ x, x ∈ X ∧ rtc (λ a b, b ∈ next a) x y.
Proof using Type*.
  assert (∀ Y, nexts Y ⊆ nexts support) as Hsup.
  { intros Y y (x & Hx & Hy)%nexts_spec. apply nexts_spec. exists x. split; [|done].
    destruct (decide (x ∈ support)) as [|Hn]; [done|]. rewrite support_spec in Hy by done. by apply elem_of_nil in Hy. }
  revert X. induction fuel as [|fuel IH]; intros X HX; cbn [closure].
  - split; [done|]. split; [|intros y Hy; exists y; by split].
    assert (nexts support ∖ X ≡ ∅) as He by (apply size_empty_iff; lia). specialize (Hsup X). intros x Hx.
    destruct (decide (x ∈ X)) as [|Hn]; [done|]. exfalso. apply (not_elem_of_empty (C := gset A) x). rewrite <-He.
    apply elem_of_difference. auto.
  - destruct (decide (nexts X ⊆ X)) as [Hc|Hc].
    { split; [done|]. split; [done|]. intros y Hy. exists y. by split. }
    destruct (IH (X ∪ nexts X)) as (Hs & Hn & Hr).
    { assert (base.size (nexts support ∖ (X ∪ nexts X)) < base.size (nexts support ∖ X)); [|lia].
      apply subset_size. split; [set_solver|]. intros Hsub. apply Hc. intros x Hx.
      destruct (decide (x ∈ X)) as [|HxX]; [done|]. assert (x ∈ nexts support ∖ X) as Hin by (specialize (Hsup X); set_solver).
      apply Hsub in Hin. set_solver. }
    split; [set_solver|]. split; [done|]. intros y (x & [Hx|(z & Hz & Hzx)%nexts_spec]%elem_of_union & Hxy)%Hr.
    + by exists x.
    + exists z. split; [done|]. by eapply rtc_l.
Qed.

Lemma closure_elem s y :
  y ∈ closure closureFuel {[s]} ↔ rtc (λ a b, b ∈ next a) s y.
Proof using Type*.
  destruct (closure_spec closureFuel {[s]}) as (Hs & Hn & Hr); [by apply subseteq_size; set_solver|]. split.
  - intros (x & ->%elem_of_singleton & ?)%Hr. done.
  - intros Hy. assert (s ∈ closure closureFuel {[s]}) as Hin by set_solver. revert Hin.
    generalize (closure closureFuel {[s]}) Hn. clear Hs Hn Hr. intros C HC Hin.
    induction Hy as [|a b c Hab _ IH]; [done|]. apply IH, HC, nexts_spec. by exists a.
Qed.
End closure.

(** ** Walks over finite graphs *)

(** The successors of the nodes, in the order they are visited in. *)
Definition succs {A} `{Countable A} (g : gmap A (list A)) (a : A) : list A := default [] (g !! a).

(** The steps of a walk that does not enter the nodes of a set. *)
Definition stepOutside {A} `{Countable A} (g : gmap A (list A)) (V : gset A) (a b : A) : Prop := b ∈ succs g a ∧ b ∉ V.

Notation reaches g := (rtc (stepOutside g ∅)).

(** What LLVM's iterators promise: [post_order_ext] visits once the nodes that can be
    reached without entering those of the external set, and a node after its successors,
    except for those that lead back to it; [scc_iterator] gives the strongly connected
    components of the nodes that can be reached, in reverse topological order. *)
Class LLVMGraphWalks (A : Type) `{Countable A} := {
  post_order_ext : gmap A (list A) → A → gset A → list A;
  scc_iterator : gmap A (list A) → A → list (list A);
  po_NoDup g s V : NoDup (post_order_ext g s V);
  po_visited g s V : s ∈ V → post_order_ext g s V = [];
  po_elem g s V a : s ∉ V → a ∈ post_order_ext g s V ↔ rtc (stepOutside g V) s a;
  po_order g s V pre a post b : post_order_ext g s V = pre ++ a :: post → stepOutside g V a b →
    b ∈ pre ∨ rtc (stepOutside g V) b a;
  scc_NoDup g s : NoDup (concat (scc_iterator g s));
  scc_elem g s a : a ∈ concat (scc_iterator g s) ↔ reaches g s a;
  scc_mutual g s C a b : C ∈ scc_iterator g s → a ∈ C → b ∈ C ↔ reaches g a b ∧ reaches g b a;
  scc_nonempty g s : [] ∉ scc_iterator g s;
  scc_order g s pre C post a b : scc_iterator g s = pre ++ C :: post → a ∈ C → b ∈ succs g a →
    b ∈ C ∨ b ∈ concat pre;
}.

(** ** An instance *)

Section walks.
  Context {A : Type} `{Countable A}.
  Implicit Types g : gmap A (list A).

Definition outsideOf g (V : gset A) (a : A) : list A := filter (λ b, b ∉ V) (succs g a).

Definition reachSet g (V : gset A) (s : A) : gset A :=
  closure (outsideOf g V) (closureFuel (outsideOf g V) (dom g)) {[s]}.

Lemma elem_of_reachSet g V s a : a ∈ reachSet g V s ↔ rtc (stepOutside g V) s a.
Proof.
  unfold reachSet. rewrite closure_elem.
  - split; apply rtc_subrel; intros x y; unfold outsideOf, stepOutside; rewrite list_elem_of_filter; tauto.
  - intros x Hx. unfold outsideOf, succs. by rewrite (not_elem_of_dom_1 _ _ Hx).
Qed.

(** Nodes in the order of how many they reach: those that do not lead back come first. *)
Definition reachCount g V (a : A) : nat := base.size (reachSet g V a).

Definition reachLe g V (a b : A) : Prop := (reachCount g V a ≤ reachCount g V b)%nat.

#[local] Instance reachLe_dec g V a b : Decision (reachLe g V a b).
Proof. unfold reachLe. apply _. Defined.

#[local] Instance reachLe_trans g V : Transitive (reachLe g V).
Proof. unfold reachLe. intros x y z. lia. Qed.

#[local] Instance reachLe_total g V : Total (reachLe g V).
Proof. unfold reachLe. intros x y. lia. Qed.

Definition walkOf g (s : A) (V : gset A) : list A :=
  if decide (s ∈ V) then [] else merge_sort (reachLe g V) (elements (reachSet g V s)).

Lemma walkOf_order g s V pre a post b :
  walkOf g s V = pre ++ a :: post → stepOutside g V a b → b ∈ pre ∨ rtc (stepOutside g V) b a.
Proof.
  unfold walkOf. case_decide as Hs; [by destruct pre|]. intros Heq Hab.
  assert (b ∈ pre ++ a :: post) as Hb.
  { rewrite <- Heq, merge_sort_Permutation, elem_of_elements, elem_of_reachSet.
    assert (a ∈ pre ++ a :: post) as Ha by (apply elem_of_app; right; by left).
    rewrite <- Heq, merge_sort_Permutation, elem_of_elements, elem_of_reachSet in Ha. by eapply rtc_r. }
  apply elem_of_app in Hb as [Hb|[->|Hb]%elem_of_cons]; [by left|right; done|].
  destruct (decide (a ∈ reachSet g V b)) as [Hba|Hba]; [right; by apply elem_of_reachSet|exfalso].
  assert (reachCount g V b < reachCount g V a)%nat.
  { apply subset_size. split.
    - intros x Hx%elem_of_reachSet. apply elem_of_reachSet. by eapply rtc_l.
    - intros Hsub. apply Hba, Hsub, elem_of_reachSet. done. }
  assert (StronglySorted (reachLe g V) (pre ++ a :: post)) as Hsort.
  { rewrite <- Heq. apply (StronglySorted_merge_sort _). }
  apply StronglySorted_app_1_r in Hsort. apply StronglySorted_inv in Hsort as [_ Hall].
  rewrite Forall_forall in Hall. specialize (Hall b Hb). unfold reachLe in Hall. lia.
Qed.

(** The component of a node, and the nodes that are the first of their components. *)
Definition componentOf g (l : list A) (a : A) : list A := filter (λ b, b ∈ reachSet g ∅ a ∧ a ∈ reachSet g ∅ b) l.

Definition componentsOf g (s : A) : list (list A) :=
  let l := walkOf g s ∅ in
  componentOf g l <$> filter (λ a, head (componentOf g l a) = Some a) l.

Lemma elem_of_componentOf g l a b : b ∈ componentOf g l a ↔ b ∈ l ∧ reaches g a b ∧ reaches g b a.
Proof. unfold componentOf. rewrite list_elem_of_filter, !elem_of_reachSet. tauto. Qed.

Lemma componentOf_same g l a b : reaches g a b → reaches g b a → componentOf g l a = componentOf g l b.
Proof.
  intros Hab Hba. unfold componentOf. apply list_filter_iff. intros c. rewrite !elem_of_reachSet.
  split; intros [H1 H2]; split; by etrans.
Qed.

Lemma componentsOf_NoDup g (l k : list A) :
  NoDup l → NoDup k → NoDup (concat (componentOf g l <$> filter (λ a, head (componentOf g l a) = Some a) k)).
Proof.
  intros Hl. induction k as [|a k IH]; [constructor|]. intros [Ha Hk]%NoDup_cons. rewrite filter_cons. case_decide as Hd; [|by apply IH].
  cbn. apply NoDup_app. split_and!; [by apply NoDup_filter| |by apply IH].
  intros x Hx. rewrite list_elem_of_In, in_concat. intros (C & HC%list_elem_of_In & Hxc%list_elem_of_In).
  apply list_elem_of_fmap in HC as (b & -> & [Hb Hbk]%list_elem_of_filter).
  apply elem_of_componentOf in Hx as (_ & Hax & Hxa). apply elem_of_componentOf in Hxc as (_ & Hbx & Hxb).
  rewrite (componentOf_same g l a b) in Hd by by etrans. rewrite Hd in Hb. injection Hb as <-. done.
Qed.

Lemma elem_of_walkOf g s V a : s ∉ V → a ∈ walkOf g s V ↔ rtc (stepOutside g V) s a.
Proof. intros Hs. unfold walkOf. by rewrite decide_False, merge_sort_Permutation, elem_of_elements, elem_of_reachSet. Qed.

Lemma NoDup_walkOf g s V : NoDup (walkOf g s V).
Proof. unfold walkOf. case_decide; [constructor|]. rewrite merge_sort_Permutation. apply NoDup_elements. Qed.

Lemma componentsOf_elem g s a : a ∈ concat (componentsOf g s) ↔ reaches g s a.
Proof.
  unfold componentsOf. set (l := walkOf g s ∅). rewrite list_elem_of_In, in_concat. split.
  - intros (C & HC%list_elem_of_In & Ha%list_elem_of_In). apply list_elem_of_fmap in HC as (b & -> & _).
    apply elem_of_componentOf in Ha as [Ha _]. by apply elem_of_walkOf in Ha.
  - intros Ha. assert (a ∈ componentOf g l a) as Hin.
    { apply elem_of_componentOf. split; [by apply elem_of_walkOf|done]. }
    exists (componentOf g l a). split; [|by apply list_elem_of_In]. apply list_elem_of_In, list_elem_of_fmap.
    destruct (componentOf g l a) as [|b C] eqn:HC; [by apply elem_of_nil in Hin|].
    assert (b ∈ componentOf g l a) as (Hb & Hab & Hba)%elem_of_componentOf by (rewrite HC; by left).
    exists b. assert (componentOf g l b = b :: C) as Hbc by (by rewrite <- (componentOf_same g l a b)).
    split; [done|]. apply list_elem_of_filter. by rewrite Hbc.
Qed.

Lemma componentsOf_mutual g s C a b : C ∈ componentsOf g s → a ∈ C → b ∈ C ↔ reaches g a b ∧ reaches g b a.
Proof.
  unfold componentsOf. set (l := walkOf g s ∅). intros (c & -> & _)%list_elem_of_fmap (Ha & Hca & Hac)%elem_of_componentOf.
  rewrite elem_of_componentOf. split.
  - intros (_ & Hcb & Hbc). split; by etrans.
  - intros [Hab Hba]. split; [|split; by etrans]. apply elem_of_walkOf; [done|].
    apply elem_of_walkOf in Ha; [|done]. by etrans.
Qed.

Lemma StronglySorted_filter (R : A → A → Prop) (Q : A → Prop) `{!∀ x, Decision (Q x)} l :
  StronglySorted R l → StronglySorted R (filter Q l).
Proof.
  induction 1 as [|x l Hs IH Hall]; [constructor|]. rewrite filter_cons. case_decide; [|done]. constructor; [done|].
  rewrite Forall_forall in Hall |- *. intros y [_ Hy]%list_elem_of_filter. by apply Hall.
Qed.

(** What a component leads to is in the components before it. *)
Lemma componentsOf_order g s pre C post a b :
  componentsOf g s = pre ++ C :: post → a ∈ C → b ∈ succs g a → b ∈ C ∨ b ∈ concat pre.
Proof.
  intros Heq Ha Hab. assert (C ∈ componentsOf g s) as HC by (rewrite Heq; apply elem_of_app; right; by left).
  assert (stepOutside g ∅ a b) as Hst by done.
  assert (b ∈ concat (componentsOf g s)) as Hb.
  { apply componentsOf_elem. eapply rtc_r; [|exact Hst]. apply componentsOf_elem, list_elem_of_In, in_concat.
    exists C. split; by apply list_elem_of_In. }
  rewrite Heq, concat_app, elem_of_app in Hb. cbn in Hb. rewrite elem_of_app in Hb. destruct Hb as [Hb|[Hb|Hb]]; [by right|by left|].
  apply list_elem_of_In, in_concat in Hb as (D & HD%list_elem_of_In & HbD%list_elem_of_In).
  destruct (decide (a ∈ reachSet g ∅ b)) as [Hba|Hba].
  { left. apply (componentsOf_mutual g s C a b HC Ha). split; [by apply rtc_once|by apply elem_of_reachSet]. }
  exfalso. assert (reachCount g ∅ b < reachCount g ∅ a)%nat as Hlt.
  { apply subset_size. split.
    - intros x Hx%elem_of_reachSet. apply elem_of_reachSet. by eapply rtc_l.
    - intros Hsub. apply Hba, Hsub, elem_of_reachSet. done. }
  assert (∀ x y K l, x ∈ componentOf g l y → K = componentOf g l y → reachCount g ∅ x = reachCount g ∅ y) as Hcount.
  { intros x y K l (_ & Hyx & Hxy)%elem_of_componentOf _. unfold reachCount. f_equal. apply set_eq. intros z.
    rewrite !elem_of_reachSet. split; intros Hz; by etrans. }
  unfold componentsOf in Heq. set (l := walkOf g s ∅) in *.
  apply fmap_app_inv in Heq as (k1 & k2 & -> & Hk2 & Hk). symmetry in Hk2. apply fmap_cons_inv in Hk2 as (c & k3 & -> & -> & ->).
  apply list_elem_of_fmap in HD as (d & -> & Hd). pose proof (Hcount _ _ _ _ Ha eq_refl) as Hca. pose proof (Hcount _ _ _ _ HbD eq_refl) as Hcb.
  assert (StronglySorted (reachLe g ∅) (filter (λ x, head (componentOf g l x) = Some x) l)) as Hs.
  { apply StronglySorted_filter. unfold l, walkOf. rewrite decide_False by done. apply (StronglySorted_merge_sort _). }
  rewrite Hk in Hs. apply StronglySorted_app_1_r, StronglySorted_inv in Hs as [_ Hall]. rewrite Forall_forall in Hall.
  specialize (Hall d Hd). unfold reachLe in Hall. lia.
Qed.

#[global] Instance reachabilityWalks : LLVMGraphWalks A.
Proof.
  refine {| post_order_ext := walkOf; scc_iterator := componentsOf |}.
  - apply NoDup_walkOf.
  - intros g s V Hs. unfold walkOf. by rewrite decide_True.
  - apply elem_of_walkOf.
  - apply walkOf_order.
  - intros g s. apply componentsOf_NoDup; apply NoDup_walkOf.
  - apply componentsOf_elem.
  - apply componentsOf_mutual.
  - intros g s Hs. unfold componentsOf in Hs. apply list_elem_of_fmap in Hs as (a & Hnil & [Ha _]%list_elem_of_filter).
    by rewrite <- Hnil in Ha.
  - apply componentsOf_order.
Defined.
End walks.

(** ** Acyclic graphs *)

Lemma tc_flip {A} (R : relation A) x y : tc (flip R) x y → tc R y x.
Proof. induction 1 as [x y Hxy|x y z Hxy _ IH]; [by apply tc_once|]. eapply tc_r; [exact IH|done]. Qed.

Lemma tc_first {A} (R : relation A) x y : tc R x y → ∃ z, R x z ∧ rtc R z y.
Proof. destruct 1 as [x y|x z y]; [by exists y|exists z; split; [done|by apply tc_rtc]]. Qed.

Lemma tc_last {A} (R : relation A) x y : tc R x y → ∃ z, R z y.
Proof. induction 1; eauto. Qed.

Section acyclic.
  Context {A : Type} `{Countable A}.
  Implicit Types g : gmap A (list A).

Definition edge g (a b : A) : Prop := b ∈ succs g a.

Definition acyclic g : Prop := ∀ a, ¬ tc (edge g) a a.

Definition closed g (V : gset A) : Prop := ∀ a b, a ∈ V → edge g a b → b ∈ V.

Lemma reaches_edge g a b : reaches g a b ↔ rtc (edge g) a b.
Proof. split; apply rtc_subrel; unfold stepOutside, edge; set_solver. Qed.

Lemma edge_dom g a b : edge g a b → a ∈ dom g.
Proof.
  unfold edge, succs. intros Hab. apply elem_of_dom. destruct (g !! a) as [l|]; [by eexists|]. by apply elem_of_nil in Hab.
Qed.

Lemma acyclic_flip_sn g a : acyclic g → sn (flip (edge g)) a.
Proof.
  intros Hg. apply tc_finite_sn.
  - intros x Hx%tc_flip. by apply (Hg x).
  - exists (elements (dom g)). intros x Hx. apply elem_of_elements.
    apply tc_flip, tc_first in Hx as (b & Hb & _). by eapply edge_dom.
Qed.

Lemma acyclic_sn g a : acyclic g → (∀ x y, edge g x y → y ∈ dom g) → sn (edge g) a.
Proof.
  intros Hg Hd. apply tc_finite_sn; [done|]. exists (elements (dom g)). intros x Hx. apply elem_of_elements.
  apply tc_last in Hx as [b Hb]. by eapply Hd.
Qed.

(** What contains the nodes without predecessors and is closed contains every node. *)
Lemma roots_reach_all g (V : gset A) (root : A → Prop) :
  acyclic g → closed g V → (∀ a, a ∈ dom g → ¬ root a → ∃ b, edge g b a) → (∀ a, root a → a ∈ dom g → a ∈ V) →
  ∀ a, a ∈ dom g → a ∈ V.
Proof.
  intros Hg HV Hr Hin a. pose proof (acyclic_flip_sn g a Hg) as Hsn. induction Hsn as [a _ IH]. intros Ha.
  destruct (decide (a ∈ V)) as [|Hn]; [done|]. destruct (Hr a Ha) as [b Hb].
  - intros Hroot. by apply Hn, Hin.
  - apply (HV b); [|done]. apply IH; [done|]. by eapply edge_dom.
Qed.
End acyclic.

(** ** Components and cycles *)

Section cycles.
  Context {A : Type} `{Countable A} `{!LLVMGraphWalks A}.
  Implicit Types g : gmap A (list A).

(** A component with one node has a cycle when the node is its own successor. *)
Definition hasCycle (g : gmap A (list A)) (SCC : list A) : bool :=
  match SCC with
  | [] => false
  | [n] => bool_decide (n ∈ succs g n)
  | _ => true
  end.

Lemma no_cycle_component g r C a :
  C ∈ scc_iterator g r → hasCycle g C = false → a ∈ C → ¬ tc (edge g) a a.
Proof.
  intros HC Hno Ha Hcyc.
  apply tc_first in Hcyc as (b & Hab & Hba).
  assert (b ∈ C) as Hb.
  { apply (scc_mutual g r C a b HC Ha). rewrite !reaches_edge. split; [by apply rtc_once|done]. }
  destruct C as [|x [|y C]]; [by apply elem_of_nil in Ha| |done].
  apply list_elem_of_singleton in Ha as ->. apply list_elem_of_singleton in Hb as ->.
  cbn in Hno. by apply bool_decide_eq_false in Hno.
Qed.

Lemma cycle_component g r C : C ∈ scc_iterator g r → hasCycle g C = true → ∃ a, tc (edge g) a a.
Proof.
  intros HC Hcyc. destruct C as [|x [|y C]]; [done| |].
  - cbn in Hcyc. apply bool_decide_eq_true in Hcyc. exists x. by apply tc_once.
  - exists x. assert (reaches g x y ∧ reaches g y x) as [Hxy Hyx].
    { apply (scc_mutual g r _ x y HC); [by left|]. right. by left. }
    rewrite !reaches_edge in Hxy, Hyx. assert (x ≠ y) as Hne.
    { pose proof (scc_NoDup g r) as Hnd. apply list_elem_of_split in HC as (pre & post & Heq).
      rewrite Heq, concat_app in Hnd. cbn in Hnd. apply NoDup_app in Hnd as (_ & _ & Hnd).
      apply NoDup_cons in Hnd as [Hnd _]. set_solver. }
    apply rtc_inv in Hxy as [->|(z & Hxz & Hzy)]; [done|]. eapply tc_rtc_r; [by apply tc_once|]. by etrans.
Qed.

End cycles.
