(* ===== verification/DepthFirst.v ===== *)
(** * Depth first visits

    The depth first iterator of LLVM over a finite graph, as an interface: the stacks of
    nodes it has at each node it visits, with what it promises of them; what follows for
    the order of the visit; and an instance. *)

From S2P Require Import Prelude Reachability.
From stdpp Require Import gmap list relations sorting.

(** ** The interface *)

(** A step to a node that is not refused. *)
Definition stepIn {A} `{Countable A} (g : gmap A (list A)) (P : A → bool) (a b : A) : Prop := b ∈ succs g a ∧ P b = true.

(** The visits of [llvm::depth_first_ext] from a node, where the set of visited nodes
    refuses those that are not in [P]: each is the stack of nodes whose children are being
    visited, the visited node first. A node is visited once; the stack of the next one is
    what is left of it after some nodes are done, with a child of the last one; and the
    children of a node are visited before it, or while it is on the stack. *)
Class LLVMDepthFirst (A : Type) `{Countable A} := {
  depth_first_ext : gmap A (list A) → A → (A → bool) → list (list A);
  df_root g r P : depth_first_ext g r P !! 0 = if P r then Some [r] else None;
  df_once g r P i j n s t :
    depth_first_ext g r P !! i = Some (n :: s) → depth_first_ext g r P !! j = Some (n :: t) → i = j;
  df_next g r P i s t :
    depth_first_ext g r P !! i = Some s → depth_first_ext g r P !! S i = Some t →
    ∃ n m rest popped, t = n :: m :: rest ∧ s = popped ++ m :: rest ∧ stepIn g P m n;
  df_children g r P i n rest m :
    depth_first_ext g r P !! i = Some (n :: rest) → stepIn g P n m →
    (∃ j s, j ≤ i ∧ depth_first_ext g r P !! j = Some (m :: s)) ∨
    (∃ j up, i < j ∧ depth_first_ext g r P !! j = Some (m :: up ++ n :: rest));
}.

(** ** The order of a visit *)

Section visit.
  Context {A : Type} `{Countable A} `{!LLVMDepthFirst A}.
  Context (g : gmap A (list A)) (r : A) (P : A → bool).
  Implicit Types (n m a b c : A) (s t : list A).
  Notation L := (depth_first_ext g r P).

Definition visitOrder : list A := omap head L.

Definition visited n : Prop := ∃ i s, L !! i = Some (n :: s).

Lemma df_nonempty i s : L !! i = Some s → s ≠ [].
Proof.
  destruct i as [|i]; intros Hs ->.
  - rewrite df_root in Hs. by destruct (P r).
  - destruct (lookup_lt_is_Some_2 L i) as [u Hu]; [apply lookup_lt_Some in Hs; lia|].
    by destruct (df_next _ _ _ _ _ _ Hu Hs) as (n & m & rest & popped & ? & _).
Qed.

(** What is on the stack was visited, and has been on it since. *)
Lemma df_stack i t up n s :
  L !! i = Some t → t = up ++ n :: s →
  ∃ j, j ≤ i ∧ L !! j = Some (n :: s) ∧ ∀ k u, j ≤ k → k ≤ i → L !! k = Some u → ∃ up', u = up' ++ n :: s.
Proof.
  revert t up. induction i as [|i IH]; intros t up Ht Hup.
  - rewrite df_root in Ht. destruct (P r) eqn:Hr; [|done]. injection Ht as <-. destruct up as [|x up].
    + injection Hup as -> <-. exists 0. split; [done|]. split; [by rewrite df_root, Hr|]. intros k u _ Hk Hu.
      replace k with 0 in Hu by lia. rewrite df_root, Hr in Hu. injection Hu as <-. by exists [].
    + injection Hup as _ Hup. by destruct up.
  - destruct (lookup_lt_is_Some_2 L i) as [u Hu]; [apply lookup_lt_Some in Ht; lia|].
    destruct (df_next _ _ _ _ _ _ Hu Ht) as (x & m & rest & popped & -> & Heq & _). destruct up as [|y up].
    + injection Hup as -> <-. exists (S i). split; [done|]. split; [done|]. intros k v Hk1 Hk2 Hv.
      replace k with (S i) in Hv by lia. rewrite Ht in Hv. injection Hv as <-. by exists [].
    + injection Hup as -> Hup. destruct (IH u (popped ++ up)) as (j & Hj & Hjn & Hstay); [done|by rewrite <- app_assoc, <- Hup|].
      exists j. split; [lia|]. split; [done|]. intros k v Hk1 Hk2 Hv. destruct (decide (k = S i)) as [->|].
      * rewrite Ht in Hv. injection Hv as <-. exists (y :: up). by rewrite Hup.
      * apply (Hstay k v); [done|lia|done].
Qed.

Lemma df_on_stack i j n s t : L !! i = Some (n :: s) → L !! j = Some t → n ∈ t → i ≤ j ∧ ∃ up, t = up ++ n :: s.
Proof.
  intros Hi Hj Hn. apply list_elem_of_split in Hn as (up & s' & Ht). destruct (df_stack j t up n s' Hj Ht) as (k & Hk & Hkn & _).
  pose proof (df_once _ _ _ _ _ _ _ _ Hi Hkn) as ->. rewrite Hi in Hkn. injection Hkn as ->. split; [done|]. by exists up.
Qed.

(** Between two visits at which a node is on the stack, it is on it. *)
Lemma df_stays i j k n s t u :
  L !! i = Some (n :: s) → L !! k = Some t → n ∈ t → L !! j = Some u → i ≤ j → j ≤ k → n ∈ u ∧ ∃ up, u = up ++ n :: s.
Proof.
  intros Hi Hk Hn Hj Hij Hjk. destruct (df_on_stack i k n s t Hi Hk Hn) as (_ & up & Ht).
  destruct (df_stack k t up n s Hk Ht) as (i' & _ & Hi' & Hstay). pose proof (df_once _ _ _ _ _ _ _ _ Hi Hi') as <-.
  destruct (Hstay j u Hij Hjk Hj) as [up' ->]. split; [|by exists up']. apply elem_of_app. right. by left.
Qed.

(** [b] is visited below [a], or is done when [a] is visited. *)
Definition precedes a b : Prop :=
  ∃ i j s t, L !! i = Some (a :: s) ∧ L !! j = Some (b :: t) ∧ a ≠ b ∧ (a ∈ t ∨ j < i ∧ b ∉ s).

Lemma precedes_irreflexive a : ¬ precedes a a.
Proof. by intros (i & j & s & t & _ & _ & ? & _). Qed.

Lemma precedes_transitive a b c : precedes a b → precedes b c → precedes a c.
Proof.
  intros (ia & ib & sa & sb & Ha & Hb & Hab & Hcase) (ib' & ic & sb' & sc & Hb' & Hc & Hbc & Hcase').
  pose proof (df_once _ _ _ _ _ _ _ _ Hb Hb') as <-. rewrite Hb in Hb'. injection Hb' as <-.
  assert (∀ x i s j t, L !! i = Some (x :: s) → L !! j = Some t → x ∈ t → ∀ y, y ∈ x :: s → y ∈ t) as Hsuffix.
  { intros x i s j t Hi Hj Hx y Hy. destruct (df_on_stack i j x s t Hi Hj Hx) as (_ & up & ->). apply elem_of_app. by right. }
  assert (∀ x y i j s t, L !! i = Some (x :: s) → L !! j = Some (y :: t) → x ≠ y → i ≠ j) as Hne.
  { intros x y i j s t Hi Hj Hxy ->. rewrite Hi in Hj. congruence. }
  exists ia, ic, sa, sc. split; [done|]. split; [done|].
  destruct Hcase as [Hab'|[Hlt Hno]], Hcase' as [Hbc'|[Hlt' Hno']].
  - assert (a ∈ sc) as Hac.
    { assert (b ∈ c :: sc) as Hbs by by right. assert (a ∈ c :: sc) as [->|?]%elem_of_cons; [|exfalso|done].
      - eapply (Hsuffix b ib sb ic (c :: sc)); [done|done|done|]. by right.
      - destruct (df_on_stack ib ic b sb (c :: sc) Hb Hc Hbs) as [Hle _].
        destruct (df_on_stack ic ib c sc (b :: sb) Hc Hb) as [Hle' _]; [by right|]. apply (Hne b c ib ic sb sc); [done..|lia]. }
    split; [|by left]. intros ->. pose proof (df_once _ _ _ _ _ _ _ _ Ha Hc) as ->. rewrite Ha in Hc. injection Hc as ->.
    destruct (df_on_stack ib ic b sb (c :: sc) Hb Ha) as [Hle _]; [by right|].
    destruct (df_on_stack ic ib c sc (b :: sb) Ha Hb) as [Hle' _]; [by right|]. apply (Hne b c ib ic sb sc); [done..|lia].
  - assert (a ≠ c) as Hac by (intros ->; pose proof (df_once _ _ _ _ _ _ _ _ Ha Hc) as ->; by rewrite Ha in Hc; injection Hc as ->).
    split; [done|]. destruct (df_on_stack ia ib a sa (b :: sb) Ha Hb) as [Hle _]; [by right|].
    destruct (Nat.lt_total ic ia) as [Hlt|[->|Hlt]].
    + right. split; [done|]. intros Hin. apply Hno'. assert (c ∈ b :: sb) as [->|]%elem_of_cons; [|done|done].
      eapply (Hsuffix a ia sa ib (b :: sb)); [done|done|by right|by right].
    + by destruct (Hne a c ia ia sa sc).
    + left. destruct (df_stays ia ic ib a sa (b :: sb) (c :: sc)) as [Hin _]; try done; [by right|lia|lia|].
      apply elem_of_cons in Hin as [?|?]; [done|done].
  - assert (a ≠ c) as Hac.
    { intros ->. pose proof (df_once _ _ _ _ _ _ _ _ Ha Hc) as ->. rewrite Ha in Hc. by injection Hc as ->. }
    split; [done|]. right. destruct (df_on_stack ib ic b sb (c :: sc) Hb Hc) as [Hle _]; [by right|].
    assert (ic < ia) as Hci.
    { destruct (Nat.lt_total ic ia) as [?|[->|Hgt]]; [done|by destruct (Hne a c ia ia sa sc)|exfalso].
      destruct (df_stays ib ia ic b sb (c :: sc) (a :: sa)) as [[?|?]%elem_of_cons _]; try done; [by right|lia|lia]. }
    split; [done|]. intros Hin. apply Hno.
    assert (b ∈ a :: sa) as [->|]%elem_of_cons; [|done|done].
    eapply (Hsuffix c ic sc ia (a :: sa)); [done|done|by right|by right].
  - assert (a ≠ c) as Hac.
    { intros ->. pose proof (df_once _ _ _ _ _ _ _ _ Ha Hc) as ->. lia. }
    split; [done|]. right. split; [lia|]. intros Hin. apply Hno'.
    destruct (df_stays ic ib ia c sc (a :: sa) (b :: sb)) as [[?|?]%elem_of_cons _]; try done; [by right|lia|lia].
Qed.

(** The nodes of the stack lead to the one that is visited. *)
Lemma df_path i n s m : L !! i = Some (n :: s) → m ∈ n :: s → rtc (stepIn g P) m n.
Proof.
  revert n s m. induction (lt_wf i) as [i _ IH]. intros n s m Hi Hm. destruct i as [|i].
  - rewrite df_root in Hi. destruct (P r); [|done]. injection Hi as <- <-. by apply list_elem_of_singleton in Hm as ->.
  - destruct (lookup_lt_is_Some_2 L i) as [u Hu]; [apply lookup_lt_Some in Hi; lia|].
    destruct (df_next _ _ _ _ _ _ Hu Hi) as (n' & p & rest & popped & [= <- ->] & Heq & Hst).
    apply elem_of_cons in Hm as [->|Hm]; [done|]. eapply rtc_r; [|exact Hst].
    destruct (df_stack i u popped p rest Hu Heq) as (j & Hj & Hjn & _). by apply (IH j ltac:(lia) p rest).
Qed.

(** What a step from a visited node is. *)
Lemma df_step n m :
  visited n → stepIn g P n m →
  visited m ∧ ((∃ i s, L !! i = Some (n :: s) ∧ m ∈ n :: s) ∨ precedes n m).
Proof.
  intros (i & s & Hi) Hst. destruct (decide (m ∈ n :: s)) as [Hm|Hm].
  - split; [|left; by exists i, s]. apply list_elem_of_split in Hm as (up & t & Heq).
    destruct (df_stack i (n :: s) up m t Hi Heq) as (j & _ & Hj & _). by exists j, t.
  - apply not_elem_of_cons in Hm as [Hne Hms].
    destruct (df_children g r P i n s m Hi Hst) as [(j & t & Hj & Hjt)|(j & up & Hj & Hjt)].
    + split; [by exists j, t|]. right. exists i, j, s, t. split_and!; [done|done|done|right]. split; [|done].
      destruct (decide (j = i)) as [->|]; [|lia]. rewrite Hi in Hjt. injection Hjt as -> _. done.
    + split; [by exists j, (up ++ n :: s)|]. right. exists i, j, s, (up ++ n :: s). split_and!; [done|done|done|left].
      apply elem_of_app. right. by left.
Qed.

Lemma df_visited n : visited n ↔ P r = true ∧ rtc (stepIn g P) r n.
Proof.
  split.
  - intros (i & s & Hi). assert (P r = true) as Hr.
    { apply not_false_iff_true. intros Hr. destruct (lookup_lt_is_Some_2 L 0) as [t Ht]; [apply lookup_lt_Some in Hi; lia|].
      by rewrite df_root, Hr in Ht. }
    split; [done|]. revert n s Hi. induction (lt_wf i) as [i _ IH]. intros n s Hi. destruct i as [|i].
    + rewrite df_root, Hr in Hi. by injection Hi as ->.
    + destruct (lookup_lt_is_Some_2 L i) as [u Hu]; [apply lookup_lt_Some in Hi; lia|].
      destruct (df_next _ _ _ _ _ _ Hu Hi) as (n' & p & rest & popped & [= <- ->] & Heq & Hst).
      destruct (df_stack i u popped p rest Hu Heq) as (j & Hj & Hjn & _). eapply rtc_r; [|exact Hst].
      by apply (IH j ltac:(lia) p rest).
  - intros [Hr Hn]. assert (visited r) as Hv by (exists 0, []; by rewrite df_root, Hr).
    revert Hv. induction Hn as [|a b c Hab _ IH]; [done|]. intros Ha. apply IH; [apply Hab|]. by apply (df_step a b).
Qed.
End visit.

(** ** An instance *)

Section instance.
  Context {A : Type} `{Countable A}.
  Context (g : gmap A (list A)) (P : A → bool).
  Implicit Types (n m a b : A) (s t path : list A).

(** The visits of the nodes of [todo] with [path] on the stack, and the nodes that were
    visited after them. *)
Fixpoint dfVisit (fuel : nat) (path todo : list A) (V : gset A) : list (list A) * gset A :=
  match fuel, todo with
  | S fuel, m :: todo =>
    if decide (m ∉ V ∧ P m = true) then
      let (l1, V1) := dfVisit fuel (m :: path) (succs g m) ({[m]} ∪ V) in
      let (l2, V2) := dfVisit fuel path todo V1 in
      ((m :: path) :: l1 ++ l2, V2)
    else dfVisit fuel path todo V
  | _, _ => ([], V)
  end.

Definition nextStack s t : Prop := ∃ n m rest popped, t = n :: m :: rest ∧ s = popped ++ m :: rest ∧ stepIn g P m n.

Definition childrenVisited (V : gset A) (l : list (list A)) : Prop :=
  ∀ pre post n rest m, l = pre ++ (n :: rest) :: post → stepIn g P n m →
    m ∈ V ∨ m = n ∨ (∃ s, m :: s ∈ pre) ∨ ∃ up, m :: up ++ n :: rest ∈ post.

Record visits (path todo : list A) (V : gset A) (l : list (list A)) (V' : gset A) : Prop := {
  vi_new n : n ∈ V' ↔ n ∈ V ∨ n ∈ omap head l;
  vi_fresh n : n ∈ omap head l → n ∉ V;
  vi_NoDup : NoDup (omap head l);
  vi_above s : s ∈ l → ∃ n up, s = n :: up ++ path;
  vi_next s : (∃ up, s = up ++ path) → Sorted nextStack (s :: l);
  vi_children : childrenVisited V l;
  vi_todo m : m ∈ todo → P m = true → m ∈ V';
}.

Lemma Sorted_app_all {B} (R : B → B → Prop) (x : B) l k :
  Sorted R (x :: l) → (∀ y, y ∈ x :: l → Sorted R (y :: k)) → Sorted R (x :: l ++ k).
Proof.
  revert x. induction l as [|y l IH]; intros x Hs Hk; cbn.
  - apply Hk. by left.
  - inversion Hs as [|? ? Hs' Hd]; subst. constructor.
    + apply IH; [done|]. intros z Hz. apply Hk. by right.
    + inversion Hd; by constructor.
Qed.

Lemma visits_done path V : visits path [] V [] V.
Proof.
  split.
  - intros n. split; [by left|intros [?|?%elem_of_nil]; done].
  - by intros n ?%elem_of_nil.
  - constructor.
  - by intros s ?%elem_of_nil.
  - intros s _. by repeat constructor.
  - intros pre post n rest m Heq. by destruct pre.
  - by intros m ?%elem_of_nil.
Qed.

Lemma visits_skip path m todo V l V' :
  (m ∈ V ∨ P m = false) → visits path todo V l V' → visits path (m :: todo) V l V'.
Proof.
  intros Hm [Hnew Hf Hnd Ha Hx Hc Ht]. split; try done. intros a [->|Ha']%elem_of_cons HP; [|by apply Ht].
  apply Hnew. left. destruct Hm; [done|congruence].
Qed.

Lemma visits_children path m V l1 V1 l2 V2 todo :
  visits (m :: path) (succs g m) ({[m]} ∪ V) l1 V1 → visits path todo V1 l2 V2 →
  childrenVisited V ((m :: path) :: l1 ++ l2).
Proof.
  intros H1 H2 pre post n rest c Heq Hst. destruct pre as [|x pre].
  - injection Heq as -> -> <-. destruct (decide (c ∈ V)) as [|HcV]; [by left|]. destruct (decide (c = n)) as [|Hcn]; [by right; left|].
    right. right. right. destruct Hst as [Hst HP]. pose proof (vi_todo _ _ _ _ _ H1 c Hst HP) as Hin.
    apply (vi_new _ _ _ _ _ H1) in Hin as [Hin|Hin]; [set_solver|].
    apply list_elem_of_omap in Hin as (s & Hs & Hhead). destruct (vi_above _ _ _ _ _ H1 s Hs) as (x & up & ->).
    injection Hhead as ->. exists up. apply elem_of_app. by left.
  - injection Heq as <- Heq. apply app_eq_inv in Heq as [(k & -> & Hk)|(k & -> & Hk)].
    + destruct k as [|y k].
      { cbn in Hk. destruct (vi_children _ _ _ _ _ H2 [] post n rest c) as [HV|[?|[(s & ?%elem_of_nil)|(up & ?)]]]; try done.
        - apply (vi_new _ _ _ _ _ H1) in HV as [[->%elem_of_singleton|?]%elem_of_union|HV]; [|by left|].
          + right. right. left. exists path. by left.
          + apply list_elem_of_omap in HV as (s & Hs & Hhead). destruct (vi_above _ _ _ _ _ H1 s Hs) as (x & up & ->).
            injection Hhead as ->. right. right. left. eexists. right. rewrite app_nil_r in Hs. exact Hs.
        - by right; left.
        - right. right. right. by exists up. }
      injection Hk as <- ->. destruct (vi_children _ _ _ _ _ H1 pre k n rest c) as [HV|[?|[(s & Hs)|(up & Hup)]]]; try done.
      * apply elem_of_union in HV as [->%elem_of_singleton|?]; [|by left]. right. right. left. exists path. by left.
      * by right; left.
      * right. right. left. exists s. by right.
      * right. right. right. exists up. apply elem_of_app. by left.
    + destruct (vi_children _ _ _ _ _ H2 k post n rest c) as [HV|[?|[(s & Hs)|(up & Hup)]]]; try done.
      * apply (vi_new _ _ _ _ _ H1) in HV as [[->%elem_of_singleton|?]%elem_of_union|HV]; [|by left|].
        -- right. right. left. exists path. by left.
        -- apply list_elem_of_omap in HV as (s & Hs & Hhead). destruct (vi_above _ _ _ _ _ H1 s Hs) as (x & up & ->).
           injection Hhead as ->. right. right. left. eexists. right. apply elem_of_app. left. exact Hs.
      * by right; left.
      * right. right. left. exists s. right. apply elem_of_app. by right.
      * right. right. right. by exists up.
Qed.

Lemma visits_visit path p m todo V l1 V1 l2 V2 :
  head path = Some p → stepIn g P p m → m ∉ V →
  visits (m :: path) (succs g m) ({[m]} ∪ V) l1 V1 → visits path todo V1 l2 V2 →
  visits path (m :: todo) V ((m :: path) :: l1 ++ l2) V2.
Proof.
  intros Hp Hst HmV H1 H2. pose proof (visits_children path m V l1 V1 l2 V2 todo H1 H2) as Hc.
  assert (∀ n, n ∈ V1 ↔ n = m ∨ n ∈ V ∨ n ∈ omap head l1) as HV1.
  { intros n. rewrite (vi_new _ _ _ _ _ H1), elem_of_union, elem_of_singleton. tauto. }
  assert (∀ n, n ∈ omap head ((m :: path) :: l1 ++ l2) ↔ n = m ∨ n ∈ omap head l1 ∨ n ∈ omap head l2) as Hh.
  { intros n. cbn. rewrite omap_app, elem_of_cons, elem_of_app. done. }
  split.
  - intros n. rewrite Hh, (vi_new _ _ _ _ _ H2), HV1. tauto.
  - intros n. rewrite Hh. intros [->|[Hn|Hn]]; [done| |].
    + apply (vi_fresh _ _ _ _ _ H1) in Hn. set_solver.
    + apply (vi_fresh _ _ _ _ _ H2) in Hn. rewrite HV1 in Hn. tauto.
  - cbn. rewrite omap_app. constructor.
    + rewrite elem_of_app. intros [Hn%(vi_fresh _ _ _ _ _ H1)|Hn%(vi_fresh _ _ _ _ _ H2)]; [set_solver|]. rewrite HV1 in Hn. tauto.
    + apply NoDup_app. split_and!; [apply H1| |apply H2]. intros n Hn Hn2%(vi_fresh _ _ _ _ _ H2). rewrite HV1 in Hn2. tauto.
  - intros s [->|[Hs|Hs]%elem_of_app]%elem_of_cons; [by exists m, []| |by apply (vi_above _ _ _ _ _ H2)].
    destruct (vi_above _ _ _ _ _ H1 s Hs) as (n & up & ->). exists n, (up ++ [m]). by rewrite <- app_assoc.
  - intros s [up ->]. destruct path as [|q path]; [done|]. injection Hp as ->. constructor.
    + apply Sorted_app_all; [apply (vi_next _ _ _ _ _ H1); by exists []|]. intros t Ht. apply (vi_next _ _ _ _ _ H2).
      apply elem_of_cons in Ht as [->|Ht]; [by exists [m]|]. destruct (vi_above _ _ _ _ _ H1 t Ht) as (n & up' & ->).
      exists (n :: up' ++ [m]). cbn. by rewrite <- app_assoc.
    + constructor. by exists m, p, path, up.
  - done.
  - intros n [->|Hn]%elem_of_cons HP; [|by apply (vi_todo _ _ _ _ _ H2)]. apply (vi_new _ _ _ _ _ H2). left. apply HV1. by left.
Qed.

(** A call for each node that is not visited and each of its children. *)
Definition pendingCalls (l : list A) (V : gset A) : nat :=
  sum_list ((λ n, S (length (succs g n))) <$> filter (λ n, n ∉ V) l).

Lemma pendingCalls_anti l V V' : V ⊆ V' → pendingCalls l V' ≤ pendingCalls l V.
Proof using Type.
  clear P.
  intros HV. induction l as [|x l IH]; [done|]. unfold pendingCalls in *. rewrite !filter_cons.
  destruct (decide (x ∉ V')), (decide (x ∉ V)); cbn; try lia. set_solver.
Qed.

Lemma pendingCalls_visit l V m :
  m ∈ l → m ∉ V → S (length (succs g m)) + pendingCalls l ({[m]} ∪ V) ≤ pendingCalls l V.
Proof using Type.
  clear P.
  intros Hm HmV. induction l as [|x l IH]; [by apply elem_of_nil in Hm|]. destruct (decide (x = m)) as [->|Hne].
  - pose proof (pendingCalls_anti l V ({[m]} ∪ V) ltac:(set_solver)) as Hanti. unfold pendingCalls in *. rewrite !filter_cons.
    rewrite decide_False, decide_True by set_solver. cbn. lia.
  - apply elem_of_cons in Hm as [->|Hm]; [done|]. specialize (IH Hm). unfold pendingCalls in *. rewrite !filter_cons.
    destruct (decide (x ∉ V)); [rewrite decide_True by set_solver|rewrite decide_False by set_solver]; cbn; lia.
Qed.

Lemma dfVisit_ok fuel path p todo V :
  head path = Some p → (∀ m, m ∈ todo → m ∈ succs g p) → length todo + pendingCalls (elements (dom g)) V ≤ fuel →
  visits path todo V (dfVisit fuel path todo V).1 (dfVisit fuel path todo V).2.
Proof.
  revert path p todo V. induction fuel as [|fuel IH]; intros path p [|m todo] V Hp Htodo Hfuel;
    [apply visits_done|cbn in Hfuel; lia|apply visits_done|]. cbn [dfVisit length] in *.
  assert (∀ c, c ∈ todo → c ∈ succs g p) as Hrest by (intros c Hc; apply Htodo; by right).
  destruct (decide (m ∉ V ∧ P m = true)) as [[HmV HP]|Hno].
  - assert (visits (m :: path) (succs g m) ({[m]} ∪ V) (dfVisit fuel (m :: path) (succs g m) ({[m]} ∪ V)).1
        (dfVisit fuel (m :: path) (succs g m) ({[m]} ∪ V)).2) as H1.
    { apply (IH _ m); [done|done|]. destruct (decide (m ∈ dom g)) as [Hd|Hd].
      - pose proof (pendingCalls_visit (elements (dom g)) V m ltac:(by apply elem_of_elements) HmV). lia.
      - unfold succs at 1. rewrite (not_elem_of_dom_1 _ _ Hd). cbn.
        pose proof (pendingCalls_anti (elements (dom g)) V ({[m]} ∪ V) ltac:(set_solver)). lia. }
    destruct (dfVisit fuel (m :: path) _ _) as [l1 V1]. cbn [fst snd] in H1.
    assert (visits path todo V1 (dfVisit fuel path todo V1).1 (dfVisit fuel path todo V1).2) as H2.
    { apply (IH _ p); [done|done|]. assert (V ⊆ V1) as HV.
      { intros x Hx. apply (vi_new _ _ _ _ _ H1). left. set_solver. }
      pose proof (pendingCalls_anti (elements (dom g)) V V1 HV). lia. }
    destruct (dfVisit fuel path todo V1) as [l2 V2]. cbn [fst snd] in *.
    apply (visits_visit path p m todo V l1 V1); try done. split; [|done]. apply Htodo. by left.
  - apply visits_skip; [|apply (IH _ p); [done|done|lia]]. destruct (decide (m ∈ V)); [by left|right].
    apply not_true_iff_false. naive_solver.
Qed.

Definition dfStacks (r : A) : list (list A) :=
  if P r then [r] :: (dfVisit (length (succs g r) + pendingCalls (elements (dom g)) {[r]}) [r] (succs g r) {[r]}).1 else [].

Lemma dfStacks_ok r : dfStacks r = [] ∨
  ∃ (l : list (list A)), dfStacks r = [r] :: l ∧ NoDup (omap head (dfStacks r)) ∧ Sorted nextStack (dfStacks r) ∧ childrenVisited ∅ (dfStacks r).
Proof.
  unfold dfStacks. destruct (P r); [|by left]. right.
  pose proof (dfVisit_ok (length (succs g r) + pendingCalls (elements (dom g)) {[r]}) [r] r (succs g r) {[r]} eq_refl
    ltac:(done) ltac:(done)) as Hv.
  destruct (dfVisit _ _ _ _) as [l V]. exists l. cbn [fst snd] in *. split; [done|]. split_and!.
  - cbn. constructor; [|apply Hv]. intros Hr%(vi_fresh _ _ _ _ _ Hv). set_solver.
  - apply (vi_next _ _ _ _ _ Hv). by exists [].
  - rewrite <- (app_nil_r l). apply (visits_children [] r ∅ l V [] V []); [|apply visits_done]. by rewrite union_empty_r_L.
Qed.
End instance.

Lemma NoDup_heads {A} (l : list (list A)) i j n s t :
  NoDup (omap head l) → l !! i = Some (n :: s) → l !! j = Some (n :: t) → i = j.
Proof.
  revert i j. induction l as [|x l IH]; intros i j Hnd Hi Hj; [done|].
  assert (∀ k u, l !! k = Some (n :: u) → n ∈ omap head l) as Hin.
  { intros k u Hk. apply list_elem_of_omap. exists (n :: u). split; [by eapply list_elem_of_lookup_2|done]. }
  destruct i as [|i], j as [|j]; [done| | |].
  - injection Hi as ->. cbn in Hnd. apply NoDup_cons in Hnd as [Hn _]. destruct Hn. by eapply Hin.
  - injection Hj as ->. cbn in Hnd. apply NoDup_cons in Hnd as [Hn _]. destruct Hn. by eapply Hin.
  - f_equal. apply IH; [|done|done]. destruct x; [done|]. by apply NoDup_cons in Hnd as [_ ?].
Qed.

Lemma Sorted_lookup {B} (R : B → B → Prop) l i x y : Sorted R l → l !! i = Some x → l !! S i = Some y → R x y.
Proof.
  revert i. induction l as [|z l IH]; intros i Hs Hx Hy; [done|]. inversion Hs as [|? ? Hs' Hd]; subst. destruct i as [|i].
  - injection Hx as ->. cbn in Hy. destruct l as [|w l]; [done|]. injection Hy as ->. by inversion Hd.
  - by apply (IH i).
Qed.

#[global] Instance depthFirst {A} `{Countable A} : LLVMDepthFirst A.
Proof.
  refine {| depth_first_ext g r P := dfStacks g P r |}.
  - intros g r P. unfold dfStacks. by destruct (P r).
  - intros g r P i j n s t Hi Hj. destruct (dfStacks_ok g P r) as [Hnil|(l & _ & Hnd & _)].
    + by rewrite Hnil in Hi.
    + by eapply NoDup_heads.
  - intros g r P i s t Hs Ht. destruct (dfStacks_ok g P r) as [Hnil|(l & _ & _ & Hso & _)].
    + by rewrite Hnil in Hs.
    + by apply (Sorted_lookup _ _ _ _ _ Hso Hs).
  - intros g r P i n rest m Hi Hst. destruct (dfStacks_ok g P r) as [Hnil|(l & _ & _ & _ & Hc)].
    + by rewrite Hnil in Hi.
    + destruct (Hc (take i (dfStacks g P r)) (drop (S i) (dfStacks g P r)) n rest m) as [?|[->|[(s & Hs)|(up & Hup)]]].
      * symmetry. by apply take_drop_middle.
      * done.
      * set_solver.
      * left. by exists i, rest.
      * left. apply list_elem_of_lookup in Hs as [j Hj]. apply lookup_take_Some in Hj as [Hj Hlt]. exists j, s. split; [lia|done].
      * right. apply list_elem_of_lookup in Hup as [j Hj]. rewrite lookup_drop in Hj. exists (S i + j), up. split; [lia|done].
Defined.
