(* ===== verification/GraphAlgorithms.v ===== *)
(** * Algorithms on graphs

    The generic algorithms of include/revng/Support/GraphAlgorithms.h, which work on what
    has LLVM's GraphTraits: a graph is the map of the successors of its nodes, another one
    is that of their predecessors, and the nodes are a list when their order matters. *)

From S2P Require Import Prelude Reachability DepthFirst.
From stdpp Require Import gmap list relations sorting.

(** ** Definitions *)

(** What LLVM's intersection of two sets promises, in an order that is its own. *)
Class LLVMSetIntersection (A : Type) `{Countable A} := {
  set_intersection : list A → list A → list A;
  si_elem l k a : a ∈ set_intersection l k ↔ a ∈ l ∧ a ∈ k;
}.

#[global] Instance filterIntersection {A} `{Countable A} : LLVMSetIntersection A.
Proof.
  refine {| set_intersection l k := filter (λ a, a ∈ k) l |}. intros l k a. rewrite list_elem_of_filter. tauto.
Defined.

(** The insertion in a vector that is a set. *)
Definition insertNew {A} `{EqDecision A} (a : A) (l : list A) : list A := if decide (a ∈ l) then l else l ++ [a].

(* include/revng/Support/GraphAlgorithms.h:140-143 FilterSet *)
Inductive FilterSet : Set := WhiteList | BlackList.

Section algorithms.
  Context {A : Type} `{Countable A} `{!LLVMGraphWalks A, !LLVMDepthFirst A, !LLVMSetIntersection A}.
  Implicit Types (g gi : gmap A (list A)) (a b n : A).

(** *** Entry points *)

(* include/revng/Support/GraphAlgorithms.h:37-49 entryPoints *)
Definition visitWithoutPredecessors g gi (s : list A * gset A) n : list A * gset A :=
  let (Result, Visited) := s in
  match succs gi n with
  | [] => (Result ++ [n], Visited ∪ list_to_set (post_order_ext g n Visited))
  | _ => s
  end.

(* include/revng/Support/GraphAlgorithms.h:54-106 entryPoints *)
Definition visitFirstSCC g gi (s : list A * gset A) n : list A * gset A :=
  let (Result, Visited) := s in
  if decide (n ∈ Visited) then s else
  match scc_iterator g n with
  | ((SCCEntryNode :: _) as TheSCC) :: _ =>
    if decide (SCCEntryNode ∈ Visited) then s else
    let HasPredecessorOutsideSCC := existsb (λ m, existsb (λ p, bool_decide (p ∉ TheSCC)) (succs gi m)) TheSCC in
    (if HasPredecessorOutsideSCC then Result else Result ++ [SCCEntryNode], Visited ∪ list_to_set TheSCC)
  | _ => s
  end.

(* include/revng/Support/GraphAlgorithms.h:28-109 entryPoints *)
Definition entryPoints g gi (nodes : list A) : list A :=
  (foldl (visitFirstSCC g gi) (foldl (visitWithoutPredecessors g gi) ([], ∅) nodes) nodes).1.

(** *** Backedges *)

(** The map of [DFStack] is from the nodes to whether they are on the stack. *)
Notation DFStack := (gmap A bool).

(** An entry that is in the map is kept. *)
(* include/revng/Support/GraphAlgorithms.h:154-158 DFStack::insertInMap *)
Definition insertInMap (Block : A) (OnStack : bool) (s : DFStack) : DFStack * bool :=
  match s !! Block with Some _ => (s, false) | None => (<[Block := OnStack]> s, true) end.

(* include/revng/Support/GraphAlgorithms.h:160-164 DFStack::onStack *)
Definition onStack (s : DFStack) (Block : A) : bool := default false (s !! Block).

(* include/revng/Support/GraphAlgorithms.h:166-167 DFStack::completed *)
Definition completed (Block : A) (s : DFStack) : DFStack := <[Block := false]> s.

(* include/revng/Support/GraphAlgorithms.h:188-190 DFStackBackedge::insert *)
Definition isValid (F : FilterSet) (Set_ : gset A) (Block : A) : bool :=
  match F with WhiteList => bool_decide (Block ∈ Set_) | BlackList => bool_decide (Block ∉ Set_) end.

(* include/revng/Support/GraphAlgorithms.h:185-201 DFStackBackedge::insert *)
Definition insertFiltered (F : FilterSet) (Set_ : gset A) (Block : A) (s : DFStack) : DFStack * bool :=
  if isValid F Set_ Block then insertInMap Block true s else ((insertInMap Block false s).1, false).

(** What the iterator does to the storage between two visits: it completes the nodes that
    leave the stack, and inserts the one it visits. The nodes whose insertion fails, which
    it also tries, are not on the stack before nor after. *)
Definition advance (F : FilterSet) (Set_ : gset A) (From To : list A) (s : DFStack) : DFStack :=
  let s := foldr completed s (filter (λ a, a ∉ To) From) in
  match To with [] => s | n :: _ => (insertFiltered F Set_ n s).1 end.

(* include/revng/Support/GraphAlgorithms.h:231-238 getBackedgesImpl *)
Fixpoint collectBackedges (F : FilterSet) (Set_ : gset A) g (From : list A) (State : DFStack) (stacks : list (list A))
    (Backedges : list (A * A)) : list (A * A) :=
  match stacks with
  | [] => Backedges
  | To :: stacks =>
    let State := advance F Set_ From To State in
    let Backedges :=
      match To with
      | [] => Backedges
      | Block :: _ => foldl (λ B Succ, if onStack State Succ then insertNew (Block, Succ) B else B) Backedges (succs g Block)
      end in
    collectBackedges F Set_ g To State stacks Backedges
  end.

(* include/revng/Support/GraphAlgorithms.h:212-241 getBackedgesImpl *)
Definition getBackedgesImpl (F : FilterSet) g (Block : A) (Set_ : gset A) : list (A * A) :=
  collectBackedges F Set_ g [] ∅ (depth_first_ext g Block (isValid F Set_)) [].

(* include/revng/Support/GraphAlgorithms.h:243-250 getBackedges *)
Definition getBackedges g (Block : A) : list (A * A) := getBackedgesImpl BlackList g Block ∅.

(* include/revng/Support/GraphAlgorithms.h:252-259 getBackedgesWhiteList *)
Definition getBackedgesWhiteList g (Block : A) (Set_ : gset A) : list (A * A) := getBackedgesImpl WhiteList g Block Set_.

(* include/revng/Support/GraphAlgorithms.h:261-268 getBackedgesBlackList *)
Definition getBackedgesBlackList g (Block : A) (Set_ : gset A) : list (A * A) := getBackedgesImpl BlackList g Block Set_.

(** *** Nodes between two nodes *)

(* include/revng/Support/GraphAlgorithms.h:270-280 hasSuccessor *)
Definition hasSuccessor g (Pred Succ : A) : bool := existsb (λ Child, bool_decide (Child = Succ)) (succs g Pred).

(* include/revng/Support/GraphAlgorithms.h:289-316 findReachableNodesImpl *)
Definition findReachableNodes g (Source : A) (Stop : option A) : list A :=
  visitOrder g Source (λ n, bool_decide (Stop ≠ Some n)).

(** [gf] has the successors in the direction of the search, [gb] those in the other. *)
(* include/revng/Support/GraphAlgorithms.h:329-386 nodesBetweenImpl *)
Definition nodesBetweenImpl (gf gb : gmap A (list A)) (Source Target : A) : outcome (list A) :=
  let ForwardDFSNodes := findReachableNodes gf Source (Some Target) in
  let BackwardDFSNodes := findReachableNodes gb Target (Some Source) in
  let Result := set_intersection ForwardDFSNodes BackwardDFSNodes in
  let Result :=
    match Result with
    | _ :: _ => insertNew Source (insertNew Target Result)
    | [] =>
      if hasSuccessor gf Source Target then insertNew Source (insertNew Target [])
      else if decide (Source = Target) then [Source] else []
    end in
  revng_assert (bool_decide (Source = Target) || negb (length Result =? 1));;
  Ok Result.

(* include/revng/Support/GraphAlgorithms.h:388-392 nodesBetween *)
Definition nodesBetween g gi (Source Destination : A) : outcome (list A) := nodesBetweenImpl g gi Source Destination.

(* include/revng/Support/GraphAlgorithms.h:394-399 nodesBetweenReverse *)
Definition nodesBetweenReverse g gi (Source Destination : A) : outcome (list A) := nodesBetweenImpl gi g Source Destination.

(** *** Checks *)

(** From the nodes that are to be skipped. *)
(* include/revng/Support/GraphAlgorithms.h:402-441 isDAG *)
Fixpoint isDAG g (VisitedNodes : gset A) (nodes : list A) : bool :=
  match nodes with
  | [] => true
  | n :: nodes =>
    if decide (n ∈ VisitedNodes) then isDAG g VisitedNodes nodes
    else if existsb (hasCycle g) (scc_iterator g n) then false
    else isDAG g (VisitedNodes ∪ list_to_set (concat (scc_iterator g n))) nodes
  end.

(* include/revng/Support/GraphAlgorithms.h:443-466 hasUnreachableBlocks *)
Definition hasUnreachableBlocks g (Entry : A) (nodes : list A) : bool :=
  let DFSNodes := visitOrder g Entry (λ _, true) in
  existsb (λ n, bool_decide (n ∉ DFSNodes)) nodes.

End algorithms.

(** ** Lists that are sets *)

Lemma elem_of_insertNew {A} `{EqDecision A} (a b : A) l : b ∈ insertNew a l ↔ b = a ∨ b ∈ l.
Proof. unfold insertNew. case_decide; [naive_solver|]. rewrite elem_of_app, list_elem_of_singleton. tauto. Qed.

Lemma Sorted_last {A} (R : A → A → Prop) l y z : Sorted R l → last l = Some y → R y z → Sorted R (l ++ [z]).
Proof.
  induction 1 as [|x l Hs IH Hd]; intros Hl Hyz; [done|]. destruct l as [|w l].
  - injection Hl as ->. by repeat constructor.
  - cbn. constructor; [by apply IH|]. inversion Hd. by constructor.
Qed.

Lemma Sorted_split {A} (R : A → A → Prop) l a k : Sorted R (l ++ a :: k) ↔ Sorted R (l ++ [a]) ∧ Sorted R (a :: k).
Proof.
  induction l as [|x l IH]; cbn.
  - split; [intros Hs; split; [by repeat constructor|done]|by intros [_ ?]].
  - split.
    + intros [Hs Hd]%Sorted_inv. apply IH in Hs as [Hs1 Hs2]. split; [|done]. constructor; [done|].
      destruct l; inversion Hd; by constructor.
    + intros [[Hs1 Hd]%Sorted_inv Hs2]. constructor; [by apply IH|]. destruct l; inversion Hd; by constructor.
Qed.

Section checks.
  Context {A : Type} `{Countable A} `{!LLVMGraphWalks A}.
  Implicit Types (g gi : gmap A (list A)) (V : gset A).

Lemma isDAG_spec g nodes :
  (∀ a, a ∈ dom g → a ∈ nodes) → isDAG g ∅ nodes = true ↔ acyclic g.
Proof.
  intros Hdom. split.
  - intros Hv. assert (∀ a, a ∈ nodes → ¬ tc (edge g) a a) as Hall.
    { clear Hdom. assert (∀ a, a ∈ (∅ : gset A) → ¬ tc (edge g) a a) as HV by set_solver. revert Hv HV. generalize (∅ : gset A).
      induction nodes as [|n nodes IH]; intros V Hv HV a Ha; [by apply elem_of_nil in Ha|]. cbn [isDAG] in Hv.
      destruct (decide (n ∈ V)) as [Hn|Hn].
      { apply elem_of_cons in Ha as [->|Ha]; [by apply HV|by eapply IH]. }
      destruct (existsb _ _) eqn:Hex; [done|].
      assert (∀ b, b ∈ V ∪ list_to_set (concat (scc_iterator g n)) → ¬ tc (edge g) b b) as HV'.
      { intros b [Hb|Hb]%elem_of_union; [by apply HV|]. apply elem_of_list_to_set, list_elem_of_In, in_concat in Hb.
        destruct Hb as (C & HC%list_elem_of_In & Hb%list_elem_of_In). eapply no_cycle_component; [done| |done].
        apply not_true_iff_false. intros Hc. apply not_true_iff_false in Hex. apply Hex, existsb_exists.
        exists C. by rewrite <- list_elem_of_In. }
      apply elem_of_cons in Ha as [->|Ha]; [|by eapply IH].
      apply HV', elem_of_union_r, elem_of_list_to_set, scc_elem. done. }
    intros a Ha. apply (Hall a); [|done]. apply Hdom. apply tc_first in Ha as (b & Hb & _). by eapply edge_dom.
  - intros Hg. clear Hdom. generalize (∅ : gset A). induction nodes as [|n nodes IH]; intros V; [done|]. cbn [isDAG].
    case_decide; [done|]. destruct (existsb _ _) eqn:Hex; [|done]. apply existsb_exists in Hex as (C & HC%list_elem_of_In & Hc).
    apply (cycle_component _ n) in Hc as [a Ha]; [|done]. by apply Hg in Ha.
Qed.

End checks.

(** ** Reachable nodes *)

Section reachable.
  Context {A : Type} `{Countable A} `{!LLVMDepthFirst A}.
  Implicit Types (g gi : gmap A (list A)) (P : A → bool) (a b n : A).

Lemma elem_of_visitOrder g r P n : n ∈ visitOrder g r P ↔ P r = true ∧ rtc (stepIn g P) r n.
Proof using All.
  rewrite <- (df_visited g r P). unfold visitOrder, visited. rewrite list_elem_of_omap. split.
  - intros ([|m s] & Hs & Hm); [done|]. injection Hm as ->. apply list_elem_of_lookup in Hs as [i Hi]. by exists i, s.
  - intros (i & s & Hi). exists (n :: s). split; [by eapply list_elem_of_lookup_2|done].
Qed.

Lemma elem_of_findReachableNodes g S T n :
  n ∈ findReachableNodes g S (Some T) ↔ S ≠ T ∧ rtc (stepIn g (λ n, bool_decide (Some T ≠ Some n))) S n.
Proof using All. unfold findReachableNodes. rewrite elem_of_visitOrder, bool_decide_eq_true. naive_solver. Qed.

(** A path without nodes outside of [P] in it, from the last time it is at its first node. *)
Lemma simple_path_from g P a b :
  rtc (stepIn g P) a b → ∃ l, Sorted (edge g) (a :: l) ∧ last (a :: l) = Some b ∧ ∀ x, x ∈ l → P x = true ∧ x ≠ a.
Proof.
  revert b. apply rtc_ind_r.
  - exists []. split; [by repeat constructor|]. split; [done|]. by intros x ?%elem_of_nil.
  - intros y z _ [Hyz HP] (l & Hs & Hl & Hx). destruct (decide (z = a)) as [->|Hne].
    { exists []. split; [by repeat constructor|]. split; [done|]. by intros x ?%elem_of_nil. }
    exists (l ++ [z]). split; [|split; [by rewrite app_comm_cons, last_snoc|]].
    + rewrite app_comm_cons. by apply (Sorted_last _ _ y).
    + intros x [Hin| ->%list_elem_of_singleton]%elem_of_app; [by apply Hx|done].
Qed.

(** The same in the graph of the predecessors, up to the last node. *)
Lemma simple_path_to g gi P a b :
  (∀ a b, a ∈ succs gi b ↔ b ∈ succs g a) → rtc (stepIn gi P) b a →
  ∃ l, Sorted (edge g) (l ++ [b]) ∧ head (l ++ [b]) = Some a ∧ ∀ x, x ∈ l → P x = true ∧ x ≠ b.
Proof.
  intros Hgi. revert a. apply rtc_ind_r.
  - exists []. split; [by repeat constructor|]. split; [done|]. by intros x ?%elem_of_nil.
  - intros y z _ [Hyz HP] (l & Hs & Hl & Hx). destruct (decide (z = b)) as [->|Hne].
    { exists []. split; [by repeat constructor|]. split; [done|]. by intros x ?%elem_of_nil. }
    exists (z :: l). split; [|split; [done|]].
    + cbn. constructor; [done|]. destruct (l ++ [b]) as [|w k]; [done|]. injection Hl as ->. constructor. by apply Hgi.
    + intros x [->|Hin]%elem_of_cons; [done|by apply Hx].
Qed.

Lemma path_reaches g P a l b :
  Sorted (edge g) (a :: l) → (∀ x, x ∈ l → P x = true) → last (a :: l) = Some b → rtc (stepIn g P) a b.
Proof.
  revert a. induction l as [|c l IH]; intros a Hs HP Hl; [by injection Hl as ->|].
  apply Sorted_inv in Hs as [Hs Hd]. inversion Hd; subst. eapply rtc_l; [split; [done|apply HP; by left]|].
  apply IH; [done| |done]. intros x Hx. apply HP. by right.
Qed.

Lemma path_reaches_back g gi P l b a :
  (∀ a b, a ∈ succs gi b ↔ b ∈ succs g a) → Sorted (edge g) (l ++ [b]) → (∀ x, x ∈ l → P x = true) →
  head (l ++ [b]) = Some a → rtc (stepIn gi P) b a.
Proof.
  intros Hgi. revert a. induction l as [|c l IH]; intros a Hs HP Hl; [by injection Hl as ->|]. injection Hl as ->.
  cbn in Hs. apply Sorted_inv in Hs as [Hs Hd]. destruct (l ++ [b]) as [|w k] eqn:Heq; [by destruct l|]. inversion Hd; subst.
  eapply rtc_r; [apply IH; [done| |done]|].
  - intros x Hx. apply HP. by right.
  - split; [by apply Hgi|apply HP; by left].
Qed.
End reachable.

(** ** Nodes between two nodes *)

Section between.
  Context {A : Type} `{Countable A} `{!LLVMDepthFirst A, !LLVMSetIntersection A}.
  Implicit Types (g gi : gmap A (list A)) (S T n : A).

(** A path from [S] to [T] that is at them only at its ends. *)
Definition pathBetween g S (mid : list A) T : Prop := Sorted (edge g) (S :: mid ++ [T]) ∧ S ∉ mid ∧ T ∉ mid.

Lemma elem_of_between g gi S T n :
  (∀ a b, a ∈ succs gi b ↔ b ∈ succs g a) → S ≠ T →
  n ∈ findReachableNodes g S (Some T) ∧ n ∈ findReachableNodes gi T (Some S) ↔ ∃ mid, pathBetween g S mid T ∧ n ∈ mid.
Proof using All.
  intros Hgi HST. rewrite !elem_of_findReachableNodes. split.
  - intros [[_ Hf] [_ Hb]]. apply simple_path_from in Hf as (l & Hsl & Hl & HPl).
    apply (simple_path_to g gi) in Hb as (k & Hsk & Hk & HPk); [|done].
    setoid_rewrite bool_decide_eq_true in HPl. setoid_rewrite bool_decide_eq_true in HPk.
    destruct l as [|x l _] using rev_ind.
    { injection Hl as <-. destruct k as [|y k]; [injection Hk as ->; done|]. injection Hk as ->.
      destruct (HPk S) as [? _]; [by left|done]. }
    rewrite app_comm_cons, last_snoc in Hl. injection Hl as ->.
    destruct k as [|y k]; [injection Hk as <-; destruct (HPl T) as [? _]; [apply elem_of_app; right; by left|done]|]. injection Hk as ->.
    exists (l ++ n :: k). split; [|apply elem_of_app; right; by left]. split.
    + rewrite <- app_assoc. cbn. rewrite app_comm_cons. by apply Sorted_split.
    + split; intros [Hin|[->|Hin]%elem_of_cons]%elem_of_app.
      * destruct (HPl S) as [_ ?]; [apply elem_of_app; by left|done].
      * destruct (HPk n) as [? _]; [by left|done].
      * destruct (HPk S) as [? _]; [by right|done].
      * destruct (HPl T) as [? _]; [apply elem_of_app; by left|done].
      * destruct (HPl n) as [? _]; [apply elem_of_app; right; by left|done].
      * destruct (HPk T) as [_ ?]; [by right|done].
  - intros (mid & (Hs & HS & HT) & Hn). apply list_elem_of_split in Hn as (l & k & ->).
    rewrite <- app_assoc in Hs. cbn in Hs. rewrite app_comm_cons in Hs. apply Sorted_split in Hs as [Hs1 Hs2].
    split; (split; [done|]).
    + apply (path_reaches g _ S (l ++ [n])); [done| |by rewrite app_comm_cons, last_snoc].
      intros x Hx. apply bool_decide_eq_true. intros [= ->]. apply HT. set_solver.
    + apply (path_reaches_back g gi _ (n :: k)); [done|done| |done].
      intros x Hx. apply bool_decide_eq_true. intros [= ->]. apply HS. set_solver.
Qed.

Lemma hasSuccessor_spec g a b : hasSuccessor g a b = true ↔ b ∈ succs g a.
Proof using Type.
  unfold hasSuccessor. rewrite existsb_exists. split.
  - intros (x & Hx%list_elem_of_In & ->%bool_decide_eq_true). done.
  - intros Hb%list_elem_of_In. exists b. split; [done|by apply bool_decide_eq_true].
Qed.

Lemma pathBetween_nil g S T : pathBetween g S [] T ↔ T ∈ succs g S.
Proof using Type.
  unfold pathBetween. cbn. split; [intros [[_ Hd]%Sorted_inv _]; by inversion Hd|]. intros He. split; [by repeat constructor|].
  by split; intros ?%elem_of_nil.
Qed.

Lemma nodesBetween_same g gi T : nodesBetween g gi T T = Ok [T].
Proof using All.
  unfold nodesBetween, nodesBetweenImpl. assert (findReachableNodes g T (Some T) = []) as ->.
  { apply elem_of_nil_inv. by intros x [? _]%elem_of_findReachableNodes. }
  replace (set_intersection [] (findReachableNodes gi T (Some T))) with (@nil A).
  - rewrite bool_decide_eq_true_2 by done. cbn [orb revng_assert mbind outcome_bind].
    destruct (hasSuccessor g T T); [|by rewrite decide_True]. unfold insertNew at 2. cbn. unfold insertNew.
    by rewrite decide_True by by left.
  - symmetry. apply elem_of_nil_inv. by intros x [?%elem_of_nil _]%si_elem.
Qed.

(** The two ends are added when there is a path. *)
Lemma nodesBetween_other g gi S T :
  (∀ a b, a ∈ succs gi b ↔ b ∈ succs g a) → S ≠ T →
  ∃ l, nodesBetween g gi S T = Ok l ∧ ∀ n, n ∈ l ↔ (∃ mid, pathBetween g S mid T) ∧ (n = S ∨ n = T ∨ ∃ mid, pathBetween g S mid T ∧ n ∈ mid).
Proof using All.
  intros Hgi HST. unfold nodesBetween, nodesBetweenImpl.
  pose proof (λ n, elem_of_between g gi S T n Hgi HST) as Hb. setoid_rewrite <- si_elem in Hb.
  assert (∀ l, S ∈ l → T ∈ l → negb (length l =? 1) = true) as Hlen.
  { intros l HS HT. apply negb_true_iff, Nat.eqb_neq. destruct l as [|y [|z k]]; [done| |done].
    apply list_elem_of_singleton in HS, HT. congruence. }
  destruct (set_intersection _ _) as [|x l] eqn:Hl.
  - assert (∀ mid, pathBetween g S mid T → mid = []) as Hempty.
    { intros [|m mid] Hm; [done|]. exfalso. apply (elem_of_nil m), Hb. exists (m :: mid). split; [done|by left]. }
    destruct (hasSuccessor g S T) eqn:He.
    + apply hasSuccessor_spec, pathBetween_nil in He. exists (insertNew S (insertNew T [])).
      rewrite Hlen, orb_true_r by (rewrite !elem_of_insertNew; auto). split; [done|]. intros n. rewrite !elem_of_insertNew.
      split; [intros Hn; split; [by exists []|naive_solver]|]. intros [_ [?|[?|(mid & ->%Hempty & Hn)]]]; auto.
    + exists []. rewrite decide_False, orb_true_r by done. split; [done|]. intros n. split; [by intros ?%elem_of_nil|].
      intros [[mid Hm] _]. pose proof (Hempty mid Hm) as ->. apply pathBetween_nil, hasSuccessor_spec in Hm. congruence.
  - exists (insertNew S (insertNew T (x :: l))). rewrite Hlen, orb_true_r by (rewrite !elem_of_insertNew; auto). split; [done|].
    intros n. rewrite !elem_of_insertNew, Hb. destruct (proj1 (Hb x)) as (mid & Hm & _); [by left|]. naive_solver.
Qed.

(** C15: The nodes between two nodes: for two different nodes, exactly those on the paths from the first to the second that are at the two only at their ends; for a node and itself, that node, whatever loops it is on. The search never fails. *)
Theorem nodes_between_exact g gi S T :
  (∀ a b, a ∈ succs gi b ↔ b ∈ succs g a) →
  ∃ l, nodesBetween g gi S T = Ok l ∧
    (S ≠ T → ∀ n, n ∈ l ↔ ∃ mid, pathBetween g S mid T ∧ n ∈ S :: mid ++ [T]) ∧
    (S = T → l = [S]).
Proof using All.
  intros Hgi. destruct (decide (S = T)) as [->|HST].
  - exists [T]. split; [apply nodesBetween_same|done].
  - destruct (nodesBetween_other g gi S T Hgi HST) as (l & -> & Hl). exists l. split; [done|]. split; [|done]. intros _ n.
    rewrite Hl. setoid_rewrite elem_of_cons. setoid_rewrite elem_of_app. setoid_rewrite list_elem_of_singleton. naive_solver.
Qed.
End between.

(** ** Backedges *)

Section backedges.
  Context {A : Type} `{Countable A} `{!LLVMDepthFirst A}.
  Implicit Types (g : gmap A (list A)) (a b n : A).

(** The storage knows the nodes of the stack, and only has nodes that were visited. *)
Record knows g r P (i : nat) (State : gmap A bool) (From : list A) : Prop := {
  kn_stack n : onStack State n = true ↔ n ∈ From;
  kn_visited n : is_Some (State !! n) → ∃ j s, j < i ∧ depth_first_ext g r P !! j = Some (n :: s);
  kn_from n : n ∈ From → ∃ j s, j < i ∧ depth_first_ext g r P !! j = Some (n :: s);
}.

Lemma completed_spec (s : gmap A bool) l n : onStack (foldr completed s l) n = true ↔ onStack s n = true ∧ n ∉ l.
Proof using Type.
  induction l as [|x l IH]; cbn; [split; [intros ?; split; [done|by intros ?%elem_of_nil]|tauto]|].
  unfold completed at 1, onStack at 1. destruct (decide (n = x)) as [->|Hne].
  - rewrite lookup_insert_eq. cbn. split; [done|]. intros [_ Hn]. destruct Hn. by left.
  - rewrite lookup_insert_ne by done. fold (onStack (foldr completed s l) n). rewrite IH, not_elem_of_cons. tauto.
Qed.

Lemma completed_keys (s : gmap A bool) l n : is_Some (foldr completed s l !! n) → n ∈ l ∨ is_Some (s !! n).
Proof using Type.
  induction l as [|x l IH]; cbn; [by right|]. unfold completed at 1. destruct (decide (n = x)) as [->|Hne].
  - intros _. left. by left.
  - rewrite lookup_insert_ne by done. intros [?|?]%IH; [left; by right|by right].
Qed.

Lemma df_valid g r P i n s : depth_first_ext g r P !! i = Some (n :: s) → P n = true.
Proof using Type.
  intros Hi. assert (visited g r P n) as [Hr Hn]%df_visited by by exists i, s. apply rtc_inv_r in Hn as [<-|(m & _ & _ & ?)]; done.
Qed.

Lemma advance_knows F Set_ g r i State From To :
  knows g r (isValid F Set_) i State From → depth_first_ext g r (isValid F Set_) !! i = Some To →
  (∀ n, n ∈ tail To → n ∈ From) → knows g r (isValid F Set_) (S i) (advance F Set_ From To State) To.
Proof using Type.
  intros [Hst Hv Hf] HTo Hrest. destruct To as [|n s]; [by apply df_nonempty in HTo|]. cbn [tail] in Hrest.
  unfold advance. set (State' := foldr completed State _).
  assert (∀ x, is_Some (State' !! x) → ∃ j t, j < i ∧ depth_first_ext g r (isValid F Set_) !! j = Some (x :: t)) as Hkeys.
  { intros x [Hx|Hx]%completed_keys; [|by apply Hv]. apply list_elem_of_filter in Hx as [_ Hx]. by apply Hf. }
  assert (State' !! n = None) as Hn.
  { apply eq_None_not_Some. intros (j & t & Hj & Hjt)%Hkeys. pose proof (df_once _ _ _ _ _ _ _ _ HTo Hjt). lia. }
  unfold insertFiltered, insertInMap. rewrite (df_valid _ _ _ _ _ _ HTo), Hn. cbn [fst]. split.
  - intros x. unfold onStack. destruct (decide (x = n)) as [->|Hne].
    + rewrite lookup_insert_eq. split; [intros _; by left|done].
    + rewrite lookup_insert_ne by done. fold (onStack State' x). unfold State'. rewrite completed_spec, Hst, list_elem_of_filter.
      rewrite elem_of_cons. split; [intros [? Hx]|intros [?|?]; [done|split; [auto|tauto]]].
      destruct (decide (x ∈ s)); [by right|]. exfalso. apply Hx. tauto.
  - intros x Hx. destruct (decide (x = n)) as [->|Hne]; [by exists i, s; split; [lia|]|].
    rewrite lookup_insert_ne in Hx by done. destruct (Hkeys x Hx) as (j & t & ? & ?). exists j, t. split; [lia|done].
  - intros x [->|Hx]%elem_of_cons; [by exists i, s; split; [lia|]|]. destruct (Hf x) as (j & t & ? & ?); [auto|].
    exists j, t. split; [lia|done].
Qed.

Lemma elem_of_insertBackedges (State : gmap A bool) n (l : list A) B a b :
  (a, b) ∈ foldl (λ B Succ, if onStack State Succ then insertNew (n, Succ) B else B) B l ↔
    (a, b) ∈ B ∨ a = n ∧ b ∈ l ∧ onStack State b = true.
Proof using Type.
  revert B. induction l as [|x l IH]; intros B; cbn [foldl].
  - split; [by left|]. intros [?|(_ & ?%elem_of_nil & _)]; done.
  - rewrite IH, elem_of_cons. destruct (onStack State x) eqn:Hx; [rewrite elem_of_insertNew|]; naive_solver congruence.
Qed.

Lemma elem_of_collectBackedges F Set_ g r i State From B a b :
  (∀ To, depth_first_ext g r (isValid F Set_) !! i = Some To → ∀ n, n ∈ tail To → n ∈ From) →
  knows g r (isValid F Set_) i State From →
  (a, b) ∈ collectBackedges F Set_ g From State (drop i (depth_first_ext g r (isValid F Set_))) B ↔
    (a, b) ∈ B ∨ ∃ j s, i ≤ j ∧ depth_first_ext g r (isValid F Set_) !! j = Some (a :: s) ∧ b ∈ succs g a ∧ b ∈ a :: s.
Proof using Type.
  set (L := depth_first_ext g r (isValid F Set_)). remember (length L - i) as k eqn:Hk. revert i State From B Hk.
  induction k as [|k IH]; intros i State From B Hk Htail Hkn.
  - rewrite drop_ge by lia. cbn. split; [by left|]. intros [?|(j & s & Hj & Hs & _)]; [done|]. apply lookup_lt_Some in Hs. lia.
  - destruct (lookup_lt_is_Some_2 L i) as [To HTo]; [lia|]. rewrite (drop_S L To i HTo). cbn [collectBackedges].
    destruct To as [|n s]; [by apply df_nonempty in HTo|].
    pose proof (advance_knows F Set_ g r i State From (n :: s) Hkn HTo (Htail _ HTo)) as Hkn'.
    rewrite IH; [|lia| |done].
    + rewrite elem_of_insertBackedges, (kn_stack _ _ _ _ _ _ Hkn'). split.
      * intros [[?|(-> & ? & ?)]|(j & t & ? & ?)]; [by left|right; by exists i, s|right]. exists j, t. split; [lia|done].
      * intros [?|(j & t & Hj & Ht & ? & ?)]; [by left; left|]. destruct (decide (j = i)) as [->|].
        -- unfold L in HTo, Ht. rewrite HTo in Ht. injection Ht as -> ->. by left; right.
        -- right. exists j, t. split; [lia|done].
    + intros To HTo' x Hx. destruct (df_next _ _ _ _ _ _ HTo HTo') as (y & m & rest & popped & -> & Heq & _).
      rewrite Heq. apply elem_of_app. by right.
Qed.

Lemma elem_of_getBackedgesImpl F g r Set_ a b :
  (a, b) ∈ getBackedgesImpl F g r Set_ ↔
    ∃ i s, depth_first_ext g r (isValid F Set_) !! i = Some (a :: s) ∧ b ∈ succs g a ∧ b ∈ a :: s.
Proof using Type.
  unfold getBackedgesImpl. rewrite <- (drop_0 (depth_first_ext g r (isValid F Set_))), elem_of_collectBackedges.
  - split; [intros [?%elem_of_nil|(i & s & _ & Hx)]; [done|by exists i, s]|]. intros (i & s & Hx). right. exists i, s. split; [lia|done].
  - intros To. rewrite df_root. destruct (isValid F Set_ r); [|done]. intros [= <-] n ?%elem_of_nil. done.
  - split; [|intros n [? [=]]|by intros n ?%elem_of_nil]. intros n. unfold onStack. rewrite lookup_empty. split; [done|by intros ?%elem_of_nil].
Qed.

Lemma NoDup_getBackedgesImpl F g r Set_ : NoDup (getBackedgesImpl F g r Set_).
Proof using Type.
  unfold getBackedgesImpl. assert (NoDup (@nil (A * A))) as Hnil by constructor. revert Hnil.
  generalize (@nil (A * A)) (@nil A) (∅ : gmap A bool). induction (depth_first_ext g r (isValid F Set_)) as [|To L IH]; intros B From State HB; [done|].
  cbn [collectBackedges]. apply IH. destruct To as [|n s]; [done|]. set (State' := advance _ _ _ _ _). clearbody State'.
  revert B HB. induction (succs g n) as [|x l IHl]; intros B HB; [done|]. cbn [foldl]. apply IHl. destruct (onStack State' x); [|done].
  unfold insertNew. case_decide as Hx; [done|]. apply NoDup_app. split_and!; [done| |by apply NoDup_singleton].
  intros y Hy ->%list_elem_of_singleton. done.
Qed.

(** A step that is not a backedge goes forward in the order of the visit; a backedge goes
    back in it, or is from a node to itself. *)
Lemma not_backedge F g r Set_ a b :
  visited g r (isValid F Set_) a → stepIn g (isValid F Set_) a b → (a, b) ∉ getBackedgesImpl F g r Set_ →
  visited g r (isValid F Set_) b ∧ precedes g r (isValid F Set_) a b.
Proof using Type.
  intros Ha Hst Hno. destruct (df_step g r _ a b Ha Hst) as [Hb [(i & s & Hi & Hin)|Hp]]; [|done].
  destruct Hno. apply elem_of_getBackedgesImpl. exists i, s. by destruct Hst.
Qed.

Lemma backedge_back F g r Set_ a b :
  (a, b) ∈ getBackedgesImpl F g r Set_ → a = b ∨ precedes g r (isValid F Set_) b a.
Proof using Type.
  intros (i & s & Hi & _ & Hb)%elem_of_getBackedgesImpl. destruct (decide (a = b)) as [|Hne]; [by left|right].
  apply elem_of_cons in Hb as [?|Hb]; [done|]. apply list_elem_of_split in Hb as (up & t & ->).
  destruct (df_stack g r _ i (a :: up ++ b :: t) (a :: up) b t Hi eq_refl) as (j & _ & Hj & _).
  exists j, i, t, (up ++ b :: t). split_and!; [done|done|done|left]. apply elem_of_app. right. by left.
Qed.

Lemma no_cycle_without_backedges F g r Set_ a :
  visited g r (isValid F Set_) a → ¬ tc (λ a b, stepIn g (isValid F Set_) a b ∧ (a, b) ∉ getBackedgesImpl F g r Set_) a a.
Proof using Type.
  intros Ha Hc.
  assert (∀ x y, tc (λ a b, stepIn g (isValid F Set_) a b ∧ (a, b) ∉ getBackedgesImpl F g r Set_) x y →
    visited g r (isValid F Set_) x → precedes g r (isValid F Set_) x y) as Hall.
  { induction 1 as [x y [Hst Hno]|x y z [Hst Hno] _ IH]; intros Hx.
    - by apply not_backedge.
    - destruct (not_backedge F g r Set_ x y Hx Hst Hno) as [Hy Hp]. eapply precedes_transitive; [exact Hp|]. by apply IH. }
  destruct (precedes_irreflexive g r (isValid F Set_) a). by apply Hall.
Qed.

(** The edges by which the nodes were found are not backedges. *)
Lemma reached_without_backedges F g r Set_ n :
  visited g r (isValid F Set_) n →
  rtc (λ a b, stepIn g (isValid F Set_) a b ∧ (a, b) ∉ getBackedgesImpl F g r Set_) r n.
Proof using Type.
  intros (i & s & Hi). revert n s Hi. induction (lt_wf i) as [i _ IH]. intros n s Hi. destruct i as [|i].
  - rewrite df_root in Hi. destruct (isValid F Set_ r); [|done]. by injection Hi as ->.
  - destruct (lookup_lt_is_Some_2 (depth_first_ext g r (isValid F Set_)) i) as [u Hu]; [apply lookup_lt_Some in Hi; lia|].
    destruct (df_next _ _ _ _ _ _ Hu Hi) as (n' & p & rest & popped & [= <- ->] & Heq & Hst).
    destruct (df_stack g r _ i u popped p rest Hu Heq) as (j & Hj & Hjp & _).
    eapply rtc_r; [by apply (IH j ltac:(lia) p rest)|]. split; [done|]. intros (k & t & Hk & _ & Hn)%elem_of_getBackedgesImpl.
    pose proof (df_once _ _ _ _ _ _ _ _ Hjp Hk) as <-. rewrite Hjp in Hk. injection Hk as <-.
    destruct (df_on_stack g r _ (S i) j n (p :: rest) (p :: rest) Hi Hjp Hn) as [? _]. lia.
Qed.

(** C17: The backedges of a depth first visit, among the nodes that are not filtered out: each is an edge between nodes that can be reached, and closes a loop; every loop that can be reached has one, so that without them there are no loops; and there are none exactly when there is no loop. *)
Theorem backedges_break_loops F g r Set_ :
  let P := isValid F Set_ in
  let Backedges := getBackedgesImpl F g r Set_ in
  let reached a := P r = true ∧ rtc (stepIn g P) r a in
  (∀ a b, (a, b) ∈ Backedges → reached a ∧ stepIn g P a b ∧ rtc (stepIn g P) b a) ∧
  (∀ a, reached a → ¬ tc (λ a b, stepIn g P a b ∧ (a, b) ∉ Backedges) a a) ∧
  (Backedges = [] ↔ ∀ a, reached a → ¬ tc (stepIn g P) a a).
Proof using All.
  intros P B reached. assert (∀ a, reached a ↔ visited g r P a) as Hreach by (intros a; unfold reached; by rewrite df_visited).
  assert (∀ a b, (a, b) ∈ B → reached a ∧ stepIn g P a b ∧ rtc (stepIn g P) b a) as HB.
  { intros a b (i & s & Hi & Hab & Hb)%elem_of_getBackedgesImpl. split; [apply Hreach; by exists i, s|].
    split; [|by eapply df_path]. split; [done|]. apply list_elem_of_split in Hb as (up & t & Heq).
    destruct (df_stack g r P i (a :: s) up b t Hi Heq) as (j & _ & Hj & _). by eapply df_valid. }
  split_and!; [done| |].
  - intros a Ha%Hreach. by apply no_cycle_without_backedges.
  - split.
    + intros Hnil a Ha%Hreach Hc. apply (no_cycle_without_backedges F g r Set_ a Ha). revert Hc. apply (tc_congruence id).
      intros x y Hxy. split; [done|]. fold B. rewrite Hnil. apply not_elem_of_nil.
    + intros Hno. apply elem_of_nil_inv. intros [a b] Hab. destruct (HB a b Hab) as (Ha & Hst & Hba).
      apply (Hno a Ha). eapply tc_rtc_r; [by apply tc_once|done].
Qed.
End backedges.

(** ** Entry points *)

Section entries.
  Context {A : Type} `{Countable A} `{!LLVMGraphWalks A}.
  Implicit Types (g gi : gmap A (list A)) (V : gset A).

Definition withoutPredecessors gi (nodes : list A) : list A := filter (λ n, succs gi n = []) nodes.

Lemma closed_reaches g V a b : closed g V → a ∈ V → reaches g a b → b ∈ V.
Proof using Type. intros HV Ha Hr%reaches_edge. induction Hr as [|x y z Hxy _ IH]; [done|]. by apply IH, (HV x y). Qed.

Lemma reaches_outside g V a b : closed g V → a ∉ V → reaches g a b → b ∈ V ∨ rtc (stepOutside g V) a b.
Proof using Type.
  intros HV Ha. revert b. apply rtc_ind_r; [by right|]. intros y z _ [Hyz _] [Hy|Hy]; [left; by apply (HV y z)|].
  destruct (decide (z ∈ V)); [by left|right]. eapply rtc_r; [exact Hy|]. done.
Qed.

Lemma post_order_closed g V n a :
  closed g V → a ∈ V ∪ list_to_set (post_order_ext g n V) ↔ a ∈ V ∨ reaches g n a.
Proof using All.
  intros HV. rewrite elem_of_union, elem_of_list_to_set. destruct (decide (n ∈ V)) as [Hn|Hn].
  - rewrite po_visited by done. split; [intros [?|?%elem_of_nil]; [by left|done]|]. intros [?|Hr]; [by left|left].
    by apply (closed_reaches g V n).
  - rewrite po_elem by done. split; [|intros [?|Hr]; [by left|by apply reaches_outside]].
    intros [?|Hr]; [by left|right]. revert Hr. apply rtc_subrel. by intros x y [? _].
Qed.

Lemma visitWithoutPredecessors_spec g gi nodes R V :
  closed g V →
  ∃ V', foldl (visitWithoutPredecessors g gi) (R, V) nodes = (R ++ withoutPredecessors gi nodes, V') ∧
    (∀ a, a ∈ V' ↔ a ∈ V ∨ ∃ n, n ∈ withoutPredecessors gi nodes ∧ reaches g n a).
Proof using All.
  revert R V. induction nodes as [|n nodes IH]; intros R V HV.
  { exists V. split; [by rewrite app_nil_r|]. intros a. split; [by left|]. intros [?|(n & Hn%elem_of_nil & _)]; done. }
  cbn [foldl]. unfold withoutPredecessors. rewrite filter_cons. fold (withoutPredecessors gi nodes).
  unfold visitWithoutPredecessors at 2. destruct (succs gi n) as [|p l] eqn:Hn.
  - destruct (IH (R ++ [n]) (V ∪ list_to_set (post_order_ext g n V))) as (V' & -> & Hel).
    { intros a b Ha Hab. apply post_order_closed; [done|]. apply post_order_closed in Ha as [Ha|Ha]; [left; by apply (HV a)|right|done].
      eapply rtc_r; [exact Ha|]. done. }
    exists V'. rewrite decide_True by done. split; [by rewrite <- app_assoc|]. intros a. rewrite Hel, post_order_closed by done.
    setoid_rewrite elem_of_cons. naive_solver.
  - destruct (IH R V HV) as (V' & -> & Hel). exists V'. rewrite decide_False by done. done.
Qed.

Lemma visitFirstSCC_visited g gi nodes R V :
  (∀ n, n ∈ nodes → n ∈ V) → foldl (visitFirstSCC g gi) (R, V) nodes = (R, V).
Proof using Type.
  induction nodes as [|n nodes IH]; intros Hn; [done|]. cbn [foldl]. unfold visitFirstSCC at 2.
  rewrite decide_True by (apply Hn; by left). apply IH. intros m Hm. apply Hn. by right.
Qed.

(** C18: The entry points of a graph without loops: exactly the nodes without predecessors, in their order, and every node can be reached from one of them. *)
Theorem entry_points_acyclic g gi nodes :
  acyclic g → (∀ a b, a ∈ succs gi b ↔ b ∈ succs g a) → (∀ n, n ∈ nodes ↔ n ∈ dom g) →
  entryPoints g gi nodes = withoutPredecessors gi nodes ∧
  ∀ n, n ∈ nodes → ∃ e, e ∈ entryPoints g gi nodes ∧ reaches g e n.
Proof using All.
  intros Hg Hgi Hnodes. destruct (visitWithoutPredecessors_spec g gi nodes [] ∅) as (V & Hrun & HV).
  { intros a b ?%elem_of_empty. done. }
  assert (∀ n, n ∈ nodes → n ∈ V) as Hall.
  { intros n Hn%Hnodes. apply (roots_reach_all g V (λ n, succs gi n = [])); [done| | | |done].
    - intros a b Ha Hab. apply HV. apply HV in Ha as [Ha%elem_of_empty|(m & Hm & Hma)]; [done|right].
      exists m. split; [done|]. eapply rtc_r; [exact Hma|done].
    - intros a _ Ha. destruct (succs gi a) as [|b l] eqn:Hb; [done|]. exists b. apply Hgi. rewrite Hb. by left.
    - intros a Ha Had%Hnodes. apply HV. right. exists a. split; [by apply list_elem_of_filter|done]. }
  unfold entryPoints. rewrite Hrun, visitFirstSCC_visited by done. cbn [fst app]. split; [done|].
  intros n Hn%Hall%HV. destruct Hn as [?%elem_of_empty|?]; done.
Qed.

(** What is elected has no predecessors, or is in a component that is not left and has no
    predecessors either. *)
Lemma elected g gi nodes e :
  e ∈ entryPoints g gi nodes → succs gi e = [] ∨ ∃ n C Cs, scc_iterator g n = C :: Cs ∧ e ∈ C.
Proof using Type.
  unfold entryPoints. assert (∀ s, (∀ x, x ∈ s.1 → succs gi x = [] ∨ ∃ n C Cs, scc_iterator g n = C :: Cs ∧ x ∈ C) →
    ∀ x, x ∈ (foldl (visitFirstSCC g gi) s nodes).1 → succs gi x = [] ∨ ∃ n C Cs, scc_iterator g n = C :: Cs ∧ x ∈ C) as Hsecond.
  { induction nodes as [|n nodes IH]; intros [R V] Hs; [done|]. cbn [foldl]. apply IH. unfold visitFirstSCC.
    case_decide; [done|]. destruct (scc_iterator g n) as [|[|c C] Cs] eqn:Hn; [done|done|]. case_decide; [done|].
    destruct (existsb _ _); [done|]. intros x [Hx|Hx%list_elem_of_singleton]%elem_of_app; [by apply Hs|].
    subst x. right. exists n, (c :: C), Cs. split; [done|by left]. }
  apply Hsecond. clear Hsecond. assert (∀ s, (∀ x, x ∈ s.1 → succs gi x = []) →
    ∀ x, x ∈ (foldl (visitWithoutPredecessors g gi) s nodes).1 → succs gi x = []) as Hfirst.
  { induction nodes as [|n nodes IH]; intros [R V] Hs; [done|]. cbn [foldl]. apply IH. unfold visitWithoutPredecessors.
    destruct (succs gi n) eqn:Hn; [|done]. intros x [Hx|Hx%list_elem_of_singleton]%elem_of_app; [by apply Hs|by subst x]. }
  intros x Hx. left. revert x Hx. apply Hfirst. by intros x ?%elem_of_nil.
Qed.

(** Nothing leaves the first component. *)
Lemma first_component_closed g n C Cs a b : scc_iterator g n = C :: Cs → a ∈ C → reaches g a b → b ∈ C.
Proof using Type.
  intros HC Ha Hab%reaches_edge. induction Hab as [|x y z Hxy _ IH]; [done|]. apply IH.
  destruct (scc_order g n [] C Cs x y HC Ha Hxy) as [?|?%elem_of_nil]; done.
Qed.

(** C28: The entry points that are missed. In any graph, take a node on a loop that can be left, to a node from which there is no way back, and that is entered from nowhere else: all that leads to the node can be reached from it. Then the node cannot be reached from any of the entry points, since the first component that LLVM gives from a node of the loop is one after it. *)
Theorem entry_points_missed g gi nodes a b :
  (∀ x y, x ∈ succs gi y ↔ y ∈ succs g x) → tc (edge g) a a → reaches g a b → ¬ reaches g b a →
  (∀ x, reaches g x a → reaches g a x) → ∀ e, e ∈ entryPoints g gi nodes → ¬ reaches g e a.
Proof using Type.
  intros Hgi Hloop Hab Hba Honly e He Hea. apply elected in He as [He|(n & C & Cs & HC & He)].
  - assert (tc (edge g) a e) as (z & Hz%Hgi)%tc_last by (eapply tc_rtc_r; [exact Hloop|by apply reaches_edge, Honly]).
    rewrite He in Hz. by apply elem_of_nil in Hz.
  - apply Hba. pose proof (first_component_closed g n C Cs e a HC He Hea) as Ha.
    pose proof (first_component_closed g n C Cs a b HC Ha Hab) as Hb. apply (scc_mutual g n C b a); [rewrite HC; by left|done|done].
Qed.

End entries.

(** ** Checks by evaluation *)

Section checkers.
  Context {A : Type} `{Countable A}.
  Implicit Types (g gi : gmap A (list A)).

Definition edgesIn g gi : bool := forallb (λ x : A * list A, forallb (λ b, bool_decide (x.1 ∈ succs gi b)) x.2) (map_to_list g).

Lemma edgesIn_spec g gi : edgesIn g gi = true → ∀ a b, b ∈ succs g a → a ∈ succs gi b.
Proof.
  unfold edgesIn. rewrite forallb_forall. intros Hall a b Hb. unfold succs in Hb. destruct (g !! a) as [l|] eqn:Hl; [|by apply elem_of_nil in Hb].
  specialize (Hall (a, l)). rewrite <- list_elem_of_In, elem_of_map_to_list, forallb_forall in Hall.
  specialize (Hall Hl b). rewrite <- list_elem_of_In in Hall.
  specialize (Hall Hb). by apply bool_decide_eq_true in Hall.
Qed.

Lemma inverse_checked g gi : edgesIn g gi = true → edgesIn gi g = true → ∀ a b, a ∈ succs gi b ↔ b ∈ succs g a.
Proof. intros H1 H2 a b. split; [by apply edgesIn_spec|by apply edgesIn_spec]. Qed.
End checkers.

(** ** Examples *)

(** A loop of two nodes that leaves it to a third. *)
Definition loopWithExit : gmap nat (list nat) := {[0 := [1]; 1 := [0; 2]; 2 := []]}.
Definition loopWithExitInverse : gmap nat (list nat) := {[0 := [1]; 1 := [0]; 2 := [1]]}.

Lemma nodes_between_exact_witness :
  nodesBetween loopWithExit loopWithExitInverse 0 2 = Ok [1; 2; 0] ∧
  (∃ mid, pathBetween loopWithExit 0 mid 2 ∧ 1 ∈ 0 :: mid ++ [2]).
Proof.
  split; [vm_compute; reflexivity|].
  destruct (nodes_between_exact loopWithExit loopWithExitInverse 0 2) as (l & Hl & Hel & _).
  - apply inverse_checked; vm_compute; reflexivity.
  - assert (Ok l = Ok [1; 2; 0]) as [= ->] by (rewrite <- Hl; vm_compute; reflexivity).
    apply Hel; [lia|]. left.
Defined.

Lemma entry_points_missed_witness :
  entryPoints loopWithExit loopWithExitInverse [0; 1; 2] = [] ∧
  ∀ e, e ∈ entryPoints loopWithExit loopWithExitInverse [0; 1; 2] → ¬ reaches loopWithExit e 0.
Proof.
  split; [vm_compute; reflexivity|]. apply (entry_points_missed _ _ _ 0 2).
  - apply inverse_checked; vm_compute; reflexivity.
  - apply (tc_l _ 0 1 0); [vm_compute; left|]. apply tc_once. vm_compute. left.
  - apply elem_of_reachSet. apply (bool_decide_unpack (2 ∈ reachSet loopWithExit ∅ 0)). vm_compute. exact I.
  - intros Hx%elem_of_reachSet. apply (bool_decide_pack (0 ∈ reachSet loopWithExit ∅ 2)) in Hx. vm_compute in Hx. exact Hx.
  - intros x Hx%reaches_edge. apply elem_of_reachSet. assert (x = 0 ∨ x = 1) as [->| ->].
    { remember 0 as z eqn:Hz in Hx. induction Hx as [x|x y z Hxy _ IH]; [by left|]. specialize (IH Hz).
      apply (edgesIn_spec loopWithExit loopWithExitInverse) in Hxy; [|vm_compute; reflexivity].
      destruct IH as [->| ->]; vm_compute in Hxy; apply list_elem_of_singleton in Hxy; auto. }
    + apply (bool_decide_unpack (0 ∈ reachSet loopWithExit ∅ 0)). vm_compute. exact I.
    + apply (bool_decide_unpack (1 ∈ reachSet loopWithExit ∅ 0)). vm_compute. exact I.
Defined.

(** Two branches that meet. *)
Definition diamond : gmap nat (list nat) := {[0 := [1; 2]; 1 := [3]; 2 := [3]; 3 := []; 4 := [3]]}.
Definition diamondInverse : gmap nat (list nat) := {[0 := []; 1 := [0]; 2 := [0]; 3 := [1; 2; 4]; 4 := []]}.

Lemma entry_points_acyclic_witness :
  entryPoints diamond diamondInverse [0; 1; 2; 3; 4] = [0; 4] ∧
  ∃ e, e ∈ entryPoints diamond diamondInverse [0; 1; 2; 3; 4] ∧ reaches diamond e 3.
Proof.
  split; [vm_compute; reflexivity|].
  assert (dom diamond = list_to_set [0; 1; 2; 3; 4]) as Hdom by (vm_compute; reflexivity).
  destruct (entry_points_acyclic diamond diamondInverse [0; 1; 2; 3; 4]) as [_ Hr].
  - apply (isDAG_spec diamond [0; 1; 2; 3; 4]); [|vm_compute; reflexivity].
    intros a. rewrite Hdom. apply elem_of_list_to_set.
  - apply inverse_checked; vm_compute; reflexivity.
  - intros n. rewrite Hdom. symmetry. apply elem_of_list_to_set.
  - apply Hr. right. right. right. left.
Defined.
