(* ===== verification/GraphPreparation.v ===== *)
(** * The graph that is laid out

    The internal graph of the layout of graphs (include/revng/GraphLayout/SugiyamaStyle),
    and the first steps of its preparation
    (lib/GraphLayout/SugiyamaStyle/GraphPreparation.cpp): self loops are taken out, the
    graph is given a single entry, and backedges are turned. *)

From S2P Require Import Prelude Reachability DepthFirst GraphAlgorithms.
From stdpp Require Import gmap list relations sorting.

(** ** Definitions *)

(** The path of an edge, and whether it is routed, are for later. *)
(* include/revng/GraphLayout/SugiyamaStyle/InternalGraph.h:42-51 InternalEdge *)
Record InternalEdge := mkEdge { EdgeIndex : nat; IsBackwards : bool }.

Notation NodeIndex := nat.
Notation Link := (NodeIndex * InternalEdge)%type.

(** A node is its index; its position and size are for later. The predecessors of a node
    are the other halves of the edges. *)
(* include/revng/GraphLayout/SugiyamaStyle/InternalGraph.h:19-40 InternalNode *)
Record InternalNode := mkNode { IsVirtual : bool; Successors : list Link }.

(* include/revng/GraphLayout/SugiyamaStyle/InternalGraph.h:113-119 InternalGraph *)
Record InternalGraph := mkGraph {
  Order : list NodeIndex;
  Nodes : gmap NodeIndex InternalNode;
  EntryNode : option NodeIndex;
  NodeIndexCounter : nat;
  EdgeIndexCounter : nat;
}.

Definition successorsOf (G : InternalGraph) : gmap NodeIndex (list NodeIndex) := (λ N, (Successors N).*1) <$> Nodes G.

Definition predecessorsOf (G : InternalGraph) : gmap NodeIndex (list NodeIndex) :=
  map_imap (λ n _, Some (filter (λ m, n ∈ succs (successorsOf G) m) (Order G))) (Nodes G).

Definition withNodes (f : gmap NodeIndex InternalNode → gmap NodeIndex InternalNode) (G : InternalGraph) : InternalGraph :=
  mkGraph (Order G) (f (Nodes G)) (EntryNode G) (NodeIndexCounter G) (EdgeIndexCounter G).

Definition withSuccessors (f : list Link → list Link) (N : InternalNode) : InternalNode := mkNode (IsVirtual N) (f (Successors N)).

(* include/revng/ADT/GenericGraph.h:1290-1290 setEntryNode *)
Definition setEntryNode (n : NodeIndex) (G : InternalGraph) : InternalGraph :=
  mkGraph (Order G) (Nodes G) (Some n) (NodeIndexCounter G) (EdgeIndexCounter G).

(* include/revng/GraphLayout/SugiyamaStyle/InternalGraph.h:219-221 makeVirtualNode *)
Definition makeVirtualNode (G : InternalGraph) : NodeIndex * InternalGraph :=
  let n := NodeIndexCounter G in
  (n, mkGraph (Order G ++ [n]) (<[n := mkNode true []]> (Nodes G)) (EntryNode G) (S n) (EdgeIndexCounter G)).

(* include/revng/GraphLayout/SugiyamaStyle/InternalGraph.h:222-224 makeEdge *)
Definition makeEdge (From To : NodeIndex) (G : InternalGraph) : InternalGraph :=
  mkGraph (Order G) (alter (withSuccessors (λ l, l ++ [(To, mkEdge (EdgeIndexCounter G) false)])) From (Nodes G))
    (EntryNode G) (NodeIndexCounter G) (S (EdgeIndexCounter G)).

(** A node is disconnected before it is removed. *)
(* include/revng/ADT/GenericGraph.h:1412-1418 removeNode *)
Definition removeNode (n : NodeIndex) (G : InternalGraph) : InternalGraph :=
  mkGraph (filter (λ m, m ≠ n) (Order G)) (withSuccessors (filter (λ l, l.1 ≠ n)) <$> delete n (Nodes G))
    (EntryNode G) (NodeIndexCounter G) (EdgeIndexCounter G).

(** The last edge takes the place of the one that is removed. *)
(* include/revng/ADT/GenericGraph.h:1105-1108 removeSuccessorImpl *)
Definition swapRemove {B} (i : nat) (l : list B) : list B :=
  match last l with Some x => take (length l - 1) (<[i := x]> l) | None => [] end.

(** The loops over the edges of a node that remove those that are in [P]: what they take,
    and what they leave. The iterator stays where it is when an edge is removed. *)
(* lib/GraphLayout/SugiyamaStyle/GraphPreparation.cpp:25-33 extractSelfLoops *)
Fixpoint extractEdges {B} (P : B → bool) (fuel i : nat) (l : list B) : list B * list B :=
  match fuel, l !! i with
  | S fuel, Some x =>
    if P x then let (taken, left) := extractEdges P fuel i (swapRemove i l) in (x :: taken, left)
    else extractEdges P fuel (S i) l
  | _, _ => ([], l)
  end.

Definition extract {B} (P : B → bool) (l : list B) : list B * list B := extractEdges P (length l) 0 l.

(* lib/GraphLayout/SugiyamaStyle/GraphPreparation.cpp:24-34 extractSelfLoops *)
Definition extractSelfLoopsOf (n : NodeIndex) (s : list Link * InternalGraph) : list Link * InternalGraph :=
  let (Result, G) := s in
  match Nodes G !! n with
  | Some N =>
    let (taken, left) := extract (λ l, bool_decide (l.1 = n)) (Successors N) in
    (Result ++ taken, withNodes <[n := mkNode (IsVirtual N) left]> G)
  | None => s
  end.

(* lib/GraphLayout/SugiyamaStyle/GraphPreparation.cpp:20-38 extractSelfLoops *)
Definition extractSelfLoops (G : InternalGraph) : list Link * InternalGraph :=
  foldl (λ s n, extractSelfLoopsOf n s) ([], G) (Order G).

Section preparation.
  Context `{!LLVMGraphWalks NodeIndex, !LLVMDepthFirst NodeIndex}.

(* lib/GraphLayout/SugiyamaStyle/GraphPreparation.cpp:54-62 ensureSingleEntry *)
Definition removeVirtualEntry (G : InternalGraph) : InternalGraph :=
  match EntryNode G with
  | Some e =>
    match Nodes G !! e with
    | Some N => if IsVirtual N then removeNode e G else G
    | None => G
    end
  | None => G
  end.

(** The ranks, from which a virtual entry is erased, are left out. *)
(* lib/GraphLayout/SugiyamaStyle/GraphPreparation.cpp:45-71 ensureSingleEntry *)
Definition ensureSingleEntry (G : InternalGraph) : outcome InternalGraph :=
  match entryPoints (successorsOf G) (predecessorsOf G) (Order G) with
  | [] => Fault AssertionFailed
  | [n] => Ok (setEntryNode n G)
  | _ =>
    let (EntryPoint, G) := makeVirtualNode (removeVirtualEntry G) in
    let Entries := filter (λ n, succs (predecessorsOf G) n = [] ∧ n ≠ EntryPoint) (Order G) in
    Ok (setEntryNode EntryPoint (foldl (λ G n, makeEdge EntryPoint n G) G Entries))
  end.

(* lib/GraphLayout/SugiyamaStyle/GraphPreparation.cpp:84-85 convertToDAG *)
Definition flipEdge (e : InternalEdge) : InternalEdge := mkEdge (EdgeIndex e) (negb (IsBackwards e)).

(** Turning an edge from a node to itself adds it to the edges that are being visited. *)
(* lib/GraphLayout/SugiyamaStyle/GraphPreparation.cpp:79-92 convertToDAG *)
Definition flipBackedge (B : NodeIndex * NodeIndex) (G : InternalGraph) : outcome InternalGraph :=
  let (From, To) := B in
  match Nodes G !! From with
  | Some N =>
    let (taken, left) := extract (λ l, bool_decide (l.1 = To)) (Successors N) in
    if decide (From = To) then undefined else
    Ok (withNodes (λ m, alter (withSuccessors (λ l, l ++ ((λ l : Link, (From, flipEdge l.2)) <$> taken))) To
                          (<[From := mkNode (IsVirtual N) left]> m)) G)
  | None => undefined
  end.

(* lib/GraphLayout/SugiyamaStyle/GraphPreparation.cpp:76-96 convertToDAG *)
Definition convertToDAG (G : InternalGraph) : outcome InternalGraph :=
  G ← ensureSingleEntry G;
  match EntryNode G with
  | None => undefined
  | Some e =>
    G ← forEachM flipBackedge (getBackedges (successorsOf G) e) G;
    revng_assert (bool_decide (getBackedges (successorsOf G) e = []));;
    Ok G
  end.

End preparation.

(** ** Edges *)

(** An edge, by its source and the two halves that [Successors] has. *)
Definition hasLink (G : InternalGraph) (a : NodeIndex) (l : Link) : Prop := ∃ N, Nodes G !! a = Some N ∧ l ∈ Successors N.

(** Edges are between nodes of the graph, which are in order, and whose indexes were
    given. *)
Record graph_ok (G : InternalGraph) : Prop := {
  go_order n : n ∈ Order G ↔ is_Some (Nodes G !! n);
  go_target a b x : hasLink G a (b, x) → is_Some (Nodes G !! b);
  go_index n : is_Some (Nodes G !! n) → n < NodeIndexCounter G;
}.

Lemma successors_edge G a b : edge (successorsOf G) a b ↔ ∃ x, hasLink G a (b, x).
Proof.
  unfold edge, succs, successorsOf, hasLink. rewrite lookup_fmap. destruct (Nodes G !! a) as [N|]; cbn.
  - rewrite list_elem_of_fmap. split; [intros ([c x] & -> & Hx); by exists x, N|].
    intros (x & M & [= <-] & Hx). by exists (b, x).
  - split; [by intros ?%elem_of_nil|]. by intros (x & N & ? & _).
Qed.

Lemma swapRemove_perm {B} i (l : list B) x : l !! i = Some x → x :: swapRemove i l ≡ₚ l.
Proof.
  intros Hi. destruct l as [|z l _] using rev_ind; [done|]. unfold swapRemove. rewrite last_snoc, length_app. cbn [length].
  replace (length l + 1 - 1) with (length l) by lia. destruct (decide (i = length l)) as [->|Hne].
  - rewrite lookup_app_r, Nat.sub_diag in Hi by lia. injection Hi as ->.
    rewrite insert_app_r_alt, take_app_length by lia. by rewrite Permutation_cons_append.
  - apply lookup_lt_Some in Hi as Hlt. rewrite length_app in Hlt. cbn in Hlt. rewrite lookup_app_l in Hi by lia.
    rewrite insert_app_l by lia. rewrite take_app_length' by by rewrite length_insert.
    apply list_elem_of_split_length in Hi as (l1 & l2 & -> & ->). rewrite insert_app_r_alt, Nat.sub_diag by lia. cbn.
    rewrite <- app_assoc. cbn. solve_Permutation.
Qed.

Lemma length_swapRemove {B} i (l : list B) x : l !! i = Some x → S (length (swapRemove i l)) = length l.
Proof. intros Hi. by rewrite <- (Permutation_length (swapRemove_perm i l x Hi)). Qed.

Lemma extractEdges_spec {B} (P : B → bool) fuel i l taken left :
  length l - i ≤ fuel → (∀ x, x ∈ take i l → P x = false) → extractEdges P fuel i l = (taken, left) →
  taken ++ left ≡ₚ l ∧ (∀ x, x ∈ taken → P x = true) ∧ (∀ x, x ∈ left → P x = false).
Proof.
  revert i l taken. induction fuel as [|fuel IH]; intros i l taken Hf Hi Hrun.
  { injection Hrun as <- <-. rewrite take_ge in Hi by lia. split; [done|]. split; [by intros x ?%elem_of_nil|done]. }
  cbn [extractEdges] in Hrun. destruct (l !! i) as [x|] eqn:Hx.
  - destruct (P x) eqn:HP.
    + destruct (extractEdges P fuel i (swapRemove i l)) as [t lf] eqn:Hrec. injection Hrun as <- <-.
      pose proof (length_swapRemove i l x Hx) as Hlen.
      destruct (IH i (swapRemove i l) t) as (Hp & Ht & Hl); [lia| |done|].
      * intros y Hy. apply Hi. apply lookup_lt_Some in Hx. destruct (last l) as [z|] eqn:Hz; [|apply last_None in Hz; by subst].
        unfold swapRemove in Hy. rewrite Hz, take_take, take_insert, Nat.min_l, decide_False in Hy by lia. done.
      * split; [|split; [|done]]; [|intros y [->|Hy]%elem_of_cons; [done|by apply Ht]].
        cbn. rewrite Hp. by apply swapRemove_perm.
    + apply (IH (S i) l taken); [lia| |done]. intros y Hy. rewrite (take_S_r _ _ _ Hx) in Hy.
      apply elem_of_app in Hy as [Hy|Hy%list_elem_of_singleton]; [by apply Hi|by subst].
  - injection Hrun as <- <-. rewrite take_ge in Hi by by apply lookup_ge_None. split; [done|]. split; [by intros y ?%elem_of_nil|done].
Qed.

Lemma extract_spec {B} (P : B → bool) l taken left x :
  extract P l = (taken, left) → (x ∈ taken ↔ x ∈ l ∧ P x = true) ∧ (x ∈ left ↔ x ∈ l ∧ P x = false).
Proof.
  intros He. destruct (extractEdges_spec P (length l) 0 l taken left) as (Hp & Ht & Hl); [lia| |done|].
  { by intros y ?%elem_of_nil. }
  specialize (Ht x). specialize (Hl x). rewrite <- Hp, elem_of_app. destruct (P x); intuition congruence.
Qed.

(** *** Self loops *)

Lemma extractSelfLoopsOf_link n R G a l :
  hasLink (extractSelfLoopsOf n (R, G)).2 a l ↔ hasLink G a l ∧ ¬ (a = n ∧ l.1 = n).
Proof.
  unfold extractSelfLoopsOf. destruct (Nodes G !! n) as [N|] eqn:HN.
  - destruct (extract _ (Successors N)) as [taken left] eqn:He. cbn [snd]. unfold hasLink. cbn [Nodes withNodes].
    destruct (decide (a = n)) as [->|Hne].
    + rewrite lookup_insert_eq. split.
      * intros (M & [= <-] & Hl). apply (extract_spec _ _ _ _ l He) in Hl as [Hl Hno%bool_decide_eq_false]. split; [by exists N|tauto].
      * intros [(M & HM & Hl) Hno]. rewrite HN in HM. injection HM as <-. eexists. split; [done|].
        apply (extract_spec _ _ _ _ l He). split; [done|]. apply bool_decide_eq_false. tauto.
    + rewrite lookup_insert_ne by done. naive_solver.
  - cbn [snd]. split; [|by intros [? _]]. intros Hl. split; [done|]. intros [-> _]. destruct Hl as (N & HN' & _). congruence.
Qed.

Lemma extractSelfLoopsOf_node n R G m : is_Some (Nodes (extractSelfLoopsOf n (R, G)).2 !! m) ↔ is_Some (Nodes G !! m).
Proof.
  unfold extractSelfLoopsOf. destruct (Nodes G !! n) as [N|] eqn:HN; [|done]. destruct (extract _ _) as [taken left]. cbn.
  destruct (decide (m = n)) as [->|]; [rewrite lookup_insert_eq, HN|by rewrite lookup_insert_ne]. split; by eexists.
Qed.

Lemma extractSelfLoopsOf_loops n R G l :
  l ∈ (extractSelfLoopsOf n (R, G)).1 ↔ l ∈ R ∨ l.1 = n ∧ hasLink G n l.
Proof.
  unfold extractSelfLoopsOf, hasLink. destruct (Nodes G !! n) as [N|] eqn:HN; [|naive_solver].
  destruct (extract _ (Successors N)) as [taken left] eqn:He. cbn. rewrite elem_of_app.
  rewrite (proj1 (extract_spec _ _ _ _ l He)), bool_decide_eq_true. naive_solver.
Qed.

Lemma extractSelfLoops_spec G R :
  graph_ok G → (extractSelfLoops G) = (R, (extractSelfLoops G).2) →
  graph_ok (extractSelfLoops G).2 ∧ (∀ a l, hasLink (extractSelfLoops G).2 a l ↔ hasLink G a l ∧ l.1 ≠ a) ∧
  (∀ l, l ∈ R ↔ hasLink G l.1 l).
Proof.
  intros [Ho Ht Hi] HR. assert (∀ ns R0 G0, ∃ R1 G1, foldl (λ s n, extractSelfLoopsOf n s) (R0, G0) ns = (R1, G1) ∧
    Order G1 = Order G0 ∧ NodeIndexCounter G1 = NodeIndexCounter G0 ∧
    (∀ m, is_Some (Nodes G1 !! m) ↔ is_Some (Nodes G0 !! m)) ∧
    (∀ a l, hasLink G1 a l ↔ hasLink G0 a l ∧ ¬ (a ∈ ns ∧ l.1 = a)) ∧
    (∀ l, l ∈ R1 ↔ l ∈ R0 ∨ l.1 ∈ ns ∧ hasLink G0 l.1 l)) as Hloop.
  { induction ns as [|n ns IH]; intros R0 G0.
    { exists R0, G0. split_and!; [done|done|done|done| |]; intros *; rewrite elem_of_nil; tauto. }
    cbn [foldl]. destruct (extractSelfLoopsOf n (R0, G0)) as [R1 G1] eqn:H1. destruct (IH R1 G1) as (R2 & G2 & H2 & HO2 & HC2 & HN2 & HL2 & HR2).
    exists R2, G2. pose proof (extractSelfLoopsOf_link n R0 G0) as HL1. pose proof (extractSelfLoopsOf_node n R0 G0) as HN1.
    pose proof (extractSelfLoopsOf_loops n R0 G0) as HR1. rewrite H1 in HL1, HN1, HR1. cbn [fst snd] in *.
    assert (Order G1 = Order G0 ∧ NodeIndexCounter G1 = NodeIndexCounter G0) as [HO1 HC1].
    { unfold extractSelfLoopsOf in H1. destruct (Nodes G0 !! n); [|by injection H1 as _ <-]. destruct (extract _ _). by injection H1 as _ <-. }
    split_and!; [done|congruence|congruence|..].
    - intros m. by rewrite HN2, HN1.
    - intros a l. rewrite HL2, HL1, elem_of_cons. naive_solver.
    - intros l. rewrite HR2, HR1, HL1, elem_of_cons. destruct (decide (l.1 = n)) as [<-|]; [tauto|naive_solver]. }
  unfold extractSelfLoops in *. destruct (Hloop (Order G) [] G) as (R1 & G1 & H1 & HO & HC & HN & HL & HRs). rewrite H1 in *.
  injection HR as <-. cbn [snd]. assert (∀ a l, hasLink G1 a l ↔ hasLink G a l ∧ l.1 ≠ a) as Hlinks.
  { intros a l. rewrite HL. split; [|tauto]. intros [Hl Hno]. split; [done|]. intros Ha. apply Hno. split; [|done].
    destruct Hl as (N & HaN & _). apply Ho. by eexists. }
  split; [|split; [done|]].
  - split; [intros n; by rewrite HO, HN|intros a b x [Hl _]%Hlinks; by apply HN, (Ht a b x)|intros n; rewrite HN, HC; apply Hi].
  - intros l. rewrite HRs. split; [by intros [?%elem_of_nil|[_ ?]]|]. intros Hl. right. split; [|done].
    destruct Hl as (N & HN' & _). apply Ho. by eexists.
Qed.

(** *** A single entry *)

Definition noSelfLoops (G : InternalGraph) : Prop := ∀ a x, ¬ hasLink G a (a, x).

Lemma removeNode_link G n a l : hasLink (removeNode n G) a l ↔ hasLink G a l ∧ a ≠ n ∧ l.1 ≠ n.
Proof.
  unfold hasLink, removeNode. cbn. rewrite lookup_fmap. destruct (decide (a = n)) as [->|Hne].
  - rewrite lookup_delete_eq. naive_solver.
  - rewrite lookup_delete_ne by done. destruct (Nodes G !! a) as [N|]; cbn; [|naive_solver]. split.
    + intros (M & [= <-] & [Hl ?]%list_elem_of_filter). split_and!; [by exists N|done|done].
    + intros ((M & [= <-] & Hl) & _ & ?). eexists. split; [done|]. by apply list_elem_of_filter.
Qed.

Lemma removedNode_ok G n : graph_ok G → graph_ok (removeNode n G).
Proof.
  intros [Ho Ht Hi]. assert (∀ m, is_Some (Nodes (removeNode n G) !! m) ↔ is_Some (Nodes G !! m) ∧ m ≠ n) as Hn.
  { intros m. cbn. rewrite lookup_fmap, fmap_is_Some. destruct (decide (m = n)) as [->|].
    - rewrite lookup_delete_eq. split; [by intros [? ?]|by intros [_ ?]].
    - rewrite lookup_delete_ne by done. tauto. }
  split.
  - intros m. rewrite Hn. cbn [Order removeNode]. rewrite list_elem_of_filter, Ho. tauto.
  - intros a b x (Hl & _ & ?)%removeNode_link. apply Hn. split; [by apply (Ht a b x)|done].
  - intros m [Hm _]%Hn. by apply Hi.
Qed.

Lemma makeEdge_link G From To a l :
  is_Some (Nodes G !! From) →
  hasLink (makeEdge From To G) a l ↔ hasLink G a l ∨ a = From ∧ l = (To, mkEdge (EdgeIndexCounter G) false).
Proof.
  intros [N HN]. unfold hasLink, makeEdge. cbn. destruct (decide (a = From)) as [->|Hne].
  - rewrite lookup_alter_eq, HN. cbn. split.
    + intros (M & [= <-] & [Hl| ->%list_elem_of_singleton]%elem_of_app); [left; by exists N|by right].
    + intros [(M & [= <-] & Hl)|[_ ->]]; eexists; (split; [done|]); apply elem_of_app; [by left|right; by left].
  - rewrite lookup_alter_ne by done. naive_solver.
Qed.

Lemma makeEdge_ok G From To :
  graph_ok G → is_Some (Nodes G !! From) → is_Some (Nodes G !! To) → graph_ok (makeEdge From To G).
Proof.
  intros [Ho Ht Hi] HF HT. assert (∀ m, is_Some (Nodes (makeEdge From To G) !! m) ↔ is_Some (Nodes G !! m)) as Hn.
  { intros m. cbn. destruct (decide (m = From)) as [->|]; [by rewrite lookup_alter_eq, fmap_is_Some|by rewrite lookup_alter_ne]. }
  split; [intros m; by rewrite Hn, <- Ho| |intros m; rewrite Hn; apply Hi].
  intros a b x [Hl|[_ [= -> _]]]%makeEdge_link; [apply Hn; by apply (Ht a b x)|by apply Hn|done].
Qed.

Lemma makeEdges_ok G From ns :
  graph_ok G → noSelfLoops G → is_Some (Nodes G !! From) → (∀ n, n ∈ ns → n ≠ From ∧ is_Some (Nodes G !! n)) →
  graph_ok (foldl (λ G n, makeEdge From n G) G ns) ∧ noSelfLoops (foldl (λ G n, makeEdge From n G) G ns).
Proof.
  revert G. induction ns as [|n ns IH]; intros G Hok Hno HF Hns; [done|]. cbn [foldl].
  assert (∀ m, is_Some (Nodes (makeEdge From n G) !! m) ↔ is_Some (Nodes G !! m)) as Hn.
  { intros m. cbn. destruct (decide (m = From)) as [->|]; [by rewrite lookup_alter_eq, fmap_is_Some|by rewrite lookup_alter_ne]. }
  apply IH.
  - apply makeEdge_ok; [done|done|]. apply Hns. by left.
  - intros a x [Hl|[-> [= ? _]]]%makeEdge_link; [by apply (Hno a x)| |done]. destruct (Hns n) as [? _]; [by left|done].
  - by apply Hn.
  - intros m Hm. rewrite Hn. apply Hns. by right.
Qed.

Lemma makeVirtualNode_ok G :
  graph_ok G → graph_ok (makeVirtualNode G).2 ∧ (∀ a l, hasLink (makeVirtualNode G).2 a l ↔ hasLink G a l) ∧
  is_Some (Nodes (makeVirtualNode G).2 !! (makeVirtualNode G).1).
Proof.
  intros [Ho Ht Hi]. assert (Nodes G !! NodeIndexCounter G = None) as HN.
  { apply eq_None_not_Some. intros Hx%Hi. lia. }
  assert (∀ m, is_Some (Nodes (makeVirtualNode G).2 !! m) ↔ is_Some (Nodes G !! m) ∨ m = NodeIndexCounter G) as Hn.
  { intros m. cbn. destruct (decide (m = NodeIndexCounter G)) as [->|]; [rewrite lookup_insert_eq; split; [by right|by eexists]|].
    rewrite lookup_insert_ne by done. tauto. }
  assert (∀ a l, hasLink (makeVirtualNode G).2 a l ↔ hasLink G a l) as Hl.
  { intros a l. unfold hasLink. cbn. destruct (decide (a = NodeIndexCounter G)) as [->|]; [|by rewrite lookup_insert_ne].
    rewrite lookup_insert_eq, HN. split; [intros (N & [= <-] & ?%elem_of_nil); done|by intros (N & ? & _)]. }
  split; [split|split; [done|by apply Hn; right]].
  - intros m. rewrite Hn, <- Ho. cbn. by rewrite elem_of_app, list_elem_of_singleton.
  - intros a b x Hx%Hl. apply Hn. left. by apply (Ht a b x).
  - intros m [Hm%Hi|Hm]%Hn; cbn; lia.
Qed.

Section conversion.
  Context `{!LLVMGraphWalks NodeIndex, !LLVMDepthFirst NodeIndex}.

Lemma ensureSingleEntry_ok G G1 :
  graph_ok G → noSelfLoops G → ensureSingleEntry G = Ok G1 → graph_ok G1 ∧ noSelfLoops G1 ∧ is_Some (EntryNode G1).
Proof using Type.
  intros Hok Hno. unfold ensureSingleEntry. destruct (entryPoints _ _ _) as [|n [|m l]]; [done|intros [= <-]|].
  { split; [|split; [done|by eexists]]. by destruct Hok. }
  assert (graph_ok (removeVirtualEntry G) ∧ noSelfLoops (removeVirtualEntry G)) as [Hok' Hno'].
  { unfold removeVirtualEntry. destruct (EntryNode G) as [e|]; [|done]. destruct (Nodes G !! e) as [N|]; [|done].
    destruct (IsVirtual N); [|done]. split; [by apply removedNode_ok|]. intros a x (Hl & _)%removeNode_link. by apply (Hno a x). }
  destruct (makeVirtualNode (removeVirtualEntry G)) as [e G2] eqn:HG2.
  pose proof (makeVirtualNode_ok (removeVirtualEntry G) Hok') as (Hok2 & Hl2 & He). rewrite HG2 in Hok2, Hl2, He. cbn [fst snd] in *.
  intros [= <-]. destruct (makeEdges_ok G2 e (filter (λ n, succs (predecessorsOf G2) n = [] ∧ n ≠ e) (Order G2))) as [Hok3 Hno3];
    [done| |done| |].
  - intros a x Hx%Hl2. by apply (Hno' a x).
  - intros k [[_ ?] Hk%(go_order _ Hok2)]%list_elem_of_filter. done.
  - split; [by destruct Hok3|]. split; [done|by eexists].
Qed.

(** *** Turning backedges *)

Lemma flipBackedge_ok G From To :
  graph_ok G → From ≠ To → is_Some (Nodes G !! From) → is_Some (Nodes G !! To) →
  ∃ G', flipBackedge (From, To) G = Ok G' ∧ graph_ok G' ∧ EntryNode G' = EntryNode G ∧
    (∀ m, is_Some (Nodes G' !! m) ↔ is_Some (Nodes G !! m)) ∧
    ∀ a b x, hasLink G' a (b, x) ↔ hasLink G a (b, x) ∧ (a, b) ≠ (From, To) ∨
      (a, b) = (To, From) ∧ ∃ y, hasLink G From (To, y) ∧ x = flipEdge y.
Proof using Type.
  intros [Ho Ht Hi] Hne [N HN] [M HM]. unfold flipBackedge. rewrite HN.
  destruct (extract _ (Successors N)) as [taken left] eqn:He. rewrite decide_False by done. set (G' := withNodes _ G).
  assert (∀ m, is_Some (Nodes G' !! m) ↔ is_Some (Nodes G !! m)) as Hn.
  { intros m. cbn. destruct (decide (m = To)) as [->|].
    - rewrite lookup_alter_eq, fmap_is_Some, lookup_insert_ne by done. done.
    - rewrite lookup_alter_ne by done. destruct (decide (m = From)) as [->|]; [rewrite lookup_insert_eq, HN|by rewrite lookup_insert_ne].
      split; by eexists. }
  assert (∀ a b x, hasLink G' a (b, x) ↔ hasLink G a (b, x) ∧ (a, b) ≠ (From, To) ∨
      (a, b) = (To, From) ∧ ∃ y, hasLink G From (To, y) ∧ x = flipEdge y) as Hl.
  { intros a b x. unfold hasLink at 1. cbn. destruct (decide (a = To)) as [->|HaT].
    - rewrite lookup_alter_eq, lookup_insert_ne, HM by done. cbn. setoid_rewrite pair_equal_spec. split.
      + intros (K & [= <-] & [Hx|Hx]%elem_of_app); [left; split; [by exists M|]; intros [? _]; congruence|].
        apply list_elem_of_fmap in Hx as ([c y] & [= -> ->] & Hy). apply (extract_spec _ _ _ _ (c, y) He) in Hy as [Hy Hc].
        apply bool_decide_eq_true in Hc. cbn in Hc. subst c. right. split; [done|]. exists y. split; [by exists N|done].
      + intros [[(K & HK & Hx) _]|([_ ->] & y & (K & HK & Hy) & ->)].
        * rewrite HM in HK. injection HK as <-. eexists. split; [done|]. apply elem_of_app. by left.
        * rewrite HN in HK. injection HK as <-. eexists. split; [done|]. apply elem_of_app. right.
          apply list_elem_of_fmap. exists (To, y). split; [done|]. apply (extract_spec _ _ _ _ (To, y) He). split; [done|by apply bool_decide_eq_true].
    - rewrite lookup_alter_ne by done. destruct (decide (a = From)) as [->|HaF].
      + rewrite lookup_insert_eq. setoid_rewrite pair_equal_spec. split.
        * intros (K & [= <-] & Hx). apply (extract_spec _ _ _ _ (b, x) He) in Hx as [Hx Hb%bool_decide_eq_false]. left.
          split; [by exists N|]. by intros [_ ->].
        * intros [[(K & HK & Hx) Hb]|[[? _] _]]; [|done]. rewrite HN in HK. injection HK as <-. eexists. split; [done|].
          apply (extract_spec _ _ _ _ (b, x) He). split; [done|]. apply bool_decide_eq_false. cbn. intros ->. by apply Hb.
      + rewrite lookup_insert_ne by done. fold (hasLink G a (b, x)). setoid_rewrite pair_equal_spec. naive_solver. }
  exists G'. split; [done|]. split; [split|done].
  - intros m. by rewrite Hn, <- Ho.
  - intros a b x [[Hx _]|([= -> ->] & _)]%Hl; apply Hn; [by apply (Ht a b x)|by eexists].
  - intros m. rewrite Hn. apply Hi.
Qed.

Lemma flipBackedges_ok G Bs :
  graph_ok G → NoDup Bs → (∀ a b, (a, b) ∈ Bs → a ≠ b ∧ (b, a) ∉ Bs ∧ is_Some (Nodes G !! a) ∧ is_Some (Nodes G !! b)) →
  ∃ G', forEachM flipBackedge Bs G = Ok G' ∧ EntryNode G' = EntryNode G ∧
    ∀ a b x, hasLink G' a (b, x) ↔ hasLink G a (b, x) ∧ (a, b) ∉ Bs ∨ (b, a) ∈ Bs ∧ ∃ y, hasLink G b (a, y) ∧ x = flipEdge y.
Proof using Type.
  revert G. induction Bs as [|[f t] Bs IH]; intros G Hok Hnd HBs.
  { exists G. split_and!; [done|done|]. intros a b x. rewrite !elem_of_nil. tauto. }
  apply NoDup_cons in Hnd as [Hft Hnd]. destruct (HBs f t) as (Hne & Hno & Hf & Ht); [by left|].
  destruct (flipBackedge_ok G f t) as (G1 & H1 & Hok1 & He1 & Hn1 & Hl1); [done..|]. cbn [forEachM]. rewrite H1, bind_ok.
  destruct (IH G1) as (G2 & H2 & He2 & Hl2); [done|done| |].
  { intros a b Hab. destruct (HBs a b) as (? & Hba & ? & ?); [by right|]. rewrite !Hn1. split_and!; [done| |done|done].
    intros Hin. apply Hba. by right. }
  exists G2. split; [done|]. split; [congruence|]. intros a b x. rewrite Hl2.
  assert ((t, f) ∉ Bs) as Htf by (intros Hin; apply Hno; by right). setoid_rewrite Hl1. rewrite !elem_of_cons. split.
  - intros [[[[Hx Hne1]|([= -> ->] & y & Hy & ->)] Hab]|(Hba & y & [[Hy Hne1]|([= -> ->] & _)] & ->)].
    + left. split; [done|]. by intros [?|?].
    + right. split; [by left|]. by exists y.
    + right. split; [by right|]. by exists y.
    + done.
  - intros [[Hx Hab]|([[= -> ->]|Hba] & y & Hy & ->)].
    + left. split; [left; split; [done|]|]; tauto.
    + left. split; [|done]. right. split; [done|]. by exists y.
    + right. split; [done|]. exists y. split; [|done]. left. split; [done|]. by intros [= -> ->].
Qed.

(** *** The graph that results *)

(** Nothing is filtered out. *)
Notation everything := (isValid BlackList (∅ : gset NodeIndex)).

Lemma stepIn_everything g a b : stepIn g everything a b ↔ edge g a b.
Proof using Type. unfold stepIn, edge. split; [by intros [? _]|]. intros Hab. split; [done|]. by apply bool_decide_eq_true. Qed.

Lemma visited_everything g e a : visited g e everything a ↔ reaches g e a.
Proof using Type.
  rewrite df_visited, reaches_edge. split.
  - intros [_ Hr]. revert Hr. apply rtc_subrel. intros x y. apply stepIn_everything.
  - intros Hr. split; [by apply bool_decide_eq_true|]. revert Hr. apply rtc_subrel. intros x y. apply stepIn_everything.
Qed.

Section turned.
  Context (G1 G2 : InternalGraph) (e : NodeIndex).
  Notation B := (getBackedges (successorsOf G1) e).
  Hypothesis no_loops : noSelfLoops G1.
  Hypothesis links : ∀ a b x, hasLink G2 a (b, x) ↔
    hasLink G1 a (b, x) ∧ (a, b) ∉ B ∨ (b, a) ∈ B ∧ ∃ y, hasLink G1 b (a, y) ∧ x = flipEdge y.

(** Each edge goes forward in the order of the visit of [G1]. *)
Lemma turned_forward a b :
  reaches (successorsOf G1) e a → edge (successorsOf G2) a b →
  reaches (successorsOf G1) e b ∧ precedes (successorsOf G1) e everything a b.
Proof using no_loops links.
  intros Ha%visited_everything (x & [[Hl Hab]|(Hba & y & Hy & ->)]%links)%successors_edge.
  - destruct (not_backedge BlackList (successorsOf G1) e ∅ a b) as [Hb Hp]; [done| |done|].
    + apply stepIn_everything, successors_edge. by exists x.
    + split; [by apply visited_everything|done].
  - destruct (backedge_back BlackList _ _ _ _ _ Hba) as [->|Hp]; [by apply no_loops in Hy|]. split; [|done].
    apply elem_of_getBackedgesImpl in Hba as (i & s & Hi & _). apply visited_everything. by exists i, s.
Qed.

Lemma turned_acyclic a : reaches (successorsOf G1) e a → ¬ tc (edge (successorsOf G2)) a a.
Proof using no_loops links.
  intros Ha Hc. assert (∀ x y, tc (edge (successorsOf G2)) x y → reaches (successorsOf G1) e x →
    precedes (successorsOf G1) e everything x y) as Hall.
  { induction 1 as [x y Hxy|x y z Hxy _ IH]; intros Hx; [by apply turned_forward|].
    destruct (turned_forward x y Hx Hxy) as [Hy Hp]. eapply precedes_transitive; [exact Hp|by apply IH]. }
  by eapply precedes_irreflexive, Hall.
Qed.

Lemma turned_reaches a : reaches (successorsOf G2) e a ↔ reaches (successorsOf G1) e a.
Proof using no_loops links.
  split.
  - intros Hr%reaches_edge. revert a Hr. apply rtc_ind_r; [done|]. intros y z _ Hyz Hy. by apply (turned_forward y z).
  - intros Hr%visited_everything. apply reached_without_backedges in Hr. apply reaches_edge. revert Hr. apply rtc_subrel.
    intros x y [Hst Hno]. apply stepIn_everything, successors_edge in Hst as (l & Hl). apply successors_edge. exists l.
    apply links. by left.
Qed.

Lemma turned_no_backedges : getBackedges (successorsOf G2) e = [].
Proof using no_loops links.
  apply elem_of_nil_inv. intros [a b] Hab. pose proof Hab as (i & s & Hi & Hs & Hb)%elem_of_getBackedgesImpl.
  assert (reaches (successorsOf G2) e a) as Ha by (apply visited_everything; by exists i, s).
  apply turned_reaches in Ha. apply (turned_acyclic a Ha). eapply tc_rtc_r; [by apply tc_once|].
  pose proof (df_path _ _ _ _ _ _ _ Hi Hb) as Hp. revert Hp. apply rtc_subrel. intros x y. apply stepIn_everything.
Qed.
End turned.

(** C14: The conversion of a graph to one without loops. Once its self loops are out, if the graph is given a single entry, the conversion succeeds: what can be reached from the entry is what could be before, and has no loops, and the edges are those of the graph, but for the backedges, each of which is turned and marked as such. *)
Theorem converted_to_dag G G1 :
  graph_ok G → ensureSingleEntry (extractSelfLoops G).2 = Ok G1 →
  ∃ e G2, EntryNode G1 = Some e ∧ convertToDAG (extractSelfLoops G).2 = Ok G2 ∧
    (∀ a, reaches (successorsOf G2) e a ↔ reaches (successorsOf G1) e a) ∧
    (∀ a, reaches (successorsOf G2) e a → ¬ tc (edge (successorsOf G2)) a a) ∧
    ∀ a b x, hasLink G2 a (b, x) ↔
      hasLink G1 a (b, x) ∧ (a, b) ∉ getBackedges (successorsOf G1) e ∨
      (b, a) ∈ getBackedges (successorsOf G1) e ∧ ∃ y, hasLink G1 b (a, y) ∧ x = mkEdge (EdgeIndex y) (negb (IsBackwards y)).
Proof using All.
  intros Hok H1. destruct (extractSelfLoops G) as [R G0] eqn:H0.
  destruct (extractSelfLoops_spec G R Hok) as (Hok0 & Hl0 & _); [by rewrite H0|]. rewrite H0 in Hok0, Hl0. cbn [snd] in *.
  destruct (ensureSingleEntry_ok G0 G1 Hok0) as (Hok1 & Hno1 & [e He]); [|done|].
  { intros a x [_ Hx]%Hl0. done. }
  destruct (flipBackedges_ok G1 (getBackedges (successorsOf G1) e) Hok1) as (G2 & Hrun & He2 & Hl2); [apply NoDup_getBackedgesImpl| |].
  { intros a b Hab. assert (a ≠ b) as Hne.
    { intros <-. apply elem_of_getBackedgesImpl in Hab as (i & s & _ & (x & Hx)%successors_edge & _). by apply (Hno1 a x). }
    split; [done|]. split.
    - intros Hba. destruct (backedge_back BlackList _ _ _ _ _ Hab) as [?|Hp]; [done|].
      destruct (backedge_back BlackList _ _ _ _ _ Hba) as [?|Hp']; [done|].
      eapply precedes_irreflexive, precedes_transitive; [exact Hp|exact Hp'].
    - apply elem_of_getBackedgesImpl in Hab as (i & s & _ & (x & Hx)%successors_edge & _).
      split; [|by apply (go_target _ Hok1 a b x)]. destruct Hx as (N & HN & _). by eexists. }
  exists e, G2. split; [done|]. unfold convertToDAG. rewrite H1, bind_ok, He, Hrun, bind_ok.
  rewrite (turned_no_backedges G1 G2 e Hno1 Hl2). split; [done|]. split; [by apply turned_reaches|]. split; [|done].
  intros a Ha. apply (turned_acyclic G1 G2 e Hno1 Hl2). by apply (turned_reaches G1 G2 e Hno1 Hl2).
Qed.
End conversion.

(** ** Examples *)

(* include/revng/GraphLayout/SugiyamaStyle/InternalGraph.h:216-218 makeNode *)
Definition makeNode (G : InternalGraph) : NodeIndex * InternalGraph :=
  let n := NodeIndexCounter G in
  (n, mkGraph (Order G ++ [n]) (<[n := mkNode false []]> (Nodes G)) (EntryNode G) (S n) (EdgeIndexCounter G)).

Definition emptyGraph : InternalGraph := mkGraph [] ∅ None 0 0.

Definition graphWith (nodes : nat) (edges : list (NodeIndex * NodeIndex)) : InternalGraph :=
  foldl (λ G e, makeEdge e.1 e.2 G) (Nat.iter nodes (λ G, (makeNode G).2) emptyGraph) edges.

Definition graphOk (G : InternalGraph) : bool :=
  bool_decide (list_to_set (Order G) = dom (Nodes G)) &&
  forallb (λ n, (n <? NodeIndexCounter G) && forallb (λ b, bool_decide (b ∈ Order G)) (succs (successorsOf G) n)) (Order G).

Lemma graphOk_spec G : graphOk G = true → graph_ok G.
Proof.
  unfold graphOk. rewrite andb_true_iff, bool_decide_eq_true, forallb_forall. intros [Hd Hall].
  assert (∀ n, n ∈ Order G ↔ is_Some (Nodes G !! n)) as Ho by (intros n; by rewrite <- elem_of_dom, <- Hd, elem_of_list_to_set).
  assert (∀ n, is_Some (Nodes G !! n) → n < NodeIndexCounter G ∧ ∀ b, b ∈ succs (successorsOf G) n → b ∈ Order G) as Hn.
  { intros n Hn%Ho. apply list_elem_of_In in Hn. apply Hall in Hn. rewrite andb_true_iff, Nat.ltb_lt, forallb_forall in Hn.
    destruct Hn as [? Hb]. split; [done|]. intros b Hin%list_elem_of_In. apply Hb in Hin. by apply bool_decide_eq_true in Hin. }
  split; [done| |by intros n Hx; apply Hn]. intros a b x Hl. apply Ho. assert (edge (successorsOf G) a b) as Hab.
  { apply successors_edge. by exists x. }
  apply (Hn a); [|done]. destruct Hl as (N & HN & _). by eexists.
Qed.

(** What the edges of a graph are: their ends, and whether they are turned. *)
Definition edgesOf (G : InternalGraph) : list (NodeIndex * NodeIndex * bool) :=
  flat_map (λ n, match Nodes G !! n with Some N => (λ l : Link, (n, l.1, IsBackwards l.2)) <$> Successors N | None => [] end) (Order G).

(** A loop in a loop, and a node that is linked to itself. *)
Definition nestedLoops : InternalGraph := graphWith 4 [(0, 1); (1, 2); (2, 2); (2, 1); (2, 3); (3, 1)].

Lemma converted_to_dag_witness :
  edgesOf <$> convertToDAG (extractSelfLoops nestedLoops).2 =
    Ok [(0, 1, false); (1, 2, false); (1, 2, true); (1, 3, true); (2, 3, false)] ∧
  ∃ G1 e G2, ensureSingleEntry (extractSelfLoops nestedLoops).2 = Ok G1 ∧
    convertToDAG (extractSelfLoops nestedLoops).2 = Ok G2 ∧
    ∀ a, reaches (successorsOf G2) e a → ¬ tc (edge (successorsOf G2)) a a.
Proof.
  split; [vm_compute; reflexivity|].
  destruct (ensureSingleEntry (extractSelfLoops nestedLoops).2) as [G1|] eqn:H1; [|vm_compute in H1; discriminate].
  destruct (converted_to_dag nestedLoops G1) as (e & G2 & _ & H2 & _ & H3 & _); [apply graphOk_spec; vm_compute; reflexivity|exact H1|].
  exists G1, e, G2. exact (conj eq_refl (conj H2 H3)).
Defined.

(** A loop without predecessors, next to another node: it has an entry point, which is not
    linked to the node that is added, since it has a predecessor. *)
Fact loop_without_entry :
  edgesOf <$> convertToDAG (graphWith 3 [(1, 2); (2, 1)]) = Ok [(1, 2, false); (2, 1, false); (3, 0, false)].
Proof. vm_compute. reflexivity. Qed.
