(* ===== verification/NodeRanking.v ===== *)
(** * Ranks of nodes

    The ranks of the nodes of a graph that is laid out
    (lib/GraphLayout/SugiyamaStyle/NodeRanking.cpp): those of a visit, how they are made
    consistent with the edges, and when two branches are taken for disjoint. The ranking by
    a breadth first visit is left out. *)

From S2P Require Import Prelude Reachability DepthFirst GraphAlgorithms GraphPreparation.
From stdpp Require Import gmap list relations sorting.

(** ** Definitions *)

(** The map [Ranks] is a [RankContainer], from nodes to integers of 64 bits; [rank] is what the map gives, which adds a node that
    it does not have with rank 0. *)
Definition rank (Ranks : gmap NodeIndex Z) (n : NodeIndex) : Z := default 0%Z (Ranks !! n).

Definition touch (n : NodeIndex) (Ranks : gmap NodeIndex Z) : gmap NodeIndex Z := <[n := rank Ranks n]> Ranks.

Definition try_emplace (n : NodeIndex) (r : Z) (Ranks : gmap NodeIndex Z) : gmap NodeIndex Z :=
  match Ranks !! n with Some _ => Ranks | None => <[n := r]> Ranks end.

(* lib/GraphLayout/SugiyamaStyle/NodeRanking.cpp:20-20 RootNodeRankValue *)
Definition RootNodeRankValue : Z := 4.

(* lib/GraphLayout/SugiyamaStyle/NodeRanking.cpp:50-52 rankNodes *)
Fixpoint rankInOrder (Counter : Z) (nodes : list NodeIndex) (Ranks : gmap NodeIndex Z) : gmap NodeIndex Z :=
  match nodes with
  | [] => Ranks
  | n :: nodes => rankInOrder (Counter + 1) nodes (try_emplace n Counter Ranks)
  end.

(* lib/GraphLayout/SugiyamaStyle/NodeRanking.cpp:54-54 rankNodes *)
Definition allRanked (G : InternalGraph) (Ranks : gmap NodeIndex Z) : outcome (gmap NodeIndex Z) :=
  revng_assert (size Ranks =? length (Order G));; Ok Ranks.

(** The bound on the depth is a [size_t]; the visit of each node reads the depth of the
    node it started from. *)
(* lib/GraphLayout/SugiyamaStyle/NodeRanking.cpp:103-117 areDisjoint *)
Fixpoint jointVisit (fuel : nat) (g : gmap NodeIndex (list NodeIndex)) (Current : NodeIndex) (MaxDepth : Z)
    (Queue : list NodeIndex) (VisitedNow : gmap NodeIndex Z) : outcome (gmap NodeIndex Z) :=
  match Queue, fuel with
  | [], _ => Ok VisitedNow
  | _, O => Fault OutOfFuel
  | TopNode :: Queue, S fuel =>
    let VisitedTop := default 0%Z (VisitedNow !! Current) in
    let VisitedNow := <[Current := VisitedTop]> VisitedNow in
    if (MaxDepth <? VisitedTop)%Z then jointVisit fuel g Current MaxDepth Queue VisitedNow
    else
      let (Queue, VisitedNow) :=
        foldl (λ '(Q, V) Next, if decide (is_Some (V !! Next)) then (Q, V) else (Q ++ [Next], <[Next := (VisitedTop + 1)%Z]> V))
          (Queue, VisitedNow) (succs g TopNode) in
      jointVisit fuel g Current MaxDepth Queue VisitedNow
  end.

(** A node is in the queue once. *)
Definition jointFuel (g : gmap NodeIndex (list NodeIndex)) : nat := S (size (list_to_set (concat (map_to_list g).*2) : gset NodeIndex)).

(* lib/GraphLayout/SugiyamaStyle/NodeRanking.cpp:95-122 areDisjoint *)
Fixpoint disjointFrom (g : gmap NodeIndex (list NodeIndex)) (MaxDepth : Z) (Worklist : list NodeIndex) (VisitedPrevious : gmap NodeIndex Z) :
  outcome bool :=
  match Worklist with
  | [] => Ok true
  | Current :: Worklist =>
    if decide (is_Some (VisitedPrevious !! Current)) then Ok false else
    VisitedNow ← jointVisit (jointFuel g) g Current MaxDepth [Current] {[Current := 0%Z]};
    disjointFrom g MaxDepth Worklist VisitedNow
  end.

(* lib/GraphLayout/SugiyamaStyle/NodeRanking.cpp:87-123 areDisjoint *)
Definition areDisjoint (g : gmap NodeIndex (list NodeIndex)) (A B : NodeIndex) (MaxDepth : Z) : outcome bool :=
  disjointFrom g MaxDepth [A; B] ∅.

Section ranking.
  Context `{!LLVMGraphWalks NodeIndex, !LLVMDepthFirst NodeIndex}.
  Implicit Types (g gi : gmap NodeIndex (list NodeIndex)).

(* lib/GraphLayout/SugiyamaStyle/NodeRanking.cpp:43-56 rankNodes *)
Definition rankNodesDFS (e : NodeIndex) (G : InternalGraph) : outcome (gmap NodeIndex Z) :=
  allRanked G (rankInOrder RootNodeRankValue (visitOrder (successorsOf G) e (λ _, true)) ∅).

Definition reversePostOrder g (e : NodeIndex) : list NodeIndex := reverse (post_order_ext g e ∅).

(* lib/GraphLayout/SugiyamaStyle/NodeRanking.cpp:69-80 rankNodes *)
Definition rankNodesTopological (e : NodeIndex) (G : InternalGraph) : outcome (gmap NodeIndex Z) :=
  allRanked G (rankInOrder RootNodeRankValue (reversePostOrder (successorsOf G) e) ∅).

(* lib/GraphLayout/SugiyamaStyle/NodeRanking.cpp:189-194 updateRanks *)
Definition updateRank gi (Ranks : gmap NodeIndex Z) (Current : NodeIndex) : gmap NodeIndex Z :=
  foldl (λ Ranks Predecessor,
    let Ranks := touch Predecessor Ranks in
    let Next := wrap 64 (rank Ranks Predecessor + 1) in
    if (rank Ranks Current <? Next)%Z then <[Current := Next]> Ranks else Ranks)
    (touch Current Ranks) (succs gi Current).

(* lib/GraphLayout/SugiyamaStyle/NodeRanking.cpp:184-198 updateRanks *)
Definition updateRanks (e : NodeIndex) (isVirtual : bool) (G : InternalGraph) (Ranks : gmap NodeIndex Z) : outcome (gmap NodeIndex Z) :=
  let Ranks := try_emplace e (if isVirtual then 2 ^ 64 - 1 else 0)%Z Ranks in
  allRanked G (foldl (updateRank (predecessorsOf G)) Ranks (reversePostOrder (successorsOf G) e)).

End ranking.

(** ** Orders of the nodes *)

Section orders.
  Context `{!LLVMGraphWalks NodeIndex}.
  Implicit Types (g gi : gmap NodeIndex (list NodeIndex)).

Lemma elem_of_reversePostOrder g e n : n ∈ reversePostOrder g e ↔ reaches g e n.
Proof. unfold reversePostOrder. rewrite elem_of_reverse. by apply po_elem. Qed.

Lemma NoDup_reversePostOrder g e : NoDup (reversePostOrder g e).
Proof. unfold reversePostOrder. rewrite reverse_Permutation. apply po_NoDup. Qed.

Lemma reversePostOrder_topological g e pre n post p :
  (∀ a, reaches g e a → ¬ tc (edge g) a a) → reversePostOrder g e = pre ++ n :: post → edge g p n → reaches g e p → p ∈ pre.
Proof.
  intros Hacyc Hl Hpn Hp. unfold reversePostOrder in Hl. apply (f_equal reverse) in Hl.
  rewrite reverse_involutive, reverse_app, reverse_cons, <- app_assoc in Hl. cbn in Hl.
  pose proof (po_NoDup g e ∅) as Hnd. apply elem_of_reversePostOrder in Hp as Hin. unfold reversePostOrder in Hin.
  rewrite elem_of_reverse, Hl, elem_of_app, elem_of_cons, !elem_of_reverse in Hin. destruct Hin as [Hin|[->|Hin]]; [|exfalso|done].
  - exfalso. apply elem_of_reverse, list_elem_of_split in Hin as (q1 & q2 & Hq). rewrite Hq, <- app_assoc in Hl. cbn in Hl.
    destruct (po_order g e ∅ q1 p (q2 ++ n :: reverse pre) n Hl) as [Hn|Hn]; [done| |].
    + rewrite Hl in Hnd. apply NoDup_app in Hnd as (_ & Hnd & _). apply (Hnd n Hn). right. apply elem_of_app. right. by left.
    + apply (Hacyc p Hp). apply reaches_edge in Hn. eapply tc_rtc_r; [by apply tc_once|done].
  - apply (Hacyc n Hp). by apply tc_once.
Qed.

(** Numbers in an order. *)
Lemma rankInOrder_spec c ns R n :
  NoDup ns → (∀ m, m ∈ ns → R !! m = None) →
  rankInOrder c ns R !! n = match list_find (λ m, m = n) ns with Some (i, _) => Some (c + Z.of_nat i)%Z | None => R !! n end.
Proof.
  revert c R. induction ns as [|m ns IH]; intros c R Hnd HR; [done|]. apply NoDup_cons in Hnd as [Hm Hnd]. cbn [rankInOrder].
  unfold try_emplace. rewrite HR by by left. rewrite IH; [|done|].
  - cbn [list_find]. case_decide as Hmn.
    + subst m. rewrite (proj2 (list_find_None _ _)); [by rewrite lookup_insert_eq, Z.add_0_r|].
      apply Forall_forall. intros x Hx ->. done.
    + destruct (list_find _ ns) as [[i x]|]; cbn; [f_equal; lia|by rewrite lookup_insert_ne].
  - intros x Hx. rewrite lookup_insert_ne; [apply HR; by right|]. by intros ->.
Qed.

Lemma rankInOrder_at c ns i n : NoDup ns → ns !! i = Some n → rankInOrder c ns ∅ !! n = Some (c + Z.of_nat i)%Z.
Proof.
  intros Hnd Hi. rewrite rankInOrder_spec by done. destruct (list_find _ ns) as [[j x]|] eqn:Hf.
  - apply list_find_Some in Hf as (Hj & -> & _). by rewrite (NoDup_lookup ns i j n).
  - apply list_find_None in Hf. rewrite Forall_forall in Hf. destruct (Hf n); [|done]. by eapply list_elem_of_lookup_2.
Qed.

Lemma rankInOrder_dom c ns n : NoDup ns → is_Some (rankInOrder c ns ∅ !! n) ↔ n ∈ ns.
Proof.
  intros Hnd. split.
  - rewrite rankInOrder_spec by done. destruct (list_find _ ns) as [[j x]|] eqn:Hf; [|by intros [? ?]].
    apply list_find_Some in Hf as (Hj & -> & _). intros _. by eapply list_elem_of_lookup_2.
  - intros [i Hi]%list_elem_of_lookup. rewrite (rankInOrder_at c ns i n) by done. by eexists.
Qed.

Lemma predecessors_inverse G a b : graph_ok G → a ∈ succs (predecessorsOf G) b ↔ b ∈ succs (successorsOf G) a.
Proof using Type.
  intros Hok. unfold succs at 1, predecessorsOf. rewrite map_lookup_imap. destruct (Nodes G !! b) as [N|] eqn:HN; cbn.
  - rewrite list_elem_of_filter. split; [by intros [? _]|]. intros Hab. split; [done|].
    apply successors_edge in Hab as (x & M & HM & _). apply (go_order _ Hok). by eexists.
  - split; [by intros ?%elem_of_nil|]. intros (x & Hx)%successors_edge. apply (go_target _ Hok) in Hx as [? ?]. congruence.
Qed.

(** A graph without loops whose nodes can all be reached from its entry. *)
Record rankable (e : NodeIndex) (G : InternalGraph) : Prop := {
  rk_ok : graph_ok G;
  rk_NoDup : NoDup (Order G);
  rk_entry : e ∈ Order G;
  rk_reached n : n ∈ Order G → reaches (successorsOf G) e n;
  rk_acyclic : acyclic (successorsOf G);
}.

Lemma edge_ends G a b : graph_ok G → edge (successorsOf G) a b → a ∈ Order G ∧ b ∈ Order G.
Proof using Type.
  intros Hok (x & Hx)%successors_edge. split; apply (go_order _ Hok); [|by eapply go_target]. destruct Hx as (N & HN & _). by eexists.
Qed.

Lemma rankable_order e G : rankable e G → reversePostOrder (successorsOf G) e ≡ₚ Order G.
Proof using Type.
  intros Hr. apply NoDup_Permutation; [apply NoDup_reversePostOrder|apply Hr|]. intros n.
  rewrite elem_of_reversePostOrder. split; [|apply Hr]. intros Hn%reaches_edge.
  apply rtc_inv_r in Hn as [<-|(y & _ & Hyn)]; [by apply (rk_entry _ _ Hr)|]. by apply (edge_ends G y n); [apply Hr|].
Qed.

Lemma rankable_topological e G pre n post p :
  rankable e G → reversePostOrder (successorsOf G) e = pre ++ n :: post → edge (successorsOf G) p n → p ∈ pre.
Proof using Type.
  intros Hr Hl Hpn. apply (reversePostOrder_topological (successorsOf G) e pre n post); [intros x _; by apply Hr|done|done|].
  apply Hr. by apply (edge_ends G p n); [apply Hr|].
Qed.

Lemma allRanked_ok G (R : gmap NodeIndex Z) : NoDup (Order G) → (∀ n, n ∈ Order G ↔ is_Some (R !! n)) → allRanked G R = Ok R.
Proof using Type.
  intros Hnd Hdom. unfold allRanked. rewrite assert_true; [done|]. apply Nat.eqb_eq.
  rewrite <- size_dom, <- (size_list_to_set (C := gset NodeIndex)) by done. f_equal. apply set_eq. intros n.
  by rewrite elem_of_dom, <- Hdom, elem_of_list_to_set.
Qed.

(** The topological ranking: in a graph whose nodes can all be reached from the entry, without loops, every node gets a rank of its own, from that of the root on, and an edge goes to a greater rank. *)
Theorem topological_ranks e G :
  rankable e G →
  ∃ Ranks, rankNodesTopological e G = Ok Ranks ∧
    (∀ n, n ∈ Order G ↔ is_Some (Ranks !! n)) ∧
    (∀ r, (∃ n, Ranks !! n = Some r) ↔ (RootNodeRankValue ≤ r < RootNodeRankValue + Z.of_nat (length (Order G)))%Z) ∧
    (∀ n m r, Ranks !! n = Some r → Ranks !! m = Some r → n = m) ∧
    ∀ a b, edge (successorsOf G) a b → (rank Ranks a < rank Ranks b)%Z.
Proof using All.
  intros Hrk. set (g := successorsOf G). set (l := reversePostOrder g e). assert (NoDup l) as Hnd by apply NoDup_reversePostOrder.
  pose proof (rankable_order e G Hrk) as Hperm. fold g l in Hperm. set (R := rankInOrder RootNodeRankValue l ∅).
  assert (∀ n, n ∈ Order G ↔ is_Some (R !! n)) as Hdom by (intros n; by rewrite <- Hperm; unfold R; rewrite rankInOrder_dom).
  assert (∀ n r, R !! n = Some r ↔ ∃ i, l !! i = Some n ∧ r = (RootNodeRankValue + Z.of_nat i)%Z) as HR.
  { intros n r. split.
    - intros Hr. assert (n ∈ l) as Hn by (rewrite Hperm; apply Hdom; by eexists). apply list_elem_of_lookup in Hn as [i Hi].
      exists i. split; [done|]. unfold R in Hr. rewrite (rankInOrder_at _ _ i) in Hr by done. by injection Hr as <-.
    - intros (i & Hi & ->). by apply rankInOrder_at. }
  exists R. split; [|split; [done|split; [|split]]].
  - apply allRanked_ok; [apply Hrk|done].
  - intros r. setoid_rewrite HR. rewrite <- Hperm. split.
    + intros (n & i & Hi & ->). apply lookup_lt_Some in Hi. lia.
    + intros Hr. destruct (lookup_lt_is_Some_2 l (Z.to_nat (r - RootNodeRankValue))) as [n Hn]; [lia|].
      exists n. eexists. split; [done|]. lia.
  - intros n m r (i & Hi & ->)%HR (j & Hj & Heq)%HR. replace j with i in Hj by lia. rewrite Hi in Hj. by injection Hj.
  - intros a b Hab. destruct (edge_ends G a b) as [_ Hb]; [apply Hrk|done|]. rewrite <- Hperm in Hb.
    apply list_elem_of_split in Hb as (pre & post & Hl). pose proof (rankable_topological e G pre b post a Hrk Hl Hab) as Hpre.
    apply list_elem_of_lookup in Hpre as [i Hi]. pose proof (lookup_lt_Some _ _ _ Hi).
    unfold rank. rewrite (proj2 (HR a (RootNodeRankValue + Z.of_nat i)%Z)), (proj2 (HR b (RootNodeRankValue + Z.of_nat (length pre))%Z)).
    + cbn. lia.
    + exists (length pre). split; [|done]. rewrite Hl. by apply list_lookup_middle.
    + exists i. split; [|done]. rewrite Hl. by apply lookup_app_l_Some.
Qed.
End orders.

(** ** Consistent ranks *)

Section consistent.
  Context `{!LLVMGraphWalks NodeIndex}.
  Implicit Types (g gi : gmap NodeIndex (list NodeIndex)) (R : gmap NodeIndex Z).

Lemma rank_touch n m R : rank (touch n R) m = rank R m.
Proof using Type. unfold rank, touch. destruct (decide (m = n)) as [->|]; [by rewrite lookup_insert_eq|by rewrite lookup_insert_ne]. Qed.

Lemma touch_dom n m R : is_Some (touch n R !! m) ↔ m = n ∨ is_Some (R !! m).
Proof using Type.
  unfold touch. destruct (decide (m = n)) as [->|]; [rewrite lookup_insert_eq|rewrite lookup_insert_ne by done; tauto].
  split; [by left|by eexists].
Qed.

(** What the ranks of the predecessors make of the rank of a node. *)
Record raised (ps : list NodeIndex) (n : NodeIndex) R R' : Prop := {
  ra_other m : m ≠ n → rank R' m = rank R m;
  ra_grows : (rank R n ≤ rank R' n)%Z;
  ra_above p : p ∈ ps → (rank R p < rank R' n)%Z;
  ra_least : rank R' n = rank R n ∨ ∃ p, p ∈ ps ∧ rank R' n = (rank R p + 1)%Z;
  ra_dom m : is_Some (R' !! m) ↔ m = n ∨ m ∈ ps ∨ is_Some (R !! m);
}.

Lemma updateRank_ok gi n R :
  n ∉ succs gi n → (∀ p, p ∈ succs gi n → 0 ≤ rank R p < 2 ^ 64 - 1)%Z → raised (succs gi n) n R (updateRank gi R n).
Proof using Type.
  unfold updateRank. intros Hn Hb. assert (raised [] n R (touch n R)) as H0.
  { split; [intros m _; apply rank_touch|by rewrite rank_touch|by intros p ?%elem_of_nil|left; apply rank_touch|].
    intros m. rewrite touch_dom, elem_of_nil. tauto. }
  change (succs gi n) with ([] ++ succs gi n) at 1. revert H0 Hn Hb. generalize (@nil NodeIndex) (touch n R).
  induction (succs gi n) as [|p ps IH]; intros qs R1 H1 Hn Hb; cbn [foldl]; [by rewrite app_nil_r|].
  apply not_elem_of_cons in Hn as [Hpn Hn]. rewrite cons_middle, app_assoc.
  assert (rank R1 p = rank R p) as Hp by (apply (ra_other _ _ _ _ H1); congruence).
  specialize (Hb p ltac:(by left)) as Hbp. apply IH; [|done|intros q Hq; apply Hb; by right].
  rewrite !rank_touch, Hp, wrap_small by (unfold in_width; lia). destruct H1 as [Ho Hg Ha Hl Hd].
  destruct (Z.ltb_spec (rank R1 n) (rank R p + 1)) as [Hlt|Hge]; split.
  - intros m Hm. unfold rank at 1. rewrite lookup_insert_ne by done. fold (rank (touch p R1) m). rewrite rank_touch. by apply Ho.
  - unfold rank at 2. rewrite lookup_insert_eq. cbn. lia.
  - intros q. unfold rank at 2. rewrite lookup_insert_eq. cbn. intros [Hq%Ha| ->%list_elem_of_singleton]%elem_of_app; lia.
  - right. exists p. split; [apply elem_of_app; right; by left|]. unfold rank at 1. by rewrite lookup_insert_eq.
  - intros m. destruct (decide (m = n)) as [->|]; [rewrite lookup_insert_eq; split; [by left|by eexists]|].
    rewrite lookup_insert_ne, touch_dom, Hd, elem_of_app, list_elem_of_singleton by done. tauto.
  - intros m Hm. rewrite rank_touch. by apply Ho.
  - by rewrite rank_touch.
  - intros q. rewrite rank_touch. intros [Hq%Ha| ->%list_elem_of_singleton]%elem_of_app; lia.
  - rewrite rank_touch. destruct Hl as [?|(q & ? & ?)]; [by left|right; exists q; split; [apply elem_of_app; by left|done]].
  - intros m. rewrite touch_dom, Hd, elem_of_app, list_elem_of_singleton. tauto.
Qed.

(** What makes of the ranks [R0] the least ones that are consistent with the edges to the
    nodes of [pre]. *)
Record consistentUpTo g R0 (M : Z) (pre : list NodeIndex) R : Prop := {
  cu_bound n : (0 ≤ rank R n ≤ M + Z.of_nat (length pre))%Z;
  cu_other n : n ∉ pre → rank R n = rank R0 n;
  cu_grows n : (rank R0 n ≤ rank R n)%Z;
  cu_above a b : b ∈ pre → edge g a b → (rank R a < rank R b)%Z;
  cu_least (S : NodeIndex → Z) n : (∀ n, rank R0 n ≤ S n)%Z → (∀ a b, edge g a b → S a < S b)%Z → (rank R n ≤ S n)%Z;
  cu_dom n : is_Some (R !! n) ↔ n ∈ pre ∨ is_Some (R0 !! n);
}.

Lemma updateRank_consistent g gi R0 M pre n R :
  (∀ a b, a ∈ succs gi b ↔ b ∈ succs g a) → (∀ a b, b ∈ pre ++ [n] → edge g a b → a ∈ pre) → n ∉ pre →
  (M + Z.of_nat (length pre) < 2 ^ 64 - 1)%Z →
  consistentUpTo g R0 M pre R → consistentUpTo g R0 M (pre ++ [n]) (updateRank gi R n).
Proof using Type.
  intros Hgi Hp' Hn Hfit [Hb Ho Hg Ha Hl Hd].
  assert (∀ p, edge g p n → p ∈ pre) as Hp by (intros p; apply Hp', elem_of_app; right; by left).
  assert (∀ p, p ∈ succs gi n → p ∈ pre) as Hps by (intros p Hpn%Hgi; by apply Hp).
  destruct (updateRank_ok gi n R) as [Ro Rg Ra Rl Rd]; [by intros ?%Hps|intros p _; specialize (Hb p); lia|].
  assert (∀ m, m ≠ n → rank (updateRank gi R n) m = rank R m) as Hsame by done.
  split.
  - intros m. rewrite length_app. cbn [length]. destruct (decide (m = n)) as [->|Hne]; [|rewrite Hsame by done; specialize (Hb m); lia].
    destruct Rl as [->|(p & _ & ->)]; [specialize (Hb n)|specialize (Hb p)]; lia.
  - intros m [Hm1 Hm2]%not_elem_of_app. rewrite list_elem_of_singleton in Hm2. rewrite Hsame by done. by apply Ho.
  - intros m. destruct (decide (m = n)) as [->|Hne]; [specialize (Hg n); lia|by rewrite Hsame].
  - intros a b [Hbp| ->%list_elem_of_singleton]%elem_of_app Hab.
    + rewrite (Hsame b) by (intros ->; done). rewrite Hsame; [by apply Ha|]. intros ->. apply Hn, (Hp' n b); [apply elem_of_app; by left|done].
    + rewrite (Hsame a); [|intros ->; by apply Hn, Hp]. by apply Ra, Hgi.
  - intros S m HS0 HS. destruct (decide (m = n)) as [->|Hne]; [|rewrite Hsame by done; by apply Hl].
    destruct Rl as [->|(p & Hpn%Hgi & ->)]; [by apply Hl|]. specialize (Hl S p HS0 HS). specialize (HS p n Hpn). lia.
  - intros m. rewrite Rd, Hd, elem_of_app, list_elem_of_singleton. specialize (Hps m). tauto.
Qed.

Lemma updateRanks_loop e G R0 M post pre R :
  rankable e G → (M + Z.of_nat (length (Order G)) < 2 ^ 64)%Z → reversePostOrder (successorsOf G) e = pre ++ post →
  consistentUpTo (successorsOf G) R0 M pre R →
  consistentUpTo (successorsOf G) R0 M (pre ++ post) (foldl (updateRank (predecessorsOf G)) R post).
Proof using Type.
  intros Hrk Hfit. revert pre R. induction post as [|n post IH]; intros pre R Hl Hcu; [by rewrite app_nil_r|]. cbn [foldl].
  rewrite cons_middle, app_assoc. apply IH; [by rewrite <- app_assoc|]. apply updateRank_consistent; [| | | |done].
  - intros a b. by apply predecessors_inverse, Hrk.
  - intros a b [Hbp| ->%list_elem_of_singleton]%elem_of_app Hab; [|by eapply rankable_topological].
    apply list_elem_of_split in Hbp as (q1 & q2 & ->). apply elem_of_app. left.
    apply (rankable_topological e G q1 b (q2 ++ n :: post)); [done|by rewrite <- app_assoc in Hl|done].
  - pose proof (NoDup_reversePostOrder (successorsOf G) e) as Hnd. rewrite Hl in Hnd. apply NoDup_app in Hnd as (_ & Hno & _).
    intros Hn. apply (Hno n Hn). by left.
  - pose proof (Permutation_length (rankable_order e G Hrk)) as Hlen. rewrite Hl, length_app in Hlen. cbn in Hlen. lia.
Qed.

(** C16: The update of the ranks. In a graph whose nodes can all be reached from the entry, without loops, with ranks that leave room in 64 bits for one more for each node, every node is ranked after the update, an edge goes to a greater rank, and the ranks are the least ones of which this is true that are not smaller than those before. *)
Theorem ranks_updated e (isVirtual : bool) G R0 M :
  rankable e G →
  let R1 := try_emplace e (if isVirtual then 2 ^ 64 - 1 else 0)%Z R0 in
  (∀ n, is_Some (R0 !! n) → n ∈ Order G) → (∀ n, 0 ≤ rank R1 n ≤ M)%Z → (M + Z.of_nat (length (Order G)) < 2 ^ 64)%Z →
  ∃ R, updateRanks e isVirtual G R0 = Ok R ∧
    (∀ n, n ∈ Order G ↔ is_Some (R !! n)) ∧
    (∀ n, rank R1 n ≤ rank R n)%Z ∧
    (∀ a b, edge (successorsOf G) a b → (rank R a < rank R b)%Z) ∧
    ∀ S : NodeIndex → Z, (∀ n, rank R1 n ≤ S n)%Z → (∀ a b, edge (successorsOf G) a b → S a < S b)%Z → ∀ n, (rank R n ≤ S n)%Z.
Proof using All.
  intros Hrk R1 HR0 Hb Hfit. assert (consistentUpTo (successorsOf G) R1 M [] R1) as H1.
  { split; [intros n; specialize (Hb n); cbn; lia|done|done|by intros a b ?%elem_of_nil|intros S n HS _; apply HS|].
    intros n. rewrite elem_of_nil. tauto. }
  pose proof (updateRanks_loop e G R1 M _ [] R1 Hrk Hfit eq_refl H1) as [_ _ Hg Ha Hl Hd].
  pose proof (rankable_order e G Hrk) as Hperm. cbn [app] in *. set (R := foldl _ R1 _) in *.
  assert (∀ n, n ∈ Order G ↔ is_Some (R !! n)) as Hdom.
  { intros n. rewrite Hd, Hperm. split; [by left|]. intros [?|Hn]; [done|]. unfold R1, try_emplace in Hn.
    destruct (R0 !! e) eqn:He0; [by apply HR0|]. destruct (decide (n = e)) as [->|]; [by apply (rk_entry _ _ Hrk)|].
    rewrite lookup_insert_ne in Hn by done. by apply HR0. }
  exists R. split; [apply allRanked_ok; [apply Hrk|done]|split_and!; [done|done| |intros S HS0 HS n; by apply Hl]].
  intros a b Hab. apply Ha; [|done]. rewrite Hperm. by apply (edge_ends G a b); [apply Hrk|].
Qed.
End consistent.

(** ** Branches taken for disjoint *)

(** One node of the queue: what is added to it, and what is now visited. *)
Definition visitNexts (d : Z) (Q : list NodeIndex) (V : gmap NodeIndex Z) (nexts : list NodeIndex) : list NodeIndex * gmap NodeIndex Z :=
  foldl (λ '(Q, V) Next, if decide (is_Some (V !! Next)) then (Q, V) else (Q ++ [Next], <[Next := d]> V)) (Q, V) nexts.

(** What is left to be visited. *)
Definition unvisited (U : gset NodeIndex) (V : gmap NodeIndex Z) : nat := size (U ∖ dom V).

Lemma unvisited_insert U (V : gmap NodeIndex Z) n d : n ∈ U → V !! n = None → S (unvisited U (<[n := d]> V)) = unvisited U V.
Proof.
  intros Hn HV. unfold unvisited. rewrite dom_insert_L. apply not_elem_of_dom in HV.
  assert (U ∖ dom V = {[n]} ∪ U ∖ ({[n]} ∪ dom V)) as ->.
  { apply set_eq. intros x. destruct (decide (x = n)); set_solver. }
  rewrite (size_union {[n]} (U ∖ ({[n]} ∪ dom V))) by set_solver. by rewrite (size_singleton n).
Qed.

Lemma visitNexts_spec U d nexts : ∀ Q V Q' V',
  visitNexts d Q V nexts = (Q', V') → (∀ n, n ∈ nexts → n ∈ U) →
  length Q' + unvisited U V' = length Q + unvisited U V ∧
  (∀ n, is_Some (V' !! n) ↔ is_Some (V !! n) ∨ n ∈ nexts) ∧
  (∀ n, is_Some (V !! n) → V' !! n = V !! n) ∧
  ∀ n, n ∈ Q' ↔ n ∈ Q ∨ n ∈ nexts ∧ V !! n = None.
Proof.
  induction nexts as [|m nexts IH]; intros Q V Q' V' Hrun HU.
  { injection Hrun as <- <-. split_and!; [done|intros n; rewrite elem_of_nil; tauto|done|intros n; rewrite elem_of_nil; tauto]. }
  cbn in Hrun. fold (visitNexts d) in Hrun. destruct (decide (is_Some (V !! m))) as [Hm|Hm].
  - destruct (IH Q V Q' V' Hrun) as (Hsize & Hdom & Hsame & Hq); [intros n ?; apply HU; by right|].
    split_and!; [done| |done|].
    + intros n. rewrite Hdom, elem_of_cons. naive_solver.
    + intros n. rewrite Hq, elem_of_cons. destruct Hm as [? Hm]. naive_solver.
  - apply eq_None_not_Some in Hm.
    destruct (IH (Q ++ [m]) (<[m := d]> V) Q' V' Hrun) as (Hsize & Hdom & Hsame & Hq); [intros n ?; apply HU; by right|].
    assert (∀ n, is_Some (<[m := d]> V !! n) ↔ n = m ∨ is_Some (V !! n)) as Hins.
    { intros n. destruct (decide (n = m)) as [->|]; [rewrite lookup_insert_eq; split; [by left|by eexists]|]. rewrite lookup_insert_ne by done. tauto. }
    split_and!.
    + rewrite Hsize, length_app. cbn. rewrite <- (unvisited_insert U V m d); [lia|apply HU; by left|done].
    + intros n. rewrite Hdom, Hins, elem_of_cons. tauto.
    + intros n Hn. assert (n ≠ m) by (intros ->; rewrite Hm in Hn; by destruct Hn). rewrite Hsame; [by rewrite lookup_insert_ne|].
      apply Hins. by right.
    + intros n. rewrite Hq, elem_of_app, list_elem_of_singleton, elem_of_cons. destruct (decide (n = m)) as [->|]; [tauto|].
      rewrite lookup_insert_ne by done. tauto.
Qed.

Section joint.
  Context (g : gmap NodeIndex (list NodeIndex)) (Current : NodeIndex) (MaxDepth : Z) (Hdepth : (0 ≤ MaxDepth)%Z).

Definition targets : gset NodeIndex := list_to_set (concat (map_to_list g).*2).

Lemma elem_of_targets a b : b ∈ succs g a → b ∈ targets.
Proof using Type.
  unfold succs, targets. destruct (g !! a) as [l|] eqn:Ha; [|by intros ?%elem_of_nil]. intros Hb.
  apply elem_of_list_to_set, list_elem_of_In, in_concat. exists l. split; apply list_elem_of_In; [|done].
  apply list_elem_of_fmap. exists (a, l). split; [done|]. by apply elem_of_map_to_list.
Qed.

(** The nodes that are visited can be reached, and so are their successors, but those of
    the nodes in the queue. *)
Record joint_ok (Q : list NodeIndex) (V : gmap NodeIndex Z) : Prop := {
  jo_start : V !! Current = Some 0%Z;
  jo_queue n : n ∈ Q → is_Some (V !! n);
  jo_reached n : is_Some (V !! n) → reaches g Current n;
  jo_closed n m : is_Some (V !! n) → m ∈ succs g n → n ∈ Q ∨ is_Some (V !! m);
}.

Lemma jointVisit_ok fuel Q V :
  joint_ok Q V → length Q + unvisited targets V ≤ fuel →
  ∃ V', jointVisit fuel g Current MaxDepth Q V = Ok V' ∧ ∀ n, is_Some (V' !! n) ↔ reaches g Current n.
Proof using Hdepth.
  revert Q V. induction fuel as [|fuel IH]; intros [|t Q] V Hok Hf; [|cbn in Hf; lia| |].
  1, 2: exists V; split; [done|]; intros n; split; [by apply Hok|];
    intros Hr%(closed_reaches g (dom V)); [by apply elem_of_dom| |apply elem_of_dom; eexists; by apply Hok];
    intros a b Ha%elem_of_dom Hab; destruct (jo_closed _ _ Hok a b Ha Hab) as [?%elem_of_nil|?]; [done|by apply elem_of_dom].
  cbn [jointVisit]. rewrite (jo_start _ _ Hok). cbn [default from_option]. rewrite insert_id by apply Hok.
  destruct (visitNexts (0 + 1) Q V (succs g t)) as [Q' V'] eqn:Hv.
  destruct (visitNexts_spec targets _ _ _ _ _ _ Hv) as (Hsize & Hdom & Hsame & Hq); [intros n; apply elem_of_targets|].
  unfold visitNexts in Hv. cbn in Hv |- *. rewrite Hv, (proj2 (Z.ltb_ge MaxDepth 0)) by done. apply IH; [|cbn in Hf; lia].
  destruct Hok as [Hs HQ Hr Hc]. split.
  - rewrite Hsame; [done|by eexists].
  - intros n [Hn|[Hn _]]%Hq; apply Hdom; [left; apply HQ; by right|by right].
  - intros n [Hn|Hn]%Hdom; [by apply Hr|]. eapply rtc_r; [apply (Hr t), HQ; by left|]. split; [done|set_solver].
  - intros n m Hn Hm. destruct (decide (n = t)) as [->|Hne]; [right; apply Hdom; by right|].
    apply Hdom in Hn as [Hn|Hn].
    + destruct (Hc n m Hn Hm) as [[?|?]%elem_of_cons|?]; [done|left; apply Hq; by left|right; apply Hdom; by left].
    + destruct (V !! n) as [z|] eqn:HV; [|left; apply Hq; by right].
      destruct (Hc n m) as [[?|?]%elem_of_cons|?]; [by eexists|done|done|left; apply Hq; by left|right; apply Hdom; by left].
Qed.

Lemma jointVisit_from :
  ∃ V, jointVisit (jointFuel g) g Current MaxDepth [Current] {[Current := 0%Z]} = Ok V ∧ ∀ n, is_Some (V !! n) ↔ reaches g Current n.
Proof using Hdepth.
  assert (∀ n, is_Some (({[Current := 0%Z]} : gmap NodeIndex Z) !! n) ↔ n = Current) as Hone.
  { intros n. rewrite lookup_singleton_is_Some. split; congruence. }
  apply jointVisit_ok.
  - split; [apply lookup_singleton_eq|intros n ->%list_elem_of_singleton; by apply Hone|by intros n ->%Hone|].
    intros n m ->%Hone _. left. by left.
  - unfold jointFuel, unvisited. cbn. apply le_n_S, subseteq_size. fold targets. set_solver.
Qed.
End joint.

(** C29: The test that two branches are disjoint always gives a result, and, whatever the bound on the depth, what it says is whether the second node cannot be reached from the first: the nodes that both branches lead to do not count, and neither does the distance. *)
Theorem disjoint_is_unreachable g A B MaxDepth :
  (0 ≤ MaxDepth)%Z → ∃ b, areDisjoint g A B MaxDepth = Ok b ∧ (b = true ↔ ¬ reaches g A B).
Proof.
  intros Hd. unfold areDisjoint. cbn [disjointFrom]. rewrite decide_False by by (rewrite lookup_empty; intros [? ?]).
  destruct (jointVisit_from g A MaxDepth Hd) as (V & HV & Hr). rewrite HV. cbn [mbind outcome_bind].
  destruct (jointVisit_from g B MaxDepth Hd) as (V' & HV' & _).
  destruct (decide (is_Some (V !! B))) as [HB|HB].
  - exists false. split; [done|]. rewrite <- Hr. by split.
  - exists true. split; [by rewrite HV'|]. rewrite <- Hr. by split.
Qed.

(** ** On graphs *)

(** A check that a graph can be ranked. *)
Definition rankableIn (e : NodeIndex) (G : InternalGraph) : bool :=
  graphOk G && bool_decide (NoDup (Order G)) && bool_decide (e ∈ Order G) &&
  forallb (λ n, bool_decide (n ∈ reachSet (successorsOf G) ∅ e)) (Order G) &&
  isDAG (successorsOf G) ∅ (Order G).

Lemma rankableIn_spec e G : rankableIn e G = true → rankable e G.
Proof.
  unfold rankableIn. rewrite !andb_true_iff, !bool_decide_eq_true, forallb_forall. intros [[[[Hok Hnd] He] Hr] Hdag].
  apply graphOk_spec in Hok. split; [done|done|done| |].
  - intros n Hn%list_elem_of_In%Hr. apply bool_decide_eq_true in Hn. by apply elem_of_reachSet in Hn.
  - apply (isDAG_spec (successorsOf G) (Order G)); [|done]. intros n. rewrite elem_of_dom. unfold successorsOf.
    by rewrite lookup_fmap, fmap_is_Some, (go_order _ Hok).
Qed.

(** A branch of two nodes next to one of a single node. *)
Definition twoBranches : InternalGraph := graphWith 5 [(0, 1); (0, 2); (1, 3); (3, 4); (2, 4)].

Lemma topological_ranks_witness :
  rankable 0 twoBranches ∧
  ∃ Ranks, rankNodesTopological 0 twoBranches = Ok Ranks ∧ (rank Ranks 2 < rank Ranks 4)%Z.
Proof.
  assert (rankable 0 twoBranches) as Hrk by (apply rankableIn_spec; vm_compute; reflexivity). split; [exact Hrk|].
  destruct (topological_ranks 0 twoBranches Hrk) as (Ranks & HR & _ & _ & _ & Hedge). exists Ranks. split; [exact HR|].
  apply Hedge. unfold edge. vm_compute. left.
Defined.

Lemma ranks_updated_witness :
  rankable 0 twoBranches ∧
  ∃ R, updateRanks 0 false twoBranches {[2 := 7%Z]} = Ok R ∧ map_to_list R ≡ₚ [(0, 0%Z); (1, 1%Z); (2, 7%Z); (3, 2%Z); (4, 8%Z)] ∧ (rank R 2 < rank R 4)%Z.
Proof.
  assert (rankable 0 twoBranches) as Hrk by (apply rankableIn_spec; vm_compute; reflexivity). split; [exact Hrk|].
  destruct (ranks_updated 0 false twoBranches {[2 := 7%Z]} 7 Hrk) as (R & HR & _ & _ & Hedge & _).
  - intros n Hn. apply lookup_singleton_is_Some in Hn as <-. vm_compute. right. right. left.
  - intros n. unfold rank, try_emplace. rewrite lookup_singleton_ne by discriminate. destruct (decide (n = 0)) as [->|Hn].
    + rewrite lookup_insert_eq. cbn. lia.
    + rewrite lookup_insert_ne by congruence. destruct (decide (n = 2)) as [->|Hn']; [rewrite lookup_singleton_eq; cbn; lia|].
      rewrite lookup_singleton_ne by congruence. cbn. lia.
  - cbn. lia.
  - exists R. split; [exact HR|]. split.
    + assert (updateRanks 0 false twoBranches {[2 := 7%Z]} = Ok (list_to_map [(0, 0%Z); (1, 1%Z); (2, 7%Z); (3, 2%Z); (4, 8%Z)])) as HR' by (vm_compute; reflexivity).
      assert (R = list_to_map [(0, 0%Z); (1, 1%Z); (2, 7%Z); (3, 2%Z); (4, 8%Z)]) as -> by congruence.
      apply map_to_list_to_map. vm_compute. apply (bool_decide_unpack _). vm_compute. exact I.
    + apply Hedge. unfold edge. vm_compute. left.
Defined.

(** The branches meet, one edge after they part. *)
Lemma disjoint_is_unreachable_witness :
  ¬ reaches GraphAlgorithms.diamond 1 2 ∧ areDisjoint GraphAlgorithms.diamond 1 2 4 = Ok true ∧
  areDisjoint GraphAlgorithms.diamond 1 3 0 = Ok false ∧ reaches GraphAlgorithms.diamond 1 3.
Proof.
  destruct (disjoint_is_unreachable GraphAlgorithms.diamond 1 2 4) as (b & Hb & Hn); [lia|].
  destruct (disjoint_is_unreachable GraphAlgorithms.diamond 1 3 0) as (c & Hc & Hm); [lia|].
  assert (Ok b = Ok true) as [= ->] by (rewrite <- Hb; vm_compute; reflexivity).
  assert (Ok c = Ok false) as [= ->] by (rewrite <- Hc; vm_compute; reflexivity).
  split; [apply Hn; reflexivity|]. split; [exact Hb|]. split; [exact Hc|].
  apply elem_of_reachSet. apply (bool_decide_unpack _). vm_compute. exact I.
Defined.
