(* ===== verification/RegisterUsage.v ===== *)
(** * Functions for the register usage analyses

    The graphs of register accesses the analyses work on, their simplification
    (include/revng/RegisterUsageAnalyses/Function.h) and the edges that make every
    node reach the sink (lib/EarlyFunctionAnalysis/AnalyzeRegisterUsage.cpp). *)

From S2P Require Import Prelude.
From stdpp Require Import gmap list relations.
From S2P Require MFP.
From S2P Require Import Reachability GenericGraph.

(** ** Functions *)

Module OperationType.
(* include/revng/RegisterUsageAnalyses/Function.h:24-29 OperationType::Values *)
Inductive Values : Set := Invalid | Read | Write | Clobber.

#[export] Instance Values_eq_dec : EqDecision Values.
Proof. solve_decision. Defined.
End OperationType.
Export (hints) OperationType.

(** [Target] is the 8-bit index of a CSV. *)
(* include/revng/RegisterUsageAnalyses/Function.h:49-56 Operation *)
Record Operation := mkOp { Type_ : OperationType.Values; Target : nat }.

(** The label of a block is only for debugging. *)
(* include/revng/RegisterUsageAnalyses/Function.h:60-68 Block *)
Definition Block : Type := list Operation.

Notation Graph := (GenericGraph (list Operation) unit).

Section csvs.
  (** The addresses of the CSVs, [llvm::GlobalVariable]s. *)
  Context {GlobalVariable : Type} `{Countable GlobalVariable}.

(* include/revng/RegisterUsageAnalyses/Function.h:98-104 Function *)
Record Function := mkFunction {
  graph : Graph;
  IndexToCSV : gmap nat GlobalVariable;
  CSVToIndex : gmap GlobalVariable nat;
}.

(* include/revng/RegisterUsageAnalyses/Function.h:107-125 Function::csvIndex *)
Definition csvIndex (CSV : GlobalVariable) (F : Function) : outcome (Function * nat) :=
  match CSVToIndex F !! CSV with
  | Some Index => Ok (F, Index)
  | None =>
    let CSVCount := base.size (CSVToIndex F) in
    revng_assert (CSVCount <=? 255);;
    let F := mkFunction (graph F) (<[CSVCount := CSV]> (IndexToCSV F)) (<[CSV := CSVCount]> (CSVToIndex F)) in
    revng_assert (base.size (CSVToIndex F) =? base.size (IndexToCSV F));;
    revng_assert (base.size (CSVToIndex F) =? 1 + CSVCount);;
    Ok (F, CSVCount)
  end.

(* include/revng/RegisterUsageAnalyses/Function.h:127-131 Function::csvByIndex *)
Definition csvByIndex (F : Function) (Index : nat) : outcome GlobalVariable :=
  match IndexToCSV F !! Index with Some CSV => Ok CSV | None => Fault AssertionFailed end.

(** The result is an 8-bit integer. *)
(* include/revng/RegisterUsageAnalyses/Function.h:133-133 Function::csvCount *)
Definition csvCount (F : Function) : nat := base.size (IndexToCSV F) mod 256.
End csvs.
Arguments Function : clear implicits.
Arguments Function _ {_ _}.

(** The operations of a node. *)
Definition opsOf (g : Graph) (N : NodeT) : list Operation :=
  match Store g !! N with Some n => data n | None => [] end.

(** *** Simplification *)

(** The predicate of [erase_if], which merges the node in its predecessor. *)
(* include/revng/RegisterUsageAnalyses/Function.h:150-190 Function::simplify *)
Definition simplifyNode (ToPreserve : gset NodeT) (N : NodeT) (g : Graph) : outcome (Graph * bool) :=
  n ← deref g N;
  if negb (length (Predecessors n) =? 1) then Ok (g, false) else
  '(Predecessor, _) ← elementAt (Predecessors n) 0;
  p ← deref g Predecessor;
  if negb (length (Successors p) =? 1) then Ok (g, false) else
  '(Successor, _) ← elementAt (Successors p) 0;
  revng_assert (bool_decide (Successor = N));;
  if bool_decide (N = Predecessor) then Ok (g, false) else
  if bool_decide (N ∈ ToPreserve) || bool_decide (Predecessor ∈ ToPreserve) then Ok (g, false) else
  if existsb (λ e, bool_decide (e.1 = N) || bool_decide (e.1 = Predecessor)) (Successors n) then Ok (g, false) else
  g ← clearPredecessors N g;
  n ← deref g N;
  g ← foldl (λ g e, g ← g; addSuccessor Predecessor e.1 tt g) (Ok g) (Successors n);
  g ← clearSuccessors N g;
  n ← deref g N;
  g ← modify (λ p, mkNode (data p ++ data n) (Successors p) (Predecessors p)) Predecessor g;
  Ok (g, true).

(** The node is destroyed when [erase_if] drops it; no edge refers to it then. *)
Definition dropNode (N : NodeT) (g : Graph) : Graph :=
  mkGraph (filter (λ M, M ≠ N) (Nodes g)) (delete N (Store g)) (EntryNode g).

(* include/revng/RegisterUsageAnalyses/Function.h:149-191 Function::simplify *)
Fixpoint simplifyNodes (ToPreserve : gset NodeT) (Ns : list NodeT) (g : Graph) : outcome Graph :=
  match Ns with
  | [] => Ok g
  | N :: Ns =>
    '(g, Erase) ← simplifyNode ToPreserve N g;
    simplifyNodes ToPreserve Ns (if (Erase : bool) then dropNode N g else g)
  end.

(* include/revng/RegisterUsageAnalyses/Function.h:149-191 Function::simplify *)
Definition simplify (ToPreserve : gset NodeT) (g : Graph) : outcome Graph :=
  simplifyNodes ToPreserve (Nodes g) g.

(** ** The sink *)

Section sink.
  (** [llvm::inverse_depth_first_ext]: the nodes from which a node is reached. *)
  Context (inverse_depth_first : Graph → NodeT → gset NodeT).

(* lib/EarlyFunctionAnalysis/AnalyzeRegisterUsage.cpp:68-79 findUnrechableNode *)
Definition findUnrechableNode (g : Graph) (Start : NodeT) : option NodeT :=
  snd <$> list_find (λ N, N ∉ inverse_depth_first g Start) (Nodes g).

(** [fuel] bounds the number of edges added. *)
(* lib/EarlyFunctionAnalysis/AnalyzeRegisterUsage.cpp:226-232 fromLLVMFunction *)
Fixpoint connectSink (fuel : nat) (SinkNode : NodeT) (g : Graph) : outcome Graph :=
  match findUnrechableNode g SinkNode, fuel with
  | None, _ => Ok g
  | Some _, O => Fault OutOfFuel
  | Some MaybeUnrechableNode, S fuel =>
    g ← addPredecessor SinkNode MaybeUnrechableNode tt g; connectSink fuel SinkNode g
  end.
End sink.

(** ** Runs

    The operations executed along a path, from the start of a node to the end of
    another one. *)

Section runs.
  Context {A : Type}.

Inductive run (ops : NodeT → list A) (next : NodeT → list NodeT) : NodeT → list A → NodeT → Prop :=
  | run_end a : run ops next a (ops a) a
  | run_step a b o c : b ∈ next a → run ops next b o c → run ops next a (ops a ++ o) c.

Lemma run_trans ops next a o b c o' d :
  run ops next a o b → c ∈ next b → run ops next c o' d → run ops next a (o ++ o') d.
Proof.
  intros Hr. induction Hr as [a|a b o e Hab Hbe IH]; intros Hc Hd; [by eapply run_step|].
  rewrite <-app_assoc. eapply run_step; [done|]. by apply IH.
Qed.

Lemma run_prefix ops next a o b : run ops next a o b → ∃ o', o = ops a ++ o'.
Proof. intros [c|c d o' e _ _]; [exists []; by rewrite app_nil_r|by exists o']. Qed.

(** A node merged in its predecessor. *)
Context (ops ops' : NodeT → list A) (next next' : NodeT → list NodeT) (N P : NodeT).
Hypothesis distinct : N ≠ P.
Hypothesis only_successor : ∀ x, x ∈ next P ↔ x = N.
Hypothesis only_predecessor : ∀ x, N ∈ next x → x = P.
Hypothesis no_loop : N ∉ next N ∧ P ∉ next N.
Hypothesis merged : ops' P = ops P ++ ops N ∧ ∀ x, x ∈ next' P ↔ x ∈ next N.
Hypothesis others : ∀ x, x ≠ N → x ≠ P → ops' x = ops x ∧ ∀ y, y ∈ next' x ↔ y ∈ next x.

Lemma merge_run a o b : a ≠ N → b ≠ N → b ≠ P → run ops next a o b → run ops' next' a o b.
Proof using All.
  intros Ha Hb HbP Hr.
  assert ((a ≠ N → run ops' next' a o b) ∧ (a = N → run ops' next' P (ops P ++ o) b)) as [Hrun _]; [|auto].
  clear Ha. induction Hr as [a|a c o b Hac Hcb IH].
  - split; [|done]. intros Ha. destruct (others a Ha HbP) as [<- _]. constructor.
  - destruct (IH Hb HbP) as [IH1 IH2]. split.
    + intros Ha. destruct (decide (a = P)) as [->|HaP].
      * apply only_successor in Hac as ->. by apply IH2.
      * destruct (others a Ha HaP) as [<- Hn]. apply (run_step _ _ _ c); [by apply Hn|]. apply IH1.
        intros ->. by apply HaP, only_predecessor.
    + intros ->. rewrite app_assoc.
      destruct merged as [<- Hm]. apply (run_step _ _ _ c); [by apply Hm|]. apply IH1.
      intros ->. by destruct no_loop.
Qed.

Lemma unmerge_run a o b : a ≠ N → b ≠ N → b ≠ P → (∀ x, N ∉ next' x) → run ops' next' a o b → run ops next a o b.
Proof using All.
  intros Ha Hb HbP HN Hr. induction Hr as [a|a c o b Hac Hcb IH].
  - destruct (others a Ha HbP) as [-> _]. constructor.
  - assert (c ≠ N) as HcN by (intros ->; by apply (HN a)). specialize (IH HcN Hb HbP).
    destruct (decide (a = P)) as [->|HaP].
    + destruct merged as [-> Hm]. rewrite <-app_assoc. apply (run_step _ _ _ N); [by apply only_successor|].
      apply (run_step _ _ _ c); [by apply Hm|done].
    + destruct (others a Ha HaP) as [-> Hn]. apply (run_step _ _ _ c); [by apply Hn|done].
Qed.
End runs.

(** The runs of a graph. *)
Definition nextOf (g : Graph) (N : NodeT) : list NodeT := map fst (succs g N).
Definition runOf (g : Graph) : NodeT → list Operation → NodeT → Prop := run (opsOf g) (nextOf g).

Lemma nextOf_edges g x y : y ∈ nextOf g x ↔ 0 < edgesOf g x y tt.
Proof. unfold nextOf. rewrite elem_succs. split; [by intros [[] ?]|by exists tt]. Qed.

(** ** What simplification does *)

Lemma filter_delete {A} `{EqDecision A} (l : list A) i x :
  NoDup l → l !! i = Some x → filter (λ y, y ≠ x) l = delete i l.
Proof.
  revert i. induction l as [|y l IH]; [done|]. intros i [Hy Hl]%NoDup_cons Hi.
  destruct i as [|i]; simpl in Hi |- *.
  - injection Hi as ->. rewrite filter_cons_False by naive_solver. clear -Hy. induction l as [|z l IH]; [done|]. rewrite filter_cons_True; [f_equal; apply IH|]; set_solver.
  - rewrite filter_cons_True; [by rewrite (IH i)|]. intros ->. apply Hy. by eapply list_elem_of_lookup_2.
Qed.

(** A node without edges is dropped. *)
Lemma dropNode_spec (g : Graph) N :
  wf g → N ∈ Nodes g → (∀ x m, edgesOf g x N m = 0 ∧ edgesOf g N x m = 0) →
  wf (dropNode N g) ∧ (∀ x, x ∈ Nodes (dropNode N g) ↔ x ∈ Nodes g ∧ x ≠ N) ∧
  (∀ x, x ≠ N → opsOf (dropNode N g) x = opsOf g x) ∧
  ∀ x y m, edgesOf (dropNode N g) x y m = edgesOf g x y m.
Proof.
  intros Hwf [i Hi]%list_elem_of_lookup_1 H0. destruct (removeNode_spec g i N Hwf Hi H0) as (g' & Hg' & Hwf' & HN & _ & He).
  assert (dropNode N g = g') as <-.
  { unfold removeNode, elementAt in Hg'. rewrite Hi in Hg'. simpl in Hg'. injection Hg' as <-.
    unfold dropNode. by rewrite (filter_delete _ i N) by (done || apply Hwf). }
  split; [done|]. split; [|split; [|done]].
  - intros x. unfold dropNode. simpl. rewrite list_elem_of_filter. naive_solver.
  - intros x Hx. unfold opsOf, dropNode. simpl. by rewrite lookup_delete_ne.
Qed.

Lemma sameNodes_ops (g g' : Graph) x : sameNodes g g' → opsOf g' x = opsOf g x.
Proof.
  intros (_ & _ & Hd). specialize (Hd x). unfold opsOf.
  destruct (Store g !! x), (Store g' !! x); simpl in Hd; congruence.
Qed.

(** The successors moved to the predecessor. *)
Lemma addSuccessors_spec P (es : list (NodeT * unit)) (g : Graph) :
  mirrored g → is_Some (Store g !! P) → (∀ e, e ∈ es → is_Some (Store g !! e.1)) →
  ∃ g', foldl (λ g e, g ← g; addSuccessor P e.1 tt g) (Ok g) es = Ok g' ∧ sameNodes g g' ∧ mirrored g' ∧
    ∀ x y m, edgesOf g' x y m = edgesOf g x y m + (if decide (x = P) then count (y, m) es else 0).
Proof.
  revert g. induction es as [|[y []] es IH]; intros g Hm HP Hes; simpl.
  { exists g. split; [done|]. split; [done|]. split; [done|]. intros x y m. case_decide; lia. }
  destruct (addSuccessor_spec g P y tt Hm HP) as (g1 & -> & Hs1 & Hm1 & He1); [by apply (Hes (y, tt)); left|].
  destruct (IH g1 Hm1) as (g' & Hg' & Hs' & Hm' & He').
  { by apply (sameNodes_is_Some g). }
  { intros e He. apply (sameNodes_is_Some g); [done|]. apply Hes. by right. }
  exists g'. split; [done|]. split; [by eapply sameNodes_trans|]. split; [done|].
  intros x z []. rewrite He', He1. repeat case_decide; simplify_eq; first [lia|congruence].
Qed.

Lemma mirrored_ext (g g' : Graph) :
  (∀ x, succs g' x = succs g x) → (∀ x, preds g' x = preds g x) → mirrored g → mirrored g'.
Proof. intros HS HP Hm x y m. by rewrite HS, HP. Qed.

(** Changing the operations of a node. *)
Lemma modifyData_spec (f : list Operation → list Operation) P (g : Graph) :
  wf g → P ∈ Nodes g →
  ∃ g', modify (λ p, mkNode (f (data p)) (Successors p) (Predecessors p)) P g = Ok g' ∧ wf g' ∧
    Nodes g' = Nodes g ∧ opsOf g' P = f (opsOf g P) ∧ (∀ x, x ≠ P → opsOf g' x = opsOf g x) ∧
    ∀ x y m, edgesOf g' x y m = edgesOf g x y m.
Proof.
  intros Hwf HP. destruct (wf_is_Some g P Hwf HP) as [p Hp].
  unfold modify, deref. rewrite Hp. simpl. eexists. split; [done|]. set (g' := mkGraph _ _ _).
  assert (∀ x, succs g' x = succs g x) as HS.
  { intros x. unfold succs, g'. simpl. destruct (decide (x = P)) as [->|];
      [by rewrite lookup_insert_eq, Hp|by rewrite lookup_insert_ne]. }
  assert (∀ x, preds g' x = preds g x) as HPr.
  { intros x. unfold preds, g'. simpl. destruct (decide (x = P)) as [->|];
      [by rewrite lookup_insert_eq, Hp|by rewrite lookup_insert_ne]. }
  destruct Hwf as [Hm [HND Ho]]. split; [split; [by eapply mirrored_ext|split; [done|]]|].
  { intros x. simpl. rewrite Ho. rewrite lookup_insert_is_Some'. destruct (decide (x = P)) as [->|].
    - rewrite Hp. naive_solver.
    - naive_solver. }
  split; [done|]. unfold opsOf. simpl. rewrite lookup_insert_eq, Hp. split; [done|]. split.
  - intros x Hx. by rewrite lookup_insert_ne.
  - intros x y m. unfold edgesOf. by rewrite HS.
Qed.

(** [N] is the only successor of its only predecessor [P], and leads to neither. *)
Record mergeable (g : Graph) (N P : NodeT) : Prop := {
  mg_distinct : N ≠ P;
  mg_nodes : N ∈ Nodes g ∧ P ∈ Nodes g;
  mg_pred : preds g N = [(P, tt)];
  mg_succ : succs g P = [(N, tt)];
  mg_loop m : edgesOf g N N m = 0 ∧ edgesOf g N P m = 0;
}.

(** [N] is merged in [P]. *)
Record merges (g g' : Graph) (N P : NodeT) : Prop := {
  ms_wf : wf g';
  ms_nodes x : x ∈ Nodes g' ↔ x ∈ Nodes g ∧ x ≠ N;
  ms_ops : opsOf g' P = opsOf g P ++ opsOf g N;
  ms_others x : x ≠ N → x ≠ P → opsOf g' x = opsOf g x;
  ms_edges x y m : edgesOf g' x y m =
    if decide (x = P) then edgesOf g N y m else if decide (x = N) then 0 else edgesOf g x y m;
}.

Lemma count_nil {A} `{EqDecision A} (x : A) : count x [] = 0.
Proof. done. Qed.

Lemma mergeable_edges g N P x m : mirrored g → mergeable g N P → edgesOf g x N m = if decide (x = P) then 1 else 0.
Proof.
  intros Hm Hg. unfold edgesOf. rewrite Hm, (mg_pred _ _ _ Hg). destruct m. simpl.
  repeat case_decide; simplify_eq; first [done|congruence].
Qed.

Lemma mergeable_from g N P y m : mergeable g N P → edgesOf g P y m = if decide (y = N) then 1 else 0.
Proof.
  intros Hg. unfold edgesOf. rewrite (mg_succ _ _ _ Hg). destruct m. simpl.
  repeat case_decide; simplify_eq; first [done|congruence].
Qed.

(** The body of the merge. *)
Lemma mergeNodes_spec (g : Graph) N P :
  wf g → mergeable g N P →
  ∃ g', (g ← clearPredecessors N g; n ← deref g N;
         g ← foldl (λ g e, g ← g; addSuccessor P e.1 tt g) (Ok g) (Successors n);
         g ← clearSuccessors N g; n ← deref g N;
         g ← modify (λ p, mkNode (data p ++ data n) (Successors p) (Predecessors p)) P g; Ok (g, true)) = Ok (g', true) ∧
    merges g (dropNode N g') N P.
Proof.
  intros Hwf Hg. pose proof (mg_nodes _ _ _ Hg) as [HN HP]. pose proof (proj1 Hwf) as Hm.
  destruct (clearPredecessors_spec g N Hm (wf_is_Some g N Hwf HN)) as (g1 & -> & Hs1 & Hm1 & He1). simpl.
  assert (wf g1) as Hwf1 by by eapply sameNodes_wf.
  assert (Nodes g1 = Nodes g) as HNodes1 by apply Hs1.
  destruct (wf_is_Some g1 N Hwf1) as [n Hn]; [by rewrite HNodes1|]. rewrite (proj2 (deref_Ok g1 N n) Hn). simpl.
  assert (Successors n = succs g1 N) as -> by (unfold succs; by rewrite Hn).
  destruct (addSuccessors_spec P (succs g1 N) g1 Hm1) as (g2 & -> & Hs2 & Hm2 & He2).
  { apply wf_is_Some; [done|by rewrite HNodes1]. }
  { intros [y l] He. by eapply mirrored_is_Some. }
  simpl. assert (wf g2) as Hwf2 by by eapply sameNodes_wf.
  assert (Nodes g2 = Nodes g) as HNodes2 by (rewrite <-HNodes1; apply Hs2).
  destruct (clearSuccessors_spec g2 N Hm2) as (g3 & -> & Hs3 & Hm3 & He3).
  { apply wf_is_Some; [done|by rewrite HNodes2]. }
  simpl. assert (wf g3) as Hwf3 by by eapply sameNodes_wf.
  assert (Nodes g3 = Nodes g) as HNodes3 by (rewrite <-HNodes2; apply Hs3).
  assert (∀ x, opsOf g3 x = opsOf g x) as Hops3.
  { intros x. rewrite (sameNodes_ops g2 g3) by done. rewrite (sameNodes_ops g1 g2) by done. by apply sameNodes_ops. }
  destruct (wf_is_Some g3 N Hwf3) as [n3 Hn3]; [by rewrite HNodes3|]. rewrite (proj2 (deref_Ok g3 N n3) Hn3). simpl.
  assert (data n3 = opsOf g N) as Hd by (rewrite <-Hops3; unfold opsOf; by rewrite Hn3).
  destruct (modifyData_spec (λ d, d ++ data n3) P g3 Hwf3) as (g4 & -> & Hwf4 & HNodes4 & HP4 & Ho4 & He4);
    [by rewrite HNodes3|]. simpl. exists g4. split; [done|].
  assert (∀ x y m, edgesOf g4 x y m =
    if decide (x = P) then edgesOf g N y m else if decide (x = N) then 0 else edgesOf g x y m) as He.
  { intros x y m. rewrite He4, He3, He2. change (count (y, m) (succs g1 N)) with (edgesOf g1 N y m). rewrite !He1.
    pose proof (mergeable_edges g N P x m Hm Hg). pose proof (mergeable_from g N P y m Hg).
    pose proof (mg_distinct _ _ _ Hg). pose proof (mg_loop _ _ _ Hg m) as [? ?].
    repeat case_decide; subst; first [congruence|lia]. }
  destruct (dropNode_spec g4 N Hwf4) as (Hwf5 & HN5 & Ho5 & He5); [by rewrite HNodes4, HNodes3| |].
  { intros x m. rewrite !He. pose proof (mergeable_edges g N P x m Hm Hg). pose proof (mg_distinct _ _ _ Hg).
    pose proof (mg_loop _ _ _ Hg m) as [? ?]. repeat case_decide; subst; split; first [congruence|lia]. }
  split; try done.
  - intros x. by rewrite HN5, HNodes4, HNodes3.
  - rewrite Ho5 by (apply not_eq_sym, Hg). by rewrite HP4, Hops3, Hd.
  - intros x HxN HxP. by rewrite Ho5, Ho4, Hops3.
  - intros x y m. by rewrite He5, He.
Qed.

Lemma existsb_loop (n : Node (list Operation) unit) N P (g : Graph) :
  succs g N = Successors n →
  existsb (λ e : NodeT * unit, bool_decide (e.1 = N) || bool_decide (e.1 = P)) (Successors n) = false →
  ∀ m, edgesOf g N N m = 0 ∧ edgesOf g N P m = 0.
Proof.
  intros HS He m. assert (∀ y, y = N ∨ y = P → edgesOf g N y m = 0) as Hy; [|by auto].
  intros y Hy. destruct (edgesOf g N y m) as [|k] eqn:Hk; [done|]. exfalso.
  assert (0 < edgesOf g N y m) as Hin by lia. unfold edgesOf in Hin. rewrite HS in Hin. apply count_pos in Hin.
  apply not_true_iff_false in He. apply He, existsb_exists. exists (y, m).
  split; [by apply list_elem_of_In|]. simpl. apply orb_true_iff. rewrite !bool_decide_eq_true. done.
Qed.

(** Each node is left alone or merged in its predecessor. *)
Lemma simplifyNode_spec ToPreserve N (g : Graph) :
  wf g → N ∈ Nodes g →
  simplifyNode ToPreserve N g = Ok (g, false) ∨
  ∃ g' P, simplifyNode ToPreserve N g = Ok (g', true) ∧ mergeable g N P ∧ merges g (dropNode N g') N P ∧
    N ∉ ToPreserve ∧ P ∉ ToPreserve.
Proof.
  intros Hwf HN. pose proof (proj1 Hwf) as Hm. destruct (wf_is_Some g N Hwf HN) as [n Hn].
  unfold simplifyNode. rewrite (proj2 (deref_Ok g N n) Hn), bind_ok.
  assert (preds g N = Predecessors n) as HPn by (unfold preds; by rewrite Hn).
  assert (succs g N = Successors n) as HSn by (unfold succs; by rewrite Hn).
  destruct (length (Predecessors n) =? 1) eqn:Hlen; [|by left]. cbn [negb].
  destruct (Predecessors n) as [|[P []] [|? ?]] eqn:HP; try discriminate Hlen.
  change (elementAt [(P, tt)] 0) with (Ok (P, tt)). rewrite bind_ok.
  assert ((N, tt) ∈ succs g P) as HPN by (apply (mirrored_halves g P N tt Hm); rewrite HPn; by left).
  destruct (succs_elem g P _ HPN) as (p & Hp & Hin & HSp). rewrite Hp, bind_ok.
  destruct (length (Successors p) =? 1) eqn:Hlen'; [|by left]. cbn [negb].
  destruct (Successors p) as [|[S []] [|? ?]] eqn:HS; try discriminate Hlen'.
  apply list_elem_of_singleton in Hin. injection Hin as <-.
  change (elementAt [(N, tt)] 0) with (Ok (N, tt)). rewrite bind_ok.
  rewrite assert_true by (by apply bool_decide_eq_true).
  case_bool_decide as HNP; [by left|].
  destruct (bool_decide (N ∈ ToPreserve) || bool_decide (P ∈ ToPreserve)) eqn:Hpres; [by left|].
  apply orb_false_iff in Hpres as [HpN%bool_decide_eq_false HpP%bool_decide_eq_false].
  destruct (existsb _ _) eqn:Hloop; [by left|]. right.
  assert (mergeable g N P) as Hg.
  { split; [done| |done|done|by eapply existsb_loop]. split; [done|]. destruct Hwf as [_ [_ Ho]]. apply Ho.
    apply deref_Ok in Hp. by exists p. }
  destruct (mergeNodes_spec g N P Hwf Hg) as (g' & Hg' & Hms). exists g', P. by rewrite Hg'.
Qed.

Lemma merges_runs (g g' : Graph) N P a o b :
  wf g → mergeable g N P → merges g g' N P → a ≠ N → b ≠ N → b ≠ P → runOf g a o b ↔ runOf g' a o b.
Proof.
  intros Hwf Hg Hms Ha Hb HbP.
  assert (∀ x, x ∈ nextOf g P ↔ x = N) as H1.
  { intros x. rewrite nextOf_edges, (mergeable_from g N P x tt Hg). case_decide; naive_solver lia. }
  assert (∀ x, N ∈ nextOf g x → x = P) as H2.
  { intros x. rewrite nextOf_edges, (mergeable_edges g N P x tt (proj1 Hwf) Hg). case_decide; naive_solver lia. }
  assert (N ∉ nextOf g N ∧ P ∉ nextOf g N) as H3.
  { rewrite !nextOf_edges. pose proof (mg_loop _ _ _ Hg tt). lia. }
  assert (∀ x y, y ∈ nextOf g' x ↔ if decide (x = P) then y ∈ nextOf g N else if decide (x = N) then False else y ∈ nextOf g x) as H4.
  { intros x y. rewrite nextOf_edges, (ms_edges _ _ _ _ Hms). repeat case_decide; rewrite ?nextOf_edges; [done|lia|done]. }
  assert (opsOf g' P = opsOf g P ++ opsOf g N ∧ ∀ x, x ∈ nextOf g' P ↔ x ∈ nextOf g N) as H5.
  { split; [apply Hms|]. intros x. rewrite H4. by rewrite decide_True. }
  assert (∀ x, x ≠ N → x ≠ P → opsOf g' x = opsOf g x ∧ ∀ y, y ∈ nextOf g' x ↔ y ∈ nextOf g x) as H6.
  { intros x HxN HxP. split; [by apply Hms|]. intros y. by rewrite H4, !decide_False. }
  pose proof (mg_distinct _ _ _ Hg) as Hd. split.
  - by apply (merge_run _ _ _ _ N P).
  - apply (unmerge_run _ _ _ _ N P); try done. intros x. rewrite H4. repeat case_decide; [apply H3|tauto|].
    intros HN. by apply H2 in HN.
Qed.

(** What simplification promises of the graph it returns. *)
Record simplifies (ToPreserve : gset NodeT) (g g' : Graph) : Prop := {
  sf_wf : wf g';
  sf_nodes x : x ∈ Nodes g' → x ∈ Nodes g;
  sf_preserved x : x ∈ ToPreserve → x ∈ Nodes g → x ∈ Nodes g';
  sf_entry x : x ∈ Nodes g → (∀ y m, edgesOf g y x m = 0) → x ∈ Nodes g' ∧ ∀ y m, edgesOf g' y x m = 0;
  sf_runs a b o : a ∈ Nodes g' → b ∈ ToPreserve → runOf g a o b ↔ runOf g' a o b;
}.

Lemma simplifies_refl ToPreserve (g : Graph) : wf g → simplifies ToPreserve g g.
Proof. by split. Qed.

Lemma simplifies_trans ToPreserve (g1 g2 g3 : Graph) :
  simplifies ToPreserve g1 g2 → simplifies ToPreserve g2 g3 → simplifies ToPreserve g1 g3.
Proof.
  intros [W2 N2 P2 E2 R2] [W3 N3 P3 E3 R3]. split; auto.
  - intros x Hx Hy. destruct (E2 x Hx Hy) as [? ?]. auto.
  - intros a b o Ha Hb. rewrite R2 by auto. auto.
Qed.

Lemma merges_simplifies ToPreserve (g g' : Graph) N P :
  wf g → mergeable g N P → merges g g' N P → N ∉ ToPreserve → P ∉ ToPreserve → simplifies ToPreserve g g'.
Proof.
  intros Hwf Hg Hms HpN HpP. split.
  - apply Hms.
  - intros x Hx%(ms_nodes _ _ _ _ Hms). tauto.
  - intros x Hx Hin. apply (ms_nodes _ _ _ _ Hms). split; [done|set_solver].
  - intros x Hx Hy. split.
    + apply (ms_nodes _ _ _ _ Hms). split; [done|]. intros ->. specialize (Hy P tt).
      rewrite (mergeable_edges g N P P tt (proj1 Hwf) Hg), decide_True in Hy; done.
    + intros y m. rewrite (ms_edges _ _ _ _ Hms). repeat case_decide; auto.
  - intros a b o Ha Hb. apply (ms_nodes _ _ _ _ Hms) in Ha as [_ Ha].
    apply (merges_runs g g' N P); set_solver.
Qed.

Lemma simplifyNodes_spec ToPreserve Ns (g : Graph) :
  wf g → NoDup Ns → (∀ N, N ∈ Ns → N ∈ Nodes g) →
  ∃ g', simplifyNodes ToPreserve Ns g = Ok g' ∧ simplifies ToPreserve g g'.
Proof.
  revert g. induction Ns as [|N Ns IH]; intros g Hwf HND HNs; [exists g; by split; [|apply simplifies_refl]|].
  apply NoDup_cons in HND as [HN HND]. cbn [simplifyNodes].
  destruct (simplifyNode_spec ToPreserve N g Hwf) as [->|(g1 & P & -> & Hg & Hms & HpN & HpP)]; [by apply HNs; left| |];
    rewrite bind_ok.
  - apply IH; [done|done|]. intros M HM. apply HNs. by right.
  - destruct (IH (dropNode N g1)) as (g' & Hg' & Hsf); [apply Hms|done| |].
    + intros M HM. apply (ms_nodes _ _ _ _ Hms). split; [apply HNs; by right|]. by intros ->.
    + exists g'. split; [done|]. eapply simplifies_trans; [by eapply merges_simplifies|done].
Qed.

(** ** Every node reaches the sink *)

Section sinks.
  Context (inverse_depth_first : Graph → NodeT → gset NodeT).
  Hypothesis inverse_depth_first_spec : ∀ g S N, N ∈ inverse_depth_first g S ↔ rtc (λ a b, b ∈ nextOf g a) N S.

(** The nodes that do not reach the sink. *)
Definition unsunk (S : NodeT) (g : Graph) : list NodeT := filter (λ N, N ∉ inverse_depth_first g S) (Nodes g).

(** Edges are only added, from nodes of the graph to the sink. *)
Record sinks (S : NodeT) (g g' : Graph) : Prop := {
  sk_wf : wf g';
  sk_same : sameNodes g g';
  sk_edges x y m : y ≠ S → edgesOf g' x y m = edgesOf g x y m;
  sk_more x y m : edgesOf g x y m ≤ edgesOf g' x y m;
}.

Lemma connectSink_spec S fuel (g : Graph) :
  wf g → S ∈ Nodes g → length (unsunk S g) ≤ fuel →
  ∃ g', connectSink inverse_depth_first fuel S g = Ok g' ∧ sinks S g g' ∧
    ∀ N, N ∈ Nodes g' → rtc (λ a b, b ∈ nextOf g' a) N S.
Proof using Type*.
  revert g. induction fuel as [|fuel IH]; intros g Hwf HS Hlen; cbn [connectSink]; unfold findUnrechableNode;
    (destruct (list_find _ (Nodes g)) as [[i N]|] eqn:Hf; cbn [fmap option_fmap option_map snd]).
  - apply list_find_Some in Hf as (Hi & HN & _). exfalso.
    assert (N ∈ unsunk S g) as Hin by (apply list_elem_of_filter; split; [done|by eapply list_elem_of_lookup_2]).
    destruct (unsunk S g); [by apply elem_of_nil in Hin|simpl in Hlen; lia].
  - exists g. split; [done|]. split; [by split|]. intros N HN. apply inverse_depth_first_spec.
    apply list_find_None in Hf. rewrite Forall_forall in Hf. specialize (Hf N HN). by apply dec_stable in Hf.
  - apply list_find_Some in Hf as (Hi & HN & _). apply list_elem_of_lookup_2 in Hi.
    destruct (addPredecessor_spec g N S tt (proj1 Hwf)) as (g1 & -> & Hs1 & Hm1 & He1); [by apply wf_is_Some..|].
    rewrite bind_ok. assert (Nodes g1 = Nodes g) as HN1 by apply Hs1.
    assert (∀ x y, y ∈ nextOf g x → y ∈ nextOf g1 x) as Hmono.
    { intros x y. rewrite !nextOf_edges, He1. lia. }
    destruct (IH g1) as (g' & Hg' & Hsk & Hall); [by eapply sameNodes_wf|by rewrite HN1| |].
    + assert (length (unsunk S g1) < length (unsunk S g)); [|lia].
      unfold unsunk. rewrite HN1. clear -Hi HN Hmono inverse_depth_first_spec He1.
      assert (∀ x, x ∈ inverse_depth_first g S → x ∈ inverse_depth_first g1 S) as Hsub.
      { intros x. rewrite !inverse_depth_first_spec. apply rtc_subrel. intros a b. apply Hmono. }
      assert (N ∈ inverse_depth_first g1 S) as HN1.
      { apply inverse_depth_first_spec, rtc_once. rewrite nextOf_edges, He1, decide_True by done. lia. }
      assert (∀ l, length (filter (λ M, M ∉ inverse_depth_first g1 S) l) ≤ length (filter (λ M, M ∉ inverse_depth_first g S) l)) as Hle.
      { intros l. induction l as [|x l IHl]; [done|]. rewrite !filter_cons. repeat case_decide; simpl; naive_solver lia. }
      induction (Nodes g) as [|x l IHl]; [by apply elem_of_nil in Hi|]. rewrite !filter_cons.
      apply elem_of_cons in Hi as [<-|Hi].
      * rewrite decide_False by tauto. rewrite decide_True by done. simpl. specialize (Hle l). lia.
      * specialize (IHl Hi). repeat case_decide; simpl; naive_solver lia.
    + exists g'. split; [done|]. split; [|done]. destruct Hsk as [Hw Hs He Hm]. split.
      * done.
      * by eapply sameNodes_trans.
      * intros x y m Hy. rewrite He, He1 by done. rewrite decide_False by congruence. lia.
      * intros x y m. specialize (Hm x y m). specialize (He1 x y m). lia.
  - exists g. split; [done|]. split; [by split|]. intros N HN. apply inverse_depth_first_spec.
    apply list_find_None in Hf. rewrite Forall_forall in Hf. specialize (Hf N HN). by apply dec_stable in Hf.
Qed.
End sinks.

(** ** A concrete traversal, to instantiate the interfaces *)

(** The nodes that reach a node. *)
Definition concreteInverse (g : Graph) (S : NodeT) : gset NodeT :=
  let support := list_to_set (flat_map (nextOf g) (elements (dom (Store g)))) in
  let prev := λ x, filter (λ a, x ∈ nextOf g a) (elements (dom (Store g))) in
  closure prev (closureFuel prev support) {[S]}.

Lemma concreteInverse_spec (g : Graph) S N : N ∈ concreteInverse g S ↔ rtc (λ a b, b ∈ nextOf g a) N S.
Proof.
  unfold concreteInverse. set (prev := λ x, _).
  assert (∀ a x, a ∈ prev x ↔ x ∈ nextOf g a) as Hprev.
  { intros a x. unfold prev. rewrite list_elem_of_filter, elem_of_elements. split; [by intros [? _]|].
    intros Hx. split; [done|]. apply elem_of_dom. unfold nextOf, succs in Hx.
    destruct (Store g !! a); [by eexists|]. by apply elem_of_nil in Hx. }
  rewrite closure_elem.
  - split; intros Hr; induction Hr as [x|x y z Hxy _ IH]; try done.
    + eapply rtc_r; [exact IH|]. by apply Hprev.
    + eapply rtc_r; [exact IH|]. by apply Hprev.
  - intros x Hx. destruct (prev x) as [|a l] eqn:Hp; [done|]. exfalso. apply Hx.
    assert (x ∈ nextOf g a) as Hin by (apply Hprev; rewrite Hp; by left).
    apply elem_of_list_to_set, list_elem_of_In, in_flat_map. exists a. split; [|by apply list_elem_of_In].
    apply list_elem_of_In, elem_of_elements, elem_of_dom. unfold nextOf, succs in Hin.
    destruct (Store g !! a); [by eexists|]. by apply elem_of_nil in Hin.
Qed.

(** ** The analyses on the monotone framework *)

(** [llvm::GraphTraits] of a function and of its inverse. *)
(* include/revng/ADT/GenericGraph.h:1580-1600 GraphTraits<GenericGraph> *)
Definition forwardTraits (g : Graph) : MFP.GraphTraits NodeT := {|
  MFP.getEntryNode := EntryNode g;
  MFP.nodes := Some (Nodes g);
  MFP.successors N := map fst (succs g N);
|}.

(* include/revng/ADT/GenericGraph.h:1603-1633 GraphTraits<Inverse<GenericGraph>> *)
Definition inverseTraits (g : Graph) : MFP.GraphTraits NodeT := {|
  MFP.getEntryNode := EntryNode g;
  MFP.nodes := Some (Nodes g);
  MFP.successors N := map fst (preds g N);
|}.

(** A transfer function that aborts or is undefined is not followed any further:
    the value is arbitrary. *)
Definition orElse {A} (default : A) (r : outcome A) : A := match r with Ok a => a | Fault _ => default end.

(** The operations of the nodes can be executed. *)
Definition executable (g : Graph) : Prop := ∀ N o, o ∈ opsOf g N → Type_ o ≠ OperationType.Invalid.

(** The operations of the nodes can be executed and are on the registers below [n]. *)
Definition goodOps (g : Graph) (n : nat) : Prop :=
  ∀ N o, o ∈ opsOf g N → Type_ o ≠ OperationType.Invalid ∧ Target o < n.

Lemma next_node (g : Graph) N M : wf g → M ∈ nextOf g N → M ∈ Nodes g.
Proof.
  intros [Hm [_ Ho]] ([M' l] & -> & Hin)%list_elem_of_fmap. apply Ho. by eapply mirrored_is_Some.
Qed.

Lemma opsOf_node (g : Graph) N o : wf g → o ∈ opsOf g N → N ∈ Nodes g.
Proof.
  intros [_ [_ Ho]] Hin. apply Ho. unfold opsOf in Hin. destruct (Store g !! N); [by eexists|by apply elem_of_nil in Hin].
Qed.

Lemma inverse_edge (g : Graph) N M : wf g → M ∈ MFP.successors (GraphTraits := inverseTraits g) N ↔ N ∈ nextOf g M.
Proof.
  intros Hwf. cbn [MFP.successors inverseTraits]. rewrite (elem_preds g M N (proj1 Hwf)).
  unfold nextOf. by rewrite elem_succs.
Qed.

Lemma forward_edge (g : Graph) N M : M ∈ MFP.successors (GraphTraits := forwardTraits g) N ↔ M ∈ nextOf g N.
Proof. done. Qed.

(** A post order walk: the nodes that are reached, in any order. *)
Section walk.
  Context (GT : MFP.GraphTraits NodeT) (support : gset NodeT).
  Hypothesis support_spec : ∀ x, x ∉ support → MFP.successors (GraphTraits := GT) x = [].

Definition outside (V : gset NodeT) (x : NodeT) : list NodeT := filter (λ y, y ∉ V) (MFP.successors (GraphTraits := GT) x).

Definition walk : MFP.LLVMPostOrder NodeT (H0 := GT).
Proof using support support_spec.
  refine {| MFP.post_order s V := elements (closure (outside V) (closureFuel (outside V) support) {[s]}) |}.
  - intros s V. apply NoDup_elements.
  - intros s V l Hs. rewrite elem_of_elements, closure_elem.
    + split; apply rtc_subrel; intros x y; unfold outside; rewrite list_elem_of_filter; by intros [? ?].
    + intros x Hx. unfold outside. by rewrite support_spec.
Defined.
End walk.

Lemma forward_support (g : Graph) x : x ∉ dom (Store g) → MFP.successors (GraphTraits := forwardTraits g) x = [].
Proof. intros Hx. cbn. unfold succs. by rewrite (not_elem_of_dom_1 _ _ Hx). Qed.

Lemma inverse_support (g : Graph) x : x ∉ dom (Store g) → MFP.successors (GraphTraits := inverseTraits g) x = [].
Proof. intros Hx. cbn. unfold preds. by rewrite (not_elem_of_dom_1 _ _ Hx). Qed.

Definition forwardWalk (g : Graph) := walk (forwardTraits g) (dom (Store g)) (forward_support g).
Definition inverseWalk (g : Graph) := walk (inverseTraits g) (dom (Store g)) (inverse_support g).


(** *** The numbering of the CSVs *)

Section csv_numbering.
  Context {GlobalVariable : Type} `{Countable GlobalVariable}.
  Implicit Types F : Function GlobalVariable.

(** The two maps are inverse of each other and the indexes are the first ones. *)
Record csvs_numbered F : Prop := {
  cn_inverse i CSV : IndexToCSV F !! i = Some CSV ↔ CSVToIndex F !! CSV = Some i;
  cn_indexes i : is_Some (IndexToCSV F !! i) ↔ i < base.size (IndexToCSV F);
  cn_sizes : base.size (CSVToIndex F) = base.size (IndexToCSV F);
  cn_bound : base.size (IndexToCSV F) ≤ 254;
}.

(** A register is given the first free index the first time it is asked for,
    and the same index from then on; the two maps stay inverse of each other and
    the registers that were there keep their indexes. This is for the indexes
    below 254, the last two 8-bit integers being the keys [llvm::DenseMap]
    reserves. *)
Theorem csvIndex_numbers F CSV :
  csvs_numbered F → is_Some (CSVToIndex F !! CSV) ∨ base.size (IndexToCSV F) < 254 →
  ∃ F' i, csvIndex CSV F = Ok (F', i) ∧ csvs_numbered F' ∧
    CSVToIndex F' !! CSV = Some i ∧ csvByIndex F' i = Ok CSV ∧ i < csvCount F' ∧
    (∀ CSV' j, CSVToIndex F !! CSV' = Some j → CSVToIndex F' !! CSV' = Some j) ∧
    graph F' = graph F.
Proof.
  intros [Hi Hx Hs Hb] Hfree. unfold csvIndex, csvByIndex, csvCount. destruct (CSVToIndex F !! CSV) as [i|] eqn:HC.
  { pose proof (proj2 (Hi i CSV) HC) as HI. assert (i < base.size (IndexToCSV F)) by (apply Hx; by eexists).
    exists F, i. rewrite HI, Nat.mod_small by lia. split_and!; done. }
  destruct Hfree as [[? [=]]|Hfree]. rewrite Hs. set (k := base.size (IndexToCSV F)) in *.
  rewrite (proj2 (Nat.leb_le k 255)) by lia. rewrite assert_true by done. cbn [CSVToIndex IndexToCSV].
  assert (IndexToCSV F !! k = None) as Hnone.
  { destruct (IndexToCSV F !! k) eqn:He; [|done]. assert (k < k); [|lia]. apply Hx. by eexists. }
  assert (base.size (<[k:=CSV]> (IndexToCSV F)) = S k) as Hk1 by by rewrite map_size_insert_None.
  assert (base.size (<[CSV:=k]> (CSVToIndex F)) = S k) as Hk2 by by rewrite map_size_insert_None, Hs.
  rewrite Hk1, Hk2, !assert_true by (apply Nat.eqb_eq; lia).
  eexists _, k. split; [reflexivity|]. cbn [CSVToIndex IndexToCSV graph].
  rewrite !lookup_insert_eq, Hk1, Nat.mod_small by lia. split_and!; try done; try lia.
  - split; cbn [CSVToIndex IndexToCSV]; rewrite ?Hk1, ?Hk2; try lia.
    + intros i CSV'. rewrite !lookup_insert. repeat case_decide; simplify_eq; try done.
      * split; [intros [= <-]; congruence|]. intros HC'. exfalso. apply Hi in HC'. congruence.
      * split; [intros HI'%Hi; congruence|]. intros [= Heq]. by subst i.
    + intros i. rewrite lookup_insert_is_Some', Hx. lia.
  - intros CSV' j Hj. rewrite lookup_insert_ne; [done|]. intros <-. congruence.
Qed.
End csv_numbering.

(** The second register of a function. *)
Lemma csvIndex_numbers_witness :
  csvs_numbered (mkFunction (mkGraph [] ∅ None) {[0 := 7]} {[7 := 0]}) ∧
  ∃ F' i, csvIndex 9 (mkFunction (mkGraph [] ∅ None) {[0 := 7]} {[7 := 0]}) = Ok (F', i) ∧ csvByIndex F' i = Ok 9.
Proof.
  assert (csvs_numbered (mkFunction (mkGraph [] ∅ None) {[0 := 7]} {[7 := 0]})) as HF.
  { split; cbn.
    - intros i CSV. rewrite !lookup_singleton_Some. naive_solver.
    - intros i. rewrite lookup_singleton_is_Some. rewrite map_size_singleton. lia.
    - by rewrite !map_size_singleton.
    - rewrite map_size_singleton. lia. }
  split; [exact HF|]. destruct (csvIndex_numbers _ 9 HF) as (F' & i & Hc & _ & _ & Hb & _).
  - right. cbn. rewrite map_size_singleton. apply leb_complete. reflexivity.
  - exists F', i. split; [exact Hc|exact Hb].
Defined.

(** *** Checks on concrete graphs *)

Definition goodOpsb (g : Graph) (n : nat) : bool :=
  forallb (λ p : NodeT * Node (list Operation) unit,
    forallb (λ o, negb (bool_decide (Type_ o = OperationType.Invalid)) && (Target o <? n)) (data p.2)) (map_to_list (Store g)).

Lemma goodOpsb_spec (g : Graph) n : goodOpsb g n = true → goodOps g n.
Proof.
  intros Hb N o Ho. unfold opsOf in Ho. destruct (Store g !! N) as [x|] eqn:Hx; [|by apply elem_of_nil in Ho].
  unfold goodOpsb in Hb. rewrite forallb_forall in Hb.
  specialize (Hb (N, x)). rewrite forallb_forall in Hb.
  assert (negb (bool_decide (Type_ o = OperationType.Invalid)) && (Target o <? n) = true) as [H1 H2]%andb_true_iff.
  { apply Hb; [|by apply list_elem_of_In]. by apply list_elem_of_In, elem_of_map_to_list. }
  split; [|by apply Nat.ltb_lt]. apply negb_true_iff in H1. by apply bool_decide_eq_false in H1.
Qed.

(** Every node reaches [S]. *)
Lemma sinks_spec (g : Graph) S :
  forallb (λ N, bool_decide (N ∈ concreteInverse g S)) (Nodes g) = true →
  ∀ M, M ∈ Nodes g → rtc (λ a b, b ∈ nextOf g a) M S.
Proof.
  rewrite forallb_forall. intros Hall M HM. apply concreteInverse_spec.
  specialize (Hall M). apply bool_decide_eq_true in Hall; [done|]. by apply list_elem_of_In.
Qed.

Lemma goodOps_executable (g : Graph) n : goodOps g n → executable g.
Proof. intros Hg N o Ho. by apply (Hg N o). Qed.

(** ** Properties *)

(** C30: simplification never fails on a consistent graph, and preserves behaviour:
    nodes to preserve and nodes without predecessors are kept, the graph stays
    consistent, and between a remaining node and a node to preserve exactly the
    same sequences of operations can be executed as before. *)
Theorem simplify_preserves_runs ToPreserve (g : Graph) :
  wf g → ∃ g', simplify ToPreserve g = Ok g' ∧ wf g' ∧
    (∀ N, N ∈ Nodes g' → N ∈ Nodes g) ∧
    (∀ N, N ∈ Nodes g → N ∈ ToPreserve ∨ (∀ x m, edgesOf g x N m = 0) → N ∈ Nodes g') ∧
    ∀ a b o, a ∈ Nodes g' → b ∈ ToPreserve → runOf g a o b ↔ runOf g' a o b.
Proof.
  intros Hwf. destruct (simplifyNodes_spec ToPreserve (Nodes g) g Hwf) as (g' & Hg' & [W N P E R]); [apply Hwf|done|].
  exists g'. split; [done|]. split; [done|]. split; [done|]. split; [|done].
  intros x Hx [?|Hy]; [by apply P|by apply E].
Qed.

(** A loop entered through a chain of nodes, that leaves to a sink. *)
Definition chain : Graph :=
  let N d s p := mkNode d (map (λ x, (x, tt)) s) (map (λ x, (x, tt)) p) in
  let w := mkOp OperationType.Write 0 in let r := mkOp OperationType.Read 0 in
  mkGraph [1; 2; 3; 4]%positive
    (list_to_map [(1, N [w] [2] []); (2, N [r] [3] [1]); (3, N [] [3; 4] [2; 3]); (4, N [] [] [3])]%positive)
    (Some 1%positive).

Lemma chain_wf : wf chain.
Proof. apply consistent_wf. vm_compute. reflexivity. Qed.

Lemma simplify_preserves_runs_witness :
  wf chain ∧ ∃ g', simplify {[4%positive]} chain = Ok g' ∧ Nodes g' = [1; 3; 4]%positive ∧
    ∀ o, runOf chain 1%positive o 4%positive ↔ runOf g' 1%positive o 4%positive.
Proof.
  split; [exact chain_wf|]. destruct (simplify_preserves_runs {[4%positive]} chain chain_wf) as (g' & Hg' & _ & _ & _ & HR).
  exists g'. split; [exact Hg'|].
  assert (Nodes g' = [1; 3; 4]%positive) as HN.
  { assert (fmap Nodes (match simplify {[4%positive]} chain with Ok g => Some g | Fault _ => None end) = Some [1; 3; 4]%positive)
      as Hs by (vm_compute; reflexivity). rewrite Hg' in Hs. simpl in Hs. congruence. }
  split; [exact HN|]. intros o. apply HR; [rewrite HN; left|]. apply elem_of_singleton_2. reflexivity.
Defined.

(** C37: the loop that connects nodes to the sink ends after at most as many
    rounds as there are nodes that do not reach it, never fails, only adds edges
    to the sink, and afterwards every node reaches the sink. *)
Theorem every_node_sinks (inverse_depth_first : Graph → NodeT → gset NodeT) S (g : Graph) :
  (∀ g S N, N ∈ inverse_depth_first g S ↔ rtc (λ a b, b ∈ nextOf g a) N S) →
  wf g → S ∈ Nodes g →
  ∀ fuel, length (unsunk inverse_depth_first S g) ≤ fuel →
  ∃ g', connectSink inverse_depth_first fuel S g = Ok g' ∧ wf g' ∧ sameNodes g g' ∧
    (∀ x y m, y ≠ S → edgesOf g' x y m = edgesOf g x y m) ∧
    (∀ x y m, edgesOf g x y m ≤ edgesOf g' x y m) ∧
    ∀ N, N ∈ Nodes g' → rtc (λ a b, b ∈ nextOf g' a) N S.
Proof.
  intros Hidf Hwf HS fuel Hfuel.
  destruct (connectSink_spec inverse_depth_first Hidf S fuel g Hwf HS Hfuel) as (g' & Hg' & [W N E M] & Hall).
  exists g'. split; [done|]. by split.
Qed.

(** Without the edge to the sink. *)
Definition unconnected : Graph :=
  let N d s p := mkNode d (map (λ x, (x, tt)) s) (map (λ x, (x, tt)) p) in
  mkGraph [1; 2; 3]%positive (list_to_map [(1, N [] [2] []); (2, N [] [2] [1; 2]); (3, N [] [] [])]%positive) None.

Lemma unconnected_wf : wf unconnected.
Proof. apply consistent_wf. vm_compute. reflexivity. Qed.

Lemma every_node_sinks_witness :
  wf unconnected ∧ ∃ g', connectSink concreteInverse 2 3%positive unconnected = Ok g' ∧
    ∀ N, N ∈ Nodes g' → rtc (λ a b, b ∈ nextOf g' a) N 3%positive.
Proof.
  split; [exact unconnected_wf|].
  destruct (every_node_sinks concreteInverse 3%positive unconnected concreteInverse_spec unconnected_wf) with (fuel := 2)
    as (g' & Hg' & _ & _ & _ & _ & Hall).
  - unfold unconnected. simpl. apply elem_of_cons. right. apply elem_of_cons. right. by apply elem_of_cons; left.
  - apply leb_complete. vm_compute. reflexivity.
  - exists g'. split; [exact Hg'|exact Hall].
Defined.
