(* ===== verification/LLVMBitVector.v ===== *)
(** * LLVM's bit vectors

    The interface of [llvm::BitVector] the register usage analyses rely on, and
    its vectors as sets of bits. *)

From S2P Require Import Prelude.
From stdpp Require Import list.
From S2P Require MFP.

(** ** Interface to LLVM *)

(** [llvm::BitVector], on indices inside of it and on operands of one size. *)
Class LLVMBitVector := {
  BitVector : Type;
  bv_eq : BitVector → BitVector → bool;
  bv_size : BitVector → nat;
  bv_test : BitVector → nat → bool;
  bv_empty : BitVector;
  bv_resize : BitVector → nat → BitVector;
  bv_set : BitVector → nat → BitVector;
  bv_reset : BitVector → nat → BitVector;
  bv_resetAll : BitVector → BitVector;
  bv_flip : BitVector → BitVector;
  bv_or : BitVector → BitVector → BitVector;
  bv_and : BitVector → BitVector → BitVector;
  bv_anyCommon : BitVector → BitVector → bool;
  set_bits : BitVector → list nat;
  bv_eq_spec v w : bv_size v = bv_size w →
    bv_eq v w = true ↔ ∀ i, i < bv_size v → bv_test v i = bv_test w i;
  size_empty : bv_size bv_empty = 0;
  size_resize v n : bv_size (bv_resize v n) = n;
  test_resize v n i : i < n → bv_test (bv_resize v n) i = (i <? bv_size v) && bv_test v i;
  size_set v i : i < bv_size v → bv_size (bv_set v i) = bv_size v;
  test_set v i j : i < bv_size v → j < bv_size v → bv_test (bv_set v i) j = (i =? j) || bv_test v j;
  size_reset v i : i < bv_size v → bv_size (bv_reset v i) = bv_size v;
  test_reset v i j : i < bv_size v → j < bv_size v → bv_test (bv_reset v i) j = negb (i =? j) && bv_test v j;
  size_resetAll v : bv_size (bv_resetAll v) = bv_size v;
  test_resetAll v i : i < bv_size v → bv_test (bv_resetAll v) i = false;
  size_flip v : bv_size (bv_flip v) = bv_size v;
  test_flip v i : i < bv_size v → bv_test (bv_flip v) i = negb (bv_test v i);
  size_or v w : bv_size v = bv_size w → bv_size (bv_or v w) = bv_size v;
  test_or v w i : bv_size v = bv_size w → i < bv_size v → bv_test (bv_or v w) i = bv_test v i || bv_test w i;
  size_and v w : bv_size v = bv_size w → bv_size (bv_and v w) = bv_size v;
  test_and v w i : bv_size v = bv_size w → i < bv_size v → bv_test (bv_and v w) i = bv_test v i && bv_test w i;
  anyCommon_spec v w : bv_size v = bv_size w →
    bv_anyCommon v w = true ↔ ∃ i, i < bv_size v ∧ bv_test v i = true ∧ bv_test w i = true;
  set_bits_spec v i : i ∈ set_bits v ↔ i < bv_size v ∧ bv_test v i = true;
}.

Section bits.
  Context `{LLVMBitVector}.

(** Setting a bit outside of a vector is undefined. *)
Definition setBit (v : BitVector) (i : nat) : outcome BitVector :=
  if i <? bv_size v then Ok (bv_set v i) else undefined.
Definition resetBit (v : BitVector) (i : nat) : outcome BitVector :=
  if i <? bv_size v then Ok (bv_reset v i) else undefined.
End bits.

(** ** Vectors of bits as sets *)

Section bit_facts.
  Context `{LLVMBitVector}.

Definition leBits (n : nat) (a b : BitVector) : Prop := ∀ i, i < n → bv_test a i = true → bv_test b i = true.

Lemma and_le a b : bv_size a = bv_size b → bv_eq (bv_and a b) a = true ↔ leBits (bv_size a) a b.
Proof.
  intros Hs. rewrite bv_eq_spec by by apply size_and. rewrite size_and by done. split; intros Hle i Hi.
  - intros Ha. specialize (Hle i Hi). rewrite test_and, Ha in Hle by done. by destruct (bv_test b i).
  - rewrite test_and by done. specialize (Hle i Hi). destruct (bv_test a i); [|done]. by rewrite Hle.
Qed.

Lemma and_le_flip a b : bv_size a = bv_size b → bv_eq (bv_and b a) a = true ↔ leBits (bv_size a) a b.
Proof.
  intros Hs. rewrite bv_eq_spec by (by rewrite size_and). rewrite size_and by done. rewrite <-Hs. split; intros Hle i Hi.
  - intros Ha. specialize (Hle i Hi). rewrite test_and, Ha in Hle by (done || lia). by destruct (bv_test b i).
  - rewrite test_and by (done || lia). specialize (Hle i Hi). destruct (bv_test a i); [|by destruct (bv_test b i)].
    by rewrite Hle.
Qed.

(** The number of bits that are not set. *)
Definition unsetBits (n : nat) (v : BitVector) : nat := sum_list_with (λ i, if bv_test v i then 0 else 1) (seq 0 n).

Lemma unset_le n a b : leBits n a b → unsetBits n b ≤ unsetBits n a.
Proof.
  intros Hle. apply MFP.sum_le. intros i Hi%elem_of_seq. specialize (Hle i).
  destruct (bv_test a i); [rewrite Hle; [done|lia|done]|destruct (bv_test b i); lia].
Qed.

Lemma unset_lt n a b : leBits n a b → ¬ leBits n b a → unsetBits n b < unsetBits n a.
Proof.
  intros Hle Hn.
  assert (∃ i, i < n ∧ bv_test b i = true ∧ bv_test a i = false) as (i & Hi & Hb & Ha).
  { destruct (decide (Forall (λ i, bv_test b i = true → bv_test a i = true) (seq 0 n))) as [HF|HF].
    - exfalso. apply Hn. intros i Hi. rewrite Forall_forall in HF. apply HF, elem_of_seq. lia.
    - apply not_Forall_Exists in HF; [|intros x; apply _]. apply Exists_exists in HF as (i & Hi%elem_of_seq & Hx).
      exists i. split; [lia|]. simpl in Hx. destruct (bv_test b i), (bv_test a i); naive_solver. }
  apply (MFP.sum_lt _ _ _ i).
  - intros j Hj%elem_of_seq. specialize (Hle j). destruct (bv_test a j); [rewrite Hle; [done|lia|done]|destruct (bv_test b j); lia].
  - apply elem_of_seq. lia.
  - rewrite Ha, Hb. lia.
Qed.

Lemma leBits_refl n a : leBits n a a.
Proof. by intros i. Qed.

Lemma leBits_trans n a b c : leBits n a b → leBits n b c → leBits n a c.
Proof. intros Hab Hbc i Hi Ha. auto. Qed.

Lemma or_left n a b : bv_size a = n → bv_size b = n → leBits n a (bv_or a b).
Proof. intros Ha Hb i Hi Ht. rewrite test_or by lia. by rewrite Ht. Qed.

Lemma or_right n a b : bv_size a = n → bv_size b = n → leBits n b (bv_or a b).
Proof. intros Ha Hb i Hi Ht. rewrite test_or by lia. rewrite Ht. by destruct (bv_test a i). Qed.

Lemma or_least n a b c : bv_size a = n → bv_size b = n → leBits n a c → leBits n b c → leBits n (bv_or a b) c.
Proof. intros Ha Hb Hac Hbc i Hi. rewrite test_or by lia. intros [?|?]%orb_true_iff; auto. Qed.

(** A vector that was just resized from the empty one has no bit set. *)
Lemma test_fresh n i : i < n → bv_test (bv_resize bv_empty n) i = false.
Proof. intros Hi. rewrite test_resize, size_empty by done. done. Qed.
End bit_facts.

(** ** Vectors as lists of bits *)

Definition testBit (v : list bool) (i : nat) : bool := default false (v !! i).

Lemma testBit_lookup v i : i < length v → v !! i = Some (testBit v i).
Proof. intros Hi. unfold testBit. by destruct (lookup_lt_is_Some_2 v i Hi) as [b ->]. Qed.

Definition setBits (v : list bool) : list nat := filter (λ i, testBit v i = true) (seq 0 (length v)).

Definition listBits : LLVMBitVector.
Proof.
  refine {|
    BitVector := list bool; bv_eq v w := bool_decide (v = w); bv_size := length; bv_test := testBit; bv_empty := [];
    bv_resize v n := (λ i, testBit v i) <$> seq 0 n; bv_set v i := <[i := true]> v; bv_reset v i := <[i := false]> v;
    bv_resetAll v := (λ _, false) <$> v; bv_flip v := negb <$> v;
    bv_or := zip_with orb; bv_and := zip_with andb;
    bv_anyCommon v w := existsb (λ i, testBit v i && testBit w i) (seq 0 (length v)); set_bits := setBits |}.
  - intros v w Hl. rewrite bool_decide_eq_true. split; [by intros ->|]. intros Hall. apply (list_eq_same_length _ _ (length v)); [done|done|].
    intros i x y Hi. rewrite !testBit_lookup by lia. rewrite Hall by done. congruence.
  - done.
  - intros v n. by rewrite length_fmap, length_seq.
  - intros v n i Hi. unfold testBit at 1. rewrite list_lookup_fmap, lookup_seq_lt by done.
    destruct (Nat.ltb_spec i (length v)); [done|]. cbn. unfold testBit. by rewrite lookup_ge_None_2 by lia.
  - intros v i _. by rewrite length_insert.
  - intros v i j Hi Hj. unfold testBit at 1. rewrite list_lookup_insert. destruct (Nat.eqb_spec i j) as [<-|Hn].
    + by rewrite decide_True.
    + by rewrite decide_False by naive_solver.
  - intros v i _. by rewrite length_insert.
  - intros v i j Hi Hj. unfold testBit at 1. rewrite list_lookup_insert. destruct (Nat.eqb_spec i j) as [<-|Hn].
    + by rewrite decide_True.
    + by rewrite decide_False by naive_solver.
  - intros v. by rewrite length_fmap.
  - intros v i Hi. unfold testBit. by rewrite list_lookup_fmap, testBit_lookup.
  - intros v. by rewrite length_fmap.
  - intros v i Hi. unfold testBit at 1. by rewrite list_lookup_fmap, testBit_lookup.
  - intros v w Hl. by rewrite length_zip_with_l_eq.
  - intros v w i Hl Hi. unfold testBit at 1. rewrite lookup_zip_with, !testBit_lookup by lia. done.
  - intros v w Hl. by rewrite length_zip_with_l_eq.
  - intros v w i Hl Hi. unfold testBit at 1. rewrite lookup_zip_with, !testBit_lookup by lia. done.
  - intros v w Hl. rewrite existsb_exists. split.
    + intros (i & [_ Hi]%in_seq & [? ?]%andb_true_iff). by exists i.
    + intros (i & Hi & ? & ?). exists i. rewrite in_seq. split; [lia|]. by apply andb_true_iff.
  - intros v i. unfold setBits. rewrite list_elem_of_filter, elem_of_seq. intuition lia.
Defined.
