(* ===== verification/Liveness.v ===== *)
(** * Liveness of registers

    The analysis of include/revng/RegisterUsageAnalyses/Liveness.h, as
    [analyzeRegisterUsage] runs it on the monotone framework
    (lib/EarlyFunctionAnalysis/AnalyzeRegisterUsage.cpp): the registers that are
    read, on some path, before they are written. *)

From S2P Require Import Prelude.
From stdpp Require Import gmap list relations.
From S2P Require MFP.
From S2P Require Import GenericGraph RegisterUsage LLVMBitVector.

(** ** The analysis *)

Section analysis.
  Context `{LLVMBitVector}.

(** The largest target, over the nodes. *)
(* include/revng/RegisterUsageAnalyses/Liveness.h:34-39 Liveness::Liveness *)
Fixpoint maxTarget (g : Graph) (Ns : list NodeT) (Max : nat) : outcome nat :=
  match Ns with
  | [] => Ok Max
  | N :: Ns => n ← deref g N; maxTarget g Ns (foldl (λ Max o, Nat.max Max (Target o)) Max (data n))
  end.

(* include/revng/RegisterUsageAnalyses/Liveness.h:33-42 Liveness::Liveness *)
Definition make (g : Graph) : outcome BitVector :=
  Max ← maxTarget g (Nodes g) 0; Ok (bv_resize bv_empty (Max + 1)).

(* include/revng/RegisterUsageAnalyses/Liveness.h:48-52 Liveness::combineValues *)
Definition combineValues (LHS RHS : BitVector) : BitVector := bv_or LHS RHS.

(* include/revng/RegisterUsageAnalyses/Liveness.h:54-59 Liveness::isLessOrEqual *)
Definition isLessOrEqual (LHS RHS : BitVector) : bool := bv_eq (bv_and RHS LHS) LHS.

(* include/revng/RegisterUsageAnalyses/Liveness.h:66-83 Liveness::applyTransferFunction *)
Fixpoint transferOps (Operations : list Operation) (Result : BitVector) : outcome BitVector :=
  match Operations with
  | [] => Ok Result
  | o :: Operations =>
    Result ← match Type_ o with
             | OperationType.Read => setBit Result (Target o)
             | OperationType.Write | OperationType.Clobber => resetBit Result (Target o)
             | OperationType.Invalid => revng_abort
             end;
    transferOps Operations Result
  end.

(** The operations are visited backwards. *)
(* include/revng/RegisterUsageAnalyses/Liveness.h:61-86 Liveness::applyTransferFunction *)
Definition applyTransferFunction (b : Block) (InitialState : BitVector) : outcome BitVector :=
  transferOps (reverse b) InitialState.
End analysis.
Section instances.
  Context `{LLVMBitVector} (g : Graph).

(** The transfer function fails on operations that it asserts not to meet; the instance
    keeps the value there, and the theorems are about graphs without such operations. *)
Definition livenessInstance : MFP.MonotoneFrameworkInstance NodeT BitVector unit := {|
  MFP.combineValues := combineValues;
  MFP.isLessOrEqual := isLessOrEqual;
  MFP.applyTransferFunction N v es := (orElse v (applyTransferFunction (opsOf g N) v), es);
  MFP.DefaultElement := bv_empty;
|}.

Context (labelLess : NodeT → NodeT → bool).
Context (inversePO : MFP.LLVMPostOrder NodeT (H0 := inverseTraits g)).

(* lib/EarlyFunctionAnalysis/AnalyzeRegisterUsage.cpp:265-289 analyzeRegisterUsage *)
Definition runLiveness (fuel : nat) (ReturnNode : NodeT) :
    outcome (option (gmap NodeT (MFP.MFPResult BitVector))) :=
  DefaultValue ← make g;
  r ← MFP.getMaximalFixedPoint (GraphTraits0 := inverseTraits g) (LLVMPostOrder0 := inversePO)
    (MonotoneFrameworkInstance0 := livenessInstance) labelLess fuel tt
    (MFP.mkConfiguration (Some DefaultValue) (Some DefaultValue) (Some [ReturnNode]) MFP.All None);
  Ok match r with Some (Result, _) => Some Result | None => None end.

End instances.

(** ** Accesses to a register *)

(** What the first operation on [c] is. *)
Definition firstAccess (c : nat) (ops : list Operation) : option OperationType.Values :=
  Type_ <$> head (filter (λ o, Target o = c) ops).

Lemma firstAccess_cons c o ops :
  firstAccess c (o :: ops) = if decide (Target o = c) then Some (Type_ o) else firstAccess c ops.
Proof. unfold firstAccess. rewrite filter_cons. by case_decide. Qed.

Lemma firstAccess_app c ops ops' :
  firstAccess c (ops ++ ops') = match firstAccess c ops with None => firstAccess c ops' | r => r end.
Proof. induction ops as [|o ops IH]; [done|]. simpl. rewrite !firstAccess_cons, IH. by case_decide. Qed.

(** *** Liveness *)

Section liveness_facts.
  Context `{LLVMBitVector} (g : Graph) (n : nat).
  #[local] Set Default Proof Using "Type*".

Lemma transferOps_app ops ops' v :
  transferOps (ops ++ ops') v = (r ← transferOps ops v; transferOps ops' r).
Proof using Type.
  revert v. induction ops as [|o ops IH]; intros v; [done|]. cbn [app transferOps].
  destruct (Type_ o); cbn [transferOps]; unfold setBit, resetBit; repeat case_match; simpl; auto.
Qed.

Lemma live_transfer_spec b v :
  (∀ o, o ∈ b → Type_ o ≠ OperationType.Invalid ∧ Target o < n) → bv_size v = n →
  ∃ r, applyTransferFunction b v = Ok r ∧ bv_size r = n ∧ ∀ c, c < n →
    bv_test r c = match firstAccess c b with
                  | None => bv_test v c
                  | Some OperationType.Read => true
                  | Some _ => false
                  end.
Proof using Type.
  intros Hb Hv. unfold applyTransferFunction. induction b as [|o b IH]; [by exists v|].
  destruct IH as (r & Hr & Hs & Ht); [intros o' ?; apply Hb; by right|].
  rewrite reverse_cons, transferOps_app, Hr, bind_ok. destruct (Hb o) as [HT Hn]; [by left|].
  cbn [transferOps]. unfold setBit, resetBit. rewrite Hs, (proj2 (Nat.ltb_lt _ _) Hn).
  destruct (Type_ o) eqn:Ho; [done|..]; rewrite bind_ok; (eexists; split; [reflexivity|]);
    (split; [first [rewrite size_set by lia|rewrite size_reset by lia]; done|]); intros c Hc;
    rewrite firstAccess_cons; first [rewrite test_set by lia|rewrite test_reset by lia];
    destruct (Nat.eqb_spec (Target o) c) as [->|Hne];
    rewrite ?decide_True, ?decide_False by done; rewrite ?Ho; simpl; auto.
Qed.

Context (good : goodOps g n).

Lemma live_transfer N v :
  bv_size v = n →
  let r := orElse v (applyTransferFunction (opsOf g N) v) in
  bv_size r = n ∧ ∀ c, c < n →
    bv_test r c = match firstAccess c (opsOf g N) with
                  | None => bv_test v c
                  | Some OperationType.Read => true
                  | Some _ => false
                  end.
Proof. intros Hv. destruct (live_transfer_spec (opsOf g N) v) as (r & -> & ? & ?); [apply good|done|done]. Qed.

#[local] Instance livenessLaws : MFP.MonotoneLaws NodeT BitVector unit (H := livenessInstance g).
Proof.
  refine {| MFP.valid v := bv_size v = n; MFP.height := unsetBits n;
            MFP.transfer N v := orElse v (applyTransferFunction (opsOf g N) v) |};
    simpl; unfold isLessOrEqual, combineValues.
  - intros a Ha. rewrite and_le_flip by done. apply leBits_refl.
  - intros a b c Ha Hb Hc. rewrite !and_le_flip by lia. rewrite Ha, Hb. apply leBits_trans.
  - intros a b Ha Hb. rewrite size_or; lia.
  - intros a b Ha Hb. rewrite and_le_flip by (rewrite size_or; lia). rewrite Ha. by apply or_left.
  - intros a b Ha Hb. rewrite and_le_flip by (rewrite size_or; lia). rewrite Hb. by apply or_right.
  - intros a b c Ha Hb Hc. rewrite !and_le_flip by (rewrite ?size_or; lia). rewrite size_or, Ha, Hb by lia. by apply or_least.
  - intros a b Ha Hb. rewrite <-not_true_iff_false, !and_le_flip by lia. rewrite Ha, Hb. apply unset_lt.
  - done.
  - intros N a Ha. by apply live_transfer.
  - intros N a b Ha Hb. destruct (live_transfer N a Ha) as [HsA HtA], (live_transfer N b Hb) as [HsB HtB].
    rewrite !and_le_flip by lia. rewrite Ha, HsA. intros Hle c Hc. rewrite HtA, HtB by done.
    destruct (firstAccess c (opsOf g N)) as [[]|]; auto.
Defined.
End liveness_facts.

(** *** The analysis of liveness *)

Section exact.
  Context `{LLVMBitVector} (g : Graph).

Lemma maxTarget_spec Ns Max :
  (∀ N, N ∈ Ns → is_Some (Store g !! N)) →
  ∃ M, maxTarget g Ns Max = Ok M ∧ Max ≤ M ∧
    ∀ N o, N ∈ Ns → o ∈ opsOf g N → Target o ≤ M.
Proof using Type.
  assert (∀ ops Max, Max ≤ foldl (λ Max o, Nat.max Max (Target o)) Max ops ∧
    ∀ o, o ∈ ops → Target o ≤ foldl (λ Max o, Nat.max Max (Target o)) Max ops) as Hfold.
  { intros ops. induction ops as [|o ops IH]; intros Max'; simpl; [split; [done|]; by intros o ?%elem_of_nil|].
    destruct (IH (Nat.max Max' (Target o))) as [H1 H2]. split; [lia|].
    intros o' [->|Ho]%elem_of_cons; [lia|by apply H2]. }
  revert Max. induction Ns as [|N Ns IH]; intros Max HNs; cbn [maxTarget].
  { exists Max. split; [done|]. split; [done|]. by intros N o ?%elem_of_nil. }
  destruct (HNs N) as [n Hn]; [by left|]. rewrite (proj2 (deref_Ok g N n) Hn), bind_ok.
  destruct (IH (foldl (λ Max o, Nat.max Max (Target o)) Max (data n))) as (M & -> & HM & Hall);
    [intros M HM; apply HNs; by right|].
  exists M. split; [done|]. destruct (Hfold (data n) Max) as [H1 H2]. split; [lia|].
  intros N' o [->|HN']%elem_of_cons Ho; [|by apply (Hall N')].
  assert (opsOf g N = data n) as Hops by (unfold opsOf; by rewrite Hn). rewrite Hops in Ho. specialize (H2 o Ho). lia.
Qed.

(** The register [c] is read, along some path from the start of [N], before
    anything else is done with it. *)
Definition live (N : NodeT) (c : nat) : Prop :=
  ∃ o b, runOf g N o b ∧ firstAccess c o = Some OperationType.Read.

(** It is after [N]. *)
Definition liveAfter (N : NodeT) (c : nat) : Prop := ∃ M, M ∈ nextOf g N ∧ live M c.

Lemma live_step N c :
  live N c ↔ firstAccess c (opsOf g N) = Some OperationType.Read ∨
             firstAccess c (opsOf g N) = None ∧ liveAfter N c.
Proof using Type.
  split.
  - intros (o & b & Hr & Hf). destruct Hr as [N|N M o b HM Hr]; [by left|].
    rewrite firstAccess_app in Hf. destruct (firstAccess c (opsOf g N)); [by left|right].
    split; [done|]. exists M. split; [done|]. by exists o, b.
  - intros [Hf|[Hf (M & HM & o & b & Hr & Ho)]].
    + exists (opsOf g N), N. split; [constructor|done].
    + exists (opsOf g N ++ o), b. split; [by eapply run_step|]. by rewrite firstAccess_app, Hf.
Qed.

(** What the result on a node satisfies: the transfer function, the flow from
    the successors, and that every register has a path. *)
Record liveResult (n : nat) (R : gmap NodeT (MFP.MFPResult BitVector)) (N : NodeT)
    (r : MFP.MFPResult BitVector) : Prop := {
  lr_size : bv_size (MFP.InValue r) = n ∧ bv_size (MFP.OutValue r) = n;
  lr_transfer c : c < n → bv_test (MFP.OutValue r) c =
    match firstAccess c (opsOf g N) with
    | None => bv_test (MFP.InValue r) c
    | Some OperationType.Read => true
    | Some _ => false
    end;
  lr_flow M r' : M ∈ nextOf g N → R !! M = Some r' → leBits n (MFP.OutValue r') (MFP.InValue r);
  lr_justified c : c < n → bv_test (MFP.InValue r) c = true → liveAfter N c;
}.

(** Along a path to a read every node reports the register. *)
Lemma live_reported n R c o b M :
  wf g → (∀ N, N ∈ Nodes g → ∃ r, R !! N = Some r ∧ liveResult n R N r) →
  c < n → runOf g M o b → firstAccess c o = Some OperationType.Read → M ∈ Nodes g →
  ∃ r, R !! M = Some r ∧ bv_test (MFP.OutValue r) c = true.
Proof using Type.
  intros Hwf HR Hc Hrun Hf HM. induction Hrun as [M|M M' o b HM' Hrun IH];
    destruct (HR M HM) as (r & Hr & Hres); exists r; (split; [done|]); rewrite (lr_transfer _ _ _ _ Hres) by done.
  - by rewrite Hf.
  - rewrite firstAccess_app in Hf. destruct (firstAccess c (opsOf g M)) as [A|]; [by injection Hf as ->|].
    destruct (IH Hf) as (r' & Hr' & Ht'); [by apply (next_node g M)|]. by apply (lr_flow _ _ _ _ Hres M' r').
Qed.

Lemma liveResult_exact n R N r c :
  wf g → (∀ N, N ∈ Nodes g → ∃ r, R !! N = Some r ∧ liveResult n R N r) →
  N ∈ Nodes g → R !! N = Some r → c < n →
  (bv_test (MFP.InValue r) c = true ↔ liveAfter N c) ∧ (bv_test (MFP.OutValue r) c = true ↔ live N c).
Proof using Type.
  intros Hwf HR HN Hr Hc. destruct (HR N HN) as (r' & Hr' & Hres). assert (r' = r) as -> by congruence.
  assert (bv_test (MFP.InValue r) c = true ↔ liveAfter N c) as Hin.
  { split; [by apply (lr_justified _ _ _ _ Hres)|]. intros (M & HM & o & b & Hrun & Hf).
    destruct (live_reported n R c o b M) as (r' & HrM & Ht); try done; [by apply (next_node g N)|].
    by apply (lr_flow _ _ _ _ Hres M r'). }
  split; [done|]. rewrite live_step, <-Hin, (lr_transfer _ _ _ _ Hres) by done.
  destruct (firstAccess c (opsOf g N)) as [[]|]; naive_solver.
Qed.
Context (labelLess : NodeT → NodeT → bool).
Context (inversePO : MFP.LLVMPostOrder NodeT (H0 := inverseTraits g)).

Lemma runLiveness_results ReturnNode :
  wf g → executable g →
  ∃ n bound, (∀ N o, o ∈ opsOf g N → Target o < n) ∧
    ∀ fuel, bound ≤ fuel → ∃ R, runLiveness g labelLess inversePO fuel ReturnNode = Ok (Some R) ∧
      ∀ N, N ∈ Nodes g → ∃ r, R !! N = Some r ∧ liveResult n R N r.
Proof using Type.
  intros Hwf Hex. destruct (maxTarget_spec (Nodes g) 0) as (Max & HMax & _ & Hall);
    [intros N HN; by apply wf_is_Some|].
  set (n := Max + 1). set (D := bv_resize bv_empty n).
  assert (goodOps g n) as Hgood.
  { intros N o Ho. split; [by eapply Hex|]. specialize (Hall N o (opsOf_node g N o Hwf Ho) Ho). unfold n. lia. }
  assert (bv_size D = n) as HD by apply size_resize.
  destruct (@MFP.getMaximalFixedPoint_spec NodeT BitVector unit _ _ (livenessInstance g) (livenessLaws g n Hgood)
    (inverseTraits g) inversePO labelLess (λ _ _ _, True)
    (MFP.mkConfiguration (Some D) (Some D) (Some [ReturnNode]) MFP.All None) tt (Nodes g)) as (Reach & HReach & Hclosed & Hrun);
    try done.
  cbn [MFP.cBottom MFP.cExtremalValue MFP.cExtremalLabels option.default from_option id] in Hrun.
  exists n. eexists. split; [intros N o Ho; by apply (Hgood N o Ho)|]. intros fuel Hfuel.
  destruct (Hrun fuel Hfuel) as (R & [] & HR & Hl). exists R. split.
  { unfold runLiveness, make. rewrite HMax, !bind_ok. fold n D. by rewrite HR, bind_ok. }
  assert (∀ N, N ∈ Nodes g → N ∈ Reach) as HNR by (intros N HN; apply HReach; by exists N).
  assert (MFP.justified (ML := livenessLaws g n Hgood) (GT := inverseTraits g) Reach
    (MFP.initialValue D D [ReturnNode]) (λ N v, ∀ c, c < n → bv_test v c = true → liveAfter N c)) as HQ.
  { split.
    - intros N _ c Hc. unfold MFP.initialValue, D. case_decide; by rewrite test_fresh.
    - intros N M v v' HN HM%inverse_edge Hv Hv' HQv HQv' c Hc; [|done]. cbn [MFP.valid livenessLaws] in Hv, Hv'.
      cbn [MFP.combineValues livenessInstance MFP.transfer livenessLaws]. unfold combineValues.
      destruct (live_transfer g n Hgood N v Hv) as [HsT HtT]. rewrite test_or by lia.
      intros [Ht|Ht]%orb_true_iff; [by apply HQv'|]. exists N. split; [done|]. apply live_step.
      rewrite HtT in Ht by done. destruct (firstAccess c (opsOf g N)) as [[]|] eqn:Hf; try done; [by left|right].
      split; [done|]. by apply HQv. }
  assert (∀ M, M ∈ Nodes g → ∃ r, R !! M = Some r ∧ bv_size (MFP.InValue r) = n ∧ bv_size (MFP.OutValue r) = n) as Hsize.
  { intros M HM. destruct (Hl M (HNR M HM)) as (r & Hr & Hv & _ & HO & _). exists r. split; [done|]. split; [done|].
    rewrite HO. by apply live_transfer. }
  intros N HN. destruct (Hl N (HNR N HN)) as (r & Hr & Hv & _ & HO & _ & Hs & HJ). exists r. split; [done|].
  destruct (Hsize N HN) as (r1 & Hr1 & Hsizes). assert (r1 = r) as -> by congruence. split; [done| | |].
  - rewrite HO. by apply live_transfer.
  - intros M r' HM Hr'. pose proof (next_node g N M Hwf HM) as HinM.
    destruct (Hl M (HNR M HinM)) as (r1 & Hr1' & _ & _ & _ & _ & HsM & _).
    destruct (Hsize M HinM) as (r2 & Hr2 & _ & HsizeM).
    assert (r1 = r') as -> by congruence. assert (r2 = r') as -> by congruence.
    destruct (HsM N) as (r3 & Hr3 & Hle); [by apply inverse_edge|]. assert (r3 = r) as -> by congruence.
    cbn [MFP.isLessOrEqual livenessInstance] in Hle. unfold isLessOrEqual in Hle.
    rewrite and_le_flip in Hle by lia. by rewrite HsizeM in Hle.
  - intros c Hc Ht. by apply (HJ _ HQ).
Qed.
End exact.

(** ** Properties *)

(** C35: on every consistent graph the analysis ends, and its result is exact: a
    register is in the out value of a node when, and only when, some path from
    the start of the node reads it before writing or clobbering it, and in the
    in value when some path from one of the successors does. *)
Theorem liveness_exact `{LLVMBitVector} (g : Graph) (labelLess : NodeT → NodeT → bool)
    (inversePO : MFP.LLVMPostOrder NodeT (H0 := inverseTraits g)) ReturnNode :
  wf g → executable g →
  ∃ n bound, (∀ N o, o ∈ opsOf g N → Target o < n) ∧ ∀ fuel, bound ≤ fuel → ∃ R,
    runLiveness g labelLess inversePO fuel ReturnNode = Ok (Some R) ∧
    ∀ N, N ∈ Nodes g → ∃ r, R !! N = Some r ∧
      bv_size (MFP.InValue r) = n ∧ bv_size (MFP.OutValue r) = n ∧
      ∀ c, c < n → (bv_test (MFP.InValue r) c = true ↔ liveAfter g N c) ∧
                   (bv_test (MFP.OutValue r) c = true ↔ live g N c).
Proof.
  intros Hwf Hex. destruct (runLiveness_results g labelLess inversePO ReturnNode Hwf Hex) as (n & bound & Ht & Hrun).
  exists n, bound. split; [done|]. intros fuel Hfuel. destruct (Hrun fuel Hfuel) as (R & HR & Hres). exists R. split; [done|].
  intros N HN. destruct (Hres N HN) as (r & Hr & Hl). exists r. split; [done|]. destruct (lr_size _ _ _ _ _ Hl) as [Hs1 Hs2]. split; [done|]. split; [done|].
  intros c Hc. by apply (liveResult_exact g n R N r c).
Qed.

Lemma chain_executable : executable chain.
Proof. apply (goodOps_executable chain 1), goodOpsb_spec. vm_compute. reflexivity. Qed.

(** The register is live after the write of the first node, and not before it. *)
Lemma liveness_exact_witness :
  wf chain ∧ executable chain ∧ ∃ fuel R r,
    runLiveness (H := listBits) chain Pos.ltb (inverseWalk chain) fuel 4%positive = Ok (Some R) ∧
    R !! 1%positive = Some r ∧ liveAfter chain 1%positive 0 ∧ ¬ live chain 1%positive 0.
Proof.
  split; [exact chain_wf|]. split; [exact chain_executable|].
  destruct (liveness_exact (H := listBits) chain Pos.ltb (inverseWalk chain) 4%positive chain_wf chain_executable)
    as (n & bound & Ht & Hrun).
  destruct (Hrun (bound + 100)) as (R & HR & Hall); [apply Nat.le_add_r|].
  destruct (Hall 1%positive) as (r & Hr & Hs & _ & Hexact); [unfold chain; cbn; left|].
  exists (bound + 100), R, r. split; [exact HR|]. split; [exact Hr|].
  assert (0 < n) as Hn.
  { specialize (Ht 1%positive (mkOp OperationType.Write 0)). lapply Ht; [cbn; lia|]. unfold opsOf. cbn. left. }
  assert (live chain 2%positive 0) as Hlive.
  { exists [mkOp OperationType.Read 0], 2%positive. split; [|reflexivity].
    exact (run_end (opsOf chain) (nextOf chain) 2%positive). }
  split.
  - exists 2%positive. split; [unfold nextOf, succs; cbn; left|exact Hlive].
  - rewrite live_step. intros [[=]|[[=] _]].
Defined.
