(* ===== verification/ReachingDefinitions.v ===== *)
(** * Reaching definitions

    The analysis of include/revng/RegisterUsageAnalyses/ReachingDefinitions.h, as
    [analyzeRegisterUsage] runs it on the monotone framework
    (lib/EarlyFunctionAnalysis/AnalyzeRegisterUsage.cpp): the writes that reach a
    point, and those that were read. *)

From S2P Require Import Prelude.
From stdpp Require Import gmap list relations.
From S2P Require MFP.
From S2P Require Import GenericGraph RegisterUsage LLVMBitVector.

(** ** The analysis *)

Section writers.
  Context `{LLVMBitVector}.

(* include/revng/RegisterUsageAnalyses/ReachingDefinitions.h:15-21 RegisterWriters *)
Record RegisterWriters := mkWriters { Reaching : BitVector; Read : BitVector }.

End writers.

(** A site is an operation at its place: its node and its position. It stands
    for the address of the operation. *)
Notation site := (NodeT * nat)%type.

(** One entry per register. *)
Notation WritersSet := (list RegisterWriters).

Section analysis.
  Context `{LLVMBitVector}.

(** The numbers of writes of the CSVs so far are [int]s. *)
Record Numbering := mkNumbering { WriteToIndex : gmap site nat; CSVWriteIndex : list nat }.

(** The index of a write is stored on 8 bits. *)
(* include/revng/RegisterUsageAnalyses/ReachingDefinitions.h:78-83 ReachingDefinitions::ReachingDefinitions *)
Fixpoint numberOps (N : NodeT) (Operations : list Operation) (Position : nat) (s : Numbering) : outcome Numbering :=
  match Operations with
  | [] => Ok s
  | o :: Operations =>
    s ← match Type_ o with
        | OperationType.Write =>
          Index ← elementAt (CSVWriteIndex s) (Target o);
          Ok (mkNumbering (<[(N, Position) := Index mod 256]> (WriteToIndex s))
                (<[Target o := Index + 1]> (CSVWriteIndex s)))
        | _ => Ok s
        end;
    numberOps N Operations (S Position) s
  end.

(* include/revng/RegisterUsageAnalyses/ReachingDefinitions.h:77-84 ReachingDefinitions::ReachingDefinitions *)
Fixpoint numberNodes (g : Graph) (Ns : list NodeT) (s : Numbering) : outcome Numbering :=
  match Ns with
  | [] => Ok s
  | N :: Ns => n ← deref g N; s ← numberOps N (data n) 0 s; numberNodes g Ns s
  end.

(* include/revng/RegisterUsageAnalyses/ReachingDefinitions.h:74-91 ReachingDefinitions::ReachingDefinitions *)
Definition make (g : Graph) (csvCount : nat) : outcome (gmap site nat * WritersSet) :=
  s ← numberNodes g (Nodes g) (mkNumbering ∅ (replicate csvCount 0));
  Ok (WriteToIndex s, map (λ n, mkWriters (bv_resize bv_empty n) (bv_resize bv_empty n)) (CSVWriteIndex s)).

(** The registers are visited in order, [Index] is the first one. *)
(* include/revng/RegisterUsageAnalyses/ReachingDefinitions.h:100-106 ReachingDefinitions::compute *)
Fixpoint computeLoop (Index : nat) (ProgramPoint Sink : WritersSet) (Result : BitVector) : outcome BitVector :=
  match ProgramPoint, Sink with
  | AtPoint :: ProgramPoint, AtSink :: Sink =>
    let Unread := bv_flip (Read AtSink) in
    Result ← (if bv_anyCommon (Reaching AtPoint) Unread then setBit Result Index else resetBit Result Index);
    computeLoop (S Index) ProgramPoint Sink Result
  | _, _ => Ok Result
  end.

(* include/revng/RegisterUsageAnalyses/ReachingDefinitions.h:94-109 ReachingDefinitions::compute *)
Definition compute (ProgramPoint Sink : WritersSet) : outcome BitVector :=
  revng_assert (length Sink =? length ProgramPoint);;
  computeLoop 0 ProgramPoint Sink (bv_resize bv_empty (length ProgramPoint)).

(* include/revng/RegisterUsageAnalyses/ReachingDefinitions.h:24-28 RegisterWriters::operator|= *)
Definition orWriters (a b : RegisterWriters) : RegisterWriters :=
  mkWriters (bv_or (Reaching a) (Reaching b)) (bv_or (Read a) (Read b)).

(* include/revng/RegisterUsageAnalyses/ReachingDefinitions.h:30-34 RegisterWriters::operator&= *)
Definition andWriters (a b : RegisterWriters) : RegisterWriters :=
  mkWriters (bv_and (Reaching a) (Reaching b)) (bv_and (Read a) (Read b)).

(* include/revng/RegisterUsageAnalyses/ReachingDefinitions.h:22-22 RegisterWriters::operator== *)
Definition eqWriters (a b : RegisterWriters) : bool :=
  bv_eq (Reaching a) (Reaching b) && bv_eq (Read a) (Read b).

(** The entries of the left operand past the end of the right one are kept. *)
(* include/revng/RegisterUsageAnalyses/ReachingDefinitions.h:115-121 ReachingDefinitions::combineValues *)
Fixpoint combineValues (LHS RHS : WritersSet) : WritersSet :=
  match LHS, RHS with
  | a :: LHS, b :: RHS => orWriters a b :: combineValues LHS RHS
  | _, _ => LHS
  end.

(* include/revng/RegisterUsageAnalyses/ReachingDefinitions.h:123-132 ReachingDefinitions::isLessOrEqual *)
Fixpoint isLessOrEqual (LHS RHS : WritersSet) : bool :=
  match LHS, RHS with
  | a :: LHS, b :: RHS => if negb (eqWriters (andWriters a b) a) then false else isLessOrEqual LHS RHS
  | _, _ => true
  end.

(* include/revng/RegisterUsageAnalyses/ReachingDefinitions.h:139-157 ReachingDefinitions::applyTransferFunction *)
Fixpoint transferOps (WriteToIndex : gmap site nat) (N : NodeT) (Operations : list Operation)
    (Position : nat) (Result : WritersSet) : outcome WritersSet :=
  match Operations with
  | [] => Ok Result
  | o :: Operations =>
    Writes ← elementAt Result (Target o);
    Writes ← match Type_ o with
             | OperationType.Write =>
               match WriteToIndex !! (N, Position) with
               | Some Index => v ← setBit (bv_resetAll (Reaching Writes)) Index; Ok (mkWriters v (Read Writes))
               | None => undefined
               end
             | OperationType.Clobber => Ok (mkWriters (bv_resetAll (Reaching Writes)) (Read Writes))
             | OperationType.Read => Ok (mkWriters (Reaching Writes) (bv_or (Read Writes) (Reaching Writes)))
             | OperationType.Invalid => revng_abort
             end;
    transferOps WriteToIndex N Operations (S Position) (<[Target o := Writes]> Result)
  end.

(* include/revng/RegisterUsageAnalyses/ReachingDefinitions.h:134-160 ReachingDefinitions::applyTransferFunction *)
Definition applyTransferFunction (WriteToIndex : gmap site nat) (N : NodeT) (b : Block)
    (InitialState : WritersSet) : outcome WritersSet :=
  transferOps WriteToIndex N b 0 InitialState.
End analysis.
Section instances.
  Context `{LLVMBitVector} (g : Graph).

(** The transfer function fails on operations that it asserts not to meet; the instance
    keeps the value there, and the theorems are about graphs without such operations. *)
Definition reachingInstance (W : gmap site nat) : MFP.MonotoneFrameworkInstance NodeT WritersSet unit := {|
  MFP.combineValues := combineValues;
  MFP.isLessOrEqual := isLessOrEqual;
  MFP.applyTransferFunction N v es :=
    (orElse v (applyTransferFunction W N (opsOf g N) v), es);
  MFP.DefaultElement := [];
|}.

Context (labelLess : NodeT → NodeT → bool).
Context (forwardPO : MFP.LLVMPostOrder NodeT (H0 := forwardTraits g)).

(* lib/EarlyFunctionAnalysis/AnalyzeRegisterUsage.cpp:320-343 analyzeRegisterUsage *)
Definition runReachingDefinitions (fuel csvCount : nat) (EntryNode : NodeT) :
    outcome (option (gmap NodeT (MFP.MFPResult WritersSet))) :=
  '(W, DefaultValue) ← make g csvCount;
  r ← MFP.getMaximalFixedPoint (GraphTraits0 := forwardTraits g) (LLVMPostOrder0 := forwardPO)
    (MonotoneFrameworkInstance0 := reachingInstance W) labelLess fuel tt
    (MFP.mkConfiguration (Some DefaultValue) (Some DefaultValue) (Some [EntryNode]) MFP.All None);
  Ok match r with Some (Result, _) => Some Result | None => None end.

(* lib/EarlyFunctionAnalysis/AnalyzeRegisterUsage.cpp:345-354 analyzeRegisterUsage *)
Definition computeAt (Results : gmap NodeT (MFP.MFPResult WritersSet)) (SinkNode Node : NodeT) (Before : bool) :
    outcome BitVector :=
  SinkResults ← MFP.map_at Results SinkNode;
  NodeResults ← MFP.map_at Results Node;
  compute (if Before then MFP.InValue NodeResults else MFP.OutValue NodeResults)
    (MFP.OutValue SinkResults).
End instances.

(** ** Sites *)

Section sites.
  Context (g : Graph).

Definition opAt (s : site) : option Operation := opsOf g s.1 !! s.2.
Definition sitesOf (N : NodeT) : list site := (λ i, (N, i)) <$> seq 0 (length (opsOf g N)).
Definition isOn (T : OperationType.Values) (c : nat) (s : site) : Prop :=
  ∃ o, opAt s = Some o ∧ Type_ o = T ∧ Target o = c.

(** The sites that execute along a path. *)
Definition runSites : NodeT → list site → NodeT → Prop := run sitesOf (nextOf g).

(** What [s] does to the registers stays after it. *)
Definition kills (c : nat) (s : site) : Prop := isOn OperationType.Write c s ∨ isOn OperationType.Clobber c s.

(** The write [w] of [c] reaches the end of [N]. *)
Definition reaches (c : nat) (w : site) (N : NodeT) : Prop :=
  ∃ a l1 l2, runSites a (l1 ++ w :: l2) N ∧ Forall (λ s, ¬ kills c s) l2.

(** What it wrote is read on a path to the end of [N]. *)
Definition readUpTo (c : nat) (w : site) (N : NodeT) : Prop :=
  ∃ a l1 l2 r l3, runSites a (l1 ++ w :: l2 ++ r :: l3) N ∧
    Forall (λ s, ¬ kills c s) l2 ∧ isOn OperationType.Read c r.

(** *** One bit at a time

    Whether the writes with the index [k] of [c] reach a point, and whether they
    were read. *)
Context (W : gmap site nat) (c k : nat).

Definition bitStep (N : NodeT) (Position : nat) (o : Operation) (st : bool * bool) : bool * bool :=
  if decide (Target o = c) then
    match Type_ o with
    | OperationType.Write => (bool_decide (W !! (N, Position) = Some k), st.2)
    | OperationType.Clobber => (false, st.2)
    | OperationType.Read => (st.1, st.2 || st.1)
    | OperationType.Invalid => st
    end
  else st.

Fixpoint bitOps (N : NodeT) (ops : list Operation) (Position : nat) (st : bool * bool) : bool * bool :=
  match ops with [] => st | o :: ops => bitOps N ops (S Position) (bitStep N Position o st) end.

Definition siteStep (st : bool * bool) (s : site) : bool * bool :=
  match opAt s with Some o => bitStep s.1 s.2 o st | None => st end.

Lemma bitOps_sites N st : bitOps N (opsOf g N) 0 st = foldl siteStep st (sitesOf N).
Proof.
  unfold sitesOf. assert (∀ ops p, (∀ i, ops !! i = opsOf g N !! (p + i)) → ∀ st,
    bitOps N ops p st = foldl siteStep st ((λ i, (N, i)) <$> seq p (length ops))) as Hall; [|by apply Hall].
  clear st. intros ops. induction ops as [|o ops IH]; intros p Hops st; [done|]. cbn.
  rewrite IH; [|intros i; specialize (Hops (S i)); simpl in Hops; rewrite Hops; f_equal; lia]. f_equal.
  unfold siteStep, opAt. cbn. specialize (Hops 0). rewrite Nat.add_0_r in Hops. by rewrite <-Hops.
Qed.

Definition leState (a b : bool * bool) : Prop := (a.1 = true → b.1 = true) ∧ (a.2 = true → b.2 = true).

Lemma siteStep_mono a b s : leState a b → leState (siteStep a s) (siteStep b s).
Proof.
  unfold siteStep, bitStep, leState. intros [H1 H2]. destruct (opAt s) as [o|]; [|done]. case_decide; [|done].
  destruct (Type_ o); simpl; [done| |done|done]. split; [done|]. rewrite !orb_true_iff. naive_solver.
Qed.

Lemma fold_mono a b l : leState a b → leState (foldl siteStep a l) (foldl siteStep b l).
Proof. revert a b. induction l as [|s l IH]; [done|]. intros a b Hab. simpl. by apply IH, siteStep_mono. Qed.

Lemma siteStep_read x y s :
  siteStep (x, y) s = ((siteStep (x, false) s).1, y || (siteStep (x, false) s).2).
Proof.
  unfold siteStep, bitStep. destruct (opAt s) as [o|]; [|simpl; by rewrite orb_false_r]. case_decide; [|simpl; by rewrite orb_false_r].
  destruct (Type_ o); simpl; by rewrite ?orb_false_r.
Qed.

Lemma fold_read x y l :
  foldl siteStep (x, y) l = ((foldl siteStep (x, false) l).1, y || (foldl siteStep (x, false) l).2).
Proof.
  revert x y. induction l as [|s l IH]; intros x y; simpl; [by rewrite orb_false_r|].
  rewrite (siteStep_read x y). destruct (siteStep (x, false) s) as [x' y']. simpl. rewrite (IH x' y'), (IH x' (y || y')).
  simpl. by rewrite orb_assoc.
Qed.

Lemma last_match (P Q : site → Prop) l s :
  (∃ l1 w l2, l ++ [s] = l1 ++ w :: l2 ∧ P w ∧ Forall Q l2) ↔
  P s ∨ Q s ∧ ∃ l1 w l2, l = l1 ++ w :: l2 ∧ P w ∧ Forall Q l2.
Proof.
  split.
  - intros (l1 & w & l2 & Hl & Hw & Hk). destruct l2 as [|s' l2 _] using rev_ind.
    + apply app_inj_tail in Hl as [-> ->]. by left.
    + rewrite app_comm_cons, app_assoc in Hl. apply app_inj_tail in Hl as [-> ->].
      apply Forall_app in Hk as [Hk Hs]. rewrite Forall_singleton in Hs. right. split; [done|]. by exists l1, w, l2.
  - intros [Hs|[Hs (l1 & w & l2 & -> & Hw & Hk)]]; [exists l, s, []; split; [done|]; by split; [|constructor]|].
    exists l1, w, (l2 ++ [s]). rewrite <-app_assoc. split; [done|]. split; [done|]. apply Forall_app. by rewrite Forall_singleton.
Qed.

Definition writesIndex (w : site) : Prop := isOn OperationType.Write c w ∧ W !! w = Some k.

Lemma siteStep_reach st s :
  (siteStep st s).1 = true ↔ writesIndex s ∨ ¬ kills c s ∧ st.1 = true.
Proof.
  unfold siteStep, writesIndex, kills, isOn. destruct (opAt s) as [o|] eqn:Ho.
  2: { split; [|intros [[(? & [=] & _) _]|[_ ?]]; done]. intros Hst. right. split; [|done].
       intros [(? & [=] & _)|(? & [=] & _)]. }
  unfold bitStep. case_decide as Hc.
  2: { split; [|intros [[(? & [= <-] & _ & ?) _]|[_ ?]]; done]. intros Hst. right. split; [|done].
       intros [(? & [= <-] & _ & ?)|(? & [= <-] & _ & ?)]; done. }
  assert (∀ T, (∃ o', Some o = Some o' ∧ Type_ o' = T ∧ Target o' = c) ↔ Type_ o = T) as Hon.
  { intros T. split; [by intros (? & [= <-] & ? & _)|]. intros HT. by exists o. }
  rewrite !Hon. destruct s as [N p]. destruct (Type_ o); simpl; rewrite ?bool_decide_eq_true; naive_solver.
Qed.

(** What the two bits mean. *)
Lemma fold_reach l :
  (foldl siteStep (false, false) l).1 = true ↔
  ∃ l1 w l2, l = l1 ++ w :: l2 ∧ writesIndex w ∧ Forall (λ s, ¬ kills c s) l2.
Proof.
  induction l as [|s l IH] using rev_ind; [split; [done|]; by intros ([|] & ? & ? & ? & _)|].
  rewrite foldl_app. simpl. by rewrite siteStep_reach, last_match, IH.
Qed.

Lemma siteStep_readBit st s :
  (siteStep st s).2 = true ↔ st.2 = true ∨ isOn OperationType.Read c s ∧ st.1 = true.
Proof.
  unfold siteStep, isOn. destruct (opAt s) as [o|] eqn:Ho.
  2: { split; [by left|]. by intros [?|[(? & [=] & _) _]]. }
  unfold bitStep. case_decide as Hc.
  2: { split; [by left|]. intros [?|[(? & [= <-] & _ & ?) _]]; done. }
  assert ((∃ o', Some o = Some o' ∧ Type_ o' = OperationType.Read ∧ Target o' = c) ↔ Type_ o = OperationType.Read) as ->.
  { split; [by intros (? & [= <-] & ? & _)|]. intros HT. by exists o. }
  destruct (Type_ o); simpl; rewrite ?orb_true_iff; split; try tauto; by intros [?|[? _]].
Qed.

Lemma fold_readUp l :
  (foldl siteStep (false, false) l).2 = true ↔
  ∃ l1 w l2 r l3, l = l1 ++ w :: l2 ++ r :: l3 ∧ writesIndex w ∧
    Forall (λ s, ¬ kills c s) l2 ∧ isOn OperationType.Read c r.
Proof.
  induction l as [|s l IH] using rev_ind; [split; [done|]; by intros ([|] & ? & ? & ? & ? & ? & _)|].
  rewrite foldl_app. simpl. pose proof (fold_reach l) as Hreach. set (st := foldl siteStep (false, false) l) in *.
  rewrite siteStep_readBit.
  rewrite IH, Hreach. split.
  - intros [(l1 & w & l2 & r & l3 & -> & Hrest)|[Hr (l1 & w & l2 & -> & ? & ?)]].
    + exists l1, w, l2, r, (l3 ++ [s]). split; [|done]. rewrite <-!app_assoc. simpl. by rewrite <-app_assoc.
    + exists l1, w, l2, s, []. split; [|done]. by rewrite <-app_assoc.
  - intros (l1 & w & l2 & r & l3 & Hl & Hw & Hk & Hr). destruct l3 as [|s' l3 _] using rev_ind.
    + right. rewrite app_comm_cons, app_assoc in Hl. apply app_inj_tail in Hl as [-> ->].
      split; [done|]. by exists l1, w, l2.
    + left. rewrite !app_comm_cons, !app_assoc in Hl. apply app_inj_tail in Hl as [-> ->].
      exists l1, w, l2, r, l3. split; [|done]. rewrite <-!app_assoc. done.
Qed.
End sites.

(** ** The numbering of the writes *)

#[global] Instance isOn_dec g T c s : Decision (isOn g T c s).
Proof.
  unfold isOn. destruct (opAt g s) as [o|]; [|right; by intros (? & [=] & _)].
  destruct (decide (Type_ o = T ∧ Target o = c)) as [Hd|Hd]; [left; by exists o|right; by intros (? & [= <-] & ?)].
Defined.

Section numbering.
  Context (g : Graph).
  #[local] Set Default Proof Using "Type*".

(** The writes of [c] among some sites, in order. *)
Definition writesAmong (c : nat) (L : list site) : list site := filter (isOn g OperationType.Write c) L.

(** All the writes of [c]. *)
Definition writers (c : nat) : list site := writesAmong c (Nodes g ≫= sitesOf g).

(** The writes of the sites that were visited have been given their number. *)
Record numbered (n : nat) (L : list site) (s : Numbering) : Prop := {
  nb_length : length (CSVWriteIndex s) = n;
  nb_count c : c < n → CSVWriteIndex s !! c = Some (length (writesAmong c L));
  nb_index c j w : c < n → writesAmong c L !! j = Some w → WriteToIndex s !! w = Some (j mod 256);
}.

Lemma numbered_step n L s N p o :
  numbered n L s → opAt g (N, p) = Some o → Target o < n → (N, p) ∉ L →
  ∃ s', match Type_ o with
        | OperationType.Write =>
          Index ← elementAt (CSVWriteIndex s) (Target o);
          Ok (mkNumbering (<[(N, p) := Index mod 256]> (WriteToIndex s))
                (<[Target o := Index + 1]> (CSVWriteIndex s)))
        | _ => Ok s
        end = Ok s' ∧ numbered n (L ++ [(N, p)]) s'.
Proof.
  intros [Hl Hc Hi] Ho Hn HL.
  assert (∀ c, isOn g OperationType.Write c (N, p) ↔ Type_ o = OperationType.Write ∧ Target o = c) as Hon.
  { intros c. unfold isOn. rewrite Ho. split; [by intros (? & [= <-] & ?)|]. intros ?. by exists o. }
  destruct (decide (Type_ o = OperationType.Write)) as [HW|HW].
  2: { exists s. split; [by destruct (Type_ o)|].
       assert (∀ c, writesAmong c (L ++ [(N, p)]) = writesAmong c L) as Heq.
       { intros c. unfold writesAmong. rewrite filter_app, filter_cons_False, filter_nil, app_nil_r; [done|]. by rewrite Hon; intros []. }
       split; [done| |]; intros c; rewrite Heq; eauto. }
  rewrite HW. unfold elementAt. rewrite Hc by done. cbn. eexists. split; [done|].
  assert (∀ c, writesAmong c (L ++ [(N, p)]) = writesAmong c L ++ (if decide (Target o = c) then [(N, p)] else [])) as Heq.
  { intros c. unfold writesAmong. rewrite filter_app. f_equal. case_decide.
    - rewrite filter_cons_True; [done|]. by apply Hon.
    - rewrite filter_cons_False; [done|]. rewrite Hon. by intros [_ ?]. }
  split; cbn.
  - by rewrite length_insert.
  - intros c Hcn. rewrite Heq, length_app, list_lookup_insert. rewrite Hl. destruct (decide (Target o = c)) as [<-|Ht].
    + by rewrite decide_True by lia.
    + rewrite decide_False by lia. rewrite Hc by done. cbn. by rewrite Nat.add_0_r.
  - intros c j w Hcn. rewrite Heq. case_decide as Ht; [|rewrite app_nil_r].
    + rewrite lookup_app_Some. intros [Hj|[Hle Hj]].
      * rewrite lookup_insert_ne; [by apply (Hi c)|]. intros <-. apply HL.
        apply list_elem_of_lookup_2 in Hj. unfold writesAmong in Hj. by apply list_elem_of_filter in Hj as [_ ?].
      * apply list_lookup_singleton_Some in Hj as [Hj <-]. rewrite lookup_insert_eq. replace j with (length (writesAmong c L)) by lia. by rewrite Ht.
    + intros Hj. rewrite lookup_insert_ne; [by apply (Hi c)|]. intros <-. apply HL.
      apply list_elem_of_lookup_2 in Hj. unfold writesAmong in Hj. by apply list_elem_of_filter in Hj as [_ ?].
Qed.

Lemma numberOps_spec n N ops p L s :
  goodOps g n → (∀ i, ops !! i = opsOf g N !! (p + i)) → (∀ i, p ≤ i → (N, i) ∉ L) → numbered n L s →
  ∃ s', numberOps N ops p s = Ok s' ∧ numbered n (L ++ ((λ i, (N, i)) <$> seq p (length ops))) s'.
Proof.
  intros Hgood. revert p L s. induction ops as [|o ops IH]; intros p L s Hops HL Hs.
  { exists s. split; [done|]. by rewrite app_nil_r. }
  assert (opAt g (N, p) = Some o) as Ho by (unfold opAt; cbn; by rewrite <-(Nat.add_0_r p), <-Hops).
  destruct (numbered_step n L s N p o Hs Ho) as (s1 & Hs1 & Hn1).
  { apply (Hgood N). unfold opAt in Ho. by eapply list_elem_of_lookup_2. }
  { by apply HL. }
  destruct (IH (S p) (L ++ [(N, p)]) s1) as (s' & Hs' & Hn').
  { intros i. specialize (Hops (S i)). simpl in Hops. rewrite Hops. f_equal. lia. }
  { intros i Hi Hin. apply elem_of_app in Hin as [Hin|Hin%list_elem_of_singleton]; [by apply (HL i); [lia|]|].
    injection Hin as ->. lia. }
  { done. }
  exists s'. split; [|by rewrite <-app_assoc in Hn'].
  cbn [numberOps]. by rewrite Hs1, bind_ok.
Qed.

Lemma numberNodes_spec n Ns L s :
  goodOps g n → (∀ N, N ∈ Ns → is_Some (Store g !! N)) → NoDup Ns → (∀ w, w ∈ L → w.1 ∉ Ns) → numbered n L s →
  ∃ s', numberNodes g Ns s = Ok s' ∧ numbered n (L ++ (Ns ≫= sitesOf g)) s'.
Proof.
  intros Hgood. revert L s. induction Ns as [|N Ns IH]; intros L s HNs Hnd HL Hs.
  { exists s. split; [done|]. by rewrite app_nil_r. }
  apply NoDup_cons in Hnd as [HN Hnd]. destruct (HNs N) as [x Hx]; [by left|].
  assert (opsOf g N = data x) as Hdata by (unfold opsOf; by rewrite Hx).
  destruct (numberOps_spec n N (data x) 0 L s) as (s1 & Hs1 & Hn1); [done| | |done|].
  { intros i. by rewrite Hdata. }
  { intros i _ Hin%HL. cbn in Hin. apply Hin. by left. }
  destruct (IH (L ++ sitesOf g N) s1) as (s' & Hs' & Hn'); [intros M HM; apply HNs; by right|done| | |].
  - intros w [Hin%HL|(i & -> & _)%list_elem_of_fmap]%elem_of_app; [|done]. intros ?. apply Hin. by right.
  - unfold sitesOf. by rewrite Hdata.
  - exists s'. split; [|by rewrite <-app_assoc in Hn'].
    cbn [numberNodes]. by rewrite (proj2 (deref_Ok g N x) Hx), bind_ok, Hs1, bind_ok.
Qed.

Lemma numbering_made `{LLVMBitVector} n :
  wf g → goodOps g n → ∃ W, make g n =
    Ok (W, (λ c, mkWriters (bv_resize bv_empty (length (writers c))) (bv_resize bv_empty (length (writers c)))) <$> seq 0 n) ∧
    ∀ c j w, c < n → writers c !! j = Some w → W !! w = Some (j mod 256).
Proof using Type.
  intros Hwf Hgood.
  destruct (numberNodes_spec n (Nodes g) [] (mkNumbering ∅ (replicate n 0))) as (s & Hs & [Hl Hc Hi]).
  { done. } { intros N HN. by apply wf_is_Some. } { apply Hwf. } { by intros w ?%elem_of_nil. }
  { split; cbn; [by rewrite length_replicate| |done]. intros c Hc. by rewrite lookup_replicate_2. }
  exists (WriteToIndex s). split; [|done]. unfold make. rewrite Hs, bind_ok. do 2 f_equal.
  assert (CSVWriteIndex s = (λ c, length (writers c)) <$> seq 0 n) as ->.
  { apply list_eq. intros c. rewrite list_lookup_fmap. destruct (decide (c < n)).
    - rewrite lookup_seq_lt by done. by rewrite Hc.
    - rewrite !lookup_ge_None_2; [done| |]; rewrite ?length_seq; lia. }
  by rewrite <-list_fmap_compose.
Qed.

(** Every write is among them. *)
Lemma elem_writers c w : wf g → w ∈ writers c ↔ isOn g OperationType.Write c w.
Proof.
  intros Hwf. unfold writers, writesAmong. rewrite list_elem_of_filter. split; [by intros []|]. intros Hw. split; [done|].
  destruct w as [N p], Hw as (o & Ho & _). unfold opAt in Ho. cbn in Ho.
  apply list_elem_of_bind. exists N. split.
  - apply list_elem_of_fmap. exists p. split; [done|]. apply elem_of_seq. apply lookup_lt_Some in Ho. lia.
  - apply (opsOf_node g N o Hwf). by eapply list_elem_of_lookup_2.
Qed.

Lemma writers_NoDup c : wf g → NoDup (writers c).
Proof.
  intros (_ & Hnd & _). apply NoDup_filter. induction (Nodes g) as [|N Ns IH]; [constructor|].
  apply NoDup_cons in Hnd as [HN Hnd]. cbn. apply NoDup_app. split; [|split; [|by apply IH]].
  - apply NoDup_fmap; [by intros ?? [=]|]. apply NoDup_seq.
  - intros w (i & -> & _)%list_elem_of_fmap (M & (j & [= -> _] & _)%list_elem_of_fmap & HM)%list_elem_of_bind. done.
Qed.
End numbering.

(** ** The lattice

    The vectors of the register [c] have [size c] bits. *)

Section lattice.
  Context `{LLVMBitVector} (n : nat) (cnt : nat → nat).
  #[local] Set Default Proof Using "Type*".

Definition sized (m : nat) (x : RegisterWriters) : Prop := bv_size (Reaching x) = m ∧ bv_size (Read x) = m.

Definition validSet (v : WritersSet) : Prop := length v = n ∧ ∀ c x, v !! c = Some x → sized (cnt c) x.

Definition leWriters (m : nat) (x y : RegisterWriters) : Prop :=
  leBits m (Reaching x) (Reaching y) ∧ leBits m (Read x) (Read y).

Definition leSet (a b : WritersSet) : Prop :=
  ∀ c x y, a !! c = Some x → b !! c = Some y → leWriters (cnt c) x y.

Lemma eqWriters_spec m x y :
  sized m x → sized m y → eqWriters (andWriters x y) x = true ↔ leWriters m x y.
Proof using Type.
  intros [Hx1 Hx2] [Hy1 Hy2]. unfold eqWriters, andWriters, leWriters. cbn.
  rewrite andb_true_iff, !and_le by lia. by rewrite Hx1, Hx2.
Qed.

Lemma isLessOrEqual_lookup a b :
  isLessOrEqual a b = true ↔ ∀ c x y, a !! c = Some x → b !! c = Some y → eqWriters (andWriters x y) x = true.
Proof using Type.
  revert b. induction a as [|x a IH]; intros b; [done|]. destruct b as [|y b]; [done|]. cbn [isLessOrEqual].
  destruct (eqWriters (andWriters x y) x) eqn:He; cbn.
  - rewrite IH. split; intros Hall.
    + intros [|c] x' y' Hx Hy; cbn in Hx, Hy; [congruence|by apply (Hall c)].
    + intros c. apply (Hall (S c)).
  - split; [done|]. intros Hall. specialize (Hall 0 x y eq_refl eq_refl). congruence.
Qed.

Lemma isLessOrEqual_spec a b : validSet a → validSet b → isLessOrEqual a b = true ↔ leSet a b.
Proof.
  intros [_ Ha] [_ Hb]. rewrite isLessOrEqual_lookup. unfold leSet.
  split; intros Hall c x y Hx Hy; apply (eqWriters_spec (cnt c)); eauto.
Qed.

Lemma combineValues_lookup a b c :
  length a = length b →
  combineValues a b !! c = match a !! c, b !! c with Some x, Some y => Some (orWriters x y) | _, _ => None end.
Proof using Type.
  revert b c. induction a as [|x a IH]; intros [|y b] [|c] Hl; try done. cbn. apply IH. cbn in Hl. lia.
Qed.

Lemma combineValues_length a b : length (combineValues a b) = length a.
Proof using Type. revert b. induction a as [|x a IH]; intros [|y b]; cbn; auto. Qed.

Lemma combine_inv a b c z :
  validSet a → validSet b → combineValues a b !! c = Some z →
  ∃ x y, a !! c = Some x ∧ b !! c = Some y ∧ z = orWriters x y ∧ sized (cnt c) x ∧ sized (cnt c) y.
Proof.
  intros [Hla Ha] [Hlb Hb]. rewrite combineValues_lookup by lia.
  destruct (a !! c) as [x|] eqn:Hx, (b !! c) as [y|] eqn:Hy; try done. intros Hz. injection Hz as <-. exists x, y. naive_solver.
Qed.

Lemma sized_or m x y : sized m x → sized m y → sized m (orWriters x y).
Proof using Type. intros [??] [??]. split; cbn; rewrite size_or; lia. Qed.

Lemma combineValues_valid a b : validSet a → validSet b → validSet (combineValues a b).
Proof.
  intros Ha Hb. split; [rewrite combineValues_length; apply Ha|].
  intros c z Hz. destruct (combine_inv a b c z Ha Hb Hz) as (x & y & _ & _ & -> & ? & ?). by apply sized_or.
Qed.

Lemma leWriters_or_l m x y : sized m x → sized m y → leWriters m x (orWriters x y).
Proof using Type. intros [??] [??]. split; by apply or_left. Qed.

Lemma leWriters_or_r m x y : sized m x → sized m y → leWriters m y (orWriters x y).
Proof using Type. intros [??] [??]. split; by apply or_right. Qed.

Lemma leWriters_or m x y z :
  sized m x → sized m y → leWriters m x z → leWriters m y z → leWriters m (orWriters x y) z.
Proof using Type. intros [??] [??] [??] [??]. split; by apply or_least. Qed.

(** The number of bits that are not set. *)
Definition unsetWriters (m : nat) (x : RegisterWriters) : nat := unsetBits m (Reaching x) + unsetBits m (Read x).
Definition unset (v : WritersSet) : nat :=
  sum_list_with (λ c, match v !! c with Some x => unsetWriters (cnt c) x | None => 0 end) (seq 0 n).

Lemma unsetWriters_le m x y : leWriters m x y → unsetWriters m y ≤ unsetWriters m x.
Proof using Type. intros [H1%unset_le H2%unset_le]. unfold unsetWriters. lia. Qed.

Lemma unsetWriters_lt m x y : leWriters m x y → ¬ leWriters m y x → unsetWriters m y < unsetWriters m x.
Proof using Type.
  intros [H1 H2] Hn. unfold unsetWriters. pose proof (unset_le _ _ _ H1). pose proof (unset_le _ _ _ H2).
  assert (¬ leBits m (Reaching y) (Reaching x) ∨ ¬ leBits m (Read y) (Read x)) as [Hr|Hr].
  { unfold leWriters in Hn. unfold leBits in *.
    destruct (decide (Forall (λ i, bv_test (Reaching y) i = true → bv_test (Reaching x) i = true) (seq 0 m))) as [HF|HF].
    - right. intros Hle. apply Hn. split; [|done]. intros i Hi. rewrite Forall_forall in HF. apply HF, elem_of_seq. lia.
    - left. intros Hle. apply HF, Forall_forall. intros i Hi%elem_of_seq. apply Hle. lia. }
  - pose proof (unset_lt _ _ _ H1 Hr). lia.
  - pose proof (unset_lt _ _ _ H2 Hr). lia.
Qed.

Lemma unset_strict a b :
  validSet a → validSet b → isLessOrEqual a b = true → isLessOrEqual b a = false → unset b < unset a.
Proof.
  intros Ha Hb Hab Hba. rewrite isLessOrEqual_spec in Hab by done.
  assert (∃ c x y, b !! c = Some y ∧ a !! c = Some x ∧ eqWriters (andWriters y x) y = false) as (c & x & y & Hy & Hx & He).
  { clear -Hba. revert a Hba. induction b as [|y b IH]; [done|]. intros [|x a]; [done|]. cbn.
    destruct (eqWriters (andWriters y x) y) eqn:He; cbn.
    - intros (c & x' & y' & ? & ? & ?)%IH. by exists (S c), x', y'.
    - intros _. by exists 0, x, y. }
  assert (leWriters (cnt c) x y) as Hle by by apply (Hab c).
  assert (¬ leWriters (cnt c) y x) as Hn.
  { rewrite <-eqWriters_spec; [by rewrite He| |]; [by apply (proj2 Hb)|by apply (proj2 Ha)]. }
  apply (MFP.sum_lt _ _ _ c).
  - intros c' Hc'%elem_of_seq. destruct (a !! c') as [x'|] eqn:Hx', (b !! c') as [y'|] eqn:Hy'; try lia.
    + by apply unsetWriters_le, (Hab c').
    + apply lookup_ge_None_1 in Hx'. rewrite (proj1 Ha) in Hx'. lia.
  - apply elem_of_seq. apply lookup_lt_Some in Hx. rewrite (proj1 Ha) in Hx. lia.
  - rewrite Hx, Hy. by apply unsetWriters_lt.
Qed.

(** The bits of the index [k] of the register [c]. *)
Definition bits (v : WritersSet) (c k : nat) : bool * bool :=
  match v !! c with Some x => (bv_test (Reaching x) k, bv_test (Read x) k) | None => (false, false) end.

Lemma leSet_bits a b :
  validSet a → validSet b → leSet a b ↔ ∀ c k, c < n → k < cnt c → leState (bits a c k) (bits b c k).
Proof.
  intros [Hla Ha] [Hlb Hb]. unfold leSet, bits, leState. split.
  - intros Hall c k Hc Hk. destruct (lookup_lt_is_Some_2 a c) as [x Hx]; [lia|].
    destruct (lookup_lt_is_Some_2 b c) as [y Hy]; [lia|]. rewrite Hx, Hy. cbn.
    destruct (Hall c x y Hx Hy) as [H1 H2]. auto.
  - intros Hall c x y Hx Hy. assert (c < n) as Hc by (apply lookup_lt_Some in Hx; lia).
    split; intros k Hk; specialize (Hall c k Hc Hk); rewrite Hx, Hy in Hall; apply Hall.
Qed.

Lemma bits_combine a b c k :
  validSet a → validSet b → c < n → k < cnt c →
  bits (combineValues a b) c k = ((bits a c k).1 || (bits b c k).1, (bits a c k).2 || (bits b c k).2).
Proof.
  intros [Hla Ha] [Hlb Hb] Hc Hk. unfold bits. rewrite combineValues_lookup by lia.
  destruct (lookup_lt_is_Some_2 a c) as [x Hx]; [lia|]. destruct (lookup_lt_is_Some_2 b c) as [y Hy]; [lia|].
  rewrite Hx, Hy. cbn. destruct (Ha c x Hx), (Hb c y Hy). by rewrite !test_or by lia.
Qed.
End lattice.

(** ** The transfer function *)

Section transfer.
  Context `{LLVMBitVector} (g : Graph) (n : nat) (cnt : nat → nat) (W : gmap site nat).
  Context (good : goodOps g n) (indexed : ∀ c w, isOn g OperationType.Write c w → ∃ k, W !! w = Some k ∧ k < cnt c).
  #[local] Set Default Proof Using "Type*".

(** What an operation does to the writers of its register. *)
Lemma transferOp N p o Writes :
  opAt g (N, p) = Some o → sized (cnt (Target o)) Writes →
  ∃ Writes', match Type_ o with
    | OperationType.Write =>
      match W !! (N, p) with
      | Some Index => v ← setBit (bv_resetAll (Reaching Writes)) Index; Ok (mkWriters v (Read Writes))
      | None => undefined
      end
    | OperationType.Clobber => Ok (mkWriters (bv_resetAll (Reaching Writes)) (Read Writes))
    | OperationType.Read => Ok (mkWriters (Reaching Writes) (bv_or (Read Writes) (Reaching Writes)))
    | OperationType.Invalid => revng_abort
    end = Ok Writes' ∧ sized (cnt (Target o)) Writes' ∧ ∀ k, k < cnt (Target o) →
      (bv_test (Reaching Writes') k, bv_test (Read Writes') k) =
      bitStep W (Target o) k N p o (bv_test (Reaching Writes) k, bv_test (Read Writes) k).
Proof.
  intros Ho [HR1 HR2]. unfold bitStep. destruct (good N o) as [Hinv _]; [by eapply list_elem_of_lookup_2|].
  destruct (Type_ o) eqn:HT; [done|..].
  - eexists. split; [done|]. split; [split; cbn; [done|by rewrite size_or; lia]|]. intros k Hk.
    rewrite decide_True by done. cbn. by rewrite test_or by lia.
  - destruct (indexed (Target o) (N, p)) as (j & Hj & Hlt); [by exists o|]. rewrite Hj. unfold setBit.
    rewrite size_resetAll, HR1, (proj2 (Nat.ltb_lt _ _) Hlt). cbn. eexists. split; [done|].
    split; [split; cbn; [rewrite size_set; rewrite size_resetAll; lia|done]|]. intros k Hk.
    rewrite decide_True by done. cbn. rewrite test_set, test_resetAll by (rewrite ?size_resetAll; lia). rewrite orb_false_r.
    f_equal. apply eq_bool_prop_intro. rewrite bool_decide_spec, Is_true_true, Nat.eqb_eq. naive_solver.
  - eexists. split; [done|]. split; [split; cbn; [by rewrite size_resetAll|done]|]. intros k Hk.
    rewrite decide_True by done. cbn. by rewrite test_resetAll by lia.
Qed.

Lemma transferOps_spec N ops p v :
  (∀ i, ops !! i = opsOf g N !! (p + i)) → validSet n cnt v →
  ∃ r, transferOps W N ops p v = Ok r ∧ validSet n cnt r ∧
    ∀ c k, c < n → k < cnt c → bits r c k = bitOps W c k N ops p (bits v c k).
Proof.
  revert p v. induction ops as [|o ops IH]; intros p v Hops Hv; [by exists v|].
  assert (opAt g (N, p) = Some o) as Ho by (unfold opAt; cbn; by rewrite <-(Nat.add_0_r p), <-Hops).
  destruct (good N o) as [_ Hlt]; [by eapply list_elem_of_lookup_2|]. destruct Hv as [Hl Hs].
  destruct (lookup_lt_is_Some_2 v (Target o)) as [x Hx]; [lia|].
  destruct (transferOp N p o x Ho) as (x' & Hx' & Hs' & Hb); [by apply Hs|].
  destruct (IH (S p) (<[Target o := x']> v)) as (r & Hr & Hvr & Hbr).
  { intros i. specialize (Hops (S i)). simpl in Hops. rewrite Hops. f_equal. lia. }
  { split; [by rewrite length_insert|]. intros c y [(<- & <- & _)|[Hne Hy]]%list_lookup_insert_Some; auto. }
  exists r. split; [|split; [done|]].
  - cbn [transferOps]. unfold elementAt at 1. rewrite Hx, bind_ok. by rewrite Hx', bind_ok.
  - intros c k Hc Hk. rewrite Hbr by done. cbn [bitOps]. f_equal. unfold bits.
    destruct (decide (Target o = c)) as [<-|Hne].
    + rewrite list_lookup_insert_eq by lia. rewrite Hx. by apply Hb.
    + rewrite list_lookup_insert_ne by done. unfold bitStep. by rewrite decide_False by done.
Qed.

Lemma transfer_spec N v :
  validSet n cnt v →
  let r := orElse v (applyTransferFunction W N (opsOf g N) v) in
  validSet n cnt r ∧ ∀ c k, c < n → k < cnt c →
    bits r c k = foldl (siteStep g W c k) (bits v c k) (sitesOf g N).
Proof.
  intros Hv. unfold applyTransferFunction. destruct (transferOps_spec N (opsOf g N) 0 v) as (r & -> & Hr & Hb); [done|done|].
  split; [done|]. intros c k Hc Hk. cbn. rewrite Hb by done. apply bitOps_sites.
Qed.

#[local] Instance reachingLaws : MFP.MonotoneLaws NodeT WritersSet unit (H := reachingInstance g W).
Proof.
  refine {| MFP.valid := validSet n cnt; MFP.height := unset n cnt;
            MFP.transfer N v := orElse v (applyTransferFunction W N (opsOf g N) v) |}; cbn.
  - intros a Ha. rewrite (isLessOrEqual_spec n cnt), (leSet_bits n cnt) by done. by intros c k _ _.
  - intros a b c Ha Hb Hc. rewrite !(isLessOrEqual_spec n cnt), !(leSet_bits n cnt) by done.
    intros Hab Hbc r k Hr Hk. specialize (Hab r k Hr Hk). specialize (Hbc r k Hr Hk). unfold leState in *. naive_solver.
  - apply combineValues_valid.
  - intros a b Ha Hb. pose proof (combineValues_valid n cnt a b Ha Hb).
    rewrite (isLessOrEqual_spec n cnt), (leSet_bits n cnt) by done.
    intros c k Hc Hk. rewrite (bits_combine n cnt) by done. split; cbn; by intros ->.
  - intros a b Ha Hb. pose proof (combineValues_valid n cnt a b Ha Hb).
    rewrite (isLessOrEqual_spec n cnt), (leSet_bits n cnt) by done.
    intros c k Hc Hk. rewrite (bits_combine n cnt) by done. split; cbn; intros ->; by rewrite orb_true_r.
  - intros a b c Ha Hb Hc. pose proof (combineValues_valid n cnt a b Ha Hb).
    rewrite !(isLessOrEqual_spec n cnt), !(leSet_bits n cnt) by done.
    intros Hac Hbc r k Hr Hk. rewrite (bits_combine n cnt) by done. specialize (Hac r k Hr Hk). specialize (Hbc r k Hr Hk).
    unfold leState in *. cbn. rewrite !orb_true_iff. naive_solver.
  - apply unset_strict.
  - done.
  - intros N a Ha. by apply transfer_spec.
  - intros N a b Ha Hb. destruct (transfer_spec N a Ha) as [HvA HbA], (transfer_spec N b Hb) as [HvB HbB].
    rewrite !(isLessOrEqual_spec n cnt), !(leSet_bits n cnt) by done. intros Hle c k Hc Hk.
    rewrite HbA, HbB by done. by apply fold_mono, Hle.
Defined.
End transfer.

(** ** The analysis is exact *)

Section exact.
  Context `{LLVMBitVector} (g : Graph) (n : nat) (cnt : nat → nat) (W : gmap site nat).
  #[local] Set Default Proof Using "Type*".

(** The bits hold at the end of [N] because of some path. *)
Definition witnessed (c k : nat) (N : NodeT) (st : bool * bool) : Prop :=
  (st.1 = true → ∃ a l, runSites g a l N ∧ (foldl (siteStep g W c k) (false, false) l).1 = true) ∧
  (st.2 = true → ∃ a l, runSites g a l N ∧ (foldl (siteStep g W c k) (false, false) l).2 = true).

(** They hold at the start of [N], because of a path to a predecessor. *)
Definition arrives (c k : nat) (N : NodeT) (st : bool * bool) : Prop :=
  ∀ sel, sel = fst ∨ sel = snd → sel st = true → ∃ M a l, N ∈ nextOf g M ∧ runSites g a l M ∧
    sel (foldl (siteStep g W c k) (false, false) l) = true.

Lemma arrives_out c k N st : arrives c k N st → witnessed c k N (foldl (siteStep g W c k) st (sitesOf g N)).
Proof using Type.
  intros Harr. destruct st as [x y].
  assert (∀ M a l, N ∈ nextOf g M → runSites g a l M → runSites g a (l ++ sitesOf g N) N) as Hext.
  { intros M a l HM Hl. eapply run_trans; [exact Hl|exact HM|constructor]. }
  assert (runSites g N (sitesOf g N) N) as Hself by constructor.
  rewrite fold_read. split; cbn.
  - intros H1. destruct x; [|by exists N, (sitesOf g N)].
    destruct (Harr fst) as (M & a & l & HM & Hl & Ht); [by left|done|]. exists a, (l ++ sitesOf g N).
    split; [by eapply Hext|]. rewrite foldl_app. destruct (foldl _ (false, false) l) as [x' y']. cbn in Ht. subst x'.
    by rewrite fold_read.
  - intros H2. destruct y.
    { destruct (Harr snd) as (M & a & l & HM & Hl & Ht); [by right|done|]. exists a, (l ++ sitesOf g N).
      split; [by eapply Hext|]. rewrite foldl_app. destruct (foldl _ (false, false) l) as [x' y']. cbn in Ht. subst y'.
      by rewrite fold_read. }
    destruct x; [|by exists N, (sitesOf g N)].
    destruct (Harr fst) as (M & a & l & HM & Hl & Ht); [by left|done|]. exists a, (l ++ sitesOf g N).
    split; [by eapply Hext|]. rewrite foldl_app. destruct (foldl _ (false, false) l) as [x' y']. cbn in Ht. subst x'.
    rewrite fold_read. cbn in H2 |- *. rewrite H2. by rewrite orb_true_r.
Qed.

(** What the result on a node satisfies. *)
Record reachResult (R : gmap NodeT (MFP.MFPResult WritersSet)) (N : NodeT) (r : MFP.MFPResult WritersSet) : Prop := {
  rr_valid : validSet n cnt (MFP.InValue r) ∧ validSet n cnt (MFP.OutValue r);
  rr_transfer c k : c < n → k < cnt c →
    bits (MFP.OutValue r) c k = foldl (siteStep g W c k) (bits (MFP.InValue r) c k) (sitesOf g N);
  rr_flow M r' c k : M ∈ nextOf g N → R !! M = Some r' → c < n → k < cnt c →
    leState (bits (MFP.OutValue r) c k) (bits (MFP.InValue r') c k);
  rr_arrives c k : c < n → k < cnt c → arrives c k N (bits (MFP.InValue r) c k);
}.

Context (R : gmap NodeT (MFP.MFPResult WritersSet)) (Hwf : wf g).
Context (HR : ∀ N, N ∈ Nodes g → ∃ r, R !! N = Some r ∧ reachResult R N r).

(** What happens along a path is in the result at its end. *)
Lemma run_reported c k a l N st ra r :
  runSites g a l N → a ∈ Nodes g → c < n → k < cnt c → R !! a = Some ra → R !! N = Some r →
  leState st (bits (MFP.InValue ra) c k) → leState (foldl (siteStep g W c k) st l) (bits (MFP.OutValue r) c k).
Proof.
  intros Hrun. revert st ra. induction Hrun as [a|a b l N Hb Hrun IH]; intros st ra Ha Hc Hk Hra Hr Hle;
    destruct (HR a Ha) as (ra' & Hra' & Hres); assert (ra' = ra) as -> by congruence.
  - assert (r = ra) as -> by congruence. rewrite (rr_transfer _ _ _ Hres) by done. by apply fold_mono.
  - rewrite foldl_app. destruct (HR b) as (rb & Hrb & _); [by apply (next_node g a)|]. apply (IH _ rb); try done.
    { by apply (next_node g a). }
    assert (leState (foldl (siteStep g W c k) st (sitesOf g a)) (bits (MFP.OutValue ra) c k)) as [H1 H2].
    { rewrite (rr_transfer _ _ _ Hres) by done. by apply fold_mono. }
    destruct (rr_flow _ _ _ Hres b rb c k Hb Hrb Hc Hk) as [H3 H4]. split; auto.
Qed.

(** A run starts at a node, when something happens on it. *)
Lemma run_node a l N s : runSites g a l N → s ∈ l → a ∈ Nodes g.
Proof using Hwf.
  assert (∀ M s, s ∈ sitesOf g M → M ∈ Nodes g) as Hs.
  { intros M s' (i & _ & Hi%elem_of_seq)%list_elem_of_fmap. destruct (opsOf g M) as [|o ops] eqn:Ho; [cbn in Hi; lia|].
    apply (opsOf_node g M o Hwf). rewrite Ho. by left. }
  assert (∀ a b, b ∈ nextOf g a → a ∈ Nodes g) as Hn.
  { intros x y Hy. destruct Hwf as (_ & _ & Ho). apply Ho. unfold nextOf, succs in Hy.
    destruct (Store g !! x); [by eexists|by apply elem_of_nil in Hy]. }
  intros [b|b d l' e Hd _] Hin; [by eapply Hs|by eapply Hn].
Qed.

Definition indexReaches (c k : nat) (N : NodeT) : Prop := ∃ w, writesIndex g W c k w ∧ reaches g c w N.
Definition indexRead (c k : nat) (N : NodeT) : Prop := ∃ w, writesIndex g W c k w ∧ readUpTo g c w N.

Lemma indexReaches_run c k N :
  indexReaches c k N ↔ ∃ a l, runSites g a l N ∧ (foldl (siteStep g W c k) (false, false) l).1 = true.
Proof using Type.
  split.
  - intros (w & Hw & a & l1 & l2 & Hrun & Hk). exists a, (l1 ++ w :: l2). split; [done|]. apply fold_reach. by exists l1, w, l2.
  - intros (a & l & Hrun & (l1 & w & l2 & -> & Hw & Hk)%fold_reach). exists w. split; [done|]. by exists a, l1, l2.
Qed.

Lemma indexRead_run c k N :
  indexRead c k N ↔ ∃ a l, runSites g a l N ∧ (foldl (siteStep g W c k) (false, false) l).2 = true.
Proof using Type.
  split.
  - intros (w & Hw & a & l1 & l2 & r & l3 & Hrun & Hk). exists a, (l1 ++ w :: l2 ++ r :: l3). split; [done|].
    apply fold_readUp. by exists l1, w, l2, r, l3.
  - intros (a & l & Hrun & (l1 & w & l2 & r & l3 & -> & Hw & Hk)%fold_readUp). exists w. split; [done|]. by exists a, l1, l2, r, l3.
Qed.

Lemma happened_nonempty c k l : foldl (siteStep g W c k) (false, false) l ≠ (false, false) → ∃ s, s ∈ l.
Proof using Type. destruct l as [|s l]; [done|]. exists s. by left. Qed.

Lemma reachResult_out N r c k :
  N ∈ Nodes g → R !! N = Some r → c < n → k < cnt c →
  ((bits (MFP.OutValue r) c k).1 = true ↔ indexReaches c k N) ∧ ((bits (MFP.OutValue r) c k).2 = true ↔ indexRead c k N).
Proof.
  intros HN Hr Hc Hk. destruct (HR N HN) as (r' & Hr' & Hres). assert (r' = r) as -> by congruence.
  destruct (arrives_out c k N (bits (MFP.InValue r) c k)) as [H1 H2]; [by apply (rr_arrives _ _ _ Hres)|].
  rewrite <-(rr_transfer _ _ _ Hres) in H1, H2 by done. rewrite indexReaches_run, indexRead_run.
  assert (∀ a l, runSites g a l N → foldl (siteStep g W c k) (false, false) l ≠ (false, false) →
    leState (foldl (siteStep g W c k) (false, false) l) (bits (MFP.OutValue r) c k)) as Hrep.
  { intros a l Hrun (s & Hs)%happened_nonempty. pose proof (run_node a l N s Hrun Hs) as Ha.
    destruct (HR a Ha) as (ra & Hra & _). by apply (run_reported c k a l N (false, false) ra r). }
  split; (split; [done|]); intros (a & l & Hrun & Ht); apply (Hrep a l Hrun); try done; by intros Heq; rewrite Heq in Ht.
Qed.

Lemma reachResult_in N r c k :
  N ∈ Nodes g → R !! N = Some r → c < n → k < cnt c →
  (bits (MFP.InValue r) c k).1 = true ↔ ∃ M, N ∈ nextOf g M ∧ indexReaches c k M.
Proof.
  intros HN Hr Hc Hk. destruct (HR N HN) as (r' & Hr' & Hres). assert (r' = r) as -> by congruence. split.
  - intros Ht. destruct (rr_arrives _ _ _ Hres c k Hc Hk fst) as (M & a & l & HM & Hrun & Hl); [by left|done|].
    exists M. split; [done|]. apply indexReaches_run. by exists a, l.
  - intros (M & HM & Hreach). assert (M ∈ Nodes g) as HMn.
    { destruct Hwf as (_ & _ & Ho). apply Ho. unfold nextOf, succs in HM.
      destruct (Store g !! M); [by eexists|by apply elem_of_nil in HM]. }
    destruct (HR M HMn) as (rM & HrM & HresM). apply (rr_flow _ _ _ HresM N r c k HM Hr Hc Hk).
    by apply (reachResult_out M rM c k HMn HrM Hc Hk).
Qed.
End exact.

Section run_results.
  Context `{LLVMBitVector} (g : Graph) (n : nat).
  Context (labelLess : NodeT → NodeT → bool).
  Context (forwardPO : MFP.LLVMPostOrder NodeT (H0 := forwardTraits g)).

(** How many bits a register has: one for each of its writes. *)
Definition writeCount (c : nat) : nat := length (writers g c).

(** The writes of a register are numbered in order, modulo 2^8. *)
Definition numbering (W : gmap site nat) : Prop :=
  ∀ c j w, c < n → writers g c !! j = Some w → W !! w = Some (j mod 256).

Lemma numbering_index W c w :
  wf g → goodOps g n → numbering W → isOn g OperationType.Write c w → ∃ k, W !! w = Some k ∧ k < writeCount c.
Proof.
  intros Hwf Hgood HW Hw. pose proof Hw as [j Hj]%(elem_writers g c w Hwf)%list_elem_of_lookup_1.
  assert (c < n) as Hc.
  { destruct Hw as (o & Ho & _ & <-). apply (Hgood w.1). by eapply list_elem_of_lookup_2. }
  exists (j mod 256). split; [by apply (HW c)|]. apply lookup_lt_Some in Hj. unfold writeCount.
  apply Nat.le_lt_trans with j; [apply Nat.Div0.mod_le|done].
Qed.

Lemma bits_fresh (cnt : nat → nat) c k :
  c < n → k < cnt c →
  bits ((λ c, mkWriters (bv_resize bv_empty (cnt c)) (bv_resize bv_empty (cnt c))) <$> seq 0 n) c k = (false, false).
Proof. intros Hc Hk. unfold bits. rewrite list_lookup_fmap, lookup_seq_lt by done. cbn. by rewrite test_fresh. Qed.

Lemma fresh_valid (cnt : nat → nat) :
  validSet n cnt ((λ c, mkWriters (bv_resize bv_empty (cnt c)) (bv_resize bv_empty (cnt c))) <$> seq 0 n).
Proof.
  split; [by rewrite length_fmap, length_seq|]. intros c x Hx. rewrite list_lookup_fmap_Some in Hx.
  destruct Hx as (i & -> & [-> _]%lookup_seq). split; apply size_resize.
Qed.

Lemma runReachingDefinitions_results Entry :
  wf g → goodOps g n →
  ∃ W bound, numbering W ∧ ∀ fuel, bound ≤ fuel →
    ∃ R, runReachingDefinitions g labelLess forwardPO fuel n Entry = Ok (Some R) ∧
      ∀ N, N ∈ Nodes g → ∃ r, R !! N = Some r ∧ reachResult g n writeCount W R N r.
Proof.
  intros Hwf Hgood. destruct (numbering_made g n Hwf Hgood) as (W & Hmake & HW). exists W.
  pose proof (numbering_index W) as Hidx.
  assert (∀ c w, isOn g OperationType.Write c w → ∃ k, W !! w = Some k ∧ k < writeCount c) as Hindexed by (intros; by apply Hidx).
  clear Hidx. set (D := _ <$> seq 0 n) in Hmake. assert (validSet n writeCount D) as HD by apply fresh_valid.
  set (laws := reachingLaws g n writeCount W Hgood Hindexed).
  destruct (@MFP.getMaximalFixedPoint_spec NodeT WritersSet unit _ _ (reachingInstance g W) laws
    (forwardTraits g) forwardPO labelLess (λ _ _ _, True)
    (MFP.mkConfiguration (Some D) (Some D) (Some [Entry]) MFP.All None) tt (Nodes g)) as (Reach & HReach & Hclosed & Hrun);
    try done.
  cbn [MFP.cBottom MFP.cExtremalValue MFP.cExtremalLabels option.default from_option id] in Hrun.
  eexists. split; [exact HW|]. intros fuel Hfuel. destruct (Hrun fuel Hfuel) as (R & [] & HR & Hl). exists R. split.
  { unfold runReachingDefinitions. rewrite Hmake, bind_ok. by rewrite HR, bind_ok. }
  assert (∀ N, N ∈ Nodes g → N ∈ Reach) as HNR by (intros N HN; apply HReach; by exists N).
  assert (MFP.justified (ML := laws) (GT := forwardTraits g) Reach
    (MFP.initialValue D D [Entry]) (λ N v, ∀ c k, c < n → k < writeCount c → arrives g W c k N (bits v c k))) as HQ.
  { split.
    - intros N _ c k Hc Hk sel Hsel. assert (MFP.initialValue D D [Entry] N = D) as -> by (unfold MFP.initialValue; by case_decide).
      unfold D. rewrite (bits_fresh writeCount) by done. by destruct Hsel as [-> | ->].
    - intros N M v v' HN HM Hv Hv' HQv HQv' c k Hc Hk sel Hsel.
      destruct (transfer_spec g n writeCount W Hgood Hindexed N v Hv) as [HvT HbT].
      cbn [MFP.combineValues reachingInstance MFP.transfer laws reachingLaws].
      rewrite (bits_combine n writeCount) by done. rewrite HbT by done.
      destruct (arrives_out g W c k N (bits v c k) (HQv c k Hc Hk)) as [H1 H2].
      specialize (HQv' c k Hc Hk sel Hsel).
      destruct Hsel as [-> | ->]; cbn; (intros [Ht|Ht]%orb_true_iff; [by apply HQv'|]);
        [destruct (H1 Ht) as (a & l & ? & ?)|destruct (H2 Ht) as (a & l & ? & ?)]; by exists N, a, l. }
  intros N HN. destruct (Hl N (HNR N HN)) as (r & Hr & Hv & _ & HO & _ & Hs & HJ). exists r. split; [done|].
  destruct (transfer_spec g n writeCount W Hgood Hindexed N (MFP.InValue r) Hv) as [HvO HbO].
  cbn [MFP.transfer laws reachingLaws] in HO. rewrite <-HO in HvO, HbO.
  split; [done|done| |by apply (HJ _ HQ)].
  intros M r' c k HM Hr' Hc Hk. pose proof (next_node g N M Hwf HM) as HinM.
  destruct (Hl M (HNR M HinM)) as (r1 & Hr1 & HvM & _). assert (r1 = r') as -> by congruence.
  destruct (Hs M HM) as (r2 & Hr2 & Hle). assert (r2 = r') as -> by congruence.
  cbn [MFP.isLessOrEqual reachingInstance] in Hle.
  rewrite (isLessOrEqual_spec n writeCount), (leSet_bits n writeCount) in Hle by done. by apply Hle.
Qed.
End run_results.

(** ** The unread writes *)

Section compute_facts.
  Context `{LLVMBitVector}.

Lemma computeLoop_spec P S Index Result :
  length P = length S → bv_size Result = Index + length P →
  ∃ v, computeLoop Index P S Result = Ok v ∧ bv_size v = bv_size Result ∧
    (∀ c, c < Index → bv_test v c = bv_test Result c) ∧
    ∀ i x y, P !! i = Some x → S !! i = Some y →
      bv_test v (Index + i) = bv_anyCommon (Reaching x) (bv_flip (Read y)).
Proof.
  revert S Index Result. induction P as [|x P IH]; intros [|y S] Index Result Hl Hs; try done.
  { by exists Result. }
  cbn in Hl, Hs. cbn [computeLoop].
  assert (∃ Result', (if bv_anyCommon (Reaching x) (bv_flip (Read y)) then setBit Result Index else resetBit Result Index) = Ok Result' ∧
    bv_size Result' = bv_size Result ∧ bv_test Result' Index = bv_anyCommon (Reaching x) (bv_flip (Read y)) ∧
    ∀ c, c < Index → bv_test Result' c = bv_test Result c) as (Result' & -> & Hs' & Ht & Ho).
  { unfold setBit, resetBit. rewrite (proj2 (Nat.ltb_lt _ _)) by lia. destruct (bv_anyCommon _ _); eexists; split_and!; try done.
    - apply size_set. lia. - rewrite test_set by lia. by rewrite Nat.eqb_refl.
    - intros c Hc. rewrite test_set by lia. destruct (Nat.eqb_spec Index c); [lia|done].
    - apply size_reset. lia. - rewrite test_reset by lia. by rewrite Nat.eqb_refl.
    - intros c Hc. rewrite test_reset by lia. destruct (Nat.eqb_spec Index c); [lia|done]. }
  rewrite bind_ok. destruct (IH S (Datatypes.S Index) Result') as (v & -> & Hsv & Hb & Ha); [lia|lia|].
  exists v. split; [done|]. split; [lia|]. split.
  - intros c Hc. rewrite Hb by lia. by apply Ho.
  - intros [|i] x' y' Hx Hy; cbn in Hx, Hy.
    + injection Hx as <-. injection Hy as <-. rewrite Nat.add_0_r, Hb by lia. done.
    + rewrite <-Nat.add_succ_comm. by apply Ha.
Qed.

(** A register is reported when some bit reaches the point and is not read at the sink. *)
Lemma compute_spec n cnt P S :
  validSet n cnt P → validSet n cnt S →
  ∃ v, compute P S = Ok v ∧ bv_size v = n ∧ ∀ c, c < n →
    bv_test v c = true ↔ ∃ k, k < cnt c ∧ (bits P c k).1 = true ∧ (bits S c k).2 = false.
Proof.
  intros [HlP HP] [HlS HS]. unfold compute. rewrite HlP, HlS, Nat.eqb_refl. cbn [revng_assert]. rewrite bind_ok.
  destruct (computeLoop_spec P S 0 (bv_resize bv_empty n)) as (v & -> & Hs & _ & Hv); [lia|rewrite size_resize; lia|].
  rewrite size_resize in Hs. exists v. split; [done|]. split; [done|]. intros c Hc.
  destruct (lookup_lt_is_Some_2 P c) as [x Hx]; [lia|]. destruct (lookup_lt_is_Some_2 S c) as [y Hy]; [lia|].
  specialize (Hv c x y Hx Hy). cbn in Hv. rewrite Hv. destruct (HP c x Hx) as [HxR HxD], (HS c y Hy) as [HyR HyD].
  rewrite anyCommon_spec by (rewrite size_flip; lia). unfold bits. rewrite Hx, Hy, HxR. cbn.
  split; intros (k & Hk & Ht & Hf); exists k; (split; [done|]); (split; [done|]);
    rewrite test_flip in * by lia; by destruct (bv_test (Read y) k).
Qed.
End compute_facts.

(** A write that was read on some path is, along every path from there. *)
Lemma readUpTo_extend g c w N M : rtc (λ a b, b ∈ nextOf g a) N M → readUpTo g c w N → readUpTo g c w M.
Proof.
  intros Hr. induction Hr as [N|N N' M HN _ IH]; [done|]. intros (a & l1 & l2 & r & l3 & Hrun & Hrest). apply IH.
  exists a, l1, l2, r, (l3 ++ sitesOf g N'). split; [|done].
  replace (l1 ++ w :: l2 ++ r :: l3 ++ sitesOf g N') with ((l1 ++ w :: l2 ++ r :: l3) ++ sitesOf g N')
    by (rewrite <-!app_assoc; cbn; by rewrite <-app_assoc).
  eapply run_trans; [exact Hrun|exact HN|constructor].
Qed.

Lemma run_end_node g a l N : wf g → runSites g a l N → a ∈ Nodes g → N ∈ Nodes g.
Proof. intros Hwf Hrun. induction Hrun as [a|a b l N Hb _ IH]; [done|]. intros _. by apply IH, (next_node g a). Qed.

(** The write [w] of [c] reaches the start or the end of [N]. *)
Definition reachesPoint (g : Graph) (c : nat) (w : site) (N : NodeT) (Before : bool) : Prop :=
  if Before then ∃ M, N ∈ nextOf g M ∧ reaches g c w M else reaches g c w N.

(** A write is unread when no path reads what it wrote. *)
Definition unread (g : Graph) (c : nat) (w : site) : Prop := ∀ M, ¬ readUpTo g c w M.

Section unread_writes.
  Context `{LLVMBitVector} (g : Graph) (n : nat) (W : gmap site nat) (R : gmap NodeT (MFP.MFPResult WritersSet)).
  Context (Hwf : wf g) (Hgood : goodOps g n) (HW : numbering g n W).
  Context (HR : ∀ N, N ∈ Nodes g → ∃ r, R !! N = Some r ∧ reachResult g n (writeCount g) W R N r).
  #[local] Set Default Proof Using "Type*".

(** What is reported, in terms of the indexes of the writes. *)
Lemma computeAt_index Sink N Before :
  Sink ∈ Nodes g → N ∈ Nodes g →
  ∃ v, computeAt R Sink N Before = Ok v ∧ bv_size v = n ∧ ∀ c, c < n →
    bv_test v c = true ↔ ∃ k, k < writeCount g c ∧ (∃ w, writesIndex g W c k w ∧ reachesPoint g c w N Before) ∧
      ¬ indexRead g W c k Sink.
Proof.
  intros HS HN. destruct (HR Sink HS) as (rs & HRs & HresS), (HR N HN) as (r & HRN & Hres).
  unfold computeAt, MFP.map_at. rewrite HRs, HRN, !bind_ok.
  destruct (compute_spec n (writeCount g) (if Before then MFP.InValue r else MFP.OutValue r) (MFP.OutValue rs))
    as (v & Hv & Hs & Ht); [destruct Before; apply Hres|apply HresS|].
  exists v. split; [done|]. split; [done|]. intros c Hc. rewrite Ht by done.
  assert (∀ k, k < writeCount g c →
    (bits (if Before then MFP.InValue r else MFP.OutValue r) c k).1 = true ↔
    ∃ w, writesIndex g W c k w ∧ reachesPoint g c w N Before) as Hpoint.
  { intros k Hk. unfold reachesPoint. destruct Before.
    - rewrite (reachResult_in g n (writeCount g) W R Hwf HR N r c k) by done. unfold indexReaches. naive_solver.
    - by apply (reachResult_out g n (writeCount g) W R Hwf HR N r c k). }
  assert (∀ k, k < writeCount g c → (bits (MFP.OutValue rs) c k).2 = false ↔ ¬ indexRead g W c k Sink) as Hsink.
  { intros k Hk. rewrite <-not_true_iff_false.
    by rewrite (proj2 (reachResult_out g n (writeCount g) W R Hwf HR Sink rs c k HS HRs Hc Hk)). }
  split; intros (k & Hk & H1 & H2); exists k; split_and!; try done; by (apply Hpoint || apply Hsink).
Qed.

(** With at most 256 writes of each register the indexes tell the writes apart. *)
Context (few : ∀ c, writeCount g c ≤ 256).

Lemma index_of c k w : c < n → k < writeCount g c → writesIndex g W c k w ↔ writers g c !! k = Some w.
Proof.
  intros Hc Hk. specialize (few c). unfold writeCount in *. split.
  - intros [[j Hj]%(elem_writers g c w Hwf)%list_elem_of_lookup_1 Hi]. pose proof (lookup_lt_Some _ _ _ Hj).
    rewrite (HW c j w Hc Hj) in Hi. rewrite Nat.mod_small in Hi by lia. congruence.
  - intros Hw. split; [by eapply (elem_writers g c w Hwf), list_elem_of_lookup_2|].
    rewrite (HW c k w Hc Hw). rewrite Nat.mod_small by lia. done.
Qed.

Lemma computeAt_unread Sink N Before :
  Sink ∈ Nodes g → (∀ M, M ∈ Nodes g → rtc (λ a b, b ∈ nextOf g a) M Sink) → N ∈ Nodes g →
  ∃ v, computeAt R Sink N Before = Ok v ∧ bv_size v = n ∧ ∀ c, c < n →
    bv_test v c = true ↔ ∃ w, isOn g OperationType.Write c w ∧ reachesPoint g c w N Before ∧ unread g c w.
Proof.
  intros HS Hsink HN. destruct (computeAt_index Sink N Before HS HN) as (v & Hv & Hs & Ht).
  exists v. split; [done|]. split; [done|]. intros c Hc. rewrite Ht by done. split.
  - intros (k & Hk & (w & Hw & Hreach) & Hread). exists w. split; [apply Hw|]. split; [done|]. intros M HM. apply Hread. exists w.
    split; [done|]. apply (readUpTo_extend g c w M); [|done]. apply Hsink.
    destruct HM as (a & l1 & l2 & r & l3 & Hrun & _). apply (run_end_node g a _ M Hwf Hrun).
    apply (run_node g Hwf a _ M w Hrun). apply elem_of_app. right. by left.
  - intros (w & Hw & Hreach & Hun). pose proof Hw as [k Hk]%(elem_writers g c w Hwf)%list_elem_of_lookup_1.
    pose proof (lookup_lt_Some _ _ _ Hk) as Hlt. exists k. split; [done|]. split.
    + exists w. split; [by apply index_of|done].
    + intros (w' & Hw' & Hread). assert (w' = w) as ->; [|by apply (Hun Sink)].
      apply index_of in Hw'; [congruence|done|done].
Qed.
End unread_writes.

(** ** Properties *)

(** C34: with at most 256 writes of each register and a sink every node reaches,
    the analysis ends, and at the start or the end of every node exactly the
    registers are reported that have a write that reaches that point, along
    some path, without another write or a clobber, and whose value no path ever
    reads. *)
Theorem unread_writes_exact `{LLVMBitVector} (g : Graph) (n : nat) (labelLess : NodeT → NodeT → bool)
    (forwardPO : MFP.LLVMPostOrder NodeT (H0 := forwardTraits g)) Entry Sink :
  wf g → goodOps g n → (∀ c, writeCount g c ≤ 256) →
  Sink ∈ Nodes g → (∀ M, M ∈ Nodes g → rtc (λ a b, b ∈ nextOf g a) M Sink) →
  ∃ bound, ∀ fuel, bound ≤ fuel → ∃ R,
    runReachingDefinitions g labelLess forwardPO fuel n Entry = Ok (Some R) ∧
    ∀ N Before, N ∈ Nodes g → ∃ v, computeAt R Sink N Before = Ok v ∧ bv_size v = n ∧
      ∀ c, c < n → bv_test v c = true ↔
        ∃ w, isOn g OperationType.Write c w ∧ reachesPoint g c w N Before ∧ unread g c w.
Proof.
  intros Hwf Hgood Hfew HS Hsink.
  destruct (runReachingDefinitions_results g n labelLess forwardPO Entry Hwf Hgood) as (W & bound & HW & Hrun).
  exists bound. intros fuel Hfuel. destruct (Hrun fuel Hfuel) as (R & HR & Hres). exists R. split; [done|].
  intros N Before HN. by apply (computeAt_unread g n W R Hwf Hgood HW Hres Hfew Sink N Before).
Qed.

(** A function that writes two registers, and reads one of them. *)
Definition twoWrites : Graph :=
  let N d s p := mkNode d (map (λ x, (x, tt)) s) (map (λ x, (x, tt)) p) in
  mkGraph [1; 2; 3]%positive
    (list_to_map [(1, N [mkOp OperationType.Write 0; mkOp OperationType.Write 1] [2] []);
                  (2, N [mkOp OperationType.Read 0] [2; 3] [1; 2]); (3, N [] [] [2])]%positive)
    (Some 1%positive).

Lemma few_writes (g : Graph) m : length (Nodes g ≫= sitesOf g) ≤ m → ∀ c, writeCount g c ≤ m.
Proof. intros Hm c. etrans; [|exact Hm]. unfold writeCount, writers, writesAmong. apply length_filter. Qed.

Lemma unread_writes_exact_witness :
  wf twoWrites ∧ ∃ fuel R v,
    runReachingDefinitions (H := listBits) twoWrites Pos.ltb (forwardWalk twoWrites) fuel 2 1%positive = Ok (Some R) ∧
    computeAt (H := listBits) R 3%positive 3%positive true = Ok v ∧
    ∀ c, c < 2 → bv_test (LLVMBitVector := listBits) v c = true ↔
      ∃ w, isOn twoWrites OperationType.Write c w ∧ reachesPoint twoWrites c w 3%positive true ∧ unread twoWrites c w.
Proof.
  assert (wf twoWrites) as Hwf by (apply consistent_wf; vm_compute; reflexivity). split; [exact Hwf|].
  destruct (unread_writes_exact (H := listBits) twoWrites 2 Pos.ltb (forwardWalk twoWrites) 1%positive 3%positive Hwf)
    as (bound & Hrun).
  - apply goodOpsb_spec. vm_compute. reflexivity.
  - apply few_writes. apply leb_complete. vm_compute. reflexivity.
  - unfold twoWrites. cbn. right. right. left.
  - apply sinks_spec. vm_compute. reflexivity.
  - destruct (Hrun bound (le_n _)) as (R & HR & Hall). destruct (Hall 3%positive true) as (v & Hv & _ & Ht).
    + unfold twoWrites. cbn. right. right. left.
    + exists bound, R, v. split; [exact HR|]. split; [exact Hv|exact Ht].
Defined.

(** A write that is read, followed by 256 writes. *)
Definition manyWrites : Graph :=
  mkGraph [1%positive]
    {[1%positive := mkNode ([mkOp OperationType.Write 0; mkOp OperationType.Read 0] ++ replicate 256 (mkOp OperationType.Write 0)) [] []]}
    (Some 1%positive).

Definition lastWrite : site := (1%positive, 257).

(** Nothing executes after a node that has no successors. *)
Lemma manyWrites_run a l N : runSites manyWrites a l N → l = sitesOf manyWrites a ∧ a = N.
Proof.
  assert (∀ M, nextOf manyWrites M = []) as Hnext.
  { intros M. unfold nextOf, succs, manyWrites. cbn [Store]. destruct (decide (M = 1%positive)) as [->|Hn].
    - by rewrite lookup_singleton_eq.
    - by rewrite lookup_singleton_ne by done. }
  intros Hrun. destruct Hrun as [a|a b l N Hb _]; [done|]. rewrite Hnext in Hb. by apply elem_of_nil in Hb.
Qed.

Lemma lastWrite_unread : unread manyWrites 0 lastWrite.
Proof.
  intros M (a & l1 & l2 & r & l3 & [Hl _]%manyWrites_run & _).
  assert (sitesOf manyWrites a !! length l1 = Some lastWrite) as Hat by by rewrite <-Hl, list_lookup_middle.
  unfold sitesOf in Hat. rewrite list_lookup_fmap_Some in Hat. destruct Hat as (i & Heq & [-> _]%lookup_seq).
  injection Heq as <- Hlen. assert (length (sitesOf manyWrites 1%positive) = 258) as Hcount by (vm_compute; reflexivity).
  rewrite <-Hl, length_app in Hcount. cbn in Hcount. rewrite length_app in Hcount. cbn in Hcount. lia.
Qed.

Lemma lastWrite_reaches : reaches manyWrites 0 lastWrite 1%positive.
Proof.
  exists 1%positive, (take 257 (sitesOf manyWrites 1%positive)), []. split; [|constructor].
  assert (take 257 (sitesOf manyWrites 1%positive) ++ [lastWrite] = sitesOf manyWrites 1%positive) as ->
    by (vm_compute; reflexivity).
  constructor.
Qed.

(** With more than 256 writes of a register the indexes, which are stored on
    8 bits, do not tell the writes apart: on a block that writes a register,
    reads it, and writes it 256 times more, the last write reaches the end and
    is never read, but the register is not reported. *)
Theorem write_index_wraps :
  ∃ fuel R v,
    runReachingDefinitions (H := listBits) manyWrites Pos.ltb (forwardWalk manyWrites) fuel 1 1%positive = Ok (Some R) ∧
    computeAt (H := listBits) R 1%positive 1%positive false = Ok v ∧
    bv_test (LLVMBitVector := listBits) v 0 = false ∧
    isOn manyWrites OperationType.Write 0 lastWrite ∧ reachesPoint manyWrites 0 lastWrite 1%positive false ∧
    unread manyWrites 0 lastWrite.
Proof.
  exists 1000. eexists _, _. split; [vm_compute; reflexivity|]. split; [vm_compute; reflexivity|]. split; [vm_compute; reflexivity|].
  split; [|split; [exact lastWrite_reaches|exact lastWrite_unread]].
  exists (mkOp OperationType.Write 0). split; [vm_compute; reflexivity|done].
Qed.
