(* ===== verification/RegisterUsageAnalyses.v ===== *)
(** * Register usage analyses

    How [analyzeRegisterUsage] puts together the results of liveness and reaching
    definitions (lib/EarlyFunctionAnalysis/AnalyzeRegisterUsage.cpp): the
    registers that are arguments and return values of a function and of its call
    sites. *)

From S2P Require Import Prelude.
From stdpp Require Import gmap list relations.
From S2P Require MFP.
From S2P Require MetaAddress.
From S2P Require BasicBlockID.
From S2P Require Import GenericGraph.
From S2P Require Import RegisterUsage.
From S2P Require Import LLVMBitVector.
From S2P Require Liveness.
From S2P Require ReachingDefinitions.

(** ** Call sites *)

(* lib/EarlyFunctionAnalysis/AnalyzeRegisterUsage.cpp:39-52 CallSite *)
Record CallSite := mkCallSite { SiteBlock : NodeT; Callee : MetaAddress.MetaAddress }.

(* lib/EarlyFunctionAnalysis/AnalyzeRegisterUsage.cpp:45-51 CallSite::setCallee *)
Definition setCallee (NewCallee : MetaAddress.MetaAddress) (s : CallSite) : outcome CallSite :=
  if MetaAddress.isValid (Callee s) then
    revng_assert (MetaAddress.equals (Callee s) NewCallee);; Ok s
  else Ok (mkCallSite (SiteBlock s) NewCallee).

Section results.
  Context {GlobalVariable : Type} `{Countable GlobalVariable}.

(** The call sites are in the order of the map. *)
(* lib/EarlyFunctionAnalysis/AnalyzeRegisterUsage.cpp:54-66 FunctionToAnalyze *)
Record FunctionToAnalyze := mkFunctionToAnalyze {
  TheFunction : Function GlobalVariable;
  CallSites : list (BasicBlockID.BasicBlockID * CallSite);
  ReturnNode : NodeT;
  SinkNode : NodeT;
}.

(* include/revng/EarlyFunctionAnalysis/AnalyzeRegisterUsage.h:40-46 RUAResults::CallSiteResults *)
Record CallSiteResults := mkCallSiteResults {
  CalleeAddress : MetaAddress.MetaAddress;
  CallSiteArguments : gset GlobalVariable;
  CallSiteReturnValues : gset GlobalVariable;
}.

(* include/revng/EarlyFunctionAnalysis/AnalyzeRegisterUsage.h:48-54 RUAResults *)
Record RUAResults := mkResults {
  ArgumentsRegisters : gset GlobalVariable;
  ReturnValuesRegisters : gset GlobalVariable;
  CallSitesResults : list (BasicBlockID.BasicBlockID * CallSiteResults);
}.

Context `{LLVMBitVector}.

(* include/revng/RegisterUsageAnalyses/Function.h:135-140 Function::csvsInSet *)
Definition csvsInSet (F : Function GlobalVariable) (Set_ : BitVector) : outcome (list GlobalVariable) :=
  mapM (csvByIndex F) (set_bits Set_).

Context (A : FunctionToAnalyze) (labelLess : NodeT → NodeT → bool).
Context (inversePO : MFP.LLVMPostOrder NodeT (H0 := inverseTraits (graph (TheFunction A)))).
Context (forwardPO : MFP.LLVMPostOrder NodeT (H0 := forwardTraits (graph (TheFunction A)))).

(** The registers alive at the entry and after the call sites.
    [AnalysisResult[EntryNode]] inserts an empty value when the entry node has no
    result. *)
(* lib/EarlyFunctionAnalysis/AnalyzeRegisterUsage.cpp:290-317 analyzeRegisterUsage *)
Definition collectLive (EntryNode : NodeT) (Live : gmap NodeT (MFP.MFPResult BitVector)) :
    outcome (gset GlobalVariable * list (gset GlobalVariable)) :=
  Arguments ← csvsInSet (TheFunction A)
    match Live !! EntryNode with Some r => MFP.OutValue r | None => bv_empty end;
  SiteReturns ← mapM (λ s : BasicBlockID.BasicBlockID * CallSite,
    r ← MFP.map_at Live (SiteBlock s.2); l ← csvsInSet (TheFunction A) (MFP.InValue r); Ok (list_to_set l))
    (CallSites A);
  Ok (list_to_set Arguments, SiteReturns).

(** The registers with an unread write that reaches the return node and the call
    sites. *)
(* lib/EarlyFunctionAnalysis/AnalyzeRegisterUsage.cpp:356-387 analyzeRegisterUsage *)
Definition collectUnread (Writers : gmap NodeT (MFP.MFPResult (list ReachingDefinitions.RegisterWriters))) :
    outcome (gset GlobalVariable * list (gset GlobalVariable)) :=
  Exit ← ReachingDefinitions.computeAt Writers (SinkNode A) (ReturnNode A) false;
  Returns ← csvsInSet (TheFunction A) Exit;
  SiteArguments ← mapM (λ s : BasicBlockID.BasicBlockID * CallSite,
    v ← ReachingDefinitions.computeAt Writers (SinkNode A) (SiteBlock s.2) true;
    l ← csvsInSet (TheFunction A) v; Ok (list_to_set l)) (CallSites A);
  Ok (list_to_set Returns, SiteArguments).

(** The nodes of the entry, [None] when there is none, are given to the analyses.
    [None] is returned when the iterations run out of fuel. *)
(* lib/EarlyFunctionAnalysis/AnalyzeRegisterUsage.cpp:245-391 analyzeRegisterUsage *)
Definition analyzeRegisterUsage (fuel : nat) (EntryNode : NodeT) : outcome (option RUAResults) :=
  let g := graph (TheFunction A) in
  MaybeLive ← Liveness.runLiveness g labelLess inversePO fuel (ReturnNode A);
  match MaybeLive with
  | None => Ok None
  | Some Live =>
    '(Arguments, SiteReturns) ← collectLive EntryNode Live;
    MaybeWriters ← ReachingDefinitions.runReachingDefinitions g labelLess forwardPO fuel
      (csvCount (TheFunction A)) EntryNode;
    match MaybeWriters with
    | None => Ok None
    | Some Writers =>
      '(Returns, SiteArguments) ← collectUnread Writers;
      Ok (Some (mkResults Arguments Returns
        (zip_with (λ s ar : _ * _, (s.1, mkCallSiteResults (Callee s.2) ar.1 ar.2))
          (CallSites A) (zip SiteArguments SiteReturns))))
    end
  end.
End results.

(** ** Facts *)

Section facts.
  Context {GlobalVariable : Type} `{Countable GlobalVariable} `{LLVMBitVector}.

Lemma csvsInSet_spec (F : Function GlobalVariable) v :
  (∀ c, c < bv_size v → bv_test v c = true → is_Some (IndexToCSV F !! c)) →
  ∃ l, csvsInSet F v = Ok l ∧ ∀ CSV, CSV ∈ l ↔
    ∃ c, c < bv_size v ∧ bv_test v c = true ∧ IndexToCSV F !! c = Some CSV.
Proof.
  intros Hall. destruct (mapM_ok (csvByIndex F) (λ c CSV, IndexToCSV F !! c = Some CSV) (set_bits v)) as (l & Hl & Hf).
  { intros c [Hc Ht]%set_bits_spec. destruct (Hall c Hc Ht) as [CSV HCSV]. exists CSV. unfold csvByIndex. by rewrite HCSV. }
  exists l. split; [done|]. intros CSV. split.
  - intros [i Hi]%list_elem_of_lookup_1. destruct (Forall2_lookup_r _ _ _ _ _ Hf Hi) as (c & Hc & HCSV).
    apply list_elem_of_lookup_2 in Hc. apply set_bits_spec in Hc as [Hc Ht]. by exists c.
  - intros (c & Hc & Ht & HCSV). assert (c ∈ set_bits v) as [i Hi]%list_elem_of_lookup_1 by by apply set_bits_spec.
    destruct (Forall2_lookup_l _ _ _ _ _ Hf Hi) as (CSV' & HCSV' & ?). assert (CSV' = CSV) as -> by congruence.
    by eapply list_elem_of_lookup_2.
Qed.

(** The registers in a set that is given by a property of the registers of the
    operations of a function. *)
Lemma csvsInSet_exact (F : Function GlobalVariable) v (P : nat → Prop) :
  (∀ c, P c → c < bv_size v ∧ is_Some (IndexToCSV F !! c)) → (∀ c, c < bv_size v → bv_test v c = true ↔ P c) →
  ∃ l, csvsInSet F v = Ok l ∧ ∀ CSV, CSV ∈ l ↔ ∃ c, P c ∧ IndexToCSV F !! c = Some CSV.
Proof.
  intros HP Ht. destruct (csvsInSet_spec F v) as (l & Hl & Hel).
  { intros c Hc Htc. by apply HP, Ht. }
  exists l. split; [done|]. intros CSV. rewrite Hel. split.
  - intros (c & Hc & Htc & HCSV). exists c. split; [by apply Ht|done].
  - intros (c & HPc & HCSV). destruct (HP c HPc) as [Hc _]. exists c. split; [done|]. split; [by apply Ht|done].
Qed.
End facts.

(** An access comes from an operation. *)
Lemma live_op g N c : Liveness.live g N c → ∃ M o, o ∈ opsOf g M ∧ Target o = c.
Proof.
  intros (ops & b & Hrun & Hf).
  assert (∃ o, o ∈ ops ∧ Target o = c) as (o & Ho & Ht).
  { unfold Liveness.firstAccess in Hf. destruct (filter _ ops) as [|o l] eqn:Hfil; [done|].
    exists o. assert (o ∈ filter (λ o, Target o = c) ops) as [? ?]%list_elem_of_filter by (rewrite Hfil; left). done. }
  clear Hf. induction Hrun as [N|N N' b ops HN Hrun IH]; [by exists N, o|].
  apply elem_of_app in Ho as [Ho|Ho]; [by exists N, o|by apply IH].
Qed.

Lemma isOn_op g T c w : ReachingDefinitions.isOn g T c w → ∃ M o, o ∈ opsOf g M ∧ Target o = c.
Proof. intros (o & Ho & _ & <-). exists w.1, o. split; [|done]. by eapply list_elem_of_lookup_2. Qed.

(** ** Properties *)

Section analysis.
  Context {GlobalVariable : Type} `{Countable GlobalVariable} `{LLVMBitVector}.
  Context (A : FunctionToAnalyze (GlobalVariable := GlobalVariable)).

(** A write of a register reaches a point and is never read. *)
Definition unreadAt (N : NodeT) (Before : bool) (c : nat) : Prop :=
  let g := graph (TheFunction A) in
  ∃ w, ReachingDefinitions.isOn g OperationType.Write c w ∧ ReachingDefinitions.reachesPoint g c w N Before ∧
    ReachingDefinitions.unread g c w.

(** What the construction of the function guarantees. *)
Record analyzable (EntryNode : NodeT) : Prop := {
  an_wf : wf (graph (TheFunction A));
  an_ops : goodOps (graph (TheFunction A)) (csvCount (TheFunction A));
  an_csvs c : c < csvCount (TheFunction A) → is_Some (IndexToCSV (TheFunction A) !! c);
  an_entry : EntryNode ∈ Nodes (graph (TheFunction A));
  an_return : ReturnNode A ∈ Nodes (graph (TheFunction A));
  an_sink : SinkNode A ∈ Nodes (graph (TheFunction A));
  an_sites s : s ∈ CallSites A → SiteBlock s.2 ∈ Nodes (graph (TheFunction A));
  an_sinks M : M ∈ Nodes (graph (TheFunction A)) →
    rtc (λ a b, b ∈ nextOf (graph (TheFunction A)) a) M (SinkNode A);
}.

(** What the results are: the registers that are read before being written, and
    those with writes that are never read. *)
Definition isSet (S : gset GlobalVariable) (P : nat → Prop) : Prop :=
  ∀ CSV, CSV ∈ S ↔ ∃ c, P c ∧ IndexToCSV (TheFunction A) !! c = Some CSV.

Context (EntryNode : NodeT) (An : analyzable EntryNode).
#[local] Notation g := (graph (TheFunction A)).

Lemma csv_of_op M o : o ∈ opsOf g M → is_Some (IndexToCSV (TheFunction A) !! Target o).
Proof using An. intros Ho. apply (an_csvs _ An), (an_ops _ An M o Ho). Qed.

Lemma live_set N m v :
  (∀ M o, o ∈ opsOf g M → Target o < m) → bv_size v = m →
  (∀ c, c < m → bv_test v c = true ↔ Liveness.live g N c) →
  ∃ l, csvsInSet (TheFunction A) v = Ok l ∧ isSet (list_to_set l) (Liveness.live g N).
Proof using An.
  intros Hm Hs Ht. destruct (csvsInSet_exact (TheFunction A) v (Liveness.live g N)) as (l & Hl & Hel).
  - intros c (M & o & Ho & <-)%live_op. rewrite Hs. split; [by apply (Hm M)|by apply (csv_of_op M)].
  - by rewrite Hs.
  - exists l. split; [done|]. intros CSV. by rewrite elem_of_list_to_set.
Qed.

Lemma liveAfter_set N m v :
  (∀ M o, o ∈ opsOf g M → Target o < m) → bv_size v = m →
  (∀ c, c < m → bv_test v c = true ↔ Liveness.liveAfter g N c) →
  ∃ l, csvsInSet (TheFunction A) v = Ok l ∧ isSet (list_to_set l) (Liveness.liveAfter g N).
Proof using An.
  intros Hm Hs Ht. destruct (csvsInSet_exact (TheFunction A) v (Liveness.liveAfter g N)) as (l & Hl & Hel).
  - intros c (M' & _ & (M & o & Ho & <-)%live_op). rewrite Hs. split; [by apply (Hm M)|by apply (csv_of_op M)].
  - by rewrite Hs.
  - exists l. split; [done|]. intros CSV. by rewrite elem_of_list_to_set.
Qed.

Lemma collectLive_spec m R :
  (∀ M o, o ∈ opsOf g M → Target o < m) →
  (∀ N, N ∈ Nodes g → ∃ r, R !! N = Some r ∧ Liveness.liveResult g m R N r) →
  ∃ Arguments SiteReturns, collectLive A EntryNode R = Ok (Arguments, SiteReturns) ∧
    isSet Arguments (Liveness.live g EntryNode) ∧
    Forall2 (λ (s : BasicBlockID.BasicBlockID * CallSite) S, isSet S (Liveness.liveAfter g (SiteBlock s.2))) (CallSites A) SiteReturns.
Proof using An.
  intros Hm HR. pose proof (an_wf _ An) as Hwf.
  destruct (HR EntryNode (an_entry _ An)) as (r & Hr & Hres).
  destruct (live_set EntryNode m (MFP.OutValue r)) as (l & Hl & Hset); [done|apply Hres| |].
  { intros c Hc. apply (Liveness.liveResult_exact g m R EntryNode r c Hwf HR (an_entry _ An) Hr Hc). }
  destruct (mapM_ok (λ s : BasicBlockID.BasicBlockID * CallSite,
      r ← MFP.map_at R (SiteBlock s.2); l ← csvsInSet (TheFunction A) (MFP.InValue r); Ok (list_to_set l : gset GlobalVariable))
    (λ s S, isSet S (Liveness.liveAfter g (SiteBlock s.2))) (CallSites A)) as (k & Hk & Hf).
  { intros s Hs%(an_sites _ An). destruct (HR _ Hs) as (rs & Hrs & Hress).
    destruct (liveAfter_set (SiteBlock s.2) m (MFP.InValue rs)) as (ls & Hls & Hsets); [done|apply Hress| |].
    { intros c Hc. apply (Liveness.liveResult_exact g m R _ rs c Hwf HR Hs Hrs Hc). }
    exists (list_to_set ls). split; [|done]. unfold MFP.map_at. by rewrite Hrs, bind_ok, Hls. }
  exists (list_to_set l), k. split; [|done]. unfold collectLive. by rewrite Hr, Hl, bind_ok, Hk, bind_ok.
Qed.

Lemma unread_set R N Before :
  N ∈ Nodes g →
  (∃ v, ReachingDefinitions.computeAt R (SinkNode A) N Before = Ok v ∧ bv_size v = csvCount (TheFunction A) ∧
    ∀ c, c < csvCount (TheFunction A) → bv_test v c = true ↔ unreadAt N Before c) →
  ∃ v l, ReachingDefinitions.computeAt R (SinkNode A) N Before = Ok v ∧
    csvsInSet (TheFunction A) v = Ok l ∧ isSet (list_to_set l) (unreadAt N Before).
Proof using An.
  intros HN (v & Hv & Hs & Ht). destruct (csvsInSet_exact (TheFunction A) v (unreadAt N Before)) as (l & Hl & Hel).
  - intros c (w & (M & o & Ho & <-)%isOn_op & _). rewrite Hs. split; [by apply (an_ops _ An M o Ho)|by apply (csv_of_op M)].
  - by rewrite Hs.
  - exists v, l. split; [done|]. split; [done|]. intros CSV. by rewrite elem_of_list_to_set.
Qed.

Lemma collectUnread_spec R :
  (∀ N Before, N ∈ Nodes g →
    ∃ v, ReachingDefinitions.computeAt R (SinkNode A) N Before = Ok v ∧ bv_size v = csvCount (TheFunction A) ∧
      ∀ c, c < csvCount (TheFunction A) → bv_test v c = true ↔ unreadAt N Before c) →
  ∃ Returns SiteArguments, collectUnread A R = Ok (Returns, SiteArguments) ∧
    isSet Returns (unreadAt (ReturnNode A) false) ∧
    Forall2 (λ (s : BasicBlockID.BasicBlockID * CallSite) S, isSet S (unreadAt (SiteBlock s.2) true)) (CallSites A) SiteArguments.
Proof using An.
  intros Hall. destruct (unread_set R (ReturnNode A) false) as (v & l & Hv & Hl & Hset);
    [apply (an_return _ An)|apply Hall, (an_return _ An)|].
  destruct (mapM_ok (λ s : BasicBlockID.BasicBlockID * CallSite,
      v ← ReachingDefinitions.computeAt R (SinkNode A) (SiteBlock s.2) true;
      l ← csvsInSet (TheFunction A) v; Ok (list_to_set l : gset GlobalVariable))
    (λ s S, isSet S (unreadAt (SiteBlock s.2) true)) (CallSites A)) as (k & Hk & Hf).
  { intros s Hs%(an_sites _ An). destruct (unread_set R (SiteBlock s.2) true) as (vs & ls & Hvs & Hls & Hsets); [done|by apply Hall|].
    exists (list_to_set ls). split; [|done]. by rewrite Hvs, bind_ok, Hls. }
  exists (list_to_set l), k. split; [|done]. unfold collectUnread. by rewrite Hv, bind_ok, Hl, bind_ok, Hk, bind_ok.
Qed.

(** The results on a call site. *)
Definition siteExact (s : BasicBlockID.BasicBlockID * CallSite) (r : BasicBlockID.BasicBlockID * CallSiteResults (GlobalVariable := GlobalVariable)) : Prop :=
  r.1 = s.1 ∧ CalleeAddress r.2 = Callee s.2 ∧
  isSet (CallSiteArguments r.2) (unreadAt (SiteBlock s.2) true) ∧
  isSet (CallSiteReturnValues r.2) (Liveness.liveAfter g (SiteBlock s.2)).

Lemma sites_exact SiteArguments SiteReturns :
  Forall2 (λ (s : BasicBlockID.BasicBlockID * CallSite) S, isSet S (unreadAt (SiteBlock s.2) true)) (CallSites A) SiteArguments →
  Forall2 (λ (s : BasicBlockID.BasicBlockID * CallSite) S, isSet S (Liveness.liveAfter g (SiteBlock s.2))) (CallSites A) SiteReturns →
  Forall2 siteExact (CallSites A)
    (zip_with (λ s ar : _ * _, (s.1, mkCallSiteResults (Callee s.2) ar.1 ar.2)) (CallSites A) (zip SiteArguments SiteReturns)).
Proof using Type.
  intros Ha. revert SiteReturns. induction Ha as [|s S ss SS HS Ha IH]; intros Rs Hr; [constructor|].
  inversion Hr as [|? S' ? SS' HS' Hr']; subst. cbn. constructor; [done|by apply IH].
Qed.
End analysis.

(** C3: on a function whose nodes all reach the sink, with at most 256 writes
    of each register, the analysis ends, never fails and its results are exact.
    The arguments are the registers that some path from the entry reads first;
    the return values those with a write that reaches the return node and is
    read on no path; the return values of a call site are the registers read
    first after it; its arguments those with a write that reaches it and is read
    on no path. *)
Theorem registers_exact {GlobalVariable : Type} `{Countable GlobalVariable} `{LLVMBitVector}
    (A : FunctionToAnalyze (GlobalVariable := GlobalVariable)) (labelLess : NodeT → NodeT → bool)
    (inversePO : MFP.LLVMPostOrder NodeT (H0 := inverseTraits (graph (TheFunction A))))
    (forwardPO : MFP.LLVMPostOrder NodeT (H0 := forwardTraits (graph (TheFunction A)))) EntryNode :
  analyzable A EntryNode → (∀ c, ReachingDefinitions.writeCount (graph (TheFunction A)) c ≤ 256) →
  ∃ bound, ∀ fuel, bound ≤ fuel → ∃ r,
    analyzeRegisterUsage A labelLess inversePO forwardPO fuel EntryNode = Ok (Some r) ∧
    isSet A (ArgumentsRegisters r) (Liveness.live (graph (TheFunction A)) EntryNode) ∧
    isSet A (ReturnValuesRegisters r) (unreadAt A (ReturnNode A) false) ∧
    Forall2 (siteExact A) (CallSites A) (CallSitesResults r).
Proof.
  intros An Hfew. pose proof (an_wf _ _ An) as Hwf. pose proof (an_ops _ _ An) as Hops.
  destruct (Liveness.runLiveness_results (graph (TheFunction A)) labelLess inversePO (ReturnNode A) Hwf
    (goodOps_executable _ _ Hops)) as (m & bound1 & Hm & Hlive).
  destruct (ReachingDefinitions.runReachingDefinitions_results (graph (TheFunction A)) _ labelLess forwardPO EntryNode Hwf Hops)
    as (W & bound2 & HW & Hreach).
  exists (Nat.max bound1 bound2). intros fuel Hfuel.
  destruct (Hlive fuel) as (R1 & HR1 & Hres1); [lia|]. destruct (Hreach fuel) as (R2 & HR2 & Hres2); [lia|].
  destruct (collectLive_spec A EntryNode An m R1 Hm Hres1) as (Args & SiteRets & Hc1 & Hargs & Hf1).
  destruct (collectUnread_spec A EntryNode An R2) as (Rets & SiteArgs & Hc2 & Hrets & Hf2).
  { intros N Before HN.
    exact (ReachingDefinitions.computeAt_unread _ _ W R2 Hwf Hops HW Hres2 Hfew _ N Before (an_sink _ _ An) (an_sinks _ _ An) HN). }
  assert (analyzeRegisterUsage A labelLess inversePO forwardPO fuel EntryNode = Ok (Some (mkResults Args Rets
    (zip_with (λ s ar : _ * _, (s.1, mkCallSiteResults (Callee s.2) ar.1 ar.2)) (CallSites A) (zip SiteArgs SiteRets))))) as Hok.
  { unfold analyzeRegisterUsage. by rewrite HR1, bind_ok, Hc1, bind_ok, HR2, bind_ok, Hc2, bind_ok. }
  eexists. split; [exact Hok|]. split; [done|]. split; [done|]. by apply sites_exact.
Qed.

(** A function that reads its first register, writes the second one around a
    call and returns. *)
Definition callerGraph : Graph :=
  let N d s p := mkNode d (map (λ x, (x, tt)) s) (map (λ x, (x, tt)) p) in
  mkGraph [1; 2; 3; 4]%positive
    (list_to_map [(1, N [mkOp OperationType.Read 0; mkOp OperationType.Write 1] [2] []);
                  (2, N [mkOp OperationType.Clobber 1] [3] [1]);
                  (3, N [mkOp OperationType.Read 2; mkOp OperationType.Write 1] [4] [2]); (4, N [] [] [3])]%positive)
    (Some 1%positive).

Definition caller : FunctionToAnalyze (GlobalVariable := nat) :=
  mkFunctionToAnalyze (mkFunction callerGraph {[0 := 10; 1 := 11; 2 := 12]} {[10 := 0; 11 := 1; 12 := 2]})
    [(BasicBlockID.mkID MetaAddress.invalid 0, mkCallSite 2%positive MetaAddress.invalid)] 3%positive 4%positive.

Lemma caller_analyzable : analyzable caller 1%positive.
Proof.
  split.
  - apply consistent_wf. vm_compute. reflexivity.
  - apply goodOpsb_spec. vm_compute. reflexivity.
  - intros c Hc. change (c < 3) in Hc. destruct c as [|[|[|c]]]; [by eexists..|lia].
  - unfold caller, callerGraph. cbn. left.
  - unfold caller, callerGraph. cbn. right. right. left.
  - unfold caller, callerGraph. cbn. right. right. right. left.
  - intros s Hs. unfold caller in Hs. cbn in Hs. apply list_elem_of_singleton in Hs as ->.
    unfold caller, callerGraph. cbn. right. left.
  - apply sinks_spec. vm_compute. reflexivity.
Qed.

Lemma registers_exact_witness :
  analyzable caller 1%positive ∧ ∃ fuel r,
    analyzeRegisterUsage (H0 := listBits) caller Pos.ltb (inverseWalk callerGraph) (forwardWalk callerGraph) fuel 1%positive = Ok (Some r) ∧
    isSet caller (ArgumentsRegisters r) (Liveness.live callerGraph 1%positive).
Proof.
  split; [exact caller_analyzable|].
  destruct (registers_exact (H0 := listBits) caller Pos.ltb (inverseWalk callerGraph) (forwardWalk callerGraph) 1%positive
    caller_analyzable) as (bound & Hrun).
  - apply ReachingDefinitions.few_writes. apply leb_complete. vm_compute. reflexivity.
  - destruct (Hrun bound (le_n _)) as (r & Hr & Ha & _). exists bound, r. split; [exact Hr|exact Ha].
Defined.

(** The results on the example. *)
Example caller_results :
  analyzeRegisterUsage (H0 := listBits) caller Pos.ltb (inverseWalk callerGraph) (forwardWalk callerGraph) 100 1%positive =
  Ok (Some (mkResults {[10; 12]} {[11]}
    [(BasicBlockID.mkID MetaAddress.invalid 0, mkCallSiteResults MetaAddress.invalid {[11]} {[12]})])).
Proof. vm_compute. reflexivity. Qed.
