(* ===== verification/SmallMap.v ===== *)
(** * Small maps

    [SmallMap] (include/revng/ADT/SmallMap.h): a map that keeps up to [N]
    elements in an inline array, searched linearly, and moves them to a
    [std::map] when it grows. *)

From S2P Require Import Prelude.
From S2P Require SortedVector.
From stdpp Require Import gmap sorting.

Section smallmap.
  Context {K V : Type} `{Countable K} (N : nat) (C : K → K → bool) (defaultV : V).

(** [Vector] has [N] elements, of which the first [Size] are in use. *)
(* include/revng/ADT/SmallMap.h:181-190 SmallMap *)
Record SmallMap := mkSM {
  Vector : list (K * V);
  IsSorted : bool;
  Size : nat;
  Map : gmap K V;
}.

(** The iterators, which remember the container they point into: a position of
    the array, or a key of the map ([None] for its end). *)
(* include/revng/ADT/SmallMap.h:154-156 Iteratall *)
Inductive iterator : Type :=
  | VIterator (n : nat)
  | MapIterator (k : option K).

(* include/revng/ADT/SmallMap.h:90-101 Iteratall::CompareVisitor *)
Definition iteratorEqual (It Other : iterator) : outcome bool :=
  match It, Other with
  | VIterator n, VIterator m => Ok (bool_decide (n = m))
  | MapIterator k, MapIterator l => Ok (bool_decide (k = l))
  | _, _ => revng_abort
  end.

(* include/revng/ADT/SmallMap.h:200-200 SmallMap::SmallMap *)
Definition make (Vector : list (K * V)) : SmallMap := mkSM Vector true 0 ∅.

(* include/revng/ADT/SmallMap.h:384-384 SmallMap::isSmall *)
Definition isSmall (m : SmallMap) : bool := bool_decide (Map m = ∅).

(** The elements of the array in use. *)
Definition used (m : SmallMap) : list (K * V) := take (Size m) (Vector m).

(* include/revng/ADT/SmallMap.h:386-398 SmallMap::vfind *)
Definition vfind (m : SmallMap) (Key : K) : nat :=
  SortedVector.prefix_length (λ p, negb (bool_decide (p.1 = Key))) (used m).

(* include/revng/ADT/SmallMap.h:233-233 SmallMap::empty *)
Definition empty (m : SmallMap) : bool := bool_decide (Size m = 0) && bool_decide (Map m = ∅).

(* include/revng/ADT/SmallMap.h:235-235 SmallMap::size *)
Definition size (m : SmallMap) : nat := if isSmall m then Size m else base.size (Map m).

(* include/revng/ADT/SmallMap.h:244-249 SmallMap::end *)
Definition end_ (m : SmallMap) : iterator :=
  if isSmall m then VIterator (Size m) else MapIterator None.

(* include/revng/ADT/SmallMap.h:327-339 SmallMap::find *)
Definition find (m : SmallMap) (Key : K) : iterator :=
  if isSmall m then VIterator (vfind m Key)
  else MapIterator match Map m !! Key with Some _ => Some Key | None => None end.

(** The element an iterator points to. *)
(* include/revng/ADT/SmallMap.h:83-88 Iteratall::DereferenceVisitor *)
Definition deref (m : SmallMap) (It : iterator) : outcome (K * V) :=
  match It with
  | VIterator n => match Vector m !! n with Some p => Ok p | None => undefined end
  | MapIterator (Some k) => match Map m !! k with Some v => Ok (k, v) | None => undefined end
  | MapIterator None => undefined
  end.

(* include/revng/ADT/SmallMap.h:265-271 SmallMap::count *)
Definition count (m : SmallMap) (Key : K) : nat :=
  if isSmall m then (if bool_decide (vfind m Key = Size m) then 0 else 1)
  else match Map m !! Key with Some _ => 1 | None => 0 end.

(* include/revng/ADT/SmallMap.h:355-355 SmallMap::contains *)
Definition contains (m : SmallMap) (Key : K) : outcome bool :=
  negb <$> iteratorEqual (find m Key) (end_ m).

(* include/revng/ADT/SmallMap.h:371-381 SmallMap::at *)
Definition at_ (m : SmallMap) (Key : K) : outcome V :=
  let It := find m Key in
  AtEnd ← iteratorEqual It (end_ m);
  revng_assert (negb AtEnd);;
  snd <$> deref m It.

(** [std::map::insert] keeps an existing element. *)
Definition mapInsert (P : K * V) (m : gmap K V) : gmap K V :=
  match m !! P.1 with Some _ => m | None => <[P.1 := P.2]> m end.

(** The state, the iterator and whether the element was inserted. *)
(* include/revng/ADT/SmallMap.h:273-302 SmallMap::insert *)
Definition insert (m : SmallMap) (P : K * V) : outcome (SmallMap * (iterator * bool)) :=
  if negb (isSmall m) then
    Ok (mkSM (Vector m) (IsSorted m) (Size m) (mapInsert P (Map m)),
        (MapIterator (Some P.1), match Map m !! P.1 with Some _ => false | None => true end))
  else
    let I := vfind m P.1 in
    if negb (bool_decide (I = Size m)) then Ok (m, (VIterator I, false))
    else if bool_decide (Size m < N) then
      let Vector := <[Size m := P]> (Vector m) in
      let Size := S (Size m) in
      IsSorted ← (if bool_decide (1 < Size) && IsSorted m
                  then match Vector !! (Size - 2) with
                       | Some q => Ok (negb (C P.1 q.1))
                       | None => undefined
                       end
                  else Ok (IsSorted m));
      Ok (mkSM Vector IsSorted Size (Map m), (VIterator (Size - 1), true))
    else
      revng_assert (bool_decide (Map m = ∅));;
      let Map' := foldl (λ M p, mapInsert p M) (Map m) (used m) in
      Ok (mkSM (Vector m) (IsSorted m) (Size m) (mapInsert P Map'),
          (MapIterator (Some P.1), match Map' !! P.1 with Some _ => false | None => true end)).

(** The elements after the erased one move one position to the left; the last
    position in use keeps its value and is no longer counted. *)
(* include/revng/ADT/SmallMap.h:304-325 SmallMap::erase *)
Definition erase (m : SmallMap) (Key : K) : SmallMap :=
  if isSmall m then
    let I := vfind m Key in
    if bool_decide (I = Size m) then m
    else
      let Size' := Size m - 1 in
      mkSM (take I (Vector m) ++ take (Size' - I) (drop (S I) (Vector m)) ++ drop Size' (Vector m))
        (IsSorted m) Size' (Map m)
  else mkSM (Vector m) (IsSorted m) (Size m) (delete Key (Map m)).

(* include/revng/ADT/SmallMap.h:357-361 SmallMap::clear *)
Definition clear (m : SmallMap) : SmallMap := mkSM (Vector m) (IsSorted m) 0 ∅.

(** The state and the value the reference designates. *)
(* include/revng/ADT/SmallMap.h:363-369 SmallMap::operator[] *)
Definition index (m : SmallMap) (Key : K) : outcome (SmallMap * V) :=
  '(m, (It, _)) ← insert m (Key, defaultV);
  p ← deref m It; Ok (m, p.2).

(* include/revng/ADT/SmallMap.h:222-231 SmallMap::sort *)
Definition sort `{!SortedVector.StdSort} (m : SmallMap) : SmallMap :=
  if IsSorted m || negb (isSmall m) || bool_decide (Size m ≤ 1) then m
  else mkSM (SortedVector.std_sort (λ A B, C A.1 B.1) (used m) ++ drop (Size m) (Vector m)) true (Size m) (Map m).

(** In the array, after sorting it. *)
(* include/revng/ADT/SmallMap.h:400-414 SmallMap::vlower_bound *)
Definition vlower_bound `{!SortedVector.StdSort} (m : SmallMap) (Key : K) : SmallMap * nat :=
  let m := sort m in (m, SortedVector.prefix_length (λ p, C p.1 Key) (used m)).

(** The elements of the [std::map], in the order of its comparator. *)
Definition mapElements `{!SortedVector.StdSort} (m : SmallMap) : list (K * V) :=
  SortedVector.std_sort (λ A B, C A.1 B.1) (map_to_list (Map m)).

(** What the iteration from [begin()] to [end()] visits. *)
(* include/revng/ADT/SmallMap.h:237-263 SmallMap::begin *)
Definition elements `{!SortedVector.StdSort} (m : SmallMap) : list (K * V) :=
  if isSmall m then used m else mapElements m.

(* include/revng/ADT/SmallMap.h:341-353 SmallMap::lower_bound *)
Definition lower_bound `{!SortedVector.StdSort} (m : SmallMap) (Key : K) : SmallMap * iterator :=
  if isSmall m then let '(m, n) := vlower_bound m Key in (m, VIterator n)
  else (m, MapIterator (fst <$> head (filter (λ p, C p.1 Key = false) (mapElements m)))).

(** ** The map it stands for *)

Definition toMap (m : SmallMap) : gmap K V :=
  if isSmall m then list_to_map (used m) else Map m.

(** What the operations rely on: no key is twice in the array, and the flag says
    "sorted" only when it is. *)
Record inv (m : SmallMap) : Prop := {
  inv_length : length (Vector m) = N;
  inv_Size : Size m ≤ N;
  inv_NoDup : NoDup ((used m).*1);
  inv_sorted : IsSorted m = true → StronglySorted (λ p q, C p.1 q.1 = true) (used m);
}.
End smallmap.

Arguments SmallMap : clear implicits.
Arguments SmallMap K V {_ _}.
Arguments iterator : clear implicits.

(** ** Facts *)

Section plain.
  Context {K V : Type} `{Countable K}.
  Implicit Types (m : SmallMap K V).

Lemma toMap_small m : isSmall m = true → toMap m = list_to_map (used m).
Proof. unfold toMap. by intros ->. Qed.

Lemma toMap_large m : isSmall m = false → toMap m = Map m.
Proof. unfold toMap. by intros ->. Qed.

Lemma isSmall_true m : isSmall m = true ↔ Map m = ∅.
Proof. unfold isSmall. apply bool_decide_eq_true. Qed.

Lemma isSmall_false m : isSmall m = false ↔ Map m ≠ ∅.
Proof. unfold isSmall. apply bool_decide_eq_false. Qed.

Lemma mapInsert_ne (P : K * V) (M : gmap K V) : mapInsert P M ≠ ∅.
Proof.
  unfold mapInsert. destruct (M !! P.1) eqn:Hm; [by intros ->|]. apply insert_non_empty.
Qed.

Lemma NoDup_fst_app (l : list (K * V)) k v :
  NoDup (l.*1) → k ∉ l.*1 → NoDup ((l ++ [(k, v)]).*1).
Proof.
  intros Hl Hk. rewrite fmap_app. simpl. apply NoDup_app. split_and!; [done| |apply NoDup_singleton].
  intros x Hx ->%list_elem_of_singleton. done.
Qed.

Lemma foldl_mapInsert (l : list (K * V)) (M : gmap K V) :
  NoDup (l.*1) → (∀ k, k ∈ l.*1 → M !! k = None) →
  foldl (λ M p, mapInsert p M) M l = list_to_map l ∪ M.
Proof.
  revert M. induction l as [|[k v] l IH]; intros M Hnd Hfresh; csimpl in *.
  - by rewrite (left_id_L ∅ (∪)).
  - apply NoDup_cons in Hnd as [Hk Hnd]. unfold mapInsert at 2. simpl.
    rewrite (Hfresh k) by set_solver. rewrite IH; [|done|].
    + rewrite <-insert_union_l. rewrite insert_union_r; [done|].
      by apply not_elem_of_list_to_map_1.
    + intros k' Hk'. rewrite lookup_insert_ne by (intros ->; done). apply Hfresh. set_solver.
Qed.

Lemma erase_large m k :
  isSmall m = false → erase m k = mkSM (Vector m) (IsSorted m) (Size m) (delete k (Map m)).
Proof. unfold erase. by intros ->. Qed.

Lemma foldl_delete_lookup (ks : list K) (M : gmap K V) j :
  foldl (λ M k, delete k M) M ks !! j = if decide (j ∈ ks) then None else M !! j.
Proof.
  revert M. induction ks as [|k ks IH]; intros M; simpl; [done|]. rewrite IH.
  destruct (decide (j = k)) as [->|Hne].
  - rewrite (decide_True _ _ (P := k ∈ k :: ks)) by by left. rewrite lookup_delete_eq.
    by case_decide.
  - rewrite lookup_delete_ne by done. apply decide_ext. set_solver.
Qed.

(** Erasing keys other than one the [std::map] has. *)
Lemma foldl_erase (Vs : list (K * V)) b n (M : gmap K V) k v (ks : list K) :
  M !! k = Some v → k ∉ ks →
  foldl erase (mkSM Vs b n M) ks = mkSM Vs b n (foldl (λ M k, delete k M) M ks).
Proof.
  revert M. induction ks as [|j ks IH]; intros M HM Hk; simpl; [done|].
  rewrite erase_large by (apply isSmall_false; simpl; by intros ->). simpl.
  apply IH; [|set_solver]. rewrite lookup_delete_ne by set_solver. done.
Qed.
End plain.

Section facts.
  Context {K V : Type} `{Countable K} (N : nat) (C : K → K → bool) (defaultV : V).
  Context (C_irrefl : ∀ x, C x x = false).
  Context (C_trans : ∀ x y z, C x y = true → C y z = true → C x z = true).
  Context (C_total : ∀ x y, C x y = false → C y x = false → x = y).
  #[local] Set Default Proof Using "Type*".
  Implicit Types (m : SmallMap K V).

Lemma used_length m : inv N C m → length (used m) = Size m.
Proof. intros [Hl Hs _ _]. unfold used. rewrite length_take. lia. Qed.

(** The position [vfind] returns. *)
Lemma vfind_spec m k :
  inv N C m →
  (∃ v l1 l2, used m = l1 ++ (k, v) :: l2 ∧ vfind m k = length l1 ∧
     k ∉ l1.*1 ∧ vfind m k < Size m) ∨
  (k ∉ (used m).*1 ∧ vfind m k = Size m).
Proof.
  intros Hinv. pose proof (used_length m Hinv) as Hl.
  destruct (SortedVector.prefix_length_split (λ p : K * V, negb (bool_decide (p.1 = k))) (used m))
    as (l1 & l2 & Hu & Hpl & H1 & H2).
  assert (k ∉ l1.*1) as Hk.
  { intros ([k' v] & -> & Hin)%list_elem_of_fmap. rewrite Forall_forall in H1.
    specialize (H1 _ Hin). simpl in H1. by rewrite bool_decide_eq_true_2 in H1. }
  unfold vfind. rewrite <-Hpl. destruct l2 as [|[k' v] l2].
  - right. rewrite Hu, app_nil_r. split; [done|]. rewrite Hu, app_nil_r in Hl. done.
  - left. specialize (H2 _ eq_refl). simpl in H2. case_bool_decide as Hkk; [|done]. simpl in Hkk.
    subst k'. exists v, l1, l2. split_and!; try done. rewrite <-Hl, Hu, length_app. simpl. lia.
Qed.

Lemma small_lookup m k :
  inv N C m → isSmall m = true →
  (∃ v, toMap m !! k = Some v ∧ Vector m !! vfind m k = Some (k, v) ∧ vfind m k < Size m) ∨
  (toMap m !! k = None ∧ vfind m k = Size m).
Proof.
  intros Hinv Hs. rewrite toMap_small by done.
  destruct (vfind_spec m k Hinv) as [(v & l1 & l2 & Hu & Hv & Hk & Hlt)|[Hk Hv]].
  - left. exists v. split_and!; [| |done].
    + apply elem_of_list_to_map_1; [apply Hinv|]. rewrite Hu. set_solver.
    + assert (used m !! vfind m k = Some (k, v)) as Hl by (rewrite Hu, Hv; by apply list_lookup_middle).
      unfold used in Hl. by apply lookup_take_Some in Hl as [? _].
  - right. split; [|done]. by apply not_elem_of_list_to_map_1.
Qed.

(** The specification of [insert]: an existing element is kept. *)
Definition inserted (M : gmap K V) (P : K * V) : gmap K V :=
  match M !! P.1 with Some _ => M | None => <[P.1 := P.2]> M end.

(** Appending to the array. *)
Lemma used_append m P Sorted :
  inv N C m → Size m < N →
  used (mkSM (<[Size m := P]> (Vector m)) Sorted (S (Size m)) (Map m)) = used m ++ [P].
Proof.
  intros [Hl _ _ _] Hlt. unfold used. simpl.
  rewrite (take_S_r _ _ P) by (rewrite list_lookup_insert_eq; [done|lia]).
  by rewrite take_insert_ge by lia.
Qed.

Lemma append_sorted (l : list (K * V)) P q :
  StronglySorted (λ p q, C p.1 q.1 = true) (l ++ [q]) → C P.1 q.1 = false →
  P.1 ∉ (l ++ [q]).*1 → StronglySorted (λ p q, C p.1 q.1 = true) ((l ++ [q]) ++ [P]).
Proof.
  intros Hs HC Hnin. rewrite !StronglySorted_app in *. destruct Hs as (H1 & H2 & H3).
  assert (C q.1 P.1 = true) as HqP.
  { destruct (C q.1 P.1) eqn:E; [done|]. exfalso. apply Hnin.
    rewrite (C_total _ _ HC E), fmap_app. set_solver. }
  split_and!; try done; [|by repeat constructor].
  intros x y [Hx|Hx]%elem_of_app Hy%list_elem_of_singleton; subst y.
  - apply (C_trans _ q.1); [|done]. apply H1; [done|]. by apply list_elem_of_singleton.
  - apply list_elem_of_singleton in Hx as ->. done.
Qed.

(** The new value of the flag when an element is appended. *)
Lemma append_flag m P :
  inv N C m → Size m < N → P.1 ∉ (used m).*1 →
  ∃ b, (if bool_decide (1 < S (Size m)) && IsSorted m
        then match <[Size m := P]> (Vector m) !! (S (Size m) - 2) with
             | Some q => Ok (negb (C P.1 q.1))
             | None => undefined
             end
        else Ok (IsSorted m)) = Ok b ∧
    (b = true → StronglySorted (λ p q, C p.1 q.1 = true) (used m ++ [P])).
Proof.
  intros Hinv Hlt Hk. pose proof Hinv as [HVl HSz Hnd Hsorted].
  case_bool_decide as Hone; simpl.
  - destruct (IsSorted m) eqn:Hso; [|by exists false].
    rewrite list_lookup_insert_ne by lia.
    destruct (Vector m !! (Size m - 1)) as [q|] eqn:Hq.
    + eexists. split; [done|]. intros HC%negb_true_iff.
      assert (used m = take (Size m - 1) (Vector m) ++ [q]) as Hu.
      { unfold used. replace (Size m) with (S (Size m - 1)) at 1 by lia.
        by apply take_S_r. }
      rewrite Hu in *. apply append_sorted; auto.
    + apply lookup_ge_None in Hq. lia.
  - eexists. split; [done|]. intros _.
    assert (used m = []) as ->; [|by repeat constructor].
    unfold used. by replace (Size m) with 0 by lia.
Qed.

Lemma insert_spec m P :
  inv N C m →
  ∃ m' It, insert N C m P = Ok (m', (It, bool_decide (toMap m !! P.1 = None))) ∧
    inv N C m' ∧ toMap m' = inserted (toMap m) P ∧
    ∃ v, deref m' It = Ok (P.1, v) ∧ toMap m' !! P.1 = Some v.
Proof.
  intros Hinv. unfold insert. destruct P as [k v]. simpl.
  destruct (isSmall m) eqn:Hs; simpl.
  - pose proof Hs as HM. apply isSmall_true in HM.
    destruct (small_lookup m k Hinv Hs) as [(v0 & Hl & Hv & Hlt)|[Hl Hv]].
    + rewrite bool_decide_eq_false_2 by lia. simpl. eexists m, _.
      rewrite Hl, bool_decide_eq_false_2 by done. split; [done|]. split; [done|].
      unfold inserted. simpl. rewrite Hl. split; [done|]. exists v0. by rewrite Hv.
    + rewrite bool_decide_eq_true_2 by done. simpl.
      pose proof Hinv as [HVl HSz Hnd Hsorted].
      pose proof Hl as Hk. rewrite toMap_small in Hk by done.
      apply not_elem_of_list_to_map_2 in Hk.
      case_bool_decide as Hlt.
      * destruct (append_flag m (k, v) Hinv Hlt Hk) as (b & Hb & Hbs).
        simpl in Hb. simpl. rewrite Hb. simpl. rewrite Hl, bool_decide_eq_true_2 by done.
        eexists _, _. split; [done|].
        pose proof (used_append m (k, v) b Hinv Hlt) as Hu. rewrite Nat.sub_0_r.
        split; [split; simpl|split].
        -- by rewrite length_insert.
        -- lia.
        -- rewrite Hu. by apply NoDup_fst_app.
        -- by rewrite Hu.
        -- rewrite toMap_small by done. rewrite Hu, list_to_map_snoc by done.
           unfold inserted. simpl. by rewrite Hl, toMap_small.
        -- exists v. simpl. rewrite list_lookup_insert_eq by lia. split; [done|].
           rewrite toMap_small by done. rewrite Hu, list_to_map_snoc by done.
           by rewrite lookup_insert_eq.
      * rewrite (bool_decide_eq_true_2 (Map m = ∅)) by done. simpl.
        rewrite HM, foldl_mapInsert, (right_id_L ∅ (∪)) by (done || intros; apply lookup_empty).
        rewrite <-toMap_small by done.
        assert (mapInsert (k, v) (toMap m) = <[k:=v]> (toMap m)) as Hmi
          by (unfold mapInsert; simpl; by rewrite Hl).
        rewrite Hmi. eexists _, _. split; [by rewrite Hl, bool_decide_eq_true_2|].
        assert (<[k:=v]> (toMap m) ≠ ∅) as Hne by apply insert_non_empty.
        split; [by split|]. rewrite toMap_large by by apply isSmall_false. simpl.
        unfold inserted. simpl. rewrite Hl. split; [done|]. exists v.
        by rewrite lookup_insert_eq.
  - eexists _, _. rewrite toMap_large by done. split; [|split; [|split]].
    + do 3 f_equal. by destruct (Map m !! k).
    + destruct Hinv. by split.
    + unfold toMap, isSmall. simpl. rewrite bool_decide_eq_false_2 by apply mapInsert_ne. done.
    + unfold toMap, isSmall. simpl. rewrite bool_decide_eq_false_2 by apply mapInsert_ne.
      unfold mapInsert. simpl. destruct (Map m !! k) as [v0|] eqn:Hmk.
      * exists v0. by rewrite Hmk.
      * exists v. by rewrite lookup_insert_eq.
Qed.

Lemma erase_used m k v l1 l2 :
  inv N C m → isSmall m = true → used m = l1 ++ (k, v) :: l2 → vfind m k = length l1 →
  used (erase m k) = l1 ++ l2 ∧ length (Vector (erase m k)) = N ∧
  Size (erase m k) = Size m - 1 ∧ IsSorted (erase m k) = IsSorted m ∧ Map (erase m k) = Map m.
Proof.
  intros Hinv Hs Hu Hv. pose proof (used_length m Hinv) as Hul. rewrite Hu, length_app in Hul.
  simpl in Hul. destruct Hinv as [HVl HSz _ _].
  unfold erase. rewrite Hs, Hv, bool_decide_eq_false_2 by lia. unfold used. simpl.
  assert (Vector m = l1 ++ (k, v) :: l2 ++ drop (Size m) (Vector m)) as HV.
  { rewrite <-(take_drop (Size m) (Vector m)) at 1. unfold used in Hu. rewrite Hu.
    by rewrite <-app_assoc. }
  assert (take (length l1) (Vector m) = l1) as ->.
  { rewrite HV. apply take_app_length. }
  assert (drop (S (length l1)) (Vector m) = l2 ++ drop (Size m) (Vector m)) as ->.
  { rewrite HV at 1. rewrite cons_middle, app_assoc.
    apply drop_app_length'. rewrite length_app. simpl. lia. }
  rewrite (take_app_length' l2) by lia. split_and!; try done.
  - rewrite app_assoc. apply take_app_length'. rewrite length_app. lia.
  - rewrite !length_app, length_drop. lia.
Qed.

Lemma sublist_sorted {A} (R : A → A → Prop) l1 x l2 :
  StronglySorted R (l1 ++ x :: l2) → StronglySorted R (l1 ++ l2).
Proof.
  rewrite !StronglySorted_app, StronglySorted_cons. intros (H1 & H2 & [H3 H4]).
  split_and!; try done. intros a b Ha Hb. apply H1; [done|]. by right.
Qed.

(** Erasing works on the array, and on the map as long as it does not become
    empty. *)
Lemma small_erase_spec m k :
  inv N C m →
  inv N C (erase m k) ∧
  (isSmall m = true ∨ delete k (Map m) ≠ ∅ → toMap (erase m k) = delete k (toMap m)).
Proof.
  intros Hinv. destruct (isSmall m) eqn:Hs.
  - destruct (vfind_spec m k Hinv) as [(v & l1 & l2 & Hu & Hv & Hk & Hlt)|[Hk Hv]].
    + destruct (erase_used m k v l1 l2 Hinv Hs Hu Hv) as (Hu' & HV' & HS' & Hso' & HM').
      pose proof Hinv as [HVl HSz Hnd Hsorted]. rewrite Hu in Hnd, Hsorted.
      rewrite fmap_app in Hnd. simpl in Hnd.
      split; [split|].
      * done.
      * lia.
      * rewrite Hu', fmap_app. apply NoDup_app in Hnd as (N1 & N2 & N3).
        apply NoDup_cons in N3 as [_ N3]. apply NoDup_app. split_and!; try done.
        intros x Hx Hx2. apply (N2 x Hx). by right.
      * rewrite Hso', Hu'. intros Hsd. by eapply sublist_sorted, Hsorted.
      * intros _. rewrite !toMap_small by (done || (unfold isSmall; by rewrite HM')).
        rewrite Hu', Hu. rewrite !list_to_map_app. simpl.
        rewrite delete_union, delete_insert_eq, !delete_id; try done.
        -- apply not_elem_of_list_to_map_1.
           apply NoDup_app in Hnd as (_ & _ & [Hn _]%NoDup_cons). done.
        -- by apply not_elem_of_list_to_map_1.
    + assert (erase m k = m) as -> by (unfold erase; by rewrite Hs, Hv, bool_decide_eq_true_2).
      split; [done|]. intros _. rewrite delete_id; [done|]. rewrite toMap_small by done.
      by apply not_elem_of_list_to_map_1.
  - unfold erase. rewrite Hs. split; [destruct Hinv; by split|].
    intros [?|Hne]; [done|]. rewrite (toMap_large m) by done.
    rewrite toMap_large; [done|]. by apply isSmall_false.
Qed.

Lemma isSmall_size m : inv N C m → size m = base.size (toMap m).
Proof.
  intros Hinv. unfold size, toMap. destruct (isSmall m); [|done].
  rewrite <-(used_length m Hinv). symmetry. apply map_size_list_to_map, Hinv.
Qed.

Lemma empty_spec m : inv N C m → empty m = bool_decide (toMap m = ∅).
Proof.
  intros Hinv. unfold empty. destruct (isSmall m) eqn:Hs.
  - pose proof Hs as HM. apply isSmall_true in HM. rewrite toMap_small by done.
    rewrite (bool_decide_eq_true_2 (Map m = ∅)), andb_true_r by done. apply bool_decide_ext.
    rewrite <-(used_length m Hinv), <-map_size_empty_iff, map_size_list_to_map by apply Hinv. done.
  - rewrite toMap_large by done. apply isSmall_false in Hs.
    by rewrite !(bool_decide_eq_false_2 (Map m = ∅)), andb_false_r by done.
Qed.

(** What the look-ups return. *)
Lemma lookups_spec m k :
  inv N C m →
  count m k = (if decide (toMap m !! k = None) then 0 else 1) ∧
  contains m k = Ok (bool_decide (toMap m !! k ≠ None)) ∧
  at_ m k = match toMap m !! k with Some v => Ok v | None => Fault AssertionFailed end ∧
  match toMap m !! k with
  | Some v => deref m (find m k) = Ok (k, v)
  | None => find m k = end_ m
  end.
Proof.
  intros Hinv. unfold at_, contains, count, find, end_. destruct (isSmall m) eqn:Hs.
  - destruct (small_lookup m k Hinv Hs) as [(v & -> & Hv & Hlt)|[-> Hv]]; simpl.
    + rewrite !(bool_decide_eq_false_2 (vfind m k = Size m)) by lia. simpl. by rewrite Hv.
    + rewrite Hv. by rewrite !(bool_decide_eq_true_2 (Size m = Size m)).
  - rewrite toMap_large by done. destruct (Map m !! k) as [v|] eqn:Hm; simpl; [by rewrite Hm|done].
Qed.

Lemma make_spec (Vs : list (K * V)) : length Vs = N → inv N C (make Vs) ∧ toMap (make Vs) = ∅.
Proof. intros Hl. split; [|done]. split; simpl; [done|lia|apply NoDup_nil_2|constructor]. Qed.

Lemma clear_spec m : inv N C m → inv N C (clear m) ∧ toMap (clear m) = ∅.
Proof.
  intros [Hl _ _ _]. split; [|done]. split; simpl; [done|lia|apply NoDup_nil_2|constructor].
Qed.

(** [operator[]] adds a default value when the key is missing. *)
Lemma small_index_spec m k :
  inv N C m →
  ∃ m' v, index N C defaultV m k = Ok (m', v) ∧ inv N C m' ∧
    v = default defaultV (toMap m !! k) ∧ toMap m' = <[k := v]> (toMap m).
Proof.
  intros Hinv.
  destruct (insert_spec m (k, defaultV) Hinv) as (m' & It & HI & Hinv' & HM & v & Hd & Hv).
  exists m', v. unfold index. rewrite HI. simpl. rewrite Hd. simpl. split; [done|]. split; [done|].
  rewrite HM in *. unfold inserted in *. simpl in *. destruct (toMap m !! k) as [w|] eqn:Hk; simpl.
  - assert (v = w) as -> by congruence. split; [done|]. by rewrite insert_id.
  - rewrite lookup_insert_eq in Hv. assert (v = defaultV) as -> by congruence. done.
Qed.

(** *** Order *)

Context `{!SortedVector.StdSort}.

Lemma C_neg_trans a b c : C a b = false → C b c = false → C a c = false.
Proof.
  intros Hab Hbc. apply not_true_is_false. intros Hac.
  destruct (C b a) eqn:Hba.
  - by rewrite (C_trans _ _ _ Hba Hac) in Hbc.
  - rewrite (C_total _ _ Hab Hba) in Hac. congruence.
Qed.

(** [std::sort] on elements with distinct keys gives a strict order. *)
Lemma sort_strict (l : list (K * V)) :
  NoDup (l.*1) →
  StronglySorted (λ p q, C p.1 q.1 = true) (SortedVector.std_sort (λ A B, C A.1 B.1) l).
Proof.
  intros Hnd.
  assert (NoDup ((SortedVector.std_sort (λ A B : K * V, C A.1 B.1) l).*1)) as Hnd'
    by by rewrite SortedVector.std_sort_perm.
  pose proof (SortedVector.std_sort_sorted (λ A B : K * V, C A.1 B.1) l
    (λ a, C_irrefl _) (λ a b c, C_trans _ _ _) (λ a b c, C_neg_trans _ _ _)) as Hs.
  induction Hs as [|p l' Hs IH Hf]; [constructor|]. simpl in Hnd'.
  apply NoDup_cons in Hnd' as [Hp Hnd']. constructor; [by apply IH|].
  apply Forall_forall. intros q Hq. rewrite Forall_forall in Hf. specialize (Hf q Hq). simpl in Hf.
  destruct (C p.1 q.1) eqn:Hpq; [done|]. exfalso. apply Hp.
  rewrite (C_total _ _ Hpq Hf). by apply list_elem_of_fmap_2.
Qed.

Lemma sort_spec m :
  inv N C m →
  inv N C (sort C m) ∧ toMap (sort C m) = toMap m ∧ isSmall (sort C m) = isSmall m ∧
  StronglySorted (λ p q, C p.1 q.1 = true) (elements C (sort C m)) ∧
  elements C (sort C m) ≡ₚ map_to_list (toMap m).
Proof.
  intros Hinv. pose proof (used_length m Hinv) as Hul. pose proof Hinv as [HVl HSz Hnd Hsorted].
  unfold elements. destruct (isSmall m) eqn:Hs.
  - assert (used m ≡ₚ map_to_list (toMap m)) as Hperm
      by by rewrite toMap_small, map_to_list_to_map by done.
    unfold sort. rewrite Hs. simpl. rewrite orb_false_r.
    destruct (IsSorted m) eqn:Hso; simpl; [rewrite Hs; by split_and!; auto|].
    case_bool_decide as Hone; simpl.
    + rewrite Hs. split_and!; try done. destruct (used m) as [|p [|q l]]; simpl in Hul; try lia;
        by repeat constructor.
    + pose proof (SortedVector.std_sort_perm (λ A B : K * V, C A.1 B.1) (used m)) as Hp.
      set (l := SortedVector.std_sort _ _) in *.
      assert (isSmall (mkSM (l ++ drop (Size m) (Vector m)) true (Size m) (Map m)) = true) as -> by exact Hs.
      assert (used (mkSM (l ++ drop (Size m) (Vector m)) true (Size m) (Map m)) = l) as Hu
        by (unfold used; simpl; apply take_app_length'; by rewrite Hp).
      rewrite Hu. split; [split; simpl|split_and!].
      * rewrite length_app, length_drop, Hp. lia.
      * done.
      * rewrite Hu. by rewrite Hp.
      * intros _. rewrite Hu. by apply sort_strict.
      * rewrite !toMap_small by done. rewrite Hu. apply list_to_map_proper; [by rewrite Hp|done].
      * done.
      * by apply sort_strict.
      * by rewrite Hp.
  - assert (sort C m = m) as -> by (unfold sort; rewrite Hs; simpl; by rewrite orb_true_r).
    rewrite Hs, toMap_large by done. split_and!; try done.
    + apply sort_strict, NoDup_fst_map_to_list.
    + apply SortedVector.std_sort_perm.
Qed.

(** The first element of a sorted list that is not before a key. *)
Lemma lower_bound_list (l : list (K * V)) k :
  StronglySorted (λ p q, C p.1 q.1 = true) l →
  match l !! SortedVector.prefix_length (λ p, C p.1 k) l with
  | Some p => p ∈ l ∧ C p.1 k = false ∧ ∀ q, q ∈ l → C q.1 k = false → q = p ∨ C p.1 q.1 = true
  | None => SortedVector.prefix_length (λ p, C p.1 k) l = length l ∧ ∀ q, q ∈ l → C q.1 k = true
  end ∧
  head (filter (λ p, C p.1 k = false) l) = l !! SortedVector.prefix_length (λ p, C p.1 k) l.
Proof using.
  induction 1 as [|p l Hs IH Hf]; simpl.
  - split; [|done]. split; [done|]. intros q Hq. by apply elem_of_nil in Hq.
  - rewrite Forall_forall in Hf. destruct (C p.1 k) eqn:Hp; simpl.
    + destruct IH as [IH1 IH2]. rewrite filter_cons_False by congruence. split; [|done].
      destruct (l !! _) as [q|].
      * destruct IH1 as (Hq & HC & Hmin). split; [by right|]. split; [done|].
        intros r [->|Hr]%elem_of_cons Hrk; [congruence|auto].
      * destruct IH1 as [-> IH1]. split; [done|]. intros q [->|Hq]%elem_of_cons; auto.
    + rewrite filter_cons_True by done. split; [|done]. split; [by left|]. split; [done|].
      intros q [->|Hq]%elem_of_cons _; [by left|right; auto].
Qed.
End facts.

(** The order the comparator [C] has to be, and the array the map is built on. *)
Class StrictOrder {K} (C : K → K → bool) : Prop := {
  C_irrefl x : C x x = false;
  C_trans x y z : C x y = true → C y z = true → C x z = true;
  C_total x y : C x y = false → C y x = false → x = y;
}.

#[global] Instance nat_ltb_order : StrictOrder Nat.ltb.
Proof.
  split; intros; repeat match goal with
  | H : (_ <? _)%nat = true |- _ => apply Nat.ltb_lt in H
  | H : (_ <? _)%nat = false |- _ => apply Nat.ltb_ge in H
  end; [apply Nat.ltb_irrefl|apply Nat.ltb_lt; lia|lia].
Qed.

(** ** Properties *)

Section properties.
  Context {K V : Type} `{Countable K} (N : nat) (C : K → K → bool) (defaultV : V).
  Context `{!StrictOrder C}.
  #[local] Set Default Proof Using "Type*".
  Implicit Types (m : SmallMap K V).

(** C36: [SmallMap] implements a finite map, whether its elements are inline or
    in the [std::map]: [insert] keeps an existing element and reports whether it
    added one, [operator[]] adds a default value, [erase] removes the key,
    [clear] everything, the look-ups, [size] and [empty] are those of the map,
    [at] of a missing key fails its assertion, and every operation keeps the
    invariant the others need.  [erase] is right as long as it does not take the
    last element out of the [std::map]. *)
Theorem small_map_refines_map m k v :
  inv N C m →
  (∃ m' It, insert N C m (k, v) = Ok (m', (It, bool_decide (toMap m !! k = None))) ∧
    inv N C m' ∧ toMap m' = <[k := default v (toMap m !! k)]> (toMap m) ∧
    deref m' It = Ok (k, default v (toMap m !! k))) ∧
  (∃ m', index N C defaultV m k = Ok (m', default defaultV (toMap m !! k)) ∧ inv N C m' ∧
    toMap m' = <[k := default defaultV (toMap m !! k)]> (toMap m)) ∧
  (inv N C (erase m k) ∧
   (isSmall m = true ∨ delete k (toMap m) ≠ ∅ → toMap (erase m k) = delete k (toMap m))) ∧
  (inv N C (clear m) ∧ toMap (clear m) = ∅) ∧
  size m = base.size (toMap m) ∧ empty m = bool_decide (toMap m = ∅) ∧
  count m k = (if decide (toMap m !! k = None) then 0 else 1) ∧
  contains m k = Ok (bool_decide (toMap m !! k ≠ None)) ∧
  at_ m k = match toMap m !! k with Some v => Ok v | None => Fault AssertionFailed end ∧
  match toMap m !! k with
  | Some v => deref m (find m k) = Ok (k, v)
  | None => find m k = end_ m
  end.
Proof.
  intros Hinv. split_and!.
  - destruct (insert_spec N C defaultV C_irrefl C_trans C_total m (k, v) Hinv) as (m' & It & HI & Hi & HM & w & Hd & Hw).
    exists m', It. split; [done|]. split; [done|]. unfold inserted in HM. simpl in HM, Hd, Hw.
    rewrite Hd. destruct (toMap m !! k) as [u|] eqn:Hk; simpl.
    + rewrite insert_id by done. split; [done|]. congruence.
    + split; [done|]. rewrite HM, lookup_insert_eq in Hw. congruence.
  - destruct (small_index_spec N C defaultV C_irrefl C_trans C_total m k Hinv) as (m' & w & HI & Hi & -> & HM).
    by exists m'.
  - by apply (small_erase_spec N C defaultV C_irrefl C_trans C_total).
  - destruct (small_erase_spec N C defaultV C_irrefl C_trans C_total m k Hinv) as [_ He].
    intros Hor. apply He. destruct (isSmall m) eqn:Hs; [by left|right].
    destruct Hor as [?|Hne]; [done|]. rewrite toMap_large in Hne by done. exact Hne.
  - by apply (clear_spec N C defaultV C_irrefl C_trans C_total).
  - done.
  - by apply (isSmall_size N C defaultV C_irrefl C_trans C_total).
  - by apply (empty_spec N C defaultV C_irrefl C_trans C_total).
  - by apply (lookups_spec N C defaultV C_irrefl C_trans C_total).
  - by apply (lookups_spec N C defaultV C_irrefl C_trans C_total).
  - by apply (lookups_spec N C defaultV C_irrefl C_trans C_total).
  - by apply (lookups_spec N C defaultV C_irrefl C_trans C_total).
Qed.

(** The iteration over a [SmallMap] that was sorted visits its elements once
    each, in the strict order of the keys, and [lower_bound] returns the first of
    them that is not before the given key. *)
Theorem small_map_ordered `{!SortedVector.StdSort} m k :
  inv N C m →
  inv N C (sort C m) ∧ toMap (sort C m) = toMap m ∧
  StronglySorted (λ p q, C p.1 q.1 = true) (elements C (sort C m)) ∧
  elements C (sort C m) ≡ₚ map_to_list (toMap m) ∧
  toMap (lower_bound C m k).1 = toMap m ∧
  ((∃ p, deref (lower_bound C m k).1 (lower_bound C m k).2 = Ok p ∧ toMap m !! p.1 = Some p.2 ∧
      C p.1 k = false ∧
      ∀ k', toMap m !! k' ≠ None → C k' k = false → k' = p.1 ∨ C p.1 k' = true) ∨
   ((lower_bound C m k).2 = end_ (lower_bound C m k).1 ∧
      ∀ k', toMap m !! k' ≠ None → C k' k = true)).
Proof.
  intros Hinv.
  destruct (sort_spec N C defaultV C_irrefl C_trans C_total m Hinv) as (Hi & HM & Hs & Hst & Hp).
  destruct (lower_bound_list C _ k Hst) as [Hlb Hhead].
  assert (∀ k', toMap m !! k' ≠ None → ∃ q, q ∈ elements C (sort C m) ∧ q.1 = k') as Hin.
  { intros k' [w Hw]%not_eq_None_Some. exists (k', w). rewrite Hp. by rewrite elem_of_map_to_list. }
  split; [done|]. split; [done|]. split; [done|]. split; [done|].
  unfold lower_bound, vlower_bound. destruct (isSmall m) eqn:Hsm; simpl.
  - split; [done|].
    assert (elements C (sort C m) = used (sort C m)) as Hu by (unfold elements; by rewrite Hs).
    rewrite Hu in *. pose proof (used_length N C defaultV C_irrefl C_trans C_total _ Hi) as Hul.
    destruct (used (sort C m) !! _) as [p|] eqn:Hl.
    + left. exists p. destruct Hlb as (Hpin & HCp & Hmin).
      apply lookup_take_Some in Hl as [-> _]. split; [done|].
      split_and!; [|done|intros k' (q & Hq & <-)%Hin HCk; destruct (Hmin q Hq HCk) as [->|]; auto].
      apply elem_of_map_to_list. rewrite <-Hp. by destruct p.
    + right. destruct Hlb as [-> Hall]. unfold end_. rewrite Hs, Hul. split; [done|].
      intros k' (q & Hq & <-)%Hin. auto.
  - assert (sort C m = m) as Hsort by (unfold sort; rewrite Hsm; simpl; by rewrite orb_true_r).
    assert (elements C (sort C m) = mapElements C m) as Hu by (rewrite Hsort; unfold elements; by rewrite Hsm).
    rewrite Hu in *. rewrite Hhead. split; [done|].
    destruct (mapElements C m !! _) as [p|] eqn:Hl; simpl.
    + left. destruct Hlb as (Hpin & HCp & Hmin).
      assert (toMap m !! p.1 = Some p.2) as Hpm by (apply elem_of_map_to_list; rewrite <-Hp; by destruct p).
      exists p. rewrite toMap_large in Hpm by done. rewrite Hpm, toMap_large by done. destruct p as [pk pv].
      split; [done|]. split_and!; [done|done|].
      rewrite <-toMap_large by done. intros k' (q & Hq & <-)%Hin HCk.
      destruct (Hmin q Hq HCk) as [->|]; auto.
    + right. destruct Hlb as [_ Hall]. unfold end_. rewrite Hsm. split; [done|].
      intros k' (q & Hq & <-)%Hin. auto.
Qed.

(** A full inline map that grew and from which every key was then erased has
    its old inline elements back: erasing the last element of the [std::map]
    makes [isSmall()] true again, while [Size] still counts the [N] elements the
    array had when the map grew. *)
Theorem grown_map_resurrects m k v :
  inv N C m → isSmall m = true → Size m = N → toMap m !! k = None →
  ∃ m', insert N C m (k, v) = Ok (m', (MapIterator (Some k), true)) ∧
    toMap m' = <[k := v]> (toMap m) ∧
    let erased := foldl erase m' ((used m).*1 ++ [k]) in
    toMap erased = toMap m ∧ size erased = N ∧ (0 < N → empty erased = false).
Proof.
  intros Hinv Hs HN Hk. pose proof Hs as HM. apply isSmall_true in HM.
  assert (k ∉ (used m).*1) as Hku by (apply not_elem_of_list_to_map_2; by rewrite <-toMap_small).
  destruct (small_lookup N C defaultV C_irrefl C_trans C_total m k Hinv Hs) as [(? & ? & _)|[_ Hv]];
    [congruence|].
  assert (foldl (λ M p, mapInsert p M) (Map m) (used m) = toMap m) as Hgrow.
  { rewrite HM, foldl_mapInsert, (right_id_L ∅ (∪)), toMap_small; try done. apply Hinv. }
  exists (mkSM (Vector m) (IsSorted m) (Size m) (<[k := v]> (toMap m))).
  assert (isSmall (mkSM (Vector m) (IsSorted m) (Size m) (<[k := v]> (toMap m))) = false) as Hs'
    by (apply isSmall_false, insert_non_empty).
  split; [|split; [by apply toMap_large|]].
  - unfold insert. rewrite Hs. simpl. rewrite Hv, bool_decide_eq_true_2 by done. simpl.
    rewrite bool_decide_eq_false_2 by lia. rewrite (bool_decide_eq_true_2 (Map m = ∅)) by done. simpl.
    rewrite Hgrow. unfold mapInsert. simpl. by rewrite Hk.
  - rewrite foldl_app. simpl. rewrite (foldl_erase _ _ _ _ k v) by (done || apply lookup_insert_eq).
    set (M := foldl _ _ _).
    assert (M !! k = Some v) as HMk
      by (unfold M; rewrite foldl_delete_lookup, decide_False by done; apply lookup_insert_eq).
    rewrite erase_large by (apply isSmall_false; simpl; by intros ->). simpl.
    assert (delete k M = ∅) as ->.
    { apply map_eq. intros j. rewrite lookup_empty. destruct (decide (j = k)) as [->|Hj];
        [apply lookup_delete_eq|]. rewrite lookup_delete_ne by done. unfold M.
      rewrite foldl_delete_lookup. case_decide as Hin; [done|]. rewrite lookup_insert_ne by done.
      rewrite toMap_small by done. by apply not_elem_of_list_to_map_1. }
    split; [|split].
    + rewrite !toMap_small by done. done.
    + unfold size, isSmall. simpl. by rewrite bool_decide_eq_true_2.
    + intros ?. unfold empty. simpl. by rewrite bool_decide_eq_false_2 by lia.
Qed.
End properties.

Definition smallExample : SmallMap nat nat := mkSM [(7, 1); (3, 2)] false 2 ∅.

Lemma smallExample_inv : inv 2 Nat.ltb smallExample.
Proof. split; simpl; [done|lia|by apply (bool_decide_unpack _)|done]. Qed.

Lemma small_map_refines_map_witness :
  inv 2 Nat.ltb smallExample ∧ toMap (erase smallExample 7) = delete 7 (toMap smallExample) ∧
  size smallExample = base.size (toMap smallExample).
Proof.
  split; [apply smallExample_inv|].
  destruct (small_map_refines_map 2 Nat.ltb 0 smallExample 7 5 smallExample_inv)
    as (_ & _ & [_ He] & _ & Hs & _).
  split; [apply He; by left|exact Hs].
Defined.

#[local] Existing Instance SortedVector.insertionSort.

Lemma small_map_ordered_witness :
  inv 2 Nat.ltb smallExample ∧
  elements Nat.ltb (sort Nat.ltb smallExample) = [(3, 2); (7, 1)] ∧
  elements Nat.ltb (sort Nat.ltb smallExample)
    ≡ₚ map_to_list (toMap smallExample).
Proof.
  split; [apply smallExample_inv|]. split; [by vm_compute|].
  by apply (small_map_ordered 2 Nat.ltb 0 smallExample 5 smallExample_inv).
Defined.

Lemma grown_map_resurrects_witness :
  inv 2 Nat.ltb smallExample ∧
  ∃ m', insert 2 Nat.ltb smallExample (5, 9) = Ok (m', (MapIterator (Some 5), true)) ∧
    toMap m' = <[5 := 9]> (toMap smallExample) ∧
    let erased := foldl erase m' ((used smallExample).*1 ++ [5]) in
    toMap erased = toMap smallExample ∧ size erased = 2 ∧ (0 < 2 → empty erased = false).
Proof.
  split; [apply smallExample_inv|].
  apply (grown_map_resurrects 2 Nat.ltb 0 smallExample 5 9 smallExample_inv); by vm_compute.
Defined.
