(* ===== verification/PrimitiveKind.v ===== *)
(** * Kinds of primitive types

    [model::PrimitiveKind] (include/revng/Model/PrimitiveKind.h), declared in
    the tuple-tree schema. *)

From S2P Require Import Prelude.
From stdpp Require Import strings.

(* include/revng/Model/model-schema.yml:566-618 PrimitiveKind *)
Inductive Values : Set :=
  | Invalid
  | Void | Generic | PointerOrNumber | Number | Unsigned | Signed | Float
  | Count.

#[global] Instance Values_eq_dec : EqDecision Values.
Proof. solve_decision. Defined.

(** The value of an enumerator. *)
Definition toRaw (V : Values) : Z :=
  (match V with
   | Invalid => 0 | Void => 1 | Generic => 2 | PointerOrNumber => 3 | Number => 4
   | Unsigned => 5 | Signed => 6 | Float => 7 | Count => 8
   end)%Z.

#[global] Instance kind_toRaw_inj : Inj (=) (=) toRaw.
Proof. intros V W. by destruct V, W. Qed.

(* scripts/tuple_tree_generator/templates/enum.h.tpl:61-64 PrimitiveKind::isValid *)
Definition isValid (V : Values) : outcome bool :=
  revng_assert (negb (bool_decide (V = Count)));;
  Ok (negb (bool_decide (V = Invalid))).

(* include/revng/Model/PrimitiveKind.h:13-32 getCPrefix *)
Definition getCPrefix (V : Values) : outcome string :=
  match V with
  | Void => Ok "void"
  | Unsigned => Ok "uint"
  | Signed => Ok "int"
  | Float => Ok "float"
  | Generic => Ok "generic"
  | Number => Ok "number"
  | PointerOrNumber => Ok "pointer_or_number"
  | _ => revng_abort
  end.

(** [StringRef::consume_front]: the rest of the string after a prefix. *)
Fixpoint consume_front (p s : string) : option string :=
  match p, s with
  | EmptyString, _ => Some s
  | String a p, String b s => if Ascii.eqb a b then consume_front p s else None
  | String _ _, EmptyString => None
  end.

(* include/revng/Model/PrimitiveKind.h:34-53 tryConsumeCPrefix *)
Definition tryConsumeCPrefix (Name : string) : Values * string :=
  match consume_front "generic" Name with Some R => (Generic, R) | None =>
  match consume_front "uint" Name with Some R => (Unsigned, R) | None =>
  match consume_front "number" Name with Some R => (Number, R) | None =>
  match consume_front "pointer_or_number" Name with Some R => (PointerOrNumber, R) | None =>
  match consume_front "int" Name with Some R => (Signed, R) | None =>
  match consume_front "float" Name with Some R => (Float, R) | None =>
  match consume_front "void" Name with Some R => (Void, R) | None =>
  (Invalid, Name)
  end end end end end end end.

#[local] Arguments String.append !_ _ /.

Lemma consume_front_app p s : consume_front p (String.append p s) = Some s.
Proof. induction p as [|a p IH]; [done|]. cbn. by rewrite Ascii.eqb_refl. Qed.

Lemma consume_front_Some p s r : consume_front p s = Some r → s = String.append p r.
Proof.
  revert s. induction p as [|a p IH]; intros s; cbn; [congruence|].
  destruct s as [|b s]; [done|]. destruct (Ascii.eqb_spec a b) as [->|]; [|done].
  by intros ->%IH.
Qed.

(** A prefix read back is the one that was written, whatever follows it. *)
Lemma prefix_roundtrip V p rest :
  getCPrefix V = Ok p → tryConsumeCPrefix (String.append p rest) = (V, rest).
Proof. destruct V; simpl; intros; simplify_eq; reflexivity. Qed.

Lemma prefix_inverse Name V rest :
  tryConsumeCPrefix Name = (V, rest) → V ≠ Invalid →
  ∃ p, getCPrefix V = Ok p ∧ Name = String.append p rest.
Proof.
  unfold tryConsumeCPrefix. intros HN HV.
  repeat match type of HN with context [consume_front ?p Name] =>
    destruct (consume_front p Name) eqn:?; [simplify_eq;
      eexists; split; [reflexivity|by apply consume_front_Some]|] end.
  by simplify_eq.
Qed.
