(* ===== verification/PrimitiveType.v ===== *)
(** * Primitive types

    [model::PrimitiveType] (include/revng/Model/PrimitiveType.h) with its
    verification (lib/Model/Verification.cpp): which sizes are valid, the name
    of a primitive in C and the way back. *)

From S2P Require Import Prelude LLVMInterfaces.
From S2P Require OverflowSafeInt PrimitiveKind.
From stdpp Require Import strings.
Local Open Scope Z_scope.

(* include/revng/Model/model-schema.yml:530-564 PrimitiveType *)
Record PrimitiveType := mkPT {
  IsConst : bool;
  Kind : PrimitiveKind.Values;
  Size : Z;
}.

#[global] Instance PrimitiveType_eq_dec : EqDecision PrimitiveType.
Proof. solve_decision. Defined.

(** The fields have the width the schema gives them. *)
Definition wf (T : PrimitiveType) : Prop := in_width 64 (Size T).

(** ** Valid sizes *)

(* lib/Model/Verification.cpp:333-333 ValidNumericPrimitives *)
Definition ValidNumericPrimitives : list Z := [1; 2; 4; 8; 16; 32; 64].
(* lib/Model/Verification.cpp:334-340 ValidFloatPrimitives *)
Definition ValidFloatPrimitives : list Z := [2; 4; 8; 10; 12; 16].

(* lib/Model/Verification.cpp:342-363 PrimitiveType::maximumValidSize *)
Definition maximumValidSize (Kind : PrimitiveKind.Values) : outcome Z :=
  match Kind with
  | PrimitiveKind.Void => Ok 0
  | PrimitiveKind.PointerOrNumber | PrimitiveKind.Number
  | PrimitiveKind.Unsigned | PrimitiveKind.Signed => Ok (List.last ValidNumericPrimitives 0)
  | PrimitiveKind.Float => Ok (List.last ValidFloatPrimitives 0)
  | PrimitiveKind.Generic =>
    Ok (Z.max (List.last ValidNumericPrimitives 0) (List.last ValidFloatPrimitives 0))
  | _ => revng_abort
  end.

(** [Size] is a [uint8_t]. Both arrays are sorted, so the binary search finds
    their elements. *)
(* lib/Model/Verification.cpp:365-390 PrimitiveType::isSizeValid *)
Definition isSizeValid (Kind : PrimitiveKind.Values) (Size : Z) : outcome bool :=
  match Kind with
  | PrimitiveKind.Invalid => Ok false
  | PrimitiveKind.Void => Ok (Size =? 0)
  | PrimitiveKind.PointerOrNumber | PrimitiveKind.Number
  | PrimitiveKind.Unsigned | PrimitiveKind.Signed => Ok (bool_decide (Size ∈ ValidNumericPrimitives))
  | PrimitiveKind.Float => Ok (bool_decide (Size ∈ ValidFloatPrimitives))
  | PrimitiveKind.Generic =>
    Ok (bool_decide (Size ∈ ValidNumericPrimitives) || bool_decide (Size ∈ ValidFloatPrimitives))
  | PrimitiveKind.Count => revng_abort
  end.

(** The argument is converted from [uint64_t] to [uint8_t]. *)
(* include/revng/Model/PrimitiveType.h:94-94 PrimitiveType::isValid *)
Definition isValid (T : PrimitiveType) : outcome bool := isSizeValid (Kind T) (wrap 8 (Size T)).

(** What [Type::verify] does on a primitive. *)
(* lib/Model/Verification.cpp:456-464 Type::verify *)
Definition verify (T : PrimitiveType) : outcome bool :=
  KindValid ← PrimitiveKind.isValid (Kind T);
  if negb KindValid then Ok false else
  SizeValid ← isValid T;
  if negb SizeValid then Ok false else Ok true.

(** ** Construction *)

(* include/revng/Model/PrimitiveType.h:26-28 PrimitiveType::make *)
Definition make (Kind : PrimitiveKind.Values) (Size : Z) : PrimitiveType := mkPT false Kind Size.

(* include/revng/Model/PrimitiveType.h:30-32 PrimitiveType::makeConst *)
Definition makeConst (Kind : PrimitiveKind.Values) (Size : Z) : PrimitiveType := mkPT true Kind Size.

(* include/revng/Model/PrimitiveType.h:44-44 PrimitiveType::makeVoid *)
Definition makeVoid : PrimitiveType := make PrimitiveKind.Void 0.

(* include/revng/Model/PrimitiveType.h:45-45 PrimitiveType::makeConstVoid *)
Definition makeConstVoid : PrimitiveType := makeConst PrimitiveKind.Void 0.

(* include/revng/Model/PrimitiveType.h:46-81 PrimitiveType::makeGeneric *)
Definition makeGeneric (Size : Z) : PrimitiveType := make PrimitiveKind.Generic Size.

(** [llvm::PowerOf2Ceil] is an argument. *)
(* include/revng/Model/PrimitiveType.h:118-123 PrimitiveType::makeNextPowerOfTwo *)
Definition makeNextPowerOfTwo (PowerOf2Ceil : Z → Z) (Kind : PrimitiveKind.Values) (Size : Z)
    : outcome PrimitiveType :=
  let RealSize := PowerOf2Ceil Size in
  Max ← maximumValidSize Kind;
  revng_assert (RealSize <=? Max);;
  Ok (make Kind RealSize).

(** ** Names in C *)

Section names.
  Context `{StringOps}.

(** [Size() * 8] wraps around at 64 bits. *)
(* include/revng/Model/PrimitiveType.h:132-141 PrimitiveType::getCName *)
Definition getCName (T : PrimitiveType) : outcome string :=
  if decide (Kind T = PrimitiveKind.Void) then
    revng_assert (Size T =? 0);;
    Ok "void"%string
  else
    revng_assert (negb (Size T =? 0));;
    Prefix ← PrimitiveKind.getCPrefix (Kind T);
    Ok (String.append Prefix (String.append (printInt (wrap 64 (Size T * 8))) "_t")).

(** [StringRef::consume_back]. *)
Definition consume_back (s suffix : string) : option string :=
  let n := (String.length s - String.length suffix)%nat in
  if String.eqb (String.substring n (String.length s - n) s) suffix
  then Some (String.substring 0 n s) else None.

(** [None] is the empty [UpcastableType]. *)
(* include/revng/Model/PrimitiveType.h:147-178 PrimitiveType::fromCName *)
Definition fromCName (Name : string) : outcome (option PrimitiveType) :=
  let '(Kind, RemainingName) := PrimitiveKind.tryConsumeCPrefix Name in
  if bool_decide (Kind = PrimitiveKind.Invalid) || String.eqb RemainingName Name then Ok None
  else if decide (Kind = PrimitiveKind.Void) then
    Ok (if String.eqb RemainingName "" then Some makeVoid else None)
  else
    match consume_back RemainingName "_t" with
    | None => Ok None
    | Some RemainingName =>
      match consumeInteger 10 OverflowSafeInt.uint32 RemainingName with
      | None => Ok None
      | Some (Bits, RemainingName) =>
        if negb (Nat.eqb (String.length RemainingName) 0) then Ok None
        else if negb (Bits mod 8 =? 0) then Ok None
        else
          let Result := make Kind (Bits / 8) in
          Verifies ← verify Result;
          Ok (if (Verifies : bool) then Some Result else None)
      end
    end.

(* include/revng/Model/PrimitiveType.h:180-182 PrimitiveType::isCName *)
Definition isCName (Name : string) : outcome bool :=
  T ← fromCName Name; Ok match T with Some _ => true | None => false end.
End names.

(** ** Facts *)

#[local] Arguments String.append !_ _ /.

Lemma consume_back_app s suffix : consume_back (String.append s suffix) suffix = Some s.
Proof.
  unfold consume_back.
  assert (String.length (String.append s suffix) = String.length s + String.length suffix)%nat as ->
    by (induction s as [|c s IH]; [done|]; cbn; by rewrite IH).
  replace (String.length s + String.length suffix - String.length suffix)%nat
    with (String.length s) by lia.
  replace (String.length s + String.length suffix - String.length s)%nat
    with (String.length suffix) by lia.
  assert (String.substring (String.length s) (String.length suffix) (String.append s suffix) = suffix) as ->.
  { induction s as [|c s IH]; [|exact IH]. cbn. induction suffix as [|c s IH]; [done|]. cbn. by rewrite IH. }
  rewrite String.eqb_refl. f_equal. induction s as [|c s IH]; cbn.
  - by destruct suffix.
  - by rewrite IH.
Qed.

Lemma text_append_length s t : String.length (String.append s t) = (String.length s + String.length t)%nat.
Proof. induction s as [|c s IH]; [done|]. cbn. by rewrite IH. Qed.

Lemma append_shorter p s : p ≠ ""%string → s ≠ String.append p s.
Proof.
  intros Hp Heq. pose proof (f_equal String.length Heq) as Hl. rewrite text_append_length in Hl.
  destruct p; [done|]. simpl in Hl. lia.
Qed.

Lemma prefix_nonempty k p : PrimitiveKind.getCPrefix k = Ok p → p ≠ ""%string.
Proof. destruct k; simpl; intros; by simplify_eq. Qed.

Lemma prefix_not_Count Name k rest :
  PrimitiveKind.tryConsumeCPrefix Name = (k, rest) → k ≠ PrimitiveKind.Count.
Proof.
  unfold PrimitiveKind.tryConsumeCPrefix. intros HN ->. repeat case_match; simplify_eq.
Qed.

(** The size itself, not its low byte, is valid. *)
Definition sizeValid (T : PrimitiveType) : Prop := isSizeValid (Kind T) (Size T) = Ok true.

Lemma numeric_bounds s : s ∈ ValidNumericPrimitives → 0 < s ≤ 64.
Proof. unfold ValidNumericPrimitives. rewrite !elem_of_cons, elem_of_nil. lia. Qed.

Lemma float_bounds s : s ∈ ValidFloatPrimitives → 0 < s ≤ 16.
Proof. unfold ValidFloatPrimitives. rewrite !elem_of_cons, elem_of_nil. lia. Qed.

Lemma sizeValid_bounds T :
  sizeValid T → 0 ≤ Size T ≤ 64 ∧ (Kind T ≠ PrimitiveKind.Void → 0 < Size T) ∧
  (Kind T = PrimitiveKind.Void → Size T = 0) ∧
  Kind T ≠ PrimitiveKind.Invalid ∧ Kind T ≠ PrimitiveKind.Count.
Proof.
  unfold sizeValid, isSizeValid. destruct (Kind T); intros [= HS]; try done.
  2: apply orb_true_iff in HS as [HS|HS].
  all: try apply bool_decide_eq_true in HS; try apply Z.eqb_eq in HS;
    try apply numeric_bounds in HS; try apply float_bounds in HS; split_and!; intros.
  all: done || lia.
Qed.

Lemma primitive_verify_spec T :
  Kind T ≠ PrimitiveKind.Count →
  ∃ b, verify T = Ok b ∧ (b = true ↔ isSizeValid (Kind T) (wrap 8 (Size T)) = Ok true).
Proof.
  intros HC. unfold verify, PrimitiveKind.isValid, isValid.
  rewrite (bool_decide_eq_false_2 (Kind T = PrimitiveKind.Count)) by done. simpl.
  destruct (decide (Kind T = PrimitiveKind.Invalid)) as [HI|HI].
  - rewrite HI. simpl. by eexists.
  - rewrite bool_decide_eq_false_2 by done. simpl.
    assert (∃ b, isSizeValid (Kind T) (wrap 8 (Size T)) = Ok b) as [b Hb]
      by (destruct (Kind T); simpl; try done; eauto).
    rewrite Hb. simpl. exists b. destruct b; simpl; split; try done; by intros ?; simplify_eq.
Qed.

Lemma sizeValid_verify T : sizeValid T → verify T = Ok true.
Proof.
  intros HS. destruct (sizeValid_bounds T HS) as (Hb & _ & _ & _ & HC).
  destruct (primitive_verify_spec T HC) as (b & -> & Hiff). f_equal. apply Hiff.
  rewrite wrap_small; [done|]. split; [lia|]. change (2 ^ 8) with 256. lia.
Qed.

(** ** Properties *)

(** A primitive type of a valid size has a name in C, and [fromCName] reads
    the name back to the type (without its constness); [fromCName] never fails,
    and what it returns is not const and passes verification. *)
Theorem primitive_name_roundtrip `{StringLaws} T Name :
  sizeValid T →
  (∃ n, getCName T = Ok n ∧ fromCName n = Ok (Some (make (Kind T) (Size T))) ∧ isCName n = Ok true) ∧
  (∃ r, fromCName Name = Ok r ∧ ∀ T', r = Some T' → IsConst T' = false ∧ verify T' = Ok true).
Proof.
  intros HS. pose proof (sizeValid_bounds T HS) as (Hb & Hpos & Hzero & HI & HC). split.
  - assert (∃ n, getCName T = Ok n ∧ fromCName n = Ok (Some (make (Kind T) (Size T)))) as (n & Hn & Hf).
    { unfold getCName. case_decide as HV.
      - rewrite Hzero by done. eexists. split; [done|]. by rewrite HV.
      - rewrite (proj2 (Z.eqb_neq _ _)) by (specialize (Hpos HV); lia). simpl.
        assert (∃ p, PrimitiveKind.getCPrefix (Kind T) = Ok p) as [p Hp] by (destruct (Kind T); simpl; try done; by eexists).
        rewrite Hp. simpl. eexists. split; [done|]. unfold fromCName.
        rewrite (PrimitiveKind.prefix_roundtrip _ _ _ Hp).
        rewrite bool_decide_eq_false_2 by done. simpl.
        rewrite (proj2 (String.eqb_neq _ _)) by by apply append_shorter, (prefix_nonempty _ _ Hp).
        rewrite decide_False by done. rewrite consume_back_app.
        rewrite wrap_small by (split; [lia|]; change (2 ^ 64) with 18446744073709551616; lia).
        rewrite consume_dec by (try (split; change (OverflowSafeInt.type_max OverflowSafeInt.uint32) with 4294967295; change (OverflowSafeInt.type_min OverflowSafeInt.uint32) with 0); lia). simpl.
        rewrite Z.mod_mul by done. simpl. rewrite Z.div_mul by done.
        by rewrite (sizeValid_verify (make (Kind T) (Size T))) by done. }
    exists n. split; [done|]. split; [done|]. unfold isCName. by rewrite Hf.
  - unfold fromCName. destruct (PrimitiveKind.tryConsumeCPrefix Name) as [k rest] eqn:Hk.
    assert (k ≠ PrimitiveKind.Count) as Hcount by by eapply prefix_not_Count.
    destruct (_ || _); [by eexists|]. case_decide as HV.
    { destruct (String.eqb rest ""); eexists; (split; [done|]); [intros T' [= <-]; done|done]. }
    destruct (consume_back rest "_t") as [r|]; [|by eexists].
    destruct (consumeInteger 10 OverflowSafeInt.uint32 r) as [[Bits r']|]; [|by eexists].
    destruct (negb (Nat.eqb _ 0)); [by eexists|]. destruct (negb (_ =? 0)); [by eexists|].
    destruct (primitive_verify_spec (make k (Bits / 8)) Hcount) as ([] & Hv & _); rewrite Hv; simpl;
      eexists; (split; [done|]); [intros T' [= <-]; done|done].
Qed.

(** [isValid] passes the 64-bit size to a [uint8_t] parameter: a size that is
    a valid one plus a multiple of 256 passes verification, though it exceeds
    [maximumValidSize]. *)
Theorem oversized_primitive_verifies k s j :
  sizeValid (make k s) → 0 < j → s + 256 * j < 2 ^ 64 →
  verify (make k (s + 256 * j)) = Ok true ∧
  ∃ m, maximumValidSize k = Ok m ∧ m < s + 256 * j.
Proof.
  intros HS Hj Hlt. pose proof (sizeValid_bounds _ HS) as (Hb & _ & _ & HI & HC). simpl in Hb, HI, HC.
  split.
  - destruct (primitive_verify_spec (make k (s + 256 * j)) HC) as (b & -> & Hiff). f_equal. apply Hiff. simpl.
    unfold wrap. change (2 ^ 8) with 256. rewrite Z.mul_comm, Z_mod_plus_full, Z.mod_small by lia. done.
  - destruct k; simpl; try done; eexists; (split; [done|]); simpl; lia.
Qed.

Lemma primitive_name_roundtrip_witness :
  sizeValid (makeConst PrimitiveKind.Unsigned 4) ∧
  getCName (makeConst PrimitiveKind.Unsigned 4) = Ok "uint32_t"%string ∧
  fromCName "uint32_t" = Ok (Some (make PrimitiveKind.Unsigned 4)) ∧
  ∃ n, getCName (makeConst PrimitiveKind.Unsigned 4) = Ok n ∧
    fromCName n = Ok (Some (make PrimitiveKind.Unsigned 4)).
Proof.
  assert (sizeValid (makeConst PrimitiveKind.Unsigned 4)) as HS by (vm_compute; reflexivity).
  split; [exact HS|]. split; [vm_compute; reflexivity|]. split; [vm_compute; reflexivity|].
  destruct (proj1 (primitive_name_roundtrip _ "" HS)) as (n & Hn & Hf & _). exists n. split; [exact Hn|exact Hf].
Defined.

Lemma oversized_primitive_verifies_witness :
  sizeValid (make PrimitiveKind.Float 8) ∧ 0 < 1 ∧ 8 + 256 * 1 < 2 ^ 64 ∧
  verify (make PrimitiveKind.Float 264) = Ok true.
Proof.
  assert (sizeValid (make PrimitiveKind.Float 8)) as HS by (vm_compute; reflexivity).
  assert (8 + 256 * 1 < 2 ^ 64) as Hlt by (vm_compute; reflexivity).
  split; [exact HS|]. split; [lia|]. split; [exact Hlt|].
  exact (proj1 (oversized_primitive_verifies PrimitiveKind.Float 8 1 HS eq_refl Hlt)).
Defined.
