(* ===== verification/ABI.v ===== *)
(** * Application binary interfaces

    [model::ABI] (include/revng/Model/ABI.h): the enumeration of the schema, the
    architecture of each ABI and the default ABI of each architecture. *)

From S2P Require Import Prelude.
From S2P Require Architecture.
From stdpp Require Import strings.

(* include/revng/Model/model-schema.yml:1209-1360 ABI *)
Inductive Values : Set :=
  | Invalid
  | SystemV_x86_64
  | SystemV_x86
  | SystemV_x86_regparm_3
  | SystemV_x86_regparm_2
  | SystemV_x86_regparm_1
  | Microsoft_x86_64
  | Microsoft_x86_64_vectorcall
  | Microsoft_x86_cdecl
  | Microsoft_x86_cdecl_gcc
  | Microsoft_x86_stdcall
  | Microsoft_x86_stdcall_gcc
  | Microsoft_x86_thiscall
  | Microsoft_x86_fastcall
  | Microsoft_x86_fastcall_gcc
  | Microsoft_x86_vectorcall
  | AAPCS64
  | Microsoft_AAPCS64
  | Apple_AAPCS64
  | AAPCS
  | SystemV_MIPS_o32
  | SystemV_MIPSEL_o32
  | SystemZ_s390x
  | Count.

#[global] Instance Values_eq_dec : EqDecision Values.
Proof. solve_decision. Defined.

(* scripts/tuple_tree_generator/templates/enum.h.tpl:61-64 ABI::isValid *)
Definition isValid (V : Values) : outcome bool :=
  revng_assert (negb (bool_decide (V = Count)));;
  Ok (negb (bool_decide (V = Invalid))).

(* include/revng/Model/ABI.h:13-56 getArchitecture *)
Definition getArchitecture (V : Values) : outcome Architecture.Values :=
  match V with
  | SystemV_x86_64 | Microsoft_x86_64 | Microsoft_x86_64_vectorcall => Ok Architecture.x86_64
  | SystemV_x86 | SystemV_x86_regparm_3 | SystemV_x86_regparm_2 | SystemV_x86_regparm_1
  | Microsoft_x86_vectorcall | Microsoft_x86_cdecl | Microsoft_x86_cdecl_gcc
  | Microsoft_x86_stdcall | Microsoft_x86_stdcall_gcc | Microsoft_x86_fastcall
  | Microsoft_x86_fastcall_gcc | Microsoft_x86_thiscall => Ok Architecture.x86
  | AAPCS64 | Microsoft_AAPCS64 | Apple_AAPCS64 => Ok Architecture.aarch64
  | AAPCS => Ok Architecture.arm
  | SystemV_MIPS_o32 => Ok Architecture.mips
  | SystemV_MIPSEL_o32 => Ok Architecture.mipsel
  | SystemZ_s390x => Ok Architecture.systemz
  | Count | Invalid => revng_abort
  end.

(* include/revng/Model/ABI.h:62-68 getRegisterArchitecture *)
Definition getRegisterArchitecture (V : Values) : outcome Architecture.Values :=
  if decide (V = SystemV_MIPSEL_o32) then Ok Architecture.mips else getArchitecture V.

(* include/revng/Model/ABI.h:71-73 getPointerSize *)
Definition getPointerSize (V : Values) : outcome Z :=
  A ← getArchitecture V; Architecture.getPointerSize A.

(* include/revng/Model/ABI.h:76-96 getDefaultForELF *)
Definition getDefaultForELF (V : Architecture.Values) : option Values :=
  match V with
  | Architecture.x86_64 => Some SystemV_x86_64
  | Architecture.x86 => Some SystemV_x86
  | Architecture.aarch64 => Some AAPCS64
  | Architecture.arm => Some AAPCS
  | Architecture.mips => Some SystemV_MIPS_o32
  | Architecture.mipsel => Some SystemV_MIPSEL_o32
  | Architecture.systemz => Some SystemZ_s390x
  | _ => None
  end.

(* include/revng/Model/ABI.h:98-110 getDefaultForPECOFF *)
Definition getDefaultForPECOFF (V : Architecture.Values) : option Values :=
  match V with
  | Architecture.x86_64 => Some Microsoft_x86_64
  | Architecture.x86 => Some Microsoft_x86_cdecl
  | Architecture.aarch64 => Some Microsoft_AAPCS64
  | _ => None
  end.

(* include/revng/Model/ABI.h:112-124 getDefaultForMachO *)
Definition getDefaultForMachO (V : Architecture.Values) : option Values :=
  match V with
  | Architecture.x86_64 => Some SystemV_x86_64
  | Architecture.x86 => Some SystemV_x86
  | Architecture.aarch64 => Some Apple_AAPCS64
  | _ => None
  end.

Definition quoted (s : string) : string :=
  String (Ascii.ascii_of_nat 34) (String.append s (String (Ascii.ascii_of_nat 34) EmptyString)).

(* include/revng/Model/ABI.h:126-204 getDescription *)
Definition getDescription (V : Values) : string :=
  match V with
  | SystemV_x86_64 => "64-bit SystemV x86 abi"
  | SystemV_x86 => "32-bit SystemV x86 abi"
  | SystemV_x86_regparm_3 => "32-bit SystemV x86 abi that allows the first three GPR-sized scalar arguments to be passed using the registers"
  | SystemV_x86_regparm_2 => "32-bit SystemV x86 abi that allows the first two GPR-sized scalar arguments to be passed using the registers"
  | SystemV_x86_regparm_1 => "32-bit SystemV x86 abi that allows the first GPR-sized scalar argument to be passed using the registers"
  | Microsoft_x86_64 => "64-bit Microsoft x86 abi"
  | Microsoft_x86_64_vectorcall => "64-bit Microsoft x86 abi with extra vector registers designited for passing function arguments"
  | Microsoft_x86_cdecl => "32-bit Microsoft x86 abi that was intended to mimic 32-bit SystemV x86 abi but has minor differences"
  | Microsoft_x86_cdecl_gcc => "32-bit Microsoft x86 `cdecl` abi as implemented in GCC (subtly different from the original)."
  | Microsoft_x86_stdcall => "32-bit Microsoft x86 abi, it is a modification of `cdecl` that's different in a sense that the callee is responsible for stack cleanup instead of the caller"
  | Microsoft_x86_stdcall_gcc => "32-bit Microsoft x86 `stdcall` abi as implemented in GCC (subtly different from the original)."
  | Microsoft_x86_thiscall => "32-bit Microsoft x86 abi, it extends `stdcall` by allowing `this` pointer in method-style calls to be passed using a register. It is never used for `free` functions"
  | Microsoft_x86_fastcall => "32-bit Microsoft x86 abi, it extends `stdcall` by allowing two first GPR-sized function arguments to be passed using the registers"
  | Microsoft_x86_fastcall_gcc => "32-bit Microsoft x86 `fastcall` abi as implemented in GCC (subtly different from the original)."
  | Microsoft_x86_vectorcall => "64-bit Microsoft x86 abi, it extends `fastcall` by allowing extra vector registers to be used for function argument passing"
  | AAPCS64 => "64-bit ARM abi"
  | Microsoft_AAPCS64 => "Microsoft version of 64-bit ARM abi"
  | Apple_AAPCS64 => "Apple version of 64-bit ARM abi"
  | AAPCS => "32-bit ARM abi"
  | SystemV_MIPS_o32 => String.append "The " (String.append (quoted "old") " 32-bit MIPS abi")
  | SystemV_MIPSEL_o32 => String.append "The " (String.append (quoted "old") " 32-bit MIPS abi (little endian edition)")
  | SystemZ_s390x => "The s390x SystemZ ABI"
  | Count | Invalid => "Unknown and/or unsupported ABI"
  end.

(** The default ABI of an architecture is an ABI of that architecture. *)
Lemma default_architecture A V :
  getDefaultForELF A = Some V ∨ getDefaultForPECOFF A = Some V ∨ getDefaultForMachO A = Some V →
  getArchitecture V = Ok A.
Proof. destruct A; simpl; intros [?|[?|?]]; simplify_eq; done. Qed.

(** Every architecture has a default ABI for ELF. *)
Lemma default_ELF A : Architecture.isMember A = true → is_Some (getDefaultForELF A).
Proof. by destruct A. Qed.
