(* ===== verification/Register.v ===== *)
(** * Registers

    [model::Register] (include/revng/Model/Register.h, lib/Model/Register.cpp):
    the registers of every architecture, their names, sizes and kinds, and the
    CPU state variables (CSVs) the lifter represents them with. *)

From S2P Require Import Prelude LLVMInterfaces.
From S2P Require OverflowSafeInt Architecture PrimitiveKind PrimitiveType.
From stdpp Require Import strings.

(* include/revng/Model/model-schema.yml:1386-1620 Register *)
Inductive Values : Set :=
  | Invalid
  | eax_x86 | ebx_x86 | ecx_x86 | edx_x86 | esi_x86 | edi_x86 | ebp_x86 | esp_x86 | st0_x86
  | zmm0_x86 | zmm1_x86 | zmm2_x86 | zmm3_x86 | zmm4_x86 | zmm5_x86 | zmm6_x86 | zmm7_x86
  | rax_x86_64 | rbx_x86_64 | rcx_x86_64 | rdx_x86_64 | rbp_x86_64 | rsp_x86_64 | rsi_x86_64
  | rdi_x86_64 | r8_x86_64 | r9_x86_64 | r10_x86_64 | r11_x86_64 | r12_x86_64 | r13_x86_64
  | r14_x86_64 | r15_x86_64 | zmm0_x86_64 | zmm1_x86_64 | zmm2_x86_64 | zmm3_x86_64
  | zmm4_x86_64 | zmm5_x86_64 | zmm6_x86_64 | zmm7_x86_64 | fs_x86_64 | r0_arm | r1_arm
  | r2_arm | r3_arm | r4_arm | r5_arm | r6_arm | r7_arm | r8_arm | r9_arm | r10_arm | r11_arm
  | r12_arm | r13_arm | r14_arm | r15_arm | q0_arm | q1_arm | q2_arm | q3_arm | q4_arm | q5_arm
  | q6_arm | q7_arm | x0_aarch64 | x1_aarch64 | x2_aarch64 | x3_aarch64 | x4_aarch64
  | x5_aarch64 | x6_aarch64 | x7_aarch64 | x8_aarch64 | x9_aarch64 | x10_aarch64 | x11_aarch64
  | x12_aarch64 | x13_aarch64 | x14_aarch64 | x15_aarch64 | x16_aarch64 | x17_aarch64
  | x18_aarch64 | x19_aarch64 | x20_aarch64 | x21_aarch64 | x22_aarch64 | x23_aarch64
  | x24_aarch64 | x25_aarch64 | x26_aarch64 | x27_aarch64 | x28_aarch64 | x29_aarch64
  | lr_aarch64 | sp_aarch64 | v0_aarch64 | v1_aarch64 | v2_aarch64 | v3_aarch64 | v4_aarch64
  | v5_aarch64 | v6_aarch64 | v7_aarch64 | v8_aarch64 | v9_aarch64 | v10_aarch64 | v11_aarch64
  | v12_aarch64 | v13_aarch64 | v14_aarch64 | v15_aarch64 | v16_aarch64 | v17_aarch64
  | v18_aarch64 | v19_aarch64 | v20_aarch64 | v21_aarch64 | v22_aarch64 | v23_aarch64
  | v24_aarch64 | v25_aarch64 | v26_aarch64 | v27_aarch64 | v28_aarch64 | v29_aarch64
  | v30_aarch64 | v31_aarch64 | v0_mips | v1_mips | a0_mips | a1_mips | a2_mips | a3_mips
  | s0_mips | s1_mips | s2_mips | s3_mips | s4_mips | s5_mips | s6_mips | s7_mips | t0_mips
  | t1_mips | t2_mips | t3_mips | t4_mips | t5_mips | t6_mips | t7_mips | t8_mips | t9_mips
  | gp_mips | sp_mips | fp_mips | ra_mips | f0_mips | f1_mips | f2_mips | f3_mips | f4_mips
  | f5_mips | f6_mips | f7_mips | f8_mips | f9_mips | f10_mips | f11_mips | f12_mips | f13_mips
  | f14_mips | f15_mips | f16_mips | f17_mips | f18_mips | f19_mips | f20_mips | f21_mips
  | f22_mips | f23_mips | f24_mips | f25_mips | f26_mips | f27_mips | f28_mips | f29_mips
  | f30_mips | f31_mips | r0_systemz | r1_systemz | r2_systemz | r3_systemz | r4_systemz
  | r5_systemz | r6_systemz | r7_systemz | r8_systemz | r9_systemz | r10_systemz | r11_systemz
  | r12_systemz | r13_systemz | r14_systemz | r15_systemz | f0_systemz | f1_systemz
  | f2_systemz | f3_systemz | f4_systemz | f5_systemz | f6_systemz | f7_systemz | f8_systemz
  | f9_systemz | f10_systemz | f11_systemz | f12_systemz | f13_systemz | f14_systemz
  | f15_systemz
  | Count.

(** The registers of the schema, in its order. *)
(* include/revng/Model/model-schema.yml:1392-1620 Register::members *)
Definition members : list Values := [
  eax_x86; ebx_x86; ecx_x86; edx_x86; esi_x86; edi_x86; ebp_x86; esp_x86; st0_x86; zmm0_x86;
  zmm1_x86; zmm2_x86; zmm3_x86; zmm4_x86; zmm5_x86; zmm6_x86; zmm7_x86; rax_x86_64; rbx_x86_64;
  rcx_x86_64; rdx_x86_64; rbp_x86_64; rsp_x86_64; rsi_x86_64; rdi_x86_64; r8_x86_64; r9_x86_64;
  r10_x86_64; r11_x86_64; r12_x86_64; r13_x86_64; r14_x86_64; r15_x86_64; zmm0_x86_64;
  zmm1_x86_64; zmm2_x86_64; zmm3_x86_64; zmm4_x86_64; zmm5_x86_64; zmm6_x86_64; zmm7_x86_64;
  fs_x86_64; r0_arm; r1_arm; r2_arm; r3_arm; r4_arm; r5_arm; r6_arm; r7_arm; r8_arm; r9_arm;
  r10_arm; r11_arm; r12_arm; r13_arm; r14_arm; r15_arm; q0_arm; q1_arm; q2_arm; q3_arm; q4_arm;
  q5_arm; q6_arm; q7_arm; x0_aarch64; x1_aarch64; x2_aarch64; x3_aarch64; x4_aarch64;
  x5_aarch64; x6_aarch64; x7_aarch64; x8_aarch64; x9_aarch64; x10_aarch64; x11_aarch64;
  x12_aarch64; x13_aarch64; x14_aarch64; x15_aarch64; x16_aarch64; x17_aarch64; x18_aarch64;
  x19_aarch64; x20_aarch64; x21_aarch64; x22_aarch64; x23_aarch64; x24_aarch64; x25_aarch64;
  x26_aarch64; x27_aarch64; x28_aarch64; x29_aarch64; lr_aarch64; sp_aarch64; v0_aarch64;
  v1_aarch64; v2_aarch64; v3_aarch64; v4_aarch64; v5_aarch64; v6_aarch64; v7_aarch64;
  v8_aarch64; v9_aarch64; v10_aarch64; v11_aarch64; v12_aarch64; v13_aarch64; v14_aarch64;
  v15_aarch64; v16_aarch64; v17_aarch64; v18_aarch64; v19_aarch64; v20_aarch64; v21_aarch64;
  v22_aarch64; v23_aarch64; v24_aarch64; v25_aarch64; v26_aarch64; v27_aarch64; v28_aarch64;
  v29_aarch64; v30_aarch64; v31_aarch64; v0_mips; v1_mips; a0_mips; a1_mips; a2_mips; a3_mips;
  s0_mips; s1_mips; s2_mips; s3_mips; s4_mips; s5_mips; s6_mips; s7_mips; t0_mips; t1_mips;
  t2_mips; t3_mips; t4_mips; t5_mips; t6_mips; t7_mips; t8_mips; t9_mips; gp_mips; sp_mips;
  fp_mips; ra_mips; f0_mips; f1_mips; f2_mips; f3_mips; f4_mips; f5_mips; f6_mips; f7_mips;
  f8_mips; f9_mips; f10_mips; f11_mips; f12_mips; f13_mips; f14_mips; f15_mips; f16_mips;
  f17_mips; f18_mips; f19_mips; f20_mips; f21_mips; f22_mips; f23_mips; f24_mips; f25_mips;
  f26_mips; f27_mips; f28_mips; f29_mips; f30_mips; f31_mips; r0_systemz; r1_systemz;
  r2_systemz; r3_systemz; r4_systemz; r5_systemz; r6_systemz; r7_systemz; r8_systemz;
  r9_systemz; r10_systemz; r11_systemz; r12_systemz; r13_systemz; r14_systemz; r15_systemz;
  f0_systemz; f1_systemz; f2_systemz; f3_systemz; f4_systemz; f5_systemz; f6_systemz;
  f7_systemz; f8_systemz; f9_systemz; f10_systemz; f11_systemz; f12_systemz; f13_systemz;
  f14_systemz; f15_systemz
].

(** The value of an enumerator. *)
Definition toRaw (V : Values) : Z :=
  (match V with
  | Invalid => 0
  | eax_x86 => 1 | ebx_x86 => 2 | ecx_x86 => 3 | edx_x86 => 4 | esi_x86 => 5 | edi_x86 => 6
  | ebp_x86 => 7 | esp_x86 => 8 | st0_x86 => 9 | zmm0_x86 => 10 | zmm1_x86 => 11
  | zmm2_x86 => 12 | zmm3_x86 => 13 | zmm4_x86 => 14 | zmm5_x86 => 15 | zmm6_x86 => 16
  | zmm7_x86 => 17 | rax_x86_64 => 18 | rbx_x86_64 => 19 | rcx_x86_64 => 20 | rdx_x86_64 => 21
  | rbp_x86_64 => 22 | rsp_x86_64 => 23 | rsi_x86_64 => 24 | rdi_x86_64 => 25 | r8_x86_64 => 26
  | r9_x86_64 => 27 | r10_x86_64 => 28 | r11_x86_64 => 29 | r12_x86_64 => 30 | r13_x86_64 => 31
  | r14_x86_64 => 32 | r15_x86_64 => 33 | zmm0_x86_64 => 34 | zmm1_x86_64 => 35
  | zmm2_x86_64 => 36 | zmm3_x86_64 => 37 | zmm4_x86_64 => 38 | zmm5_x86_64 => 39
  | zmm6_x86_64 => 40 | zmm7_x86_64 => 41 | fs_x86_64 => 42 | r0_arm => 43 | r1_arm => 44
  | r2_arm => 45 | r3_arm => 46 | r4_arm => 47 | r5_arm => 48 | r6_arm => 49 | r7_arm => 50
  | r8_arm => 51 | r9_arm => 52 | r10_arm => 53 | r11_arm => 54 | r12_arm => 55 | r13_arm => 56
  | r14_arm => 57 | r15_arm => 58 | q0_arm => 59 | q1_arm => 60 | q2_arm => 61 | q3_arm => 62
  | q4_arm => 63 | q5_arm => 64 | q6_arm => 65 | q7_arm => 66 | x0_aarch64 => 67
  | x1_aarch64 => 68 | x2_aarch64 => 69 | x3_aarch64 => 70 | x4_aarch64 => 71
  | x5_aarch64 => 72 | x6_aarch64 => 73 | x7_aarch64 => 74 | x8_aarch64 => 75
  | x9_aarch64 => 76 | x10_aarch64 => 77 | x11_aarch64 => 78 | x12_aarch64 => 79
  | x13_aarch64 => 80 | x14_aarch64 => 81 | x15_aarch64 => 82 | x16_aarch64 => 83
  | x17_aarch64 => 84 | x18_aarch64 => 85 | x19_aarch64 => 86 | x20_aarch64 => 87
  | x21_aarch64 => 88 | x22_aarch64 => 89 | x23_aarch64 => 90 | x24_aarch64 => 91
  | x25_aarch64 => 92 | x26_aarch64 => 93 | x27_aarch64 => 94 | x28_aarch64 => 95
  | x29_aarch64 => 96 | lr_aarch64 => 97 | sp_aarch64 => 98 | v0_aarch64 => 99
  | v1_aarch64 => 100 | v2_aarch64 => 101 | v3_aarch64 => 102 | v4_aarch64 => 103
  | v5_aarch64 => 104 | v6_aarch64 => 105 | v7_aarch64 => 106 | v8_aarch64 => 107
  | v9_aarch64 => 108 | v10_aarch64 => 109 | v11_aarch64 => 110 | v12_aarch64 => 111
  | v13_aarch64 => 112 | v14_aarch64 => 113 | v15_aarch64 => 114 | v16_aarch64 => 115
  | v17_aarch64 => 116 | v18_aarch64 => 117 | v19_aarch64 => 118 | v20_aarch64 => 119
  | v21_aarch64 => 120 | v22_aarch64 => 121 | v23_aarch64 => 122 | v24_aarch64 => 123
  | v25_aarch64 => 124 | v26_aarch64 => 125 | v27_aarch64 => 126 | v28_aarch64 => 127
  | v29_aarch64 => 128 | v30_aarch64 => 129 | v31_aarch64 => 130 | v0_mips => 131
  | v1_mips => 132 | a0_mips => 133 | a1_mips => 134 | a2_mips => 135 | a3_mips => 136
  | s0_mips => 137 | s1_mips => 138 | s2_mips => 139 | s3_mips => 140 | s4_mips => 141
  | s5_mips => 142 | s6_mips => 143 | s7_mips => 144 | t0_mips => 145 | t1_mips => 146
  | t2_mips => 147 | t3_mips => 148 | t4_mips => 149 | t5_mips => 150 | t6_mips => 151
  | t7_mips => 152 | t8_mips => 153 | t9_mips => 154 | gp_mips => 155 | sp_mips => 156
  | fp_mips => 157 | ra_mips => 158 | f0_mips => 159 | f1_mips => 160 | f2_mips => 161
  | f3_mips => 162 | f4_mips => 163 | f5_mips => 164 | f6_mips => 165 | f7_mips => 166
  | f8_mips => 167 | f9_mips => 168 | f10_mips => 169 | f11_mips => 170 | f12_mips => 171
  | f13_mips => 172 | f14_mips => 173 | f15_mips => 174 | f16_mips => 175 | f17_mips => 176
  | f18_mips => 177 | f19_mips => 178 | f20_mips => 179 | f21_mips => 180 | f22_mips => 181
  | f23_mips => 182 | f24_mips => 183 | f25_mips => 184 | f26_mips => 185 | f27_mips => 186
  | f28_mips => 187 | f29_mips => 188 | f30_mips => 189 | f31_mips => 190 | r0_systemz => 191
  | r1_systemz => 192 | r2_systemz => 193 | r3_systemz => 194 | r4_systemz => 195
  | r5_systemz => 196 | r6_systemz => 197 | r7_systemz => 198 | r8_systemz => 199
  | r9_systemz => 200 | r10_systemz => 201 | r11_systemz => 202 | r12_systemz => 203
  | r13_systemz => 204 | r14_systemz => 205 | r15_systemz => 206 | f0_systemz => 207
  | f1_systemz => 208 | f2_systemz => 209 | f3_systemz => 210 | f4_systemz => 211
  | f5_systemz => 212 | f6_systemz => 213 | f7_systemz => 214 | f8_systemz => 215
  | f9_systemz => 216 | f10_systemz => 217 | f11_systemz => 218 | f12_systemz => 219
  | f13_systemz => 220 | f14_systemz => 221 | f15_systemz => 222
  | Count => 223
  end)%Z.

(** The enumerator of a value; a cast of any other value is not an enumerator. *)
Definition fromRaw (z : Z) : Values := nth (Z.to_nat z) (Invalid :: members) Count.

Lemma register_fromRaw V : fromRaw (toRaw V) = V.
Proof. destruct V; reflexivity. Qed.

#[global] Instance toRaw_inj : Inj (=) (=) toRaw.
Proof. intros V W Heq. by rewrite <-(register_fromRaw V), <-(register_fromRaw W), Heq. Qed.

#[global] Instance Values_eq_dec : EqDecision Values := λ V W,
  match decide (toRaw V = toRaw W) with
  | left H => left (inj toRaw _ _ H)
  | right H => right (λ HVW, H (f_equal toRaw HVW))
  end.

(* scripts/tuple_tree_generator/templates/enum.h.tpl:30-42 Register::getName *)
Definition getName (V : Values) : outcome string :=
  match V with
  | Invalid => Ok "Invalid"
  | eax_x86 => Ok "eax_x86"
  | ebx_x86 => Ok "ebx_x86"
  | ecx_x86 => Ok "ecx_x86"
  | edx_x86 => Ok "edx_x86"
  | esi_x86 => Ok "esi_x86"
  | edi_x86 => Ok "edi_x86"
  | ebp_x86 => Ok "ebp_x86"
  | esp_x86 => Ok "esp_x86"
  | st0_x86 => Ok "st0_x86"
  | zmm0_x86 => Ok "zmm0_x86"
  | zmm1_x86 => Ok "zmm1_x86"
  | zmm2_x86 => Ok "zmm2_x86"
  | zmm3_x86 => Ok "zmm3_x86"
  | zmm4_x86 => Ok "zmm4_x86"
  | zmm5_x86 => Ok "zmm5_x86"
  | zmm6_x86 => Ok "zmm6_x86"
  | zmm7_x86 => Ok "zmm7_x86"
  | rax_x86_64 => Ok "rax_x86_64"
  | rbx_x86_64 => Ok "rbx_x86_64"
  | rcx_x86_64 => Ok "rcx_x86_64"
  | rdx_x86_64 => Ok "rdx_x86_64"
  | rbp_x86_64 => Ok "rbp_x86_64"
  | rsp_x86_64 => Ok "rsp_x86_64"
  | rsi_x86_64 => Ok "rsi_x86_64"
  | rdi_x86_64 => Ok "rdi_x86_64"
  | r8_x86_64 => Ok "r8_x86_64"
  | r9_x86_64 => Ok "r9_x86_64"
  | r10_x86_64 => Ok "r10_x86_64"
  | r11_x86_64 => Ok "r11_x86_64"
  | r12_x86_64 => Ok "r12_x86_64"
  | r13_x86_64 => Ok "r13_x86_64"
  | r14_x86_64 => Ok "r14_x86_64"
  | r15_x86_64 => Ok "r15_x86_64"
  | zmm0_x86_64 => Ok "zmm0_x86_64"
  | zmm1_x86_64 => Ok "zmm1_x86_64"
  | zmm2_x86_64 => Ok "zmm2_x86_64"
  | zmm3_x86_64 => Ok "zmm3_x86_64"
  | zmm4_x86_64 => Ok "zmm4_x86_64"
  | zmm5_x86_64 => Ok "zmm5_x86_64"
  | zmm6_x86_64 => Ok "zmm6_x86_64"
  | zmm7_x86_64 => Ok "zmm7_x86_64"
  | fs_x86_64 => Ok "fs_x86_64"
  | r0_arm => Ok "r0_arm"
  | r1_arm => Ok "r1_arm"
  | r2_arm => Ok "r2_arm"
  | r3_arm => Ok "r3_arm"
  | r4_arm => Ok "r4_arm"
  | r5_arm => Ok "r5_arm"
  | r6_arm => Ok "r6_arm"
  | r7_arm => Ok "r7_arm"
  | r8_arm => Ok "r8_arm"
  | r9_arm => Ok "r9_arm"
  | r10_arm => Ok "r10_arm"
  | r11_arm => Ok "r11_arm"
  | r12_arm => Ok "r12_arm"
  | r13_arm => Ok "r13_arm"
  | r14_arm => Ok "r14_arm"
  | r15_arm => Ok "r15_arm"
  | q0_arm => Ok "q0_arm"
  | q1_arm => Ok "q1_arm"
  | q2_arm => Ok "q2_arm"
  | q3_arm => Ok "q3_arm"
  | q4_arm => Ok "q4_arm"
  | q5_arm => Ok "q5_arm"
  | q6_arm => Ok "q6_arm"
  | q7_arm => Ok "q7_arm"
  | x0_aarch64 => Ok "x0_aarch64"
  | x1_aarch64 => Ok "x1_aarch64"
  | x2_aarch64 => Ok "x2_aarch64"
  | x3_aarch64 => Ok "x3_aarch64"
  | x4_aarch64 => Ok "x4_aarch64"
  | x5_aarch64 => Ok "x5_aarch64"
  | x6_aarch64 => Ok "x6_aarch64"
  | x7_aarch64 => Ok "x7_aarch64"
  | x8_aarch64 => Ok "x8_aarch64"
  | x9_aarch64 => Ok "x9_aarch64"
  | x10_aarch64 => Ok "x10_aarch64"
  | x11_aarch64 => Ok "x11_aarch64"
  | x12_aarch64 => Ok "x12_aarch64"
  | x13_aarch64 => Ok "x13_aarch64"
  | x14_aarch64 => Ok "x14_aarch64"
  | x15_aarch64 => Ok "x15_aarch64"
  | x16_aarch64 => Ok "x16_aarch64"
  | x17_aarch64 => Ok "x17_aarch64"
  | x18_aarch64 => Ok "x18_aarch64"
  | x19_aarch64 => Ok "x19_aarch64"
  | x20_aarch64 => Ok "x20_aarch64"
  | x21_aarch64 => Ok "x21_aarch64"
  | x22_aarch64 => Ok "x22_aarch64"
  | x23_aarch64 => Ok "x23_aarch64"
  | x24_aarch64 => Ok "x24_aarch64"
  | x25_aarch64 => Ok "x25_aarch64"
  | x26_aarch64 => Ok "x26_aarch64"
  | x27_aarch64 => Ok "x27_aarch64"
  | x28_aarch64 => Ok "x28_aarch64"
  | x29_aarch64 => Ok "x29_aarch64"
  | lr_aarch64 => Ok "lr_aarch64"
  | sp_aarch64 => Ok "sp_aarch64"
  | v0_aarch64 => Ok "v0_aarch64"
  | v1_aarch64 => Ok "v1_aarch64"
  | v2_aarch64 => Ok "v2_aarch64"
  | v3_aarch64 => Ok "v3_aarch64"
  | v4_aarch64 => Ok "v4_aarch64"
  | v5_aarch64 => Ok "v5_aarch64"
  | v6_aarch64 => Ok "v6_aarch64"
  | v7_aarch64 => Ok "v7_aarch64"
  | v8_aarch64 => Ok "v8_aarch64"
  | v9_aarch64 => Ok "v9_aarch64"
  | v10_aarch64 => Ok "v10_aarch64"
  | v11_aarch64 => Ok "v11_aarch64"
  | v12_aarch64 => Ok "v12_aarch64"
  | v13_aarch64 => Ok "v13_aarch64"
  | v14_aarch64 => Ok "v14_aarch64"
  | v15_aarch64 => Ok "v15_aarch64"
  | v16_aarch64 => Ok "v16_aarch64"
  | v17_aarch64 => Ok "v17_aarch64"
  | v18_aarch64 => Ok "v18_aarch64"
  | v19_aarch64 => Ok "v19_aarch64"
  | v20_aarch64 => Ok "v20_aarch64"
  | v21_aarch64 => Ok "v21_aarch64"
  | v22_aarch64 => Ok "v22_aarch64"
  | v23_aarch64 => Ok "v23_aarch64"
  | v24_aarch64 => Ok "v24_aarch64"
  | v25_aarch64 => Ok "v25_aarch64"
  | v26_aarch64 => Ok "v26_aarch64"
  | v27_aarch64 => Ok "v27_aarch64"
  | v28_aarch64 => Ok "v28_aarch64"
  | v29_aarch64 => Ok "v29_aarch64"
  | v30_aarch64 => Ok "v30_aarch64"
  | v31_aarch64 => Ok "v31_aarch64"
  | v0_mips => Ok "v0_mips"
  | v1_mips => Ok "v1_mips"
  | a0_mips => Ok "a0_mips"
  | a1_mips => Ok "a1_mips"
  | a2_mips => Ok "a2_mips"
  | a3_mips => Ok "a3_mips"
  | s0_mips => Ok "s0_mips"
  | s1_mips => Ok "s1_mips"
  | s2_mips => Ok "s2_mips"
  | s3_mips => Ok "s3_mips"
  | s4_mips => Ok "s4_mips"
  | s5_mips => Ok "s5_mips"
  | s6_mips => Ok "s6_mips"
  | s7_mips => Ok "s7_mips"
  | t0_mips => Ok "t0_mips"
  | t1_mips => Ok "t1_mips"
  | t2_mips => Ok "t2_mips"
  | t3_mips => Ok "t3_mips"
  | t4_mips => Ok "t4_mips"
  | t5_mips => Ok "t5_mips"
  | t6_mips => Ok "t6_mips"
  | t7_mips => Ok "t7_mips"
  | t8_mips => Ok "t8_mips"
  | t9_mips => Ok "t9_mips"
  | gp_mips => Ok "gp_mips"
  | sp_mips => Ok "sp_mips"
  | fp_mips => Ok "fp_mips"
  | ra_mips => Ok "ra_mips"
  | f0_mips => Ok "f0_mips"
  | f1_mips => Ok "f1_mips"
  | f2_mips => Ok "f2_mips"
  | f3_mips => Ok "f3_mips"
  | f4_mips => Ok "f4_mips"
  | f5_mips => Ok "f5_mips"
  | f6_mips => Ok "f6_mips"
  | f7_mips => Ok "f7_mips"
  | f8_mips => Ok "f8_mips"
  | f9_mips => Ok "f9_mips"
  | f10_mips => Ok "f10_mips"
  | f11_mips => Ok "f11_mips"
  | f12_mips => Ok "f12_mips"
  | f13_mips => Ok "f13_mips"
  | f14_mips => Ok "f14_mips"
  | f15_mips => Ok "f15_mips"
  | f16_mips => Ok "f16_mips"
  | f17_mips => Ok "f17_mips"
  | f18_mips => Ok "f18_mips"
  | f19_mips => Ok "f19_mips"
  | f20_mips => Ok "f20_mips"
  | f21_mips => Ok "f21_mips"
  | f22_mips => Ok "f22_mips"
  | f23_mips => Ok "f23_mips"
  | f24_mips => Ok "f24_mips"
  | f25_mips => Ok "f25_mips"
  | f26_mips => Ok "f26_mips"
  | f27_mips => Ok "f27_mips"
  | f28_mips => Ok "f28_mips"
  | f29_mips => Ok "f29_mips"
  | f30_mips => Ok "f30_mips"
  | f31_mips => Ok "f31_mips"
  | r0_systemz => Ok "r0_systemz"
  | r1_systemz => Ok "r1_systemz"
  | r2_systemz => Ok "r2_systemz"
  | r3_systemz => Ok "r3_systemz"
  | r4_systemz => Ok "r4_systemz"
  | r5_systemz => Ok "r5_systemz"
  | r6_systemz => Ok "r6_systemz"
  | r7_systemz => Ok "r7_systemz"
  | r8_systemz => Ok "r8_systemz"
  | r9_systemz => Ok "r9_systemz"
  | r10_systemz => Ok "r10_systemz"
  | r11_systemz => Ok "r11_systemz"
  | r12_systemz => Ok "r12_systemz"
  | r13_systemz => Ok "r13_systemz"
  | r14_systemz => Ok "r14_systemz"
  | r15_systemz => Ok "r15_systemz"
  | f0_systemz => Ok "f0_systemz"
  | f1_systemz => Ok "f1_systemz"
  | f2_systemz => Ok "f2_systemz"
  | f3_systemz => Ok "f3_systemz"
  | f4_systemz => Ok "f4_systemz"
  | f5_systemz => Ok "f5_systemz"
  | f6_systemz => Ok "f6_systemz"
  | f7_systemz => Ok "f7_systemz"
  | f8_systemz => Ok "f8_systemz"
  | f9_systemz => Ok "f9_systemz"
  | f10_systemz => Ok "f10_systemz"
  | f11_systemz => Ok "f11_systemz"
  | f12_systemz => Ok "f12_systemz"
  | f13_systemz => Ok "f13_systemz"
  | f14_systemz => Ok "f14_systemz"
  | f15_systemz => Ok "f15_systemz"
  | Count => revng_abort
  end.

(* include/revng/Model/Register.h:25-261 getReferenceArchitecture *)
Definition getReferenceArchitecture (V : Values) : outcome Architecture.Values :=
  match V with
  | eax_x86 | ebx_x86 | ecx_x86 | edx_x86 | esi_x86 | edi_x86 | ebp_x86 | esp_x86 | st0_x86
  | zmm0_x86 | zmm1_x86 | zmm2_x86 | zmm3_x86 | zmm4_x86 | zmm5_x86 | zmm6_x86 | zmm7_x86 => Ok Architecture.x86
  | rax_x86_64 | rbx_x86_64 | rcx_x86_64 | rdx_x86_64 | rbp_x86_64 | rsp_x86_64 | rsi_x86_64
  | rdi_x86_64 | r8_x86_64 | r9_x86_64 | r10_x86_64 | r11_x86_64 | r12_x86_64 | r13_x86_64
  | r14_x86_64 | r15_x86_64 | zmm0_x86_64 | zmm1_x86_64 | zmm2_x86_64 | zmm3_x86_64
  | zmm4_x86_64 | zmm5_x86_64 | zmm6_x86_64 | zmm7_x86_64 | fs_x86_64 => Ok Architecture.x86_64
  | r0_arm | r1_arm | r2_arm | r3_arm | r4_arm | r5_arm | r6_arm | r7_arm | r8_arm | r9_arm
  | r10_arm | r11_arm | r12_arm | r13_arm | r14_arm | r15_arm | q0_arm | q1_arm | q2_arm
  | q3_arm | q4_arm | q5_arm | q6_arm | q7_arm => Ok Architecture.arm
  | x0_aarch64 | x1_aarch64 | x2_aarch64 | x3_aarch64 | x4_aarch64 | x5_aarch64 | x6_aarch64
  | x7_aarch64 | x8_aarch64 | x9_aarch64 | x10_aarch64 | x11_aarch64 | x12_aarch64
  | x13_aarch64 | x14_aarch64 | x15_aarch64 | x16_aarch64 | x17_aarch64 | x18_aarch64
  | x19_aarch64 | x20_aarch64 | x21_aarch64 | x22_aarch64 | x23_aarch64 | x24_aarch64
  | x25_aarch64 | x26_aarch64 | x27_aarch64 | x28_aarch64 | x29_aarch64 | lr_aarch64
  | sp_aarch64 | v0_aarch64 | v1_aarch64 | v2_aarch64 | v3_aarch64 | v4_aarch64 | v5_aarch64
  | v6_aarch64 | v7_aarch64 | v8_aarch64 | v9_aarch64 | v10_aarch64 | v11_aarch64 | v12_aarch64
  | v13_aarch64 | v14_aarch64 | v15_aarch64 | v16_aarch64 | v17_aarch64 | v18_aarch64
  | v19_aarch64 | v20_aarch64 | v21_aarch64 | v22_aarch64 | v23_aarch64 | v24_aarch64
  | v25_aarch64 | v26_aarch64 | v27_aarch64 | v28_aarch64 | v29_aarch64 | v30_aarch64
  | v31_aarch64 => Ok Architecture.aarch64
  | v0_mips | v1_mips | a0_mips | a1_mips | a2_mips | a3_mips | s0_mips | s1_mips | s2_mips
  | s3_mips | s4_mips | s5_mips | s6_mips | s7_mips | t0_mips | t1_mips | t2_mips | t3_mips
  | t4_mips | t5_mips | t6_mips | t7_mips | t8_mips | t9_mips | gp_mips | sp_mips | fp_mips
  | ra_mips | f0_mips | f1_mips | f2_mips | f3_mips | f4_mips | f5_mips | f6_mips | f7_mips
  | f8_mips | f9_mips | f10_mips | f11_mips | f12_mips | f13_mips | f14_mips | f15_mips
  | f16_mips | f17_mips | f18_mips | f19_mips | f20_mips | f21_mips | f22_mips | f23_mips
  | f24_mips | f25_mips | f26_mips | f27_mips | f28_mips | f29_mips | f30_mips | f31_mips => Ok Architecture.mips
  | r0_systemz | r1_systemz | r2_systemz | r3_systemz | r4_systemz | r5_systemz | r6_systemz
  | r7_systemz | r8_systemz | r9_systemz | r10_systemz | r11_systemz | r12_systemz
  | r13_systemz | r14_systemz | r15_systemz | f0_systemz | f1_systemz | f2_systemz | f3_systemz
  | f4_systemz | f5_systemz | f6_systemz | f7_systemz | f8_systemz | f9_systemz | f10_systemz
  | f11_systemz | f12_systemz | f13_systemz | f14_systemz | f15_systemz => Ok Architecture.systemz
  | _ => revng_abort
  end.

(** The size of the register in bytes. *)
(* include/revng/Model/Register.h:289-558 getSize *)
Definition getSize (V : Values) : outcome Z :=
  match V with
  | eax_x86 | ebx_x86 | ecx_x86 | edx_x86 | esi_x86 | edi_x86 | ebp_x86 | esp_x86 => Ok 4%Z
  | st0_x86 => Ok 10%Z
  | zmm0_x86 | zmm1_x86 | zmm2_x86 | zmm3_x86 | zmm4_x86 | zmm5_x86 | zmm6_x86 | zmm7_x86 => Ok 8%Z
  | rax_x86_64 | rbx_x86_64 | rcx_x86_64 | rdx_x86_64 | rbp_x86_64 | rsp_x86_64 | rsi_x86_64
  | rdi_x86_64 | r8_x86_64 | r9_x86_64 | r10_x86_64 | r11_x86_64 | r12_x86_64 | r13_x86_64
  | r14_x86_64 | r15_x86_64 => Ok 8%Z
  | zmm0_x86_64 | zmm1_x86_64 | zmm2_x86_64 | zmm3_x86_64 | zmm4_x86_64 | zmm5_x86_64
  | zmm6_x86_64 | zmm7_x86_64 => Ok 64%Z
  | fs_x86_64 => Ok 2%Z
  | r0_arm | r1_arm | r2_arm | r3_arm | r4_arm | r5_arm | r6_arm | r7_arm | r8_arm | r9_arm
  | r10_arm | r11_arm | r12_arm | r13_arm | r14_arm | r15_arm => Ok 4%Z
  | q0_arm | q1_arm | q2_arm | q3_arm | q4_arm | q5_arm | q6_arm | q7_arm => Ok 16%Z
  | x0_aarch64 | x1_aarch64 | x2_aarch64 | x3_aarch64 | x4_aarch64 | x5_aarch64 | x6_aarch64
  | x7_aarch64 | x8_aarch64 | x9_aarch64 | x10_aarch64 | x11_aarch64 | x12_aarch64
  | x13_aarch64 | x14_aarch64 | x15_aarch64 | x16_aarch64 | x17_aarch64 | x18_aarch64
  | x19_aarch64 | x20_aarch64 | x21_aarch64 | x22_aarch64 | x23_aarch64 | x24_aarch64
  | x25_aarch64 | x26_aarch64 | x27_aarch64 | x28_aarch64 | x29_aarch64 | lr_aarch64
  | sp_aarch64 => Ok 8%Z
  | v0_aarch64 | v1_aarch64 | v2_aarch64 | v3_aarch64 | v4_aarch64 | v5_aarch64 | v6_aarch64
  | v7_aarch64 | v8_aarch64 | v9_aarch64 | v10_aarch64 | v11_aarch64 | v12_aarch64
  | v13_aarch64 | v14_aarch64 | v15_aarch64 | v16_aarch64 | v17_aarch64 | v18_aarch64
  | v19_aarch64 | v20_aarch64 | v21_aarch64 | v22_aarch64 | v23_aarch64 | v24_aarch64
  | v25_aarch64 | v26_aarch64 | v27_aarch64 | v28_aarch64 | v29_aarch64 | v30_aarch64
  | v31_aarch64 => Ok 16%Z
  | v0_mips | v1_mips | a0_mips | a1_mips | a2_mips | a3_mips | s0_mips | s1_mips | s2_mips
  | s3_mips | s4_mips | s5_mips | s6_mips | s7_mips | t0_mips | t1_mips | t2_mips | t3_mips
  | t4_mips | t5_mips | t6_mips | t7_mips | t8_mips | t9_mips | gp_mips | sp_mips | fp_mips
  | ra_mips => Ok 4%Z
  | f0_mips | f1_mips | f2_mips | f3_mips | f4_mips | f5_mips | f6_mips | f7_mips | f8_mips
  | f9_mips | f10_mips | f11_mips | f12_mips | f13_mips | f14_mips | f15_mips | f16_mips
  | f17_mips | f18_mips | f19_mips | f20_mips | f21_mips | f22_mips | f23_mips | f24_mips
  | f25_mips | f26_mips | f27_mips | f28_mips | f29_mips | f30_mips | f31_mips => Ok 8%Z
  | r0_systemz | r1_systemz | r2_systemz | r3_systemz | r4_systemz | r5_systemz | r6_systemz
  | r7_systemz | r8_systemz | r9_systemz | r10_systemz | r11_systemz | r12_systemz
  | r13_systemz | r14_systemz | r15_systemz => Ok 8%Z
  | f0_systemz | f1_systemz | f2_systemz | f3_systemz | f4_systemz | f5_systemz | f6_systemz
  | f7_systemz | f8_systemz | f9_systemz | f10_systemz | f11_systemz | f12_systemz
  | f13_systemz | f14_systemz | f15_systemz => Ok 16%Z
  | _ => revng_abort
  end.

(* include/revng/Model/Register.h:747-982 getPrimitiveKind *)
Definition getPrimitiveKind (V : Values) : outcome PrimitiveKind.Values :=
  match V with
  | eax_x86 | ebx_x86 | ecx_x86 | edx_x86 | esi_x86 | edi_x86 | ebp_x86 | esp_x86 | rax_x86_64
  | rbx_x86_64 | rcx_x86_64 | rdx_x86_64 | rbp_x86_64 | rsp_x86_64 | rsi_x86_64 | rdi_x86_64
  | r8_x86_64 | r9_x86_64 | r10_x86_64 | r11_x86_64 | r12_x86_64 | r13_x86_64 | r14_x86_64
  | r15_x86_64 | r0_arm | r1_arm | r2_arm | r3_arm | r4_arm | r5_arm | r6_arm | r7_arm | r8_arm
  | r9_arm | r10_arm | r11_arm | r12_arm | r13_arm | r14_arm | r15_arm | x0_aarch64
  | x1_aarch64 | x2_aarch64 | x3_aarch64 | x4_aarch64 | x5_aarch64 | x6_aarch64 | x7_aarch64
  | x8_aarch64 | x9_aarch64 | x10_aarch64 | x11_aarch64 | x12_aarch64 | x13_aarch64
  | x14_aarch64 | x15_aarch64 | x16_aarch64 | x17_aarch64 | x18_aarch64 | x19_aarch64
  | x20_aarch64 | x21_aarch64 | x22_aarch64 | x23_aarch64 | x24_aarch64 | x25_aarch64
  | x26_aarch64 | x27_aarch64 | x28_aarch64 | x29_aarch64 | lr_aarch64 | sp_aarch64 | v0_mips
  | v1_mips | a0_mips | a1_mips | a2_mips | a3_mips | s0_mips | s1_mips | s2_mips | s3_mips
  | s4_mips | s5_mips | s6_mips | s7_mips | t0_mips | t1_mips | t2_mips | t3_mips | t4_mips
  | t5_mips | t6_mips | t7_mips | t8_mips | t9_mips | gp_mips | sp_mips | fp_mips | ra_mips
  | r0_systemz | r1_systemz | r2_systemz | r3_systemz | r4_systemz | r5_systemz | r6_systemz
  | r7_systemz | r8_systemz | r9_systemz | r10_systemz | r11_systemz | r12_systemz
  | r13_systemz | r14_systemz | r15_systemz => Ok PrimitiveKind.PointerOrNumber
  | st0_x86 | zmm0_x86 | zmm1_x86 | zmm2_x86 | zmm3_x86 | zmm4_x86 | zmm5_x86 | zmm6_x86
  | zmm7_x86 | zmm0_x86_64 | zmm1_x86_64 | zmm2_x86_64 | zmm3_x86_64 | zmm4_x86_64
  | zmm5_x86_64 | zmm6_x86_64 | zmm7_x86_64 | q0_arm | q1_arm | q2_arm | q3_arm | q4_arm
  | q5_arm | q6_arm | q7_arm | v0_aarch64 | v1_aarch64 | v2_aarch64 | v3_aarch64 | v4_aarch64
  | v5_aarch64 | v6_aarch64 | v7_aarch64 | v8_aarch64 | v9_aarch64 | v10_aarch64 | v11_aarch64
  | v12_aarch64 | v13_aarch64 | v14_aarch64 | v15_aarch64 | v16_aarch64 | v17_aarch64
  | v18_aarch64 | v19_aarch64 | v20_aarch64 | v21_aarch64 | v22_aarch64 | v23_aarch64
  | v24_aarch64 | v25_aarch64 | v26_aarch64 | v27_aarch64 | v28_aarch64 | v29_aarch64
  | v30_aarch64 | v31_aarch64 | f0_mips | f1_mips | f2_mips | f3_mips | f4_mips | f5_mips
  | f6_mips | f7_mips | f8_mips | f9_mips | f10_mips | f11_mips | f12_mips | f13_mips
  | f14_mips | f15_mips | f16_mips | f17_mips | f18_mips | f19_mips | f20_mips | f21_mips
  | f22_mips | f23_mips | f24_mips | f25_mips | f26_mips | f27_mips | f28_mips | f29_mips
  | f30_mips | f31_mips | f0_systemz | f1_systemz | f2_systemz | f3_systemz | f4_systemz
  | f5_systemz | f6_systemz | f7_systemz | f8_systemz | f9_systemz | f10_systemz | f11_systemz
  | f12_systemz | f13_systemz | f14_systemz | f15_systemz => Ok PrimitiveKind.Float
  | fs_x86_64 => Ok PrimitiveKind.Generic
  | _ => revng_abort
  end.

(* include/revng/Model/Register.h:645-687 getMContextIndex *)
Definition getMContextIndex (V : Values) : outcome (option Z) :=
  match V with
  | rax_x86_64 => Ok (Some 13%Z)
  | rbx_x86_64 => Ok (Some 11%Z)
  | rcx_x86_64 => Ok (Some 14%Z)
  | rdx_x86_64 => Ok (Some 12%Z)
  | rbp_x86_64 => Ok (Some 10%Z)
  | rsp_x86_64 => Ok (Some 15%Z)
  | rsi_x86_64 => Ok (Some 9%Z)
  | rdi_x86_64 => Ok (Some 8%Z)
  | r8_x86_64 => Ok (Some 0%Z)
  | r9_x86_64 => Ok (Some 1%Z)
  | r10_x86_64 => Ok (Some 2%Z)
  | r11_x86_64 => Ok (Some 3%Z)
  | r12_x86_64 => Ok (Some 4%Z)
  | r13_x86_64 => Ok (Some 5%Z)
  | r14_x86_64 => Ok (Some 6%Z)
  | r15_x86_64 => Ok (Some 7%Z)
  | _ =>
    A ← getReferenceArchitecture V;
    if decide (A = Architecture.x86_64) then Ok None else revng_abort
  end.

(* scripts/tuple_tree_generator/templates/enum.h.tpl:61-64 Register::isValid *)
Definition isValid (V : Values) : outcome bool :=
  revng_assert (toRaw V <? toRaw Count)%Z;; Ok (negb (bool_decide (V = Invalid))).

(** The chain of comparisons over the members. *)
(* scripts/tuple_tree_generator/templates/enum.h.tpl:44-59 Register::fromName *)
Fixpoint fromNameAmong (Vs : list Values) (Name : string) : outcome Values :=
  match Vs with
  | [] => Ok Invalid
  | V :: Vs =>
    N ← getName V;
    if String.eqb Name N then Ok V else fromNameAmong Vs Name
  end.

(* scripts/tuple_tree_generator/templates/enum.h.tpl:44-59 Register::fromName *)
Definition fromName (Name : string) : outcome Values := fromNameAmong members Name.

(* include/revng/Model/Register.h:263-277 isUsedInArchitecture *)
Definition isUsedInArchitecture (Register : Values) (Architecture : Architecture.Values) : outcome bool :=
  ReferenceArchitecture ← getReferenceArchitecture Register;
  revng_assert (negb (bool_decide (Architecture = Architecture.Invalid)));;
  if bool_decide (Architecture = ReferenceArchitecture) then Ok true
  else if bool_decide (Architecture = Architecture.mipsel) then
    if bool_decide (ReferenceArchitecture = Architecture.mips) then Ok true else Ok false
  else Ok false.

(* include/revng/Model/Register.h:279-286 getRegisterName *)
Definition getRegisterName (V : Values) : outcome string :=
  FullName ← getName V;
  Architecture ← getReferenceArchitecture V;
  revng_assert (negb (bool_decide (Architecture = Architecture.Invalid)));;
  Name ← Architecture.getName Architecture;
  let n := String.length FullName in
  let m := String.length Name in
  revng_assert (String.eqb (String.substring (n - m) (n - (n - m)) FullName) Name);;
  Ok (String.substring 0 (n - m - 1) FullName).

(** [skippingEnumSwitch<1>]: every architecture but [Invalid] has its instance. *)
(* include/revng/Model/Register.h:560-579 getFirst *)
Definition getFirst (A : Architecture.Values) : outcome Values :=
  match A with
  | Architecture.x86 => Ok eax_x86
  | Architecture.arm => Ok r0_arm
  | Architecture.mips => Ok v0_mips
  | Architecture.mipsel => Ok v0_mips
  | Architecture.x86_64 => Ok rax_x86_64
  | Architecture.aarch64 => Ok x0_aarch64
  | Architecture.systemz => Ok r0_systemz
  | Architecture.Invalid | Architecture.Count => revng_abort
  end.

(* include/revng/Model/Register.h:581-600 getLast *)
Definition getLast (A : Architecture.Values) : outcome Values :=
  match A with
  | Architecture.x86 => Ok zmm7_x86
  | Architecture.arm => Ok q7_arm
  | Architecture.mips => Ok f31_mips
  | Architecture.mipsel => Ok f31_mips
  | Architecture.x86_64 => Ok fs_x86_64
  | Architecture.aarch64 => Ok v31_aarch64
  | Architecture.systemz => Ok f15_systemz
  | Architecture.Invalid | Architecture.Count => revng_abort
  end.

(* include/revng/Model/Register.h:602-625 getCount *)
Definition getCount (A : Architecture.Values) : outcome Z :=
  Last ← getLast A; First ← getFirst A; Ok (toRaw Last - toRaw First + 1)%Z.

(* include/revng/Model/Register.h:627-633 canonicalArchitecture *)
Definition canonicalArchitecture (A : Architecture.Values) : Architecture.Values :=
  if decide (A = Architecture.mipsel) then Architecture.mips else A.

(* include/revng/Model/Register.h:635-643 fromRegisterName *)
Definition fromRegisterName (Name : string) (A : Architecture.Values) : outcome Values :=
  let A := canonicalArchitecture A in
  ArchitectureName ← Architecture.getName A;
  fromName (String.append (String.append Name "_") ArchitectureName).

(** ** Conventions of the architectures *)

(* include/revng/Model/Register.h:994-1020 Architecture::getStackPointer *)
Definition getStackPointer (V : Architecture.Values) : outcome Values :=
  match V with
  | Architecture.x86 => Ok esp_x86
  | Architecture.x86_64 => Ok rsp_x86_64
  | Architecture.arm => Ok r13_arm
  | Architecture.mips | Architecture.mipsel => Ok sp_mips
  | Architecture.aarch64 => Ok sp_aarch64
  | Architecture.systemz => Ok r15_systemz
  | _ => revng_abort
  end.

(* include/revng/Model/Register.h:1022-1048 Architecture::getSyscallNumberRegister *)
Definition getSyscallNumberRegister (V : Architecture.Values) : outcome Values :=
  match V with
  | Architecture.x86 => Ok eax_x86
  | Architecture.x86_64 => Ok rax_x86_64
  | Architecture.arm => Ok r7_arm
  | Architecture.mips | Architecture.mipsel => Ok v0_mips
  | Architecture.aarch64 => Ok x8_aarch64
  | Architecture.systemz => Ok r1_systemz
  | _ => revng_abort
  end.

(* include/revng/Model/Register.h:1050-1074 Architecture::getReturnAddressRegister *)
Definition getReturnAddressRegister (V : Architecture.Values) : outcome Values :=
  match V with
  | Architecture.x86 | Architecture.x86_64 => Ok Invalid
  | Architecture.arm => Ok r14_arm
  | Architecture.mips | Architecture.mipsel => Ok ra_mips
  | Architecture.aarch64 => Ok lr_aarch64
  | Architecture.systemz => Ok r14_systemz
  | _ => revng_abort
  end.

(* include/revng/Model/Register.h:1076-1088 Architecture::getPCMContextIndex *)
Definition getPCMContextIndex (V : Architecture.Values) : option Z :=
  match V with
  | Architecture.x86_64 => Some 16%Z
  | Architecture.arm => Some 18%Z
  | _ => None
  end.

(** The loop [for (R = First; R <= Last; R++)]: [fuel] bounds its iterations. *)
(* include/revng/Model/Register.h:1090-1098 Architecture::registers *)
Fixpoint registersLoop (fuel : nat) (Register Last : Values) : list Values :=
  match fuel with
  | O => []
  | S fuel =>
    if (toRaw Register <=? toRaw Last)%Z
    then Register :: registersLoop fuel (fromRaw (toRaw Register + 1)) Last
    else []
  end.

(* include/revng/Model/Register.h:1090-1098 Architecture::registers *)
Definition registers (V : Architecture.Values) : outcome (list Values) :=
  First ← getFirst V; Last ← getLast V; Ok (registersLoop (S (length members)) First Last).

(* include/revng/Model/Register.h:1104-1124 allRegisters *)
Definition allRegisters : outcome (list Values) :=
  R1 ← registers Architecture.x86;
  R2 ← registers Architecture.x86_64;
  R3 ← registers Architecture.arm;
  R4 ← registers Architecture.aarch64;
  R5 ← registers Architecture.mips;
  R6 ← registers Architecture.mipsel;
  R7 ← registers Architecture.systemz;
  Ok (R1 ++ R2 ++ R3 ++ R4 ++ R5 ++ R6 ++ R7).

(* include/revng/Model/PrimitiveType.h:103-106 PrimitiveType::make *)
Definition primitiveOf (Register : Values) : outcome PrimitiveType.PrimitiveType :=
  Kind ← getPrimitiveKind Register;
  Size ← getSize Register;
  Ok (PrimitiveType.make Kind Size).

(* include/revng/Model/PrimitiveType.h:108-110 PrimitiveType::makeGeneric *)
Definition genericOf (Register : Values) : outcome PrimitiveType.PrimitiveType :=
  Size ← getSize Register; Ok (PrimitiveType.makeGeneric Size).

(** ** CPU state variables *)

(* lib/Model/Register.cpp:12-33 RegisterCSVComposition *)
Record RegisterCSVComposition := mkComposition {
  Register : Values;
  BaseOffset : Z;
  CSVCount : Z;
  CSVSize : Z;
}.

(** The size is divided before the assertions are checked. *)
(* lib/Model/Register.cpp:19-32 RegisterCSVComposition::RegisterCSVComposition *)
Definition makeComposition (Register : Values) (BaseOffset CSVCount : Z) : outcome RegisterCSVComposition :=
  RegisterSize ← getSize Register;
  if (CSVCount =? 0)%Z then undefined else
  revng_assert (negb (CSVCount =? 0)%Z);;
  revng_assert (RegisterSize mod CSVCount =? 0)%Z;;
  (if (1 <? CSVCount)%Z then revng_assert (negb (BaseOffset =? 0)%Z) else Ok tt);;
  Ok (mkComposition Register BaseOffset CSVCount (RegisterSize / CSVCount)).

(** The arguments of the entries of the table. *)
Definition specialEntries : list (Values * Z * Z) :=
  [(zmm0_x86_64, 0x2b10, 8); (zmm1_x86_64, 0x2b50, 8); (zmm2_x86_64, 0x2b90, 8);
   (zmm3_x86_64, 0x2bd0, 8); (zmm4_x86_64, 0x2c10, 8); (zmm5_x86_64, 0x2c50, 8);
   (zmm6_x86_64, 0x2c90, 8); (zmm7_x86_64, 0x2cd0, 8); (st0_x86, 0x2960, 1)]%Z.

(* lib/Model/Register.cpp:37-68 SpecialRegisters *)
Definition SpecialRegisters : outcome (list RegisterCSVComposition) :=
  mapM (λ '(R, B, C), makeComposition R B C) specialEntries.

(* lib/Model/Register.cpp:70-78 lookupRegister *)
Definition lookupRegister (V : Values) : outcome RegisterCSVComposition :=
  revng_assert (negb (bool_decide (V = Invalid)));;
  Entries ← SpecialRegisters;
  match List.find (λ Entry, bool_decide (Register Entry = V)) Entries with
  | Some Entry => Ok Entry
  | None => makeComposition V 0 1
  end.

(** The test of an entry; the sums are on [uint64_t]. *)
(* lib/Model/Register.cpp:85-87 lookupRegister *)
Definition coversOffset (Entry : RegisterCSVComposition) (Arch : Architecture.Values) (Offset : Z) : outcome bool :=
  ReferenceArchitecture ← getReferenceArchitecture (Register Entry);
  Ok (bool_decide (Arch = ReferenceArchitecture) && (BaseOffset Entry <=? Offset)%Z &&
      (Offset <? wrap 64 (BaseOffset Entry + wrap 64 (CSVCount Entry * CSVSize Entry)))%Z).

(* lib/Model/Register.cpp:84-90 lookupRegister *)
Fixpoint lookupAmong (Entries : list RegisterCSVComposition) (Arch : Architecture.Values) (Offset : Z)
    : outcome (option RegisterCSVComposition) :=
  match Entries with
  | [] => Ok None
  | Entry :: Entries =>
    Covers ← coversOffset Entry Arch Offset;
    if (Covers : bool) then Ok (Some Entry) else lookupAmong Entries Arch Offset
  end.

(* lib/Model/Register.cpp:80-93 lookupRegister *)
Definition lookupOffset (Arch : Architecture.Values) (Offset : Z) : outcome (option RegisterCSVComposition) :=
  revng_assert (negb (Offset =? 0)%Z);;
  Entries ← SpecialRegisters;
  lookupAmong Entries Arch Offset.

(* lib/Model/Register.cpp:95-95 UnknownCSVPrefix *)
Definition UnknownCSVPrefix : string := "state_0x".

Section csv.
  Context `{StringOps}.

(* lib/Model/Register.cpp:97-108 getCSVName *)
Definition getCSVName (V : Values) (Offset : Z) : outcome string :=
  Composition ← lookupRegister V;
  if (BaseOffset Composition =? 0)%Z then
    revng_assert (CSVCount Composition =? 1)%Z;;
    Name ← getRegisterName V;
    Ok (String.append "_" Name)
  else
    Ok (String.append (String.append "_" UnknownCSVPrefix)
          (utohexstrLower (wrap 64 (BaseOffset Composition + Offset)))).

(* lib/Model/Register.cpp:110-132 fromCSVName *)
Definition fromCSVNameImpl (Name : string) (A : Architecture.Values)
    : outcome (option RegisterCSVComposition * Z) :=
  match PrimitiveKind.consume_front "_" Name with
  | None => Ok (None, 0%Z)
  | Some Name =>
    match PrimitiveKind.consume_front UnknownCSVPrefix Name with
    | None =>
      Deserialized ← fromRegisterName Name A;
      if bool_decide (Deserialized ≠ Invalid)
      then Composition ← lookupRegister Deserialized; Ok (Some Composition, 0%Z)
      else Ok (None, 0%Z)
    | Some Name =>
      match getAsInteger 16 OverflowSafeInt.uint64 Name with
      | None => Ok (None, 0%Z)
      | Some FullOffset =>
        Result ← lookupOffset A FullOffset;
        match Result with
        | None => Ok (None, 0%Z)
        | Some Composition =>
          revng_assert (BaseOffset Composition <=? FullOffset)%Z;;
          Ok (Some Composition, FullOffset - BaseOffset Composition)%Z
        end
      end
    end
  end.

(* lib/Model/Register.cpp:136-138 getCSVCount *)
Definition getCSVCount (V : Values) : outcome Z := CSVCount <$> lookupRegister V.

(* lib/Model/Register.cpp:140-144 singleCSVName *)
Definition singleCSVName (V : Values) : outcome string :=
  Count ← getCSVCount V;
  revng_assert (Count =? 1)%Z;;
  getCSVName V 0.

(* lib/Model/Register.cpp:146-154 fromCSVName *)
Definition fromCSVName (Name : string) (A : Architecture.Values) : outcome Values :=
  '(Result, _) ← fromCSVNameImpl Name A;
  Ok match Result with Some Composition => Register Composition | None => Invalid end.

(* include/revng/Model/Register.h:710-719 CSV *)
Record CSV := mkCSV {
  Name : string;
  StartOffset : Z;
  Size : Z;
}.

(** The loop over [Index]: [n] is the number of CSVs left. *)
(* lib/Model/Register.cpp:160-163 getCSVs *)
Fixpoint csvsFrom (V : Values) (Composition : RegisterCSVComposition) (n : nat) (Index : Z) : outcome (list CSV) :=
  match n with
  | O => Ok []
  | S n =>
    Name ← getCSVName V (wrap 64 (Index * CSVSize Composition));
    Rest ← csvsFrom V Composition n (Index + 1);
    Ok (mkCSV Name (wrap 64 (Index * CSVSize Composition)) (CSVSize Composition) :: Rest)
  end.

(* lib/Model/Register.cpp:156-164 getCSVs *)
Definition getCSVs (V : Values) : outcome (list CSV) :=
  revng_assert (negb (bool_decide (V = Invalid)));;
  Composition ← lookupRegister V;
  csvsFrom V Composition (Z.to_nat (CSVCount Composition)) 0.

(* include/revng/Model/Register.h:724-745 Portion *)
Record Portion := mkPortion {
  PortionRegister : Values;
  PortionStart : Z;
  PortionSize : Z;
}.

(* include/revng/Model/Register.h:732-736 Portion::Portion *)
Definition portionOf (Register : Values) (Size : Z) : outcome Portion :=
  RegisterSize ← getSize Register;
  revng_assert (Size <=? RegisterSize)%Z;;
  Ok (mkPortion Register 0 Size).

(* lib/Model/Register.cpp:166-178 Portion::Portion *)
Definition portionFromCSV (Name : string) (A : Architecture.Values) : outcome Portion :=
  '(Composition, Offset) ← fromCSVNameImpl Name A;
  match Composition with
  | None => Ok (mkPortion Invalid 0 0)
  | Some Composition =>
    let Size := CSVSize Composition in
    revng_assert (0 <? Size)%Z;;
    RegisterSize ← getSize (Register Composition);
    revng_assert (wrap 64 (Offset + Size) <=? RegisterSize)%Z;;
    Ok (mkPortion (Register Composition) Offset Size)
  end.
End csv.

(** ** Facts *)

Lemma values_cases V : V = Invalid ∨ V = Count ∨ V ∈ members.
Proof.
  destruct (decide (V = Invalid)) as [|HI]; [by left|].
  destruct (decide (V = Count)) as [|HC]; [by right; left|]. right. right.
  assert (bool_decide (V ∈ members) = true) as Hin; [|by apply bool_decide_eq_true in Hin].
  destruct V; try done; vm_compute; reflexivity.
Qed.

Lemma used_member V A : isUsedInArchitecture V A = Ok true → V ∈ members.
Proof. destruct (values_cases V) as [->|[->|?]]; done. Qed.

Lemma fromNameAmong_Ok Vs Name V :
  fromNameAmong Vs Name = Ok V → V = Invalid ∨ (V ∈ Vs ∧ getName V = Ok Name).
Proof.
  induction Vs as [|W Vs IH]; simpl; [intros [= <-]; by left|].
  destruct (getName W) as [n|f] eqn:HW; simpl; [|done].
  destruct (String.eqb_spec Name n) as [->|]; [intros [= <-]; right; split; [by left|done]|].
  intros [->|[Hin Hn]]%IH; [by left|right; split; [by right|done]].
Qed.

(** What the tables must satisfy for the names of a register to be read back, on
    every register and architecture. *)
Definition nameChecks (V : Values) (A : Architecture.Values) : bool :=
  match isUsedInArchitecture V A with
  | Ok true =>
    match getRegisterName V with
    | Ok Name => match fromRegisterName Name A with Ok W => bool_decide (W = V) | _ => false end
    | _ => false
    end
  | _ => true
  end &&
  match getName V, Architecture.getName (canonicalArchitecture A) with
  | Ok FullName, Ok Suffix =>
    match PrimitiveType.consume_back FullName (String.append "_" Suffix) with
    | Some Name =>
      match getRegisterName V, isUsedInArchitecture V A with
      | Ok Name', Ok true => String.eqb Name' Name
      | _, _ => false
      end
    | None => true
    end
  | _, _ => true
  end.

Definition allArchitectures : list Architecture.Values :=
  Architecture.Invalid :: Architecture.members ++ [Architecture.Count].

Lemma nameChecks_hold V A : V ∈ members → nameChecks V A = true.
Proof.
  intros HV.
  assert (forallb (λ V, forallb (nameChecks V) allArchitectures) members = true) as Hall
    by (vm_compute; reflexivity).
  rewrite forallb_forall in Hall. apply list_elem_of_In in HV. apply Hall in HV.
  rewrite forallb_forall in HV. apply HV. destruct A; vm_compute; tauto.
Qed.

(** What the iteration over the registers of an architecture must satisfy. *)
Definition enumerationChecks (A : Architecture.Values) : bool :=
  match registers A, getCount A with
  | Ok Rs, Ok n =>
    bool_decide (NoDup Rs) && (Z.of_nat (length Rs) =? n)%Z &&
    forallb (λ V, match isUsedInArchitecture V A with
                  | Ok b => Bool.eqb b (bool_decide (V ∈ Rs))
                  | _ => false
                  end) members &&
    forallb (λ V, bool_decide (V ∈ members)) Rs
  | _, _ => false
  end.

Lemma enumerationChecks_hold A : Architecture.isMember A = true → enumerationChecks A = true.
Proof. destruct A; try done; intros _; vm_compute; reflexivity. Qed.

Lemma registers_spec A :
  Architecture.isMember A = true →
  ∃ Rs, registers A = Ok Rs ∧ NoDup Rs ∧ getCount A = Ok (Z.of_nat (length Rs)) ∧
    ∀ V, V ∈ Rs ↔ isUsedInArchitecture V A = Ok true.
Proof.
  intros HA. pose proof (enumerationChecks_hold A HA) as Hc. unfold enumerationChecks in Hc.
  destruct (registers A) as [Rs|]; [|done]. destruct (getCount A) as [n|]; [|done].
  rewrite !andb_true_iff in Hc. destruct Hc as (((Hnd & Hn) & Hused) & Hmem).
  apply bool_decide_eq_true in Hnd. apply Z.eqb_eq in Hn as <-.
  exists Rs. split_and!; try done. intros V. rewrite forallb_forall in Hused, Hmem. split.
  - intros HV. pose proof HV as HVm. apply list_elem_of_In, Hmem, bool_decide_eq_true in HVm.
    apply list_elem_of_In, Hused in HVm. destruct (isUsedInArchitecture V A) as [b|]; [|done].
    apply eqb_prop in HVm as ->. by rewrite bool_decide_eq_true_2.
  - intros Hu. pose proof (used_member V A Hu) as HVm. apply list_elem_of_In, Hused in HVm.
    rewrite Hu in HVm. by apply eqb_prop, eq_sym, bool_decide_eq_true in HVm.
Qed.

(** The registers that are eight 8-byte state variables. *)
Definition isWide (V : Values) : bool :=
  match V with
  | zmm0_x86_64 | zmm1_x86_64 | zmm2_x86_64 | zmm3_x86_64
  | zmm4_x86_64 | zmm5_x86_64 | zmm6_x86_64 | zmm7_x86_64 => true
  | _ => false
  end.

Definition primitiveChecks (V : Values) : bool :=
  match primitiveOf V, genericOf V, getSize V with
  | Ok T, Ok G, Ok n =>
    match PrimitiveType.verify T, PrimitiveType.verify G with
    | Ok b, Ok true => (n =? PrimitiveType.Size T)%Z && Bool.eqb b (negb (isWide V))
    | _, _ => false
    end
  | _, _, _ => false
  end.

Lemma primitiveChecks_hold V : V ∈ members → primitiveChecks V = true.
Proof.
  intros HV%list_elem_of_In. revert V HV. apply forallb_forall. vm_compute. reflexivity.
Qed.

(** The state variables cover [n] bytes from [start], in order and without gaps. *)
Fixpoint tiles (start : Z) (cs : list CSV) (n : Z) : Prop :=
  match cs with
  | [] => n = start
  | c :: cs => StartOffset c = start ∧ (0 < Size c)%Z ∧ tiles (start + Size c) cs n
  end.

#[local] Arguments String.append !_ _ /.

Section csv_facts.
  Context `{StringLaws}.

(** The name of a state variable known by its offset. *)
Lemma fromCSVName_offset k A :
  in_width 64 k →
  fromCSVNameImpl (String.append (String.append "_" UnknownCSVPrefix) (utohexstrLower k)) A =
    (Result ← lookupOffset A k;
     match Result with
     | None => Ok (None, 0%Z)
     | Some Composition =>
       revng_assert (BaseOffset Composition <=? k)%Z;;
       Ok (Some Composition, k - BaseOffset Composition)%Z
     end).
Proof using Type*.
  intros Hk. unfold fromCSVNameImpl. cbn [String.append PrimitiveKind.consume_front Ascii.eqb Bool.eqb].
  cbn. rewrite parse_hex16; [done|apply Hk|by apply OverflowSafeInt.in_type_uint64].
Qed.
End csv_facts.

Lemma register_append_assoc s t u : String.append (String.append s t) u = String.append s (String.append t u).
Proof. induction s as [|c s IH]; [done|]. cbn. by rewrite IH. Qed.

(** The registers of the table of special registers. *)
Definition specialRegisters : list Values := (λ e, e.1.1) <$> specialEntries.

(** A register that is not special is a single variable, named after it. *)
Definition plainChecks (V : Values) : bool :=
  bool_decide (V ∈ specialRegisters) ||
  match lookupRegister V, getRegisterName V, getSize V with
  | Ok C, Ok n, Ok s =>
    bool_decide (Register C = V) && (BaseOffset C =? 0)%Z && (CSVCount C =? 1)%Z &&
    (CSVSize C =? s)%Z && (0 <? s)%Z && (s <? 2 ^ 64)%Z &&
    match PrimitiveKind.consume_front UnknownCSVPrefix n with None => true | Some _ => false end
  | _, _, _ => false
  end.

Lemma plainChecks_hold V : V ∈ members → plainChecks V = true.
Proof.
  intros HV%list_elem_of_In. revert V HV. apply forallb_forall. vm_compute. reflexivity.
Qed.

Lemma plain_spec V :
  V ∈ members → V ∉ specialRegisters →
  ∃ n s, lookupRegister V = Ok (mkComposition V 0 1 s) ∧ getRegisterName V = Ok n ∧
    getSize V = Ok s ∧ (0 < s < 2 ^ 64)%Z ∧ PrimitiveKind.consume_front UnknownCSVPrefix n = None.
Proof.
  intros HV Hs. pose proof (plainChecks_hold V HV) as Hc. unfold plainChecks in Hc.
  rewrite bool_decide_eq_false_2 in Hc by done. rewrite orb_false_l in Hc.
  destruct (lookupRegister V) as [[R B C S]|]; [|done]. destruct (getRegisterName V) as [n|]; [|done].
  destruct (getSize V) as [s|]; [|done]. cbn [Register BaseOffset CSVCount CSVSize] in Hc.
  rewrite !andb_true_iff, bool_decide_eq_true, !Z.eqb_eq, !Z.ltb_lt in Hc.
  destruct Hc as ((((((-> & ->) & ->) & ->) & ?) & ?) & Hn). exists n, s. split; [done|]. split; [done|]. split; [done|]. split; [lia|].
 revert Hn. by destruct (PrimitiveKind.consume_front UnknownCSVPrefix n).
Qed.

Lemma registerName_read V A n :
  isUsedInArchitecture V A = Ok true → getRegisterName V = Ok n → fromRegisterName n A = Ok V.
Proof.
  intros Hused Hn. pose proof (nameChecks_hold V A (used_member V A Hused)) as Hc.
  unfold nameChecks in Hc. rewrite Hused, Hn in Hc. apply andb_true_iff in Hc as [Hc _].
  destruct (fromRegisterName n A) as [W|]; [|done]. by apply bool_decide_eq_true in Hc as ->.
Qed.

Section csv_lemmas.
  Context `{StringLaws}.
  #[local] Set Default Proof Using "Type*".

(** What [csv_roundtrip] states of a register. *)
Definition roundTrips (V : Values) (A : Architecture.Values) : Prop :=
  ∃ cs n, getCSVs V = Ok cs ∧ getSize V = Ok n ∧ getCSVCount V = Ok (Z.of_nat (length cs)) ∧
    cs ≠ [] ∧ tiles 0 cs n ∧
    ∀ c, c ∈ cs → fromCSVName (Name c) A = Ok V ∧
      portionFromCSV (Name c) A = Ok (mkPortion V (StartOffset c) (Size c)).

Lemma read_portion Nm A V C o n :
  fromCSVNameImpl Nm A = Ok (Some C, o) → Register C = V → getSize V = Ok n →
  (0 < CSVSize C)%Z → (0 ≤ o)%Z → (o + CSVSize C ≤ n)%Z → (n < 2 ^ 64)%Z →
  fromCSVName Nm A = Ok V ∧ portionFromCSV Nm A = Ok (mkPortion V o (CSVSize C)).
Proof.
  intros Hf <- Hn Hpos Ho Hle Hlt. unfold fromCSVName, portionFromCSV. rewrite Hf. simpl.
  split; [done|]. rewrite (proj2 (Z.ltb_lt _ _)) by done. simpl. rewrite Hn. simpl.
  rewrite wrap_small by (unfold in_width; lia). by rewrite (proj2 (Z.leb_le _ _)).
Qed.

Lemma plain_roundTrips V A :
  isUsedInArchitecture V A = Ok true → V ∉ specialRegisters → roundTrips V A.
Proof.
  intros Hused Hs. destruct (plain_spec V (used_member V A Hused) Hs) as (n & s & HC & Hn & Hsz & Hb & Hp).
  exists [mkCSV (String.append "_" n) 0 s], s.
  assert (V ≠ Invalid) as HI by by intros ->.
  assert (getCSVName V 0 = Ok (String.append "_" n)) as Hname
    by (unfold getCSVName; rewrite HC; simpl; by rewrite Hn).
  split_and!; try done.
  - unfold getCSVs. rewrite bool_decide_eq_false_2 by done. rewrite HC.
    change (csvsFrom V (mkComposition V 0 1 s) 1 0 = Ok [mkCSV (String.append "_" n) 0 s]).
    cbn [csvsFrom CSVSize]. change (wrap 64 (0 * s)) with 0%Z. by rewrite Hname.
  - unfold getCSVCount. by rewrite HC.
  - simpl. split_and!; try done; lia.
  - intros c ->%list_elem_of_singleton. cbn [Name StartOffset Size].
    apply (read_portion _ A V (mkComposition V 0 1 s) 0 s); cbn [CSVSize Register]; try done; try lia.
    unfold fromCSVNameImpl. rewrite PrimitiveKind.consume_front_app, Hp.
    rewrite (registerName_read V A n Hused Hn). simpl. rewrite bool_decide_eq_true_2 by done.
    by rewrite HC.
Qed.

(** A special register at [Base], made of [Count] variables of [Size] bytes. *)
Lemma special_roundTrips V A Base Cnt S (cs : list CSV) :
  lookupRegister V = Ok (mkComposition V Base Cnt S) →
  getSize V = Ok (Cnt * S)%Z → getCSVs V = Ok cs → Z.of_nat (length cs) = Cnt → cs ≠ [] →
  (0 < S)%Z → (0 < Base)%Z → (Base + Cnt * S < 2 ^ 64)%Z → tiles 0 cs (Cnt * S) →
  Forall (λ c, Size c = S ∧ (0 ≤ StartOffset c)%Z ∧ (StartOffset c + S ≤ Cnt * S)%Z ∧
    lookupOffset A (Base + StartOffset c) = Ok (Some (mkComposition V Base Cnt S)) ∧
    Name c = String.append (String.append "_" UnknownCSVPrefix) (utohexstrLower (Base + StartOffset c))) cs →
  roundTrips V A.
Proof.
  intros HC Hsz Hcs Hlen Hne HS HB Hlt Ht Hf. exists cs, (Cnt * S)%Z. split_and!; try done.
  - unfold getCSVCount. rewrite HC. simpl. by rewrite Hlen.
  - intros c Hc. rewrite Forall_forall in Hf. destruct (Hf c Hc) as (<- & Hpos & Hle & Hlo & ->).
    apply (read_portion _ A V (mkComposition V Base Cnt (Size c)) (StartOffset c) (Cnt * Size c));
      cbn [CSVSize Register]; try done; try lia.
    rewrite fromCSVName_offset by (unfold in_width; lia). rewrite Hlo. simpl.
    rewrite (proj2 (Z.leb_le _ _)) by lia. simpl. do 2 f_equal. lia.
Qed.
End csv_lemmas.


(** ** Properties *)

(** The name of a register within its architecture and [fromRegisterName]
    are inverse to each other: on every register an architecture uses the name is
    read back to the register, and a name that is read as a register is the name
    of that register, which the architecture uses. *)
Theorem register_names V A Name :
  (isUsedInArchitecture V A = Ok true →
   ∃ n, getRegisterName V = Ok n ∧ fromRegisterName n A = Ok V) ∧
  (fromRegisterName Name A = Ok V → V ≠ Invalid →
   getRegisterName V = Ok Name ∧ isUsedInArchitecture V A = Ok true).
Proof.
  split.
  - intros Hused. pose proof (nameChecks_hold V A (used_member V A Hused)) as Hc.
    unfold nameChecks in Hc. rewrite Hused in Hc. apply andb_true_iff in Hc as [Hc _].
    destruct (getRegisterName V) as [n|]; [|done]. exists n. split; [done|].
    destruct (fromRegisterName n A) as [W|]; [|done]. by apply bool_decide_eq_true in Hc as ->.
  - unfold fromRegisterName. intros Hfrom HI.
    destruct (Architecture.getName (canonicalArchitecture A)) as [Suffix|] eqn:HA; [|done]. simpl in Hfrom.
    apply fromNameAmong_Ok in Hfrom as [?|[Hin Hn]]; [done|].
    pose proof (nameChecks_hold V A Hin) as Hc. unfold nameChecks in Hc.
    apply andb_true_iff in Hc as [_ Hc]. rewrite Hn, HA in Hc. rewrite register_append_assoc in Hc.
    rewrite PrimitiveType.consume_back_app in Hc.
    destruct (getRegisterName V) as [n|]; [|done].
    destruct (isUsedInArchitecture V A) as [[]|]; try done. apply String.eqb_eq in Hc as ->. done.
Qed.

(** The registers an architecture iterates over are the ones it uses, once
    each, and as many as [getCount] says. Its stack pointer is one of them, is as
    large as a pointer and can hold one; so are its system call number register
    and its return address register, where there is one. *)
Theorem architecture_registers A :
  Architecture.isMember A = true →
  ∃ Rs, registers A = Ok Rs ∧ NoDup Rs ∧ getCount A = Ok (Z.of_nat (length Rs)) ∧
    (∀ V, V ∈ Rs ↔ isUsedInArchitecture V A = Ok true) ∧
    (∃ sp, getStackPointer A = Ok sp ∧ sp ∈ Rs ∧ getSize sp = Architecture.getPointerSize A ∧
       getPrimitiveKind sp = Ok PrimitiveKind.PointerOrNumber) ∧
    (∃ sn, getSyscallNumberRegister A = Ok sn ∧ sn ∈ Rs ∧
       getPrimitiveKind sn = Ok PrimitiveKind.PointerOrNumber) ∧
    (∃ ra, getReturnAddressRegister A = Ok ra ∧
       (ra = Invalid ∨ ra ∈ Rs ∧ getSize ra = Architecture.getPointerSize A)).
Proof.
  intros HA. destruct (registers_spec A HA) as (Rs & HRs & Hnd & Hn & Hin).
  exists Rs. split_and!; try done.
  - destruct A; try done; eexists; (split; [reflexivity|]); rewrite Hin; done.
  - destruct A; try done; eexists; (split; [reflexivity|]); rewrite Hin; done.
  - destruct A; try done; eexists; (split; [reflexivity|]); (by left) || (right; rewrite Hin; done).
Qed.

(** The primitive type made from a register passes verification, except for
    the 64-byte x86-64 vector registers: their kind is [Float], and no float
    primitive is larger than 16 bytes. The generic primitive of the same size is
    valid for every register. *)
Theorem register_primitives V :
  V ∈ members →
  ∃ T G, primitiveOf V = Ok T ∧ genericOf V = Ok G ∧ getSize V = Ok (PrimitiveType.Size T) ∧
    PrimitiveType.verify T = Ok (negb (isWide V)) ∧ PrimitiveType.verify G = Ok true.
Proof.
  intros HV. pose proof (primitiveChecks_hold V HV) as Hc. unfold primitiveChecks in Hc.
  destruct (primitiveOf V) as [T|], (genericOf V) as [G|], (getSize V) as [n|]; try done.
  destruct (PrimitiveType.verify T) as [b|] eqn:HT, (PrimitiveType.verify G) as [[]|] eqn:HG;
    rewrite ?HT, ?HG in Hc; try done.
  apply andb_true_iff in Hc as [->%Z.eqb_eq ->%eqb_prop]. by exists T, G.
Qed.


(** The state variables of a register cover it, in order and without gaps or
    overlaps, and each of their names is read back to the register and to the
    portion of it that the variable holds. *)
Theorem csv_roundtrip `{StringLaws} V A :
  isUsedInArchitecture V A = Ok true →
  ∃ cs n, getCSVs V = Ok cs ∧ getSize V = Ok n ∧ getCSVCount V = Ok (Z.of_nat (length cs)) ∧
    cs ≠ [] ∧ tiles 0 cs n ∧
    ∀ c, c ∈ cs → fromCSVName (Name c) A = Ok V ∧
      portionFromCSV (Name c) A = Ok (mkPortion V (StartOffset c) (Size c)).
Proof.
  intros Hused. destruct (decide (V ∈ specialRegisters)) as [Hs|Hs]; [|by apply plain_roundTrips].
  unfold specialRegisters in Hs. cbn in Hs. rewrite !elem_of_cons, elem_of_nil in Hs.
  destruct_or? Hs; subst V; try done; destruct A; try (exfalso; clear -Hused; discriminate Hused).
  all: eapply special_roundTrips; [vm_compute; reflexivity|vm_compute; reflexivity|vm_compute; reflexivity| |..].
  all: try done.
  all: repeat constructor; try done.
Qed.

Lemma architecture_registers_witness :
  Architecture.isMember Architecture.mipsel = true ∧
  ∃ Rs, registers Architecture.mipsel = Ok Rs ∧ getCount Architecture.mipsel = Ok (Z.of_nat (length Rs)) ∧
    ∀ V, V ∈ Rs ↔ isUsedInArchitecture V Architecture.mipsel = Ok true.
Proof.
  split; [reflexivity|].
  destruct (architecture_registers Architecture.mipsel eq_refl) as (Rs & HRs & _ & Hn & Hin & _).
  exists Rs. split; [exact HRs|]. split; [exact Hn|exact Hin].
Defined.

Lemma register_primitives_witness :
  zmm0_x86_64 ∈ members ∧
  ∃ T, primitiveOf zmm0_x86_64 = Ok T ∧ PrimitiveType.verify T = Ok false.
Proof.
  assert (zmm0_x86_64 ∈ members) as Hin by (apply (bool_decide_unpack _); vm_compute; exact I).
  split; [exact Hin|].
  destruct (register_primitives zmm0_x86_64 Hin) as (T & G & HT & _ & _ & Hv & _).
  exists T. split; [exact HT|exact Hv].
Defined.

Lemma csv_roundtrip_witness :
  isUsedInArchitecture zmm3_x86_64 Architecture.x86_64 = Ok true ∧
  (∃ cs n, getCSVs zmm3_x86_64 = Ok cs ∧ getSize zmm3_x86_64 = Ok n ∧ tiles 0 cs n ∧
    ∀ c, c ∈ cs → portionFromCSV (Name c) Architecture.x86_64 = Ok (mkPortion zmm3_x86_64 (StartOffset c) (Size c))) ∧
  portionFromCSV "_state_0x2be8" Architecture.x86_64 = Ok (mkPortion zmm3_x86_64 24 8).
Proof.
  split; [reflexivity|]. split; [|vm_compute; reflexivity].
  destruct (csv_roundtrip zmm3_x86_64 Architecture.x86_64 eq_refl) as (cs & n & Hcs & Hn & _ & _ & Ht & Hc).
  exists cs, n. split; [exact Hcs|]. split; [exact Hn|]. split; [exact Ht|].
  intros c Hin. exact (proj2 (Hc c Hin)).
Defined.
