(* ===== verification/ModelTypes.v ===== *)
(** * The type system of the model

    [model::Type] and [model::TypeDefinition] (include/revng/Model/Type.h,
    lib/Model/Type.cpp, lib/Model/TypeDefinition.cpp): types, the definitions
    they refer to, their order, their sizes, and the helpers of
    [CommonTypeMethods] that classify them by unwrapping typedefs. The classes
    are generated from the schema; the fields that play no role here (names and
    comments) are left out. *)

From S2P Require Import Prelude.
From S2P Require OverflowSafeInt Architecture ABI PrimitiveKind PrimitiveType Register.
From stdpp Require Import gmap.
Local Open Scope Z_scope.

(** ** Data *)

(** The kinds of an abstract class are generated from its children, in the order
    of the schema. *)
(* scripts/tuple_tree_generator/schema/schema.py:124-151 TypeDefinitionKind *)
Inductive TypeDefinitionKind : Set :=
  | CABIFunctionKind | EnumKind | RawFunctionKind | TypedefKind | StructKind | UnionKind.

#[global] Instance TypeDefinitionKind_eq_dec : EqDecision TypeDefinitionKind.
Proof. solve_decision. Defined.

Definition kindRaw (K : TypeDefinitionKind) : Z :=
  match K with
  | CABIFunctionKind => 1 | EnumKind => 2 | RawFunctionKind => 3
  | TypedefKind => 4 | StructKind => 5 | UnionKind => 6
  end.

Definition kindFromRaw (z : Z) : option TypeDefinitionKind :=
  List.find (λ K, bool_decide (kindRaw K = z))
    [CABIFunctionKind; EnumKind; RawFunctionKind; TypedefKind; StructKind; UnionKind].

#[global] Instance TypeDefinitionKind_countable : Countable TypeDefinitionKind.
Proof.
  apply (inj_countable kindRaw kindFromRaw). intros K. by destruct K.
Defined.

(** The key of a definition: its ID and its kind. *)
(* include/revng/Model/model-schema.yml:133-156 TypeDefinition::Key *)
Definition Key : Type := Z * TypeDefinitionKind.

(** A possibly empty pointer to a type; a reference to a definition is the key of
    the path, or empty. *)
(* include/revng/Model/model-schema.yml:512-676 Type *)
Inductive UpcastableType : Type :=
  | Empty
  | ArrayType (IsConst : bool) (ElementCount : Z) (ElementType : UpcastableType)
  | DefinedType (IsConst : bool) (Definition_ : option Key)
  | PointerType (IsConst : bool) (PointerSize : Z) (PointeeType : UpcastableType)
  | PrimitiveType (P : PrimitiveType.PrimitiveType).

#[global] Instance UpcastableType_eq_dec : EqDecision UpcastableType.
Proof. solve_decision. Defined.

(* include/revng/Model/model-schema.yml:431-457 StructField *)
Record StructField := mkStructField { Offset : Z; StructFieldType : UpcastableType }.

(* include/revng/Model/model-schema.yml:473-506 UnionField *)
Record UnionField := mkUnionField { UnionFieldIndex : Z; UnionFieldType : UpcastableType }.

(* include/revng/Model/model-schema.yml:211-238 Argument *)
Record Argument := mkArgument { ArgumentIndex : Z; ArgumentType : UpcastableType }.

(* include/revng/Model/model-schema.yml:363-389 NamedTypedRegister *)
Record NamedTypedRegister := mkNTR { Location : Register.Values; NTRType : UpcastableType }.

(** Sequences are the elements of their sorted vectors, in order. *)
(* include/revng/Model/model-schema.yml:133-471 TypeDefinition *)
Inductive TypeDefinition : Type :=
  | CABIFunctionDefinition (ID : Z) (ABI : ABI.Values) (ReturnType : UpcastableType) (Arguments : list Argument)
  | EnumDefinition (ID : Z) (UnderlyingType : UpcastableType) (Entries : list Z)
  | RawFunctionDefinition (ID : Z) (Architecture : Architecture.Values)
      (Arguments ReturnValues : list NamedTypedRegister) (PreservedRegisters : list Register.Values)
      (StackArgumentsType : UpcastableType)
  | TypedefDefinition (ID : Z) (UnderlyingType : UpcastableType)
  | StructDefinition (ID : Z) (Size : Z) (Fields : list StructField)
  | UnionDefinition (ID : Z) (Fields : list UnionField).

Definition ID (D : TypeDefinition) : Z :=
  match D with
  | CABIFunctionDefinition ID _ _ _ | EnumDefinition ID _ _ | RawFunctionDefinition ID _ _ _ _ _
  | TypedefDefinition ID _ | StructDefinition ID _ _ | UnionDefinition ID _ => ID
  end.

Definition Kind (D : TypeDefinition) : TypeDefinitionKind :=
  match D with
  | CABIFunctionDefinition _ _ _ _ => CABIFunctionKind
  | EnumDefinition _ _ _ => EnumKind
  | RawFunctionDefinition _ _ _ _ _ _ => RawFunctionKind
  | TypedefDefinition _ _ => TypedefKind
  | StructDefinition _ _ _ => StructKind
  | UnionDefinition _ _ => UnionKind
  end.

Definition key (D : TypeDefinition) : Key := (ID D, Kind D).

(* include/revng/Model/model-schema.yml:526-528 Type::IsConst *)
Definition IsConst (T : UpcastableType) : bool :=
  match T with
  | Empty => false
  | ArrayType c _ _ | DefinedType c _ | PointerType c _ _ => c
  | PrimitiveType P => PrimitiveType.IsConst P
  end.

Definition isEmpty (T : UpcastableType) : bool := match T with Empty => true | _ => false end.

(** The types a definition mentions; only those that are present. *)
Definition present : list UpcastableType → list UpcastableType := List.filter (λ T, negb (isEmpty T)).

(* include/revng/Model/CABIFunctionDefinition.h:27-50 CABIFunctionDefinition::edges *)
Definition cabiEdges (ReturnType : UpcastableType) (Arguments : list Argument) : list UpcastableType :=
  present (map ArgumentType Arguments) ++ present [ReturnType].

(* include/revng/Model/RawFunctionDefinition.h:54-85 RawFunctionDefinition::edges *)
Definition rawEdges (Arguments ReturnValues : list NamedTypedRegister) (StackArgumentsType : UpcastableType)
    : list UpcastableType :=
  present (map NTRType Arguments) ++ present (map NTRType ReturnValues) ++ present [StackArgumentsType].

(* include/revng/Model/StructDefinition.h:29-46 StructDefinition::edges *)
Definition structEdges (Fields : list StructField) : list UpcastableType := present (map StructFieldType Fields).

(* include/revng/Model/UnionDefinition.h:24-41 UnionDefinition::edges *)
Definition unionEdges (Fields : list UnionField) : list UpcastableType := present (map UnionFieldType Fields).

(* include/revng/Model/TypedefDefinition.h:22-33 TypedefDefinition::edges *)
Definition typedefEdges (UnderlyingType : UpcastableType) : list UpcastableType := present [UnderlyingType].

(* include/revng/Model/EnumDefinition.h:32-43 EnumDefinition::edges *)
Definition enumEdges (UnderlyingType : UpcastableType) : list UpcastableType := present [UnderlyingType].

(* lib/Model/TypeDefinition.cpp:62-72 TypeDefinition::edges *)
Definition edges (D : TypeDefinition) : list UpcastableType :=
  match D with
  | CABIFunctionDefinition _ _ R Args => cabiEdges R Args
  | EnumDefinition _ U _ => enumEdges U
  | RawFunctionDefinition _ _ Args Rets _ StackType => rawEdges Args Rets StackType
  | TypedefDefinition _ U => typedefEdges U
  | StructDefinition _ _ Fs => structEdges Fs
  | UnionDefinition _ Fs => unionEdges Fs
  end.

(** ** References *)

Section types.
  (** [Binary::TypeDefinitions], in the order of its keys. *)
  Context (B : list TypeDefinition).

Definition lookup (k : Key) : option TypeDefinition := List.find (λ D, bool_decide (key D = k)) B.

(** A reference resolves to the definition with its key. *)
(* include/revng/TupleTree/TupleTreeReference.h:135-149 TupleTreeReference::getConst *)
Definition getConst (R : option Key) : option TypeDefinition := R ≫= lookup.

(* include/revng/TupleTree/TupleTreeReference.h:172-181 TupleTreeReference::isValid *)
Definition isValid (R : option Key) : bool := match getConst R with Some _ => true | None => false end.

(* include/revng/Model/DefinedType.h:28-31 DefinedType::unwrap *)
Definition unwrap (R : option Key) : outcome TypeDefinition :=
  revng_assert (isValid R);;
  match getConst R with Some D => Ok D | None => undefined end.

(** ** Common methods

    [CommonTypeMethods] is instantiated on types and on definitions. *)

Inductive Node : Type := TypeNode (T : UpcastableType) | DefinitionNode (D : TypeDefinition).

(** [fuel] bounds the number of typedefs skipped. *)
(* lib/Model/CommonTypeMethods.cpp:325-344 CommonTypeMethods::skipTypedefsImpl *)
Fixpoint skipTypedefsOf (fuel : nat) (V : UpcastableType) : outcome UpcastableType :=
  match V with
  | Empty => undefined
  | DefinedType false R =>
    D ← unwrap R;
    match D with
    | TypedefDefinition _ U =>
      match fuel with O => Fault OutOfFuel | S fuel => skipTypedefsOf fuel U end
    | _ => Ok V
    end
  | _ => Ok V
  end.

(* lib/Model/CommonTypeMethods.cpp:346-354 CommonTypeMethods::skipTypedefs *)
Definition skipTypedefs (fuel : nat) (N : Node) : outcome (option UpcastableType) :=
  match N with
  | TypeNode T => Some <$> skipTypedefsOf fuel T
  | DefinitionNode (TypedefDefinition _ U) => Some <$> skipTypedefsOf fuel U
  | DefinitionNode _ => Ok None
  end.

(* lib/Model/CommonTypeMethods.cpp:357-375 CommonTypeMethods::skipConstAndTypedefsImpl *)
Fixpoint skipConstAndTypedefsOf (fuel : nat) (V : UpcastableType) : outcome UpcastableType :=
  match V with
  | Empty => undefined
  | DefinedType _ R =>
    D ← unwrap R;
    match D with
    | TypedefDefinition _ U =>
      match fuel with O => Fault OutOfFuel | S fuel => skipConstAndTypedefsOf fuel U end
    | _ => Ok V
    end
  | _ => Ok V
  end.

(* lib/Model/CommonTypeMethods.cpp:377-385 CommonTypeMethods::skipConstAndTypedefs *)
Definition skipConstAndTypedefs (fuel : nat) (N : Node) : outcome (option UpcastableType) :=
  match N with
  | TypeNode T => Some <$> skipConstAndTypedefsOf fuel T
  | DefinitionNode (TypedefDefinition _ U) => Some <$> skipConstAndTypedefsOf fuel U
  | DefinitionNode _ => Ok None
  end.

(** The definition of a type, if it has one and the reference resolves. *)
(* lib/Model/CommonTypeMethods.cpp:298-320 CommonTypeMethods::tryGetAsDefinition *)
Definition tryGetAsDefinition (N : Node) : option TypeDefinition :=
  match N with
  | DefinitionNode D => Some D
  | TypeNode (DefinedType _ R) => getConst R
  | TypeNode _ => None
  end.

Definition definitionOf (U : option UpcastableType) (N : Node) : option TypeDefinition :=
  match U with Some T => tryGetAsDefinition (TypeNode T) | None => tryGetAsDefinition N end.

(* lib/Model/CommonTypeMethods.cpp:288-296 CommonTypeMethods::isConst *)
Definition isConst (fuel : nat) (N : Node) : outcome bool :=
  U ← skipTypedefs fuel N;
  Ok match U with Some T => IsConst T | None => false end.

(** The part the three getters of function types share. *)
(* lib/Model/CommonTypeMethods.cpp:38-68 CommonTypeMethods::getPrototype *)
Definition unwrapFunction (fuel : nat) (isa : TypeDefinition → bool) (N : Node) : outcome (option TypeDefinition) :=
  U ← skipTypedefs fuel N;
  Const ← match U with Some T => isConst fuel (TypeNode T) | None => Ok false end;
  if (Const : bool) then Ok None
  else Ok match definitionOf U N with
          | Some D => if isa D then Some D else None
          | None => None
          end.

Definition isaCABI (D : TypeDefinition) : bool := bool_decide (Kind D = CABIFunctionKind).
Definition isaRaw (D : TypeDefinition) : bool := bool_decide (Kind D = RawFunctionKind).
Definition isaStruct (D : TypeDefinition) : bool := bool_decide (Kind D = StructKind).
Definition isaUnion (D : TypeDefinition) : bool := bool_decide (Kind D = UnionKind).
Definition isaEnum (D : TypeDefinition) : bool := bool_decide (Kind D = EnumKind).

(* lib/Model/CommonTypeMethods.cpp:38-68 CommonTypeMethods::getPrototype *)
Definition getPrototype (fuel : nat) : Node → outcome (option TypeDefinition) :=
  unwrapFunction fuel (λ D, isaCABI D || isaRaw D).

(* lib/Model/CommonTypeMethods.cpp:70-94 CommonTypeMethods::getRawFunction *)
Definition getRawFunction (fuel : nat) : Node → outcome (option TypeDefinition) :=
  unwrapFunction fuel isaRaw.

(* lib/Model/CommonTypeMethods.cpp:96-120 CommonTypeMethods::getCABIFunction *)
Definition getCABIFunction (fuel : nat) : Node → outcome (option TypeDefinition) :=
  unwrapFunction fuel isaCABI.

(** The part the getters of structs, unions and enums share. *)
(* lib/Model/CommonTypeMethods.cpp:122-140 CommonTypeMethods::getStruct *)
Definition unwrapDefinition (fuel : nat) (isa : TypeDefinition → bool) (N : Node) : outcome (option TypeDefinition) :=
  U ← skipConstAndTypedefs fuel N;
  Ok match definitionOf U N with
     | Some D => if isa D then Some D else None
     | None => None
     end.

(* lib/Model/CommonTypeMethods.cpp:122-140 CommonTypeMethods::getStruct *)
Definition getStruct (fuel : nat) : Node → outcome (option TypeDefinition) := unwrapDefinition fuel isaStruct.

(* lib/Model/CommonTypeMethods.cpp:142-160 CommonTypeMethods::getUnion *)
Definition getUnion (fuel : nat) : Node → outcome (option TypeDefinition) := unwrapDefinition fuel isaUnion.

(* lib/Model/CommonTypeMethods.cpp:162-180 CommonTypeMethods::getEnum *)
Definition getEnum (fuel : nat) : Node → outcome (option TypeDefinition) := unwrapDefinition fuel isaEnum.

(* lib/Model/CommonTypeMethods.cpp:182-206 CommonTypeMethods::getPrimitive *)
Definition getPrimitive (fuel : nat) (N : Node) : outcome (option PrimitiveType.PrimitiveType) :=
  U ← skipConstAndTypedefs fuel N;
  Ok match U with Some (PrimitiveType P) => Some P | _ => None end.

(* lib/Model/CommonTypeMethods.cpp:208-232 CommonTypeMethods::getArray *)
Definition getArray (fuel : nat) (N : Node) : outcome (option UpcastableType) :=
  U ← skipConstAndTypedefs fuel N;
  Ok match U with Some (ArrayType c n E) => Some (ArrayType c n E) | _ => None end.

(* lib/Model/CommonTypeMethods.cpp:234-258 CommonTypeMethods::getPointer *)
Definition getPointer (fuel : nat) (N : Node) : outcome (option UpcastableType) :=
  U ← skipConstAndTypedefs fuel N;
  Ok match U with Some (PointerType c n P) => Some (PointerType c n P) | _ => None end.

(* lib/Model/CommonTypeMethods.cpp:260-266 CommonTypeMethods::isPrimitive *)
Definition isPrimitive (fuel : nat) (N : Node) (Kind : PrimitiveKind.Values) : outcome bool :=
  P ← getPrimitive fuel N;
  Ok match P with Some P => bool_decide (PrimitiveType.Kind P = Kind) | None => false end.

(* include/revng/Model/CommonTypeMethods.h:209-209 isObject *)
Definition isObject (fuel : nat) (N : Node) : outcome bool :=
  Void ← isPrimitive fuel N PrimitiveKind.Void;
  if (Void : bool) then Ok false
  else P ← getPrototype fuel N; Ok match P with Some _ => false | None => true end.

(* lib/Model/CommonTypeMethods.cpp:268-286 CommonTypeMethods::isScalar *)
Definition isScalar (fuel : nat) (N : Node) : outcome bool :=
  U ← skipConstAndTypedefs fuel N;
  match U, N with
  | None, DefinitionNode D =>
    Object ← isObject fuel N; revng_assert Object;; Ok (isaEnum D)
  | None, TypeNode _ => undefined
  | Some T, _ =>
    Object ← isObject fuel (TypeNode T);
    revng_assert Object;;
    match T with
    | PrimitiveType _ => Ok true
    | DefinedType _ R => D ← unwrap R; Ok (isaEnum D)
    | PointerType _ _ _ => Ok true
    | _ => Ok false
    end
  end.

(** ** Order *)

(* scripts/tuple_tree_generator/schema/schema.py:124-151 TypeKind *)
Definition typeKindRaw (T : UpcastableType) : Z :=
  match T with
  | Empty => 0 | PrimitiveType _ => 1 | PointerType _ _ _ => 2 | DefinedType _ _ => 3 | ArrayType _ _ _ => 4
  end.

Definition keyCompare (k l : Key) : comparison := lex (k.1 ?= l.1) (kindRaw k.2 ?= kindRaw l.2).

(** The nested types are compared with the generated equality, field by field,
    before they are ordered. *)
(* lib/Model/Type.cpp:89-135 Type::operator<=> *)
Fixpoint typeCompare (LHS RHS : UpcastableType) : outcome comparison :=
  if negb (typeKindRaw LHS =? typeKindRaw RHS) then
    if isEmpty LHS || isEmpty RHS then undefined else Ok (typeKindRaw LHS ?= typeKindRaw RHS)
  else
  match LHS, RHS with
  | ArrayType c n E, ArrayType c' n' E' =>
    if negb (n =? n') then Ok (n ?= n')
    else if negb (bool_decide (E = E')) then typeCompare E E'
    else Ok (Bool.compare c c')
  | DefinedType c R, DefinedType c' R' =>
    D ← unwrap R; D' ← unwrap R';
    if negb (bool_decide (key D = key D')) then Ok (keyCompare (key D) (key D'))
    else Ok (Bool.compare c c')
  | PointerType c n P, PointerType c' n' P' =>
    if negb (n =? n') then Ok (n ?= n')
    else if negb (bool_decide (P = P')) then typeCompare P P'
    else Ok (Bool.compare c c')
  | PrimitiveType P, PrimitiveType P' =>
    if negb (bool_decide (PrimitiveType.Kind P = PrimitiveType.Kind P'))
    then Ok (PrimitiveKind.toRaw (PrimitiveType.Kind P) ?= PrimitiveKind.toRaw (PrimitiveType.Kind P'))
    else if negb (PrimitiveType.Size P =? PrimitiveType.Size P')
    then Ok (PrimitiveType.Size P ?= PrimitiveType.Size P')
    else Ok (Bool.compare (PrimitiveType.IsConst P) (PrimitiveType.IsConst P'))
  | _, _ => undefined
  end.

(** No part of the type is missing, and its reference resolves. *)
Fixpoint complete (T : UpcastableType) : bool :=
  match T with
  | Empty => false
  | ArrayType _ _ E => complete E
  | DefinedType _ R => isValid R
  | PointerType _ _ P => complete P
  | PrimitiveType _ => true
  end.
End types.

(** ** Facts *)

Section facts.
  Context (B : list TypeDefinition).

Lemma lookup_key k D : lookup B k = Some D → key D = k ∧ D ∈ B.
Proof.
  unfold lookup. intros HD. apply find_some in HD as [Hin Hk].
  apply bool_decide_eq_true in Hk. split; [done|]. by apply list_elem_of_In.
Qed.

Lemma unwrap_valid R :
  isValid B R = true → ∃ k D, R = Some k ∧ lookup B k = Some D ∧ key D = k ∧ unwrap B R = Ok D.
Proof.
  unfold unwrap, isValid, getConst. destruct R as [k|]; simpl; [|done].
  destruct (lookup B k) as [D|] eqn:HD; [|done]. intros _. exists k, D.
  by destruct (lookup_key k D HD).
Qed.

Lemma unwrap_lookup R D : unwrap B R = Ok D → ∃ k, R = Some k ∧ lookup B k = Some D ∧ key D = k.
Proof.
  intros HD. assert (isValid B R = true) as Hv by by apply assert_inv in HD as [? _].
  destruct (unwrap_valid R Hv) as (k & D' & -> & Hl & Hk & HD'). exists k.
  assert (D' = D) as -> by congruence. done.
Qed.

Lemma present_elem T l : T ∈ present l ↔ T ∈ l ∧ T ≠ Empty.
Proof.
  unfold present. rewrite !list_elem_of_In, filter_In, negb_true_iff. destruct T; simpl; naive_solver.
Qed.

(** The order, on complete types. *)
Fixpoint pureCompare (a b : UpcastableType) : comparison :=
  lex (typeKindRaw a ?= typeKindRaw b)
  match a, b with
  | ArrayType c n E, ArrayType c' n' E' => lex (n ?= n') (lex (pureCompare E E') (Bool.compare c c'))
  | DefinedType c (Some k), DefinedType c' (Some k') => lex (keyCompare k k') (Bool.compare c c')
  | PointerType c n E, PointerType c' n' E' => lex (n ?= n') (lex (pureCompare E E') (Bool.compare c c'))
  | PrimitiveType P, PrimitiveType P' =>
    lex (PrimitiveKind.toRaw (PrimitiveType.Kind P) ?= PrimitiveKind.toRaw (PrimitiveType.Kind P'))
      (lex (PrimitiveType.Size P ?= PrimitiveType.Size P')
         (Bool.compare (PrimitiveType.IsConst P) (PrimitiveType.IsConst P')))
  | _, _ => Eq
  end.

Lemma kindRaw_inj K L : kindRaw K = kindRaw L → K = L.
Proof. by destruct K, L. Qed.

Lemma keyCompare_Eq k l : keyCompare k l = Eq ↔ k = l.
Proof.
  unfold keyCompare. rewrite lex_Eq, !Z.compare_eq_iff. destruct k as [i K], l as [j L]. simpl.
  split; [intros [-> ->%kindRaw_inj]; done|by intros [= -> ->]].
Qed.

Lemma boolCompare_Eq a b : Bool.compare a b = Eq ↔ a = b.
Proof. by destruct a, b. Qed.

Lemma boolCompare_opp a b : Bool.compare a b = CompOpp (Bool.compare b a).
Proof. by destruct a, b. Qed.

Lemma pureCompare_Eq a b : complete B a = true → complete B b = true → pureCompare a b = Eq ↔ a = b.
Proof.
  revert b. induction a as [|c n E IH|c R|c n E IH|P]; intros b Ha Hb; [done|..];
    (destruct b as [|c' n' E'|c' R'|c' n' E'|P']; [done|..]); simpl in *; try done.
  - rewrite !lex_Eq, IH, Z.compare_eq_iff, boolCompare_Eq by done. naive_solver.
  - destruct (unwrap_valid R Ha) as (k & _ & -> & _), (unwrap_valid R' Hb) as (k' & _ & -> & _).
    simpl. rewrite lex_Eq, keyCompare_Eq, boolCompare_Eq. naive_solver.
  - rewrite !lex_Eq, IH, Z.compare_eq_iff, boolCompare_Eq by done. naive_solver.
  - rewrite !lex_Eq, !Z.compare_eq_iff, boolCompare_Eq. destruct P, P'. simpl.
    split; [by intros (->%(inj PrimitiveKind.toRaw) & -> & ->)|by intros [= -> -> ->]].
Qed.

Lemma pureCompare_opp a b : pureCompare a b = CompOpp (pureCompare b a).
Proof.
  revert b. induction a as [|c n E IH|c R|c n E IH|P]; intros b; destruct b as [|c' n' E'|c' R'|c' n' E'|P'];
    simpl; try done.
  - repeat apply lex_opp; auto using Z.compare_antisym, boolCompare_opp.
  - destruct R as [k|], R' as [k'|]; try done. unfold keyCompare.
    repeat apply lex_opp; auto using Z.compare_antisym, boolCompare_opp.
  - repeat apply lex_opp; auto using Z.compare_antisym, boolCompare_opp.
  - repeat apply lex_opp; auto using Z.compare_antisym, boolCompare_opp.
Qed.

(** What makes a three-way comparison an order. *)
Definition transitiveAt {A} (f : A → A → comparison) (a b c : A) : Prop :=
  (f a b = Eq → f b c = Eq → f a c = Eq) ∧ (f a b = Lt → f b c = Lt → f a c = Lt) ∧
  (f a b = Eq → f b c = Lt → f a c = Lt) ∧ (f a b = Lt → f b c = Eq → f a c = Lt).

Lemma Z_transitive a b c : transitiveAt Z.compare a b c.
Proof. unfold transitiveAt. rewrite !Z.compare_eq_iff, !Z.compare_lt_iff. lia. Qed.

Lemma bool_transitive a b c : transitiveAt Bool.compare a b c.
Proof. unfold transitiveAt. destruct a, b, c; naive_solver. Qed.

Lemma lex_transitive (a1 a2 a3 b1 b2 b3 : comparison) :
  (a1 = Eq → a2 = Eq → a3 = Eq) ∧ (a1 = Lt → a2 = Lt → a3 = Lt) ∧
  (a1 = Eq → a2 = Lt → a3 = Lt) ∧ (a1 = Lt → a2 = Eq → a3 = Lt) →
  (b1 = Eq → b2 = Eq → b3 = Eq) ∧ (b1 = Lt → b2 = Lt → b3 = Lt) ∧
  (b1 = Eq → b2 = Lt → b3 = Lt) ∧ (b1 = Lt → b2 = Eq → b3 = Lt) →
  (lex a1 b1 = Eq → lex a2 b2 = Eq → lex a3 b3 = Eq) ∧ (lex a1 b1 = Lt → lex a2 b2 = Lt → lex a3 b3 = Lt) ∧
  (lex a1 b1 = Eq → lex a2 b2 = Lt → lex a3 b3 = Lt) ∧ (lex a1 b1 = Lt → lex a2 b2 = Eq → lex a3 b3 = Lt).
Proof. rewrite !lex_Eq, !lex_Lt. naive_solver. Qed.

Lemma keyCompare_transitive k l m : transitiveAt keyCompare k l m.
Proof. apply lex_transitive; apply Z_transitive. Qed.

Lemma pureCompare_transitive a b c :
  complete B a = true → complete B b = true → complete B c = true → transitiveAt pureCompare a b c.
Proof.
  revert b c. induction a as [|c n E IH|c R|c n E IH|P]; intros b d Ha Hb Hd; [done|..];
    (destruct b as [|c' n' E'|c' R'|c' n' E'|P']; [done|..]);
    (destruct d as [|c'' n'' E''|c'' R''|c'' n'' E''|P'']; [done|..]);
    try (unfold transitiveAt; simpl; done).
  - apply lex_transitive; [apply Z_transitive|]. apply lex_transitive; [apply Z_transitive|].
    apply lex_transitive; [by apply IH|apply bool_transitive].
  - destruct (unwrap_valid R Ha) as (k & _ & -> & _), (unwrap_valid R' Hb) as (k' & _ & -> & _),
      (unwrap_valid R'' Hd) as (k'' & _ & -> & _).
    apply lex_transitive; [apply Z_transitive|].
    apply lex_transitive; [apply keyCompare_transitive|apply bool_transitive].
  - apply lex_transitive; [apply Z_transitive|]. apply lex_transitive; [apply Z_transitive|].
    apply lex_transitive; [by apply IH|apply bool_transitive].
  - apply lex_transitive; [apply Z_transitive|]. apply lex_transitive; [apply Z_transitive|].
    apply lex_transitive; [apply Z_transitive|apply bool_transitive].
Qed.

(** The comparison of the code is the order. *)
Lemma typeCompare_pure a b :
  complete B a = true → complete B b = true → typeCompare B a b = Ok (pureCompare a b).
Proof.
  revert b. induction a as [|c n E IH|c R|c n E IH|P]; intros b Ha Hb; [done|..];
    (destruct b as [|c' n' E'|c' R'|c' n' E'|P']; [done|..]); try done; simpl in Ha, Hb; simpl.
  - destruct (Z.eqb_spec n n') as [->|Hn]; simpl; [|by destruct (Z.compare_spec n n')].
    rewrite Z.compare_refl. simpl. case_bool_decide as HE; simpl.
    + subst E'. by rewrite (proj2 (pureCompare_Eq E E Ha Hb)).
    + rewrite IH by done. pose proof (pureCompare_Eq E E' Ha Hb).
      destruct (pureCompare E E'); naive_solver.
  - destruct (unwrap_valid R Ha) as (k & D & -> & _ & HD & ->),
      (unwrap_valid R' Hb) as (k' & D' & -> & _ & HD' & ->). simpl. rewrite HD, HD'.
    pose proof (keyCompare_Eq k k'). case_bool_decide as Hk; simpl.
    + by rewrite (proj2 (keyCompare_Eq k k') Hk).
    + destruct (keyCompare k k'); naive_solver.
  - destruct (Z.eqb_spec n n') as [->|Hn]; simpl; [|by destruct (Z.compare_spec n n')].
    rewrite Z.compare_refl. simpl. case_bool_decide as HE; simpl.
    + subst E'. by rewrite (proj2 (pureCompare_Eq E E Ha Hb)).
    + rewrite IH by done. pose proof (pureCompare_Eq E E' Ha Hb).
      destruct (pureCompare E E'); naive_solver.
  - destruct P as [c K n], P' as [c' K' n']. simpl. case_bool_decide as HK; simpl.
    + subst K'. rewrite Z.compare_refl. simpl. destruct (Z.eqb_spec n n') as [->|Hn]; simpl.
      * by rewrite Z.compare_refl.
      * by destruct (Z.compare_spec n n').
    + destruct (Z.compare_spec (PrimitiveKind.toRaw K) (PrimitiveKind.toRaw K')) as [?%(inj _)| |]; done.
Qed.
End facts.

(** ** Properties *)

(** The comparison of types is a strict total order on complete types: it
    never fails on them, is [Eq] exactly on equal types, is antisymmetric and
    transitive. *)
Theorem types_totally_ordered B a b c :
  complete B a = true → complete B b = true → complete B c = true →
  ∃ o, typeCompare B a b = Ok o ∧ typeCompare B b a = Ok (CompOpp o) ∧ (o = Eq ↔ a = b) ∧
    (o = Lt → typeCompare B b c = Ok Lt → typeCompare B a c = Ok Lt).
Proof.
  intros Ha Hb Hc. exists (pureCompare a b). rewrite !typeCompare_pure by done.
  split; [done|]. split; [by rewrite (pureCompare_opp b a)|].
  split; [by apply (pureCompare_Eq B)|].
  intros Hab [= Hbc]. f_equal.
  by apply (proj1 (proj2 (pureCompare_transitive B a b c Ha Hb Hc))).
Qed.

Lemma types_totally_ordered_witness :
  complete [] (ArrayType false 2 (PrimitiveType (PrimitiveType.make PrimitiveKind.Signed 4))) = true ∧
  complete [] (PointerType true 8 (PrimitiveType PrimitiveType.makeVoid)) = true ∧
  ∃ o, typeCompare [] (ArrayType false 2 (PrimitiveType (PrimitiveType.make PrimitiveKind.Signed 4)))
         (PointerType true 8 (PrimitiveType PrimitiveType.makeVoid)) = Ok o ∧
       typeCompare [] (PointerType true 8 (PrimitiveType PrimitiveType.makeVoid))
         (ArrayType false 2 (PrimitiveType (PrimitiveType.make PrimitiveKind.Signed 4))) = Ok (CompOpp o).
Proof.
  split; [reflexivity|]. split; [reflexivity|].
  destruct (types_totally_ordered []
    (ArrayType false 2 (PrimitiveType (PrimitiveType.make PrimitiveKind.Signed 4)))
    (PointerType true 8 (PrimitiveType PrimitiveType.makeVoid))
    (PrimitiveType PrimitiveType.makeVoid) eq_refl eq_refl eq_refl) as (o & H1 & H2 & _).
  exists o. split; [exact H1|exact H2].
Defined.
