(* ===== verification/ModelSize.v ===== *)
(** * Sizes of types

    [trySize] and [size] of types and of their definitions (lib/Model/Type.cpp,
    lib/Model/TypeDefinition.cpp, lib/Model/CommonTypeMethods.cpp), with the
    cache of [VerifyHelper] (include/revng/Model/VerifyHelper.h) they thread. *)

From S2P Require Import Prelude.
From stdpp Require Import gmap.
From S2P Require PrimitiveKind PrimitiveType.
From S2P Require Import ModelTypes.
Local Open Scope Z_scope.

(** ** The verification context *)

(* include/revng/Model/VerifyHelper.h:71-80 VerifyHelper *)
Record VerifyHelper := mkVH {
  VerifiedCache : gset Key;
  SizeCache : gmap Key Z;
  InProgress : gset Key;
  AssertOnFail : bool;
}.

(* include/revng/Model/VerifyHelper.h:83-84 VerifyHelper::VerifyHelper *)
Definition freshVH (AssertOnFail : bool) : VerifyHelper := mkVH ∅ ∅ ∅ AssertOnFail.

(** Computations that thread the context: a state monad over [outcome]. The
    suspension of access tracking does not affect their results. *)
Definition M (A : Type) : Type := VerifyHelper → outcome (VerifyHelper * A).

#[global] Instance M_ret : MRet M := λ A a VH, Ok (VH, a).
#[global] Instance M_bind : MBind M := λ A B f m VH, '(VH, a) ← m VH; f a VH.

(** A computation that does not use the context. *)
Definition lift {A} (m : outcome A) : M A := λ VH, a ← m; Ok (VH, a).

Lemma M_bind_Ok {A B} (f : A → M B) (m : M A) VH VH' b :
  (m ≫= f) VH = Ok (VH', b) ↔ ∃ VH1 a, m VH = Ok (VH1, a) ∧ f a VH1 = Ok (VH', b).
Proof.
  unfold mbind, M_bind. destruct (m VH) as [[VH1 a]|] eqn:Hm; simpl; [|naive_solver].
  split; [by exists VH1, a|]. intros (VH2 & a' & [= <- <-] & Hf). done.
Qed.

Lemma M_bind_run {A B} (f : A → M B) (m : M A) VH VH1 a : m VH = Ok (VH1, a) → (m ≫= f) VH = f a VH1.
Proof. unfold mbind, M_bind. by intros ->. Qed.

Lemma M_bind_Fault {A B} (f : A → M B) (m : M A) VH e : m VH = Fault e → (m ≫= f) VH = Fault e.
Proof. unfold mbind, M_bind. by intros ->. Qed.

Lemma lift_Ok {A} (m : outcome A) VH VH' a : lift m VH = Ok (VH', a) ↔ m = Ok a ∧ VH' = VH.
Proof. unfold lift. destruct m; simpl; naive_solver. Qed.

Lemma lift_Fault {A} (m : outcome A) VH e : m = Fault e → lift m VH = Fault e.
Proof. by intros ->. Qed.

(* include/revng/Model/VerifyHelper.h:135-141 VerifyHelper::size *)
Definition cachedSize (k : Key) : M (option Z) := λ VH, Ok (VH, SizeCache VH !! k).

(* include/revng/Model/VerifyHelper.h:129-133 VerifyHelper::setSize *)
Definition setSize (k : Key) (Size : Z) : M Z := λ VH,
  revng_assert (negb (bool_decide (is_Some (SizeCache VH !! k))));;
  Ok (mkVH (VerifiedCache VH) (<[k := Size]> (SizeCache VH)) (InProgress VH) (AssertOnFail VH), Size).

Section sizes.
  Context (B : list TypeDefinition).

(** [trySize] of a type, given [trySize] of the definitions. *)
(* lib/Model/Type.cpp:13-36 Type::trySize *)
Fixpoint trySizeOf (trySizeDefinition : TypeDefinition → M (option Z)) (T : UpcastableType) : M (option Z) :=
  match T with
  | Empty => λ _, undefined
  | ArrayType _ ElementCount ElementType =>
    ElementSize ← trySizeOf trySizeDefinition ElementType;
    mret match ElementSize with Some s => Some (wrap 64 (ElementCount * s)) | None => None end
  | DefinedType _ R => D ← lift (unwrap B R); trySizeDefinition D
  | PointerType _ PointerSize _ => mret (Some PointerSize)
  | PrimitiveType P =>
    mret (if bool_decide (PrimitiveType.Kind P ≠ PrimitiveKind.Void) then Some (PrimitiveType.Size P) else Some 0)
  end.

(** The loop over the fields of a union. *)
(* lib/Model/TypeDefinition.cpp:34-39 TypeDefinition::trySize *)
Fixpoint unionSize (trySizeType : UpcastableType → M (option Z)) (Fields : list UnionField) (Result : Z) : M (option Z) :=
  match Fields with
  | [] => mret (Some Result)
  | Field :: Fields =>
    Size ← trySizeType (UnionFieldType Field);
    match Size with
    | Some s => unionSize trySizeType Fields (Z.max Result s)
    | None => mret None
    end
  end.

(** [fuel] bounds the depth of the recursion through definitions. *)
(* lib/Model/TypeDefinition.cpp:12-49 TypeDefinition::trySize *)
Fixpoint trySizeDefinition (fuel : nat) (D : TypeDefinition) : M (option Z) :=
  match fuel with
  | O => λ _, Fault OutOfFuel
  | S fuel =>
    let trySizeType := trySizeOf (trySizeDefinition fuel) in
    MaybeSize ← cachedSize (key D);
    match MaybeSize with
    | Some s => mret (Some s)
    | None =>
      match D with
      | CABIFunctionDefinition _ _ _ _ | RawFunctionDefinition _ _ _ _ _ _ => mret (Some 0)
      | _ =>
        Result ← match D with
                 | EnumDefinition _ U _ | TypedefDefinition _ U => trySizeType U
                 | StructDefinition _ Size _ => mret (Some Size)
                 | UnionDefinition _ Fields => unionSize trySizeType Fields 0
                 | _ => mret (Some 0)
                 end;
        match Result with
        | None => mret None
        | Some s => s ← setSize (key D) s; mret (Some s)
        end
      end
    end
  end.

(* lib/Model/Type.cpp:13-36 Type::trySize *)
Definition trySize (fuel : nat) : UpcastableType → M (option Z) := trySizeOf (trySizeDefinition fuel).

(** The part [CommonTypeMethods::size] adds, on the result of [trySize]. *)
(* lib/Model/CommonTypeMethods.cpp:23-32 CommonTypeMethods::size *)
Definition checkedSize (MaybeSize : option Z) : outcome (option Z) :=
  match MaybeSize with
  | None => Fault AssertionFailed
  | Some s => Ok (if s =? 0 then None else Some s)
  end.

(* lib/Model/CommonTypeMethods.cpp:23-32 CommonTypeMethods::size *)
Definition size (fuel : nat) (T : UpcastableType) : M (option Z) :=
  MaybeSize ← trySize fuel T; lift (checkedSize MaybeSize).

(* lib/Model/CommonTypeMethods.cpp:23-32 CommonTypeMethods::size *)
Definition sizeDefinition (fuel : nat) (D : TypeDefinition) : M (option Z) :=
  MaybeSize ← trySizeDefinition fuel D; lift (checkedSize MaybeSize).

(** ** What a size is

    The reference the cached computation is compared with: the equations of the
    code without the cache, to a bounded depth of definitions. *)

Fixpoint typeSizeWith (definitionSize : TypeDefinition → option Z) (T : UpcastableType) : option Z :=
  match T with
  | Empty => None
  | ArrayType _ n E => s ← typeSizeWith definitionSize E; Some (wrap 64 (n * s))
  | DefinedType _ R => D ← getConst B R; definitionSize D
  | PointerType _ n _ => Some n
  | PrimitiveType P =>
    Some (if bool_decide (PrimitiveType.Kind P ≠ PrimitiveKind.Void) then PrimitiveType.Size P else 0)
  end.

Fixpoint unionSizeWith (typeSize : UpcastableType → option Z) (Fields : list UnionField) (r : Z) : option Z :=
  match Fields with
  | [] => Some r
  | f :: Fields => s ← typeSize (UnionFieldType f); unionSizeWith typeSize Fields (Z.max r s)
  end.

Fixpoint definitionSizeAt (depth : nat) (D : TypeDefinition) : option Z :=
  match depth with
  | O => None
  | S depth =>
    let typeSize := typeSizeWith (definitionSizeAt depth) in
    match D with
    | CABIFunctionDefinition _ _ _ _ | RawFunctionDefinition _ _ _ _ _ _ => Some 0
    | EnumDefinition _ U _ | TypedefDefinition _ U => typeSize U
    | StructDefinition _ s _ => Some s
    | UnionDefinition _ Fs => unionSizeWith typeSize Fs 0
    end
  end.

Definition typeSizeAt (depth : nat) : UpcastableType → option Z := typeSizeWith (definitionSizeAt depth).

(** A type whose size depends on itself has none. *)
Definition typeSize (T : UpcastableType) (s : Z) : Prop := ∃ depth, typeSizeAt depth T = Some s.
Definition definitionSize (D : TypeDefinition) (s : Z) : Prop := ∃ depth, definitionSizeAt depth D = Some s.

(** The cache only holds sizes. *)
Definition cacheOk (VH : VerifyHelper) : Prop :=
  ∀ k s, SizeCache VH !! k = Some s → ∃ D, lookup B k = Some D ∧ definitionSize D s.

(** [VH'] is [VH] with more sizes in its cache, of definitions in [P]. *)
Definition cacheGrows (P : TypeDefinition → Prop) (VH VH' : VerifyHelper) : Prop :=
  VerifiedCache VH' = VerifiedCache VH ∧ InProgress VH' = InProgress VH ∧
  AssertOnFail VH' = AssertOnFail VH ∧ SizeCache VH ⊆ SizeCache VH' ∧
  ∀ k, SizeCache VH !! k = None → is_Some (SizeCache VH' !! k) → ∃ D, lookup B k = Some D ∧ P D.
End sizes.

(** ** Facts *)

Section facts.
  Context (B : list TypeDefinition).

(** The keys of the definitions are pairwise distinct. *)
Definition keysUnique : Prop := ∀ D, D ∈ B → lookup B (key D) = Some D.

Lemma typeSizeWith_mono (f g : TypeDefinition → option Z) T s :
  (∀ D s, f D = Some s → g D = Some s) → typeSizeWith B f T = Some s → typeSizeWith B g T = Some s.
Proof.
  intros Hfg. revert s. induction T as [|c n E IH|c R|c n E IH|P]; simpl; intros s Hs; try done.
  - destruct (typeSizeWith B f E) as [t|]; [|done]. by rewrite (IH t eq_refl).
  - destruct (getConst B R); [|done]. by apply Hfg.
Qed.

Lemma unionSizeWith_mono (f g : UpcastableType → option Z) Fs r s :
  (∀ T s, f T = Some s → g T = Some s) → unionSizeWith f Fs r = Some s → unionSizeWith g Fs r = Some s.
Proof.
  intros Hfg. revert r. induction Fs as [|F Fs IH]; simpl; intros r; [done|].
  destruct (f (UnionFieldType F)) as [t|] eqn:Ht; [|done]. rewrite (Hfg _ _ Ht). simpl. apply IH.
Qed.

Lemma definitionSizeAt_S d D s : definitionSizeAt B d D = Some s → definitionSizeAt B (S d) D = Some s.
Proof.
  revert D s. induction d as [|d IH]; [done|]. intros D s HD.
  destruct D; simpl in HD |- *; try done; eauto using typeSizeWith_mono.
  eapply unionSizeWith_mono; [|exact HD]. intros T t. by apply typeSizeWith_mono.
Qed.

Lemma definitionSizeAt_mono d e D s :
  (d ≤ e)%nat → definitionSizeAt B d D = Some s → definitionSizeAt B e D = Some s.
Proof. induction 1; [done|]. eauto using definitionSizeAt_S. Qed.

Lemma typeSizeAt_mono d e T s : (d ≤ e)%nat → typeSizeAt B d T = Some s → typeSizeAt B e T = Some s.
Proof. intros Hle. apply typeSizeWith_mono. intros D t. by apply definitionSizeAt_mono. Qed.

(** A definition and a type have at most one size. *)
Lemma definitionSize_unique D s t : definitionSize B D s → definitionSize B D t → s = t.
Proof.
  intros [d Hd] [e He]. apply (definitionSizeAt_mono d (d + e)) in Hd; [|lia].
  apply (definitionSizeAt_mono e (d + e)) in He; [|lia]. congruence.
Qed.

Lemma typeSize_unique T s t : typeSize B T s → typeSize B T t → s = t.
Proof.
  intros [d Hd] [e He]. apply (typeSizeAt_mono d (d + e)) in Hd; [|lia].
  apply (typeSizeAt_mono e (d + e)) in He; [|lia]. congruence.
Qed.

Lemma cacheGrows_refl P VH : cacheGrows B P VH VH.
Proof. split_and!; try done. intros k Hk [s Hs]. congruence. Qed.

Lemma cacheGrows_trans P V1 V2 V3 : cacheGrows B P V1 V2 → cacheGrows B P V2 V3 → cacheGrows B P V1 V3.
Proof.
  intros (?&?&?& Hs12 & Hn12) (?&?&?& Hs23 & Hn23). split_and!; try congruence; [by etrans|].
  intros k Hk Hk3. destruct (SizeCache V2 !! k) as [s|] eqn:Hk2; [|eauto].
  apply Hn12; [done|]. by rewrite Hk2.
Qed.

Lemma cacheGrows_weaken (P Q : TypeDefinition → Prop) VH VH' :
  (∀ D, P D → Q D) → cacheGrows B P VH VH' → cacheGrows B Q VH VH'.
Proof. intros HPQ (?&?&?&?& Hn). split_and!; try done. intros k Hk Hk'. destruct (Hn k Hk Hk') as (D & ? & ?). eauto. Qed.

(** *** The cached computation returns sizes *)

(** A successful computation returned the right size and kept the cache right. *)
Definition sizesRightly (run : M (option Z)) (is_size : Z → Prop) : Prop :=
  ∀ VH VH' r, cacheOk B VH → run VH = Ok (VH', r) →
    ∃ s, r = Some s ∧ is_size s ∧ cacheOk B VH' ∧ cacheGrows B (λ _, True) VH VH'.

Lemma sizesRightly_ret s (P : Z → Prop) : P s → sizesRightly (mret (Some s)) P.
Proof. intros HP VH VH' r Hc [= <- <-]. exists s. by eauto using cacheGrows_refl. Qed.

Lemma sizesRightly_bind run P (f : option Z → M (option Z)) Q :
  sizesRightly run P → (∀ s, P s → sizesRightly (f (Some s)) Q) → sizesRightly (run ≫= f) Q.
Proof.
  intros Hrun Hf VH VH' r Hc (VH1 & r1 & H1 & H2)%M_bind_Ok.
  destruct (Hrun _ _ _ Hc H1) as (s & -> & HP & Hc1 & Hg1).
  destruct (Hf s HP _ _ _ Hc1 H2) as (t & -> & HQ & Hc2 & Hg2).
  exists t. by eauto using cacheGrows_trans.
Qed.

Lemma unionSizeWith_extend d Fs f r s t :
  typeSize B (UnionFieldType f) s → unionSizeWith (typeSizeAt B d) Fs (Z.max r s) = Some t →
  ∃ e, unionSizeWith (typeSizeAt B e) (f :: Fs) r = Some t.
Proof.
  intros [e He] Hd. exists (d + e)%nat. simpl. rewrite (typeSizeAt_mono e (d + e) _ s) by (done || lia). simpl.
  eapply unionSizeWith_mono; [|exact Hd]. intros T u. apply typeSizeAt_mono. lia.
Qed.

Section sound.
  Context (runDefinition : TypeDefinition → M (option Z)).
  Hypothesis runDefinition_sound : ∀ D, lookup B (key D) = Some D → sizesRightly (runDefinition D) (definitionSize B D).

Lemma trySizeOf_sound T : sizesRightly (trySizeOf B runDefinition T) (typeSize B T).
Proof using Type*.
  induction T as [|c n E IH|c R|c n E _|P]; simpl.
  - intros VH VH' r _ [=].
  - eapply sizesRightly_bind; [exact IH|]. intros s [d Hd]. apply sizesRightly_ret. exists d.
    unfold typeSizeAt in *. simpl. by rewrite Hd.
  - intros VH VH' r Hc (VH1 & D & [HD ->]%lift_Ok & Hrun)%M_bind_Ok.
    unfold unwrap in HD. destruct (isValid B R); [|done]. simpl in HD.
    destruct (getConst B R) as [D'|] eqn:HR; [|done]. injection HD as ->.
    destruct R as [k|]; [|done]. simpl in HR. destruct (lookup_key B k D HR) as [Hk _].
    rewrite <-Hk in HR.
    destruct (runDefinition_sound D HR _ _ _ Hc Hrun) as (s & -> & [d Hd] & ? & ?).
    exists s. split; [done|]. split; [|done]. exists d. unfold typeSizeAt. simpl. by rewrite <-Hk, HR.
  - apply sizesRightly_ret. by exists O.
  - unfold mret, M_ret. case_bool_decide as HP; apply sizesRightly_ret; exists O;
      unfold typeSizeAt; simpl; by case_bool_decide.
Qed.

Lemma unionSize_sound Fs r :
  sizesRightly (unionSize (trySizeOf B runDefinition) Fs r)
    (λ t, ∃ d, unionSizeWith (typeSizeAt B d) Fs r = Some t).
Proof using Type*.
  revert r. induction Fs as [|f Fs IH]; intros r; simpl.
  - apply sizesRightly_ret. by exists O.
  - eapply sizesRightly_bind; [apply trySizeOf_sound|]. intros s Hs VH VH' t Hc Hrun.
    destruct (IH _ _ _ _ Hc Hrun) as (u & -> & [d Hd] & ? & ?). exists u. split; [done|]. split; [|done].
    by eapply unionSizeWith_extend.
Qed.
End sound.

Lemma cachedSize_Ok k VH VH' r : cachedSize k VH = Ok (VH', r) → VH' = VH ∧ r = SizeCache VH !! k.
Proof. by intros [= <- <-]. Qed.

Lemma setSize_Ok k s VH VH' r :
  setSize k s VH = Ok (VH', r) →
  r = s ∧ SizeCache VH !! k = None ∧
  VH' = mkVH (VerifiedCache VH) (<[k := s]> (SizeCache VH)) (InProgress VH) (AssertOnFail VH).
Proof.
  unfold setSize. case_bool_decide as Hk; simpl; [done|]. intros [= <- <-].
  split_and!; try done. by apply eq_None_not_Some.
Qed.

(** Recording the size of a definition. *)
Lemma setSize_right D s VH :
  lookup B (key D) = Some D → definitionSize B D s → cacheOk B VH → SizeCache VH !! key D = None →
  let VH' := mkVH (VerifiedCache VH) (<[key D := s]> (SizeCache VH)) (InProgress VH) (AssertOnFail VH) in
  cacheOk B VH' ∧ cacheGrows B (λ E, E = D) VH VH'.
Proof.
  intros HD Hs Hc Hk VH'. split; [|split_and!; try done].
  - intros k t. simpl. destruct (decide (k = key D)) as [->|Hne].
    + rewrite lookup_insert_eq. intros [= <-]. by exists D.
    + rewrite lookup_insert_ne by done. apply Hc.
  - simpl. by apply insert_subseteq.
  - intros k Hk1 Hk2. simpl in Hk2. destruct (decide (k = key D)) as [->|Hne].
    + by exists D.
    + rewrite lookup_insert_ne, Hk1 in Hk2 by done. by destruct Hk2.
Qed.

Lemma trySizeDefinition_sound fuel D :
  lookup B (key D) = Some D → sizesRightly (trySizeDefinition B fuel D) (definitionSize B D).
Proof.
  revert D. induction fuel as [|fuel IH]; intros D HD; [by intros VH VH' r _ [=]|].
  intros VH VH' r Hc Hrun. cbn [trySizeDefinition] in Hrun.
  apply M_bind_Ok in Hrun as (VH1 & c & [-> ->]%cachedSize_Ok & Hrun).
  destruct (SizeCache VH !! key D) as [s|] eqn:Hk.
  { injection Hrun as <- <-. destruct (Hc _ _ Hk) as (D' & HD' & Hs). exists s.
    assert (D' = D) as -> by congruence. by eauto using cacheGrows_refl. }
  assert (∀ run, sizesRightly run (definitionSize B D) →
    (Result ← run; match Result with None => mret None | Some s => s ← setSize (key D) s; mret (Some s) end) VH
      = Ok (VH', r) →
    ∃ s, r = Some s ∧ definitionSize B D s ∧ cacheOk B VH' ∧ cacheGrows B (λ _, True) VH VH') as Hset.
  { intros run Hr (VH1 & r1 & H1 & H2)%M_bind_Ok.
    destruct (Hr _ _ _ Hc H1) as (s & -> & Hs & Hc1 & Hg1).
    apply M_bind_Ok in H2 as (VH2 & s2 & (-> & Hn & ->)%setSize_Ok & [= <- <-]).
    destruct (setSize_right D s VH1 HD Hs Hc1 Hn) as [Hc2 Hg2]. exists s. split; [done|]. split; [done|].
    split; [done|]. eapply cacheGrows_trans; [done|]. by eapply cacheGrows_weaken, Hg2. }
  pose proof (trySizeOf_sound (trySizeDefinition B fuel) IH) as HT.
  destruct D as [i a R Args|i U Es|i a Args Rets Ps St|i U|i n Fs|i Fs].
  1, 3: injection Hrun as <- <-; exists 0; split; [done|]; split; [by exists 1%nat|];
    by eauto using cacheGrows_refl.
  - eapply Hset, Hrun. intros V V' t HcV Ht. destruct (HT U _ _ _ HcV Ht) as (s & -> & [d Hd] & ?).
    exists s. split; [done|]. split; [by exists (S d)|done].
  - eapply Hset, Hrun. intros V V' t HcV Ht. destruct (HT U _ _ _ HcV Ht) as (s & -> & [d Hd] & ?).
    exists s. split; [done|]. split; [by exists (S d)|done].
  - eapply Hset, Hrun. apply sizesRightly_ret. by exists 1%nat.
  - eapply Hset, Hrun. intros V V' t HcV Ht.
    destruct (unionSize_sound (trySizeDefinition B fuel) IH Fs 0 _ _ _ HcV Ht) as (s & -> & [d Hd] & ?).
    exists s. split; [done|]. split; [by exists (S d)|done].
Qed.

Lemma trySize_sound fuel T : sizesRightly (trySize B fuel T) (typeSize B T).
Proof. apply trySizeOf_sound, trySizeDefinition_sound. Qed.

(** *** Every size is computed *)

(** The computation returns [s] on any right cache, and records sizes of
    definitions in [P] only. *)
Definition computes (run : M (option Z)) (s : Z) (P : TypeDefinition → Prop) : Prop :=
  ∀ VH, cacheOk B VH → ∃ VH', run VH = Ok (VH', Some s) ∧ cacheOk B VH' ∧ cacheGrows B P VH VH'.

(** The definitions whose size is found within a depth. *)
Definition sizedAt (d : nat) (D : TypeDefinition) : Prop := is_Some (definitionSizeAt B d D).

Lemma computes_ret s P : computes (mret (Some s)) s P.
Proof. intros VH Hc. exists VH. by eauto using cacheGrows_refl. Qed.

Lemma computes_bind run s f t P :
  computes run s P → computes (f (Some s)) t P → computes (run ≫= f) t P.
Proof.
  intros Hrun Hf VH Hc. destruct (Hrun VH Hc) as (VH1 & H1 & Hc1 & Hg1).
  destruct (Hf VH1 Hc1) as (VH2 & H2 & Hc2 & Hg2). exists VH2. split; [|by eauto using cacheGrows_trans].
  apply M_bind_Ok. by exists VH1, (Some s).
Qed.

Lemma computes_weaken run s (P Q : TypeDefinition → Prop) :
  (∀ D, P D → Q D) → computes run s P → computes run s Q.
Proof. intros HPQ Hrun VH Hc. destruct (Hrun VH Hc) as (VH' & ? & ? & ?). eauto using cacheGrows_weaken. Qed.

Section complete.
  Context (d : nat) (runDefinition : TypeDefinition → M (option Z)).
  Hypothesis runDefinition_complete :
    ∀ D s, lookup B (key D) = Some D → definitionSizeAt B d D = Some s → computes (runDefinition D) s (sizedAt d).

Lemma trySizeOf_complete T s : typeSizeAt B d T = Some s → computes (trySizeOf B runDefinition T) s (sizedAt d).
Proof using Type*.
  revert s. induction T as [|c n E IH|c R|c n E _|P]; intros s Hs; unfold typeSizeAt in Hs; simpl in Hs |- *;
    try discriminate Hs.
  - destruct (typeSizeWith B (definitionSizeAt B d) E) as [t|] eqn:Ht; [|done]. injection Hs as <-.
    eapply computes_bind; [by apply IH|]. apply computes_ret.
  - destruct (getConst B R) as [D|] eqn:HR; [|done]. simpl in Hs. destruct R as [k|]; [|done].
    simpl in HR. destruct (lookup_key B k D HR) as [Hk _].
    intros VH Hc. rewrite <-Hk in HR. destruct (runDefinition_complete D s HR Hs VH Hc) as (VH' & Hrun & ?).
    exists VH'. split; [|done]. apply M_bind_Ok. exists VH, D. split; [|done].
    unfold lift, unwrap, isValid, getConst. simpl. by rewrite <-Hk, HR.
  - injection Hs as <-. apply computes_ret.
  - injection Hs as <-. unfold mret, M_ret. case_bool_decide; apply computes_ret.
Qed.

Lemma unionSize_complete Fs r t :
  unionSizeWith (typeSizeAt B d) Fs r = Some t →
  computes (unionSize (trySizeOf B runDefinition) Fs r) t (sizedAt d).
Proof using Type*.
  revert r. induction Fs as [|f Fs IH]; intros r Ht; simpl in *.
  - injection Ht as <-. apply computes_ret.
  - destruct (typeSizeAt B d (UnionFieldType f)) as [s|] eqn:Hs; [|done].
    eapply computes_bind; [by apply trySizeOf_complete|]. by apply IH.
Qed.
End complete.

(** Recording the size of a definition that was not reached. *)
Lemma record_complete d D run s :
  lookup B (key D) = Some D → definitionSize B D s → definitionSizeAt B d D = None →
  definitionSizeAt B (S d) D = Some s → computes run s (sizedAt d) →
  ∀ VH, cacheOk B VH → SizeCache VH !! key D = None → ∃ VH',
    (Result ← run; match Result with None => mret None | Some s => s ← setSize (key D) s; mret (Some s) end) VH
      = Ok (VH', Some s) ∧ cacheOk B VH' ∧ cacheGrows B (sizedAt (S d)) VH VH'.
Proof.
  intros HD Hs Hd HSd Hrun VH Hc Hk. destruct (Hrun VH Hc) as (VH1 & H1 & Hc1 & Hg1).
  assert (SizeCache VH1 !! key D = None) as Hk1.
  { destruct (SizeCache VH1 !! key D) eqn:Hk1; [|done]. exfalso.
    destruct Hg1 as (_ & _ & _ & _ & Hn). destruct (Hn (key D) Hk) as (D' & HD' & HS'); [by rewrite Hk1|].
    assert (D' = D) as -> by congruence. unfold sizedAt in HS'. rewrite Hd in HS'. by destruct HS'. }
  destruct (setSize_right D s VH1 HD Hs Hc1 Hk1) as [Hc2 Hg2]. eexists. split; [|split; [exact Hc2|]].
  - apply M_bind_Ok. exists VH1, (Some s). split; [done|]. apply M_bind_Ok. eexists _, s. split; [|done].
    unfold setSize. rewrite bool_decide_eq_false_2; [done|]. rewrite Hk1. by intros [? ?].
  - eapply cacheGrows_trans; eapply cacheGrows_weaken; [|exact Hg1| |exact Hg2]; simpl.
    + intros E [u Hu]. exists u. by apply definitionSizeAt_S.
    + intros E ->. by exists s.
Qed.

Lemma trySizeDefinition_complete d fuel D s :
  (d ≤ fuel)%nat → lookup B (key D) = Some D → definitionSizeAt B d D = Some s →
  computes (trySizeDefinition B fuel D) s (sizedAt d).
Proof.
  revert fuel D s. induction d as [|d IH]; intros fuel D s Hle HD Hs; [done|].
  destruct fuel as [|fuel]; [lia|].
  destruct (definitionSizeAt B d D) as [t|] eqn:Hd.
  { pose proof (definitionSizeAt_S d D t Hd) as Hd'. assert (t = s) as -> by congruence.
    eapply computes_weaken; [|apply (IH (S fuel) D s); [lia|done..]].
    intros E [u Hu]. exists u. by apply definitionSizeAt_S. }
  assert (definitionSize B D s) as HDs by by exists (S d).
  intros VH Hc. cbn [trySizeDefinition].
  assert (∀ f : option Z → M (option Z), (cachedSize (key D) ≫= f) VH = f (SizeCache VH !! key D) VH) as Hcs by done.
  rewrite Hcs. destruct (SizeCache VH !! key D) as [u|] eqn:Hk.
  { destruct (Hc _ _ Hk) as (D' & HD' & Hu). assert (D' = D) as -> by congruence.
    rewrite (definitionSize_unique D u s Hu HDs). by apply computes_ret. }
  assert (∀ E u, lookup B (key E) = Some E → definitionSizeAt B d E = Some u →
    computes (trySizeDefinition B fuel E) u (sizedAt d)) as HIH by (intros; apply IH; [lia|done..]).
  destruct D as [i a R Args|i U Es|i a Args Rets Ps St|i U|i n Fs|i Fs].
  1, 3: injection Hs as <-; by apply computes_ret.
  all: apply (record_complete d _ _ s HD HDs Hd Hs); [|done|done]; simpl in Hs.
  - by apply trySizeOf_complete.
  - by apply trySizeOf_complete.
  - injection Hs as <-. apply computes_ret.
  - by apply unionSize_complete.
Qed.

Lemma trySize_complete d fuel T s :
  (d ≤ fuel)%nat → typeSizeAt B d T = Some s → computes (trySize B fuel T) s (sizedAt d).
Proof. intros Hle. apply trySizeOf_complete. intros D t. by apply trySizeDefinition_complete. Qed.
End facts.

(** ** Properties *)

(** C38: the cached computation of sizes is equivalent to its reference without a
    cache: on a right cache, whatever it returns is the size of the type (never
    [std::nullopt]) and the cache stays right; and on a type that has a size it
    returns it, with enough fuel. *)
Theorem size_correct B VH T :
  cacheOk B VH →
  (∀ fuel VH' r, trySize B fuel T VH = Ok (VH', r) → ∃ s, r = Some s ∧ typeSize B T s ∧ cacheOk B VH') ∧
  (∀ s, typeSize B T s → ∃ enough, ∀ fuel, (enough ≤ fuel)%nat →
     ∃ VH', trySize B fuel T VH = Ok (VH', Some s) ∧ cacheOk B VH') ∧
  (∀ s, typeSize B T s → ∃ enough, ∀ fuel, (enough ≤ fuel)%nat →
     ∃ VH', size B fuel T VH = Ok (VH', if s =? 0 then None else Some s)).
Proof.
  intros Hc. split; [|split].
  - intros fuel VH' r Hrun. destruct (trySize_sound B fuel T VH VH' r Hc Hrun) as (s & ? & ? & ? & ?).
    by exists s.
  - intros s [d Hd]. exists d. intros fuel Hle.
    destruct (trySize_complete B d fuel T s Hle Hd VH Hc) as (VH' & ? & ? & ?). by exists VH'.
  - intros s [d Hd]. exists d. intros fuel Hle.
    destruct (trySize_complete B d fuel T s Hle Hd VH Hc) as (VH' & Hrun & ? & ?). exists VH'.
    unfold size. apply M_bind_Ok. exists VH', (Some s). split; [done|]. by apply lift_Ok.
Qed.

(** [typedef uint32_t word;] and [union { word a[3]; }]. *)
Definition sampleTypes : list TypeDefinition :=
  [TypedefDefinition 1 (PrimitiveType (PrimitiveType.make PrimitiveKind.Unsigned 4));
   UnionDefinition 2 [mkUnionField 0 (ArrayType false 3 (DefinedType false (Some (1, TypedefKind))))]].

Lemma size_correct_witness :
  ∃ enough, ∀ fuel, (enough ≤ fuel)%nat → ∃ VH',
    size sampleTypes fuel (DefinedType true (Some (2, UnionKind))) (freshVH true) = Ok (VH', Some 12).
Proof.
  refine (proj2 (proj2 (size_correct sampleTypes (freshVH true) (DefinedType true (Some (2, UnionKind))) _)) 12 _).
  - intros k s Hk. discriminate Hk.
  - exists 2%nat. vm_compute. reflexivity.
Defined.

(** The definition of a type as an array of itself. *)
Definition selfArray (i n : Z) : TypeDefinition :=
  TypedefDefinition i (ArrayType false n (DefinedType false (Some (i, TypedefKind)))).

Lemma self_getConst i n : getConst [selfArray i n] (Some (i, TypedefKind)) = Some (selfArray i n).
Proof. unfold getConst, lookup. simpl. by rewrite bool_decide_eq_true_2. Qed.

Lemma self_unwrap i n : unwrap [selfArray i n] (Some (i, TypedefKind)) = Ok (selfArray i n).
Proof. unfold unwrap, isValid. by rewrite self_getConst. Qed.

#[local] Arguments unwrap : simpl never.
#[local] Arguments getConst : simpl never.

Lemma trySize_self fuel i n c VH :
  SizeCache VH = ∅ → trySize [selfArray i n] fuel (DefinedType c (Some (i, TypedefKind))) VH = Fault OutOfFuel.
Proof.
  intros HVH. pose proof (self_unwrap i n) as Hu.
  assert (∀ fuel, trySizeDefinition [selfArray i n] fuel (selfArray i n) VH = Fault OutOfFuel) as Hrun.
  { intros f. induction f as [|f IH]; [done|]. cbn. unfold lift. rewrite Hu. cbn.
    erewrite M_bind_run by (unfold cachedSize; rewrite HVH; reflexivity). cbn. do 2 apply M_bind_Fault.
    erewrite M_bind_run by reflexivity. exact IH. }
  unfold trySize. cbn. unfold lift. rewrite Hu. erewrite M_bind_run by reflexivity. apply Hrun.
Qed.

Lemma self_unsized i n c s : ¬ typeSize [selfArray i n] (DefinedType c (Some (i, TypedefKind))) s.
Proof.
  pose proof (self_getConst i n) as Hg.
  assert (∀ d, definitionSizeAt [selfArray i n] d (selfArray i n) = None) as Hnone.
  { intros d. induction d as [|d IH]; [done|]. cbn. rewrite Hg. cbn. by rewrite IH. }
  intros [d Hd]. unfold typeSizeAt in Hd. cbn in Hd. rewrite Hg in Hd. cbn in Hd. by rewrite Hnone in Hd.
Qed.

(** The size of a [typedef] of an array of itself is never computed: the
    recursion does not end, whatever the fuel, where the documentation of
    [trySize] promises [std::nullopt] and [size] an assertion. *)
Theorem recursive_size_diverges i n c fuel b :
  trySize [selfArray i n] fuel (DefinedType c (Some (i, TypedefKind))) (freshVH b) = Fault OutOfFuel ∧
  ∀ s, ¬ typeSize [selfArray i n] (DefinedType c (Some (i, TypedefKind))) s.
Proof. split; [by apply trySize_self|]. intros s. apply self_unsized. Qed.
