(* ===== verification/TypeVerification.v ===== *)
(** * Verification of types

    [verify] of types and of type definitions (lib/Model/Verification.cpp), with
    the part of [VerifyHelper] it threads: the definitions in progress, which
    detect recursion, and the definitions already verified. *)

From S2P Require Import Prelude OverflowSafeInt.
From stdpp Require Import gmap.
From S2P Require Architecture ABI PrimitiveKind PrimitiveType Register.
From S2P Require Import ModelTypes ModelSize.
Local Open Scope Z_scope.

(** ** The verification context *)

(* include/revng/Model/VerifyHelper.h:144-158 VerifyHelper::maybeFail *)
Definition maybeFail (Result : bool) : M bool := λ VH,
  if AssertOnFail VH && negb Result then Fault Aborted
  else if negb Result then
    Ok (mkVH (VerifiedCache VH) (SizeCache VH) ∅ (AssertOnFail VH), Result)
  else Ok (VH, Result).

(* include/revng/Model/VerifyHelper.h:180-182 VerifyHelper::fail *)
Definition fail : M bool := maybeFail false.

(* include/revng/Model/VerifyHelper.h:106-108 VerifyHelper::isVerified *)
Definition isVerified (k : Key) : M bool := λ VH, Ok (VH, bool_decide (k ∈ VerifiedCache VH)).

(* include/revng/Model/VerifyHelper.h:101-104 VerifyHelper::setVerified *)
Definition setVerified (k : Key) : M unit := λ VH,
  revng_assert (negb (bool_decide (k ∈ VerifiedCache VH)));;
  Ok (mkVH ({[k]} ∪ VerifiedCache VH) (SizeCache VH) (InProgress VH) (AssertOnFail VH), tt).

(* include/revng/Model/VerifyHelper.h:113-115 VerifyHelper::isVerificationInProgress *)
Definition isVerificationInProgress (k : Key) : M bool := λ VH, Ok (VH, bool_decide (k ∈ InProgress VH)).

(* include/revng/Model/VerifyHelper.h:117-121 VerifyHelper::verificationInProgress *)
Definition verificationInProgress (k : Key) : M unit := λ VH,
  revng_assert (negb (bool_decide (k ∈ InProgress VH)));;
  revng_assert (negb (bool_decide (k ∈ VerifiedCache VH)));;
  Ok (mkVH (VerifiedCache VH) (SizeCache VH) ({[k]} ∪ InProgress VH) (AssertOnFail VH), tt).

(* include/revng/Model/VerifyHelper.h:123-126 VerifyHelper::verificationCompleted *)
Definition verificationCompleted (k : Key) : M unit := λ VH,
  revng_assert (bool_decide (k ∈ InProgress VH));;
  Ok (mkVH (VerifiedCache VH) (SizeCache VH) (InProgress VH ∖ {[k]}) (AssertOnFail VH), tt).

(** ** Types *)

Section verification.
  Context `{LLVMMath} (B : list TypeDefinition) (fuel : nat).

(** [if (not X) rc_return VH.fail(...)]. *)
Definition require (X : M bool) (rest : M bool) : M bool :=
  X ≫= λ x : bool, if x then rest else fail.

Definition liftb (m : outcome bool) : M bool := lift m.
Definition test (b : bool) : M bool := mret b.

(** The size is not [nullopt]. *)
Definition hasSize (T : UpcastableType) : M bool :=
  s ← size B fuel T; mret match s with Some _ => true | None => false end.

(** A struct or a union, reached through a pointer. *)
Definition isOpaque (T : UpcastableType) : outcome bool :=
  St ← getStruct B fuel (TypeNode T);
  match St with
  | Some _ => Ok true
  | None => Un ← getUnion B fuel (TypeNode T); Ok match Un with Some _ => true | None => false end
  end.

Section types.
  Context (verifyDefinition : TypeDefinition → M bool).

(** The loop over [Active]. *)
(* lib/Model/Verification.cpp:398-471 Type::verify *)
Fixpoint verifyLoop (PointerBeforeDefinition : bool) (Active : UpcastableType) : M bool :=
  match Active with
  | Empty => fail
  | ArrayType c ElementCount ElementType =>
    require (test (negb (ElementCount =? 0))) $
    require (test (negb (isEmpty ElementType))) $
    require (hasSize ElementType) $
    require (test (negb c)) $
    verifyLoop PointerBeforeDefinition ElementType
  | DefinedType c R =>
    require (test (isValid B R)) $
    Skip ← (if PointerBeforeDefinition then lift (isOpaque (DefinedType c R)) else mret false);
    if (Skip : bool) then mret true
    else D ← lift (unwrap B R); verifyDefinition D
  | PointerType _ PointerSize PointeeType =>
    require (test (isPowerOf2_64 PointerSize)) $
    require (test (negb (negb (PointerSize =? 4) && negb (PointerSize =? 8)))) $
    require (test (negb (isEmpty PointeeType))) $
    verifyLoop true PointeeType
  | PrimitiveType P =>
    require (liftb (PrimitiveKind.isValid (PrimitiveType.Kind P))) $
    require (liftb (PrimitiveType.isValid P)) $
    mret true
  end.

(* lib/Model/Verification.cpp:392-472 Type::verify *)
Definition verifyType (T : UpcastableType) : M bool :=
  match T with Empty => λ _, undefined | _ => verifyLoop false T end.

(** ** Type definitions *)

(* lib/Model/Verification.cpp:483-512 verifyImpl(EnumDefinition) *)
Definition verifyEnum (UnderlyingType : UpcastableType) (Entries : list Z) : M bool :=
  require (test (negb (bool_decide (Entries = [])))) $
  require (test (negb (isEmpty UnderlyingType))) $
  require (verifyType UnderlyingType) $
  require (S ← liftb (isPrimitive B fuel (TypeNode UnderlyingType) PrimitiveKind.Signed);
           if (S : bool) then mret true
           else liftb (isPrimitive B fuel (TypeNode UnderlyingType) PrimitiveKind.Unsigned)) $
  mret true.

(* lib/Model/Verification.cpp:514-522 verifyImpl(TypedefDefinition) *)
Definition verifyTypedef (UnderlyingType : UpcastableType) : M bool :=
  require (test (negb (isEmpty UnderlyingType))) $
  b ← verifyType UnderlyingType; maybeFail b.

(** The part the fields of structs and unions share. *)
(* lib/Model/Verification.cpp:524-539 StructField::verify *)
Definition verifyField (T : UpcastableType) : M bool :=
  require (test (negb (isEmpty T))) $
  require (verifyType T) $
  require (hasSize T) $
  mret true.

(** [*Type->size(VH)]. *)
Definition derefSize (T : UpcastableType) : M Z :=
  s ← size B fuel T; match s with Some s => mret s | None => λ _, undefined end.

(** The message of an overlap dereferences the size of the next field, which is
    not verified yet. *)
(* lib/Model/Verification.cpp:550-589 verifyImpl(StructDefinition) *)
Fixpoint verifyStructFields (StructSize : Z) (Fields : list StructField) : M bool :=
  match Fields with
  | [] => mret true
  | Field :: Rest =>
    require (verifyField (StructFieldType Field)) $
    Size ← derefSize (StructFieldType Field);
    require (test (negb (StructSize <=? Offset Field))) $
    match Rest with
    | NextField :: _ =>
      if Offset NextField <? wrap 64 (Offset Field + Size) then
        _ ← derefSize (StructFieldType NextField); fail
      else verifyStructFields StructSize Rest
    | [] =>
      if StructSize <? wrap 64 (Offset Field + Size) then fail
      else verifyStructFields StructSize Rest
    end
  end.

(* lib/Model/Verification.cpp:541-592 verifyImpl(StructDefinition) *)
Definition verifyStruct (StructSize : Z) (Fields : list StructField) : M bool :=
  require (test (negb (StructSize =? 0))) $
  verifyStructFields StructSize Fields.

(* lib/Model/Verification.cpp:619-631 verifyImpl(UnionDefinition) *)
Fixpoint verifyUnionFields (ExpectedIndex : Z) (Fields : list UnionField) : M bool :=
  match Fields with
  | [] => mret true
  | Field :: Rest =>
    require (test (UnionFieldIndex Field =? ExpectedIndex)) $
    require (verifyField (UnionFieldType Field)) $
    verifyUnionFields (ExpectedIndex + 1) Rest
  end.

(* lib/Model/Verification.cpp:611-634 verifyImpl(UnionDefinition) *)
Definition verifyUnion (Fields : list UnionField) : M bool :=
  match Fields with [] => fail | _ => verifyUnionFields 0 Fields end.

(* lib/Model/Verification.cpp:636-647 Argument::verify *)
Definition verifyArgument (T : UpcastableType) : M bool :=
  require (test (negb (isEmpty T))) $
  require (verifyType T) $
  require (hasSize T) $
  mret true.

Definition isArray (T : UpcastableType) : M bool :=
  A ← lift (getArray B fuel (TypeNode T)); mret match A with Some _ => true | None => false end.

Definition isNot (X : M bool) : M bool := X ≫= λ x : bool, mret (negb x).

(* lib/Model/Verification.cpp:674-689 verifyImpl(CABIFunctionDefinition) *)
Fixpoint verifyArguments (ArgPos : Z) (Arguments : list Argument) : M bool :=
  match Arguments with
  | [] => mret true
  | A :: Rest =>
    require (test (ArgumentIndex A =? ArgPos)) $
    require (verifyArgument (ArgumentType A)) $
    require (isNot (isArray (ArgumentType A))) $
    verifyArguments (ArgPos + 1) Rest
  end.

(* lib/Model/Verification.cpp:649-692 verifyImpl(CABIFunctionDefinition) *)
Definition verifyCABI (ABI : ABI.Values) (ReturnType : UpcastableType) (Arguments : list Argument) : M bool :=
  require (liftb (ABI.isValid ABI)) $
  require
    (if isEmpty ReturnType then mret true
     else
       require (verifyType ReturnType) $
       require (isNot (liftb (isPrimitive B fuel (TypeNode ReturnType) PrimitiveKind.Void))) $
       require (isNot (isArray ReturnType)) $
       require (hasSize ReturnType) $
       mret true) $
  verifyArguments 0 Arguments.

(* lib/Model/Verification.cpp:694-728 NamedTypedRegister::verify *)
Definition verifyRegister (R : NamedTypedRegister) : M bool :=
  let T := NTRType R in
  require (test (negb (isEmpty T))) $
  require (verifyType T) $
  require (liftb (isScalar B fuel (TypeNode T))) $
  require (liftb (Register.isValid (Location R))) $
  MaybeTypeSize ← size B fuel T;
  match MaybeTypeSize with
  | None => fail
  | Some TypeSize =>
    Float ← liftb (isPrimitive B fuel (TypeNode T) PrimitiveKind.Float);
    if (Float : bool) then mret true
    else
      RegisterSize ← lift (Register.getSize (Location R));
      if RegisterSize <? TypeSize then fail else mret true
  end.

(* lib/Model/Verification.cpp:738-756 verifyImpl(RawFunctionDefinition) *)
Fixpoint verifyRegisters (Arch : Architecture.Values) (Rs : list NamedTypedRegister) : M bool :=
  match Rs with
  | [] => mret true
  | R :: Rest =>
    require (verifyRegister R) $
    require (liftb (Register.isUsedInArchitecture (Location R) Arch)) $
    verifyRegisters Arch Rest
  end.

(* lib/Model/Verification.cpp:758-768 verifyImpl(RawFunctionDefinition) *)
Fixpoint verifyPreserved (Arch : Architecture.Values) (Rs : list Register.Values) : M bool :=
  match Rs with
  | [] => mret true
  | R :: Rest =>
    require (liftb (Register.isValid R)) $
    require (liftb (Register.isUsedInArchitecture R Arch)) $
    verifyPreserved Arch Rest
  end.

(* lib/Model/Verification.cpp:730-778 verifyImpl(RawFunctionDefinition) *)
Definition verifyRaw (Arch : Architecture.Values) (Arguments ReturnValues : list NamedTypedRegister)
    (PreservedRegisters : list Register.Values) (StackArgumentsType : UpcastableType) : M bool :=
  require (liftb (Architecture.isValid Arch)) $
  require (verifyRegisters Arch Arguments) $
  require (verifyRegisters Arch ReturnValues) $
  require (verifyPreserved Arch PreservedRegisters) $
  if isEmpty StackArgumentsType then mret true
  else require (verifyType StackArgumentsType) $ mret true.

(* lib/Model/Verification.cpp:802-816 TypeDefinition::verify *)
Definition verifyImpl (D : TypeDefinition) : M bool :=
  match D with
  | CABIFunctionDefinition _ ABI R Args => verifyCABI ABI R Args
  | RawFunctionDefinition _ Arch Args Rets Ps StackType => verifyRaw Arch Args Rets Ps StackType
  | EnumDefinition _ U Es => verifyEnum U Es
  | TypedefDefinition _ U => verifyTypedef U
  | StructDefinition _ n Fs => verifyStruct n Fs
  | UnionDefinition _ Fs => verifyUnion Fs
  end.
End types.

(** [steps] bounds the depth of the recursion through definitions. *)
(* lib/Model/Verification.cpp:780-824 TypeDefinition::verify *)
Fixpoint verifyDefinition (steps : nat) (D : TypeDefinition) : M bool :=
  match steps with
  | O => λ _, Fault OutOfFuel
  | S steps =>
    Verified ← isVerified (key D);
    if (Verified : bool) then mret true else
    Busy ← isVerificationInProgress (key D);
    if (Busy : bool) then fail else
    _ ← verificationInProgress (key D);
    require (test (negb (ID D =? 2 ^ 64 - 1))) $
    Result ← verifyImpl (verifyDefinition steps) D;
    _ ← (if (Result : bool) then _ ← setVerified (key D); verificationCompleted (key D) else mret tt);
    maybeFail Result
  end.

(** [BinaryArchitecture] is [Binary::Architecture]. *)
(* lib/Model/Verification.cpp:826-848 Binary::verifyTypeDefinitions *)
Fixpoint verifyDefinitions (steps : nat) (BinaryArchitecture : Architecture.Values) (Ds : list TypeDefinition) : M bool :=
  match Ds with
  | [] => mret true
  | D :: Rest =>
    require (verifyDefinition steps D) $
    require
      match D with
      | CABIFunctionDefinition _ ABI _ _ =>
        A ← lift (ABI.getArchitecture ABI); mret (bool_decide (A = BinaryArchitecture))
      | RawFunctionDefinition _ A _ _ _ _ => mret (bool_decide (A = BinaryArchitecture))
      | _ => mret true
      end $
    verifyDefinitions steps BinaryArchitecture Rest
  end.

(* lib/Model/Verification.cpp:826-848 Binary::verifyTypeDefinitions *)
Definition verifyTypeDefinitions (steps : nat) (BinaryArchitecture : Architecture.Values) : M bool :=
  verifyDefinitions steps BinaryArchitecture B.
End verification.

(** ** What verification establishes *)

Section wellformed.
  Context (B : list TypeDefinition) (fuel : nat).

(** The structure of a type, up to the definition it refers to. *)
Fixpoint wfType (T : UpcastableType) : Prop :=
  match T with
  | Empty => False
  | ArrayType c n E => n ≠ 0 ∧ c = false ∧ (∃ s, typeSize B E s ∧ s ≠ 0) ∧ wfType E
  | DefinedType _ R => isValid B R = true
  | PointerType _ n P => (n = 4 ∨ n = 8) ∧ wfType P
  | PrimitiveType P =>
    PrimitiveKind.isValid (PrimitiveType.Kind P) = Ok true ∧ PrimitiveType.isValid P = Ok true
  end.

(** The definition the verification of a type continues with: the one it refers
    to, except structs and unions behind a pointer. *)
Inductive follows : bool → UpcastableType → Key → Prop :=
  | follows_array PB c n E k : follows PB E k → follows PB (ArrayType c n E) k
  | follows_pointer PB c n P k : follows true P k → follows PB (PointerType c n P) k
  | follows_defined PB c k :
      (PB = true → isOpaque B fuel (DefinedType c (Some k)) = Ok false) → follows PB (DefinedType c (Some k)) k.

Definition dependsOn (D : TypeDefinition) (k : Key) : Prop := ∃ T, T ∈ edges D ∧ follows false T k.

Definition sized (T : UpcastableType) : Prop := ∃ s, typeSize B T s ∧ s ≠ 0.

(** Every field starts inside of the struct and ends before the next one starts,
    the last one before the end: sums are on 64 bits. *)
Fixpoint structLayout (n : Z) (Fs : list StructField) : Prop :=
  match Fs with
  | [] => True
  | F :: Rest =>
    wfType (StructFieldType F) ∧
    (∃ s, typeSize B (StructFieldType F) s ∧ s ≠ 0 ∧ Offset F < n ∧
       wrap 64 (Offset F + s) ≤ match Rest with Next :: _ => Offset Next | [] => n end) ∧
    structLayout n Rest
  end.

Fixpoint denseIndices (i : Z) (l : list Z) : Prop :=
  match l with [] => True | x :: l => x = i ∧ denseIndices (i + 1) l end.

(** An argument or return value in a register. *)
Definition wfRegister (Arch : Architecture.Values) (R : NamedTypedRegister) : Prop :=
  wfType (NTRType R) ∧ isScalar B fuel (TypeNode (NTRType R)) = Ok true ∧
  Register.isUsedInArchitecture (Location R) Arch = Ok true ∧
  ∃ s, typeSize B (NTRType R) s ∧ s ≠ 0 ∧
    (isPrimitive B fuel (TypeNode (NTRType R)) PrimitiveKind.Float = Ok true ∨
     ∃ n, Register.getSize (Location R) = Ok n ∧ s ≤ n).

Definition wfDefinition (D : TypeDefinition) : Prop :=
  match D with
  | EnumDefinition _ U Es =>
    Es ≠ [] ∧ wfType U ∧
    (isPrimitive B fuel (TypeNode U) PrimitiveKind.Signed = Ok true ∨
     isPrimitive B fuel (TypeNode U) PrimitiveKind.Unsigned = Ok true)
  | TypedefDefinition _ U => wfType U
  | StructDefinition _ n Fs => n ≠ 0 ∧ structLayout n Fs
  | UnionDefinition _ Fs =>
    Fs ≠ [] ∧ denseIndices 0 (map UnionFieldIndex Fs) ∧
    Forall (λ F, wfType (UnionFieldType F) ∧ sized (UnionFieldType F)) Fs
  | CABIFunctionDefinition _ _ R Args =>
    (R = Empty ∨ wfType R ∧ sized R) ∧
    denseIndices 0 (map ArgumentIndex Args) ∧
    Forall (λ A, wfType (ArgumentType A) ∧ sized (ArgumentType A)) Args
  | RawFunctionDefinition _ Arch Args Rets Ps StackType =>
    Forall (wfRegister Arch) Args ∧ Forall (wfRegister Arch) Rets ∧
    Forall (λ R, Register.isUsedInArchitecture R Arch = Ok true) Ps ∧
    (StackType = Empty ∨ wfType StackType)
  end.

(** The verified definitions are well formed and can be ordered so that each one
    only depends on verified definitions before it. *)
Definition ordered (V : gset Key) : Prop :=
  ∃ rank : Key → nat, ∀ k, k ∈ V → ∃ D, lookup B k = Some D ∧ wfDefinition D ∧
    ∀ k', dependsOn D k' → k' ∈ V ∧ (rank k' < rank k)%nat.

(** What every step of a verification maintains. *)
Definition inv (VH : VerifyHelper) : Prop := cacheOk B VH ∧ ordered (VerifiedCache VH).

Lemma ordered_add V D :
  ordered V → key D ∉ V → lookup B (key D) = Some D → wfDefinition D →
  (∀ k, dependsOn D k → k ∈ V) → ordered ({[key D]} ∪ V).
Proof.
  intros [rank Hr] Hnin HD Hwf Hdep.
  set (top := S (list_max (rank <$> elements V))).
  exists (λ k, if decide (k = key D) then top else rank k). intros k Hk.
  assert (∀ k', k' ∈ V → (rank k' < top)%nat) as Htop.
  { intros k' Hk'. unfold top. apply le_n_S.
    assert (Forall (λ n, n ≤ list_max (rank <$> elements V))%nat (rank <$> elements V)) as Hmax
      by by apply list_max_le.
    rewrite Forall_forall in Hmax. apply Hmax, list_elem_of_fmap_2, elem_of_elements, Hk'. }
  apply elem_of_union in Hk as [->%elem_of_singleton|Hk].
  - exists D. split; [done|]. split; [done|]. intros k' Hk'. pose proof (Hdep k' Hk') as Hin.
    split; [set_solver|]. rewrite decide_False by congruence. rewrite decide_True by done. auto.
  - destruct (Hr k Hk) as (D' & ? & ? & Hd). exists D'. split; [done|]. split; [done|]. intros k' Hk'.
    destruct (Hd k' Hk') as [Hin Hlt]. split; [set_solver|].
    rewrite !decide_False by congruence. done.
Qed.
End wellformed.

(** ** Soundness *)

Section soundness.
  Context `{LLVMMath} (B : list TypeDefinition) (fuel : nat).
  #[local] Set Default Proof Using "Type*".

(** The effect of a step on the context. *)
Definition advances (VH VH' : VerifyHelper) : Prop :=
  inv B fuel VH' ∧ VerifiedCache VH ⊆ VerifiedCache VH' ∧ AssertOnFail VH' = AssertOnFail VH.

(** When the step returns true, [Q] holds of what is verified afterwards and
    what is in progress is the same. *)
Definition checks (m : M bool) (Q : gset Key → Prop) : Prop :=
  ∀ VH VH' b, inv B fuel VH → m VH = Ok (VH', b) →
    advances VH VH' ∧ (b = true → Q (VerifiedCache VH') ∧ InProgress VH' = InProgress VH).

(** When it returns false, nothing is in progress any more. *)
Definition verifies (m : M bool) (Q : gset Key → Prop) : Prop :=
  checks m Q ∧ ∀ VH VH', inv B fuel VH → m VH = Ok (VH', false) → InProgress VH' = ∅.

Definition upward (Q : gset Key → Prop) : Prop := ∀ V V', V ⊆ V' → Q V → Q V'.

Lemma advances_refl VH : inv B fuel VH → advances VH VH.
Proof. intros Hi. split; [done|]. by split. Qed.

Lemma advances_trans V1 V2 V3 : advances V1 V2 → advances V2 V3 → advances V1 V3.
Proof. intros (_ & ? & ?) (? & ? & ?). split; [done|]. split; [set_solver|congruence]. Qed.

Lemma checks_weaken (m : M bool) (Q R : gset Key → Prop) : (∀ V, Q V → R V) → checks m Q → checks m R.
Proof. intros HQR Hm VH VH' b Hi Hrun. destruct (Hm _ _ _ Hi Hrun) as [? Ht]. naive_solver. Qed.

Lemma verifies_weaken (m : M bool) (Q R : gset Key → Prop) : (∀ V, Q V → R V) → verifies m Q → verifies m R.
Proof. intros HQR [Hm Hf]. split; [by eapply checks_weaken|done]. Qed.

Lemma maybeFail_verifies b : verifies (maybeFail b) (λ _, b = true).
Proof.
  split.
  - intros VH VH' r Hi. unfold maybeFail. destruct b; simpl.
    + rewrite andb_false_r. intros [= <- <-]. by split; [apply advances_refl|].
    + rewrite andb_true_r. destruct (AssertOnFail VH) eqn:HA; intros [= <- <-].
      split; [|done]. split; [exact Hi|]. by rewrite HA.
  - intros VH VH' Hi. unfold maybeFail. destruct b, (AssertOnFail VH); simpl; intros; by simplify_eq.
Qed.

Lemma fail_verifies Q : verifies fail Q.
Proof. eapply verifies_weaken; [|apply maybeFail_verifies]. done. Qed.

Lemma ret_verifies Q : (∀ V, Q V) → verifies (mret true) Q.
Proof.
  intros HQ. split; [|by intros VH VH' _ [=]].
  intros VH VH' b Hi [= <- <-]. by split; [apply advances_refl|].
Qed.

Lemma undefined_verifies {f} Q : verifies (λ _, Fault f) Q.
Proof. split; [by intros VH VH' b _ [=]|by intros VH VH' _ [=]]. Qed.

Lemma require_verifies X Q rest R :
  upward Q → checks X Q → verifies rest R → verifies (require X rest) (λ V, Q V ∧ R V).
Proof.
  intros HQ HX [Hr Hrf]. destruct (fail_verifies (λ _, False)) as [Hf Hff]. split.
  - intros VH VH' b Hi (V1 & x & H1 & H2)%M_bind_Ok. destruct (HX _ _ _ Hi H1) as [Ha1 Ht1].
    assert (inv B fuel V1) as Hi1 by apply Ha1. destruct x.
    + destruct (Ht1 eq_refl) as [HQ1 HP1]. destruct (Hr _ _ _ Hi1 H2) as [Ha2 Ht2].
      split; [by eapply advances_trans|]. intros ->. destruct (Ht2 eq_refl) as [HR2 HP2].
      split; [|congruence]. split; [|done]. eapply HQ, HQ1. apply Ha2.
    + destruct (Hf _ _ _ Hi1 H2) as [Ha2 Ht2]. split; [by eapply advances_trans|].
      intros ->. by destruct (Ht2 eq_refl).
  - intros VH VH' Hi (V1 & x & H1 & H2)%M_bind_Ok. destruct (HX _ _ _ Hi H1) as [Ha1 _].
    assert (inv B fuel V1) as Hi1 by apply Ha1. destruct x; eauto.
Qed.

Lemma test_checks b : checks (test b) (λ _, b = true).
Proof. intros VH VH' r Hi [= <- <-]. by split; [apply advances_refl|]. Qed.

Lemma lift_checks m : checks (liftb m) (λ _, m = Ok true).
Proof.
  intros VH VH' r Hi [-> ->]%lift_Ok. split; [by apply advances_refl|]. by intros ->.
Qed.

Lemma cacheGrows_advances VH VH' P :
  inv B fuel VH → cacheOk B VH' → cacheGrows B P VH VH' → advances VH VH' ∧ InProgress VH' = InProgress VH.
Proof.
  intros [_ Ho] Hc (HV & HP & HA & _). split; [|done]. split; [|by rewrite HV, HA].
  split; [done|]. by rewrite HV.
Qed.

(** The size of a type that verification asks for. *)
Lemma size_step T VH VH' r :
  inv B fuel VH → size B fuel T VH = Ok (VH', r) →
  advances VH VH' ∧ InProgress VH' = InProgress VH ∧
  ∃ s, typeSize B T s ∧ r = (if s =? 0 then None else Some s).
Proof.
  intros Hi (V1 & r1 & H1 & [H2 ->]%lift_Ok)%M_bind_Ok.
  destruct (trySize_sound B fuel T _ _ _ (proj1 Hi) H1) as (s & -> & Hs & Hc & Hg).
  destruct (cacheGrows_advances _ _ _ Hi Hc Hg) as [Ha HP]. split; [done|]. split; [done|].
  exists s. split; [done|]. simpl in H2. congruence.
Qed.

Lemma hasSize_checks T : checks (hasSize B fuel T) (λ _, sized B T).
Proof.
  intros VH VH' b Hi (V1 & r & H1 & [= <- <-])%M_bind_Ok.
  destruct (size_step T _ _ _ Hi H1) as (Ha & HP & s & Hs & ->). split; [done|].
  destruct (s =? 0) eqn:Hz; [done|]. apply Z.eqb_neq in Hz. intros _. split; [by exists s|done].
Qed.

(** A step that only changes the size cache, and its continuation. *)
Definition quiet {A} (m : M A) (P : A → Prop) : Prop :=
  ∀ VH VH' a, inv B fuel VH → m VH = Ok (VH', a) → advances VH VH' ∧ InProgress VH' = InProgress VH ∧ P a.

Lemma quiet_bind {A} (m : M A) P (f : A → M bool) Q :
  quiet m P → (∀ a, P a → verifies (f a) Q) → verifies (m ≫= f) Q.
Proof.
  intros Hm Hf. split.
  - intros VH VH' b Hi (V1 & a & H1 & H2)%M_bind_Ok. destruct (Hm _ _ _ Hi H1) as (Ha & HP & Pa).
    destruct (proj1 (Hf a Pa) _ _ _ (proj1 Ha) H2) as [Ha2 Ht]. split; [by eapply advances_trans|].
    intros Hb. destruct (Ht Hb). split; [done|congruence].
  - intros VH VH' Hi (V1 & a & H1 & H2)%M_bind_Ok. destruct (Hm _ _ _ Hi H1) as (Ha & HP & Pa).
    exact (proj2 (Hf a Pa) _ _ (proj1 Ha) H2).
Qed.

Lemma quiet_checks {A} (m : M A) P (f : A → bool) :
  quiet m P → checks (m ≫= λ a, mret (f a)) (λ _, ∃ a, P a ∧ f a = true).
Proof.
  intros Hm VH VH' b Hi (V1 & a & H1 & [= <- <-])%M_bind_Ok. destruct (Hm _ _ _ Hi H1) as (Ha & HP & Pa).
  split; [done|]. intros Hb. split; [by exists a|done].
Qed.

Lemma lift_quiet {A} (m : outcome A) : quiet (lift m) (λ a, m = Ok a).
Proof. intros VH VH' a Hi [? ->]%lift_Ok. by split; [apply advances_refl|]. Qed.

Lemma size_quiet T : quiet (size B fuel T) (λ r, ∃ s, typeSize B T s ∧ r = (if s =? 0 then None else Some s)).
Proof. intros VH VH' r Hi Hr. destruct (size_step T _ _ _ Hi Hr) as (? & ? & ?). done. Qed.

Lemma derefSize_quiet T : quiet (derefSize B fuel T) (λ s, typeSize B T s ∧ s ≠ 0).
Proof.
  intros VH VH' s Hi (V1 & r & H1 & H2)%M_bind_Ok. destruct (size_step T _ _ _ Hi H1) as (Ha & HP & t & Ht & ->).
  destruct (t =? 0) eqn:Hz; [done|]. apply Z.eqb_neq in Hz. injection H2 as <- <-. done.
Qed.

(** What a verification establishes does not depend on the context. *)
Definition always (P : Prop) : gset Key → Prop := λ _, P.

(** The verified definition is well formed and what its edges refer to is verified. *)
Definition definitionVerified (D : TypeDefinition) (V : gset Key) : Prop :=
  wfDefinition B fuel D ∧ ∀ k, dependsOn B fuel D k → k ∈ V.

Lemma upward_always P : upward (always P).
Proof. by intros V V' _. Qed.

Lemma upward_followed (P : Prop) PB T : upward (λ V, P ∧ ∀ k, follows B fuel PB T k → k ∈ V).
Proof. intros V V' HV [? Hk]. split; [done|]. intros k ?. apply HV. auto. Qed.

Section definitions.
  Context (verifyD : TypeDefinition → M bool).
  Hypothesis verifyD_verifies : ∀ D, lookup B (key D) = Some D → verifies (verifyD D) (λ V, key D ∈ V).

(** The type is well formed and what it refers to is verified. *)
Definition typeVerified (PB : bool) (T : UpcastableType) (V : gset Key) : Prop :=
  wfType B T ∧ ∀ k, follows B fuel PB T k → k ∈ V.

Lemma definition_verifies PB c R :
  verifies (D ← lift (unwrap B R); verifyD D) (λ V, ∀ k, follows B fuel PB (DefinedType c R) k → k ∈ V).
Proof.
  eapply quiet_bind; [apply lift_quiet|]. intros D HD.
  destruct (unwrap_lookup B R D HD) as (k & -> & Hl & <-).
  eapply verifies_weaken; [|by apply verifyD_verifies]. intros V Hin k' Hf. by inversion Hf; subst.
Qed.

Lemma verifyLoop_verifies PB T : verifies (verifyLoop B fuel verifyD PB T) (typeVerified PB T).
Proof.
  revert PB. induction T as [|c n E IH|c R|c n P IH|P]; intros PB; simpl.
  - apply fail_verifies.
  - eapply verifies_weaken; [|apply require_verifies; [|apply test_checks|
      apply require_verifies; [|apply test_checks|
      apply require_verifies; [|apply hasSize_checks|
      apply require_verifies; [|apply test_checks|apply IH]]]]]; try apply upward_always.
    intros V (Hn & _ & Hs & Hc & Hwf & Hk). apply negb_true_iff, Z.eqb_neq in Hn. apply negb_true_iff in Hc.
    split; [by split_and!|]. intros k Hf. inversion Hf; subst. auto.
  - eapply verifies_weaken; [|apply require_verifies; [apply upward_always|apply test_checks|]].
    { intros V [Hv Hk]. split; [exact Hv|]. exact Hk. }
    destruct PB; simpl.
    + eapply quiet_bind; [apply lift_quiet|]. intros [] Ho.
      * apply ret_verifies. intros V k Hf. inversion Hf; subst. specialize (H4 eq_refl). congruence.
      * apply definition_verifies.
    + eapply quiet_bind with (P := λ a, a = false); [by intros VH VH' a Hi [= <- <-]; split; [apply advances_refl|]|].
      intros a ->. apply definition_verifies.
  - eapply verifies_weaken; [|apply require_verifies; [|apply test_checks|
      apply require_verifies; [|apply test_checks|
      apply require_verifies; [|apply test_checks|apply IH]]]]; try apply upward_always.
    intros V (_ & Hn & _ & Hwf & Hk). split; [split; [|done]|].
    + apply negb_true_iff, andb_false_iff in Hn as [Hn|Hn]; apply negb_false_iff, Z.eqb_eq in Hn; auto.
    + intros k Hf. inversion Hf; subst. auto.
  - eapply verifies_weaken; [|apply require_verifies; [|apply lift_checks|
      apply require_verifies; [|apply lift_checks|apply (ret_verifies (always True)); done]]];
      try apply upward_always.
    intros V (Hk & Hs & _). split; [done|]. intros k Hf. inversion Hf.
Qed.

Lemma verifyType_verifies T : verifies (verifyType B fuel verifyD T) (typeVerified false T).
Proof. destruct T; [apply undefined_verifies|apply verifyLoop_verifies..]. Qed.

Lemma upward_typeVerified PB T : upward (typeVerified PB T).
Proof using Type. apply upward_followed. Qed.

Lemma upward_and Q R : upward Q → upward R → upward (λ V, Q V ∧ R V).
Proof using Type. intros HQ HR V V' HV [? ?]. split; eauto. Qed.

(** [if (not X) fail] where [X] is itself a verification. *)
Lemma require_always (P : Prop) X rest R :
  checks X (always P) → verifies rest R → verifies (require X rest) (λ V, P ∧ R V).
Proof using Type. apply require_verifies, upward_always. Qed.

Lemma true_verifies : verifies (mret true) (always True).
Proof using Type. by apply ret_verifies. Qed.

Definition fieldVerified (T : UpcastableType) (V : gset Key) : Prop := typeVerified false T V ∧ sized B T.

Lemma upward_fieldVerified T : upward (fieldVerified T).
Proof using Type. apply upward_and; [apply upward_typeVerified|apply upward_always]. Qed.

Lemma verifyField_verifies T : verifies (verifyField B fuel verifyD T) (fieldVerified T).
Proof.
  eapply verifies_weaken; [|apply require_always; [apply test_checks|
    apply require_verifies; [apply upward_typeVerified|apply verifyType_verifies|
    apply require_always; [apply hasSize_checks|apply true_verifies]]]].
  intros V (_ & HT & Hs & _). by split.
Qed.

Lemma verifyStructFields_verifies n Fs :
  verifies (verifyStructFields B fuel verifyD n Fs)
    (λ V, structLayout B n Fs ∧ Forall (λ F, fieldVerified (StructFieldType F) V) Fs).
Proof.
  induction Fs as [|F Fs IH]; [by apply ret_verifies|]. cbn [verifyStructFields].
  eapply verifies_weaken; [|apply require_verifies; [apply upward_fieldVerified|apply verifyField_verifies|
    eapply (quiet_bind _ _ _ (λ V, ∃ s, typeSize B (StructFieldType F) s ∧ s ≠ 0 ∧ Offset F < n ∧
      wrap 64 (Offset F + s) ≤ match Fs with Next :: _ => Offset Next | [] => n end ∧
      structLayout B n Fs ∧ Forall (λ F, fieldVerified (StructFieldType F) V) Fs)); [apply derefSize_quiet|]]].
  - intros V [[[Hwf Hk] Hs] (s & ? & ? & ? & ? & ? & ?)]. split; [|by repeat constructor].
    simpl. split; [done|]. split; [by exists s|done].
  - intros s [Hs Hn]. eapply verifies_weaken; [|apply (require_always (negb (n <=? Offset F) = true) _ _ (λ V,
      wrap 64 (Offset F + s) ≤ match Fs with Next :: _ => Offset Next | [] => n end ∧
      structLayout B n Fs ∧ Forall (λ F, fieldVerified (StructFieldType F) V) Fs)); [apply test_checks|]].
    + intros V [Ho HV]. apply negb_true_iff, Z.leb_gt in Ho. exists s. split_and!; try done; apply HV.
    + destruct Fs as [|Next Fs].
      * destruct (Z.ltb_spec n (wrap 64 (Offset F + s))); [apply fail_verifies|].
        eapply verifies_weaken; [|exact IH]. done.
      * destruct (Z.ltb_spec (Offset Next) (wrap 64 (Offset F + s))).
        -- eapply quiet_bind; [apply derefSize_quiet|]. intros ? _. apply fail_verifies.
        -- eapply verifies_weaken; [|exact IH]. done.
Qed.

Lemma verifyUnionFields_verifies i Fs :
  verifies (verifyUnionFields B fuel verifyD i Fs)
    (λ V, denseIndices i (map UnionFieldIndex Fs) ∧ Forall (λ F, fieldVerified (UnionFieldType F) V) Fs).
Proof.
  revert i. induction Fs as [|F Fs IH]; intros i; [by apply ret_verifies|].
  eapply verifies_weaken; [|apply require_always; [apply test_checks|
    apply require_verifies; [apply upward_fieldVerified|apply verifyField_verifies|apply IH]]].
  intros V (Hi%Z.eqb_eq & HF & Hd & HFs). split; [by split|by constructor].
Qed.

Lemma isArray_quiet T : quiet (isArray B fuel T) (λ _, True).
Proof using Type.
  intros VH VH' b Hi (V1 & A & H1 & [= <- <-])%M_bind_Ok.
  destruct (lift_quiet _ _ _ _ Hi H1) as (? & ? & _). done.
Qed.

Lemma isNot_checks m P : quiet m P → checks (isNot m) (always True).
Proof using Type. intros Hm. eapply checks_weaken; [|by apply quiet_checks]. done. Qed.

Lemma verifyArguments_verifies i As :
  verifies (verifyArguments B fuel verifyD i As)
    (λ V, denseIndices i (map ArgumentIndex As) ∧ Forall (λ A, fieldVerified (ArgumentType A) V) As).
Proof.
  revert i. induction As as [|A As IH]; intros i; [by apply ret_verifies|].
  eapply verifies_weaken; [|apply require_always; [apply test_checks|
    apply require_verifies; [apply upward_fieldVerified|apply verifyField_verifies|
    apply require_always; [eapply isNot_checks, isArray_quiet|apply IH]]]].
  intros V (Hi%Z.eqb_eq & HF & _ & Hd & HFs). split; [by split|by constructor].
Qed.
Lemma edges_verified D V :
  wfDefinition B fuel D → Forall (λ T, T = Empty ∨ typeVerified false T V) (edges D) → definitionVerified D V.
Proof using Type.
  intros Hwf HV. split; [done|]. intros k (T & HT & Hk). rewrite Forall_forall in HV.
  destruct (HV T HT) as [->|[_ Hv]]; [inversion Hk|auto].
Qed.

Lemma fields_verified {A} (f : A → UpcastableType) l V :
  Forall (λ x, fieldVerified (f x) V) l →
  Forall (λ x, wfType B (f x) ∧ sized B (f x)) l ∧ Forall (λ T, T = Empty ∨ typeVerified false T V) (present (map f l)).
Proof using Type.
  intros Hl. split.
  - eapply Forall_impl; [exact Hl|]. by intros x [[? ?] ?].
  - apply Forall_forall. intros T [(x & -> & Hx)%list_elem_of_fmap _]%present_elem. right.
    rewrite Forall_forall in Hl. apply Hl, Hx.
Qed.

Lemma isPrimitive_checks T K K' :
  checks (S ← liftb (isPrimitive B fuel T K);
          if (S : bool) then mret true else liftb (isPrimitive B fuel T K'))
    (always (isPrimitive B fuel T K = Ok true ∨ isPrimitive B fuel T K' = Ok true)).
Proof using Type.
  intros VH VH' b Hi (V1 & s & [Hs ->]%lift_Ok & H2)%M_bind_Ok. destruct s.
  - injection H2 as <- <-. split; [by apply advances_refl|]. intros _. split; [by left|done].
  - apply lift_Ok in H2 as [H2 ->]. split; [by apply advances_refl|]. intros ->. split; [by right|done].
Qed.

Lemma verifyEnum_verifies i U Es :
  verifies (verifyEnum B fuel verifyD U Es) (definitionVerified (EnumDefinition i U Es)).
Proof.
  eapply verifies_weaken; [|apply require_always; [apply test_checks|
    apply require_always; [apply test_checks|
    apply require_verifies; [apply upward_typeVerified|apply verifyType_verifies|
    apply require_always; [apply isPrimitive_checks|apply true_verifies]]]]].
  intros V (HEs & _ & HU & Hp & _). apply negb_true_iff, bool_decide_eq_false in HEs.
  apply edges_verified; [split_and!; [done|apply HU|done]|]. apply Forall_forall.
  intros T [HT _]%present_elem. set_solver.
Qed.

Lemma maybe_verifies (m : M bool) Q : checks m Q → verifies (b ← m; maybeFail b) Q.
Proof using Type.
  intros Hm. split.
  - intros VH VH' b Hi (V1 & x & H1 & H2)%M_bind_Ok. destruct (Hm _ _ _ Hi H1) as [Ha Ht].
    destruct (maybeFail_verifies x) as [Hc _]. destruct (Hc _ _ _ (proj1 Ha) H2) as [Ha2 Ht2].
    split; [by eapply advances_trans|]. intros Hb. destruct (Ht2 Hb) as [-> HP]. destruct (Ht eq_refl) as [HQ HP1].
    split; [|congruence]. unfold maybeFail in H2. simpl in H2. rewrite andb_false_r in H2. by injection H2 as <- _.
  - intros VH VH' Hi (V1 & x & H1 & H2)%M_bind_Ok. destruct (Hm _ _ _ Hi H1) as [Ha Ht].
    eapply (maybeFail_verifies x); [apply Ha|done].
Qed.

Lemma verifyTypedef_verifies i U :
  verifies (verifyTypedef B fuel verifyD U) (definitionVerified (TypedefDefinition i U)).
Proof.
  eapply verifies_weaken; [|apply require_always; [apply test_checks|apply maybe_verifies, verifyType_verifies]].
  intros V [_ HU]. apply edges_verified; [apply HU|]. apply Forall_forall.
  intros T [HT _]%present_elem. set_solver.
Qed.

Lemma verifyStruct_verifies i n Fs :
  verifies (verifyStruct B fuel verifyD n Fs) (definitionVerified (StructDefinition i n Fs)).
Proof.
  eapply verifies_weaken; [|apply require_always; [apply test_checks|apply verifyStructFields_verifies]].
  intros V (Hn%negb_true_iff%Z.eqb_neq & Hl & HFs). apply edges_verified; [done|].
  by apply fields_verified.
Qed.

Lemma verifyUnion_verifies i Fs :
  verifies (verifyUnion B fuel verifyD Fs) (definitionVerified (UnionDefinition i Fs)).
Proof.
  assert (Fs = [] ∨ verifyUnion B fuel verifyD Fs = verifyUnionFields B fuel verifyD 0 Fs ∧ Fs ≠ []) as [->|[-> Hne]]
    by (destruct Fs; auto); [apply fail_verifies|].
  eapply verifies_weaken; [|apply verifyUnionFields_verifies].
  intros V (Hi & HFs). apply fields_verified in HFs as [Hw He]. by apply edges_verified.
Qed.

Lemma verifyReturnType_verifies R :
  verifies
    (if isEmpty R then mret true
     else
       require (verifyType B fuel verifyD R) $
       require (isNot (liftb (isPrimitive B fuel (TypeNode R) PrimitiveKind.Void))) $
       require (isNot (isArray B fuel R)) $
       require (hasSize B fuel R) $
       mret true)
    (λ V, R = Empty ∨ fieldVerified R V).
Proof.
  destruct (isEmpty R) eqn:HR; [apply ret_verifies; left; by destruct R|].
  eapply verifies_weaken; [|apply require_verifies; [apply upward_typeVerified|apply verifyType_verifies|
    apply require_always; [eapply isNot_checks, lift_quiet|
    apply require_always; [eapply isNot_checks, isArray_quiet|
    apply require_always; [apply hasSize_checks|apply true_verifies]]]]].
  intros V (HT & _ & _ & Hs & _). right. by split.
Qed.
Lemma verifyCABI_verifies i A R Args :
  verifies (verifyCABI B fuel verifyD A R Args) (definitionVerified (CABIFunctionDefinition i A R Args)).
Proof.
  eapply verifies_weaken; [|apply require_always; [apply lift_checks|
    apply (require_verifies _ (λ V, R = Empty ∨ fieldVerified R V)); [|apply verifyReturnType_verifies|
    apply verifyArguments_verifies]]].
  - intros V (_ & HR & Hi & HA). apply fields_verified in HA as [Hw He]. apply edges_verified.
    + split; [|done]. destruct HR as [->|[[? ?] ?]]; auto.
    + simpl. unfold cabiEdges. apply Forall_app. split; [done|]. apply Forall_forall.
      intros T [HT Hne]%present_elem. destruct HR as [->|[? ?]]; set_solver.
  - intros V V' HV [->|HR]; [by left|right]. by eapply upward_fieldVerified.
Qed.

Definition registerVerified (Arch : Architecture.Values) (R : NamedTypedRegister) (V : gset Key) : Prop :=
  wfRegister B fuel Arch R ∧ typeVerified false (NTRType R) V.

Lemma upward_registerVerified Arch R : upward (registerVerified Arch R).
Proof using Type. apply (upward_and (always _)); [apply upward_always|apply upward_typeVerified]. Qed.

Lemma verifyRegister_verifies R :
  verifies (verifyRegister B fuel verifyD R)
    (λ V, typeVerified false (NTRType R) V ∧ isScalar B fuel (TypeNode (NTRType R)) = Ok true ∧
       ∃ s, typeSize B (NTRType R) s ∧ s ≠ 0 ∧
         (isPrimitive B fuel (TypeNode (NTRType R)) PrimitiveKind.Float = Ok true ∨
          ∃ n, Register.getSize (Location R) = Ok n ∧ s ≤ n)).
Proof.
  set (fits s := isPrimitive B fuel (TypeNode (NTRType R)) PrimitiveKind.Float = Ok true ∨
                 ∃ n, Register.getSize (Location R) = Ok n ∧ s ≤ n).
  eapply verifies_weaken; [|apply require_always; [apply test_checks|
    apply require_verifies; [apply upward_typeVerified|apply verifyType_verifies|
    apply require_always; [apply lift_checks|
    apply require_always; [apply lift_checks|
    eapply (quiet_bind _ _ _ (always (∃ s, typeSize B (NTRType R) s ∧ s ≠ 0 ∧ fits s))); [apply size_quiet|]]]]]].
  - intros V (_ & HT & Hs & _ & Hf). done.
  - intros r (s & Hs & ->). destruct (s =? 0) eqn:Hz; [apply fail_verifies|]. apply Z.eqb_neq in Hz.
    eapply quiet_bind; [apply lift_quiet|]. intros [] Hf.
    + apply ret_verifies. intros V. exists s. split; [done|]. split; [done|by left].
    + eapply quiet_bind; [apply lift_quiet|]. intros n Hn. destruct (Z.ltb_spec n s); [apply fail_verifies|].
      apply ret_verifies. intros V. exists s. split; [done|]. split; [done|]. right. by exists n.
Qed.

Lemma verifyRegisters_verifies Arch Rs :
  verifies (verifyRegisters B fuel verifyD Arch Rs) (λ V, Forall (λ R, registerVerified Arch R V) Rs).
Proof.
  induction Rs as [|R Rs IH]; [by apply ret_verifies|].
  eapply verifies_weaken; [|eapply require_verifies;
    [|apply verifyRegister_verifies|apply require_always; [apply lift_checks|apply IH]]].
  - intros V ([HT [Hs Hf]] & Hu & HRs). constructor; [|done]. split; [|done].
    split; [apply HT|]. done.
  - apply (upward_and _ (always _)); [apply upward_typeVerified|apply upward_always].
Qed.

Lemma verifyPreserved_verifies Arch Rs :
  verifies (verifyPreserved Arch Rs) (always (Forall (λ R, Register.isUsedInArchitecture R Arch = Ok true) Rs)).
Proof using Type.
  induction Rs as [|R Rs IH]; [apply ret_verifies; intros V; constructor|].
  eapply verifies_weaken; [|apply require_always; [apply lift_checks|apply require_always; [apply lift_checks|apply IH]]].
  intros V (_ & Hu & HRs). by constructor.
Qed.

Lemma registers_verified Arch Rs V :
  Forall (λ R, registerVerified Arch R V) Rs →
  Forall (wfRegister B fuel Arch) Rs ∧ Forall (λ T, T = Empty ∨ typeVerified false T V) (present (map NTRType Rs)).
Proof using Type.
  intros HRs. split.
  - eapply Forall_impl; [exact HRs|]. by intros R [? ?].
  - apply Forall_forall. intros T [(R & -> & HR)%list_elem_of_fmap _]%present_elem. right.
    rewrite Forall_forall in HRs. apply HRs, HR.
Qed.

Lemma upward_registers Arch Rs : upward (λ V, Forall (λ R, registerVerified Arch R V) Rs).
Proof using Type.
  intros V V' HV HRs. eapply Forall_impl; [exact HRs|]. intros R. by apply upward_registerVerified.
Qed.

Lemma verifyStack_verifies T :
  verifies (if isEmpty T then mret true else require (verifyType B fuel verifyD T) $ mret true)
    (λ V, T = Empty ∨ typeVerified false T V).
Proof.
  destruct (isEmpty T) eqn:HT; [apply ret_verifies; left; by destruct T|].
  eapply verifies_weaken; [|apply require_verifies; [apply upward_typeVerified|apply verifyType_verifies|
    apply true_verifies]].
  intros V [? _]. by right.
Qed.

Lemma verifyRaw_verifies i Arch Args Rets Ps StackType :
  verifies (verifyRaw B fuel verifyD Arch Args Rets Ps StackType)
    (definitionVerified (RawFunctionDefinition i Arch Args Rets Ps StackType)).
Proof.
  eapply verifies_weaken; [|apply require_always; [apply lift_checks|
    apply require_verifies; [apply upward_registers|apply verifyRegisters_verifies|
    apply require_verifies; [apply upward_registers|apply verifyRegisters_verifies|
    apply require_always; [apply verifyPreserved_verifies|apply verifyStack_verifies]]]]].
  intros V (_ & HA & HR & HP & HS). apply registers_verified in HA as [HwA HeA].
  apply registers_verified in HR as [HwR HeR]. apply edges_verified.
  - split; [done|]. split; [done|]. split; [done|]. destruct HS as [->|[? ?]]; auto.
  - simpl. unfold rawEdges. apply Forall_app. split; [done|]. apply Forall_app. split; [done|].
    apply Forall_forall. intros T [HT Hne]%present_elem. set_solver.
Qed.

Lemma verifyImpl_verifies D : verifies (verifyImpl B fuel verifyD D) (definitionVerified D).
Proof.
  destruct D; simpl; [apply verifyCABI_verifies|apply verifyEnum_verifies|apply verifyRaw_verifies|
    apply verifyTypedef_verifies|apply verifyStruct_verifies|apply verifyUnion_verifies].
Qed.
End definitions.
Lemma setVerified_Ok k VH VH' u :
  setVerified k VH = Ok (VH', u) →
  k ∉ VerifiedCache VH ∧ VH' = mkVH ({[k]} ∪ VerifiedCache VH) (SizeCache VH) (InProgress VH) (AssertOnFail VH).
Proof using Type.
  unfold setVerified. intros [Hk [= <- <-]]%assert_inv. split; [|done].
  by apply negb_true_iff, bool_decide_eq_false in Hk.
Qed.

Lemma verificationInProgress_Ok k VH VH' u :
  verificationInProgress k VH = Ok (VH', u) →
  k ∉ InProgress VH ∧ VH' = mkVH (VerifiedCache VH) (SizeCache VH) ({[k]} ∪ InProgress VH) (AssertOnFail VH).
Proof using Type.
  unfold verificationInProgress. intros [Hk [_ [= <- <-]]%assert_inv]%assert_inv. split; [|done].
  by apply negb_true_iff, bool_decide_eq_false in Hk.
Qed.

Lemma verificationCompleted_Ok k VH VH' u :
  verificationCompleted k VH = Ok (VH', u) →
  VH' = mkVH (VerifiedCache VH) (SizeCache VH) (InProgress VH ∖ {[k]}) (AssertOnFail VH).
Proof using Type. unfold verificationCompleted. by intros [_ [= <- <-]]%assert_inv. Qed.

(** The end of the verification of a definition. *)
Definition finish (k : Key) (Result : bool) : M bool :=
  _ ← (if Result then _ ← setVerified k; verificationCompleted k else mret tt); maybeFail Result.

(** What happens between the mark of progress and the end. *)
Lemma body_verifies (m : M bool) D :
  lookup B (key D) = Some D → verifies m (definitionVerified D) →
  ∀ VH VH' b, inv B fuel VH → key D ∉ InProgress VH →
    (Result ← m; finish (key D) Result)
      (mkVH (VerifiedCache VH) (SizeCache VH) ({[key D]} ∪ InProgress VH) (AssertOnFail VH)) = Ok (VH', b) →
    advances VH VH' ∧
    (b = true → key D ∈ VerifiedCache VH' ∧ InProgress VH' = InProgress VH) ∧
    (b = false → InProgress VH' = ∅).
Proof.
  intros HD [Hc Hf] VH VH' b Hi Hnp (V1 & r & H1 & (V2 & ? & H2 & H3)%M_bind_Ok)%M_bind_Ok.
  destruct (Hc _ _ _ (Hi : inv B fuel (mkVH _ _ _ _)) H1) as [Ha1 Ht1]. destruct Ha1 as (Hi1 & HV1 & HA1).
  destruct (maybeFail_verifies r) as [Hc3 Hf3]. destruct r.
  - apply M_bind_Ok in H2 as (V3 & ? & [Hnv ->]%setVerified_Ok & ->%verificationCompleted_Ok).
    destruct (Ht1 eq_refl) as [[Hwf Hdep] HP1]. simpl in *.
    assert (inv B fuel (mkVH ({[key D]} ∪ VerifiedCache V1) (SizeCache V1) (InProgress V1 ∖ {[key D]}) (AssertOnFail V1)))
      as Hi2 by (split; [apply Hi1|by apply ordered_add; [apply Hi1|..]]).
    destruct (Hc3 _ _ _ Hi2 H3) as [(Hi3 & HV3 & HA3) Ht3]. unfold maybeFail in H3. simpl in H3.
    rewrite andb_false_r in H3. injection H3 as <- <-. simpl. split; [split; [done|split; [set_solver|done]]|].
    split; [|done]. intros _. split; [set_solver|]. rewrite HP1. set_solver.
  - injection H2 as -> _. destruct (Hc3 _ _ _ Hi1 H3) as [(Hi3 & HV3 & HA3) Ht3].
    simpl in HV1, HA1. split; [split; [done|split; [set_solver|congruence]]|]. split.
    + intros ->. by destruct (Ht3 eq_refl).
    + intros ->. eapply Hf3, H3. done.
Qed.

Lemma verifyDefinition_verifies steps D :
  lookup B (key D) = Some D → verifies (verifyDefinition B fuel steps D) (λ V, key D ∈ V).
Proof.
  revert D. induction steps as [|steps IH]; intros D HD; [apply undefined_verifies|].
  assert (∀ VH VH' b, inv B fuel VH → verifyDefinition B fuel (S steps) D VH = Ok (VH', b) →
    advances VH VH' ∧ (b = true → key D ∈ VerifiedCache VH' ∧ InProgress VH' = InProgress VH) ∧
    (b = false → InProgress VH' = ∅)) as Hall.
  { intros VH VH' b Hi (V1 & Verified & [= <- <-] & Hrun)%M_bind_Ok. case_bool_decide as Hv.
    { injection Hrun as <- <-. by split; [apply advances_refl|]. }
    apply M_bind_Ok in Hrun as (V1 & Busy & [= <- <-] & Hrun). case_bool_decide as Hb.
    { destruct (fail_verifies (λ _, False)) as [Hc Hf]. destruct (Hc _ _ _ Hi Hrun) as [Ha Ht].
      split; [done|]. split; [intros Hbt; by destruct (Ht Hbt)|intros ->; by eapply Hf]. }
    apply M_bind_Ok in Hrun as (V1 & ? & [_ ->]%verificationInProgress_Ok & Hrun).
    unfold require in Hrun. apply M_bind_Ok in Hrun as (V1 & valid & [= <- <-] & Hrun).
    destruct (negb (ID D =? 2 ^ 64 - 1)).
    - by eapply body_verifies; [|apply verifyImpl_verifies, IH| | |exact Hrun].
    - destruct (fail_verifies (λ _, False)) as [Hc Hf].
      destruct (Hc _ _ _ (Hi : inv B fuel (mkVH _ _ _ _)) Hrun) as [Ha Ht]. split; [done|].
      split; [intros Hbt; by destruct (Ht Hbt)|intros ->; eapply Hf, Hrun; exact Hi]. }
  split.
  - intros VH VH' b Hi Hrun. destruct (Hall _ _ _ Hi Hrun) as (? & ? & ?). done.
  - intros VH VH' Hi Hrun. destruct (Hall _ _ _ Hi Hrun) as (? & ? & ?). auto.
Qed.

Lemma upward_elem k : upward (λ V, k ∈ V).
Proof using Type. intros V V' HV. apply HV. Qed.

Lemma verifyDefinitions_verifies steps A Ds :
  Forall (λ D, lookup B (key D) = Some D) Ds →
  verifies (verifyDefinitions B fuel steps A Ds) (λ V, Forall (λ D, key D ∈ V) Ds).
Proof.
  induction 1 as [|D Ds HD HDs IH]; [by apply ret_verifies; intros V; constructor|].
  eapply verifies_weaken; [|apply require_verifies; [apply upward_elem|by apply verifyDefinition_verifies|
    apply (require_verifies _ (always True)); [apply upward_always| |exact IH]]].
  - intros V (? & _ & ?). by constructor.
  - intros VH VH' b Hi. destruct D; try (intros [= <- <-]; by split; [apply advances_refl|]).
    intros (V1 & a & [_ ->]%lift_Ok & [= <- <-])%M_bind_Ok. by split; [apply advances_refl|].
Qed.
End soundness.

(** *** Layout of structs *)

(** No sum of an offset and a size wraps around. *)
Definition noOverflow (B : list TypeDefinition) (F : StructField) : Prop :=
  ∀ s, typeSize B (StructFieldType F) s → 0 ≤ Offset F ∧ 0 ≤ s ∧ Offset F + s < 2 ^ 64.

(** The field [F] ends at most at [limit]. *)
Definition endsBy (B : list TypeDefinition) (F : StructField) (limit : Z) : Prop :=
  ∃ s, typeSize B (StructFieldType F) s ∧ 0 < s ∧ Offset F + s ≤ limit.

Lemma structLayout_head B n F Fs :
  structLayout B n (F :: Fs) → Forall (noOverflow B) (F :: Fs) →
  endsBy B F (match Fs with Next :: _ => Offset Next | [] => n end).
Proof.
  intros (_ & (s & Hs & Hz & _ & Hle) & _) [HF _]%Forall_cons. destruct (HF s Hs) as (? & ? & ?).
  exists s. split; [done|]. split; [lia|]. by rewrite wrap_small in Hle by (unfold in_width; lia).
Qed.

Lemma endsBy_le B F l l' : endsBy B F l → l ≤ l' → endsBy B F l'.
Proof. intros (s & ? & ? & ?) Hl. exists s. split; [done|]. lia. Qed.

(** Every later field, and the end of the struct, comes after the first field. *)
Lemma structLayout_after B n F Fs :
  structLayout B n (F :: Fs) → Forall (noOverflow B) (F :: Fs) →
  endsBy B F n ∧ Forall (λ G, endsBy B F (Offset G)) Fs.
Proof.
  revert F. induction Fs as [|G Fs IH]; intros F HL HO; pose proof (structLayout_head B n F _ HL HO) as HF.
  - by split.
  - destruct HL as (_ & _ & HL). apply Forall_cons in HO as [_ HO].
    destruct (IH G HL HO) as [Hn HFs]. split.
    + eapply endsBy_le; [exact HF|]. destruct Hn as (? & ? & ? & ?). lia.
    + constructor; [done|]. eapply Forall_impl; [exact HFs|]. intros G' (? & ? & ? & ?).
      eapply endsBy_le; [exact HF|]. lia.
Qed.

Lemma structLayout_nth B n Fs i F :
  structLayout B n Fs → Forall (noOverflow B) Fs → Fs !! i = Some F →
  endsBy B F n ∧ ∀ j G, (i < j)%nat → Fs !! j = Some G → endsBy B F (Offset G).
Proof.
  revert i. induction Fs as [|F0 Fs IH]; [done|]. intros [|i] HL HO Hi; simpl in Hi.
  - injection Hi as ->. destruct (structLayout_after B n F Fs HL HO) as [Hn HFs]. split; [done|].
    intros [|j] G Hj HG; [lia|]. rewrite Forall_lookup in HFs. eauto.
  - destruct HL as (_ & _ & HL). apply Forall_cons in HO as [_ HO].
    destruct (IH i HL HO Hi) as [Hn HFs]. split; [done|]. intros [|j] G Hj HG; [lia|]. apply (HFs j); [lia|done].
Qed.

Lemma verifyTypeDefinitions_ordered `{LLVMMath} B fuel steps A a VH :
  keysUnique B → verifyTypeDefinitions B fuel steps A (freshVH a) = Ok (VH, true) →
  ordered B fuel (VerifiedCache VH) ∧ ∀ D, D ∈ B → key D ∈ VerifiedCache VH.
Proof.
  intros HB Hrun.
  assert (Forall (λ D, lookup B (key D) = Some D) B) as HBs by by apply Forall_forall.
  assert (inv B fuel (freshVH a)) as Hi by (split; [intros ? ? [=]|by exists (λ _, O)]).
  destruct (verifyDefinitions_verifies B fuel steps A B HBs) as [Hc _].
  destruct (Hc _ _ _ Hi Hrun) as [[[_ Ho] _] Ht]. split; [done|].
  destruct (Ht eq_refl) as [HV _]. by rewrite Forall_forall in HV.
Qed.

Lemma verified_wf `{LLVMMath} B fuel steps A a VH D :
  keysUnique B → verifyTypeDefinitions B fuel steps A (freshVH a) = Ok (VH, true) → D ∈ B → wfDefinition B fuel D.
Proof.
  intros HB Hrun HD. destruct (verifyTypeDefinitions_ordered B fuel steps A a VH HB Hrun) as [[rank Hr] HV].
  destruct (Hr _ (HV D HD)) as (D' & HD' & ? & _). pose proof (HB D HD). by assert (D' = D) as <- by congruence.
Qed.

(** ** Properties *)

(** C1: verification is sound: when [Binary::verifyTypeDefinitions] accepts, every
    definition is well formed (its types have valid references, lengths, pointer
    sizes and primitives, what needs a size has one, fields, arguments and
    registers fit) and no definition is defined in terms of itself, except
    structs and unions behind a pointer: definitions can be ranked so that each
    one only depends on definitions of a smaller rank. Whatever it answers,
    nothing is left in progress, which the destructor of [VerifyHelper] asserts. *)
Theorem verification_sound `{LLVMMath} B fuel steps A a VH b :
  keysUnique B → verifyTypeDefinitions B fuel steps A (freshVH a) = Ok (VH, b) →
  InProgress VH = ∅ ∧
  (b = true → ∃ rank : Key → nat, ∀ D, D ∈ B → wfDefinition B fuel D ∧
     ∀ k, dependsOn B fuel D k → ∃ D', D' ∈ B ∧ key D' = k ∧ (rank k < rank (key D))%nat).
Proof.
  intros HB Hrun. split.
  - assert (Forall (λ D, lookup B (key D) = Some D) B) as HBs by by apply Forall_forall.
    assert (inv B fuel (freshVH a)) as Hi by (split; [intros ? ? [=]|by exists (λ _, O)]).
    destruct (verifyDefinitions_verifies B fuel steps A B HBs) as [Hc Hf]. destruct b; [|by eapply Hf].
    destruct (Hc _ _ _ Hi Hrun) as [_ Ht]. by destruct (Ht eq_refl) as [_ ->].
  - intros ->. destruct (verifyTypeDefinitions_ordered B fuel steps A a VH HB Hrun) as [[rank Hr] HV].
    exists rank. intros D HD. split; [by eapply verified_wf|]. intros k Hk.
    destruct (Hr _ (HV D HD)) as (D1 & HD1 & _ & Hdep). pose proof (HB D HD).
    assert (D1 = D) as -> by congruence. destruct (Hdep k Hk) as [Hin Hlt].
    destruct (Hr k Hin) as (D' & HD' & _). destruct (lookup_key B k D' HD') as [? ?]. by exists D'.
Qed.

(** [struct { uint32_t a; struct list *next; }], an enum and a function. *)
Definition u32 : UpcastableType := PrimitiveType (PrimitiveType.make PrimitiveKind.Unsigned 4).
Definition sampleFields : list StructField :=
  [mkStructField 0 u32; mkStructField 8 (PointerType false 8 (DefinedType false (Some (3, StructKind))))].
Definition sampleBinary : list TypeDefinition := [
  CABIFunctionDefinition 1 ABI.SystemV_x86_64 u32 [mkArgument 0 (DefinedType false (Some (2, EnumKind)))];
  EnumDefinition 2 u32 [0; 1];
  StructDefinition 3 16 sampleFields].

Lemma sample_unique : keysUnique sampleBinary.
Proof. intros D HD. repeat (apply elem_of_cons in HD as [->|HD]; [reflexivity|]). by apply elem_of_nil in HD. Qed.

Definition is_verified (r : outcome (VerifyHelper * bool)) : bool :=
  match r with Ok (_, b) => b | Fault _ => false end.

Lemma is_verified_Ok r : is_verified r = true → ∃ VH, r = Ok (VH, true).
Proof. destruct r as [[VH []]|]; [by exists VH|done..]. Qed.

Lemma verification_sound_witness :
  is_verified (@verifyTypeDefinitions concreteMath sampleBinary 3 3 Architecture.x86_64 (freshVH false)) = true ∧
  ∃ rank : Key → nat, ∀ D, D ∈ sampleBinary → wfDefinition sampleBinary 3 D ∧
    ∀ k, dependsOn sampleBinary 3 D k → ∃ D', D' ∈ sampleBinary ∧ key D' = k ∧ (rank k < rank (key D))%nat.
Proof.
  assert (is_verified (@verifyTypeDefinitions concreteMath sampleBinary 3 3 Architecture.x86_64 (freshVH false)) = true)
    as Hv by (vm_compute; reflexivity).
  split; [exact Hv|]. destruct (is_verified_Ok _ Hv) as [VH HVH].
  destruct (@verification_sound concreteMath _ _ _ _ _ _ _ sample_unique HVH) as [_ Hr]. exact (Hr eq_refl).
Defined.

(** In a verified struct, when no sum of an offset and a size exceeds 64 bits,
    every field has a positive size, ends inside of the struct, and ends before
    any later field begins: fields are pairwise disjoint. *)
Theorem verified_fields_disjoint `{LLVMMath} B fuel steps A a VH i n Fs :
  keysUnique B → verifyTypeDefinitions B fuel steps A (freshVH a) = Ok (VH, true) →
  StructDefinition i n Fs ∈ B → Forall (noOverflow B) Fs →
  ∀ p F, Fs !! p = Some F → endsBy B F n ∧ ∀ q G, (p < q)%nat → Fs !! q = Some G → endsBy B F (Offset G).
Proof.
  intros HB Hrun HD HO p F HF. destruct (verified_wf B fuel steps A a VH _ HB Hrun HD) as [_ HL].
  by apply structLayout_nth.
Qed.

Lemma verified_fields_disjoint_witness :
  ∃ VH, @verifyTypeDefinitions concreteMath sampleBinary 3 3 Architecture.x86_64 (freshVH false) = Ok (VH, true) ∧
    endsBy sampleBinary (mkStructField 0 u32) 8.
Proof.
  assert (is_verified (@verifyTypeDefinitions concreteMath sampleBinary 3 3 Architecture.x86_64 (freshVH false)) = true)
    as Hv by (vm_compute; reflexivity).
  destruct (is_verified_Ok _ Hv) as [VH HVH]. exists VH. split; [exact HVH|].
  refine (proj2 (@verified_fields_disjoint concreteMath _ _ _ _ _ _ 3 16 sampleFields sample_unique HVH _ _ O _ eq_refl)
            1%nat _ _ eq_refl); [| |lia].
  - unfold sampleBinary. apply elem_of_cons. right. apply elem_of_cons. right. apply elem_of_cons. by left.
  - repeat (apply Forall_cons; split); [| |by constructor];
      intros s [d Hs]; destruct d; injection Hs as <-; simpl; lia.
Defined.

(** The sums of offsets and sizes wrap around: a struct of 8 bytes whose field
    at offset 1 has a size of 2^64 - 1 bytes is verified, and the size of an
    array of 2^62 elements of 4 bytes is 0. *)
Theorem overflowing_sizes_accepted `{LLVMMath} A :
  let B := [StructDefinition 1 8 [mkStructField 1 (DefinedType false (Some (2, StructKind)))];
            StructDefinition 2 (2 ^ 64 - 1) []] in
  (∃ VH, verifyTypeDefinitions B 3 3 A (freshVH false) = Ok (VH, true)) ∧
  typeSize [] (ArrayType false (2 ^ 62) u32) 0.
Proof.
  split; [|by exists 1%nat]. eexists. cbv delta [verifyTypeDefinitions]. vm_compute. reflexivity.
Qed.

(** A [typedef] of itself is skipped forever. *)
Lemma skip_self B fuel k i c :
  unwrap B (Some k) = Ok (TypedefDefinition i (DefinedType c (Some k))) →
  skipConstAndTypedefsOf B fuel (DefinedType c (Some k)) = Fault OutOfFuel.
Proof.
  intros Hk. induction fuel as [|fuel IH]; cbn [skipConstAndTypedefsOf]; rewrite Hk; [done|].
  cbn. exact IH.
Qed.

Lemma isOpaque_self B fuel k i c :
  unwrap B (Some k) = Ok (TypedefDefinition i (DefinedType c (Some k))) →
  isOpaque B fuel (DefinedType c (Some k)) = Fault OutOfFuel.
Proof. intros Hk. unfold isOpaque, getStruct, unwrapDefinition. cbn. by rewrite (skip_self B fuel k i c Hk). Qed.

Definition loopBinary : list TypeDefinition :=
  [TypedefDefinition 1 (PointerType false 8 (DefinedType false (Some (2, TypedefKind))));
   TypedefDefinition 2 (DefinedType false (Some (2, TypedefKind)))].

(** The verification of a [typedef] that comes first is that of its type. *)
Lemma typedef_first `{LLVMMath} B fuel steps A a i U Ds e :
  ID (TypedefDefinition i U) ≠ 2 ^ 64 - 1 → isEmpty U = false →
  verifyType B fuel (verifyDefinition B fuel steps) U (mkVH ∅ ∅ ({[(i, TypedefKind)]} ∪ ∅) a) = Fault e →
  verifyDefinitions B fuel (S steps) A (TypedefDefinition i U :: Ds) (freshVH a) = Fault e.
Proof.
  intros Hi%Z.eqb_neq HU Hrun. cbn [verifyDefinitions]. unfold require at 1. apply M_bind_Fault.
  cbn [verifyDefinition]. erewrite M_bind_run by reflexivity. rewrite bool_decide_eq_false_2 by (apply not_elem_of_empty).
  erewrite M_bind_run by reflexivity. rewrite bool_decide_eq_false_2 by (apply not_elem_of_empty).
  erewrite M_bind_run by (unfold verificationInProgress; simpl; rewrite !bool_decide_eq_false_2 by (apply not_elem_of_empty); reflexivity).
  unfold require at 1. erewrite M_bind_run by reflexivity. rewrite Hi. cbn [negb]. apply M_bind_Fault.
  cbn [verifyImpl]. unfold verifyTypedef, require. erewrite M_bind_run by reflexivity. rewrite HU. cbn [negb].
  by apply M_bind_Fault.
Qed.

(** Verification does not end on every binary: neither on a [typedef] of an
    array of itself, nor on a [typedef] of a pointer to a [typedef] of itself
    with a larger identifier, whatever the fuel. *)
Theorem verification_diverges `{LLVMMath} fuel steps A a :
  verifyTypeDefinitions [selfArray 1 2] fuel steps A (freshVH a) = Fault OutOfFuel ∧
  verifyTypeDefinitions loopBinary fuel steps A (freshVH a) = Fault OutOfFuel.
Proof.
  assert (isPowerOf2_64 8 = true) as H8 by (apply isPowerOf2_64_spec; [done|by exists 3]).
  split; destruct steps as [|steps]; try done; apply typedef_first; try done; cbn [verifyType verifyLoop].
  - do 2 (unfold require at 1; erewrite M_bind_run by reflexivity; cbn [Z.eqb isEmpty negb Pos.eqb]).
    unfold require at 1, hasSize, size. do 3 apply M_bind_Fault. by apply trySize_self.
  - unfold require at 1; erewrite M_bind_run by reflexivity. rewrite H8.
    do 3 (unfold require at 1; erewrite M_bind_run by reflexivity; cbn [Z.eqb isEmpty negb andb Pos.eqb]).
    apply M_bind_Fault. apply lift_Fault. by apply (isOpaque_self loopBinary fuel (2, TypedefKind) 2 false).
Qed.

(** Verification of some malformed binaries is undefined or aborts instead of
    answering false: reporting that a field overlaps the next one dereferences
    the size of the next one, which may have none; and the type of a register
    is asked to be a scalar before being asked to be an object. *)
Theorem malformed_not_rejected `{LLVMMath} A :
  verifyTypeDefinitions [StructDefinition 1 8 [mkStructField 0 u32; mkStructField 2 Empty]] 1 1 A (freshVH false)
    = undefined ∧
  verifyTypeDefinitions [StructDefinition 1 8 [mkStructField 0 u32; mkStructField 2 (PrimitiveType PrimitiveType.makeVoid)]]
    1 1 A (freshVH false) = undefined ∧
  verifyTypeDefinitions [RawFunctionDefinition 1 Architecture.x86_64
      [mkNTR Register.rax_x86_64 (PrimitiveType PrimitiveType.makeVoid)] [] [] Empty]
    1 1 A (freshVH false) = Fault AssertionFailed.
Proof. split; [|split]; vm_compute; reflexivity. Qed.
