(* ===== verification/Expected.v ===== *)
(** * Recoverable errors

    [llvm::Expected<A>] and [llvm::Error]: a value or the message of an error,
    which the caller handles, unlike the faults of [outcome]. *)

From S2P Require Import Prelude.
From stdpp Require Import strings.

Inductive expected (A : Type) : Type :=
  | Success (a : A)
  | Error (Message : string).

Arguments Success {A} a.
Arguments Error {A} Message.

Notation Expected A := (outcome (expected A)).

Definition ebind {A B} (m : Expected A) (f : A → Expected B) : Expected B :=
  match m with
  | Ok (Success a) => f a
  | Ok (Error e) => Ok (Error e)
  | Fault x => Fault x
  end.

(** A computation that has no recoverable errors. *)
Definition noError {A} (m : outcome A) : Expected A := Success <$> m.

Notation success a := (Ok (Success a)).
(** [revng::createError] *)
Notation createError e := (Ok (Error e)).

Notation "x ←? y ; z" := (ebind y (λ x : _, z))
  (at level 20, y at level 100, z at level 200, only parsing) : stdpp_scope.
Notation "' x ←? y ; z" := (ebind y (λ x : _, z))
  (at level 20, x pattern, y at level 100, z at level 200, only parsing) : stdpp_scope.

Lemma ebind_inv {A B} (m : Expected A) (f : A → Expected B) b :
  ebind m f = success b → ∃ a, m = success a ∧ f a = success b.
Proof. destruct m as [[a|e]|x]; cbn; naive_solver. Qed.

Lemma noError_inv {A} (m : outcome A) a : noError m = success a → m = Ok a.
Proof. destruct m; cbn; naive_solver. Qed.

(** Split a hypothesis that a sequence succeeds into the results of its steps. *)
Ltac invert_success :=
  repeat match goal with
  | H : ebind _ _ = success _ |- _ =>
      let x := fresh "r" in let E := fresh "E" in apply ebind_inv in H as (x & E & H)
  | H : noError _ = success _ |- _ => apply noError_inv in H
  | H : success _ = success _ |- _ => injection H as H
  | H : createError _ = success _ |- _ => discriminate H
  end.

(** The computation does not fault, and a value it succeeds with satisfies [P]. *)
Definition yields {A} (m : Expected A) (P : A → Prop) : Prop :=
  match m with
  | Ok (Success a) => P a
  | Ok (Error _) => True
  | Fault _ => False
  end.

Lemma yields_bind {A B} (m : Expected A) (f : A → Expected B) P Q :
  yields m P → (∀ a, P a → yields (f a) Q) → yields (ebind m f) Q.
Proof. destruct m as [[a|e]|x]; cbn; naive_solver. Qed.

Lemma yields_weaken {A} (m : Expected A) (P Q : A → Prop) : yields m P → (∀ a, P a → Q a) → yields m Q.
Proof. destruct m as [[a|e]|x]; cbn; naive_solver. Qed.

(** [f] on each element, until one fails. *)
Fixpoint eachOf {A B} (f : A → B → Expected B) (l : list A) (b : B) : Expected B :=
  match l with
  | [] => success b
  | x :: l => b ←? f x b; eachOf f l b
  end.

Lemma eachOf_yields {A B} (f : A → B → Expected B) (P : B → Prop) l b :
  (∀ x b, x ∈ l → P b → yields (f x b) P) → P b → yields (eachOf f l b) P.
Proof.
  revert b. induction l as [|x l IH]; intros b Hf Hb; cbn; [done|].
  eapply yields_bind; [apply Hf; [by left|done]|]. intros b' Hb'. apply IH; [|done]. intros; apply Hf; [by right|done].
Qed.

(** ** Computations on a state

    An error leaves the state as it is when it is raised. *)

Section stateful.
  Context {S : Type}.

Definition Stateful (A : Type) : Type := S → outcome (expected A * S).

Definition sret {A} (a : A) : Stateful A := λ s, Ok (Success a, s).

Definition sbind {A B} (m : Stateful A) (f : A → Stateful B) : Stateful B := λ s,
  match m s with
  | Ok (Success a, s) => f a s
  | Ok (Error e, s) => Ok (Error e, s)
  | Fault x => Fault x
  end.

(** A computation that does not touch the state. *)
Definition lift {A} (m : Expected A) : Stateful A := λ s, r ← m; Ok (r, s).

Definition read {A} (f : S → A) : Stateful A := λ s, Ok (Success (f s), s).

Definition modify (f : S → S) : Stateful unit := λ s, Ok (Success tt, f s).

Fixpoint forEach {A} (f : A → Stateful unit) (l : list A) : Stateful unit :=
  match l with
  | [] => sret tt
  | x :: l => sbind (f x) (λ _, forEach f l)
  end.

(** A loop that carries a value. *)
Fixpoint eachWith {A B} (f : A → B → Stateful B) (l : list A) (b : B) : Stateful B :=
  match l with
  | [] => sret b
  | x :: l => sbind (f x b) (eachWith f l)
  end.

Lemma sbind_inv {A B} (m : Stateful A) (f : A → Stateful B) s b s' :
  sbind m f s = Ok (Success b, s') → ∃ a s1, m s = Ok (Success a, s1) ∧ f a s1 = Ok (Success b, s').
Proof. unfold sbind. destruct (m s) as [[[a|e] s1]|x]; naive_solver. Qed.

Lemma lift_inv {A} (m : Expected A) s a s' : lift m s = Ok (Success a, s') → m = success a ∧ s' = s.
Proof. unfold lift. destruct m; cbn; naive_solver. Qed.

Lemma eachWith_app {A B} (f : A → B → Stateful B) l l' b s :
  eachWith f (l ++ l') b s = sbind (eachWith f l b) (eachWith f l') s.
Proof.
  revert b s. induction l as [|x l IH]; intros b s; cbn; [done|]. unfold sbind in *.
  destruct (f x b s) as [[[b'|e] s']|y]; cbn; [apply IH|done|done].
Qed.

(** An invariant of a loop. *)
Lemma eachWith_inv {A B} (f : A → B → Stateful B) (P : B → S → Prop) l b s b' s' :
  (∀ x b s b' s', x ∈ l → P b s → f x b s = Ok (Success b', s') → P b' s') →
  P b s → eachWith f l b s = Ok (Success b', s') → P b' s'.
Proof.
  revert b s. induction l as [|x l IH]; cbn; intros b s Hf HP H.
  - by injection H as -> ->.
  - apply sbind_inv in H as (b1 & s1 & H1 & H). eapply IH; [|by eapply Hf; [left| |]|done].
    intros; eapply Hf; [by right|done|done].
Qed.

Lemma forEach_inv {A} (f : A → Stateful unit) (P : S → Prop) l s u s' :
  (∀ x s u s', P s → f x s = Ok (Success u, s') → P s') → P s → forEach f l s = Ok (Success u, s') → P s'.
Proof.
  intros Hf. revert s. induction l as [|x l IH]; cbn; intros s HP H.
  - by injection H as _ ->.
  - apply sbind_inv in H as (u1 & s1 & H1 & H). eapply IH; [by eapply Hf|done].
Qed.

(** What each step establishes and none undoes holds of all the elements. *)
Lemma forEach_all {A} (f : A → Stateful unit) (Q : A → S → Prop) l s u s' :
  (∀ x s u s', f x s = Ok (Success u, s') → Q x s' ∧ ∀ y, Q y s → Q y s') →
  forEach f l s = Ok (Success u, s') → ∀ x, x ∈ l → Q x s'.
Proof.
  intros Hf. revert s. induction l as [|y l IH]; cbn; intros s H x Hx; [by apply elem_of_nil in Hx|].
  apply sbind_inv in H as (u1 & s1 & H1 & H). apply elem_of_cons in Hx as [Hx|Hx]; [|by eapply IH].
  apply Hf in H1 as [H1 _]. rewrite <-Hx in H1.
  apply (forEach_inv f (Q x) l s1 u s'); [|done|done]. intros z s2 u2 s3 HQ H2. by apply (Hf z s2 u2 s3 H2).
Qed.
End stateful.

Arguments Stateful : clear implicits.

Notation "x ←! y ; z" := (sbind y (λ x : _, z))
  (at level 20, y at level 100, z at level 200, only parsing) : stdpp_scope.
Notation "' x ←! y ; z" := (sbind y (λ x : _, z))
  (at level 20, x pattern, y at level 100, z at level 200, only parsing) : stdpp_scope.
