(* ===== verification/Requests.v ===== *)
(** * Requests of objects

    What the pipeline is asked for: the kinds of the objects, their identifiers
    (include/revng/PipeboxCommon/ObjectID.h), the objects a model has
    (include/revng/PipeboxCommon/Model.h), the sets of objects of one kind and the
    requests of a set for each container (include/revng/Runner/Requests.h,
    lib/Runner/Requests.cpp). [std::set] and [std::map] are finite sets and maps;
    where the order they are visited in can be seen, it is that of [operator<=>]. *)

From S2P Require Import Prelude.
From stdpp Require Import countable gmap sorting.
From S2P Require MetaAddressType.
From S2P Require MetaAddress.
From S2P Require MetaAddressText.
From S2P Require ModelTypes.

Notation MetaAddress := MetaAddress.MetaAddress.
Notation TypeDefinitionKey := ModelTypes.Key.

(** ** Kinds *)

(* include/revng/PipeboxCommon/ObjectID.h:21-25 Kind::ValueType *)
Inductive Kind : Set := Binary | Function_ | TypeDefinition.

#[global] Instance Kind_eq_dec : EqDecision Kind.
Proof. solve_decision. Defined.

(* include/revng/PipeboxCommon/ObjectID.h:37-41 Kind::kinds *)
Definition kinds : list Kind := [Binary; Function_; TypeDefinition].

(* include/revng/PipeboxCommon/ObjectID.h:43-50 Kind::parent *)
Definition parentKind (K : Kind) : option Kind :=
  match K with Binary => None | Function_ | TypeDefinition => Some Binary end.

(** The bytes a key of the kind is packed in. *)
(* include/revng/PipeboxCommon/ObjectID.h:76-86 Kind::byteSize *)
Definition byteSize (K : Kind) : nat :=
  match K with
  | Binary => 0
  | Function_ => MetaAddressText.BytesSize
  | TypeDefinition => MetaAddressText.packedSize [8; 1]
  end.

(* include/revng/PipeboxCommon/ObjectID.h:188-190 ObjectID::kindByte *)
Definition kindByte (K : Kind) : Z := match K with Binary => 0 | Function_ => 1 | TypeDefinition => 2 end.

(** ** Identifiers *)

(* include/revng/PipeboxCommon/ObjectID.h:109-121 ObjectID *)
Inductive ObjectID : Type :=
  | RootID
  | FunctionID (Entry : MetaAddress)
  | TypeDefinitionID (Key : TypeDefinitionKey).

#[global] Instance ObjectID_eq_dec : EqDecision ObjectID.
Proof. solve_decision. Defined.

#[global] Instance ObjectID_countable : Countable ObjectID.
Proof.
  pose (enc (V : MetaAddressType.Values) := match V with MetaAddressType.Unnamed r => inr r | _ => inl (MetaAddressType.toRaw V) end).
  pose (dec (s : Z + Z) := match s with inl r => MetaAddressType.fromRaw r | inr r => MetaAddressType.Unnamed r end).
  apply (inj_countable'
    (λ o, match o with
          | RootID => inl (inl tt)
          | FunctionID m => inl (inr (MetaAddress.Epoch m, MetaAddress.AddressSpace m, enc (MetaAddress.Type_ m), MetaAddress.Address m))
          | TypeDefinitionID k => inr k
          end)
    (λ s, match s with
          | inl (inl _) => RootID
          | inl (inr (e, s, t, a)) => FunctionID (MetaAddress.mkMA e s (dec t) a)
          | inr k => TypeDefinitionID k
          end)).
  intros [|[e s t a]|k]; [done| |done]. by destruct t.
Defined.

(* include/revng/PipeboxCommon/ObjectID.h:123-135 ObjectID::kind *)
Definition kind (o : ObjectID) : Kind :=
  match o with RootID => Binary | FunctionID _ => Function_ | TypeDefinitionID _ => TypeDefinition end.

(* include/revng/PipeboxCommon/ObjectID.h:137-145 ObjectID::parent *)
Definition parent (o : ObjectID) : option ObjectID :=
  match kind o with Binary => None | Function_ | TypeDefinition => Some RootID end.

(* include/revng/PipeboxCommon/ObjectID.h:147-147 ObjectID::root *)
Definition root : ObjectID := RootID.

(** The alternatives of the variant are compared first. *)
(* include/revng/PipeboxCommon/ObjectID.h:233-233 ObjectID::operator<=> *)
Definition compareID (o p : ObjectID) : comparison :=
  match o, p with
  | RootID, RootID => Eq
  | FunctionID m, FunctionID n => MetaAddress.compare m n
  | TypeDefinitionID k, TypeDefinitionID l => ModelTypes.keyCompare k l
  | _, _ => (kindByte (kind o) ?= kindByte (kind p))%Z
  end.

(** The objects of a [std::set], in the order they are visited. *)
Definition inOrder (s : gset ObjectID) : list ObjectID :=
  merge_sort (λ o p, compareID o p ≠ Gt) (elements s).

Lemma elem_of_inOrder o s : o ∈ inOrder s ↔ o ∈ s.
Proof. unfold inOrder. by rewrite merge_sort_Permutation, elem_of_elements. Qed.

(* include/revng/PipeboxCommon/ObjectID.h:193-210 ObjectID::toBytes *)
Definition toBytes `{MetaAddressText.LLVMEndian} (o : ObjectID) : list Z :=
  match o with
  | RootID => []
  | FunctionID m => kindByte Function_ :: MetaAddressText.toBytes m
  | TypeDefinitionID (ID, K) =>
    kindByte TypeDefinition :: MetaAddressText.packBytes [(8, ID); (1, ModelTypes.kindRaw K)]
  end.

(** [None] is an error; the kind of a definition is the cast of its byte, which
    may not be the kind of any. *)
(* include/revng/PipeboxCommon/ObjectID.h:212-228 ObjectID::fromBytes *)
Definition fromBytes `{MetaAddressText.LLVMEndian} (Bytes : list Z) : outcome (option ObjectID) :=
  match Bytes with
  | [] => Ok (Some RootID)
  | b :: Data =>
    if (length Bytes =? 1 + MetaAddressText.BytesSize) && (b =? kindByte Function_)%Z then
      m ← MetaAddressText.fromBytes Data; Ok (Some (FunctionID m))
    else if (length Bytes =? 1 + MetaAddressText.packedSize [8; 1]) && (b =? kindByte TypeDefinition)%Z then
      fields ← MetaAddressText.unpackBytes [8; 1] Data;
      match fields with
      | [ID; K] => match ModelTypes.kindFromRaw K with Some K => Ok (Some (TypeDefinitionID (ID, K))) | None => undefined end
      | _ => undefined
      end
    else Ok None
  end.

(** ** The objects of a model *)

(** What is read of the binary: the keys of its functions and definitions. *)
Class ModelBinary (B : Type) := {
  Functions : B → list MetaAddress;
  TypeDefinitions : B → list TypeDefinitionKey;
}.

Section requests.
  Context {B : Type} `{!ModelBinary B}.

(* include/revng/PipeboxCommon/Model.h:52-68 Model::children *)
Definition children (TheModel : B) (Obj : ObjectID) (K : Kind) : outcome (gset ObjectID) :=
  match kind Obj, K with
  | Binary, Function_ => Ok (list_to_set (FunctionID <$> Functions TheModel))
  | Binary, TypeDefinition => Ok (list_to_set (TypeDefinitionID <$> TypeDefinitions TheModel))
  | _, _ => revng_abort
  end.

(** ** Sets of objects *)

(* include/revng/Runner/Requests.h:23-31 ObjectSet *)
Record ObjectSet := mkSet { TheKind : Kind; Objects : gset ObjectID }.

(* include/revng/Runner/Requests.h:29-29 ObjectSet::ObjectSet(Kind) *)
Definition emptySet (K : Kind) : ObjectSet := mkSet K ∅.

(* include/revng/Runner/Requests.h:35-35 ObjectSet::empty *)
Definition setEmpty (s : ObjectSet) : bool := bool_decide (Objects s = ∅).

(* include/revng/Runner/Requests.h:42-45 ObjectSet::insert *)
Definition insert (Object : ObjectID) (s : ObjectSet) : outcome ObjectSet :=
  revng_assert (bool_decide (kind Object = TheKind s));;
  Ok (mkSet (TheKind s) ({[Object]} ∪ Objects s)).

(* include/revng/Runner/Requests.h:47-50 ObjectSet::merge *)
Definition mergeSet (s Other : ObjectSet) : outcome ObjectSet :=
  revng_assert (bool_decide (TheKind Other = TheKind s));;
  Ok (mkSet (TheKind s) (Objects s ∪ Objects Other)).

(* include/revng/Runner/Requests.h:52-54 ObjectSet::contains *)
Definition contains (s : ObjectSet) (Object : ObjectID) : bool := bool_decide (Object ∈ Objects s).

(** Insert one by one. *)
Definition insertAll (os : list ObjectID) (s : ObjectSet) : outcome ObjectSet :=
  foldl (λ s o, s ← s; insert o s) (Ok s) os.

(* lib/Runner/Requests.cpp:9-15 ObjectSet::subtract *)
Definition subtract (s : ObjectSet) (Other : gset ObjectID) : outcome ObjectSet :=
  insertAll (filter (λ o, o ∉ Other) (inOrder (Objects s))) (emptySet (TheKind s)).

(* lib/Runner/Requests.cpp:17-43 moveToKind *)
Definition moveToKind (TheModel : B) (s : ObjectSet) (Destination : Kind) : outcome ObjectSet :=
  if setEmpty s then Ok (emptySet Destination)
  else if bool_decide (TheKind s = Destination) then Ok s
  else if bool_decide (Destination = Binary) then Ok (mkSet Destination {[root]})
  else if bool_decide (TheKind s = Binary) then
    Children ← mapM (λ Object, children TheModel Object Destination) (inOrder (Objects s));
    insertAll (Children ≫= inOrder) (emptySet Destination)
  else Ok (emptySet Destination).

(** ** Requests *)

(** [Requests] is a map from the declarations of containers. *)
Notation Requests := (gmap nat ObjectSet).

(* lib/Runner/Requests.cpp:45-50 Requests::empty *)
Definition empty (R : Requests) : bool := forallb (λ e, setEmpty e.2) (map_to_list R).

(* lib/Runner/Requests.cpp:52-58 Requests::merge *)
Definition merge (Declaration : nat) (s : ObjectSet) (R : Requests) : outcome Requests :=
  match R !! Declaration with
  | None => Ok (<[Declaration := s]> R)
  | Some It => It ← mergeSet It s; Ok (<[Declaration := It]> R)
  end.

(** Merge one by one. *)
Definition mergeAll (Other : list (nat * ObjectSet)) (R : Requests) : outcome Requests :=
  foldl (λ R e, R ← R; merge e.1 e.2 R) (Ok R) Other.

(* lib/Runner/Requests.cpp:60-63 Requests::merge *)
Definition mergeRequests (R Other : Requests) : outcome Requests := mergeAll (map_to_list Other) R.

(* lib/Runner/Requests.cpp:65-71 Requests::minimize *)
Definition minimize (R : Requests) : Requests := filter (λ e, setEmpty e.2 = false) R.

(** *** What the requests ask of a container *)

(** The objects asked of a declaration. *)
Definition asked (R : Requests) (Declaration : nat) : gset ObjectID := from_option Objects ∅ (R !! Declaration).

(** The objects of each set are of its kind, which is that of the container. *)
Definition kinded (s : ObjectSet) : Prop := ∀ o, o ∈ Objects s → kind o = TheKind s.

Definition wellKinded (kindOf : nat → option Kind) (R : Requests) : Prop :=
  map_Forall (λ d s, kindOf d = Some (TheKind s) ∧ kinded s) R.

(** *** Facts *)

#[local] Arguments insertAll : simpl never.

Lemma insertAll_ok os s :
  Forall (λ o, kind o = TheKind s) os → insertAll os s = Ok (mkSet (TheKind s) (list_to_set os ∪ Objects s)).
Proof.
  unfold insertAll. intros Hk. revert s Hk. induction os as [|o os IH]; intros s Hk; csimpl.
  - by rewrite (left_id_L ∅ (∪)); destruct s.
  - apply Forall_cons in Hk as [Ho Hk]. unfold insert at 2. rewrite bool_decide_eq_true_2 by done. cbn.
    rewrite IH by done. cbn. do 2 f_equal. set_solver.
Qed.

Lemma subtract_ok s Other : kinded s → subtract s Other = Ok (mkSet (TheKind s) (Objects s ∖ Other)).
Proof.
  intros Hk. unfold subtract. rewrite insertAll_ok; cbn.
  - do 2 f_equal. apply set_eq. intros o. rewrite elem_of_union, elem_of_list_to_set, list_elem_of_filter, elem_of_inOrder.
    set_solver.
  - apply Forall_forall. intros o [_ Ho]%list_elem_of_filter. apply Hk. by apply elem_of_inOrder.
Qed.

(** The objects of a request carried to another kind. *)
Definition moved (TheModel : B) (s : ObjectSet) (Destination : Kind) : gset ObjectID :=
  if decide (Objects s = ∅) then ∅
  else if decide (TheKind s = Destination) then Objects s
  else match Destination, TheKind s with
       | Binary, _ => {[root]}
       | Function_, Binary => list_to_set (FunctionID <$> Functions TheModel)
       | TypeDefinition, Binary => list_to_set (TypeDefinitionID <$> TypeDefinitions TheModel)
       | _, _ => ∅
       end.

Lemma kind_of_binary o : kind o = Binary → o = root.
Proof. by destruct o. Qed.

Lemma moved_kinded TheModel s K : kinded s → ∀ o, o ∈ moved TheModel s K → kind o = K.
Proof.
  intros Hk o. unfold moved. repeat case_decide; subst; [set_solver|by apply Hk|].
  destruct K, (TheKind s) eqn:E; try done;
    rewrite ?elem_of_singleton, ?elem_of_list_to_set, ?list_elem_of_fmap; naive_solver.
Qed.

Lemma children_kinded TheModel o K c : children TheModel o K = Ok c → ∀ p, p ∈ c → kind p = K.
Proof.
  unfold children. destruct (kind o), K; try done; intros [= <-] p;
    rewrite elem_of_list_to_set, list_elem_of_fmap; naive_solver.
Qed.

Lemma moveToKind_ok TheModel s K : kinded s → moveToKind TheModel s K = Ok (mkSet K (moved TheModel s K)).
Proof.
  intros Hk. unfold moveToKind, moved, setEmpty. repeat case_bool_decide; repeat case_decide; try done.
  - subst. by destruct s.
  - by subst.
  - assert (Hr : Objects s = {[root]}).
    { apply set_eq. intros o. rewrite elem_of_singleton. split; [|intros ->].
      - intros Ho. apply kind_of_binary. rewrite <-H2. by apply Hk.
      - destruct (set_choose_L (Objects s)) as [o Ho]; [done|].
        by rewrite <-(kind_of_binary o) by (rewrite <-H2; by apply Hk). }
    assert (Hi : inOrder (Objects s) = [root]).
    { rewrite Hr. unfold inOrder. by rewrite elements_singleton. }
    rewrite Hi. cbn. unfold children. cbn.
    destruct K; try done; rewrite H2; cbn; rewrite app_nil_r, insertAll_ok; cbn.
    all: try (apply Forall_forall; intros o; rewrite elem_of_inOrder, elem_of_list_to_set, list_elem_of_fmap; naive_solver).
    all: do 2 f_equal; apply set_eq; intros o; rewrite elem_of_union, elem_of_list_to_set, elem_of_inOrder; set_solver.
  - destruct K, (TheKind s); try done.
Qed.

Lemma asked_insert R d s d' : asked (<[d := s]> R) d' = if decide (d' = d) then Objects s else asked R d'.
Proof. unfold asked. case_decide; subst; [by rewrite lookup_insert_eq|by rewrite lookup_insert_ne]. Qed.

Section merging.
  Context (kindOf : nat → option Kind).

Lemma merge_ok R d s :
  wellKinded kindOf R → kindOf d = Some (TheKind s) → kinded s →
  ∃ R', merge d s R = Ok R' ∧ wellKinded kindOf R' ∧
    ∀ d', asked R' d' = if decide (d' = d) then asked R d ∪ Objects s else asked R d'.
Proof.
  intros HR Hd Hs. unfold merge. destruct (R !! d) as [It|] eqn:E.
  - destruct (HR d It E) as [Hd' HIt]. unfold mergeSet. rewrite bool_decide_eq_true_2 by congruence. cbn.
    eexists. split; [done|]. split.
    + apply map_Forall_insert_2; [|done]. split; [done|]. intros o [Ho|Ho]%elem_of_union; [by apply HIt|].
      rewrite (Hs o Ho). cbn. congruence.
    + intros d'. rewrite asked_insert. case_decide; [|done]. unfold asked. by rewrite E.
  - eexists. split; [done|]. split; [by apply map_Forall_insert_2|].
    intros d'. rewrite asked_insert. case_decide; [|done]. unfold asked. rewrite E. cbn. set_solver.
Qed.

Lemma mergeAll_ok Other R :
  wellKinded kindOf R → (∀ d s, (d, s) ∈ Other → kindOf d = Some (TheKind s) ∧ kinded s) →
  ∃ R', mergeAll Other R = Ok R' ∧ wellKinded kindOf R' ∧
    ∀ d o, o ∈ asked R' d ↔ o ∈ asked R d ∨ ∃ s, (d, s) ∈ Other ∧ o ∈ Objects s.
Proof.
  unfold mergeAll. revert R. induction Other as [|[d s] Other IH]; intros R HR Ho; csimpl.
  - exists R. split_and!; [done|done|]. set_solver.
  - destruct (Ho d s) as [Hd Hs]; [by left|]. destruct (merge_ok R d s HR Hd Hs) as (R1 & HR1 & Hw1 & Ha1).
    rewrite HR1. destruct (IH R1 Hw1) as (R2 & HR2 & Hw2 & Ha2); [intros d' s' Hin; apply Ho; by right|].
    exists R2. split_and!; [done|done|]. intros d' o. rewrite Ha2, Ha1. setoid_rewrite elem_of_cons.
    case_decide; subst; set_solver.
Qed.

Lemma minimize_asked R d : asked (minimize R) d = asked R d.
Proof.
  unfold asked, minimize. rewrite map_lookup_filter. destruct (R !! d) as [s|] eqn:E; [|done]. cbn.
  case_guard as H; [done|]. cbn in *. unfold setEmpty in H. case_bool_decide; [|done]. done.
Qed.

Lemma minimize_wellKinded R : wellKinded kindOf R → wellKinded kindOf (minimize R).
Proof. intros HR d s [H _]%map_lookup_filter_Some. by apply HR. Qed.

(** What is left of minimized requests that ask for nothing is recognised as
    nothing. *)
Lemma empty_asked_spec R : empty R = true ↔ ∀ d, asked R d = ∅.
Proof.
  unfold empty. rewrite forallb_forall. setoid_rewrite <-list_elem_of_In. split.
  - intros H d. unfold asked. destruct (R !! d) as [s|] eqn:E; [|done]. cbn.
    apply elem_of_map_to_list in E. apply H in E. cbn in E. unfold setEmpty in E. by case_bool_decide.
  - intros H [d s] Hd%elem_of_map_to_list. specialize (H d). unfold asked in H. rewrite Hd in H. cbn in *.
    unfold setEmpty. by rewrite bool_decide_eq_true_2.
Qed.
End merging.
End requests.

Notation Requests := (gmap nat ObjectSet).
