(* ===== verification/MemoryStorage.v ===== *)
(** * The storage of a runner

    [MemoryStorage] (include/revng/Runner/MemoryStorage.h,
    lib/Runner/MemoryStorage.cpp): the serialized objects, by the savepoint and the
    container they were saved from, and what of the model the production of each
    has read. *)

From S2P Require Import Prelude.
From stdpp Require Import countable gmap strings.
From S2P Require Import Requests.

(* include/revng/Runner/MemoryStorage.h:25-31 ContainerLocation *)
Record ContainerLocation := mkLocation { Savepoint : nat; Declaration : nat }.

#[global] Instance ContainerLocation_eq_dec : EqDecision ContainerLocation.
Proof. solve_decision. Defined.

#[global] Instance ContainerLocation_countable : Countable ContainerLocation.
Proof. refine (inj_countable' (λ l, (Savepoint l, Declaration l)) (λ p, mkLocation p.1 p.2) _). by intros []. Defined.

(* include/revng/Runner/MemoryStorage.h:35-43 DependencyEntry *)
Record DependencyEntry := mkEntry {
  SavepointStart : nat;
  SavepointEnd : nat;
  EntryDeclaration : nat;
  EntryObject : ObjectID;
}.

#[global] Instance DependencyEntry_eq_dec : EqDecision DependencyEntry.
Proof. solve_decision. Defined.

#[global] Instance DependencyEntry_countable : Countable DependencyEntry.
Proof.
  refine (inj_countable' (λ e, (SavepointStart e, SavepointEnd e, EntryDeclaration e, EntryObject e))
    (λ '(a, b, c, d), mkEntry a b c d) _). by intros [].
Defined.

Section storage.
  Context {Buffer : Type}.

(** The serialized objects of a container. *)
Notation Slot := (gmap ObjectID Buffer).

(* include/revng/Runner/MemoryStorage.h:81-83 MemoryStorage *)
Record MemoryStorage := mkStorage {
  Stored : gmap ContainerLocation Slot;
  Dependencies : gmap string (gset DependencyEntry);
}.

Definition emptyStorage : MemoryStorage := mkStorage ∅ ∅.

(* lib/Runner/MemoryStorage.cpp:9-21 MemoryStorage::has *)
Definition has (M : MemoryStorage) (Location : ContainerLocation) (Wanted : gset ObjectID) : gset ObjectID :=
  match Stored M !! Location with
  | None => ∅
  | Some It => filter (λ o, is_Some (It !! o)) Wanted
  end.

(* lib/Runner/MemoryStorage.cpp:23-26 MemoryStorage::missing *)
Definition missing (M : MemoryStorage) (Location : ContainerLocation) (Wanted : ObjectSet) : outcome ObjectSet :=
  subtract Wanted (has M Location (Objects Wanted)).

(* lib/Runner/MemoryStorage.cpp:28-33 MemoryStorage::add *)
Definition add (M : MemoryStorage) (Location : ContainerLocation) (NewObjects : Slot) : MemoryStorage :=
  mkStorage (<[Location := NewObjects ∪ default ∅ (Stored M !! Location)]> (Stored M)) (Dependencies M).

(* lib/Runner/MemoryStorage.cpp:35-48 MemoryStorage::get *)
Definition get (M : MemoryStorage) (Location : ContainerLocation) (Wanted : gset ObjectID) : Slot :=
  match Stored M !! Location with
  | None => ∅
  | Some It => filter (λ e, e.1 ∈ Wanted) It
  end.

(* lib/Runner/MemoryStorage.cpp:50-61 MemoryStorage::objectsAt *)
Definition objectsAt (M : MemoryStorage) (Location : ContainerLocation) : gset ObjectID :=
  match Stored M !! Location with
  | None => ∅
  | Some It => dom It
  end.

(* lib/Runner/MemoryStorage.cpp:63-71 MemoryStorage::erase *)
Definition erase (M : MemoryStorage) (Location : ContainerLocation) (ToErase : gset ObjectID) : MemoryStorage :=
  match Stored M !! Location with
  | None => M
  | Some It => mkStorage (<[Location := filter (λ e, e.1 ∉ ToErase) It]> (Stored M)) (Dependencies M)
  end.

(* lib/Runner/MemoryStorage.cpp:73-80 MemoryStorage::eraseFrom *)
Definition eraseFrom (M : MemoryStorage) (Savepoint_ : nat) : MemoryStorage :=
  mkStorage (filter (λ e, ¬ Savepoint_ < Savepoint e.1) (Stored M)) (Dependencies M).

(* include/revng/Runner/MemoryStorage.h:70-73 MemoryStorage::clear *)
Definition clear (M : MemoryStorage) : MemoryStorage := emptyStorage.

(* lib/Runner/MemoryStorage.cpp:82-84 MemoryStorage::dependOn *)
Definition dependOn (M : MemoryStorage) (Path : string) (Entry : DependencyEntry) : MemoryStorage :=
  mkStorage (Stored M) (<[Path := {[Entry]} ∪ default ∅ (Dependencies M !! Path)]> (Dependencies M)).

(** Remove what depends on the paths from the map, and collect it. *)
(* lib/Runner/MemoryStorage.cpp:87-95 MemoryStorage::invalidate *)
Fixpoint takeStale (Paths : list string) (Deps : gmap string (gset DependencyEntry)) (Stale : gset DependencyEntry) :
    gmap string (gset DependencyEntry) * gset DependencyEntry :=
  match Paths with
  | [] => (Deps, Stale)
  | Path :: Paths =>
    match Deps !! Path with
    | None => takeStale Paths Deps Stale
    | Some It => takeStale Paths (delete Path Deps) (Stale ∪ It)
    end
  end.

(** Whether an entry is about what is at a location. *)
(* lib/Runner/MemoryStorage.cpp:99-103 MemoryStorage::invalidate *)
Definition concerns (Entry : DependencyEntry) (Location : ContainerLocation) : bool :=
  negb (negb (Declaration Location =? EntryDeclaration Entry))
  && negb ((Savepoint Location <? SavepointStart Entry) || (SavepointEnd Entry <? Savepoint Location)).

(* lib/Runner/MemoryStorage.cpp:97-107 MemoryStorage::invalidate *)
Fixpoint eraseStale (Stale : list DependencyEntry) (O : gmap ContainerLocation Slot) : gmap ContainerLocation Slot :=
  match Stale with
  | [] => O
  | Entry :: Stale =>
    eraseStale Stale
      (map_imap (λ Location Slot, Some (if concerns Entry Location then delete (EntryObject Entry) Slot else Slot)) O)
  end.

(* lib/Runner/MemoryStorage.cpp:86-108 MemoryStorage::invalidate *)
Definition invalidate (M : MemoryStorage) (ChangedPaths : gset string) : MemoryStorage :=
  let '(Deps, Stale) := takeStale (elements ChangedPaths) (Dependencies M) ∅ in
  mkStorage (eraseStale (elements Stale) (Stored M)) Deps.

(** ** Facts *)

(** What is stored for an object. *)
Definition fetch (M : MemoryStorage) (l : ContainerLocation) (o : ObjectID) : option Buffer :=
  Stored M !! l ≫= (!!) o.

Lemma has_spec M l W o : o ∈ has M l W ↔ o ∈ W ∧ is_Some (fetch M l o).
Proof.
  unfold has, fetch. destruct (Stored M !! l) as [It|]; cbn.
  - rewrite elem_of_filter. naive_solver.
  - split; [set_solver|]. intros [_ []]. done.
Qed.

Lemma get_spec M l W o : get M l W !! o = if decide (o ∈ W) then fetch M l o else None.
Proof.
  unfold get, fetch. destruct (Stored M !! l) as [It|]; cbn; [|by case_decide].
  case_decide as H; destruct (It !! o) as [b|] eqn:E.
  - by apply map_lookup_filter_Some.
  - apply map_lookup_filter_None. by left.
  - apply map_lookup_filter_None. right. naive_solver.
  - apply map_lookup_filter_None. by left.
Qed.

Lemma objectsAt_spec M l o : o ∈ objectsAt M l ↔ is_Some (fetch M l o).
Proof.
  unfold objectsAt, fetch. destruct (Stored M !! l) as [It|]; cbn; [by rewrite elem_of_dom|].
  split; [set_solver|]. intros []. done.
Qed.

Lemma missing_ok M l W :
  kinded W → missing M l W = Ok (mkSet (TheKind W) (Objects W ∖ has M l (Objects W))).
Proof. intros. by apply subtract_ok. Qed.

Lemma fetch_add M l N l' o :
  fetch (add M l N) l' o = if decide (l' = l) then (N ∪ default ∅ (Stored M !! l)) !! o else fetch M l' o.
Proof.
  unfold fetch, add. cbn. case_decide; subst; [by rewrite lookup_insert_eq|by rewrite lookup_insert_ne].
Qed.

Lemma takeStale_spec Paths Deps Stale Deps' Stale' :
  takeStale Paths Deps Stale = (Deps', Stale') →
  (∀ p, Deps' !! p = if decide (p ∈ Paths) then None else Deps !! p) ∧
  (∀ e, e ∈ Stale' ↔ e ∈ Stale ∨ ∃ p It, p ∈ Paths ∧ Deps !! p = Some It ∧ e ∈ It).
Proof.
  revert Deps Stale. induction Paths as [|p Paths IH]; intros Deps Stale; cbn.
  { intros [= <- <-]. split; [done|]. set_solver. }
  destruct (Deps !! p) as [It|] eqn:E; intros [HD HS]%IH; split.
  - intros q. rewrite HD. repeat case_decide; try done; [set_solver| |].
    + assert (q = p) as -> by set_solver. by rewrite lookup_delete_eq.
    + rewrite lookup_delete_ne; [done|set_solver].
  - intros e. rewrite HS. split.
    + intros [[He|He]%elem_of_union|(q & It' & Hq & HIt & He)]; [by left| |].
      * right. exists p, It. set_solver.
      * right. apply lookup_delete_Some in HIt as [Hne HIt]. exists q, It'. set_solver.
    + intros [He|(q & It' & Hq & HIt & He)]; [set_solver|].
      destruct (decide (q = p)) as [->|Hne]; [rewrite E in HIt; set_solver|].
      right. exists q, It'. rewrite lookup_delete_ne by done. set_solver.
  - intros q. rewrite HD. repeat case_decide; try done; [set_solver|].
    assert (q = p) as -> by set_solver. done.
  - intros e. rewrite HS. split.
    + intros [He|(q & It' & Hq & HIt & He)]; [by left|]. right. exists q, It'. set_solver.
    + intros [He|(q & It' & Hq & HIt & He)]; [by left|]. right. exists q, It'. set_solver.
Qed.

Lemma eraseStale_spec Stale O l o :
  (eraseStale Stale O !! l ≫= (!!) o) =
  if existsb (λ e, concerns e l && bool_decide (EntryObject e = o)) Stale then None else O !! l ≫= (!!) o.
Proof.
  revert O. induction Stale as [|e Stale IH]; intros O; [done|]. cbn [eraseStale existsb].
  rewrite IH, map_lookup_imap. destruct (existsb _ Stale); [by rewrite orb_true_r|]. rewrite orb_false_r.
  destruct (O !! l) as [Sl|]; cbn; [|by destruct (_ && _)].
  destruct (concerns e l); cbn; [|done]. case_bool_decide; subst; [by rewrite lookup_delete_eq|by rewrite lookup_delete_ne].
Qed.

Lemma invalidate_fetch M C l o b :
  fetch (invalidate M C) l o = Some b ↔
  fetch M l o = Some b ∧
  ∀ p It e, p ∈ C → Dependencies M !! p = Some It → e ∈ It → concerns e l = true → EntryObject e ≠ o.
Proof.
  unfold invalidate, fetch. destruct (takeStale _ _ _) as [Deps Stale] eqn:E. cbn. rewrite eraseStale_spec.
  apply takeStale_spec in E as [_ HS]. destruct (existsb _ _) eqn:X.
  - split; [done|]. intros [_ H]. apply existsb_exists in X as (e & He%list_elem_of_In & Hc).
    apply andb_true_iff in Hc as [Hc Ho%bool_decide_eq_true]. apply elem_of_elements, HS in He as [He|(p & It & Hp & HIt & He)]; [set_solver|].
    apply elem_of_elements in Hp. by destruct (H p It e).
  - split; [|by intros []]. intros Hb. split; [done|]. intros p It e Hp HIt He Hc Ho.
    assert (existsb (λ e, concerns e l && bool_decide (EntryObject e = o)) (elements Stale) = true) as Hx; [|congruence].
    apply existsb_exists. exists e. rewrite <-list_elem_of_In, elem_of_elements, HS. split.
    + right. exists p, It. by rewrite elem_of_elements.
    + by rewrite Hc, bool_decide_eq_true_2.
Qed.

Lemma invalidate_dependencies M C p :
  Dependencies (invalidate M C) !! p = if decide (p ∈ C) then None else Dependencies M !! p.
Proof.
  unfold invalidate. destruct (takeStale _ _ _) as [Deps Stale] eqn:E. apply takeStale_spec in E as [HD _].
  cbn. rewrite HD. repeat case_decide; set_solver.
Qed.
End storage.

Arguments MemoryStorage : clear implicits.
