(* ===== verification/PipelineDescription.v ===== *)
(** * The description of a pipeline

    [PipelineDescription] (include/revng/Runner/PipelineDescription.h,
    lib/Runner/PipelineDescription.cpp): the containers, the tree of tasks, the
    artefacts and the analyses, how they are read from a document, and the
    numbering of the savepoints. A node is its position among the nodes, which the
    description owns. *)

From S2P Require Import Prelude.
From stdpp Require Import gmap strings.
From S2P Require Import Expected.

Local Open Scope string_scope.

(** ** Documents *)

(** The nodes of [llvm::yaml]; [NullNode] and aliases are the other ones. *)
Inductive YAMLNode :=
  | ScalarNode (s : string)
  | BlockScalarNode (s : string)
  | SequenceNode (l : list YAMLNode)
  | MappingNode (l : list (YAMLNode * YAMLNode))
  | OtherNode.

(* lib/Runner/PipelineDescription.cpp:22-30 Value *)
Inductive Value :=
  | Scalar (s : string)
  | Sequence (l : list Value)
  | Mapping (l : list (string * Value)).

(* lib/Runner/PipelineDescription.cpp:34-41 Value::find *)
Definition find (Key : string) (v : Value) : option Value :=
  match v with
  | Mapping l => snd <$> List.find (λ e, String.eqb e.1 Key) l
  | _ => None
  end.

(* lib/Runner/PipelineDescription.cpp:43-47 Value::string *)
Definition string_ (Key : string) (v : Value) : string :=
  match find Key v with Some (Scalar s) => s | _ => "" end.

Definition scalarOf (v : Value) : option string := match v with Scalar s => Some s | _ => None end.

(* lib/Runner/PipelineDescription.cpp:49-57 Value::strings *)
Definition strings (Key : string) (v : Value) : list string :=
  match find Key v with Some (Sequence l) => omap scalarOf l | _ => [] end.

Definition newline : string := String (Ascii.ascii_of_nat 10) "".

(** The member [Scalar] of a value that is not a scalar is empty. *)
Definition text (v : Value) : string := from_option id "" (scalarOf v).

(* lib/Runner/PipelineDescription.cpp:62-80 Value::reserialize *)
Definition reserialize (v : Value) : string :=
  match v with
  | Scalar s => s
  | Mapping l =>
    foldr (λ e Result,
      match e.2 with
      | Sequence es => e.1 ++ ":" ++ newline ++ foldr (λ x r, "  - " ++ text x ++ newline ++ r) "" es
      | c => e.1 ++ ": " ++ text c ++ newline
      end ++ Result) "" l
  | Sequence _ => ""
  end.

(** A key that is not a scalar is skipped. *)
(* lib/Runner/PipelineDescription.cpp:83-113 materialize *)
Fixpoint materialize (Node : YAMLNode) : Value :=
  match Node with
  | ScalarNode s | BlockScalarNode s => Scalar s
  | SequenceNode l => Sequence (map materialize l)
  | MappingNode l =>
    Mapping ((fix go l := match l with
                          | [] => []
                          | (ScalarNode Key, v) :: l => (Key, materialize v) :: go l
                          | _ :: l => go l
                          end) l)
  | OtherNode => Scalar ""
  end.

Definition isMapping (v : Value) : bool := match v with Mapping _ => true | _ => false end.

Definition isSequence (v : Value) : bool := match v with Sequence _ => true | _ => false end.

(** The elements of a sequence. *)
Definition elements_ (v : option Value) : list Value := match v with Some (Sequence l) => l | _ => [] end.

(** ** The description *)

(* include/revng/PipeboxCommon/Common.h:28-48 Access *)
Inductive Access := Read | Write | ReadWrite | Auto.

#[global] Instance Access_eq_dec : EqDecision Access.
Proof. solve_decision. Defined.

(* include/revng/Runner/PipelineDescription.h:27-33 ContainerDeclaration *)
Record ContainerDeclaration := mkDeclaration { Name : string; TypeName : string; Index : nat }.

(* include/revng/Runner/PipelineDescription.h:37-40 TaskArgument *)
Record TaskArgument := mkArgument { Declaration : nat; ArgumentAccess : Access }.

(* include/revng/Runner/PipelineDescription.h:43-48 PipeTask *)
Record PipeTask := mkPipeTask { PipeName : string; StaticConfiguration : string }.

(* include/revng/Runner/PipelineDescription.h:52-56 SavepointTask *)
Record SavepointTask := mkSavepointTask { SavepointName : string; ToSave : list nat }.

Inductive Task_ := APipe (P : PipeTask) | ASavepoint (P : SavepointTask).

(* include/revng/Runner/PipelineDescription.h:66-69 SavepointRange *)
Record SavepointRange := mkRange { Start : nat; End_ : nat }.

(* include/revng/Runner/PipelineDescription.h:71-91 PipelineNode *)
Record PipelineNode := mkNode {
  Id : nat;
  Downstream : SavepointRange;
  Task : Task_;
  Arguments : list TaskArgument;
  Predecessor : option nat;
  Successors : list nat;
}.

(* include/revng/Runner/PipelineDescription.h:80-82 PipelineNode::isSavepoint *)
Definition isSavepoint (n : PipelineNode) : bool := match Task n with ASavepoint _ => true | _ => false end.

(* include/revng/Runner/PipelineDescription.h:83-83 PipelineNode::pipe *)
Definition pipe (n : PipelineNode) : option PipeTask := match Task n with APipe P => Some P | _ => None end.

(* include/revng/Runner/PipelineDescription.h:84-86 PipelineNode::savepoint *)
Definition savepoint (n : PipelineNode) : option SavepointTask := match Task n with ASavepoint P => Some P | _ => None end.

(* include/revng/Runner/PipelineDescription.h:87-90 PipelineNode::name *)
Definition name (n : PipelineNode) : string :=
  match Task n with ASavepoint P => SavepointName P | APipe P => PipeName P end.

(* include/revng/Runner/PipelineDescription.h:94-101 Artefact *)
Record Artefact := mkArtefact {
  ArtefactName : string;
  ArtefactDescription : string;
  Category : string;
  Filename : string;
  ArtefactNode : nat;
  ArtefactDeclaration : nat;
}.

(* include/revng/Runner/PipelineDescription.h:104-111 AnalysisBinding *)
Record AnalysisBinding := mkBinding {
  AnalysisName : string;
  AnalysisDescription : string;
  AnalysisNode : option nat;
  AnalysisArguments : list nat;
}.

(* include/revng/Runner/PipelineDescription.h:113-120 PipelineDescription *)
Record PipelineDescription := mkDescription {
  Declarations : list ContainerDeclaration;
  Nodes : list PipelineNode;
  Artefacts : gmap string Artefact;
  Analyses : gmap string AnalysisBinding;
  AnalysisLists : gmap string (list string);
}.

Definition emptyDescription : PipelineDescription := mkDescription [] [] ∅ ∅ ∅.

Definition withNodes (D : PipelineDescription) (Ns : list PipelineNode) : PipelineDescription :=
  mkDescription (Declarations D) Ns (Artefacts D) (Analyses D) (AnalysisLists D).

(** ** Queries *)

(* lib/Runner/PipelineDescription.cpp:117-123 PipelineDescription::findDeclaration *)
Definition findDeclaration (D : PipelineDescription) (N : string) : option nat :=
  fst <$> list_find (λ d, Name d = N) (Declarations D).

(* lib/Runner/PipelineDescription.cpp:125-131 PipelineDescription::findSavepoint *)
Definition findSavepoint (D : PipelineDescription) (N : string) : option nat :=
  fst <$> list_find (λ n, isSavepoint n = true ∧ name n = N) (Nodes D).

(* lib/Runner/PipelineDescription.cpp:133-136 PipelineDescription::findArtefact *)
Definition findArtefact (D : PipelineDescription) (N : string) : option Artefact := Artefacts D !! N.

(* lib/Runner/PipelineDescription.cpp:138-142 PipelineDescription::findAnalysis *)
Definition findAnalysis (D : PipelineDescription) (N : string) : option AnalysisBinding := Analyses D !! N.

(* lib/Runner/PipelineDescription.cpp:144-156 PipelineDescription::resolveNode *)
Definition resolveNode (D : PipelineDescription) (N : string) : option nat :=
  if String.eqb N "" then None
  else match findSavepoint D N with
       | Some n => Some n
       | None => ArtefactNode <$> findArtefact D N
       end.

(** ** Reading a description *)

(** The index of a container given its name. *)
(* lib/Runner/PipelineDescription.cpp:212-217 PipelineDescription::parse *)
Definition declarationIndex (D : PipelineDescription) (N : string) : Expected nat :=
  match findDeclaration D N with
  | Some Index => success Index
  | None => createError ("unknown container `" ++ N ++ "`")
  end.

(* lib/Runner/PipelineDescription.cpp:176-184 PipelineDescription::parse *)
Definition parseContainer (Entry : Value) (D : PipelineDescription) : Expected PipelineDescription :=
  let N := string_ "name" Entry in
  let T := string_ "type" Entry in
  if String.eqb N "" || String.eqb T "" then createError "a container declaration is missing its name or type"
  else success (mkDescription (Declarations D ++ [mkDeclaration N T (length (Declarations D))])%list (Nodes D)
                  (Artefacts D) (Analyses D) (AnalysisLists D)).

(* lib/Runner/PipelineDescription.cpp:186-193 PipelineDescription::parse *)
Definition parseAnalysisList (Entry : Value) (D : PipelineDescription) : PipelineDescription :=
  let N := string_ "name" Entry in
  if String.eqb N "" then D
  else mkDescription (Declarations D) (Nodes D) (Artefacts D) (Analyses D)
         (<[N := strings "analyses" Entry]> (AnalysisLists D)).

Definition addAnalysis (Binding : AnalysisBinding) (D : PipelineDescription) : PipelineDescription :=
  if String.eqb (AnalysisName Binding) "" then D
  else mkDescription (Declarations D) (Nodes D) (Artefacts D) (<[AnalysisName Binding := Binding]> (Analyses D)) (AnalysisLists D).

(* lib/Runner/PipelineDescription.cpp:197-206 PipelineDescription::parse *)
Definition parseRootAnalysis (Entry : Value) (D : PipelineDescription) : PipelineDescription :=
  addAnalysis (mkBinding (string_ "analysis" Entry) (string_ "description" Entry) None []) D.

(** The task of a node and the names of its arguments. *)
(* lib/Runner/PipelineDescription.cpp:258-279 PipelineDescription::parse *)
Definition parseTask (Branch : string) (Task : Value) : Expected (Task_ * list string) :=
  let N := string_ "pipe" Task in
  let S := string_ "savepoint" Task in
  if negb (String.eqb N "") then
    success (APipe (mkPipeTask N (from_option reserialize "" (find "configuration" Task))), strings "arguments" Task)
  else if negb (String.eqb S "") then success (ASavepoint (mkSavepointTask S []), strings "containers" Task)
  else createError ("a task in branch `" ++ Branch ++ "` is neither a pipe nor a savepoint").

(* lib/Runner/PipelineDescription.cpp:281-286 PipelineDescription::parse *)
Definition parseArguments (D : PipelineDescription) (Names : list string) : Expected (list TaskArgument) :=
  eachOf (λ N As, Index ←? declarationIndex D N; success (As ++ [mkArgument Index Auto])%list) Names [].

(* lib/Runner/PipelineDescription.cpp:301-320 PipelineDescription::parse *)
Definition parseArtefact (Raw : nat) (Entry : Value) (D : PipelineDescription) : Expected PipelineDescription :=
  Index ←? declarationIndex D (string_ "container" Entry);
  let A := mkArtefact (string_ "name" Entry) (string_ "description" Entry) (string_ "category" Entry)
             (string_ "filename" Entry) Raw Index in
  success (if String.eqb (ArtefactName A) "" then D
           else mkDescription (Declarations D) (Nodes D) (<[ArtefactName A := A]> (Artefacts D)) (Analyses D) (AnalysisLists D)).

(* lib/Runner/PipelineDescription.cpp:322-340 PipelineDescription::parse *)
Definition parseAnalysis (Raw : nat) (Entry : Value) (D : PipelineDescription) : Expected PipelineDescription :=
  Indices ←? eachOf (λ N Is, Index ←? declarationIndex D N; success (Is ++ [Index])%list) (strings "containers" Entry) [];
  success (addAnalysis (mkBinding (string_ "analysis" Entry) (string_ "description" Entry) (Some Raw) Indices) D).

Definition addSuccessor (S : nat) (n : PipelineNode) : PipelineNode :=
  mkNode (Id n) (Downstream n) (Task n) (Arguments n) (Predecessor n) (Successors n ++ [S])%list.

(** A savepoint saves all its arguments. *)
Definition withToSave (T : Task_) (As : list TaskArgument) : Task_ :=
  match T with
  | ASavepoint P => ASavepoint (mkSavepointTask (SavepointName P) (ToSave P ++ map Declaration As)%list)
  | T => T
  end.

(** Add a node for a task after [Previous]. *)
(* lib/Runner/PipelineDescription.cpp:255-341 PipelineDescription::parse *)
Definition buildTask (Branch : string) (Task : Value) (s : option nat * PipelineDescription) :
    Expected (option nat * PipelineDescription) :=
  let '(Previous, D) := s in
  '(T, ArgumentNames) ←? parseTask Branch Task;
  As ←? parseArguments D ArgumentNames;
  let Raw := length (Nodes D) in
  let Node := mkNode 0 (mkRange 0 0) (withToSave T As) As Previous [] in
  let Linked := match Previous with Some P => alter (addSuccessor Raw) P (Nodes D) | None => Nodes D end in
  let D := withNodes D (Linked ++ [Node])%list in
  D ←? eachOf (parseArtefact Raw) (elements_ (find "artifacts" Task)) D;
  D ←? eachOf (parseAnalysis Raw) (elements_ (find "analyses" Task)) D;
  success (Some Raw, D).

(* lib/Runner/PipelineDescription.cpp:221-225 PendingBranch *)
Record PendingBranch := mkPending { Body : Value; Last : option nat; Built : bool }.

Definition BuildState : Type := PipelineDescription * gmap string PendingBranch.

(** The bound is on the number of branches that are not built. *)
(* lib/Runner/PipelineDescription.cpp:230-345 PipelineDescription::parse *)
Fixpoint build (fuel : nat) (N : string) (s : BuildState) : Expected BuildState :=
  match fuel with
  | O => Fault OutOfFuel
  | S fuel =>
    let '(D, Pending) := s in
    match Pending !! N with
    | None => createError ("unknown branch `" ++ N ++ "`")
    | Some Branch =>
      if Built Branch then success s else
      let Pending := <[N := mkPending (Body Branch) (Last Branch) true]> Pending in
      match find "tasks" (Body Branch) with
      | Some (Sequence Tasks) =>
        let From := string_ "from" (Body Branch) in
        '(Previous, (D, Pending)) ←?
          (if String.eqb From "" then success (None, (D, Pending))
           else s ←? build fuel From (D, Pending); success (s.2 !! From ≫= Last, s));
        '(Previous, D) ←? eachOf (buildTask N) Tasks (Previous, D);
        success (D, alter (λ B, mkPending (Body B) Previous (Built B)) N Pending)
      | _ => createError ("branch `" ++ N ++ "` has no `tasks`")
      end
    end
  end.

(** ** The numbering of the savepoints *)

Definition withStart (Next : nat) (n : PipelineNode) : PipelineNode :=
  mkNode (if isSavepoint n then Next else Id n) (mkRange Next (End_ (Downstream n))) (Task n) (Arguments n) (Predecessor n) (Successors n).

Definition withEnd (e : nat) (n : PipelineNode) : PipelineNode :=
  mkNode (Id n) (mkRange (Start (Downstream n)) e) (Task n) (Arguments n) (Predecessor n) (Successors n).

(** The bound is on the depth of the tree. *)
(* lib/Runner/PipelineDescription.cpp:357-366 PipelineDescription::assignSavepointRanges *)
Fixpoint walk (fuel : nat) (Node : nat) (s : list PipelineNode * nat) : outcome (list PipelineNode * nat) :=
  match fuel with
  | O => Fault OutOfFuel
  | S fuel =>
    let '(Ns, Next) := s in
    match Ns !! Node with
    | None => undefined
    | Some n =>
      let First := Next in
      let Ns := alter (withStart First) Node Ns in
      let Next := if isSavepoint n then First + 1 else First in
      '(Ns, Next) ← foldl (λ s Successor, s ← s; walk fuel Successor s) (Ok (Ns, Next)) (Successors n);
      Ok (alter (withEnd (if Nat.eqb Next First then Next else Next - 1)) Node Ns, Next)
    end
  end.

Definition isRoot (n : PipelineNode) : bool := match Predecessor n with None => true | Some _ => false end.

Definition roots (Ns : list PipelineNode) : list nat := filter (λ i, (isRoot <$> Ns !! i) = Some true) (seq 0 (length Ns)).

(* lib/Runner/PipelineDescription.cpp:355-371 PipelineDescription::assignSavepointRanges *)
Definition assignSavepointRanges (D : PipelineDescription) : outcome PipelineDescription :=
  let Ns := Nodes D in
  '(Ns, _) ← foldl (λ s Node, s ← s; walk (length Ns) Node s) (Ok (Ns, 0)) (roots Ns);
  Ok (withNodes D Ns).

(** A document that has no [containers] or no [branches] is refused. *)
(* lib/Runner/PipelineDescription.cpp:158-353 PipelineDescription::parse *)
Definition parse (Root : option YAMLNode) : Expected PipelineDescription :=
  match Root with
  | None => createError "pipeline description is empty"
  | Some Root =>
    let Document := materialize Root in
    if negb (isMapping Document) then createError "pipeline description is not a YAML mapping" else
    match find "containers" Document with
    | Some (Sequence Containers) =>
      D ←? eachOf parseContainer Containers emptyDescription;
      let D := foldl (λ D e, parseAnalysisList e D) D (elements_ (find "analysis-lists" Document)) in
      let D := foldl (λ D e, parseRootAnalysis e D) D (elements_ (find "analyses" Document)) in
      match find "branches" Document with
      | Some (Mapping Branches) =>
        let Pending := foldl (λ P e, <[e.1 := mkPending e.2 None false]> P) ∅ Branches in
        '(D, _) ←? eachOf (build (S (size Pending))) (map fst Branches) (D, Pending);
        noError (assignSavepointRanges D)
      | _ => createError "pipeline description has no `branches`"
      end
    | _ => createError "pipeline description has no `containers`"
    end
  end.

(** ** The nodes form a forest *)

Local Close Scope string_scope.

(** The predecessor of a node. *)
Definition predecessorOf (Ns : list PipelineNode) (i : nat) : option nat := Ns !! i ≫= Predecessor.

(** The nodes whose predecessor is the given one. *)
Definition childrenOf (Ns : list PipelineNode) (i : nat) : list nat :=
  filter (λ k, predecessorOf Ns k = Some i) (seq 0 (length Ns)).

(** Every node comes after its predecessor, and the successors of a node are the
    nodes it is the predecessor of, in order. *)
Record Forest (Ns : list PipelineNode) : Prop := {
  forest_before i j : predecessorOf Ns i = Some j → j < i;
  forest_successors i n : Ns !! i = Some n → Successors n = childrenOf Ns i;
}.

(** [j] is downstream of [i]. *)
Definition downstream (Ns : list PipelineNode) : nat → nat → Prop := rtc (λ i j, predecessorOf Ns j = Some i).

(** The nodes below one, in the order they are visited. *)
Fixpoint flatten (fuel : nat) (Ns : list PipelineNode) (i : nat) : list nat :=
  match fuel with
  | O => []
  | S fuel => i :: (childrenOf Ns i ≫= flatten fuel Ns)
  end.

Definition subtree (Ns : list PipelineNode) (i : nat) : list nat := flatten (length Ns - i) Ns i.

Section forest.
  Context (Ns : list PipelineNode) (HF : Forest Ns).

Lemma elem_of_childrenOf i k : k ∈ childrenOf Ns i ↔ predecessorOf Ns k = Some i.
Proof.
  unfold childrenOf. rewrite list_elem_of_filter, elem_of_seq. split; [naive_solver|]. intros H. split; [done|].
  unfold predecessorOf in H. destruct (Ns !! k) eqn:E; [|done]. apply lookup_lt_Some in E. lia.
Qed.

Lemma childrenOf_bounds i k : k ∈ childrenOf Ns i → i < k < length Ns.
Proof using HF.
  intros H. split; [by apply HF, elem_of_childrenOf|]. unfold childrenOf in H.
  apply list_elem_of_filter in H as [_ H%elem_of_seq]. lia.
Qed.

Lemma flatten_fuel fuel i : i < length Ns → length Ns - i ≤ fuel → flatten fuel Ns i = subtree Ns i.
Proof using HF.
  unfold subtree. remember (length Ns - i) as m eqn:Hm. revert fuel i Hm.
  induction (lt_wf m) as [m _ IH]. intros fuel i -> Hi Hf.
  destruct fuel as [|fuel]; [lia|]. destruct (length Ns - i) as [|m] eqn:E; [lia|]. cbn. f_equal.
  apply Forall_bind_ext, Forall_forall. intros k Hk. apply childrenOf_bounds in Hk.
  rewrite (IH (length Ns - k)) by lia. symmetry. apply (IH (length Ns - k)); lia.
Qed.

Lemma subtree_unfold i : i < length Ns → subtree Ns i = i :: (childrenOf Ns i ≫= subtree Ns).
Proof using HF.
  intros Hi. unfold subtree at 1. destruct (length Ns - i) as [|m] eqn:E; [lia|]. cbn. f_equal.
  apply Forall_bind_ext, Forall_forall. intros k Hk. apply childrenOf_bounds in Hk. apply flatten_fuel; lia.
Qed.

Lemma elem_of_subtree i j : i < length Ns → (j ∈ subtree Ns i ↔ downstream Ns i j).
Proof using HF.
  remember (length Ns - i) as m eqn:Hm. revert i Hm. induction (lt_wf m) as [m _ IH]. intros i -> Hi.
  rewrite subtree_unfold, elem_of_cons, list_elem_of_bind by done. split.
  - intros [->|(k & Hj & Hk)]; [done|]. pose proof (childrenOf_bounds i k Hk).
    apply rtc_l with k; [by apply elem_of_childrenOf|]. apply (IH (length Ns - k)); [lia|done|lia|done].
  - intros H. apply rtc_inv in H as [->|(k & Hk%elem_of_childrenOf & H)]; [by left|]. right.
    pose proof (childrenOf_bounds i k Hk). exists k. split; [|done]. apply (IH (length Ns - k)); [lia|done|lia|done].
Qed.

Lemma downstream_le i j : downstream Ns i j → i ≤ j.
Proof using HF. induction 1 as [|i k j Hk _ IH]; [done|]. apply HF in Hk. lia. Qed.

(** The nodes upstream of one are a chain. *)
Lemma downstream_chain a b j : downstream Ns a j → downstream Ns b j → downstream Ns a b ∨ downstream Ns b a.
Proof.
  intros Ha Hb. induction Ha as [j|a k j Hk _ IH]; [by right|].
  destruct (IH Hb) as [H|H]; [left; by apply rtc_l with k|].
  apply rtc_inv_r in H as [->|(k' & H & Hk')]; [left; by apply rtc_once|]. right. cbn in *.
  by replace a with k' by congruence.
Qed.

(** Different trees have no nodes in common. *)
Lemma subtrees_disjoint L :
  (∀ a b, a ∈ L → b ∈ L → a < length Ns ∧ predecessorOf Ns a = predecessorOf Ns b) →
  NoDup L → (∀ i, i ∈ L → NoDup (subtree Ns i)) → NoDup (L ≫= subtree Ns).
Proof using HF.
  intros HL Hn Hs. apply NoDup_bind; [|done|done]. intros a b j Ha Hb Hja Hjb.
  destruct (HL a b Ha Hb) as [Hla Hp]. destruct (HL b a Hb Ha) as [Hlb _].
  apply elem_of_subtree in Hja, Hjb; [|done..].
  assert (∀ x y, predecessorOf Ns x = predecessorOf Ns y → downstream Ns x y → x = y) as Hc.
  { intros x y Hxy H. apply rtc_inv_r in H as [->|(k & H & Hk)]; [done|].
    apply downstream_le in H. assert (k < x); [|lia]. apply HF. congruence. }
  destruct (downstream_chain a b j Hja Hjb) as [H|H]; [by apply Hc|]. symmetry. by apply Hc.
Qed.

Lemma childrenOf_NoDup i : NoDup (childrenOf Ns i).
Proof. apply NoDup_filter, NoDup_seq. Qed.

Lemma subtree_NoDup i : i < length Ns → NoDup (subtree Ns i).
Proof using HF.
  remember (length Ns - i) as m eqn:Hm. revert i Hm. induction (lt_wf m) as [m _ IH]. intros i -> Hi.
  rewrite subtree_unfold by done. apply NoDup_cons. split.
  - intros (k & Hj & Hk)%list_elem_of_bind. pose proof (childrenOf_bounds i k Hk).
    apply elem_of_subtree, downstream_le in Hj; lia.
  - apply subtrees_disjoint; [|apply childrenOf_NoDup|].
    + intros a b Ha Hb. pose proof (childrenOf_bounds i a Ha). apply elem_of_childrenOf in Ha, Hb. split; [lia|congruence].
    + intros k Hk. pose proof (childrenOf_bounds i k Hk). apply (IH (length Ns - k)); lia.
Qed.
End forest.

(** *** What the visit does *)

(** What the visit does not change. *)
Definition shape (n : PipelineNode) : Task_ * list TaskArgument * option nat * list nat :=
  (Task n, Arguments n, Predecessor n, Successors n).

Definition sameShape (Ns Ns' : list PipelineNode) : Prop := shape <$> Ns = shape <$> Ns'.

Section walking.
  Context (Ns0 : list PipelineNode).

(** The number of savepoints among some nodes. *)
Definition count (l : list nat) : nat := length (filter (λ k, (isSavepoint <$> Ns0 !! k) = Some true) l).

(** The node has the number [m] and the range of the savepoints below it. *)
Definition numbered (Ns : list PipelineNode) (k m : nat) : Prop :=
  ∃ n, Ns !! k = Some n ∧
    Downstream n = mkRange m (m + (count (subtree Ns0 k) - 1)) ∧ (isSavepoint n = true → Id n = m).

(** A visit of the nodes [l] from the number [m]. *)
Record walked (Ns Ns' : list PipelineNode) (m : nat) (l : list nat) : Prop := {
  walked_shape : sameShape Ns' Ns0;
  walked_others k : k ∉ l → Ns' !! k = Ns !! k;
  walked_numbers k : k ∈ l → ∃ A C, l = A ++ subtree Ns0 k ++ C ∧ numbered Ns' k (m + count A);
}.

Lemma count_savepoints_app l l' : count (l ++ l') = count l + count l'.
Proof. unfold count. by rewrite filter_app, length_app. Qed.

Lemma sameShape_lookup Ns k : sameShape Ns Ns0 → shape <$> Ns !! k = shape <$> Ns0 !! k.
Proof. unfold sameShape. intros H. rewrite <-!list_lookup_fmap. by rewrite H. Qed.

Lemma sameShape_some Ns k n0 :
  sameShape Ns Ns0 → Ns0 !! k = Some n0 →
  ∃ n, Ns !! k = Some n ∧ Successors n = Successors n0 ∧ isSavepoint n = isSavepoint n0.
Proof.
  intros H%(sameShape_lookup _ k) E. rewrite E in H. destruct (Ns !! k) as [n|]; [|done]. exists n.
  injection H as H1 H2 H3 H4. unfold isSavepoint. by rewrite H1.
Qed.

Lemma sameShape_alter f k Ns : (∀ n, shape (f n) = shape n) → sameShape Ns Ns0 → sameShape (alter f k Ns) Ns0.
Proof.
  unfold sameShape. intros Hf <-. apply list_eq. intros i.
  rewrite !list_lookup_fmap. destruct (decide (i = k)) as [->|]; [|by rewrite list_lookup_alter_ne].
  rewrite list_lookup_alter_eq. destruct (Ns !! k) as [n|]; [|done]. exact (f_equal Some (Hf n)).
Qed.

Lemma walked_app Ns N1 N2 m l1 l2 :
  NoDup (l1 ++ l2) → walked Ns N1 m l1 → walked N1 N2 (m + count l1) l2 → walked Ns N2 m (l1 ++ l2).
Proof.
  intros (_ & Hd & _)%NoDup_app [_ Ho1 Hn1] [Hs2 Ho2 Hn2]. split; [done| |].
  - intros k Hk. rewrite Ho2, Ho1; set_solver.
  - intros k [Hk|Hk]%elem_of_app.
    + destruct (Hn1 k Hk) as (A & C & Hl & n & Hn). exists A, (C ++ l2). rewrite Hl at 1. rewrite <-!app_assoc.
      split; [done|]. exists n. rewrite Ho2 by set_solver. done.
    + destruct (Hn2 k Hk) as (A & C & -> & Hn). exists (l1 ++ A), C. rewrite count_savepoints_app, <-app_assoc.
      by rewrite Nat.add_assoc.
Qed.

Lemma walked_nil Ns m : sameShape Ns Ns0 → walked Ns Ns m [].
Proof. split; [done|done|set_solver]. Qed.

(** Visiting trees one after the other, given that visiting each is right. *)
Lemma walk_forest fuel L Ns m :
  (∀ i Ns m, i ∈ L → sameShape Ns Ns0 →
    ∃ Ns', walk fuel i (Ns, m) = Ok (Ns', m + count (subtree Ns0 i)) ∧ walked Ns Ns' m (subtree Ns0 i)) →
  NoDup (L ≫= subtree Ns0) → sameShape Ns Ns0 →
  ∃ Ns', foldl (λ s i, s ← s; walk fuel i s) (Ok (Ns, m)) L = Ok (Ns', m + count (L ≫= subtree Ns0)) ∧
    walked Ns Ns' m (L ≫= subtree Ns0).
Proof.
  revert Ns m. induction L as [|i L IH]; intros Ns m Hw Hn Hs.
  { exists Ns. cbn. rewrite Nat.add_0_r. split; [done|]. by apply walked_nil. }
  destruct (Hw i Ns m) as (N1 & H1 & W1); [by left|done|]. csimpl in *. rewrite H1.
  destruct (IH N1 (m + count (subtree Ns0 i))) as (N2 & H2 & W2);
    [intros; apply Hw; [by right|done]|by apply NoDup_app in Hn as (_ & _ & Hn)|apply W1|].
  exists N2. rewrite H2. split; [by rewrite count_savepoints_app, Nat.add_assoc|]. by eapply walked_app.
Qed.

Context (HF : Forest Ns0).

Lemma count_subtree i n :
  Ns0 !! i = Some n →
  count (subtree Ns0 i) = (if isSavepoint n then 1 else 0) + count (childrenOf Ns0 i ≫= subtree Ns0).
Proof using HF.
  intros E. rewrite subtree_unfold by (done || by eapply lookup_lt_Some). unfold count. rewrite filter_cons, E. cbn.
  destruct (isSavepoint n); by case_decide.
Qed.

Lemma walk_ok fuel i Ns m :
  sameShape Ns Ns0 → i < length Ns0 → length Ns0 - i ≤ fuel →
  ∃ Ns', walk fuel i (Ns, m) = Ok (Ns', m + count (subtree Ns0 i)) ∧ walked Ns Ns' m (subtree Ns0 i).
Proof using HF.
  revert i Ns m. induction fuel as [|fuel IH]; intros i Ns m Hs Hi Hf; [lia|].
  destruct (lookup_lt_is_Some_2 Ns0 i Hi) as [n0 E0]. destruct (sameShape_some Ns i n0 Hs E0) as (n & E & HS & HP).
  cbn [walk]. rewrite E, HS, (forest_successors _ HF i n0 E0).
  assert (Hn := subtree_NoDup Ns0 HF i Hi). rewrite subtree_unfold in Hn by done. apply NoDup_cons in Hn as [Hni Hn].
  destruct (walk_forest fuel (childrenOf Ns0 i) (alter (withStart m) i Ns) (if isSavepoint n then m + 1 else m))
    as (N1 & H1 & [Ws Wo Wn]).
  - intros k Ns' m' Hk Hs'. pose proof (childrenOf_bounds Ns0 HF i k Hk). apply IH; [done|lia|lia].
  - done.
  - by apply sameShape_alter.
  - rewrite H1, bind_ok. eexists. rewrite (count_subtree i n0 E0), <-HP. split.
    { refine (f_equal Ok (f_equal2 pair eq_refl _)). destruct (isSavepoint n); lia. }
    rewrite subtree_unfold by done. split.
    + by apply sameShape_alter.
    + intros k [Hk Hk']%not_elem_of_cons. rewrite list_lookup_alter_ne, Wo, list_lookup_alter_ne by done. done.
    + intros k [->|Hk]%elem_of_cons.
      * exists [], []. rewrite app_nil_r. rewrite subtree_unfold by done. split; [done|]. cbn. rewrite Nat.add_0_r.
        exists (withEnd (if Nat.eqb ((if isSavepoint n then m + 1 else m) + count (childrenOf Ns0 i ≫= subtree Ns0)) m
                         then (if isSavepoint n then m + 1 else m) + count (childrenOf Ns0 i ≫= subtree Ns0)
                         else (if isSavepoint n then m + 1 else m) + count (childrenOf Ns0 i ≫= subtree Ns0) - 1) (withStart m n)).
        rewrite list_lookup_alter_eq, Wo, list_lookup_alter_eq, E by done. split; [done|]. cbn.
        rewrite (count_subtree i n0 E0), <-HP. unfold isSavepoint. cbn. fold (isSavepoint n). split.
        -- f_equal. destruct (isSavepoint n), (Nat.eqb_spec (m + count (childrenOf Ns0 i ≫= subtree Ns0)) m),
             (Nat.eqb_spec (m + 1 + count (childrenOf Ns0 i ≫= subtree Ns0)) m); lia.
        -- by destruct (isSavepoint n).
      * destruct (Wn k Hk) as (A & C & Hl & n' & Hn' & HR). exists (i :: A), C. rewrite Hl at 1. split; [done|].
        exists n'. rewrite list_lookup_alter_ne by (intros ->; done). split; [done|].
        assert (count (i :: A) = (if isSavepoint n then 1 else 0) + count A) as ->.
        { unfold count. rewrite filter_cons, E0, HP. cbn. destruct (isSavepoint n0); by case_decide. }
        replace (m + _) with ((if isSavepoint n then m + 1 else m) + count A) by (destruct (isSavepoint n); lia). exact HR.
Qed.
End walking.

(** *** The ranges *)

Lemma split_unique {A} (x : A) l1 l2 k1 k2 :
  NoDup (l1 ++ x :: l2) → l1 ++ x :: l2 = k1 ++ x :: k2 → l1 = k1.
Proof.
  revert k1. induction l1 as [|y l1 IH]; intros [|z k1] Hn; cbn in *; [done| | |].
  - intros [= <- ->]. apply NoDup_cons in Hn as [Hn _]. set_solver.
  - intros [= -> <-]. apply NoDup_cons in Hn as [Hn _]. set_solver.
  - intros [= -> H]. f_equal. apply IH; [by apply NoDup_cons in Hn as [_ Hn]|done].
Qed.

Section ranges.
  Context (Ns0 Ns : list PipelineNode) (HF : Forest Ns0).

(** The nodes in the order they are numbered. *)
Definition order : list nat := roots Ns0 ≫= subtree Ns0.

Lemma elem_of_roots i : i ∈ roots Ns0 ↔ i < length Ns0 ∧ predecessorOf Ns0 i = None.
Proof.
  unfold roots, predecessorOf, isRoot. rewrite list_elem_of_filter, elem_of_seq. split.
  - intros [Hr Hi]. split; [lia|]. destruct (Ns0 !! i) as [n|]; [|done]. cbn in *. by destruct (Predecessor n).
  - intros [Hi Hr]. split; [|lia]. destruct (lookup_lt_is_Some_2 Ns0 i Hi) as [n E]. rewrite E in *. cbn in *. by rewrite Hr.
Qed.

Lemma order_NoDup : NoDup order.
Proof using HF.
  apply subtrees_disjoint; [done| |apply NoDup_filter, NoDup_seq|].
  - intros a b [Ha Hpa]%elem_of_roots [Hb Hpb]%elem_of_roots. split; [done|congruence].
  - intros i [Hi _]%elem_of_roots. by apply subtree_NoDup.
Qed.

Lemma elem_of_order i : i < length Ns0 → i ∈ order.
Proof using HF.
  intros Hi. apply list_elem_of_bind. assert (∃ r, r ∈ roots Ns0 ∧ downstream Ns0 r i) as (r & Hr & Hd).
  { induction (lt_wf i) as [i _ IH]. destruct (predecessorOf Ns0 i) as [j|] eqn:E.
    - assert (j < i) by by apply HF. destruct (IH j) as (r & Hr & Hd); [done|lia|]. exists r. split; [done|].
      by apply rtc_r with j.
    - exists i. by rewrite elem_of_roots. }
  exists r. split; [|done]. apply elem_of_subtree; [done|by apply elem_of_roots in Hr as []|done].
Qed.

Lemma assign_walked :
  ∃ Ns' m, foldl (λ s i, s ← s; walk (length Ns0) i s) (Ok (Ns0, 0)) (roots Ns0) = Ok (Ns', m) ∧ walked Ns0 Ns0 Ns' 0 order.
Proof using HF.
  destruct (walk_forest Ns0 (length Ns0) (roots Ns0) Ns0 0) as (Ns' & H & W);
    [|apply order_NoDup|done|by eexists _, _].
  intros i Ns' m [Hi _]%elem_of_roots Hs. apply walk_ok; [done|done|done|lia].
Qed.

Lemma place_unique s A C B B' :
  s < length Ns0 → order = A ++ subtree Ns0 s ++ C → order = B ++ s :: B' → A = B.
Proof using HF.
  intros Hs HO HB. rewrite subtree_unfold in HO by done. assert (Hn := order_NoDup). rewrite HO in Hn.
  eapply split_unique; [exact Hn|]. rewrite <-HB. by symmetry.
Qed.

Context (HW : walked Ns0 Ns0 Ns 0 order).

(** The place of a node in the order. *)
Lemma placed k n :
  Ns !! k = Some n →
  k < length Ns0 ∧ ∃ A C, order = A ++ subtree Ns0 k ++ C ∧
    Downstream n = mkRange (count Ns0 A) (count Ns0 A + (count Ns0 (subtree Ns0 k) - 1)) ∧
    (isSavepoint n = true → Id n = count Ns0 A) ∧ (isSavepoint <$> Ns0 !! k) = Some (isSavepoint n).
Proof using HF HW.
  intros E. assert (Hs := sameShape_lookup Ns0 Ns k (walked_shape _ _ _ _ _ HW)). rewrite E in Hs.
  destruct (Ns0 !! k) as [n0|] eqn:E0; [|done]. assert (Hk : k < length Ns0) by by eapply lookup_lt_Some.
  assert (Task n = Task n0) as Ht by (cbn in Hs; unfold shape in Hs; congruence).
  split; [done|]. destruct (walked_numbers _ _ _ _ _ HW k (elem_of_order k Hk)) as (A & C & HO & n' & E' & HR & HI).
  exists A, C. simplify_eq. split_and!; try done. unfold isSavepoint. cbn. by rewrite Ht.
Qed.

Lemma count_savepoint A s B : (isSavepoint <$> Ns0 !! s) = Some true → count Ns0 (A ++ s :: B) = count Ns0 A + 1 + count Ns0 B.
Proof. intros H. rewrite count_savepoints_app. unfold count at 2. rewrite filter_cons, H. case_decide; [|done]. cbn. unfold count. lia. Qed.

(** The savepoints with a number in the range of a node are those downstream of
    it, when there are any. *)
Lemma in_range i s ni ns :
  Ns !! i = Some ni → Ns !! s = Some ns → isSavepoint ns = true → 0 < count Ns0 (subtree Ns0 i) →
  Start (Downstream ni) ≤ Id ns ≤ End_ (Downstream ni) ↔ downstream Ns0 i s.
Proof using HF HW.
  intros Ei Es Hs Hc. destruct (placed i ni Ei) as (Hi & A & C & HO & -> & _ & _).
  destruct (placed s ns Es) as (Hsl & A' & C' & HO' & _ & HI & H0). rewrite HI by done. cbn.
  rewrite Hs in H0. assert (Hu := λ B B', place_unique s A' C' B B' Hsl HO').
  rewrite <-(elem_of_subtree Ns0 HF i s Hi). split.
  - intros Hr. assert (s ∈ order) as Hin by by apply elem_of_order. rewrite HO in Hin.
    apply elem_of_app in Hin as [Hin|Hin]; [|apply elem_of_app in Hin as [Hin|Hin]; [done|]].
    + apply list_elem_of_split in Hin as (B & B' & ->). rewrite <-app_assoc in HO. apply Hu in HO. subst A'.
      rewrite count_savepoint in Hr by done. lia.
    + apply list_elem_of_split in Hin as (B & B' & ->). rewrite !app_assoc in HO. apply Hu in HO. subst A'.
      rewrite !count_savepoints_app in Hr. lia.
  - intros (B & B' & HB)%list_elem_of_split. rewrite HB, <-app_assoc, app_assoc in HO. apply Hu in HO. subst A'.
    rewrite HB, count_savepoint, count_savepoints_app by done. lia.
Qed.

Lemma ids_unique s s' ns ns' :
  Ns !! s = Some ns → Ns !! s' = Some ns' → isSavepoint ns = true → isSavepoint ns' = true → Id ns = Id ns' → s = s'.
Proof using HF HW.
  intros Es Es' Hs Hs'. destruct (placed s ns Es) as (Hl & A & C & HO & _ & -> & H0); [|done].
  destruct (placed s' ns' Es') as (Hl' & A' & C' & HO' & _ & -> & H0'); [|done]. intros Hc.
  rewrite Hs in H0. rewrite Hs' in H0'. assert (Hu := λ B B', place_unique s' A' C' B B' Hl' HO').
  destruct (decide (s = s')) as [|Hne]; [done|]. exfalso.
  assert (s' ∈ order) as Hin by by apply elem_of_order. rewrite (subtree_unfold Ns0 HF s Hl) in HO. cbn in HO. rewrite HO in Hin.
  apply elem_of_app in Hin as [Hin|Hin].
  - apply list_elem_of_split in Hin as (B & B' & ->). rewrite <-app_assoc in HO. apply Hu in HO. subst A'.
    rewrite count_savepoint in Hc by done. lia.
  - apply elem_of_cons in Hin as [Hin|Hin]; [done|]. apply list_elem_of_split in Hin as (B & B' & HB).
    rewrite HB in HO. rewrite app_comm_cons, app_assoc in HO. apply Hu in HO. subst A'.
    rewrite count_savepoint in Hc by done. lia.
Qed.
End ranges.

(** ** What is read is well-formed *)

Lemma Forest_sameShape Ns Ns' : sameShape Ns Ns' → Forest Ns' → Forest Ns.
Proof.
  intros Hs [Hb Hc]. assert (∀ i, predecessorOf Ns i = predecessorOf Ns' i) as Hp.
  { intros i. apply (sameShape_lookup Ns' Ns i) in Hs. unfold predecessorOf.
    destruct (Ns !! i), (Ns' !! i); cbn in Hs; try done. by injection Hs. }
  assert (length Ns = length Ns') as Hl by (apply (f_equal length) in Hs; by rewrite !length_fmap in Hs).
  split.
  - intros i j. rewrite Hp. apply Hb.
  - intros i n E. destruct (sameShape_some Ns Ns' i n) as (n' & E' & HS & _); [by symmetry|done|]. rewrite <-HS, (Hc i n' E').
    unfold childrenOf. rewrite Hl. apply list_filter_iff. intros k. by rewrite Hp.
Qed.

Definition link (Previous : option nat) (Raw : nat) (Ns : list PipelineNode) : list PipelineNode :=
  match Previous with Some P => alter (addSuccessor Raw) P Ns | None => Ns end.

Lemma link_length Previous Raw Ns : length (link Previous Raw Ns) = length Ns.
Proof. destruct Previous; [apply length_alter|done]. Qed.

Lemma link_lookup Previous Raw Ns i n :
  link Previous Raw Ns !! i = Some n →
  ∃ n0, Ns !! i = Some n0 ∧ Task n = Task n0 ∧ Arguments n = Arguments n0 ∧ Predecessor n = Predecessor n0 ∧
    Successors n = if decide (Previous = Some i) then Successors n0 ++ [Raw] else Successors n0.
Proof.
  destruct Previous as [P|]; cbn; [|by exists n].
  destruct (decide (P = i)) as [->|Hne].
  - rewrite list_lookup_alter_eq. destruct (Ns !! i) as [n0|]; [|done]. intros [= <-]. exists n0. by case_decide.
  - rewrite list_lookup_alter_ne by done. intros E. exists n. case_decide; [congruence|done].
Qed.

Lemma link_predecessor Previous Raw Ns i : predecessorOf (link Previous Raw Ns) i = predecessorOf Ns i.
Proof.
  unfold predecessorOf. destruct (link Previous Raw Ns !! i) as [n|] eqn:E.
  - apply link_lookup in E as (n0 & -> & _ & _ & H & _). cbn. done.
  - apply lookup_ge_None in E. rewrite link_length in E. by rewrite (proj2 (lookup_ge_None Ns i)).
Qed.

Lemma filter_iff_in {A} (P1 P2 : A → Prop) `{!∀ x, Decision (P1 x), !∀ x, Decision (P2 x)} (l : list A) :
  (∀ x, x ∈ l → P1 x ↔ P2 x) → filter P1 l = filter P2 l.
Proof.
  intros Hl. induction l as [|x l IH]; [done|]. rewrite !filter_cons, IH by (intros; apply Hl; by right).
  specialize (Hl x). repeat case_decide; try done; exfalso; set_solver.
Qed.

Lemma Forest_snoc Ns Previous T As :
  Forest Ns → (∀ p, Previous = Some p → p < length Ns) →
  Forest (link Previous (length Ns) Ns ++ [mkNode 0 (mkRange 0 0) T As Previous []]).
Proof.
  intros [Hb Hc] Hp. set (Ns' := _ ++ _).
  assert (∀ i, predecessorOf Ns' i = if decide (i = length Ns) then Previous else predecessorOf Ns i) as HP.
  { intros i. unfold Ns'. unfold predecessorOf at 1. case_decide as H; subst.
    - rewrite lookup_app_r, link_length, Nat.sub_diag by (rewrite link_length; done). done.
    - destruct (decide (i < length Ns)).
      + rewrite lookup_app_l by (rewrite link_length; done). apply link_predecessor.
      + rewrite (proj2 (lookup_ge_None _ i)); [|rewrite length_app, link_length; cbn; lia].
        unfold predecessorOf. by rewrite (proj2 (lookup_ge_None Ns i)) by lia. }
  assert (∀ i, childrenOf Ns' i = childrenOf Ns i ++ if decide (Previous = Some i) then [length Ns] else []) as HC.
  { intros i. unfold childrenOf. replace (length Ns') with (S (length Ns)) by (unfold Ns'; rewrite length_app, link_length; cbn; lia).
    rewrite seq_S, filter_app. f_equal.
    - apply filter_iff_in. intros k Hk%elem_of_seq. rewrite HP. case_decide; [lia|done].
    - rewrite filter_cons, HP. repeat case_decide; done. }
  split.
  - intros i j. rewrite HP. case_decide as H; [|apply Hb]. subst. apply Hp.
  - intros i n E. rewrite HC. unfold Ns' in E. apply lookup_app_Some in E as [E|[Hi E]].
    + apply link_lookup in E as (n0 & E0 & _ & _ & _ & ->). rewrite (Hc i n0 E0). case_decide; [done|by rewrite app_nil_r].
    + apply list_lookup_singleton_Some in E as [E <-]. rewrite link_length in Hi, E. cbn.
      assert (i = length Ns) as -> by lia. case_decide; [specialize (Hp _ H); lia|]. rewrite app_nil_r. symmetry.
      apply elem_of_nil_inv. intros k Hk. apply elem_of_childrenOf in Hk. apply Hb in Hk as Hlt.
      unfold predecessorOf in Hk. destruct (Ns !! k) eqn:Ek; [|done]. apply lookup_lt_Some in Ek. lia.
Qed.

(** The indices a description holds are in range, and the nodes form a forest. *)
Record Wellformed (D : PipelineDescription) : Prop := {
  wf_declarations i d : Declarations D !! i = Some d → Index d = i;
  wf_forest : Forest (Nodes D);
  wf_arguments i n : Nodes D !! i = Some n → Forall (λ a, Declaration a < length (Declarations D)) (Arguments n);
  wf_saved i n P : Nodes D !! i = Some n → Task n = ASavepoint P → ToSave P = map Declaration (Arguments n);
  wf_artefacts N A : Artefacts D !! N = Some A → ArtefactNode A < length (Nodes D) ∧ ArtefactDeclaration A < length (Declarations D);
  wf_analyses N A : Analyses D !! N = Some A →
    (∀ n, AnalysisNode A = Some n → n < length (Nodes D)) ∧ Forall (λ d, d < length (Declarations D)) (AnalysisArguments A);
}.

Lemma empty_wellformed : Wellformed emptyDescription.
Proof. by split. Qed.

Lemma declarationIndex_yields D N : yields (declarationIndex D N) (λ i, i < length (Declarations D)).
Proof.
  unfold declarationIndex, findDeclaration. destruct (list_find _ _) as [[i d]|] eqn:E; cbn; [|done].
  apply list_find_Some in E as (E & _). by eapply lookup_lt_Some.
Qed.

(** Reading a list of names of containers. *)
Lemma indices_yields {A} D (f : nat → A) (P : A → Prop) Ns :
  (∀ i, i < length (Declarations D) → P (f i)) →
  yields (eachOf (λ N As, Index ←? declarationIndex D N; success (As ++ [f Index])) Ns []) (Forall P).
Proof.
  intros Hf. apply eachOf_yields; [|done]. intros N As _ HAs. eapply yields_bind; [apply declarationIndex_yields|].
  intros i Hi. cbn. apply Forall_app. split; [done|]. apply Forall_singleton. by apply Hf.
Qed.

Lemma parseContainer_yields e D : Nodes D = [] → Wellformed D → yields (parseContainer e D) (λ D, Nodes D = [] ∧ Wellformed D).
Proof.
  intros Hn [H1 H2 H3 H4 H5 H6]. unfold parseContainer. destruct (_ || _); cbn; [done|]. split; [done|]. split; cbn.
  - intros i d [E|[Hi E]]%lookup_app_Some; [by apply H1|]. apply list_lookup_singleton_Some in E as [E <-]. cbn. lia.
  - done.
  - intros i n. rewrite Hn. done.
  - intros i n P. rewrite Hn. done.
  - intros N A E. rewrite length_app. cbn. destruct (H5 N A E) as [Ha Hb]. rewrite Hn in Ha. cbn in Ha. lia.
  - intros N A E. rewrite length_app. cbn. destruct (H6 N A E) as [Ha Hb]. split; [exact Ha|].
    eapply Forall_impl; [done|]. cbn. lia.
Qed.

Lemma addAnalysis_wellformed B D :
  Wellformed D → (∀ n, AnalysisNode B = Some n → n < length (Nodes D)) →
  Forall (λ d, d < length (Declarations D)) (AnalysisArguments B) → Wellformed (addAnalysis B D).
Proof.
  intros [H1 H2 H3 H4 H5 H6] Hn Ha. unfold addAnalysis. destruct (String.eqb _ _); [by split|]. split; try done; cbn.
  intros N A [[<- <-]|[_ E]]%lookup_insert_Some; [done|by apply (H6 N)].
Qed.

Lemma foldl_preserves {A B} (P : B → Prop) (f : B → A → B) l b : (∀ b a, P b → P (f b a)) → P b → P (foldl f b l).
Proof. intros Hf. revert b. induction l as [|a l IH]; cbn; auto. Qed.

Lemma parseAnalysisList_wellformed e D : Wellformed D → Wellformed (parseAnalysisList e D).
Proof. intros [H1 H2 H3 H4 H5 H6]. unfold parseAnalysisList. by destruct (String.eqb _ _). Qed.

(** *** Building the nodes *)

(** The state while the tasks of a branch are visited: at least [n0] nodes. *)
Definition building (n0 : nat) (s : option nat * PipelineDescription) : Prop :=
  Wellformed s.2 ∧ n0 ≤ length (Nodes s.2) ∧ ∀ p, s.1 = Some p → p < length (Nodes s.2).

Lemma snoc_wellformed D Previous T As :
  Wellformed D → (∀ p, Previous = Some p → p < length (Nodes D)) →
  Forall (λ a, Declaration a < length (Declarations D)) As →
  (∀ P, T = ASavepoint P → ToSave P = map Declaration As) →
  Wellformed (withNodes D (link Previous (length (Nodes D)) (Nodes D) ++ [mkNode 0 (mkRange 0 0) T As Previous []])).
Proof.
  intros [H1 H2 H3 H4 H5 H6] Hp HA HT.
  assert (length (link Previous (length (Nodes D)) (Nodes D) ++ [mkNode 0 (mkRange 0 0) T As Previous []]) = S (length (Nodes D))) as Hl
    by (rewrite length_app, link_length; cbn; lia).
  split; cbn; try done.
  - by apply Forest_snoc.
  - intros i n [E|[_ E]]%lookup_app_Some.
    + apply link_lookup in E as (n0 & E & _ & -> & _). by apply (H3 i).
    + by apply list_lookup_singleton_Some in E as [_ <-].
  - intros i n P [E|[_ E]]%lookup_app_Some.
    + apply link_lookup in E as (n0 & E & -> & -> & _). by apply (H4 i).
    + apply list_lookup_singleton_Some in E as [_ <-]. apply HT.
  - intros N A E. rewrite Hl. destruct (H5 N A E). lia.
  - intros N A E. rewrite Hl. destruct (H6 N A E) as [Ha Hb]. split; [|done]. intros n Hn. apply Ha in Hn. lia.
Qed.

Lemma parseTask_yields Branch Task_ : yields (parseTask Branch Task_) (λ r, ∀ P, r.1 = ASavepoint P → ToSave P = []).
Proof. unfold parseTask. repeat destruct (negb _); cbn; [done| |done]. by intros P [= <-]. Qed.

Lemma withToSave_saves T As P : (∀ Q, T = ASavepoint Q → ToSave Q = []) → withToSave T As = ASavepoint P → ToSave P = map Declaration As.
Proof. destruct T as [Q|Q]; cbn; [done|]. intros H [= <-]. cbn. by rewrite (H Q). Qed.

Lemma buildTask_yields n0 Branch Task_ s : building n0 s → yields (buildTask Branch Task_ s) (building n0).
Proof.
  destruct s as [Previous D]. intros (HD & Hn & Hp). cbn in *. unfold buildTask.
  eapply yields_bind; [apply parseTask_yields|]. intros [T Names] HT. cbn in HT.
  eapply yields_bind; [apply (indices_yields D (λ i, mkArgument i Auto) (λ a, Declaration a < length (Declarations D))); intros i Hi; exact Hi|].
  intros As HAs. fold (link Previous (length (Nodes D)) (Nodes D)).
  assert (HW := snoc_wellformed D Previous (withToSave T As) As HD Hp HAs (λ P, withToSave_saves T As P HT)).
  set (Raw := length (Nodes D)). set (D1 := withNodes D _) in *.
  assert (Raw < length (Nodes D1)) as Hr by (cbn; rewrite length_app, link_length; cbn; lia).
  eapply yields_bind; [apply (eachOf_yields _ (λ D', Wellformed D' ∧ Raw < length (Nodes D'))); [|done]|].
  { intros e D' _ [[H1 H2 H3 H4 H5 H6] Hl]. unfold parseArtefact. eapply yields_bind; [apply declarationIndex_yields|].
    intros i Hi. cbn. destruct (String.eqb _ _); [by split|]. split; [|done]. split; try done; cbn.
    intros N A [[<- <-]|[_ E]]%lookup_insert_Some; [done|by apply (H5 N)]. }
  intros D2 HD2.
  eapply yields_bind; [apply (eachOf_yields _ (λ D', Wellformed D' ∧ Raw < length (Nodes D'))); [|done]|].
  { intros e D' _ [HD' Hl]. unfold parseAnalysis.
    eapply yields_bind; [apply (indices_yields D' id (λ d, d < length (Declarations D'))); intros i Hi; exact Hi|]. intros Is HIs. cbn.
    split; [apply addAnalysis_wellformed; [done| |done]; by intros n [= <-]|].
    unfold addAnalysis. by destruct (String.eqb _ _). }
  intros D3 [HD3 Hl3]. cbn. split; [done|]. split; [cbn; unfold Raw in *; lia|]. by intros p [= <-].
Qed.

(** The branches that are not built yet. *)
Definition unbuilt (P : gmap string PendingBranch) : gset string := dom (filter (λ e, Built e.2 = false) P).

Lemma elem_of_unbuilt P N : N ∈ unbuilt P ↔ ∃ B, P !! N = Some B ∧ Built B = false.
Proof.
  unfold unbuilt. rewrite elem_of_dom. split.
  - intros [B [H1 H2]%map_lookup_filter_Some]. by exists B.
  - intros (B & H1 & H2). exists B. by apply map_lookup_filter_Some.
Qed.

Record pendingOk (n0 : nat) (U : gset string) (s : BuildState) : Prop := {
  pending_wellformed : Wellformed s.1;
  pending_nodes : n0 ≤ length (Nodes s.1);
  pending_last N B p : s.2 !! N = Some B → Last B = Some p → p < length (Nodes s.1);
  pending_unbuilt : unbuilt s.2 ⊆ U;
}.

(** Every branch is built once: the bound is enough. *)
Lemma build_yields fuel N n0 U D P :
  pendingOk n0 U (D, P) → size (unbuilt P) < fuel → yields (build fuel N (D, P)) (pendingOk n0 (U ∩ unbuilt P)).
Proof.
  revert N n0 U D P. induction fuel as [|fuel IH]; intros N n0 U D P [HD Hn HL HU] Hf; [lia|]. cbn [build].
  destruct (P !! N) as [B|] eqn:E; [|done]. destruct (Built B) eqn:EB; [cbn; split; set_solver|].
  set (P1 := <[N := _]> P).
  assert (unbuilt P1 = unbuilt P ∖ {[N]}) as HU1.
  { apply set_eq. intros M. rewrite elem_of_difference, !elem_of_unbuilt, elem_of_singleton. unfold P1.
    destruct (decide (M = N)) as [->|]; [rewrite lookup_insert_eq; naive_solver|rewrite lookup_insert_ne by done; naive_solver]. }
  assert (size (unbuilt P1) < size (unbuilt P)) as Hs.
  { rewrite HU1. apply subset_size. assert (N ∈ unbuilt P) by (apply elem_of_unbuilt; by exists B). set_solver. }
  assert (∀ M C p, P1 !! M = Some C → Last C = Some p → p < length (Nodes D)) as HL1.
  { unfold P1. intros M C p [[<- <-]|[_ HM]]%lookup_insert_Some Hp; [by apply (HL N B)|by apply (HL M C)]. }
  destruct (find "tasks" (Body B)) as [[|Tasks|]|]; [done| |done|done].
  eapply (yields_bind _ _ (λ r, pendingOk n0 (U ∩ unbuilt P) r.2 ∧ ∀ p, r.1 = Some p → p < length (Nodes r.2.1))).
  - destruct (String.eqb _ _); [cbn; split; [split; cbn; [done|done|done|set_solver]|done]|].
    eapply yields_bind; [apply (IH _ n0 (U ∩ unbuilt P)); [split; cbn; [done|done|done|set_solver]|lia]|].
    intros [D1 P2] [H1 H2 H3 H4]. cbn in *. split; [split; cbn; [done|done|done|set_solver]|].
    intros p Hp. destruct (P2 !! _) as [C|] eqn:EC; [|done]. exact (H3 _ C p EC Hp).
  - intros [Prev [D1 P2]] [[H1 H2 H3 H4] Hp]. cbn in *.
    eapply (yields_bind _ _ (building (length (Nodes D1)))).
    + apply eachOf_yields; [intros; by apply buildTask_yields|]. by split.
    + intros [Prev' D2] (HD2 & Hn2 & Hp2). cbn in *. split; cbn; [done|lia| |].
      * intros M C p HM HC. destruct (decide (M = N)) as [->|].
        -- rewrite lookup_alter_eq in HM. destruct (P2 !! N); [|done]. injection HM as <-. by apply Hp2.
        -- rewrite lookup_alter_ne in HM by done. specialize (H3 M C p HM HC). lia.
      * intros M (C & HM & HC)%elem_of_unbuilt. apply H4, elem_of_unbuilt. destruct (decide (M = N)) as [->|].
        -- rewrite lookup_alter_eq in HM. destruct (P2 !! N) as [C'|]; [|done]. injection HM as <-. by exists C'.
        -- rewrite lookup_alter_ne in HM by done. by exists C.
Qed.

(** The savepoints are numbered by the place they have in a visit of the tree, and
    the range of a node tells those downstream of it, when there are any. *)
Record Numbered (D : PipelineDescription) : Prop := {
  numbered_unique s s' n n' :
    Nodes D !! s = Some n → Nodes D !! s' = Some n' → isSavepoint n = true → isSavepoint n' = true → Id n = Id n' → s = s';
  numbered_ranges i s n n' :
    Nodes D !! i = Some n → Nodes D !! s = Some n' → isSavepoint n' = true →
    (∃ s' n'', downstream (Nodes D) i s' ∧ Nodes D !! s' = Some n'' ∧ isSavepoint n'' = true) →
    (Start (Downstream n) ≤ Id n' ≤ End_ (Downstream n) ↔ downstream (Nodes D) i s);
}.

Lemma downstream_sameShape Ns Ns' i j : sameShape Ns Ns' → downstream Ns i j → downstream Ns' i j.
Proof.
  intros Hs. induction 1 as [|i k j Hk _ IH]; [done|]. apply rtc_l with k; [|done]. revert Hk.
  apply (sameShape_lookup Ns' Ns k) in Hs. unfold predecessorOf.
  destruct (Ns !! k), (Ns' !! k); cbn in Hs; try done. injection Hs as _ _ Hp _. cbn. by rewrite Hp.
Qed.

Lemma assign_ok D :
  Wellformed D → ∃ D', assignSavepointRanges D = Ok D' ∧ sameShape (Nodes D') (Nodes D) ∧ Wellformed D' ∧ Numbered D'.
Proof.
  intros [H1 H2 H3 H4 H5 H6]. destruct (assign_walked (Nodes D) H2) as (Ns & m & HA & HW).
  assert (sameShape Ns (Nodes D)) as Hs by apply HW. exists (withNodes D Ns). unfold assignSavepointRanges. rewrite HA. cbn.
  split; [done|]. split; [done|].
  assert (length Ns = length (Nodes D)) as Hl by (apply (f_equal length) in Hs; by rewrite !length_fmap in Hs).
  assert (∀ i n, Ns !! i = Some n → ∃ n0, Nodes D !! i = Some n0 ∧ Task n = Task n0 ∧ Arguments n = Arguments n0) as Hn.
  { intros i n E. apply (sameShape_lookup _ _ i) in Hs. rewrite E in Hs. destruct (Nodes D !! i) as [n0|]; [|done].
    exists n0. by injection Hs. }
  split; split; cbn; rewrite ?Hl; try done.
  - by apply (Forest_sameShape _ (Nodes D)).
  - intros i n (n0 & E & _ & ->)%Hn. by apply (H3 i).
  - intros i n P (n0 & E & -> & ->)%Hn. by apply (H4 i).
  - intros s s' n n'. eapply ids_unique; [apply H2|done].
  - intros i s n n' Ei Es Hsp (s' & n'' & Hd & Es' & Hsp'). rewrite (in_range (Nodes D) Ns H2 HW i s n n' Ei Es Hsp).
    + split; apply downstream_sameShape; [by symmetry|done].
    + destruct (placed (Nodes D) Ns H2 HW s' n'' Es') as (_ & A & C & _ & _ & _ & E0). rewrite Hsp' in E0.
      apply (downstream_sameShape _ (Nodes D)) in Hd; [|done].
      destruct (placed (Nodes D) Ns H2 HW i n Ei) as (Hi & _). apply elem_of_subtree in Hd; [|done..].
      apply list_elem_of_split in Hd as (B & B' & ->). rewrite count_savepoint by done. lia.
Qed.

Lemma parse_yields Root : yields (parse Root) (λ D, Wellformed D ∧ Numbered D).
Proof.
  unfold parse. destruct Root as [Root|]; [|done]. destruct (negb _); [done|].
  destruct (find "containers" _) as [[|Containers|]|]; [done| |done|done].
  eapply (yields_bind _ _ (λ D, Nodes D = [] ∧ Wellformed D)).
  { apply eachOf_yields; [|split; [done|apply empty_wellformed]]. intros e D _ [Hn HD]. by apply parseContainer_yields. }
  intros D [Hn HD].
  assert (Wellformed (foldl (λ D e, parseAnalysisList e D) D (elements_ (find "analysis-lists" (materialize Root))))) as HD1
    by (apply foldl_preserves; [|done]; intros; by apply parseAnalysisList_wellformed).
  set (D1 := foldl _ D _) in *.
  assert (Wellformed (foldl (λ D e, parseRootAnalysis e D) D1 (elements_ (find "analyses" (materialize Root))))) as HD2
    by (apply foldl_preserves; [|done]; intros; by apply addAnalysis_wellformed).
  set (D2 := foldl _ D1 _) in *.
  destruct (find "branches" _) as [[| |Branches]|]; [done|done| |done].
  set (Pending := foldl _ ∅ Branches).
  assert (∀ N B, Pending !! N = Some B → Last B = None) as HP.
  { unfold Pending. apply (foldl_preserves (λ P : gmap string PendingBranch, ∀ N B, P !! N = Some B → Last B = None)); [|done].
    intros P e HP N B [[<- <-]|[_ E]]%lookup_insert_Some; [done|by apply (HP N)]. }
  eapply (yields_bind _ _ (pendingOk 0 (unbuilt Pending))).
  - apply eachOf_yields.
    + intros N [D' P'] _ H. eapply yields_weaken; [apply (build_yields _ _ _ _ _ _ H)|].
      * destruct H as [_ _ _ H]. cbn in H. apply subseteq_size in H. unfold unbuilt in H at 2. rewrite size_dom in H.
        assert (size (filter (λ e, Built e.2 = false) Pending) ≤ size Pending); [|lia].
        apply map_subseteq_size, map_filter_subseteq.
      * intros s [??? Hs]. split; try done. set_solver.
    + split; cbn; [done|lia| |done]. intros N B p HB Hp. by rewrite (HP N B HB) in Hp.
  - intros [D' P'] [HD' _ _ _]. cbn in HD'. destruct (assign_ok D' HD') as (D3 & -> & _ & HD3). done.
Qed.

(** *** Properties *)

(** C25: reading a description always ends, with an error or with a description in
    which every index is in range, the nodes form a forest, no two savepoints have
    the same number, and the range of a node that has savepoints downstream holds
    exactly their numbers. *)
Theorem parsed_description_numbered Root :
  match parse Root with
  | Ok (Success D) => Wellformed D ∧ Numbered D
  | Ok (Error _) => True
  | Fault _ => False
  end.
Proof. exact (parse_yields Root). Qed.

(** *** Examples *)

(** A document of a container [c] and the given branches. *)
Definition document (Branches : list (string * list (string * YAMLNode))) : YAMLNode :=
  let mapping l := MappingNode (map (λ e : string * YAMLNode, (ScalarNode e.1, e.2)) l) in
  mapping [("containers", SequenceNode [mapping [("name", ScalarNode "c"); ("type", ScalarNode "t")]]);
           ("branches", mapping (map (λ b, (b.1, mapping b.2)) Branches))]%string.

Definition pipeTask (N : string) : YAMLNode := MappingNode [(ScalarNode "pipe", ScalarNode N)]%string.

Definition savepointTask (N : string) : YAMLNode := MappingNode [(ScalarNode "savepoint", ScalarNode N)]%string.

(** The range of a node with no savepoints downstream is not empty: it holds the
    number of the next savepoint, which is on another branch. *)
Fact range_without_savepoints :
  ∃ D n s, parse (Some (document [("a", [("tasks", SequenceNode [pipeTask "p"])]);
                                  ("b", [("tasks", SequenceNode [savepointTask "s"])])]%string)) = success D ∧
    Nodes D = [n; s] ∧ Downstream n = mkRange 0 0 ∧ isSavepoint s = true ∧ Id s = 0 ∧ Predecessor s = None.
Proof. do 3 eexists. split; [vm_compute; reflexivity|]. repeat split. Qed.

(** Branches that continue each other are accepted: the one that is met again is
    taken for a branch that starts the pipeline. *)
Fact cyclic_branches_accepted :
  ∃ D n s, parse (Some (document [("a", [("from", ScalarNode "b"); ("tasks", SequenceNode [pipeTask "p"])]);
                                  ("b", [("from", ScalarNode "a"); ("tasks", SequenceNode [savepointTask "s"])])]%string)) = success D ∧
    Nodes D = [s; n] ∧ Predecessor s = None ∧ Predecessor n = Some 0.
Proof. do 3 eexists. split; [vm_compute; reflexivity|]. repeat split. Qed.
