(* ===== verification/Runner.v ===== *)
(** * The runner

    [Runner] (include/revng/Runner/Runner.h, lib/Runner/Runner.cpp): what has to be
    run so that some objects are available at a node of the pipeline, running it,
    and what is kept at the savepoints. Containers, pipes and analyses are what the
    registry holds: they are known to the runner by their interfaces
    (include/revng/PipeboxCommon/Helpers/Native). The kind of a container is a
    function of its type, which [KindCache] memoizes. *)

From S2P Require Import Prelude.
From stdpp Require Import gmap strings.
From S2P Require Import Expected.
From S2P Require Import Requests.
From S2P Require Import MemoryStorage.
From S2P Require Import PipelineDescription.

(** ** The registry *)

(** A container holds serializable objects of one kind. *)
(* include/revng/PipeboxCommon/Helpers/Native/Container.h:13-35 Container *)
Class Container (Buffer C : Type) := {
  containerKind : C → Kind;
  objects : C → gset ObjectID;
  deserialize : gmap ObjectID Buffer → C → outcome C;
  serialize : list ObjectID → C → outcome (gmap ObjectID Buffer);
}.

(* include/revng/PipeboxCommon/Helpers/Native/Helpers.h:24-28 ContainerArgument *)
Record ContainerArgument := mkContainerArgument {
  ArgumentName : string;
  ContainerTypeName : string;
  Access_ : Access;
}.

(** For each container, the objects asked of it. *)
Notation Request := (list (list ObjectID)).

(** The objects of each container of a pipe whose production has read a path. *)
Notation ObjectDependencies := (list (list (ObjectID * string))).

(** The containers of a run are in a store; a pipe is given pointers to those that
    are its arguments. *)
(* include/revng/PipeboxCommon/Helpers/Native/Pipe.h:13-24 Pipe *)
Record Pipe (B C : Type) := mkPipe {
  signature : list ContainerArgument;
  run : B → list nat → gmap nat C → Request → Request → string → outcome (gmap nat C * ObjectDependencies);
}.
Arguments signature {B C}.
Arguments run {B C}.

(** An analysis may change the model. *)
Definition Analysis (B C : Type) : Type :=
  B → list nat → gmap nat C → Request → string → outcome (expected unit * B).

(** The factories of the registered types. *)
(* include/revng/PipeboxCommon/Helpers/Native/Registry.h:15-23 RegistryImpl *)
Record Registry (B C : Type) := mkRegistry {
  Containers : string → option C;
  Pipes : string → option (string → Pipe B C);
  RegisteredAnalyses : string → option (Analysis B C);
}.
Arguments Containers {B C}.
Arguments Pipes {B C}.
Arguments RegisteredAnalyses {B C}.

Section runner.
  Context {B Buffer C : Type} `{!ModelBinary B, !Container Buffer C}.
  Context (R : Registry B C) (D : PipelineDescription).

(* include/revng/Runner/Runner.h:125-132 Runner *)
Record Runner := mkRunner {
  TheModel : B;
  ReferenceCaching : bool;
  Storage : MemoryStorage Buffer;
  DynamicConfiguration : gmap string string;
  PipesRun : nat;
}.

Definition withModel (M : B) (r : Runner) : Runner := mkRunner M (ReferenceCaching r) (Storage r) (DynamicConfiguration r) (PipesRun r).
Definition withCaching (b : bool) (r : Runner) : Runner := mkRunner (TheModel r) b (Storage r) (DynamicConfiguration r) (PipesRun r).
Definition withStorage (M : MemoryStorage Buffer) (r : Runner) : Runner := mkRunner (TheModel r) (ReferenceCaching r) M (DynamicConfiguration r) (PipesRun r).

(* include/revng/Runner/Runner.h:78-81 Runner::setDynamicConfiguration *)
Definition setDynamicConfiguration (PipeName_ Configuration : string) (r : Runner) : Runner :=
  mkRunner (TheModel r) (ReferenceCaching r) (Storage r) (<[PipeName_ := Configuration]> (DynamicConfiguration r)) (PipesRun r).

(* include/revng/Runner/Runner.h:85-85 Runner::invalidateFrom *)
Definition invalidateFrom (Savepoint_ : nat) (r : Runner) : Runner := withStorage (eraseFrom (Storage r) Savepoint_) r.

(* include/revng/Runner/Runner.h:86-88 Runner::invalidate *)
Definition invalidate_ (ChangedPaths : gset string) (r : Runner) : Runner := withStorage (invalidate (Storage r) ChangedPaths) r.

Definition countPipe (r : Runner) : Runner := mkRunner (TheModel r) (ReferenceCaching r) (Storage r) (DynamicConfiguration r) (S (PipesRun r)).

(** ** What has to be run *)

Definition typeName (Declaration : nat) : option string := TypeName <$> Declarations D !! Declaration.

(* lib/Runner/Runner.cpp:93-111 Runner::kindOf *)
Definition kindOf (Declaration : nat) : Expected Kind :=
  match typeName Declaration with
  | None => createError "container index out of range"%string
  | Some T =>
    match Containers R T with
    | None => createError ("unregistered container type `" ++ T ++ "`")%string
    | Some It => success (containerKind It)
    end
  end.

(** The pipe of a task. *)
Definition findPipe (T : PipeTask) : Expected (Pipe B C) :=
  match Pipes R (PipeName T) with
  | None => createError ("unregistered pipe `" ++ PipeName T ++ "`")%string
  | Some It => success (It (StaticConfiguration T))
  end.

(** The arguments that a pipe does not only read. *)
Definition written (Arguments_ : list TaskArgument) (Signature : list ContainerArgument) : gset nat :=
  list_to_set (omap (λ e : TaskArgument * ContainerArgument,
    if decide (Access_ e.2 = Read) then None else Some (Declaration e.1)) (zip Arguments_ Signature)).

(* lib/Runner/Runner.cpp:113-139 Runner::producedBy *)
Definition producedBy (n : PipelineNode) : Expected (gset nat) :=
  match Task n with
  | ASavepoint P => success (list_to_set (ToSave P))
  | APipe T => Instance ←? findPipe T; success (written (Arguments n) (signature Instance))
  end.

(** What of one container is needed for all that is wanted. *)
(* lib/Runner/Runner.cpp:175-177 Runner::prerequisitesFor *)
Definition neededOf (M : B) (Wanted : Requests) (TheKind : Kind) : outcome ObjectSet :=
  foldl (λ Needed e, Needed ← Needed; s ← moveToKind M e.2 TheKind; mergeSet Needed s)
    (Ok (emptySet TheKind)) (map_to_list Wanted).

(* lib/Runner/Runner.cpp:163-182 Runner::prerequisitesFor *)
Definition prerequisite (M : B) (Wanted : Requests) (e : TaskArgument * ContainerArgument) (Result : Requests) : Expected Requests :=
  if decide (Access_ e.2 = Write) then success Result else
  TheKind ←? kindOf (Declaration e.1);
  Needed ←? noError (neededOf M Wanted TheKind);
  if setEmpty Needed then success Result else noError (merge (Declaration e.1) Needed Result).

Definition badSignature (T : PipeTask) : string := ("pipe `" ++ PipeName T ++ "` takes another number of containers")%string.

(* lib/Runner/Runner.cpp:141-186 Runner::prerequisitesFor *)
Definition prerequisitesFor (M : B) (n : PipelineNode) (Wanted : Requests) : Expected Requests :=
  match Task n with
  | ASavepoint _ => success Wanted
  | APipe T =>
    Instance ←? findPipe T;
    if negb (Nat.eqb (length (signature Instance)) (length (Arguments n))) then createError (badSignature T)
    else eachOf (prerequisite M Wanted) (zip (Arguments n) (signature Instance)) ∅
  end.

(* include/revng/Runner/Runner.h:102-106 Runner::ScheduledTask *)
Record ScheduledTask := mkTask { Node : nat; Incoming : Requests; Outgoing : Requests }.

(** What of the requests a savepoint does not hold. *)
(* lib/Runner/Runner.cpp:203-208 Runner::schedule *)
Definition stillNeeded (M : MemoryStorage Buffer) (Id_ : nat) (Current : Requests) : outcome Requests :=
  foldl (λ StillNeeded e,
    StillNeeded ← StillNeeded;
    Missing ← missing M (mkLocation Id_ e.1) e.2;
    if setEmpty Missing then Ok StillNeeded else merge e.1 Missing StillNeeded) (Ok ∅) (map_to_list Current).

(** What a visit of the loop does: stop with a task, skip the node, or go on with
    a task and what is wanted before it. *)
Inductive visit := Stop (T : ScheduledTask) | Skip | Go (T : ScheduledTask) (Next : Requests).

(* lib/Runner/Runner.cpp:222-252 Runner::schedule *)
Definition visitProducer (M : B) (Index : nat) (n : PipelineNode) (Outgoing_ Current : Requests) : Expected visit :=
  Produced ←? producedBy n;
  if negb (isSavepoint n) && negb (existsb (λ d, bool_decide (is_Some (Current !! d))) (elements Produced)) then success Skip else
  Incoming_ ←? prerequisitesFor M n Current;
  Next ←? noError (mergeAll (filter (λ e, e.1 ∉ Produced) (map_to_list Current)) Incoming_);
  success (Go (mkTask Index Incoming_ Outgoing_) (minimize Next)).

(* lib/Runner/Runner.cpp:196-253 Runner::schedule *)
Definition visitNode (r : Runner) (Index : nat) (n : PipelineNode) (Current : Requests) : Expected visit :=
  if isSavepoint n then
    StillNeeded ←? noError (stillNeeded (Storage r) (Id n) Current);
    if empty StillNeeded then success (Stop (mkTask Index ∅ Current))
    else visitProducer (TheModel r) Index n Current StillNeeded
  else visitProducer (TheModel r) Index n Current Current.

(* lib/Runner/Runner.cpp:193-254 Runner::schedule *)
Fixpoint scheduleLoop (r : Runner) (fuel : nat) (Node_ : option nat) (Current : Requests) (Reversed : list ScheduledTask) :
    Expected (list ScheduledTask) :=
  match Node_ with
  | None => success Reversed
  | Some Index =>
    if empty Current then success Reversed else
    match fuel, Nodes D !! Index with
    | O, _ => Fault OutOfFuel
    | _, None => undefined
    | S fuel, Some n =>
      v ←? visitNode r Index n Current;
      match v with
      | Stop T => success (Reversed ++ [T])
      | Skip => scheduleLoop r fuel (Predecessor n) Current Reversed
      | Go T Next => scheduleLoop r fuel (Predecessor n) Next (Reversed ++ [T])
      end
    end
  end.

(** The messages of the log are left out. *)
(* lib/Runner/Runner.cpp:188-277 Runner::schedule *)
Definition schedule (r : Runner) (Target : nat) (Wanted : Requests) : Expected (list ScheduledTask) :=
  Reversed ←? scheduleLoop r (length (Nodes D)) (Some Target) (minimize Wanted) [];
  success (reverse Reversed).

(** ** Running *)

(** The requests of a task in the order of the arguments of its node. *)
(* lib/Runner/Runner.cpp:73-89 toRequest *)
Definition toRequest (n : PipelineNode) (Wanted : Requests) : Request :=
  map (λ a, match Wanted !! Declaration a with Some s => inOrder (Objects s) | None => [] end) (Arguments n).

(* lib/Runner/Runner.cpp:33-42 ContainerSet::create *)
Definition create (Declaration_ : nat) (T : string) (Cs : gmap nat C) : Expected (gmap nat C) :=
  match Containers R T with
  | None => createError ("unregistered container type `" ++ T ++ "`")%string
  | Some c => success (<[Declaration_ := c]> Cs)
  end.

(* lib/Runner/Runner.cpp:287-294 Runner::runSchedule *)
Definition createArgument (a : TaskArgument) (Cs : gmap nat C) : Expected (gmap nat C) :=
  if decide (is_Some (Cs !! Declaration a)) then success Cs else
  match typeName (Declaration a) with
  | None => undefined
  | Some T => create (Declaration a) T Cs
  end.

Definition createFor (T : ScheduledTask) (Cs : gmap nat C) : Expected (gmap nat C) :=
  match Nodes D !! Node T with
  | None => undefined
  | Some n => eachOf createArgument (Arguments n) Cs
  end.

(** Load what of a container is wanted and held at the savepoint. *)
(* lib/Runner/Runner.cpp:310-316 Runner::runSchedule *)
Definition load (M : MemoryStorage Buffer) (Location : ContainerLocation) (Wanted : option ObjectSet) (c : C) : outcome C :=
  match Wanted with
  | None => Ok c
  | Some Wanted =>
    let Cached := has M Location (Objects Wanted) in
    if decide (Cached = ∅) then Ok c else deserialize (get M Location Cached) c
  end.

(** Store what the container has that is not held. *)
(* lib/Runner/Runner.cpp:318-326 Runner::runSchedule *)
Definition save (M : MemoryStorage Buffer) (Location : ContainerLocation) (c : C) : outcome (MemoryStorage Buffer) :=
  let Known := objectsAt M Location in
  let ToSave_ := filter (λ o, o ∉ Known) (inOrder (objects c)) in
  match ToSave_ with
  | [] => Ok M
  | _ => New ← serialize ToSave_ c; Ok (add M Location New)
  end.

(* lib/Runner/Runner.cpp:303-327 Runner::runSchedule *)
Definition saveContainer (n : PipelineNode) (T : ScheduledTask) (Declaration_ : nat) (Cs : gmap nat C) :
    Stateful Runner (gmap nat C) :=
  match Cs !! Declaration_ with
  | None => sret Cs
  | Some c => λ r,
    let Location := mkLocation (Id n) Declaration_ in
    c ← load (Storage r) Location (Outgoing T !! Declaration_) c;
    M ← save (Storage r) Location c;
    Ok (Success (<[Declaration_ := c]> Cs), withStorage M r)
  end.

(** The types of the containers are those the pipe expects. *)
(* lib/Runner/Runner.cpp:348-363 Runner::runSchedule *)
Definition checkArgument (T : PipeTask) (e : TaskArgument * ContainerArgument) (_ : unit) : Expected unit :=
  match typeName (Declaration e.1) with
  | None => undefined
  | Some Declared =>
    if String.eqb Declared (ContainerTypeName e.2) then success tt
    else createError ("pipe `" ++ PipeName T ++ "` expects a " ++ ContainerTypeName e.2 ++ ", not a " ++ Declared)%string
  end.

(* lib/Runner/Runner.cpp:387-395 Runner::runSchedule *)
Definition recordDependencies (n : PipelineNode) (e : nat * list (ObjectID * string)) : Stateful Runner unit :=
  match Arguments n !! e.1 with
  | None => λ _, undefined
  | Some a =>
    forEach (λ d, modify (λ r, withStorage (dependOn (Storage r) d.2
      (mkEntry (Start (Downstream n)) (End_ (Downstream n)) (Declaration a) d.1)) r)) e.2
  end.

(* lib/Runner/Runner.cpp:331-395 Runner::runSchedule *)
Definition runPipe (n : PipelineNode) (P : PipeTask) (T : ScheduledTask) (Cs : gmap nat C) : Stateful Runner (gmap nat C) :=
  Instance ←! lift (findPipe P);
  _ ←! modify countPipe;
  if negb (Nat.eqb (length (signature Instance)) (length (Arguments n))) then lift (createError (badSignature P)) else
  _ ←! lift (eachOf (checkArgument P) (zip (Arguments n) (signature Instance)) tt);
  _ ←! lift (noError (revng_assert (forallb (λ a, bool_decide (is_Some (Cs !! Declaration a))) (Arguments n))));
  Dynamic ←! read (λ r, default ""%string (DynamicConfiguration r !! PipeName P));
  _ ←! modify (withCaching true);
  M ←! read TheModel;
  '(Cs, Dependencies_) ←! lift (noError (run Instance M (map Declaration (Arguments n)) Cs
    (toRequest n (Incoming T)) (toRequest n (Outgoing T)) Dynamic));
  _ ←! modify (withCaching false);
  _ ←! forEach (recordDependencies n) (imap pair Dependencies_);
  sret Cs.

(* lib/Runner/Runner.cpp:297-396 Runner::runSchedule *)
Definition runTask (T : ScheduledTask) (Cs : gmap nat C) : Stateful Runner (gmap nat C) :=
  match Nodes D !! Node T with
  | None => λ _, undefined
  | Some n =>
    match Task n with
    | ASavepoint P => eachWith (saveContainer n T) (ToSave P) Cs
    | APipe P => runPipe n P T Cs
    end
  end.

(** The containers the run ends with. *)
(* lib/Runner/Runner.cpp:279-396 Runner::runSchedule *)
Definition runTasks (Tasks : list ScheduledTask) : Stateful Runner (gmap nat C) :=
  Cs ←! lift (eachOf createFor Tasks ∅);
  eachWith runTask Tasks Cs.

(** What to read of the containers once the run is over. *)
(* include/revng/Runner/Runner.h:53-57 Runner::Capture *)
Record Capture := mkCapture { CaptureDeclaration : nat; CaptureObject : ObjectID }.

(* lib/Runner/Runner.cpp:398-404 Runner::runSchedule *)
Definition capture (ToCapture : option Capture) (Cs : gmap nat C) : outcome (option Buffer) :=
  match ToCapture with
  | None => Ok None
  | Some K =>
    match Cs !! CaptureDeclaration K with
    | None => Ok None
    | Some c => Serialised ← serialize [CaptureObject K] c; Ok (Serialised !! CaptureObject K)
    end
  end.

(** The result is that of the capture. *)
(* lib/Runner/Runner.cpp:279-407 Runner::runSchedule *)
Definition runSchedule (Tasks : list ScheduledTask) (ToCapture : option Capture) : Stateful Runner (option Buffer) :=
  Cs ←! runTasks Tasks;
  lift (noError (capture ToCapture Cs)).

(* lib/Runner/Runner.cpp:409-420 Runner::produce *)
Definition produce (Target : option nat) (Wanted : Requests) (ToCapture : option Capture) : Stateful Runner (option Buffer) :=
  match Target with
  | None => lift (createError "no such step in the pipeline"%string)
  | Some Target =>
    Tasks ←! (λ r, lift (schedule r Target Wanted) r);
    runSchedule Tasks ToCapture
  end.

Definition noData : string := "the pipeline produced no data for the requested object".

(* lib/Runner/Runner.cpp:422-465 Runner::produceOne *)
Definition produceOne (Target Declaration_ : nat) (Object : ObjectID) : Stateful Runner Buffer :=
  TheKind ←! lift (kindOf Declaration_);
  if negb (bool_decide (kind Object = TheKind)) then
    lift (createError "the requested object does not match the container's granularity"%string) else
  let Wanted : Requests := {[Declaration_ := mkSet TheKind {[Object]}]} in
  match Nodes D !! Target with
  | None => λ _, undefined
  | Some n =>
    match savepoint n with
    | Some P =>
      if bool_decide (Declaration_ ∈ ToSave P) then
        _ ←! produce (Some Target) Wanted None;
        Held ←! read (λ r, get (Storage r) (mkLocation (Id n) Declaration_) {[Object]});
        match Held !! Object with
        | None => lift (createError noData)
        | Some Data => sret Data
        end
      else
        Result ←! produce (Some Target) Wanted (Some (mkCapture Declaration_ Object));
        match Result with None => lift (createError noData) | Some Data => sret Data end
    | None =>
      Result ←! produce (Some Target) Wanted (Some (mkCapture Declaration_ Object));
      match Result with None => lift (createError noData) | Some Data => sret Data end
    end
  end.

(* lib/Runner/Runner.cpp:467-474 Runner::produceArtefact *)
Definition produceArtefact (N : string) (Object : ObjectID) : Stateful Runner Buffer :=
  match findArtefact D N with
  | None => lift (createError ("no such artefact `" ++ N ++ "`")%string)
  | Some A => produceOne (ArtefactNode A) (ArtefactDeclaration A) Object
  end.

(** ** Analyses *)

(** All the objects of the model, for each container of an analysis. *)
(* lib/Runner/Runner.cpp:490-504 Runner::runAnalysis *)
Definition wantAll (M : B) (Declaration_ : nat) (Wanted : Requests) : Expected Requests :=
  TheKind ←? kindOf Declaration_;
  All ←? noError (if decide (TheKind = Binary) then insert root (emptySet TheKind)
                  else c ← children M root TheKind; insertAll (inOrder c) (emptySet TheKind));
  noError (merge Declaration_ All Wanted).

(** The nearest savepoint upstream that saves the container. *)
(* lib/Runner/Runner.cpp:519-523 Runner::runAnalysis *)
Fixpoint savedAt (fuel : nat) (Node_ : option nat) (Declaration_ : nat) : outcome (option PipelineNode) :=
  match Node_ with
  | None => Ok None
  | Some Index =>
    match fuel, Nodes D !! Index with
    | O, _ => Fault OutOfFuel
    | _, None => undefined
    | S fuel, Some n =>
      match savepoint n with
      | Some P => if bool_decide (Declaration_ ∈ ToSave P) then Ok (Some n) else savedAt fuel (Predecessor n) Declaration_
      | None => savedAt fuel (Predecessor n) Declaration_
      end
    end
  end.

(* lib/Runner/Runner.cpp:512-540 Runner::runAnalysis *)
Definition loadForAnalysis (M : MemoryStorage Buffer) (Node_ : option nat) (Wanted : Requests) (Declaration_ : nat) (Cs : gmap nat C) :
    Expected (gmap nat C) :=
  match typeName Declaration_ with
  | None => undefined
  | Some T =>
    Cs ←? create Declaration_ T Cs;
    At ←? noError (savedAt (length (Nodes D)) Node_ Declaration_);
    match At, Wanted !! Declaration_, Cs !! Declaration_ with
    | Some n, Some s, Some c =>
      let Stored_ := get M (mkLocation (Id n) Declaration_) (Objects s) in
      if decide (Stored_ = ∅) then createError ("an analysis reads a container which holds nothing at savepoint `" ++ name n ++ "`")%string
      else c ←? noError (deserialize Stored_ c); success (<[Declaration_ := c]> Cs)
    | _, _, _ => success Cs
    end
  end.

(** A container that is an argument twice is created again, and the first pointer
    to it dangles. *)
(* lib/Runner/Runner.cpp:476-569 Runner::runAnalysis *)
Definition runAnalysis (N ConfigurationYAML : string) : Stateful Runner unit :=
  match findAnalysis D N, RegisteredAnalyses R N with
  | None, _ => lift (createError ("no such analysis `" ++ N ++ "`")%string)
  | _, None => lift (createError ("unregistered analysis `" ++ N ++ "`")%string)
  | Some Binding, Some Instance =>
    let As := AnalysisArguments Binding in
    M ←! read TheModel;
    Wanted ←! lift (eachOf (wantAll M) As ∅);
    _ ←! match AnalysisNode Binding with
         | Some n => _ ←! produce (Some n) Wanted None; sret tt
         | None => sret tt
         end;
    Cs ←! (λ r, lift (eachOf (loadForAnalysis (Storage r) (AnalysisNode Binding) Wanted) As ∅) r);
    let Incoming_ := map (λ d, match Wanted !! d with Some s => inOrder (Objects s) | None => [] end) As in
    _ ←! modify (withCaching false);
    if negb (bool_decide (NoDup As)) then λ _, undefined else λ r,
    '(Result, M) ← Instance M As Cs Incoming_ ConfigurationYAML;
    Ok (Result, withModel M r)
  end.

(* lib/Runner/Runner.cpp:571-582 Runner::runAnalysisList *)
Definition runAnalysisList (N ConfigurationYAML : string) : Stateful Runner unit :=
  match AnalysisLists D !! N with
  | None => lift (createError ("no such analysis list `" ++ N ++ "`")%string)
  | Some It => forEach (λ Analysis_, runAnalysis Analysis_ ConfigurationYAML) It
  end.

(** ** What is scheduled *)

Definition kindAt (d : nat) : option Kind := match kindOf d with success K => Some K | _ => None end.

Notation wellKinded := (wellKinded kindAt).

Lemma kindOf_yields d : yields (kindOf d) (λ K, kindAt d = Some K).
Proof.
  unfold kindAt. destruct (kindOf d) as [[K|]|] eqn:E; cbn; try done. unfold kindOf in E.
  destruct (typeName d) as [T|]; [|done]. by destruct (Containers R T).
Qed.

Lemma findPipe_yields P : yields (findPipe P) (λ I, findPipe P = success I).
Proof. unfold findPipe. by destruct (Pipes R _). Qed.

Lemma neededOf_ok M Wanted K :
  wellKinded Wanted → ∃ s, neededOf M Wanted K = Ok s ∧ TheKind s = K ∧ kinded s ∧
    ∀ o, o ∈ Objects s ↔ ∃ d s', Wanted !! d = Some s' ∧ o ∈ moved M s' K.
Proof.
  intros HW. unfold neededOf.
  assert (∀ (l : list (nat * ObjectSet)) s0, TheKind s0 = K → kinded s0 → (∀ d s, (d, s) ∈ l → kinded s) →
    ∃ s, foldl (λ Needed e, Needed ← Needed; s ← moveToKind M e.2 K; mergeSet Needed s) (Ok s0) l = Ok s ∧
      TheKind s = K ∧ kinded s ∧ ∀ o, o ∈ Objects s ↔ o ∈ Objects s0 ∨ ∃ d s', (d, s') ∈ l ∧ o ∈ moved M s' K) as Hl.
  { intros l. induction l as [|[d s1] l IH]; intros s0 Hk0 Hs0 Hl; csimpl.
    - exists s0. split_and!; try done. set_solver.
    - rewrite moveToKind_ok by (apply (Hl d); by left). cbn. unfold mergeSet at 2. rewrite bool_decide_eq_true_2 by done. cbn.
      destruct (IH (mkSet (TheKind s0) (Objects s0 ∪ moved M s1 K))) as (s & Hs & Hk & Hd & Ho); [done| | |].
      + intros o [Ho|Ho]%elem_of_union; [by apply Hs0|]. apply moved_kinded in Ho; [by rewrite Hk0|apply (Hl d); by left].
      + intros d' s' Hin. apply (Hl d'). by right.
      + exists s. split_and!; try done. intros o. rewrite Ho. cbn. rewrite elem_of_union. setoid_rewrite elem_of_cons. naive_solver. }
  destruct (Hl (map_to_list Wanted) (emptySet K)) as (s & Hs & Hk & Hd & Ho); [done|done| |].
  - intros d s Hin%elem_of_map_to_list. by apply (HW d s Hin).
  - exists s. split_and!; try done. intros o. rewrite Ho. setoid_rewrite elem_of_map_to_list. set_solver.
Qed.

(** The incoming requests ask of the containers the pipe reads what carrying each
    of the wanted objects to their kind gives. *)
Definition covers (M : B) (es : list (TaskArgument * ContainerArgument)) (Wanted Incoming_ : Requests) : Prop :=
  ∀ a s K d s' o, (a, s) ∈ es → Access_ s ≠ Write → kindAt (Declaration a) = Some K →
    Wanted !! d = Some s' → o ∈ moved M s' K → o ∈ asked Incoming_ (Declaration a).

Lemma prerequisite_yields M Wanted e Result :
  wellKinded Wanted → wellKinded Result →
  yields (prerequisite M Wanted e Result)
    (λ R', wellKinded R' ∧ (∀ d o, o ∈ asked Result d → o ∈ asked R' d) ∧ covers M [e] Wanted R').
Proof.
  intros HW HR. unfold prerequisite. destruct e as [a s]. cbn. case_decide as HA.
  { cbn. split_and!; [done|done|]. intros a' s' K d x o Hin%list_elem_of_singleton. by simplify_eq. }
  eapply yields_bind; [apply kindOf_yields|]. intros K HK.
  destruct (neededOf_ok M Wanted K HW) as (N & HN & HNk & HNd & HNo). rewrite HN. cbn.
  assert (∀ a' s' K' d x o, (a', s') ∈ [(a, s)] → kindAt (Declaration a') = Some K' → Wanted !! d = Some x → o ∈ moved M x K' →
    a' = a ∧ o ∈ Objects N) as Hin.
  { intros a' s' K' d x o H%list_elem_of_singleton Hk' Hx Ho. simplify_eq. split; [done|]. apply HNo. by exists d, x. }
  destruct (setEmpty N) eqn:HE; cbn.
  - split_and!; [done|done|]. intros a' s' K' d x o H _ Hk' Hx Ho. destruct (Hin a' s' K' d x o H Hk' Hx Ho) as [_ Ho'].
    unfold setEmpty in HE. apply bool_decide_eq_true in HE. rewrite HE in Ho'. set_solver.
  - destruct (merge_ok kindAt Result (Declaration a) N HR) as (R' & -> & HR' & HA'); [congruence|done|]. cbn.
    split_and!; [done| |].
    + intros d o Ho. rewrite HA'. case_decide; [subst; set_solver|done].
    + intros a' s' K' d x o H _ Hk' Hx Ho. destruct (Hin a' s' K' d x o H Hk' Hx Ho) as [-> Ho'].
      rewrite HA', decide_True by done. set_solver.
Qed.

Lemma prerequisites_yields M Wanted es :
  wellKinded Wanted → yields (eachOf (prerequisite M Wanted) es ∅) (λ I, wellKinded I ∧ covers M es Wanted I).
Proof.
  intros HW. assert (∀ es0 es R0, wellKinded R0 → covers M es0 Wanted R0 →
    yields (eachOf (prerequisite M Wanted) es R0) (λ I, wellKinded I ∧ covers M (es0 ++ es) Wanted I)) as Hl.
  { intros es0 es1. revert es0. induction es1 as [|e es1 IH]; intros es0 R0 HR HC; cbn; [by rewrite app_nil_r|].
    eapply yields_bind; [by apply prerequisite_yields|]. intros R1 (HR1 & Hm & HC1).
    replace (es0 ++ e :: es1) with ((es0 ++ [e]) ++ es1) by by rewrite <-app_assoc. apply IH; [done|].
    intros a s K d x o [H|H]%elem_of_app; [|by apply HC1]. intros HA HK Hx Ho. apply Hm. by eapply HC. }
  apply (Hl [] es ∅); [done|]. intros a s K d x o H. set_solver.
Qed.

Lemma stillNeeded_ok M i Current :
  wellKinded Current → ∃ N, stillNeeded M i Current = Ok N ∧ wellKinded N ∧
    ∀ d o, o ∈ asked N d ↔ o ∈ asked Current d ∧ fetch M (mkLocation i d) o = None.
Proof.
  intros HC. unfold stillNeeded.
  assert (∀ (l : list (nat * ObjectSet)) N0, wellKinded N0 → (∀ d s, (d, s) ∈ l → kindAt d = Some (TheKind s) ∧ kinded s) →
    ∃ N, foldl (λ N e, N ← N; Missing ← missing M (mkLocation i e.1) e.2;
                 if setEmpty Missing then Ok N else merge e.1 Missing N) (Ok N0) l = Ok N ∧ wellKinded N ∧
      ∀ d o, o ∈ asked N d ↔ o ∈ asked N0 d ∨ ∃ s, (d, s) ∈ l ∧ o ∈ Objects s ∧ fetch M (mkLocation i d) o = None) as Hl.
  { intros l. induction l as [|[d s] l IH]; intros N0 HN Hl; csimpl; [exists N0; split_and!; [done|done|set_solver]|].
    destruct (Hl d s) as [Hd Hs]; [by left|]. rewrite missing_ok by done. cbn.
    set (ms := mkSet _ _).
    assert (∀ o, o ∈ Objects ms ↔ o ∈ Objects s ∧ fetch M (mkLocation i d) o = None) as Hms.
    { intros o. unfold ms. cbn. rewrite elem_of_difference, has_spec. destruct (fetch M _ o); naive_solver. }
    assert (∃ N1, (if setEmpty ms then Ok N0 else merge d ms N0) = Ok N1 ∧ wellKinded N1 ∧
      ∀ d' o, o ∈ asked N1 d' ↔ o ∈ asked N0 d' ∨ d' = d ∧ o ∈ Objects ms) as (N1 & -> & HN1 & HA1).
    { destruct (setEmpty ms) eqn:E.
      - exists N0. split_and!; try done. unfold setEmpty in E. apply bool_decide_eq_true in E. rewrite E. set_solver.
      - destruct (merge_ok kindAt N0 d ms) as (N1 & -> & HN1 & HA1); [done|done| |].
        + intros o [Ho _]%Hms. exact (Hs o Ho).
        + exists N1. split_and!; [done|done|]. intros d' o. rewrite HA1. case_decide; subst; set_solver. }
    destruct (IH N1 HN1) as (N & -> & HN' & HA); [intros; apply Hl; by right|]. exists N. split_and!; [done|done|].
    intros d' o. rewrite HA, HA1, Hms. setoid_rewrite elem_of_cons. split.
    - intros [[H|(-> & H)]|(s' & Hs' & H)]; [by left|right; exists s; naive_solver|right; exists s'; naive_solver].
    - intros [H|(s' & [E|Hs'] & H)]; [by left; left| |right; by exists s'].
      injection E as -> ->. left; right. done. }
  destruct (Hl (map_to_list Current) ∅) as (N & -> & HN & HA); [done| |].
  - intros d s Hin%elem_of_map_to_list. by apply HC.
  - exists N. split_and!; [done|done|]. intros d o. rewrite HA. setoid_rewrite elem_of_map_to_list. unfold asked.
    rewrite lookup_empty. cbn. split.
    + intros [H|(s & -> & H)]; [set_solver|done].
    + intros [H1 H2]. right. destruct (Current !! d) as [s|]; [by exists s|set_solver].
Qed.

(** What a schedule is: for each node, from the target backwards, what is wanted of
    it, the task that it is given, and what is wanted before. *)
Inductive Chain (r : Runner) : option nat → Requests → list ScheduledTask → Prop :=
  | Chain_start Current : Chain r None Current []
  | Chain_done Node_ Current : (∀ d, asked Current d = ∅) → Chain r Node_ Current []
  | Chain_stop i n P Current :
      Nodes D !! i = Some n → Task n = ASavepoint P →
      (∀ d o, o ∈ asked Current d → is_Some (fetch (Storage r) (mkLocation (Id n) d) o)) →
      Chain r (Some i) Current [mkTask i ∅ Current]
  | Chain_skip i n P I Current ts :
      Nodes D !! i = Some n → Task n = APipe P → findPipe P = success I →
      (∀ d, d ∈ written (Arguments n) (signature I) → asked Current d = ∅) →
      Chain r (Predecessor n) Current ts → Chain r (Some i) Current ts
  | Chain_save i n P Current Incoming_ Next ts :
      Nodes D !! i = Some n → Task n = ASavepoint P →
      (∀ d o, o ∈ asked Current d → o ∈ asked Next d ∨ is_Some (fetch (Storage r) (mkLocation (Id n) d) o)) →
      Chain r (Predecessor n) Next ts → Chain r (Some i) Current (mkTask i Incoming_ Current :: ts)
  | Chain_pipe i n P I Current Incoming_ Next ts :
      Nodes D !! i = Some n → Task n = APipe P → findPipe P = success I → wellKinded Current →
      covers (TheModel r) (zip (Arguments n) (signature I)) Current Incoming_ →
      (∀ d o, o ∈ asked Incoming_ d → o ∈ asked Next d) →
      (∀ d o, o ∈ asked Current d → d ∉ written (Arguments n) (signature I) → o ∈ asked Next d) →
      Chain r (Predecessor n) Next ts → Chain r (Some i) Current (mkTask i Incoming_ Current :: ts).

Lemma elem_of_asked (R0 : Requests) d o : o ∈ asked R0 d ↔ ∃ s, R0 !! d = Some s ∧ o ∈ Objects s.
Proof. unfold asked. destruct (R0 !! d) as [s|]; cbn; set_solver. Qed.

(** A visit of a node that the loop does not stop at. *)
Definition visited (r : Runner) (i : nat) (n : PipelineNode) (Outgoing_ Current : Requests) (v : visit) : Prop :=
  match v with
  | Stop _ => False
  | Skip => ∃ P I, Task n = APipe P ∧ findPipe P = success I ∧
      ∀ d, d ∈ written (Arguments n) (signature I) → asked Current d = ∅
  | Go T Next => ∃ Incoming_, T = mkTask i Incoming_ Outgoing_ ∧ wellKinded Next ∧
      match Task n with
      | ASavepoint _ => ∀ d o, o ∈ asked Current d → o ∈ asked Next d
      | APipe P => ∃ I, findPipe P = success I ∧
          covers (TheModel r) (zip (Arguments n) (signature I)) Current Incoming_ ∧
          (∀ d o, o ∈ asked Incoming_ d → o ∈ asked Next d) ∧
          (∀ d o, o ∈ asked Current d → d ∉ written (Arguments n) (signature I) → o ∈ asked Next d)
      end
  end.

Lemma producedBy_yields n :
  yields (producedBy n) (λ Produced,
    match Task n with
    | ASavepoint P => Produced = list_to_set (ToSave P)
    | APipe P => ∃ I, findPipe P = success I ∧ Produced = written (Arguments n) (signature I)
    end).
Proof.
  unfold producedBy. destruct (Task n); [|done]. eapply yields_bind; [apply findPipe_yields|]. intros I HI. by exists I.
Qed.

Lemma prerequisitesFor_yields M n Wanted :
  wellKinded Wanted →
  yields (prerequisitesFor M n Wanted) (λ Incoming_, wellKinded Incoming_ ∧
    match Task n with
    | ASavepoint P => Incoming_ = Wanted
    | APipe P => ∃ I, findPipe P = success I ∧ covers M (zip (Arguments n) (signature I)) Wanted Incoming_
    end).
Proof.
  intros HW. unfold prerequisitesFor. destruct (Task n); [|done]. eapply yields_bind; [apply findPipe_yields|].
  intros I HI. destruct (negb _); [done|]. eapply yields_weaken; [by apply prerequisites_yields|].
  intros Incoming_ [H1 H2]. split; [done|]. by exists I.
Qed.

Lemma visitProducer_yields r i n Outgoing_ Current :
  wellKinded Current → yields (visitProducer (TheModel r) i n Outgoing_ Current) (visited r i n Outgoing_ Current).
Proof.
  intros HC. unfold visitProducer. eapply yields_bind; [apply producedBy_yields|]. intros Produced HP.
  destruct (negb (isSavepoint n) && _) eqn:E.
  - apply andb_true_iff in E as [E1 E2]. apply negb_true_iff in E2. unfold isSavepoint in E1. cbn.
    destruct (Task n) as [P|P]; [|done]. destruct HP as (I & HI & ->). exists P, I. split_and!; [done|done|].
    intros d Hd. unfold asked. destruct (Current !! d) as [s|] eqn:Ed; [|done]. exfalso.
    apply not_true_iff_false in E2. apply E2. apply existsb_exists. exists d.
    rewrite <-list_elem_of_In, elem_of_elements, Ed. split; [done|]. by apply bool_decide_eq_true.
  - eapply yields_bind; [by apply prerequisitesFor_yields|]. intros Incoming_ [HI HIn].
    destruct (mergeAll_ok kindAt (filter (λ e, e.1 ∉ Produced) (map_to_list Current)) Incoming_ HI) as (Next & HN & HNk & HNa).
    { intros d s [_ Hin%elem_of_map_to_list]%list_elem_of_filter. by apply HC. }
    rewrite HN. cbn. exists Incoming_. split; [done|]. split; [by apply minimize_wellKinded|].
    assert (∀ d o, o ∈ asked (minimize Next) d ↔ o ∈ asked Incoming_ d ∨ o ∈ asked Current d ∧ d ∉ Produced) as HA.
    { intros d o. rewrite minimize_asked, HNa, (elem_of_asked Current). setoid_rewrite list_elem_of_filter.
      setoid_rewrite elem_of_map_to_list. cbn. naive_solver. }
    destruct (Task n) as [P|P].
    + destruct HP as (I & HI1 & ->), HIn as (I' & HI2 & Hc). rewrite HI1 in HI2. injection HI2 as <-. exists I.
      split_and!; [done|done| |]; intros d o; rewrite HA; [by left|by right].
    + subst. intros d o Ho. apply HA. by left.
Qed.

Lemma empty_asked (R0 : Requests) : empty R0 = true → ∀ d, asked R0 d = ∅.
Proof. by rewrite empty_asked_spec. Qed.

Lemma scheduleLoop_yields r fuel Node_ Current Reversed :
  Wellformed D → wellKinded Current → from_option (λ i, i < fuel ∧ i < length (Nodes D)) True Node_ →
  yields (scheduleLoop r fuel Node_ Current Reversed) (λ ts, ∃ ts', ts = Reversed ++ ts' ∧ Chain r Node_ Current ts').
Proof.
  intros HD. revert Node_ Current Reversed. induction fuel as [|fuel IH]; intros Node_ Current Reversed HC HN.
  { destruct Node_ as [i|]; cbn in HN; [lia|]. cbn. exists []. rewrite app_nil_r. split; [done|constructor]. }
  destruct Node_ as [i|]; cbn; [|exists []; rewrite app_nil_r; split; [done|constructor]]. destruct HN as [Hi Hl].
  destruct (empty Current) eqn:HE.
  { cbn. exists []. rewrite app_nil_r. split; [done|]. apply Chain_done. by apply empty_asked. }
  destruct (lookup_lt_is_Some_2 (Nodes D) i Hl) as [n E]. rewrite E.
  assert (from_option (λ j, j < fuel ∧ j < length (Nodes D)) True (Predecessor n)) as HPn.
  { destruct (Predecessor n) as [j|] eqn:EP; cbn; [|done].
    assert (j < i); [|lia]. apply (forest_before _ (wf_forest _ HD)). unfold predecessorOf. by rewrite E. }
  assert (∀ Outgoing_ Cur v, wellKinded Cur → visited r i n Outgoing_ Cur v →
    (∀ d o, o ∈ asked Outgoing_ d → o ∈ asked Cur d ∨ is_Some (fetch (Storage r) (mkLocation (Id n) d) o) ∧ isSavepoint n = true) →
    (isSavepoint n = false → Outgoing_ = Cur) → Outgoing_ = Current →
    yields (match v with
            | Stop T => success (Reversed ++ [T])
            | Skip => scheduleLoop r fuel (Predecessor n) Current Reversed
            | Go T Next => scheduleLoop r fuel (Predecessor n) Next (Reversed ++ [T])
            end) (λ ts, ∃ ts', ts = Reversed ++ ts' ∧ Chain r (Some i) Current ts')) as Hv.
  { intros Outgoing_ Cur v HCur Hv HO Hs ->. destruct v as [T| |T Next]; cbn in Hv; [done| |].
    - destruct Hv as (P & I & HT & HI & Hd). eapply yields_weaken; [by apply IH|]. intros ts (ts' & -> & Hch).
      exists ts'. split; [done|]. eapply Chain_skip; [done|done|done| |done]. intros d. rewrite Hs; [apply Hd|].
      unfold isSavepoint. by rewrite HT.
    - destruct Hv as (Incoming_ & -> & HNk & Hv). eapply yields_weaken; [by apply IH|]. intros ts (ts' & -> & Hch).
      eexists (_ :: ts'). split; [by rewrite <-app_assoc|]. destruct (Task n) as [P|P] eqn:HT.
      + destruct Hv as (I & HI & Hc & H1 & H2). assert (Current = Cur) as <- by (apply Hs; unfold isSavepoint; by rewrite HT).
        by eapply Chain_pipe.
      + eapply Chain_save; [done|done| |done]. intros d o [H|[H _]]%HO; [left; by apply Hv|by right]. }
  unfold visitNode. destruct (isSavepoint n) eqn:HS.
  - destruct (stillNeeded_ok (Storage r) (Id n) Current HC) as (N & HN & HNk & HNa). rewrite HN. cbn.
    destruct (empty N) eqn:HNE; cbn.
    + eexists [_]. split; [done|]. unfold isSavepoint in HS. destruct (Task n) as [|P] eqn:HT; [done|].
      eapply Chain_stop; [done|done|]. intros d o Ho. assert (HNd := empty_asked N HNE d).
      destruct (fetch (Storage r) _ o) eqn:EF; [done|]. assert (o ∈ asked N d) by by apply HNa. set_solver.
    + eapply yields_bind; [by apply visitProducer_yields|]. intros v Hv'. eapply Hv; [exact HNk|done| |done|done].
      intros d o Ho. destruct (fetch (Storage r) _ o) eqn:EF; [right; done|]. left. by apply HNa.
  - eapply yields_bind; [by apply visitProducer_yields|]. intros v Hv'. eapply Hv; [exact HC|done| |done|done].
    intros d o Ho. by left.
Qed.

(** Scheduling ends, without failed assertions, in an error or in a chain that gives
    what is wanted. *)
Lemma schedule_yields r Target Wanted :
  Wellformed D → wellKinded Wanted → Target < length (Nodes D) →
  yields (schedule r Target Wanted) (λ ts, ∃ ts', ts = reverse ts' ∧ Chain r (Some Target) (minimize Wanted) ts').
Proof.
  intros HD HW HT. unfold schedule. eapply yields_bind.
  - apply scheduleLoop_yields; [done|by apply minimize_wellKinded|done].
  - intros ts (ts' & -> & Hch). cbn. by exists ts'.
Qed.

(** ** What is produced

    The contents of a container are the values of its objects; serialized objects
    have a value. *)

Class ContainerLaws (Content : Type) := {
  contents : C → gmap ObjectID Content;
  means : Buffer → Content;
  objects_spec c : objects c = dom (contents c);
  deserialize_total m c : (∀ o, is_Some (m !! o) → kind o = containerKind c) →
    ∃ c', deserialize m c = Ok c' ∧ containerKind c' = containerKind c;
  deserialize_spec m c c' o : deserialize m c = Ok c' →
    contents c' !! o = match m !! o with Some b => Some (means b) | None => contents c !! o end;
  serialize_spec os c m o : serialize os c = Ok m →
    means <$> m !! o = if decide (o ∈ os) then contents c !! o else None;
}.

Section production.
  Context {Content : Type} `{!ContainerLaws Content}.

(** What a container of the store holds for an object. *)
Definition held (Cs : gmap nat C) (d : nat) (o : ObjectID) : option Content := Cs !! d ≫= λ c, contents c !! o.

Lemma held_insert Cs d c d' o : held (<[d := c]> Cs) d' o = if decide (d' = d) then contents c !! o else held Cs d' o.
Proof. unfold held. case_decide; subst; [by rewrite lookup_insert_eq|by rewrite lookup_insert_ne]. Qed.

Lemma load_spec M l W c c' o :
  load M l W c = Ok c' →
  contents c' !! o =
    match fetch M l o with
    | Some b => if decide (o ∈ from_option Objects ∅ W) then Some (means b) else contents c !! o
    | None => contents c !! o
    end.
Proof.
  unfold load. destruct W as [s|]; cbn; [|intros [= ->]; by destruct (fetch M l o)].
  assert (∀ b, fetch M l o = Some b → o ∈ Objects s → o ∈ has M l (Objects s)) as Hh by (intros b Hb Ho; apply has_spec; by rewrite Hb).
  case_decide as H.
  - intros [= ->]. destruct (fetch M l o) as [b|] eqn:E; [|done]. case_decide; [|done]. set_solver.
  - intros Hd. rewrite (deserialize_spec _ _ _ o Hd), get_spec. destruct (fetch M l o) as [b|] eqn:E.
    + destruct (decide (o ∈ has M l (Objects s))) as [Hx|Hx].
      * apply has_spec in Hx as [Hx _]. by rewrite decide_True.
      * rewrite decide_False; [done|]. intros Ho. by apply Hx, (Hh b).
    + by destruct (decide _).
Qed.

Lemma save_spec M l c M' :
  save M l c = Ok M' →
  (∀ l' o, l' ≠ l → fetch M' l' o = fetch M l' o) ∧
  (∀ o b, fetch M l o = Some b → fetch M' l o = Some b) ∧
  (∀ o, fetch M l o = None → means <$> fetch M' l o = contents c !! o).
Proof.
  unfold save. set (os := filter _ _).
  assert (∀ o, o ∈ os ↔ is_Some (contents c !! o) ∧ fetch M l o = None) as Hos.
  { intros o. unfold os. rewrite list_elem_of_filter, elem_of_inOrder, objectsAt_spec, objects_spec, elem_of_dom.
    rewrite <-eq_None_not_Some. naive_solver. }
  assert (∀ M', (os = [] ∧ M' = M ∨ ∃ New, serialize os c = Ok New ∧ M' = add M l New) →
    (∀ l' o, l' ≠ l → fetch M' l' o = fetch M l' o) ∧ (∀ o b, fetch M l o = Some b → fetch M' l o = Some b) ∧
    (∀ o, fetch M l o = None → means <$> fetch M' l o = contents c !! o)) as Hc.
  { intros M1 [[Hn ->]|(New & HNew & ->)].
    - split_and!; [done|done|]. intros o Ho. rewrite Ho. cbn. destruct (contents c !! o) eqn:E; [|done].
      assert (o ∈ os) as H by (apply Hos; by rewrite E). rewrite Hn in H. set_solver.
    - assert (∀ o, fetch (add M l New) l o = match New !! o with Some b => Some b | None => fetch M l o end) as Hf.
      { intros o. rewrite fetch_add, decide_True, lookup_union by done. unfold fetch. destruct (Stored M !! l) as [Sl|]; cbn.
        - destruct (New !! o), (Sl !! o); done.
        - rewrite lookup_empty. by destruct (New !! o). }
      split_and!.
      + intros l' o Hl. by rewrite fetch_add, decide_False.
      + intros o b Ho. rewrite Hf. assert (HN := serialize_spec _ _ _ o HNew). destruct (New !! o); [|done].
        case_decide as Hx; [|done]. apply Hos in Hx as [_ Hx]. congruence.
      + intros o Ho. rewrite Hf, Ho. assert (HN := serialize_spec _ _ _ o HNew). case_decide as Hx.
        * rewrite <-HN. by destruct (New !! o).
        * destruct (New !! o); [done|]. cbn. destruct (contents c !! o) eqn:E; [|done]. exfalso. apply Hx, Hos. by rewrite E. }
  intros H. apply Hc. destruct os as [|o os']; [injection H as ->; by left|]. right.
  destruct (serialize (o :: os') c) as [New|] eqn:E; [|done]. injection H as <-. by exists New.
Qed.

(** ** The value of each object at each node

    [content] gives what each container holds for each object after each node, for a
    model and a configuration; [None] is the start of the pipeline. *)

  Context (M0 : B) (Dynamic : string → string) (content : option nat → nat → ObjectID → option Content).

Record Meaning : Prop := {
  content_start d o : content None d o = None;
  content_savepoint i n P d o : Nodes D !! i = Some n → Task n = ASavepoint P → content (Some i) d o = content (Predecessor n) d o;
  content_frame i n P I d o : Nodes D !! i = Some n → Task n = APipe P → findPipe P = success I →
    d ∉ written (Arguments n) (signature I) → content (Some i) d o = content (Predecessor n) d o;
}.

(** A pipe that finds in the containers it reads what it asked for produces the
    objects that are asked of those it writes, and leaves the rest as it is. *)
Definition PipesCorrect : Prop :=
  ∀ i n P I Cs Incoming_ Outgoing_ Cs' deps,
    Nodes D !! i = Some n → Task n = APipe P → findPipe P = success I → wellKinded Outgoing_ →
    run I M0 (map Declaration (Arguments n)) Cs (toRequest n Incoming_) (toRequest n Outgoing_) (Dynamic (PipeName P)) = Ok (Cs', deps) →
    covers M0 (zip (Arguments n) (signature I)) Outgoing_ Incoming_ →
    (∀ a s o, (a, s) ∈ zip (Arguments n) (signature I) → Access_ s ≠ Write → o ∈ asked Incoming_ (Declaration a) →
      held Cs (Declaration a) o = content (Predecessor n) (Declaration a) o) →
    dom Cs' = dom Cs ∧
    ∀ d o, held Cs' d o = if decide (d ∈ written (Arguments n) (signature I) ∧ o ∈ asked Outgoing_ d)
                          then content (Some i) d o else held Cs d o.

(** Containers are registered empty. *)
Definition ContainersEmpty : Prop := ∀ T c, Containers R T = Some c → contents c = ∅.

(** What is stored is what the savepoint holds. *)
Definition StorageOk (M : MemoryStorage Buffer) : Prop :=
  ∀ i n P d o b, Nodes D !! i = Some n → Task n = ASavepoint P → fetch M (mkLocation (Id n) d) o = Some b →
    d ∈ ToSave P ∧ content (Some i) d o = Some (means b).

(** The run does not change the model nor the configuration. *)
Definition sameInputs (r : Runner) : Prop :=
  TheModel r = M0 ∧ ∀ N, default ""%string (DynamicConfiguration r !! N) = Dynamic N.

(** *** A task *)

(** What a task does not change. *)
Definition sameConfiguration (r r' : Runner) : Prop :=
  TheModel r' = TheModel r ∧ DynamicConfiguration r' = DynamicConfiguration r.

Definition sameStored (r r' : Runner) : Prop := ∀ l o, fetch (Storage r') l o = fetch (Storage r) l o.

Lemma saveContainer_inv n T d Cs r Cs' r' :
  saveContainer n T d Cs r = Ok (Success Cs', r') →
  dom Cs' = dom Cs ∧ sameConfiguration r r' ∧ PipesRun r' = PipesRun r ∧
  (∀ d' o, held Cs' d' o = held Cs d' o ∨
    d' = d ∧ o ∈ asked (Outgoing T) d ∧ ∃ b, fetch (Storage r) (mkLocation (Id n) d) o = Some b ∧ held Cs' d o = Some (means b)) ∧
  (∀ o b, is_Some (Cs !! d) → o ∈ asked (Outgoing T) d → fetch (Storage r) (mkLocation (Id n) d) o = Some b →
    held Cs' d o = Some (means b)) ∧
  (∀ l o, l ≠ mkLocation (Id n) d → fetch (Storage r') l o = fetch (Storage r) l o) ∧
  (∀ l o b, fetch (Storage r) l o = Some b → fetch (Storage r') l o = Some b) ∧
  (∀ o b, fetch (Storage r) (mkLocation (Id n) d) o = None → fetch (Storage r') (mkLocation (Id n) d) o = Some b →
    held Cs' d o = Some (means b)).
Proof.
  unfold saveContainer. destruct (Cs !! d) as [c|] eqn:E.
  2: { intros [= -> ->]. split_and!; try done; try (by left); try (by intros o b [? ?]). all: intros o b H1 H2; congruence. }
  intros H. apply bind_inv in H as (c' & HL & H). apply bind_inv in H as (M' & HS & [= <- <-]).
  apply save_spec in HS as (S1 & S2 & S3). assert (HL' := λ o, load_spec _ _ _ _ _ o HL).
  assert (∀ o, held Cs d o = contents c !! o) as Hh by (intros; unfold held; by rewrite E).
  split_and!.
  - rewrite dom_insert_L. apply elem_of_dom_2 in E. set_solver.
  - done.
  - done.
  - intros d' o. rewrite !held_insert. destruct (decide (d' = d)) as [->|]; [|by left]. rewrite decide_True, HL', Hh by done.
    destruct (fetch (Storage r) _ o) as [b|]; [|by left]. case_decide; [|by left]. right. split_and!; [done|done|by exists b].
  - intros o b _ Ho Hb. by rewrite held_insert, decide_True, HL', Hb, decide_True.
  - exact S1.
  - intros l o b Hb. destruct (decide (l = mkLocation (Id n) d)) as [->|]; [by apply S2|cbn; by rewrite S1].
  - intros o b Hn Hb. rewrite held_insert, decide_True by done. rewrite <-S3 by done. cbn in Hb. by rewrite Hb.
Qed.

Section saving.
  Context (i : nat) (n : PipelineNode) (T : ScheduledTask).
  Notation at_ d := (mkLocation (Id n) d).

(** Saving leaves in the containers what is asked of them. *)
Lemma save_asked L Cs r Cs' r' :
  eachWith (saveContainer n T) L Cs r = Ok (Success Cs', r') →
  (∀ d, d ∈ L → is_Some (Cs !! d)) →
  (∀ d o b, o ∈ asked (Outgoing T) d → fetch (Storage r) (at_ d) o = Some b → content (Some i) d o = Some (means b)) →
  (∀ d o, o ∈ asked (Outgoing T) d → held Cs d o = content (Some i) d o ∨ is_Some (fetch (Storage r) (at_ d) o)) →
  (∀ d o, o ∈ asked (Outgoing T) d → held Cs d o = content (Some i) d o ∨ d ∈ L → held Cs' d o = content (Some i) d o) ∧
  (∀ d o b, o ∈ asked (Outgoing T) d → fetch (Storage r') (at_ d) o = Some b → content (Some i) d o = Some (means b)) ∧
  (∀ l o, Savepoint l ≠ Id n → fetch (Storage r') l o = fetch (Storage r) l o) ∧
  dom Cs' = dom Cs ∧ sameConfiguration r r' ∧ PipesRun r' = PipesRun r.
Proof.
  revert Cs r. induction L as [|d L IH]; intros Cs r H HL H2 H3; cbn in H.
  { injection H as -> ->. split_and!; try done. intros d o Ho [Hh|Hd]; [done|set_solver]. }
  apply sbind_inv in H as (C1 & r1 & H1 & H). apply saveContainer_inv in H1 as (Hd & Hc & Hp & V1 & V2 & V3 & V4 & V5).
  assert (∀ d' o, o ∈ asked (Outgoing T) d' → held Cs d' o = content (Some i) d' o ∨ d' = d → held C1 d' o = content (Some i) d' o) as Hk.
  { intros d' o Ho Hh. destruct (V1 d' o) as [Hs|(-> & _ & b & Hb & ->)]; [|by rewrite (H2 d o b Ho Hb)].
    destruct Hh as [Hh| ->]; [congruence|]. destruct (H3 d o Ho) as [Hh|[b Hb]]; [congruence|].
    rewrite (V2 o b) by (done || apply HL; by left). by rewrite (H2 d o b Ho Hb). }
  destruct (IH C1 r1 H) as (J1 & J6 & J2 & J3 & J4 & J5).
  - intros d' Hd'. apply elem_of_dom. rewrite Hd. apply elem_of_dom, HL. by right.
  - intros d' o b Ho Hb. destruct (decide (d' = d)) as [->|]; [|apply H2; [done|]; rewrite <-V3; [done|congruence]].
    destruct (fetch (Storage r) (at_ d) o) as [b'|] eqn:E.
    + rewrite (V4 _ _ _ E) in Hb. injection Hb as <-. by apply H2.
    + rewrite <-(Hk d o Ho) by by right. by apply V5.
  - intros d' o Ho. destruct (H3 d' o Ho) as [Hh|[b Hb]]; [left; apply Hk; [done|by left]|]. right. exists b. by apply V4.
  - split_and!.
    + intros d' o Ho [Hh|[->|Hd']%elem_of_cons]; apply J1; try done; [left; apply Hk; [done|by left]|left; apply Hk; [done|by right]|by right].
    + exact J6.
    + intros l o Hl. rewrite J2, V3 by (done || intros ->; done). done.
    + congruence.
    + destruct Hc, J4. split; congruence.
    + congruence.
Qed.

(** When the containers hold nothing but what the savepoint has, so does what is
    saved. *)
Lemma save_pristine L Cs r Cs' r' (K : nat → gset ObjectID) :
  eachWith (saveContainer n T) L Cs r = Ok (Success Cs', r') →
  (∀ d o b, fetch (Storage r) (at_ d) o = Some b → content (Some i) d o = Some (means b)) →
  (∀ d o v, held Cs d o = Some v → content (Some i) d o = Some v ∧ o ∈ K d) →
  (∀ d, asked (Outgoing T) d ⊆ K d) →
  (∀ d o b, fetch (Storage r') (at_ d) o = Some b → content (Some i) d o = Some (means b)) ∧
  (∀ d o b, fetch (Storage r') (at_ d) o = Some b → d ∈ L ∨ is_Some (fetch (Storage r) (at_ d) o)) ∧
  (∀ d o v, held Cs' d o = Some v → content (Some i) d o = Some v ∧ o ∈ K d).
Proof.
  intros H H1 H2 HK.
  eapply (eachWith_inv _ (λ Cs1 r1,
    (∀ d o b, fetch (Storage r1) (at_ d) o = Some b → content (Some i) d o = Some (means b)) ∧
    (∀ d o b, fetch (Storage r1) (at_ d) o = Some b → d ∈ L ∨ is_Some (fetch (Storage r) (at_ d) o)) ∧
    (∀ d o v, held Cs1 d o = Some v → content (Some i) d o = Some v ∧ o ∈ K d))); [| |exact H].
  - intros d Cs1 r1 C2 r2 HdL (P1 & P2 & P3) Hs. apply saveContainer_inv in Hs as (_ & _ & _ & V1 & V2 & V3 & V4 & V5).
    assert (∀ d o v, held C2 d o = Some v → content (Some i) d o = Some v ∧ o ∈ K d) as Hk.
    { intros d' o v Hv. destruct (V1 d' o) as [Hs|(-> & Ho & b & Hb & Hs)]; rewrite Hs in Hv; [by apply P3|].
      injection Hv as <-. split; [by apply P1|by apply HK]. }
    assert (∀ d' o b, fetch (Storage r2) (at_ d') o = Some b → fetch (Storage r1) (at_ d') o = Some b ∨ d' = d ∧ held C2 d o = Some (means b)) as Hf.
    { intros d' o b Hb. destruct (decide (d' = d)) as [->|]; [|left; rewrite <-V3; [done|congruence]].
      destruct (fetch (Storage r1) (at_ d) o) as [b'|] eqn:E; [left; by rewrite <-Hb, (V4 _ _ _ E)|right]. split; [done|by apply V5]. }
    split_and!; [| |exact Hk].
    + intros d' o b [Hb|[-> Hb]]%Hf; [by apply P1|by apply Hk].
    + intros d' o b [Hb|[-> Hb]]%Hf; [by eapply P2|by left].
  - split_and!; [done| |done]. intros d o b Hb. right. by exists b.
Qed.
End saving.

Lemma recordDependencies_same n e r u r' :
  recordDependencies n e r = Ok (Success u, r') → sameStored r r' ∧ sameConfiguration r r' ∧ PipesRun r' = PipesRun r.
Proof.
  unfold recordDependencies. destruct (Arguments n !! e.1) as [a|]; [|done].
  apply (forEach_inv _ (λ r1, sameStored r r1 ∧ sameConfiguration r r1 ∧ PipesRun r1 = PipesRun r)); [|done].
  intros x r1 [] r2 (H1 & H2 & H3) [= <-]. done.
Qed.

Lemma runPipe_inv n P T Cs r Cs' r' :
  runPipe n P T Cs r = Ok (Success Cs', r') →
  ∃ I deps, findPipe P = success I ∧
    run I (TheModel r) (map Declaration (Arguments n)) Cs (toRequest n (Incoming T)) (toRequest n (Outgoing T))
      (default ""%string (DynamicConfiguration r !! PipeName P)) = Ok (Cs', deps) ∧
    sameStored r r' ∧ sameConfiguration r r' ∧ PipesRun r' = S (PipesRun r).
Proof.
  unfold runPipe. intros (I & r1 & [HI ->]%lift_inv & H)%sbind_inv. apply sbind_inv in H as ([] & r1 & [= <-] & H).
  destruct (negb _); [by apply lift_inv in H as []|].
  apply sbind_inv in H as ([] & r1 & [_ ->]%lift_inv & H). apply sbind_inv in H as ([] & r1 & [_ ->]%lift_inv & H).
  do 3 (apply sbind_inv in H as (? & ? & [= <- <-] & H)).
  apply sbind_inv in H as ([C1 deps] & r1 & [Hr%noError_inv ->]%lift_inv & H).
  apply sbind_inv in H as (? & ? & [= <- <-] & H). apply sbind_inv in H as ([] & r1 & Hd & [= -> ->]).
  exists I, deps. split_and!; [done|exact Hr| | |].
  all: apply (forEach_inv _ (λ r1, sameStored (withCaching false (withCaching true (countPipe r))) r1 ∧
      sameConfiguration (withCaching false (withCaching true (countPipe r))) r1 ∧ PipesRun r1 = S (PipesRun r))) in Hd as (H1 & H2 & H3);
    [done| |done].
  all: intros x r1 u r2 (H1 & [H2 H3] & H4) (J1 & [J2 J3] & J4)%recordDependencies_same;
    split_and!; [intros l o; by rewrite J1, H1|split; congruence|congruence].
Qed.

(** *** A schedule *)

Lemma createArgument_inv a Cs Cs' :
  ContainersEmpty → createArgument a Cs = success Cs' →
  is_Some (Cs' !! Declaration a) ∧ (∀ d, is_Some (Cs !! d) → is_Some (Cs' !! d)) ∧
  ((∀ d o, held Cs d o = None) → ∀ d o, held Cs' d o = None).
Proof.
  intros HE. unfold createArgument. case_decide as Hs; [by intros [= ->]|].
  destruct (typeName _) as [T|]; [|done]. unfold create. destruct (Containers R T) as [c|] eqn:E; [|done].
  intros [= <-]. split_and!.
  - by rewrite lookup_insert_eq.
  - intros d Hd. destruct (decide (d = Declaration a)) as [->|]; [by rewrite lookup_insert_eq|by rewrite lookup_insert_ne].
  - intros Hh d o. rewrite held_insert. case_decide; [|done]. by rewrite (HE T c E), lookup_empty.
Qed.

Lemma eachOf_inv {A} (f : A → gmap nat C → Expected (gmap nat C)) (P : gmap nat C → Prop) (Q : A → gmap nat C → Prop) l Cs Cs' :
  (∀ x Cs Cs', f x Cs = success Cs' → P Cs → P Cs' ∧ Q x Cs' ∧ ∀ y, Q y Cs → Q y Cs') →
  P Cs → eachOf f l Cs = success Cs' → P Cs' ∧ (∀ x, x ∈ l → Q x Cs') ∧ ∀ y, Q y Cs → Q y Cs'.
Proof.
  intros Hf. revert Cs. induction l as [|x l IH]; cbn; intros Cs HP H.
  - injection H as ->. split_and!; [done|set_solver|done].
  - apply ebind_inv in H as (C1 & H1 & H). destruct (Hf _ _ _ H1 HP) as (P1 & Q1 & M1). destruct (IH _ P1 H) as (P2 & Q2 & M2).
    split_and!; [done| |naive_solver]. intros y [->|Hy]%elem_of_cons; [by apply M2|by apply Q2].
Qed.

Definition emptyStore (Cs : gmap nat C) : Prop := ∀ d o, held Cs d o = None.

Lemma createFor_inv Tasks Cs :
  ContainersEmpty → eachOf createFor Tasks ∅ = success Cs →
  emptyStore Cs ∧ ∀ t n a, t ∈ Tasks → Nodes D !! Node t = Some n → a ∈ Arguments n → is_Some (Cs !! Declaration a).
Proof.
  intros HE H. apply (eachOf_inv _ emptyStore (λ t Cs, ∀ n a, Nodes D !! Node t = Some n → a ∈ Arguments n → is_Some (Cs !! Declaration a)))
    in H as (H1 & H2 & _); [split; [done|]; intros t n a Ht; by apply H2| |intros d o; unfold held; by rewrite lookup_empty].
  intros t C1 C2 Ht H1. unfold createFor in Ht. destruct (Nodes D !! Node t) as [n|] eqn:En; [|done].
  assert (∀ l C1 C2, eachOf createArgument l C1 = success C2 → ∀ d, is_Some (C1 !! d) → is_Some (C2 !! d)) as Hm.
  { intros l. induction l as [|x l IH]; cbn; [by intros ?? [= ->]|]. intros X Y (Z & H2 & H3)%ebind_inv d Hd.
    apply (IH _ _ H3). by apply (createArgument_inv x X Z HE H2). }
  assert (HC := Hm _ _ _ Ht). apply (eachOf_inv _ emptyStore (λ a Cs, is_Some (Cs !! Declaration a))) in Ht as (J1 & J2 & _); [| |done].
  - split_and!; [done| |].
    + intros n' a [= <-] Ha. by apply J2.
    + intros t' Hq n' a Hn' Ha. apply HC. by eapply Hq.
  - intros x X Y (Q1 & Q2 & Q3)%createArgument_inv HX; [|done]. split_and!; [exact (Q3 HX)|done|]. intros y. apply Q2.
Qed.

(** *** What is stored of what was not asked for

    A savepoint stores all that its containers hold. What they hold is what some task
    before was asked for, brought to the savepoint by pipes that only produce what
    is asked of them: a schedule is tight when no pipe on the way, run or skipped,
    writes a container without being asked for all that the tasks before it were. *)

(** What some tasks were asked of a container. *)
Definition demanded (ts : list ScheduledTask) (d : nat) : gset ObjectID := ⋃ ((λ t, asked (Outgoing t) d) <$> ts).

Definition writes (n : PipelineNode) : gset nat :=
  match Task n with
  | ASavepoint _ => ∅
  | APipe P => match findPipe P with success It => written (Arguments n) (signature It) | _ => ∅ end
  end.

(** The tasks are given from the last to the first. *)
Fixpoint tight (fuel : nat) (Node_ : option nat) (ts : list ScheduledTask) : bool :=
  match ts, Node_, fuel with
  | [], _, _ | _, None, _ => true
  | _, _, O => false
  | t :: ts', Some i, S fuel =>
    match Nodes D !! i with
    | None => false
    | Some n =>
      if Nat.eqb (Node t) i then
        forallb (λ d, bool_decide (demanded ts' d ⊆ asked (Outgoing t) d)) (elements (writes n)) && tight fuel (Predecessor n) ts'
      else
        forallb (λ d, bool_decide (demanded ts d = ∅)) (elements (writes n)) && tight fuel (Predecessor n) ts
    end
  end.

Section sound.
  Context (HD : Wellformed D) (HN : Numbered D).
  Context (HM : Meaning) (HP : PipesCorrect).
  Context (r0 : Runner) (HI : sameInputs r0) (HS : StorageOk (Storage r0)).

Lemma sameInputs_same r r' : sameInputs r → sameConfiguration r r' → sameInputs r'.
Proof. intros [H1 H2] [H3 H4]. split; [congruence|]. intros N. by rewrite H4. Qed.

(** What is not known of the storage yet: the savepoints after a node. *)
Definition untouched (Node_ : option nat) (r' : Runner) : Prop :=
  ∀ j n d o, Nodes D !! j = Some n → isSavepoint n = true → (∀ k, Node_ = Some k → k < j) →
    fetch (Storage r') (mkLocation (Id n) d) o = fetch (Storage r0) (mkLocation (Id n) d) o.

Lemma before i n j k : Nodes D !! i = Some n → (∀ k, Some i = Some k → k < j) → Predecessor n = Some k → k < j.
Proof using HD.
  intros E Hj Hk. assert (i < j) by by apply Hj. assert (k < i); [|lia].
  apply (forest_before _ (wf_forest _ HD)). unfold predecessorOf. by rewrite E.
Qed.

(** The result of a run that gives what is wanted at a node. *)
Record runResult (Node_ : option nat) (Current : Requests) (Cs0 Cs : gmap nat C) (r' : Runner) : Prop := {
  run_held d o : o ∈ asked Current d → held Cs d o = content Node_ d o;
  run_dom : dom Cs = dom Cs0;
  run_inputs : sameInputs r';
  run_untouched : untouched Node_ r';
  run_saved i n d o b : Node_ = Some i → Nodes D !! i = Some n → isSavepoint n = true → o ∈ asked Current d →
    fetch (Storage r') (mkLocation (Id n) d) o = Some b → content Node_ d o = Some (means b);
}.

Lemma run_savepoint i n P T Cs0 Cs r Cs' r' :
  Nodes D !! i = Some n → Task n = ASavepoint P → runTask T Cs r = Ok (Success Cs', r') → Node T = i →
  (∀ a, a ∈ Arguments n → is_Some (Cs !! Declaration a)) →
  dom Cs = dom Cs0 → sameInputs r → untouched (Predecessor n) r →
  (∀ d o, o ∈ asked (Outgoing T) d →
    held Cs d o = content (Some i) d o ∨ is_Some (fetch (Storage r0) (mkLocation (Id n) d) o)) →
  runResult (Some i) (Outgoing T) Cs0 Cs' r'.
Proof using HD HN HS.
  intros E ET H HT HA Hdom Hin Hun HO. unfold runTask in H. rewrite HT, E, ET in H.
  assert (isSavepoint n = true) as Hsp by (unfold isSavepoint; by rewrite ET).
  assert (∀ d o, fetch (Storage r) (mkLocation (Id n) d) o = fetch (Storage r0) (mkLocation (Id n) d) o) as HF.
  { intros d o. apply (Hun i n); [done|done|]. intros k Hk. apply (forest_before _ (wf_forest _ HD)). unfold predecessorOf. by rewrite E. }
  destruct (save_asked i n T (ToSave P) Cs r Cs' r' H) as (S1 & S2 & S3 & S4 & S5 & _).
  - intros d Hd. rewrite (wf_saved _ HD i n P E ET) in Hd. apply list_elem_of_In, in_map_iff in Hd as (a & <- & Ha%list_elem_of_In). by apply HA.
  - intros d o b Ho Hb. rewrite HF in Hb. by apply (HS i n P d o b E ET).
  - intros d o Ho. rewrite HF. by apply HO.
  - split.
    + intros d o Ho. apply S1; [done|]. destruct (HO d o Ho) as [Hh|[b Hb]]; [by left|]. right. by apply (HS i n P d o b E ET).
    + congruence.
    + by apply (sameInputs_same r).
    + intros j n' d o E' Hs' Hj. rewrite S3; cbn.
      * apply (Hun j n' d o E' Hs'). intros k. by apply (before i n).
      * intros Hid. assert (j = i) by by apply (numbered_unique _ HN j i n' n). assert (i < j); [by apply Hj|lia].
    + intros j n' d o b [= <-] E' _ Ho Hb. simplify_eq. by apply (S2 d o b).
Qed.

Lemma run_chain Node_ Current ts :
  Chain r0 Node_ Current ts → ∀ Cs0 r Cs r',
  emptyStore Cs0 → (∀ t n a, t ∈ ts → Nodes D !! Node t = Some n → a ∈ Arguments n → is_Some (Cs0 !! Declaration a)) →
  sameInputs r → sameStored r0 r →
  eachWith runTask (reverse ts) Cs0 r = Ok (Success Cs, r') → runResult Node_ Current Cs0 Cs r'.
Proof using HD HN HM HP HI HS.
  induction 1 as [Current|Node_ Current Hc|i n P Current E ET HC|i n P I Current ts E ET EI HC Hch IH
    |i n P Current Inc Next ts E ET HC Hch IH|i n P I Current Inc Next ts E ET EI HW HC HN1 HN2 Hch IH];
    intros Cs0 r Cs r' H0 HA Hin Hst H.
  - injection H as <- <-. split; [intros d o _; by rewrite H0, (content_start HM)|done|done| |done].
    intros j n d o _ _ _. apply Hst.
  - injection H as <- <-. split; [set_solver|done|done| |set_solver]. intros j n d o _ _ _. apply Hst.
  - cbn in H. apply sbind_inv in H as (C1 & r1 & H & [= -> ->]).
    apply (run_savepoint i n P _ Cs0 Cs0 r _ _ E ET H); [done| |done|done| |].
    + intros a Ha. by apply (HA (mkTask i ∅ Current) n); [left| |].
    + intros j n' d o _ _ _. apply Hst.
    + intros d o Ho. right. by apply HC.
  - destruct (IH Cs0 r Cs r' H0 HA Hin Hst H) as [R1 R2 R3 R4 R5]. split; [|done|done| |].
    + intros d o Ho. rewrite R1 by done. symmetry. apply (content_frame HM i n P I); [done..|]. intros Hd. rewrite (HC d Hd) in Ho. set_solver.
    + intros j n' d o E' Hs' Hj. apply (R4 j n'); [done|done|]. intros k. by apply (before i n).
    + intros j n' d o b [= <-] E' Hs'. simplify_eq. unfold isSavepoint in Hs'. by rewrite ET in Hs'.
  - rewrite reverse_cons, eachWith_app in H. apply sbind_inv in H as (C1 & r1 & H1 & H). cbn in H.
    apply sbind_inv in H as (C2 & r2 & H & [= -> ->]).
    destruct (IH Cs0 r C1 r1) as [R1 R2 R3 R4 R5]; try done; [intros t n' a Ht; apply HA; by right|].
    apply (run_savepoint i n P _ Cs0 C1 r1 _ _ E ET H); [done| |done|done|done|].
    + intros a Ha. apply elem_of_dom. rewrite R2. apply elem_of_dom. by apply (HA (mkTask i Inc Current) n); [left| |].
    + intros d o Ho. destruct (HC d o Ho) as [Ho'|Hf]; [|by right]. left. rewrite R1 by done. symmetry. by apply (content_savepoint HM i n P).
  - rewrite reverse_cons, eachWith_app in H. apply sbind_inv in H as (C1 & r1 & H1 & H). cbn in H.
    apply sbind_inv in H as (C2 & r2 & H & [= -> ->]).
    destruct (IH Cs0 r C1 r1) as [R1 R2 R3 R4 R5]; try done; [intros t n' a Ht; apply HA; by right|].
    unfold runTask in H. cbn in H. rewrite E, ET in H. apply runPipe_inv in H as (I' & deps & EI' & HR & Q1 & Q2 & _).
    rewrite EI in EI'. injection EI' as <-. destruct R3 as [Hmod Hdyn]. rewrite Hmod, Hdyn in HR. cbn in HR.
    destruct (HP i n P I C1 Inc Current Cs deps E ET EI HW HR) as [Hd Hh].
    { destruct HI as [<- _]. exact HC. }
    { intros a s o Ha Hs Ho. apply R1. by apply HN1. }
    split.
    + intros d o Ho. rewrite Hh. case_decide as Hx; [done|]. destruct (decide (d ∈ written (Arguments n) (signature I))) as [Hw|Hw]; [naive_solver|].
      rewrite R1 by by apply HN2. symmetry. by apply (content_frame HM i n P I).
    + congruence.
    + by apply (sameInputs_same r1).
    + intros j n' d o E' Hs' Hj. rewrite Q1. apply (R4 j n'); [done|done|]. intros k. by apply (before i n).
    + intros j n' d o b [= <-] E' Hs'. simplify_eq. unfold isSavepoint in Hs'. by rewrite ET in Hs'.
Qed.

Lemma elem_of_demanded ts d o : o ∈ demanded ts d ↔ ∃ t, t ∈ ts ∧ o ∈ asked (Outgoing t) d.
Proof. unfold demanded. rewrite elem_of_union_list. setoid_rewrite list_elem_of_fmap. naive_solver. Qed.

Lemma chain_nodes r Node_ Current ts :
  Chain r Node_ Current ts → ∀ t, t ∈ ts → from_option (λ k, Node t ≤ k) False Node_.
Proof using HD.
  assert (∀ i n k, Nodes D !! i = Some n → Predecessor n = Some k → k < i) as Hb.
  { intros i n k E Hk. apply (forest_before _ (wf_forest _ HD)). unfold predecessorOf. by rewrite E. }
  induction 1 as [Current|Node_ Current Hc|i n P Current E ET HC|i n P I Current ts E ET EI HC Hch IH
    |i n P Current Inc Next ts E ET HC Hch IH|i n P I Current Inc Next ts E ET EI HW HC HN1 HN2 Hch IH]; intros t Ht; cbn.
  - by apply elem_of_nil in Ht.
  - by apply elem_of_nil in Ht.
  - by apply list_elem_of_singleton in Ht as ->.
  - apply IH in Ht. destruct (Predecessor n) as [k|] eqn:Hk; [|done]. cbn in Ht. specialize (Hb i n k E Hk). lia.
  - apply elem_of_cons in Ht as [->|Ht]; [done|]. apply IH in Ht. destruct (Predecessor n) as [k|] eqn:Hk; [|done].
    cbn in Ht. specialize (Hb i n k E Hk). lia.
  - apply elem_of_cons in Ht as [->|Ht]; [done|]. apply IH in Ht. destruct (Predecessor n) as [k|] eqn:Hk; [|done].
    cbn in Ht. specialize (Hb i n k E Hk). lia.
Qed.

(** After a run that is tight, all that the containers hold and all that is stored
    is right. *)
Record runClean (Node_ : option nat) (ts : list ScheduledTask) (Cs : gmap nat C) (r' : Runner) : Prop := {
  clean_held d o v : held Cs d o = Some v → content Node_ d o = Some v ∧ o ∈ demanded ts d;
  clean_stored : StorageOk (Storage r');
}.

Lemma forallb_elements (s : gset nat) (f : nat → bool) : forallb f (elements s) = true → ∀ d, d ∈ s → f d = true.
Proof. rewrite forallb_forall. setoid_rewrite <-list_elem_of_In. setoid_rewrite elem_of_elements. done. Qed.

Lemma writes_pipe n P I : Task n = APipe P → findPipe P = success I → writes n = written (Arguments n) (signature I).
Proof. unfold writes. by intros -> ->. Qed.

Lemma clean_savepoint i n P T ts Cs r Cs' r' :
  Nodes D !! i = Some n → Task n = ASavepoint P → runTask T Cs r = Ok (Success Cs', r') → Node T = i →
  (∀ d o v, held Cs d o = Some v → content (Some i) d o = Some v ∧ o ∈ demanded (T :: ts) d) →
  StorageOk (Storage r) → (∀ d, d ∈ ToSave P → is_Some (Cs !! d)) →
  (∀ d o, o ∈ asked (Outgoing T) d → held Cs d o = content (Some i) d o ∨ is_Some (fetch (Storage r) (mkLocation (Id n) d) o)) →
  runClean (Some i) (T :: ts) Cs' r'.
Proof using HN.
  intros E ET H HT Hh Hs HA HO. unfold runTask in H. rewrite HT, E, ET in H.
  assert (isSavepoint n = true) as Hsp by (unfold isSavepoint; by rewrite ET).
  destruct (save_pristine i n T (ToSave P) Cs r Cs' r' (demanded (T :: ts)) H) as (Q1 & Q2 & Q3); [|done| |].
  - intros d o b Hb. by apply (Hs i n P d o b).
  - intros d o Ho. apply elem_of_demanded. exists T. split; [by left|done].
  - destruct (save_asked i n T (ToSave P) Cs r Cs' r' H HA) as (_ & _ & S3 & _); [|done|].
    + intros d o b _ Hb. by apply (Hs i n P d o b).
    + split; [exact Q3|]. intros j n' P' d o b E' ET' Hb. destruct (decide (j = i)) as [->|Hne].
      * rewrite E in E'. injection E' as <-. rewrite ET in ET'. injection ET' as <-. split; [|by apply (Q1 d o b)].
        destruct (Q2 d o b Hb) as [Hd|[b' Hb']]; [exact Hd|]. by apply (Hs i n P d o b').
      * rewrite S3 in Hb; [by apply (Hs j n' P')|]. cbn. intros Hid. apply Hne.
        apply (numbered_unique _ HN j i n' n); [done|done| |done|done]. unfold isSavepoint. by rewrite ET'.
Qed.

Lemma run_clean Node_ Current ts :
  Chain r0 Node_ Current ts → ∀ fuel Cs0 r Cs r',
  emptyStore Cs0 → (∀ t n a, t ∈ ts → Nodes D !! Node t = Some n → a ∈ Arguments n → is_Some (Cs0 !! Declaration a)) →
  sameInputs r → sameStored r0 r → tight fuel Node_ ts = true →
  eachWith runTask (reverse ts) Cs0 r = Ok (Success Cs, r') → runClean Node_ ts Cs r'.
Proof using HD HN HM HP HI HS.
  intros Hch. assert (HR := run_chain _ _ _ Hch). assert (HNd := chain_nodes _ _ _ _ Hch). revert HR HNd.
  induction Hch as [Current|Node_ Current Hc|i n P Current E ET HC|i n P I Current ts E ET EI HC Hch IH
    |i n P Current Inc Next ts E ET HC Hch IH|i n P I Current Inc Next ts E ET EI HW HC HN1 HN2 Hch IH];
    intros _ HNd fuel Cs0 r Cs r' H0 HA Hin Hst Ht H.
  1,2: injection H as <- <-; split; [intros d o v Hv; by rewrite H0 in Hv|].
  1,2: intros j n P d o b E ET Hb; rewrite Hst in Hb; by apply (HS j n P d o b).
  - cbn in H. apply sbind_inv in H as (C1 & r1 & H & [= -> ->]).
    apply (clean_savepoint i n P _ [] Cs0 r Cs r' E ET H); [done| | | |].
    + intros d o v Hv. by rewrite H0 in Hv.
    + intros j n' P' d o b E' ET' Hb. rewrite Hst in Hb. by apply (HS j n' P' d o b).
    + intros d Hd. rewrite (wf_saved _ HD i n P E ET) in Hd. apply list_elem_of_In, in_map_iff in Hd as (a & <- & Ha%list_elem_of_In).
      by apply (HA (mkTask i ∅ Current) n); [left| |].
    + intros d o Ho. right. rewrite Hst. by apply HC.
  - assert (HR := run_chain _ _ _ Hch). assert (HNd' := chain_nodes _ _ _ _ Hch).
    destruct ts as [|t ts]; [injection H as <- <-; split; [intros d o v Hv; by rewrite H0 in Hv|];
      intros j n' P' d o b E' ET' Hb; rewrite Hst in Hb; by apply (HS j n' P' d o b)|].
    assert (Node t ≠ i) as Hne.
    { specialize (HNd' t ltac:(by left)). destruct (Predecessor n) as [k|] eqn:Hk; [|done]. cbn in HNd'.
      assert (k < i); [|lia]. apply (forest_before _ (wf_forest _ HD)). unfold predecessorOf. by rewrite E. }
    destruct fuel as [|fuel]; [done|]. cbn [tight] in Ht. rewrite E in Ht. destruct (Nat.eqb_spec (Node t) i); [done|].
    apply andb_true_iff in Ht as [Hd Ht]. destruct (IH HR HNd' fuel Cs0 r Cs r' H0 HA Hin Hst Ht H) as [Q1 Q2]. split; [|done].
    intros d o v Hv. destruct (Q1 d o v Hv) as [Hc Ho]. split; [|done]. rewrite <-Hc. apply (content_frame HM i n P I); [done..|].
    intros Hw. rewrite <-(writes_pipe n P I ET EI) in Hw. apply (forallb_elements _ _ Hd), bool_decide_eq_true in Hw. set_solver.
  - rewrite reverse_cons, eachWith_app in H. apply sbind_inv in H as (C1 & r1 & H1 & H). cbn in H.
    apply sbind_inv in H as (C2 & r2 & H & [= -> ->]).
    destruct fuel as [|fuel]; [done|]. cbn [tight] in Ht. cbn [Node] in Ht. rewrite E, Nat.eqb_refl in Ht. apply andb_true_iff in Ht as [_ Ht].
    assert (∀ t n a, t ∈ ts → Nodes D !! Node t = Some n → a ∈ Arguments n → is_Some (Cs0 !! Declaration a)) as HA'
      by (intros t n' a Htt; apply HA; by right).
    destruct (IH (run_chain _ _ _ Hch) (chain_nodes _ _ _ _ Hch) fuel Cs0 r C1 r1 H0 HA' Hin Hst Ht H1) as [Q1 Q2].
    destruct (run_chain _ _ _ Hch Cs0 r C1 r1 H0 HA' Hin Hst H1) as [R1 R2 R3 R4 R5].
    apply (clean_savepoint i n P _ ts C1 r1 Cs r' E ET H); [done| |done| |].
    + intros d o v Hv. destruct (Q1 d o v Hv) as [Hc Ho]. rewrite (content_savepoint HM i n P) by done. split; [done|].
      apply elem_of_demanded in Ho as (t & Htt & Ho). apply elem_of_demanded. exists t. split; [by right|done].
    + intros d Hd. rewrite (wf_saved _ HD i n P E ET) in Hd. apply list_elem_of_In, in_map_iff in Hd as (a & <- & Ha%list_elem_of_In).
      apply elem_of_dom. rewrite R2. apply elem_of_dom. by apply (HA (mkTask i Inc Current) n); [left| |].
    + intros d o Ho. destruct (HC d o Ho) as [Ho'|Hf].
      * left. rewrite R1 by done. symmetry. by apply (content_savepoint HM i n P).
      * right. rewrite (R4 i n); [done|done|unfold isSavepoint; by rewrite ET|].
        intros k Hk. apply (forest_before _ (wf_forest _ HD)). unfold predecessorOf. by rewrite E.
  - rewrite reverse_cons, eachWith_app in H. apply sbind_inv in H as (C1 & r1 & H1 & H). cbn in H.
    apply sbind_inv in H as (C2 & r2 & H & [= -> ->]).
    destruct fuel as [|fuel]; [done|]. cbn [tight] in Ht. cbn [Node] in Ht. rewrite E, Nat.eqb_refl in Ht. apply andb_true_iff in Ht as [Hd Ht].
    assert (∀ t n a, t ∈ ts → Nodes D !! Node t = Some n → a ∈ Arguments n → is_Some (Cs0 !! Declaration a)) as HA'
      by (intros t n' a Htt; apply HA; by right).
    destruct (IH (run_chain _ _ _ Hch) (chain_nodes _ _ _ _ Hch) fuel Cs0 r C1 r1 H0 HA' Hin Hst Ht H1) as [Q1 Q2].
    destruct (run_chain _ _ _ Hch Cs0 r C1 r1 H0 HA' Hin Hst H1) as [R1 R2 R3 R4 R5].
    unfold runTask in H. cbn in H. rewrite E, ET in H. apply runPipe_inv in H as (I' & deps & EI' & HR & Z1 & Z2 & _).
    rewrite EI in EI'. injection EI' as <-. destruct R3 as [Hmod Hdyn]. rewrite Hmod, Hdyn in HR. cbn in HR.
    destruct (HP i n P I C1 Inc Current Cs deps E ET EI HW HR) as [_ Hh].
    { destruct HI as [<- _]. exact HC. }
    { intros a s o Ha Hs Ho. apply R1. by apply HN1. }
    assert (∀ d o, o ∈ demanded ts d → o ∈ demanded (mkTask i Inc Current :: ts) d) as Hmore.
    { intros d o (t & Htt & Ho)%elem_of_demanded. apply elem_of_demanded. exists t. split; [by right|done]. }
    split.
    + intros d o v. rewrite Hh. case_decide as Hx.
      * intros Hv. split; [done|]. apply elem_of_demanded. exists (mkTask i Inc Current). split; [by left|apply Hx].
      * intros Hv. destruct (Q1 d o v Hv) as [Hc Ho]. split; [|by apply Hmore]. rewrite <-Hc. apply (content_frame HM i n P I); [done..|].
        intros Hw. apply Hx. split; [done|]. rewrite <-(writes_pipe n P I ET EI) in Hw.
        apply (forallb_elements _ _ Hd), bool_decide_eq_true in Hw. set_solver.
    + intros j n' P' d o b E' ET' Hb. rewrite Z1 in Hb. by apply (Q2 j n' P' d o b).
Qed.
End sound.

(** *** Requests *)

Lemma produce_inv Target Wanted K r res r' :
  Wellformed D → wellKinded Wanted → Target < length (Nodes D) →
  produce (Some Target) Wanted K r = Ok (Success res, r') →
  ∃ ts Cs0 Cs, schedule r Target Wanted = success (reverse ts) ∧ Chain r (Some Target) (minimize Wanted) ts ∧
    eachOf createFor (reverse ts) ∅ = success Cs0 ∧ eachWith runTask (reverse ts) Cs0 r = Ok (Success Cs, r') ∧
    capture K Cs = Ok res.
Proof.
  intros HD HW HT H. unfold produce in H. apply sbind_inv in H as (Tasks & r1 & [HS ->]%lift_inv & H).
  unfold runSchedule, runTasks in H. apply sbind_inv in H as (Cs & r1 & H1 & [HK%noError_inv <-]%lift_inv).
  apply sbind_inv in H1 as (Cs0 & r2 & [HC ->]%lift_inv & HR).
  assert (HY := schedule_yields r Target Wanted HD HW HT). rewrite HS in HY. destruct HY as (ts & -> & Hch).
  by exists ts, Cs0, Cs.
Qed.

(** The request of one object. *)
Definition one (d : nat) (K : Kind) (o : ObjectID) : Requests := {[d := mkSet K {[o]}]}.

Lemma one_wellKinded d K o : kindAt d = Some K → kind o = K → wellKinded (one d K o).
Proof.
  intros Hd Ho d' s Hs. unfold one in Hs. apply lookup_singleton_Some in Hs as [<- <-]. split; [done|]. intros p Hp. cbn in Hp. by apply elem_of_singleton in Hp as ->.
Qed.

Lemma asked_one d K o d' p : p ∈ asked (one d K o) d' ↔ d' = d ∧ p = o.
Proof.
  unfold asked, one. destruct (decide (d' = d)) as [->|].
  - rewrite lookup_singleton_eq. cbn. set_solver.
  - rewrite lookup_singleton_ne by done. set_solver.
Qed.

Lemma produce_no_capture Target Wanted r res r' : produce (Some Target) Wanted None r = Ok (Success res, r') → res = None.
Proof.
  intros H. apply sbind_inv in H as (Tasks & r3 & _ & H). apply sbind_inv in H as (Cs & r4 & _ & H).
  apply lift_inv in H as [H%noError_inv _]. by injection H.
Qed.

(** How a request for one object is answered. *)
Lemma produceOne_inv Target d o r b r' :
  produceOne Target d o r = Ok (Success b, r') →
  ∃ n K, Nodes D !! Target = Some n ∧ kindAt d = Some K ∧ kind o = K ∧
    ((∃ P, savepoint n = Some P ∧ d ∈ ToSave P ∧ produce (Some Target) (one d K o) None r = Ok (Success None, r') ∧
        fetch (Storage r') (mkLocation (Id n) d) o = Some b) ∨
     produce (Some Target) (one d K o) (Some (mkCapture d o)) r = Ok (Success (Some b), r') ∧
     (∀ P, savepoint n = Some P → d ∉ ToSave P)).
Proof.
  unfold produceOne. intros (K & r1 & [HK ->]%lift_inv & H)%sbind_inv.
  case_bool_decide as Hk; cbn in H; [|done].
  destruct (Nodes D !! Target) as [n|]; [|done]. exists n, K. split; [done|]. split; [unfold kindAt; by rewrite HK|]. split; [done|].
  assert (∀ r0, (Result ←! produce (Some Target) (one d K o) (Some (mkCapture d o));
            match Result with None => lift (createError noData) | Some Data => sret Data end) r0 = Ok (Success b, r') →
          produce (Some Target) (one d K o) (Some (mkCapture d o)) r0 = Ok (Success (Some b), r')) as Hcap.
  { intros r0 (res & r2 & HP & Hr)%sbind_inv. destruct res as [b'|]; [by injection Hr as -> ->|by apply lift_inv in Hr as []]. }
  destruct (savepoint n) as [P|] eqn:EP; [|right; split; [by apply Hcap|done]].
  case_bool_decide as Hd; [|right; split; [by apply Hcap|by intros ? [= <-]]]. left. exists P. split_and!; try done.
  - apply sbind_inv in H as (res & r2 & HP & H). apply sbind_inv in H as (Held & r3 & [= <- <-] & H).
    destruct (_ !! o) as [b'|]; [|by apply lift_inv in H as []]. injection H as -> ->.
    by rewrite (produce_no_capture _ _ _ _ _ HP) in HP.
  - apply sbind_inv in H as (res & r2 & HP & H). apply sbind_inv in H as (Held & r3 & [= <- <-] & H).
    destruct (_ !! o) as [b'|] eqn:EG; [|by apply lift_inv in H as []]. injection H as -> ->.
    rewrite get_spec in EG. by case_decide.
Qed.

(** C2: given pipes that do what is asked of them and a storage that holds what the
    savepoints do, the object a request is answered with is the one the pipeline
    produces at the target; and when the schedule is tight, the storage still holds
    what the savepoints do. *)
Theorem production_correct Target d o r b r' :
  Wellformed D → Numbered D → Meaning → PipesCorrect → ContainersEmpty →
  sameInputs r → StorageOk (Storage r) →
  produceOne Target d o r = Ok (Success b, r') →
  content (Some Target) d o = Some (means b) ∧ sameInputs r' ∧
  ∀ K ts, kindAt d = Some K → schedule r Target (one d K o) = success ts →
    tight (length (Nodes D)) (Some Target) (reverse ts) = true → StorageOk (Storage r').
Proof.
  intros HD HN HM HP HE HI HS H. apply produceOne_inv in H as (n & K & E & HK & Ho & H).
  assert (Target < length (Nodes D)) as HT by by eapply lookup_lt_Some.
  assert (wellKinded (one d K o)) as HW by by apply one_wellKinded.
  assert (∃ res C, produce (Some Target) (one d K o) C r = Ok (Success res, r')) as (res & C' & Hp).
  { destruct H as [(P & _ & _ & H & _)|[H _]]; eauto. }
  assert (∀ res C, produce (Some Target) (one d K o) C r = Ok (Success res, r') →
    ∃ ts Cs0 Cs, schedule r Target (one d K o) = success (reverse ts) ∧ runResult r (Some Target) (minimize (one d K o)) Cs0 Cs r' ∧
      capture C Cs = Ok res ∧ (tight (length (Nodes D)) (Some Target) ts = true → StorageOk (Storage r'))) as Hres.
  { intros res1 C1 Hp1. destruct (produce_inv _ _ _ _ _ _ HD HW HT Hp1) as (ts & Cs0 & Cs & HS1 & Hch & HC & HR & HK1).
    destruct (createFor_inv _ _ HE HC) as [H0 HA].
    assert (∀ t n a, t ∈ ts → Nodes D !! Node t = Some n → a ∈ Arguments n → is_Some (Cs0 !! Declaration a)) as HA'
      by (intros t n' a Ht; apply HA; by rewrite elem_of_reverse).
    exists ts, Cs0, Cs. split; [done|]. split; [by eapply (run_chain HD HN HM HP r HI HS)|]. split; [done|].
    intros Htight. by eapply (run_clean HD HN HM HP r HI HS). }
  destruct (Hres _ _ Hp) as (ts & Cs0 & Cs & HSch & [R1 R2 R3 R4 R5] & _ & Hst).
  assert (o ∈ asked (minimize (one d K o)) d) as Hoa by (rewrite minimize_asked; by apply asked_one).
  split; [|split; [done|]].
  - destruct H as [(P & EP & Hd & _ & Hb)|[Hc _]].
    + eapply R5; [done|exact E| |exact Hoa|exact Hb]. unfold savepoint, isSavepoint in *. by destruct (Task n).
    + destruct (Hres _ _ Hc) as (ts' & Cs0' & Cs' & _ & [Q1 _ _ _ _] & Hcap & _). cbn in Hcap.
      rewrite <-(Q1 d o Hoa). unfold held. destruct (Cs' !! d) as [c|]; [|done]. cbn.
      apply bind_inv in Hcap as (m & Hm & [= Hmo]). apply (serialize_spec _ _ _ o) in Hm. rewrite Hmo, decide_True in Hm by set_solver.
      by rewrite <-Hm.
  - intros K' ts' HK' HS' Ht. rewrite HK in HK'. injection HK' as <-. rewrite HSch in HS'. injection HS' as <-.
    apply Hst. by rewrite reverse_involutive in Ht.
Qed.

(** *** Requests served from the storage *)

(** The type of the container is declared and registered. *)
Definition known (d : nat) : Prop := ∃ T c, typeName d = Some T ∧ Containers R T = Some c.

Lemma createArgument_known a Cs Cs' :
  createArgument a Cs = success Cs' → (∀ d, is_Some (Cs !! d) → known d) →
  (∀ d, is_Some (Cs' !! d) → known d) ∧ known (Declaration a).
Proof.
  intros H HC. unfold createArgument in H. case_decide as Hs; [injection H as <-; split; [done|by apply HC]|].
  destruct (typeName _) as [T|] eqn:ET; [|done]. unfold create in H. destruct (Containers R T) as [c|] eqn:EC; [|done].
  injection H as <-. assert (known (Declaration a)) as Hk by by exists T, c. split; [|done].
  intros d Hd. destruct (decide (d = Declaration a)) as [->|]; [done|]. rewrite lookup_insert_ne in Hd by done. by apply HC.
Qed.

Lemma createFor_known Tasks Cs t n a :
  eachOf createFor Tasks ∅ = success Cs → t ∈ Tasks → Nodes D !! Node t = Some n → a ∈ Arguments n → known (Declaration a).
Proof.
  intros H Ht En Ha. apply (eachOf_inv _ (λ Cs, ∀ d, is_Some (Cs !! d) → known d)
    (λ t Cs, ∀ n a, Nodes D !! Node t = Some n → a ∈ Arguments n → known (Declaration a))) in H as (_ & H & _).
  - by apply (H t Ht n).
  - intros t' C1 C2 H1 HC. unfold createFor in H1. destruct (Nodes D !! Node t') as [n'|] eqn:E; [|done].
    apply (eachOf_inv _ (λ Cs, ∀ d, is_Some (Cs !! d) → known d) (λ a Cs, known (Declaration a))) in H1 as (J1 & J2 & _); [| |done].
    + split_and!; [done| |done]. intros n'' a' [= <-] Ha'. by apply J2.
    + intros a' X Y HX HK. destruct (createArgument_known _ _ _ HX HK). done.
  - intros d. rewrite lookup_empty. by intros [].
Qed.

(** Containers just created. *)
Definition fresh (Cs : gmap nat C) : Prop := ∀ d c, Cs !! d = Some c → contents c = ∅ ∧ kindAt d = Some (containerKind c).

Lemma create_fresh l Cs :
  ContainersEmpty → (∀ a, a ∈ l → known (Declaration a)) → fresh Cs → ∃ Cs', eachOf createArgument l Cs = success Cs' ∧ fresh Cs'.
Proof.
  intros HE. revert Cs. induction l as [|a l IH]; intros Cs Hl HC; cbn; [by exists Cs|].
  assert (∃ C1, createArgument a Cs = success C1 ∧ fresh C1) as (C1 & -> & HC1).
  { unfold createArgument. case_decide; [by exists Cs|]. destruct (Hl a) as (T & c & ET & EC); [by left|].
    rewrite ET. unfold create. rewrite EC. eexists. split; [done|]. intros d c' [[<- <-]|[_ H']]%lookup_insert_Some; [|by apply HC].
    split; [by apply (HE T)|]. unfold kindAt, kindOf. by rewrite ET, EC. }
  apply IH; [|done]. intros; apply Hl; by right.
Qed.

(** The containers hold at most the object that was asked for. *)
Definition holdsOne (d : nat) (o : ObjectID) (Cs : gmap nat C) : Prop :=
  ∀ d' c, Cs !! d' = Some c → (∀ p, is_Some (contents c !! p) → d' = d ∧ p = o) ∧ kindAt d' = Some (containerKind c).

Lemma minimize_one d K o : minimize (one d K o) = one d K o.
Proof.
  apply map_eq. intros d'. unfold minimize, one. rewrite map_lookup_filter. destruct (_ !! d') as [s|] eqn:E; [|done].
  apply lookup_singleton_Some in E as [_ <-]. cbn. case_guard as H; [done|]. cbn in H. exfalso. apply H.
  unfold setEmpty. apply bool_decide_eq_false. cbn. set_solver.
Qed.

Lemma save_nothing n i d o K r L Cs b :
  kindAt d = Some K → kind o = K → fetch (Storage r) (mkLocation (Id n) d) o = Some b → holdsOne d o Cs →
  ∃ Cs', eachWith (saveContainer n (mkTask i ∅ (one d K o))) L Cs r = Ok (Success Cs', r).
Proof.
  intros HK Ho Hb. revert Cs. induction L as [|d' L IH]; intros Cs HC; cbn [eachWith]; [by exists Cs|].
  unfold sbind, saveContainer. destruct (Cs !! d') as [c|] eqn:E; [|by apply IH]. destruct (HC d' c E) as [Hc Hk].
  assert (∃ c', load (Storage r) (mkLocation (Id n) d') (one d K o !! d') c = Ok c' ∧ containerKind c' = containerKind c ∧
    ∀ p, is_Some (contents c' !! p) → d' = d ∧ p = o) as (c' & HL & Hk' & Hc').
  { assert (∀ c', load (Storage r) (mkLocation (Id n) d') (one d K o !! d') c = Ok c' →
      ∀ p, is_Some (contents c' !! p) → d' = d ∧ p = o) as Hp.
    { intros c' Hl p. rewrite (load_spec _ _ _ _ _ p Hl). destruct (fetch _ _ p); [|apply Hc]. case_decide as Hx; [|apply Hc].
      intros _. by apply (asked_one d K o d' p). }
    unfold load in *. destruct (one d K o !! d') as [s|] eqn:Es; [|by exists c].
    case_decide; [by exists c|]. unfold one in Es. apply lookup_singleton_Some in Es as [<- <-].
    destruct (deserialize_total (get (Storage r) (mkLocation (Id n) d) (has (Storage r) (mkLocation (Id n) d) {[o]})) c) as (c' & Hd & Hk').
    - intros p [v Hv]. rewrite get_spec in Hv. case_decide as Hx; [|done]. apply has_spec in Hx as [Hx _]. cbn in Hx. congruence || set_solver.
    - exists c'. split_and!; [done|done|]. by apply Hp. }
  cbn [Outgoing]. rewrite HL, bind_ok. unfold save.
  assert (filter (λ p, p ∉ objectsAt (Storage r) (mkLocation (Id n) d')) (inOrder (objects c')) = []) as ->.
  { apply elem_of_nil_inv. intros p [Hp1 Hp2]%list_elem_of_filter. apply Hp1. rewrite elem_of_inOrder, objects_spec, elem_of_dom in Hp2.
    destruct (Hc' p Hp2) as [-> ->]. apply objectsAt_spec. by exists b. }
  cbn. replace (withStorage (Storage r) r) with r by by destruct r. apply IH.
  intros d2 c2 [[<- <-]|[_ H2]]%lookup_insert_Some; [by rewrite Hk'|by apply HC].
Qed.

(** C24: an object that was produced at a savepoint that keeps it is answered from
    the storage the next time: the same bytes, without running any pipe or changing
    anything. *)
Theorem second_request_cached Target n P d o r b r' :
  Wellformed D → ContainersEmpty → Nodes D !! Target = Some n → Task n = ASavepoint P → d ∈ ToSave P →
  produceOne Target d o r = Ok (Success b, r') → produceOne Target d o r' = Ok (Success b, r').
Proof.
  intros HD HE E ET Hd H. apply produceOne_inv in H as (n' & K & E' & HK & Ho & H). rewrite E in E'. injection E' as <-.
  assert (savepoint n = Some P) as EP by (unfold savepoint; by rewrite ET).
  destruct H as [(P' & EP' & _ & Hp & Hb)|[_ Hx]]; [|by destruct (Hx P EP)].
  assert (Target < length (Nodes D)) as HT by by eapply lookup_lt_Some.
  assert (wellKinded (one d K o)) as HW by by apply one_wellKinded.
  assert (∀ a, a ∈ Arguments n → known (Declaration a)) as Hkn.
  { destruct (produce_inv _ _ _ _ _ _ HD HW HT Hp) as (ts & Cs0 & Cs & _ & Hch & HC & _ & _). rewrite minimize_one in Hch.
    assert (∃ t, t ∈ ts ∧ Node t = Target) as (t & Ht & Hn).
    { inversion Hch; simplify_eq; try congruence; try (eexists; split; [by left|done]).
      exfalso. match goal with Hz : ∀ d, asked _ d = ∅ |- _ => specialize (Hz d) end.
      assert (o ∈ asked (one d (kind o) o) d) by by apply asked_one. set_solver. }
    intros a Ha. eapply (createFor_known _ _ t n a HC); [by apply elem_of_reverse|by rewrite Hn|done]. }
  assert (schedule r' Target (one d K o) = success [mkTask Target ∅ (one d K o)]) as HS.
  { unfold schedule. rewrite minimize_one. destruct (length (Nodes D)) as [|fuel] eqn:EL; [lia|]. cbn [scheduleLoop].
    assert (empty (one d K o) = false) as ->.
    { apply not_true_iff_false. rewrite empty_asked_spec. intros Hx. specialize (Hx d). assert (o ∈ asked (one d K o) d) by by apply asked_one. set_solver. }
    rewrite E. unfold visitNode, isSavepoint. rewrite ET.
    destruct (stillNeeded_ok (Storage r') (Id n) (one d K o) HW) as (N & HN & _ & HA). rewrite HN. cbn.
    assert (empty N = true) as ->; [|done]. apply empty_asked_spec. intros d'. apply set_eq. intros p. rewrite HA, asked_one.
    split; [|set_solver]. intros [[-> ->] Hf]. congruence. }
  assert (produce (Some Target) (one d K o) None r' = Ok (Success None, r')) as HP2.
  { unfold produce, sbind, lift. rewrite HS. cbn. unfold runSchedule, runTasks, sbind, lift. cbn. unfold createFor. cbn. rewrite E.
    destruct (create_fresh (Arguments n) ∅ HE Hkn) as (Cs & HCs & Hf); [intros d' c; by rewrite lookup_empty|]. rewrite HCs. cbn.
    unfold sbind, runTask. cbn. rewrite E, ET. destruct (save_nothing n Target d o K r' (ToSave P) Cs b HK Ho Hb) as (Cs' & ->); [|done].
    intros d' c Hc. destruct (Hf d' c Hc) as [H0 Hk]. split; [|done]. rewrite H0. intros p. rewrite lookup_empty. by intros []. }
  assert (kindOf d = success K) as HK'.
  { unfold kindAt in HK. destruct (kindOf d) as [[K'|]|]; try done. by injection HK as ->. }
  unfold produceOne, sbind, lift. rewrite HK', bind_ok, bool_decide_eq_true_2 by done. cbn [negb].
  rewrite E, EP, bool_decide_eq_true_2 by done. fold (one d K o). rewrite HP2. unfold read.
  rewrite get_spec, decide_True by set_solver. by rewrite Hb.
Qed.
End production.
End runner.
