(* ===== verification/PipeRuns.v ===== *)
(** * Containers of bytes and pipes over functions

    [RawContainer] (include/revng/PipeboxCommon/RawContainer.h), an implementation of
    the containers of a runner, and the two ways most pipes are made of a run:
    [FunctionPipe] and [SingleOutputPipe]
    (include/revng/PipeboxCommon/Helpers/PipeRunPipes). They instantiate the
    interfaces of Runner.v, and what a run does to the objects asked of it is what
    the pipe does to all of them. *)

From S2P Require Import Prelude.
From stdpp Require Import gmap strings.
From S2P Require Import Expected.
From S2P Require Import Requests.
From S2P Require Import MemoryStorage.
From S2P Require Import PipelineDescription.
From S2P Require Import Runner.

(** ** Containers of bytes *)

Section raw.
  Context {Buffer : Type}.

(* include/revng/PipeboxCommon/RawContainer.h:15-22 RawContainer *)
Record RawContainer := mkRaw { RawKind : Kind; Disposable : bool; Map : gmap ObjectID Buffer }.

Definition withMap (m : gmap ObjectID Buffer) (c : RawContainer) : RawContainer := mkRaw (RawKind c) (Disposable c) m.

(* include/revng/PipeboxCommon/RawContainer.h:24-26 RawContainer::objects *)
Definition rawObjects (c : RawContainer) : gset ObjectID := dom (Map c).

(* include/revng/PipeboxCommon/RawContainer.h:28-35 RawContainer::deserialize *)
Definition rawDeserialize (Data : gmap ObjectID Buffer) (c : RawContainer) : outcome RawContainer :=
  revng_assert (forallb (λ e, bool_decide (kind e.1 = RawKind c)) (map_to_list Data));;
  Ok (withMap (Data ∪ Map c) c).

(** [std::map::at] throws when there is no such key. *)
(* include/revng/PipeboxCommon/RawContainer.h:37-45 RawContainer::serialize *)
Definition rawSerialize (Objects : list ObjectID) (c : RawContainer) : outcome (gmap ObjectID Buffer) :=
  foldl (λ Result Object, Result ← Result;
    match Map c !! Object with None => revng_abort | Some b => Ok (<[Object := b]> Result) end) (Ok ∅) Objects.

(* include/revng/PipeboxCommon/RawContainer.h:49-49 RawContainer::setIsDisposable *)
Definition setIsDisposable (c : RawContainer) : RawContainer := mkRaw (RawKind c) true (Map c).

(** The other containers return when they are not disposable. *)
(* include/revng/PipeboxCommon/RawContainer.h:51-57 RawContainer::disposeIfPossible *)
Definition disposeIfPossible (c : RawContainer) : RawContainer :=
  if Disposable c then c else mkRaw (RawKind c) false ∅.

(** What may be discarded is kept, and what may not is lost. *)
Fact disposal_inverted c :
  disposeIfPossible (setIsDisposable c) = setIsDisposable c ∧ (Disposable c = false → Map (disposeIfPossible c) = ∅).
Proof. split; [done|]. unfold disposeIfPossible. by intros ->. Qed.

(* include/revng/PipeboxCommon/RawContainer.h:60-60 RawContainer::contains *)
Definition rawContains (c : RawContainer) (Key : ObjectID) : bool := bool_decide (is_Some (Map c !! Key)).

(** A stream that is given some bytes. *)
(* include/revng/PipeboxCommon/RawContainer.h:62-66 RawContainer::getOStream *)
Definition write (Key : ObjectID) (b : Buffer) (c : RawContainer) : outcome RawContainer :=
  revng_assert (bool_decide (kind Key = RawKind c));;
  revng_assert (negb (rawContains c Key));;
  Ok (withMap (<[Key := b]> (Map c)) c).

(* include/revng/PipeboxCommon/RawContainer.h:68-73 RawContainer::getMemoryBuffer *)
Definition getMemoryBuffer (Key : ObjectID) (c : RawContainer) : outcome Buffer :=
  match Map c !! Key with None => revng_abort | Some b => Ok b end.

#[global] Instance rawContainer : Container Buffer RawContainer := {
  containerKind := RawKind;
  objects := rawObjects;
  deserialize := rawDeserialize;
  serialize := rawSerialize;
}.

Lemma rawSerialize_spec os c m o :
  rawSerialize os c = Ok m → m !! o = if decide (o ∈ os) then Map c !! o else None.
Proof.
  unfold rawSerialize. assert (∀ m0, foldl (λ Result Object, Result ← Result;
    match Map c !! Object with None => revng_abort | Some b => Ok (<[Object := b]> Result) end) (Ok m0) os = Ok m →
    m !! o = if decide (o ∈ os) then Map c !! o else m0 !! o) as Hl; [|intros H; by rewrite (Hl ∅ H), lookup_empty].
  induction os as [|p os IH]; intros m0; csimpl; [by intros [= ->]|].
  destruct (Map c !! p) as [b|] eqn:E; [|intros H; exfalso; clear IH; by induction os].
  intros H%IH. rewrite H. destruct (decide (o = p)) as [->|].
  - rewrite (decide_True (P := p ∈ p :: os)) by by left. rewrite lookup_insert_eq. by case_decide.
  - rewrite lookup_insert_ne by done. repeat case_decide; set_solver.
Qed.

#[global] Program Instance rawLaws : ContainerLaws Buffer := {
  contents := Map;
  means := id;
}.
Next Obligation. done. Qed.
Next Obligation.
  intros m c H. cbn. unfold rawDeserialize. eexists. rewrite assert_true; [done|].
  apply forallb_forall. intros [o b] Hin%list_elem_of_In%elem_of_map_to_list. apply bool_decide_eq_true. cbn. apply H. by exists b.
Qed.
Next Obligation.
  intros m c c' o H. apply assert_inv in H as [_ [= <-]]. cbn. rewrite lookup_union. destruct (m !! o), (Map c !! o); done.
Qed.
Next Obligation. intros os c m o H. by rewrite (option_fmap_id (m !! o)), (rawSerialize_spec os c m o H). Qed.

(** ** Pipes made of a run

    A run reads the model, and the paths it has read are what its object depends
    on. *)

  Context {B C : Type} `{!ModelBinary B}.

(** The dependencies of a pipe of [Count] containers of which it writes one. *)
Definition dependenciesOf (Count OutputContainerIndex : nat) (l : list (ObjectID * string)) : ObjectDependencies :=
  <[OutputContainerIndex := l]> (replicate Count []).

(** [runOnFunction] is given the containers and the function. *)
(* include/revng/PipeboxCommon/Helpers/PipeRunPipes/FunctionPipe.h:29-58 FunctionPipe::run *)
Definition functionPipe (Signature : list ContainerArgument) (OutputContainerIndex : nat)
    (runOnFunction : B → list nat → gmap nat C → string → MetaAddress → outcome (gmap nat C * list string)) : Pipe B C :=
  mkPipe _ _ Signature (λ M Containers_ Cs Incoming_ Outgoing_ Configuration,
    match Outgoing_ !! OutputContainerIndex with
    | None => revng_abort
    | Some RequestedFunctions =>
      '(Cs, Deps) ← foldl (λ s Object, '(Cs, Deps) ← s;
        match Object with
        | FunctionID Entry =>
          revng_assert (bool_decide (Entry ∈ Functions M));;
          '(Cs, Read_) ← runOnFunction M Containers_ Cs Configuration Entry;
          Ok (Cs, Deps ++ map (pair Object) Read_)
        | _ => revng_abort
        end) (Ok (Cs, [])) RequestedFunctions;
      Ok (Cs, dependenciesOf (length Signature) OutputContainerIndex Deps)
    end).

(* include/revng/PipeboxCommon/Helpers/PipeRunPipes/SingleOutputPipe.h:39-64 SingleOutputPipe::run *)
Definition singleOutputPipe (Signature : list ContainerArgument) (OutputContainerIndex : nat)
    (run_ : B → list nat → gmap nat C → string → outcome (gmap nat C * list string)) : Pipe B C :=
  mkPipe _ _ Signature (λ M Containers_ Cs Incoming_ Outgoing_ Configuration,
    match Outgoing_ !! OutputContainerIndex with
    | None => revng_abort
    | Some [] => Ok (Cs, dependenciesOf (length Signature) OutputContainerIndex [])
    | Some [Object] =>
      '(Cs, Read_) ← run_ M Containers_ Cs Configuration;
      Ok (Cs, dependenciesOf (length Signature) OutputContainerIndex (map (pair Object) Read_))
    | Some _ => Fault AssertionFailed
    end).
End raw.

Arguments RawContainer : clear implicits.

(** ** What is asked of a pipe *)

Lemma asked_toRequest n W i a :
  Arguments n !! i = Some a → toRequest n W !! i = Some (inOrder (asked W (Declaration a))).
Proof.
  intros H. unfold toRequest. rewrite list_lookup_fmap, H. cbn. unfold asked. by destruct (W !! Declaration a).
Qed.

(** ** What pipes do to all the objects asked of them *)

Section correct.
  Context {Buffer B : Type} `{!ModelBinary B}.
  Notation C := (RawContainer Buffer).
  Notation held := (held (Buffer := Buffer) (C := C)).

  Context (M : B) (Ps : list nat) (Cs0 : gmap nat C) (d0 : nat) (value : ObjectID → option Buffer).

(** What a run does to one object. *)
Definition produces (v : option Buffer) (o : ObjectID) (Cs Cs' : gmap nat C) : Prop :=
  dom Cs' = dom Cs ∧ ∀ d p, held Cs' d p = if decide (d = d0 ∧ p = o) then v else held Cs d p.

(** The containers are what they were but for the output. *)
Definition elsewhere (Cs : gmap nat C) : Prop := ∀ d p, d ≠ d0 → held Cs d p = held Cs0 d p.

Lemma produces_elsewhere v o Cs Cs' : elsewhere Cs → produces v o Cs Cs' → elsewhere Cs'.
Proof. intros H [_ HP] d p Hd. rewrite HP, decide_False by naive_solver. by apply H. Qed.

Lemma run_all step Signature Count Configuration In Out l Cs' deps :
  Out !! Count = Some l →
  (∀ Cs Entry Cs1 Read_, FunctionID Entry ∈ l → elsewhere Cs → step M Ps Cs Configuration Entry = Ok (Cs1, Read_) → produces (value (FunctionID Entry)) (FunctionID Entry) Cs Cs1) →
  run (functionPipe Signature Count step) M Ps Cs0 In Out Configuration = Ok (Cs', deps) →
  dom Cs' = dom Cs0 ∧ ∀ d p, held Cs' d p = if decide (d = d0 ∧ p ∈ l) then value p else held Cs0 d p.
Proof.
  intros HO Hs H. cbn in H. rewrite HO in H. clear HO. apply bind_inv in H as ([C1 D1] & H & [= <- _]).
  change l with ([] ++ l). revert H Hs. generalize (@nil (ObjectID * string)) as Dp.
  assert (∀ d p, held Cs0 d p = if decide (d = d0 ∧ p ∈ []) then value p else held Cs0 d p) as HC.
  { intros d p. rewrite decide_False; [done|]. intros [_ Hn]. by apply elem_of_nil in Hn. }
  revert HC. generalize (eq_refl (dom Cs0)). generalize Cs0 at 1 3 5 as Cs. generalize (@nil ObjectID) as Visited.
  induction l as [|o l IH]; intros Visited Cs Hdom HC Dp; csimpl.
  { intros [= <- <-] _. by rewrite app_nil_r. }
  intros H Hs. destruct (match o with FunctionID Entry => _ | _ => _ end) as [[C2 D2]|] eqn:E; [|exfalso; clear -H; by induction l].
  destruct o as [|Entry|]; try done.
  apply assert_inv in E as [_ E]. apply bind_inv in E as ([C3 R3] & E & [= <- <-]). apply Hs in E as [E1 E2]; [|by left|].
  2: { intros d p Hd. by rewrite HC, decide_False by naive_solver. }
  replace (Visited ++ FunctionID Entry :: l) with ((Visited ++ [FunctionID Entry]) ++ l) by by rewrite <-app_assoc.
  assert (dom C3 = dom Cs0) as Hd3 by by rewrite E1.
  eapply (IH _ C3); [exact Hd3| |exact H|intros; eapply Hs; [by right|done..]]. intros d p. rewrite E2, HC.
  destruct (decide (d = d0 ∧ p = FunctionID Entry)) as [[-> ->]|Hn].
  - rewrite decide_True by (split; [done|]; apply elem_of_app; right; by left). done.
  - apply decide_ext. rewrite elem_of_app, list_elem_of_singleton. naive_solver.
Qed.

(** The same when the output is one object. *)
Lemma run_only step Signature Count Configuration In Out l o Cs' deps :
  Out !! Count = Some l → (∀ p, p ∈ l → p = o) →
  (∀ Cs1 Read_, step M Ps Cs0 Configuration = Ok (Cs1, Read_) → produces (value o) o Cs0 Cs1) →
  run (singleOutputPipe Signature Count step) M Ps Cs0 In Out Configuration = Ok (Cs', deps) →
  dom Cs' = dom Cs0 ∧ ∀ d p, held Cs' d p = if decide (d = d0 ∧ p ∈ l) then value p else held Cs0 d p.
Proof.
  intros HO Hl Hs H. cbn in H. rewrite HO in H. destruct l as [|o' [|]]; [| |done].
  - injection H as <- _. split; [done|]. intros d p. rewrite decide_False; [done|]. intros [_ Hn]. by apply elem_of_nil in Hn.
  - apply bind_inv in H as ([C1 R1] & H & [= <- _]). apply Hs in H as [H1 H2]. split; [done|]. intros d p. rewrite H2.
    rewrite (Hl o') by by left.
    destruct (decide (d = d0 ∧ p = o)) as [[-> ->]|Hn]; [rewrite decide_True; [done|by rewrite list_elem_of_singleton]|].
    rewrite decide_False; [done|]. by rewrite list_elem_of_singleton.
Qed.
End correct.
