(* ===== verification/Invalidation.v ===== *)
(** * Invalidation of what was produced

    How the dependencies that the pipes record in the storage (Runner.v,
    MemoryStorage.v) and the numbering of the savepoints (PipelineDescription.v) go
    together: what a pipe produced after reading a path is not stored downstream any
    more once the path is invalidated. *)

From S2P Require Import Prelude.
From stdpp Require Import gmap strings.
From S2P Require Import Expected.
From S2P Require Import Requests.
From S2P Require Import MemoryStorage.
From S2P Require Import PipelineDescription.
From S2P Require Import Runner.

(** An entry that invalidating a path would be looked up. *)
Definition recorded {Buffer} (M : MemoryStorage Buffer) (Path : string) (e : DependencyEntry) : Prop :=
  ∃ It, Dependencies M !! Path = Some It ∧ e ∈ It.

Lemma recorded_dependOn {Buffer} (M : MemoryStorage Buffer) p e q e' :
  recorded (dependOn M p e) q e' ↔ (q = p ∧ e' = e) ∨ recorded M q e'.
Proof.
  unfold recorded, dependOn. cbn. destruct (decide (q = p)) as [->|].
  - rewrite lookup_insert_eq. split.
    + intros (It & [= <-] & [->%elem_of_singleton|H]%elem_of_union); [by left|right].
      destruct (Dependencies M !! p) as [It|]; [by exists It|by apply elem_of_empty in H].
    + intros [[_ ->]|(It & -> & H)]; (eexists; split; [done|]); apply elem_of_union; [left; by apply elem_of_singleton|by right].
  - rewrite lookup_insert_ne by done. split; [by right|]. by intros [[-> _]|H].
Qed.

(** What is recorded is erased from the savepoints that the entry tells. *)
Lemma recorded_erased {Buffer} (M : MemoryStorage Buffer) Paths p e l :
  recorded M p e → p ∈ Paths → concerns e l = true → fetch (invalidate M Paths) l (EntryObject e) = None.
Proof.
  intros (It & HIt & He) Hp Hc. destruct (fetch _ l _) as [b|] eqn:E; [|done]. exfalso.
  apply invalidate_fetch in E as [_ E]. by apply (E p It e).
Qed.

(** The operations that change a storage. *)
Inductive operation (Buffer : Type) :=
  | Add (Location : ContainerLocation) (NewObjects : gmap ObjectID Buffer)
  | Erase (Location : ContainerLocation) (ToErase : gset ObjectID)
  | EraseFrom (Savepoint_ : nat)
  | Clear
  | DependOn (Path : string) (Entry : DependencyEntry)
  | Invalidate (ChangedPaths : gset string).

Arguments Add {_} _ _.
Arguments Erase {_} _ _.
Arguments EraseFrom {_} _.
Arguments Clear {_}.
Arguments DependOn {_} _ _.
Arguments Invalidate {_} _.

Definition perform {Buffer} (M : MemoryStorage Buffer) (op : operation Buffer) : MemoryStorage Buffer :=
  match op with
  | Add l N => add M l N
  | Erase l W => erase M l W
  | EraseFrom s => eraseFrom M s
  | Clear => clear M
  | DependOn p e => dependOn M p e
  | Invalidate C => invalidate M C
  end.

(** The storage after a history of operations. *)
Definition performAll {Buffer} : MemoryStorage Buffer → list (operation Buffer) → MemoryStorage Buffer := foldl perform.

(** Whenever the history stores the object of an entry at a location, the entry is still
    recorded: it was not dropped before, by an invalidation of its path or by [clear]. *)
Definition storedTracked {Buffer} (M : MemoryStorage Buffer) (ops : list (operation Buffer)) (Path : string)
    (e : DependencyEntry) (l : ContainerLocation) : Prop :=
  ∀ pre N post, ops = pre ++ Add l N :: post → is_Some (N !! EntryObject e) → recorded (performAll M pre) Path e.

(** An object is stored only while its dependency is recorded. *)
Definition tracked {Buffer} (M : MemoryStorage Buffer) (Path : string) (e : DependencyEntry) (l : ContainerLocation) : Prop :=
  recorded M Path e ∨ fetch M l (EntryObject e) = None.

Lemma perform_tracked {Buffer} (M : MemoryStorage Buffer) op p e l :
  concerns e l = true → tracked M p e l →
  (∀ N, op = Add l N → is_Some (N !! EntryObject e) → recorded M p e) →
  tracked (perform M op) p e l.
Proof.
  intros Hc HM HA. unfold tracked in *. destruct op as [l' N|l' W|s| |q f|C]; cbn [perform].
  - destruct HM as [HM|HM]; [by left|]. rewrite fetch_add. case_decide as Hl; [subst l'|by right].
    destruct (N !! EntryObject e) as [b|] eqn:EN; [left; by apply (HA N)|right].
    rewrite lookup_union, EN. unfold fetch in HM. destruct (Stored M !! l) as [It|]; cbn in *; [by rewrite HM|done].
  - unfold erase. destruct (Stored M !! l') as [It|] eqn:E; [|done]. destruct HM as [HM|HM]; [by left|right]. unfold fetch in *. cbn.
    destruct (decide (l = l')) as [->|]; [|by rewrite lookup_insert_ne].
    rewrite E in HM. rewrite lookup_insert_eq. cbn in *. apply map_lookup_filter_None. by left.
  - destruct HM as [HM|HM]; [by left|right]. unfold fetch, eraseFrom in *. cbn. rewrite map_lookup_filter.
    destruct (Stored M !! l) as [It|]; [|done]. cbn in *. by case_guard.
  - by right.
  - destruct HM as [HM|HM]; [left; apply recorded_dependOn; by right|by right].
  - destruct HM as [HM|HM].
    + destruct (decide (p ∈ C)) as [Hp|Hp]; [right; by apply (recorded_erased M C p)|left].
      destruct HM as (It & HIt & He). exists It. by rewrite invalidate_dependencies, decide_False.
    + right. destruct (fetch (invalidate M C) l _) as [b|] eqn:E; [|done]. apply invalidate_fetch in E as [E _]. congruence.
Qed.

Lemma performAll_tracked {Buffer} (M : MemoryStorage Buffer) ops p e l :
  concerns e l = true → storedTracked M ops p e l → tracked M p e l → tracked (performAll M ops) p e l.
Proof.
  intros Hc. induction ops as [|op ops IH] using rev_ind; intros HS HM; [done|].
  unfold performAll in *. rewrite foldl_app. apply perform_tracked; [done| |].
  - apply IH; [|done]. intros pre N post ->. apply (HS pre N (post ++ [op])). by rewrite <-app_assoc.
  - intros N ->. by apply (HS ops N []).
Qed.

Lemma tracked_erased {Buffer} (M : MemoryStorage Buffer) Paths p e l :
  tracked M p e l → p ∈ Paths → concerns e l = true → fetch (invalidate M Paths) l (EntryObject e) = None.
Proof.
  intros [HM|HM] Hp Hc; [by apply (recorded_erased M Paths p)|].
  destruct (fetch (invalidate M Paths) l _) as [b|] eqn:E; [|done]. apply invalidate_fetch in E as [E _]. congruence.
Qed.

(** The condition is needed: what is stored again after [clear] is not tracked. *)
Fact stored_anew_survives {Buffer} (M : MemoryStorage Buffer) l o (b : Buffer) C :
  fetch (invalidate (performAll M [Clear; Add l {[o := b]}]) C) l o = Some b.
Proof.
  apply invalidate_fetch. split.
  - unfold performAll. cbn [foldl perform]. rewrite fetch_add, decide_True by done. cbn. by rewrite lookup_union, lookup_singleton_eq, lookup_empty.
  - intros p It e _ [=].
Qed.

Section invalidation.
  Context {B Buffer C : Type} `{!ModelBinary B, !Container Buffer C}.
  Context (R : Registry B C) (D : PipelineDescription).
  Notation Runner := (Runner (B := B) (Buffer := Buffer)).

(** The entry of an object that a pipe has produced in the container of an argument. *)
Definition entryOf (n : PipelineNode) (a : TaskArgument) (o : ObjectID) : DependencyEntry :=
  mkEntry (Start (Downstream n)) (End_ (Downstream n)) (Declaration a) o.

Lemma recordDependencies_records n (e : nat * list (ObjectID * string)) (r : Runner) u r' :
  recordDependencies n e r = Ok (Success u, r') →
  (∀ a d, Arguments n !! e.1 = Some a → d ∈ e.2 → recorded (Storage r') d.2 (entryOf n a d.1)) ∧
  ∀ q f, recorded (Storage r) q f → recorded (Storage r') q f.
Proof.
  unfold recordDependencies. destruct (Arguments n !! e.1) as [a|]; [|done]. intros H. split.
  - intros a' d [= <-]. revert d. eapply (forEach_all _ (λ d r, recorded (Storage r) d.2 (entryOf n a d.1))); [|exact H].
    intros d r1 [] r2 [= <-]. cbn. split; [|intros y Hy]; apply recorded_dependOn; [by left|by right].
  - intros q f Hf. eapply (forEach_inv _ (λ r, recorded (Storage r) q f)); [|exact Hf|exact H].
    intros d r1 [] r2 Hr [= <-]. cbn. apply recorded_dependOn. by right.
Qed.

Lemma imap_pair_lookup {A} (l : list A) k x : l !! k = Some x → (k, x) ∈ imap pair l.
Proof. intros H. apply list_elem_of_lookup. exists k. by rewrite list_lookup_imap, H. Qed.

(** A pipe records the dependencies that it was told by its run. *)
Lemma runPipe_records n P T Cs (r : Runner) Cs' r' :
  runPipe R D n P T Cs r = Ok (Success Cs', r') →
  ∃ I deps, findPipe R P = success I ∧
    run I (TheModel r) (map Declaration (Arguments n)) Cs (toRequest n (Incoming T)) (toRequest n (Outgoing T))
      (default ""%string (DynamicConfiguration r !! PipeName P)) = Ok (Cs', deps) ∧
    ∀ k l a o Path, deps !! k = Some l → (o, Path) ∈ l → Arguments n !! k = Some a →
      recorded (Storage r') Path (entryOf n a o).
Proof.
  unfold runPipe. intros (I & r1 & [HI ->]%lift_inv & H)%sbind_inv. apply sbind_inv in H as ([] & r1 & [= <-] & H).
  destruct (negb _); [by apply lift_inv in H as []|].
  apply sbind_inv in H as ([] & r1 & [_ ->]%lift_inv & H). apply sbind_inv in H as ([] & r1 & [_ ->]%lift_inv & H).
  do 3 (apply sbind_inv in H as (? & ? & [= <- <-] & H)).
  apply sbind_inv in H as ([C1 deps] & r1 & [Hr%noError_inv ->]%lift_inv & H).
  apply sbind_inv in H as (? & ? & [= <- <-] & H). apply sbind_inv in H as ([] & r1 & Hd & [= -> ->]).
  exists I, deps. split_and!; [done|exact Hr|]. intros k l a o Path Hk Ho Ha.
  eapply (forEach_all _ (λ e r, ∀ a d, Arguments n !! e.1 = Some a → d ∈ e.2 → recorded (Storage r) d.2 (entryOf n a d.1)))
    with (x := (k, l)) (d := (o, Path)) in Hd; [exact Hd| |by apply imap_pair_lookup|exact Ha|exact Ho].
  intros e s1 u s2 [H1 H2]%recordDependencies_records. split; [done|]. intros y Hy a' d' Ha' Hd'. apply H2. by apply Hy.
Qed.

(** C10: once a path that a pipe has read for an object is invalidated, the object is not
    stored at any savepoint downstream of the pipe, in the container the pipe has produced
    it in. This holds whatever operations the storage went through in the meantime
    (additions, removals, recordings, other invalidations, also of the same path, [clear]),
    under one condition: each time that object was stored there, the dependency was
    still recorded. *)
Theorem changed_path_erases n P T Cs (r : Runner) Cs' r' :
  Numbered D → Nodes D !! Node T = Some n → Task n = APipe P → runTask R D T Cs r = Ok (Success Cs', r') →
  ∃ I deps, findPipe R P = success I ∧
    run I (TheModel r) (map Declaration (Arguments n)) Cs (toRequest n (Incoming T)) (toRequest n (Outgoing T))
      (default ""%string (DynamicConfiguration r !! PipeName P)) = Ok (Cs', deps) ∧
    ∀ k l a o Path j m ops ChangedPaths,
      deps !! k = Some l → (o, Path) ∈ l → Arguments n !! k = Some a →
      downstream (Nodes D) (Node T) j → Nodes D !! j = Some m → isSavepoint m = true →
      storedTracked (Storage r') ops Path (entryOf n a o) (mkLocation (Id m) (Declaration a)) → Path ∈ ChangedPaths →
      fetch (invalidate (performAll (Storage r') ops) ChangedPaths) (mkLocation (Id m) (Declaration a)) o = None.
Proof.
  intros HN E ET H. unfold runTask in H. rewrite E, ET in H. apply runPipe_records in H as (I & deps & HI & HR & Hrec).
  exists I, deps. split_and!; [done|done|]. intros k l a o Path j m ops Changed Hk Ho Ha Hd Ej Hs HS Hp.
  assert (concerns (entryOf n a o) (mkLocation (Id m) (Declaration a)) = true) as Hc.
  { assert (Start (Downstream n) ≤ Id m ≤ End_ (Downstream n)) as Hr.
    { apply (numbered_ranges _ HN (Node T) j n m); [done|done|done| |done]. by exists j, m. }
    unfold concerns. cbn. rewrite Nat.eqb_refl. cbn. apply negb_true_iff, orb_false_iff. split; apply Nat.ltb_ge; lia. }
  apply (tracked_erased _ Changed Path (entryOf n a o)); [|done|done].
  apply performAll_tracked; [done|done|]. left. by eapply Hrec.
Qed.
End invalidation.
