(* ===== verification/PipelineSessions.v ===== *)
(** * Sessions with a small pipeline

    A pipeline over containers of bytes: [import] produces the binary; [isolate] a
    function from the binary and the segments of the model; [optimize] and
    [simplify] change functions in place, the latter with the binary at hand;
    [emit] produces a text from a function. Every one adds its name to what it has
    read. It shows that the hypotheses of the theorems of Runner.v can be met, and
    what its storage does when they are not. *)

From S2P Require Import Prelude.
From stdpp Require Import gmap strings.
From S2P Require Import MetaAddressType.
From S2P Require Import MetaAddress.
From S2P Require Import Expected.
From S2P Require Import Requests.
From S2P Require Import MemoryStorage.
From S2P Require Import PipelineDescription.
From S2P Require Import Runner.
From S2P Require Import PipeRuns.
From S2P Require Import Invalidation.

Local Open Scope string_scope.

(** The model is its functions and its segments. *)
Record Model := mkModel { theFunctions : list MetaAddress; Segments : string }.

#[export] Instance modelBinary : ModelBinary Model := {
  Functions := theFunctions;
  TypeDefinitions := λ _, [];
}.

Notation Store := (gmap nat (RawContainer string)).
Notation Session := (Runner (B := Model) (Buffer := string)).

(** What a container holds for an object. *)
Definition look (Cs : Store) (d : nat) (o : ObjectID) : option string := Cs !! d ≫= λ c, Map c !! o.

(** Store what was read, with a suffix. *)
Definition storeAs (Suffix : string) (d : nat) (o : ObjectID) (v : option string) (Cs : Store) : outcome Store :=
  match v, Cs !! d with
  | Some v, Some c => Ok (<[d := withMap (<[o := v ++ Suffix]> (Map c)) c]> Cs)
  | _, _ => revng_abort
  end.

Definition pointer (Ps : list nat) (i : nat) : nat := nth i Ps 0.

Definition argument (T : string) (A : Access) : ContainerArgument := mkContainerArgument "" T A.

Definition import : Pipe Model (RawContainer string) :=
  singleOutputPipe [argument "Bytes" Write] 0 (λ M Ps Cs _,
    Cs ← storeAs "import" (pointer Ps 0) root (Some "") Cs; Ok (Cs, ["/Binaries"])).

Definition isolate : Pipe Model (RawContainer string) :=
  functionPipe [argument "Bytes" Read; argument "Functions" Write] 1 (λ M Ps Cs _ Entry,
    Cs ← storeAs (";isolate" ++ Segments M) (pointer Ps 1) (FunctionID Entry) (look Cs (pointer Ps 0) root) Cs; Ok (Cs, ["/Segments"])).

Definition optimize : Pipe Model (RawContainer string) :=
  functionPipe [argument "Functions" ReadWrite] 0 (λ M Ps Cs _ Entry,
    Cs ← storeAs ";optimize" (pointer Ps 0) (FunctionID Entry) (look Cs (pointer Ps 0) (FunctionID Entry)) Cs; Ok (Cs, [])).

Definition simplify : Pipe Model (RawContainer string) :=
  functionPipe [argument "Bytes" Read; argument "Functions" ReadWrite] 1 (λ M Ps Cs _ Entry,
    Cs ← storeAs ";simplify" (pointer Ps 1) (FunctionID Entry) (look Cs (pointer Ps 1) (FunctionID Entry)) Cs; Ok (Cs, [])).

Definition emit : Pipe Model (RawContainer string) :=
  functionPipe [argument "Functions" Read; argument "Text" Write] 1 (λ M Ps Cs _ Entry,
    Cs ← storeAs ";emit" (pointer Ps 1) (FunctionID Entry) (look Cs (pointer Ps 0) (FunctionID Entry)) Cs; Ok (Cs, ["/Functions"])).

(** An analysis that needs the binary. *)
Definition parseBinary : Analysis Model (RawContainer string) := λ M Ps Cs _ _,
  match look Cs (pointer Ps 0) root with
  | None => Ok (Error "there is no binary", M)
  | Some _ => Ok (Success tt, M)
  end.

Definition registry : Registry Model (RawContainer string) := {|
  Containers := λ T, if String.eqb T "Bytes" then Some (mkRaw Binary false ∅)
                     else if String.eqb T "Functions" || String.eqb T "Text" then Some (mkRaw Function_ false ∅) else None;
  Pipes := λ N, if String.eqb N "import" then Some (λ _, import) else if String.eqb N "isolate" then Some (λ _, isolate)
                else if String.eqb N "optimize" then Some (λ _, optimize) else if String.eqb N "simplify" then Some (λ _, simplify)
                else if String.eqb N "emit" then Some (λ _, emit) else None;
  RegisteredAnalyses := λ N, if String.eqb N "parse-binary" then Some parseBinary else None;
|}.

Definition mapping (l : list (string * YAMLNode)) : YAMLNode := MappingNode (map (λ e, (ScalarNode e.1, e.2)) l).

Definition names (l : list string) : YAMLNode := SequenceNode (map ScalarNode l).

Definition pipeOf (N : string) (As : list string) : YAMLNode := mapping [("pipe", ScalarNode N); ("arguments", names As)].

Definition savepointOf (N : string) (As : list string) : YAMLNode := mapping [("savepoint", ScalarNode N); ("containers", names As)].

Definition containerOf (N T : string) : YAMLNode := mapping [("name", ScalarNode N); ("type", ScalarNode T)].

Definition document (Tasks : list YAMLNode) : YAMLNode :=
  mapping [("containers", SequenceNode [containerOf "binary" "Bytes"; containerOf "functions" "Functions"; containerOf "text" "Text"]);
           ("branches", mapping [("main", mapping [("tasks", SequenceNode Tasks)])])].

Definition described (Tasks : list YAMLNode) : PipelineDescription :=
  match parse (Some (document Tasks)) with success D => D | _ => emptyDescription end.

Definition importTask : YAMLNode :=
  mapping [("pipe", ScalarNode "import"); ("arguments", names ["binary"]);
           ("analyses", SequenceNode [mapping [("analysis", ScalarNode "parse-binary"); ("containers", names ["binary"])]])].

(** Only the functions, as they are isolated. *)
Definition short : PipelineDescription :=
  described [importTask; pipeOf "isolate" ["binary"; "functions"]; savepointOf "isolated" ["functions"]].

(** The whole pipeline. *)
Definition whole : PipelineDescription :=
  described [importTask; pipeOf "isolate" ["binary"; "functions"]; savepointOf "isolated" ["functions"];
             pipeOf "optimize" ["functions"]; pipeOf "simplify" ["binary"; "functions"]; savepointOf "simplified" ["functions"];
             pipeOf "emit" ["functions"; "text"]; savepointOf "emitted" ["text"]].

Definition function (a : Z) : MetaAddress := MetaAddress.mkMA 0 0 MetaAddressType.Code_x86_64 a.

(** Two functions. *)
Definition binary : Model := mkModel [function 16; function 32] "".

Definition f : ObjectID := FunctionID (function 16).
Definition g : ObjectID := FunctionID (function 32).

(** A runner with nothing stored. *)
Definition start (M : Model) : Session := mkRunner M false emptyStorage ∅ 0.

(** What a user does; after an edit the paths that have changed are invalidated. *)
Inductive event :=
  | Ask (Target Declaration_ : nat) (Object : ObjectID)
  | Edit (M : Model) (Changed : list string)
  | Analyse (N : string).

(** What the user sees: the bytes and the pipes run so far. *)
Inductive seen :=
  | Bytes (b : string) (Run : nat)
  | Done
  | Failed (Message : string)
  | Crashed.

Definition react (D : PipelineDescription) (e : event) (r : Session) : seen * Session :=
  match e with
  | Ask Target d o =>
    match produceOne registry D Target d o r with
    | Ok (Success b, r) => (Bytes b (PipesRun r), r)
    | Ok (Error m, r) => (Failed m, r)
    | Fault _ => (Crashed, r)
    end
  | Edit M Changed => (Done, invalidate_ (list_to_set Changed) (withModel M r))
  | Analyse N =>
    match runAnalysis registry D N "" r with
    | Ok (Success _, r) => (Done, r)
    | Ok (Error m, r) => (Failed m, r)
    | Fault _ => (Crashed, r)
    end
  end.

Fixpoint session (D : PipelineDescription) (es : list event) (r : Session) : list seen :=
  match es with
  | [] => []
  | e :: es => let '(s, r) := react D e r in s :: session D es r
  end.

(** A savepoint keeps what its containers hold for objects that were not asked
    for, as some previous stage left it: producing one function stores the other as
    it was before some pipe, and a later request for it is answered with that,
    without running anything. *)
Theorem unrequested_objects_stored :
  session whole [Ask 5 1 f; Ask 5 1 g] (start binary) =
    [Bytes "import;isolate;optimize;simplify" 4; Bytes "import;isolate" 4] ∧
  session whole [Ask 5 1 g] (start binary) = [Bytes "import;isolate;optimize;simplify" 4].
Proof. split; vm_compute; reflexivity. Qed.

(** What was produced from an object that is no longer valid, in a container of
    another declaration, stays stored: after an edit of the segments a request for
    the text is answered with the text for the previous segments, while the
    function is produced again. *)
Theorem derived_objects_stay_stored :
  session whole [Ask 7 2 f; Edit (mkModel [function 16] "(new)") ["/Segments"]; Ask 7 2 f; Ask 2 1 f] (start binary) =
    [Bytes "import;isolate;optimize;simplify;emit" 5; Done;
     Bytes "import;isolate;optimize;simplify;emit" 5; Bytes "import;isolate(new)" 7] ∧
  session whole [Ask 7 2 f] (start (mkModel [function 16] "(new)")) = [Bytes "import;isolate(new);optimize;simplify;emit" 5].
Proof. split; vm_compute; reflexivity. Qed.

(** An analysis bound to a node is given an empty container when no savepoint at
    or before the node saves it, although the objects it needs have just been
    produced: what it asked for can be had from the node, but not by the analysis. *)
Theorem unsaved_container_analysed :
  session whole [Analyse "parse-binary"; Ask 0 0 root] (start binary) = [Failed "there is no binary"; Bytes "import" 2].
Proof. vm_compute. reflexivity. Qed.

(** *** The hypotheses of production can be met *)

(** What the containers of the short pipeline are to hold. *)
Definition contentShort (Node_ : option nat) (d : nat) (o : ObjectID) : option string :=
  match Node_, d, o with
  | Some _, 0, RootID => Some "import"
  | Some (S _), 1, FunctionID _ => Some "import;isolate"
  | _, _, _ => None
  end.

Definition importNode : PipelineNode :=
  mkNode 0 (mkRange 0 0) (APipe (mkPipeTask "import" "")) [mkArgument 0 Auto] None [1].
Definition isolateNode : PipelineNode :=
  mkNode 0 (mkRange 0 0) (APipe (mkPipeTask "isolate" "")) [mkArgument 0 Auto; mkArgument 1 Auto] (Some 0) [2].
Definition isolatedNode : PipelineNode :=
  mkNode 0 (mkRange 0 0) (ASavepoint (mkSavepointTask "isolated" [1])) [mkArgument 1 Auto] (Some 1) [].

Lemma short_nodes : Nodes short = [importNode; isolateNode; isolatedNode].
Proof. vm_compute. reflexivity. Qed.

Lemma short_kinds d : kindAt registry short d = match d with 0 => Some Binary | 1 | 2 => Some Function_ | _ => None end.
Proof.
  assert (TypeName <$> Declarations short = ["Bytes"; "Functions"; "Text"]) as H by (vm_compute; reflexivity).
  unfold kindAt, kindOf, typeName. rewrite <-list_lookup_fmap, H. by destruct d as [|[|[|]]].
Qed.

Lemma storeAs_held Suffix d o v Cs Cs' :
  storeAs Suffix d o v Cs = Ok Cs' →
  ∃ w, v = Some w ∧ produces (Buffer := string) d (Some (w ++ Suffix)) o Cs Cs'.
Proof.
  unfold storeAs. destruct v as [w|]; [|done]. destruct (Cs !! d) as [c|] eqn:E; [|done]. intros [= <-]. exists w. split; [done|].
  split; [rewrite dom_insert_L; apply elem_of_dom_2 in E; set_solver|]. intros d' p. rewrite held_insert.
  destruct (decide (d' = d)) as [->|]; [|by rewrite decide_False by naive_solver]. cbn. unfold held. rewrite E. cbn.
  destruct (decide (p = o)) as [->|]; [rewrite lookup_insert_eq, decide_True by done; done|].
  rewrite lookup_insert_ne, decide_False by naive_solver. done.
Qed.

Lemma short_meaning : Meaning registry short contentShort.
Proof.
  split.
  - done.
  - rewrite short_nodes. intros i n P d o. destruct i as [|[|[|]]]; cbn; intros [= <-]; done.
  - rewrite short_nodes. intros i n P I d o. destruct i as [|[|[|]]]; cbn; intros [= <-]; intros [= <-]; intros [= <-] Hd.
    + destruct d; [exfalso; apply Hd; vm_compute; done|]. by destruct o, d.
    + destruct d as [|[|]]; [done|exfalso; apply Hd; vm_compute; done|done].
Qed.

Lemma short_asked W d o : wellKinded (kindAt registry short) W → o ∈ asked W d → (d = 0 ∧ o = root) ∨ kind o = Function_ ∧ d ≠ 0.
Proof.
  intros HW Ho. unfold asked in Ho. destruct (W !! d) as [s|] eqn:E; [|by apply elem_of_empty in Ho].
  destruct (HW d s E) as [Hk Hs]. specialize (Hs o Ho). rewrite short_kinds in Hk.
  destruct d as [|[|[|]]]; simplify_eq; [left|right; split; congruence|right; split; congruence]. split; [done|]. apply kind_of_binary. congruence.
Qed.

Lemma short_pipes : PipesCorrect registry short binary (λ _, "") contentShort.
Proof.
  assert (∀ (Cs Cs' : Store) I n d0 Out i, dom Cs' = dom Cs →
    (∀ d p, held (Buffer := string) (C := RawContainer string) Cs' d p =
       if decide (d = d0 ∧ p ∈ inOrder (asked Out d0)) then contentShort (Some i) d0 p else held Cs d p) →
    written (Arguments n) I = {[d0]} →
    dom Cs' = dom Cs ∧ ∀ d p, held (Buffer := string) (C := RawContainer string) Cs' d p =
      if decide (d ∈ written (Arguments n) I ∧ p ∈ asked Out d) then contentShort (Some i) d p else held Cs d p) as Hfin.
  { intros Cs Cs' I n d0 Out i Hd Hh ->. split; [done|]. intros d p. rewrite Hh.
    assert (p ∈ inOrder (asked Out d0) ↔ p ∈ asked Out d0) as Hp by apply elem_of_inOrder.
    destruct (decide (d = d0)) as [->|Hn].
    - destruct (decide (p ∈ asked Out d0)); [rewrite !decide_True by set_solver|rewrite !decide_False by naive_solver]; done.
    - rewrite !decide_False; [done|set_solver|naive_solver]. }
  unfold PipesCorrect. rewrite short_nodes. intros i n P I Cs In Out Cs' deps.
  destruct i as [|[|[|]]]; cbn [lookup list_lookup]; intros [= <-]; intros [= <-]; intros [= <-] HW; [intros H _ _|intros H HC HIn].
  - edestruct (run_only binary [0] Cs 0 (contentShort (Some 0) 0)) as [Hd Hh]; [exact (asked_toRequest importNode Out 0 (mkArgument 0 Auto) eq_refl)| | |exact H|].
    + intros p Hp%elem_of_inOrder. apply (short_asked _ _ _ HW) in Hp as [[_ ->]|[_ []]]; done.
    + intros Cs1 Read_ (C1 & H1 & [= <- _])%bind_inv. apply storeAs_held in H1 as (w & [= <-] & H1). exact H1.
    + eapply Hfin; [exact Hd|exact Hh|vm_compute; done].
  - edestruct (run_all binary [0; 1] Cs 1 (contentShort (Some 1) 1)) as [Hd Hh];
      [exact (asked_toRequest isolateNode Out 1 (mkArgument 1 Auto) eq_refl)| |exact H|].
    + intros C Entry C1 Read_ HE HCs (C2 & H1 & [= <- _])%bind_inv. apply storeAs_held in H1 as (w & Hw & H1).
      replace (look C _ root) with (Some "import") in Hw.
      * injection Hw as <-. exact H1.
      * change (Some "import" = held (Buffer := string) (C := RawContainer string) C 0 root). rewrite HCs by done. symmetry.
        apply (HIn (mkArgument 0 Auto) (argument "Bytes" Read)); [by left|done|].
        apply elem_of_inOrder, elem_of_asked in HE as (s & Es & Hs).
        apply (HC (mkArgument 0 Auto) (argument "Bytes" Read) Binary 1 s root); [by left|done|by rewrite short_kinds|done|].
        destruct (HW 1 s Es) as [Hk _]. rewrite short_kinds in Hk. injection Hk as Hk.
        unfold moved. rewrite decide_False by set_solver. rewrite <-Hk. set_solver.
    + eapply Hfin; [exact Hd|exact Hh|vm_compute; done].
Qed.

Lemma short_formed : Wellformed short ∧ Numbered short.
Proof.
  assert (H := parse_yields (Some (document [importTask; pipeOf "isolate" ["binary"; "functions"]; savepointOf "isolated" ["functions"]]))).
  assert (parse (Some (document [importTask; pipeOf "isolate" ["binary"; "functions"]; savepointOf "isolated" ["functions"]])) = success short) as E
    by (vm_compute; reflexivity).
  by rewrite E in H.
Qed.

Lemma registry_empty : ContainersEmpty registry.
Proof. intros T c. cbn. repeat case_match; by intros [= <-]. Qed.

Definition produced (s : outcome (expected string * Session)) : Session :=
  match s with Ok (_, r) => r | Fault _ => start binary end.

Lemma production_correct_witness :
  let r := start binary in
  let r' := produced (produceOne registry short 2 1 f r) in
  contentShort (Some 2) 1 f = Some "import;isolate" ∧ sameInputs binary (λ _, "") r' ∧
  ∀ K ts, kindAt registry short 1 = Some K → schedule registry short r 2 (one 1 K f) = success ts →
    tight registry short (length (Nodes short)) (Some 2) (reverse ts) = true → StorageOk short contentShort (Storage r').
Proof.
  intros r r'. destruct short_formed as [HD HN].
  apply (production_correct registry short binary (λ _, "") contentShort 2 1 f r "import;isolate" r' HD HN short_meaning short_pipes registry_empty).
  - split; [reflexivity|]. intros N. cbn. by rewrite lookup_empty.
  - intros i n P d o b _ _ H. exfalso. cbn in H. unfold fetch in H. cbn in H. rewrite lookup_empty in H. discriminate.
  - vm_compute. reflexivity.
Defined.

Lemma second_request_cached_witness :
  let r' := produced (produceOne registry short 2 1 f (start binary)) in
  produceOne registry short 2 1 f r' = Ok (Success "import;isolate", r').
Proof.
  intros r'. destruct short_formed as [HD _].
  apply (second_request_cached registry short 2 isolatedNode (mkSavepointTask "isolated" [1]) 1 f (start binary)); try assumption.
  - exact registry_empty.
  - rewrite short_nodes. reflexivity.
  - reflexivity.
  - by left.
  - vm_compute. reflexivity.
Defined.

(** The schedule of the request is tight. *)
Lemma short_tight :
  match schedule registry short (start binary) 2 (one 1 Function_ f) with
  | Ok (Success ts) => tight registry short (length (Nodes short)) (Some 2) (reverse ts)
  | _ => false
  end = true.
Proof. vm_compute. reflexivity. Qed.

(** A run of [isolate]. *)
Definition isolateTask : ScheduledTask := mkTask 1 (one 0 Binary root) (one 1 Function_ f).

Definition loaded : Store := {[0 := mkRaw Binary false {[root := "import"]}; 1 := mkRaw Function_ false ∅]}.

Definition isolated : outcome (expected Store * Session) := runTask registry short isolateTask loaded (start binary).

Definition isolatedStore : Store := match isolated with Ok (Success Cs, _) => Cs | _ => ∅ end.

Definition isolatedSession : Session := match isolated with Ok (_, r) => r | _ => start binary end.

(** What happens to the storage after the run: the function is stored, something else is
    invalidated, and the function is stored once more. *)
Definition meanwhile : list (operation string) :=
  [Add (mkLocation 0 1) {[f := "import;isolate"]}; Invalidate {["/Types"]}; Add (mkLocation 0 1) {[f := "isolated again"]}].

Lemma meanwhile_tracked :
  storedTracked (Storage isolatedSession) meanwhile "/Segments" (entryOf isolateNode (mkArgument 1 Auto) f) (mkLocation 0 1).
Proof.
  assert (∀ pre, pre ∈ [[]; take 1 meanwhile; take 2 meanwhile] →
    recorded (performAll (Storage isolatedSession) pre) "/Segments" (entryOf isolateNode (mkArgument 1 Auto) f)) as H.
  { intros pre Hpre. exists {[entryOf isolateNode (mkArgument 1 Auto) f]}. split; [|by apply elem_of_singleton].
    repeat (apply list_elem_of_In in Hpre; destruct Hpre as [<-|Hpre]; [vm_compute; reflexivity|apply list_elem_of_In in Hpre]).
    by apply not_elem_of_nil in Hpre. }
  intros pre N post E _. apply H. unfold meanwhile in E. destruct pre as [|x1 [|x2 [|x3 pre]]]; simplify_eq/=; [by left|by right; right; left|].
  by destruct pre.
Qed.

Lemma changed_path_erases_witness :
  fetch (invalidate (performAll (Storage isolatedSession) meanwhile) {["/Segments"]}) (mkLocation 0 1) f = None.
Proof.
  destruct short_formed as [_ HN].
  destruct (changed_path_erases registry short isolateNode (mkPipeTask "isolate" "") isolateTask loaded (start binary)
    isolatedStore isolatedSession HN) as (I & deps & HI & HR & H).
  - rewrite short_nodes. reflexivity.
  - reflexivity.
  - vm_compute. reflexivity.
  - injection HI as <-. assert (deps = [[]; [(f, "/Segments")]]) as -> by (vm_compute in HR; by injection HR as <-).
    apply (H 1 [(f, "/Segments")] (mkArgument 1 Auto) f "/Segments" 2 isolatedNode); try reflexivity.
    + by left.
    + apply rtc_once. unfold predecessorOf. by rewrite short_nodes.
    + exact meanwhile_tracked.
Defined.
