(* ===== verification/CDataModel.v ===== *)
(** * Data models of C

    [CDataModel] (include/revng/Support/CDataModel.h, lib/Support/CDataModel.cpp):
    the sizes of the standard types, and padding of sizes to words of the stack
    (include/revng/Support/AlignmentHelpers.h). *)

From S2P Require Import Prelude.
From stdpp Require Import strings.

Local Open Scope Z_scope.

(** ** Standard types *)

(* include/revng/Support/CDataModel.h:15-27 CStandardType *)
Inductive CStandardType : Set := Char | Short | Int | Long | LongLong | Float | Double | LongDouble | Count.

#[global] Instance CStandardType_eq_dec : EqDecision CStandardType.
Proof. solve_decision. Defined.

Definition standardTypes : list CStandardType := [Char; Short; Int; Long; LongLong; Float; Double; LongDouble; Count].

Definition raw (T : CStandardType) : Z :=
  match T with
  | Char => 0 | Short => 1 | Int => 2 | Long => 3 | LongLong => 4 | Float => 5 | Double => 6 | LongDouble => 7 | Count => 8
  end.

(* include/revng/Support/CDataModel.h:33-35 isIntegerType *)
Definition isIntegerType (T : CStandardType) : bool := (raw Char <=? raw T) && (raw T <=? raw LongLong).

(* include/revng/Support/CDataModel.h:37-39 isFloatingPointType *)
Definition isFloatingPointType (T : CStandardType) : bool := (raw Float <=? raw T) && (raw T <=? raw LongDouble).

(* include/revng/Support/CDataModel.h:29-31 CStandardTypeName *)
Definition CStandardTypeName : list string :=
  ["char"; "short"; "int"; "long"; "long long"; "float"; "double"; "long double"]%string.

(* include/revng/Support/CDataModel.h:41-51 findCStandardType *)
Definition findCStandardType (Name : string) : option CStandardType :=
  i ← fst <$> list_find (λ n, n = Name) CStandardTypeName; standardTypes !! i.

(** ** The model *)

(* include/revng/Support/CDataModel.h:53-59 CDataModel *)
Record CDataModel := mkDataModel {
  PointerSize : Z;
  StandardTypeSize : CStandardType → Z;
  ExtendedIntegerSizeMask : Z;
}.

(** The sizes are 8-bit integers. *)
(* include/revng/Support/CDataModel.h:86-88 CDataModel::setStandardTypeSize *)
Definition setStandardTypeSize (T : CStandardType) (Size : Z) (DM : CDataModel) : CDataModel :=
  mkDataModel (PointerSize DM) (λ U, if decide (U = T) then wrap 8 Size else StandardTypeSize DM U) (ExtendedIntegerSizeMask DM).

(* lib/Support/CDataModel.cpp:7-19 CDataModel::getDefaultDataModel *)
Definition getDefaultDataModel (PointerSize : Z) : CDataModel :=
  let PointerSize := wrap 8 PointerSize in
  foldl (λ DM e, setStandardTypeSize e.1 e.2 DM) (mkDataModel PointerSize (λ _, 0) 0)
    [(Char, 1); (Short, 2); (Int, if PointerSize <=? 2 then 2 else 4); (Long, if PointerSize <=? 4 then 4 else 8);
     (LongLong, 8); (Float, 4); (Double, 8); (LongDouble, 8)].

(* include/revng/Support/CDataModel.h:172-174 CDataModel::next *)
Definition next (T : CStandardType) : CStandardType :=
  match T with
  | Char => Short | Short => Int | Int => Long | Long => LongLong | LongLong => Float | Float => Double
  | Double => LongDouble | LongDouble | Count => Count
  end.

Section queries.
  Context (DM : CDataModel).

Notation getSize := (StandardTypeSize DM).

(** The loops over the integer types, of which there are five. *)
(* include/revng/Support/CDataModel.h:127-128 CDataModel::getStandardIntegerRange *)
Fixpoint firstAtLeast (n : nat) (Size : Z) (Min : CStandardType) : CStandardType :=
  match n with
  | O => Min
  | S n => if (raw Min <=? raw LongLong) && (getSize Min <? Size) then firstAtLeast n Size (next Min) else Min
  end.

(* include/revng/Support/CDataModel.h:134-136 CDataModel::getStandardIntegerRange *)
Fixpoint lastAtMost (n : nat) (Size : Z) (Max : CStandardType) : CStandardType :=
  match n with
  | O => Max
  | S n => if (raw Max <? raw LongLong) && (getSize (next Max) <=? Size) then lastAtMost n Size (next Max) else Max
  end.

(* include/revng/Support/CDataModel.h:124-139 CDataModel::getStandardIntegerRange *)
Definition getStandardIntegerRange (Size : Z) : option (CStandardType * CStandardType) :=
  let Min := firstAtLeast 5 Size Char in
  if raw LongLong <? raw Min then None
  else Some (Min, lastAtMost 5 Size Min).

(* include/revng/Support/CDataModel.h:141-144 CDataModel::getStandardIntegerSizeMask *)
Definition getStandardIntegerSizeMask : Z :=
  Z.lor (Z.lor (Z.lor (Z.lor (getSize Char) (getSize Short)) (getSize Int)) (getSize Long)) (getSize LongLong).

(* include/revng/Support/CDataModel.h:146-148 CDataModel::getSuportedIntegerSizeMask *)
Definition getSuportedIntegerSizeMask : Z := Z.lor getStandardIntegerSizeMask (ExtendedIntegerSizeMask DM).

(** [std::has_single_bit] and [llvm::isPowerOf2_64]. *)
Definition hasSingleBit (z : Z) : bool := negb (z =? 0) && (Z.land z (z - 1) =? 0).

(* include/revng/Support/CDataModel.h:151-154 CDataModel::isSupportedIntegerSize *)
Definition isSupportedIntegerSize (Size : Z) : outcome bool :=
  revng_assert (hasSingleBit Size);; Ok (negb (Z.land getSuportedIntegerSizeMask Size =? 0)).

(* lib/Support/CDataModel.cpp:21-44 CDataModel::verify *)
Definition verify : bool :=
  if getSize Char <? 1 then false
  else if (getSize Short <? 2) || (getSize Short <? getSize Char) then false
  else if (getSize Int <? 2) || (getSize Int <? getSize Short) then false
  else if (getSize Long <? 4) || (getSize Long <? getSize Int) then false
  else if (getSize LongLong <? 8) || (getSize LongLong <? getSize Long) then false
  else if getSize Double <? getSize Float then false
  else if getSize LongDouble <? getSize Double then false
  else true.

(** ** Facts *)

(** The sizes of the integer types of a model that verifies increase. *)
Lemma verify_sizes :
  verify = true →
  1 ≤ getSize Char ∧ 2 ≤ getSize Short ∧ getSize Char ≤ getSize Short ≤ getSize Int ∧
  getSize Int ≤ getSize Long ≤ getSize LongLong ∧ 4 ≤ getSize Long ∧ 8 ≤ getSize LongLong.
Proof. unfold verify. repeat case_match; try done. intros _. rewrite ?orb_false_iff, ?Z.ltb_ge in *. lia. Qed.
End queries.

Lemma default_verifies p : verify (getDefaultDataModel p) = true.
Proof. unfold getDefaultDataModel. cbn. by repeat case_match. Qed.

(** The types of the size that is asked for, when there are some. *)
Lemma getStandardIntegerRange_exact DM Size T :
  verify DM = true → isIntegerType T = true → StandardTypeSize DM T = Size →
  ∃ Min Max, getStandardIntegerRange DM Size = Some (Min, Max) ∧
    ∀ U, isIntegerType U = true → (StandardTypeSize DM U = Size ↔ raw Min ≤ raw U ≤ raw Max).
Proof.
  intros (H1 & H2 & H3 & H4 & H5 & H6)%verify_sizes HT HS. unfold getStandardIntegerRange. cbn.
  assert (∀ Min Max, (∀ U, U ∈ [Char; Short; Int; Long; LongLong] → (StandardTypeSize DM U = Size ↔ raw Min ≤ raw U ≤ raw Max)) →
    ∀ U, isIntegerType U = true → (StandardTypeSize DM U = Size ↔ raw Min ≤ raw U ≤ raw Max)) as Hall.
  { intros Min Max H U HU. apply H. destruct U; try done; set_solver. }
  repeat match goal with |- context [?a <? Size] => destruct (Z.ltb_spec a Size) end;
    cbn; try (destruct T; cbn in HT; (done || lia));
    repeat match goal with |- context [?a <=? Size] => destruct (Z.leb_spec a Size); cbn end;
    do 2 eexists; (split; [reflexivity|]); apply Hall; intros U HU;
    repeat (apply elem_of_cons in HU as [->|HU]); try (by apply elem_of_nil in HU); cbn; destruct T; cbn in HT; try done; lia.
Qed.

(** There is also a range when no type has the size: that of a bigger type. *)
Fact range_of_no_size : getStandardIntegerRange (getDefaultDataModel 8) 3 = Some (Int, Int).
Proof. reflexivity. Qed.

(** ** Words of the stack *)

(* include/revng/Support/AlignmentHelpers.h:26-38 paddedSizeOnStack *)
Definition paddedSizeOnStack (RealSize RegisterSize : Z) : outcome Z :=
  revng_assert (hasSingleBit RegisterSize);;
  revng_assert (negb (RealSize =? 0));;
  if RealSize <=? RegisterSize then Ok RegisterSize
  else Ok (Z.land (wrap 64 (RealSize + (RegisterSize - 1))) (Z.lxor (Z.ones 64) (RegisterSize - 1))).

(** ** Sizes on the stack *)

Lemma hasSingleBit_pow z : in_width 64 z → hasSingleBit z = true → ∃ k, 0 ≤ k < 64 ∧ z = 2 ^ k.
Proof.
  intros [H0 H1] H. unfold hasSingleBit in H. apply andb_true_iff in H as [Hz%negb_true_iff%Z.eqb_neq Hl%Z.eqb_eq].
  exists (Z.log2 z). assert (0 < z) as Hp by lia. pose proof (Z.log2_spec z Hp) as [HL HU].
  assert (Z.log2 z < 64) by (apply Z.log2_lt_pow2; lia). split; [split; [apply Z.log2_nonneg|done]|].
  destruct (Z.eq_dec z (2 ^ Z.log2 z)) as [|Hn]; [done|]. exfalso.
  assert (Z.testbit (Z.land z (z - 1)) (Z.log2 z) = true) as Ht; [|by rewrite Hl, Z.bits_0 in Ht].
  rewrite Z.land_spec, Z.bit_log2 by done. cbn.
  assert (1 < z) by (destruct (Z.eq_dec z 1) as [->|]; [done|lia]).
  assert (Z.log2 (z - 1) = Z.log2 z) as <-; [|apply Z.bit_log2; lia]. apply Z.log2_unique; [apply Z.log2_nonneg|lia].
Qed.

Lemma pow_hasSingleBit k : 0 ≤ k → hasSingleBit (2 ^ k) = true.
Proof.
  intros Hk. unfold hasSingleBit. assert (0 < 2 ^ k) by (apply Z.pow_pos_nonneg; lia).
  apply andb_true_iff. split; [by apply negb_true_iff, Z.eqb_neq; lia|]. apply Z.eqb_eq.
  replace (2 ^ k - 1) with (Z.ones k) by (rewrite Z.ones_equiv; lia).
  rewrite Z.land_ones by done. apply Z.mod_same. lia.
Qed.

Lemma align_down x k : 0 ≤ k < 64 → in_width 64 x → Z.land x (Z.lxor (Z.ones 64) (2 ^ k - 1)) = x - x mod 2 ^ k.
Proof.
  intros Hk Hx. assert (0 < 2 ^ k) by (apply Z.pow_pos_nonneg; lia).
  replace (2 ^ k - 1) with (Z.ones k) by (rewrite Z.ones_equiv; lia). transitivity (Z.ldiff x (Z.ones k)).
  - apply Z.bits_inj'. intros i Hi. rewrite Z.land_spec, Z.lxor_spec, Z.ldiff_spec.
    destruct (Z.lt_ge_cases i 64); [rewrite (Z.ones_spec_low 64) by lia; by destruct (Z.testbit _ i)|].
    rewrite (testbit_high 64 x i) by done. done.
  - rewrite Z.ldiff_ones_r, Z.shiftl_mul_pow2, Z.shiftr_div_pow2 by lia. pose proof (Z.div_mod x (2 ^ k)). lia.
Qed.

(** The padded size is the least multiple of the word that holds the value. *)
Lemma paddedSize_spec s k r :
  0 ≤ k < 64 → 0 < s → s + 2 ^ k ≤ 2 ^ 64 → paddedSizeOnStack s (2 ^ k) = Ok r →
  s ≤ r < s + 2 ^ k ∧ (2 ^ k | r).
Proof.
  intros Hk Hs Hb. assert (0 < 2 ^ k) by (apply Z.pow_pos_nonneg; lia).
  unfold paddedSizeOnStack. rewrite pow_hasSingleBit by lia. cbn. destruct (Z.eqb_spec s 0); [lia|]. cbn.
  destruct (Z.leb_spec s (2 ^ k)); intros [= <-]; [split; [lia|by exists 1; lia]|].
  rewrite wrap_small by (unfold in_width; lia). rewrite align_down by (done || (unfold in_width; lia)).
  pose proof (Z.mod_pos_bound (s + (2 ^ k - 1)) (2 ^ k)). pose proof (Z.div_mod (s + (2 ^ k - 1)) (2 ^ k)).
  split; [lia|]. exists ((s + (2 ^ k - 1)) / 2 ^ k). lia.
Qed.
