(* ===== verification/ABIDefinition.v ===== *)
(** * Definitions of ABIs

    [abi::Definition] (include/revng/Model/ABI/Definition.h,
    lib/Model/ABIDefinition.cpp): the traits of an ABI that decide where arguments
    and return values go, their verification, the order of the registers, and the
    alignment of types. *)

From S2P Require Import Prelude.
From stdpp Require Import gmap.
From S2P Require Architecture.
From S2P Require ABI.
From S2P Require Register.
From S2P Require PrimitiveKind.
From S2P Require PrimitiveType.
From S2P Require Import ModelTypes.
From S2P Require CDataModel.

Local Open Scope Z_scope.

#[export] Instance register_countable : Countable Register.Values.
Proof. exact (inj_countable' Register.toRaw Register.fromRaw Register.register_fromRaw). Defined.

Module ScalarKind.
(* include/revng/Model/ABI/schema.yml:248-254 ScalarKind *)
Inductive Values : Set := Invalid | Integer | FloatingPoint | Count.

#[global] Instance Values_eq_dec : EqDecision Values.
Proof. solve_decision. Defined.
End ScalarKind.

Module CType.
(* include/revng/Model/ABI/schema.yml:256-268 CType *)
Inductive Values : Set := Invalid | Char | Short | Int | Long | LongLong | Float | Double | LongDouble | Count.

#[global] Instance Values_eq_dec : EqDecision Values.
Proof. solve_decision. Defined.

Definition toRaw (V : Values) : Z :=
  match V with
  | Invalid => 0 | Char => 1 | Short => 2 | Int => 3 | Long => 4 | LongLong => 5 | Float => 6 | Double => 7
  | LongDouble => 8 | Count => 9
  end.
End CType.

(** An alignment of 0 stands for that of the size. *)
(* include/revng/Model/ABI/schema.yml:211-246 ScalarType *)
Record ScalarType := mkScalar {
  Kind : ScalarKind.Values;
  Size : Z;
  AlignedAt : Z;
  CTypes : list CType.Values;
}.

(* include/revng/Model/ABI/ScalarType.h:20-23 ScalarType::alignedAt *)
Definition alignedAt (T : ScalarType) : outcome Z :=
  revng_assert (negb (Size T =? 0));; Ok (if negb (AlignedAt T =? 0) then AlignedAt T else Size T).

(** The aliases of primitive types do not take part in what follows. *)
(* include/revng/Model/ABI/schema.yml:11-178 Definition *)
Record Definition_ := mkDefinition {
  ABI_ : ABI.Values;
  ArgumentsArePositionBased : bool;
  OnlyStartDoubleArgumentsFromAnEvenRegister : bool;
  ArgumentsCanBeSplitBetweenRegistersAndStack : bool;
  BigArgumentsUsePointersToCopy : bool;
  NoRegisterArgumentsCanComeAfterStackOnes : bool;
  AllowPackedTypesInRegisters : bool;
  CalleeIsResponsibleForStackCleanup : bool;
  FloatsUseGPRs : bool;
  PackStackArguments : bool;
  TreatAllAggregatesAsPacked : bool;
  StackAlignment : Z;
  MinimumStackArgumentSize : Z;
  UnusedStackArgumentBytes : Z;
  MaximumGPRsPerAggregateArgument : Z;
  MaximumGPRsPerAggregateReturnValue : Z;
  MaximumGPRsPerScalarArgument : Z;
  MaximumGPRsPerScalarReturnValue : Z;
  GeneralPurposeArgumentRegisters : list Register.Values;
  GeneralPurposeReturnValueRegisters : list Register.Values;
  VectorArgumentRegisters : list Register.Values;
  VectorReturnValueRegisters : list Register.Values;
  CalleeSavedRegisters : list Register.Values;
  ReturnValueLocationRegister : Register.Values;
  ReturnValueLocationOnStack : bool;
  ReturnValueLocationIsReturned : bool;
  ScalarTypes : list ScalarType;
}.

Section definition.
  Context (D : Definition_).

(* include/revng/Model/ABI/Definition.h:37-37 Definition::getPointerSize *)
Definition getPointerSize : outcome Z := ABI.getPointerSize (ABI_ D).

(* include/revng/Model/ABI/Definition.h:38-40 Definition::getArchitecture *)
Definition getArchitecture : outcome Architecture.Values := ABI.getArchitecture (ABI_ D).

(* include/revng/Model/ABI/Definition.h:251-253 Definition::paddedSizeOnStack *)
Definition paddedSizeOnStack (Size_ : Z) : outcome Z := CDataModel.paddedSizeOnStack Size_ (MinimumStackArgumentSize D).

Definition findScalar (K : ScalarKind.Values) (Size_ : Z) : option ScalarType :=
  List.find (λ T, bool_decide (Kind T = K) && (Size T =? Size_)) (ScalarTypes D).

(* lib/Model/ABIDefinition.cpp:93-98 Definition::findIntegerType *)
Definition findIntegerType : Z → option ScalarType := findScalar ScalarKind.Integer.

(* lib/Model/ABIDefinition.cpp:100-105 Definition::findFloatingPointType *)
Definition findFloatingPointType : Z → option ScalarType := findScalar ScalarKind.FloatingPoint.

(* lib/Model/ABIDefinition.cpp:107-113 Definition::getWidestIntegerType *)
Definition getWidestIntegerType : outcome ScalarType :=
  match List.find (λ T, bool_decide (Kind T = ScalarKind.Integer)) (rev (ScalarTypes D)) with
  | Some T => Ok T
  | None => revng_abort
  end.

(** ** Verification *)

Definition count (Registers : list Register.Values) (R : Register.Values) : nat :=
  length (List.filter (λ S, bool_decide (S = R)) Registers).

(* lib/Model/ABIDefinition.cpp:18-32 verifyRegisters *)
Definition verifyRegisters (Registers : list Register.Values) (A : Architecture.Values) : outcome bool :=
  foldr (λ R (Rest : outcome bool),
    Used ← Register.isUsedInArchitecture R A;
    if negb Used then Ok false else if negb (Nat.eqb (count Registers R) 1) then Ok false else Rest) (Ok true) Registers.

(* lib/Model/ABIDefinition.cpp:34-37 isVectorRegister *)
Definition isVectorRegister (R : Register.Values) : outcome bool :=
  K ← Register.getPrimitiveKind R; Ok (bool_decide (K = PrimitiveKind.Float)).

(* lib/Model/ABIDefinition.cpp:46-77 verifyReturnValueLocation *)
Definition verifyReturnValueLocation : outcome bool :=
  let RVLR := ReturnValueLocationRegister D in
  Valid ← Register.isValid RVLR;
  if negb Valid then Ok true else
  A ← ABI.getRegisterArchitecture (ABI_ D);
  Used ← Register.isUsedInArchitecture RVLR A;
  if negb Used then Ok false else
  Vector ← isVectorRegister RVLR;
  if (Vector : bool) then Ok false
  else if bool_decide (RVLR ∈ CalleeSavedRegisters D) then Ok false
  else Ok match GeneralPurposeArgumentRegisters D with
          | [] => true
          | _ :: Others => bool_decide (RVLR ∉ Others) || bool_decide (head (GeneralPurposeArgumentRegisters D) = Some RVLR)
          end.

(* lib/Model/ABIDefinition.cpp:79-87 getScalarKind *)
Definition getScalarKind (T : CType.Values) : ScalarKind.Values :=
  if (CType.toRaw CType.Char <=? CType.toRaw T) && (CType.toRaw T <=? CType.toRaw CType.LongLong) then ScalarKind.Integer
  else if (CType.toRaw CType.Float <=? CType.toRaw T) && (CType.toRaw T <=? CType.toRaw CType.LongDouble)
  then ScalarKind.FloatingPoint
  else ScalarKind.Invalid.

(** The C types a scalar is described as; [None] when one of them is refused. *)
(* lib/Model/ABIDefinition.cpp:156-167 Definition::verify *)
Fixpoint verifyCTypes (K : ScalarKind.Values) (Cs Seen : list CType.Values) : option (list CType.Values) :=
  match Cs with
  | [] => Some Seen
  | CT :: Cs =>
    if bool_decide (CT = CType.Invalid) then None
    else if negb (bool_decide (getScalarKind CT = K)) then None
    else if bool_decide (CT ∈ Seen) then None
    else verifyCTypes K Cs (CT :: Seen)
  end.

(* lib/Model/ABIDefinition.cpp:143-172 Definition::verify *)
Fixpoint verifyScalars (Ts : list ScalarType) (Seen : list CType.Values) (HasIntegerScalar : bool) : option bool :=
  match Ts with
  | [] => Some HasIntegerScalar
  | T :: Ts =>
    if bool_decide (Kind T = ScalarKind.Invalid) then None
    else if Size T =? 0 then None
    else Seen ← verifyCTypes (Kind T) (CTypes T) Seen;
         verifyScalars Ts Seen (HasIntegerScalar || bool_decide (Kind T = ScalarKind.Integer))
  end.

(* lib/Model/ABIDefinition.cpp:483-512 Definition::getDataModel *)
Definition standardType (T : CType.Values) : outcome CDataModel.CStandardType :=
  match T with
  | CType.Char => Ok CDataModel.Char | CType.Short => Ok CDataModel.Short | CType.Int => Ok CDataModel.Int
  | CType.Long => Ok CDataModel.Long | CType.LongLong => Ok CDataModel.LongLong | CType.Float => Ok CDataModel.Float
  | CType.Double => Ok CDataModel.Double | CType.LongDouble => Ok CDataModel.LongDouble
  | CType.Invalid | CType.Count => revng_abort
  end.

(* lib/Model/ABIDefinition.cpp:478-516 Definition::getDataModel *)
Definition getDataModel : outcome CDataModel.CDataModel :=
  P ← getPointerSize;
  foldl (λ DM T, foldl (λ DM CT, DM ← DM; T' ← standardType CT; Ok (CDataModel.setStandardTypeSize T' (Size T) DM)) DM (CTypes T))
    (Ok (CDataModel.getDefaultDataModel P)) (ScalarTypes D).

(* lib/Model/ABIDefinition.cpp:115-178 Definition::verify *)
Definition verify : outcome bool :=
  Valid ← ABI.isValid (ABI_ D);
  if negb Valid then Ok false
  else if StackAlignment D =? 0 then Ok false
  else if MinimumStackArgumentSize D =? 0 then Ok false
  else
  A ← ABI.getRegisterArchitecture (ABI_ D);
  Registers ← foldr (λ Rs (Rest : outcome bool), b ← verifyRegisters Rs A; if negb b then Ok false else Rest) (Ok true)
    [GeneralPurposeArgumentRegisters D; GeneralPurposeReturnValueRegisters D; VectorArgumentRegisters D;
     VectorReturnValueRegisters D; CalleeSavedRegisters D];
  if negb Registers then Ok false else
  Location_ ← verifyReturnValueLocation;
  if negb Location_ then Ok false else
  match ScalarTypes D with
  | [] => Ok false
  | Ts =>
    match verifyScalars Ts [] false with
    | None | Some false => Ok false
    | Some true => DM ← getDataModel; Ok (CDataModel.verify DM)
    end
  end.

(** ** Order of the registers *)

Definition appendNew (Result : list Register.Values) (R : Register.Values) : list Register.Values :=
  if bool_decide (R ∈ Result) then Result else Result ++ [R].

(* include/revng/Model/ABI/Definition.h:141-158 Definition::argumentOrder *)
Definition argumentOrder : list Register.Values :=
  let GPRs := GeneralPurposeArgumentRegisters D in
  let RVL := ReturnValueLocationRegister D in
  let Result := if bool_decide (RVL ≠ Register.Invalid) && bool_decide (RVL ∉ GPRs) then [RVL] else [] in
  foldl appendNew (foldl appendNew Result GPRs) (VectorArgumentRegisters D).

(* include/revng/Model/ABI/Definition.h:160-171 Definition::returnValueOrder *)
Definition returnValueOrder : list Register.Values :=
  foldl appendNew (foldl appendNew [] (GeneralPurposeReturnValueRegisters D)) (VectorReturnValueRegisters D).

(** Inserting a batch asserts that the registers are different. *)
(* include/revng/Model/ABI/Definition.h:205-241 Definition::sortArguments, Definition::sortReturnValues *)
Definition sortBy (Order Registers : list Register.Values) : outcome (list Register.Values) :=
  revng_assert (bool_decide (NoDup Registers));;
  let Result := List.filter (λ R, bool_decide (R ∈ Registers)) Order in
  if negb (Nat.eqb (length Registers) (length Result)) then revng_abort else Ok Result.

(* include/revng/Model/ABI/Definition.h:205-222 Definition::sortArguments *)
Definition sortArguments : list Register.Values → outcome (list Register.Values) := sortBy argumentOrder.

(* include/revng/Model/ABI/Definition.h:224-241 Definition::sortReturnValues *)
Definition sortReturnValues : list Register.Values → outcome (list Register.Values) := sortBy returnValueOrder.

(** ** Functions that may follow the ABI *)

(** The registers of the function as a sorted vector; [None] for an early
    [return false], when the batch is sorted too. *)
(* lib/Model/ABIDefinition.cpp:185-191 Definition::isPreliminarilyCompatibleWith *)
Fixpoint locations (A : Architecture.Values) (Rs Batch : list Register.Values) : outcome (option (list Register.Values)) :=
  match Rs with
  | [] => revng_assert (bool_decide (NoDup Batch));; Ok (Some Batch)
  | R :: Rs =>
    Used ← Register.isUsedInArchitecture R A;
    if negb Used then revng_assert (bool_decide (NoDup Batch));; Ok None else locations A Rs (Batch ++ [R])
  end.

(* lib/Model/ABIDefinition.cpp:181-238 Definition::isPreliminarilyCompatibleWith *)
Definition isPreliminarilyCompatibleWith (Arguments_ ReturnValues_ PreservedRegisters_ : list Register.Values) : outcome bool :=
  Valid ← verify;
  revng_assert Valid;;
  A ← ABI.getRegisterArchitecture (ABI_ D);
  Args ← locations A Arguments_ [];
  match Args with
  | None => Ok false
  | Some Args =>
    if negb (forallb (λ R, bool_decide (R ∈ GeneralPurposeArgumentRegisters D ++ VectorArgumentRegisters D)) Args) then Ok false else
    Rets ← locations A ReturnValues_ [];
    match Rets with
    | None => Ok false
    | Some Rets =>
      if negb (forallb (λ R, bool_decide (R ∈ GeneralPurposeReturnValueRegisters D ++ VectorReturnValueRegisters D)) Rets)
      then Ok false
      else foldr (λ R (Rest : outcome bool), Used ← Register.isUsedInArchitecture R A; if negb Used then Ok false else Rest)
             (Ok true) PreservedRegisters_
    end
  end.
End definition.

(** ** Alignment of types *)

(* include/revng/Model/ABI/Definition.h:63-66 Definition::AlignmentInfo *)
Record AlignmentInfo := mkAlignment { Value : Z; IsNatural : bool }.

(** Computations that use the cache, whose keys are the definitions. *)
Definition Cached (A : Type) : Type := gmap Key AlignmentInfo → outcome (gmap Key AlignmentInfo * A).

#[global] Instance Cached_ret : MRet Cached := λ A a Cache, Ok (Cache, a).
#[global] Instance Cached_bind : MBind Cached := λ A B f m Cache, '(Cache, a) ← m Cache; f a Cache.

Definition uncached {A} (m : outcome A) : Cached A := λ Cache, a ← m; Ok (Cache, a).

Section alignment.
  Context (D : Definition_) (B : list TypeDefinition).

Definition scalarAlignment (T : option ScalarType) : outcome (option AlignmentInfo) :=
  match T with None => Ok None | Some T => v ← alignedAt T; Ok (Some (mkAlignment v true)) end.

(** The alignment of a type, given that of the definitions. *)
(* lib/Model/ABIDefinition.cpp:386-423 naturalAlignment *)
Fixpoint naturalAlignmentOf (definitionAlignment : TypeDefinition → Cached (option AlignmentInfo)) (T : UpcastableType) :
    Cached (option AlignmentInfo) :=
  match T with
  | Empty => λ _, undefined
  | ArrayType _ _ ElementType => naturalAlignmentOf definitionAlignment ElementType
  | DefinedType _ R => E ← uncached (unwrap B R); definitionAlignment E
  | PointerType _ PointerSize _ =>
    uncached (match findIntegerType D PointerSize with None => undefined | T => scalarAlignment T end)
  | PrimitiveType P =>
    uncached (if bool_decide (PrimitiveType.Kind P = PrimitiveKind.Void) then
                revng_assert (PrimitiveType.Size P =? 0);; Ok (Some (mkAlignment 0 false))
              else if bool_decide (PrimitiveType.Kind P = PrimitiveKind.Float) then
                scalarAlignment (findFloatingPointType D (PrimitiveType.Size P))
              else scalarAlignment (findIntegerType D (PrimitiveType.Size P)))
  end.

(** The fields are given with their offset, when they have one. *)
(* lib/Model/ABIDefinition.cpp:298-318 fieldAlignment *)
Fixpoint fieldAlignment (naturalAlignment_ : UpcastableType → Cached (option AlignmentInfo))
    (Fields : list (option Z * UpcastableType)) (Result : AlignmentInfo) : Cached (option AlignmentInfo) :=
  match Fields with
  | [] => mret (Some Result)
  | (Offset_, T) :: Fields =>
    A ← naturalAlignment_ T;
    match A with
    | None => mret None
    | Some A =>
      let Natural := IsNatural Result && IsNatural A in
      Natural ← uncached (match Offset_ with
                          | Some o => if Natural then if Value A =? 0 then undefined else Ok (o mod Value A =? 0) else Ok Natural
                          | None => Ok Natural
                          end);
      fieldAlignment naturalAlignment_ Fields (mkAlignment (Z.max (Value Result) (Value A)) Natural)
    end
  end.

Definition fieldsOf (E : TypeDefinition) : list (option Z * UpcastableType) :=
  match E with
  | StructDefinition _ _ Fields => map (λ F, (Some (Offset F), StructFieldType F)) Fields
  | UnionDefinition _ Fields => map (λ F, (None, UnionFieldType F)) Fields
  | _ => []
  end.

(** [fuel] bounds the depth of the recursion through definitions. *)
(* lib/Model/ABIDefinition.cpp:320-384 naturalAlignment *)
Fixpoint naturalAlignmentDefinition (fuel : nat) (E : TypeDefinition) : Cached (option AlignmentInfo) :=
  match fuel with
  | O => λ _, Fault OutOfFuel
  | S fuel => λ Cache,
    match Cache !! key E with
    | Some Result => Ok (Cache, Some Result)
    | None =>
      '(Cache, Result) ←
        match E with
        | RawFunctionDefinition _ _ _ _ _ _ | CABIFunctionDefinition _ _ _ _ => Ok (Cache, None)
        | EnumDefinition _ U _ | TypedefDefinition _ U => naturalAlignmentOf (naturalAlignmentDefinition fuel) U Cache
        | StructDefinition _ _ _ | UnionDefinition _ _ =>
          fieldAlignment (naturalAlignmentOf (naturalAlignmentDefinition fuel)) (fieldsOf E) (mkAlignment 1 true) Cache
        end;
      match Result with
      | None => Ok (Cache, None)
      | Some Result => Ok (<[key E := Result]> Cache, Some Result)
      end
    end
  end.

(* lib/Model/ABIDefinition.cpp:386-423 naturalAlignment *)
Definition naturalAlignment (fuel : nat) : UpcastableType → Cached (option AlignmentInfo) :=
  naturalAlignmentOf (naturalAlignmentDefinition fuel).

(* lib/Model/ABIDefinition.cpp:425-436 assertOnFailure *)
Definition assertOnFailure (R : option AlignmentInfo) : outcome AlignmentInfo :=
  match R with None => revng_abort | Some A => Ok A end.

(* lib/Model/ABIDefinition.cpp:438-446 Definition::alignment *)
Definition alignment (fuel : nat) (T : UpcastableType) : Cached (option Z) :=
  R ← naturalAlignment fuel T; A ← uncached (assertOnFailure R);
  mret (if Value A =? 0 then None else Some (if IsNatural A then Value A else 1)).

(* lib/Model/ABIDefinition.cpp:457-466 Definition::hasNaturalAlignment *)
Definition hasNaturalAlignment (fuel : nat) (T : UpcastableType) : Cached (option bool) :=
  R ← naturalAlignment fuel T; A ← uncached (assertOnFailure R);
  mret (if Value A =? 0 then None else Some (IsNatural A)).

(* lib/Model/ABIDefinition.cpp:447-455 Definition::alignment *)
Definition alignmentOfDefinition (fuel : nat) (E : TypeDefinition) : Cached (option Z) :=
  R ← naturalAlignmentDefinition fuel E; A ← uncached (assertOnFailure R);
  mret (if Value A =? 0 then None else Some (if IsNatural A then Value A else 1)).

(* lib/Model/ABIDefinition.cpp:468-476 Definition::hasNaturalAlignment *)
Definition hasNaturalAlignmentOfDefinition (fuel : nat) (E : TypeDefinition) : Cached (option bool) :=
  R ← naturalAlignmentDefinition fuel E; A ← uncached (assertOnFailure R);
  mret (if Value A =? 0 then None else Some (IsNatural A)).
End alignment.
