(* ===== verification/ABIData.v ===== *)
(** * The definitions of ABIs that are shipped

    The contents of share/revng/abi, as [Definition::get] loads them
    (lib/Model/ABIDefinition.cpp): sequences that are sorted vectors are in the
    order of their keys, and fields that are not there have their defaults. *)

From S2P Require Import Prelude.
From S2P Require ABI.
From S2P Require Import Register.
From S2P Require Import ABIDefinition.

Local Open Scope Z_scope.

Definition int (s : Z) : ScalarType := mkScalar ScalarKind.Integer s 0 [].
Definition float (s : Z) : ScalarType := mkScalar ScalarKind.FloatingPoint s 0 [].


(* share/revng/abi/SystemV_x86_64.yml:5-88 SystemV_x86_64 *)
Definition SystemV_x86_64 : Definition_ :=
  mkDefinition ABI.SystemV_x86_64
    false false false false false false false false false false 16 8 0 2 2 8 2
    [rdi_x86_64; rsi_x86_64; rdx_x86_64; rcx_x86_64; r8_x86_64; r9_x86_64]
    [rax_x86_64; rdx_x86_64]
    [zmm0_x86_64; zmm1_x86_64; zmm2_x86_64; zmm3_x86_64; zmm4_x86_64; zmm5_x86_64; zmm6_x86_64; zmm7_x86_64]
    [zmm0_x86_64; zmm1_x86_64]
    [rbx_x86_64; rbp_x86_64; r12_x86_64; r13_x86_64; r14_x86_64; r15_x86_64]
    rdi_x86_64 false true
    [int 1; int 2; int 4; int 8; int 16; float 2; float 4; float 8; mkScalar ScalarKind.FloatingPoint 16 0
    [CType.LongDouble]].

(* share/revng/abi/SystemV_x86.yml:5-71 SystemV_x86 *)
Definition SystemV_x86 : Definition_ :=
  mkDefinition ABI.SystemV_x86
    false false false false false false false false false false 16 4 0 0 0 0 2
    []
    [eax_x86; edx_x86]
    []
    [st0_x86]
    [ebx_x86; ebp_x86; edi_x86; esi_x86]
    Invalid true true
    [int 1; int 2; int 4; mkScalar ScalarKind.Integer 8 4 []; float 2; float 4; mkScalar ScalarKind.FloatingPoint 8
    4 []; mkScalar ScalarKind.FloatingPoint 12 4 [CType.LongDouble]; float 16].

(* share/revng/abi/SystemV_x86_regparm_3.yml:5-77 SystemV_x86_regparm_3 *)
Definition SystemV_x86_regparm_3 : Definition_ :=
  mkDefinition ABI.SystemV_x86_regparm_3
    false false false false true true false false false false 16 4 0 3 0 2 2
    [eax_x86; edx_x86; ecx_x86]
    [eax_x86; edx_x86]
    [zmm0_x86; zmm1_x86; zmm2_x86]
    []
    [ebx_x86; ebp_x86; edi_x86; esi_x86]
    eax_x86 false true
    [int 1; int 2; int 4; mkScalar ScalarKind.Integer 8 4 []; float 2; float 4; mkScalar ScalarKind.FloatingPoint 8
    4 []; mkScalar ScalarKind.FloatingPoint 12 4 [CType.LongDouble]; float 16].

(* share/revng/abi/SystemV_x86_regparm_2.yml:5-76 SystemV_x86_regparm_2 *)
Definition SystemV_x86_regparm_2 : Definition_ :=
  mkDefinition ABI.SystemV_x86_regparm_2
    false false false false true true false false false false 16 4 0 2 0 2 2
    [eax_x86; edx_x86]
    [eax_x86; edx_x86]
    [zmm0_x86; zmm1_x86; zmm2_x86]
    []
    [ebx_x86; ebp_x86; edi_x86; esi_x86]
    eax_x86 false true
    [int 1; int 2; int 4; mkScalar ScalarKind.Integer 8 4 []; float 2; float 4; mkScalar ScalarKind.FloatingPoint 8
    4 []; mkScalar ScalarKind.FloatingPoint 12 4 [CType.LongDouble]; float 16].

(* share/revng/abi/SystemV_x86_regparm_1.yml:5-75 SystemV_x86_regparm_1 *)
Definition SystemV_x86_regparm_1 : Definition_ :=
  mkDefinition ABI.SystemV_x86_regparm_1
    false false false false true true false false false false 16 4 0 1 0 1 2
    [eax_x86]
    [eax_x86; edx_x86]
    [zmm0_x86; zmm1_x86; zmm2_x86]
    []
    [ebx_x86; ebp_x86; edi_x86; esi_x86]
    eax_x86 false true
    [int 1; int 2; int 4; mkScalar ScalarKind.Integer 8 4 []; float 2; float 4; mkScalar ScalarKind.FloatingPoint 8
    4 []; mkScalar ScalarKind.FloatingPoint 12 4 [CType.LongDouble]; float 16].

(* share/revng/abi/Microsoft_x86_64.yml:5-82 Microsoft_x86_64 *)
Definition Microsoft_x86_64 : Definition_ :=
  mkDefinition ABI.Microsoft_x86_64
    true false false false false true false false false false 16 8 32 1 1 1 1
    [rcx_x86_64; rdx_x86_64; r8_x86_64; r9_x86_64]
    [rax_x86_64]
    [zmm0_x86_64; zmm1_x86_64; zmm2_x86_64; zmm3_x86_64]
    [zmm0_x86_64]
    [r12_x86_64; r13_x86_64; r14_x86_64; r15_x86_64; rdi_x86_64; rsi_x86_64; rbx_x86_64; rbp_x86_64; zmm6_x86_64;
    zmm7_x86_64]
    rcx_x86_64 false true
    [int 1; int 2; mkScalar ScalarKind.Integer 4 0 [CType.Long]; int 8; int 16; float 2; float 4; float 8].

(* share/revng/abi/Microsoft_x86_64_vectorcall.yml:5-84 Microsoft_x86_64_vectorcall *)
Definition Microsoft_x86_64_vectorcall : Definition_ :=
  mkDefinition ABI.Microsoft_x86_64_vectorcall
    true false false false false true false false false false 16 8 32 1 1 1 1
    [rcx_x86_64; rdx_x86_64; r8_x86_64; r9_x86_64]
    [rax_x86_64]
    [zmm0_x86_64; zmm1_x86_64; zmm2_x86_64; zmm3_x86_64; zmm4_x86_64; zmm5_x86_64]
    [zmm0_x86_64]
    [r12_x86_64; r13_x86_64; r14_x86_64; r15_x86_64; rdi_x86_64; rsi_x86_64; rbx_x86_64; rbp_x86_64; zmm6_x86_64;
    zmm7_x86_64]
    rcx_x86_64 false true
    [int 1; int 2; mkScalar ScalarKind.Integer 4 0 [CType.Long]; int 8; int 16; float 2; float 4; float 8].

(* share/revng/abi/Microsoft_x86_cdecl.yml:5-61 Microsoft_x86_cdecl *)
Definition Microsoft_x86_cdecl : Definition_ :=
  mkDefinition ABI.Microsoft_x86_cdecl
    false false false false false true false false false false 4 4 0 0 2 0 2
    []
    [eax_x86; edx_x86]
    []
    []
    [ebx_x86; ebp_x86; edi_x86; esi_x86]
    Invalid true true
    [int 1; int 2; int 4; mkScalar ScalarKind.Integer 8 4 []; float 2; float 4; float 8].

(* share/revng/abi/Microsoft_x86_cdecl_gcc.yml:5-65 Microsoft_x86_cdecl_gcc *)
Definition Microsoft_x86_cdecl_gcc : Definition_ :=
  mkDefinition ABI.Microsoft_x86_cdecl_gcc
    false false false false false false false false false false 4 4 0 0 0 0 2
    []
    [eax_x86; edx_x86]
    []
    []
    [ebx_x86; ebp_x86; edi_x86; esi_x86]
    Invalid true true
    [int 1; int 2; int 4; int 8; float 2; float 4; float 8; mkScalar ScalarKind.FloatingPoint 12 4
    [CType.LongDouble]].

(* share/revng/abi/Microsoft_x86_stdcall.yml:5-61 Microsoft_x86_stdcall *)
Definition Microsoft_x86_stdcall : Definition_ :=
  mkDefinition ABI.Microsoft_x86_stdcall
    false false false false false true true false false false 4 4 0 0 2 0 2
    []
    [eax_x86; edx_x86]
    []
    []
    [ebx_x86; ebp_x86; edi_x86; esi_x86]
    Invalid true true
    [int 1; int 2; int 4; mkScalar ScalarKind.Integer 8 4 []; float 2; float 4; float 8].

(* share/revng/abi/Microsoft_x86_stdcall_gcc.yml:5-65 Microsoft_x86_stdcall_gcc *)
Definition Microsoft_x86_stdcall_gcc : Definition_ :=
  mkDefinition ABI.Microsoft_x86_stdcall_gcc
    false false false false true false true false false false 4 4 0 0 0 0 2
    []
    [eax_x86; edx_x86]
    []
    []
    [ebx_x86; ebp_x86; edi_x86; esi_x86]
    Invalid true true
    [int 1; int 2; int 4; int 8; float 2; float 4; float 8; mkScalar ScalarKind.FloatingPoint 12 4
    [CType.LongDouble]].

(* share/revng/abi/Microsoft_x86_thiscall.yml:5-63 Microsoft_x86_thiscall *)
Definition Microsoft_x86_thiscall : Definition_ :=
  mkDefinition ABI.Microsoft_x86_thiscall
    false false false false true true true false false false 4 4 0 0 0 1 2
    [ecx_x86]
    [eax_x86; edx_x86]
    []
    []
    [ebx_x86; ebp_x86; edi_x86; esi_x86]
    Invalid true true
    [int 1; int 2; int 4; mkScalar ScalarKind.Integer 8 4 []; float 2; float 4; float 8].

(* share/revng/abi/Microsoft_x86_fastcall.yml:5-64 Microsoft_x86_fastcall *)
Definition Microsoft_x86_fastcall : Definition_ :=
  mkDefinition ABI.Microsoft_x86_fastcall
    false false false false false true true false false false 4 4 0 0 2 1 2
    [ecx_x86; edx_x86]
    [eax_x86; edx_x86]
    []
    []
    [ebx_x86; ebp_x86; edi_x86; esi_x86]
    Invalid true true
    [int 1; int 2; int 4; mkScalar ScalarKind.Integer 8 4 []; float 2; float 4; float 8].

(* share/revng/abi/Microsoft_x86_fastcall_gcc.yml:5-68 Microsoft_x86_fastcall_gcc *)
Definition Microsoft_x86_fastcall_gcc : Definition_ :=
  mkDefinition ABI.Microsoft_x86_fastcall_gcc
    false false false false true false true false false false 4 4 0 0 0 1 2
    [ecx_x86; edx_x86]
    [eax_x86; edx_x86]
    []
    []
    [ebx_x86; ebp_x86; edi_x86; esi_x86]
    ecx_x86 false true
    [int 1; int 2; int 4; int 8; float 2; float 4; float 8; mkScalar ScalarKind.FloatingPoint 12 4
    [CType.LongDouble]].

(* share/revng/abi/Microsoft_x86_vectorcall.yml:5-75 Microsoft_x86_vectorcall *)
Definition Microsoft_x86_vectorcall : Definition_ :=
  mkDefinition ABI.Microsoft_x86_vectorcall
    false false false false false true true false false false 4 4 0 0 2 1 2
    [ecx_x86; edx_x86]
    [eax_x86; edx_x86]
    [zmm0_x86; zmm1_x86; zmm2_x86; zmm3_x86; zmm4_x86; zmm5_x86]
    [zmm0_x86]
    [ebx_x86; ebp_x86; edi_x86; esi_x86; zmm6_x86; zmm7_x86]
    Invalid true true
    [int 1; int 2; int 4; mkScalar ScalarKind.Integer 8 4 []; float 2; float 4; float 8].

(* share/revng/abi/AAPCS64.yml:5-117 AAPCS64 *)
Definition AAPCS64 : Definition_ :=
  mkDefinition ABI.AAPCS64
    false true true true false true false false false false 16 8 0 2 2 2 2
    [x0_aarch64; x1_aarch64; x2_aarch64; x3_aarch64; x4_aarch64; x5_aarch64; x6_aarch64; x7_aarch64]
    [x0_aarch64; x1_aarch64; x2_aarch64; x3_aarch64; x4_aarch64; x5_aarch64; x6_aarch64; x7_aarch64]
    [v0_aarch64; v1_aarch64; v2_aarch64; v3_aarch64; v4_aarch64; v5_aarch64; v6_aarch64; v7_aarch64]
    [v0_aarch64; v1_aarch64; v2_aarch64; v3_aarch64; v4_aarch64; v5_aarch64; v6_aarch64; v7_aarch64]
    [x19_aarch64; x20_aarch64; x21_aarch64; x22_aarch64; x23_aarch64; x24_aarch64; x25_aarch64; x26_aarch64;
    x27_aarch64; x28_aarch64; x29_aarch64; v8_aarch64; v9_aarch64; v10_aarch64; v11_aarch64; v12_aarch64;
    v13_aarch64; v14_aarch64; v15_aarch64]
    x8_aarch64 false false
    [int 1; int 2; int 4; int 8; int 16; float 2; float 4; float 8; mkScalar ScalarKind.FloatingPoint 16 0
    [CType.LongDouble]].

(* share/revng/abi/Microsoft_AAPCS64.yml:5-117 Microsoft_AAPCS64 *)
Definition Microsoft_AAPCS64 : Definition_ :=
  mkDefinition ABI.Microsoft_AAPCS64
    false true true true false true false false false false 16 8 0 2 2 2 1
    [x0_aarch64; x1_aarch64; x2_aarch64; x3_aarch64; x4_aarch64; x5_aarch64; x6_aarch64; x7_aarch64]
    [x0_aarch64; x1_aarch64; x2_aarch64; x3_aarch64; x4_aarch64; x5_aarch64; x6_aarch64; x7_aarch64]
    [v0_aarch64; v1_aarch64; v2_aarch64; v3_aarch64; v4_aarch64; v5_aarch64; v6_aarch64; v7_aarch64]
    [v0_aarch64; v1_aarch64; v2_aarch64; v3_aarch64; v4_aarch64; v5_aarch64; v6_aarch64; v7_aarch64]
    [x19_aarch64; x20_aarch64; x21_aarch64; x22_aarch64; x23_aarch64; x24_aarch64; x25_aarch64; x26_aarch64;
    x27_aarch64; x28_aarch64; x29_aarch64; v8_aarch64; v9_aarch64; v10_aarch64; v11_aarch64; v12_aarch64;
    v13_aarch64; v14_aarch64; v15_aarch64]
    x8_aarch64 false false
    [int 1; int 2; mkScalar ScalarKind.Integer 4 0 [CType.Long]; int 8; int 16; float 2; float 4; float 8; float
    16].

(* share/revng/abi/Apple_AAPCS64.yml:5-117 Apple_AAPCS64 *)
Definition Apple_AAPCS64 : Definition_ :=
  mkDefinition ABI.Apple_AAPCS64
    false false false true false true false false true true 16 8 0 2 2 2 2
    [x0_aarch64; x1_aarch64; x2_aarch64; x3_aarch64; x4_aarch64; x5_aarch64; x6_aarch64; x7_aarch64]
    [x0_aarch64; x1_aarch64; x2_aarch64; x3_aarch64; x4_aarch64; x5_aarch64; x6_aarch64; x7_aarch64]
    [v0_aarch64; v1_aarch64; v2_aarch64; v3_aarch64; v4_aarch64; v5_aarch64; v6_aarch64; v7_aarch64]
    [v0_aarch64; v1_aarch64; v2_aarch64; v3_aarch64; v4_aarch64; v5_aarch64; v6_aarch64; v7_aarch64]
    [x19_aarch64; x20_aarch64; x21_aarch64; x22_aarch64; x23_aarch64; x24_aarch64; x25_aarch64; x26_aarch64;
    x27_aarch64; x28_aarch64; x29_aarch64; v8_aarch64; v9_aarch64; v10_aarch64; v11_aarch64; v12_aarch64;
    v13_aarch64; v14_aarch64; v15_aarch64]
    x8_aarch64 false false
    [int 1; int 2; int 4; int 8; int 16; float 2; float 4; float 8; mkScalar ScalarKind.FloatingPoint 16 0
    [CType.LongDouble]].

(* share/revng/abi/AAPCS.yml:5-85 AAPCS *)
Definition AAPCS : Definition_ :=
  mkDefinition ABI.AAPCS
    false true true false true true false false false false 8 4 0 4 1 4 4
    [r0_arm; r1_arm; r2_arm; r3_arm]
    [r0_arm; r1_arm; r2_arm; r3_arm]
    [q0_arm; q1_arm; q2_arm; q3_arm]
    [q0_arm; q1_arm; q2_arm; q3_arm]
    [r4_arm; r5_arm; r6_arm; r7_arm; r8_arm; r10_arm; r11_arm; r14_arm; q4_arm; q5_arm; q6_arm; q7_arm]
    r0_arm false true
    [int 1; int 2; int 4; int 8; float 2; float 4; float 8].

(* share/revng/abi/SystemV_MIPS_o32.yml:5-92 SystemV_MIPS_o32 *)
Definition SystemV_MIPS_o32 : Definition_ :=
  mkDefinition ABI.SystemV_MIPS_o32
    false true true false false false false true false false 4 4 16 4 1 4 4
    [a0_mips; a1_mips; a2_mips; a3_mips]
    [v0_mips; v1_mips]
    [f12_mips; f13_mips; f14_mips; f15_mips]
    [f0_mips; f1_mips; f2_mips; f3_mips]
    [s0_mips; s1_mips; s2_mips; s3_mips; s4_mips; s5_mips; s6_mips; s7_mips; gp_mips; fp_mips; f20_mips; f21_mips;
    f22_mips; f23_mips; f24_mips; f25_mips; f26_mips; f27_mips; f28_mips; f29_mips; f30_mips; f31_mips]
    v0_mips false true
    [int 1; int 2; int 4; int 8; float 4; float 8].

(* share/revng/abi/SystemV_MIPSEL_o32.yml:5-92 SystemV_MIPSEL_o32 *)
Definition SystemV_MIPSEL_o32 : Definition_ :=
  mkDefinition ABI.SystemV_MIPSEL_o32
    false true true false false false false true false false 4 4 16 4 1 4 4
    [a0_mips; a1_mips; a2_mips; a3_mips]
    [v0_mips; v1_mips]
    [f12_mips; f13_mips; f14_mips; f15_mips]
    [f0_mips; f1_mips; f2_mips; f3_mips]
    [s0_mips; s1_mips; s2_mips; s3_mips; s4_mips; s5_mips; s6_mips; s7_mips; gp_mips; fp_mips; f20_mips; f21_mips;
    f22_mips; f23_mips; f24_mips; f25_mips; f26_mips; f27_mips; f28_mips; f29_mips; f30_mips; f31_mips]
    v0_mips false true
    [int 1; int 2; int 4; int 8; float 4; float 8].

(* share/revng/abi/SystemZ_s390x.yml:5-102 SystemZ_s390x *)
Definition SystemZ_s390x : Definition_ :=
  mkDefinition ABI.SystemZ_s390x
    true false false false false false false false false false 8 8 0 1 1 1 1
    [r2_systemz; r3_systemz; r4_systemz; r5_systemz; r6_systemz]
    [r2_systemz]
    [f0_systemz; f1_systemz; f2_systemz; f3_systemz; f4_systemz; f5_systemz; f6_systemz; f7_systemz]
    [f0_systemz]
    [r6_systemz; r7_systemz; r8_systemz; r9_systemz; r10_systemz; r11_systemz; r12_systemz; r13_systemz;
    r15_systemz; f8_systemz; f9_systemz; f10_systemz; f11_systemz; f12_systemz; f13_systemz]
    r2_systemz false true
    [int 1; int 2; int 4; int 8; mkScalar ScalarKind.Integer 16 8 []; float 4; float 8; mkScalar
    ScalarKind.FloatingPoint 16 8 [CType.LongDouble]].

(** Each ABI has its definition; others are not shipped. *)
(* lib/Model/ABIDefinition.cpp:245-276 Definition::get *)
Definition get (V : ABI.Values) : outcome Definition_ :=
  match V with
  | ABI.SystemV_x86_64 => Ok SystemV_x86_64
  | ABI.SystemV_x86 => Ok SystemV_x86
  | ABI.SystemV_x86_regparm_3 => Ok SystemV_x86_regparm_3
  | ABI.SystemV_x86_regparm_2 => Ok SystemV_x86_regparm_2
  | ABI.SystemV_x86_regparm_1 => Ok SystemV_x86_regparm_1
  | ABI.Microsoft_x86_64 => Ok Microsoft_x86_64
  | ABI.Microsoft_x86_64_vectorcall => Ok Microsoft_x86_64_vectorcall
  | ABI.Microsoft_x86_cdecl => Ok Microsoft_x86_cdecl
  | ABI.Microsoft_x86_cdecl_gcc => Ok Microsoft_x86_cdecl_gcc
  | ABI.Microsoft_x86_stdcall => Ok Microsoft_x86_stdcall
  | ABI.Microsoft_x86_stdcall_gcc => Ok Microsoft_x86_stdcall_gcc
  | ABI.Microsoft_x86_thiscall => Ok Microsoft_x86_thiscall
  | ABI.Microsoft_x86_fastcall => Ok Microsoft_x86_fastcall
  | ABI.Microsoft_x86_fastcall_gcc => Ok Microsoft_x86_fastcall_gcc
  | ABI.Microsoft_x86_vectorcall => Ok Microsoft_x86_vectorcall
  | ABI.AAPCS64 => Ok AAPCS64
  | ABI.Microsoft_AAPCS64 => Ok Microsoft_AAPCS64
  | ABI.Apple_AAPCS64 => Ok Apple_AAPCS64
  | ABI.AAPCS => Ok AAPCS
  | ABI.SystemV_MIPS_o32 => Ok SystemV_MIPS_o32
  | ABI.SystemV_MIPSEL_o32 => Ok SystemV_MIPSEL_o32
  | ABI.SystemZ_s390x => Ok SystemZ_s390x
  | ABI.Invalid => Fault AssertionFailed
  | ABI.Count => revng_abort
  end.

Definition shipped : list Definition_ :=
  [SystemV_x86_64; SystemV_x86; SystemV_x86_regparm_3; SystemV_x86_regparm_2; SystemV_x86_regparm_1;
  Microsoft_x86_64; Microsoft_x86_64_vectorcall; Microsoft_x86_cdecl; Microsoft_x86_cdecl_gcc;
  Microsoft_x86_stdcall; Microsoft_x86_stdcall_gcc; Microsoft_x86_thiscall; Microsoft_x86_fastcall;
  Microsoft_x86_fastcall_gcc; Microsoft_x86_vectorcall; AAPCS64; Microsoft_AAPCS64; Apple_AAPCS64; AAPCS;
  SystemV_MIPS_o32; SystemV_MIPSEL_o32; SystemZ_s390x].
