(* ===== verification/Alignment.v ===== *)
(** * Alignment of types

    The alignment of a type is a power of two when those of the scalars of the ABI
    are, and it is computed for every type whose scalars have sizes the ABI knows. *)

From S2P Require Import Prelude.
From stdpp Require Import gmap.
From S2P Require PrimitiveKind.
From S2P Require PrimitiveType.
From S2P Require Import ModelTypes.
From S2P Require Import ModelSize.
From S2P Require CDataModel.
From S2P Require Import ABIDefinition.
From S2P Require ABIData.

Local Open Scope Z_scope.

Lemma Cached_run {A B} (m : Cached A) (f : A → Cached B) Cache Cache' a : m Cache = Ok (Cache', a) → (m ≫= f) Cache = f a Cache'.
Proof. unfold mbind, Cached_bind. by intros ->. Qed.

(** The alignments of the scalars of an ABI are powers of two, at most [2 ^ m]. *)
Definition scalarsAligned (m : Z) (D : Definition_) : bool :=
  forallb (λ T, match alignedAt T with
                | Ok a => CDataModel.hasSingleBit a && (0 <? a) && (a <=? 2 ^ m)
                | Fault _ => false
                end) (ScalarTypes D).

Section alignments.
  Context (m : Z) (Hm : 0 ≤ m < 64) (D : Definition_) (HD : scalarsAligned m D = true) (B : list TypeDefinition).

Definition power (v : Z) : Prop := ∃ k, 0 ≤ k ≤ m ∧ v = 2 ^ k.

(** The alignment of [void] is 0. *)
Definition alignmentOk (A : AlignmentInfo) : Prop := Value A = 0 ∨ power (Value A).

Definition alignmentsOk (Cache : gmap Key AlignmentInfo) : Prop := map_Forall (λ _, alignmentOk) Cache.

(** A computation that keeps the cache right and gives a right alignment. *)
Definition alignsRightly (run : Cached (option AlignmentInfo)) : Prop :=
  ∀ Cache Cache' r, alignmentsOk Cache → run Cache = Ok (Cache', r) → alignmentsOk Cache' ∧ from_option alignmentOk True r.

Lemma power_max a b : (a = 0 ∨ power a) → power b → power (Z.max a b).
Proof.
  intros [->|(k & Hk & ->)] (l & Hl & ->); [exists l; split; [done|]; apply Z.max_r, Z.pow_nonneg; lia|].
  destruct (Z.max_spec (2 ^ k) (2 ^ l)) as [[_ ->]|[_ ->]]; [by exists l|by exists k].
Qed.

Lemma findScalar_aligned T : T ∈ ScalarTypes D → alignsRightly (uncached (scalarAlignment (Some T))).
Proof using HD Hm.
  intros HT C C' r HC (A & HA & [= <- <-])%bind_inv. apply bind_inv in HA as (v & Hv & [= <-]). split; [done|]. right.
  unfold scalarsAligned in HD. rewrite forallb_forall in HD. apply list_elem_of_In, HD in HT. rewrite Hv in HT.
  apply andb_true_iff in HT as [[H1 H2%Z.ltb_lt]%andb_true_iff H3%Z.leb_le].
  assert (2 ^ m < 2 ^ 64) by (apply Z.pow_lt_mono_r; lia). apply CDataModel.hasSingleBit_pow in H1 as (k & Hk & ->); [|unfold in_width; lia].
  exists k. split; [|done]. split; [lia|]. destruct (Z.le_gt_cases k m) as [|Hgt]; [done|]. apply (Z.pow_lt_mono_r 2) in Hgt; lia.
Qed.

Lemma aligns_ret r : from_option alignmentOk True r → alignsRightly (mret r).
Proof. intros Hr C C' r' HC [= <- <-]. done. Qed.

Lemma naturalAlignmentOf_right (run : TypeDefinition → Cached (option AlignmentInfo)) T :
  (∀ E, alignsRightly (run E)) → alignsRightly (naturalAlignmentOf D B run T).
Proof using HD Hm.
  intros Hrun. induction T as [|c n E IH|c R|c n E IH|Pr]; cbn [naturalAlignmentOf].
  - intros C C' r HC Heq. done.
  - done.
  - intros C C' r HC ([C1 E] & HE & Heq)%bind_inv. apply bind_inv in HE as (E' & _ & [= <- <-]). by eapply Hrun.
  - unfold findIntegerType, findScalar. destruct (List.find _ _) as [T|] eqn:EF; [|intros C C' r HC Heq; done].
    apply find_some in EF as [HIn _]. by apply findScalar_aligned, list_elem_of_In.
  - assert (∀ T, alignsRightly (uncached (scalarAlignment (findScalar D T (PrimitiveType.Size Pr))))) as HS.
    { intros K. unfold findScalar. destruct (List.find _ _) as [T|] eqn:EF; [|intros C C' r HC [= <- <-]; done].
      apply find_some in EF as [HIn _]. by apply findScalar_aligned, list_elem_of_In. }
    destruct (bool_decide _); [|destruct (bool_decide _); apply HS].
    intros C C' r HC (A & HA & [= <- <-])%bind_inv. apply assert_inv in HA as [_ [= <-]]. split; [done|by left].
Qed.

Lemma fieldAlignment_right (run : UpcastableType → Cached (option AlignmentInfo)) Fields Result :
  (∀ T, alignsRightly (run T)) → power (Value Result) → alignsRightly (fieldAlignment run Fields Result).
Proof.
  intros Hrun. revert Result. induction Fields as [|[o T] Fields IH]; intros Result HR; cbn [fieldAlignment]; [apply aligns_ret; by right|].
  intros C C' r HC ([C1 [A|]] & HA & Heq)%bind_inv; apply Hrun in HA as [HC1 HA]; [|done|injection Heq as <- <-; done|done].
  apply bind_inv in Heq as ([C2 b] & Hb & Heq). apply bind_inv in Hb as (b' & _ & [= <- <-]). cbn in HA.
  eapply IH; [|exact HC1|exact Heq]. cbn. rewrite Z.max_comm. by apply power_max.
Qed.

Lemma naturalAlignmentDefinition_right fuel E : alignsRightly (naturalAlignmentDefinition D B fuel E).
Proof using HD Hm.
  revert E. induction fuel as [|fuel IH]; intros E C C' r HC; cbn [naturalAlignmentDefinition]; [done|].
  destruct (C !! key E) as [Result|] eqn:EC; [intros [= <- <-]; split; [done|by apply (HC (key E))]|].
  intros ([C1 A] & HA & Heq)%bind_inv.
  assert (alignmentsOk C1 ∧ from_option alignmentOk True A) as [HC1 HOk].
  { assert (power (Value (mkAlignment 1 true))) as H1 by (exists 0; split; [lia|done]).
    destruct E; [by injection HA as <- <-|by eapply (naturalAlignmentOf_right _ _ IH)|by injection HA as <- <-|by eapply (naturalAlignmentOf_right _ _ IH)| |];
      (eapply fieldAlignment_right; [|exact H1|exact HC|exact HA]); intros T; by apply naturalAlignmentOf_right. }
  destruct A as [A|]; injection Heq as <- <-; [|done]. split; [|done]. by apply map_Forall_insert_2.
Qed.

(** The alignment of any type, in an ABI whose scalars are aligned at powers of two
    that are at most [2 ^ m], is such a power of two; the cache of the alignments of
    the definitions keeps to that. *)
Lemma alignment_power fuel T Cache Cache' a :
  alignmentsOk Cache → alignment D B fuel T Cache = Ok (Cache', Some a) → alignmentsOk Cache' ∧ power a.
Proof using HD Hm.
  intros HC ([C1 R] & HR & Heq)%bind_inv. apply bind_inv in Heq as ([C2 A] & HA & Heq).
  apply bind_inv in HA as (A' & HA & [= <- <-]). destruct R as [A0|]; [|done]. injection HA as ->.
  apply (naturalAlignmentOf_right _ _ (naturalAlignmentDefinition_right fuel)) in HR as [HC1 HOk]; [|done].
  injection Heq as <- Heq. split; [done|]. destruct (Z.eqb_spec (Value A') 0); [done|]. injection Heq as <-. cbn in HOk.
  destruct (IsNatural A'); [by destruct HOk|]. exists 0. split; [lia|done].
Qed.
End alignments.

(** ** Types that have an alignment *)

Section alignable.
  Context (D : Definition_) (B : list TypeDefinition).

Definition known (T : option ScalarType) : bool := match T with Some _ => true | None => false end.

(** Every scalar of the type has a size that the ABI knows, and no function is in it. *)
Fixpoint alignableWith (definitionAlignable : TypeDefinition → bool) (T : UpcastableType) : bool :=
  match T with
  | Empty => false
  | ArrayType _ _ E => alignableWith definitionAlignable E
  | DefinedType _ R => match getConst B R with Some E => definitionAlignable E | None => false end
  | PointerType _ PointerSize _ => known (findIntegerType D PointerSize)
  | PrimitiveType P =>
    if bool_decide (PrimitiveType.Kind P = PrimitiveKind.Void) then PrimitiveType.Size P =? 0
    else if bool_decide (PrimitiveType.Kind P = PrimitiveKind.Float) then known (findFloatingPointType D (PrimitiveType.Size P))
    else known (findIntegerType D (PrimitiveType.Size P))
  end.

(** [depth] bounds the depth of the definitions, as [definitionSizeAt] does. *)
Fixpoint alignableDefinition (depth : nat) (E : TypeDefinition) : bool :=
  match depth with
  | O => false
  | S depth =>
    match E with
    | RawFunctionDefinition _ _ _ _ _ _ | CABIFunctionDefinition _ _ _ _ => false
    | EnumDefinition _ U _ | TypedefDefinition _ U => alignableWith (alignableDefinition depth) U
    | StructDefinition _ _ Fields => forallb (λ F, alignableWith (alignableDefinition depth) (StructFieldType F)) Fields
    | UnionDefinition _ Fields => forallb (λ F, alignableWith (alignableDefinition depth) (UnionFieldType F)) Fields
    end
  end.

Definition alignable (depth : nat) : UpcastableType → bool := alignableWith (alignableDefinition depth).

Context (m : Z) (HD : scalarsAligned m D = true).

(** Only what has the size 0 has the alignment 0, which is not natural. *)
Definition goodAlignment (Sizes : Z → Prop) (A : AlignmentInfo) : Prop :=
  0 < Value A ∨ Value A = 0 ∧ IsNatural A = false ∧ ∀ s, Sizes s → s = 0.

Definition cacheGood (Cache : gmap Key AlignmentInfo) : Prop :=
  ∀ E A, lookup B (key E) = Some E → Cache !! key E = Some A → goodAlignment (definitionSize B E) A.

(** A computation that gives an alignment, whatever is in the cache. *)
Definition aligns (run : Cached (option AlignmentInfo)) (Sizes : Z → Prop) : Prop :=
  ∀ C, cacheGood C → ∃ C' A, run C = Ok (C', Some A) ∧ cacheGood C' ∧ goodAlignment Sizes A.

Lemma known_aligns K n Sizes : known (findScalar D K n) = true → aligns (uncached (scalarAlignment (findScalar D K n))) Sizes.
Proof using HD.
  unfold known, findScalar. destruct (List.find _ _) as [T|] eqn:EF; [|done]. intros _ C HC. apply find_some in EF as [HIn _].
  unfold scalarsAligned in HD. rewrite forallb_forall in HD. apply HD in HIn. unfold uncached, scalarAlignment.
  destruct (alignedAt T) as [v|]; [|done]. apply andb_true_iff in HIn as [[_ H1%Z.ltb_lt]%andb_true_iff _].
  do 2 eexists. split; [done|]. split; [done|]. by left.
Qed.

Lemma naturalAlignmentOf_aligns run good T :
  (∀ E, lookup B (key E) = Some E → good E = true → aligns (run E) (definitionSize B E)) →
  alignableWith good T = true → aligns (naturalAlignmentOf D B run T) (typeSize B T).
Proof using HD.
  intros Hrun. induction T as [|c n E IH|c R|c n E IH|Pr]; cbn [alignableWith naturalAlignmentOf]; intros HT; [done| | | |].
  - intros C HC. destruct (IH HT C HC) as (C' & A & H1 & H2 & H3). exists C', A. split; [done|]. split; [done|].
    destruct H3 as [H3|(H3 & H4 & H5)]; [by left|right]. split; [done|]. split; [done|]. intros s [d Hd]. unfold typeSizeAt in Hd. cbn in Hd.
    destruct (typeSizeWith B (definitionSizeAt B d) E) as [t|] eqn:Et; [|done]. injection Hd as <-. rewrite (H5 t) by by exists d. by rewrite Z.mul_0_r.
  - intros C HC. destruct R as [k|]; [|done]. cbn in HT. destruct (lookup B k) as [E|] eqn:EE; [|done].
    destruct (lookup_key B k E EE) as [Hk _]. rewrite <-Hk in EE. destruct (Hrun E EE HT C HC) as (C' & A & H1 & H2 & H3).
    exists C', A. split; [|split; [done|]].
    + rewrite (Cached_run _ _ C C E); [done|]. unfold uncached, unwrap, isValid, getConst. cbn. by rewrite <-Hk, EE.
    + destruct H3 as [H3|(H3 & H4 & H5)]; [by left|right]. split; [done|]. split; [done|]. intros s [d Hd]. apply H5. exists d.
      unfold typeSizeAt in Hd. cbn in Hd. by rewrite <-Hk, EE in Hd.
  - pose proof (known_aligns ScalarKind.Integer n (typeSize B (PointerType c n E)) HT) as HA. unfold findIntegerType in *.
    by destruct (findScalar D ScalarKind.Integer n).
  - destruct (bool_decide (PrimitiveType.Kind Pr = PrimitiveKind.Void)) eqn:EV; [|destruct (bool_decide (PrimitiveType.Kind Pr = PrimitiveKind.Float)); by apply known_aligns].
    intros C HC. rewrite HT. do 2 eexists. split; [done|]. split; [done|]. right. split; [done|]. split; [done|]. intros s [d Hd].
    apply bool_decide_eq_true in EV. unfold typeSizeAt in Hd. cbn in Hd. rewrite bool_decide_eq_false_2 in Hd by by intros []. by injection Hd as <-.
Qed.

Lemma fieldAlignment_aligns (run : UpcastableType → Cached (option AlignmentInfo)) Fields Result Sizes :
  (∀ o T, (o, T) ∈ Fields → aligns (run T) (typeSize B T)) → 0 < Value Result → aligns (fieldAlignment run Fields Result) Sizes.
Proof.
  intros Hrun. revert Result. induction Fields as [|[o T] Fields IH]; intros Result HR C HC; cbn [fieldAlignment].
  { exists C, Result. split; [done|]. split; [done|]. by left. }
  destruct (Hrun o T ltac:(by left) C HC) as (C1 & A & H1 & H2 & H3). rewrite (Cached_run _ _ _ _ _ H1).
  assert (∃ b, (match o with
    | Some o => if IsNatural Result && IsNatural A then if Value A =? 0 then undefined else Ok (o mod Value A =? 0)
                else Ok (IsNatural Result && IsNatural A)
    | None => Ok (IsNatural Result && IsNatural A) end) = Ok b) as [b Hb].
  { destruct o; [|by eexists]. destruct (IsNatural Result && IsNatural A) eqn:EN; [|by eexists]. apply andb_true_iff in EN as [_ EN].
    destruct H3 as [H3|(_ & H3 & _)]; [|congruence]. rewrite (proj2 (Z.eqb_neq _ _)) by lia. by eexists. }
  rewrite (Cached_run _ _ C1 C1 b) by (unfold uncached; by rewrite Hb).
  apply IH; [intros o' T' Hin; apply (Hrun o'); by right|cbn; lia|done].
Qed.

Lemma naturalAlignmentDefinition_aligns depth E :
  lookup B (key E) = Some E → alignableDefinition depth E = true →
  aligns (naturalAlignmentDefinition D B depth E) (definitionSize B E).
Proof using HD.
  revert E. induction depth as [|depth IH]; intros E HE HA C HC; [done|]. cbn [naturalAlignmentDefinition].
  destruct (C !! key E) as [A|] eqn:EC; [exists C, A; split; [done|split; [done|by apply HC]]|]. cbn [alignableDefinition] in HA.
  assert (∀ T, alignableWith (alignableDefinition depth) T = true → aligns (naturalAlignmentOf D B (naturalAlignmentDefinition D B depth) T) (typeSize B T)) as HT
    by (intros T; by apply naturalAlignmentOf_aligns).
  assert (∀ run Sizes, aligns run Sizes → (∀ s, definitionSize B E s → Sizes s) → ∃ C' A,
    ('(C, R) ← run C; match R with None => Ok (C, None) | Some R => Ok (<[key E := R]> C, Some R) end) = Ok (C', Some A) ∧
    cacheGood C' ∧ goodAlignment (definitionSize B E) A) as Hset.
  { intros run Sizes Hr HS. destruct (Hr C HC) as (C1 & A & H1 & H2 & H3). rewrite H1, bind_ok. exists (<[key E := A]> C1), A.
    assert (goodAlignment (definitionSize B E) A) as HG by (destruct H3 as [|(?&?&?)]; [by left|right; auto]).
    split; [done|]. split; [|done]. intros F A' HF. destruct (decide (key F = key E)) as [Heq|Hne].
    - rewrite Heq, lookup_insert_eq. intros [= <-]. rewrite Heq, HE in HF. by injection HF as <-.
    - rewrite lookup_insert_ne by done. by apply H2. }
  destruct E as [i a R Args|i U Es|i a Args Rets Ps St|i U|i n Fs|i Fs]; try done.
  1, 2: apply (Hset _ _ (HT U HA)); intros s [d Hd]; destruct d as [|d]; [done|by exists d].
  all: apply (Hset _ (λ _, True)); [|done]; apply fieldAlignment_aligns; [|done].
  all: intros o T Hin; apply HT; rewrite forallb_forall in HA; apply list_elem_of_fmap in Hin as (F & [= -> ->] & HF).
  all: by apply HA, list_elem_of_In.
Qed.

(** A type whose scalars the ABI knows, and whose size is not 0, has an alignment. *)
Lemma alignable_aligned depth T s C :
  alignable depth T = true → typeSize B T s → s ≠ 0 → cacheGood C →
  ∃ C' A, naturalAlignment D B depth T C = Ok (C', Some A) ∧ Value A ≠ 0 ∧ cacheGood C'.
Proof using HD.
  intros HT Hs Hn HC. destruct (naturalAlignmentOf_aligns (naturalAlignmentDefinition D B depth) _ T (naturalAlignmentDefinition_aligns depth) HT C HC)
    as (C' & A & H1 & H2 & H3). exists C', A. split; [done|]. split; [|done]. destruct H3 as [|(_ & _ & H3)]; [lia|]. by apply H3 in Hs.
Qed.
End alignable.

(** The scalars of the ABIs that come with rev.ng are aligned at 16 bytes or less. *)
Fact shipped_aligned : forallb (scalarsAligned 4) ABIData.shipped = true.
Proof. by vm_compute. Qed.
