(* ===== verification/ValueDistributor.v ===== *)
(** * Distribution of values

    [ValueDistributor], [ArgumentDistributor] and [ReturnValueDistributor]
    (lib/ABI/FunctionType/ValueDistributor.h and .cpp): which registers and which
    part of the stack hold the arguments and the return value of a function,
    according to the definition of its ABI. *)

From S2P Require Import Prelude.
From stdpp Require Import gmap.
From S2P Require Register.
From S2P Require PrimitiveKind.
From S2P Require Import ModelTypes.
From S2P Require Import ModelSize.
From S2P Require CDataModel.
From S2P Require Import ABIDefinition.

Local Open Scope Z_scope.

(** ** Interface to LLVM *)

(** [llvm::alignToPowerOf2]: the next multiple of a power of two. *)
Class LLVMAlign := {
  alignTo : Z → Z → Z;
  alignTo_spec Value_ Align :
    (∃ k, 0 ≤ k < 64 ∧ Align = 2 ^ k) → in_width 64 (Value_ + (Align - 1)) →
    (Align | alignTo Value_ Align) ∧ Value_ ≤ alignTo Value_ Align < Value_ + Align;
}.

(** It asserts that the alignment is a power of two. *)
Definition alignToPowerOf2 `{LLVMAlign} (Value_ Align : Z) : outcome Z :=
  revng_assert (CDataModel.hasSingleBit Align);; Ok (alignTo Value_ Align).

#[global] Program Instance llvmAlign : LLVMAlign := {
  alignTo Value_ Align := Align * ((Value_ + (Align - 1)) / Align);
}.
Next Obligation.
  intros V A (k & Hk & ->) _. assert (0 < 2 ^ k) by (apply Z.pow_pos_nonneg; lia). split; [by exists ((V + (2 ^ k - 1)) / 2 ^ k); lia|].
  pose proof (Z.mul_div_le (V + (2 ^ k - 1)) (2 ^ k)). pose proof (Z.mod_pos_bound (V + (2 ^ k - 1)) (2 ^ k)).
  pose proof (Z.div_mod (V + (2 ^ k - 1)) (2 ^ k)). lia.
Qed.

(** ** State *)

(* lib/ABI/FunctionType/ValueDistributor.h:18-73 DistributedValue *)
Record DistributedValue := mkDistributed {
  Registers : list Register.Values;
  Size_ : Z;
  PrePaddingSize : Z;
  PostPaddingSize : Z;
  SizeOnStack : Z;
  OffsetOnStack : Z;
  UsesPointerToCopy : bool;
  RepresentsPadding : bool;
}.

(* lib/ABI/FunctionType/ValueDistributor.h:63-72 DistributedValue::voidReturnValue *)
Definition voidReturnValue : DistributedValue := mkDistributed [] 0 0 0 0 0 false false.

(* lib/ABI/FunctionType/ValueDistributor.h:78-85 ValueDistributor *)
Record ValueDistributor := mkDistributor {
  UsedGeneralPurposeRegisterCount : nat;
  UsedVectorRegisterCount : nat;
  UsedStackOffset : Z;
  CurrentStackAlignment : Z;
  LastAddedStackPadding : Z;
  ArgumentIndex : nat;
}.

Definition withGPRs (n : nat) (V : ValueDistributor) : ValueDistributor :=
  mkDistributor n (UsedVectorRegisterCount V) (UsedStackOffset V) (CurrentStackAlignment V) (LastAddedStackPadding V) (ArgumentIndex V).
Definition withVectors (n : nat) (V : ValueDistributor) : ValueDistributor :=
  mkDistributor (UsedGeneralPurposeRegisterCount V) n (UsedStackOffset V) (CurrentStackAlignment V) (LastAddedStackPadding V) (ArgumentIndex V).
Definition withStack (o : Z) (V : ValueDistributor) : ValueDistributor :=
  mkDistributor (UsedGeneralPurposeRegisterCount V) (UsedVectorRegisterCount V) o (CurrentStackAlignment V) (LastAddedStackPadding V) (ArgumentIndex V).
Definition withLast (a p : Z) (V : ValueDistributor) : ValueDistributor :=
  mkDistributor (UsedGeneralPurposeRegisterCount V) (UsedVectorRegisterCount V) (UsedStackOffset V) a p (ArgumentIndex V).
Definition withIndex (i : nat) (V : ValueDistributor) : ValueDistributor :=
  mkDistributor (UsedGeneralPurposeRegisterCount V) (UsedVectorRegisterCount V) (UsedStackOffset V) (CurrentStackAlignment V) (LastAddedStackPadding V) i.

(** The registers of a list from one index to another. *)
Definition slice (Rs : list Register.Values) (From To : nat) : list Register.Values := take (To - From) (drop From Rs).

Section distribution.
  Context `{LLVMAlign} (D : Definition_).

(* lib/ABI/FunctionType/ValueDistributor.h:104-108 ValueDistributor::ValueDistributor *)
Definition make : outcome ValueDistributor :=
  Valid ← verify D; revng_assert Valid;; Ok (mkDistributor 0 0 (UnusedStackArgumentBytes D) 0 0 0).

(** ** Values *)

(** The loop that adds registers; [n] bounds how many are left. *)
(* lib/ABI/FunctionType/ValueDistributor.cpp:53-62 ValueDistributor::distribute *)
Fixpoint considerRegisters (n : nat) (Rs : list Register.Values) (LastRegister : nat) (Size : Z)
    (Counter : nat) (SizeCounter : Z) : outcome (nat * Z) :=
  match n with
  | O => Ok (Counter, SizeCounter)
  | S n =>
    if (SizeCounter <? Size) && (Counter <? length Rs)%nat && (Counter <? LastRegister)%nat then
      match Rs !! Counter with
      | None => undefined
      | Some R => s ← Register.getSize R; considerRegisters n Rs LastRegister Size (S Counter) (wrap 64 (SizeCounter + s))
      end
    else Ok (Counter, SizeCounter)
  end.

(** Padding registers: the new number of occupied and of considered registers and
    of bytes they have, and the padding. *)
(* lib/ABI/FunctionType/ValueDistributor.cpp:76-106 ValueDistributor::distribute *)
Definition padRegisters (Size Alignment : Z) (Rs : list Register.Values) (LastRegister Occupied Considered : nat) (SizeCounter : Z) :
    outcome (list DistributedValue * nat * nat * Z) :=
  if OnlyStartDoubleArgumentsFromAnEvenRegister D then
    PointerSize ← getPointerSize D;
    let MultiAligned := (PointerSize <=? Size) && (PointerSize <? Alignment)
                        || (PointerSize <? Size) && BigArgumentsUsePointersToCopy D in
    let LastRegisterUsed := Nat.eqb Considered Occupied in
    let FirstRegisterOdd := Nat.odd Occupied in
    if MultiAligned && negb LastRegisterUsed && FirstRegisterOdd then
      '(Padding, Occupied') ←
        (if Nat.eqb (Occupied + 1) (length Rs) then Ok ([], Occupied)
         else match Rs !! Occupied with
              | None => undefined
              | Some R => Ok ([mkDistributed [R] PointerSize 0 0 0 0 false true], S Occupied)
              end);
      revng_assert (PointerSize <=? SizeCounter);;
      Ok (Padding, Occupied', if (Considered <? LastRegister)%nat then S Considered else Considered, SizeCounter - PointerSize)
    else Ok ([], Occupied, Considered, SizeCounter)
  else Ok ([], Occupied, Considered, SizeCounter).

(** Where the value goes once the registers have been considered: the value and
    the new number of occupied registers. *)
(* lib/ABI/FunctionType/ValueDistributor.cpp:108-158 ValueDistributor::distribute *)
Definition place (Size Alignment : Z) (HasNaturalAlignment CanUseRegisters ForbidSplitting : bool) (Rs : list Register.Values)
    (LastRegister Occupied Considered : nat) (SizeCounter : Z) (V : ValueDistributor) :
    outcome (DistributedValue * nat * ValueDistributor) :=
  let AllowSplitting := CanUseRegisters && negb ForbidSplitting && ArgumentsCanBeSplitBetweenRegistersAndStack D in
  let AllTheRegistersAreInUse := Nat.eqb Considered LastRegister in
  '(DA, Considered, Alignment, V) ←
    (if (Size <=? SizeCounter) && CanUseRegisters then
       Ok (mkDistributed (slice Rs Occupied Considered) Size 0 0 0 0 false false, Considered, Alignment, V)
     else if AllowSplitting && AllTheRegistersAreInUse && (0 <? SizeCounter) then
       OnStack ← paddedSizeOnStack D (wrap 64 (Size - SizeCounter));
       Ok (mkDistributed (slice Rs Occupied Considered) Size 0 (wrap 64 (OnStack - Size + SizeCounter)) OnStack (UsedStackOffset V) false false,
           Considered, Alignment, V)
     else
       let Alignment := if negb HasNaturalAlignment then MinimumStackArgumentSize D else Alignment in
       let Used := if PackStackArguments D && HasNaturalAlignment
                   then UsedStackOffset V - Z.min (UsedStackOffset V) (LastAddedStackPadding V) else UsedStackOffset V in
       PrePadded ← alignToPowerOf2 Used (Z.max (CurrentStackAlignment V) Alignment);
       revng_assert (Used <=? PrePadded);;
       OnStack ← paddedSizeOnStack D Size;
       Ok (mkDistributed [] Size (PrePadded - Used) (wrap 64 (OnStack - Size)) OnStack PrePadded false false,
           if NoRegisterArgumentsCanComeAfterStackOnes D then length Rs else Occupied, Alignment, withStack PrePadded V));
  Ok (DA, Considered, withLast Alignment (PostPaddingSize DA) (withStack (wrap 64 (UsedStackOffset V + SizeOnStack DA)) V)).

(* lib/ABI/FunctionType/ValueDistributor.cpp:14-158 ValueDistributor::distribute *)
Definition distribute (Size Alignment : Z) (HasNaturalAlignment : bool) (Rs : list Register.Values)
    (OccupiedRegisterCount : nat) (AllowedRegisterLimit : Z) (ForbidSplitting : bool) (V : ValueDistributor) :
    outcome (list DistributedValue * nat * ValueDistributor) :=
  let CanUseRegisters := HasNaturalAlignment || AllowPackedTypesInRegisters D in
  let LastRegister := Z.to_nat (Z.min (wrap 64 (Z.of_nat OccupiedRegisterCount + AllowedRegisterLimit)) (Z.of_nat (length Rs))) in
  '(Considered, SizeCounter) ← considerRegisters (length Rs) Rs LastRegister Size OccupiedRegisterCount 0;
  '(Padding, Occupied, Considered, SizeCounter) ←
    padRegisters Size Alignment Rs LastRegister OccupiedRegisterCount Considered SizeCounter;
  '(DA, Next, V) ← place Size Alignment HasNaturalAlignment CanUseRegisters ForbidSplitting Rs LastRegister Occupied Considered
                     SizeCounter V;
  Ok (Padding ++ [DA], Next, V).

(** A value of a type. *)
Context (B : list TypeDefinition) (fuel : nat).

Notation N := TypeNode.

(** The type's size, alignment and whether it is natural, all of which it must have. *)
(* lib/ABI/FunctionType/ValueDistributor.h:138-153 ValueDistributor::distribute *)
Definition measure (T : UpcastableType) : outcome (Z * Z * bool) :=
  '(_, Size) ← size B fuel T (freshVH false);
  '(Cache, Alignment) ← alignment D B fuel T ∅;
  '(_, Natural) ← hasNaturalAlignment D B fuel T Cache;
  match Size, Alignment, Natural with
  | Some s, Some a, Some n => Ok (s, a, n)
  | _, _, _ => undefined
  end.

(** ** Arguments *)

(* lib/ABI/FunctionType/ValueDistributor.h:161-176 ArgumentDistributor::addShadowPointerReturnValueLocationArgument *)
Definition addShadowPointerReturnValueLocationArgument (V : ValueDistributor) : outcome ValueDistributor :=
  revng_assert (Nat.eqb (ArgumentIndex V) 0);;
  let V := withIndex 1 V in
  if bool_decide (ReturnValueLocationRegister D ≠ Register.Invalid) then
    match GeneralPurposeArgumentRegisters D with
    | R :: _ =>
      if bool_decide (ReturnValueLocationRegister D = R) then
        revng_assert (Nat.eqb (UsedGeneralPurposeRegisterCount V) 0);; Ok (withGPRs 1 V)
      else Ok V
    | [] => Ok V
    end
  else if ReturnValueLocationOnStack D then
    PointerSize ← getPointerSize D;
    revng_assert (UsedStackOffset V mod PointerSize =? 0);;
    Ok (withStack (wrap 64 (UsedStackOffset V + PointerSize)) V)
  else Ok V.

(** The distributor the arguments start from. *)
(* lib/ABI/FunctionType/Layout.cpp:348-350 ToRawConverter::distributeArguments *)
Definition start (HasReturnValueLocationArgument : bool) : outcome ValueDistributor :=
  V ← make; if HasReturnValueLocationArgument then addShadowPointerReturnValueLocationArgument V else Ok V.

(* lib/ABI/FunctionType/ValueDistributor.h:221-225 ArgumentDistributor::nextPositionBasedIndex *)
Definition nextPositionBasedIndex (V : ValueDistributor) : nat :=
  Nat.max (Nat.max (UsedGeneralPurposeRegisterCount V) (UsedVectorRegisterCount V)) (ArgumentIndex V).

(* lib/ABI/FunctionType/ValueDistributor.h:194-210 ArgumentDistributor::canNextArgumentUseRegisters *)
Definition canNextArgumentUseRegisters (V : ValueDistributor) : bool :=
  let GPRCount := length (GeneralPurposeArgumentRegisters D) in
  let VectorCount := length (VectorArgumentRegisters D) in
  if ArgumentsArePositionBased D then (nextPositionBasedIndex V <? Nat.max GPRCount VectorCount)%nat
  else if Nat.eqb (UsedGeneralPurposeRegisterCount V) GPRCount && Nat.eqb (UsedVectorRegisterCount V) VectorCount then false
  else negb (NoRegisterArgumentsCanComeAfterStackOnes D && negb (UsedStackOffset V =? 0)).

(** Whether the new number of occupied registers makes sense. *)
(* lib/ABI/FunctionType/ValueDistributor.cpp:267-282 ArgumentDistributor::nonPositionBased *)
Definition verifyNextRegisterIndex (RegisterLimit : Z) (Rs : list Register.Values) (Current Next : nat) : bool :=
  Nat.eqb Current Next || ((Current <=? Next)%nat && (Z.of_nat Next <=? wrap 64 (Z.of_nat Current + RegisterLimit)))
  || Nat.eqb Next (length Rs) && NoRegisterArgumentsCanComeAfterStackOnes D.

(** A value that goes through [distribute]; [Vector] tells which counter and
    registers are used. *)
(* lib/ABI/FunctionType/ValueDistributor.cpp:247-287 ArgumentDistributor::nonPositionBased *)
Definition distributeArgument (IsScalar Vector : bool) (RegisterLimit Size Alignment : Z) (HasNaturalAlignment UsesPointerToCopy_ : bool)
    (V : ValueDistributor) : outcome (list DistributedValue * ValueDistributor) :=
  let HasNaturalAlignment := if TreatAllAggregatesAsPacked D && negb IsScalar then false else HasNaturalAlignment in
  let Rs := if Vector then VectorArgumentRegisters D else GeneralPurposeArgumentRegisters D in
  let Counter := if Vector then UsedVectorRegisterCount V else UsedGeneralPurposeRegisterCount V in
  '(Result, Next, V) ← distribute Size Alignment HasNaturalAlignment Rs Counter RegisterLimit Vector V;
  Result ← (if UsesPointerToCopy_ then
              match Result with
              | [DA] => Ok [mkDistributed (Registers DA) (Size_ DA) (PrePaddingSize DA) (PostPaddingSize DA) (SizeOnStack DA)
                              (OffsetOnStack DA) true (RepresentsPadding DA)]
              | _ => Fault AssertionFailed
              end
            else Ok Result);
  revng_assert (verifyNextRegisterIndex RegisterLimit Rs Counter Next);;
  let V := (if Vector then withVectors else withGPRs) Next V in
  Ok (Result, withIndex (S (ArgumentIndex V)) V).

(* lib/ABI/FunctionType/ValueDistributor.cpp:193-288 ArgumentDistributor::nonPositionBased *)
Definition nonPositionBased (IsScalar IsFloat : bool) (Size Alignment : Z) (HasNaturalAlignment : bool) (V : ValueDistributor) :
    outcome (list DistributedValue * ValueDistributor) :=
  if IsFloat && negb (FloatsUseGPRs D) then
    match VectorArgumentRegisters D !! UsedVectorRegisterCount V with
    | Some R => Ok ([mkDistributed [R] 0 0 0 0 0 false false], withVectors (S (UsedVectorRegisterCount V)) V)
    | None => distributeArgument IsScalar true 0 Size Alignment HasNaturalAlignment false V
    end
  else
    let RegisterLimit := if IsScalar then MaximumGPRsPerScalarArgument D else MaximumGPRsPerAggregateArgument D in
    PointerSize ← getPointerSize D;
    if BigArgumentsUsePointersToCopy D && (wrap 64 (PointerSize * RegisterLimit) <? Size) then
      distributeArgument IsScalar false RegisterLimit PointerSize PointerSize true true V
    else distributeArgument IsScalar false RegisterLimit Size Alignment HasNaturalAlignment false V.

(* lib/ABI/FunctionType/ValueDistributor.cpp:290-334 ArgumentDistributor::positionBased *)
Definition positionBased (IsFloat : bool) (Size : Z) (V : ValueDistributor) : outcome (list DistributedValue * ValueDistributor) :=
  PointerSize ← getPointerSize D;
  let ToCopy := PointerSize <? Size in
  let Size := if ToCopy then PointerSize else Size in
  let UseVR := negb (FloatsUseGPRs D) && (IsFloat && negb ToCopy) in
  let Rs := if UseVR then VectorArgumentRegisters D else GeneralPurposeArgumentRegisters D in
  let Count := if UseVR then UsedVectorRegisterCount V else UsedGeneralPurposeRegisterCount V in
  let Index := nextPositionBasedIndex V in
  '(Result, V) ←
    match Rs !! Index with
    | Some R =>
      revng_assert (Count <=? Index)%nat;;
      Ok (mkDistributed [R] Size 0 0 0 0 ToCopy false, (if UseVR then withVectors else withGPRs) (S Index) V)
    | None =>
      Padded ← (if UsedStackOffset V =? 0 then Ok 0 else paddedSizeOnStack D (UsedStackOffset V));
      if negb (Padded =? UsedStackOffset V) then revng_abort else
      Ok (mkDistributed [] Size 0 0 PointerSize (UsedStackOffset V) ToCopy false, withStack (wrap 64 (UsedStackOffset V + PointerSize)) V)
    end;
  Ok ([Result], withIndex (S (ArgumentIndex V)) V).

(** What the distributor asks of the type of an argument. *)
Record Measured := mkMeasured { IsScalar : bool; IsFloat : bool; Bytes : Z; Aligned : Z; Natural : bool }.

(** What follows from that. *)
(* lib/ABI/FunctionType/ValueDistributor.h:180-191 ArgumentDistributor::nextArgument *)
Definition next (A : Measured) (V : ValueDistributor) : outcome (list DistributedValue * ValueDistributor) :=
  if ArgumentsArePositionBased D then positionBased (IsFloat A) (Bytes A) V
  else nonPositionBased (IsScalar A) (IsFloat A) (Bytes A) (Aligned A) (Natural A) V.

(* include/revng/Model/CommonTypeMethods.h:293-293 isFloatPrimitive *)
Definition isFloatPrimitive (T : UpcastableType) : outcome bool := isPrimitive B fuel (N T) PrimitiveKind.Float.

(** For a position based ABI only the kind and the size are looked at. *)
Definition measureArgument (T : UpcastableType) : outcome Measured :=
  Float ← isFloatPrimitive T;
  if ArgumentsArePositionBased D then
    '(_, Size) ← size B fuel T (freshVH false);
    match Size with Some s => Ok (mkMeasured false Float s 1 false) | None => undefined end
  else
    '(Size, Alignment, Natural) ← measure T;
    Scalar ← isScalar B fuel (N T);
    Ok (mkMeasured Scalar Float Size Alignment Natural).

(* lib/ABI/FunctionType/ValueDistributor.h:179-192 ArgumentDistributor::nextArgument *)
Definition nextArgument (T : UpcastableType) (V : ValueDistributor) : outcome (list DistributedValue * ValueDistributor) :=
  A ← measureArgument T; next A V.

(** ** Return values *)

(* include/revng/Model/CommonTypeMethods.h:287-287 isVoidPrimitive *)
Definition isVoidPrimitive (T : UpcastableType) : outcome bool := isPrimitive B fuel (N T) PrimitiveKind.Void.

(* lib/ABI/FunctionType/ValueDistributor.cpp:336-363 ReturnValueDistributor::returnValue *)
Definition returnValue (T : UpcastableType) (V : ValueDistributor) : outcome DistributedValue :=
  Void ← isVoidPrimitive T;
  revng_assert (negb Void);;
  Float ← isFloatPrimitive T;
  let Vectors := VectorReturnValueRegisters D in
  if Float && negb (FloatsUseGPRs D) && bool_decide (Vectors = []) then Ok voidReturnValue else
  '(Rs, Limit) ←
    (if Float && negb (FloatsUseGPRs D) then Ok (Vectors, 1)
     else Scalar ← isScalar B fuel (N T);
          Ok (GeneralPurposeReturnValueRegisters D,
              if (Scalar : bool) then MaximumGPRsPerScalarReturnValue D else MaximumGPRsPerAggregateReturnValue D));
  '(Size, Alignment, Natural_) ← measure T;
  '(Result, _, _) ← distribute Size Alignment Natural_ Rs 0 Limit true V;
  match Result with [DA] => Ok DA | _ => Fault AssertionFailed end.
End distribution.
