(* ===== verification/ValueDistribution.v ===== *)
(** * Properties of the distribution of values

    The registers given to the arguments of a function are different, the parts of
    the stack are disjoint, and there is room for every argument. *)

From S2P Require Import Prelude.
From stdpp Require Import gmap sorting.
From S2P Require Register.
From S2P Require CDataModel.
From S2P Require Import ABIDefinition.
From S2P Require ABIData.
From S2P Require Import ValueDistributor.

Local Open Scope Z_scope.


(** ** Lists of registers *)

Lemma slice_app Rs i j k : (i ≤ j ≤ k)%nat → slice Rs i j ++ slice Rs j k = slice Rs i k.
Proof.
  intros Hij. unfold slice. replace (k - i)%nat with ((j - i) + (k - j))%nat by lia.
  rewrite <-(take_take_drop (drop i Rs)), drop_drop. by replace (i + (j - i))%nat with j by lia.
Qed.

Lemma slice_nil Rs i : slice Rs i i = [].
Proof. unfold slice. by rewrite Nat.sub_diag. Qed.

Lemma slice_one Rs i R : Rs !! i = Some R → slice Rs i (S i) = [R].
Proof. intros H. unfold slice. replace (S i - i)%nat with 1%nat by lia. by rewrite (drop_S _ R i). Qed.

Lemma slice_lookup Rs i k j R : slice Rs i k !! j = Some R ↔ Rs !! (i + j)%nat = Some R ∧ (i + j < k)%nat.
Proof.
  unfold slice. rewrite lookup_take_Some, lookup_drop. split; intros [? ?]; (split; [done|lia]).
Qed.

Lemma elem_of_slice Rs i k R : R ∈ slice Rs i k ↔ ∃ j, Rs !! j = Some R ∧ (i ≤ j < k)%nat.
Proof.
  rewrite list_elem_of_lookup. setoid_rewrite slice_lookup. split.
  - intros (j & H1 & H2). exists (i + j)%nat. split; [done|lia].
  - intros (j & H1 & H2). exists (j - i)%nat. replace (i + (j - i))%nat with j by lia. split; [done|lia].
Qed.

Lemma slice_NoDup Rs i k : NoDup Rs → NoDup (slice Rs i k).
Proof. rewrite !NoDup_alt. setoid_rewrite slice_lookup. intros H a b R [Ha _] [Hb _]. specialize (H _ _ _ Ha Hb). lia. Qed.

Lemma getSize_positive R s : Register.getSize R = Ok s → 0 < s ≤ 64.
Proof. destruct R; cbn; intros [= <-]; lia. Qed.

(** ** Registers *)

(** The registers of the values, in order. *)
Definition registersOf (rs : list DistributedValue) : list Register.Values := rs ≫= Registers.

Section registers.
  Context `{LLVMAlign} (D : Definition_).

Lemma considerRegisters_inv n Rs L Sz C SC C' SC' :
  considerRegisters n Rs L Sz C SC = Ok (C', SC') → (C ≤ C')%nat ∧ (C' = C ∨ C' ≤ L ∧ C' ≤ length Rs)%nat.
Proof.
  revert C SC. induction n as [|n IH]; intros C SC; cbn; [intros [= <- <-]; lia|].
  destruct (_ && _) eqn:E; [|intros [= <- <-]; lia]. destruct (Rs !! C) as [R|]; [|done].
  intros (s & _ & HI%IH)%bind_inv. apply andb_true_iff in E as [[_ E1%Nat.ltb_lt]%andb_true_iff E2%Nat.ltb_lt]. lia.
Qed.

Lemma padRegisters_inv Sz A Rs L O C SC P O' C' SC' :
  (O ≤ C ≤ length Rs)%nat → (C = O ∨ C ≤ L)%nat → (L ≤ length Rs)%nat →
  padRegisters D Sz A Rs L O C SC = Ok (P, O', C', SC') →
  registersOf P = slice Rs O O' ∧ (O ≤ O' ≤ C')%nat ∧ (C' ≤ length Rs)%nat ∧ Forall (λ d, SizeOnStack d = 0) P.
Proof.
  intros HC HL HR. unfold padRegisters.
  assert (Ok (@nil DistributedValue, O, C, SC) = Ok (P, O', C', SC') →
    registersOf P = slice Rs O O' ∧ (O ≤ O' ≤ C')%nat ∧ (C' ≤ length Rs)%nat ∧ Forall (λ d, SizeOnStack d = 0) P) as Hnone.
  { intros [= <- <- <- _]. rewrite slice_nil. split_and!; [done|lia|lia|lia|constructor]. }
  destruct (OnlyStartDoubleArgumentsFromAnEvenRegister D); [|apply Hnone]. intros (P0 & _ & H1)%bind_inv.
  destruct (_ && _ && _) eqn:E; [|by apply Hnone]. apply andb_true_iff in E as [[_ E%negb_true_iff%Nat.eqb_neq]%andb_true_iff _].
  apply bind_inv in H1 as ([P1 O1] & HP & H1). apply assert_inv in H1 as [_ [= <- <- <- _]].
  assert (C ≤ (if (C <? L)%nat then S C else C) ∧ (if (C <? L)%nat then S C else C) ≤ length Rs)%nat as HC'
    by (destruct (Nat.ltb_spec C L); lia).
  destruct (Nat.eqb _ _).
  - injection HP as <- <-. rewrite slice_nil. split_and!; [done|lia|lia|lia|constructor].
  - destruct (Rs !! O) as [R|] eqn:ER; [|done]. injection HP as <- <-. rewrite (slice_one _ _ R ER).
    split_and!; [done|lia|lia|lia|by constructor].
Qed.

Lemma place_registers Sz A Nat_ Can Forbid Rs L O C SC V DA Next V' :
  (O ≤ C ≤ length Rs)%nat → place D Sz A Nat_ Can Forbid Rs L O C SC V = Ok (DA, Next, V') →
  ∃ k, Registers DA = slice Rs O k ∧ (O ≤ k ≤ Next)%nat ∧ (Next ≤ length Rs)%nat ∧
    UsedGeneralPurposeRegisterCount V' = UsedGeneralPurposeRegisterCount V ∧ UsedVectorRegisterCount V' = UsedVectorRegisterCount V.
Proof.
  intros HC H1. apply bind_inv in H1 as ([[[DA0 C0] A0] V0] & HP & [= <- <- <-]). destruct (_ && Can).
  { injection HP as <- <- _ <-. exists C. by split_and!; [|lia..| |]. }
  destruct (_ && _ && _).
  { apply bind_inv in HP as (s & _ & [= <- <- _ <-]). exists C. by split_and!; [|lia..| |]. }
  apply bind_inv in HP as (p & _ & HP). apply assert_inv in HP as [_ HP]. apply bind_inv in HP as (s & _ & [= <- <- _ <-]).
  exists O. cbn. rewrite slice_nil. destruct (NoRegisterArgumentsCanComeAfterStackOnes D); by split_and!; [|lia..| |].
Qed.

(** The registers of a value and of the padding before it are the next ones of the
    list. *)
Lemma distribute_registers Sz A Nat_ Rs O Limit Forbid V P Next V' :
  (O ≤ length Rs)%nat → distribute D Sz A Nat_ Rs O Limit Forbid V = Ok (P, Next, V') →
  ∃ k, registersOf P = slice Rs O k ∧ (O ≤ k ≤ Next)%nat ∧ (Next ≤ length Rs)%nat ∧
    UsedGeneralPurposeRegisterCount V' = UsedGeneralPurposeRegisterCount V ∧ UsedVectorRegisterCount V' = UsedVectorRegisterCount V.
Proof.
  intros HO H1. apply bind_inv in H1 as ([C1 SC1] & HC & H1). apply considerRegisters_inv in HC as [HC1 HC2].
  set (L := Z.to_nat _) in *. assert (L ≤ length Rs)%nat as HL by (subst L; lia).
  apply bind_inv in H1 as ([[[P0 O2] C2] SC2] & HP & H1). apply padRegisters_inv in HP as (R1 & R2 & R3 & _); [|lia..].
  apply bind_inv in H1 as ([[DA N0] V0] & HD & [= <- <- <-]). apply place_registers in HD as (k & Q1 & Q2 & Q3 & Q4); [|lia].
  exists k. unfold registersOf in *. rewrite bind_app, R1. cbn. rewrite app_nil_r, Q1, slice_app by lia. split_and!; [done|lia..|apply Q4|apply Q4].
Qed.

(** The counters are within the lists. *)
Definition inRange (V : ValueDistributor) : Prop :=
  (UsedGeneralPurposeRegisterCount V ≤ length (GeneralPurposeArgumentRegisters D))%nat ∧
  (UsedVectorRegisterCount V ≤ length (VectorArgumentRegisters D))%nat.

Definition listOf (Vector : bool) : list Register.Values :=
  if Vector then VectorArgumentRegisters D else GeneralPurposeArgumentRegisters D.

Definition counterOf (Vector : bool) (V : ValueDistributor) : nat :=
  if Vector then UsedVectorRegisterCount V else UsedGeneralPurposeRegisterCount V.

(** What an argument does to the registers: it is given the next ones of one of the
    lists, and the counters tell so. *)
Definition usesNext (rs : list DistributedValue) (V V' : ValueDistributor) : Prop :=
  inRange V' ∧ ∃ Vector i k, registersOf rs = slice (listOf Vector) i k ∧
    (counterOf Vector V ≤ i ≤ k)%nat ∧ (k ≤ counterOf Vector V')%nat ∧ counterOf (negb Vector) V = counterOf (negb Vector) V'.

Lemma distributeArgument_registers Scalar Vector Limit Sz A Nat_ Copy V rs V' :
  inRange V → distributeArgument D Scalar Vector Limit Sz A Nat_ Copy V = Ok (rs, V') → usesNext rs V V'.
Proof.
  intros HV H1. apply bind_inv in H1 as ([[P Next] V0] & HD & H1). apply bind_inv in H1 as (rs0 & HR & H1).
  apply assert_inv in H1 as [_ [= <- <-]].
  assert (registersOf rs0 = registersOf P) as Heq by (destruct Copy; [destruct P as [|? []]; try done; by injection HR as <-|by injection HR as ->]).
  apply distribute_registers in HD as (k & Q1 & Q2 & Q3 & Q4 & Q5); [|unfold inRange in HV; destruct Vector; lia].
  unfold inRange in HV. split.
  - unfold inRange. destruct Vector; cbn in *; rewrite ?Q4, ?Q5; lia.
  - exists Vector, (counterOf Vector V), k. split; [by rewrite Heq, Q1; destruct Vector|]. destruct Vector; cbn in *; rewrite ?Q4, ?Q5; split_and!; (lia || done).
Qed.

Lemma next_registers A V rs V' : inRange V → next D A V = Ok (rs, V') → usesNext rs V V'.
Proof.
  intros HV. unfold next. destruct (ArgumentsArePositionBased D).
  - intros (p & _ & H1)%bind_inv. apply bind_inv in H1 as ([DA V0] & HP & [= <- <-]).
    set (UseVR := negb (FloatsUseGPRs D) && _) in *. change (if UseVR then VectorArgumentRegisters D else _) with (listOf UseVR) in HP.
    unfold inRange in HV. assert (∀ b, counterOf b V ≤ nextPositionBasedIndex V)%nat as Hn by (intros []; unfold nextPositionBasedIndex; cbn; lia).
    destruct (listOf UseVR !! nextPositionBasedIndex V) as [R|] eqn:E.
    + apply assert_inv in HP as [_ [= <- <-]]. assert (nextPositionBasedIndex V < length (listOf UseVR))%nat as HL by by eapply lookup_lt_Some.
      split; [clearbody UseVR; unfold inRange; destruct UseVR; cbn in *; lia|]. clearbody UseVR. exists UseVR, (nextPositionBasedIndex V), (S (nextPositionBasedIndex V)).
      rewrite (slice_one _ _ R E). specialize (Hn UseVR). destruct UseVR; cbn in *; split_and!; (lia || done).
    + clearbody UseVR. apply bind_inv in HP as (q & _ & HP). destruct (negb _); [done|]. injection HP as <- <-. split; [done|].
      exists UseVR, (counterOf UseVR V), (counterOf UseVR V). rewrite slice_nil. destruct UseVR; cbn; split_and!; (lia || done).
  - unfold nonPositionBased. destruct (_ && _).
    + destruct (VectorArgumentRegisters D !! _) as [R|] eqn:E; [|by apply distributeArgument_registers].
      intros [= <- <-]. apply lookup_lt_Some in E as HL. unfold inRange in HV. split; [unfold inRange; cbn; lia|].
      exists true, (UsedVectorRegisterCount V), (S (UsedVectorRegisterCount V)). cbn [listOf]. rewrite (slice_one _ _ R E). cbn. split_and!; (lia || done).
    + intros (p & _ & H1)%bind_inv. destruct (_ && _); by eapply distributeArgument_registers.
Qed.
End registers.

(** ** ABIs *)

(** What the distribution asks of the definition of an ABI; a definition that
    verifies may lack some of it. [P] is the size of a pointer. *)
Definition soundABI (D : Definition_) : bool :=
  match getPointerSize D with
  | Fault _ => false
  | Ok P =>
    let GPRs := GeneralPurposeArgumentRegisters D in
    let VRs := VectorArgumentRegisters D in
    ((P =? 4) || (P =? 8)) &&
    CDataModel.hasSingleBit (MinimumStackArgumentSize D) && (0 <? MinimumStackArgumentSize D) && (MinimumStackArgumentSize D <=? 64) &&
    (0 <=? UnusedStackArgumentBytes D) && (UnusedStackArgumentBytes D <=? 64) &&
    (UnusedStackArgumentBytes D mod P =? 0) &&
    (if ArgumentsArePositionBased D then MinimumStackArgumentSize D =? P else true) &&
    forallb (λ n, (0 <=? n) && (n <=? 64)) [MaximumGPRsPerScalarArgument D; MaximumGPRsPerAggregateArgument D] &&
    bool_decide (ReturnValueLocationRegister D ∉ tail GPRs ++ VRs) &&
    bool_decide (NoDup (GPRs ++ VRs)) && (length GPRs <=? 64)%nat && (length VRs <=? 64)%nat &&
    forallb (λ R, bool_decide (Register.getSize R = Ok P)) GPRs &&
    forallb (λ R, match Register.getSize R with Ok s => P <=? s | Fault _ => false end) VRs
  end.

Record Sound (D : Definition_) (P : Z) : Prop := {
  sound_pointer : getPointerSize D = Ok P;
  sound_power : P = 4 ∨ P = 8;
  sound_minimum : ∃ m, 0 ≤ m ≤ 6 ∧ MinimumStackArgumentSize D = 2 ^ m;
  sound_unused : 0 ≤ UnusedStackArgumentBytes D ≤ 64;
  sound_multiple : (P | UnusedStackArgumentBytes D);
  sound_positions : ArgumentsArePositionBased D = true → MinimumStackArgumentSize D = P;
  sound_scalars : 0 ≤ MaximumGPRsPerScalarArgument D ≤ 64;
  sound_aggregates : 0 ≤ MaximumGPRsPerAggregateArgument D ≤ 64;
  sound_location : ReturnValueLocationRegister D ∉ tail (GeneralPurposeArgumentRegisters D) ++ VectorArgumentRegisters D;
  sound_NoDup : NoDup (GeneralPurposeArgumentRegisters D ++ VectorArgumentRegisters D);
  sound_lengths : (length (GeneralPurposeArgumentRegisters D) ≤ 64 ∧ length (VectorArgumentRegisters D) ≤ 64)%nat;
  sound_GPRs R : R ∈ GeneralPurposeArgumentRegisters D → Register.getSize R = Ok P;
  sound_VRs R : R ∈ VectorArgumentRegisters D → ∃ s, Register.getSize R = Ok s ∧ P ≤ s;
}.

Lemma soundABI_spec D : soundABI D = true → ∃ P, Sound D P.
Proof.
  unfold soundABI. destruct (getPointerSize D) as [P|] eqn:HP; [|done]. rewrite !andb_true_iff, !forallb_forall, !Z.leb_le, !Nat.leb_le, Z.ltb_lt.
  intros [[[[[[[[[[[[[[H1 H2] H3] H4] H5] H6] H14] H7] H8] H15] H9] H10] H11] H12] H13]. exists P.
  assert (∀ n, In n [MaximumGPRsPerScalarArgument D; MaximumGPRsPerAggregateArgument D] → 0 ≤ n ≤ 64) as H8'
    by (intros n [Hl%Z.leb_le Hu%Z.leb_le]%H8%andb_true_iff; lia).
  split; [done| | |lia| | |apply H8'; by left|apply H8'; by right; left|by apply bool_decide_eq_true in H15|by apply bool_decide_eq_true in H9|done| |].
  - apply orb_true_iff in H1 as [?%Z.eqb_eq|?%Z.eqb_eq]; auto.
  - apply CDataModel.hasSingleBit_pow in H2 as (m & Hm & H2); [|unfold in_width; lia]. exists m. split; [|done]. split; [lia|].
    destruct (Z.le_gt_cases m 6) as [|Hgt]; [done|]. pose proof (Z.pow_lt_mono_r 2 6 m). lia.
  - apply Z.eqb_eq in H14. apply Z.mod_divide; [|done]. apply orb_true_iff in H1 as [?%Z.eqb_eq|?%Z.eqb_eq]; lia.
  - intros HPos. rewrite HPos in H7. by apply Z.eqb_eq.
  - intros R HR. by apply list_elem_of_In, H12, bool_decide_eq_true in HR.
  - intros R HR. apply list_elem_of_In, H13 in HR. destruct (Register.getSize R) as [s|]; [|done]. exists s. split; [done|lia].
Qed.

(** Arguments whose size and alignment leave room for the arithmetic. *)
Definition fits (A : Measured) : bool :=
  (0 <? Bytes A) && (Bytes A <? 2 ^ 32) && CDataModel.hasSingleBit (Aligned A) && (0 <=? Aligned A) && (Aligned A <? 2 ^ 32).

(** ** Stack *)

Section stack.
  Context `{LLVMAlign} (D : Definition_) (P : Z) (HD : Sound D P).

(** The bytes of registers. *)
Definition bytes (Rs : list Register.Values) : Z :=
  foldr (λ R s, match Register.getSize R with Ok x => x + s | Fault _ => s end) 0 Rs.

(** Where the free part of the stack begins, and where the data of a value ends: the
    padding after a value is free when arguments are packed. *)
Definition low (V : ValueDistributor) : Z :=
  UsedStackOffset V - (if PackStackArguments D then Z.min (UsedStackOffset V) (LastAddedStackPadding V) else 0).

Definition dataEnd (d : DistributedValue) : Z :=
  OffsetOnStack d + SizeOnStack d - (if PackStackArguments D then PostPaddingSize d else 0).

(** The state after [n] arguments. *)
Record stackInv (n : Z) (V : ValueDistributor) : Prop := {
  inv_bound : 0 ≤ UsedStackOffset V ≤ (n + 1) * 2 ^ 34;
  inv_alignment : CurrentStackAlignment V = 0 ∨ ∃ c, 0 ≤ c ≤ 32 ∧ CurrentStackAlignment V = 2 ^ c;
  inv_padding : 0 ≤ LastAddedStackPadding V;
  inv_positions : ArgumentsArePositionBased D = true → LastAddedStackPadding V = 0 ∧ (P | UsedStackOffset V);
}.

(** A value has room in its registers and on the stack, where it takes free space. *)
Record valueOk (V V' : ValueDistributor) (d : DistributedValue) : Prop := {
  ok_size : Size_ d ≤ bytes (Registers d) + SizeOnStack d - PostPaddingSize d;
  ok_padding : 0 ≤ PostPaddingSize d ≤ SizeOnStack d;
  ok_span : SizeOnStack d ≠ 0 → low V ≤ OffsetOnStack d < dataEnd d ∧ dataEnd d ≤ low V';
  ok_bound : SizeOnStack d ≠ 0 → OffsetOnStack d + SizeOnStack d < 2 ^ 63;
}.

Lemma bytes_app Rs Ts : bytes (Rs ++ Ts) = bytes Rs + bytes Ts.
Proof. unfold bytes. induction Rs as [|R Rs IH]; cbn; [done|]. destruct (Register.getSize R); lia. Qed.

Lemma bytes_nonneg Rs : 0 ≤ bytes Rs.
Proof. unfold bytes. induction Rs as [|R Rs IH]; cbn; [done|]. destruct (Register.getSize R) eqn:E; [|lia]. apply getSize_positive in E. lia. Qed.

Lemma bytes_nil : bytes [] = 0.
Proof. done. Qed.

Arguments bytes : simpl never.

Lemma low_bounds n V : stackInv n V → 0 ≤ low V ≤ UsedStackOffset V.
Proof. intros [H1 _ H2 _]. unfold low. destruct (PackStackArguments D); lia. Qed.

Lemma paddedSize_ok s : 0 < s ≤ 2 ^ 33 → ∃ r, paddedSizeOnStack D s = Ok r ∧ s ≤ r < s + 64.
Proof using HD.
  intros Hs. destruct (sound_minimum _ _ HD) as (m & Hm & HM). unfold paddedSizeOnStack. rewrite HM.
  assert (2 ^ m ≤ 2 ^ 6) by (apply Z.pow_le_mono_r; lia).
  destruct (CDataModel.paddedSizeOnStack s (2 ^ m)) as [r|f] eqn:E.
  - exists r. split; [done|]. apply CDataModel.paddedSize_spec in E as [E _]; lia.
  - exfalso. revert E. unfold CDataModel.paddedSizeOnStack. rewrite CDataModel.pow_hasSingleBit by lia. cbn.
    destruct (Z.eqb_spec s 0); [lia|]. cbn. by destruct (_ <=? _).
Qed.

Lemma place_spec n Sz A Natural_ Can Forbid Rs L O C SC V :
  0 ≤ n < 2 ^ 28 → stackInv n V → ArgumentsArePositionBased D = false →
  0 < Sz < 2 ^ 32 → (∃ a, 0 ≤ a ≤ 32 ∧ A = 2 ^ a) → 0 ≤ SC ≤ bytes (slice Rs O C) →
  ∃ DA Next V', place D Sz A Natural_ Can Forbid Rs L O C SC V = Ok (DA, Next, V') ∧
    stackInv (n + 1) V' ∧ low V ≤ low V' ∧ valueOk V V' DA ∧ RepresentsPadding DA = false.
Proof using HD.
  intros Hn HV HPos HSz HA HSC. pose proof (low_bounds n V HV) as HL. destruct HV as [V1 V2 V3 _]. unfold place.
  destruct (_ && Can) eqn:E1.
  { apply andb_true_iff in E1 as [E1%Z.leb_le _]. rewrite bind_ok. do 3 eexists. split; [done|]. cbn.
    rewrite Z.add_0_r, wrap_small by (unfold in_width; lia). split_and!; [| | |done].
    - split; cbn; [lia|by right|lia|by rewrite HPos].
    - unfold low. cbn. destruct (PackStackArguments D); lia.
    - split; cbn; [lia|lia|done|done]. }
  destruct (_ && _ && _) eqn:E2.
  { apply andb_true_iff in E2 as [[[[E2 _]%andb_true_iff _]%andb_true_iff _]%andb_true_iff E3%Z.ltb_lt].
    rewrite E2, andb_true_r in E1. apply Z.leb_gt in E1. rewrite (wrap_small 64 (Sz - SC)) by (unfold in_width; lia).
    destruct (paddedSize_ok (Sz - SC)) as (r & -> & Hr); [lia|]. rewrite !bind_ok. do 3 eexists. split; [done|]. cbn.
    rewrite (wrap_small 64 (r - Sz + SC)), (wrap_small 64 (_ + r)) by (unfold in_width; lia). split_and!; [| | |done].
    - split; cbn; [lia|by right|lia|by rewrite HPos].
    - unfold low. cbn. destruct (PackStackArguments D); lia.
    - split; cbn; [lia|lia|intros _|lia]. unfold low, dataEnd. cbn. unfold low in HL. destruct (PackStackArguments D); lia. }
  set (A' := if negb Natural_ then MinimumStackArgumentSize D else A).
  set (Used := if PackStackArguments D && Natural_ then _ else _).
  assert (low V ≤ Used ≤ UsedStackOffset V) as HU by (subst Used; unfold low in *; destruct (PackStackArguments D), Natural_; cbn; lia).
  assert (∃ a, 0 ≤ a ≤ 32 ∧ A' = 2 ^ a) as HA'.
  { destruct (sound_minimum _ _ HD) as (m & Hm & HM). subst A'. destruct (negb Natural_); [|done]. exists m. split; [lia|done]. }
  assert (∃ k, 0 ≤ k ≤ 32 ∧ Z.max (CurrentStackAlignment V) A' = 2 ^ k) as (k & Hk & HM).
  { destruct HA' as (a & Ha & ->). destruct V2 as [->|(c & Hc & ->)]; [exists a; split; [lia|]; apply Z.max_r, Z.pow_nonneg; lia|].
    destruct (Z.max_spec (2 ^ c) (2 ^ a)) as [[_ ->]|[_ ->]]; eauto. }
  assert (2 ^ k ≤ 2 ^ 32) by (apply Z.pow_le_mono_r; lia). assert (0 < 2 ^ k) by (apply Z.pow_pos_nonneg; lia).
  unfold alignToPowerOf2. rewrite HM, CDataModel.pow_hasSingleBit by lia. cbn [revng_assert]. rewrite !bind_ok.
  destruct (alignTo_spec Used (2 ^ k)) as [_ Hal]; [by exists k; split; [lia|]|unfold in_width; lia|].
  rewrite (proj2 (Z.leb_le _ _)) by lia. cbn [revng_assert]. rewrite bind_ok.
  destruct (paddedSize_ok Sz) as (r & -> & Hr); [lia|]. rewrite !bind_ok. do 3 eexists. split; [done|]. cbn.
  rewrite (wrap_small 64 (r - Sz)), (wrap_small 64 (_ + r)) by (unfold in_width; lia). split_and!; [| | |done].
  - split; cbn; [lia|by right|lia|by rewrite HPos].
  - unfold low at 2. cbn. destruct (PackStackArguments D); lia.
  - split; cbn; [change (bytes []) with 0; lia|lia|intros _|lia]. unfold low at 2. unfold dataEnd. cbn. destruct (PackStackArguments D); lia.
Qed.


Lemma bytes_mono Rs i j k : (i ≤ j ≤ k)%nat → bytes (slice Rs i j) ≤ bytes (slice Rs i k).
Proof. intros Hij. rewrite <-(slice_app Rs i j k), bytes_app by done. pose proof (bytes_nonneg (slice Rs j k)). lia. Qed.

Lemma considerRegisters_spec n Rs L Sz C SC :
  (∀ R, R ∈ Rs → ∃ s, Register.getSize R = Ok s) → Sz < 2 ^ 32 → 0 ≤ SC →
  ∃ C' SC', considerRegisters n Rs L Sz C SC = Ok (C', SC') ∧ (C ≤ C')%nat ∧ (C' = C ∨ C' ≤ L ∧ C' ≤ length Rs)%nat ∧
    SC' = SC + bytes (slice Rs C C').
Proof.
  intros HR HSz. revert C SC. induction n as [|n IH]; intros C SC HSC; cbn [considerRegisters].
  { exists C, SC. rewrite slice_nil, bytes_nil. split_and!; [done|lia|by left|lia]. }
  destruct (_ && _) eqn:E; [|exists C, SC; rewrite slice_nil, bytes_nil; split_and!; [done|lia|by left|lia]].
  apply andb_true_iff in E as [[E0%Z.ltb_lt E1%Nat.ltb_lt]%andb_true_iff E2%Nat.ltb_lt].
  destruct (lookup_lt_is_Some_2 Rs C E1) as [R ER]. rewrite ER. destruct (HR R) as [s Hs]; [by eapply list_elem_of_lookup_2|].
  rewrite Hs, bind_ok. apply getSize_positive in Hs as Hp. rewrite wrap_small by (unfold in_width; lia).
  destruct (IH (S C) (SC + s)) as (C' & SC' & -> & H1 & H2 & ->); [lia|]. exists C'. eexists. split_and!; [done|lia|lia|].
  rewrite <-(slice_app Rs C (S C) C'), bytes_app, (slice_one _ _ _ ER) by lia. unfold bytes at 2. cbn. rewrite Hs. lia.
Qed.

Lemma padRegisters_spec Sz A Rs L O C :
  (O ≤ C ≤ length Rs)%nat → (L ≤ length Rs)%nat → (C = O ∨ (∀ R, R ∈ Rs → Register.getSize R = Ok P) ∨ Nat.odd O = false) →
  ∃ Pads O' C' SC', padRegisters D Sz A Rs L O C (bytes (slice Rs O C)) = Ok (Pads, O', C', SC') ∧
    (Sz ≤ P → A ≤ P → Pads = []) ∧ (Nat.odd O = false → Pads = []) ∧ 0 ≤ SC' ≤ bytes (slice Rs O' C') ∧ (C' = C ∨ C' ≤ L)%nat ∧
    Forall (λ d, RepresentsPadding d = true ∧ SizeOnStack d = 0 ∧ PostPaddingSize d = 0 ∧ Size_ d = bytes (Registers d)) Pads.
Proof using HD.
  intros HO HL HR. unfold padRegisters. pose proof (bytes_nonneg (slice Rs O C)) as HB.
  destruct (OnlyStartDoubleArgumentsFromAnEvenRegister D); [|do 4 eexists; by split_and!; [reflexivity|done|done|lia..|left|constructor]].
  rewrite (sound_pointer _ _ HD), bind_ok. destruct (_ && _ && _) eqn:E; [|do 4 eexists; by split_and!; [reflexivity|done|done|lia..|left|constructor]].
  apply andb_true_iff in E as [[E1 E%negb_true_iff%Nat.eqb_neq]%andb_true_iff Eodd]. destruct HR as [->|[HR|HR]]; [done| |congruence].
  assert (Sz ≤ P → A ≤ P → False) as HF.
  { intros ??. apply orb_true_iff in E1 as [[]%andb_true_iff|[]%andb_true_iff]; rewrite ?Z.ltb_lt, ?Z.leb_le in *; lia. }
  destruct (lookup_lt_is_Some_2 Rs O) as [R ER]; [lia|]. assert (Register.getSize R = Ok P) as HP by (by eapply HR, list_elem_of_lookup_2).
  assert (bytes (slice Rs O C) = P + bytes (slice Rs (S O) C)) as Hb.
  { rewrite <-(slice_app Rs O (S O) C), bytes_app, (slice_one _ _ _ ER) by lia. unfold bytes at 1. cbn. rewrite HP. lia. }
  set (C' := if (C <? L)%nat then S C else C). assert (C ≤ C' ∧ (C' = C ∨ C' ≤ L))%nat as [HC1 HC2] by (subst C'; destruct (Nat.ltb_spec C L); lia).
  pose proof (bytes_nonneg (slice Rs (S O) C)). pose proof (sound_power _ _ HD).
  destruct (Nat.eqb _ _); rewrite ?ER, bind_ok, (proj2 (Z.leb_le _ _)) by lia; cbn [revng_assert]; rewrite bind_ok;
    do 4 eexists; (split; [done|]).
  - split_and!; [intros; exfalso; by apply HF|intros; congruence|lia| |done|constructor]. pose proof (bytes_mono Rs O C C'). lia.
  - split_and!; [intros; exfalso; by apply HF|intros; congruence|lia| |done|]. { pose proof (bytes_mono Rs (S O) C C'). lia. }
    repeat constructor. unfold bytes. cbn. rewrite HP. lia.
Qed.

Lemma place_next Sz A Natural_ Can Forbid Rs L O C SC V DA Next V' :
  place D Sz A Natural_ Can Forbid Rs L O C SC V = Ok (DA, Next, V') →
  Next = C ∨ Next = O ∨ Next = length Rs ∧ NoRegisterArgumentsCanComeAfterStackOnes D = true.
Proof.
  intros H1. apply bind_inv in H1 as ([[[DA0 C0] A0] V0] & HP & [= _ <- _]). destruct (_ && Can).
  { injection HP as _ <- _ _. by left. }
  destruct (_ && _ && _).
  { apply bind_inv in HP as (s & _ & [= _ <- _ _]). by left. }
  apply bind_inv in HP as (p & _ & HP). apply assert_inv in HP as [_ HP]. apply bind_inv in HP as (s & _ & [= _ <- _ _]).
  destruct (NoRegisterArgumentsCanComeAfterStackOnes D); naive_solver.
Qed.

(** Padding, and the value itself. *)
Definition oneValue (rs : list DistributedValue) : Prop :=
  ∃ Pads d, rs = Pads ++ [d] ∧ Forall (λ d, RepresentsPadding d = true ∧ SizeOnStack d = 0) Pads ∧ RepresentsPadding d = false.

(** A step of the distribution, which succeeds. *)
Record stepOk (n : Z) (V V' : ValueDistributor) (rs : list DistributedValue) : Prop := {
  step_inv : stackInv (n + 1) V';
  step_low : low V ≤ low V';
  step_values : Forall (valueOk V V') rs;
  step_one : oneValue rs;
}.

Lemma distribute_spec n Sz A Natural_ Rs O Limit Forbid V :
  0 ≤ n < 2 ^ 28 → stackInv n V → ArgumentsArePositionBased D = false → 0 < Sz < 2 ^ 32 → (∃ a, 0 ≤ a ≤ 32 ∧ A = 2 ^ a) →
  (O ≤ length Rs ≤ 64)%nat → 0 ≤ Limit ≤ 64 → (∀ R, R ∈ Rs → ∃ s, Register.getSize R = Ok s) →
  (Limit = 0 ∨ (∀ R, R ∈ Rs → Register.getSize R = Ok P) ∨ Nat.odd O = false) →
  ∃ rs Next V', distribute D Sz A Natural_ Rs O Limit Forbid V = Ok (rs, Next, V') ∧ stepOk n V V' rs ∧
    ((Sz ≤ P ∧ A ≤ P ∨ Nat.odd O = false) → length rs = 1%nat) ∧
    verifyNextRegisterIndex D Limit Rs O Next = true.
Proof using HD.
  intros Hn HV HPos HSz HA HO HLim HR HP. unfold distribute.
  rewrite (wrap_small 64 (Z.of_nat O + Limit)) by (unfold in_width; lia). set (L := Z.to_nat _).
  destruct (considerRegisters_spec (length Rs) Rs L Sz O 0%Z) as (C1 & SC1 & -> & C2 & C3 & ->); [done|lia|lia|]. rewrite bind_ok, Z.add_0_l.
  assert (L ≤ length Rs ∧ L ≤ O + Z.to_nat Limit ∧ (L ≤ O → Limit = 0%Z ∨ O = length Rs))%nat as (HL1 & HL2 & HL3) by (subst L; lia).
  destruct (padRegisters_spec Sz A Rs L O C1) as (Pads & O' & C' & SC' & HPd & P2 & P2' & P3 & P4 & P5); [lia|lia|destruct HP as [->|]; [left; lia|by right]|].
  apply padRegisters_inv in HPd as Hpr; [|lia..]. destruct Hpr as (_ & Q2 & Q3 & _). rewrite HPd, bind_ok.
  destruct (place_spec n Sz A Natural_ (Natural_ || AllowPackedTypesInRegisters D) Forbid Rs L O' C' SC' V) as (DA & Next & V' & HDA & S1 & S2 & S3 & S4); try done.
  rewrite HDA, bind_ok. do 3 eexists. split; [done|]. split_and!.
  - split; [done|done| |exists Pads, DA; split_and!; [done|eapply Forall_impl; [apply P5|naive_solver]|done]].
    apply Forall_app. split; [|by rewrite Forall_singleton]. eapply Forall_impl; [apply P5|]. intros d (_ & D1 & D2 & D3). split; lia.
  - intros [[??]|?]; [rewrite P2 by done|rewrite P2' by done]; done.
  - apply place_next in HDA. unfold verifyNextRegisterIndex. rewrite wrap_small by (unfold in_width; lia). apply orb_true_iff.
    assert ((Next = C' ∨ Next = O') ∨ Next = length Rs ∧ NoRegisterArgumentsCanComeAfterStackOnes D = true) as [HN|[-> HN]] by tauto;
      [left|right; by rewrite HN, Nat.eqb_refl].
    apply orb_true_iff. destruct (Nat.eqb_spec O Next); [by left|right]. apply andb_true_iff. rewrite Nat.leb_le, Z.leb_le. lia.
Qed.

Lemma stackInv_weaken n V V' :
  stackInv n V → UsedStackOffset V' = UsedStackOffset V → CurrentStackAlignment V' = CurrentStackAlignment V →
  LastAddedStackPadding V' = LastAddedStackPadding V → stackInv (n + 1) V'.
Proof. intros [H1 H2 H3 H4] E1 E2 E3. split; rewrite ?E1, ?E2, ?E3; by (lia || done). Qed.

Lemma oneValue_single d : RepresentsPadding d = false → oneValue [d].
Proof. intros Hd. exists [], d. by split_and!. Qed.

(** The same value, passed as a pointer to a copy. *)
Lemma distributeArgument_spec n Scalar Vector Limit Sz A Natural_ Copy V :
  0 ≤ n < 2 ^ 28 → stackInv n V → inRange D V → ArgumentsArePositionBased D = false → 0 < Sz < 2 ^ 32 →
  (∃ a, 0 ≤ a ≤ 32 ∧ A = 2 ^ a) → 0 ≤ Limit ≤ 64 → (Vector = true → Limit = 0) → (Copy = true → Sz ≤ P ∧ A ≤ P) →
  ∃ rs V', distributeArgument D Scalar Vector Limit Sz A Natural_ Copy V = Ok (rs, V') ∧ stepOk n V V' rs.
Proof using HD.
  intros Hn HV HR HPos HSz HA HLim HVec HCopy. unfold distributeArgument. set (Nat_ := if _ && _ then _ else _).
  pose proof (sound_lengths _ _ HD). unfold inRange in HR.
  destruct (distribute_spec n Sz A Nat_ (if Vector then VectorArgumentRegisters D else GeneralPurposeArgumentRegisters D)
    (if Vector then UsedVectorRegisterCount V else UsedGeneralPurposeRegisterCount V) Limit Vector V) as (rs & Next & V' & -> & S1 & S2 & S3); try done.
  { destruct Vector; lia. }
  { intros R HRs. destruct Vector; [destruct (sound_VRs _ _ HD R) as (s & ? & _)|eapply sound_GPRs in HRs]; eauto. }
  { destruct Vector; [left; by apply HVec|right; left]. intros R. by eapply sound_GPRs. }
  rewrite bind_ok. destruct Copy.
  - destruct HCopy as [C1 C2]; [done|]. destruct S1 as [I1 I2 I3 (Pads & d & -> & I4 & I5)].
    assert (Pads = []) as -> by (apply nil_length_inv; specialize (S2 (or_introl (conj C1 C2))); rewrite length_app in S2; cbn in S2; lia).
    rewrite app_nil_l, bind_ok, S3. cbn [revng_assert]. rewrite bind_ok. do 2 eexists. split; [done|].
    change (Forall (valueOk V V') [d]) in I3. rewrite Forall_singleton in I3. split; [|by destruct Vector| |by apply oneValue_single].
    + destruct Vector; destruct I1; by split.
    + rewrite Forall_singleton. destruct I3 as [J1 J2 J3 J4]. destruct Vector; by split.
  - rewrite bind_ok, S3. cbn [revng_assert]. rewrite bind_ok. do 2 eexists. split; [done|]. destruct S1 as [I1 I2 I3 I4].
    split; [destruct Vector; destruct I1; by split|by destruct Vector| |done].
    eapply Forall_impl; [apply I3|]. intros d []. destruct Vector; by split.
Qed.

Lemma padded_multiple s : ArgumentsArePositionBased D = true → (P | s) → 0 ≤ s < 2 ^ 63 →
  (if s =? 0 then Ok 0 else paddedSizeOnStack D s) = Ok s.
Proof using HD.
  intros HPos [q Hq] Hs. destruct (Z.eqb_spec s 0) as [->|Hn]; [done|]. unfold paddedSizeOnStack. rewrite (sound_positions _ _ HD HPos).
  assert (∃ k, 0 ≤ k ≤ 3 ∧ P = 2 ^ k) as (k & Hk & HP) by (destruct (sound_power _ _ HD) as [->| ->]; [by exists 2|by exists 3]). rewrite HP in *.
  assert (2 ^ k ≤ 2 ^ 3) by (apply Z.pow_le_mono_r; lia). assert (0 < 2 ^ k) by (apply Z.pow_pos_nonneg; lia).
  unfold CDataModel.paddedSizeOnStack. rewrite CDataModel.pow_hasSingleBit by lia. cbn [revng_assert]. rewrite bind_ok. destruct (Z.eqb_spec s 0); [lia|].
  cbn [negb revng_assert]. rewrite bind_ok. destruct (Z.leb_spec s (2 ^ k)).
  - f_equal. assert (q = 1) by nia. lia.
  - f_equal. rewrite wrap_small by (unfold in_width; lia). rewrite CDataModel.align_down by (done || unfold in_width; lia).
    rewrite Hq. replace (q * 2 ^ k + (2 ^ k - 1)) with ((2 ^ k - 1) + q * 2 ^ k) by lia. rewrite Z.mod_add, Z.mod_small by lia. lia.
Qed.

Lemma positionBased_spec n Float Sz V :
  0 ≤ n < 2 ^ 28 → stackInv n V → inRange D V → ArgumentsArePositionBased D = true → 0 < Sz →
  ∃ rs V', positionBased D Float Sz V = Ok (rs, V') ∧ stepOk n V V' rs.
Proof using HD.
  intros Hn HV HR HPos HSz. unfold positionBased. rewrite (sound_pointer _ _ HD), bind_ok. set (UseVR := negb _ && _).
  set (Sz' := if P <? Sz then P else Sz). assert (0 < Sz' ≤ P) as HSz' by (pose proof (sound_power _ _ HD); subst Sz'; destruct (Z.ltb_spec P Sz); lia).
  destruct (_ !! nextPositionBasedIndex V) as [R|] eqn:E.
  - assert (P ≤ bytes [R]) as HB.
    { apply list_elem_of_lookup_2 in E. clearbody UseVR. unfold bytes. cbn. destruct UseVR.
      - destruct (sound_VRs _ _ HD R E) as (s & -> & ?). lia.
      - rewrite (sound_GPRs _ _ HD R E). lia. }
    rewrite (proj2 (Nat.leb_le _ _)) by (unfold nextPositionBasedIndex; destruct UseVR; lia). cbn [revng_assert]. rewrite !bind_ok.
    do 2 eexists. split; [done|]. split; [by eapply stackInv_weaken; [done|destruct UseVR..]|by destruct UseVR| |by apply oneValue_single].
    rewrite Forall_singleton. split; cbn; [lia|lia|done|done].
  - destruct HV as [V1 V2 V3 V4]. destruct (V4 HPos) as [V5 V6]. rewrite padded_multiple, bind_ok, Z.eqb_refl by (done || lia). cbn [negb]. rewrite bind_ok.
    pose proof (sound_power _ _ HD). rewrite wrap_small by (unfold in_width; lia). do 2 eexists. split; [done|]. split.
    + split; cbn; [lia|done|done|intros _; split; [done|apply Z.divide_add_r; [done|done]]].
    + unfold low. cbn. destruct (PackStackArguments D); lia.
    + rewrite Forall_singleton. split; cbn; [rewrite bytes_nil; lia|lia|intros _|lia]. unfold low, dataEnd. cbn. rewrite V5. destruct (PackStackArguments D); lia.
    + by apply oneValue_single.
Qed.

Lemma next_spec n A V : 0 ≤ n < 2 ^ 28 → stackInv n V → inRange D V → fits A = true →
  ∃ rs V', next D A V = Ok (rs, V') ∧ stepOk n V V' rs.
Proof using HD.
  intros Hn HV HR HA. unfold fits in HA. rewrite !andb_true_iff, !Z.ltb_lt, Z.leb_le in HA. destruct HA as [[[[H1 H2] H3] H4] H5]. unfold next.
  destruct (ArgumentsArePositionBased D) eqn:HPos; [by apply positionBased_spec|]. unfold nonPositionBased.
  assert (∃ a, 0 ≤ a ≤ 32 ∧ Aligned A = 2 ^ a) as Hal.
  { destruct (CDataModel.hasSingleBit_pow (Aligned A)) as (a & Ha & HA); [unfold in_width; lia|done|]. exists a. split; [|done]. split; [lia|].
    destruct (Z.le_gt_cases a 32) as [|Hgt]; [done|]. pose proof (Z.pow_lt_mono_r 2 32 a). lia. }
  destruct (_ && _).
  { destruct (VectorArgumentRegisters D !! _) as [R|].
    - do 2 eexists. split; [done|]. split; [by eapply stackInv_weaken|done| |by apply oneValue_single].
      rewrite Forall_singleton. split; cbn; [pose proof (bytes_nonneg [R]); lia|lia|done|done].
    - by apply distributeArgument_spec. }
  rewrite (sound_pointer _ _ HD), bind_ok. pose proof (sound_power _ _ HD). pose proof (sound_scalars _ _ HD). pose proof (sound_aggregates _ _ HD).
  set (Limit := if IsScalar A then _ else _). assert (0 ≤ Limit ≤ 64) by (subst Limit; destruct (IsScalar A); lia).
  destruct (_ && _); apply distributeArgument_spec; try done; [lia|]. destruct (sound_power _ _ HD) as [->| ->]; [by exists 2|by exists 3].
Qed.
End stack.

(** ** What an argument is given *)

Section given.
  Context `{LLVMAlign} (D : Definition_) (P : Z) (HD : Sound D P).

(** Whether a pointer to a copy is passed in place of an argument. *)
Definition copied (A : Measured) : bool :=
  if ArgumentsArePositionBased D then P <? Bytes A
  else negb (IsFloat A && negb (FloatsUseGPRs D)) && BigArgumentsUsePointersToCopy D &&
    (P * (if IsScalar A then MaximumGPRsPerScalarArgument D else MaximumGPRsPerAggregateArgument D) <? Bytes A).

(** How many bytes have to be passed for an argument. *)
Definition needed (A : Measured) : Z := if copied A then P else Bytes A.

(** A float given a whole vector register: no size is recorded, nor compared with
    that of the register. *)
Definition wholeVector (A : Measured) (d : DistributedValue) : Prop :=
  ArgumentsArePositionBased D = false ∧ IsFloat A = true ∧ FloatsUseGPRs D = false ∧
  ∃ R, R ∈ VectorArgumentRegisters D ∧ d = mkDistributed [R] 0 0 0 0 0 false false.

(** Padding registers and then a value of a size. *)
Definition lastOf (Copy : bool) (Sz : Z) (rs : list DistributedValue) : Prop :=
  ∃ Pads d, rs = Pads ++ [d] ∧ UsesPointerToCopy d = Copy ∧ Size_ d = Sz.

Lemma place_last Sz A Nat_ Can Forbid Rs L O C SC V DA Next V' :
  place D Sz A Nat_ Can Forbid Rs L O C SC V = Ok (DA, Next, V') → UsesPointerToCopy DA = false ∧ Size_ DA = Sz.
Proof.
  intros H1. apply bind_inv in H1 as ([[[DA0 C0] A0] V0] & HP & [= <- _ _]). destruct (_ && Can); [by injection HP as <- _ _ _|].
  destruct (_ && _ && _); [by apply bind_inv in HP as (s & _ & [= <- _ _ _])|].
  apply bind_inv in HP as (p & _ & HP). apply assert_inv in HP as [_ HP]. by apply bind_inv in HP as (s & _ & [= <- _ _ _]).
Qed.

Lemma distribute_last Sz A Nat_ Rs O Limit Forbid V rs Next V' :
  distribute D Sz A Nat_ Rs O Limit Forbid V = Ok (rs, Next, V') → lastOf false Sz rs.
Proof.
  intros H1. apply bind_inv in H1 as ([C1 SC1] & _ & H1). apply bind_inv in H1 as ([[[Pads O2] C2] SC2] & _ & H1).
  apply bind_inv in H1 as ([[DA N0] V0] & HD1%place_last & [= <- _ _]). by exists Pads, DA.
Qed.

Lemma distributeArgument_last Scalar Vector Limit Sz A Nat_ Copy V rs V' :
  distributeArgument D Scalar Vector Limit Sz A Nat_ Copy V = Ok (rs, V') → lastOf Copy Sz rs.
Proof.
  intros H1. apply bind_inv in H1 as ([[rs0 Next] V0] & (Pads & d & -> & H2 & H3)%distribute_last & H1).
  apply bind_inv in H1 as (rs1 & HR & H1). apply assert_inv in H1 as [_ [= <- _]]. destruct Copy.
  - destruct Pads as [|d0 [|]]; try done. injection HR as <-. by eexists [], _.
  - injection HR as <-. by exists Pads, d.
Qed.

(** The value of an argument has the size that is needed, unless it is a float in
    a whole vector register. *)
Lemma next_last A V rs V' :
  next D A V = Ok (rs, V') → lastOf (copied A) (needed A) rs ∨ ∃ d, rs = [d] ∧ copied A = false ∧ wholeVector A d.
Proof using HD.
  unfold next, needed, wholeVector, copied. destruct (ArgumentsArePositionBased D) eqn:HPos.
  - unfold positionBased. rewrite (sound_pointer _ _ HD), bind_ok. intros H1. left. apply bind_inv in H1 as ([d V0] & HR & [= <- <-]).
    exists [], d. destruct (_ !! _).
    + apply assert_inv in HR as [_ [= <- _]]. done.
    + apply bind_inv in HR as (q & _ & HR). destruct (negb _) in HR; [done|]. by injection HR as <- _.
  - unfold nonPositionBased. destruct (IsFloat A && negb (FloatsUseGPRs D)) eqn:EF; cbn [negb andb].
    + apply andb_true_iff in EF as [? ?%negb_true_iff]. destruct (_ !! _) as [R|] eqn:ER.
      * intros [= <- _]. right. eexists. split_and!; [done..|]. exists R. split; [by eapply list_elem_of_lookup_2|done].
      * intros Hlast%distributeArgument_last. by left.
    + rewrite (sound_pointer _ _ HD), bind_ok. pose proof (sound_scalars _ _ HD). pose proof (sound_aggregates _ _ HD). pose proof (sound_power _ _ HD).
      set (Limit := if IsScalar A then _ else _). assert (0 ≤ Limit ≤ 64) by (subst Limit; destruct (IsScalar A); lia).
      rewrite wrap_small by (unfold in_width; nia). destruct (BigArgumentsUsePointersToCopy D && _); intros Hlast%distributeArgument_last; by left.
Qed.

(** The room that the registers and the stack of a value have, without the padding
    that follows it. *)
Definition room (d : DistributedValue) : Z := bytes (Registers d) + SizeOnStack d - PostPaddingSize d.

(** What an argument is given: registers that pad it, and a value that has room for
    the bytes that are needed, or is a whole vector register. *)
Definition argumentGiven (A : Measured) (rs : list DistributedValue) : Prop :=
  ∃ Pads d, rs = Pads ++ [d] ∧ Forall (λ d, RepresentsPadding d = true ∧ SizeOnStack d = 0) Pads ∧
    RepresentsPadding d = false ∧ UsesPointerToCopy d = copied A ∧
    (Size_ d = needed A ∧ needed A ≤ room d ∨ wholeVector A d).

Lemma next_given n A V V' rs : next D A V = Ok (rs, V') → stepOk D P n V V' rs → argumentGiven A rs.
Proof using HD.
  intros H1 [_ _ HV (Pads & d & -> & HP & Hd)]. exists Pads, d. split; [done|]. split; [done|]. split; [done|].
  apply Forall_app in HV as [_ HV]. rewrite Forall_singleton in HV. apply next_last in H1 as [(P1 & d1 & HL & H2 & H3)|(d1 & HL & H2 & H3)].
  - apply app_inj_tail in HL as [_ <-]. split; [done|left]. split; [done|]. rewrite <-H3. apply HV.
  - apply (app_inj_tail _ []) in HL as [_ <-]. split; [|by right]. destruct H3 as (_ & _ & _ & R & _ & ->). by rewrite H2.
Qed.
End given.

(** ** Sequences of arguments *)

Section sequences.
  Context `{LLVMAlign} (D : Definition_) (P : Z) (HD : Sound D P).

(* lib/ABI/FunctionType/Layout.cpp:352-355 ToRawConverter::distributeArguments *)
Fixpoint nextEach (As : list Measured) (V : ValueDistributor) : outcome (list DistributedValue * ValueDistributor) :=
  match As with
  | [] => Ok ([], V)
  | A :: As => '(rs, V) ← next D A V; '(Others, V) ← nextEach As V; Ok (rs ++ Others, V)
  end.

(** The values that have a part on the stack. *)
Definition onStack (rs : list DistributedValue) : list DistributedValue := filter (λ d, SizeOnStack d ≠ 0) rs.

(** The registers not yet given. *)
Definition free (V : ValueDistributor) (R : Register.Values) : Prop :=
  ∃ Vector j, listOf D Vector !! j = Some R ∧ (counterOf Vector V ≤ j)%nat.

Definition values (rs : list DistributedValue) : nat := length (filter (λ d, RepresentsPadding d = false) rs).

Record placed (V V' : ValueDistributor) (rs : list DistributedValue) : Prop := {
  placed_registers : NoDup (registersOf rs);
  placed_free R : R ∈ registersOf rs → free V R;
  placed_sorted : StronglySorted (λ d e, dataEnd D d ≤ OffsetOnStack e) (onStack rs);
  placed_above d : d ∈ onStack rs → low D V ≤ OffsetOnStack d < dataEnd D d;
  placed_bound d : d ∈ onStack rs → 0 ≤ PostPaddingSize d ≤ SizeOnStack d ∧ OffsetOnStack d + SizeOnStack d < 2 ^ 63;
  placed_sizes d : d ∈ rs → Size_ d ≤ bytes (Registers d) + SizeOnStack d - PostPaddingSize d;
}.

Lemma listOf_unique b c i j R : NoDup (GeneralPurposeArgumentRegisters D ++ VectorArgumentRegisters D) →
  listOf D b !! i = Some R → listOf D c !! j = Some R → b = c ∧ i = j.
Proof.
  intros (N1 & N2 & N3)%NoDup_app Hi Hj. apply list_elem_of_lookup_2 in Hi as Ei. apply list_elem_of_lookup_2 in Hj as Ej.
  destruct b, c; cbn in *; try (exfalso; by eapply (N2 R)); (split; [done|]; eapply NoDup_lookup; [|exact Hi|exact Hj]; done).
Qed.

Lemma oneValue_onStack rs d : oneValue rs → d ∈ onStack rs → onStack rs = [d].
Proof.
  intros (Pads & v & -> & HP & _). unfold onStack. rewrite filter_app.
  assert (filter (λ d, SizeOnStack d ≠ 0) Pads = []) as ->.
  { induction HP as [|p Pads [_ Hp] _ IH]; [done|]. by rewrite filter_cons_False by lia. }
  rewrite app_nil_l, filter_cons, filter_nil. destruct (decide _); [|by intros ?%not_elem_of_nil].
  by intros ->%list_elem_of_singleton.
Qed.

Lemma oneValue_values rs : oneValue rs → values rs = 1%nat.
Proof.
  intros (Pads & v & -> & HP & Hv). unfold values. rewrite filter_app, length_app.
  assert (filter (λ d, RepresentsPadding d = false) Pads = []) as ->.
  { induction HP as [|p Pads [Hp _] _ IH]; [done|]. by rewrite filter_cons_False by (by rewrite Hp). }
  by rewrite filter_cons_True.
Qed.

Lemma values_app rs ts : values (rs ++ ts) = (values rs + values ts)%nat.
Proof. unfold values. by rewrite filter_app, length_app. Qed.

(** One argument, then the others. *)
Lemma placed_app n V V' V'' rs ts : stepOk D P n V V' rs → usesNext D rs V V' → placed V' V'' ts → placed V V'' (rs ++ ts).
Proof using HD.
  intros [_ SL SV SO] [_ (b & i & k & HR & Hik & Hk & Hb)] [T1 T2 T3 T4 T6 T5]. pose proof (sound_NoDup _ _ HD) as HN.
  assert (registersOf (rs ++ ts) = registersOf rs ++ registersOf ts) as Happ by (unfold registersOf; apply bind_app).
  assert (∀ c, counterOf c V ≤ counterOf c V')%nat as HC by (intros c; destruct b, c; cbn in *; lia).
  assert (∀ d, d ∈ onStack rs → low D V ≤ OffsetOnStack d < dataEnd D d ∧ dataEnd D d ≤ low D V') as Hrs.
  { intros d [Hd Hin]%list_elem_of_filter. rewrite Forall_forall in SV. by apply (ok_span _ _ _ _ (SV d Hin)). }
  split.
  - rewrite Happ, HR. apply NoDup_app. split_and!; [apply slice_NoDup; apply NoDup_app in HN as (?&?&?); by destruct b| |done].
    intros R (j & Hj & Hjk)%elem_of_slice HT. apply T2 in HT as (c & j' & Hj' & Hc).
    destruct (listOf_unique b c j j' R HN Hj Hj') as [-> ->]. lia.
  - intros R. rewrite Happ, HR, elem_of_app, elem_of_slice. intros [(j & Hj & Hjk)|(c & j & Hj & Hc)%T2].
    + exists b, j. split; [done|lia].
    + exists c, j. specialize (HC c). split; [done|lia].
  - unfold onStack. rewrite filter_app. apply StronglySorted_app. split_and!; [| |done].
    + intros d e Hd He. apply Hrs in Hd. apply T4 in He. lia.
    + fold (onStack rs). destruct (onStack rs) as [|d l] eqn:E; [constructor|]. assert (onStack rs = [d]) as HE by (apply oneValue_onStack; [done|]; rewrite E; apply elem_of_cons; by left).
      rewrite E in HE. injection HE as ->. repeat constructor.
  - intros d. unfold onStack. rewrite filter_app, elem_of_app. intros [Hd|Hd]; [apply Hrs in Hd; lia|]. apply T4 in Hd. lia.
  - intros d. unfold onStack. rewrite filter_app, elem_of_app. intros [[Hn Hd]%list_elem_of_filter|Hd]; [|by apply T6].
    rewrite Forall_forall in SV. split; [by apply (ok_padding _ _ _ _ (SV d Hd))|by apply (ok_bound _ _ _ _ (SV d Hd))].
  - intros d [Hd|Hd]%elem_of_app; [|by apply T5]. rewrite Forall_forall in SV. by apply (ok_size _ _ _ _ (SV d Hd)).
Qed.

Lemma nextEach_spec n As V :
  0 ≤ n → n + Z.of_nat (length As) ≤ 2 ^ 28 → stackInv D P n V → inRange D V → forallb fits As = true →
  ∃ rs V', nextEach As V = Ok (rs, V') ∧ placed V V' rs ∧ values rs = length As ∧ inRange D V' ∧ stackInv D P (n + Z.of_nat (length As)) V' ∧
    ∃ rss, rs = concat rss ∧ Forall2 (argumentGiven D P) As rss.
Proof using HD.
  revert n V. induction As as [|A As IH]; intros n V Hn HL HV HR HA; cbn [nextEach].
  { exists [], V. rewrite Z.add_0_r. split_and!; try done; [|by exists []]. split; [constructor|intros R HR'; by apply elem_of_nil in HR'|constructor|intros d Hd; by apply elem_of_nil in Hd..]. }
  cbn [forallb length] in *. apply andb_true_iff in HA as [HA HAs]. destruct (next_spec D P HD n A V) as (rs & V1 & H1 & S1); [lia|done..|].
  rewrite H1, bind_ok. apply next_registers in H1 as HU; [|done]. destruct HU as [HR1 HU].
  destruct (IH (n + 1) V1) as (ts & V2 & H2 & P2 & N2 & R2 & I2 & tss & HT & G2); [lia|lia|by eapply step_inv|done|done|].
  rewrite H2, bind_ok. exists (rs ++ ts), V2. split_and!; [done|by eapply placed_app| |done| |].
  - rewrite values_app, (oneValue_values rs), N2 by by eapply step_one. lia.
  - by replace (n + Z.of_nat (S (length As))) with (n + 1 + Z.of_nat (length As)) by lia.
  - exists (rs :: tss). rewrite HT. split; [done|]. constructor; [by eapply next_given|done].
Qed.

Lemma start_spec Shadow V : start D Shadow = Ok V → stackInv D P 0 V ∧ inRange D V.
Proof using HD.
  intros (V0 & HM & H1)%bind_inv. apply bind_inv in HM as (b & _ & HM). apply assert_inv in HM as [_ [= <-]].
  pose proof (sound_unused _ _ HD) as HU. pose proof (sound_multiple _ _ HD) as HM. pose proof (sound_power _ _ HD).
  assert (stackInv D P 0 (mkDistributor 0 0 (UnusedStackArgumentBytes D) 0 0 0)) as HI by (split; cbn; [lia|by left|lia|done]).
  destruct Shadow; [|injection H1 as <-; split; [done|unfold inRange; cbn; lia]]. apply assert_inv in H1 as [_ H1].
  assert (∀ V, stackInv D P 0 V → inRange D V → stackInv D P 0 V ∧ inRange D V) as Hboth by done.
  destruct (bool_decide _).
  - destruct (GeneralPurposeArgumentRegisters D) as [|R Rs] eqn:E; [injection H1 as <-; split; [by destruct HI|unfold inRange; cbn; lia]|].
    destruct (bool_decide _); [apply assert_inv in H1 as [_ [= <-]]|injection H1 as <-]; (split; [by destruct HI|unfold inRange; cbn; rewrite E; cbn; lia]).
  - destruct (ReturnValueLocationOnStack D); [|injection H1 as <-; split; [by destruct HI|unfold inRange; cbn; lia]].
    rewrite (sound_pointer _ _ HD), bind_ok in H1. apply assert_inv in H1 as [_ [= <-]]. split; [|unfold inRange; cbn; lia].
    cbn. rewrite wrap_small by (unfold in_width; lia). split; cbn; [lia|by left|lia|intros _; split; [done|]]. by apply Z.divide_add_r.
Qed.
End sequences.

(** The location of the return value is not given to an argument. *)
Lemma shadow_reserved `{LLVMAlign} D P V V' rs :
  Sound D P → start D true = Ok V → placed D V V' rs → ReturnValueLocationRegister D ≠ Register.Invalid →
  ReturnValueLocationRegister D ∉ registersOf rs.
Proof.
  intros HD (V0 & HM & H1)%bind_inv HPl HI HR. apply (placed_free _ _ _ _ HPl) in HR as (b & j & Hj & Hb).
  apply bind_inv in HM as (v & _ & HM). apply assert_inv in HM as [_ [= <-]]. apply assert_inv in H1 as [_ H1].
  pose proof (sound_location _ _ HD) as [HL1 HL2]%not_elem_of_app. rewrite bool_decide_eq_true_2 in H1 by done.
  destruct b; [by apply list_elem_of_lookup_2, HL2 in Hj|]. cbn in Hj, Hb.
  destruct (GeneralPurposeArgumentRegisters D) as [|R Rs] eqn:E; [done|]. cbn in HL1. destruct j as [|j]; [|by apply HL1; eapply list_elem_of_lookup_2].
  injection Hj as ->. rewrite bool_decide_eq_true_2 in H1 by done. apply assert_inv in H1 as [_ [= <-]]. cbn in Hb. lia.
Qed.

(** ** Properties *)

(** The ABIs that come with rev.ng. *)
Fact shipped_sound : forallb soundABI ABIData.shipped = true.
Proof. by vm_compute. Qed.

(** C21: for an ABI that is sound, as all those that come with rev.ng are, the
    distribution of any sequence of arguments whose sizes and alignments are sensible
    succeeds, without a failed assertion. Each argument gets one value, after the
    registers that pad it, and the registers and the part of the stack of that value
    have room for the argument, or for a pointer to a copy of it, which is passed exactly
    when the ABI asks for it; the exception is a float that takes a whole vector register, whose
    size is not recorded and not compared with that of the register. No part of the stack
    is beyond 2^63, so that no offset has wrapped around. *)
Theorem arguments_placed `{LLVMAlign} D Shadow V As :
  soundABI D = true → start D Shadow = Ok V → forallb fits As = true → Z.of_nat (length As) ≤ 2 ^ 28 →
  ∃ P rss V', getPointerSize D = Ok P ∧ nextEach D As V = Ok (concat rss, V') ∧ Forall2 (argumentGiven D P) As rss ∧
    ∀ d, d ∈ onStack (concat rss) → 0 ≤ PostPaddingSize d ≤ SizeOnStack d ∧ 0 ≤ OffsetOnStack d ∧ OffsetOnStack d + SizeOnStack d < 2 ^ 63.
Proof.
  intros (P & HD)%soundABI_spec HV HA HL. apply (start_spec D P HD) in HV as [HI HR].
  destruct (nextEach_spec D P HD 0 As V) as (rs & V' & H1 & H2 & _ & _ & _ & rss & -> & H3); try done.
  exists P, rss, V'. split_and!; [apply HD|done|done|]. intros d Hd. pose proof (placed_bound _ _ _ _ H2 d Hd).
  pose proof (placed_above _ _ _ _ H2 d Hd). apply low_bounds in HI. lia.
Qed.

(** C8: no register is given twice, all are argument registers, and that of the
    location of the return value is not given; the parts of the stack are disjoint
    and in order, without the padding that follows a value when arguments are
    packed. *)
Theorem arguments_disjoint `{LLVMAlign} D Shadow V As rs V' :
  soundABI D = true → start D Shadow = Ok V → forallb fits As = true → Z.of_nat (length As) ≤ 2 ^ 28 →
  nextEach D As V = Ok (rs, V') →
  NoDup (registersOf rs) ∧
  (∀ R, R ∈ registersOf rs → R ∈ GeneralPurposeArgumentRegisters D ++ VectorArgumentRegisters D) ∧
  (Shadow = true → ReturnValueLocationRegister D ≠ Register.Invalid → ReturnValueLocationRegister D ∉ registersOf rs) ∧
  StronglySorted (λ d e, dataEnd D d ≤ OffsetOnStack e) (onStack rs) ∧
  Forall (λ d, 0 ≤ OffsetOnStack d < dataEnd D d) (onStack rs).
Proof.
  intros (P & HD)%soundABI_spec HV HA HL H1. apply (start_spec D P HD) in HV as HI. destruct HI as [HI HR].
  destruct (nextEach_spec D P HD 0 As V) as (rs0 & V0 & H2 & H3 & _); try done. rewrite H1 in H2. injection H2 as <- <-.
  split_and!; [apply H3| | |apply H3|].
  - intros R (b & j & Hj & _)%(placed_free _ _ _ _ H3). apply list_elem_of_lookup_2 in Hj. rewrite elem_of_app. destruct b; auto.
  - intros ->. by eapply shadow_reserved.
  - apply Forall_forall. intros d Hd. apply (placed_above _ _ _ _ H3) in Hd. apply low_bounds in HI. lia.
Qed.

(** ** Witnesses *)

Definition anInt : Measured := mkMeasured true false 4 4 true.
Definition aLong : Measured := mkMeasured true false 8 8 true.
Definition aFloat : Measured := mkMeasured true true 4 4 true.
Definition aStruct : Measured := mkMeasured false false 20 4 true.

Lemma arguments_placed_witness :
  ∃ V P rss V', start ABIData.AAPCS false = Ok V ∧ nextEach ABIData.AAPCS [anInt; aFloat; aStruct; anInt] V = Ok (concat rss, V') ∧
    Forall2 (argumentGiven ABIData.AAPCS P) [anInt; aFloat; aStruct; anInt] rss.
Proof.
  assert (start ABIData.AAPCS false = Ok (mkDistributor 0 0 0 0 0 0)) as HV by by vm_compute. eexists.
  destruct (arguments_placed ABIData.AAPCS false _ [anInt; aFloat; aStruct; anInt] ltac:(by vm_compute) HV ltac:(by vm_compute) ltac:(by vm_compute))
    as (P & rss & V' & _ & H1 & H2 & _). exists P, rss, V'. split; [exact HV|split; [exact H1|exact H2]].
Defined.

(** The exception is real: for the ABI of x86 with parameters in registers, the
    [long double] of C, of 12 bytes, is given a vector register of 8. *)
Definition aLongDouble : Measured := mkMeasured true true 12 4 true.

Fact float_without_room :
  (V ← start ABIData.SystemV_x86_regparm_3 false; nextEach ABIData.SystemV_x86_regparm_3 [aLongDouble] V) ≫= (λ r, Ok (r.1))
  = Ok [mkDistributed [Register.zmm0_x86] 0 0 0 0 0 false false] ∧ Register.getSize Register.zmm0_x86 = Ok 8.
Proof. split; by vm_compute. Qed.

(** ** Values in registers *)

Section in_registers.
  Context `{LLVMAlign} (D : Definition_) (P : Z) (HP : 0 < P).

(** As many registers as the value takes, when they all are as large as a pointer. *)
Lemma considerRegisters_exact k n Rs L Sz C SC :
  (∀ R, R ∈ Rs → Register.getSize R = Ok P) → Sz < 2 ^ 32 → P < 2 ^ 32 → 0 ≤ SC → (k ≤ n)%nat → (C + k ≤ L ≤ length Rs)%nat →
  Sz ≤ SC + Z.of_nat k * P < Sz + P → considerRegisters n Rs L Sz C SC = Ok ((C + k)%nat, SC + Z.of_nat k * P).
Proof using HP.
  intros HR HSz HPw. revert n C SC. induction k as [|k IH]; intros n C SC HSC Hn HL Hk.
  - rewrite Nat.add_0_r, Z.mul_0_l, Z.add_0_r. destruct n; cbn [considerRegisters]; [done|].
    by rewrite (proj2 (Z.ltb_ge SC Sz)) by lia.
  - destruct n as [|n]; [lia|]. cbn [considerRegisters]. destruct (lookup_lt_is_Some_2 Rs C) as [R ER]; [lia|].
    rewrite (proj2 (Z.ltb_lt SC Sz)), (proj2 (Nat.ltb_lt _ _)), (proj2 (Nat.ltb_lt C L)) by nia. cbn [andb].
    rewrite ER, (HR R), bind_ok, wrap_small by (by eapply list_elem_of_lookup_2 || (unfold in_width; nia)).
    rewrite IH by nia. f_equal. f_equal; lia.
Qed.

(** A value that may use registers, and that fits in the [k] next ones, is given
    exactly those, when no register is needed to pad it; the stack is left as it
    is. *)
Lemma distribute_exact Sz A Natural_ Rs O Limit Forbid k V :
  (∀ R, R ∈ Rs → Register.getSize R = Ok P) → P < 2 ^ 32 → Sz < 2 ^ 32 → (length Rs ≤ 64)%nat → Limit ≤ 64 →
  in_width 64 (UsedStackOffset V) → Natural_ || AllowPackedTypesInRegisters D = true →
  OnlyStartDoubleArgumentsFromAnEvenRegister D = false ∨ Nat.odd O = false ∧ getPointerSize D = Ok P →
  Z.of_nat k = (Sz + P - 1) / P → (O + k ≤ length Rs)%nat → Z.of_nat k ≤ Limit →
  ∃ V', distribute D Sz A Natural_ Rs O Limit Forbid V =
    Ok ([mkDistributed (slice Rs O (O + k)) Sz 0 0 0 0 false false], (O + k)%nat, V') ∧ UsedStackOffset V' = UsedStackOffset V.
Proof using HP.
  intros HR HPw HSz HRs HLim HV HCan HNo Hk HO HkL. unfold distribute. rewrite HCan, wrap_small by (unfold in_width; lia).
  pose proof (Z.div_mod (Sz + P - 1) P). pose proof (Z.mod_pos_bound (Sz + P - 1) P). rewrite <-Hk in *.
  rewrite (considerRegisters_exact k) by (done || nia). rewrite bind_ok.
  set (L := Z.to_nat _). assert (padRegisters D Sz A Rs L O (O + k) (0 + Z.of_nat k * P) = Ok ([], O, (O + k)%nat, 0 + Z.of_nat k * P)) as ->.
  { unfold padRegisters. destruct HNo as [->|[-> ->]]; [done|]. rewrite bind_ok, andb_false_r. by destruct (OnlyStartDoubleArgumentsFromAnEvenRegister D). }
  rewrite bind_ok. unfold place. rewrite (proj2 (Z.leb_le Sz _)) by nia. cbn [andb]. rewrite !bind_ok. eexists. split; [done|]. cbn.
  by rewrite Z.add_0_r, wrap_small.
Qed.
End in_registers.

(** A value that needs padding may not get the registers it needs: the register
    considered in place of the padding is not counted. For AAPCS, the second
    argument of [f(int, long long)] gets two registers and four bytes of the stack. *)
Fact padding_not_counted :
  (V ← start ABIData.AAPCS false; nextEach ABIData.AAPCS [anInt; aLong] V) ≫= (λ r, Ok (r.1))
  = Ok [mkDistributed [Register.r0_arm] 4 0 0 0 0 false false; mkDistributed [Register.r1_arm] 4 0 0 0 0 false true;
        mkDistributed [Register.r2_arm; Register.r3_arm] 8 0 0 4 0 false false].
Proof. by vm_compute. Qed.

Lemma arguments_disjoint_witness :
  ∃ V rs V', start ABIData.Apple_AAPCS64 true = Ok V ∧
    nextEach ABIData.Apple_AAPCS64 [anInt; aFloat; aStruct; anInt] V = Ok (rs, V') ∧ NoDup (registersOf rs) ∧
    StronglySorted (λ d e, dataEnd ABIData.Apple_AAPCS64 d ≤ OffsetOnStack e) (onStack rs).
Proof.
  assert (start ABIData.Apple_AAPCS64 true = Ok (mkDistributor 0 0 0 0 0 1)) as HV by by vm_compute.
  destruct (nextEach ABIData.Apple_AAPCS64 [anInt; aFloat; aStruct; anInt] (mkDistributor 0 0 0 0 0 1)) as [[rs V']|] eqn:H1;
    [|vm_compute in H1; discriminate H1].
  destruct (arguments_disjoint ABIData.Apple_AAPCS64 true _ [anInt; aFloat; aStruct; anInt] rs V' ltac:(by vm_compute) HV ltac:(by vm_compute) ltac:(by vm_compute) H1)
    as (H2 & _ & _ & H3 & _). eexists _, rs, V'. split; [exact HV|split; [exact H1|split; [exact H2|exact H3]]].
Defined.
