(* ===== verification/RegisterStateDeductions.v ===== *)
(** * Deduction of the registers a function uses

    [abi::Definition::tryDeducingArgumentRegisterState] and its siblings
    (lib/ABI/RegisterStateDeductions.cpp): when a register of the ABI is used for an
    argument, so are those before it. *)

From S2P Require Import Prelude.
From stdpp Require Import gmap.
From S2P Require Register.
From S2P Require Import ABIDefinition.
From S2P Require ABIData.

(** ** Definitions *)

(* include/revng/Model/ABI/Definition.h:108-108 Definition::RegisterSet *)
Definition RegisterSet : Type := gset Register.Values.

(** Finds the last register of the list that is used; 0 when there is none. *)
Fixpoint lastUsedUpTo (Rs : list Register.Values) (State : RegisterSet) (Index : nat) : nat :=
  match Index with
  | O => O
  | S Before =>
    match Rs !! Before with
    | Some R => if bool_decide (R ∈ State) then Index else lastUsedUpTo Rs State Before
    | None => lastUsedUpTo Rs State Before
    end
  end.

(* lib/ABI/RegisterStateDeductions.cpp:14-25 findLastUsedIndex *)
Definition findLastUsedIndex (Rs : list Register.Values) (State : RegisterSet) : nat := lastUsedUpTo Rs State (length Rs).

Section deduction.
  (** The template parameter: whether data that contradicts the ABI is dropped. *)
  Context (EnforceABIConformance : bool) (D : Definition_).

(* lib/ABI/RegisterStateDeductions.cpp:64-67 DeductionImpl::allowedArgumentRegisters *)
Definition allowedArgumentRegisters : list Register.Values :=
  GeneralPurposeArgumentRegisters D ++ VectorArgumentRegisters D.

(* lib/ABI/RegisterStateDeductions.cpp:68-71 DeductionImpl::allowedReturnValueRegisters *)
Definition allowedReturnValueRegisters : list Register.Values :=
  GeneralPurposeReturnValueRegisters D ++ VectorReturnValueRegisters D.

(** [None] when a register is not allowed. *)
(* lib/ABI/RegisterStateDeductions.cpp:73-101 DeductionImpl::ensureRegistersAreAllowed *)
Definition ensureRegistersAreAllowed (UsedSet : RegisterSet) (Allowed : list Register.Values) : option RegisterSet :=
  if EnforceABIConformance then Some (filter (λ R, R ∈ Allowed) UsedSet)
  else if bool_decide (set_Forall (λ R, R ∈ Allowed) UsedSet) then Some UsedSet else None.

(** One register of those that have no counterpart of the other kind. *)
(* lib/ABI/RegisterStateDeductions.cpp:109-114 DeductionImpl::deducePositionBasedArguments *)
Definition fillStep (R : Register.Values) (st : RegisterSet * bool) : RegisterSet * bool :=
  let '(State, IsRequired) := st in
  if bool_decide (R ∈ State) then (State, true)
  else if IsRequired then ({[R]} ∪ State, IsRequired) else (State, IsRequired).

(* lib/ABI/RegisterStateDeductions.cpp:134-187 DeductionImpl::singlePositionBasedDeduction *)
Definition singlePositionBasedDeduction (GPRegister VRegister : Register.Values) (st : RegisterSet * bool) : option (RegisterSet * bool) :=
  let '(State, IsRequired) := st in
  if bool_decide (GPRegister ∈ State) then
    if bool_decide (VRegister ∈ State) then
      if EnforceABIConformance then Some (State ∖ {[VRegister]}, IsRequired) else None
    else Some (State, true)
  else if bool_decide (VRegister ∈ State) then Some (State, true)
  else if IsRequired then if EnforceABIConformance then Some ({[GPRegister]} ∪ State, IsRequired) else None
  else Some (State, IsRequired).

(** The positions are visited from the last one. *)
(* lib/ABI/RegisterStateDeductions.cpp:103-132 DeductionImpl::deducePositionBasedArguments *)
Definition deducePositionBasedArguments (State : RegisterSet) : option RegisterSet :=
  let GPAR := GeneralPurposeArgumentRegisters D in
  let VAR := VectorArgumentRegisters D in
  let Rest := if (length VAR <? length GPAR)%nat then drop (length VAR) GPAR else drop (length GPAR) VAR in
  let st := foldr fillStep (State, false) Rest in
  fst <$> foldr (λ p st, st ≫= singlePositionBasedDeduction p.1 p.2) (Some st) (zip GPAR VAR).

(* lib/ABI/RegisterStateDeductions.cpp:189-193 DeductionImpl::fillState *)
Definition fillState (State : RegisterSet) (RequiredRegisters : list Register.Values) : RegisterSet :=
  State ∪ list_to_set RequiredRegisters.

(* lib/ABI/RegisterStateDeductions.cpp:195-204 DeductionImpl::deduceNonPositionBasedArguments *)
Definition deduceNonPositionBasedArguments (State : RegisterSet) : option RegisterSet :=
  let GPs := GeneralPurposeArgumentRegisters D in
  let RequiredGPRs := take (findLastUsedIndex GPs State) GPs in
  let VRs := VectorArgumentRegisters D in
  let RequiredVRs := take (findLastUsedIndex VRs State) VRs in
  Some (fillState State (RequiredGPRs ++ RequiredVRs)).

(* lib/ABI/RegisterStateDeductions.cpp:206-240 DeductionImpl::deduceReturnValues *)
Definition deduceReturnValues (State : RegisterSet) : option RegisterSet :=
  let GPs := GeneralPurposeReturnValueRegisters D in
  let RequiredGPRs := take (findLastUsedIndex GPs State) GPs in
  let VRs := VectorReturnValueRegisters D in
  let RequiredVRs := take (findLastUsedIndex VRs State) VRs in
  if negb (bool_decide (RequiredGPRs = [])) then
    if negb (bool_decide (RequiredVRs = [])) then if EnforceABIConformance then Some State else None
    else Some (fillState State RequiredGPRs)
  else if negb (bool_decide (RequiredVRs = [])) then Some (fillState State RequiredVRs)
  else Some State.

(* lib/ABI/RegisterStateDeductions.cpp:36-50 DeductionImpl::arguments *)
Definition arguments (Arguments_ : RegisterSet) : option RegisterSet :=
  Allowed ← ensureRegistersAreAllowed Arguments_ allowedArgumentRegisters;
  if ArgumentsArePositionBased D then deducePositionBasedArguments Allowed else deduceNonPositionBasedArguments Allowed.

(* lib/ABI/RegisterStateDeductions.cpp:52-60 DeductionImpl::returnValues *)
Definition returnValues (ReturnValues_ : RegisterSet) : option RegisterSet :=
  Allowed ← ensureRegistersAreAllowed ReturnValues_ allowedReturnValueRegisters; deduceReturnValues Allowed.
End deduction.

(* lib/ABI/RegisterStateDeductions.cpp:246-249 Definition::tryDeducingArgumentRegisterState *)
Definition tryDeducingArgumentRegisterState : Definition_ → RegisterSet → option RegisterSet := arguments false.

(* lib/ABI/RegisterStateDeductions.cpp:251-254 Definition::tryDeducingReturnValueRegisterState *)
Definition tryDeducingReturnValueRegisterState : Definition_ → RegisterSet → option RegisterSet := returnValues false.

Definition enforced (Result : option RegisterSet) : outcome RegisterSet :=
  match Result with Some State => Ok State | None => Fault AssertionFailed end.

(* lib/ABI/RegisterStateDeductions.cpp:256-261 Definition::enforceArgumentRegisterState *)
Definition enforceArgumentRegisterState (D : Definition_) (Arguments_ : RegisterSet) : outcome RegisterSet :=
  enforced (arguments true D Arguments_).

(* lib/ABI/RegisterStateDeductions.cpp:263-268 Definition::enforceReturnValueRegisterState *)
Definition enforceReturnValueRegisterState (D : Definition_) (ReturnValues_ : RegisterSet) : outcome RegisterSet :=
  enforced (returnValues true D ReturnValues_).

(** ** Closed sets of registers *)

(** With a register of the list, the set has those before it. *)
Definition closed (Rs : list Register.Values) (State : RegisterSet) : Prop :=
  ∀ i j R T, i ≤ j → Rs !! j = Some R → R ∈ State → Rs !! i = Some T → T ∈ State.

(** The least set that has those given, and is closed for both lists. *)
Record leastClosed (Rs Ts : list Register.Values) (Given State : RegisterSet) : Prop := {
  least_given : Given ⊆ State;
  least_closed : closed Rs State ∧ closed Ts State;
  least_least Other : Given ⊆ Other → closed Rs Other → closed Ts Other → State ⊆ Other;
}.

Lemma lastUsedUpTo_spec Rs State n :
  lastUsedUpTo Rs State n ≤ n ∧
  (lastUsedUpTo Rs State n = 0 ∨ ∃ R, Rs !! (lastUsedUpTo Rs State n - 1) = Some R ∧ R ∈ State) ∧
  ∀ j R, j < n → Rs !! j = Some R → R ∈ State → j < lastUsedUpTo Rs State n.
Proof.
  induction n as [|n (H1 & H2 & H3)]; cbn [lastUsedUpTo]; [split_and!; [lia|by left|lia]|].
  destruct (Rs !! n) as [R|] eqn:E.
  - case_bool_decide as HR.
    + split_and!; [lia|right; exists R; by rewrite Nat.sub_succ, Nat.sub_0_r|intros; lia].
    + split_and!; [lia|done|]. intros j T Hj HT HS. apply (H3 j T); [|done|done]. destruct (decide (j = n)) as [->|]; [|lia]. naive_solver.
  - split_and!; [lia|done|]. intros j T Hj HT HS. apply (H3 j T); [|done|done]. destruct (decide (j = n)) as [->|]; [|lia]. congruence.
Qed.

Lemma elem_of_take_lookup (Rs : list Register.Values) k R : R ∈ take k Rs ↔ ∃ j, Rs !! j = Some R ∧ j < k.
Proof. rewrite list_elem_of_lookup. setoid_rewrite lookup_take_Some. done. Qed.

(** A used register and those before it. *)
Definition required (Rs : list Register.Values) (State : RegisterSet) : list Register.Values :=
  take (findLastUsedIndex Rs State) Rs.

Lemma required_used Rs State R : R ∈ Rs → R ∈ State → R ∈ required Rs State.
Proof.
  intros [j Hj]%list_elem_of_lookup HS. apply elem_of_take_lookup. exists j. split; [done|].
  destruct (lastUsedUpTo_spec Rs State (length Rs)) as (_ & _ & H). apply (H j R); [by eapply lookup_lt_Some|done|done].
Qed.

Lemma required_least Rs State Other : State ⊆ Other → closed Rs Other → ∀ R, R ∈ required Rs State → R ∈ Other.
Proof.
  intros HS HC R (i & Hi & Hk)%elem_of_take_lookup. unfold findLastUsedIndex in Hk.
  destruct (lastUsedUpTo_spec Rs State (length Rs)) as (_ & [H0|(T & HT & HTS)] & _); [lia|].
  eapply (HC i _ T R); [|exact HT|by apply HS|exact Hi]. lia.
Qed.

Lemma required_closed Rs State (Filled : RegisterSet) :
  NoDup Rs → (∀ R, R ∈ Rs → R ∈ Filled ↔ R ∈ required Rs State) → closed Rs Filled.
Proof.
  intros HN HF i j R T Hij Hj HR HT. apply HF in HR; [|by eapply list_elem_of_lookup_2]. apply HF; [by eapply list_elem_of_lookup_2|].
  apply elem_of_take_lookup in HR as (j' & Hj' & Hk). assert (j = j') as <- by (by eapply NoDup_lookup).
  apply elem_of_take_lookup. exists i. split; [done|lia].
Qed.

Lemma required_subset Rs State R : R ∈ required Rs State → R ∈ Rs.
Proof. apply subseteq_take. Qed.

(** Filling both lists gives the least closed set. *)
Lemma fill_least Rs Ts State :
  NoDup (Rs ++ Ts) → leastClosed Rs Ts State (fillState State (required Rs State ++ required Ts State)).
Proof.
  intros (N1 & N2 & N3)%NoDup_app. unfold fillState.
  assert (∀ R, R ∈ State ∪ list_to_set (required Rs State ++ required Ts State) ↔ R ∈ State ∨ R ∈ required Rs State ∨ R ∈ required Ts State) as HE
    by (intros R; rewrite elem_of_union, elem_of_list_to_set, elem_of_app; done).
  split.
  - intros R HR. apply HE. by left.
  - split; eapply (required_closed _ State); [done| |done|]; intros R HR; rewrite HE; split; try (by auto).
    + intros [HS|[?|HT%required_subset]]; [by apply required_used|done|by apply N2 in HT].
    + intros [HS|[HT%required_subset|?]]; [by apply required_used|by apply N2 in HT|done].
  - intros Other HO H1 H2 R [HR|[HR|HR]]%HE; [by apply HO|exact (required_least _ _ _ HO H1 R HR)|exact (required_least _ _ _ HO H2 R HR)].
Qed.

(** ** Positions *)

(** The registers of each position: one of each kind, and one alone where the other
    list has ended. *)
Fixpoint positions (Rs Ts : list Register.Values) : list (list Register.Values) :=
  match Rs, Ts with
  | R :: Rs, T :: Ts => [R; T] :: positions Rs Ts
  | Rs, [] => map (λ R, [R]) Rs
  | [], Ts => map (λ T, [T]) Ts
  end.

Lemma positions_concat Rs Ts R : R ∈ concat (positions Rs Ts) ↔ R ∈ Rs ++ Ts.
Proof.
  assert (∀ l : list Register.Values, concat (map (λ R, [R]) l) = l) as Hs by (induction l as [|? l IH]; cbn; [done|by rewrite IH]).
  revert Ts. induction Rs as [|S Rs IH]; intros [|T Ts]; cbn [positions]; rewrite ?Hs, ?app_nil_r; try done.
  cbn. rewrite !elem_of_cons, IH, !elem_of_app, !elem_of_cons. tauto.
Qed.

Lemma positions_NoDup Rs Ts : NoDup (Rs ++ Ts) → NoDup (concat (positions Rs Ts)).
Proof.
  assert (∀ l : list Register.Values, concat (map (λ R, [R]) l) = l) as Hs by (induction l as [|? l IH]; cbn; [done|by rewrite IH]).
  revert Ts. induction Rs as [|S Rs IH]; intros [|T Ts]; cbn [positions]; rewrite ?Hs, ?app_nil_r; try done.
  intros H. change (NoDup (S :: Rs ++ T :: Ts)) in H. rewrite <-Permutation_middle, !NoDup_cons, elem_of_cons in H. destruct H as (H1 & H2 & H3).
  change (NoDup (S :: T :: concat (positions Rs Ts))). rewrite !NoDup_cons, elem_of_cons, !positions_concat. by split_and!; [..|apply IH].
Qed.

(** One position. *)
Definition positionStep (strict : bool) (p : list Register.Values) (st : option (RegisterSet * bool)) : option (RegisterSet * bool) :=
  match p with
  | [R; T] => st ≫= singlePositionBasedDeduction strict R T
  | [R] => fillStep R <$> st
  | _ => st
  end.

Lemma deduce_positions strict D State :
  deducePositionBasedArguments strict D State =
  fst <$> foldr (positionStep strict) (Some (State, false)) (positions (GeneralPurposeArgumentRegisters D) (VectorArgumentRegisters D)).
Proof.
  unfold deducePositionBasedArguments. f_equal. generalize (State, false) as st. intros st.
  generalize (GeneralPurposeArgumentRegisters D) (VectorArgumentRegisters D).
  assert (∀ l : list Register.Values, Some (foldr fillStep st l) = foldr (positionStep strict) (Some st) (map (λ R, [R]) l)) as Hs
    by (induction l as [|R l IH]; cbn; [done|by rewrite <-IH]).
  induction l as [|R Rs IH]; intros [|T Ts]; cbn [positions zip zip_with foldr]; [done| | |].
  - apply (Hs (T :: Ts)).
  - apply (Hs (R :: Rs)).
  - rewrite <-IH. cbn. done.
Qed.

(** How many registers of a position are used. *)
Definition usedAt (State : RegisterSet) (p : list Register.Values) : nat := length (filter (λ R, R ∈ State) p).

Arguments usedAt : simpl never.

Lemma usedAt_agree State Other p : (∀ R, R ∈ p → R ∈ State ↔ R ∈ Other) → usedAt State p = usedAt Other p.
Proof.
  unfold usedAt. induction p as [|R p IH]; intros H; [done|]. rewrite !filter_cons. assert (R ∈ State ↔ R ∈ Other) by (apply H; by left).
  assert (length (filter (λ R, R ∈ State) p) = length (filter (λ R, R ∈ Other) p)) by (apply IH; intros T HT; apply H; by right).
  repeat destruct (decide _); cbn; (tauto || lia).
Qed.

(** Each of the first positions has one register, and the others have none. *)
Definition resolved (State : RegisterSet) (ps : list (list Register.Values)) (IsRequired : bool) : Prop :=
  ∃ k, k ≤ length ps ∧ (IsRequired = true ↔ 0 < k) ∧
    Forall (λ p, usedAt State p = 1) (take k ps) ∧ Forall (λ p, usedAt State p = 0) (drop k ps).

Lemma resolved_agree State Other ps b :
  (∀ R, R ∈ concat ps → R ∈ State ↔ R ∈ Other) → resolved State ps b → resolved Other ps b.
Proof.
  intros HA (k & H1 & H2 & H3 & H4). exists k. split_and!; [done|done| |]; rewrite Forall_forall in *; intros p Hp;
    [rewrite <-(H3 p Hp)|rewrite <-(H4 p Hp)]; symmetry; apply usedAt_agree; intros R HR; apply HA, list_elem_of_In, in_concat;
    exists p; (split; apply list_elem_of_In; [|done]); [by eapply subseteq_take|by eapply subseteq_drop].
Qed.

Lemma usedAt_nil State p : (∀ R, R ∈ p → R ∉ State) → usedAt State p = 0.
Proof.
  intros H. unfold usedAt. induction p as [|R p IH]; [done|]. rewrite filter_cons_False by (apply H; by left). apply IH. intros T HT. apply H. by right.
Qed.

Lemma usedAt_one State Before R After :
  R ∈ State → (∀ T, T ∈ Before ++ After → T ∉ State) → usedAt State (Before ++ R :: After) = 1.
Proof.
  intros HR H. unfold usedAt. rewrite filter_app, filter_cons_True, length_app by done. cbn.
  assert (usedAt State Before = 0 ∧ usedAt State After = 0) as [H1 H2]; [split; apply usedAt_nil; intros T HT; apply H, elem_of_app; auto|].
  unfold usedAt in *. lia.
Qed.

Lemma usedAt_both State R T : R ∈ State → T ∈ State → usedAt State [R; T] = 2.
Proof. intros HR HT. unfold usedAt. by rewrite !filter_cons_True. Qed.

Lemma positionStep_spec strict p State req State' req' :
  length p = 1 ∨ length p = 2 → NoDup p → (strict = true → usedAt State p ≤ 1) →
  positionStep strict p (Some (State, req)) = Some (State', req') →
  State ⊆ State' ∧ State' ⊆ State ∪ list_to_set p ∧
  if req' then usedAt State' p = 1 else req = false ∧ usedAt State' p = 0.
Proof.
  intros Hp HN HS. destruct p as [|R [|T [|? ?]]]; cbn in Hp; [lia| | |lia]; cbn [positionStep option_fmap option_map fmap fillStep list_to_set].
  - pose proof (usedAt_one State' [] R []) as H1. cbn [app] in H1. case_bool_decide as HR; [intros [= <- <-]|destruct req; intros [= <- <-]];
      (split_and!; [set_solver|set_solver|..]); try (apply H1; [set_solver|intros ? []%not_elem_of_nil]); [done|apply usedAt_nil; set_solver].
  - pose proof (usedAt_one State' [] R [T]) as H1. pose proof (usedAt_one State' [R] T []) as H2. cbn [app] in H1, H2.
    rewrite NoDup_cons, list_elem_of_singleton in HN. destruct HN as [HN _]. cbn. case_bool_decide as HR; case_bool_decide as HT.
    + destruct strict; [|done]. rewrite usedAt_both in HS by done. specialize (HS eq_refl). lia.
    + intros [= <- <-]. split_and!; [done|set_solver|]. apply H1; [done|]. by intros ? ->%list_elem_of_singleton.
    + intros [= <- <-]. split_and!; [done|set_solver|]. apply H2; [done|]. by intros ? ->%list_elem_of_singleton.
    + destruct req; [destruct strict; [|done]|]; intros [= <- <-]; (split_and!; [set_solver|set_solver|..]); [|done|apply usedAt_nil; set_solver].
      apply H1; [set_solver|]. intros ? ->%list_elem_of_singleton. set_solver.
Qed.

Lemma positionStep_None strict p st : positionStep strict p None = st → (length p = 1 ∨ length p = 2) → st = None.
Proof. destruct p as [|R [|T [|? ?]]]; cbn; intros <- Hp; (done || lia). Qed.

Lemma positionSteps_resolved strict ps State State' req :
  Forall (λ p, length p = 1 ∨ length p = 2) ps → NoDup (concat ps) → (strict = true → Forall (λ p, usedAt State p ≤ 1) ps) →
  foldr (positionStep strict) (Some (State, false)) ps = Some (State', req) →
  State ⊆ State' ∧ State' ⊆ State ∪ list_to_set (concat ps) ∧ resolved State' ps req.
Proof.
  revert State' req. induction ps as [|p ps IH]; intros State' req HL HN HS; cbn [foldr].
  - intros [= <- <-]. split_and!; [done|set_solver|]. exists 0. split_and!; [done|split; [done|lia]|constructor|constructor].
  - apply Forall_cons in HL as [Hp HL]. cbn [concat] in HN. apply NoDup_app in HN as (N1 & N2 & N3).
    destruct (foldr _ _ ps) as [[S1 req1]|] eqn:E; [|intros H; by apply positionStep_None in H].
    destruct (IH S1 req1) as (I1 & I2 & I3); [done|done|intros Hs%HS; by apply Forall_cons in Hs as [_ ?]|done|].
    intros Hst. apply positionStep_spec in Hst as (J1 & J2 & J3); [|done|done|].
    + assert (list_to_set (C := RegisterSet) (p ++ concat ps) = list_to_set p ∪ list_to_set (concat ps)) as Hset by apply list_to_set_app_L.
      cbn [concat]. rewrite Hset. split_and!; [by transitivity S1| |].
      { intros R HR%J2. rewrite elem_of_union in HR. destruct HR as [HR%I2|HR]; rewrite ?elem_of_union in *; tauto. }
      assert (resolved State' ps req1) as (k & K1 & K2 & K3 & K4).
      { eapply resolved_agree; [|exact I3]. intros R HR. split; [apply J1|]. intros HR'%J2. apply elem_of_union in HR' as [?|HR']; [done|].
        apply elem_of_list_to_set, N2 in HR'. done. }
      destruct req.
      * exists (S k). cbn. split_and!; [lia|split; [lia|done]|by constructor|done].
      * destruct J3 as [-> J3]. exists 0. assert (k = 0) as -> by (destruct k; [done|]; destruct K2 as [_ K2]; discriminate K2; lia).
        cbn. split_and!; [lia|split; [done|lia]|constructor|by constructor].
    + intros Hs. apply HS in Hs. apply Forall_cons in Hs as [Hs _]. rewrite <-(usedAt_agree State S1); [done|].
      intros R HR. split; [apply I1|]. intros HR'%I2. apply elem_of_union in HR' as [?|HR']; [done|]. apply elem_of_list_to_set in HR'. by apply N2 in HR.
Qed.

Lemma positions_lengths Rs Ts : Forall (λ p, length p = 1 ∨ length p = 2) (positions Rs Ts).
Proof.
  assert (∀ l : list Register.Values, Forall (λ p, length p = 1 ∨ length p = 2) (map (λ R, [R]) l)) as Hs
    by (induction l; cbn; constructor; [by left|done]).
  revert Ts. induction Rs as [|R Rs IH]; intros [|T Ts]; cbn [positions]; [constructor|apply (Hs (T :: Ts))|apply (Hs (R :: Rs))|].
  constructor; [by right|apply IH].
Qed.

(** The registers that are allowed. *)
Definition allowedOf (Allowed : list Register.Values) (State : RegisterSet) : RegisterSet := filter (λ R, R ∈ Allowed) State.

Lemma ensure_spec strict State Allowed :
  ensureRegistersAreAllowed strict State Allowed =
  if strict || bool_decide (set_Forall (λ R, R ∈ Allowed) State) then Some (allowedOf Allowed State) else None.
Proof.
  unfold ensureRegistersAreAllowed, allowedOf. destruct strict; [done|]. cbn. case_bool_decide as H; [|done]. f_equal.
  apply set_eq. intros R. rewrite elem_of_filter. specialize (H R). tauto.
Qed.

(** In strict mode the deduction never gives up, and stays among the registers that
    are allowed. *)
Lemma positionSteps_strict ps State :
  Forall (λ p, length p = 1 ∨ length p = 2) ps →
  ∃ State' req, foldr (positionStep true) (Some (State, false)) ps = Some (State', req) ∧ State' ⊆ State ∪ list_to_set (concat ps).
Proof.
  induction 1 as [|p ps Hp _ (S1 & r1 & E & HS)]; [exists State, false; split; [done|set_solver]|]. cbn [foldr concat]. rewrite E.
  destruct p as [|R [|T [|? ?]]]; cbn in Hp; [lia| | |lia]; cbn.
  - case_bool_decide; [do 2 eexists; split; [done|]; set_solver|]. destruct r1; do 2 eexists; (split; [done|]); set_solver.
  - repeat case_bool_decide; try destruct r1; do 2 eexists; (split; [done|]); set_solver.
Qed.

Lemma arguments_strict D State :
  ∃ State', arguments true D State = Some State' ∧ ∀ R, R ∈ State' → R ∈ allowedArgumentRegisters D.
Proof.
  unfold arguments. rewrite ensure_spec. cbn. set (G := allowedOf _ State).
  assert (∀ R, R ∈ G → R ∈ allowedArgumentRegisters D) as HG by (intros R HR; by apply elem_of_filter in HR as [? _]).
  destruct (ArgumentsArePositionBased D).
  - rewrite deduce_positions. destruct (positionSteps_strict (positions (GeneralPurposeArgumentRegisters D) (VectorArgumentRegisters D)) G) as (S1 & r & -> & HS);
      [apply positions_lengths|]. exists S1. split; [done|]. intros R [?|HR%elem_of_list_to_set%positions_concat]%HS%elem_of_union; [by apply HG|done].
  - eexists. split; [done|]. unfold fillState, allowedArgumentRegisters in *. intros R. rewrite elem_of_union, elem_of_list_to_set, !elem_of_app.
    intros [HR|[HR|HR]]; [by apply elem_of_app, HG|left|right]; by eapply required_subset.
Qed.

Lemma returnValues_strict D State :
  ∃ State', returnValues true D State = Some State' ∧ ∀ R, R ∈ State' → R ∈ allowedReturnValueRegisters D.
Proof.
  unfold returnValues. rewrite ensure_spec. cbn. set (G := allowedOf _ State).
  assert (∀ R, R ∈ G → R ∈ allowedReturnValueRegisters D) as HG by (intros R HR; by apply elem_of_filter in HR as [? _]).
  unfold deduceReturnValues. fold (required (GeneralPurposeReturnValueRegisters D) G). fold (required (VectorReturnValueRegisters D) G).
  assert (∀ Rs Ts : list Register.Values, (∀ R, R ∈ Rs → R ∈ Ts) → (∀ R, R ∈ Ts → R ∈ allowedReturnValueRegisters D) →
    ∀ R, R ∈ fillState G Rs → R ∈ allowedReturnValueRegisters D) as HF
    by (intros Rs Ts H1 H2 R; unfold fillState; rewrite elem_of_union, elem_of_list_to_set; naive_solver).
  repeat case_bool_decide; cbn; eexists; (split; [done|]); try done;
    (eapply HF; [apply required_subset|]); intros R HR; apply elem_of_app; auto.
Qed.

(** *** Sorting *)

Lemma appendNew_spec (l Rs : list Register.Values) : NoDup l → NoDup (foldl appendNew l Rs) ∧ ∀ R, R ∈ foldl appendNew l Rs ↔ R ∈ l ∨ R ∈ Rs.
Proof.
  revert l. induction Rs as [|S Rs IH]; intros l HN; cbn [foldl]; [split; [done|set_solver]|]. unfold appendNew at 2 4.
  case_bool_decide as HS.
  - destruct (IH l HN) as [H1 H2]. split; [done|]. intros R. rewrite H2. set_solver.
  - destruct (IH (l ++ [S])) as [H1 H2]; [apply NoDup_app; split_and!; [done|set_solver|apply NoDup_singleton]|]. split; [done|]. intros R. rewrite H2. set_solver.
Qed.

Lemma argumentOrder_spec D :
  NoDup (argumentOrder D) ∧ ∀ R, R ∈ allowedArgumentRegisters D → R ∈ argumentOrder D.
Proof.
  unfold argumentOrder, allowedArgumentRegisters. set (l := if (_ : bool) then _ else _). assert (NoDup l) as HN by (subst l; destruct (_ && _); [apply NoDup_singleton|constructor]).
  destruct (appendNew_spec l (GeneralPurposeArgumentRegisters D) HN) as [H1 H2]. destruct (appendNew_spec _ (VectorArgumentRegisters D) H1) as [H3 H4].
  split; [done|]. intros R. rewrite H4, H2, elem_of_app. tauto.
Qed.

Lemma returnValueOrder_spec D :
  NoDup (returnValueOrder D) ∧ ∀ R, R ∈ allowedReturnValueRegisters D → R ∈ returnValueOrder D.
Proof.
  unfold returnValueOrder, allowedReturnValueRegisters.
  destruct (appendNew_spec [] (GeneralPurposeReturnValueRegisters D)) as [H1 H2]; [constructor|]. destruct (appendNew_spec _ (VectorReturnValueRegisters D) H1) as [H3 H4].
  split; [done|]. intros R. rewrite H4, H2, elem_of_app. tauto.
Qed.

Lemma sortBy_spec Order Registers :
  NoDup Order → NoDup Registers → (∀ R, R ∈ Registers → R ∈ Order) → ∃ l, sortBy Order Registers = Ok l ∧ l ≡ₚ Registers ∧ l `sublist_of` Order.
Proof.
  intros HO HR HI. unfold sortBy. rewrite bool_decide_eq_true_2 by done. cbn [revng_assert]. rewrite bind_ok.
  set (l := List.filter _ _). assert (∀ R, R ∈ l ↔ R ∈ Order ∧ R ∈ Registers) as Hl.
  { intros R. subst l. rewrite !list_elem_of_In, filter_In, bool_decide_eq_true. rewrite ?list_elem_of_In. tauto. }
  assert (l `sublist_of` Order) as Hsub.
  { subst l. clear. induction Order as [|R Order IH]; cbn; [constructor|]. destruct (bool_decide _); by constructor. }
  assert (l ≡ₚ Registers) as HP by (apply NoDup_Permutation; [eapply sublist_NoDup; [exact HO|exact Hsub]|done|]; intros R; rewrite Hl; split; [tauto|auto]).
  exists l. by rewrite (Permutation_length HP), Nat.eqb_refl.
Qed.

(** ** Properties *)

(** C31: when the arguments of an ABI have no fixed positions, the deduction gives the
    least set of registers that has those given, without the ones that are not
    allowed, and in which a register comes with those before it of its kind; it fails
    exactly when it has to keep to what is given and a register is not allowed. *)
Theorem arguments_closed strict D State :
  ArgumentsArePositionBased D = false → NoDup (allowedArgumentRegisters D) →
  match arguments strict D State with
  | Some State' =>
    (strict = false → State = allowedOf (allowedArgumentRegisters D) State) ∧
    leastClosed (GeneralPurposeArgumentRegisters D) (VectorArgumentRegisters D) (allowedOf (allowedArgumentRegisters D) State) State'
  | None => strict = false ∧ ∃ R, R ∈ State ∧ R ∉ allowedArgumentRegisters D
  end.
Proof.
  intros HPos HN. unfold arguments. rewrite ensure_spec. destruct (strict || _) eqn:E; cbn.
  - rewrite HPos. cbn. split; [|by apply fill_least]. intros ->. apply bool_decide_eq_true in E. apply set_eq. intros R. unfold allowedOf.
    rewrite elem_of_filter. specialize (E R). tauto.
  - apply orb_false_iff in E as [-> E%bool_decide_eq_false]. split; [done|].
    destruct (decide (filter (λ R, R ∉ allowedArgumentRegisters D) State = ∅)) as [HE|HE].
    + destruct E. intros R HR. destruct (decide (R ∈ allowedArgumentRegisters D)) as [|Hno]; [done|].
      assert (R ∈ filter (λ R, R ∉ allowedArgumentRegisters D) State) as Hin by by apply elem_of_filter. rewrite HE in Hin. by apply elem_of_empty in Hin.
    + apply set_choose_L in HE as [R [HR HS]%elem_of_filter]. by exists R.
Qed.

(** When they have, and the registers given are at most one per position, which
    the deduction requires anyway unless it is strict, each of the positions up to the
    last one used has exactly one register, and the others have none. *)
Theorem positions_resolved strict D State State' :
  ArgumentsArePositionBased D = true → NoDup (allowedArgumentRegisters D) →
  (strict = true → Forall (λ p, usedAt State p ≤ 1) (positions (GeneralPurposeArgumentRegisters D) (VectorArgumentRegisters D))) →
  arguments strict D State = Some State' →
  allowedOf (allowedArgumentRegisters D) State ⊆ State' ∧ (∀ R, R ∈ State' → R ∈ allowedArgumentRegisters D) ∧
  ∃ k, let ps := positions (GeneralPurposeArgumentRegisters D) (VectorArgumentRegisters D) in
    Forall (λ p, usedAt State' p = 1) (take k ps) ∧ Forall (λ p, usedAt State' p = 0) (drop k ps).
Proof.
  intros HPos HN HS. unfold arguments. rewrite ensure_spec. destruct (strict || _); [|done]. cbn. rewrite HPos, deduce_positions.
  destruct (foldr _ _ _) as [[S1 req]|] eqn:E; [|done]. intros [= <-].
  apply positionSteps_resolved in E as (H1 & H2 & k & _ & _ & H3 & H4); [|apply positions_lengths|by apply positions_NoDup|].
  - split_and!; [done| |by exists k]. intros R [[? _]%elem_of_filter|HR%elem_of_list_to_set%positions_concat]%H2%elem_of_union; done.
  - intros Hs. apply HS in Hs. rewrite Forall_forall in *. intros p Hp. rewrite <-(usedAt_agree State _ p); [by apply Hs|].
    intros R HR. unfold allowedOf. rewrite elem_of_filter. split; [|tauto]. intros HR'. split; [|done].
    apply positions_concat, list_elem_of_In, in_concat. exists p. split; by apply list_elem_of_In.
Qed.

(** Enforcing an ABI succeeds whatever the registers given; what remains is
    allowed, and can be sorted in the order of the ABI. *)
Theorem enforce_sortable D State :
  (∃ State' l, enforceArgumentRegisterState D State = Ok State' ∧ (∀ R, R ∈ State' → R ∈ allowedArgumentRegisters D) ∧
     sortArguments D (elements State') = Ok l ∧ l ≡ₚ elements State' ∧ l `sublist_of` argumentOrder D) ∧
  (∃ State' l, enforceReturnValueRegisterState D State = Ok State' ∧ (∀ R, R ∈ State' → R ∈ allowedReturnValueRegisters D) ∧
     sortReturnValues D (elements State') = Ok l ∧ l ≡ₚ elements State' ∧ l `sublist_of` returnValueOrder D).
Proof.
  unfold enforceArgumentRegisterState, enforceReturnValueRegisterState. split.
  - destruct (arguments_strict D State) as (S1 & -> & H1). destruct (argumentOrder_spec D) as [H2 H3].
    destruct (sortBy_spec (argumentOrder D) (elements S1)) as (l & H4); [done|apply NoDup_elements|intros R HR%elem_of_elements; by apply H3, H1|].
    by exists S1, l.
  - destruct (returnValues_strict D State) as (S1 & -> & H1). destruct (returnValueOrder_spec D) as [H2 H3].
    destruct (sortBy_spec (returnValueOrder D) (elements S1)) as (l & H4); [done|apply NoDup_elements|intros R HR%elem_of_elements; by apply H3, H1|].
    by exists S1, l.
Qed.

(** When both registers of a position are given, the strict deduction drops one of
    them and forgets that the positions before it are used. *)
Fact enforce_leaves_holes :
  enforceArgumentRegisterState ABIData.Microsoft_x86_64 {[Register.r9_x86_64; Register.zmm3_x86_64]} = Ok {[Register.r9_x86_64]}.
Proof. by vm_compute. Qed.

(** ** Witnesses *)

Lemma arguments_closed_witness :
  leastClosed (GeneralPurposeArgumentRegisters ABIData.SystemV_x86_64) (VectorArgumentRegisters ABIData.SystemV_x86_64)
    {[Register.rdx_x86_64]} {[Register.rdi_x86_64; Register.rsi_x86_64; Register.rdx_x86_64]}.
Proof.
  assert (bool_decide (NoDup (allowedArgumentRegisters ABIData.SystemV_x86_64)) = true) as HN by by vm_compute.
  pose proof (arguments_closed true ABIData.SystemV_x86_64 {[Register.rdx_x86_64; Register.rax_x86_64]} eq_refl (bool_decide_eq_true_1 _ HN)) as H.
  assert (arguments true ABIData.SystemV_x86_64 {[Register.rdx_x86_64; Register.rax_x86_64]} =
    Some {[Register.rdi_x86_64; Register.rsi_x86_64; Register.rdx_x86_64]}) as HE by by vm_compute. rewrite HE in H. destruct H as [_ H].
  assert (allowedOf (allowedArgumentRegisters ABIData.SystemV_x86_64) {[Register.rdx_x86_64; Register.rax_x86_64]} = {[Register.rdx_x86_64]}) as HA by by vm_compute.
  rewrite HA in H. exact H.
Defined.

Lemma positions_resolved_witness :
  ∃ State', arguments false ABIData.Microsoft_x86_64 {[Register.zmm0_x86_64; Register.rdx_x86_64]} = Some State' ∧ Register.zmm0_x86_64 ∈ State' ∧
    ∃ k, Forall (λ p, usedAt State' p = 1)
      (take k (positions (GeneralPurposeArgumentRegisters ABIData.Microsoft_x86_64) (VectorArgumentRegisters ABIData.Microsoft_x86_64))).
Proof.
  assert (bool_decide (NoDup (allowedArgumentRegisters ABIData.Microsoft_x86_64)) = true) as HN by by vm_compute.
  destruct (arguments false ABIData.Microsoft_x86_64 {[Register.zmm0_x86_64; Register.rdx_x86_64]}) as [State'|] eqn:HE; [|vm_compute in HE; discriminate HE].
  destruct (positions_resolved false ABIData.Microsoft_x86_64 _ State' eq_refl (bool_decide_eq_true_1 _ HN) ltac:(discriminate) HE) as (H1 & _ & k & H2 & _).
  exists State'. split; [done|]. split; [|by exists k]. apply H1, elem_of_filter. split; [|set_solver]. by apply (bool_decide_eq_true_1 _); vm_compute.
Defined.
