(* ===== verification/Layout.v ===== *)
(** * Layout of functions

    [abi::FunctionType::Layout] (include/revng/ABI/FunctionType/Layout.h,
    lib/ABI/FunctionType/Layout.cpp): where the arguments and the return value of a
    function are, according to its prototype, and what can be asked of it. *)

From S2P Require Import Prelude.
From stdpp Require Import gmap sorting strings.
From S2P Require Architecture.
From S2P Require ABI.
From S2P Require Register.
From S2P Require CDataModel.
From S2P Require Import ModelTypes.
From S2P Require Import ModelSize.
From S2P Require Import ABIDefinition.
From S2P Require ABIData.
From S2P Require Import ValueDistributor.

Local Open Scope Z_scope.

(** ** Data *)

Module ArgumentKind.
(* include/revng/ABI/FunctionType/Layout.h:29-36 ArgumentKind::Values *)
Inductive Values : Set := Scalar | PointerToCopy | ReferenceToAggregate | ShadowPointerToAggregateReturnValue | Count.

#[global] Instance Values_eq_dec : EqDecision Values.
Proof. solve_decision. Defined.

(* include/revng/ABI/FunctionType/Layout.h:38-51 ArgumentKind::getName *)
Definition getName (K : Values) : outcome string :=
  match K with
  | Scalar => Ok "Scalar"%string
  | PointerToCopy => Ok "PointerToCopy"%string
  | ReferenceToAggregate => Ok "ReferenceToAggregate"%string
  | ShadowPointerToAggregateReturnValue => Ok "ShadowPointerToAggregateReturnValue"%string
  | Count => revng_abort
  end.

(* include/revng/ABI/FunctionType/Layout.h:53-64 ArgumentKind::fromName *)
Definition fromName (Kind : string) : outcome Values :=
  if String.eqb Kind "Scalar" then Ok Scalar
  else if String.eqb Kind "PointerToCopy" then Ok PointerToCopy
  else if String.eqb Kind "ReferenceToAggregate" then Ok ReferenceToAggregate
  else if String.eqb Kind "ShadowPointerToAggregateReturnValue" then Ok ShadowPointerToAggregateReturnValue
  else revng_abort.
End ArgumentKind.

Module ReturnMethod.
(* include/revng/ABI/FunctionType/Layout.h:69-74 ReturnMethod::Values *)
Inductive Values : Set := Void | ModelAggregate | Scalar | RegisterSet.
End ReturnMethod.

(* include/revng/ABI/FunctionType/Layout.h:80-86 Layout::ReturnValue *)
Record ReturnValue := mkReturnValue { ReturnType : UpcastableType; ReturnRegisters : list Register.Values }.

(* include/revng/ABI/FunctionType/Layout.h:92-98 Layout::Argument::StackSpan *)
Record StackSpan := mkSpan { SpanOffset : Z; SpanSize : Z }.

(* include/revng/ABI/FunctionType/Layout.h:88-103 Layout::Argument *)
Record Argument := mkArgument {
  ArgumentType : UpcastableType;
  ArgumentRegisters : list Register.Values;
  Stack : option StackSpan;
  Kind : ArgumentKind.Values;
}.

(* include/revng/ABI/FunctionType/Layout.h:78-110 Layout *)
Record Layout := mkLayout {
  Arguments : list Argument;
  ReturnValues : list ReturnValue;
  CalleeSavedRegisters : list Register.Values;
  FinalStackOffset : Z;
}.

(* include/revng/ABI/FunctionType/Layout.h:209-217 operator+ *)
Definition shift (Span : StackSpan) (Offset_ : Z) : StackSpan := mkSpan (wrap 64 (SpanOffset Span + Offset_)) (SpanSize Span).

(** ** Queries *)

(* lib/ABI/FunctionType/Layout.cpp:644-651 Layout::argumentRegisters *)
Definition argumentRegisters (L : Layout) : list Register.Values := Arguments L ≫= ArgumentRegisters.

(* lib/ABI/FunctionType/Layout.cpp:653-661 Layout::returnValueRegisters *)
Definition returnValueRegisters (L : Layout) : list Register.Values := ReturnValues L ≫= ReturnRegisters.

(* lib/ABI/FunctionType/Layout.cpp:626-633 Layout::argumentRegisterCount *)
Definition argumentRegisterCount (L : Layout) : nat :=
  foldl (λ Result A, (Result + length (ArgumentRegisters A))%nat) 0%nat (Arguments L).

(* lib/ABI/FunctionType/Layout.cpp:635-642 Layout::returnValueRegisterCount *)
Definition returnValueRegisterCount (L : Layout) : nat :=
  foldl (λ Result R, (Result + length (ReturnRegisters R))%nat) 0%nat (ReturnValues L).

(* include/revng/ABI/FunctionType/Layout.h:159-163 Layout::hasSPTAR *)
Definition hasSPTAR (L : Layout) : bool :=
  match Arguments L with
  | A :: _ => bool_decide (Kind A = ArgumentKind.ShadowPointerToAggregateReturnValue)
  | [] => false
  end.

(** The check of the registers of a list: the architecture all registers share, or
    [None] when the verification fails; [Architecture.Invalid] is not known yet. *)
(* lib/ABI/FunctionType/Layout.cpp:546-558 Layout::verify *)
Fixpoint verifyRegisters (Rs LookupHelper : list Register.Values) (ExpectedA : Architecture.Values) : outcome (option Architecture.Values) :=
  match Rs with
  | [] => Ok (Some ExpectedA)
  | R :: Rs =>
    if bool_decide (R ∈ LookupHelper) then Ok None else
    A ← Register.getReferenceArchitecture R;
    if bool_decide (ExpectedA = Architecture.Invalid) then verifyRegisters Rs (R :: LookupHelper) A
    else if bool_decide (ExpectedA ≠ A) then Ok None
    else verifyRegisters Rs (R :: LookupHelper) ExpectedA
  end.

(** The check of the arguments that tell where the return value goes. *)
(* lib/ABI/FunctionType/Layout.cpp:580-614 Layout::verify *)
Fixpoint verifySPTAR (ExpectedA : Architecture.Values) (As : list Argument) (SPTARFound IsFirst : bool) : outcome bool :=
  match As with
  | [] => Ok true
  | A :: As =>
    if bool_decide (Kind A = ArgumentKind.ShadowPointerToAggregateReturnValue) then
      if negb IsFirst then Ok false
      else if SPTARFound then Ok false
      else match Stack A with
           | Some Span =>
             revng_assert (bool_decide (ExpectedA ≠ Architecture.Invalid));;
             PointerSize ← Architecture.getPointerSize ExpectedA;
             if negb (SpanSize Span =? PointerSize) || negb (SpanOffset Span =? 0) then Ok false
             else verifySPTAR ExpectedA As SPTARFound false
           | None =>
             if negb (Nat.eqb (length (ArgumentRegisters A)) 1) then Ok false else verifySPTAR ExpectedA As SPTARFound false
           end
    else verifySPTAR ExpectedA As SPTARFound false
  end.

(* lib/ABI/FunctionType/Layout.cpp:543-624 Layout::verify *)
Definition verify (L : Layout) : outcome bool :=
  V ← verifyRegisters (argumentRegisters L) [] Architecture.Invalid;
  match V with
  | None => Ok false
  | Some A =>
    V ← verifyRegisters (returnValueRegisters L) [] A;
    match V with
    | None => Ok false
    | Some A =>
      V ← verifyRegisters (CalleeSavedRegisters L) [] A;
      match V with
      | None => Ok false
      | Some A =>
        Shadow ← verifySPTAR A (Arguments L) false true;
        if negb Shadow then Ok false
        else Ok (if (1 <? length (ReturnValues L))%nat
                 then forallb (λ R, (length (ReturnRegisters R) <=? 1)%nat) (ReturnValues L) else true)
      end
    end
  end.

(** ** Layouts of prototypes *)

Section layouts.
  Context `{LLVMAlign} (B : list TypeDefinition) (fuel : nat).

(* include/revng/ABI/FunctionType/Layout.h:165-182 Layout::returnMethod *)
Definition returnMethod (L : Layout) : outcome ReturnMethod.Values :=
  if hasSPTAR L then revng_assert (length (ReturnValues L) <=? 1)%nat;; Ok ReturnMethod.ModelAggregate
  else match ReturnValues L with
       | [] => Ok ReturnMethod.Void
       | [R] =>
         Scalar ← isScalar B fuel (TypeNode (ReturnType R));
         Ok (if negb Scalar then ReturnMethod.ModelAggregate else ReturnMethod.Scalar)
       | _ => Ok ReturnMethod.RegisterSet
       end.

(* include/revng/Model/CommonTypeMethods.h:252-253 getPointee *)
Definition getPointee (T : UpcastableType) : outcome UpcastableType :=
  P ← getPointer B fuel (TypeNode T);
  match P with Some (PointerType _ _ Pointee) => Ok Pointee | _ => revng_abort end.

(* include/revng/ABI/FunctionType/Layout.h:185-197 Layout::returnValueAggregateType *)
Definition returnValueAggregateType (L : Layout) : outcome UpcastableType :=
  M ← returnMethod L;
  revng_assert (match M with ReturnMethod.ModelAggregate => true | _ => false end);;
  match Arguments L, ReturnValues L with
  | A :: _, _ => if hasSPTAR L then getPointee (ArgumentType A)
                 else match ReturnValues L with R :: _ => Ok (ReturnType R) | [] => undefined end
  | [], R :: _ => Ok (ReturnType R)
  | [], [] => undefined
  end.

(** *** From the prototype of a C function *)

Section converter.
  Context (D : Definition_).

(* lib/ABI/FunctionType/Layout.cpp:49-52 ToRawConverter::distributeReturnValue *)
Definition distributeReturnValue (T : UpcastableType) : outcome DistributedValue :=
  V ← make D; returnValue D B fuel T V.

(* lib/ABI/FunctionType/Layout.cpp:352-355 ToRawConverter::distributeArguments *)
Fixpoint nextArguments (Ts : list UpcastableType) (V : ValueDistributor) : outcome (list DistributedValue * ValueDistributor) :=
  match Ts with
  | [] => Ok ([], V)
  | T :: Ts => '(rs, V) ← nextArgument D B fuel T V; '(Others, V) ← nextArguments Ts V; Ok (rs ++ Others, V)
  end.

(** Drops the padding after a value. *)
Definition unpad (d : DistributedValue) : DistributedValue :=
  mkDistributed (Registers d) (Size_ d) (PrePaddingSize d) 0 (SizeOnStack d - PostPaddingSize d) (OffsetOnStack d)
    (UsesPointerToCopy d) (RepresentsPadding d).

(** A value and the next one. *)
(* lib/ABI/FunctionType/Layout.cpp:358-368 ToRawConverter::distributeArguments *)
Definition packPair (Current Next : DistributedValue) : outcome DistributedValue :=
  if negb (SizeOnStack Current =? 0) && negb (SizeOnStack Next =? 0)
     && (OffsetOnStack Next <? wrap 64 (OffsetOnStack Current + SizeOnStack Current)) then
    let Current := unpad Current in
    revng_assert (wrap 64 (OffsetOnStack Current + SizeOnStack Current) <=? OffsetOnStack Next);; Ok Current
  else Ok Current.

(* lib/ABI/FunctionType/Layout.cpp:357-377 ToRawConverter::distributeArguments *)
Fixpoint packArguments (Result : list DistributedValue) : outcome (list DistributedValue) :=
  match Result with
  | [] => Ok []
  | [Last] => Ok [if negb (SizeOnStack Last =? 0) then unpad Last else Last]
  | Current :: (Next :: _) as Rest => Current ← packPair Current Next; Rest ← packArguments Rest; Ok (Current :: Rest)
  end.

(* lib/ABI/FunctionType/Layout.cpp:345-380 ToRawConverter::distributeArguments *)
Definition distributeArguments (Ts : list UpcastableType) (HasReturnValueLocationArgument : bool) : outcome (list DistributedValue) :=
  V ← start D HasReturnValueLocationArgument;
  '(Result, _) ← nextArguments Ts V;
  if PackStackArguments D then packArguments Result else Ok Result.

(* lib/ABI/FunctionType/Layout.cpp:308-326 ToRawConverter::finalStackOffset *)
Definition finalStackOffset (SizeOfArgumentsOnStack : Z) : outcome Z :=
  A ← getArchitecture D;
  Result ← Architecture.getCallPushSize A;
  if CalleeIsResponsibleForStackCleanup D then
    let Result := wrap 64 (Result + SizeOfArgumentsOnStack) in
    revng_assert (CDataModel.hasSingleBit (StackAlignment D));;
    Ok (Z.land (wrap 64 (Result + (StackAlignment D - 1))) (Z.lxor (Z.ones 64) (StackAlignment D - 1)))
  else Ok Result.

(* lib/ABI/FunctionType/Layout.cpp:328-343 ToRawConverter::combinedStackArgumentSize *)
Definition combinedStackArgumentSize (ReturnType_ : UpcastableType) (Ts : list UpcastableType) : outcome Z :=
  OnStack ← (if isEmpty ReturnType_ then Ok 0 else RV ← distributeReturnValue ReturnType_; Ok (SizeOnStack RV));
  V ← start D (negb (OnStack =? 0));
  '(_, V) ← nextArguments Ts V;
  Ok (UsedStackOffset V).

(** The return values of a function that has a return type, and the argument that
    points to the location of the return value, if there is one. *)
(* lib/ABI/FunctionType/Layout.cpp:399-448 Layout::Layout *)
Definition layoutReturnValue (T : UpcastableType) : outcome (list ReturnValue * option Argument) :=
  A ← getArchitecture D;
  RV ← distributeReturnValue T;
  if SizeOnStack RV =? 0 then Ok ([mkReturnValue T (Registers RV)], None)
  else
    revng_assert (bool_decide (Registers RV = []));;
    PointerSize_ ← Architecture.getPointerSize A;
    let Pointer := PointerType false PointerSize_ T in
    PointerSize ← getPointerSize D;
    RVLocationIn ←
      (if bool_decide (ReturnValueLocationRegister D ≠ Register.Invalid) then
         Ok (mkArgument Pointer [ReturnValueLocationRegister D] None ArgumentKind.ShadowPointerToAggregateReturnValue)
       else if ReturnValueLocationOnStack D then
         Ok (mkArgument Pointer [] (Some (mkSpan 0 PointerSize)) ArgumentKind.ShadowPointerToAggregateReturnValue)
       else revng_abort);
    if ReturnValueLocationIsReturned D then
      RVOut ← distributeReturnValue Pointer;
      revng_assert (Size_ RVOut =? PointerSize);;
      revng_assert (Nat.eqb (length (Registers RVOut)) 1);;
      revng_assert (SizeOnStack RVOut =? 0);;
      Ok ([mkReturnValue Pointer (Registers RVOut)], Some RVLocationIn)
    else Ok ([], Some RVLocationIn).

(** The kind of an argument, of the value it was given. *)
(* lib/ABI/FunctionType/Layout.cpp:464-472 Layout::Layout *)
Definition kindOf (T : UpcastableType) (Distributed : DistributedValue) : outcome ArgumentKind.Values :=
  if UsesPointerToCopy Distributed then Ok ArgumentKind.PointerToCopy
  else Scalar ← isScalar B fuel (TypeNode T);
       Ok (if (Scalar : bool) then ArgumentKind.Scalar else ArgumentKind.ReferenceToAggregate).

(** An argument is found by its index. *)
Definition argumentAt (Args : list ModelTypes.Argument) (Index : Z) : outcome ModelTypes.Argument :=
  match List.find (λ A, ModelTypes.ArgumentIndex A =? Index) Args with
  | Some A => Ok A
  | None => Fault AssertionFailed
  end.

(** The values that are not padding, each with the argument it is for;
    [StackStructSize] is that of the last one on the stack. *)
(* lib/ABI/FunctionType/Layout.cpp:456-486 Layout::Layout *)
Fixpoint layoutArguments (Args : list ModelTypes.Argument) (Converted : list DistributedValue) (Index StackStructSize : Z) :
    outcome (list Argument * Z) :=
  match Converted with
  | [] => Ok ([], StackStructSize)
  | d :: Converted =>
    if RepresentsPadding d then layoutArguments Args Converted Index StackStructSize
    else
      A ← argumentAt Args Index;
      let T := ModelTypes.ArgumentType A in
      K ← kindOf T d;
      let OnStack := negb (SizeOnStack d =? 0) in
      let Span := if OnStack then Some (mkSpan (OffsetOnStack d) (SizeOnStack d)) else None in
      '(Rest, Size) ← layoutArguments Args Converted (Index + 1)
        (if OnStack then wrap 64 (OffsetOnStack d + SizeOnStack d) else StackStructSize);
      Ok (mkArgument T (Registers d) Span K :: Rest, Size)
  end.

(* lib/ABI/FunctionType/Layout.cpp:391-501 Layout::Layout *)
Definition layoutWith (ReturnType_ : UpcastableType) (Args : list ModelTypes.Argument) : outcome Layout :=
  '(Returned, Shadow) ← (if isEmpty ReturnType_ then Ok ([], None) else layoutReturnValue ReturnType_);
  Converted ← distributeArguments (map ModelTypes.ArgumentType Args) (match Shadow with Some _ => true | None => false end);
  revng_assert (length Args <=? length Converted)%nat;;
  '(As, StackStructSize) ← layoutArguments Args Converted 0 0;
  revng_assert (Nat.eqb (length As) (length Args));;
  Final ← finalStackOffset StackStructSize;
  Ok (mkLayout (match Shadow with Some A => A :: As | None => As end) Returned (ABIDefinition.CalleeSavedRegisters D) Final).

(** *** The registers that are used *)

(* include/revng/ABI/FunctionType/Layout.h:265-268 UsedRegisters *)
Record UsedRegisters := mkUsed { UsedArguments : list Register.Portion; UsedReturnValues : list Register.Portion }.

(** A value that uses one register takes its size of it; otherwise registers are
    taken whole. *)
(* lib/ABI/FunctionType/Layout.cpp:681-696 usedRegisters *)
Definition portionsOf (d : DistributedValue) : outcome (list Register.Portion) :=
  match Registers d with
  | [R] => P ← Register.portionOf R (Size_ d); Ok [P]
  | Rs => mapM (λ R, s ← Register.getSize R; Register.portionOf R s) Rs
  end.

(** The loop over the arguments, until none can use registers. *)
(* lib/ABI/FunctionType/Layout.cpp:722-740 usedRegisters *)
Fixpoint usedByArguments (Ts : list UpcastableType) (V : ValueDistributor) : outcome (list Register.Portion) :=
  match Ts with
  | [] => Ok []
  | T :: Ts =>
    '(Distributed, V) ← nextArgument D B fuel T V;
    Ps ← mapM portionsOf (filter (λ d, RepresentsPadding d = false) Distributed);
    Rest ← (if canNextArgumentUseRegisters D V then usedByArguments Ts V else Ok []);
    Ok (mjoin Ps ++ Rest)
  end.

(* lib/ABI/FunctionType/Layout.cpp:672-743 usedRegisters *)
Definition usedRegisters (ReturnType_ : UpcastableType) (Ts : list UpcastableType) : outcome UsedRegisters :=
  RV ← (if isEmpty ReturnType_ then Ok voidReturnValue else distributeReturnValue ReturnType_);
  Returned ← portionsOf RV;
  V ← make D;
  '(V, Returned, Args) ←
    (if negb (SizeOnStack RV =? 0) then
       V ← addShadowPointerReturnValueLocationArgument D V;
       revng_assert (bool_decide (Returned = []));;
       match GeneralPurposeReturnValueRegisters D with
       | [] => Fault AssertionFailed
       | R :: _ =>
         PointerSize ← getPointerSize D;
         P ← Register.portionOf R PointerSize;
         Args ← (if bool_decide (ReturnValueLocationRegister D ≠ Register.Invalid) then
                   A ← Register.portionOf (ReturnValueLocationRegister D) PointerSize; Ok [A]
                 else Ok []);
         Ok (V, [P], Args)
       end
     else Ok (V, Returned, []));
  if bool_decide (GeneralPurposeArgumentRegisters D = []) && bool_decide (VectorArgumentRegisters D = []) then Ok (mkUsed Args Returned)
  else Rest ← usedByArguments Ts V; Ok (mkUsed (Args ++ Rest) Returned).
End converter.

(* lib/ABI/FunctionType/Layout.cpp:391-501 Layout::Layout *)
Definition layoutCABI (ABI_ : ABI.Values) (ReturnType_ : UpcastableType) (Args : list ModelTypes.Argument) : outcome Layout :=
  D ← ABIData.get ABI_; layoutWith D ReturnType_ Args.

(* lib/ABI/FunctionType/Layout.cpp:663-670 finalStackOffset *)
Definition finalStackOffsetCABI (ABI_ : ABI.Values) (ReturnType_ : UpcastableType) (Args : list ModelTypes.Argument) : outcome Z :=
  D ← ABIData.get ABI_;
  Size ← (if CalleeIsResponsibleForStackCleanup D then combinedStackArgumentSize D ReturnType_ (map ModelTypes.ArgumentType Args) else Ok 0);
  finalStackOffset D Size.

(* lib/ABI/FunctionType/Layout.cpp:672-743 usedRegisters *)
Definition usedRegistersCABI (ABI_ : ABI.Values) (ReturnType_ : UpcastableType) (Args : list ModelTypes.Argument) : outcome UsedRegisters :=
  D ← ABIData.get ABI_; usedRegisters D ReturnType_ (map ModelTypes.ArgumentType Args).

(** *** From the prototype of a raw function *)

(** The final offset of the stack is a field of the prototype. *)
(* lib/ABI/FunctionType/Layout.cpp:503-541 Layout::Layout *)
Definition layoutRaw (Args Rets : list NamedTypedRegister) (PreservedRegisters : list Register.Values)
    (StackArgumentsType : UpcastableType) (FinalStackOffset_ : Z) : outcome Layout :=
  As ← mapM (λ R, Scalar ← isScalar B fuel (TypeNode (NTRType R));
                  revng_assert Scalar;;
                  Ok (mkArgument (NTRType R) [Location R] None ArgumentKind.Scalar)) Args;
  StackArg ← (if isEmpty StackArgumentsType then Ok []
              else S ← getStruct B fuel (TypeNode StackArgumentsType);
                   match S with
                   | Some (StructDefinition _ Size _) =>
                     Ok [mkArgument StackArgumentsType [] (if Size =? 0 then None else Some (mkSpan 0 Size)) ArgumentKind.ReferenceToAggregate]
                   | _ => revng_abort
                   end);
  Ok (mkLayout (As ++ StackArg) (map (λ R, mkReturnValue (NTRType R) [Location R]) Rets) PreservedRegisters FinalStackOffset_).

(** A type must have a size. *)
(* include/revng/ABI/FunctionType/Layout.h:271-281 usedRegisters *)
Definition usedRegistersRaw (Args Rets : list NamedTypedRegister) : outcome UsedRegisters :=
  let portion R := '(_, s) ← size B fuel (NTRType R) (freshVH false);
                   match s with Some s => Register.portionOf (Location R) s | None => undefined end in
  As ← mapM portion Args; Rs ← mapM portion Rets; Ok (mkUsed As Rs).

(** The prototype of a function: its definition, and the final offset of a raw one. *)
(* include/revng/ABI/FunctionType/Layout.h:117-128 Layout::make *)
Definition layoutOf (Prototype : TypeDefinition) (FinalStackOffset_ : Z) : outcome Layout :=
  match Prototype with
  | CABIFunctionDefinition _ A R Args => layoutCABI A R Args
  | RawFunctionDefinition _ _ Args Rets Preserved StackArgs => layoutRaw Args Rets Preserved StackArgs FinalStackOffset_
  | _ => revng_abort
  end.

(* include/revng/ABI/FunctionType/Layout.h:219-237 calleeSavedRegisters *)
Definition calleeSavedRegisters (Prototype : TypeDefinition) : outcome (list Register.Values) :=
  match Prototype with
  | CABIFunctionDefinition _ A _ _ => ABIDefinition.CalleeSavedRegisters <$> ABIData.get A
  | RawFunctionDefinition _ _ _ _ Preserved _ => Ok Preserved
  | _ => revng_abort
  end.

(* include/revng/ABI/FunctionType/Layout.h:246-258 finalStackOffset *)
Definition finalStackOffsetOf (Prototype : TypeDefinition) (FinalStackOffset_ : Z) : outcome Z :=
  match Prototype with
  | CABIFunctionDefinition _ A R Args => finalStackOffsetCABI A R Args
  | RawFunctionDefinition _ _ _ _ _ _ => Ok FinalStackOffset_
  | _ => revng_abort
  end.

(* include/revng/ABI/FunctionType/Layout.h:283-290 usedRegisters *)
Definition usedRegistersOf (Prototype : TypeDefinition) : outcome UsedRegisters :=
  match Prototype with
  | CABIFunctionDefinition _ A R Args => usedRegistersCABI A R Args
  | RawFunctionDefinition _ _ Args Rets _ _ => usedRegistersRaw Args Rets
  | _ => revng_abort
  end.
End layouts.
