(* ===== verification/LayoutProperties.v ===== *)
(** * Properties of the layout of functions

    For the ABIs that come with rev.ng, a function whose types have sizes has a
    layout, and the layout verifies. *)

From S2P Require Import Prelude.
From stdpp Require Import gmap sorting.
From S2P Require Architecture.
From S2P Require ABI.
From S2P Require Register.
From S2P Require PrimitiveKind.
From S2P Require PrimitiveType.
From S2P Require CDataModel.
From S2P Require Import ModelTypes.
From S2P Require Import ModelSize.
From S2P Require Import ABIDefinition.
From S2P Require ABIData.
From S2P Require Import Alignment.
From S2P Require Import ValueDistributor.
From S2P Require Import ValueDistribution.
From S2P Require Import Layout.

Local Open Scope Z_scope.

(** ** ABIs *)

(** All the registers the ABI mentions. *)
Definition mentioned (D : Definition_) : list Register.Values :=
  GeneralPurposeArgumentRegisters D ++ VectorArgumentRegisters D ++ GeneralPurposeReturnValueRegisters D ++
  VectorReturnValueRegisters D ++ ABIDefinition.CalleeSavedRegisters D ++
  (if bool_decide (ReturnValueLocationRegister D = Register.Invalid) then [] else [ReturnValueLocationRegister D]).

(** The architecture of the registers. *)
Definition referenceOf (D : Definition_) : outcome Architecture.Values :=
  match mentioned D with R :: _ => Register.getReferenceArchitecture R | [] => revng_abort end.

Definition isOk {A} (m : outcome A) : bool := match m with Ok _ => true | Fault _ => false end.

(** What laying a function out asks of an ABI, other than [soundABI]. *)
Definition soundLayout (D : Definition_) : bool :=
  match getPointerSize D, referenceOf D with
  | Ok P, Ok A =>
    bool_decide (ABIDefinition.verify D = Ok true) && bool_decide (A ≠ Architecture.Invalid) &&
    bool_decide (Architecture.getPointerSize A = Ok P) &&
    forallb (λ R, bool_decide (Register.getReferenceArchitecture R = Ok A)) (mentioned D) &&
    bool_decide (NoDup (GeneralPurposeReturnValueRegisters D)) && bool_decide (NoDup (VectorReturnValueRegisters D)) &&
    bool_decide (NoDup (ABIDefinition.CalleeSavedRegisters D)) &&
    negb (bool_decide (GeneralPurposeReturnValueRegisters D = [])) && negb (bool_decide (ABIDefinition.CalleeSavedRegisters D = [])) &&
    (length (GeneralPurposeReturnValueRegisters D) <=? 64)%nat && (length (VectorReturnValueRegisters D) <=? 64)%nat &&
    forallb (λ R, bool_decide (Register.getSize R = Ok P)) (GeneralPurposeReturnValueRegisters D) &&
    forallb (λ R, isOk (Register.getSize R)) (VectorReturnValueRegisters D) &&
    (1 <=? MaximumGPRsPerScalarReturnValue D) && (MaximumGPRsPerScalarReturnValue D <=? 64) &&
    (0 <=? MaximumGPRsPerAggregateReturnValue D) && (MaximumGPRsPerAggregateReturnValue D <=? 64) &&
    (negb (bool_decide (ReturnValueLocationRegister D = Register.Invalid)) || ReturnValueLocationOnStack D) &&
    CDataModel.hasSingleBit (StackAlignment D) &&
    match getArchitecture D with
    | Ok A => bool_decide (Architecture.getPointerSize A = Ok P) && isOk (Architecture.getCallPushSize A)
    | Fault _ => false
    end &&
    match findIntegerType D P with
    | Some T => bool_decide (alignedAt T = Ok P)
    | None => false
    end
  | _, _ => false
  end.

Fact shipped_layouts : forallb soundLayout ABIData.shipped = true.
Proof. by vm_compute. Qed.

Record SoundLayout (D : Definition_) (P : Z) (A : Architecture.Values) : Prop := {
  layout_sound : Sound D P;
  layout_verify : ABIDefinition.verify D = Ok true;
  layout_architecture : A ≠ Architecture.Invalid ∧ Architecture.getPointerSize A = Ok P;
  layout_reference R : R ∈ mentioned D → Register.getReferenceArchitecture R = Ok A;
  layout_NoDup : NoDup (GeneralPurposeReturnValueRegisters D) ∧ NoDup (VectorReturnValueRegisters D) ∧
    NoDup (ABIDefinition.CalleeSavedRegisters D);
  layout_nonempty : GeneralPurposeReturnValueRegisters D ≠ [];
  layout_saved : ABIDefinition.CalleeSavedRegisters D ≠ [];
  layout_lengths : (length (GeneralPurposeReturnValueRegisters D) ≤ 64 ∧ length (VectorReturnValueRegisters D) ≤ 64)%nat;
  layout_GPRs R : R ∈ GeneralPurposeReturnValueRegisters D → Register.getSize R = Ok P;
  layout_VRs R : R ∈ VectorReturnValueRegisters D → ∃ s, Register.getSize R = Ok s;
  layout_scalars : 1 ≤ MaximumGPRsPerScalarReturnValue D ≤ 64;
  layout_aggregates : 0 ≤ MaximumGPRsPerAggregateReturnValue D ≤ 64;
  layout_location : ReturnValueLocationRegister D ≠ Register.Invalid ∨ ReturnValueLocationOnStack D = true;
  layout_stack : CDataModel.hasSingleBit (StackAlignment D) = true;
  layout_push : ∃ A c, getArchitecture D = Ok A ∧ Architecture.getPointerSize A = Ok P ∧ Architecture.getCallPushSize A = Ok c;
  layout_integer : ∃ T, findIntegerType D P = Some T ∧ alignedAt T = Ok P;
}.

Lemma isOk_spec {A} (m : outcome A) : isOk m = true → ∃ a, m = Ok a.
Proof. destruct m; [by eexists|done]. Qed.

Lemma soundLayout_spec D : soundABI D = true → soundLayout D = true → ∃ P A, SoundLayout D P A.
Proof.
  intros (P & HD)%soundABI_spec. unfold soundLayout. rewrite (sound_pointer _ _ HD). destruct (referenceOf D) as [A|]; [|done].
  rewrite !andb_true_iff, !forallb_forall, !Z.leb_le, !Nat.leb_le, !negb_true_iff.
  intros [[[[[[[[[[[[[[[[[[[[H1 H2] H3] H4] H5] H6] H7] H8] H8'] H9] H10] H11] H12] H13] H14] H15] H16] H17] H18] H19] H20].
  exists P, A. split; rewrite ?bool_decide_eq_true, ?bool_decide_eq_false in *; try done.
  - intros R HR. by apply list_elem_of_In, H4, bool_decide_eq_true in HR.
  - intros R HR. by apply list_elem_of_In, H11, bool_decide_eq_true in HR.
  - intros R HR. by apply list_elem_of_In, H12, isOk_spec in HR.
  - apply orb_true_iff in H17 as [H17|H17]; [left|by right]. by apply negb_true_iff, bool_decide_eq_false in H17.
  - destruct (getArchitecture D) as [A'|]; [|done]. apply andb_true_iff in H19 as [H19%bool_decide_eq_true (c & Hc)%isOk_spec]. by exists A', c.
  - destruct (findIntegerType D P) as [T|]; [|done]. apply bool_decide_eq_true in H20. by exists T.
Qed.

Lemma get_sound ABI_ D : ABIData.get ABI_ = Ok D → soundABI D = true ∧ soundLayout D = true ∧ scalarsAligned 4 D = true.
Proof. intros H. destruct ABI_; try discriminate H; injection H as <-; by vm_compute. Qed.

(** ** Return values *)

(** Whether the positions of the arguments matter plays no role. *)
Definition nonPositional (D : Definition_) : Definition_ :=
  mkDefinition (ABI_ D) false (OnlyStartDoubleArgumentsFromAnEvenRegister D) (ArgumentsCanBeSplitBetweenRegistersAndStack D)
    (BigArgumentsUsePointersToCopy D) (NoRegisterArgumentsCanComeAfterStackOnes D) (AllowPackedTypesInRegisters D)
    (CalleeIsResponsibleForStackCleanup D) (FloatsUseGPRs D) (PackStackArguments D) (TreatAllAggregatesAsPacked D) (StackAlignment D)
    (MinimumStackArgumentSize D) (UnusedStackArgumentBytes D) (MaximumGPRsPerAggregateArgument D) (MaximumGPRsPerAggregateReturnValue D)
    (MaximumGPRsPerScalarArgument D) (MaximumGPRsPerScalarReturnValue D) (GeneralPurposeArgumentRegisters D)
    (GeneralPurposeReturnValueRegisters D) (VectorArgumentRegisters D) (VectorReturnValueRegisters D) (ABIDefinition.CalleeSavedRegisters D)
    (ReturnValueLocationRegister D) (ReturnValueLocationOnStack D) (ReturnValueLocationIsReturned D) (ScalarTypes D).

Lemma nonPositional_sound D P : Sound D P → Sound (nonPositional D) P.
Proof. intros []. split; done. Qed.

(** The return value is in registers or on the stack, never in both. *)
Record returned (D : Definition_) (RV : DistributedValue) : Prop := {
  returned_either : SizeOnStack RV = 0 ∨ Registers RV = [];
  returned_NoDup : NoDup (Registers RV);
  returned_from R : R ∈ Registers RV → R ∈ GeneralPurposeReturnValueRegisters D ++ VectorReturnValueRegisters D;
}.

Section returns.
  Context `{LLVMAlign} (D : Definition_) (P : Z) (A : Architecture.Values) (HL : SoundLayout D P A).

Lemma start_total b : ∃ V, start D b = Ok V.
Proof using HL.
  pose proof (layout_sound _ _ _ HL) as HD. unfold start, make. rewrite (layout_verify _ _ _ HL), bind_ok. cbn [revng_assert]. rewrite !bind_ok.
  destruct b; [|eexists; reflexivity]. unfold addShadowPointerReturnValueLocationArgument. cbn.
  destruct (bool_decide _).
  - destruct (GeneralPurposeArgumentRegisters D); [eexists; reflexivity|]. destruct (bool_decide _); eexists; reflexivity.
  - destruct (ReturnValueLocationOnStack D); [|eexists; reflexivity]. rewrite (sound_pointer _ _ HD), bind_ok.
    rewrite (proj2 (Z.eqb_eq _ _)); [eexists; reflexivity|]. apply Z.mod_divide; [pose proof (sound_power _ _ HD); lia|apply (sound_multiple _ _ HD)].
Qed.

(** With the splitting forbidden, a value is not split. *)
Lemma distribute_either Sz Al Natural_ Rs O Limit V rs Next V' d :
  distribute D Sz Al Natural_ Rs O Limit true V = Ok (rs, Next, V') → last rs = Some d → SizeOnStack d = 0 ∨ Registers d = [].
Proof.
  intros H1. apply bind_inv in H1 as ([C1 SC1] & _ & H1). apply bind_inv in H1 as ([[[P0 O2] C2] SC2] & _ & H1).
  apply bind_inv in H1 as ([[DA N0] V0] & HD & [= <- _ _]). rewrite last_snoc. intros [= <-].
  apply bind_inv in HD as ([[[DA0 C0] A0] V1] & HP & [= <- _ _]). destruct (_ && (Natural_ || _)); [injection HP as <- _ _ _; by left|].
  rewrite andb_false_r in HP. cbn [andb] in HP. apply bind_inv in HP as (p & _ & HP). apply assert_inv in HP as [_ HP].
  apply bind_inv in HP as (s & _ & [= <- _ _ _]). by right.
Qed.

(** A value distributed among the registers for return values. *)
Lemma distribute_returned Sz Al Natural_ Rs Limit V :
  make D = Ok V → 0 < Sz < 2 ^ 32 → (∃ a, 0 ≤ a ≤ 32 ∧ Al = 2 ^ a) → (length Rs ≤ 64)%nat → 0 ≤ Limit ≤ 64 → NoDup Rs →
  (∀ R, R ∈ Rs → R ∈ GeneralPurposeReturnValueRegisters D ++ VectorReturnValueRegisters D) →
  ∃ RV Next V', distribute D Sz Al Natural_ Rs 0 Limit true V = Ok ([RV], Next, V') ∧ returned D RV.
Proof using HL.
  intros HM HSz HA HRs HLim HN HR. pose proof (nonPositional_sound _ _ (layout_sound _ _ _ HL)) as HD.
  assert (start (nonPositional D) false = Ok V) as HS by (unfold start; change (make (nonPositional D)) with (make D); by rewrite HM). apply (start_spec _ _ HD) in HS as [HI _].
  destruct (distribute_spec (nonPositional D) P HD 0 Sz Al Natural_ Rs 0 Limit true V) as (rs & Next & V' & H1 & S1 & S2 & _); try done; [lia| |by right; right|].
  { intros R Hin%HR. apply elem_of_app in Hin as [Hin|Hin]; [eapply layout_GPRs in Hin|eapply layout_VRs in Hin]; eauto. }
  specialize (S2 (or_intror eq_refl)). destruct rs as [|RV [|]]; [done| |done]. exists RV, Next, V'. split; [done|].
  change (distribute D Sz Al Natural_ Rs 0 Limit true V = Ok ([RV], Next, V')) in H1.
  pose proof (distribute_either _ _ _ _ _ _ _ _ _ _ RV H1 eq_refl) as HE.
  apply distribute_registers in H1 as (k & Hk & _); [|lia]. unfold registersOf in Hk. cbn in Hk. rewrite app_nil_r in Hk.
  split; [done|rewrite Hk; by apply slice_NoDup|]. intros R. rewrite Hk. intros (j & Hj & _)%elem_of_slice. by eapply HR, list_elem_of_lookup_2.
Qed.
End returns.

(** ** Types *)

(** A size that is not 0 and is below four gigabytes. *)
Definition sizeFits (B : list TypeDefinition) (fuel : nat) (T : UpcastableType) : bool :=
  match typeSizeAt B fuel T with Some s => (0 <? s) && (s <? 2 ^ 32) | None => false end.

(** A type that can be returned: it has such a size, and the ABI knows the sizes of its
    scalars. *)
Definition returnFits (D : Definition_) (B : list TypeDefinition) (fuel : nat) (T : UpcastableType) : bool :=
  sizeFits B fuel T && alignable D B fuel T.

(** A type an argument can have; the alignment is not looked at where arguments are
    passed by their position. *)
Definition argumentFits (D : Definition_) (B : list TypeDefinition) (fuel : nat) (T : UpcastableType) : bool :=
  sizeFits B fuel T && (ArgumentsArePositionBased D || alignable D B fuel T).

(** What the code computes of such types. *)
Definition returnMeasures (D : Definition_) (B : list TypeDefinition) (fuel : nat) (T : UpcastableType) : bool :=
  match isVoidPrimitive B fuel T, isFloatPrimitive B fuel T, isScalar B fuel (TypeNode T), measure D B fuel T with
  | Ok false, Ok _, Ok _, Ok (Size, _, _) => (0 <? Size) && (Size <? 2 ^ 32)
  | _, _, _, _ => false
  end.

Definition argumentMeasures (D : Definition_) (B : list TypeDefinition) (fuel : nat) (T : UpcastableType) : bool :=
  match measureArgument D B fuel T, isScalar B fuel (TypeNode T) with
  | Ok A, Ok _ => (0 <? Bytes A) && (Bytes A <? 2 ^ 32)
  | _, _ => false
  end.

Section sized.
  Context (B : list TypeDefinition).

(** A type whose typedefs were skipped. *)
Definition skipped (U : UpcastableType) : Prop :=
  match U with
  | Empty => False
  | DefinedType _ R => ∃ E, unwrap B R = Ok E ∧ getConst B R = Some E ∧ ∀ i V, E ≠ TypedefDefinition i V
  | _ => True
  end.

Lemma skip_skipped fuel U : skipped U → skipConstAndTypedefsOf B fuel U = Ok U ∧ skipTypedefsOf B fuel U = Ok U.
Proof.
  destruct U as [|c n E|c R|c n E|Pr]; [done| | | |]; try by destruct fuel. intros (E & HE & _ & HT).
  split; destruct fuel; cbn; [| |destruct c..]; rewrite ?HE, ?bind_ok; try done; destruct E; try done; by edestruct HT.
Qed.

(** Typedefs of a type that has a size can be skipped, which keeps the size. *)
Lemma skip_sized fuel T s :
  typeSizeAt B fuel T = Some s → ∃ U, skipConstAndTypedefsOf B fuel T = Ok U ∧ skipped U ∧ typeSizeAt B fuel U = Some s.
Proof.
  revert T. induction fuel as [|fuel IH]; intros T HT;
    (destruct T as [|c n E|c R|c n E|Pr]; [done|by eexists| |by eexists..]).
  { unfold typeSizeAt in HT. cbn in HT. by destruct (getConst B R). }
  unfold typeSizeAt in HT. cbn [typeSizeWith] in HT. destruct (getConst B R) as [E|] eqn:ER; [|done]. cbn [mbind option_bind] in HT.
  assert (unwrap B R = Ok E) as HU by (unfold unwrap, isValid; by rewrite ER). cbn [skipConstAndTypedefsOf]. rewrite HU, bind_ok.
  destruct E as [i a R' Args|i U Es|i a Args Rets Ps St|i U|i n Fs|i Fs].
  4: { destruct (IH U HT) as (V & H1 & H2 & H3). exists V. split; [done|]. split; [done|]. by apply (typeSizeAt_mono B fuel (S fuel)); [lia|]. }
  all: eexists; split; [done|]; split; [by eexists|]; unfold typeSizeAt; cbn [typeSizeWith]; by rewrite ER.
Qed.

(** What is asked of a type that has a size is computed. *)
Lemma kinds_sized fuel T s :
  typeSizeAt B fuel T = Some s → s ≠ 0 →
  isVoidPrimitive B fuel T = Ok false ∧ (∃ F, isFloatPrimitive B fuel T = Ok F) ∧ ∃ Sc, isScalar B fuel (TypeNode T) = Ok Sc.
Proof.
  intros HT Hs. destruct (skip_sized fuel T s HT) as (U & HU & HSk & HUs).
  assert (skipConstAndTypedefs B fuel (TypeNode T) = Ok (Some U)) as HT' by (unfold skipConstAndTypedefs; by rewrite HU).
  destruct (skip_skipped fuel U HSk) as [HU1 HU2].
  assert (skipConstAndTypedefs B fuel (TypeNode U) = Ok (Some U)) as HC by (unfold skipConstAndTypedefs; by rewrite HU1).
  assert (skipTypedefs B fuel (TypeNode U) = Ok (Some U)) as HN by (unfold skipTypedefs; by rewrite HU2).
  assert (∀ N, skipConstAndTypedefs B fuel N = Ok (Some U) → isPrimitive B fuel N PrimitiveKind.Void = Ok false) as HV.
  { intros N HN'. unfold isPrimitive, getPrimitive. rewrite HN', !bind_ok. f_equal. destruct U as [| | | |Pr]; try done.
    apply bool_decide_eq_false. intros HK. unfold typeSizeAt in HUs. cbn in HUs. rewrite bool_decide_eq_false_2 in HUs by by intros [].
    injection HUs as <-. done. }
  split; [by apply HV|]. split; [unfold isFloatPrimitive, isPrimitive, getPrimitive; rewrite HT', !bind_ok; by eexists|].
  assert (isObject B fuel (TypeNode U) = Ok true) as HO.
  { unfold isObject. rewrite (HV _ HC), bind_ok. unfold getPrototype, unwrapFunction, isConst. rewrite HN, !bind_ok, HN, bind_ok.
    destruct (IsConst U); [done|]. rewrite bind_ok. destruct U as [|c n E|c R|c n E|Pr]; try done. destruct HSk as (E & _ & HR & _).
    cbn. rewrite HR. unfold typeSizeAt in HUs. cbn in HUs. rewrite HR in HUs. cbn in HUs.
    destruct E, fuel; try done; cbn in HUs; injection HUs as <-; done. }
  unfold isScalar. rewrite HT', bind_ok, HO, bind_ok. cbn [revng_assert]. rewrite bind_ok.
  destruct U as [|c n E|c R|c n E|Pr]; try by eexists. destruct HSk as (E & HE & _). rewrite HE, bind_ok. by eexists.
Qed.

Lemma sizeFits_size fuel T :
  sizeFits B fuel T = true → ∃ s VH, typeSizeAt B fuel T = Some s ∧ (0 <? s) && (s <? 2 ^ 32) = true ∧ s ≠ 0 ∧
    size B fuel T (freshVH false) = Ok (VH, Some s).
Proof.
  unfold sizeFits. destruct (typeSizeAt B fuel T) as [s|] eqn:HT; [|done]. intros Hs. apply andb_true_iff in Hs as Hs'.
  destruct Hs' as [H0%Z.ltb_lt _]. destruct (trySize_complete B fuel fuel T s (le_n _) HT (freshVH false)) as (VH & HS & _); [done|].
  exists s, VH. split; [done|]. split; [done|]. split; [lia|]. unfold size. rewrite (M_bind_run _ _ _ _ _ HS).
  unfold lift, checkedSize. by rewrite (proj2 (Z.eqb_neq s 0)) by lia.
Qed.

Lemma measure_alignable D fuel T :
  scalarsAligned 4 D = true → sizeFits B fuel T = true → alignable D B fuel T = true →
  ∃ s a n, measure D B fuel T = Ok (s, a, n) ∧ (0 <? s) && (s <? 2 ^ 32) = true.
Proof.
  intros HS (s & VH & HT & Hs & Hn & HSz)%sizeFits_size HA. unfold measure. rewrite HSz, bind_ok.
  assert (typeSize B T s) as HTs by by exists fuel.
  destruct (alignable_aligned D B 4 HS fuel T s ∅ HA HTs Hn) as (C & A & H1 & H2 & HC); [done|].
  destruct (alignable_aligned D B 4 HS fuel T s C HA HTs Hn HC) as (C' & A' & H3 & H4 & _).
  unfold alignment, hasNaturalAlignment. rewrite (Cached_run _ _ _ _ _ H1), (Cached_run _ _ C C A) by done. unfold mret, Cached_ret.
  rewrite bind_ok, (Cached_run _ _ _ _ _ H3), (Cached_run _ _ C' C' A') by done. rewrite bind_ok, !(proj2 (Z.eqb_neq _ 0)) by done. by do 3 eexists.
Qed.

Lemma returnFits_measures D fuel T : scalarsAligned 4 D = true → returnFits D B fuel T = true → returnMeasures D B fuel T = true.
Proof.
  intros HS [HT HA]%andb_true_iff. destruct (measure_alignable D fuel T HS HT HA) as (s & a & n & HM & Hs).
  apply sizeFits_size in HT as (s' & _ & HT & _ & Hn & _). destruct (kinds_sized fuel T s' HT Hn) as (HV & (F & HF) & Sc & HSc).
  unfold returnMeasures. by rewrite HV, HF, HSc, HM.
Qed.

Lemma argumentFits_measures D fuel T : scalarsAligned 4 D = true → argumentFits D B fuel T = true → argumentMeasures D B fuel T = true.
Proof.
  intros HS [HT HA]%andb_true_iff. apply sizeFits_size in HT as HT'. destruct HT' as (s' & VH & HT' & Hs' & Hn & HSz).
  destruct (kinds_sized fuel T s' HT' Hn) as (_ & (F & HF) & Sc & HSc). unfold argumentMeasures, measureArgument. rewrite HF, bind_ok.
  destruct (ArgumentsArePositionBased D).
  - by rewrite HSz, bind_ok, HSc.
  - destruct (measure_alignable D fuel T HS HT HA) as (s & a & n & HM & Hs). by rewrite HM, bind_ok, HSc, bind_ok.
Qed.
End sized.

Lemma pointer_kinds B fuel P T :
  isVoidPrimitive B fuel (PointerType false P T) = Ok false ∧ isFloatPrimitive B fuel (PointerType false P T) = Ok false ∧
  isScalar B fuel (TypeNode (PointerType false P T)) = Ok true.
Proof. by destruct fuel. Qed.

Section types.
  Context `{LLVMAlign} (D : Definition_) (P : Z) (A : Architecture.Values) (HL : SoundLayout D P A) (HS : scalarsAligned 4 D = true).
  Context (B : list TypeDefinition) (fuel : nat).

Lemma measure_alignment T Size Al Natural_ : measure D B fuel T = Ok (Size, Al, Natural_) → ∃ a, 0 ≤ a ≤ 32 ∧ Al = 2 ^ a.
Proof using HS.
  intros ([? Size'] & _ & H1)%bind_inv. apply bind_inv in H1 as ([Cache Al'] & HA & H1). apply bind_inv in H1 as ([? N'] & _ & H1).
  destruct Size' as [s'|], Al' as [a'|], N' as [n'|]; try done. injection H1 as <- <- <-.
  apply (alignment_power 4 ltac:(lia) D HS) in HA as [_ (k & Hk & ->)]; [|apply map_Forall_empty]. exists k. split; [lia|done].
Qed.

Lemma argumentMeasures_measured T : argumentMeasures D B fuel T = true → ∃ M, measureArgument D B fuel T = Ok M ∧ fits M = true.
Proof using HS.
  unfold argumentMeasures. destruct (measureArgument D B fuel T) as [M|] eqn:HM; [|done]. destruct (isScalar _ _ _) as [sc0|]; [|done].
  intros HB. exists M. split; [done|]. unfold fits. rewrite HB. cbn [andb].
  assert (∃ a, 0 ≤ a ≤ 4 ∧ Aligned M = 2 ^ a) as (a & Ha & ->).
  { apply bind_inv in HM as (F & _ & HM). destruct (ArgumentsArePositionBased D).
    - apply bind_inv in HM as ([? s] & _ & HM). destruct s; [|done]. injection HM as <-. by exists 0.
    - apply bind_inv in HM as ([[s a] N0] & HM & H1). apply bind_inv in H1 as (sc & _ & [= <-]).
      apply bind_inv in HM as ([? Size'] & _ & H1). apply bind_inv in H1 as ([Cache Al'] & HA & H1). apply bind_inv in H1 as ([? N'] & _ & H1).
      destruct Size' as [s'|], Al' as [a'|], N' as [n'|]; try done. injection H1 as <- <- <-.
      apply (alignment_power 4 ltac:(lia) D HS) in HA as [_ Hp]; [done|apply map_Forall_empty]. }
  rewrite CDataModel.pow_hasSingleBit by lia. assert (2 ^ a ≤ 2 ^ 4) by (apply Z.pow_le_mono_r; lia). assert (0 < 2 ^ a) by (apply Z.pow_pos_nonneg; lia).
  cbn [andb]. rewrite (proj2 (Z.leb_le _ _)), (proj2 (Z.ltb_lt _ _)) by lia. done.
Qed.

Lemma nextArguments_each Ts :
  forallb (argumentMeasures D B fuel) Ts = true →
  ∃ Ms, forallb fits Ms = true ∧ length Ms = length Ts ∧ ∀ V, nextArguments B fuel D Ts V = nextEach D Ms V.
Proof using HS.
  induction Ts as [|T Ts IH]; intros HT; [by exists []|]. cbn [forallb] in HT. apply andb_true_iff in HT as [HT HTs].
  destruct (IH HTs) as (Ms & H1 & H2 & H3). destruct (argumentMeasures_measured T HT) as (M & HM & HF). exists (M :: Ms).
  split_and!; [cbn; by rewrite HF|cbn; by rewrite H2|]. intros V. cbn [nextArguments nextEach]. unfold nextArgument. rewrite HM, bind_ok.
  destruct (next D M V) as [[rs V']|]; [|done]. rewrite !bind_ok. by rewrite H3.
Qed.

Lemma distributeReturnValue_spec T :
  returnMeasures D B fuel T = true → ∃ RV, distributeReturnValue B fuel D T = Ok RV ∧ returned D RV.
Proof using HL HS.
  unfold returnMeasures. destruct (isVoidPrimitive B fuel T) as [[|]|] eqn:HV; [done| |done].
  destruct (isFloatPrimitive B fuel T) as [F|] eqn:HF; [|done]. destruct (isScalar B fuel (TypeNode T)) as [Sc|] eqn:HSc; [|done].
  destruct (measure D B fuel T) as [[[s a] N0]|] eqn:HM; [|done]. intros [H1%Z.ltb_lt H2%Z.ltb_lt]%andb_true_iff.
  apply measure_alignment in HM as HA. destruct (start_total D P A HL false) as [V HVm]. cbn in HVm.
  apply bind_inv in HVm as (V0 & HVm & [= ->]). unfold distributeReturnValue, returnValue. rewrite HVm, bind_ok, HV, bind_ok. cbn [negb revng_assert].
  rewrite bind_ok, HF, bind_ok. pose proof (layout_NoDup _ _ _ HL) as (N1 & N2 & _). pose proof (layout_lengths _ _ _ HL) as [L1 L2].
  pose proof (layout_scalars _ _ _ HL). pose proof (layout_aggregates _ _ _ HL).
  destruct (F && negb (FloatsUseGPRs D)) eqn:EF; cbn [andb].
  - case_bool_decide as HE; [exists voidReturnValue; split; [done|]; split; [by left|constructor|intros R HR; by apply elem_of_nil in HR]|].
    rewrite bind_ok, HM, bind_ok. destruct (distribute_returned D P A HL s a N0 (VectorReturnValueRegisters D) 1 V) as (RV & Nx & V' & -> & HR); try done; try lia; [set_solver|].
    by exists RV.
  - rewrite HSc, !bind_ok, HM, bind_ok.
    destruct (distribute_returned D P A HL s a N0 (GeneralPurposeReturnValueRegisters D)
      (if Sc then MaximumGPRsPerScalarReturnValue D else MaximumGPRsPerAggregateReturnValue D) V) as (RV & Nx & V' & -> & HR); try done; [destruct Sc; lia|set_solver|].
    by exists RV.
Qed.

(** The pointer to the location of the return value is returned in a register. *)
Lemma pointer_returned T :
  ∃ RV R, distributeReturnValue B fuel D (PointerType false P T) = Ok RV ∧ Registers RV = [R] ∧ Size_ RV = P ∧ SizeOnStack RV = 0 ∧
    R ∈ GeneralPurposeReturnValueRegisters D.
Proof using HL.
  pose proof (layout_sound _ _ _ HL) as HD. pose proof (sound_power _ _ HD). pose proof (sound_unused _ _ HD).
  destruct (start_total D P A HL false) as [V HVm]. apply bind_inv in HVm as (V0 & HVm & [= ->]).
  destruct (layout_integer _ _ _ HL) as (I & HI & HIa). unfold distributeReturnValue, returnValue. rewrite HVm, bind_ok.
  destruct (pointer_kinds B fuel P T) as (-> & -> & ->). rewrite bind_ok. cbn [negb revng_assert andb]. rewrite !bind_ok. cbn [andb]. rewrite !bind_ok.
  assert (measure D B fuel (PointerType false P T) = Ok (P, P, true)) as ->.
  { unfold measure. replace (size B fuel (PointerType false P T) (freshVH false)) with (Ok (freshVH false, Some P))
      by (unfold size; rewrite (M_bind_run _ _ _ (freshVH false) (Some P)) by done; unfold lift, checkedSize; rewrite (proj2 (Z.eqb_neq P 0)) by lia; done).
    rewrite bind_ok.
    assert (∀ C, naturalAlignment D B fuel (PointerType false P T) C = Ok (C, Some (mkAlignment P true))) as Hn
      by (intros C; unfold naturalAlignment, uncached; cbn [naturalAlignmentOf]; rewrite HI; unfold scalarAlignment; by rewrite HIa).
    assert (∀ C, alignment D B fuel (PointerType false P T) C = Ok (C, Some P)) as ->.
    { intros C. unfold alignment. rewrite (Cached_run _ _ _ _ _ (Hn C)), (Cached_run _ _ C C (mkAlignment P true)) by done. cbn.
      by rewrite (proj2 (Z.eqb_neq P 0)) by lia. }
    rewrite bind_ok. assert (∀ C, hasNaturalAlignment D B fuel (PointerType false P T) C = Ok (C, Some true)) as ->; [|done].
    intros C. unfold hasNaturalAlignment. rewrite (Cached_run _ _ _ _ _ (Hn C)), (Cached_run _ _ C C (mkAlignment P true)) by done. cbn.
    by rewrite (proj2 (Z.eqb_neq P 0)) by lia. }
  rewrite bind_ok. apply bind_inv in HVm as (v & _ & HVm). apply assert_inv in HVm as [_ [= <-]].
  pose proof (layout_scalars _ _ _ HL). pose proof (layout_nonempty _ _ _ HL) as Hne. pose proof (layout_lengths _ _ _ HL) as [Hlen _].
  destruct (GeneralPurposeReturnValueRegisters D) as [|R Rs] eqn:ER; [done|].
  destruct (distribute_exact D P ltac:(lia) P P true (R :: Rs) 0 (MaximumGPRsPerScalarReturnValue D) true 1
    (mkDistributor 0 0 (UnusedStackArgumentBytes D) 0 0 0)) as (V' & -> & _); try done; try lia.
  - intros T' HT'. apply (layout_GPRs _ _ _ HL). by rewrite ER.
  - cbn. unfold in_width. lia.
  - right. split; [done|by apply sound_pointer].
  - change (Z.of_nat 1) with 1. apply Z.div_unique with (P - 1); lia.
  - cbn. lia.
  - rewrite bind_ok. eexists _, R. split; [done|]. cbn. split_and!; [done|done|done|by left].
Qed.
End types.

(** ** Packing *)

Lemma unpad_registers d : Registers (unpad d) = Registers d ∧ RepresentsPadding (unpad d) = RepresentsPadding d.
Proof. done. Qed.

(** What packing keeps. *)
Definition similar (d e : DistributedValue) : Prop := Registers d = Registers e ∧ RepresentsPadding d = RepresentsPadding e.

Lemma similar_registers rs ts : Forall2 similar rs ts → registersOf rs = registersOf ts.
Proof. unfold registersOf. induction 1 as [|d e rs ts [H _] _ IH]; [done|]. cbn. by rewrite H, IH. Qed.

Lemma similar_values rs ts : Forall2 similar rs ts → values rs = values ts ∧ length rs = length ts.
Proof.
  unfold values. induction 1 as [|d e rs ts [_ H] _ [IH1 IH2]]; [done|]. rewrite !filter_cons. cbn [length]. split; [|by rewrite IH2].
  repeat destruct (decide _); cbn; congruence.
Qed.

Lemma packPair_spec D d e :
  PackStackArguments D = true → 0 ≤ PostPaddingSize d ≤ SizeOnStack d → 0 ≤ OffsetOnStack d →
  (SizeOnStack d ≠ 0 → OffsetOnStack d + SizeOnStack d < 2 ^ 63) →
  (SizeOnStack d ≠ 0 → SizeOnStack e ≠ 0 → dataEnd D d ≤ OffsetOnStack e) →
  ∃ d', packPair d e = Ok d' ∧ similar d d'.
Proof.
  intros HPk H1 H2 H3 H4. unfold packPair. destruct (_ && _ && _) eqn:E; [|by exists d].
  apply andb_true_iff in E as [[E1%negb_true_iff%Z.eqb_neq E2%negb_true_iff%Z.eqb_neq]%andb_true_iff E3%Z.ltb_lt].
  specialize (H3 E1). specialize (H4 E1 E2). unfold dataEnd in H4. rewrite HPk in H4. exists (unpad d). split; [|done].
  cbn. rewrite wrap_small by (unfold in_width; lia). by rewrite (proj2 (Z.leb_le _ _)) by lia.
Qed.

Lemma packArguments_spec D rs :
  PackStackArguments D = true → StronglySorted (λ d e, dataEnd D d ≤ OffsetOnStack e) (onStack rs) →
  (∀ d, d ∈ rs → SizeOnStack d ≠ 0 → 0 ≤ PostPaddingSize d ≤ SizeOnStack d ∧ 0 ≤ OffsetOnStack d ∧ OffsetOnStack d + SizeOnStack d < 2 ^ 63) →
  ∃ rs', packArguments rs = Ok rs' ∧ Forall2 similar rs rs'.
Proof.
  intros HPk. induction rs as [|d rs IH]; intros HS HB; [exists []; by split|]. destruct rs as [|e rs].
  - cbn. eexists. split; [done|]. constructor; [|constructor]. by destruct (negb _).
  - assert (∃ rs', packArguments (e :: rs) = Ok rs' ∧ Forall2 similar (e :: rs) rs') as (rs' & H1 & H2).
    { apply IH; [|intros x Hx; apply HB; by right]. unfold onStack in *. rewrite filter_cons in HS. destruct (decide _); [by apply StronglySorted_inv in HS as [? _]|done]. }
    assert (∃ d', packPair d e = Ok d' ∧ similar d d') as (d' & H3 & H4).
    { destruct (Z.eq_dec (SizeOnStack d) 0) as [Hz|Hz]; [exists d; unfold packPair; by rewrite Hz|].
      destruct (HB d) as (B1 & B2 & B3); [by left|done|]. apply (packPair_spec D); try done. intros _ He.
      unfold onStack in HS. rewrite filter_cons_True in HS by done. apply StronglySorted_inv in HS as [_ HS]. rewrite filter_cons_True, Forall_cons in HS by done.
      apply HS. }
    exists (d' :: rs'). split; [|by constructor]. change (packArguments (d :: e :: rs)) with (packPair d e ≫= λ Current, packArguments (e :: rs) ≫= λ Rest, Ok (Current :: Rest)).
    by rewrite H3, bind_ok, H1, bind_ok.
Qed.

(** ** Laying the arguments out *)

Section arguments.
  Context `{LLVMAlign} (B : list TypeDefinition) (fuel : nat).

Lemma argumentAt_found (Args : list ModelTypes.Argument) (i : nat) :
  map ModelTypes.ArgumentIndex Args = seqZ 0 (Z.of_nat (length Args)) → (i < length Args)%nat → ∃ A, argumentAt Args (Z.of_nat i) = Ok A ∧ A ∈ Args.
Proof.
  intros HI Hi. unfold argumentAt. destruct (List.find _ _) as [A|] eqn:E.
  - apply find_some in E as [E _]. exists A. split; [done|by apply list_elem_of_In].
  - exfalso. assert (Z.of_nat i ∈ map ModelTypes.ArgumentIndex Args) as Hin by (rewrite HI; apply elem_of_seqZ; lia).
    apply list_elem_of_In, in_map_iff in Hin as (A & HA & Hin). eapply find_none in E; [|exact Hin]. by rewrite HA, Z.eqb_refl in E.
Qed.

Lemma layoutArguments_spec (Args : list ModelTypes.Argument) Conv (i : nat) S0 :
  map ModelTypes.ArgumentIndex Args = seqZ 0 (Z.of_nat (length Args)) →
  (∀ A, A ∈ Args → ∃ b, isScalar B fuel (TypeNode (ModelTypes.ArgumentType A)) = Ok b) →
  (i + values Conv ≤ length Args)%nat →
  ∃ As S', layoutArguments B fuel Args Conv (Z.of_nat i) S0 = Ok (As, S') ∧ length As = values Conv ∧
    (As ≫= ArgumentRegisters) `sublist_of` registersOf Conv ∧
    Forall (λ A, Kind A ≠ ArgumentKind.ShadowPointerToAggregateReturnValue) As.
Proof.
  intros HI HSc. revert i S0. induction Conv as [|d Conv IH]; intros i S0 HL; cbn [layoutArguments].
  { exists [], S0. by split_and!. }
  unfold values in *. rewrite filter_cons in HL |- *. change (registersOf (d :: Conv)) with (Registers d ++ registersOf Conv).
  destruct (RepresentsPadding d) eqn:ER.
  - rewrite decide_False in HL |- * by done. destruct (IH i S0 HL) as (As & S' & H1 & H2 & H3 & H4). exists As, S'. split_and!; [done|done| |done].
    by apply sublist_inserts_l.
  - rewrite decide_True in HL |- * by done. cbn [length] in *. destruct (argumentAt_found Args i HI) as (A & HA & Hin); [lia|]. rewrite HA, bind_ok.
    assert (∃ K, kindOf B fuel (ModelTypes.ArgumentType A) d = Ok K ∧ K ≠ ArgumentKind.ShadowPointerToAggregateReturnValue) as (K & -> & HK).
    { unfold kindOf. destruct (UsesPointerToCopy d); [by eexists|]. destruct (HSc A Hin) as [b ->]. rewrite bind_ok. eexists. split; [done|]. by destruct b. }
    rewrite bind_ok. destruct (IH (S i) (if negb (SizeOnStack d =? 0) then wrap 64 (OffsetOnStack d + SizeOnStack d) else S0)) as (As & S' & H1 & H2 & H3 & H4); [lia|].
    replace (Z.of_nat (S i)) with (Z.of_nat i + 1) in H1 by lia. rewrite H1, bind_ok. do 2 eexists. split; [done|]. split_and!; [cbn; by rewrite H2| |by constructor].
    cbn. by apply sublist_app.
Qed.
End arguments.

(** ** Verification *)

Lemma verifyRegisters_ok A Rs Seen Expected :
  A ≠ Architecture.Invalid → NoDup Rs → (∀ R, R ∈ Rs → R ∉ Seen ∧ Register.getReferenceArchitecture R = Ok A) →
  Expected = Architecture.Invalid ∨ Expected = A →
  verifyRegisters Rs Seen Expected = Ok (Some (if bool_decide (Rs = []) then Expected else A)).
Proof.
  intros HA. revert Seen Expected. induction Rs as [|R Rs IH]; intros Seen Expected HN HR HE; cbn [verifyRegisters]; [done|].
  destruct (HR R) as [H1 H2]; [by left|]. rewrite bool_decide_eq_false_2 by done. rewrite H2, bind_ok. apply NoDup_cons in HN as [HN1 HN2].
  assert (∀ T, T ∈ Rs → T ∉ R :: Seen ∧ Register.getReferenceArchitecture T = Ok A) as HRs.
  { intros T HT. destruct (HR T) as [H3 H4]; [by right|]. split; [|done]. rewrite elem_of_cons. intros [->|?]; done. }
  destruct HE as [->| ->].
  - rewrite bool_decide_eq_true_2, IH by auto. by case_bool_decide.
  - rewrite !bool_decide_eq_false_2 by auto. rewrite IH by auto. by case_bool_decide.
Qed.

Lemma verifySPTAR_others A As Found :
  Forall (λ A, Kind A ≠ ArgumentKind.ShadowPointerToAggregateReturnValue) As → ∀ First, verifySPTAR A As Found First = Ok true.
Proof. induction 1 as [|a As Ha _ IH]; intros First; cbn; [done|]. by rewrite bool_decide_eq_false_2. Qed.

(** ** Layouts *)

Section layouts.
  Context `{LLVMAlign} (D : Definition_) (P : Z) (A : Architecture.Values) (HL : SoundLayout D P A) (HS : scalarsAligned 4 D = true).
  Context (B : list TypeDefinition) (fuel : nat).

Notation SPTAR := ArgumentKind.ShadowPointerToAggregateReturnValue.

(** The argument that points to the location of the return value. *)
Definition shadowOk (Sh : Argument) : Prop :=
  Kind Sh = SPTAR ∧
  (ReturnValueLocationRegister D ≠ Register.Invalid ∧ ArgumentRegisters Sh = [ReturnValueLocationRegister D] ∧ Stack Sh = None ∨
   ArgumentRegisters Sh = [] ∧ Stack Sh = Some (mkSpan 0 P)).

Definition returnsOk (Rets : list ReturnValue) : Prop :=
  (length Rets ≤ 1)%nat ∧ NoDup (Rets ≫= ReturnRegisters) ∧
  ∀ R, R ∈ Rets ≫= ReturnRegisters → R ∈ GeneralPurposeReturnValueRegisters D ++ VectorReturnValueRegisters D.

Lemma returnsOk_one T Rs :
  NoDup Rs → (∀ R, R ∈ Rs → R ∈ GeneralPurposeReturnValueRegisters D ++ VectorReturnValueRegisters D) → returnsOk [mkReturnValue T Rs].
Proof. intros H1 H2. split; [done|]. cbn. by rewrite app_nil_r. Qed.

Lemma layoutReturnValue_spec T :
  returnMeasures D B fuel T = true →
  ∃ Rets Shadow, layoutReturnValue B fuel D T = Ok (Rets, Shadow) ∧ returnsOk Rets ∧ from_option shadowOk True Shadow.
Proof using HL HS.
  intros HT. destruct (distributeReturnValue_spec D P A HL HS B fuel T HT) as (RV & HRV & [R1 R2 R3]).
  destruct (layout_push _ _ _ HL) as (Arch & c & HA & HP & _). unfold layoutReturnValue. rewrite HA, bind_ok, HRV, bind_ok.
  destruct (Z.eqb_spec (SizeOnStack RV) 0) as [_|Hn]; [do 2 eexists; split; [done|]; split; [by apply returnsOk_one|done]|].
  destruct R1 as [|R1]; [done|]. rewrite R1, (bool_decide_eq_true_2 (@nil Register.Values = [])) by done. cbn [revng_assert].
  rewrite bind_ok, HP, bind_ok, (sound_pointer _ _ (layout_sound _ _ _ HL)), bind_ok.
  assert (∃ In, (if bool_decide (ReturnValueLocationRegister D ≠ Register.Invalid)
     then Ok (mkArgument (PointerType false P T) [ReturnValueLocationRegister D] None SPTAR)
     else if ReturnValueLocationOnStack D then Ok (mkArgument (PointerType false P T) [] (Some (mkSpan 0 P)) SPTAR) else revng_abort) = Ok In ∧ shadowOk In)
    as (In_ & -> & HIn).
  { case_bool_decide as HR; [eexists; split; [done|]; split; [done|by left]|].
    destruct (layout_location _ _ _ HL) as [|Hs]; [done|]. rewrite Hs. eexists. split; [done|]. split; [done|by right]. }
  rewrite bind_ok. destruct (ReturnValueLocationIsReturned D).
  - destruct (pointer_returned D P A HL B fuel T) as (Out & R & -> & O1 & O2 & O3 & O4). rewrite bind_ok, O1, O2, O3, !Z.eqb_refl. cbn [revng_assert]. rewrite bind_ok.
    do 2 eexists. split; [reflexivity|]. split; [|exact HIn]. apply returnsOk_one; [apply NoDup_singleton|]. intros R' ->%list_elem_of_singleton. apply elem_of_app. by left.
  - do 2 eexists. split; [reflexivity|]. split; [|exact HIn]. split; [cbn; lia|]. cbn. split; [constructor|intros R HR; by apply elem_of_nil in HR].
Qed.

Lemma distributeArguments_spec Ts Shadow :
  forallb (argumentMeasures D B fuel) Ts = true → Z.of_nat (length Ts) ≤ 2 ^ 28 →
  ∃ Conv, distributeArguments B fuel D Ts Shadow = Ok Conv ∧ values Conv = length Ts ∧ (length Ts ≤ length Conv)%nat ∧ NoDup (registersOf Conv) ∧
    (∀ R, R ∈ registersOf Conv → R ∈ GeneralPurposeArgumentRegisters D ++ VectorArgumentRegisters D) ∧
    (Shadow = true → ReturnValueLocationRegister D ≠ Register.Invalid → ReturnValueLocationRegister D ∉ registersOf Conv).
Proof using HL HS.
  intros HT HLen. pose proof (layout_sound _ _ _ HL) as HD. destruct (nextArguments_each D HS B fuel Ts HT) as (Ms & M1 & M2 & M3).
  destruct (start_total D P A HL Shadow) as [V HV]. destruct (start_spec D P HD Shadow V HV) as [HI HR].
  destruct (nextEach_spec D P HD 0 Ms V) as (rs & V' & N1 & N2 & N3 & _); [lia|lia|done|done|done|].
  assert (∃ Conv, distributeArguments B fuel D Ts Shadow = Ok Conv ∧ Forall2 similar rs Conv) as (Conv & HC & HF).
  { unfold distributeArguments. rewrite HV, bind_ok, M3, N1, bind_ok. destruct (PackStackArguments D) eqn:HPk.
    - apply (packArguments_spec D); [done|apply N2|]. intros d Hd Hz. assert (d ∈ onStack rs) as Hon by by apply list_elem_of_filter.
      destruct (placed_bound _ _ _ _ N2 d Hon) as [B1 B2]. apply (placed_above _ _ _ _ N2) in Hon. apply low_bounds in HI. lia.
    - exists rs. split; [done|]. apply Forall_Forall2_diag, Forall_true. done. }
  exists Conv. destruct (similar_values _ _ HF) as [V1 V2]. rewrite <-V1, <-V2, <-(similar_registers _ _ HF), N3, M2. split_and!; [done|done| |apply N2| |].
  - rewrite <-M2, <-N3. unfold values. apply length_filter.
  - intros R (b & j & Hj & _)%(placed_free _ _ _ _ N2). apply list_elem_of_lookup_2 in Hj. rewrite elem_of_app. destruct b; auto.
  - intros ->. by eapply shadow_reserved.
Qed.

Lemma finalStackOffset_ok s : ∃ Final, finalStackOffset D s = Ok Final.
Proof using HL.
  destruct (layout_push _ _ _ HL) as (Arch & c & HA & _ & HC). unfold finalStackOffset. rewrite HA, bind_ok, HC, bind_ok.
  destruct (CalleeIsResponsibleForStackCleanup D); [|by eexists]. rewrite (layout_stack _ _ _ HL). by eexists.
Qed.

(** The checks hold of what the distribution gives. *)
Lemma verify_ok Shadow As Rets Final :
  from_option shadowOk True Shadow → returnsOk Rets → Forall (λ A, Kind A ≠ SPTAR) As → NoDup (As ≫= ArgumentRegisters) →
  (∀ R, R ∈ As ≫= ArgumentRegisters → R ∈ GeneralPurposeArgumentRegisters D ++ VectorArgumentRegisters D) →
  (is_Some Shadow → ReturnValueLocationRegister D ≠ Register.Invalid → ReturnValueLocationRegister D ∉ As ≫= ArgumentRegisters) →
  verify (mkLayout (match Shadow with Some Sh => Sh :: As | None => As end) Rets (ABIDefinition.CalleeSavedRegisters D) Final) = Ok true.
Proof using HL.
  intros HSh (R1 & R2 & R3) HK HN HAl HR. destruct (layout_architecture _ _ _ HL) as [HA1 HA2]. pose proof (layout_NoDup _ _ _ HL) as (_ & _ & N3).
  assert (∀ R, R ∈ mentioned D → ∀ l : list Register.Values, l = [] → R ∉ l ∧ Register.getReferenceArchitecture R = Ok A) as Href
    by (intros R HRm l ->; split; [apply not_elem_of_nil|by apply (layout_reference _ _ _ HL)]).
  set (All := match Shadow with Some Sh => Sh :: As | None => As end).
  assert (NoDup (All ≫= ArgumentRegisters) ∧ ∀ R, R ∈ All ≫= ArgumentRegisters → R ∈ mentioned D) as [NA MA].
  { assert (∀ R, R ∈ As ≫= ArgumentRegisters → R ∈ mentioned D) as Hm by (intros R HRa%HAl; unfold mentioned; rewrite app_assoc; apply elem_of_app; by left).
    subst All. destruct Shadow as [Sh|]; [|done]. destruct HSh as [_ [(L1 & L2 & _)|(L2 & _)]]; cbn; rewrite L2; cbn; [|done].
    split; [apply NoDup_cons; split; [by apply HR|done]|]. intros R [->|HRa]%elem_of_cons; [|by apply Hm]. unfold mentioned.
    rewrite !elem_of_app, bool_decide_eq_false_2, list_elem_of_singleton by done. tauto. }
  unfold verify, argumentRegisters, returnValueRegisters. cbn [Arguments ReturnValues CalleeSavedRegisters].
  rewrite (verifyRegisters_ok A), bind_ok; [|done|done|intros R HRa; by eapply Href, eq_refl; apply MA|by left].
  rewrite (verifyRegisters_ok A), bind_ok; [|done|done| |case_bool_decide; auto].
  2: { intros R HRr. eapply Href; [|done]. unfold mentioned. rewrite !elem_of_app. apply R3, elem_of_app in HRr. tauto. }
  rewrite (verifyRegisters_ok A), bind_ok; [|done|done| |repeat case_bool_decide; auto].
  2: { intros R HRc. eapply Href; [|done]. unfold mentioned. rewrite !elem_of_app. tauto. }
  rewrite (proj2 (Nat.ltb_ge _ _)) by done. set (Arch := if bool_decide (ABIDefinition.CalleeSavedRegisters D = []) then _ else _).
  assert (verifySPTAR Arch All false true = Ok true) as ->; [|done].
  assert (∀ First, verifySPTAR Arch As false First = Ok true) as HO by (by apply verifySPTAR_others).
  subst All. destruct Shadow as [Sh|]; [|done]. destruct HSh as [HK1 [(L1 & L2 & L3)|(L2 & L3)]]; cbn [verifySPTAR].
  - rewrite bool_decide_eq_true_2 by done. cbn [negb]. rewrite L3, L2. cbn. apply HO.
  - rewrite bool_decide_eq_true_2 by done. cbn [negb]. rewrite L3. assert (Arch = A) as -> by (subst Arch; rewrite bool_decide_eq_false_2; [done|apply (layout_saved _ _ _ HL)]).
    rewrite bool_decide_eq_true_2 by done. cbn [revng_assert]. rewrite bind_ok, HA2, bind_ok. cbn. rewrite Z.eqb_refl. apply HO.
Qed.
End layouts.

(** C7: with any ABI that comes with rev.ng, a function has a layout, and no assertion
    fails, when its arguments are indexed from 0, each has a size that is not 0 and is
    below four gigabytes, every scalar in them has a size that the ABI knows (not asked of
    arguments that are passed by their position), and the return type is absent or has
    such a size and scalars that the ABI knows. The layout has one argument for each of
    the function's, after the pointer to the location of the return value if there is
    one, and it verifies. *)
Theorem layout_verifies `{LLVMAlign} B fuel ABI_ D ReturnType_ (Args : list ModelTypes.Argument) :
  ABIData.get ABI_ = Ok D →
  map ModelTypes.ArgumentIndex Args = seqZ 0 (Z.of_nat (length Args)) → Z.of_nat (length Args) ≤ 2 ^ 28 →
  forallb (argumentFits D B fuel) (map ModelTypes.ArgumentType Args) = true →
  isEmpty ReturnType_ || returnFits D B fuel ReturnType_ = true →
  ∃ L, layoutCABI B fuel ABI_ ReturnType_ Args = Ok L ∧ verify L = Ok true ∧
    length (Arguments L) = (length Args + if hasSPTAR L then 1 else 0)%nat ∧ (length (ReturnValues L) ≤ 1)%nat.
Proof.
  intros HD HI HLen HA HR. destruct (get_sound _ _ HD) as (H1 & H2 & HS).
  assert (forallb (argumentMeasures D B fuel) (map ModelTypes.ArgumentType Args) = true) as HA'
    by (apply forallb_forall; intros T HT; rewrite forallb_forall in HA; by apply argumentFits_measures, HA). clear HA. rename HA' into HA.
  assert (isEmpty ReturnType_ || returnMeasures D B fuel ReturnType_ = true) as HR'
    by (apply orb_true_iff in HR as [->|HR]; [done|]; rewrite (returnFits_measures B D fuel) by done; by rewrite orb_true_r). clear HR. rename HR' into HR.
  destruct (soundLayout_spec D H1 H2) as (P & A & HL).
  unfold layoutCABI. rewrite HD, bind_ok. unfold layoutWith.
  assert (∃ Rets Shadow, (if isEmpty ReturnType_ then Ok ([], None) else layoutReturnValue B fuel D ReturnType_) = Ok (Rets, Shadow) ∧
    returnsOk D Rets ∧ from_option (shadowOk D P) True Shadow) as (Rets & Shadow & -> & HRets & HSh).
  { destruct (isEmpty ReturnType_) eqn:HE; [|by apply (layoutReturnValue_spec D P A HL HS)].
    exists [], None. split_and!; [done|split; [cbn; lia|split; [constructor|intros R Hin; by apply elem_of_nil in Hin]]|done]. }
  rewrite bind_ok.
  destruct (distributeArguments_spec D P A HL HS B fuel (map ModelTypes.ArgumentType Args) (match Shadow with Some _ => true | None => false end))
    as (Conv & -> & C1 & C2 & C3 & C4 & C5); [done|by rewrite length_map|]. rewrite length_map in *. rewrite bind_ok, (proj2 (Nat.leb_le _ _)) by done.
  cbn [revng_assert]. rewrite bind_ok.
  destruct (layoutArguments_spec B fuel Args Conv 0 0) as (As & S' & HAs & A1 & A2 & A3); [done| |lia|].
  { intros a Ha. rewrite forallb_forall in HA. specialize (HA (ModelTypes.ArgumentType a)). unfold argumentMeasures in HA.
    destruct (measureArgument _ _ _ _); [|by discriminate HA; apply in_map, list_elem_of_In].
    destruct (isScalar _ _ _) as [b|]; [by exists b|]. by discriminate HA; apply in_map, list_elem_of_In. }
  change (Z.of_nat 0) with 0 in HAs. rewrite HAs, bind_ok, A1, C1, Nat.eqb_refl. cbn [revng_assert]. rewrite bind_ok. destruct (finalStackOffset_ok D P A HL S') as [Final ->]. rewrite bind_ok.
  eexists. split; [done|]. split; [|split; [|apply HRets]].
  - apply (verify_ok D P A HL); try done.
    + eapply sublist_NoDup; [exact C3|exact A2].
    + intros R HRa. apply C4. by eapply elem_of_sublist.
    + intros [Sh ->] Hne Hin. apply (C5 eq_refl Hne). by eapply elem_of_sublist.
  - destruct Shadow as [Sh|]; unfold hasSPTAR; cbn [Arguments].
    + destruct HSh as [-> _]. rewrite bool_decide_eq_true_2 by done. cbn [length]. lia.
    + destruct As as [|a As]; [cbn in *; lia|]. apply Forall_cons in A3 as [A3 _]. rewrite bool_decide_eq_false_2 by done. lia.
Qed.

(** ** Samples *)

Definition prim (K : PrimitiveKind.Values) (n : Z) : UpcastableType := PrimitiveType (PrimitiveType.mkPT false K n).
Definition int_ : UpcastableType := prim PrimitiveKind.Signed 4.
Definition short_ : UpcastableType := prim PrimitiveKind.Signed 2.
Definition float_ : UpcastableType := prim PrimitiveKind.Float 4.
Definition threeInts : UpcastableType := DefinedType false (Some (1, StructKind)).
Definition tenInts : UpcastableType := DefinedType false (Some (2, StructKind)).

Definition sampleModel : list TypeDefinition :=
  [StructDefinition 1 12 [mkStructField 0 int_; mkStructField 4 int_; mkStructField 8 int_];
   StructDefinition 2 40 [mkStructField 0 (ArrayType false 10 int_)]].

Definition indexed (Ts : list UpcastableType) : list ModelTypes.Argument := imap (λ i T, ModelTypes.mkArgument (Z.of_nat i) T) Ts.

Definition layoutOfTypes (ABI_ : ABI.Values) (ReturnType_ : UpcastableType) (Ts : list UpcastableType) : outcome Layout :=
  layoutCABI sampleModel 5 ABI_ ReturnType_ (indexed Ts).

(** The registers and the part of the stack of each argument. *)
Definition places (L : Layout) : list (list Register.Values * option StackSpan) := map (λ A, (ArgumentRegisters A, Stack A)) (Arguments L).

(** [usedRegisters] stops at the first argument on the stack, and misses the vector
    registers of those after it. *)
Fact vector_register_missed :
  argumentRegisters <$> layoutOfTypes ABI.AAPCS Empty [int_; int_; int_; int_; int_; float_]
    = Ok [Register.r0_arm; Register.r1_arm; Register.r2_arm; Register.r3_arm; Register.q0_arm] ∧
  (λ U, map Register.PortionRegister (UsedArguments U)) <$> usedRegistersCABI sampleModel 5 ABI.AAPCS Empty (indexed [int_; int_; int_; int_; int_; float_])
    = Ok [Register.r0_arm; Register.r1_arm; Register.r2_arm; Register.r3_arm].
Proof. split; by vm_compute. Qed.

(** It fails on an argument that has one register and a part of the stack: the size of
    the argument is more than that of the register. *)
Fact split_argument_rejected :
  places <$> layoutOfTypes ABI.AAPCS Empty [int_; int_; int_; threeInts]
    = Ok [([Register.r0_arm], None); ([Register.r1_arm], None); ([Register.r2_arm], None); ([Register.r3_arm], Some (mkSpan 0 8))] ∧
  usedRegistersCABI sampleModel 5 ABI.AAPCS Empty (indexed [int_; int_; int_; threeInts]) = Fault AssertionFailed.
Proof. split; by vm_compute. Qed.

(** Packing looks at a value and the next one only: an argument in a register between
    two on the stack leaves the padding of the first one, which covers the second. *)
Fact packing_overlaps :
  (λ L, drop 8 (places L)) <$> layoutOfTypes ABI.Apple_AAPCS64 Empty [int_; int_; int_; int_; int_; int_; int_; int_; short_; float_; short_]
  = Ok [([], Some (mkSpan 0 8)); ([Register.v0_aarch64], None); ([], Some (mkSpan 2 2))].
Proof. by vm_compute. Qed.

(** The condition on scalars is needed: the ABI of MIPS knows no integer of 16 bytes, and
    its layout of a function with such an argument aborts, although it has a size. *)
Fact unknown_scalar_aborts :
  sizeFits sampleModel 5 (prim PrimitiveKind.Signed 16) = true ∧
  argumentFits ABIData.SystemV_MIPS_o32 sampleModel 5 (prim PrimitiveKind.Signed 16) = false ∧
  layoutOfTypes ABI.SystemV_MIPS_o32 Empty [prim PrimitiveKind.Signed 16] = Fault Aborted.
Proof. split_and!; by vm_compute. Qed.

Lemma layout_verifies_witness :
  ∃ L, layoutCABI sampleModel 5 ABI.SystemV_x86_64 tenInts (indexed [int_; float_; threeInts]) = Ok L ∧ verify L = Ok true ∧ hasSPTAR L = true.
Proof.
  destruct (layout_verifies sampleModel 5 ABI.SystemV_x86_64 ABIData.SystemV_x86_64 tenInts (indexed [int_; float_; threeInts]) eq_refl eq_refl
    ltac:(by vm_compute) ltac:(by vm_compute) ltac:(by vm_compute)) as (L & H1 & H2 & _).
  exists L. split; [exact H1|split; [exact H2|]]. vm_compute in H1. injection H1 as <-. reflexivity.
Defined.
