(* ===== verification/DLATypeSystem.v ===== *)
(** * The type system of the data layout analysis

    [dla::LayoutTypeSystem] (include/revng/DataLayoutAnalysis/DLATypeSystem.h,
    lib/DataLayoutAnalysis/DLATypeSystem.cpp): a graph whose nodes are the layouts of
    the values of a program, and whose links say that two layouts are equal, that
    one has instances of another at some offsets, or that it points to it; the
    operations that edit the graph, and the classes of the values whose layouts
    have been merged. *)

From S2P Require Import Prelude.
From stdpp Require Import gmap list sorting.

(** ** Links *)

(* include/revng/DataLayoutAnalysis/DLATypeSystem.h:33-36 OffsetExpression *)
Record OffsetExpression := mkOE {
  Offset : Z;
  Strides : list Z;
  TripCounts : list (option Z);
}.

#[global] Instance OffsetExpression_eq_dec : EqDecision OffsetExpression.
Proof. solve_decision. Defined.

#[global] Instance OffsetExpression_countable : Countable OffsetExpression.
Proof.
  refine (inj_countable' (λ e, (Offset e, Strides e, TripCounts e)) (λ '(o, s, t), mkOE o s t) _).
  by intros [].
Defined.

(* include/revng/DataLayoutAnalysis/DLATypeSystem.h:38-40 OffsetExpression::OffsetExpression *)
Definition offsetOnly (Off : Z) : OffsetExpression := mkOE Off [] [].

(** The loop over the strides; [Offset < 0] never holds of an unsigned integer. *)
(* include/revng/DataLayoutAnalysis/DLATypeSystem.h:60-75 OffsetExpression::verify *)
Fixpoint verifyStrides (PrevStride : Z) (l : list (Z * option Z)) : bool :=
  match l with
  | [] => true
  | (Stride, MaybeTC) :: l =>
    if PrevStride <? Stride then false
    else if PrevStride <? wrap 64 (Stride * default 1 MaybeTC) then false
    else verifyStrides Stride l
  end%Z.

(* include/revng/DataLayoutAnalysis/DLATypeSystem.h:53-78 OffsetExpression::verify *)
Definition verifyOE (e : OffsetExpression) : bool :=
  if (Offset e <? 0)%Z then false
  else if negb (length (Strides e) =? length (TripCounts e)) then false
  else verifyStrides (2 ^ 64 - 1) (zip (Strides e) (TripCounts e)).

(* include/revng/DataLayoutAnalysis/DLATypeSystem.h:80-89 OffsetExpression::append *)
Definition append (LHS RHS : OffsetExpression) : outcome OffsetExpression :=
  revng_assert (verifyOE LHS);;
  revng_assert (verifyOE RHS);;
  let LHS := mkOE (wrap 64 (Offset LHS + Offset RHS)) (Strides LHS ++ Strides RHS) (TripCounts LHS ++ TripCounts RHS) in
  revng_assert (verifyOE LHS);;
  Ok LHS.

(* include/revng/DataLayoutAnalysis/DLATypeSystem.h:95-100 TypeLinkTag::LinkKind *)
Inductive LinkKind : Set := LK_Equality | LK_Instance | LK_Pointer | LK_All.

#[global] Instance LinkKind_eq_dec : EqDecision LinkKind.
Proof. solve_decision. Defined.

Definition kindNumber (K : LinkKind) : nat :=
  match K with LK_Equality => 0 | LK_Instance => 1 | LK_Pointer => 2 | LK_All => 3 end.

#[global] Instance LinkKind_countable : Countable LinkKind.
Proof.
  apply (inj_countable kindNumber (λ n, match n with
    | 0 => Some LK_Equality | 1 => Some LK_Instance | 2 => Some LK_Pointer | _ => Some LK_All end)).
  by intros [].
Defined.

(* include/revng/DataLayoutAnalysis/DLATypeSystem.h:116-121 TypeLinkTag *)
Record TypeLinkTag := mkTag { getKind : LinkKind; OE : OffsetExpression }.

#[global] Instance TypeLinkTag_eq_dec : EqDecision TypeLinkTag.
Proof. solve_decision. Defined.

#[global] Instance TypeLinkTag_countable : Countable TypeLinkTag.
Proof. refine (inj_countable' (λ t, (getKind t, OE t)) (λ '(k, e), mkTag k e) _). by intros []. Defined.

(* include/revng/DataLayoutAnalysis/DLATypeSystem.h:133-136 TypeLinkTag::getOffsetExpr *)
Definition getOffsetExpr (T : TypeLinkTag) : outcome OffsetExpression :=
  revng_assert (bool_decide (getKind T = LK_Instance));; Ok (OE T).

(* include/revng/DataLayoutAnalysis/DLATypeSystem.h:138-140 TypeLinkTag::equalityTag *)
Definition equalityTag : TypeLinkTag := mkTag LK_Equality (offsetOnly 0).

(* include/revng/DataLayoutAnalysis/DLATypeSystem.h:143-146 TypeLinkTag::instanceTag *)
Definition instanceTag (O : OffsetExpression) : TypeLinkTag := mkTag LK_Instance O.

(* include/revng/DataLayoutAnalysis/DLATypeSystem.h:148-150 TypeLinkTag::pointerTag *)
Definition pointerTag : TypeLinkTag := mkTag LK_Pointer (offsetOnly 0).

(** A node is known by its ID: two nodes never have the same, and nodes are ordered by
    it; the IDs, which count the nodes created, are not taken modulo 2^64. A tag is known
    by its contents, which [LinkTags] has once. *)
Notation NodeID := N.

(** [LayoutTypeSystemNode::Link]. *)
Notation Link := (NodeID * TypeLinkTag)%type.

Fixpoint compareLists {A} (cmp : A → A → comparison) (l k : list A) : comparison :=
  match l, k with
  | [], [] => Eq
  | [], _ => Lt
  | _, [] => Gt
  | x :: l, y :: k => lex (cmp x y) (compareLists cmp l k)
  end.

Definition compareOptions (o p : option Z) : comparison :=
  match o, p with
  | None, None => Eq | None, _ => Lt | _, None => Gt
  | Some x, Some y => (x ?= y)%Z
  end.

(* include/revng/DataLayoutAnalysis/DLATypeSystem.h:48-49 OffsetExpression::operator<=> *)
Definition compareOE (e f : OffsetExpression) : comparison :=
  lex (Offset e ?= Offset f)%Z
    (lex (compareLists Z.compare (Strides e) (Strides f)) (compareLists compareOptions (TripCounts e) (TripCounts f))).

(* include/revng/DataLayoutAnalysis/DLATypeSystem.h:152-152 TypeLinkTag::operator<=> *)
Definition compareTags (t u : TypeLinkTag) : comparison :=
  lex (kindNumber (getKind t) ?= kindNumber (getKind u)) (compareOE (OE t) (OE u)).

(* include/revng/DataLayoutAnalysis/DLATypeSystem.h:172-201 LayoutTypeSystemNode::NeighborLinkComparison *)
Definition linkLess (a b : Link) : bool :=
  bool_decide (lex (a.1 ?= b.1)%N (compareTags a.2 b.2) = Lt).

(** The links of a set of neighbors, in the order a loop meets them. *)
Definition inOrder (s : gset Link) : list Link :=
  merge_sort (λ a b, Is_true (negb (linkLess b a))) (elements s).

(** ** The graph *)

(* include/revng/DataLayoutAnalysis/DLATypeSystem.h:161-165 InterferingChildrenInfo *)
Inductive InterferingChildrenInfo : Set :=
  | Unknown | AllChildrenAreInterfering | AllChildrenAreNonInterfering.

#[global] Instance InterferingChildrenInfo_eq_dec : EqDecision InterferingChildrenInfo.
Proof. solve_decision. Defined.

(* include/revng/DataLayoutAnalysis/DLATypeSystem.h:167-211 LayoutTypeSystemNode *)
Record LayoutTypeSystemNode := mkNode {
  Successors : gset Link;
  Predecessors : gset Link;
  Size : Z;
  InterferingInfo : InterferingChildrenInfo;
  NonScalar : bool;
}.

(** [llvm::IntEqClasses]: equivalence classes of the integers below a size. Its
    classes grow and are joined until it is compressed. *)
Class LLVMIntEqClasses (E : Type) := {
  ec_empty : E;
  ec_size : E → N;
  getNumClasses : E → N;
  ec_grow : N → E → E;
  ec_join : N → N → E → E;
  findLeader : E → N → N;
  ec_compress : E → E;
  ec_lookup : E → N → N;
  size_ec_empty : ec_size ec_empty = 0%N;
  classes_empty : getNumClasses ec_empty = 0%N;
  size_grow n e : getNumClasses e = 0%N → ec_size (ec_grow n e) = N.max n (ec_size e);
  classes_grow n e : getNumClasses e = 0%N → getNumClasses (ec_grow n e) = 0%N;
  leader_grow n e c d : getNumClasses e = 0%N → (c < N.max n (ec_size e))%N → (d < N.max n (ec_size e))%N →
    findLeader (ec_grow n e) c = findLeader (ec_grow n e) d ↔
    c = d ∨ (c < ec_size e)%N ∧ (d < ec_size e)%N ∧ findLeader e c = findLeader e d;
  size_join a b e : getNumClasses e = 0%N → (a < ec_size e)%N → (b < ec_size e)%N → ec_size (ec_join a b e) = ec_size e;
  classes_join a b e : getNumClasses e = 0%N → (a < ec_size e)%N → (b < ec_size e)%N →
    getNumClasses (ec_join a b e) = 0%N;
  leader_join a b e c d : getNumClasses e = 0%N → (a < ec_size e)%N → (b < ec_size e)%N →
    (c < ec_size e)%N → (d < ec_size e)%N →
    findLeader (ec_join a b e) c = findLeader (ec_join a b e) d ↔
    findLeader e c = findLeader e d ∨
    findLeader e c = findLeader e a ∧ findLeader e d = findLeader e b ∨
    findLeader e c = findLeader e b ∧ findLeader e d = findLeader e a;
  size_compress e : ec_size (ec_compress e) = ec_size e;
  classes_compress e : (0 < ec_size e)%N → (0 < getNumClasses (ec_compress e))%N;
  lookup_compress e c d : getNumClasses e = 0%N → (c < ec_size e)%N → (d < ec_size e)%N →
    ec_lookup (ec_compress e) c = ec_lookup (ec_compress e) d ↔ findLeader e c = findLeader e d;
}.

Section type_system.
  Context {E : Type} `{LLVMIntEqClasses E}.

(** *** Equivalence classes of removed and merged nodes *)

(* include/revng/DataLayoutAnalysis/DLATypeSystem.h:229-233 VectEqClasses *)
Record VectEqClasses := mkClasses {
  Base : E;
  RemovedID : option N;
  NElems : N;
}.

(** Joins, leaders and lookups are defined on the elements, the first two before the
    compression and the last after it. *)
Definition joinEC (a b : N) (C : VectEqClasses) : outcome VectEqClasses :=
  if bool_decide (getNumClasses (Base C) = 0 ∧ a < ec_size (Base C) ∧ b < ec_size (Base C))%N
  then Ok (mkClasses (ec_join a b (Base C)) (RemovedID C) (NElems C))
  else undefined.

Definition leaderEC (C : VectEqClasses) (a : N) : outcome N :=
  if bool_decide (a < ec_size (Base C))%N then Ok (findLeader (Base C) a) else undefined.

(* include/revng/DataLayoutAnalysis/DLATypeSystem.h:237-239 VectEqClasses::lookupEqClass *)
Definition lookupEqClass (C : VectEqClasses) (ID : N) : outcome N :=
  if bool_decide (0 < getNumClasses (Base C) ∧ ID < ec_size (Base C))%N then Ok (ec_lookup (Base C) ID) else undefined.

(* lib/DataLayoutAnalysis/DLATypeSystem.cpp:736-740 VectEqClasses::growBy1 *)
Definition growBy1 (C : VectEqClasses) : outcome (N * VectEqClasses) :=
  if bool_decide (getNumClasses (Base C) = 0%N)
  then let n := (NElems C + 1)%N in Ok (n, mkClasses (ec_grow n (Base C)) (RemovedID C) n)
  else undefined.

(* lib/DataLayoutAnalysis/DLATypeSystem.cpp:742-747 VectEqClasses::remove *)
Definition removeEC (A : N) (C : VectEqClasses) : outcome VectEqClasses :=
  match RemovedID C with
  | Some R => joinEC A R C
  | None => Ok (mkClasses (Base C) (Some A) (NElems C))
  end.

(* lib/DataLayoutAnalysis/DLATypeSystem.cpp:749-762 VectEqClasses::isRemoved *)
Definition isRemoved (C : VectEqClasses) (ID : N) : outcome bool :=
  match RemovedID C with
  | None => Ok false
  | Some R =>
    if bool_decide (getNumClasses (Base C) = 0%N) then
      l ← leaderEC C ID; r ← leaderEC C R; Ok (bool_decide (l = r))
    else
      ElementEqClass ← lookupEqClass C ID; RemovedEqClass ← lookupEqClass C R;
      Ok (bool_decide (ElementEqClass = RemovedEqClass))
  end.

(* lib/DataLayoutAnalysis/DLATypeSystem.cpp:764-771 VectEqClasses::getEqClassID *)
Definition getEqClassID (C : VectEqClasses) (ID : N) : outcome (option N) :=
  EqID ← lookupEqClass C ID;
  IsRemoved ← match RemovedID C with
              | Some R => r ← lookupEqClass C R; Ok (bool_decide (r = EqID))
              | None => Ok false
              end;
  Ok (if (IsRemoved : bool) then None else Some EqID).

(* lib/DataLayoutAnalysis/DLATypeSystem.cpp:784-791 VectEqClasses::haveSameEqClass *)
Definition haveSameEqClass (C : VectEqClasses) (ID1 ID2 : N) : outcome bool :=
  if bool_decide (getNumClasses (Base C) = 0%N) then
    l ← leaderEC C ID1; r ← leaderEC C ID2; Ok (bool_decide (l = r))
  else
    l ← lookupEqClass C ID1; r ← lookupEqClass C ID2; Ok (bool_decide (l = r)).

Definition indices (n : N) : list N := N.of_nat <$> seq 0 (N.to_nat n).

(* lib/DataLayoutAnalysis/DLATypeSystem.cpp:773-782 VectEqClasses::computeEqClass *)
Definition computeEqClass (C : VectEqClasses) (ElemID : N) : outcome (list N) :=
  foldr (λ OtherID rest,
    same ← haveSameEqClass C ElemID OtherID;
    EqClass ← rest;
    Ok (if (same : bool) then OtherID :: EqClass else EqClass)) (Ok []) (indices (NElems C)).

(** *** State *)

(* include/revng/DataLayoutAnalysis/DLATypeSystem.h:400-409 LayoutTypeSystem *)
Record LayoutTypeSystem := mkTS {
  NID : N;
  Layouts : gmap NodeID LayoutTypeSystemNode;
  LinkTags : gset TypeLinkTag;
  EqClasses : VectEqClasses;
}.

Definition emptyTypeSystem : LayoutTypeSystem := mkTS 0 ∅ ∅ (mkClasses ec_empty None 0).

Definition withLayouts (f : gmap NodeID LayoutTypeSystemNode → gmap NodeID LayoutTypeSystemNode) (TS : LayoutTypeSystem) :
  LayoutTypeSystem := mkTS (NID TS) (f (Layouts TS)) (LinkTags TS) (EqClasses TS).

(** A node that is not there has been destroyed: a use of it is undefined. *)
Definition deref (TS : LayoutTypeSystem) (n : NodeID) : outcome LayoutTypeSystemNode :=
  match Layouts TS !! n with Some N => Ok N | None => undefined end.

Definition modify (f : LayoutTypeSystemNode → LayoutTypeSystemNode) (n : NodeID) (TS : LayoutTypeSystem) :
  outcome LayoutTypeSystem := N ← deref TS n; Ok (withLayouts <[n := f N]> TS).

Definition withSuccessors (f : gset Link → gset Link) (N : LayoutTypeSystemNode) : LayoutTypeSystemNode :=
  mkNode (f (Successors N)) (Predecessors N) (Size N) (InterferingInfo N) (NonScalar N).

Definition withPredecessors (f : gset Link → gset Link) (N : LayoutTypeSystemNode) : LayoutTypeSystemNode :=
  mkNode (Successors N) (f (Predecessors N)) (Size N) (InterferingInfo N) (NonScalar N).

Definition withSize (s : Z) (N : LayoutTypeSystemNode) : LayoutTypeSystemNode :=
  mkNode (Successors N) (Predecessors N) s (InterferingInfo N) (NonScalar N).

Definition withInterfering (i : InterferingChildrenInfo) (N : LayoutTypeSystemNode) : LayoutTypeSystemNode :=
  mkNode (Successors N) (Predecessors N) (Size N) i (NonScalar N).

(** The nodes, in the order of their IDs. *)
Definition layoutsRange (TS : LayoutTypeSystem) : list NodeID :=
  filter (λ n, is_Some (Layouts TS !! n)) (indices (NID TS)).

(** *** Operations *)

(* lib/DataLayoutAnalysis/DLATypeSystem.cpp:208-217 LayoutTypeSystem::createArtificialLayoutType *)
Definition createArtificialLayoutType (TS : LayoutTypeSystem) : outcome (NodeID * LayoutTypeSystem) :=
  let New := NID TS in
  '(_, C) ← growBy1 (EqClasses TS);
  revng_assert (bool_decide (Layouts TS !! New = None));;
  Ok (New, mkTS (NID TS + 1) (<[New := mkNode ∅ ∅ 0 Unknown false]> (Layouts TS)) (LinkTags TS) C).

(* lib/DataLayoutAnalysis/DLATypeSystem.cpp:219-225 LayoutTypeSystem::createArtificialLayoutTypes *)
Fixpoint createArtificialLayoutTypes (n : nat) (TS : LayoutTypeSystem) : outcome (list NodeID * LayoutTypeSystem) :=
  match n with
  | O => Ok ([], TS)
  | S n =>
    '(New, TS) ← createArtificialLayoutType TS;
    '(Result, TS) ← createArtificialLayoutTypes n TS;
    Ok (New :: Result, TS)
  end.

(* include/revng/DataLayoutAnalysis/DLATypeSystem.h:316-330 LayoutTypeSystem::addLink *)
Definition addLink (Src Tgt : option NodeID) (Tag : TypeLinkTag) (TS : LayoutTypeSystem) :
  outcome (option TypeLinkTag * bool * LayoutTypeSystem) :=
  match Src, Tgt with
  | Some Src, Some Tgt =>
    if bool_decide (Src = Tgt) then Ok (None, false, TS) else
    revng_assert (bool_decide (is_Some (Layouts TS !! Src)));;
    revng_assert (bool_decide (is_Some (Layouts TS !! Tgt)));;
    let TS := mkTS (NID TS) (Layouts TS) ({[Tag]} ∪ LinkTags TS) (EqClasses TS) in
    SrcNode ← deref TS Src;
    let New := bool_decide ((Tgt, Tag) ∉ Successors SrcNode) in
    TS ← modify (withSuccessors (λ s, {[(Tgt, Tag)]} ∪ s)) Src TS;
    TgtNode ← deref TS Tgt;
    let New := New || bool_decide ((Src, Tag) ∉ Predecessors TgtNode) in
    TS ← modify (withPredecessors (λ s, {[(Src, Tag)]} ∪ s)) Tgt TS;
    Ok (Some Tag, New, TS)
  | _, _ => Ok (None, false, TS)
  end.

(* include/revng/DataLayoutAnalysis/DLATypeSystem.h:333-339 LayoutTypeSystem::addEqualityLink *)
Definition addEqualityLink (Src Tgt : option NodeID) (TS : LayoutTypeSystem) :
  outcome (option TypeLinkTag * bool * LayoutTypeSystem) :=
  '(ForwardLinkTag, TS) ← addLink Src Tgt equalityTag TS;
  '(BackwardLinkTag, TS) ← addLink Tgt Src equalityTag TS;
  revng_assert (bool_decide (ForwardLinkTag = BackwardLinkTag));;
  Ok (ForwardLinkTag, TS).

(* include/revng/DataLayoutAnalysis/DLATypeSystem.h:342-359 LayoutTypeSystem::addInstanceLink *)
Definition addInstanceLink (Src Tgt : option NodeID) (OE : OffsetExpression) (TS : LayoutTypeSystem) :
  outcome (option TypeLinkTag * bool * LayoutTypeSystem) :=
  if (65535 <? Offset OE)%Z then Ok (None, false, TS) else addLink Src Tgt (instanceTag OE) TS.

(* include/revng/DataLayoutAnalysis/DLATypeSystem.h:361-364 LayoutTypeSystem::addPointerLink *)
Definition addPointerLink (Src Tgt : option NodeID) (TS : LayoutTypeSystem) :
  outcome (option TypeLinkTag * bool * LayoutTypeSystem) := addLink Src Tgt pointerTag TS.

(** The links to a node are extracted one by one and inserted as links to another: this
    is what is left of the set. *)
(* lib/DataLayoutAnalysis/DLATypeSystem.cpp:238-248 fixPredSucc *)
Definition redirect (From Into : NodeID) (s : gset Link) : gset Link :=
  set_map (λ l : Link, if bool_decide (l.1 = From) then (Into, l.2) else l) s.

(* lib/DataLayoutAnalysis/DLATypeSystem.cpp:276-286 fixPredSucc *)
Definition dropLinks (n : NodeID) (s : gset Link) : gset Link := filter (λ l : Link, l.1 ≠ n) s.

(* lib/DataLayoutAnalysis/DLATypeSystem.cpp:227-290 fixPredSucc *)
Definition fixPredSucc (From Into : NodeID) (TS : LayoutTypeSystem) : outcome LayoutTypeSystem :=
  revng_assert (bool_decide (From ≠ Into));;
  F ← deref TS From;
  TS ← forEachM (λ l : Link, modify (withPredecessors (redirect From Into)) l.1) (inOrder (Successors F)) TS;
  F ← deref TS From;
  TS ← forEachM (λ l : Link, modify (withSuccessors (redirect From Into)) l.1) (inOrder (Predecessors F)) TS;
  F ← deref TS From;
  TS ← modify (withPredecessors (λ s, s ∪ Predecessors F)) Into TS;
  TS ← modify (withSuccessors (λ s, s ∪ Successors F)) Into TS;
  TS ← modify (withPredecessors (λ s, dropLinks Into (dropLinks From s))) Into TS;
  modify (withSuccessors (λ s, dropLinks Into (dropLinks From s))) Into TS.

(** The size of the result of a merge. *)
(* lib/DataLayoutAnalysis/DLATypeSystem.cpp:309-319 LayoutTypeSystem::mergeNodes *)
Definition mergedSize (I F : LayoutTypeSystemNode) : outcome Z :=
  if NonScalar I || NonScalar F then
    revng_assert (negb (NonScalar I && NonScalar F) || (Size I =? Size F)%Z);;
    let (NonScalarNode, Other) := if NonScalar I then (I, F) else (F, I) in
    revng_assert (Size Other <=? Size NonScalarNode)%Z;;
    Ok (Size NonScalarNode)
  else
    revng_assert ((Size I =? 0) || (Size F <=? Size I))%Z;;
    Ok (Z.max (Size I) (Size F)).

(* lib/DataLayoutAnalysis/DLATypeSystem.cpp:305-330 LayoutTypeSystem::mergeNodes *)
Definition mergeInto (Into From : NodeID) (TS : LayoutTypeSystem) : outcome LayoutTypeSystem :=
  revng_assert (bool_decide (From ≠ Into));;
  I ← deref TS Into;
  F ← deref TS From;
  s ← mergedSize I F;
  TS ← modify (λ N, mkNode (Successors N) (Predecessors N) s Unknown (NonScalar N || NonScalar F)) Into TS;
  C ← joinEC Into From (EqClasses TS);
  TS ← fixPredSucc From Into (mkTS (NID TS) (Layouts TS) (LinkTags TS) C);
  revng_assert (bool_decide (is_Some (Layouts TS !! From)));;
  Ok (withLayouts (delete From) TS).

(* lib/DataLayoutAnalysis/DLATypeSystem.cpp:294-332 LayoutTypeSystem::mergeNodes *)
Definition mergeNodes (ToMerge : list NodeID) (TS : LayoutTypeSystem) : outcome LayoutTypeSystem :=
  match ToMerge with
  | [] => Fault AssertionFailed
  | [_] => Ok TS
  | Into :: Rest => _ ← deref TS Into; forEachM (mergeInto Into) Rest TS
  end.

(* lib/DataLayoutAnalysis/DLATypeSystem.cpp:334-360 LayoutTypeSystem::removeNode *)
Definition removeNode (ToRemove : NodeID) (TS : LayoutTypeSystem) : outcome LayoutTypeSystem :=
  _ ← deref TS ToRemove;
  C ← removeEC ToRemove (EqClasses TS);
  let TS := mkTS (NID TS) (Layouts TS) (LinkTags TS) C in
  N ← deref TS ToRemove;
  TS ← forEachM (λ l : Link, modify (withPredecessors (dropLinks ToRemove)) l.1) (inOrder (Successors N)) TS;
  N ← deref TS ToRemove;
  TS ← forEachM (λ l : Link, modify (withSuccessors (dropLinks ToRemove)) l.1) (inOrder (Predecessors N)) TS;
  revng_assert (bool_decide (is_Some (Layouts TS !! ToRemove)));;
  Ok (withLayouts (delete ToRemove) TS).

(** An iterator to a neighbor is the link it points to, which must be there. *)
Definition linkAt (s : gset Link) (It : Link) : outcome unit :=
  if bool_decide (It ∈ s) then Ok tt else undefined.

(* lib/DataLayoutAnalysis/DLATypeSystem.cpp:364-379 moveEdgeTargetWithoutSumming *)
Definition moveEdgeTargetWithoutSumming (OldTgt NewTgt : NodeID) (InverseEdge : Link) (TS : LayoutTypeSystem) :
  outcome LayoutTypeSystem :=
  let '(Src, Tag) := InverseEdge in
  Old ← deref TS OldTgt;
  linkAt (Predecessors Old) InverseEdge;;
  S ← deref TS Src;
  revng_assert (bool_decide ((OldTgt, Tag) ∈ Successors S));;
  TS ← modify (withSuccessors (λ s, {[(NewTgt, Tag)]} ∪ s ∖ {[(OldTgt, Tag)]})) Src TS;
  TS ← modify (withPredecessors (λ s, s ∖ {[InverseEdge]})) OldTgt TS;
  modify (withPredecessors (λ s, {[InverseEdge]} ∪ s)) NewTgt TS.

(* lib/DataLayoutAnalysis/DLATypeSystem.cpp:381-395 moveEdgeSourceWithoutSumming *)
Definition moveEdgeSourceWithoutSumming (OldSrc NewSrc : NodeID) (Edge : Link) (TS : LayoutTypeSystem) :
  outcome LayoutTypeSystem :=
  let '(Tgt, Tag) := Edge in
  Old ← deref TS OldSrc;
  linkAt (Successors Old) Edge;;
  T ← deref TS Tgt;
  revng_assert (bool_decide ((OldSrc, Tag) ∈ Predecessors T));;
  TS ← modify (withPredecessors (λ s, {[(NewSrc, Tag)]} ∪ s ∖ {[(OldSrc, Tag)]})) Tgt TS;
  TS ← modify (withSuccessors (λ s, s ∖ {[Edge]})) OldSrc TS;
  modify (withSuccessors (λ s, {[Edge]} ∪ s)) NewSrc TS.

(** The offset of an instance link is moved; other links are not expected. *)
(* lib/DataLayoutAnalysis/DLATypeSystem.cpp:418-432 LayoutTypeSystem::moveEdgeTarget *)
Definition addMovedLink (Src Tgt : NodeID) (EdgeTag : TypeLinkTag) (OffsetToSum : Z) (TS : LayoutTypeSystem) :
  outcome LayoutTypeSystem :=
  match getKind EdgeTag with
  | LK_Instance =>
    let NewOE := mkOE (wrap 64 (Offset (OE EdgeTag) + OffsetToSum)) (Strides (OE EdgeTag)) (TripCounts (OE EdgeTag)) in
    '(_, TS) ← addInstanceLink (Some Src) (Some Tgt) NewOE TS;
    Ok TS
  | _ => revng_abort
  end.

(* lib/DataLayoutAnalysis/DLATypeSystem.cpp:397-433 LayoutTypeSystem::moveEdgeTarget *)
Definition moveEdgeTarget (OldTgt NewTgt : option NodeID) (InverseEdge : Link) (OffsetToSum : Z) (TS : LayoutTypeSystem) :
  outcome LayoutTypeSystem :=
  match OldTgt, NewTgt with
  | Some OldTgt, Some NewTgt =>
    if (OffsetToSum =? 0)%Z then moveEdgeTargetWithoutSumming OldTgt NewTgt InverseEdge TS else
    let '(Src, Tag) := InverseEdge in
    Old ← deref TS OldTgt;
    linkAt (Predecessors Old) InverseEdge;;
    S ← deref TS Src;
    revng_assert (bool_decide ((OldTgt, Tag) ∈ Successors S));;
    TS ← modify (withSuccessors (λ s, s ∖ {[(OldTgt, Tag)]})) Src TS;
    TS ← modify (withPredecessors (λ s, s ∖ {[InverseEdge]})) OldTgt TS;
    addMovedLink Src NewTgt Tag OffsetToSum TS
  | _, _ => Ok TS
  end.

(* lib/DataLayoutAnalysis/DLATypeSystem.cpp:435-471 LayoutTypeSystem::moveEdgeSource *)
Definition moveEdgeSource (OldSrc NewSrc : option NodeID) (Edge : Link) (OffsetToSum : Z) (TS : LayoutTypeSystem) :
  outcome LayoutTypeSystem :=
  match OldSrc, NewSrc with
  | Some OldSrc, Some NewSrc =>
    if (OffsetToSum =? 0)%Z then moveEdgeSourceWithoutSumming OldSrc NewSrc Edge TS else
    let '(Tgt, Tag) := Edge in
    Old ← deref TS OldSrc;
    linkAt (Successors Old) Edge;;
    T ← deref TS Tgt;
    revng_assert (bool_decide ((OldSrc, Tag) ∈ Predecessors T));;
    TS ← modify (withPredecessors (λ s, s ∖ {[(OldSrc, Tag)]})) Tgt TS;
    TS ← modify (withSuccessors (λ s, s ∖ {[Edge]})) OldSrc TS;
    addMovedLink NewSrc Tgt Tag OffsetToSum TS
  | _, _ => Ok TS
  end.

(* lib/DataLayoutAnalysis/DLATypeSystem.cpp:473-483 LayoutTypeSystem::eraseEdge *)
Definition eraseEdge (Src : NodeID) (Edge : Link) (TS : LayoutTypeSystem) : outcome LayoutTypeSystem :=
  let '(Tgt, Tag) := Edge in
  S ← deref TS Src;
  linkAt (Successors S) Edge;;
  T ← deref TS Tgt;
  revng_assert (bool_decide ((Src, Tag) ∈ Predecessors T));;
  TS ← modify (withPredecessors (λ s, s ∖ {[(Src, Tag)]})) Tgt TS;
  modify (withSuccessors (λ s, s ∖ {[Edge]})) Src TS.

(* lib/DataLayoutAnalysis/DLATypeSystem.cpp:485-490 LayoutTypeSystem::dropOutgoingEdges *)
Definition dropOutgoingEdges (n : NodeID) (TS : LayoutTypeSystem) : outcome LayoutTypeSystem :=
  N ← deref TS n; forEachM (eraseEdge n) (inOrder (Successors N)) TS.

(** *** Kinds of links and nodes *)

(* include/revng/DataLayoutAnalysis/DLATypeSystem.h:624-630 hasLinkKind *)
Definition hasLinkKind (K : LinkKind) (L : Link) : bool :=
  match K with LK_All => true | _ => bool_decide (getKind L.2 = K) end.

(* include/revng/DataLayoutAnalysis/DLATypeSystem.h:632-639 hasNonPointerLinkKind *)
Definition hasNonPointerLinkKind (K : LinkKind) (L : Link) : bool :=
  match K with LK_All => bool_decide (getKind L.2 ≠ LK_Pointer) | _ => bool_decide (getKind L.2 = K) end.

(* include/revng/DataLayoutAnalysis/DLATypeSystem.h:641-644 isEqualityEdge *)
Definition isEqualityEdge : Link → bool := hasLinkKind LK_Equality.

(* include/revng/DataLayoutAnalysis/DLATypeSystem.h:646-649 isInstanceEdge *)
Definition isInstanceEdge : Link → bool := hasLinkKind LK_Instance.

(* include/revng/DataLayoutAnalysis/DLATypeSystem.h:651-658 isInstanceOff0 *)
Definition isInstanceOff0 (L : Link) : bool :=
  isInstanceEdge L && (Offset (OE L.2) =? 0)%Z && (length (Strides (OE L.2)) =? 0) && (length (TripCounts (OE L.2)) =? 0).

(* include/revng/DataLayoutAnalysis/DLATypeSystem.h:660-667 isStridedInstance *)
Definition isStridedInstance (L : Link) : bool := isInstanceEdge L && negb (length (Strides (OE L.2)) =? 0).

(* include/revng/DataLayoutAnalysis/DLATypeSystem.h:669-673 isNonStridedInstance *)
Definition isNonStridedInstance (L : Link) : bool := isInstanceEdge L && negb (isStridedInstance L).

(* include/revng/DataLayoutAnalysis/DLATypeSystem.h:675-678 isInstanceOffNon0 *)
Definition isInstanceOffNon0 (L : Link) : bool := isInstanceEdge L && negb (isInstanceOff0 L).

(* include/revng/DataLayoutAnalysis/DLATypeSystem.h:680-683 isPointerEdge *)
Definition isPointerEdge : Link → bool := hasLinkKind LK_Pointer.

(* include/revng/DataLayoutAnalysis/DLATypeSystem.h:685-688 isNotPointerEdge *)
Definition isNotPointerEdge (L : Link) : bool := negb (isPointerEdge L).

(** Some link of a set satisfies a predicate. *)
Definition anyLink (P : Link → bool) (s : gset Link) : bool := existsb P (inOrder s).

(* include/revng/DataLayoutAnalysis/DLATypeSystem.h:690-692 isPointerNode *)
Definition isPointerNode (N : LayoutTypeSystemNode) : bool := anyLink isPointerEdge (Successors N).

(* include/revng/DataLayoutAnalysis/DLATypeSystem.h:694-697 isStructNode *)
Definition isStructNode (N : LayoutTypeSystemNode) : bool :=
  bool_decide (InterferingInfo N = AllChildrenAreNonInterfering) && anyLink isNotPointerEdge (Successors N).

(* include/revng/DataLayoutAnalysis/DLATypeSystem.h:699-701 isUnionNode *)
Definition isUnionNode (N : LayoutTypeSystemNode) : bool := bool_decide (InterferingInfo N = AllChildrenAreInterfering).

(* include/revng/DataLayoutAnalysis/DLATypeSystem.h:703-714 isLeaf, isInstanceLeaf *)
Definition isLeaf (K : LinkKind) (N : LayoutTypeSystemNode) : bool := negb (anyLink (hasNonPointerLinkKind K) (Successors N)).

(* include/revng/DataLayoutAnalysis/DLATypeSystem.h:716-721 isPointerLeaf *)
Definition isPointerLeaf (N : LayoutTypeSystemNode) : bool := negb (anyLink isPointerEdge (Successors N)).

(* include/revng/DataLayoutAnalysis/DLATypeSystem.h:723-734 isRoot, isInstanceRoot *)
Definition isRoot (K : LinkKind) (N : LayoutTypeSystemNode) : bool := negb (anyLink (hasNonPointerLinkKind K) (Predecessors N)).

(* include/revng/DataLayoutAnalysis/DLATypeSystem.h:736-741 isPointerRoot *)
Definition isPointerRoot (N : LayoutTypeSystemNode) : bool := negb (anyLink isPointerEdge (Predecessors N)).

(** *** Verification *)

(** Whether all the elements satisfy a predicate that can fail. *)
Fixpoint allM {A} (f : A → outcome bool) (l : list A) : outcome bool :=
  match l with
  | [] => Ok true
  | x :: l => b ← f x; if (b : bool) then allM f l else Ok false
  end.

(** Pointers have one pointer link and no instance link. *)
(* lib/DataLayoutAnalysis/DLATypeSystem.cpp:549-571 LayoutTypeSystem::verifyConsistency *)
Fixpoint verifyPointers (IsPointer : bool) (NonPtrChildren : nat) (l : list Link) : bool :=
  match l with
  | [] => true
  | Edge :: l =>
    if isPointerEdge Edge && IsPointer then false else
    let IsPointer := isPointerEdge Edge || IsPointer in
    let NonPtrChildren := if negb (isPointerEdge Edge) && isInstanceEdge Edge then S NonPtrChildren else NonPtrChildren in
    if IsPointer && (0 <? NonPtrChildren) then false else verifyPointers IsPointer NonPtrChildren l
  end.

(** Links to null are not represented. *)
(* lib/DataLayoutAnalysis/DLATypeSystem.cpp:494-574 LayoutTypeSystem::verifyConsistency *)
Definition verifyConsistency (TS : LayoutTypeSystem) : outcome bool :=
  allM (λ n,
    N ← deref TS n;
    preds ← allM (λ P : Link, M ← deref TS P.1; Ok (bool_decide ((n, P.2) ∈ Successors M))) (inOrder (Predecessors N));
    if negb preds then Ok false else
    succs ← allM (λ P : Link, M ← deref TS P.1; Ok (bool_decide ((n, P.2) ∈ Predecessors M))) (inOrder (Successors N));
    if negb succs then Ok false else
    Ok (negb (anyLink (λ P, bool_decide (P.1 = n)) (Predecessors N))
        && negb (anyLink (λ P, bool_decide (P.1 = n)) (Successors N))
        && verifyPointers false 0 (inOrder (Successors N)))) (layoutsRange TS).

(* lib/DataLayoutAnalysis/DLATypeSystem.cpp:667-681 LayoutTypeSystem::verifyNoEquality *)
Definition verifyNoEquality (TS : LayoutTypeSystem) : outcome bool :=
  consistent ← verifyConsistency TS;
  if negb consistent then Ok false else
  allM (λ n, N ← deref TS n; Ok (negb (anyLink isEqualityEdge (Successors N)))) (layoutsRange TS).

(* lib/DataLayoutAnalysis/DLATypeSystem.cpp:710-720 LayoutTypeSystem::verifyLeafs *)
Definition verifyLeafs (TS : LayoutTypeSystem) : outcome bool :=
  allM (λ n, N ← deref TS n; Ok (negb (isLeaf LK_All N && (Size N =? 0)%Z))) (layoutsRange TS).

(* lib/DataLayoutAnalysis/DLATypeSystem.cpp:722-734 LayoutTypeSystem::verifyUnions *)
Definition verifyUnions (TS : LayoutTypeSystem) : outcome bool :=
  allM (λ n, N ← deref TS n; Ok (negb (isUnionNode N && (length (inOrder (Successors N)) <=? 1)))) (layoutsRange TS).

End type_system.

Arguments VectEqClasses : clear implicits.
Arguments LayoutTypeSystem : clear implicits.
