(* ===== verification/DLATypeSystemProperties.v ===== *)
(** * Properties of the type system of the data layout analysis

    The operations of [dla::LayoutTypeSystem] (DLATypeSystem.v) edit a labelled graph
    without loops, whose links are kept in both of their nodes, and the layouts of the
    values follow the merges. *)

From stdpp Require Import gmap list sorting.
From S2P Require Import Prelude DLATypeSystem.

Lemma elem_of_links (s : gset (NodeID * TypeLinkTag)) l : l ∈ inOrder s ↔ l ∈ s.
Proof. unfold inOrder. by rewrite merge_sort_Permutation, elem_of_elements. Qed.

Lemma NoDup_links (s : gset (NodeID * TypeLinkTag)) : NoDup (inOrder s).
Proof. unfold inOrder. rewrite merge_sort_Permutation. apply NoDup_elements. Qed.

Lemma elem_of_indices n i : i ∈ indices n ↔ (i < n)%N.
Proof.
  unfold indices. rewrite list_elem_of_fmap. split.
  - intros (k & -> & Hk%elem_of_seq). lia.
  - intros Hi. exists (N.to_nat i). split; [by rewrite N2Nat.id|]. apply elem_of_seq. lia.
Qed.

Section graph.
  Context {E : Type} `{LLVMIntEqClasses E}.
  Implicit Types TS : LayoutTypeSystem E.
  Notation Link := (NodeID * TypeLinkTag)%type.

(** ** The graph and its invariant *)

Definition live TS (n : NodeID) : Prop := is_Some (Layouts TS !! n).

Definition hasEdge TS (s : NodeID) (t : TypeLinkTag) (d : NodeID) : Prop :=
  ∃ N, Layouts TS !! s = Some N ∧ (d, t) ∈ Successors N.

(** Both nodes of a link have it, its tag is kept, and no node is linked to itself. *)
Record graph_wf TS : Prop := {
  wf_pred d D s t : Layouts TS !! d = Some D → (s, t) ∈ Predecessors D ↔ hasEdge TS s t d;
  wf_target s t d : hasEdge TS s t d → live TS d;
  wf_loop s t : ¬ hasEdge TS s t s;
  wf_tags s t d : hasEdge TS s t d → t ∈ LinkTags TS;
  wf_bound n : live TS n → (n < NID TS)%N;
}.

(** Two IDs in the same class; the classes of removed nodes. *)
Definition same (C : VectEqClasses E) (i j : N) : Prop := findLeader (Base C) i = findLeader (Base C) j.
Definition removed (C : VectEqClasses E) (i : N) : Prop := ∃ r, RemovedID C = Some r ∧ same C i r.

(** Every ID that was given is that of a removed node, or in the class of exactly one
    node. *)
Record classes_wf TS : Prop := {
  wf_uncompressed : getNumClasses (Base (EqClasses TS)) = 0%N;
  wf_ec_size : ec_size (Base (EqClasses TS)) = NID TS;
  wf_elements : NElems (EqClasses TS) = NID TS;
  wf_removed r : RemovedID (EqClasses TS) = Some r → (r < NID TS)%N;
  wf_represented i : (i < NID TS)%N → removed (EqClasses TS) i ∨ ∃ n, live TS n ∧ same (EqClasses TS) i n;
  wf_unique n m : live TS n → live TS m → same (EqClasses TS) n m → n = m;
  wf_kept n : live TS n → ¬ removed (EqClasses TS) n;
}.

Definition wf TS : Prop := graph_wf TS ∧ classes_wf TS.

(** The layout of a value, by its ID: none when it was removed. *)
Definition layoutOf TS (i : N) (n : NodeID) : Prop := live TS n ∧ same (EqClasses TS) i n.

Lemma live_Some TS n N : Layouts TS !! n = Some N → live TS n.
Proof. intros. by eexists. Qed.

Lemma edge_source TS s t d : hasEdge TS s t d → live TS s.
Proof. intros (N & ? & _). by eexists. Qed.

Lemma edge_iff TS s N t d : Layouts TS !! s = Some N → (d, t) ∈ Successors N ↔ hasEdge TS s t d.
Proof. intros Hs. unfold hasEdge. rewrite Hs. naive_solver. Qed.

(** ** Steps *)

Lemma deref_ok TS n N : Layouts TS !! n = Some N → deref TS n = Ok N.
Proof. unfold deref. by intros ->. Qed.

Lemma modify_ok f TS n N : Layouts TS !! n = Some N → modify f n TS = Ok (withLayouts <[n := f N]> TS).
Proof. unfold modify, deref. by intros ->. Qed.

(** A loop that makes the same change to the nodes of some links. *)
Lemma forEachM_modify f (ls : list Link) TS :
  (∀ N, f (f N) = f N) → (∀ l, l ∈ ls → live TS l.1) →
  ∃ M, forEachM (λ l : Link, modify f l.1) ls TS = Ok (withLayouts (λ _, M) TS) ∧
    ∀ n, M !! n = (λ N, if decide (n ∈ ls.*1) then f N else N) <$> Layouts TS !! n.
Proof.
  intros Hf. revert TS. induction ls as [|l ls IH]; intros TS Hl.
  - exists (Layouts TS). split; [by destruct TS|]. intros n. destruct (Layouts TS !! n); [|done]. cbn.
    by rewrite decide_False by apply not_elem_of_nil.
  - destruct (Hl l) as [N HN]; [by left|]. cbn [forEachM]. rewrite (modify_ok _ _ _ _ HN), bind_ok.
    destruct (IH (withLayouts <[l.1 := f N]> TS)) as (M & -> & HM).
    { intros k Hk. unfold live. cbn. destruct (decide (l.1 = k.1)) as [->|].
      - rewrite lookup_insert_eq. by eexists.
      - rewrite lookup_insert_ne by done. apply Hl. by right. }
    exists M. split; [done|]. intros n. rewrite HM. cbn [Layouts withLayouts fmap list_fmap].
    destruct (decide (l.1 = n)) as [<-|Hn].
    + rewrite lookup_insert_eq, HN. cbn. rewrite (decide_True (P := l.1 ∈ l.1 :: ls.*1)) by left.
      case_decide; [by rewrite Hf|done].
    + rewrite lookup_insert_ne by done. destruct (Layouts TS !! n); [|done]. cbn. f_equal.
      destruct (decide (n ∈ ls.*1)); [rewrite decide_True by by right|rewrite decide_False by (rewrite elem_of_cons; naive_solver)]; done.
Qed.

Lemma withLayouts_withLayouts f g TS : withLayouts f (withLayouts g TS) = withLayouts (λ M, f (g M)) TS.
Proof. done. Qed.

Lemma elem_of_redirect From Into s d t :
  (d, t) ∈ redirect From Into s ↔ ∃ d0, (d0, t) ∈ s ∧ d = if decide (d0 = From) then Into else d0.
Proof.
  unfold redirect. rewrite elem_of_map. split.
  - intros ([d0 t0] & He & Hs). cbn in He. exists d0.
    case_bool_decide; injection He as -> ->; (split; [done|]); [by rewrite decide_True|by rewrite decide_False].
  - intros (d0 & Hs & ->). exists (d0, t). split; [|done]. cbn.
    case_bool_decide; [rewrite decide_True|rewrite decide_False]; done.
Qed.

Lemma elem_of_dropLinks n s d t : (d, t) ∈ dropLinks n s ↔ (d, t) ∈ s ∧ d ≠ n.
Proof. unfold dropLinks. rewrite elem_of_filter. naive_solver. Qed.

Lemma redirect_idemp From Into s : From ≠ Into → redirect From Into (redirect From Into s) = redirect From Into s.
Proof.
  intros Hne. apply set_eq. intros [d t]. rewrite !elem_of_redirect. split.
  - intros (d0 & (d1 & Hs & ->)%elem_of_redirect & ->). exists d1. split; [done|].
    destruct (decide (d1 = From)); [|by rewrite decide_False]. by rewrite decide_False.
  - intros (d0 & Hs & ->). exists (if decide (d0 = From) then Into else d0). split; [by apply elem_of_redirect; eexists|].
    destruct (decide (d0 = From)); rewrite decide_False by done; done.
Qed.

Lemma redirect_id From Into s : (∀ t, (From, t) ∉ s) → redirect From Into s = s.
Proof.
  intros Hs. apply set_eq. intros [d t]. rewrite elem_of_redirect. split.
  - intros (d0 & Hd & ->). rewrite decide_False; [done|]. intros ->. by apply Hs in Hd.
  - intros Hd. exists d. rewrite decide_False; [done|]. intros ->. by apply Hs in Hd.
Qed.

Lemma dropLinks_idemp n s : dropLinks n (dropLinks n s) = dropLinks n s.
Proof. apply set_eq. intros [d t]. rewrite !elem_of_dropLinks. naive_solver. Qed.

Lemma dropLinks_id n s : (∀ t, (n, t) ∉ s) → dropLinks n s = s.
Proof.
  intros Hs. apply set_eq. intros [d t]. rewrite elem_of_dropLinks. split; [naive_solver|]. intros Hd. split; [done|].
  intros ->. by apply Hs in Hd.
Qed.

(** ** Merging nodes *)

Definition redirectNode (From Into : NodeID) (N : LayoutTypeSystemNode) : LayoutTypeSystemNode :=
  withSuccessors (redirect From Into) (withPredecessors (redirect From Into) N).

(** What a node becomes when another one is merged into it. *)
Definition absorb (From Into : NodeID) (F I : LayoutTypeSystemNode) : LayoutTypeSystemNode :=
  withSuccessors (λ s, dropLinks Into (dropLinks From (s ∪ Successors F)))
    (withPredecessors (λ s, dropLinks Into (dropLinks From (s ∪ Predecessors F))) (redirectNode From Into I)).

(** The links that are not updated are not links to the node. *)
Lemma redirect_loop_preds TS From Into F (M : gmap NodeID LayoutTypeSystemNode) :
  graph_wf TS → Layouts TS !! From = Some F →
  (∀ n, M !! n = (λ N, if decide (n ∈ (inOrder (Successors F)).*1) then withPredecessors (redirect From Into) N else N)
    <$> Layouts TS !! n) →
  ∀ n, M !! n = withPredecessors (redirect From Into) <$> Layouts TS !! n.
Proof.
  intros Hwf HF HM n. rewrite HM. destruct (Layouts TS !! n) as [N|] eqn:HN; [|done]. cbn. f_equal.
  case_decide as Hn; [done|]. destruct N as [Su Pr ???]. unfold withPredecessors. cbn. f_equal.
  symmetry. apply redirect_id. intros t Ht. apply Hn.
  apply (wf_pred TS Hwf n _ From t HN) in Ht. apply (edge_iff TS From F) in Ht; [|done].
  apply list_elem_of_fmap. exists (n, t). split; [done|]. by apply elem_of_links.
Qed.

Lemma redirect_loop_succs TS From Into F (M : gmap NodeID LayoutTypeSystemNode) :
  graph_wf TS → Layouts TS !! From = Some F →
  (∀ n, M !! n = (λ N, if decide (n ∈ (inOrder (Predecessors F)).*1) then withSuccessors (redirect From Into) N else N)
    <$> (withPredecessors (redirect From Into) <$> Layouts TS !! n)) →
  ∀ n, M !! n = redirectNode From Into <$> Layouts TS !! n.
Proof.
  intros Hwf HF HM n. rewrite HM. destruct (Layouts TS !! n) as [N|] eqn:HN; [|done]. cbn. f_equal.
  case_decide as Hn; [done|]. destruct N as [Su Pr ???]. unfold redirectNode, withSuccessors, withPredecessors. cbn. f_equal.
  symmetry. apply redirect_id. intros t Ht. apply Hn.
  assert (hasEdge TS n t From) as He by by eexists.
  apply (wf_pred TS Hwf From F n t HF) in He.
  apply list_elem_of_fmap. exists (n, t). split; [done|]. by apply elem_of_links.
Qed.

Lemma no_self_preds TS n N t : graph_wf TS → Layouts TS !! n = Some N → (n, t) ∉ Predecessors N.
Proof. intros Hwf HN Ht. apply (wf_pred TS Hwf n N) in Ht; [|done]. by apply (wf_loop TS Hwf) in Ht. Qed.

Lemma no_self_succs TS n N t : graph_wf TS → Layouts TS !! n = Some N → (n, t) ∉ Successors N.
Proof. intros Hwf HN Ht. apply (wf_loop TS Hwf n t). by eexists. Qed.

Lemma redirectNode_self TS From Into F :
  graph_wf TS → Layouts TS !! From = Some F → redirectNode From Into F = F.
Proof.
  intros Hwf HF. unfold redirectNode, withSuccessors, withPredecessors. cbn. rewrite !redirect_id; [by destruct F|..].
  - intros t. by eapply no_self_preds.
  - intros t. by eapply no_self_succs.
Qed.

Lemma fixPredSucc_ok TS From Into F I :
  graph_wf TS → From ≠ Into → Layouts TS !! From = Some F → Layouts TS !! Into = Some I →
  ∃ M, fixPredSucc From Into TS = Ok (withLayouts (λ _, M) TS) ∧
    ∀ n, M !! n = if decide (n = Into) then Some (absorb From Into F I) else redirectNode From Into <$> Layouts TS !! n.
Proof.
  intros Hwf Hne HF HI. unfold fixPredSucc. rewrite assert_true by by apply bool_decide_eq_true.
  rewrite (deref_ok _ _ _ HF), bind_ok.
  destruct (forEachM_modify (withPredecessors (redirect From Into)) (inOrder (Successors F)) TS) as (M1 & -> & HM1).
  { intros N. unfold withPredecessors. cbn. by rewrite redirect_idemp. }
  { intros [d t] Hl%elem_of_links. apply (wf_target TS Hwf From t). by eexists. }
  pose proof (redirect_loop_preds _ _ _ _ _ Hwf HF HM1) as HM1'. rewrite bind_ok.
  set (F1 := withPredecessors (redirect From Into) F). set (TS1 := withLayouts (λ _, M1) TS).
  assert (Layouts TS1 !! From = Some F1) as HF1 by (cbn; by rewrite HM1', HF).
  rewrite (deref_ok _ _ _ HF1), bind_ok.
  assert (Predecessors F1 = Predecessors F) as HP1. { cbn. apply redirect_id. intros t. by eapply no_self_preds. }
  destruct (forEachM_modify (withSuccessors (redirect From Into)) (inOrder (Predecessors F1)) TS1) as (M2 & -> & HM2).
  { intros N. unfold withSuccessors. cbn. by rewrite redirect_idemp. }
  { intros [s t]. rewrite HP1. intros Hl%elem_of_links. cbn. unfold live. cbn. rewrite HM1', fmap_is_Some.
    apply (wf_pred TS Hwf From F) in Hl; [|done]. by eapply edge_source. }
  assert (∀ n, M2 !! n = redirectNode From Into <$> Layouts TS !! n) as HM2'.
  { apply (redirect_loop_succs TS From Into F); [done..|]. intros n. by rewrite HM2, HP1, <- HM1'. }
  rewrite bind_ok. unfold TS1. rewrite withLayouts_withLayouts. set (TS2 := withLayouts _ TS).
  assert (Layouts TS2 !! From = Some F) as HF2. { cbn. rewrite HM2', HF. cbn. f_equal. by eapply redirectNode_self. }
  assert (Layouts TS2 !! Into = Some (redirectNode From Into I)) as HI2 by (cbn; by rewrite HM2', HI).
  rewrite (deref_ok _ _ _ HF2), bind_ok.
  repeat (erewrite modify_ok by first [exact HI2|cbn; by rewrite lookup_insert_eq]; rewrite ?bind_ok).
  rewrite !withLayouts_withLayouts. eexists. split; [reflexivity|]. intros n. cbn. case_decide as Hn.
  - subst n. rewrite lookup_insert_eq. unfold absorb, redirectNode, withSuccessors, withPredecessors. by cbn.
  - by rewrite !lookup_insert_ne by done.
Qed.

(** Where a merge takes the ends of a link. *)
Definition into (From Into n : NodeID) : NodeID := if decide (n = From) then Into else n.

Lemma into_from From Into : into From Into From = Into.
Proof. unfold into. by rewrite decide_True. Qed.

Lemma into_other From Into n : n ≠ From → into From Into n = n.
Proof. intros. unfold into. by rewrite decide_False. Qed.

Lemma into_not_from From Into n : From ≠ Into → into From Into n ≠ From.
Proof. intros. unfold into. by case_decide. Qed.

Lemma absorbed_links (rel : NodeID → TypeLinkTag → NodeID → Prop) From Into SI SF b t :
  From ≠ Into → (∀ x u, ¬ rel x u x) →
  (∀ c u, (c, u) ∈ SI ↔ rel Into u c) → (∀ c u, (c, u) ∈ SF ↔ rel From u c) →
  (b, t) ∈ dropLinks Into (dropLinks From (redirect From Into SI ∪ SF)) ↔
  ∃ a0 b0, rel a0 t b0 ∧ Into = into From Into a0 ∧ b = into From Into b0 ∧ Into ≠ b.
Proof.
  intros Hne Hirr HI HF. rewrite !elem_of_dropLinks, elem_of_union, elem_of_redirect, HF. split.
  - intros [[[(b0 & Hb%HI & ->)|Hb] Hfr] Hin].
    + exists Into, b0. split_and!; [done|by rewrite into_other|done|done].
    + exists From, b. split_and!; [done|by rewrite into_from|by rewrite into_other|done].
  - intros (a0 & b0 & He & Ha & -> & Hd).
    assert (b0 ≠ From) as Hb0 by (intros ->; by rewrite into_from in Hd). rewrite into_other in * by done.
    split; [|done]. split; [|done]. destruct (decide (a0 = From)) as [->|Ha0]; [by right|].
    left. exists b0. rewrite into_other in Ha by done. subst a0. split; [by apply HI|]. by rewrite decide_False.
Qed.

Lemma redirected_links (rel : NodeID → TypeLinkTag → NodeID → Prop) From Into Sa a b t :
  a ≠ From → a ≠ Into → (∀ x u, ¬ rel x u x) → (∀ c u, (c, u) ∈ Sa ↔ rel a u c) →
  (b, t) ∈ redirect From Into Sa ↔
  ∃ a0 b0, rel a0 t b0 ∧ a = into From Into a0 ∧ b = into From Into b0 ∧ a ≠ b.
Proof.
  intros Hf Hi Hirr Ha. rewrite elem_of_redirect. split.
  - intros (b0 & Hb%Ha & ->). exists a, b0. split_and!; [done|by rewrite into_other|done|].
    case_decide; [done|]. intros ->. by apply Hirr in Hb.
  - intros (a0 & b0 & He & Ha0 & -> & Hd). exists b0. split; [|done]. apply Ha.
    assert (a0 ≠ From) by (intros ->; by rewrite into_from in Ha0). by rewrite into_other in Ha0 by done; subst a0.
Qed.

(** The nodes and links after a merge. *)
Definition mergedEdges (From Into : NodeID) TS TS' : Prop :=
  (∀ n, live TS' n ↔ live TS n ∧ n ≠ From) ∧
  ∀ a t b, hasEdge TS' a t b ↔
    ∃ a0 b0, hasEdge TS a0 t b0 ∧ a = into From Into a0 ∧ b = into From Into b0 ∧ a ≠ b.

Lemma merged_layouts TS TS' From Into F I I' :
  graph_wf TS → From ≠ Into → Layouts TS !! From = Some F → Layouts TS !! Into = Some I →
  Successors I' = Successors (absorb From Into F I) → Predecessors I' = Predecessors (absorb From Into F I) →
  (∀ n, Layouts TS' !! n = if decide (n = From) then None else if decide (n = Into) then Some I'
    else redirectNode From Into <$> Layouts TS !! n) →
  NID TS' = NID TS → LinkTags TS' = LinkTags TS →
  graph_wf TS' ∧ mergedEdges From Into TS TS'.
Proof.
  intros Hwf Hne HF HI HSu HPr HL Hnid Htags.
  assert (∀ n, live TS' n ↔ live TS n ∧ n ≠ From) as Hlive.
  { intros n. unfold live. rewrite HL. case_decide as Hn; [split; [intros [? [=]]|by intros [_ ?]]|].
    case_decide as Hn2; [subst n; rewrite HI; split; eauto|]. rewrite fmap_is_Some. naive_solver. }
  assert (∀ a t b, hasEdge TS' a t b ↔
    ∃ a0 b0, hasEdge TS a0 t b0 ∧ a = into From Into a0 ∧ b = into From Into b0 ∧ a ≠ b) as Hedge.
  { intros a t b. unfold hasEdge at 1. rewrite HL. case_decide as Ha; [subst a|].
    { split; [by intros (? & [=] & _)|]. intros (a0 & _ & _ & Ha & _). by destruct (into_not_from From Into a0). }
    case_decide as Ha2; [subst a|].
    - rewrite <- (absorbed_links (hasEdge TS) From Into (Successors I) (Successors F)).
      + setoid_rewrite (inj_iff Some). split; [intros (N & <- & Hb)|intros Hb; exists I'; split; [done|]]; [rewrite HSu in Hb|rewrite HSu]; exact Hb.
      + done.
      + by apply wf_loop.
      + intros c u. by apply edge_iff.
      + intros c u. by apply edge_iff.
    - destruct (Layouts TS !! a) as [A|] eqn:HA.
      + rewrite <- (redirected_links (hasEdge TS) From Into (Successors A)); [|done|done|by apply wf_loop|intros c u; by apply edge_iff].
        cbn. setoid_rewrite (inj_iff Some). naive_solver.
      + split; [by intros (? & [=] & _)|]. intros (a0 & b0 & (A & HA0 & _) & Ha3 & _).
        unfold into in Ha3. case_decide; congruence. }
  split; [|done]. split.
  - intros d D s t HD. rewrite Hedge. rewrite HL in HD. case_decide as Hd; [done|].
    assert (∀ P : Prop, P ↔ P) by done. case_decide as Hd2.
    + injection HD as <-. subst d. rewrite HPr.
      transitivity (∃ a0 b0, (λ x u y, hasEdge TS y u x) a0 t b0 ∧ Into = into From Into a0 ∧ s = into From Into b0 ∧ Into ≠ s); [|naive_solver].
      rewrite <- (absorbed_links (λ x u y, hasEdge TS y u x) From Into (Predecessors I) (Predecessors F)); [done|done|..].
      * intros x u. by apply wf_loop.
      * intros c u. by apply wf_pred.
      * intros c u. by apply wf_pred.
    + destruct (Layouts TS !! d) as [D0|] eqn:HD0; [|done]. injection HD as <-. cbn.
      transitivity (∃ a0 b0, (λ x u y, hasEdge TS y u x) a0 t b0 ∧ d = into From Into a0 ∧ s = into From Into b0 ∧ d ≠ s); [|naive_solver].
      rewrite <- (redirected_links (λ x u y, hasEdge TS y u x) From Into (Predecessors D0)); [done|done|done|..].
      * intros x u. by apply wf_loop.
      * intros c u. by apply wf_pred.
  - intros s t d (a0 & b0 & He & -> & -> & _)%Hedge. apply Hlive. split; [|by apply into_not_from].
    unfold into. case_decide; [by eexists|by eapply wf_target].
  - intros s t (a0 & b0 & _ & _ & _ & ?)%Hedge. done.
  - intros s t d (a0 & b0 & He & _)%Hedge. rewrite Htags. by eapply wf_tags.
  - intros n [Hn _]%Hlive. rewrite Hnid. by apply wf_bound.
Qed.

Lemma joinEC_ok a b C n :
  getNumClasses (Base C) = 0%N → ec_size (Base C) = n → (a < n)%N → (b < n)%N →
  ∃ C', joinEC a b C = Ok C' ∧ RemovedID C' = RemovedID C ∧ NElems C' = NElems C ∧
    getNumClasses (Base C') = 0%N ∧ ec_size (Base C') = n ∧
    ∀ i j, (i < n)%N → (j < n)%N →
      same C' i j ↔ same C i j ∨ same C i a ∧ same C j b ∨ same C i b ∧ same C j a.
Proof.
  intros Hc Hs Ha Hb. subst n. unfold joinEC. rewrite bool_decide_eq_true_2 by done. eexists. split; [reflexivity|]. cbn.
  split_and!; [done|done|by apply classes_join|by apply size_join|]. intros i j Hi Hj. by apply leader_join.
Qed.

Lemma merge_classes TS TS' C' From Into :
  classes_wf TS → (∀ n, live TS n → (n < NID TS)%N) → From ≠ Into → live TS From → live TS Into →
  joinEC Into From (EqClasses TS) = Ok C' → EqClasses TS' = C' → NID TS' = NID TS →
  (∀ n, live TS' n ↔ live TS n ∧ n ≠ From) →
  classes_wf TS' ∧
  ∀ i n, (i < NID TS)%N → layoutOf TS' i n ↔ ∃ m, layoutOf TS i m ∧ n = into From Into m.
Proof.
  intros Hwf Hb Hne HF HI HC HE Hnid Hlive.
  destruct (joinEC_ok Into From (EqClasses TS) (NID TS)) as (C2 & HC2 & Hrem & Hel & Hun & Hsz & Hsame);
    [by apply Hwf|by apply Hwf|by apply Hb|by apply Hb|].
  rewrite HC in HC2. injection HC2 as <-.
  assert (∀ i, (i < NID TS)%N → removed C' i ↔ removed (EqClasses TS) i) as Hremoved.
  { intros i Hi. unfold removed. rewrite Hrem. split; intros (r & Hr & Hs); exists r; (split; [done|]).
    - pose proof (wf_removed TS Hwf r Hr). apply Hsame in Hs as [?|[[_ Hs]|[_ Hs]]]; [done|exfalso|exfalso|done|done].
      + apply (wf_kept TS Hwf From); [done|]. by exists r.
      + apply (wf_kept TS Hwf Into); [done|]. by exists r.
    - apply Hsame; [done|by eapply wf_removed|by left]. }
  split.
  - split; rewrite ?HE, ?Hnid; [done|done|by rewrite Hel; apply Hwf|rewrite Hrem; by apply Hwf|..].
    + intros i Hi. destruct (wf_represented TS Hwf i Hi) as [Hr|(n & Hn & Hs)]; [left; by apply Hremoved|right].
      destruct (decide (n = From)) as [->|Hnf].
      * exists Into. split; [by apply Hlive|]. apply Hsame; [done|by apply Hb|]. right; right. done.
      * exists n. split; [by apply Hlive|]. apply Hsame; [done|by apply Hb|by left].
    + intros n m [Hn Hn2]%Hlive [Hm Hm2]%Hlive Hs.
      apply Hsame in Hs as [Hs|[[Hs1 Hs2]|[Hs1 Hs2]]]; [by eapply wf_unique| | |by apply Hb|by apply Hb].
      * destruct Hm2. by eapply wf_unique.
      * destruct Hn2. by eapply wf_unique.
    + intros n [Hn _]%Hlive. rewrite Hremoved by by apply Hb. by apply (wf_kept TS Hwf).
  - intros i n Hi. unfold layoutOf. rewrite HE, Hlive. split.
    + intros [[Hn Hn2] Hs]. apply Hsame in Hs as [Hs|[[Hs1 Hs2]|[Hs1 Hs2]]]; [| | |done|by apply Hb].
      * exists n. split; [done|]. by rewrite into_other.
      * destruct Hn2. by eapply wf_unique.
      * exists From. split; [done|]. rewrite into_from. by eapply wf_unique.
    + intros (m & [Hm Hs] & ->). unfold into. case_decide as Hd.
      * subst m. split; [done|]. apply Hsame; [done|by apply Hb|]. right; right. done.
      * split; [done|]. apply Hsame; [done|by apply Hb|by left].
Qed.

(** A merge of one node into another. *)
Record merged (From Into : NodeID) (s : Z) TS TS' : Prop := {
  merged_edges : mergedEdges From Into TS TS';
  merged_layout i n : (i < NID TS)%N → layoutOf TS' i n ↔ ∃ m, layoutOf TS i m ∧ n = into From Into m;
  merged_into (I F : LayoutTypeSystemNode) : Layouts TS !! Into = Some I → Layouts TS !! From = Some F →
    ∃ I' : LayoutTypeSystemNode, Layouts TS' !! Into = Some I' ∧ Size I' = s ∧ NonScalar I' = (NonScalar I || NonScalar F) ∧ InterferingInfo I' = Unknown;
  merged_others n (N : LayoutTypeSystemNode) : n ≠ Into → n ≠ From → Layouts TS !! n = Some N →
    ∃ N' : LayoutTypeSystemNode, Layouts TS' !! n = Some N' ∧ Size N' = Size N ∧ NonScalar N' = NonScalar N ∧ InterferingInfo N' = InterferingInfo N;
  merged_NID : NID TS' = NID TS;
  merged_tags : LinkTags TS' = LinkTags TS;
}.

Lemma mergeInto_ok TS Into From I F s :
  wf TS → From ≠ Into → Layouts TS !! Into = Some I → Layouts TS !! From = Some F → mergedSize I F = Ok s →
  ∃ TS', mergeInto Into From TS = Ok TS' ∧ wf TS' ∧ merged From Into s TS TS'.
Proof.
  intros [Hwf Hcl] Hne HI HF Hs. unfold mergeInto. rewrite assert_true by by apply bool_decide_eq_true.
  rewrite (deref_ok _ _ _ HI), bind_ok, (deref_ok _ _ _ HF), bind_ok, Hs, bind_ok, (modify_ok _ _ _ _ HI), bind_ok.
  set (I1 := mkNode _ _ s _ _). cbn [EqClasses withLayouts].
  destruct (joinEC_ok Into From (EqClasses TS) (NID TS)) as (C' & HC & _);
    [by apply Hcl|by apply Hcl|apply Hwf; by eexists|apply Hwf; by eexists|].
  rewrite HC, bind_ok. cbn [NID Layouts LinkTags withLayouts]. set (TS1 := mkTS _ _ _ _).
  assert (∀ n t d, hasEdge TS1 n t d ↔ hasEdge TS n t d) as Hed.
  { intros n t d. unfold hasEdge. cbn. destruct (decide (n = Into)) as [->|].
    - rewrite lookup_insert_eq, HI. setoid_rewrite (inj_iff Some). unfold I1. naive_solver.
    - by rewrite lookup_insert_ne. }
  assert (∀ n, live TS1 n ↔ live TS n) as Hli.
  { intros n. unfold live. cbn. destruct (decide (n = Into)) as [->|]; [|by rewrite lookup_insert_ne].
    rewrite lookup_insert_eq, HI. split; eauto. }
  assert (graph_wf TS1) as Hwf1.
  { split; [| | | |intros n Hn; apply (wf_bound TS Hwf); by apply Hli]; intros *; rewrite ?Hed, ?Hli; try apply Hwf.
    intros HD. destruct (decide (d = Into)) as [->|].
    - cbn in HD. rewrite lookup_insert_eq in HD. injection HD as <-. apply (wf_pred TS Hwf Into I s0 t HI).
    - cbn in HD. rewrite lookup_insert_ne in HD by done. by apply wf_pred. }
  assert (Layouts TS1 !! From = Some F) as HF1 by (cbn; by rewrite lookup_insert_ne).
  assert (Layouts TS1 !! Into = Some I1) as HI1 by (cbn; by rewrite lookup_insert_eq).
  destruct (fixPredSucc_ok TS1 From Into F I1) as (M & -> & HM); [done..|]. rewrite bind_ok. cbn [Layouts withLayouts].
  rewrite assert_true by (apply bool_decide_eq_true; rewrite HM, decide_False, HF1 by done; by eexists).
  eexists. split; [reflexivity|]. rewrite withLayouts_withLayouts. set (TS' := withLayouts _ TS1).
  assert (∀ n, Layouts TS' !! n = if decide (n = From) then None else if decide (n = Into) then Some (absorb From Into F I1)
    else redirectNode From Into <$> Layouts TS1 !! n) as HL.
  { intros n. cbn. case_decide as Hn; [subst n; by rewrite lookup_delete_eq|]. rewrite lookup_delete_ne by done. apply HM. }
  destruct (merged_layouts TS1 TS' From Into F I1 (absorb From Into F I1)) as [Hwf' [Hl' He']]; [done..|].
  assert (mergedEdges From Into TS TS') as Hme.
  { split; [intros n; by rewrite Hl', Hli|]. intros a t b. rewrite He'. by setoid_rewrite Hed. }
  destruct (merge_classes TS TS' C' From Into) as [Hcl' Hlay];
    [done|by apply Hwf|done|by eexists|by eexists|done|done|done|apply Hme|].
  split; [by split|]. split; [done|done|..].
  - intros I0 F0 HI0 HF0. rewrite HI in HI0. rewrite HF in HF0. injection HI0 as <-. injection HF0 as <-.
    exists (absorb From Into F I1). rewrite HL, decide_False, decide_True by done. done.
  - intros n N Hn1 Hn2 HN. exists (redirectNode From Into N). rewrite HL, !decide_False by done.
    cbn. rewrite lookup_insert_ne, HN by done. done.
  - done.
  - done.
Qed.

(** ** Edits of links *)

Lemma modify_alter f TS n : live TS n → modify f n TS = Ok (withLayouts (alter f n) TS).
Proof.
  intros [N HN]. rewrite (modify_ok _ _ _ _ HN). f_equal.
  unfold withLayouts. f_equal. apply map_eq. intros m. destruct (decide (n = m)) as [<-|Hm].
  - by rewrite lookup_insert_eq, lookup_alter_eq, HN.
  - by rewrite lookup_insert_ne, lookup_alter_ne.
Qed.

Lemma live_alter f TS n m : live (withLayouts (alter f n) TS) m ↔ live TS m.
Proof. unfold live. cbn. apply lookup_alter_is_Some. Qed.

(** What the edits of links leave as it is. *)
Record unedited TS TS' : Prop := {
  un_live n : live TS' n ↔ live TS n;
  un_attributes n N N' : Layouts TS !! n = Some N → Layouts TS' !! n = Some N' →
    Size N' = Size N ∧ NonScalar N' = NonScalar N ∧ InterferingInfo N' = InterferingInfo N;
  un_NID : NID TS' = NID TS;
  un_classes : EqClasses TS' = EqClasses TS;
}.

Lemma unedited_refl TS : unedited TS TS.
Proof. split; [done| |done|done]. intros n N N'. naive_solver. Qed.

Lemma unedited_trans TS TS' TS2 : unedited TS TS' → unedited TS' TS2 → unedited TS TS2.
Proof.
  intros H1 H2. split.
  - intros n. by rewrite (un_live _ _ H2), (un_live _ _ H1).
  - intros n N N2 HN HN2. assert (live TS' n) as [N' HN'] by (apply (un_live _ _ H1); by eexists).
    destruct (un_attributes _ _ H1 n N N' HN HN') as (? & ? & ?). destruct (un_attributes _ _ H2 n N' N2 HN' HN2) as (? & ? & ?).
    split_and!; congruence.
  - by rewrite (un_NID _ _ H2), (un_NID _ _ H1).
  - by rewrite (un_classes _ _ H2), (un_classes _ _ H1).
Qed.

Lemma unedited_alter f TS n :
  (∀ N, Size (f N) = Size N ∧ NonScalar (f N) = NonScalar N ∧ InterferingInfo (f N) = InterferingInfo N) →
  unedited TS (withLayouts (alter f n) TS).
Proof.
  intros Hf. split; [intros; apply live_alter| |done|done]. intros m N N' HN. cbn.
  destruct (decide (n = m)) as [<-|]; [rewrite lookup_alter_eq, HN|rewrite lookup_alter_ne, HN by done]; intros [= <-]; [apply Hf|done].
Qed.

Lemma unedited_succs f TS n : unedited TS (withLayouts (alter (withSuccessors f) n) TS).
Proof. by apply unedited_alter. Qed.

Lemma unedited_preds f TS n : unedited TS (withLayouts (alter (withPredecessors f) n) TS).
Proof. by apply unedited_alter. Qed.

Lemma classes_unedited TS TS' : unedited TS TS' → classes_wf TS → classes_wf TS'.
Proof.
  intros [Hl _ Hn Hc] [????? Hu Hk]. split; rewrite ?Hn, ?Hc; try done.
  - intros i Hi. setoid_rewrite Hl. auto.
  - intros n m. rewrite !Hl. apply Hu.
  - intros n. rewrite Hl. apply Hk.
Qed.

Lemma layout_unedited TS TS' i n : unedited TS TS' → layoutOf TS' i n ↔ layoutOf TS i n.
Proof. intros Hu. unfold layoutOf. by rewrite (un_live _ _ Hu), (un_classes _ _ Hu). Qed.

(** The graph of a type system whose nodes have exactly the links of a relation. *)
Lemma wf_edit TS (P : NodeID → TypeLinkTag → NodeID → Prop) :
  (∀ s N d t, Layouts TS !! s = Some N → (d, t) ∈ Successors N ↔ P s t d) →
  (∀ d D s t, Layouts TS !! d = Some D → (s, t) ∈ Predecessors D ↔ P s t d) →
  (∀ s t d, P s t d → live TS s ∧ live TS d ∧ s ≠ d ∧ t ∈ LinkTags TS) →
  (∀ n, live TS n → (n < NID TS)%N) →
  graph_wf TS ∧ ∀ s t d, hasEdge TS s t d ↔ P s t d.
Proof.
  intros Hs Hd HP Hb. assert (∀ s t d, hasEdge TS s t d ↔ P s t d) as He.
  { intros s t d. split; [intros (N & HN & ?); by eapply Hs|]. intros HPd. destruct (HP _ _ _ HPd) as ([N HN] & _).
    exists N. split; [done|]. by apply (Hs s N). }
  split; [|done]. split.
  - intros d D s t HD. rewrite He. by apply Hd.
  - intros s t d Hx%He. by apply HP in Hx as (_ & ? & _).
  - intros s t Hx%He. by apply HP in Hx as (_ & _ & ? & _).
  - intros s t d Hx%He. by apply HP in Hx as (_ & _ & _ & ?).
  - done.
Qed.

End graph.

(** The cases of the lookup of a node in altered nodes. *)
Ltac alter_cases H :=
  cbn in H;
  repeat (apply lookup_alter_Some in H;
          let Hne := fresh "Hne" in
          destruct H as [(? & ? & H & ?)|[Hne H]]; subst; cbn in H).

(** The links of an altered node, as links of the graph before. *)
Ltac unfold_links :=
  cbn [Successors Predecessors withSuccessors withPredecessors];
  rewrite ?elem_of_union, ?elem_of_difference, ?elem_of_singleton, ?elem_of_dropLinks.

Ltac solve_succs HN := alter_cases HN; try done; unfold_links; rewrite (edge_iff _ _ _ _ _ HN); naive_solver.
Ltac solve_preds Hwf HD := alter_cases HD; try done; unfold_links; rewrite (wf_pred _ Hwf _ _ _ _ HD); naive_solver.

Section edits.
  Context {E : Type} `{LLVMIntEqClasses E}.
  Implicit Types TS : LayoutTypeSystem E.
  Notation Link := (NodeID * TypeLinkTag)%type.

Lemma linkAt_ok s (It : Link) {A} (k : unit → outcome A) : It ∈ s → (linkAt s It ≫= k) = k tt.
Proof. intros Hs. unfold linkAt. by rewrite bool_decide_eq_true_2. Qed.

Lemma eraseEdge_ok TS Src Tgt Tag :
  graph_wf TS → hasEdge TS Src Tag Tgt →
  ∃ TS', eraseEdge Src (Tgt, Tag) TS = Ok TS' ∧ graph_wf TS' ∧ unedited TS TS' ∧ LinkTags TS' = LinkTags TS ∧
    ∀ a u b, hasEdge TS' a u b ↔ hasEdge TS a u b ∧ (a, u, b) ≠ (Src, Tag, Tgt).
Proof.
  intros Hwf He. pose proof He as (S0 & HS & Hs). destruct (wf_target _ Hwf _ _ _ He) as [T0 HT].
  unfold eraseEdge. rewrite (deref_ok _ _ _ HS), bind_ok, linkAt_ok by done. rewrite (deref_ok _ _ _ HT), bind_ok.
  rewrite assert_true by (apply bool_decide_eq_true; by apply (wf_pred _ Hwf Tgt)).
  rewrite modify_alter by by eexists. rewrite bind_ok, modify_alter by (apply live_alter; by eexists).
  eexists. split; [reflexivity|].
  destruct (wf_edit (withLayouts (alter (withSuccessors (λ s, s ∖ {[(Tgt, Tag)]})) Src)
    (withLayouts (alter (withPredecessors (λ s, s ∖ {[(Src, Tag)]})) Tgt) TS))
    (λ a u b, hasEdge TS a u b ∧ (a, u, b) ≠ (Src, Tag, Tgt))) as [Hwf' He'].
  - intros s N d t HN. solve_succs HN.
  - intros d D s t HD. solve_preds Hwf HD.
  - intros s t d [Hed _]. rewrite !live_alter. split_and!; [by eapply edge_source|by eapply wf_target|intros ->; by apply (wf_loop TS Hwf) in Hed|by eapply (wf_tags TS)].
  - intros n. rewrite !live_alter. apply (wf_bound TS Hwf).
  - split; [done|]. split; [|done]. eapply unedited_trans; [apply unedited_preds|apply unedited_succs].
Qed.

Lemma addLink_ok TS Src Tgt Tag :
  graph_wf TS → live TS Src → live TS Tgt → Src ≠ Tgt →
  ∃ b TS', addLink (Some Src) (Some Tgt) Tag TS = Ok (Some Tag, b, TS') ∧ graph_wf TS' ∧ unedited TS TS' ∧
    LinkTags TS' = {[Tag]} ∪ LinkTags TS ∧ (b = true ↔ ¬ hasEdge TS Src Tag Tgt) ∧
    ∀ a u b, hasEdge TS' a u b ↔ hasEdge TS a u b ∨ (a, u, b) = (Src, Tag, Tgt).
Proof.
  intros Hwf [S0 HS] [T0 HT] Hne. unfold addLink. rewrite bool_decide_eq_false_2 by done.
  rewrite !assert_true by (apply bool_decide_eq_true; by eexists). set (TS1 := mkTS _ _ _ _).
  rewrite (deref_ok TS1 Src S0), bind_ok by done. rewrite modify_alter by by eexists. rewrite bind_ok.
  rewrite (deref_ok _ Tgt T0), bind_ok by (cbn; by rewrite lookup_alter_ne).
  rewrite modify_alter by (apply live_alter; by eexists). rewrite bind_ok.
  eexists _, _. split; [reflexivity|].
  destruct (wf_edit (withLayouts (alter (withPredecessors (λ s, {[(Src, Tag)]} ∪ s)) Tgt)
    (withLayouts (alter (withSuccessors (λ s, {[(Tgt, Tag)]} ∪ s)) Src) TS1))
    (λ a u b, hasEdge TS a u b ∨ (a, u, b) = (Src, Tag, Tgt))) as [Hwf' He'].
  - intros s N d t HN. unfold TS1 in HN. solve_succs HN.
  - intros d D s t HD. unfold TS1 in HD. solve_preds Hwf HD.
  - intros s t d. rewrite !live_alter. cbn. rewrite elem_of_union, elem_of_singleton. intros [Hed|[= -> -> ->]].
    + split_and!; [by eapply (edge_source TS)|by eapply (wf_target TS)|intros ->; by apply (wf_loop TS Hwf) in Hed|right; by eapply (wf_tags TS)].
    + split_and!; [by eexists|by eexists|done|by left].
  - intros n. rewrite !live_alter. apply (wf_bound TS Hwf).
  - split; [done|]. split; [|split; [done|split; [|done]]].
    + eapply unedited_trans; [|eapply unedited_trans; [apply unedited_succs|apply unedited_preds]].
      split; [done| |done|done]. intros n N N' HN HN'. unfold TS1 in HN'. cbn in HN'. rewrite HN in HN'. by injection HN' as <-.
    + rewrite orb_true_iff, !bool_decide_eq_true, (edge_iff TS Src S0), (wf_pred TS Hwf Tgt T0) by done. naive_solver.
Qed.

(** A link between two nodes that is not needed: to itself, or out of range. *)
Lemma addLink_loop TS Src Tag : addLink (Some Src) (Some Src) Tag TS = Ok (None, false, TS).
Proof. unfold addLink. by rewrite bool_decide_eq_true_2. Qed.

Lemma addInstanceLink_far Src Tgt OE TS : (65535 < Offset OE)%Z → addInstanceLink Src Tgt OE TS = Ok (None, false, TS).
Proof. intros Ho. unfold addInstanceLink. by rewrite (proj2 (Z.ltb_lt _ _)). Qed.

Lemma addInstanceLink_ok TS Src Tgt OE :
  graph_wf TS → live TS Src → live TS Tgt →
  ∃ r TS', addInstanceLink (Some Src) (Some Tgt) OE TS = Ok (r, TS') ∧ graph_wf TS' ∧ unedited TS TS' ∧
    ∀ a u b, hasEdge TS' a u b ↔ hasEdge TS a u b ∨
      (a, u, b) = (Src, instanceTag OE, Tgt) ∧ Src ≠ Tgt ∧ (Offset OE ≤ 65535)%Z.
Proof.
  intros Hwf HS HT. destruct (Z.lt_ge_cases 65535 (Offset OE)) as [Ho|Ho].
  { eexists _, TS. rewrite addInstanceLink_far by done. split_and!; [reflexivity|done|apply unedited_refl|].
    intros. split; [auto|]. intros [?|(_ & _ & ?)]; [done|lia]. }
  unfold addInstanceLink. rewrite (proj2 (Z.ltb_ge _ _)) by done.
  destruct (decide (Src = Tgt)) as [->|Hne].
  { eexists _, TS. rewrite addLink_loop. split_and!; [reflexivity|done|apply unedited_refl|]. naive_solver. }
  destruct (addLink_ok TS Src Tgt (instanceTag OE)) as (b & TS' & -> & ? & ? & _ & _ & He); [done..|].
  eexists _, TS'. split_and!; [reflexivity|done|done|]. intros. rewrite He. naive_solver.
Qed.

(** ** Moving links *)

Lemma moveEdgeTargetWithoutSumming_ok TS Old New Src Tag :
  graph_wf TS → hasEdge TS Src Tag Old → live TS New → New ≠ Src →
  ∃ TS', moveEdgeTargetWithoutSumming Old New (Src, Tag) TS = Ok TS' ∧ graph_wf TS' ∧ unedited TS TS' ∧
    ∀ a u b, hasEdge TS' a u b ↔ hasEdge TS a u b ∧ (a, u, b) ≠ (Src, Tag, Old) ∨ (a, u, b) = (Src, Tag, New).
Proof.
  intros Hwf He HNew Hne. pose proof He as (S0 & HS & Hs). destruct (wf_target _ Hwf _ _ _ He) as [O0 HO].
  unfold moveEdgeTargetWithoutSumming. rewrite (deref_ok _ _ _ HO), bind_ok, linkAt_ok by by apply (wf_pred _ Hwf Old).
  rewrite (deref_ok _ _ _ HS), bind_ok, assert_true by by apply bool_decide_eq_true.
  rewrite modify_alter by by eexists. rewrite bind_ok, modify_alter by (apply live_alter; by eexists).
  rewrite bind_ok, modify_alter by by rewrite !live_alter.
  eexists. split; [reflexivity|]. set (TS' := withLayouts _ _).
  destruct (wf_edit TS' (λ a u b, hasEdge TS a u b ∧ (a, u, b) ≠ (Src, Tag, Old) ∨ (a, u, b) = (Src, Tag, New))) as [Hwf' He'].
  - intros s N d t HN. unfold TS' in HN. solve_succs HN.
  - intros d D s t HD. unfold TS' in HD. solve_preds Hwf HD.
  - intros s t d. unfold TS'. rewrite !live_alter. intros [[Hed _]|[= -> -> ->]].
    + split_and!; [by eapply edge_source|by eapply wf_target|intros ->; by apply (wf_loop TS Hwf) in Hed|by eapply (wf_tags TS)].
    + split_and!; [by eexists|done|done|by eapply (wf_tags TS)].
  - intros n. unfold TS'. rewrite !live_alter. apply (wf_bound TS Hwf).
  - split; [done|]. split; [|done].
    eapply unedited_trans; [apply unedited_succs|]. eapply unedited_trans; apply unedited_preds.
Qed.

Lemma moveEdgeSourceWithoutSumming_ok TS Old New Tgt Tag :
  graph_wf TS → hasEdge TS Old Tag Tgt → live TS New → New ≠ Tgt →
  ∃ TS', moveEdgeSourceWithoutSumming Old New (Tgt, Tag) TS = Ok TS' ∧ graph_wf TS' ∧ unedited TS TS' ∧
    ∀ a u b, hasEdge TS' a u b ↔ hasEdge TS a u b ∧ (a, u, b) ≠ (Old, Tag, Tgt) ∨ (a, u, b) = (New, Tag, Tgt).
Proof.
  intros Hwf He HNew Hne. pose proof He as (O0 & HO & Ho). destruct (wf_target _ Hwf _ _ _ He) as [T0 HT].
  unfold moveEdgeSourceWithoutSumming. rewrite (deref_ok _ _ _ HO), bind_ok, linkAt_ok by done.
  rewrite (deref_ok _ _ _ HT), bind_ok, assert_true by (apply bool_decide_eq_true; by apply (wf_pred _ Hwf Tgt)).
  rewrite modify_alter by by eexists. rewrite bind_ok, modify_alter by (apply live_alter; by eexists).
  rewrite bind_ok, modify_alter by by rewrite !live_alter.
  eexists. split; [reflexivity|]. set (TS' := withLayouts _ _).
  destruct (wf_edit TS' (λ a u b, hasEdge TS a u b ∧ (a, u, b) ≠ (Old, Tag, Tgt) ∨ (a, u, b) = (New, Tag, Tgt))) as [Hwf' He'].
  - intros s N d t HN. unfold TS' in HN. solve_succs HN.
  - intros d D s t HD. unfold TS' in HD. solve_preds Hwf HD.
  - intros s t d. unfold TS'. rewrite !live_alter. intros [[Hed _]|[= -> -> ->]].
    + split_and!; [by eapply edge_source|by eapply wf_target|intros ->; by apply (wf_loop TS Hwf) in Hed|by eapply (wf_tags TS)].
    + split_and!; [done|by eexists|done|by eapply (wf_tags TS)].
  - intros n. unfold TS'. rewrite !live_alter. apply (wf_bound TS Hwf).
  - split; [done|]. split; [|done].
    eapply unedited_trans; [apply unedited_preds|]. eapply unedited_trans; apply unedited_succs.
Qed.

(** The tag of an instance link moved by an offset. *)
Definition movedBy (OffsetToSum : Z) (Tag : TypeLinkTag) : OffsetExpression :=
  mkOE (wrap 64 (Offset (OE Tag) + OffsetToSum)) (Strides (OE Tag)) (TripCounts (OE Tag)).

Lemma addMovedLink_ok TS Src Tgt Tag d :
  graph_wf TS → live TS Src → live TS Tgt → getKind Tag = LK_Instance →
  ∃ TS', addMovedLink Src Tgt Tag d TS = Ok TS' ∧ graph_wf TS' ∧ unedited TS TS' ∧
    ∀ a u b, hasEdge TS' a u b ↔ hasEdge TS a u b ∨
      (a, u, b) = (Src, instanceTag (movedBy d Tag), Tgt) ∧ Src ≠ Tgt ∧ (Offset (movedBy d Tag) ≤ 65535)%Z.
Proof.
  intros Hwf HS HT Hk. unfold addMovedLink. rewrite Hk. fold (movedBy d Tag).
  destruct (addInstanceLink_ok TS Src Tgt (movedBy d Tag)) as (r & TS' & -> & ? & ? & He); [done..|].
  rewrite bind_ok. by exists TS'.
Qed.

(** An instance link that is moved by an offset is dropped, when it would be a loop or
    have an offset that is too large. *)
Lemma moveEdge_unshiftable TS Src Tgt Tag New d :
  graph_wf TS → hasEdge TS Src Tag Tgt → d ≠ 0%Z → getKind Tag ≠ LK_Instance →
  moveEdgeTarget (Some Tgt) (Some New) (Src, Tag) d TS = Fault Aborted ∧
  moveEdgeSource (Some Src) (Some New) (Tgt, Tag) d TS = Fault Aborted.
Proof.
  intros Hwf He Hd Hk. pose proof He as (S0 & HS & Hs). destruct (wf_target _ Hwf _ _ _ He) as [T0 HT].
  assert ((Src, Tag) ∈ Predecessors T0) as Hp by by apply (wf_pred _ Hwf Tgt).
  assert (∀ a b TS, addMovedLink a b Tag d TS = Fault Aborted) as Habort by (intros a b TS0; unfold addMovedLink; by destruct (getKind Tag)).
  unfold moveEdgeTarget, moveEdgeSource. rewrite (proj2 (Z.eqb_neq _ _)) by done.
  split.
  - rewrite (deref_ok _ _ _ HT), bind_ok, linkAt_ok, (deref_ok _ _ _ HS), bind_ok, assert_true by (done || by apply bool_decide_eq_true).
    rewrite modify_alter, bind_ok, modify_alter, bind_ok by (rewrite ?live_alter; by eexists). apply Habort.
  - rewrite (deref_ok _ _ _ HS), bind_ok, linkAt_ok, (deref_ok _ _ _ HT), bind_ok, assert_true by (done || by apply bool_decide_eq_true).
    rewrite modify_alter, bind_ok, modify_alter, bind_ok by (rewrite ?live_alter; by eexists). apply Habort.
Qed.

Lemma moveEdge_loops TS Src Tgt Tag :
  graph_wf TS → hasEdge TS Src Tag Tgt →
  (∃ TS', moveEdgeTarget (Some Tgt) (Some Src) (Src, Tag) 0 TS = Ok TS' ∧ hasEdge TS' Src Tag Src) ∧
  (∃ TS', moveEdgeSource (Some Src) (Some Tgt) (Tgt, Tag) 0 TS = Ok TS' ∧ hasEdge TS' Tgt Tag Tgt).
Proof.
  intros Hwf He. pose proof He as (S0 & HS & Hs). destruct (wf_target _ Hwf _ _ _ He) as [T0 HT].
  assert ((Src, Tag) ∈ Predecessors T0) as Hp by by apply (wf_pred _ Hwf Tgt).
  assert (Src ≠ Tgt) by (intros ->; by apply (wf_loop TS Hwf) in He).
  unfold moveEdgeTarget, moveEdgeSource, moveEdgeTargetWithoutSumming, moveEdgeSourceWithoutSumming. cbn [Z.eqb].
  split.
  - rewrite (deref_ok _ _ _ HT), bind_ok, linkAt_ok, (deref_ok _ _ _ HS), bind_ok, assert_true by (done || by apply bool_decide_eq_true).
    rewrite modify_alter, bind_ok, modify_alter, bind_ok, modify_alter by (rewrite ?live_alter; by eexists). eexists. split; [reflexivity|].
    eexists. cbn. rewrite lookup_alter_eq, lookup_alter_ne, lookup_alter_eq, HS by done. split; [done|]. cbn. set_solver.
  - rewrite (deref_ok _ _ _ HS), bind_ok, linkAt_ok, (deref_ok _ _ _ HT), bind_ok, assert_true by (done || by apply bool_decide_eq_true).
    rewrite modify_alter, bind_ok, modify_alter, bind_ok, modify_alter by (rewrite ?live_alter; by eexists). eexists. split; [reflexivity|].
    eexists. cbn. rewrite lookup_alter_eq, lookup_alter_ne, lookup_alter_eq, HT by done. split; [done|]. cbn. set_solver.
Qed.

Lemma moveEdgeTarget_ok TS Old New Src Tag d :
  graph_wf TS → hasEdge TS Src Tag Old → live TS New → getKind Tag = LK_Instance → d ≠ 0%Z →
  ∃ TS', moveEdgeTarget (Some Old) (Some New) (Src, Tag) d TS = Ok TS' ∧ graph_wf TS' ∧ unedited TS TS' ∧
    ∀ a u b, hasEdge TS' a u b ↔ hasEdge TS a u b ∧ (a, u, b) ≠ (Src, Tag, Old) ∨
      (a, u, b) = (Src, instanceTag (movedBy d Tag), New) ∧ Src ≠ New ∧ (Offset (movedBy d Tag) ≤ 65535)%Z.
Proof.
  intros Hwf He HNew Hk Hd. pose proof He as (S0 & HS & Hs). destruct (wf_target _ Hwf _ _ _ He) as [O0 HO].
  assert (Src ≠ Old) by (intros ->; by apply (wf_loop TS Hwf) in He).
  unfold moveEdgeTarget. rewrite (proj2 (Z.eqb_neq _ _)) by done.
  rewrite (deref_ok _ _ _ HO), bind_ok, linkAt_ok by by apply (wf_pred _ Hwf Old).
  rewrite (deref_ok _ _ _ HS), bind_ok, assert_true by by apply bool_decide_eq_true.
  rewrite modify_alter by by eexists. rewrite bind_ok, modify_alter by (apply live_alter; by eexists). rewrite bind_ok.
  set (TS1 := withLayouts _ _).
  destruct (wf_edit TS1 (λ a u b, hasEdge TS a u b ∧ (a, u, b) ≠ (Src, Tag, Old))) as [Hwf1 He1].
  - intros s N d0 t HN. unfold TS1 in HN. solve_succs HN.
  - intros d0 D s t HD. unfold TS1 in HD. solve_preds Hwf HD.
  - intros s t d0. unfold TS1. rewrite !live_alter. intros [Hed _].
    split_and!; [by eapply edge_source|by eapply wf_target|intros ->; by apply (wf_loop TS Hwf) in Hed|by eapply (wf_tags TS)].
  - intros n. unfold TS1. rewrite !live_alter. apply (wf_bound TS Hwf).
  - destruct (addMovedLink_ok TS1 Src New Tag d) as (TS' & -> & Hwf' & Hun & He'); [done| | |done|].
    { unfold TS1. rewrite !live_alter. by eexists. } { unfold TS1. by rewrite !live_alter. }
    exists TS'. split_and!; [done|done| |].
    + eapply unedited_trans; [|exact Hun]. eapply unedited_trans; [apply unedited_succs|apply unedited_preds].
    + intros a u b. by rewrite He', He1.
Qed.

Lemma moveEdgeSource_ok TS Old New Tgt Tag d :
  graph_wf TS → hasEdge TS Old Tag Tgt → live TS New → getKind Tag = LK_Instance → d ≠ 0%Z →
  ∃ TS', moveEdgeSource (Some Old) (Some New) (Tgt, Tag) d TS = Ok TS' ∧ graph_wf TS' ∧ unedited TS TS' ∧
    ∀ a u b, hasEdge TS' a u b ↔ hasEdge TS a u b ∧ (a, u, b) ≠ (Old, Tag, Tgt) ∨
      (a, u, b) = (New, instanceTag (movedBy d Tag), Tgt) ∧ New ≠ Tgt ∧ (Offset (movedBy d Tag) ≤ 65535)%Z.
Proof.
  intros Hwf He HNew Hk Hd. pose proof He as (O0 & HO & Ho). destruct (wf_target _ Hwf _ _ _ He) as [T0 HT].
  assert (Old ≠ Tgt) by (intros ->; by apply (wf_loop TS Hwf) in He).
  unfold moveEdgeSource. rewrite (proj2 (Z.eqb_neq _ _)) by done.
  rewrite (deref_ok _ _ _ HO), bind_ok, linkAt_ok by done.
  rewrite (deref_ok _ _ _ HT), bind_ok, assert_true by (apply bool_decide_eq_true; by apply (wf_pred _ Hwf Tgt)).
  rewrite modify_alter by by eexists. rewrite bind_ok, modify_alter by (apply live_alter; by eexists). rewrite bind_ok.
  set (TS1 := withLayouts _ _).
  destruct (wf_edit TS1 (λ a u b, hasEdge TS a u b ∧ (a, u, b) ≠ (Old, Tag, Tgt))) as [Hwf1 He1].
  - intros s N d0 t HN. unfold TS1 in HN. solve_succs HN.
  - intros d0 D s t HD. unfold TS1 in HD. solve_preds Hwf HD.
  - intros s t d0. unfold TS1. rewrite !live_alter. intros [Hed _].
    split_and!; [by eapply edge_source|by eapply wf_target|intros ->; by apply (wf_loop TS Hwf) in Hed|by eapply (wf_tags TS)].
  - intros n. unfold TS1. rewrite !live_alter. apply (wf_bound TS Hwf).
  - destruct (addMovedLink_ok TS1 New Tgt Tag d) as (TS' & -> & Hwf' & Hun & He'); [done| | |done|].
    { unfold TS1. by rewrite !live_alter. } { unfold TS1. rewrite !live_alter. by eexists. }
    exists TS'. split_and!; [done|done| |].
    + eapply unedited_trans; [|exact Hun]. eapply unedited_trans; [apply unedited_preds|apply unedited_succs].
    + intros a u b. by rewrite He', He1.
Qed.

(** ** Removing and creating nodes *)

Definition detachNode (n : NodeID) (N : LayoutTypeSystemNode) : LayoutTypeSystemNode :=
  withSuccessors (dropLinks n) (withPredecessors (dropLinks n) N).

Lemma removeEC_ok TS n :
  classes_wf TS → (∀ m, live TS m → (m < NID TS)%N) → live TS n →
  ∃ C', removeEC n (EqClasses TS) = Ok C' ∧ NElems C' = NElems (EqClasses TS) ∧
    getNumClasses (Base C') = 0%N ∧ ec_size (Base C') = NID TS ∧
    (∀ r, RemovedID C' = Some r → (r < NID TS)%N) ∧
    (∀ i, (i < NID TS)%N → removed C' i ↔ removed (EqClasses TS) i ∨ same (EqClasses TS) i n) ∧
    (∀ i m, (i < NID TS)%N → live TS m → m ≠ n → same C' i m ↔ same (EqClasses TS) i m).
Proof.
  intros Hc Hb Hn. unfold removeEC. destruct (RemovedID (EqClasses TS)) as [r|] eqn:Hr.
  - destruct (joinEC_ok n r (EqClasses TS) (NID TS)) as (C' & -> & Hrem & Hel & Hun & Hsz & Hsame);
      [by apply Hc|by apply Hc|by apply Hb|by eapply wf_removed|].
    pose proof (wf_removed TS Hc r Hr) as Hrb. pose proof (Hb n Hn) as Hnb.
    exists C'. split_and!; [done|done|done|done|intros r'; rewrite Hrem; by apply (wf_removed TS Hc)|..].
    + intros i Hi. unfold removed. rewrite Hrem, Hr. setoid_rewrite (inj_iff Some).
      split.
      * intros (r' & <- & Hs). apply Hsame in Hs as [Hs|[[Hs _]|[Hs _]]]; [left|right|left|done|done]; eauto.
      * intros [(r' & <- & Hs)|Hs]; exists r; (split; [done|]); apply Hsame; try done; [by left|].
        right; left. done.
    + intros i m Hi Hm Hmn. rewrite Hsame by auto. split; [|by left].
      intros [Hs|[[_ Hs]|[_ Hs]]]; [done|exfalso..].
      * apply (wf_kept TS Hc m Hm). by exists r.
      * by apply Hmn, (wf_unique TS Hc).
  - eexists. split; [reflexivity|]. cbn.
    split_and!; [done|by apply Hc|by apply Hc|intros r' [= <-]; by apply Hb|..].
    + intros i Hi. unfold removed. cbn. rewrite Hr. setoid_rewrite (inj_iff Some). unfold same. cbn. naive_solver.
    + done.
Qed.

Lemma remove_classes TS TS' C' n :
  classes_wf TS → (∀ m, live TS m → (m < NID TS)%N) → live TS n →
  removeEC n (EqClasses TS) = Ok C' → EqClasses TS' = C' → NID TS' = NID TS →
  (∀ m, live TS' m ↔ live TS m ∧ m ≠ n) →
  classes_wf TS' ∧ ∀ i m, (i < NID TS)%N → layoutOf TS' i m ↔ layoutOf TS i m ∧ m ≠ n.
Proof.
  intros Hc Hb Hn HC HE Hnid Hlive.
  destruct (removeEC_ok TS n) as (C2 & HC2 & Hel & Hun & Hsz & Hrb & Hrem & Hsame); [done..|].
  rewrite HC in HC2. injection HC2 as <-. split.
  - split; rewrite ?HE, ?Hnid; [done|done|rewrite Hel; by apply Hc|done|..].
    + intros i Hi. rewrite Hrem by done. destruct (wf_represented TS Hc i Hi) as [Hr|(m & Hm & Hs)]; [by do 2 left|].
      destruct (decide (m = n)) as [->|Hmn]; [left; by right|].
      right. exists m. split; [by apply Hlive|]. by apply Hsame.
    + intros m k [Hm Hmn]%Hlive [Hk Hkn]%Hlive Hs. apply (wf_unique TS Hc); [done|done|]. apply Hsame in Hs; auto.
    + intros m [Hm Hmn]%Hlive. rewrite Hrem by auto. intros [Hr|Hs]; [by apply (wf_kept TS Hc m)|].
      by apply Hmn, (wf_unique TS Hc).
  - intros i m Hi. unfold layoutOf. rewrite HE, Hlive. split.
    + intros [[Hm Hmn] Hs]. split; [|done]. split; [done|]. by apply Hsame in Hs.
    + intros [[Hm Hs] Hmn]. split; [done|]. by apply Hsame.
Qed.

Lemma detach_loop TS n (N : LayoutTypeSystemNode) (M1 M2 : gmap NodeID LayoutTypeSystemNode) :
  graph_wf TS → Layouts TS !! n = Some N →
  (∀ m, M1 !! m = (λ K, if decide (m ∈ (inOrder (Successors N)).*1) then withPredecessors (dropLinks n) K else K)
    <$> Layouts TS !! m) →
  (∀ m, M2 !! m = (λ K, if decide (m ∈ (inOrder (Predecessors N)).*1) then withSuccessors (dropLinks n) K else K)
    <$> M1 !! m) →
  ∀ m, M2 !! m = detachNode n <$> Layouts TS !! m.
Proof.
  intros Hwf HN HM1 HM2 m. rewrite HM2, HM1. destruct (Layouts TS !! m) as [K|] eqn:HK; [|done]. cbn. f_equal.
  unfold detachNode, withSuccessors, withPredecessors.
  assert (m ∉ (inOrder (Successors N)).*1 → dropLinks n (Predecessors K) = Predecessors K) as Hp.
  { intros Hm. apply dropLinks_id. intros t Ht. apply Hm. apply (wf_pred TS Hwf m K) in Ht; [|done].
    apply list_elem_of_fmap. exists (m, t). split; [done|]. apply elem_of_links. by apply (edge_iff TS n). }
  assert (m ∉ (inOrder (Predecessors N)).*1 → dropLinks n (Successors K) = Successors K) as Hs.
  { intros Hm. apply dropLinks_id. intros t Ht. apply Hm. apply list_elem_of_fmap. exists (m, t). split; [done|].
    apply elem_of_links. apply (wf_pred TS Hwf n N); [done|]. by eexists. }
  destruct K as [Su Pr ???]. cbn in *. repeat case_decide; cbn; rewrite ?Hp, ?Hs by done; done.
Qed.

Lemma removeNode_ok TS n :
  wf TS → live TS n →
  ∃ TS', removeNode n TS = Ok TS' ∧ wf TS' ∧ NID TS' = NID TS ∧ LinkTags TS' = LinkTags TS ∧
    (∀ m, live TS' m ↔ live TS m ∧ m ≠ n) ∧
    (∀ m N N', Layouts TS !! m = Some N → Layouts TS' !! m = Some N' →
      Size N' = Size N ∧ NonScalar N' = NonScalar N ∧ InterferingInfo N' = InterferingInfo N) ∧
    (∀ a u b, hasEdge TS' a u b ↔ hasEdge TS a u b ∧ a ≠ n ∧ b ≠ n) ∧
    ∀ i m, (i < NID TS)%N → layoutOf TS' i m ↔ layoutOf TS i m ∧ m ≠ n.
Proof.
  intros [Hwf Hc] Hn. pose proof Hn as [N HN]. unfold removeNode. rewrite (deref_ok _ _ _ HN), bind_ok.
  destruct (removeEC_ok TS n) as (C' & HC & _); [done|by apply Hwf|done|]. rewrite HC, bind_ok. set (TS0 := mkTS _ _ _ C').
  assert (Layouts TS0 !! n = Some N) as HN0 by done. rewrite (deref_ok _ _ _ HN0), bind_ok.
  destruct (forEachM_modify (withPredecessors (dropLinks n)) (inOrder (Successors N)) TS0) as (M1 & -> & HM1).
  { intros K. unfold withPredecessors. cbn. by rewrite dropLinks_idemp. }
  { intros [d t] Hl%elem_of_links. apply (wf_target TS Hwf n t). by eexists. }
  rewrite bind_ok.
  assert (∃ N1, M1 !! n = Some N1 ∧ Predecessors N1 = Predecessors N) as (N1 & HN1 & HP1).
  { rewrite HM1, HN0. cbn. eexists. split; [reflexivity|]. case_decide; [|done]. cbn. apply dropLinks_id.
    intros t. by eapply no_self_preds. }
  rewrite (deref_ok (withLayouts (λ _, M1) TS0) n N1), bind_ok, HP1 by done.
  destruct (forEachM_modify (withSuccessors (dropLinks n)) (inOrder (Predecessors N)) (withLayouts (λ _, M1) TS0)) as (M2 & -> & HM2).
  { intros K. unfold withSuccessors. cbn. by rewrite dropLinks_idemp. }
  { intros [s t] Hl%elem_of_links. unfold live. cbn. rewrite HM1, fmap_is_Some.
    apply (wf_pred TS Hwf n N) in Hl; [|done]. by eapply edge_source. }
  rewrite bind_ok. cbn [Layouts withLayouts]. pose proof (detach_loop TS n N M1 M2 Hwf HN HM1 HM2) as HM.
  rewrite assert_true by (apply bool_decide_eq_true; rewrite HM, HN; by eexists).
  eexists. split; [reflexivity|]. rewrite !withLayouts_withLayouts. set (TS' := withLayouts _ TS0).
  assert (∀ m, Layouts TS' !! m = if decide (m = n) then None else detachNode n <$> Layouts TS !! m) as HL.
  { intros m. cbn. case_decide as Hm; [subst m; by rewrite lookup_delete_eq|]. by rewrite lookup_delete_ne. }
  assert (∀ m, live TS' m ↔ live TS m ∧ m ≠ n) as Hlive.
  { intros m. unfold live. rewrite HL. case_decide as Hm; [split; [intros [? [=]]|naive_solver]|].
    rewrite fmap_is_Some. naive_solver. }
  destruct (wf_edit TS' (λ a u b, hasEdge TS a u b ∧ a ≠ n ∧ b ≠ n)) as [Hwf' He'].
  { intros s K d t HK. rewrite HL in HK. case_decide; [done|]. destruct (Layouts TS !! s) as [K0|] eqn:HK0; [|done].
    injection HK as <-. cbn. rewrite elem_of_dropLinks, (edge_iff TS s K0) by done. naive_solver. }
  { intros d K s t HK. rewrite HL in HK. case_decide; [done|]. destruct (Layouts TS !! d) as [K0|] eqn:HK0; [|done].
    injection HK as <-. cbn. rewrite elem_of_dropLinks, (wf_pred TS Hwf d K0) by done. naive_solver. }
  { intros s t d (He & Hs & Hd). rewrite !Hlive. split_and!;
      [by eapply edge_source|done|by eapply wf_target|done|intros ->; by apply (wf_loop TS Hwf) in He|by eapply (wf_tags TS)]. }
  { intros m [Hm _]%Hlive. by apply (wf_bound TS Hwf). }
  destruct (remove_classes TS TS' C' n) as [Hc' Hlay]; [done|by apply Hwf|done|done|done|done|done|].
  split_and!; [by split|done|done|done| |done|done].
  intros m K K' HK. rewrite HL. case_decide; [done|]. rewrite HK. intros [= <-]. done.
Qed.

Lemma createArtificialLayoutType_ok TS :
  wf TS →
  ∃ TS', createArtificialLayoutType TS = Ok (NID TS, TS') ∧ wf TS' ∧ NID TS' = (NID TS + 1)%N ∧
    LinkTags TS' = LinkTags TS ∧
    Layouts TS' = <[NID TS := mkNode ∅ ∅ 0 Unknown false]> (Layouts TS) ∧
    (∀ a u b, hasEdge TS' a u b ↔ hasEdge TS a u b) ∧
    ∀ i m, (i < NID TS + 1)%N → layoutOf TS' i m ↔ layoutOf TS i m ∧ (i < NID TS)%N ∨ i = NID TS ∧ m = NID TS.
Proof.
  intros [Hwf Hc]. unfold createArtificialLayoutType, growBy1.
  rewrite (bool_decide_eq_true_2 (getNumClasses (Base (EqClasses TS)) = 0%N)) by apply Hc. rewrite bind_ok.
  assert (Layouts TS !! NID TS = None) as Hnone.
  { apply eq_None_not_Some. intros Hx%(wf_bound TS Hwf). lia. }
  rewrite assert_true by by apply bool_decide_eq_true. eexists. split; [reflexivity|]. set (TS' := mkTS _ _ _ _).
  assert (∀ m, live TS' m ↔ live TS m ∨ m = NID TS) as Hlive.
  { intros m. unfold live. cbn. destruct (decide (m = NID TS)) as [->|]; [rewrite lookup_insert_eq|rewrite lookup_insert_ne by done]; naive_solver. }
  assert (∀ a u b, hasEdge TS' a u b ↔ hasEdge TS a u b) as He.
  { intros a u b. unfold hasEdge. cbn. destruct (decide (a = NID TS)) as [->|].
    - rewrite lookup_insert_eq, Hnone. split; [|naive_solver]. intros (K & [= <-] & Hb). set_solver.
    - by rewrite lookup_insert_ne. }
  assert (∀ i j, (i < NID TS + 1)%N → (j < NID TS + 1)%N →
    same (EqClasses TS') i j ↔ i = j ∨ (i < NID TS)%N ∧ (j < NID TS)%N ∧ same (EqClasses TS) i j) as Hsame.
  { intros i j Hi Hj. unfold same. cbn. rewrite leader_grow; rewrite ?(wf_ec_size TS Hc), ?(wf_elements TS Hc); [done|by apply Hc|lia|lia]. }
  split_and!; [split|done|done|done|done|].
  - split.
    + intros d D s t HD. rewrite He. cbn in HD. destruct (decide (d = NID TS)) as [->|].
      * rewrite lookup_insert_eq in HD. injection HD as <-. cbn. split; [set_solver|].
        intros Hx%(wf_target TS Hwf)%(wf_bound TS Hwf). lia.
      * rewrite lookup_insert_ne in HD by done. by apply wf_pred.
    + intros s t d Hx%He. apply Hlive. left. by eapply wf_target.
    + intros s t Hx%He. by apply (wf_loop TS Hwf) in Hx.
    + intros s t d Hx%He. by eapply (wf_tags TS).
    + intros n [Hn| ->]%Hlive; [|cbn; lia]. apply (wf_bound TS Hwf) in Hn. cbn. lia.
  - assert (∀ r, RemovedID (EqClasses TS) = Some r → (r < NID TS)%N) as Hr by apply Hc.
    assert (∀ i, (i < NID TS)%N → removed (EqClasses TS') i ↔ removed (EqClasses TS) i) as Hrem.
    { intros i Hi. unfold removed. cbn. split; intros (r & Hr1 & Hs); exists r; (split; [done|]); specialize (Hr r Hr1).
      - apply Hsame in Hs as [->|(_ & _ & ?)]; [done|done|lia|lia].
      - apply Hsame; [lia|lia|]. right. done. }
    split; cbn [EqClasses NID].
    + cbn. apply classes_grow, Hc.
    + cbn. rewrite size_grow by apply Hc. rewrite (wf_ec_size TS Hc), (wf_elements TS Hc). lia.
    + cbn. by rewrite (wf_elements TS Hc).
    + cbn. intros r Hr1%Hr. lia.
    + intros i Hi. cbn in Hi. destruct (decide (i = NID TS)) as [->|Hne]; [right; exists (NID TS); split; [apply Hlive; by right|by apply Hsame; auto]|].
      destruct (wf_represented TS Hc i) as [Hx|(m & Hm & Hs)]; [lia|left; apply Hrem; [lia|done]|right].
      exists m. split; [apply Hlive; by left|]. apply (wf_bound TS Hwf) in Hm. apply Hsame; [lia|lia|]. right. split_and!; [lia|lia|done].
    + assert (∀ m, live TS' m → (m < NID TS + 1)%N) as Hb by (intros m [Hm%(wf_bound TS Hwf)| ->]%Hlive; lia).
      intros m k Hm Hk Hs. pose proof (Hb m Hm). pose proof (Hb k Hk).
      apply Hsame in Hs as [?|(? & ? & Hs)]; [done| |done|done].
      apply (wf_unique TS Hc); [apply Hlive in Hm as [?| ->]; [done|lia]|apply Hlive in Hk as [?| ->]; [done|lia]|done].
    + intros m [Hm| ->]%Hlive.
      * rewrite Hrem by by apply (wf_bound TS Hwf). by apply (wf_kept TS Hc).
      * intros (r & Hr1%Hr & Hs). cbn in Hr1. apply Hsame in Hs as [?|(? & _)]; lia.
  - intros i m Hi. unfold layoutOf. rewrite Hlive. split.
    + intros [[Hm| ->] Hs].
      * pose proof (wf_bound TS Hwf m Hm). apply Hsame in Hs as [->|(? & ? & ?)]; [by left|left; done|lia|lia].
      * apply Hsame in Hs as [->|(? & ? & ?)]; [by right|lia|lia|lia].
    + intros [[[Hm Hs] Hi2]|[-> ->]]; (split; [auto|]).
      * pose proof (wf_bound TS Hwf m Hm). apply Hsame; [lia|lia|]. by right.
      * apply Hsame; [lia|lia|by left].
Qed.

(** ** Merging many nodes *)

(** Where a merge of some nodes into one takes the ends of a link. *)
Definition intoAll (Rest : list NodeID) (Into n : NodeID) : NodeID := if decide (n ∈ Rest) then Into else n.

Record mergedAll (Into : NodeID) (Rest : list NodeID) TS TS' : Prop := {
  all_live n : live TS' n ↔ live TS n ∧ n ∉ Rest;
  all_edges a t b : hasEdge TS' a t b ↔
    ∃ a0 b0, hasEdge TS a0 t b0 ∧ a = intoAll Rest Into a0 ∧ b = intoAll Rest Into b0 ∧ a ≠ b;
  all_layout i n : (i < NID TS)%N → layoutOf TS' i n ↔ ∃ m, layoutOf TS i m ∧ n = intoAll Rest Into m;
  all_sizes n N : Layouts TS !! n = Some N → n ∉ Rest → ∃ N', Layouts TS' !! n = Some N' ∧ Size N' = Size N ∧
    (n ≠ Into → NonScalar N' = NonScalar N ∧ InterferingInfo N' = InterferingInfo N);
  all_NID : NID TS' = NID TS;
  all_tags : LinkTags TS' = LinkTags TS;
}.

(** The nodes can be merged into the first one: it is the largest, and no node whose
    size is fixed is smaller. *)
Definition mergeable TS (Into : NodeID) (Rest : list NodeID) : Prop :=
  ∃ I, Layouts TS !! Into = Some I ∧
    ∀ n, n ∈ Rest → ∃ N, Layouts TS !! n = Some N ∧ (Size N ≤ Size I)%Z ∧ (NonScalar N = true → Size N = Size I).

Lemma mergedSize_largest (I F : LayoutTypeSystemNode) :
  (Size F ≤ Size I)%Z → (NonScalar F = true → Size F = Size I) → mergedSize I F = Ok (Size I).
Proof.
  intros Hle Hns. unfold mergedSize. destruct (NonScalar I) eqn:HI; destruct (NonScalar F) eqn:HF; cbn.
  - rewrite assert_true by (apply Z.eqb_eq; by rewrite Hns). rewrite assert_true by (by apply Z.leb_le). done.
  - rewrite assert_true by (by apply Z.leb_le). done.
  - rewrite assert_true by (apply Z.leb_le; rewrite Hns by done; done). by rewrite Hns.
  - rewrite assert_true by (apply orb_true_iff; right; by apply Z.leb_le). by rewrite Z.max_l.
Qed.

Lemma intoAll_cons From Rest Into n :
  From ∉ Rest → Into ∉ Rest → intoAll (From :: Rest) Into n = intoAll Rest Into (into From Into n).
Proof.
  intros Hf Hi. unfold intoAll, into. destruct (decide (n = From)) as [->|Hne].
  - rewrite decide_True by left. by rewrite decide_False.
  - destruct (decide (n ∈ Rest)); [rewrite decide_True by by right|rewrite decide_False by (rewrite elem_of_cons; naive_solver)]; done.
Qed.

Lemma mergedAll_refl TS Into : graph_wf TS → mergedAll Into [] TS TS.
Proof.
  intros Hwf. split.
  - intros n. split; [|naive_solver]. intros ?. split; [done|]. apply not_elem_of_nil.
  - intros a t b. unfold intoAll. cbn. split; [|naive_solver]. intros He. exists a, b. split_and!; [done..|].
    intros ->. by apply (wf_loop TS Hwf) in He.
  - intros i n _. unfold intoAll. cbn. naive_solver.
  - intros n N HN _. by exists N.
  - done.
  - done.
Qed.

Lemma mergedAll_step TS TS1 TS2 Into From Rest s :
  From ∉ Rest → Into ∉ From :: Rest → (∀ I, Layouts TS !! Into = Some I → Size I = s) → live TS Into → live TS From →
  merged From Into s TS TS1 → mergedAll Into Rest TS1 TS2 → mergedAll Into (From :: Rest) TS TS2.
Proof.
  intros Hf Hi Hs HI HF Hm Ha. apply not_elem_of_cons in Hi as [Hif Hir].
  destruct (merged_edges _ _ _ _ _ Hm) as [Hl He]. split.
  - intros n. rewrite (all_live _ _ _ _ Ha), Hl, not_elem_of_cons. naive_solver.
  - intros a t b. rewrite (all_edges _ _ _ _ Ha). split.
    + intros (a1 & b1 & (a0 & b0 & He0 & -> & -> & Hn1)%He & -> & -> & Hne).
      exists a0, b0. by rewrite !intoAll_cons.
    + intros (a0 & b0 & He0 & -> & -> & Hne). exists (into From Into a0), (into From Into b0).
      rewrite !intoAll_cons in Hne by done. rewrite !intoAll_cons by done. split_and!; [|done..].
      apply He. exists a0, b0. split_and!; [done..|]. intros Heq. by rewrite Heq in Hne.
  - intros i n Hin. rewrite (all_layout _ _ _ _ Ha) by by rewrite (merged_NID _ _ _ _ _ Hm). split.
    + intros (m & (m0 & Hlay & ->)%(merged_layout _ _ _ _ _ Hm) & ->); [|done]. exists m0. by rewrite intoAll_cons.
    + intros (m0 & Hlay & ->). exists (into From Into m0). rewrite intoAll_cons by done. split; [|done].
      apply (merged_layout _ _ _ _ _ Hm); [done|]. by exists m0.
  - intros n N HN [Hnf Hnr]%not_elem_of_cons. destruct (decide (n = Into)) as [->|Hni].
    + destruct HF as [F HF]. destruct (merged_into _ _ _ _ _ Hm N F HN HF) as (I1 & HI1 & Hs1 & _ & _).
      destruct (all_sizes _ _ _ _ Ha Into I1 HI1 Hnr) as (N' & HN' & HsN & _). exists N'.
      rewrite HsN, Hs1, (Hs N HN). done.
    + destruct (merged_others _ _ _ _ _ Hm n N Hni Hnf HN) as (N1 & HN1 & Hs1 & Hns1 & Hi1).
      destruct (all_sizes _ _ _ _ Ha n N1 HN1 Hnr) as (N' & HN' & HsN & Hx). exists N'. split; [done|].
      destruct (Hx Hni) as [??]. split; [congruence|]. intros _. split; congruence.
  - by rewrite (all_NID _ _ _ _ Ha), (merged_NID _ _ _ _ _ Hm).
  - by rewrite (all_tags _ _ _ _ Ha), (merged_tags _ _ _ _ _ Hm).
Qed.

Lemma mergeLoop_ok TS Into Rest :
  wf TS → NoDup (Into :: Rest) → mergeable TS Into Rest →
  ∃ TS', forEachM (mergeInto Into) Rest TS = Ok TS' ∧ wf TS' ∧ mergedAll Into Rest TS TS'.
Proof.
  revert TS. induction Rest as [|From Rest IH]; intros TS Hwf Hnd (I & HI & Hrest).
  { exists TS. split_and!; [done|done|]. apply mergedAll_refl, Hwf. }
  apply NoDup_cons in Hnd as [Hi Hnd]. pose proof Hnd as [Hf Hnd2]%NoDup_cons.
  pose proof Hi as [Hif Hir]%not_elem_of_cons.
  destruct (Hrest From) as (F & HF & HFs & HFn); [by left|].
  destruct (mergeInto_ok TS Into From I F (Size I)) as (TS1 & Hm & Hwf1 & Hm1); [done|done|done|done|by apply mergedSize_largest|].
  cbn [forEachM]. rewrite Hm, bind_ok.
  destruct (merged_into _ _ _ _ _ Hm1 I F HI HF) as (I1 & HI1 & Hs1 & _).
  destruct (IH TS1) as (TS2 & Hr & Hwf2 & Ha); [done|by constructor| |].
  { exists I1. split; [done|]. intros n Hn. destruct (Hrest n) as (N & HN & Hle & Hns); [by right|].
    destruct (merged_others _ _ _ _ _ Hm1 n N) as (N1 & HN1 & HsN & HnsN & _); [by intros ->|by intros ->|done|].
    exists N1. rewrite HsN, HnsN, Hs1. done. }
  exists TS2. split_and!; [done|done|]. eapply mergedAll_step; [done|done| | | |exact Hm1|exact Ha].
  - intros I2 HI2. rewrite HI in HI2. by injection HI2 as <-.
  - by eexists.
  - by eexists.
Qed.

(** The first node is the largest. *)
Definition largest TS (Into : NodeID) (Rest : list NodeID) : Prop :=
  ∃ I, Layouts TS !! Into = Some I ∧ ∀ n, n ∈ Rest → ∃ N, Layouts TS !! n = Some N ∧ (Size N ≤ Size I)%Z.

Lemma mergedSize_fixed (I F : LayoutTypeSystemNode) :
  (Size F < Size I)%Z → NonScalar F = true → mergedSize I F = Fault AssertionFailed.
Proof.
  intros Hlt HF. unfold mergedSize. rewrite HF, orb_true_r, andb_true_r. destruct (NonScalar I); cbn.
  - by rewrite (proj2 (Z.eqb_neq _ _)) by lia.
  - by rewrite (proj2 (Z.leb_gt _ _)) by lia.
Qed.

Lemma mergeLoop_fixed TS Into Rest n N I :
  wf TS → NoDup (Into :: Rest) → largest TS Into Rest → Layouts TS !! Into = Some I → n ∈ Rest → Layouts TS !! n = Some N →
  NonScalar N = true → (Size N < Size I)%Z → forEachM (mergeInto Into) Rest TS = Fault AssertionFailed.
Proof.
  revert TS I N. induction Rest as [|From Rest IH]; intros TS I N Hwf Hnd (I' & HI' & Hrest) HI Hn HN Hns Hlt; [by apply elem_of_nil in Hn|].
  rewrite HI in HI'. injection HI' as <-. apply NoDup_cons in Hnd as [Hi Hnd]. pose proof Hnd as [Hf Hnd2]%NoDup_cons.
  pose proof Hi as [Hif Hir]%not_elem_of_cons. destruct (Hrest From) as (F & HF & HFs); [by left|]. cbn [forEachM].
  destruct (decide (NonScalar F = true ∧ (Size F < Size I)%Z)) as [[HFn HFl]|Hgood].
  { unfold mergeInto. rewrite bool_decide_eq_true_2 by congruence. cbn [revng_assert]. rewrite bind_ok.
    by rewrite (deref_ok _ _ _ HI), bind_ok, (deref_ok _ _ _ HF), bind_ok, mergedSize_fixed. }
  assert (n ≠ From) as Hnf by (intros ->; rewrite HF in HN; injection HN as ->; by apply Hgood).
  apply elem_of_cons in Hn as [?|Hn]; [done|].
  destruct (mergeInto_ok TS Into From I F (Size I)) as (TS1 & Hm & Hwf1 & Hm1); [done..| |].
  { apply mergedSize_largest; [done|]. intros HFn. destruct (Z.le_gt_cases (Size I) (Size F)); [lia|]. by destruct Hgood. }
  rewrite Hm, bind_ok. destruct (merged_into _ _ _ _ _ Hm1 I F HI HF) as (I1 & HI1 & Hs1 & _).
  assert (∀ m M, m ∈ Rest → Layouts TS !! m = Some M → ∃ M1, Layouts TS1 !! m = Some M1 ∧ Size M1 = Size M ∧ NonScalar M1 = NonScalar M) as Hsame.
  { intros m M Hm' HM. destruct (merged_others _ _ _ _ _ Hm1 m M) as (M1 & HM1 & ? & ? & _); [by intros ->|by intros ->|done|]. by exists M1. }
  destruct (Hsame n N Hn HN) as (N1 & HN1 & HsN & HnsN). apply (IH TS1 I1 N1); try done; [by constructor| |congruence|congruence].
  exists I1. split; [done|]. intros m Hm'. destruct (Hrest m) as (M & HM & Hle); [by right|]. destruct (Hsame m M Hm' HM) as (M1 & HM1 & ? & _).
  exists M1. split; [done|congruence].
Qed.

Lemma mergeNodes_fixed TS Into Rest n N I :
  wf TS → NoDup (Into :: Rest) → largest TS Into Rest → Layouts TS !! Into = Some I → n ∈ Rest → Layouts TS !! n = Some N →
  NonScalar N = true → (Size N < Size I)%Z → mergeNodes (Into :: Rest) TS = Fault AssertionFailed.
Proof.
  intros Hwf Hnd Hl HI Hn HN Hns Hlt. destruct Rest as [|m Rest]; [by apply elem_of_nil in Hn|]. unfold mergeNodes.
  rewrite (deref_ok _ _ _ HI), bind_ok. by eapply mergeLoop_fixed.
Qed.

Lemma mergeNodes_ok TS Into Rest :
  wf TS → NoDup (Into :: Rest) → mergeable TS Into Rest →
  ∃ TS', mergeNodes (Into :: Rest) TS = Ok TS' ∧ wf TS' ∧ mergedAll Into Rest TS TS'.
Proof.
  intros Hwf Hnd Hm. destruct (mergeLoop_ok TS Into Rest Hwf Hnd Hm) as (TS' & Hr & Hw & Ha).
  exists TS'. split; [|done]. destruct Hm as (I & HI & _). unfold mergeNodes. rewrite (deref_ok _ _ _ HI), bind_ok.
  by destruct Rest.
Qed.
End edits.

(** ** Equivalence classes as lists of labels *)

Record listClasses := mkListClasses { labels : list N; compressed : N }.

Definition labelOf (e : listClasses) (a : N) : N := default 0%N (labels e !! N.to_nat a).
Definition freshLabel (l : list N) : N := N.succ (foldr N.max 0%N l).

Definition growLabels (n : N) (e : listClasses) : listClasses :=
  mkListClasses (labels e ++ ((λ i, freshLabel (labels e) + N.of_nat i)%N <$> seq 0 (N.to_nat n - length (labels e)))) (compressed e).

Definition joinLabels (a b : N) (e : listClasses) : listClasses :=
  mkListClasses ((λ x, if decide (x = labelOf e b) then labelOf e a else x) <$> labels e) (compressed e).

Lemma fresh_above l i x : l !! i = Some x → (x < freshLabel l)%N.
Proof.
  unfold freshLabel. revert i. induction l as [|y l IH]; intros i; [done|]. destruct i as [|i]; cbn.
  - intros [= <-]. lia.
  - intros Hx%IH. lia.
Qed.

Lemma labelOf_grow n e c : (c < N.max n (N.of_nat (length (labels e))))%N →
  labelOf (growLabels n e) c =
    if decide (c < N.of_nat (length (labels e)))%N then labelOf e c
    else (freshLabel (labels e) + (c - N.of_nat (length (labels e))))%N.
Proof.
  intros Hc. unfold labelOf, growLabels. cbn. case_decide as Hd.
  - by rewrite lookup_app_l by lia.
  - rewrite lookup_app_r by lia. rewrite list_lookup_fmap, lookup_seq_lt by lia. cbn. lia.
Qed.

Lemma labelOf_bound e c : (c < N.of_nat (length (labels e)))%N → (labelOf e c < freshLabel (labels e))%N.
Proof.
  intros Hc. unfold labelOf. destruct (labels e !! N.to_nat c) as [x|] eqn:Hx; [by apply fresh_above in Hx|].
  apply lookup_ge_None in Hx. lia.
Qed.

Lemma labelOf_join a b e c : (c < N.of_nat (length (labels e)))%N →
  labelOf (joinLabels a b e) c = if decide (labelOf e c = labelOf e b) then labelOf e a else labelOf e c.
Proof.
  intros Hc. destruct (lookup_lt_is_Some_2 (labels e) (N.to_nat c)) as [x Hx]; [lia|].
  assert (labelOf e c = x) as -> by (unfold labelOf; by rewrite Hx).
  unfold labelOf at 1, joinLabels. cbn [labels]. by rewrite list_lookup_fmap, Hx.
Qed.

#[global] Instance listIntEqClasses : LLVMIntEqClasses listClasses.
Proof.
  refine {|
    ec_empty := mkListClasses [] 0;
    ec_size e := N.of_nat (length (labels e));
    getNumClasses := compressed;
    ec_grow := growLabels;
    ec_join := joinLabels;
    findLeader := labelOf;
    ec_compress e := mkListClasses (labels e) (N.of_nat (length (labels e)));
    ec_lookup := labelOf |}; try done.
  - intros n e _. cbn. rewrite length_app, length_fmap, length_seq. lia.
  - intros n e c d _ Hc Hd. destruct (decide (c = d)) as [->|Hcd]; [by split; [left|]|]. rewrite !labelOf_grow by done.
    pose proof (labelOf_bound e c) as Hbc. pose proof (labelOf_bound e d) as Hbd.
    repeat case_decide; repeat match goal with Hb : ?P → _, HP : ?P |- _ => specialize (Hb HP) end; lia.
  - intros a b e _ _ _. cbn. by rewrite length_fmap.
  - intros a b e c d _ _ _ Hc Hd. rewrite !labelOf_join by done. repeat case_decide; naive_solver congruence.
Defined.

Section theorems.
  Context {E : Type} `{LLVMIntEqClasses E}.
  Implicit Types TS : LayoutTypeSystem E.

(** A well-formed type system whose links are those of a relation, and otherwise the same
    as another. *)
Definition edited TS TS' (P : NodeID → TypeLinkTag → NodeID → Prop) : Prop :=
  wf TS' ∧ unedited TS TS' ∧ ∀ a u b, hasEdge TS' a u b ↔ P a u b.

Lemma edited_intro TS TS' P :
  wf TS → graph_wf TS' → unedited TS TS' → (∀ a u b, hasEdge TS' a u b ↔ P a u b) → edited TS TS' P.
Proof. intros [_ Hc] Hwf Hu HP. split; [|done]. split; [done|]. by eapply classes_unedited. Qed.

Lemma edited_trans TS TS1 TS2 P Q : edited TS TS1 P → edited TS1 TS2 Q → edited TS TS2 Q.
Proof. intros (_ & Hu1 & _) (? & Hu2 & ?). split; [done|]. split; [by eapply unedited_trans|done]. Qed.

Lemma edited_iff TS TS' P Q : (∀ a u b, P a u b ↔ Q a u b) → edited TS TS' P → edited TS TS' Q.
Proof. intros HPQ (? & ? & HP). split_and!; [done|done|]. intros. by rewrite HP. Qed.

Lemma eraseEdges_ok TS n ls :
  wf TS → NoDup ls → (∀ l, l ∈ ls → hasEdge TS n l.2 l.1) →
  ∃ TS', forEachM (eraseEdge n) ls TS = Ok TS' ∧
    edited TS TS' (λ a u b, hasEdge TS a u b ∧ ¬ (a = n ∧ (b, u) ∈ ls)).
Proof.
  revert TS. induction ls as [|[d t] ls IH]; intros TS Hwf Hnd Hls.
  { exists TS. split; [done|]. split_and!; [done|apply unedited_refl|]. intros. split; [|naive_solver]. intros ?. split; [done|].
    intros [_ Hx]. by apply elem_of_nil in Hx. }
  apply NoDup_cons in Hnd as [Hd Hnd].
  destruct (eraseEdge_ok TS n d t) as (TS1 & He & Hwf1 & Hu1 & _ & Hed1); [apply Hwf|by apply (Hls (d, t)); left|].
  assert (edited TS TS1 (λ a u b, hasEdge TS a u b ∧ (a, u, b) ≠ (n, t, d))) as Hed by by apply edited_intro.
  destruct (IH TS1) as (TS2 & Hr & Hed2); [apply Hed|done| |].
  { intros [d2 t2] Hl. apply Hed1. split; [apply (Hls (d2, t2)); by right|]. intros [= -> ->]. done. }
  exists TS2. cbn [forEachM]. rewrite He, bind_ok. split; [done|]. eapply edited_trans; [exact Hed|].
  eapply edited_iff; [|exact Hed2]. cbn. intros a u b. rewrite Hed1, elem_of_cons. naive_solver.
Qed.

Lemma dropOutgoingEdges_ok TS n :
  wf TS → live TS n → ∃ TS', dropOutgoingEdges n TS = Ok TS' ∧ edited TS TS' (λ a u b, hasEdge TS a u b ∧ a ≠ n).
Proof.
  intros Hwf [N HN]. unfold dropOutgoingEdges. rewrite (deref_ok _ _ _ HN), bind_ok.
  destruct (eraseEdges_ok TS n (inOrder (Successors N))) as (TS' & -> & Hed); [done|apply NoDup_links| |].
  { intros [d t] Hl%elem_of_links. by eexists. }
  exists TS'. split; [done|]. eapply edited_iff; [|exact Hed]. intros a u b. cbn. rewrite elem_of_links.
  split; intros [He Hn]; (split; [done|]).
  - intros ->. apply Hn. split; [done|]. by apply (edge_iff TS n).
  - by intros [-> _].
Qed.

Lemma addEqualityLink_ok TS Src Tgt :
  wf TS → live TS Src → live TS Tgt → Src ≠ Tgt →
  (hasEdge TS Src equalityTag Tgt ↔ hasEdge TS Tgt equalityTag Src) →
  ∃ b TS', addEqualityLink (Some Src) (Some Tgt) TS = Ok (Some equalityTag, b, TS') ∧
    edited TS TS' (λ a u b, hasEdge TS a u b ∨ u = equalityTag ∧ (a = Src ∧ b = Tgt ∨ a = Tgt ∧ b = Src)).
Proof.
  intros Hwf HS HT Hne Hsym. unfold addEqualityLink.
  destruct (addLink_ok TS Src Tgt equalityTag) as (b1 & TS1 & -> & Hwf1 & Hu1 & _ & Hb1 & He1); [apply Hwf|done..|].
  rewrite bind_ok. assert (edited TS TS1 (λ a u b, hasEdge TS a u b ∨ (a, u, b) = (Src, equalityTag, Tgt))) as Hed1 by by apply edited_intro.
  destruct (addLink_ok TS1 Tgt Src equalityTag) as (b2 & TS2 & -> & Hwf2 & Hu2 & _ & Hb2 & He2);
    [done|by apply (un_live _ _ Hu1)|by apply (un_live _ _ Hu1)|done|].
  rewrite bind_ok. assert (b1 = b2) as <-.
  { apply eq_bool_prop_intro. rewrite !Is_true_true, Hb1, Hb2, He1, Hsym. naive_solver. }
  rewrite assert_true by by apply bool_decide_eq_true. eexists _, _. split; [reflexivity|].
  eapply edited_trans; [exact Hed1|]. eapply (edited_iff _ _ (λ a u b, hasEdge TS1 a u b ∨ (a, u, b) = (Tgt, equalityTag, Src))).
  - intros a u b. rewrite He1. naive_solver.
  - by apply edited_intro; [apply Hed1|..].
Qed.

(** ** Verification *)

Lemma allM_true {A} (f : A → outcome bool) l : allM f l = Ok true ↔ ∀ x, x ∈ l → f x = Ok true.
Proof.
  induction l as [|x l IH]; cbn [allM].
  - split; [|done]. intros _ x Hx. by apply elem_of_nil in Hx.
  - setoid_rewrite elem_of_cons. destruct (f x) as [[]|] eqn:Hx; cbn.
    + rewrite IH. naive_solver.
    + split; [done|]. intros Hall. rewrite Hall in Hx by by left. done.
    + split; [done|]. intros Hall. rewrite Hall in Hx by by left. done.
Qed.

Lemma elem_of_layoutsRange TS n : (∀ m, live TS m → (m < NID TS)%N) → n ∈ layoutsRange TS ↔ live TS n.
Proof. intros Hb. unfold layoutsRange. rewrite list_elem_of_filter, elem_of_indices. naive_solver. Qed.

Lemma anyLink_false P s : anyLink P s = false ↔ ∀ l, l ∈ s → P l = false.
Proof.
  unfold anyLink. setoid_rewrite <- elem_of_links. induction (inOrder s) as [|x l IH]; cbn.
  - split; [|done]. intros _ x Hx. by apply elem_of_nil in Hx.
  - rewrite orb_false_iff, IH. setoid_rewrite elem_of_cons. naive_solver.
Qed.

Lemma anyLink_true P s : anyLink P s = true ↔ ∃ l, l ∈ s ∧ P l = true.
Proof.
  rewrite <- not_false_iff_true, anyLink_false. split.
  - intros Hn. unfold anyLink in *. setoid_rewrite <- elem_of_links in Hn. setoid_rewrite <- elem_of_links.
    induction (inOrder s) as [|x l IH].
    + exfalso. apply Hn. intros x Hx. by apply elem_of_nil in Hx.
    + destruct (P x) eqn:Hx; [exists x; split; [by left|done]|].
      destruct IH as (y & Hy & HP); [intros Hall; apply Hn; intros y [->|Hy]%elem_of_cons; auto|].
      exists y. split; [by right|done].
  - intros (x & Hx & HP) Hall. by rewrite Hall in HP.
Qed.

Lemma pointer_not_instance (L : NodeID * TypeLinkTag) : isPointerEdge L = true → isInstanceEdge L = false.
Proof.
  unfold isPointerEdge, isInstanceEdge, hasLinkKind. rewrite bool_decide_eq_true. intros ->. by apply bool_decide_eq_false.
Qed.

#[local] Arguments isPointerEdge : simpl never.
#[local] Arguments isInstanceEdge : simpl never.

(** Pointers are only that. *)
Definition pointerRule (l : list (NodeID * TypeLinkTag)) : Prop :=
  ∀ x, x ∈ l → isPointerEdge x = true → ∀ y, y ∈ l → (isPointerEdge y = true → y = x) ∧ isInstanceEdge y = false.

Lemma verifyPointers_seen l : verifyPointers true 0 l = true ↔
  ∀ x, x ∈ l → isPointerEdge x = false ∧ isInstanceEdge x = false.
Proof.
  induction l as [|x l IH]; cbn [verifyPointers].
  - split; [|done]. intros _ x Hx. by apply elem_of_nil in Hx.
  - setoid_rewrite elem_of_cons. destruct (isPointerEdge x) eqn:HP; cbn.
    + split; [done|]. intros Hall. destruct (Hall x); [by left|congruence].
    + destruct (isInstanceEdge x) eqn:HI; cbn.
      * split; [done|]. intros Hall. destruct (Hall x); [by left|congruence].
      * rewrite IH. naive_solver.
Qed.

Lemma verifyPointers_unseen k l : verifyPointers false (S k) l = true ↔ ∀ x, x ∈ l → isPointerEdge x = false.
Proof.
  revert k. induction l as [|x l IH]; intros k; cbn [verifyPointers].
  - split; [|done]. intros _ x Hx. by apply elem_of_nil in Hx.
  - setoid_rewrite elem_of_cons. destruct (isPointerEdge x) eqn:HP; cbn.
    + split; [done|]. intros Hall. rewrite Hall in HP by by left. done.
    + destruct (isInstanceEdge x); rewrite IH; naive_solver.
Qed.

Lemma verifyPointers_spec l : NoDup l → verifyPointers false 0 l = true ↔ pointerRule l.
Proof.
  unfold pointerRule. induction l as [|x l IH]; intros Hnd; cbn [verifyPointers].
  { split; [|done]. intros _ x Hx. by apply elem_of_nil in Hx. }
  apply NoDup_cons in Hnd as [Hx Hnd]. setoid_rewrite elem_of_cons. destruct (isPointerEdge x) eqn:HP; cbn.
  - rewrite verifyPointers_seen. split.
    + intros Hall y [->|Hy] HPy z [->|Hz]; [|split; [|by apply Hall]| |].
      * split; [done|by apply pointer_not_instance].
      * intros HPz. apply Hall in Hz as [Hz _]. congruence.
      * apply Hall in Hy as [Hy _]. congruence.
      * apply Hall in Hy as [Hy _]. congruence.
    + intros Hall y Hy. destruct (Hall x (or_introl eq_refl) HP y) as [Hyx HIy]; [by right|]. split; [|done].
      destruct (isPointerEdge y) eqn:HPy; [|done]. by rewrite Hyx in Hy.
  - destruct (isInstanceEdge x) eqn:HI; cbn.
    + rewrite verifyPointers_unseen. split.
      * intros Hall y [->|Hy] HPy; [congruence|]. rewrite Hall in HPy by done. done.
      * intros Hall y Hy. destruct (isPointerEdge y) eqn:HPy; [|done].
        destruct (Hall y (or_intror Hy) HPy x) as [_ ?]; [by left|congruence].
    + rewrite IH by done. split.
      * intros Hall y [->|Hy] HPy z [->|Hz]; [congruence|congruence|split; [congruence|done]|by apply Hall].
      * intros Hall y Hy HPy z Hz. apply (Hall y); auto.
Qed.

(** What [verifyConsistency] looks for. *)
Definition consistent TS : Prop :=
  (∀ d D s t, Layouts TS !! d = Some D → (s, t) ∈ Predecessors D ↔ hasEdge TS s t d) ∧
  (∀ s t d, hasEdge TS s t d → live TS d ∧ s ≠ d) ∧
  (∀ n N, Layouts TS !! n = Some N → pointerRule (inOrder (Successors N))).

Lemma verifyConsistency_spec TS :
  (∀ m, live TS m → (m < NID TS)%N) → verifyConsistency TS = Ok true ↔ consistent TS.
Proof.
  intros Hb. unfold verifyConsistency, consistent. rewrite allM_true. setoid_rewrite elem_of_layoutsRange; [|done].
  assert (∀ n N (P : LayoutTypeSystemNode → gset (NodeID * TypeLinkTag)) s,
    Layouts TS !! n = Some N →
    allM (λ L : NodeID * TypeLinkTag, M ← deref TS L.1; Ok (bool_decide ((n, L.2) ∈ P M))) (inOrder s) = Ok true ↔
    ∀ m t, (m, t) ∈ s → ∃ M, Layouts TS !! m = Some M ∧ (n, t) ∈ P M) as Hall.
  { intros n N P s _. rewrite allM_true. setoid_rewrite elem_of_links. split.
    - intros Hx m t Hm. specialize (Hx _ Hm). cbn in Hx. unfold deref in Hx.
      destruct (Layouts TS !! m) as [M|]; [|done]. injection Hx as Hx%bool_decide_eq_true. by exists M.
    - intros Hx [m t] Hm. destruct (Hx m t Hm) as (M & HM & ?). cbn. rewrite (deref_ok _ _ _ HM), bind_ok.
      f_equal. by apply bool_decide_eq_true. }
  transitivity (∀ n N, Layouts TS !! n = Some N →
    (∀ m t, (m, t) ∈ Predecessors N → ∃ M, Layouts TS !! m = Some M ∧ (n, t) ∈ Successors M) ∧
    (∀ m t, (m, t) ∈ Successors N → ∃ M, Layouts TS !! m = Some M ∧ (n, t) ∈ Predecessors M) ∧
    (∀ t, (n, t) ∉ Predecessors N) ∧ (∀ t, (n, t) ∉ Successors N) ∧ pointerRule (inOrder (Successors N))).
  - split.
    + intros Hv n N HN. specialize (Hv n (live_Some _ _ _ HN)). rewrite (deref_ok _ _ _ HN), bind_ok in Hv.
      apply bind_inv in Hv as ([] & H1 & Hv); [|done]. apply bind_inv in Hv as ([] & H2 & Hv); [|done].
      injection Hv as [[H3%negb_true_iff H4%negb_true_iff]%andb_true_iff H5]%andb_true_iff.
      rewrite anyLink_false in H3, H4. rewrite verifyPointers_spec in H5 by apply NoDup_links.
      rewrite (Hall n N Successors) in H1 by done. rewrite (Hall n N Predecessors) in H2 by done.
      split_and!; [done|done| | |done]; intros t Ht; [apply H3 in Ht|apply H4 in Ht]; cbn in Ht;
        by apply bool_decide_eq_false in Ht.
    + intros Hv n [N HN]. destruct (Hv n N HN) as (H1 & H2 & H3 & H4 & H5).
      rewrite (deref_ok _ _ _ HN), bind_ok, (proj2 (Hall n N Successors _ HN)), bind_ok by done. cbn [negb].
      rewrite (proj2 (Hall n N Predecessors _ HN)), bind_ok by done. cbn [negb]. f_equal.
      rewrite !andb_true_iff, !negb_true_iff, !anyLink_false, verifyPointers_spec by apply NoDup_links.
      split_and!; [| |done]; intros [m t] Hm; apply bool_decide_eq_false; cbn; intros ->; [by apply H3 in Hm|by apply H4 in Hm].
  - split.
    + intros Hv. split_and!.
      * intros d D s t HD. split; [intros Hs; by apply (Hv d D HD) in Hs|].
        intros (N & HN & Hd). destruct (Hv s N HN) as (_ & H2 & _). destruct (H2 d t Hd) as (D' & HD' & ?). congruence.
      * intros s t d (N & HN & Hd). destruct (Hv s N HN) as (_ & H2 & _ & H4 & _).
        destruct (H2 d t Hd) as (D' & HD' & _). split; [by eexists|]. intros ->. by apply H4 in Hd.
      * intros n N HN. by apply (Hv n N HN).
    + intros (H1 & H2 & H3) n N HN. split_and!.
      * intros m t Hm. by apply (H1 n N m t HN).
      * intros m t Hm. destruct (H2 n t m) as [[M HM] _]; [by eexists|]. exists M. split; [done|].
        apply (H1 m M); [done|]. by eexists.
      * intros t Ht. apply (H1 n N n t HN) in Ht. by apply H2 in Ht as [_ ?].
      * intros t Ht. assert (hasEdge TS n t n) as Hx by by eexists. by apply H2 in Hx as [_ ?].
      * by apply (H3 n).
Qed.

Lemma graph_wf_verified TS :
  verifyConsistency TS = Ok true → (∀ n, live TS n → (n < NID TS)%N) → (∀ s t d, hasEdge TS s t d → t ∈ LinkTags TS) →
  graph_wf TS.
Proof.
  intros Hv Hb Ht. apply verifyConsistency_spec in Hv as (H1 & H2 & _); [|done]. split; [done| | |done|done].
  - intros s t d He. by apply H2 in He as [? _].
  - intros s t He. by apply H2 in He as [_ ?].
Qed.


Lemma empty_wf : wf (emptyTypeSystem (E := E)).
Proof.
  split; split; cbn; try (intros *; rewrite lookup_empty; done); try done.
  - intros s t d (N & HN & _). cbn in HN. by rewrite lookup_empty in HN.
  - intros s t (N & HN & _). cbn in HN. by rewrite lookup_empty in HN.
  - intros s t d (N & HN & _). cbn in HN. by rewrite lookup_empty in HN.
  - intros n [N HN]. cbn in HN. by rewrite lookup_empty in HN.
  - apply classes_empty.
  - apply size_ec_empty.
  - intros i Hi. lia.
  - intros n m [N HN]. cbn in HN. by rewrite lookup_empty in HN.
  - intros n [N HN]. cbn in HN. by rewrite lookup_empty in HN.
Qed.

(** C4: layouts follow the values. In a type system, which starts empty, every ID that was
    given out belongs to the class of exactly one node, or was removed: creating a node
    gives it a new ID, and removing one removes its links and its values. Distinct nodes
    can be merged into the first of them when it is the largest and all those whose size
    is fixed ([NonScalar]) have its size: their links and their values move to it, without
    links between them. If a node with a fixed size is smaller than the first, an
    assertion fails. The invariant is preserved by what succeeds. *)
Theorem layouts_follow_merges TS :
  wf TS →
  wf (emptyTypeSystem (E := E)) ∧
  (∀ i, (i < NID TS)%N → removed (EqClasses TS) i ∧ (∀ n, ¬ layoutOf TS i n) ∨
    ¬ removed (EqClasses TS) i ∧ ∃ n, layoutOf TS i n ∧ ∀ m, layoutOf TS i m → m = n) ∧
  (∃ TS', createArtificialLayoutType TS = Ok (NID TS, TS') ∧ wf TS' ∧ NID TS' = (NID TS + 1)%N ∧
    Layouts TS' = <[NID TS := mkNode ∅ ∅ 0 Unknown false]> (Layouts TS) ∧
    ∀ i m, (i < NID TS + 1)%N → layoutOf TS' i m ↔ layoutOf TS i m ∧ (i < NID TS)%N ∨ i = NID TS ∧ m = NID TS) ∧
  (∀ Into Rest, NoDup (Into :: Rest) → mergeable TS Into Rest →
    ∃ TS', mergeNodes (Into :: Rest) TS = Ok TS' ∧ wf TS' ∧ mergedAll Into Rest TS TS') ∧
  (∀ Into Rest n N I, NoDup (Into :: Rest) → largest TS Into Rest → Layouts TS !! Into = Some I →
    n ∈ Rest → Layouts TS !! n = Some N → NonScalar N = true → (Size N < Size I)%Z →
    mergeNodes (Into :: Rest) TS = Fault AssertionFailed) ∧
  (∀ n, live TS n → ∃ TS', removeNode n TS = Ok TS' ∧ wf TS' ∧ NID TS' = NID TS ∧
    (∀ m, live TS' m ↔ live TS m ∧ m ≠ n) ∧
    (∀ a u b, hasEdge TS' a u b ↔ hasEdge TS a u b ∧ a ≠ n ∧ b ≠ n) ∧
    ∀ i m, (i < NID TS)%N → layoutOf TS' i m ↔ layoutOf TS i m ∧ m ≠ n).
Proof.
  intros Hwf. split_and!.
  - apply empty_wf.
  - destruct Hwf as [_ Hc]. intros i Hi.
    assert (∀ n, layoutOf TS i n → ¬ removed (EqClasses TS) i) as Hnr.
    { intros n [Hn Hs] (r & Hr & Hsr). apply (wf_kept TS Hc n Hn). exists r. split; [done|]. unfold same in *. congruence. }
    destruct (wf_represented TS Hc i Hi) as [Hr|(n & Hn & Hs)].
    + left. split; [done|]. intros n Hl. by apply (Hnr n Hl).
    + right. split; [by apply (Hnr n)|]. exists n. split; [done|]. intros m [Hm Hsm].
      apply (wf_unique TS Hc); [done|done|]. unfold same in *. congruence.
  - destruct (createArtificialLayoutType_ok TS Hwf) as (TS' & ? & ? & ? & _ & ? & _ & ?). by exists TS'.
  - intros. by apply mergeNodes_ok.
  - intros. by eapply mergeNodes_fixed.
  - intros n Hn. destruct (removeNode_ok TS n Hwf Hn) as (TS' & ? & ? & ? & _ & ? & _ & ? & ?). by exists TS'.
Qed.
End theorems.

(** ** Sizes *)

Section sizes.
  Context {E : Type} `{LLVMIntEqClasses E}.
  Implicit Types TS : LayoutTypeSystem E.

(** Changes of the nodes that leave their links as they are. *)
Lemma attribute_edit f TS n :
  (∀ N, Successors (f N) = Successors N ∧ Predecessors (f N) = Predecessors N) →
  wf TS → live TS n →
  modify f n TS = Ok (withLayouts (alter f n) TS) ∧ wf (withLayouts (alter f n) TS) ∧
  (∀ a u b, hasEdge (withLayouts (alter f n) TS) a u b ↔ hasEdge TS a u b).
Proof.
  intros Hf [Hwf Hc] Hn. rewrite modify_alter by done. split; [done|]. set (TS' := withLayouts _ TS).
  assert (∀ a u b, hasEdge TS' a u b ↔ hasEdge TS a u b) as He.
  { intros a u b. unfold hasEdge. cbn. destruct (decide (n = a)) as [<-|]; [|by rewrite lookup_alter_ne].
    rewrite lookup_alter_eq. destruct Hn as [N ->]. cbn. setoid_rewrite (inj_iff Some).
    split; intros (? & <- & Hb); eexists; (split; [reflexivity|]); by rewrite ?(proj1 (Hf _)) in *. }
  assert (∀ m, live TS' m ↔ live TS m) as Hl by (intros; apply live_alter).
  split; [split|done].
  - split.
    + intros d D s t HD. rewrite He. cbn in HD. apply lookup_alter_Some in HD as [(-> & D0 & HD & ->)|[? HD]].
      * rewrite (proj2 (Hf _)). by apply wf_pred.
      * by apply wf_pred.
    + intros s t d Hx%He. rewrite Hl. by eapply wf_target.
    + intros s t Hx%He. by apply (wf_loop TS Hwf) in Hx.
    + intros s t d Hx%He. by eapply (wf_tags TS).
    + intros m Hm%Hl. by apply (wf_bound TS Hwf).
  - destruct Hc as [????? Hu Hk]. split; try done.
    + intros i Hi. setoid_rewrite Hl. auto.
    + intros a b. rewrite !Hl. apply Hu.
    + intros a. rewrite Hl. apply Hk.
Qed.

(** ** Building type systems *)

(** Nodes of some sizes, and links between them. *)
Fixpoint addNodes (sizes : list Z) TS : outcome (LayoutTypeSystem E) :=
  match sizes with
  | [] => Ok TS
  | s :: sizes => '(n, TS) ← createArtificialLayoutType TS; TS ← modify (withSize s) n TS; addNodes sizes TS
  end.

Definition build (sizes : list Z) (links : list (NodeID * TypeLinkTag * NodeID)) : outcome (LayoutTypeSystem E) :=
  TS ← addNodes sizes emptyTypeSystem;
  forEachM (λ '(s, t, d) TS, '(_, TS) ← addLink (Some s) (Some d) t TS; Ok TS) links TS.

Lemma addNodes_wf sizes TS TS' : wf TS → addNodes sizes TS = Ok TS' → wf TS'.
Proof.
  revert TS. induction sizes as [|s sizes IH]; intros TS Hwf Ha; [by injection Ha as <-|].
  destruct (createArtificialLayoutType_ok TS Hwf) as (TS1 & Hc & Hwf1 & _ & _ & HL & _).
  cbn [addNodes] in Ha. rewrite Hc, bind_ok in Ha.
  destruct (attribute_edit (withSize s) TS1 (NID TS)) as (Hm & Hwf2 & _); [done|done| |].
  { unfold live. rewrite HL, lookup_insert_eq. by eexists. }
  rewrite Hm, bind_ok in Ha. by apply IH in Ha.
Qed.

Lemma build_wf sizes links TS : build sizes links = Ok TS → wf TS.
Proof.
  intros Hb. apply bind_inv in Hb as (TS0 & H0 & Hb). apply addNodes_wf in H0; [|apply empty_wf].
  revert TS0 H0 Hb. induction links as [|[[s t] d] links IH]; intros TS0 H0 Hb; [by injection Hb as <-|].
  cbn [forEachM] in Hb. apply bind_inv in Hb as (TS1 & Ha & Hb). apply (IH TS1); [|done].
  apply bind_inv in Ha as ([[r n] TS2] & Ha & [= <-]).
  destruct (decide (s = d)) as [->|Hne]; [rewrite addLink_loop in Ha; by injection Ha as <- <- <-|].
  assert (live TS0 s ∧ live TS0 d) as [Hs Hd].
  { unfold addLink in Ha. rewrite bool_decide_eq_false_2 in Ha by done.
    apply assert_inv in Ha as [?%bool_decide_eq_true Ha]. by apply assert_inv in Ha as [?%bool_decide_eq_true Ha]. }
  destruct (addLink_ok TS0 s d t) as (b & TS3 & Ha2 & Hwf & Hu & _); [apply H0|done..|].
  rewrite Ha in Ha2. injection Ha2 as -> -> ->. split; [done|]. by eapply classes_unedited; [|apply H0].
Qed.
End sizes.

(** A structure of two integers of four bytes, a pointer to it, an equal layout. *)
Definition instanceAt (Off : Z) : TypeLinkTag := instanceTag (offsetOnly Off).

Definition exampleBuild : outcome (LayoutTypeSystem listClasses) :=
  build [8; 4; 4; 8; 8]%Z
    [(0, instanceAt 0, 1); (0, instanceAt 4, 2); (3, pointerTag, 0); (0, equalityTag, 4); (4, equalityTag, 0)]%N.

Definition orEmpty (TS : outcome (LayoutTypeSystem listClasses)) : LayoutTypeSystem listClasses :=
  match TS with Ok TS => TS | Fault _ => emptyTypeSystem end.

Definition exampleSystem : LayoutTypeSystem listClasses := orEmpty exampleBuild.

Lemma orEmpty_wf sizes links : wf (orEmpty (build sizes links)).
Proof. destruct (build sizes links) as [TS|] eqn:Hb; [by eapply build_wf|apply empty_wf]. Qed.

Lemma exampleSystem_wf : wf exampleSystem.
Proof. apply orEmpty_wf. Qed.

(** Whether there is a link. *)
Definition hasLink {E} (TS : LayoutTypeSystem E) (s : NodeID) (t : TypeLinkTag) (d : NodeID) : bool :=
  match Layouts TS !! s with Some N => bool_decide ((d, t) ∈ Successors N) | None => false end.

Lemma hasLink_spec {E} `{LLVMIntEqClasses E} (TS : LayoutTypeSystem E) s t d : hasLink TS s t d = true → hasEdge TS s t d.
Proof. unfold hasLink, hasEdge. destruct (Layouts TS !! s) as [N|]; [|done]. intros Hb%bool_decide_eq_true. by exists N. Qed.

Definition canMerge {E} (TS : LayoutTypeSystem E) (Into : NodeID) (Rest : list NodeID) : bool :=
  match Layouts TS !! Into with
  | Some L => forallb (λ n, match Layouts TS !! n with
      | Some N => (Size N <=? Size L)%Z && (negb (NonScalar N) || (Size N =? Size L)%Z)
      | None => false end) Rest
  | None => false
  end.

Lemma canMerge_spec {E} `{LLVMIntEqClasses E} (TS : LayoutTypeSystem E) Into Rest :
  canMerge TS Into Rest = true → mergeable TS Into Rest.
Proof.
  unfold canMerge, mergeable. destruct (Layouts TS !! Into) as [I|]; [|done]. intros Hall. exists I. split; [done|].
  intros n Hn. rewrite forallb_forall in Hall. specialize (Hall n (proj1 (list_elem_of_In _ _) Hn)).
  destruct (Layouts TS !! n) as [N|]; [|done]. apply andb_true_iff in Hall as [Hle%Z.leb_le Hns].
  exists N. split_and!; [done|done|]. intros HN. rewrite HN in Hns. by apply Z.eqb_eq in Hns.
Qed.


Lemma layouts_follow_merges_witness :
  wf exampleSystem ∧ mergeable exampleSystem 0 [4%N] ∧
  ∃ TS', mergeNodes [0; 4]%N exampleSystem = Ok TS' ∧ wf TS' ∧ mergedAll 0 [4%N] exampleSystem TS'.
Proof.
  assert (mergeable exampleSystem 0 [4%N]) as Hm by (apply canMerge_spec; vm_compute; reflexivity).
  split; [exact exampleSystem_wf|]. split; [exact Hm|].
  refine (proj1 (proj2 (proj2 (proj2 (layouts_follow_merges exampleSystem exampleSystem_wf)))) 0%N [4%N] _ Hm).
  apply NoDup_cons. split; [by intros Hx%list_elem_of_singleton|apply NoDup_singleton].
Defined.
