(* ===== verification/DLAGraphs.v ===== *)
(** * Walks over the graph of the data layout analysis

    Views of the graph of DLATypeSystem.v that keep some of its links
    (include/revng/ADT/FilteredGraphTraits.h), the checks that a view has no cycles
    (lib/DataLayoutAnalysis/DLATypeSystem.cpp), and the loop that most steps of the
    analysis have: the nodes that can be reached from the roots, in post order. *)

From stdpp Require Import gmap list sorting relations.
From S2P Require Import Prelude Reachability GraphAlgorithms DLATypeSystem DLATypeSystemProperties.

(** ** Definitions *)

Section cycles.
  Context {A : Type} `{Countable A} `{!LLVMGraphWalks A}.

(** The loop over the nodes of the four checks below, which differ in the view. *)
(* lib/DataLayoutAnalysis/DLATypeSystem.cpp:585-603 LayoutTypeSystem::verifyDAG *)
Fixpoint verifyView (g : gmap A (list A)) (Visited : gset A) (nodes : list A) : bool :=
  match nodes with
  | [] => true
  | n :: nodes =>
    if decide (n ∈ Visited) then verifyView g Visited nodes
    else if existsb (hasCycle g) (scc_iterator g n) then false
    else verifyView g (Visited ∪ list_to_set (concat (scc_iterator g n))) nodes
  end.

End cycles.

Section views.
  Context {E : Type} `{LLVMIntEqClasses E, !LLVMGraphWalks NodeID}.
  Implicit Types TS : LayoutTypeSystem E.
  Notation Link := (NodeID * TypeLinkTag)%type.

(** The links a view has out of a node, in their order. *)
(* include/revng/ADT/FilteredGraphTraits.h:206-215 EdgeFilteredGraphImpl::child_edge_begin *)
Definition childrenEdges (P : Link → bool) (N : LayoutTypeSystemNode) : list Link := filter (λ l, P l) (inOrder (Successors N)).

(** The graph of a view. *)
(* include/revng/ADT/FilteredGraphTraits.h:168-248 EdgeFilteredGraphImpl *)
Definition filteredGraph (P : Link → bool) TS : gmap NodeID (list NodeID) := (λ N, (childrenEdges P N).*1) <$> Layouts TS.

(* lib/DataLayoutAnalysis/DLATypeSystem.cpp:683-708 LayoutTypeSystem::verifyInstanceAtOffset0DAG *)
Definition verifyAcyclic (P : Link → bool) TS : outcome bool :=
  consistent ← verifyConsistency TS;
  if negb consistent then Ok false else Ok (verifyView (filteredGraph P TS) ∅ (layoutsRange TS)).

(* lib/DataLayoutAnalysis/DLATypeSystem.cpp:607-634 LayoutTypeSystem::verifyInstanceDAG *)
Definition verifyInstanceDAG TS : outcome bool := verifyAcyclic isInstanceEdge TS.

(* lib/DataLayoutAnalysis/DLATypeSystem.cpp:576-605 LayoutTypeSystem::verifyDAG *)
Definition verifyDAG TS : outcome bool :=
  consistent ← verifyConsistency TS;
  if negb consistent then Ok false else
  instances ← verifyInstanceDAG TS;
  if negb instances then Ok false else
  Ok (verifyView (filteredGraph isNotPointerEdge TS) ∅ (layoutsRange TS)).

(* lib/DataLayoutAnalysis/DLATypeSystem.cpp:636-665 LayoutTypeSystem::verifyPointerDAG *)
Definition verifyPointerDAG TS : outcome bool := verifyAcyclic isPointerEdge TS.

(* lib/DataLayoutAnalysis/DLATypeSystem.cpp:683-708 LayoutTypeSystem::verifyInstanceAtOffset0DAG *)
Definition verifyInstanceAtOffset0DAG TS : outcome bool := verifyAcyclic isInstanceOff0 TS.

(** The loop of most steps. [check] is what is asserted of every node, [root] says
    which ones are roots, [f] is done to the nodes of the view that are reached from
    them and have not been visited. LLVM's iterator follows the links while [f] edits the
    graph: [f] only moves links out of the node it is at, whose successors have been
    visited, so that what is visited is known when the walk starts. *)
(* lib/DataLayoutAnalysis/Middleend/DLAPruneLayoutNodesWithoutLayout.cpp:35-41 PruneLayoutNodesWithoutLayout::runOnTypeSystem *)
Definition visitRoot {T} (check root : LayoutTypeSystemNode → bool) (P : Link → bool) (system : T → LayoutTypeSystem E)
    (f : NodeID → T → outcome T) (Root : NodeID) (state : gset NodeID * T) : outcome (gset NodeID * T) :=
  let (Visited, s) := state in
  R ← deref (system s) Root;
  revng_assert (check R);;
  if root R then
    let walk := post_order_ext (filteredGraph P (system s)) Root Visited in
    s ← forEachM f walk s; Ok (Visited ∪ list_to_set walk, s)
  else Ok (Visited, s).

(* lib/DataLayoutAnalysis/Middleend/DLAPruneLayoutNodesWithoutLayout.cpp:32-64 PruneLayoutNodesWithoutLayout::runOnTypeSystem *)
Definition forEachRoot {T} (check root : LayoutTypeSystemNode → bool) (P : Link → bool) (system : T → LayoutTypeSystem E)
    (f : NodeID → T → outcome T) (nodes : list NodeID) (s : T) : outcome T :=
  snd <$> forEachM (visitRoot check root P system f) nodes (∅, s).

End views.

(** ** What the checks and the walks do *)

Section walks.
  Context {A : Type} `{Countable A} `{!LLVMGraphWalks A}.
  Implicit Types (g : gmap A (list A)) (V W : gset A).

Lemma verifyView_spec g nodes :
  (∀ a, a ∈ dom g → a ∈ nodes) → verifyView g ∅ nodes = true ↔ acyclic g.
Proof using All. apply isDAG_spec. Qed.

(** A walk in post order makes what it does to a node hold after its successors. *)
Lemma walk_visits {T} (f : A → T → outcome T) (J : gset A → T → Prop) g g' r V s :
  acyclic g → (∀ a b, edge g a b → b ∈ dom g) → closed g V →
  (∀ a, a ∉ V → a ∈ dom g → succs g' a = succs g a) → r ∉ V → r ∈ dom g →
  (∀ a W s, a ∉ W → a ∈ dom g → (∀ b, edge g a b → b ∈ W) → J W s →
    ∃ s', f a s = Ok s' ∧ J ({[a]} ∪ W) s') →
  J V s →
  ∃ s' V', forEachM f (post_order_ext g' r V) s = Ok s' ∧ V' = V ∪ list_to_set (post_order_ext g' r V) ∧
    J V' s' ∧ closed g V' ∧ r ∈ V' ∧ (∀ a, a ∈ V' → a ∈ V ∨ a ∈ dom g).
Proof.
  intros Hg Htgt HV Hsame Hr Hrd Hf HJ.
  assert (∀ a b, rtc (stepOutside g' V) a b → a ∉ V ∧ a ∈ dom g → (b ∉ V ∧ b ∈ dom g) ∧ rtc (edge g) a b) as Hpath.
  { induction 1 as [a|a b c [Hab Hb] _ IH]; [done|]. intros [Ha Had]. rewrite Hsame in Hab by done. fold (edge g a b) in Hab.
    destruct IH as [Hc Hbc]; [split; [done|by eapply Htgt]|]. split; [done|]. by eapply rtc_l. }
  assert (∀ a, a ∈ post_order_ext g' r V ↔ rtc (stepOutside g' V) r a) as Hin by (intros a; by apply po_elem).
  assert (∀ pre post s, post_order_ext g' r V = pre ++ post → J (V ∪ list_to_set pre) s →
    ∃ s', forEachM f post s = Ok s' ∧ J (V ∪ list_to_set (pre ++ post)) s') as Hloop.
  { intros pre post. revert pre. induction post as [|a post IH]; intros pre s1 Heq HJ1.
    { exists s1. by rewrite app_nil_r. }
    assert (a ∈ post_order_ext g' r V) as Ha by (rewrite Heq, elem_of_app; right; by left).
    apply Hin in Ha as Hra. destruct (Hpath _ _ Hra (conj Hr Hrd)) as [[HaV Had] Hga].
    destruct (Hf a (V ∪ list_to_set pre) s1) as (s2 & Hs2 & HJ2); [|done| |done|].
    - intros [Ha'|Ha'%elem_of_list_to_set]%elem_of_union; [done|]. pose proof (po_NoDup g' r V) as Hnd. rewrite Heq in Hnd.
      apply NoDup_app in Hnd as (_ & Hnd & _). apply (Hnd a Ha'). by left.
    - intros b Hab. destruct (decide (b ∈ V)) as [Hb|Hb]; [by apply elem_of_union_l|].
      assert (stepOutside g' V a b) as Hst by (split; [by rewrite Hsame|done]).
      destruct (po_order g' r V pre a post b Heq Hst) as [Hp|Hba]; [by apply elem_of_union_r, elem_of_list_to_set|].
      exfalso. apply (Hg a). eapply tc_rtc_r; [by apply tc_once|]. apply Hpath; [done|]. split; [done|by eapply Htgt].
    - destruct (IH (pre ++ [a]) s2) as (s3 & Hs3 & HJ3).
      + by rewrite <- app_assoc.
      + replace (V ∪ list_to_set (pre ++ [a])) with ({[a]} ∪ (V ∪ list_to_set pre)) by set_solver. done.
      + exists s3. cbn [forEachM]. rewrite Hs2, bind_ok. rewrite <- app_assoc in HJ3. done. }
  destruct (Hloop [] (post_order_ext g' r V) s eq_refl) as (s' & Hs' & HJ'); [by rewrite list_to_set_nil, union_empty_r_L|].
  exists s', (V ∪ list_to_set (post_order_ext g' r V)). split_and!; [done|done|done| | |].
  - intros a b Ha Hab. destruct (decide (b ∈ V)) as [Hb|Hb]; [by apply elem_of_union_l|].
    apply elem_of_union in Ha as [Ha|Ha%elem_of_list_to_set]; [apply elem_of_union_l; by eapply HV|].
    apply elem_of_union_r, elem_of_list_to_set, Hin. apply Hin in Ha. eapply rtc_r; [exact Ha|].
    destruct (Hpath _ _ Ha (conj Hr Hrd)) as [[? ?] ?]. split; [by rewrite Hsame|done].
  - apply elem_of_union_r, elem_of_list_to_set, Hin. done.
  - intros a [Ha|Ha%elem_of_list_to_set%Hin]%elem_of_union; [by left|]. right.
    by apply (Hpath _ _ Ha (conj Hr Hrd)).
Qed.
End walks.

Section steps.
  Context {E : Type} `{LLVMIntEqClasses E, !LLVMGraphWalks NodeID}.
  Implicit Types TS : LayoutTypeSystem E.
  Notation Link := (NodeID * TypeLinkTag)%type.

Lemma elem_of_childrenEdges P N l : l ∈ childrenEdges P N ↔ l ∈ Successors N ∧ P l = true.
Proof. unfold childrenEdges. rewrite list_elem_of_filter, elem_of_links. destruct (P l); naive_solver. Qed.

Lemma view_dom P TS n : n ∈ dom (filteredGraph P TS) ↔ live TS n.
Proof. unfold filteredGraph. by rewrite dom_fmap, elem_of_dom. Qed.

Lemma view_succs P TS n N : Layouts TS !! n = Some N → succs (filteredGraph P TS) n = (childrenEdges P N).*1.
Proof. intros HN. unfold succs, filteredGraph. by rewrite lookup_fmap, HN. Qed.

Lemma view_edge P TS a b : edge (filteredGraph P TS) a b ↔ ∃ t, hasEdge TS a t b ∧ P (b, t) = true.
Proof.
  unfold edge, hasEdge. destruct (Layouts TS !! a) as [N|] eqn:HN.
  - rewrite (view_succs _ _ _ _ HN), list_elem_of_fmap. split.
    + intros ([c t] & -> & [Hl HP]%elem_of_childrenEdges). exists t. split; [|done]. by exists N.
    + intros (t & (N' & [= <-] & Hl) & HP). exists (b, t). split; [done|]. by apply elem_of_childrenEdges.
  - unfold succs, filteredGraph. rewrite lookup_fmap, HN. cbn. split; [by intros ?%elem_of_nil|]. by intros (t & (N & ? & _) & _).
Qed.

Lemma view_target P TS a b : graph_wf TS → edge (filteredGraph P TS) a b → b ∈ dom (filteredGraph P TS).
Proof. intros Hwf (t & He & _)%view_edge. apply view_dom. by eapply wf_target. Qed.

Lemma verifyAcyclic_spec P TS :
  (∀ m, live TS m → (m < NID TS)%N) →
  verifyAcyclic P TS = Ok true ↔ verifyConsistency TS = Ok true ∧ acyclic (filteredGraph P TS).
Proof.
  intros Hb. unfold verifyAcyclic. destruct (verifyConsistency TS) as [[|]|]; cbn; [|split; [done|by intros [? _]]..].
  rewrite <- verifyView_spec; [split; [by intros [= ->]|by intros [_ ->]]|]. intros a Ha%view_dom. by apply elem_of_layoutsRange.
Qed.

(** The nodes that are not roots have a predecessor. *)
Lemma root_spec (P : Link → bool) TS n N :
  graph_wf TS → (∀ a b t, P (a, t) = P (b, t)) → Layouts TS !! n = Some N →
  anyLink P (Predecessors N) = true → ∃ m, edge (filteredGraph P TS) m n.
Proof.
  intros Hwf HP HN ([m t] & Hm & Ht)%anyLink_true. exists m. apply view_edge. exists t.
  split; [by apply (wf_pred TS Hwf n N)|]. by rewrite (HP n m).
Qed.

Lemma forEachRoot_visits {T} (check root : LayoutTypeSystemNode → bool) P (system : T → LayoutTypeSystem E)
    (f : NodeID → T → outcome T) (J : gset NodeID → T → Prop) s :
  let TS := system s in
  let g := filteredGraph P TS in
  graph_wf TS → acyclic g →
  (∀ n N, Layouts TS !! n = Some N → root N = false → ∃ m, edge g m n) →
  (∀ V s n N, J V s → Layouts TS !! n = Some N → ∃ N', Layouts (system s) !! n = Some N' ∧ check N' = true ∧
    (n ∉ V → (childrenEdges P N').*1 = (childrenEdges P N).*1 ∧ root N' = root N)) →
  (∀ n V s, live TS n → n ∉ V → (∀ m, edge g n m → m ∈ V) → J V s → ∃ s', f n s = Ok s' ∧ J ({[n]} ∪ V) s') →
  J ∅ s →
  ∃ s', forEachRoot check root P system f (layoutsRange TS) s = Ok s' ∧ J (dom g) s'.
Proof.
  intros TS g Hwf Hg Hroot Hkeep Hf HJ.
  assert (∀ n N V s, Layouts TS !! n = Some N → closed g V → V ⊆ dom g → J V s →
    ∃ V' s', visitRoot check root P system f n (V, s) = Ok (V', s') ∧
      J V' s' ∧ closed g V' ∧ V ⊆ V' ∧ V' ⊆ dom g ∧ (root N = true → n ∈ V')) as Hvisit.
  { intros n N V s1 HN HV Hd HJ1. destruct (Hkeep V s1 n N HJ1 HN) as (N' & HN' & Hc & Hsame).
    unfold visitRoot. rewrite (deref_ok _ _ _ HN'), bind_ok, assert_true by done.
    destruct (decide (n ∈ V)) as [HnV|HnV].
    { exists V, s1. cbv zeta. rewrite (po_visited _ _ _ HnV). cbn [forEachM]. rewrite bind_ok, list_to_set_nil, union_empty_r_L.
      split_and!; try done. by destruct (root N'). }
    destruct (Hsame HnV) as [_ ->]. destruct (root N) eqn:Hr; [|by exists V, s1; split_and!].
    destruct (walk_visits f J g (filteredGraph P (system s1)) n V s1) as (s2 & V2 & Hrun & -> & ? & ? & ? & Hd2); try done.
    - intros a b. by apply view_target.
    - intros a Ha [A HA]%view_dom. destruct (Hkeep V s1 a A HJ1 HA) as (A' & HA' & _ & Hs).
      rewrite (view_succs _ _ _ _ HA'). unfold g. rewrite (view_succs _ _ _ _ HA). by apply Hs.
    - apply view_dom. by eexists.
    - intros a W s2 Ha Had%view_dom. by apply Hf.
    - eexists _, s2. cbv zeta. rewrite Hrun, bind_ok. split_and!; [done|done|done|set_solver| |done].
      intros a Ha%Hd2. set_solver. }
  assert (∀ nodes V s, (∀ n, n ∈ nodes → live TS n) → closed g V → V ⊆ dom g → J V s →
    ∃ V' s', forEachM (visitRoot check root P system f) nodes (V, s) = Ok (V', s') ∧
      J V' s' ∧ closed g V' ∧ V ⊆ V' ∧ V' ⊆ dom g ∧
      (∀ n N, n ∈ nodes → Layouts TS !! n = Some N → root N = true → n ∈ V')) as Hloop.
  { intros nodes. induction nodes as [|n nodes IH]; intros V s1 Hn HV Hd HJ1.
    { exists V, s1. split_and!; try done. intros n N Hn'. by apply elem_of_nil in Hn'. }
    destruct (Hn n) as [N HN]; [by left|]. destruct (Hvisit n N V s1) as (V2 & s2 & Hrun & ? & ? & HV2 & ? & Hin2); try done.
    cbn [forEachM]. rewrite Hrun, bind_ok. destruct (IH V2 s2) as (V3 & s3 & Hrun3 & ? & ? & HV3 & ? & Hin); try done.
    { intros m Hm. apply Hn. by right. }
    exists V3, s3. split_and!; try done; [by etrans|]. intros m M [->|Hm]%elem_of_cons HM HR; [|by eapply Hin].
    rewrite HN in HM. injection HM as <-. auto. }
  assert (∀ n, n ∈ layoutsRange TS ↔ live TS n) as Hrange by (intros n; apply elem_of_layoutsRange, (wf_bound _ Hwf)).
  destruct (Hloop (layoutsRange TS) ∅ s) as (V' & s' & Hrun & HJ' & HV' & _ & Hd' & Hin).
  { intros n. by apply Hrange. } { intros a b Ha. by apply elem_of_empty in Ha. } { set_solver. } { done. }
  exists s'. unfold forEachRoot. split; [by rewrite Hrun|].
  replace (dom g) with V'; [done|]. apply set_eq. intros n. split; [apply Hd'|].
  apply (roots_reach_all g V' (λ n, ∃ N, Layouts TS !! n = Some N ∧ root N = true)); try done.
  - intros a [A HA]%view_dom Ha. apply (Hroot a A HA). apply not_true_iff_false. intros HR. apply Ha. by exists A.
  - intros a (A & HA & HR) _. eapply Hin; [|done|done]. apply Hrange. by eexists.
Qed.
(** A view with fewer links. *)
Lemma acyclic_sub (P Q : Link → bool) TS :
  (∀ l, P l = true → Q l = true) → acyclic (filteredGraph Q TS) → acyclic (filteredGraph P TS).
Proof.
  intros HPQ HQ n Hn. apply (HQ n). revert Hn. generalize n at 1 3. intros m Hn.
  induction Hn as [a b Hab|a b c Hab _ IH]; [apply tc_once|eapply tc_l; [|exact IH]];
    apply view_edge; apply view_edge in Hab as (t & He & Ht); exists t; auto.
Qed.

Lemma instance_not_pointer (l : Link) : isInstanceEdge l = true → isNotPointerEdge l = true.
Proof.
  intros Hi. unfold isNotPointerEdge. apply negb_true_iff, not_true_iff_false. intros Hp%pointer_not_instance. congruence.
Qed.

(** C27: The checks of cycles: each of the four succeeds exactly on the type systems that are consistent (the two ends of a link agree, no node is linked to itself, and pointers are only that) and have no cycle of links of the kinds it is about. *)
Theorem cycle_checks_exact TS :
  (∀ n, live TS n → (n < NID TS)%N) →
  (verifyDAG TS = Ok true ↔ consistent TS ∧ ∀ n, ¬ tc (λ a b, ∃ t, hasEdge TS a t b ∧ getKind t ≠ LK_Pointer) n n) ∧
  (verifyInstanceDAG TS = Ok true ↔ consistent TS ∧ ∀ n, ¬ tc (λ a b, ∃ t, hasEdge TS a t b ∧ getKind t = LK_Instance) n n) ∧
  (verifyPointerDAG TS = Ok true ↔ consistent TS ∧ ∀ n, ¬ tc (λ a b, ∃ t, hasEdge TS a t b ∧ getKind t = LK_Pointer) n n) ∧
  (verifyInstanceAtOffset0DAG TS = Ok true ↔
    consistent TS ∧ ∀ n, ¬ tc (λ a b, ∃ t, hasEdge TS a t b ∧ getKind t = LK_Instance ∧ OE t = offsetOnly 0) n n).
Proof using All.
  intros Hb. pose proof (verifyConsistency_spec TS Hb) as Hcons.
  assert (∀ P (Q : TypeLinkTag → Prop), (∀ b t, P (b, t) = true ↔ Q t) →
    acyclic (filteredGraph P TS) ↔ ∀ n, ¬ tc (λ a b, ∃ t, hasEdge TS a t b ∧ Q t) n n) as Hview.
  { intros P Q HPQ. unfold acyclic. split; intros Hn n Htc; apply (Hn n);
      (revert Htc; apply (tc_congruence id)); intros a b Hab; [apply view_edge|apply view_edge in Hab];
      destruct Hab as (t & He & Ht); exists t; (split; [done|]); by apply (HPQ b). }
  assert (∀ P Q, (∀ b t, P (b, t) = true ↔ Q t) →
    verifyAcyclic P TS = Ok true ↔ consistent TS ∧ ∀ n, ¬ tc (λ a b, ∃ t, hasEdge TS a t b ∧ Q t) n n) as Hspec.
  { intros P Q HPQ. rewrite verifyAcyclic_spec, Hcons, (Hview P Q) by done. done. }
  split_and!; [|apply Hspec; intros b t..].
  - rewrite <- (Hview isNotPointerEdge (λ t, getKind t ≠ LK_Pointer)); [|intros b t].
    + unfold verifyDAG. rewrite <- Hcons. destruct (verifyConsistency TS) as [[|]|] eqn:Hc; cbn; [|split; [done|by intros [? _]]..].
      pose proof (verifyAcyclic_spec isInstanceEdge TS Hb) as Hi. unfold verifyInstanceDAG.
      rewrite <- (verifyView_spec _ (layoutsRange TS)); [|intros a Ha%view_dom; by apply elem_of_layoutsRange].
      assert (verifyView (filteredGraph isNotPointerEdge TS) ∅ (layoutsRange TS) = true → verifyAcyclic isInstanceEdge TS = Ok true) as Hsub.
      { intros Hv. apply Hi. split; [done|]. apply (acyclic_sub _ isNotPointerEdge); [apply instance_not_pointer|].
        rewrite verifyView_spec in Hv; [done|]. intros a Ha%view_dom. by apply elem_of_layoutsRange. }
      unfold verifyAcyclic in *. rewrite Hc in *. cbn in *. destruct (verifyView (filteredGraph isInstanceEdge TS) ∅ (layoutsRange TS)); cbn.
      * split; [by intros [= ->]|by intros [_ ->]].
      * split; [done|]. intros [_ Hv]. by apply Hsub in Hv.
    + unfold isNotPointerEdge, isPointerEdge, hasLinkKind. by rewrite negb_true_iff, bool_decide_eq_false.
  - unfold isInstanceEdge, hasLinkKind. by rewrite bool_decide_eq_true.
  - unfold isPointerEdge, hasLinkKind. by rewrite bool_decide_eq_true.
  - unfold isInstanceOff0, isInstanceEdge, hasLinkKind. rewrite !andb_true_iff, bool_decide_eq_true, Z.eqb_eq, !Nat.eqb_eq. cbn.
    destruct t as [k [o ss cs]]. cbn. unfold offsetOnly. split.
    + intros (((-> & ->) & ->%length_zero_iff_nil) & ->%length_zero_iff_nil). done.
    + by intros (-> & [= -> -> ->]).
Qed.

End steps.

Lemma cycle_checks_exact_witness :
  verifyDAG exampleSystem = Ok false ∧ verifyInstanceDAG exampleSystem = Ok true ∧
  ∀ n, ¬ tc (λ a b, ∃ t, hasEdge exampleSystem a t b ∧ getKind t = LK_Instance) n n.
Proof.
  split; [vm_compute; reflexivity|]. split; [vm_compute; reflexivity|].
  refine (proj2 (proj1 (proj1 (proj2 (cycle_checks_exact exampleSystem _))) _)).
  - apply (wf_bound _ (proj1 exampleSystem_wf)).
  - vm_compute. reflexivity.
Defined.
