(* ===== verification/DLASizes.v ===== *)
(** * Sizes of layouts

    The steps of the data layout analysis that are about sizes
    (lib/DataLayoutAnalysis/Middleend): the size of what a link reaches, the removal of
    the links that sizes make impossible and of the nodes that have no size, and the
    computation of the sizes. *)

From stdpp Require Import gmap list sorting relations.
From S2P Require Import Prelude Reachability DLATypeSystem DLATypeSystemProperties DLAGraphs.

(** ** Definitions *)

(** One element less than the array has, and its element: from the smaller strides to the
    larger. The assertion on the previous stride always holds, since the variable that
    should have it is never assigned. *)
(* lib/DataLayoutAnalysis/Middleend/FieldSizeComputation.cpp:31-54 getFieldSize *)
Fixpoint arraySize (ChildSize : Z) (l : list (Z * option Z)) : outcome Z :=
  match l with
  | [] => Ok ChildSize
  | (Stride, TripCount) :: l =>
    revng_assert (0 <? Stride);;
    revng_assert (0 <? default 1 TripCount);;
    let NumElems := default 1 TripCount in
    arraySize (wrap 64 ((NumElems - 1) * Stride + ChildSize)) l
  end%Z.

(* lib/DataLayoutAnalysis/Middleend/FieldSizeComputation.cpp:11-65 getFieldSize *)
Definition getFieldSize (ChildSize : Z) (EdgeTag : TypeLinkTag) : outcome Z :=
  revng_assert (0 <? ChildSize)%Z;;
  match getKind EdgeTag with
  | LK_Instance =>
    OE ← getOffsetExpr EdgeTag;
    revng_assert (length (Strides OE) =? length (TripCounts OE));;
    ChildSize ← arraySize ChildSize (rev (zip (Strides OE) (TripCounts OE)));
    revng_assert (negb (ChildSize =? 0)%Z);;
    Ok ChildSize
  | _ => revng_abort
  end.

(** The offset is compared with zero as a signed integer. *)
(* lib/DataLayoutAnalysis/Middleend/FieldSizeComputation.cpp:67-78 getFieldUpperMember *)
Definition getFieldUpperMember (ChildSize : Z) (EdgeTag : TypeLinkTag) : outcome Z :=
  ChildSize ← getFieldSize ChildSize EdgeTag;
  revng_assert (0 <? ChildSize)%Z;;
  ChildOffset ← (if bool_decide (getKind EdgeTag = LK_Instance)
                 then OE ← getOffsetExpr EdgeTag; Ok (if (Offset OE <? 2 ^ 63)%Z then Offset OE else 0%Z)
                 else Ok 0%Z);
  Ok (wrap 64 (ChildOffset + ChildSize)).

(* lib/DataLayoutAnalysis/Middleend/RemoveInvalidStrideEdges.cpp:34-49 hasValidStrides *)
Fixpoint validStrides (InnerSize : Z) (l : list (Z * option Z)) : outcome bool :=
  match l with
  | [] => Ok true
  | (Stride, TripCount) :: l =>
    revng_assert (0 <? Stride);;
    if Stride <? InnerSize then Ok false else
    let NumElems := default 1 TripCount in
    revng_assert (negb (NumElems =? 0));;
    validStrides (wrap 64 (wrap 64 (Stride * wrap 64 (NumElems - 1)) + InnerSize)) l
  end%Z.

Section steps.
  Context {E : Type} `{LLVMIntEqClasses E, !LLVMGraphWalks NodeID}.
  Implicit Types TS : LayoutTypeSystem E.
  Notation Link := (NodeID * TypeLinkTag)%type.

(** What a step gives: whether it has changed the type system, and the type system. *)
Notation state := (bool * LayoutTypeSystem E)%type.

(* lib/DataLayoutAnalysis/Middleend/RemoveInvalidStrideEdges.cpp:18-50 hasValidStrides *)
Definition hasValidStrides (TS : LayoutTypeSystem E) (Edge : Link) : outcome bool :=
  revng_assert (isInstanceEdge Edge);;
  SuccNode ← deref TS Edge.1;
  if (Size SuccNode =? 0)%Z then Ok false else
  OE ← getOffsetExpr Edge.2;
  revng_assert (length (TripCounts OE) =? length (Strides OE));;
  validStrides (Size SuccNode) (rev (zip (Strides OE) (TripCounts OE))).

(** The largest of the upper members of the children and of a size. *)
(* lib/DataLayoutAnalysis/Middleend/DLAComputeUpperMemberAccess.cpp:59-68 ComputeUpperMemberAccesses::runOnTypeSystem *)
Definition upperMember (n : NodeID) (FinalSize : Z) TS : outcome Z :=
  N ← deref TS n;
  forEachM (λ (L : Link) FinalSize,
    Child ← deref TS L.1;
    u ← getFieldUpperMember (Size Child) L.2;
    Ok (Z.max FinalSize u)) (childrenEdges isNotPointerEdge N) FinalSize.

(** *** Links that cannot be *)

(* lib/DataLayoutAnalysis/Middleend/RemoveInvalidPointers.cpp:10-38 RemoveInvalidPointers::runOnTypeSystem *)
Definition removePointers (PointerSize : Z) (PtrNode : NodeID) (s : state) : outcome state :=
  N ← deref s.2 PtrNode;
  if (Size N =? PointerSize)%Z then Ok s else
  forEachM (λ (It : Link) s,
    if isPointerEdge It then TS ← eraseEdge PtrNode It s.2; Ok (true, TS) else Ok s) (inOrder (Successors N)) s.

(* lib/DataLayoutAnalysis/Middleend/RemoveInvalidPointers.cpp:7-42 RemoveInvalidPointers::runOnTypeSystem *)
Definition RemoveInvalidPointers (PointerSize : Z) TS : outcome state :=
  forEachM (removePointers PointerSize) (layoutsRange TS) (false, TS).

(** The removal of the invalid links out of a node, and whether there was one. *)
(* lib/DataLayoutAnalysis/Middleend/RemoveInvalidStrideEdges.cpp:75-98 RemoveInvalidStrideEdges::runOnTypeSystem *)
Definition removeStrides (n : NodeID) TS : outcome state :=
  N ← deref TS n;
  forEachM (λ (It : Link) s,
    if negb (isInstanceEdge It) then Ok s else
    valid ← hasValidStrides s.2 It;
    if (valid : bool) then Ok s else TS ← eraseEdge n It s.2; Ok (true, TS)) (inOrder (Successors N)) (false, TS).

(* lib/DataLayoutAnalysis/Middleend/RemoveInvalidStrideEdges.cpp:75-124 RemoveInvalidStrideEdges::runOnTypeSystem *)
Definition fixStrides (n : NodeID) (s : state) : outcome state :=
  '(RemovedChild, TS) ← removeStrides n s.2;
  if (RemovedChild : bool) then
    NewSize ← upperMember n 0 TS;
    TS ← modify (withSize NewSize) n TS;
    Ok (true, TS)
  else Ok (s.1, TS).

(* lib/DataLayoutAnalysis/Middleend/RemoveInvalidStrideEdges.cpp:52-132 RemoveInvalidStrideEdges::runOnTypeSystem *)
Definition RemoveInvalidStrideEdges TS : outcome state :=
  forEachRoot (λ _, true) (isRoot LK_Instance) isInstanceEdge snd fixStrides (layoutsRange TS) (false, TS).

(** *** Nodes without a size *)

(* lib/DataLayoutAnalysis/Middleend/DLAPruneLayoutNodesWithoutLayout.cpp:45-62 PruneLayoutNodesWithoutLayout::runOnTypeSystem *)
Definition queueForRemoval TS (n : NodeID) (ToRemove : gset NodeID) : outcome (gset NodeID) :=
  N ← deref TS n;
  if (0 <? Size N)%Z then Ok ToRemove else
  if existsb (λ L : Link, bool_decide (L.1 ∉ ToRemove)) (childrenEdges isNotPointerEdge N) then Ok ToRemove
  else Ok ({[n]} ∪ ToRemove).

(** The nodes to be removed are removed in some order. *)
(* lib/DataLayoutAnalysis/Middleend/DLAPruneLayoutNodesWithoutLayout.cpp:26-77 PruneLayoutNodesWithoutLayout::runOnTypeSystem *)
Definition PruneLayoutNodesWithoutLayout TS : outcome state :=
  ToRemove ← forEachRoot (λ _, true) (isRoot LK_All) isNotPointerEdge (λ _, TS) (queueForRemoval TS) (layoutsRange TS) ∅;
  TS ← forEachM removeNode (elements ToRemove) TS;
  Ok (bool_decide (ToRemove ≠ ∅), TS).

(** *** Sizes *)

(* lib/DataLayoutAnalysis/Middleend/DLAComputeUpperMemberAccess.cpp:55-74 ComputeUpperMemberAccesses::runOnTypeSystem *)
Definition computeUpperMember (n : NodeID) (s : state) : outcome state :=
  N ← deref s.2 n;
  revng_assert (negb (isLeaf LK_All N) || negb (Size N =? 0)%Z);;
  FinalSize ← upperMember n (Size N) s.2;
  TS ← modify (withSize FinalSize) n s.2;
  revng_assert (negb (FinalSize =? 0)%Z);;
  Ok (s.1 || negb (FinalSize =? Size N)%Z, TS).

(* lib/DataLayoutAnalysis/Middleend/DLAComputeUpperMemberAccess.cpp:33-79 ComputeUpperMemberAccesses::runOnTypeSystem *)
Definition ComputeUpperMemberAccesses TS : outcome state :=
  forEachRoot (λ R, negb (isLeaf LK_All R) || negb (Size R =? 0)%Z) (isRoot LK_All) isNotPointerEdge snd
    computeUpperMember (layoutsRange TS) (false, TS).

End steps.

(** ** Exact sizes *)

(** What the links are assumed to be: an array has a number of elements, and a stride,
    for each of its dimensions. *)
Record instance_ok (t : TypeLinkTag) : Prop := {
  ok_kind : getKind t = LK_Instance;
  ok_lengths : length (Strides (OE t)) = length (TripCounts (OE t));
  ok_counts s c : (s, c) ∈ zip (Strides (OE t)) (TripCounts (OE t)) → (0 < s ∧ 0 < default 1 c)%Z;
  ok_offset : (0 ≤ Offset (OE t) < 2 ^ 63)%Z;
}.

(** The size of an array, by its dimensions from the inner one. *)
Fixpoint extent (s : Z) (l : list (Z * option Z)) : Z :=
  match l with [] => s | (Stride, TripCount) :: l => extent ((default 1 TripCount - 1) * Stride + s) l end%Z.

Definition dimensions (t : TypeLinkTag) : list (Z * option Z) := rev (zip (Strides (OE t)) (TripCounts (OE t))).

(** The end of the field of a link, for the size of its target. *)
Definition fieldEnd (s : Z) (t : TypeLinkTag) : Z := (Offset (OE t) + extent s (dimensions t))%Z.

Definition positive (l : list (Z * option Z)) : Prop := ∀ s c, (s, c) ∈ l → (0 < s ∧ 0 < default 1 c)%Z.

Lemma positive_cons s c l : positive ((s, c) :: l) → ((0 < s ∧ 0 < default 1 c) ∧ positive l)%Z.
Proof. intros Hp. split; [apply Hp; by left|]. intros s' c' Hin. apply Hp. by right. Qed.

Lemma instance_positive t : instance_ok t → positive (dimensions t).
Proof. intros Ht s c. unfold dimensions. rewrite list_elem_of_In, <- in_rev, <- list_elem_of_In. apply (ok_counts t Ht). Qed.

Lemma extent_ge s l : (0 < s)%Z → positive l → (s ≤ extent s l)%Z.
Proof.
  revert s. induction l as [|[Stride TC] l IH]; intros s Hs Hp; cbn [extent]; [lia|]. apply positive_cons in Hp as [Hp1 Hp].
  assert (0 ≤ (default 1 TC - 1) * Stride)%Z by (apply Z.mul_nonneg_nonneg; lia).
  specialize (IH ((default 1 TC - 1) * Stride + s)%Z ltac:(lia) Hp). lia.
Qed.

Lemma extent_mono s s' l : (s ≤ s')%Z → (extent s l ≤ extent s' l)%Z.
Proof. revert s s'. induction l as [|[Stride TC] l IH]; intros s s' Hs; cbn [extent]; [done|]. by apply IH, Z.add_le_mono_l. Qed.

Lemma fieldEnd_mono s s' t : (s ≤ s')%Z → (fieldEnd s t ≤ fieldEnd s' t)%Z.
Proof. intros Hs. unfold fieldEnd. pose proof (extent_mono s s' (dimensions t) Hs). lia. Qed.

Lemma fieldEnd_ge s t : instance_ok t → (0 < s)%Z → (s ≤ fieldEnd s t)%Z.
Proof.
  intros Ht Hs. unfold fieldEnd. pose proof (extent_ge s (dimensions t) Hs (instance_positive t Ht)).
  pose proof (ok_offset t Ht). lia.
Qed.

Lemma arraySize_ok s l :
  (0 < s)%Z → positive l → (extent s l < 2 ^ 64)%Z → arraySize s l = Ok (extent s l).
Proof.
  revert s. induction l as [|[Stride TC] l IH]; intros s Hs Hp He; [done|]. cbn [arraySize extent] in *.
  apply positive_cons in Hp as [[H1 H2] Hp]. rewrite !assert_true by (apply Z.ltb_lt; done).
  assert (0 ≤ (default 1 TC - 1) * Stride)%Z by (apply Z.mul_nonneg_nonneg; lia).
  pose proof (extent_ge ((default 1 TC - 1) * Stride + s)%Z l ltac:(lia) Hp).
  rewrite wrap_small by (unfold in_width; lia). apply IH; [lia|done|done].
Qed.

Lemma getFieldSize_ok s t :
  instance_ok t → (0 < s)%Z → (fieldEnd s t < 2 ^ 64)%Z → getFieldSize s t = Ok (extent s (dimensions t)).
Proof.
  intros Ht Hs Hb. pose proof (ok_offset t Ht) as Ho. unfold fieldEnd in Hb. unfold getFieldSize.
  rewrite assert_true by (by apply Z.ltb_lt). rewrite (ok_kind t Ht). unfold getOffsetExpr.
  rewrite bool_decide_eq_true_2, assert_true, bind_ok by (done || apply ok_kind, Ht).
  rewrite assert_true by (apply Nat.eqb_eq, ok_lengths, Ht). fold (dimensions t).
  pose proof (extent_ge s (dimensions t) Hs (instance_positive t Ht)).
  rewrite arraySize_ok, bind_ok; [|done|by apply instance_positive|lia].
  rewrite assert_true; [done|]. apply negb_true_iff, Z.eqb_neq. lia.
Qed.

Lemma getFieldUpperMember_ok s t :
  instance_ok t → (0 < s)%Z → (fieldEnd s t < 2 ^ 64)%Z → getFieldUpperMember s t = Ok (fieldEnd s t).
Proof.
  intros Ht Hs Hb. unfold getFieldUpperMember. rewrite getFieldSize_ok, bind_ok by done.
  pose proof (extent_ge s (dimensions t) Hs (instance_positive t Ht)). pose proof (ok_offset t Ht) as Ho.
  rewrite assert_true by (apply Z.ltb_lt; lia). rewrite bool_decide_eq_true_2 by apply ok_kind, Ht.
  unfold getOffsetExpr. rewrite bool_decide_eq_true_2 by apply ok_kind, Ht. cbn [revng_assert mbind outcome_bind].
  rewrite (proj2 (Z.ltb_lt _ _)) by lia. f_equal. unfold fieldEnd in *. apply wrap_small. unfold in_width. lia.
Qed.

(** A least upper bound. *)
Definition isLargest (F : Z) (X : Z → Prop) (v : Z) : Prop :=
  (F ≤ v ∧ (∀ x, X x → x ≤ v) ∧ ∀ z, F ≤ z → (∀ x, X x → x ≤ z) → v ≤ z)%Z.

Lemma isLargest_iff F X Y v : (∀ x, X x ↔ Y x) → isLargest F X v → isLargest F Y v.
Proof. unfold isLargest. intros HXY (? & ? & ?). split_and!; [done|naive_solver|]. naive_solver. Qed.

Lemma isLargest_unique F X v w : isLargest F X v → isLargest F X w → v = w.
Proof. intros (H1 & H2 & H3) (H4 & H5 & H6). pose proof (H3 w H4 H5). pose proof (H6 v H1 H2). lia. Qed.

Lemma isLargest_cons F (X Y : Z → Prop) v x :
  isLargest (Z.max F x) X v → (∀ y, Y y ↔ y = x ∨ X y) → isLargest F Y v.
Proof.
  intros (H1 & H2 & H3) HY. split_and!; [lia| |].
  - intros y [->|Hy]%HY; [lia|by apply H2].
  - intros z HF Hz. apply H3; [|intros y Hy; apply Hz, HY; by right]. assert (x ≤ z)%Z by (apply Hz, HY; by left). lia.
Qed.

Section sizes.
  Context {E : Type} `{LLVMIntEqClasses E, !LLVMGraphWalks NodeID}.
  Implicit Types TS : LayoutTypeSystem E.
  Notation Link := (NodeID * TypeLinkTag)%type.

(** Where the fields of a node end. *)
Definition fields TS (size : NodeID → Z) (n : NodeID) (x : Z) : Prop :=
  ∃ t d, hasEdge TS n t d ∧ getKind t ≠ LK_Pointer ∧ x = fieldEnd (size d) t.

(** The sizes that are the smallest for which a node has its own accesses and its fields. *)
Definition exactSizes TS (size : NodeID → Z) : Prop :=
  ∀ n N, Layouts TS !! n = Some N → isLargest (Size N) (fields TS size n) (size n).

Lemma not_pointer (l : Link) : isNotPointerEdge l = true ↔ getKind l.2 ≠ LK_Pointer.
Proof. unfold isNotPointerEdge, isPointerEdge, hasLinkKind. by rewrite negb_true_iff, bool_decide_eq_false. Qed.

Lemma fields_children TS size n N x :
  Layouts TS !! n = Some N →
  fields TS size n x ↔ ∃ l, l ∈ childrenEdges isNotPointerEdge N ∧ x = fieldEnd (size l.1) l.2.
Proof.
  intros HN. unfold fields. split.
  - intros (t & d & He & Ht & ->). exists (d, t). split; [|done]. apply elem_of_childrenEdges.
    split; [by apply (edge_iff TS n)|]. by apply not_pointer.
  - intros ([d t] & [Hl Hp%not_pointer]%elem_of_childrenEdges & ->). exists t, d. split; [by eexists|done].
Qed.

(** The fields of a node whose targets have sizes that fit. *)
Definition fieldsFit TS (size : NodeID → Z) (n : NodeID) : Prop :=
  ∀ t d, hasEdge TS n t d → getKind t ≠ LK_Pointer →
    instance_ok t ∧ (0 < size d)%Z ∧ (fieldEnd (size d) t < 2 ^ 64)%Z ∧ ∃ D, Layouts TS !! d = Some D ∧ Size D = size d.

Lemma upperMember_ok TS size n F :
  live TS n → fieldsFit TS size n →
  ∃ v, upperMember n F TS = Ok v ∧ isLargest F (fields TS size n) v.
Proof.
  intros [N HN] Hfit. unfold upperMember. rewrite (deref_ok _ _ _ HN), bind_ok.
  enough (∃ v, forEachM (λ (L : Link) FinalSize,
      Child ← deref TS L.1; u ← getFieldUpperMember (Size Child) L.2; Ok (Z.max FinalSize u)) (childrenEdges isNotPointerEdge N) F = Ok v ∧
    isLargest F (λ x, ∃ l, l ∈ childrenEdges isNotPointerEdge N ∧ x = fieldEnd (size l.1) l.2) v) as (v & Hv & Hlub).
  { exists v. split; [done|]. eapply isLargest_iff; [|exact Hlub]. intros x. by rewrite (fields_children TS size n N). }
  assert (∀ l, l ∈ childrenEdges isNotPointerEdge N → instance_ok l.2 ∧ (0 < size l.1)%Z ∧ (fieldEnd (size l.1) l.2 < 2 ^ 64)%Z ∧
    ∃ D, Layouts TS !! l.1 = Some D ∧ Size D = size l.1) as Hall.
  { intros [d t] [Hl Hp%not_pointer]%elem_of_childrenEdges. apply Hfit; [by eexists|done]. }
  clear Hfit HN. revert F. induction (childrenEdges isNotPointerEdge N) as [|[d t] ls IH]; intros F.
  - exists F. split; [done|]. split_and!; [lia| |done]. intros x (l & Hl & _). by apply elem_of_nil in Hl.
  - destruct (Hall (d, t)) as (Ht & Hs & Hb & D & HD & HSD); [by left|]. cbn [forEachM fst snd] in *.
    rewrite (deref_ok _ _ _ HD), bind_ok, HSD, getFieldUpperMember_ok, !bind_ok by done.
    destruct (IH (λ l Hl, Hall l (list_elem_of_further _ _ _ Hl)) (Z.max F (fieldEnd (size d) t))) as (v & Hv & Hlub).
    exists v. split; [done|]. eapply isLargest_cons; [exact Hlub|]. intros y. split.
    + intros (l & [->|Hl]%elem_of_cons & ->); [by left|]. right. by exists l.
    + intros [->|(l & Hl & ->)]; [exists (d, t); split; [by left|done]|exists l; split; [by right|done]].
Qed.
Lemma anyLink_ext P Q s : (∀ l, P l = Q l) → anyLink P s = anyLink Q s.
Proof. intros HPQ. unfold anyLink. induction (inOrder s) as [|l ls IH]; cbn; [done|]. by rewrite HPQ, IH. Qed.

Lemma root_not_pointer TS n N :
  graph_wf TS → Layouts TS !! n = Some N → isRoot LK_All N = false → ∃ m, edge (filteredGraph isNotPointerEdge TS) m n.
Proof.
  intros Hwf HN Hr%negb_false_iff. eapply root_spec; [done|done|exact HN|]. rewrite <- Hr. apply anyLink_ext.
  intros l. unfold isNotPointerEdge, isPointerEdge, hasLinkKind, hasNonPointerLinkKind.
  by destruct (getKind l.2); repeat case_bool_decide.
Qed.

Lemma root_instance TS n N :
  graph_wf TS → Layouts TS !! n = Some N → isRoot LK_Instance N = false → ∃ m, edge (filteredGraph isInstanceEdge TS) m n.
Proof.
  intros Hwf HN Hr%negb_false_iff. eapply root_spec; [done|done|exact HN|]. by rewrite <- Hr.
Qed.

Notation dag TS := (acyclic (filteredGraph isNotPointerEdge TS)).

Lemma closed_step {A} `{Countable A} (g : gmap A (list A)) V n :
  closed g V → (∀ m, edge g n m → m ∈ V) → closed g ({[n]} ∪ V).
Proof.
  intros HV Hn a b [->%elem_of_singleton|Ha]%elem_of_union Hab; apply elem_of_union_r; [by apply Hn|by eapply HV].
Qed.

Lemma field_edge TS n t d :
  hasEdge TS n t d → getKind t ≠ LK_Pointer → edge (filteredGraph isNotPointerEdge TS) n d.
Proof. intros He Ht. apply view_edge. exists t. split; [done|]. by apply not_pointer. Qed.

(** The largest of the fields of a node, and of a size. *)
Definition largestField TS (size : NodeID → Z) (n : NodeID) : Z :=
  match Layouts TS !! n with
  | Some N => foldr (λ l : Link, Z.max (fieldEnd (size l.1) l.2)) (Size N) (childrenEdges isNotPointerEdge N)
  | None => 0
  end.

Lemma largestField_spec TS size n N :
  Layouts TS !! n = Some N → isLargest (Size N) (fields TS size n) (largestField TS size n).
Proof.
  intros HN. unfold largestField. rewrite HN.
  eapply isLargest_iff; [intros x; symmetry; by apply fields_children|].
  induction (childrenEdges isNotPointerEdge N) as [|l ls IH]; cbn [foldr].
  - split_and!; [lia| |done]. intros x (l & Hl & _). by apply elem_of_nil in Hl.
  - destruct IH as (H1 & H2 & H3). split_and!; [lia| |].
    + intros x (k & [->|Hk]%elem_of_cons & ->); [lia|]. etrans; [|apply Z.le_max_r]. apply H2. by exists k.
    + intros z HF Hz. apply Z.max_lub; [apply Hz; exists l; split; [by left|done]|]. apply H3; [done|].
      intros x (k & Hk & ->). apply Hz. exists k. split; [by right|done].
Qed.

Lemma isLargest_sizes TS size size' n N v :
  (∀ t d, hasEdge TS n t d → getKind t ≠ LK_Pointer → size' d = size d) →
  isLargest (Size N) (fields TS size n) v → isLargest (Size N) (fields TS size' n) v.
Proof.
  intros Hs. apply isLargest_iff. intros x. split; intros (t & d & He & Ht & ->); exists t, d; by rewrite (Hs t d).
Qed.

Lemma exactSizes_exist TS : graph_wf TS → dag TS → ∃ size, exactSizes TS size.
Proof using All.
  intros Hwf Hdag. set (g := filteredGraph isNotPointerEdge TS).
  destruct (forEachRoot_visits (λ _, true) (isRoot LK_All) isNotPointerEdge (λ _, TS) (λ _ _, Ok tt)
    (λ V _, closed g V ∧ ∃ size, ∀ n N, n ∈ V → Layouts TS !! n = Some N → isLargest (Size N) (fields TS size n) (size n)) tt)
    as ([] & _ & _ & size & Hsize); [done|done| | | | |].
  - intros n N. by apply root_not_pointer.
  - intros V s n N _ HN. by exists N.
  - intros n V s [N HN] Hn Hm (HV & size & Hsize). exists tt. split; [done|]. split; [by apply closed_step|].
    exists (λ m, if decide (m = n) then largestField TS size n else size m). intros m M Hm' HM.
    assert (m ∈ V ∨ m = n) as Hcase by set_solver. clear Hm'.
    assert (∀ t d, hasEdge TS m t d → getKind t ≠ LK_Pointer → d ≠ n) as Hd.
    { intros t d He Ht ->. apply (field_edge TS) in He; [|done]. fold g in He. destruct Hcase as [HmV| ->].
      - by apply Hn, (HV m).
      - by apply Hn, Hm. }
    apply (isLargest_sizes TS size); [intros t d He Ht; rewrite decide_False; [done|by eapply Hd]|].
    destruct (decide (m = n)) as [->|Hne]; [by apply largestField_spec|]. destruct Hcase as [HmV|]; [by apply Hsize|done].
  - split; [intros a b Ha; by apply elem_of_empty in Ha|]. exists (λ _, 0%Z). intros n N Hn. by apply elem_of_empty in Hn.
  - exists size. intros n N HN. apply Hsize; [|done]. apply view_dom. by eexists.
Qed.

Lemma exactSizes_unique TS size size' :
  graph_wf TS → dag TS → exactSizes TS size → exactSizes TS size' → ∀ n, live TS n → size' n = size n.
Proof.
  intros Hwf Hdag Hs Hs' n. set (g := filteredGraph isNotPointerEdge TS).
  assert (sn (edge g) n) as Hsn by (apply acyclic_sn; [done|]; intros a b; by apply view_target).
  induction Hsn as [n _ IH]. intros [N HN]. eapply isLargest_unique; [by apply Hs'|].
  eapply isLargest_sizes; [|by apply Hs]. intros t d He Ht.
  apply IH; [by eapply field_edge|]. by eapply (wf_target TS).
Qed.
(** The same type system with other sizes. *)
Record resized TS TS' (size : NodeID → Z) : Prop := {
  re_layouts n : Layouts TS' !! n = withSize (size n) <$> Layouts TS !! n;
  re_NID : NID TS' = NID TS;
  re_tags : LinkTags TS' = LinkTags TS;
  re_classes : EqClasses TS' = EqClasses TS;
}.

Lemma re_edge TS TS' size a t b : resized TS TS' size → hasEdge TS' a t b ↔ hasEdge TS a t b.
Proof.
  intros Hre. unfold hasEdge. rewrite (re_layouts _ _ _ Hre). destruct (Layouts TS !! a) as [N|]; cbn.
  - split; intros (M & [= <-] & HM); by eexists.
  - split; by intros (M & ? & _).
Qed.

Lemma re_live TS TS' size n : resized TS TS' size → live TS' n ↔ live TS n.
Proof. intros Hre. unfold live. by rewrite (re_layouts _ _ _ Hre), fmap_is_Some. Qed.

(** What is changed of the nodes that have been visited. *)
Definition sizeIn TS (V : gset NodeID) (size : NodeID → Z) (n : NodeID) : Z :=
  if decide (n ∈ V) then size n else match Layouts TS !! n with Some N => Size N | None => 0 end.

Lemma sized_at TS TS' V size n N :
  resized TS TS' (sizeIn TS V size) → Layouts TS !! n = Some N →
  ∃ N', Layouts TS' !! n = Some N' ∧ Successors N' = Successors N ∧ Predecessors N' = Predecessors N ∧
    Size N' = (if decide (n ∈ V) then size n else Size N).
Proof.
  intros Hre HN. exists (withSize (sizeIn TS V size n) N). split; [by rewrite (re_layouts _ _ _ Hre), HN|].
  split_and!; [done|done|]. unfold sizeIn. cbn. by rewrite HN.
Qed.

Lemma withSize_id N : withSize (Size N) N = N.
Proof. by destruct N. Qed.

Lemma resized_start TS size : resized TS TS (sizeIn TS ∅ size).
Proof.
  split; [|done..]. intros n. unfold sizeIn. rewrite decide_False by apply not_elem_of_empty.
  destruct (Layouts TS !! n) as [N|]; [|done]. cbn. by rewrite withSize_id.
Qed.

Lemma resized_visit TS TS' V size n :
  resized TS TS' (sizeIn TS V size) → live TS n → n ∉ V →
  ∃ TS2, modify (withSize (size n)) n TS' = Ok TS2 ∧ resized TS TS2 (sizeIn TS ({[n]} ∪ V) size).
Proof.
  intros Hre [N HN] Hn. destruct (sized_at TS TS' V size n N Hre HN) as (N' & HN' & _).
  exists (withLayouts <[n := withSize (size n) N']> TS'). split; [by apply modify_ok|]. destruct Hre as [HL ???]. split; [|done..].
  intros m. cbn. unfold sizeIn. destruct (decide (n = m)) as [<-|Hne].
  - rewrite lookup_insert_eq, decide_True by set_solver. rewrite HL, HN in HN'. cbn in HN'. injection HN' as <-. by rewrite HN.
  - rewrite lookup_insert_ne, HL by done. unfold sizeIn.
    destruct (decide (m ∈ V)); [rewrite decide_True by set_solver|rewrite decide_False by set_solver]; done.
Qed.

Lemma leaf_no_field TS size n N x : Layouts TS !! n = Some N → isLeaf LK_All N = true → ¬ fields TS size n x.
Proof.
  intros HN Hl (t & d & He & Ht & _). unfold isLeaf in Hl. apply negb_true_iff in Hl.
  pose proof (proj1 (anyLink_false _ _) Hl (d, t) (proj2 (edge_iff TS n N t d HN) He)) as Hx.
  cbn in Hx. by apply bool_decide_eq_false in Hx.
Qed.

Lemma leaf_exact TS size n N :
  exactSizes TS size → Layouts TS !! n = Some N → (0 < size n)%Z →
  negb (isLeaf LK_All N) || negb (Size N =? 0)%Z = true.
Proof.
  intros Hs HN Hpos. destruct (isLeaf LK_All N) eqn:Hl; [|done]. apply negb_true_iff, Z.eqb_neq. intros H0.
  destruct (Hs n N HN) as (H1 & _ & H3). assert (size n ≤ Size N)%Z; [|lia]. apply H3; [done|].
  intros x Hx. by apply (leaf_no_field TS size n N) in Hx.
Qed.

(** C5: The computation of the sizes of layouts. In an acyclic type system there is exactly one assignment of sizes such that every node is as large as its own accesses and as the end of each of its fields, arrays included, and not larger. When these sizes are positive and fit 64 bits the step succeeds, gives each node its exact size, changes nothing else, and says that it has changed something when some size is new. *)
Theorem sizes_exact TS :
  graph_wf TS → dag TS → (∀ s t d, hasEdge TS s t d → getKind t ≠ LK_Pointer → instance_ok t) →
  ∃ size, exactSizes TS size ∧
    (∀ size', exactSizes TS size' → ∀ n, live TS n → size' n = size n) ∧
    ((∀ n, live TS n → (0 < size n < 2 ^ 64)%Z) →
      ∃ c TS', ComputeUpperMemberAccesses TS = Ok (c, TS') ∧ resized TS TS' size ∧
        (c = true ↔ ∃ n N, Layouts TS !! n = Some N ∧ Size N ≠ size n)).
Proof using All.
  intros Hwf Hdag Hok. destruct (exactSizes_exist TS Hwf Hdag) as [size Hs]. exists size. split; [done|].
  split; [by intros size'; apply exactSizes_unique|]. intros Hfit. set (g := filteredGraph isNotPointerEdge TS).
  unfold ComputeUpperMemberAccesses.
  destruct (forEachRoot_visits (λ R, negb (isLeaf LK_All R) || negb (Size R =? 0)%Z) (isRoot LK_All) isNotPointerEdge snd
    (computeUpperMember (E := E))
    (λ V (s : bool * LayoutTypeSystem E), resized TS s.2 (sizeIn TS V size) ∧
      (s.1 = true ↔ ∃ n N, n ∈ V ∧ Layouts TS !! n = Some N ∧ Size N ≠ size n)) (false, TS))
    as ([c TS'] & Hrun & Hre & Hc); cbn [fst snd] in *; [done|done| | | | |].
  - intros n N. by apply root_not_pointer.
  - intros V [c TS'] n N [Hre _] HN. cbn [fst snd] in *. destruct (sized_at TS TS' V size n N Hre HN) as (N' & HN' & HS & HP & Hsz).
    exists N'. split; [done|]. unfold isLeaf, isRoot, childrenEdges. rewrite HS, HP, Hsz. split; [|done].
    case_decide; [|eapply leaf_exact; [done..|apply Hfit; by eexists]]. apply orb_true_iff. right.
    apply negb_true_iff, Z.eqb_neq. assert (0 < size n)%Z; [apply Hfit; by eexists|lia].
  - intros n V [c TS'] [N HN] Hn Hm [Hre Hc]. cbn [fst snd] in *.
    destruct (sized_at TS TS' V size n N Hre HN) as (N' & HN' & HS & _ & Hsz). rewrite decide_False in Hsz by done.
    unfold computeUpperMember. cbn [fst snd]. rewrite (deref_ok _ _ _ HN'), bind_ok.
    rewrite assert_true by (unfold isLeaf; rewrite HS, Hsz; eapply leaf_exact; [done..|apply Hfit; by eexists]).
    destruct (upperMember_ok TS' size n (Size N')) as (v & -> & Hv).
    + by eexists.
    + intros t d He Ht. rewrite (re_edge _ _ _ _ _ _ Hre) in He. destruct (wf_target TS Hwf _ _ _ He) as [D HD].
      destruct (sized_at TS TS' V size d D Hre HD) as (D' & HD' & _ & _ & HsD).
      rewrite decide_True in HsD by (by eapply Hm, field_edge).
      split; [by eapply Hok|]. split; [apply Hfit; by eexists|]. split; [|by exists D'].
      eapply Z.le_lt_trans; [|apply (Hfit n); by eexists]. apply (Hs n N HN). by exists t, d.
    + rewrite bind_ok. assert (v = size n) as ->.
      { eapply isLargest_unique; [|by apply Hs]. rewrite <- Hsz. eapply isLargest_iff; [|exact Hv]. intros x. unfold fields.
        by setoid_rewrite (re_edge _ _ _ _ _ _ Hre). }
      destruct (resized_visit TS TS' V size n Hre) as (TS2 & -> & Hre2); [by eexists|done|]. rewrite bind_ok.
      assert (0 < size n)%Z by (apply Hfit; by eexists).
      rewrite assert_true by (apply negb_true_iff, Z.eqb_neq; lia). eexists. split; [done|]. split; [done|]. cbn [fst].
      rewrite orb_true_iff, negb_true_iff, Z.eqb_neq, Hc, Hsz. split.
      * intros [(m & M & Hm' & HM & HMs)|Hne]; [exists m, M; split_and!; [set_solver|done..]|].
        exists n, N. split_and!; [set_solver|done|done].
      * intros (m & M & Hm' & HM & HMs). destruct (decide (m = n)) as [->|Hmn]; [right; naive_solver|].
        left. exists m, M. split_and!; [set_solver|done|done].
  - split; [apply resized_start|]. split; [done|]. intros (n & N & Hn & _). by apply elem_of_empty in Hn.
  - exists c, TS'. split; [done|]. assert (∀ n, live TS n → n ∈ dom g) as Hdom by (intros n; apply view_dom). split.
    + destruct Hre as [HL ???]. split; [|done..]. intros n. rewrite HL. unfold sizeIn.
      destruct (Layouts TS !! n) as [N|] eqn:HN; [|done]. cbn. rewrite decide_True; [done|]. apply Hdom. by eexists.
    + rewrite Hc. split; [intros (n & N & _ & ?); by exists n, N|]. intros (n & N & HN & ?). exists n, N.
      split_and!; [apply Hdom; by eexists|done|done].
Qed.
(** ** Nodes without a layout *)

(** A node has a layout when it, or something it contains, has a size. *)
Definition hasLayout TS (n : NodeID) : Prop :=
  ∃ m M, rtc (edge (filteredGraph isNotPointerEdge TS)) n m ∧ Layouts TS !! m = Some M ∧ (0 < Size M)%Z.

(** What is left when nodes are removed. *)
Record without (X : gset NodeID) TS TS' : Prop := {
  wo_wf : wf TS';
  wo_live n : live TS' n ↔ live TS n ∧ n ∉ X;
  wo_attributes n N N' : Layouts TS !! n = Some N → Layouts TS' !! n = Some N' →
    Size N' = Size N ∧ NonScalar N' = NonScalar N ∧ InterferingInfo N' = InterferingInfo N;
  wo_edges a t b : hasEdge TS' a t b ↔ hasEdge TS a t b ∧ a ∉ X ∧ b ∉ X;
  wo_layouts i n : (i < NID TS)%N → layoutOf TS' i n ↔ layoutOf TS i n ∧ n ∉ X;
  wo_NID : NID TS' = NID TS;
}.

Lemma removeNodes_ok TS ls :
  wf TS → NoDup ls → (∀ n, n ∈ ls → live TS n) →
  ∃ TS', forEachM removeNode ls TS = Ok TS' ∧ without (list_to_set ls) TS TS'.
Proof.
  revert TS. induction ls as [|n ls IH]; intros TS Hwf Hnd Hl.
  { exists TS. split; [done|]. cbn [list_to_set]. split; [done|set_solver|naive_solver|set_solver|set_solver|done]. }
  apply NoDup_cons in Hnd as [Hn Hnd]. destruct (removeNode_ok TS n Hwf) as (TS1 & H1 & Hwf1 & HN1 & _ & Hl1 & Ha1 & He1 & Ho1); [apply Hl; by left|].
  destruct (IH TS1 Hwf1 Hnd) as (TS2 & H2 & [Hwf2 Hl2 Ha2 He2 Ho2 HN2]).
  { intros m Hm. apply Hl1. split; [apply Hl; by right|]. by intros ->. }
  exists TS2. cbn [forEachM]. rewrite H1, bind_ok. split; [done|]. cbn [list_to_set]. split; [done| | | | |by rewrite HN2].
  - intros m. rewrite Hl2, Hl1. set_solver.
  - intros m M M2 HM HM2. assert (live TS1 m) as [M1 HM1] by (apply (Hl2 m); by eexists).
    destruct (Ha1 m M M1 HM HM1) as (? & ? & ?). destruct (Ha2 m M1 M2 HM1 HM2) as (? & ? & ?). split_and!; congruence.
  - intros a t b. rewrite He2, He1. set_solver.
  - intros j m Hj. rewrite Ho2, Ho1 by (rewrite ?HN1; done). set_solver.
Qed.

Lemma hasLayout_step TS n m : edge (filteredGraph isNotPointerEdge TS) n m → hasLayout TS m → hasLayout TS n.
Proof. intros Hnm (k & K & Hmk & HK & Hs). exists k, K. split; [by eapply rtc_l|done]. Qed.

Lemma hasLayout_inv TS n N :
  Layouts TS !! n = Some N → hasLayout TS n →
  (0 < Size N)%Z ∨ ∃ t m, hasEdge TS n t m ∧ getKind t ≠ LK_Pointer ∧ hasLayout TS m.
Proof.
  intros HN (k & K & Hnk & HK & Hs). apply rtc_inv in Hnk as [<-|(m & Hnm & Hmk)].
  - left. rewrite HN in HK. by injection HK as <-.
  - right. apply view_edge in Hnm as (t & He & Ht%not_pointer). exists t, m. split_and!; [done|done|]. by exists k, K.
Qed.

Lemma queueForRemoval_ok TS V n X :
  live TS n → n ∉ V → (∀ m, edge (filteredGraph isNotPointerEdge TS) n m → m ∈ V) →
  X ⊆ V → (∀ m, m ∈ X → ¬ hasLayout TS m) → (∀ m, m ∈ V → m ∉ X → hasLayout TS m) →
  ∃ X', queueForRemoval TS n X = Ok X' ∧ X' ⊆ {[n]} ∪ V ∧
    (∀ m, m ∈ X' → ¬ hasLayout TS m) ∧ (∀ m, m ∈ {[n]} ∪ V → m ∉ X' → hasLayout TS m).
Proof.
  intros [N HN] Hn Hm HX HX1 HX2. unfold queueForRemoval. rewrite (deref_ok _ _ _ HN), bind_ok.
  assert (hasLayout TS n → ∀ m, m ∈ {[n]} ∪ V → m ∉ X → hasLayout TS m) as Hkeep.
  { intros Hn' m [->%elem_of_singleton|HmV]%elem_of_union; auto. }
  destruct (Z.ltb_spec 0 (Size N)) as [Hs|Hs].
  { exists X. split_and!; [done|set_solver|done|]. apply Hkeep. by exists n, N. }
  destruct (existsb _ _) eqn:Hex.
  - apply existsb_exists in Hex as ([d t] & [Hl Ht]%list_elem_of_In%elem_of_childrenEdges & Hd%bool_decide_eq_true).
    exists X. split_and!; [done|set_solver|done|]. apply Hkeep. cbn in Hd.
    assert (edge (filteredGraph isNotPointerEdge TS) n d) as Hnd.
    { apply view_edge. exists t. split; [by eexists|done]. }
    eapply hasLayout_step; [exact Hnd|]. apply HX2; [by apply Hm|done].
  - exists ({[n]} ∪ X). split_and!; [done|set_solver| |].
    + intros m [->%elem_of_singleton|HmX]%elem_of_union; [|by apply HX1]. intros Hl.
      apply (hasLayout_inv TS n N HN) in Hl as [?|(t & d & He & Ht & Hd)]; [lia|].
      apply not_true_iff_false in Hex. apply Hex, existsb_exists. exists (d, t). rewrite <- list_elem_of_In, elem_of_childrenEdges.
      split; [split; [by apply (edge_iff TS n)|by apply not_pointer]|]. apply bool_decide_eq_true. cbn. intros HdX. by apply (HX1 d).
    + intros m Hm' HmX. apply HX2; set_solver.
Qed.

(** C12: Pruning is exact: in an acyclic type system the step succeeds and removes the nodes that have no size and contain nothing that has one, and no other node; the links between the nodes that are left, their attributes and the values they are the layout of are kept, values whose node is removed have no layout, and no leaf is left without a size. *)
Theorem pruned_exactly TS :
  wf TS → dag TS →
  ∃ c TS', PruneLayoutNodesWithoutLayout TS = Ok (c, TS') ∧ wf TS' ∧ verifyLeafs TS' = Ok true ∧
    (∀ n, live TS' n ↔ live TS n ∧ hasLayout TS n) ∧
    (∀ n N N', Layouts TS !! n = Some N → Layouts TS' !! n = Some N' → Size N' = Size N) ∧
    (∀ a t b, hasEdge TS' a t b ↔ hasEdge TS a t b ∧ hasLayout TS a ∧ hasLayout TS b) ∧
    (∀ i n, (i < NID TS)%N → layoutOf TS' i n ↔ layoutOf TS i n ∧ hasLayout TS n) ∧
    (c = true ↔ ∃ n, live TS n ∧ ¬ hasLayout TS n).
Proof using All.
  intros Hwf Hdag. set (g := filteredGraph isNotPointerEdge TS). unfold PruneLayoutNodesWithoutLayout.
  destruct (forEachRoot_visits (λ _, true) (isRoot LK_All) isNotPointerEdge (λ _ : gset NodeID, TS) (queueForRemoval TS)
    (λ V X, X ⊆ V ∧ (∀ m, m ∈ X → ¬ hasLayout TS m) ∧ (∀ m, m ∈ V → m ∉ X → hasLayout TS m)) ∅)
    as (X & Hrun & HX & HX1 & HX2); [apply Hwf|done| | | |set_solver|].
  { intros n N. apply root_not_pointer, Hwf. }
  { intros V s n N _ HN. by exists N. }
  { intros n V X Hn HnV Hm (HX & HX1 & HX2). destruct (queueForRemoval_ok TS V n X) as (X' & Hq & Hrest); try done. by exists X'. }
  rewrite Hrun, bind_ok.
  assert (∀ n, live TS n → n ∉ X ↔ hasLayout TS n) as HXl.
  { intros n Hn. split; [|by intros Hl HnX; apply (HX1 n)]. apply HX2. by apply view_dom. }
  destruct (removeNodes_ok TS (elements X)) as (TS' & -> & [Hwf' Hl Ha He Ho HN]); [done|apply NoDup_elements| |].
  { intros n Hn%elem_of_elements. by apply HX, view_dom in Hn. }
  rewrite bind_ok, list_to_set_elements_L in *.
  assert (∀ n, live TS' n ↔ live TS n ∧ hasLayout TS n) as Hl'.
  { intros n. rewrite Hl. split; intros [Hn ?]; (split; [done|]); by apply HXl. }
  assert (∀ a t b, hasEdge TS' a t b ↔ hasEdge TS a t b ∧ hasLayout TS a ∧ hasLayout TS b) as He'.
  { intros a t b. rewrite He. split; intros (Hab & ? & ?); (split; [done|]); split;
      (apply HXl; [|done]); ((by eapply edge_source) || by eapply wf_target; [apply Hwf|]). }
  exists (bool_decide (X ≠ ∅)), TS'. split_and!; [done|done| |done| |done| |].
  - unfold verifyLeafs. apply allM_true. intros n Hn. apply elem_of_layoutsRange in Hn; [|apply (wf_bound TS'), Hwf'].
    destruct Hn as [N' HN']. rewrite (deref_ok _ _ _ HN'), bind_ok. f_equal. apply negb_true_iff, andb_false_iff.
    destruct (proj1 (Hl' n)) as [[N HN0] Hlay]; [by eexists|].
    destruct (hasLayout_inv TS n N HN0 Hlay) as [Hs|(t & m & Hm & Ht & Hm')].
    + right. rewrite (proj1 (Ha n N N' HN0 HN')). apply Z.eqb_neq. lia.
    + left. unfold isLeaf. apply negb_false_iff, anyLink_true. exists (m, t). split.
      * apply (edge_iff TS' n N'); [done|]. by apply He'.
      * cbn. by apply bool_decide_eq_true.
  - intros n N N' HN0 HN'. by apply (Ha n N N').
  - intros j n Hj. rewrite Ho by done. split; intros [Hlo ?]; (split; [done|]); (apply HXl; [apply Hlo|done]).
  - rewrite bool_decide_eq_true. split.
    + intros Hne. apply set_choose_L in Hne as [n Hn]. exists n. split; [by apply HX, view_dom in Hn|by apply HX1].
    + intros (n & Hn & Hno) ->. apply Hno, HXl; [done|]. apply not_elem_of_empty.
Qed.
(** ** Links with strides *)

(** Every stride is as large as what it repeats. *)
Fixpoint strideFits (s : Z) (l : list (Z * option Z)) : bool :=
  match l with
  | [] => true
  | (Stride, TripCount) :: l => (s <=? Stride)%Z && strideFits ((default 1 TripCount - 1) * Stride + s)%Z l
  end.

Definition linkFits (s : Z) (t : TypeLinkTag) : bool := negb (s =? 0)%Z && strideFits s (dimensions t).

Definition sizeOf TS (n : NodeID) : Z := match Layouts TS !! n with Some N => Size N | None => 0 end.

Lemma sizeOf_at TS n N : Layouts TS !! n = Some N → sizeOf TS n = Size N.
Proof. unfold sizeOf. by intros ->. Qed.

Lemma validStrides_ok s l :
  (0 < s)%Z → positive l → (extent s l < 2 ^ 64)%Z → validStrides s l = Ok (strideFits s l).
Proof.
  revert s. induction l as [|[Stride TC] l IH]; intros s Hs Hp He; [done|]. cbn [validStrides strideFits extent] in *.
  apply positive_cons in Hp as [[H1 H2] Hp]. rewrite assert_true by (by apply Z.ltb_lt).
  rewrite Z.leb_antisym.
  destruct (Stride <? s)%Z; [done|]. cbn [negb andb]. rewrite assert_true by (apply negb_true_iff, Z.eqb_neq; lia).
  assert (0 ≤ (default 1 TC - 1) * Stride)%Z by (apply Z.mul_nonneg_nonneg; lia).
  pose proof (extent_ge ((default 1 TC - 1) * Stride + s)%Z l ltac:(lia) Hp).
  assert (default 1 TC - 1 ≤ (default 1 TC - 1) * Stride)%Z by (generalize dependent (default 1%Z TC); intros; nia).
  rewrite (wrap_small 64 (default 1 TC - 1)%Z) by (unfold in_width; lia).
  rewrite (Z.mul_comm Stride (default 1 TC - 1)%Z), (wrap_small 64 ((default 1 TC - 1) * Stride)%Z) by (unfold in_width; lia).
  rewrite wrap_small by (unfold in_width; lia). apply IH; [lia|done|done].
Qed.

Lemma hasValidStrides_ok TS d t D :
  Layouts TS !! d = Some D → instance_ok t → (0 ≤ Size D)%Z → (fieldEnd (Size D) t < 2 ^ 64)%Z →
  hasValidStrides TS (d, t) = Ok (linkFits (Size D) t).
Proof.
  intros HD Ht Hs He. unfold hasValidStrides, linkFits.
  rewrite assert_true by (cbn; apply bool_decide_eq_true, Ht). cbn [fst snd]. rewrite (deref_ok _ _ _ HD), bind_ok.
  destruct (Z.eqb_spec (Size D) 0) as [|Hne]; [done|]. unfold getOffsetExpr.
  rewrite bool_decide_eq_true_2 by apply Ht. cbn [revng_assert mbind outcome_bind].
  rewrite (proj2 (Nat.eqb_eq _ _)) by (symmetry; apply Ht). cbn [revng_assert negb andb]. pose proof (ok_offset t Ht).
  apply validStrides_ok; [lia|by apply instance_positive|]. unfold fieldEnd in He. lia.
Qed.

(** Sizes that are not smaller than the fields. *)
Definition covers TS : Prop :=
  ∀ n t d, hasEdge TS n t d → getKind t ≠ LK_Pointer → (fieldEnd (sizeOf TS d) t ≤ sizeOf TS n)%Z.

(** A loop that erases some of the links out of a node. *)
Lemma eraseWhere_ok (bad : Link → bool) (step : Link → bool * LayoutTypeSystem E → outcome (bool * LayoutTypeSystem E)) n ls c TS :
  wf TS → NoDup ls → (∀ l, l ∈ ls → hasEdge TS n l.2 l.1) →
  (∀ l c TSx, l ∈ ls → unedited TS TSx → step l (c, TSx) = if bad l then TSx ← eraseEdge n l TSx; Ok (true, TSx) else Ok (c, TSx)) →
  ∃ c' TS', forEachM step ls (c, TS) = Ok (c', TS') ∧
    edited TS TS' (λ a u b, hasEdge TS a u b ∧ ¬ (a = n ∧ (b, u) ∈ ls ∧ bad (b, u) = true)) ∧
    (c' = true ↔ c = true ∨ ∃ l, l ∈ ls ∧ bad l = true).
Proof.
  revert c TS. induction ls as [|[d t] ls IH]; intros c TS Hwf Hnd Hls Hstep.
  { exists c, TS. split; [done|]. split; [|split; [by left|by intros [?|(l & Hl%elem_of_nil & _)]]].
    split_and!; [done|apply unedited_refl|]. intros. split; [|naive_solver]. intros ?. split; [done|].
    intros (_ & Hx & _). by apply elem_of_nil in Hx. }
  apply NoDup_cons in Hnd as [Hd Hnd]. cbn [forEachM]. rewrite Hstep by (left || apply unedited_refl).
  destruct (bad (d, t)) eqn:Hbad.
  - destruct (eraseEdge_ok TS n d t) as (TS1 & -> & Hwf1 & Hu1 & _ & Hed1); [apply Hwf|by apply (Hls (d, t)); left|].
    rewrite !bind_ok. assert (edited TS TS1 (λ a u b, hasEdge TS a u b ∧ (a, u, b) ≠ (n, t, d))) as Hed by by apply edited_intro.
    destruct (IH true TS1) as (c' & TS2 & Hr & Hed2 & Hc); [apply Hed|done| | |].
    { intros [d2 t2] Hl. apply Hed1. split; [apply (Hls (d2, t2)); by right|]. by intros [= -> ->]. }
    { intros l c1 TSx Hl Hu. apply Hstep; [by right|]. by eapply unedited_trans. }
    exists c', TS2. split; [done|]. split.
    + eapply edited_trans; [exact Hed|]. eapply edited_iff; [|exact Hed2]. cbn. intros a u b. rewrite Hed1, elem_of_cons. split.
      * intros [[He Hne] Hno]. split; [done|]. intros (-> & [[= -> ->]|Hl] & Hb); [done|]. by apply Hno.
      * intros [He Hno]. split; [split; [done|]|].
        -- intros [= -> -> ->]. apply Hno. split_and!; [done|by left|done].
        -- intros (Ha & Hl & Hb). apply Hno. split_and!; [done|by right|done].
    + rewrite Hc. split; [|by left]. intros _. right. exists (d, t). split; [by left|done].
  - rewrite bind_ok. destruct (IH c TS) as (c' & TS2 & Hr & Hed2 & Hc); [done|done| | |].
    { intros l Hl. apply Hls. by right. }
    { intros l c1 TSx Hl. apply Hstep. by right. }
    exists c', TS2. split; [done|]. split.
    + eapply edited_iff; [|exact Hed2]. cbn. intros a u b. rewrite elem_of_cons.
      split; intros [He Hno]; (split; [done|]); intros (Ha & Hl & Hb); apply Hno.
      * destruct Hl as [Hl|Hl]; [by rewrite Hl, Hbad in Hb|done].
      * split_and!; [done|by right|done].
    + rewrite Hc. split; (intros [?|(l & Hl & Hb)]; [by left|right; exists l; split; [|done]]); [by right|].
      apply elem_of_cons in Hl as [->|Hl]; [by rewrite Hbad in Hb|done].
Qed.
Definition lost TS TS' (n : NodeID) : Prop := ∃ t d, hasEdge TS n t d ∧ ¬ hasEdge TS' n t d.

(** What holds when the nodes of [V] have been visited. *)
Record stridesFixed TS (V : gset NodeID) (c : bool) TS' : Prop := {
  sf_wf : wf TS';
  sf_live n : live TS' n ↔ live TS n;
  sf_layouts i n : layoutOf TS' i n ↔ layoutOf TS i n;
  sf_edges a t b : hasEdge TS' a t b ↔
    hasEdge TS a t b ∧ (a ∈ V → getKind t ≠ LK_Pointer → linkFits (sizeOf TS' b) t = true);
  sf_size n : live TS n → (0 ≤ sizeOf TS' n ≤ sizeOf TS n)%Z;
  sf_unvisited n : n ∉ V → sizeOf TS' n = sizeOf TS n;
  sf_lost n : n ∈ V → lost TS TS' n → isLargest 0 (fields TS' (sizeOf TS') n) (sizeOf TS' n);
  sf_kept n : n ∈ V → ¬ lost TS TS' n → sizeOf TS' n = sizeOf TS n;
  sf_changed : c = true ↔ ∃ n, n ∈ V ∧ lost TS TS' n;
  sf_closed a t b : a ∈ V → hasEdge TS a t b → getKind t ≠ LK_Pointer → b ∈ V;
}.

(** A visit of a node, whose links are fixed, and its size when it has lost some. *)
Lemma stridesFixed_visit TS V c c' n TS1 TS2 :
  stridesFixed TS V c TS1 → n ∉ V → live TS n → wf TS2 → (∀ m, live TS2 m ↔ live TS1 m) →
  (∀ i m, layoutOf TS2 i m ↔ layoutOf TS1 i m) →
  (∀ t d, hasEdge TS n t d → getKind t ≠ LK_Pointer → d ∈ V) →
  (∀ a t b, hasEdge TS2 a t b ↔ hasEdge TS1 a t b ∧ (a = n → getKind t ≠ LK_Pointer → linkFits (sizeOf TS1 b) t = true)) →
  (∀ m, m ≠ n → sizeOf TS2 m = sizeOf TS1 m) →
  (0 ≤ sizeOf TS2 n ≤ sizeOf TS n)%Z →
  (lost TS TS2 n → isLargest 0 (fields TS2 (sizeOf TS1) n) (sizeOf TS2 n)) →
  (¬ lost TS TS2 n → sizeOf TS2 n = sizeOf TS n) →
  (c' = true ↔ c = true ∨ lost TS TS2 n) →
  stridesFixed TS ({[n]} ∪ V) c' TS2.
Proof.
  intros Hsf HnV Hn Hwf Hlive Hlay Hd Hed Hsz Hb Hlost Hkept Hc.
  assert (∀ a t b, a ∈ {[n]} ∪ V → hasEdge TS a t b → getKind t ≠ LK_Pointer → b ∈ V ∧ b ≠ n) as Htgt.
  { intros a t b Ha Hab Ht. assert (b ∈ V) as HbV.
    { apply elem_of_union in Ha as [->%elem_of_singleton|Ha]; [by eapply Hd|by eapply (sf_closed _ _ _ _ Hsf)]. }
    split; [done|]. by intros ->. }
  assert (∀ m t b, m ∈ V → hasEdge TS2 m t b ↔ hasEdge TS1 m t b) as HedV.
  { intros m t b Hm. rewrite Hed. split; [by intros [? _]|]. intros ?. split; [done|]. by intros ->. }
  assert (∀ m, m ∈ V → lost TS TS2 m ↔ lost TS TS1 m) as HlostV.
  { intros m Hm. unfold lost. split; intros (t & d & He & Hno); exists t, d; (split; [done|]); by rewrite HedV in *. }
  assert (∀ m, m ∈ {[n]} ∪ V → ∀ x, fields TS2 (sizeOf TS1) m x ↔ fields TS2 (sizeOf TS2) m x) as Hfields.
  { intros m Hm x. unfold fields. split; intros (t & d & He & Ht & ->); exists t, d; split_and!; try done; f_equal;
      (rewrite Hsz; [done|]); apply Hed in He as [He _]; apply (sf_edges _ _ _ _ Hsf) in He as [He _]; by apply (Htgt m t). }
  split.
  - done.
  - intros m. by rewrite Hlive, (sf_live _ _ _ _ Hsf).
  - intros j m. by rewrite Hlay, (sf_layouts _ _ _ _ Hsf).
  - intros a t b. rewrite Hed, (sf_edges _ _ _ _ Hsf). split.
    + intros [[He HV] HnF]. split; [done|]. intros Ha Ht. destruct (Htgt a t b Ha He Ht) as [_ Hbn]. rewrite Hsz by done.
      apply elem_of_union in Ha as [->%elem_of_singleton|Ha]; [by apply HnF|by apply HV].
    + intros [He HF]. split; [split; [done|]|].
      * intros Ha Ht. rewrite <- Hsz by (apply (Htgt a t b); [set_solver|done|done]). apply HF; [set_solver|done].
      * intros -> Ht. rewrite <- Hsz by (apply (Htgt n t b); [set_solver|done|done]). apply HF; [set_solver|done].
  - intros m Hm. destruct (decide (m = n)) as [->|Hne]; [done|]. rewrite Hsz by done. by apply (sf_size _ _ _ _ Hsf).
  - intros m Hm. rewrite Hsz by set_solver. apply (sf_unvisited _ _ _ _ Hsf). set_solver.
  - intros m Hm Hl. eapply isLargest_iff; [by apply Hfields|]. destruct (decide (m = n)) as [->|Hne]; [by apply Hlost|].
    assert (m ∈ V) as HmV by set_solver. rewrite Hsz by done. eapply isLargest_iff; [|apply (sf_lost _ _ _ _ Hsf m HmV); by apply HlostV].
    intros x. unfold fields. by setoid_rewrite (λ t b, HedV m t b HmV).
  - intros m Hm Hl. destruct (decide (m = n)) as [->|Hne]; [by apply Hkept|]. assert (m ∈ V) as HmV by set_solver.
    rewrite Hsz by done. apply (sf_kept _ _ _ _ Hsf m HmV). by rewrite <- HlostV.
  - rewrite Hc, (sf_changed _ _ _ _ Hsf). split.
    + intros [(m & Hm & Hl)|Hl]; [exists m; split; [set_solver|by apply HlostV]|exists n; split; [set_solver|done]].
    + intros (m & Hm & Hl). destruct (decide (m = n)) as [->|Hne]; [by right|]. assert (m ∈ V) as HmV by set_solver.
      left. exists m. split; [done|]. by apply HlostV.
  - intros a t b Ha He Ht. destruct (Htgt a t b Ha He Ht). set_solver.
Qed.
(** The links and sizes of a type system whose strides are checked. *)
Record stridesInput TS : Prop := {
  si_instances s t d : hasEdge TS s t d → getKind t ≠ LK_Pointer → instance_ok t;
  si_sizes n : live TS n → (0 ≤ sizeOf TS n < 2 ^ 64)%Z;
  si_covers : covers TS;
}.

Lemma unedited_sizeOf TS TS' n : unedited TS TS' → sizeOf TS' n = sizeOf TS n.
Proof.
  intros Hu. unfold sizeOf. destruct (Layouts TS !! n) as [N|] eqn:HN.
  - assert (live TS' n) as [N' HN'] by (apply (un_live _ _ Hu); by eexists). rewrite HN'. by apply (un_attributes _ _ Hu n).
  - destruct (Layouts TS' !! n) as [N'|] eqn:HN'; [|done].
    assert (live TS n) as [? Hx] by (apply (un_live _ _ Hu); by eexists). congruence.
Qed.

(** The links that are erased, when the targets have their final sizes. *)
Definition badLink TS (l : Link) : bool := isInstanceEdge l && negb (linkFits (sizeOf TS l.1) l.2).

Lemma removeStrides_ok TS V c TS1 n :
  stridesInput TS → stridesFixed TS V c TS1 → live TS n → n ∉ V →
  ∃ r TS2, removeStrides n TS1 = Ok (r, TS2) ∧
    edited TS1 TS2 (λ a t b, hasEdge TS1 a t b ∧ ¬ (a = n ∧ badLink TS1 (b, t) = true)) ∧ (r = true ↔ lost TS TS2 n).
Proof.
  intros Hin Hsf Hn HnV. assert (live TS1 n) as [N HN] by by apply (sf_live _ _ _ _ Hsf).
  assert (∀ t d, hasEdge TS1 n t d ↔ hasEdge TS n t d) as Hedn.
  { intros t d. rewrite (sf_edges _ _ _ _ Hsf). split; [by intros [? _]|]. intros ?. split; [done|]. by intros ?. }
  unfold removeStrides. rewrite (deref_ok _ _ _ HN), bind_ok.
  destruct (eraseWhere_ok (badLink TS1) (λ (It : Link) s,
    if negb (isInstanceEdge It) then Ok s else
    valid ← hasValidStrides s.2 It;
    if (valid : bool) then Ok s else TS ← eraseEdge n It s.2; Ok (true, TS)) n (inOrder (Successors N)) false TS1)
    as (r & TS2 & -> & Hed & Hr); [apply Hsf|apply NoDup_links| | |].
  - intros [d t] Hl%elem_of_links. by eexists.
  - intros [d t] c1 TSx Hl%elem_of_links Hu. unfold badLink. destruct (isInstanceEdge (d, t)) eqn:Hi; [|done]. cbn [negb andb fst snd].
    assert (hasEdge TS n t d) as He by (apply Hedn; by eexists).
    assert (getKind t ≠ LK_Pointer) as Ht by (apply bool_decide_eq_true in Hi; cbn in Hi; congruence).
    assert (live TS1 d) as Hd by (eapply wf_target; [apply Hsf|by apply Hedn]).
    assert (live TSx d) as [D HD] by by apply (un_live _ _ Hu).
    assert (Size D = sizeOf TS1 d) as HsD by (by rewrite <- (sizeOf_at TSx d D), (unedited_sizeOf TS1 TSx)).
    pose proof (sf_size _ _ _ _ Hsf d (proj1 (sf_live _ _ _ _ Hsf d) Hd)) as Hsz.
    rewrite (hasValidStrides_ok TSx d t D); [|done|by eapply si_instances|lia|].
    { rewrite bind_ok, HsD. by destruct (linkFits (sizeOf TS1 d) t). }
    eapply Z.le_lt_trans; [apply fieldEnd_mono; rewrite HsD; apply Hsz|].
    eapply Z.le_lt_trans; [by apply (si_covers _ Hin n)|by apply (si_sizes _ Hin)].
  - exists r, TS2. split; [done|]. split.
    + eapply edited_iff; [|exact Hed]. cbn. intros a t b. rewrite elem_of_links. split; intros [He Hno]; (split; [done|]).
      * intros [-> Hb]. apply Hno. split_and!; [done|by apply (edge_iff TS1 n)|done].
      * intros (-> & _ & Hb). by apply Hno.
    + rewrite Hr. destruct Hed as (_ & _ & Hed). unfold lost. split.
      * intros [|([d t] & Hl%elem_of_links & Hb)]; [done|]. exists t, d. assert (hasEdge TS1 n t d) as He by by eexists.
        split; [by apply Hedn|]. rewrite Hed, elem_of_links. naive_solver.
      * intros (t & d & He & Hno). right. exists (d, t). apply Hedn in He. rewrite elem_of_links.
        split; [by apply (edge_iff TS1 n)|]. apply not_false_iff_true. intros Hb. apply Hno, Hed. split; [done|].
        intros (_ & _ & ?). congruence.
Qed.
Lemma sizeOf_alter TS n v m : live TS n → sizeOf (withLayouts (alter (withSize v) n) TS) m = if decide (m = n) then v else sizeOf TS m.
Proof.
  intros [N HN]. unfold sizeOf. cbn. destruct (decide (m = n)) as [->|Hne]; [by rewrite lookup_alter_eq, HN|by rewrite lookup_alter_ne].
Qed.

Lemma fixStrides_ok TS V c TS1 n :
  stridesInput TS → stridesFixed TS V c TS1 → live TS n → n ∉ V → (∀ t d, hasEdge TS n t d → getKind t ≠ LK_Pointer → d ∈ V) →
  ∃ c' TS3, fixStrides n (c, TS1) = Ok (c', TS3) ∧ stridesFixed TS ({[n]} ∪ V) c' TS3.
Proof.
  intros Hin Hsf Hn HnV Hd. destruct (removeStrides_ok TS V c TS1 n Hin Hsf Hn HnV) as (r & TS2 & Hrun & Hed & Hr).
  destruct Hed as (Hwf2 & Hu2 & Hed2). unfold fixStrides. cbn [snd fst]. rewrite Hrun, bind_ok.
  assert (∀ m, sizeOf TS2 m = sizeOf TS1 m) as Hsz2 by (intros m; by apply unedited_sizeOf).
  assert (live TS2 n) as Hn2 by (by apply (un_live _ _ Hu2), (sf_live _ _ _ _ Hsf)).
  assert (∀ t d, hasEdge TS1 n t d → hasEdge TS n t d) as Hedn by (intros t d Hx; by apply (sf_edges _ _ _ _ Hsf) in Hx as [? _]).
  assert (∀ t d, hasEdge TS n t d → getKind t ≠ LK_Pointer → isInstanceEdge (d, t) = true) as Hinst.
  { intros t d He Ht. apply bool_decide_eq_true. by apply (si_instances _ Hin n t d). }
  assert (∀ a t b, hasEdge TS2 a t b ↔ hasEdge TS1 a t b ∧ (a = n → getKind t ≠ LK_Pointer → linkFits (sizeOf TS1 b) t = true)) as Hed2'.
  { intros a t b. rewrite Hed2. unfold badLink. cbn [fst snd]. split; intros [He Hno]; (split; [done|]).
    - intros -> Ht. apply not_false_iff_true. intros Hf. apply Hno. split; [done|].
      rewrite Hf, andb_true_iff. split; [by apply Hinst; [apply Hedn|]|done].
    - intros [-> [Hi Hf%negb_true_iff]%andb_true_iff]. rewrite Hno in Hf; [done|done|].
      apply bool_decide_eq_true in Hi. cbn in Hi. congruence. }
  pose proof (sf_size _ _ _ _ Hsf n Hn) as Hszn. rewrite (sf_unvisited _ _ _ _ Hsf n HnV) in Hszn.
  destruct r.
  - destruct (upperMember_ok TS2 (sizeOf TS1) n 0 Hn2) as (v & -> & Hv).
    { intros t d He Ht. apply Hed2' in He as [He1 HF]. specialize (HF eq_refl Ht). apply Hedn in He1 as He.
      assert (live TS1 d) as Hd1 by (eapply wf_target; [apply Hsf|done]).
      pose proof (sf_size _ _ _ _ Hsf d (proj1 (sf_live _ _ _ _ Hsf d) Hd1)) as Hszd.
      assert (0 < sizeOf TS1 d)%Z as Hpos.
      { apply andb_true_iff in HF as [Hne%negb_true_iff%Z.eqb_neq _]. lia. }
      split; [by eapply si_instances|]. split; [done|]. split.
      - eapply Z.le_lt_trans; [apply fieldEnd_mono, Hszd|].
        eapply Z.le_lt_trans; [by apply (si_covers _ Hin n)|by apply (si_sizes _ Hin)].
      - assert (live TS2 d) as [D HD] by by apply (un_live _ _ Hu2). exists D. split; [done|].
        by rewrite <- (sizeOf_at TS2 d D), Hsz2. }
    rewrite bind_ok. destruct (attribute_edit (withSize v) TS2 n) as (-> & Hwf3 & Hed3); [done|done|done|]. rewrite bind_ok.
    eexists true, _. split; [done|]. set (TS3 := withLayouts (alter (withSize v) n) TS2) in *.
    assert (∀ m, sizeOf TS3 m = if decide (m = n) then v else sizeOf TS1 m) as Hsz3.
    { intros m. unfold TS3. rewrite sizeOf_alter by done. by rewrite Hsz2. }
    assert (lost TS TS3 n) as Hl3.
    { destruct (proj1 Hr eq_refl) as (t & d & He & Hno). exists t, d. by rewrite Hed3. }
    assert (0 ≤ v ≤ sizeOf TS n)%Z as Hvb.
    { destruct Hv as (Hv1 & _ & Hv3). split; [done|]. apply Hv3; [apply (si_sizes _ Hin n Hn)|].
      intros x (t & d & He & Ht & ->). apply Hed2' in He as [He _].
      etrans; [|apply (si_covers _ Hin n t d); [by apply Hedn|done]]. apply fieldEnd_mono.
      apply (sf_size _ _ _ _ Hsf d), (sf_live _ _ _ _ Hsf). eapply wf_target; [apply Hsf|done]. }
    apply (stridesFixed_visit TS V c true n TS1 TS3); try done.
    + intros m. unfold TS3. by rewrite live_alter, (un_live _ _ Hu2).
    + intros j m. unfold layoutOf. unfold TS3 at 1. rewrite live_alter, (un_live _ _ Hu2). cbn. by rewrite (un_classes _ _ Hu2).
    + intros a t b. by rewrite Hed3, Hed2'.
    + intros m Hm. by rewrite Hsz3, decide_False.
    + by rewrite Hsz3, decide_True.
    + intros _. rewrite Hsz3, decide_True by done. eapply isLargest_iff; [|exact Hv]. intros x. unfold fields.
      by setoid_rewrite Hed3.
    + split; [by right|done].
  - exists c, TS2. split; [done|]. assert (¬ lost TS TS2 n) as Hl2 by (by intros Hl%Hr).
    apply (stridesFixed_visit TS V c c n TS1 TS2); try done.
    + intros m. apply (un_live _ _ Hu2).
    + intros j m. by apply layout_unedited.
    + by rewrite Hsz2, (sf_unvisited _ _ _ _ Hsf).
    + intros _. by rewrite Hsz2, (sf_unvisited _ _ _ _ Hsf).
    + split; [by left|by intros [?|?]].
Qed.

(** The links of the nodes that have not been visited. *)
Lemma stridesFixed_same TS V c TS' n N N' :
  graph_wf TS → stridesFixed TS V c TS' → n ∉ V → Layouts TS !! n = Some N → Layouts TS' !! n = Some N' →
  Successors N' = Successors N ∧ Predecessors N' = Predecessors N.
Proof.
  intros Hwf Hsf HnV HN HN'. split; apply set_eq; intros [m t].
  - rewrite (edge_iff TS' n N'), (edge_iff TS n N), (sf_edges _ _ _ _ Hsf) by done. naive_solver.
  - rewrite (wf_pred TS' (proj1 (sf_wf _ _ _ _ Hsf)) n N'), (wf_pred TS Hwf n N), (sf_edges _ _ _ _ Hsf) by done.
    split; [by intros [? _]|]. intros He. split; [done|]. intros Hm Ht. destruct HnV. by eapply (sf_closed _ _ _ _ Hsf).
Qed.

(** C13: The check of strides. In a type system without cycles of instances, whose sizes cover the fields, the step succeeds and keeps exactly the links whose strides are not smaller than what they repeat, at the sizes it leaves; a node that loses a link gets the size of what is left of it, the others keep theirs, no size grows, and the values keep their layouts. *)
Theorem strides_fixed TS :
  wf TS → acyclic (filteredGraph isInstanceEdge TS) → stridesInput TS →
  ∃ c TS', RemoveInvalidStrideEdges TS = Ok (c, TS') ∧ wf TS' ∧
    (∀ i n, layoutOf TS' i n ↔ layoutOf TS i n) ∧
    (∀ a t b, hasEdge TS' a t b ↔ hasEdge TS a t b ∧ (getKind t ≠ LK_Pointer → linkFits (sizeOf TS' b) t = true)) ∧
    (∀ n, live TS n →
      (0 ≤ sizeOf TS' n ≤ sizeOf TS n)%Z ∧
      (lost TS TS' n → isLargest 0 (fields TS' (sizeOf TS') n) (sizeOf TS' n)) ∧
      (¬ lost TS TS' n → sizeOf TS' n = sizeOf TS n)) ∧
    (c = true ↔ ∃ n, live TS n ∧ lost TS TS' n).
Proof using All.
  intros Hwf Hdag Hin. set (g := filteredGraph isInstanceEdge TS). unfold RemoveInvalidStrideEdges.
  assert (∀ n t d, hasEdge TS n t d → getKind t ≠ LK_Pointer → edge g n d) as Hedge.
  { intros n t d He Ht. apply view_edge. exists t. split; [done|]. apply bool_decide_eq_true. by apply (si_instances _ Hin n t d). }
  destruct (forEachRoot_visits (λ _, true) (isRoot LK_Instance) isInstanceEdge snd (fixStrides (E := E))
    (λ V (s : bool * LayoutTypeSystem E), stridesFixed TS V s.1 s.2) (false, TS))
    as ([c TS'] & Hrun & Hsf); cbn [fst snd] in *; [apply Hwf|done| | | | |].
  - intros n N. apply root_instance, Hwf.
  - intros V [c TS'] n N Hsf HN. cbn [fst snd] in *.
    assert (live TS' n) as [N' HN'] by (apply (sf_live _ _ _ _ Hsf); by eexists). exists N'. split_and!; [done|done|].
    intros HnV. destruct (stridesFixed_same TS V c TS' n N N') as [HS HP]; [apply Hwf|done..|].
    unfold childrenEdges, isRoot. by rewrite HS, HP.
  - intros n V [c TS'] Hn HnV Hm Hsf. cbn [fst snd] in *.
    destruct (fixStrides_ok TS V c TS' n Hin Hsf Hn HnV) as (c' & TS3 & Hrun & Hsf3); [intros t d He Ht; by eapply Hm, Hedge|].
    by exists (c', TS3).
  - split; try done.
    + intros a t b. split; [intros ?; split; [done|]; by intros ?%elem_of_empty|by intros [? _]].
    + intros n Hn. pose proof (si_sizes _ Hin n Hn). lia.
    + split; [done|]. intros (n & Hn & _). by apply elem_of_empty in Hn.
  - exists c, TS'. assert (∀ n, live TS n → n ∈ dom g) as Hdom by (intros n; apply view_dom).
    split_and!; [done|apply Hsf|apply Hsf| | |].
    + intros a t b. rewrite (sf_edges _ _ _ _ Hsf). split; intros [He HF]; (split; [done|]); [|auto].
      apply HF, Hdom. by eapply edge_source.
    + intros n Hn. split; [by apply (sf_size _ _ _ _ Hsf)|].
      split; intros Hl; [apply (sf_lost _ _ _ _ Hsf)|apply (sf_kept _ _ _ _ Hsf)]; auto.
    + rewrite (sf_changed _ _ _ _ Hsf). split; intros (n & Hn & Hl); exists n; (split; [|done]); [by apply view_dom in Hn|auto].
Qed.
(** *** Checks by evaluation *)

Definition allLinks (P : NodeID → Link → bool) TS : bool :=
  forallb (λ n, match Layouts TS !! n with Some N => forallb (P n) (inOrder (Successors N)) | None => true end) (layoutsRange TS).

Lemma allLinks_spec P TS :
  wf TS → allLinks P TS = true → ∀ n t d, hasEdge TS n t d → P n (d, t) = true.
Proof.
  intros [Hwf _] Hall n t d (N & HN & Hl). unfold allLinks in Hall. rewrite forallb_forall in Hall.
  specialize (Hall n). rewrite HN, <- list_elem_of_In, elem_of_layoutsRange in Hall by apply (wf_bound _ Hwf).
  specialize (Hall (live_Some _ _ _ HN)). rewrite forallb_forall in Hall. apply Hall.
  by apply list_elem_of_In, elem_of_links.
Qed.

Definition instanceOk (t : TypeLinkTag) : bool :=
  bool_decide (getKind t = LK_Instance) && (length (Strides (OE t)) =? length (TripCounts (OE t)))%nat
  && forallb (λ d, (0 <? d.1) && (0 <? default 1 d.2))%Z (zip (Strides (OE t)) (TripCounts (OE t)))
  && (0 <=? Offset (OE t))%Z && (Offset (OE t) <? 2 ^ 63)%Z.

Lemma instanceOk_spec t : instanceOk t = true → instance_ok t.
Proof.
  unfold instanceOk. rewrite !andb_true_iff, bool_decide_eq_true, Nat.eqb_eq, forallb_forall, Z.leb_le, Z.ltb_lt.
  intros ((((? & ?) & Hall) & ?) & ?). split; try done. intros s c Hin%list_elem_of_In. apply Hall in Hin.
  apply andb_true_iff in Hin as [?%Z.ltb_lt ?%Z.ltb_lt]. done.
Qed.

Lemma instances_checked TS :
  wf TS → allLinks (λ _ l, isPointerEdge l || instanceOk l.2) TS = true →
  ∀ s t d, hasEdge TS s t d → getKind t ≠ LK_Pointer → instance_ok t.
Proof.
  intros Hwf Hall s t d He Ht. apply (allLinks_spec _ _ Hwf Hall) in He. apply orb_true_iff in He as [Hp|Hok]; [|by apply instanceOk_spec].
  apply bool_decide_eq_true in Hp. done.
Qed.

Lemma acyclic_checked P TS : wf TS → verifyView (filteredGraph P TS) ∅ (layoutsRange TS) = true → acyclic (filteredGraph P TS).
Proof using All.
  intros [Hwf _]. apply verifyView_spec. intros a Ha%view_dom. by apply elem_of_layoutsRange; [apply (wf_bound _ Hwf)|].
Qed.

Lemma stridesInput_checked TS :
  wf TS → allLinks (λ n l, isPointerEdge l || instanceOk l.2 && (fieldEnd (sizeOf TS l.1) l.2 <=? sizeOf TS n)%Z) TS = true →
  forallb (λ n, (0 <=? sizeOf TS n)%Z && (sizeOf TS n <? 2 ^ 64)%Z) (layoutsRange TS) = true → stridesInput TS.
Proof.
  intros Hwf Hall Hs. rewrite forallb_forall in Hs.
  assert (∀ n t d, hasEdge TS n t d → getKind t ≠ LK_Pointer →
    instance_ok t ∧ (fieldEnd (sizeOf TS d) t ≤ sizeOf TS n)%Z) as Hl.
  { intros n t d He Ht. apply (allLinks_spec _ _ Hwf Hall) in He. cbn [fst snd] in He. apply orb_true_iff in He as [Hp|He].
    - by apply bool_decide_eq_true in Hp.
    - apply andb_true_iff in He as [?%instanceOk_spec ?%Z.leb_le]. done. }
  split.
  - intros s t d He Ht. by apply (Hl s t d).
  - intros n Hn. specialize (Hs n). rewrite <- list_elem_of_In, elem_of_layoutsRange in Hs by apply (wf_bound _ (proj1 Hwf)).
    specialize (Hs Hn). apply andb_true_iff in Hs as [?%Z.leb_le ?%Z.ltb_lt]. done.
  - intros n t d He Ht. by apply (Hl n t d).
Qed.
End sizes.

(** ** Examples *)

(** A structure with an array of three elements, whose stride is the size of an element
    or half of it, and an integer; something that contains it, and a node without a size
    and a pointer to it. *)
Definition arrayAt (Off Stride Count : Z) : TypeLinkTag := instanceTag (mkOE Off [Stride] [Some Count]).

Definition arrays (Stride : Z) (sizes : list Z) : LayoutTypeSystem listClasses :=
  orEmpty (build sizes [(0, instanceAt 0, 1); (1, arrayAt 0 Stride 3, 2); (1, instanceAt 0, 3); (4, pointerTag, 0); (0, instanceAt 4, 5)]%N).

Lemma arrays_wf Stride sizes : wf (arrays Stride sizes).
Proof. apply orEmpty_wf. Qed.

Definition sizesOf (TS : outcome (bool * LayoutTypeSystem listClasses)) : option (bool * list Z) :=
  match TS with Ok (c, TS) => Some (c, sizeOf TS <$> layoutsRange TS) | Fault _ => None end.

Lemma sizes_exact_witness :
  sizesOf (ComputeUpperMemberAccesses (arrays 4 [0; 0; 4; 1; 8; 2]%Z)) = Some (true, [12; 12; 4; 1; 8; 2]%Z) ∧
  ∃ size, exactSizes (arrays 4 [0; 0; 4; 1; 8; 2]%Z) size ∧
    ((∀ n, live (arrays 4 [0; 0; 4; 1; 8; 2]%Z) n → (0 < size n < 2 ^ 64)%Z) →
      ∃ c TS', ComputeUpperMemberAccesses (arrays 4 [0; 0; 4; 1; 8; 2]%Z) = Ok (c, TS') ∧
        resized (arrays 4 [0; 0; 4; 1; 8; 2]%Z) TS' size).
Proof.
  split; [vm_compute; reflexivity|].
  destruct (sizes_exact (arrays 4 [0; 0; 4; 1; 8; 2]%Z) (proj1 (arrays_wf _ _))) as (size & Hs & _ & Hrun).
  - apply acyclic_checked; [apply arrays_wf|vm_compute; reflexivity].
  - apply instances_checked; [apply arrays_wf|vm_compute; reflexivity].
  - exists size. split; [exact Hs|]. intros Hfit. destruct (Hrun Hfit) as (c & TS' & H1 & H2 & _). exists c, TS'. exact (conj H1 H2).
Defined.

Lemma pruned_exactly_witness :
  sizesOf (PruneLayoutNodesWithoutLayout (arrays 4 [0; 0; 4; 1; 8; 0]%Z)) = Some (true, [0; 0; 4; 1; 8]%Z) ∧
  ∃ c TS', PruneLayoutNodesWithoutLayout (arrays 4 [0; 0; 4; 1; 8; 0]%Z) = Ok (c, TS') ∧ verifyLeafs TS' = Ok true.
Proof.
  split; [vm_compute; reflexivity|].
  destruct (pruned_exactly (arrays 4 [0; 0; 4; 1; 8; 0]%Z) (arrays_wf _ _)) as (c & TS' & H1 & _ & H2 & _).
  - apply acyclic_checked; [apply arrays_wf|vm_compute; reflexivity].
  - exists c, TS'. exact (conj H1 H2).
Defined.

(** The size of a node that contains what has lost its array is not computed again. *)
Fact ancestors_keep_sizes :
  sizesOf (RemoveInvalidStrideEdges (arrays 2 [8; 8; 4; 1; 8; 2]%Z)) = Some (true, [8; 1; 4; 1; 8; 2]%Z).
Proof. vm_compute. reflexivity. Qed.

Lemma strides_fixed_witness :
  sizesOf (RemoveInvalidStrideEdges (arrays 2 [8; 8; 4; 1; 8; 2]%Z)) = Some (true, [8; 1; 4; 1; 8; 2]%Z) ∧
  ∃ c TS', RemoveInvalidStrideEdges (arrays 2 [8; 8; 4; 1; 8; 2]%Z) = Ok (c, TS') ∧ wf TS'.
Proof.
  split; [vm_compute; reflexivity|].
  destruct (strides_fixed (arrays 2 [8; 8; 4; 1; 8; 2]%Z) (arrays_wf _ _)) as (c & TS' & H1 & H2 & _).
  - apply acyclic_checked; [apply arrays_wf|vm_compute; reflexivity].
  - apply stridesInput_checked; [apply arrays_wf|vm_compute; reflexivity|vm_compute; reflexivity].
  - exists c, TS'. exact (conj H1 H2).
Defined.
