(* ===== verification/DLABackedges.v ===== *)
(** * Loops through links at an offset

    The removal of the instance links that close a loop together with links at offset 0
    (lib/DataLayoutAnalysis/Middleend/RemoveBackedges.cpp): a depth first visit with an
    explicit stack, from each root of the links at offset 0. *)

From stdpp Require Import gmap list sorting relations.
From S2P Require Import Prelude Reachability DLATypeSystem DLATypeSystemProperties DLAGraphs DLASizes.

(** ** Definitions *)

Section backedges.
  Context {E : Type} `{LLVMIntEqClasses E}.
  Implicit Types TS : LayoutTypeSystem E.
  Notation Link := (NodeID * TypeLinkTag)%type.

(* lib/DataLayoutAnalysis/Middleend/RemoveBackedges.cpp:41-44 isMixedEdge *)
Definition isMixedEdge (L : Link) : bool := isInstanceOff0 L || isInstanceOffNon0 L.

(* lib/DataLayoutAnalysis/Middleend/RemoveBackedges.cpp:46-50 isSCCLeaf *)
Definition isSCCLeaf (N : LayoutTypeSystemNode) : bool := negb (anyLink isInstanceOff0 (Successors N)).

(* lib/DataLayoutAnalysis/Middleend/RemoveBackedges.cpp:52-57 isSCCRoot *)
Definition isSCCRoot (N : LayoutTypeSystemNode) : bool := negb (anyLink isInstanceOff0 (Predecessors N)).

(* lib/DataLayoutAnalysis/Middleend/RemoveBackedges.cpp:59-62 hasNoSCCEdge *)
Definition hasNoSCCEdge (N : LayoutTypeSystemNode) : bool := isSCCRoot N && isSCCLeaf N.

(** [Src], [Tgt] and [Tag]. *)
(* lib/DataLayoutAnalysis/Middleend/RemoveBackedges.cpp:74-80 EdgeInfo *)
Definition EdgeInfo : Type := NodeID * NodeID * TypeLinkTag.

(** The leaders of the components are only written to the log. An iterator to the links
    of a node is the link before it and those from it on. *)
(* lib/DataLayoutAnalysis/Middleend/RemoveBackedges.cpp:67-72 StackEntry *)
Record StackEntry := mkEntry {
  Node : NodeID;
  Previous : option Link;
  NextToVisit : list Link;
}.

(** The stacks have their top first; [InStack] has the nodes of [VisitStack]. *)
(* lib/DataLayoutAnalysis/Middleend/RemoveBackedges.cpp:176-179 removeBackedgesFromSCC *)
Record Visit := mkVisit {
  VisitStack : list StackEntry;
  BackedgesOnStack : list EdgeInfo;
  Visited : gset NodeID;
  ToRemove : gset EdgeInfo;
}.

Definition InStack (v : Visit) : list NodeID := Node <$> VisitStack v.

(* lib/DataLayoutAnalysis/Middleend/RemoveBackedges.cpp:263-298 removeBackedgesFromSCC *)
Definition Pop (Back : StackEntry) (Stack : list StackEntry) (v : Visit) : outcome Visit :=
  match Stack with
  | [] => Ok (mkVisit [] (BackedgesOnStack v) (Visited v) (ToRemove v))
  | Parent :: _ =>
    match Previous Parent with
    | None => Fault AssertionFailed
    | Some (Tgt, Tag) =>
      if isInstanceOffNon0 (Tgt, Tag) then
        match BackedgesOnStack v with
        | [] => undefined
        | B :: Bs =>
          revng_assert (bool_decide (B = (Node Parent, Node Back, Tag)));;
          Ok (mkVisit Stack Bs (Visited v) (ToRemove v))
        end
      else Ok (mkVisit Stack (BackedgesOnStack v) (Visited v) (ToRemove v))
    end
  end.

(** With what the loop over the stack does when a loop is closed (lines 328 to 355). *)
(* lib/DataLayoutAnalysis/Middleend/RemoveBackedges.cpp:196-261 removeBackedgesFromSCC *)
Definition TryPushNextChild TS (Top : StackEntry) (Edge : Link) (Next : list Link) (Stack : list StackEntry) (v : Visit) : outcome Visit :=
  let Advanced := mkEntry (Node Top) (Some Edge) Next :: Stack in
  let NewEdge := (Node Top, Edge.1, Edge.2) in
  if decide (Edge.1 ∈ Visited v) then
    if decide (Edge.1 ∈ InStack v) then
      Ok (mkVisit Advanced (BackedgesOnStack v) (Visited v)
            (ToRemove v ∪ list_to_set (BackedgesOnStack v) ∪ (if isInstanceOffNon0 Edge then {[NewEdge]} else ∅)))
    else Ok (mkVisit Advanced (BackedgesOnStack v) (Visited v) (ToRemove v))
  else
    Child ← deref TS Edge.1;
    Ok (mkVisit (mkEntry Edge.1 None (childrenEdges isMixedEdge Child) :: Advanced)
          (if isInstanceOffNon0 Edge then NewEdge :: BackedgesOnStack v else BackedgesOnStack v)
          ({[Edge.1]} ∪ Visited v) (ToRemove v)).

(* lib/DataLayoutAnalysis/Middleend/RemoveBackedges.cpp:310-360 removeBackedgesFromSCC *)
Fixpoint visitLoop (fuel : nat) TS (v : Visit) : outcome Visit :=
  match VisitStack v with
  | [] => Ok v
  | Top :: Stack =>
    match fuel with
    | O => Fault OutOfFuel
    | S fuel =>
      v ← match NextToVisit Top with
          | [] => Pop Top Stack v
          | Edge :: Next => TryPushNextChild TS Top Edge Next Stack v
          end;
      visitLoop fuel TS v
    end
  end.

(** A step for every link, and one for every node that is left. *)
Definition cost TS (n : NodeID) : nat :=
  match Layouts TS !! n with Some N => S (length (childrenEdges isMixedEdge N)) | None => 0 end.

Definition visitFuel TS : nat := sum_list (cost TS <$> layoutsRange TS).

(* lib/DataLayoutAnalysis/Middleend/RemoveBackedges.cpp:300-308 removeBackedgesFromSCC *)
Definition startVisit (Root : NodeID) (R : LayoutTypeSystemNode) : Visit :=
  mkVisit [mkEntry Root None (childrenEdges isMixedEdge R)] [] {[Root]} ∅.

(* lib/DataLayoutAnalysis/Middleend/RemoveBackedges.cpp:363-373 removeBackedgesFromSCC *)
Definition removeEdge (I : EdgeInfo) TS : outcome (LayoutTypeSystem E) :=
  let '(Pred, Child, T) := I in
  revng_assert (isInstanceOffNon0 (Pred, T));;
  eraseEdge Pred (Child, T) TS.

(** The assertion that the root has a component is left out: a root that is visited has a
    link at offset 0, which gave it one. *)
(* lib/DataLayoutAnalysis/Middleend/RemoveBackedges.cpp:163-375 removeBackedgesFromSCC *)
Definition removeFromRoot (Root : NodeID) (s : bool * LayoutTypeSystem E) : outcome (bool * LayoutTypeSystem E) :=
  let (Changed, TS) := s in
  R ← deref TS Root;
  if hasNoSCCEdge R then Ok s else
  if negb (isSCCRoot R) then Ok s else
  v ← visitLoop (visitFuel TS) TS (startVisit Root R);
  TS ← forEachM removeEdge (elements (ToRemove v)) TS;
  Ok (Changed || bool_decide (ToRemove v ≠ ∅), TS).

(* lib/DataLayoutAnalysis/Middleend/RemoveBackedges.cpp:159-376 removeBackedgesFromSCC *)
Definition removeBackedgesFromSCC TS : outcome (bool * LayoutTypeSystem E) :=
  forEachM removeFromRoot (layoutsRange TS) (false, TS).

(** ** The visit of a stack *)

(** A link of the kinds that are visited. *)
Definition mixed TS (a b : NodeID) : Prop := ∃ t, hasEdge TS a t b ∧ isMixedEdge (b, t) = true.

Definition entry_ok TS (e : StackEntry) : Prop :=
  live TS (Node e) ∧ ∀ l, l ∈ NextToVisit e → hasEdge TS (Node e) l.2 l.1 ∧ isMixedEdge l = true.

(** The entry below another one has just followed a link to it. *)
Inductive chain TS : list StackEntry → Prop :=
  | chain_nil : chain TS []
  | chain_one e : entry_ok TS e → chain TS [e]
  | chain_cons e p l t : entry_ok TS e → Previous p = Some (Node e, t) → hasEdge TS (Node p) t (Node e) →
      isMixedEdge (Node e, t) = true → chain TS (p :: l) → chain TS (e :: p :: l).

Fixpoint pathBackedges (l : list StackEntry) : list EdgeInfo :=
  match l with
  | e :: ((p :: _) as l) =>
    match Previous p with
    | Some (n, t) => if isInstanceOffNon0 (n, t) then (Node p, n, t) :: pathBackedges l else pathBackedges l
    | None => pathBackedges l
    end
  | _ => []
  end.

Record visit_ok TS (v : Visit) : Prop := {
  vo_chain : chain TS (VisitStack v);
  vo_backedges : BackedgesOnStack v = pathBackedges (VisitStack v);
  vo_stack n : n ∈ InStack v → n ∈ Visited v;
  vo_remove s d t : (s, d, t) ∈ ToRemove v → hasEdge TS s t d ∧ isInstanceOffNon0 (d, t) = true;
  vo_acyclic : (∀ n, ¬ tc (mixed TS) n n) → ToRemove v = ∅;
}.

Lemma pathBackedges_spec TS l s d t :
  chain TS l → (s, d, t) ∈ pathBackedges l → hasEdge TS s t d ∧ isInstanceOffNon0 (d, t) = true.
Proof.
  induction 1 as [|e He|e p l u He Hp Hed Hm Hc IH]; cbn [pathBackedges]; [by intros ?%elem_of_nil..|].
  rewrite Hp. destruct (isInstanceOffNon0 (Node e, u)) eqn:Hn; [|done].
  intros [[= -> -> ->]|Hin]%elem_of_cons; [done|by apply IH].
Qed.

Lemma pathBackedges_top e e' l : Node e = Node e' → pathBackedges (e :: l) = pathBackedges (e' :: l).
Proof. intros Hn. destruct l; [done|]. cbn [pathBackedges]. done. Qed.

Lemma pathBackedges_push e p l n t : Previous p = Some (n, t) →
  pathBackedges (e :: p :: l) = if isInstanceOffNon0 (n, t) then (Node p, n, t) :: pathBackedges (p :: l) else pathBackedges (p :: l).
Proof. intros Hp. change (pathBackedges (e :: p :: l)) with (match Previous p with
    | Some (n, t) => if isInstanceOffNon0 (n, t) then (Node p, n, t) :: pathBackedges (p :: l) else pathBackedges (p :: l)
    | None => pathBackedges (p :: l) end). by rewrite Hp. Qed.

Lemma chain_path TS e l n : chain TS (e :: l) → n ∈ Node <$> e :: l → rtc (mixed TS) n (Node e).
Proof.
  revert e n. induction l as [|p l IH]; intros e n Hc Hn.
  - apply list_elem_of_singleton in Hn as ->. done.
  - inversion Hc as [| |? ? ? t He Hp Hed Hm Hc']; subst. rewrite fmap_cons in Hn. apply elem_of_cons in Hn as [->|Hn]; [done|].
    eapply rtc_r; [by apply IH|]. by exists t.
Qed.

Lemma chain_tail TS e l : chain TS (e :: l) → chain TS l.
Proof. inversion 1; [constructor|done]. Qed.

Lemma chain_head TS e l : chain TS (e :: l) → entry_ok TS e.
Proof. by inversion 1. Qed.

Lemma chain_advance TS e l x next prev :
  chain TS (e :: l) → NextToVisit e = x :: next → chain TS (mkEntry (Node e) prev next :: l).
Proof.
  intros Hc Hnext. assert (entry_ok TS (mkEntry (Node e) prev next)) as Hok.
  { apply chain_head in Hc as [Hl Hn]. split; [done|]. intros y Hy. apply Hn. rewrite Hnext. by right. }
  inversion Hc; subst; [by constructor|]. by econstructor.
Qed.

(** *** The steps that are left *)

Definition pending TS (V : gset NodeID) : nat := sum_list (cost TS <$> filter (λ n, n ∉ V) (layoutsRange TS)).

Definition measure TS (v : Visit) : nat :=
  sum_list ((λ e, S (length (NextToVisit e))) <$> VisitStack v) + pending TS (Visited v).

Lemma filter_in {A} (P Q : A → Prop) `{!∀ x, Decision (P x), !∀ x, Decision (Q x)} (l : list A) :
  (∀ x, x ∈ l → P x ↔ Q x) → filter P l = filter Q l.
Proof.
  induction l as [|x l IH]; intros Hl; [done|]. rewrite !filter_cons, IH by (intros y Hy; apply Hl; by right).
  specialize (Hl x (list_elem_of_here _ _)). by do 2 case_decide; naive_solver.
Qed.

Lemma NoDup_layoutsRange TS : NoDup (layoutsRange TS).
Proof. apply NoDup_filter. unfold indices. apply NoDup_fmap_2; [apply _|apply NoDup_seq]. Qed.

Lemma pending_visit TS V n :
  graph_wf TS → live TS n → n ∉ V → pending TS V = cost TS n + pending TS ({[n]} ∪ V).
Proof.
  intros Hwf Hn HnV. unfold pending. assert (n ∈ layoutsRange TS) as Hin by by apply elem_of_layoutsRange, Hn; apply (wf_bound _ Hwf).
  pose proof (NoDup_layoutsRange TS) as Hnd. revert Hin Hnd. induction (layoutsRange TS) as [|m l IH]; [by intros ?%elem_of_nil|].
  intros Hin [Hm Hnd]%NoDup_cons. rewrite !filter_cons. destruct (decide (m = n)) as [->|Hne].
  - rewrite decide_True, decide_False by set_solver. cbn. f_equal. f_equal. f_equal. apply filter_in. intros x Hx.
    assert (x ≠ n) by (by intros ->). set_solver.
  - apply elem_of_cons in Hin as [->|Hin]; [done|]. specialize (IH Hin Hnd).
    destruct (decide (m ∉ V)) as [HmV|HmV]; [rewrite decide_True by set_solver|rewrite decide_False by set_solver]; cbn; lia.
Qed.

Lemma mixed_instance (l : Link) : isMixedEdge l = isInstanceEdge l.
Proof. unfold isMixedEdge, isInstanceOffNon0, isInstanceOff0. by destruct (isInstanceEdge l), (Offset _ =? 0)%Z, (length _ =? 0), (length (TripCounts _) =? 0). Qed.

Lemma far_mixed (l : Link) : isInstanceOffNon0 l = true → isMixedEdge l = true.
Proof. unfold isMixedEdge. intros ->. by apply orb_true_r. Qed.

Lemma TryPushNextChild_ok TS Top Edge Next Stack v :
  graph_wf TS → visit_ok TS v → VisitStack v = Top :: Stack → NextToVisit Top = Edge :: Next →
  ∃ v', TryPushNextChild TS Top Edge Next Stack v = Ok v' ∧ visit_ok TS v' ∧ measure TS v' < measure TS v.
Proof.
  intros Hwf [Hc Hb Hs Hr Ha] Hv Hnext. rewrite Hv in *. destruct Edge as [d t].
  assert (hasEdge TS (Node Top) t d ∧ isMixedEdge (d, t) = true) as [He Hm].
  { apply (proj2 (chain_head _ _ _ Hc) (d, t)). rewrite Hnext. by left. }
  pose proof (chain_advance _ _ _ _ _ (Some (d, t)) Hc Hnext) as Hc'.
  assert (pathBackedges (mkEntry (Node Top) (Some (d, t)) Next :: Stack) = BackedgesOnStack v) as Hb'.
  { rewrite Hb. by apply pathBackedges_top. }
  assert (∀ n, n ∈ Node <$> (mkEntry (Node Top) (Some (d, t)) Next :: Stack) → n ∈ Visited v) as Hs'.
  { intros n Hn. apply Hs. unfold InStack. by rewrite Hv. }
  assert (∀ X Y, measure TS (mkVisit (mkEntry (Node Top) (Some (d, t)) Next :: Stack) X (Visited v) Y) < measure TS v) as Hmeas.
  { intros X Y. unfold measure. cbn [VisitStack Visited]. rewrite Hv. cbn. rewrite Hnext. cbn. lia. }
  unfold TryPushNextChild. cbn [fst snd]. destruct (decide (d ∈ Visited v)) as [Hd|Hd]; [destruct (decide (d ∈ InStack v)) as [Hin|Hin]|].
  - eexists. split; [done|]. split; [|apply Hmeas]. split; cbn [VisitStack BackedgesOnStack Visited ToRemove]; [done|done|done| |].
    + intros s d' t'. rewrite !elem_of_union, elem_of_list_to_set. intros [[Hx|Hx]|Hx]; [by apply Hr| |].
      * rewrite <- Hb' in Hx. by apply (pathBackedges_spec _ _ _ _ _ Hc').
      * destruct (isInstanceOffNon0 (d, t)) eqn:Hn; [|by apply elem_of_empty in Hx].
        apply elem_of_singleton in Hx as [= -> -> ->]. done.
    + intros Hac. exfalso. apply (Hac (Node Top)). eapply tc_rtc_r; [apply tc_once; by exists t|].
      apply (chain_path TS Top Stack d Hc). unfold InStack in Hin. by rewrite Hv in Hin.
  - eexists. split; [done|]. split; [|apply Hmeas]. by split.
  - destruct (wf_target TS Hwf _ _ _ He) as [D HD]. rewrite (deref_ok _ _ _ HD), bind_ok. eexists. split; [done|]. split.
    + split; cbn [VisitStack BackedgesOnStack Visited ToRemove].
      * eapply chain_cons; [|done|exact He|exact Hm|done]. split; [by eexists|]. intros [d' t'] Hl. cbn [Node NextToVisit] in *.
        apply elem_of_childrenEdges in Hl as [Hl Hml]. split; [by eexists|done].
      * erewrite pathBackedges_push by done. rewrite Hb'. by destruct (isInstanceOffNon0 (d, t)).
      * intros n Hn. unfold InStack in Hn. cbn [VisitStack] in Hn. rewrite fmap_cons in Hn.
        apply elem_of_cons in Hn as [->|Hn]; [cbn [Node]; set_solver|]. apply elem_of_union_r. by apply Hs'.
      * done.
      * done.
    + unfold measure. cbn [VisitStack Visited]. rewrite Hv. cbn. rewrite Hnext. cbn.
      rewrite (pending_visit TS (Visited v) d) by (done || by eexists). unfold cost at 1. rewrite HD. lia.
Qed.

Lemma Pop_ok TS Top Stack v :
  visit_ok TS v → VisitStack v = Top :: Stack → NextToVisit Top = [] →
  ∃ v', Pop Top Stack v = Ok v' ∧ visit_ok TS v' ∧ measure TS v' < measure TS v.
Proof.
  intros [Hc Hb Hs Hr Ha] Hv Hnext. rewrite Hv in *. unfold Pop.
  assert (∀ X Y, measure TS (mkVisit Stack X (Visited v) Y) < measure TS v) as Hmeas.
  { intros X Y. unfold measure. cbn [VisitStack Visited]. rewrite Hv. cbn. lia. }
  assert (∀ n, n ∈ Node <$> Stack → n ∈ Visited v) as Hs'.
  { intros n Hn. apply Hs. unfold InStack. rewrite Hv, fmap_cons. by right. }
  destruct Stack as [|Parent Stack].
  { eexists. split; [done|]. split; [|apply Hmeas]. split; cbn [VisitStack BackedgesOnStack Visited ToRemove]; [constructor|done..]. }
  inversion Hc as [| |? ? ? t He Hp Hed Hm Hc']; subst. rewrite Hp. cbn [pathBackedges] in Hb. rewrite Hp in Hb.
  destruct (isInstanceOffNon0 (Node Top, t)) eqn:Hn.
  - rewrite Hb. rewrite assert_true by by apply bool_decide_eq_true. eexists. split; [done|]. split; [|apply Hmeas]. by split.
  - eexists. split; [done|]. split; [|apply Hmeas]. by split.
Qed.

Lemma visitLoop_ok TS fuel v :
  graph_wf TS → visit_ok TS v → measure TS v ≤ fuel → ∃ v', visitLoop fuel TS v = Ok v' ∧ visit_ok TS v'.
Proof.
  intros Hwf. revert v. induction fuel as [|fuel IH]; intros v Hv Hm; cbn [visitLoop].
  - destruct (VisitStack v) as [|Top Stack] eqn:Hs; [by exists v|]. unfold measure in Hm. rewrite Hs in Hm. cbn in Hm. lia.
  - destruct (VisitStack v) as [|Top Stack] eqn:Hs; [by exists v|]. destruct (NextToVisit Top) as [|Edge Next] eqn:Hn.
    + destruct (Pop_ok TS Top Stack v Hv Hs Hn) as (v' & -> & Hv' & Hlt). rewrite bind_ok. apply IH; [done|lia].
    + destruct (TryPushNextChild_ok TS Top Edge Next Stack v Hwf Hv Hs Hn) as (v' & -> & Hv' & Hlt). rewrite bind_ok.
      apply IH; [done|lia].
Qed.

Lemma visitRoot_ok TS Root R :
  graph_wf TS → Layouts TS !! Root = Some R → ∃ v, visitLoop (visitFuel TS) TS (startVisit Root R) = Ok v ∧ visit_ok TS v.
Proof.
  intros Hwf HR. apply visitLoop_ok; [done| |].
  - split; cbn [startVisit VisitStack BackedgesOnStack Visited ToRemove]; [|done| | |done].
    + constructor. split; [by eexists|]. intros [d t] [Hl Hm]%elem_of_childrenEdges. split; [by eexists|done].
    + unfold InStack. cbn. intros n ->%list_elem_of_singleton. set_solver.
    + intros s d t Hx. by apply elem_of_empty in Hx.
  - unfold measure, visitFuel. cbn [startVisit VisitStack Visited fmap list_fmap sum_list].
    assert (sum_list (cost TS <$> layoutsRange TS) = pending TS ∅) as ->.
    { unfold pending. f_equal. f_equal. induction (layoutsRange TS) as [|n l IH]; [done|].
      rewrite filter_cons_True by apply not_elem_of_empty. by rewrite <- IH. }
    rewrite (pending_visit TS ∅ Root) by (done || (by eexists) || apply not_elem_of_empty).
    unfold cost. rewrite HR, union_empty_r_L. cbn. lia.
Qed.

(** *** The links that are removed *)

Lemma removeEdges_ok TS ls :
  wf TS → NoDup ls → (∀ s d t, (s, d, t) ∈ ls → hasEdge TS s t d ∧ isInstanceOffNon0 (d, t) = true) →
  ∃ TS', forEachM removeEdge ls TS = Ok TS' ∧ edited TS TS' (λ a u b, hasEdge TS a u b ∧ (a, b, u) ∉ ls).
Proof.
  revert TS. induction ls as [|[[s d] t] ls IH]; intros TS Hwf Hnd Hls.
  { exists TS. split; [done|]. split_and!; [done|apply unedited_refl|]. intros. split; [|naive_solver]. intros ?. split; [done|]. apply not_elem_of_nil. }
  apply NoDup_cons in Hnd as [Hd Hnd]. destruct (Hls s d t) as [He Hn]; [by left|].
  cbn [forEachM]. change (removeEdge (s, d, t) TS) with (revng_assert (isInstanceOffNon0 (s, t));; eraseEdge s (d, t) TS).
  rewrite assert_true by exact Hn.
  destruct (eraseEdge_ok TS s d t) as (TS1 & -> & Hwf1 & Hu1 & _ & Hed1); [apply Hwf|done|]. rewrite bind_ok.
  assert (edited TS TS1 (λ a u b, hasEdge TS a u b ∧ (a, u, b) ≠ (s, t, d))) as Hed by by apply edited_intro.
  destruct (IH TS1) as (TS2 & Hr & Hed2); [apply Hed|done| |].
  { intros s2 d2 t2 Hl. destruct (Hls s2 d2 t2) as [? ?]; [by right|]. split; [|done]. apply Hed1. split; [done|].
    by intros [= -> -> ->]. }
  exists TS2. split; [done|]. eapply edited_trans; [exact Hed|]. eapply edited_iff; [|exact Hed2].
  cbn. intros a u b. rewrite Hed1, not_elem_of_cons. split.
  - intros [[? Hne] ?]. split_and!; [done| |done]. by intros [= -> -> ->].
  - intros (? & Hne & ?). split_and!; [done| |done]. by intros [= -> -> ->].
Qed.

(** Some links at an offset have been removed, none of them when there is no loop. *)
Record cut TS (c : bool) TS' : Prop := {
  cut_wf : wf TS';
  cut_unedited : unedited TS TS';
  cut_sub a t b : hasEdge TS' a t b → hasEdge TS a t b;
  cut_kept a t b : hasEdge TS a t b → isInstanceOffNon0 (b, t) = false → hasEdge TS' a t b;
  cut_changed : c = true ↔ ∃ a t b, hasEdge TS a t b ∧ ¬ hasEdge TS' a t b;
  cut_acyclic : (∀ n, ¬ tc (mixed TS) n n) → c = false;
}.

Lemma removeFromRoot_ok TS0 c TS Root :
  cut TS0 c TS → live TS0 Root → ∃ c' TS', removeFromRoot Root (c, TS) = Ok (c', TS') ∧ cut TS0 c' TS'.
Proof.
  intros Hcut Hl. destruct (proj2 (un_live _ _ (cut_unedited _ _ _ Hcut) Root) Hl) as [R HR].
  unfold removeFromRoot. rewrite (deref_ok _ _ _ HR), bind_ok.
  destruct (hasNoSCCEdge R); [by eexists _, _|]. destruct (negb (isSCCRoot R)); [by eexists _, _|].
  pose proof (cut_wf _ _ _ Hcut) as Hwf. destruct (visitRoot_ok TS Root R (proj1 Hwf) HR) as (v & -> & Hv). rewrite bind_ok.
  destruct (removeEdges_ok TS (elements (ToRemove v))) as (TS' & -> & Hwf' & Hu & Hed); [done|apply NoDup_elements| |].
  { intros s d t Hx%elem_of_elements. by apply (vo_remove _ _ Hv). }
  rewrite bind_ok. eexists _, TS'. split; [done|]. setoid_rewrite elem_of_elements in Hed.
  assert (c || bool_decide (ToRemove v ≠ ∅) = true ↔ ∃ a t b, hasEdge TS0 a t b ∧ ¬ hasEdge TS' a t b) as Hc.
  { rewrite orb_true_iff, bool_decide_eq_true, (cut_changed _ _ _ Hcut). split.
    - intros [(a & t & b & He & Hno)|Hne].
      + exists a, t, b. split; [done|]. by intros [? _]%Hed.
      + apply set_choose_L in Hne as [[[s d] t] Hx]. exists s, t, d. split; [|by intros [_ ?]%Hed].
        apply (cut_sub _ _ _ Hcut). by apply (vo_remove _ _ Hv).
    - intros (a & t & b & He & Hno). destruct (decide ((a, b, t) ∈ ToRemove v)) as [Hx|Hx].
      + right. intros Hem. rewrite Hem in Hx. by apply elem_of_empty in Hx.
      + left. exists a, t, b. split; [done|]. intros He'. by apply Hno, Hed. }
  split; [done| | | |exact Hc|].
  - by eapply unedited_trans; [apply Hcut|].
  - intros a t b [He _]%Hed. by apply Hcut.
  - intros a t b He Hn. apply Hed. split; [by apply Hcut|]. intros Hx. apply (vo_remove _ _ Hv) in Hx as [_ ?]. congruence.
  - intros Hac. rewrite (cut_acyclic _ _ _ Hcut Hac). cbn. apply bool_decide_eq_false. intros Hne. apply Hne.
    apply (vo_acyclic _ _ Hv). intros n Hn. apply (Hac n). revert Hn. apply (tc_congruence id).
    intros a b (t & He & Hm). exists t. split; [by apply Hcut|done].
Qed.

(** C19: The removal of the links that close loops ends, on every type system, and only removes instance links that are not plain links at offset 0: the links at offset 0, the pointers, the nodes and the values they are the layout of are kept. It says that it has changed something exactly when a link was removed, and removes none when the instance links have no loop. *)
Theorem backedges_cut TS :
  wf TS →
  ∃ c TS', removeBackedgesFromSCC TS = Ok (c, TS') ∧ wf TS' ∧ unedited TS TS' ∧
    (∀ i n, layoutOf TS' i n ↔ layoutOf TS i n) ∧
    (∀ a t b, hasEdge TS' a t b → hasEdge TS a t b) ∧
    (∀ a t b, hasEdge TS a t b → getKind t ≠ LK_Instance ∨ OE t = offsetOnly 0 → hasEdge TS' a t b) ∧
    (c = true ↔ ∃ a t b, hasEdge TS a t b ∧ ¬ hasEdge TS' a t b) ∧
    (acyclic (filteredGraph isInstanceEdge TS) → c = false).
Proof.
  intros Hwf. unfold removeBackedgesFromSCC.
  assert (∀ ls c TS1, (∀ n, n ∈ ls → live TS n) → cut TS c TS1 →
    ∃ c' TS', forEachM removeFromRoot ls (c, TS1) = Ok (c', TS') ∧ cut TS c' TS') as Hloop.
  { intros ls. induction ls as [|n ls IH]; intros c TS1 Hl Hcut; [by exists c, TS1|]. cbn [forEachM].
    destruct (removeFromRoot_ok TS c TS1 n Hcut) as (c2 & TS2 & -> & Hcut2); [apply Hl; by left|]. rewrite bind_ok.
    apply IH; [|done]. intros m Hm. apply Hl. by right. }
  destruct (Hloop (layoutsRange TS) false TS) as (c & TS' & Hrun & Hcut).
  { intros n. apply elem_of_layoutsRange, (wf_bound _ (proj1 Hwf)). }
  { split; [done|apply unedited_refl|done|done| |done]. split; [done|]. by intros (a & t & b & ? & ?). }
  exists c, TS'. split_and!; [done|apply Hcut|apply Hcut| |apply Hcut| |apply Hcut|].
  - intros j n. by apply layout_unedited, Hcut.
  - intros a t b He Ht. apply (cut_kept _ _ _ Hcut); [done|]. unfold isInstanceOffNon0, isInstanceOff0, isInstanceEdge, hasLinkKind. cbn.
    destruct Ht as [Hk| ->]; [by rewrite bool_decide_eq_false_2|]. cbn. by destruct (bool_decide _).
  - intros Hac. apply (cut_acyclic _ _ _ Hcut). intros n Hn. apply (Hac n). revert Hn. apply (tc_congruence id).
    intros a b (t & He & Hm). apply view_edge. exists t. split; [done|]. by rewrite <- mixed_instance.
Qed.
End backedges.

(** *** Loops that are left, links that are on no loop *)

(** Two links at offsets go to nodes that both lead back: the second one is met when the
    node it goes to has a successor that has been visited. *)
Definition sharedLoops : LayoutTypeSystem listClasses :=
  orEmpty (build [8; 8; 8; 8; 8]%Z
    [(0, instanceAt 0, 1); (0, instanceAt 0, 3); (0, instanceAt 0, 4);
     (1, instanceAt 8, 3); (1, instanceAt 8, 4); (3, instanceAt 0, 2); (4, instanceAt 0, 2); (2, instanceAt 0, 1)]%N).

(** Two nodes that contain each other at an offset. *)
Definition farLoop : LayoutTypeSystem listClasses :=
  orEmpty (build [8; 8]%Z [(0, instanceAt 8, 1); (1, instanceAt 8, 0)]%N).

(** A loop that is reached by a link at an offset. *)
Definition reachedLoop : LayoutTypeSystem listClasses :=
  orEmpty (build [8; 8; 8; 8]%Z [(0, instanceAt 0, 1); (0, instanceAt 8, 2); (2, instanceAt 0, 3); (3, instanceAt 8, 2)]%N).

(** What a step gives, checked or looked into. *)
Definition verified (f : LayoutTypeSystem listClasses → outcome bool) (s : outcome (bool * LayoutTypeSystem listClasses)) : outcome bool :=
  s ← s; f s.2.

(** What the removal of loops leaves and takes: on systems without loops of links at offset 0, as the step asserts, there are loops it leaves, when a node on them had been visited on the way of another loop (first system), or when no link on them is at offset 0 (second); and it removes a link that is on no loop, because it was on the stack (third: nothing links to its source). *)
Theorem backedges_inexact :
  (verifyInstanceAtOffset0DAG sharedLoops = Ok true ∧
    verified verifyInstanceDAG (removeBackedgesFromSCC sharedLoops) = Ok false) ∧
  (verifyInstanceAtOffset0DAG farLoop = Ok true ∧
    verified verifyInstanceDAG (removeBackedgesFromSCC farLoop) = Ok false) ∧
  (verifyInstanceAtOffset0DAG reachedLoop = Ok true ∧
    (∀ s t, ¬ hasEdge reachedLoop s t 0%N) ∧ hasEdge reachedLoop 0 (instanceAt 8) 2%N ∧
    verified (λ TS, Ok (hasLink TS 0 (instanceAt 8) 2)) (removeBackedgesFromSCC reachedLoop) = Ok false).
Proof.
  split; [vm_compute; done|]. split; [vm_compute; done|]. split; [vm_compute; done|]. split.
  - intros s t He. pose proof (allLinks_spec (λ _ l, negb (l.1 =? 0)%N) reachedLoop (orEmpty_wf _ _)) as Hall.
    specialize (Hall ltac:(vm_compute; reflexivity) s t 0%N He). done.
  - split; [apply hasLink_spec; vm_compute; reflexivity|vm_compute; reflexivity].
Qed.

Lemma backedges_cut_witness :
  wf reachedLoop ∧ ∃ c TS', removeBackedgesFromSCC reachedLoop = Ok (c, TS') ∧ wf TS' ∧
    (∀ a t b, hasEdge TS' a t b → hasEdge reachedLoop a t b).
Proof.
  split; [apply orEmpty_wf|]. destruct (backedges_cut reachedLoop (orEmpty_wf _ _)) as (c & TS' & H1 & H2 & _ & _ & H3 & _).
  exists c, TS'. exact (conj H1 (conj H2 H3)).
Defined.
