(* ===== verification/DLAInterference.v ===== *)
(** * Children that overlap

    The last step of the data layout analysis
    (lib/DataLayoutAnalysis/Middleend/DLAComputeNonInterferingComponents.cpp): the
    children of a node whose bytes overlap are moved under a node of their own, a union,
    so that the children of the node do not overlap, as the fields of a structure. *)

From stdpp Require Import gmap list sorting relations.
From S2P Require Import Prelude Reachability DLATypeSystem DLATypeSystemProperties DLAGraphs DLASizes.

(** ** Definitions *)

Section components.
  Notation Link := (NodeID * TypeLinkTag)%type.

(* lib/DataLayoutAnalysis/Middleend/DLAComputeNonInterferingComponents.cpp:44-46 OrderedChild *)
Record OrderedChild := mkChild { ChildIt : Link; FieldSize : Z }.

(** The addresses of nodes are compared as their IDs. *)
(* lib/DataLayoutAnalysis/Middleend/DLAComputeNonInterferingComponents.cpp:49-63 OrderedChild::operator<=> *)
Definition compareChildren (a b : OrderedChild) : comparison :=
  lex (compareTags (ChildIt a).2 (ChildIt b).2) (lex (FieldSize a ?= FieldSize b)%Z ((ChildIt a).1 ?= (ChildIt b).1)%N).

(* lib/DataLayoutAnalysis/Middleend/DLAComputeNonInterferingComponents.cpp:65-66 OrderedChild::getBeginEndByte *)
Definition beginByte (c : OrderedChild) : Z := Offset (OE (ChildIt c).2).

(* lib/DataLayoutAnalysis/Middleend/DLAComputeNonInterferingComponents.cpp:65-69 OrderedChild::getBeginEndByte *)
Definition endByte (c : OrderedChild) : Z := wrap 64 (beginByte c + FieldSize c).

Definition childLe (a b : OrderedChild) : Prop := compareChildren b a ≠ Lt.

#[global] Instance childLe_dec a b : Decision (childLe a b).
Proof. unfold childLe. apply _. Defined.

(** The range of children is the list of them. *)
(* lib/DataLayoutAnalysis/Middleend/DLAComputeNonInterferingComponents.cpp:122-129 Component *)
Record Component := mkComponent {
  Elements : list OrderedChild;
  StartByte : Z;
  EndByte : Z;
}.

(* lib/DataLayoutAnalysis/Middleend/DLAComputeNonInterferingComponents.cpp:135-146 MakeNewComponentFromChild *)
Definition MakeNewComponentFromChild (c : OrderedChild) : Component := mkComponent [c] (beginByte c) (endByte c).

(* lib/DataLayoutAnalysis/Middleend/DLAComputeNonInterferingComponents.cpp:153-183 ComputeNonInterferingComponents::runOnTypeSystem *)
Fixpoint identifyComponents (CurrComp : Component) (Children : list OrderedChild) : outcome (list Component) :=
  match Children with
  | [] => Ok [CurrComp]
  | c :: Children =>
    revng_assert (StartByte CurrComp <? EndByte CurrComp);;
    let ChildSize := wrap 64 (endByte c - beginByte c) in
    revng_assert (0 <? ChildSize);;
    revng_assert (StartByte CurrComp <=? beginByte c);;
    if EndByte CurrComp <=? beginByte c
    then Components ← identifyComponents (MakeNewComponentFromChild c) Children; Ok (CurrComp :: Components)
    else identifyComponents
           (mkComponent (Elements CurrComp ++ [c]) (StartByte CurrComp) (Z.max (EndByte CurrComp) (wrap 64 (beginByte c + ChildSize))))
           Children
  end%Z.

(* lib/DataLayoutAnalysis/Middleend/DLAComputeNonInterferingComponents.cpp:199-201 HasManyElements *)
Definition HasManyElements (C : Component) : bool := 1 <? length (Elements C).

End components.

Section steps.
  Context {E : Type} `{LLVMIntEqClasses E, !LLVMGraphWalks NodeID}.
  Implicit Types TS : LayoutTypeSystem E.
  Notation Link := (NodeID * TypeLinkTag)%type.

(* lib/DataLayoutAnalysis/Middleend/DLAComputeNonInterferingComponents.cpp:77-89 ComputeNonInterferingComponents::runOnTypeSystem *)
Definition collectChildren (n : NodeID) TS : outcome (list OrderedChild) :=
  N ← deref TS n;
  mapM (λ L : Link, Child ← deref TS L.1; s ← getFieldSize (Size Child) L.2; Ok (mkChild L s)) (childrenEdges isNotPointerEdge N).

(* lib/DataLayoutAnalysis/Middleend/DLAComputeNonInterferingComponents.cpp:210-230 ComputeNonInterferingComponents::runOnTypeSystem *)
Definition separateComponent (n : NodeID) (C : Component) TS : outcome (LayoutTypeSystem E) :=
  '(New, TS) ← createArtificialLayoutType TS;
  TS ← modify (withInterfering AllChildrenAreInterfering) New TS;
  revng_assert (StartByte C <? EndByte C)%Z;;
  TS ← modify (withSize (wrap 64 (EndByte C - StartByte C))) New TS;
  TS ← forEachM (λ c, moveEdgeSource (Some n) (Some New) (ChildIt c) (- StartByte C)) (Elements C) TS;
  '(_, TS) ← addInstanceLink (Some n) (Some New) (offsetOnly (StartByte C)) TS;
  Ok TS.

(* lib/DataLayoutAnalysis/Middleend/DLAComputeNonInterferingComponents.cpp:186-233 ComputeNonInterferingComponents::runOnTypeSystem *)
Definition separateComponents (n : NodeID) (Components : list Component) (s : bool * LayoutTypeSystem E) :
  outcome (bool * LayoutTypeSystem E) :=
  let (Changed, TS) := s in
  match Components with
  | [] => Fault AssertionFailed
  | [C] =>
    TS ← modify (withInterfering (if HasManyElements C then AllChildrenAreInterfering else AllChildrenAreNonInterfering)) n TS;
    Ok (Changed, TS)
  | _ =>
    TS ← forEachM (separateComponent n) (filter (λ C, HasManyElements C) Components) TS;
    TS ← modify (withInterfering AllChildrenAreNonInterfering) n TS;
    Ok (Changed || existsb HasManyElements Components, TS)
  end.

(* lib/DataLayoutAnalysis/Middleend/DLAComputeNonInterferingComponents.cpp:42-233 ComputeNonInterferingComponents::runOnTypeSystem *)
Definition computeComponents (n : NodeID) (s : bool * LayoutTypeSystem E) : outcome (bool * LayoutTypeSystem E) :=
  let (Changed, TS) := s in
  N ← deref TS n;
  revng_assert (negb (Size N =? 0)%Z);;
  Children ← collectChildren n TS;
  match merge_sort childLe Children with
  | [] | [_] => TS ← modify (withInterfering AllChildrenAreNonInterfering) n TS; Ok (Changed, TS)
  | c :: Children =>
    Components ← identifyComponents (MakeNewComponentFromChild c) Children;
    separateComponents n Components (Changed, TS)
  end.

(** A new node is not a root, since its component is linked to it. *)
(* lib/DataLayoutAnalysis/Middleend/DLAComputeNonInterferingComponents.cpp:27-241 ComputeNonInterferingComponents::runOnTypeSystem *)
Definition ComputeNonInterferingComponents TS : outcome (bool * LayoutTypeSystem E) :=
  forEachRoot (λ _, true) (isRoot LK_All) isNotPointerEdge snd computeComponents (layoutsRange TS) (false, TS).

End steps.

(** ** Components *)

(** A child whose bytes are those of an address space of 64 bits. *)
Definition child_ok (c : OrderedChild) : Prop :=
  (0 ≤ beginByte c ∧ 0 < FieldSize c ∧ beginByte c + FieldSize c < 2 ^ 64)%Z.

Lemma endByte_exact c : child_ok c → endByte c = (beginByte c + FieldSize c)%Z.
Proof. intros (? & ? & ?). apply wrap_small. unfold in_width. lia. Qed.

(** The bytes of a component are those of its children, each of which, but for the first,
    overlaps one before it. *)
Record component_ok (C : Component) : Prop := {
  co_start : ∃ c l, Elements C = c :: l ∧ beginByte c = StartByte C;
  co_in c : c ∈ Elements C → (StartByte C ≤ beginByte c ∧ endByte c ≤ EndByte C)%Z;
  co_end : ∃ c, c ∈ Elements C ∧ endByte c = EndByte C;
  co_overlap pre c post : Elements C = pre ++ c :: post → pre ≠ [] → ∃ p, p ∈ pre ∧ (beginByte p ≤ beginByte c < endByte p)%Z;
}.

Lemma component_one c : component_ok (MakeNewComponentFromChild c).
Proof.
  split; cbn.
  - by exists c, [].
  - intros d ->%list_elem_of_singleton. done.
  - exists c. split; [by left|done].
  - intros pre d post Heq Hpre. destruct pre as [|x pre]; [done|]. injection Heq as _ Heq. by destruct pre.
Qed.

Lemma component_snoc C c :
  component_ok C → child_ok c → (∀ p, p ∈ Elements C → beginByte p ≤ beginByte c)%Z → (beginByte c < EndByte C)%Z →
  component_ok (mkComponent (Elements C ++ [c]) (StartByte C) (Z.max (EndByte C) (endByte c))).
Proof.
  intros [(h & l & Hl & Hh) Hin (e & He & Hee) Hov] Hc Hsort Hlt. split; cbn.
  - exists h, (l ++ [c]). by rewrite Hl.
  - intros d [Hd| ->%list_elem_of_singleton]%elem_of_app; [destruct (Hin d Hd); lia|]. split; [|lia].
    rewrite <- Hh. apply Hsort. rewrite Hl. by left.
  - destruct (Z.le_ge_cases (EndByte C) (endByte c)).
    + exists c. rewrite elem_of_app, list_elem_of_singleton. split; [by right|lia].
    + exists e. rewrite elem_of_app. split; [by left|lia].
  - intros pre d post Heq Hpre. destruct post as [|x post _] using rev_ind.
    + apply app_inj_tail in Heq as [<- <-]. exists e. split; [done|]. rewrite Hee. split; [by apply Hsort|done].
    + rewrite app_comm_cons, app_assoc in Heq. apply app_inj_tail in Heq as [Heq _]. by apply (Hov pre d post).
Qed.

Lemma identifyComponents_ok C l :
  component_ok C → Forall child_ok l → (∀ c, c ∈ Elements C → child_ok c) →
  StronglySorted (λ a b, beginByte a ≤ beginByte b)%Z (Elements C ++ l) →
  ∃ Cs, identifyComponents C l = Ok Cs ∧ concat (Elements <$> Cs) = Elements C ++ l ∧ Forall component_ok Cs ∧
    StronglySorted (λ A B, EndByte A ≤ StartByte B)%Z Cs ∧ (∀ D, D ∈ Cs → StartByte C ≤ StartByte D)%Z.
Proof.
  revert C. induction l as [|c l IH]; intros C HC Hl HCl Hsort; cbn [identifyComponents].
  { exists [C]. split_and!; [done|by cbn; rewrite app_nil_r|by constructor|by repeat constructor|].
    intros D ->%list_elem_of_singleton. done. }
  apply Forall_cons in Hl as [Hc Hl].
  assert (∀ p, p ∈ Elements C → beginByte p ≤ beginByte c)%Z as Hle.
  { intros p Hp. by apply (StronglySorted_app_1_elem_of _ _ _ p c Hsort Hp); left. }
  assert (StartByte C ≤ beginByte c)%Z as Hstart.
  { destruct (co_start _ HC) as (h & k & Hh & <-). apply Hle. rewrite Hh. by left. }
  assert (StartByte C < EndByte C)%Z as Hpos.
  { destruct (co_start _ HC) as (h & k & Hh & Hs). assert (h ∈ Elements C) as Hin by (rewrite Hh; by left).
    destruct (co_in _ HC h Hin) as [_ He]. rewrite (endByte_exact h) in He by by apply HCl. destruct (HCl h Hin) as (? & ? & ?). lia. }
  pose proof (endByte_exact c Hc) as Hend. destruct Hc as (Hc1 & Hc2 & Hc3).
  rewrite assert_true by by apply Z.ltb_lt. rewrite Hend.
  replace (beginByte c + FieldSize c - beginByte c)%Z with (FieldSize c) by lia.
  rewrite (wrap_small 64 (FieldSize c)), (wrap_small 64 (beginByte c + FieldSize c)) by (unfold in_width; lia). rewrite assert_true by by apply Z.ltb_lt.
  rewrite assert_true by by apply Z.leb_le. destruct (Z.leb_spec (EndByte C) (beginByte c)) as [Hb|Hb].
  - destruct (IH (MakeNewComponentFromChild c)) as (Cs & -> & Hcat & Hok & Hss & Hmin); [apply component_one|done| | |].
    { intros d ->%list_elem_of_singleton. done. }
    { by apply StronglySorted_app_1_r in Hsort. }
    rewrite bind_ok. exists (C :: Cs). cbn in Hmin. split_and!; [done| | | |].
    + cbn in *. by rewrite Hcat.
    + by constructor.
    + constructor; [done|]. apply Forall_forall. intros D HD. specialize (Hmin D HD). lia.
    + intros D [->|HD]%elem_of_cons; [done|]. specialize (Hmin D HD). lia.
  - rewrite <- Hend. destruct (IH (mkComponent (Elements C ++ [c]) (StartByte C) (Z.max (EndByte C) (endByte c)))) as (Cs & -> & Hcat & Hrest).
    + by apply component_snoc.
    + done.
    + cbn. intros d [Hd| ->%list_elem_of_singleton]%elem_of_app; [by apply HCl|done].
    + cbn. by rewrite <- app_assoc.
    + exists Cs. cbn in *. split; [done|]. by rewrite <- app_assoc in Hcat.
Qed.

(** *** The order of the children *)

Lemma compareLists_opp {A} (cmp : A → A → comparison) l k :
  (∀ x y, cmp x y = CompOpp (cmp y x)) → compareLists cmp l k = CompOpp (compareLists cmp k l).
Proof.
  intros Hc. revert k. induction l as [|x l IH]; intros [|y k]; cbn; [done..|]. by apply lex_opp.
Qed.

Lemma compareTags_opp t u : compareTags t u = CompOpp (compareTags u t).
Proof.
  unfold compareTags, compareOE. apply lex_opp; [by rewrite Nat.compare_antisym|].
  apply lex_opp; [by rewrite Z.compare_antisym|].
  apply lex_opp; apply compareLists_opp; [intros x y; by rewrite Z.compare_antisym|].
  intros [x|] [y|]; cbn; [by rewrite Z.compare_antisym|done..].
Qed.

Lemma compareChildren_opp a b : compareChildren a b = CompOpp (compareChildren b a).
Proof.
  unfold compareChildren. apply lex_opp; [apply compareTags_opp|].
  apply lex_opp; [by rewrite Z.compare_antisym|by rewrite N.compare_antisym].
Qed.

#[global] Instance childLe_total : Total childLe.
Proof. intros a b. unfold childLe. rewrite (compareChildren_opp b a). destruct (compareChildren a b); auto. Qed.

Lemma childLe_begin a b :
  getKind (ChildIt a).2 = LK_Instance → getKind (ChildIt b).2 = LK_Instance → childLe a b → (beginByte a ≤ beginByte b)%Z.
Proof.
  unfold childLe, compareChildren, compareTags, compareOE, beginByte. intros -> -> Hle. cbn in Hle.
  destruct (Z.compare_spec (Offset (OE (ChildIt b).2)) (Offset (OE (ChildIt a).2))) as [Heq|Hlt|Hgt]; [lia| |lia].
  by cbn in Hle.
Qed.

Lemma sorted_begins l :
  (∀ c, c ∈ l → getKind (ChildIt c).2 = LK_Instance) →
  StronglySorted (λ a b, beginByte a ≤ beginByte b)%Z (merge_sort childLe l).
Proof.
  intros Hk. pose proof (Sorted_merge_sort childLe l) as Hs.
  assert (∀ c, c ∈ merge_sort childLe l → getKind (ChildIt c).2 = LK_Instance) as Hk'.
  { intros c. rewrite merge_sort_Permutation. apply Hk. }
  revert Hs Hk'. generalize (merge_sort childLe l). clear l Hk. intros l Hs Hk.
  assert (Sorted (λ a b, beginByte a ≤ beginByte b)%Z l) as Hb.
  { induction Hs as [|a l Hs IH Ha]; constructor.
    - apply IH. intros c Hc. apply Hk. by right.
    - destruct Ha as [|b l Hab]; constructor. apply childLe_begin; [apply Hk; by left|apply Hk; right; by left|done]. }
  apply Sorted_StronglySorted; [intros a b c; lia|done].
Qed.

(** ** The separation of a component *)

Lemma forEachM_fmap {A B T} (f : B → T → outcome T) (g : A → B) l s :
  forEachM (λ x, f (g x)) l s = forEachM f (g <$> l) s.
Proof. revert s. induction l as [|x l IH]; intros s; [done|]. cbn. destruct (f (g x) s); [|done]. cbn. apply IH. Qed.

Lemma forEachM_app {A T} (f : A → T → outcome T) l k s : forEachM f (l ++ k) s = s ← forEachM f l s; forEachM f k s.
Proof. revert s. induction l as [|x l IH]; intros s; [done|]. cbn. destruct (f x s); [|done]. cbn. apply IH. Qed.

(** A link at an offset that is smaller by that of the component. *)
Definition shifted (s : Z) (t : TypeLinkTag) : TypeLinkTag :=
  instanceTag (mkOE (Offset (OE t) - s) (Strides (OE t)) (TripCounts (OE t))).

Definition atOffset (s : Z) : TypeLinkTag := instanceTag (offsetOnly s).

Section separation.
  Context {E : Type} `{LLVMIntEqClasses E, !LLVMGraphWalks NodeID}.
  Implicit Types TS : LayoutTypeSystem E.
  Notation Link := (NodeID * TypeLinkTag)%type.
  Notation dag TS := (acyclic (filteredGraph isNotPointerEdge TS)).

(** The links that move under the node of a component at [s]. *)
Definition movable (s : Z) (t : TypeLinkTag) : Prop :=
  getKind t = LK_Instance ∧ (0 ≤ s ≤ Offset (OE t))%Z ∧ (Offset (OE t) ≤ 65535)%Z.

Lemma moveDown_ok TS n New s t d :
  graph_wf TS → hasEdge TS n t d → movable s t → live TS New → New ≠ d →
  ∃ TS', moveEdgeSource (Some n) (Some New) (d, t) (- s) TS = Ok TS' ∧ graph_wf TS' ∧ unedited TS TS' ∧
    ∀ a u b, hasEdge TS' a u b ↔ hasEdge TS a u b ∧ (a, u, b) ≠ (n, t, d) ∨ (a, u, b) = (New, shifted s t, d).
Proof.
  intros Hwf He (Hk & [Hs1 Hs2] & Ho) HNew Hne. destruct (decide (s = 0)%Z) as [->|Hs].
  - assert (shifted 0 t = t) as ->.
    { unfold shifted. rewrite Z.sub_0_r. destruct t as [k [o ss cs]]. cbn in *. by rewrite Hk. }
    unfold moveEdgeSource. cbn [Z.opp Z.eqb]. by apply moveEdgeSourceWithoutSumming_ok.
  - destruct (moveEdgeSource_ok TS n New d t (- s)) as (TS' & -> & Hwf' & Hu & Hed); [done|done|done|done|lia|].
    exists TS'. split_and!; [done|done|done|]. intros a u b. rewrite Hed.
    assert (movedBy (- s) t = mkOE (Offset (OE t) - s) (Strides (OE t)) (TripCounts (OE t))) as ->.
    { unfold movedBy. f_equal. rewrite wrap_small; [lia|unfold in_width; lia]. }
    fold (shifted s t). cbn [Offset]. split; (intros [?|Hx]; [by left|right]); [apply Hx|]. split_and!; [done|done|lia].
Qed.

Lemma moveAllDown_ok TS n New s ls :
  graph_wf TS → live TS New → NoDup ls → n ≠ New →
  (∀ d t, (d, t) ∈ ls → hasEdge TS n t d ∧ movable s t ∧ New ≠ d) →
  ∃ TS', forEachM (λ l, moveEdgeSource (Some n) (Some New) l (- s)) ls TS = Ok TS' ∧ graph_wf TS' ∧ unedited TS TS' ∧
    ∀ a u b, hasEdge TS' a u b ↔
      hasEdge TS a u b ∧ ¬ (a = n ∧ (b, u) ∈ ls) ∨ a = New ∧ ∃ t, (b, t) ∈ ls ∧ u = shifted s t.
Proof.
  intros Hwf HNew Hnd Hn Hls. revert TS Hwf HNew Hls. induction ls as [|[d t] ls IH]; intros TS Hwf HNew Hls.
  { exists TS. split_and!; [done|done|apply unedited_refl|]. intros a u b. split.
    - intros ?. left. split; [done|]. by intros [_ ?%elem_of_nil].
    - intros [[? _]|(_ & t & ?%elem_of_nil & _)]; done. }
  apply NoDup_cons in Hnd as [Hd Hnd]. destruct (Hls d t) as (He & Hm & Hne); [by left|]. cbn [forEachM].
  destruct (moveDown_ok TS n New s t d) as (TS1 & -> & Hwf1 & Hu1 & Hed1); [done..|]. rewrite bind_ok.
  destruct (IH Hnd TS1) as (TS2 & -> & Hwf2 & Hu2 & Hed2); [done|by apply (un_live _ _ Hu1)| |].
  { intros d' t' Hl. destruct (Hls d' t') as (He' & ? & ?); [by right|]. split; [|done]. apply Hed1. left. split; [done|].
    by intros [= -> ->]. }
  exists TS2. split_and!; [done|done|by eapply unedited_trans|]. intros a u b. rewrite Hed2, Hed1. split.
  - intros [[[[? Hx]|[= -> -> ->]] Hno]|(-> & t0 & Hin & ->)].
    + left. split; [done|]. intros [-> [[= -> ->]|Hin]%elem_of_cons]; [done|by apply Hno].
    + right. split; [done|]. exists t. split; [by left|done].
    + right. split; [done|]. exists t0. split; [by right|done].
  - intros [[? Hno]|(-> & t0 & [[= -> ->]|Hin]%elem_of_cons & ->)].
    + left. split; [left; split; [done|]|].
      * intros [= -> -> ->]. apply Hno. split; [done|by left].
      * intros [-> Hin]. apply Hno. split; [done|by right].
    + left. split; [by right|]. by intros [? _].
    + right. split; [done|]. by exists t0.
Qed.

(** What the separation of a component makes of a type system: [New] is [NID TS]. *)
Record separated (n : NodeID) (ls : list Link) (s z : Z) TS TS' : Prop := {
  sp_wf : wf TS';
  sp_NID : NID TS' = (NID TS + 1)%N;
  sp_live m : live TS' m ↔ live TS m ∨ m = NID TS;
  sp_old m N N' : Layouts TS !! m = Some N → Layouts TS' !! m = Some N' →
    Size N' = Size N ∧ InterferingInfo N' = InterferingInfo N;
  sp_new N' : Layouts TS' !! NID TS = Some N' → Size N' = z ∧ InterferingInfo N' = AllChildrenAreInterfering;
  sp_layout i m : (i < NID TS)%N → layoutOf TS' i m ↔ layoutOf TS i m;
  sp_edges a u b : hasEdge TS' a u b ↔
    hasEdge TS a u b ∧ ¬ (a = n ∧ (b, u) ∈ ls) ∨
    a = n ∧ u = atOffset s ∧ b = NID TS ∨
    a = NID TS ∧ ∃ t, (b, t) ∈ ls ∧ u = shifted s t;
}.

Lemma separateComponent_ok TS n C :
  wf TS → live TS n → NoDup (ChildIt <$> Elements C) → (0 ≤ StartByte C < EndByte C)%Z → (EndByte C < 2 ^ 64)%Z →
  (StartByte C ≤ 65535)%Z →
  (∀ d t, (d, t) ∈ ChildIt <$> Elements C → hasEdge TS n t d ∧ movable (StartByte C) t) →
  ∃ TS', separateComponent n C TS = Ok TS' ∧
    separated n (ChildIt <$> Elements C) (StartByte C) (EndByte C - StartByte C) TS TS'.
Proof.
  intros Hwf Hn Hnd [HS HE] HE64 HSmax Hls. unfold separateComponent.
  destruct (createArtificialLayoutType_ok TS Hwf) as (TS1 & -> & Hwf1 & HN1 & _ & HL1 & Hed1 & Hlo1). rewrite bind_ok.
  set (New := NID TS) in *. assert (live TS1 New) as HNew by (unfold live; rewrite HL1, lookup_insert_eq; by eexists).
  assert (∀ m, live TS m → m ≠ New) as Hfresh by (intros m Hm ->; apply (wf_bound _ (proj1 Hwf)) in Hm; unfold New in Hm; lia).
  assert (∀ m, live TS1 m ↔ live TS m ∨ m = New) as Hl1.
  { intros m. unfold live. rewrite HL1. destruct (decide (m = New)) as [->|]; [rewrite lookup_insert_eq|rewrite lookup_insert_ne by done].
    - split; [by right|by eexists].
    - split; [by left|by intros [?|?]]. }
  destruct (attribute_edit (withInterfering AllChildrenAreInterfering) TS1 New) as (-> & Hwf2 & Hed2); [done|done|done|]. rewrite bind_ok.
  set (TS2 := withLayouts _ TS1) in *. rewrite assert_true by by apply Z.ltb_lt.
  assert (live TS2 New) as HNew2 by by apply live_alter.
  destruct (attribute_edit (withSize (wrap 64 (EndByte C - StartByte C))) TS2 New) as (-> & Hwf3 & Hed3); [done|done|done|]. rewrite bind_ok.
  set (TS3 := withLayouts _ TS2) in *. assert (live TS3 New) as HNew3 by by apply live_alter.
  rewrite (forEachM_fmap (λ l, moveEdgeSource (Some n) (Some New) l (- StartByte C)) ChildIt).
  destruct (moveAllDown_ok TS3 n New (StartByte C) (ChildIt <$> Elements C)) as (TS4 & -> & Hwf4 & Hu4 & Hed4);
    [apply Hwf3|done|done|by apply Hfresh| |].
  { intros d t Hl. destruct (Hls d t Hl) as [He Hm]. split; [by rewrite Hed3, Hed2, Hed1|]. split; [done|].
    intros <-. apply (Hfresh New); [|done]. by eapply wf_target; [apply Hwf|]. }
  rewrite bind_ok. destruct (addInstanceLink_ok TS4 n New (offsetOnly (StartByte C))) as (r & TS5 & -> & Hwf5 & Hu5 & Hed5).
  { done. } { apply (un_live _ _ Hu4). unfold TS3, TS2. rewrite !live_alter. apply Hl1. by left. } { by apply (un_live _ _ Hu4). }
  rewrite bind_ok. exists TS5. split; [done|]. pose proof (unedited_trans _ _ _ Hu4 Hu5) as Hu.
  assert (∀ m, Layouts TS3 !! m = if decide (m = New) then Some (mkNode ∅ ∅ (EndByte C - StartByte C) AllChildrenAreInterfering false)
    else Layouts TS !! m) as HL3.
  { intros m. unfold TS3, TS2. cbn. rewrite HL1. destruct (decide (m = New)) as [->|Hm].
    - rewrite !lookup_alter_eq, lookup_insert_eq. cbn. unfold withSize, withInterfering. cbn. do 2 f_equal.
      apply wrap_small. unfold in_width. lia.
    - by rewrite !lookup_alter_ne, lookup_insert_ne. }
  split.
  - split; [done|]. eapply classes_unedited; [exact Hu|]. apply Hwf3.
  - rewrite (un_NID _ _ Hu). exact HN1.
  - intros m. rewrite (un_live _ _ Hu). unfold TS3, TS2. by rewrite !live_alter.
  - intros m N N' HN HN'. assert (m ≠ New) by (apply Hfresh; by eexists).
    destruct (un_attributes _ _ Hu m N N') as (? & _ & ?); [by rewrite HL3, decide_False|done|done].
  - intros N' HN'. edestruct (un_attributes _ _ Hu New) as (-> & _ & ->); [by rewrite HL3, decide_True|done|done].
  - intros j m Hj. rewrite (layout_unedited _ _ _ _ Hu). transitivity (layoutOf TS1 j m).
    + unfold layoutOf at 1. unfold TS3 at 1, TS2 at 1. by rewrite !live_alter.
    + rewrite Hlo1 by lia. split; [intros [[? _]|[-> _]]; [done|unfold New in Hj; lia]|by left].
  - intros a u b. rewrite Hed5, Hed4, Hed3, Hed2, Hed1. fold (atOffset (StartByte C)). split.
    + intros [[?|?]|([= -> -> ->] & _)]; [by left|by right; right|right; left; done].
    + intros [?|[(-> & -> & ->)|?]]; [left; by left|right|left; by right]. split_and!; [done|by apply Hfresh|done].
Qed.

(** The separation of several components, whose nodes have the next IDs. *)
Definition newAt TS (i : nat) : NodeID := (NID TS + N.of_nat i)%N.

Definition linksOf (C : Component) : list Link := ChildIt <$> Elements C.

Record separatedAll (n : NodeID) (Cs : list Component) TS TS' : Prop := {
  sa_wf : wf TS';
  sa_NID : (NID TS ≤ NID TS')%N;
  sa_live m : live TS' m ↔ live TS m ∨ ∃ i C, Cs !! i = Some C ∧ m = newAt TS i;
  sa_old m N N' : Layouts TS !! m = Some N → Layouts TS' !! m = Some N' →
    Size N' = Size N ∧ InterferingInfo N' = InterferingInfo N;
  sa_new i C N' : Cs !! i = Some C → Layouts TS' !! newAt TS i = Some N' →
    Size N' = (EndByte C - StartByte C)%Z ∧ InterferingInfo N' = AllChildrenAreInterfering;
  sa_layout j m : (j < NID TS)%N → layoutOf TS' j m ↔ layoutOf TS j m;
  sa_edges a u b : hasEdge TS' a u b ↔
    hasEdge TS a u b ∧ ¬ (a = n ∧ ∃ C, C ∈ Cs ∧ (b, u) ∈ linksOf C) ∨
    ∃ i C, Cs !! i = Some C ∧
      (a = n ∧ u = atOffset (StartByte C) ∧ b = newAt TS i ∨
       a = newAt TS i ∧ ∃ t, (b, t) ∈ linksOf C ∧ u = shifted (StartByte C) t);
}.

Record separable TS (n : NodeID) (C : Component) : Prop := {
  se_bytes : (0 ≤ StartByte C < EndByte C)%Z;
  se_end : (EndByte C < 2 ^ 64)%Z;
  se_start : (StartByte C ≤ 65535)%Z;
  se_links d t : (d, t) ∈ linksOf C → hasEdge TS n t d ∧ movable (StartByte C) t;
}.

Lemma newAt_fresh TS i m : wf TS → live TS m → m ≠ newAt TS i.
Proof. intros Hwf Hm ->. apply (wf_bound _ (proj1 Hwf)) in Hm. unfold newAt in Hm. lia. Qed.

Lemma separatedAll_step n C Cs TS TS1 TS2 :
  wf TS → live TS n → (∀ D d t, D ∈ Cs → (d, t) ∈ linksOf D → live TS d) →
  separated n (linksOf C) (StartByte C) (EndByte C - StartByte C) TS TS1 → separatedAll n Cs TS1 TS2 →
  separatedAll n (C :: Cs) TS TS2.
Proof.
  intros Hwf Hn Hlinks Hs Ha. assert (newAt TS 0 = NID TS) as Hnew0 by (unfold newAt; lia).
  assert (∀ i, newAt TS1 i = newAt TS (S i)) as HnewS by (intros i; unfold newAt; rewrite (sp_NID _ _ _ _ _ _ Hs); lia).
  assert (live TS1 n) as Hn1 by (apply (sp_live _ _ _ _ _ _ Hs); by left).
  split.
  - apply Ha.
  - pose proof (sa_NID _ _ _ _ Ha). rewrite (sp_NID _ _ _ _ _ _ Hs) in *. lia.
  - intros m. rewrite (sa_live _ _ _ _ Ha), (sp_live _ _ _ _ _ _ Hs). split.
    + intros [[?| ->]|(i & D & HD & ->)]; [by left|right; by exists 0, C|right; exists (S i), D; by rewrite HnewS].
    + intros [?|Hx]; [left; by left|]. destruct Hx as (i & D & HD & ->). destruct i as [|i].
      * left; right. by rewrite Hnew0.
      * right. exists i, D. by rewrite HnewS.
  - intros m N N2 HN HN2. assert (live TS1 m) as [N1 HN1] by (apply (sp_live _ _ _ _ _ _ Hs); left; by eexists).
    destruct (sp_old _ _ _ _ _ _ Hs m N N1 HN HN1). destruct (sa_old _ _ _ _ Ha m N1 N2 HN1 HN2). split; congruence.
  - intros i D N2 HD HN2. destruct i as [|i].
    + injection HD as <-. rewrite Hnew0 in HN2. assert (live TS1 (NID TS)) as [N1 HN1] by (apply (sp_live _ _ _ _ _ _ Hs); by right).
      destruct (sp_new _ _ _ _ _ _ Hs N1 HN1). destruct (sa_old _ _ _ _ Ha _ N1 N2 HN1 HN2). split; congruence.
    + rewrite <- HnewS in HN2. by apply (sa_new _ _ _ _ Ha i D N2).
  - intros j m Hj. rewrite (sa_layout _ _ _ _ Ha) by (rewrite (sp_NID _ _ _ _ _ _ Hs); lia). by apply (sp_layout _ _ _ _ _ _ Hs).
  - intros a u b. rewrite (sa_edges _ _ _ _ Ha), (sp_edges _ _ _ _ _ _ Hs). rewrite <- Hnew0.
    assert (n ≠ newAt TS 0) as Hne by by apply newAt_fresh.
    split.
    + intros [[[[He Hno1]|[(-> & -> & ->)|(-> & t & Hl & ->)]] Hno2]|(i & D & HD & Hcase)].
      * left. split; [done|]. intros (-> & D & [->|HD]%elem_of_cons & Hl); [by apply Hno1|]. apply Hno2. split; [done|]. by exists D.
      * right. exists 0, C. split; [done|]. by left.
      * right. exists 0, C. split; [done|]. right. split; [done|]. by exists t.
      * right. exists (S i), D. rewrite <- HnewS. done.
    + intros [[He Hno]|Hx]; [|destruct Hx as (i & D & HD & Hcase); destruct i as [|i]].
      * left. split; [left; split; [done|]|].
        -- intros [-> Hl]. apply Hno. split; [done|]. exists C. split; [by left|done].
        -- intros (-> & D & HD & Hl). apply Hno. split; [done|]. exists D. split; [by right|done].
      * injection HD as <-. left. split; [by right|]. intros (-> & D & HD & Hl). destruct Hcase as [(_ & -> & ->)|[? _]]; [|done].
        apply (newAt_fresh TS 0 (newAt TS 0)); [done| |done]. by eapply Hlinks.
      * right. exists i, D. rewrite HnewS. done.
Qed.

Lemma separateAll_ok TS n Cs :
  wf TS → live TS n → NoDup (concat (linksOf <$> Cs)) → (∀ C, C ∈ Cs → separable TS n C) →
  ∃ TS', forEachM (separateComponent n) Cs TS = Ok TS' ∧ separatedAll n Cs TS TS'.
Proof.
  revert TS. induction Cs as [|C Cs IH]; intros TS Hwf Hn Hnd HCs.
  { exists TS. split; [done|]. split; try done.
    - intros m. split; [by left|]. intros [?|(i & C & HC & _)]; [done|by rewrite lookup_nil in HC].
    - intros m N N' HN HN'. rewrite HN in HN'. by injection HN' as ->.
    - intros a u b. split; [intros ?; left; split; [done|]; by intros (_ & C & ?%elem_of_nil & _)|].
      intros [[? _]|(i & C & HC & _)]; [done|by rewrite lookup_nil in HC]. }
  cbn in Hnd. apply NoDup_app in Hnd as (Hnd1 & Hdisj & Hnd2). destruct (HCs C) as [Hb1 Hb2 Hb3 Hl]; [by left|].
  destruct (separateComponent_ok TS n C) as (TS1 & H1 & Hs); [done..|]. cbn [forEachM]. rewrite H1, bind_ok.
  destruct (IH TS1) as (TS2 & H2 & Ha).
  { apply Hs. } { apply (sp_live _ _ _ _ _ _ Hs). by left. } { done. }
  { intros D HD. destruct (HCs D) as [? ? ? HlD]; [by right|]. split; try done. intros d t Hin. destruct (HlD d t Hin) as [He ?].
    split; [|done]. apply (sp_edges _ _ _ _ _ _ Hs). left. split; [done|]. intros [_ Hin']. apply (Hdisj (d, t) Hin').
    apply list_elem_of_In, in_concat. exists (linksOf D). split; apply list_elem_of_In; [by apply list_elem_of_fmap_2|done]. }
  exists TS2. split; [done|]. eapply separatedAll_step; [done|done| |done|done]. intros D d t HD Hin.
  destruct (HCs D) as [_ _ _ HlD]; [by right|]. eapply wf_target; [apply Hwf|]. by apply HlD.
Qed.

(** ** The children of a node *)

(** A link that is not a pointer, by its target and its tag. *)
Definition linkOf TS (n : NodeID) (l : Link) : Prop := hasEdge TS n l.2 l.1 ∧ getKind l.2 ≠ LK_Pointer.

(** The bytes of two children, in what contains them. *)
Definition overlap TS (l k : Link) : Prop :=
  (Offset (OE l.2) < fieldEnd (sizeOf TS k.1) k.2 ∧ Offset (OE k.2) < fieldEnd (sizeOf TS l.1) l.2)%Z.

(** What the information of a node says of its children. *)
Definition describes TS (m : NodeID) (v : InterferingChildrenInfo) : Prop :=
  match v with
  | Unknown => False
  | AllChildrenAreNonInterfering => ∀ l k, linkOf TS m l → linkOf TS m k → l ≠ k → ¬ overlap TS l k
  | AllChildrenAreInterfering => ∀ l, linkOf TS m l → ∃ k, linkOf TS m k ∧ k ≠ l ∧ overlap TS l k
  end.

Definition infoOf TS (m : NodeID) : InterferingChildrenInfo :=
  match Layouts TS !! m with Some N => InterferingInfo N | None => Unknown end.

(** [d] is in [n] as a field of tag [t], maybe through a node that is not of [TS]. *)
Definition isField TS TS' (n : NodeID) (t : TypeLinkTag) (d : NodeID) : Prop :=
  hasEdge TS' n t d ∧ live TS d ∨
  ∃ New s, ¬ live TS New ∧ hasEdge TS' n (atOffset s) New ∧ hasEdge TS' New (shifted s t) d.

(** The nodes of [V] were visited, and [c] says whether one was created. *)
Record arranged TS (V : gset NodeID) (c : bool) TS' : Prop := {
  ar_wf : wf TS';
  ar_NID : (NID TS ≤ NID TS')%N;
  ar_live m : live TS m → live TS' m;
  ar_size m : live TS m → sizeOf TS' m = sizeOf TS m;
  ar_info m : live TS m → m ∉ V → infoOf TS' m = infoOf TS m;
  ar_layout i m : (i < NID TS)%N → layoutOf TS' i m ↔ layoutOf TS i m;
  ar_rest a t b : live TS a → a ∉ V → hasEdge TS' a t b ↔ hasEdge TS a t b;
  ar_pointers a t b : getKind t = LK_Pointer → hasEdge TS' a t b ↔ hasEdge TS a t b;
  ar_fields a t d : live TS a → getKind t = LK_Instance → isField TS TS' a t d ↔ hasEdge TS a t d;
  ar_kinds a t b : hasEdge TS' a t b → hasEdge TS a t b ∨ getKind t = LK_Instance;
  ar_parent New : live TS' New → ¬ live TS New → ∃ n s, n ∈ V ∧ live TS n ∧ hasEdge TS' n (atOffset s) New;
  ar_through a u New : live TS a → ¬ live TS New → hasEdge TS' a u New →
    ∃ s, u = atOffset s ∧ ∀ w d, hasEdge TS' New w d → ∃ t, w = shifted s t ∧ getKind t = LK_Instance ∧ hasEdge TS a t d;
  ar_described m : live TS' m → m ∈ V ∨ ¬ live TS m → describes TS' m (infoOf TS' m);
  ar_changed : c = true ↔ ∃ m, live TS' m ∧ ¬ live TS m;
}.

Lemma describes_same TS TS' m v :
  (∀ t b, hasEdge TS' m t b ↔ hasEdge TS m t b) → (∀ t b, hasEdge TS m t b → sizeOf TS' b = sizeOf TS b) →
  describes TS m v → describes TS' m v.
Proof.
  intros He Hs Hd. assert (∀ l, linkOf TS' m l ↔ linkOf TS m l) as Hl by (intros l; unfold linkOf; by rewrite He).
  assert (∀ l k, linkOf TS m l → linkOf TS m k → overlap TS' l k ↔ overlap TS l k) as Ho.
  { intros l k [Hel _] [Hek _]. unfold overlap. by rewrite (Hs l.2 l.1 Hel), (Hs k.2 k.1 Hek). }
  destruct v; [destruct Hd| |].
  - intros l Hm. apply Hl in Hm. destruct (Hd l Hm) as (k & Hk & ? & ?). exists k. split_and!; [by apply Hl|done|by apply Ho].
  - intros l k Hm Hk. apply Hl in Hm, Hk. intros Hne. rewrite Ho by done. by apply Hd.
Qed.

Lemma arranged_start TS : wf TS → arranged TS ∅ false TS.
Proof.
  intros Hwf. split; try done.
  - intros a t d _ Ht. split; [|intros He; left; split; [done|by eapply wf_target; [apply Hwf|]]].
    intros [[? _]|(New & s & HNew & He & _)]; [done|]. destruct HNew. by eapply wf_target; [apply Hwf|].
  - by left.
  - intros a u New _ HNew He. destruct HNew. by eapply wf_target; [apply Hwf|].
  - intros m Hm [?%elem_of_empty|?]; done.
  - split; [done|]. by intros (m & ? & ?).
Qed.

Lemma arranged_visit TS V c d n TS1 TS2 :
  wf TS → (∀ a t b, hasEdge TS a t b → getKind t ≠ LK_Pointer → getKind t = LK_Instance) →
  live TS n → n ∉ V → arranged TS V c TS1 → arranged TS1 {[n]} d TS2 → arranged TS ({[n]} ∪ V) (c || d) TS2.
Proof.
  intros Hwf Hinst Hn HnV H1 H2. assert (∀ m, live TS m → live TS1 m) as Hl1 by apply H1.
  assert (∀ a t b, live TS1 a → a ≠ n → hasEdge TS2 a t b ↔ hasEdge TS1 a t b) as Hrest2.
  { intros a t b Ha Hne. apply (ar_rest _ _ _ _ H2); [done|set_solver]. }
  assert (∀ t b, hasEdge TS1 n t b ↔ hasEdge TS n t b) as Hn1 by (intros t b; by apply (ar_rest _ _ _ _ H1)).
  assert (∀ t b, getKind t = LK_Instance → hasEdge TS2 n t b → live TS1 b → live TS b) as Hold.
  { intros t b Ht He Hb. eapply wf_target; [apply Hwf|]. apply Hn1, (ar_fields _ _ _ _ H2); [by apply Hl1|done|by left]. }
  split.
  - apply H2.
  - pose proof (ar_NID _ _ _ _ H1). pose proof (ar_NID _ _ _ _ H2). lia.
  - intros m Hm. apply H2, H1, Hm.
  - intros m Hm. by rewrite (ar_size _ _ _ _ H2), (ar_size _ _ _ _ H1) by auto.
  - intros m Hm HmV. rewrite (ar_info _ _ _ _ H2), (ar_info _ _ _ _ H1) by (auto || set_solver). done.
  - intros i m Hi. rewrite (ar_layout _ _ _ _ H2) by (pose proof (ar_NID _ _ _ _ H1); lia). by apply H1.
  - intros a t b Ha HaV. rewrite Hrest2 by (auto || set_solver). apply H1; [done|set_solver].
  - intros a t b Ht. rewrite (ar_pointers _ _ _ _ H2), (ar_pointers _ _ _ _ H1) by done. done.
  - intros a t d' Ha Ht. destruct (decide (a = n)) as [->|Hne].
    + rewrite <- Hn1, <- (ar_fields _ _ _ _ H2) by auto. split.
      * intros [[He Hd]|(New & s & HNew & He1 & He2)]; [left; auto|right]. exists New, s. split_and!; [|done|done].
        intros HNew1. apply HNew. by apply (Hold (atOffset s)).
      * intros [[He Hd]|(New & s & HNew & He1 & He2)]; [left; split; [done|by eapply Hold]|right].
        exists New, s. split_and!; [auto|done|done].
    + rewrite <- (ar_fields _ _ _ _ H1) by done. unfold isField. rewrite Hrest2 by auto.
      assert (∀ New s, hasEdge TS2 a (atOffset s) New ∧ hasEdge TS2 New (shifted s t) d' ∧ ¬ live TS New ↔
        hasEdge TS1 a (atOffset s) New ∧ hasEdge TS1 New (shifted s t) d' ∧ ¬ live TS New) as Hthrough.
      { intros New s. rewrite Hrest2 by auto. split; intros (He & He2 & HNew); split_and!; try done;
          apply Hrest2; try done; (eapply wf_target; [apply H1|done]) || (by intros ->). }
      split; (intros [?|(New & s & H3 & H4 & H5)]; [by left|right; exists New, s]);
        destruct (Hthrough New s) as [Hf Hb]; [destruct Hf as (? & ? & ?)|destruct Hb as (? & ? & ?)]; done.
  - intros a t b [He%(ar_kinds _ _ _ _ H1)|?]%(ar_kinds _ _ _ _ H2); [done|by right].
  - intros New HNew Hno. destruct (decide (live TS1 New)) as [HNew1|HNew1].
    + destruct (ar_parent _ _ _ _ H1 New) as (p & s & Hp & Hlp & He); [done..|]. exists p, s. split_and!; [set_solver|done|].
      apply Hrest2; [auto|by intros ->|done].
    + destruct (ar_parent _ _ _ _ H2 New) as (p & s & ->%elem_of_singleton & _ & He); [done..|]. exists n, s. split_and!; [set_solver|done|done].
  - intros a u New Ha HNew He. destruct (decide (a = n)) as [->|Hne].
    + assert (¬ live TS1 New) as HNew1.
      { intros HNew1. apply HNew. destruct (ar_kinds _ _ _ _ H2 _ _ _ He) as [He1%Hn1|Hu]; [by eapply wf_target; [apply Hwf|]|by eapply Hold]. }
      destruct (ar_through _ _ _ _ H2 n u New) as (s & -> & Hs); [auto|done|done|]. exists s. split; [done|].
      intros w e (t & ? & ? & ?%Hn1)%Hs. by exists t.
    + apply Hrest2 in He; [|auto|done]. destruct (ar_through _ _ _ _ H1 a u New) as (s & -> & Hs); [done..|]. exists s.
      split; [done|]. intros w e Hw. apply Hs, Hrest2; [|by intros ->|done]. by eapply wf_target; [apply H1|].
  - intros m Hm Hcase. destruct (decide (live TS1 m ∧ m ≠ n)) as [[Hm1 Hne]|Hnew].
    + rewrite (ar_info _ _ _ _ H2) by (done || set_solver). eapply describes_same; [|intros t b He|apply (ar_described _ _ _ _ H1)].
      * intros t b. by apply Hrest2.
      * apply (ar_size _ _ _ _ H2). eapply wf_target; [apply H1|done].
      * done.
      * destruct Hcase as [[?|?]%elem_of_union|?]; [set_solver|by left|by right].
    + apply (ar_described _ _ _ _ H2); [done|]. destruct (decide (m = n)) as [->|]; [left; set_solver|right; naive_solver].
  - rewrite orb_true_iff, (ar_changed _ _ _ _ H1), (ar_changed _ _ _ _ H2). split.
    + intros [(m & ? & ?)|(m & ? & ?)]; exists m; [split; [by apply H2|done]|split; [done|auto]].
    + intros (m & Hm & Hno). destruct (decide (live TS1 m)); [left|right]; by exists m.
Qed.

(** *** A node whose children were separated *)

Lemma sizeOf_layouts TS TS' m : Layouts TS' !! m = Layouts TS !! m → sizeOf TS' m = sizeOf TS m.
Proof. intros HL. unfold sizeOf. by rewrite HL. Qed.

Lemma sizeOf_node TS m N : Layouts TS !! m = Some N → sizeOf TS m = Size N.
Proof. intros HN. unfold sizeOf. by rewrite HN. Qed.

Lemma shifted_inj s t u : getKind t = LK_Instance → getKind u = LK_Instance → shifted s t = shifted s u → t = u.
Proof.
  destruct t as [k [o ss cs]], u as [k' [o' ss' cs']]. cbn. intros -> -> [= Ho -> ->]. do 2 f_equal. lia.
Qed.

Lemma newAt_inj TS i j : newAt TS i = newAt TS j → i = j.
Proof. unfold newAt. lia. Qed.

Lemma fieldEnd_shifted z s t : fieldEnd z (shifted s t) = (fieldEnd z t - s)%Z.
Proof. unfold fieldEnd, shifted, dimensions. cbn. lia. Qed.

(** Each child of a component overlaps another. *)
Definition overlapping TS (C : Component) : Prop :=
  ∀ l, l ∈ linksOf C → ∃ k, k ∈ linksOf C ∧ k ≠ l ∧ overlap TS l k.

Lemma withInfo_layouts TS n v m :
  Layouts (withLayouts (alter (withInterfering v) n) TS) !! m =
    if decide (m = n) then withInterfering v <$> Layouts TS !! n else Layouts TS !! m.
Proof. cbn. destruct (decide (m = n)) as [->|]; [by rewrite lookup_alter_eq|by rewrite lookup_alter_ne]. Qed.

Lemma separated_size n Cs TS TS1 m : separatedAll n Cs TS TS1 → live TS m → sizeOf TS1 m = sizeOf TS m.
Proof.
  intros Hs [N HN]. assert (live TS1 m) as [N1 HN1] by (apply (sa_live _ _ _ _ Hs); left; by eexists).
  rewrite (sizeOf_node _ _ _ HN), (sizeOf_node _ _ _ HN1). by apply (sa_old _ _ _ _ Hs m N N1).
Qed.

Lemma separated_union n Cs TS TS1 i C :
  wf TS → live TS n → separatedAll n Cs TS TS1 → Cs !! i = Some C → separable TS n C → overlapping TS C →
  describes TS1 (newAt TS i) (infoOf TS1 (newAt TS i)).
Proof.
  intros Hwf Hn Hs HC [Hb _ _ Hl] Ho. assert (live TS1 (newAt TS i)) as [N1 HN1] by (apply (sa_live _ _ _ _ Hs); right; by exists i, C).
  unfold infoOf. rewrite HN1. destruct (sa_new _ _ _ _ Hs i C N1 HC HN1) as [_ ->].
  assert (∀ d t, (d, t) ∈ linksOf C → linkOf TS1 (newAt TS i) (d, shifted (StartByte C) t)) as Hin.
  { intros d t Hdt. split; [|done]. apply (sa_edges _ _ _ _ Hs). right. exists i, C. split; [done|]. right. split; [done|]. by exists t. }
  intros [d u] [He _]. cbn [fst snd] in He. apply (sa_edges _ _ _ _ Hs) in He as [[He _]|(j & D & HD & [(Hj & _)|(Hj & t & Hdt & ->)])].
  - destruct (newAt_fresh TS i (newAt TS i)); [done|by eapply edge_source|done].
  - destruct (newAt_fresh TS i n); done.
  - apply newAt_inj in Hj as <-. rewrite HC in HD. injection HD as <-. destruct (Ho _ Hdt) as ([e w] & Hk & Hne & Hov).
    exists (e, shifted (StartByte C) w). split_and!; [by apply Hin| |].
    + destruct (Hl _ _ Hdt) as [_ [? _]], (Hl _ _ Hk) as [_ [? _]]. intros Heq. apply Hne.
      apply pair_equal_spec in Heq as [-> Heq]. apply shifted_inj in Heq as ->; done.
    + assert (live TS d ∧ live TS e) as [Hd He'].
      { split; (eapply wf_target; [apply Hwf|]); [apply (Hl _ _ Hdt)|apply (Hl _ _ Hk)]. }
      revert Hov. unfold overlap. cbn [fst snd]. rewrite !fieldEnd_shifted.
      rewrite (separated_size n Cs TS TS1 d), (separated_size n Cs TS TS1 e) by done. cbn. lia.
Qed.

Lemma separated_fields n Cs TS TS1 t d :
  wf TS → live TS n → separatedAll n Cs TS TS1 → (∀ C, C ∈ Cs → separable TS n C) → getKind t = LK_Instance →
  isField TS TS1 n t d ↔ hasEdge TS n t d.
Proof.
  intros Hwf Hn Hs HCs Ht. assert (∀ i, ¬ live TS (newAt TS i)) as Hfresh by (intros i Hi; by apply (newAt_fresh TS i) in Hi).
  assert (∀ a t b, hasEdge TS a t b → live TS a ∧ live TS b) as Hends.
  { intros a u b He. split; [by eapply edge_source|by eapply wf_target; [apply Hwf|]]. }
  split.
  - intros [[He Hd]|(New & s & HNew & He1 & He2)].
    + apply (sa_edges _ _ _ _ Hs) in He as [[? _]|(i & C & _ & [(_ & _ & ->)|(-> & _)])]; [done|by apply Hfresh in Hd|by apply Hfresh in Hn].
    + apply (sa_edges _ _ _ _ Hs) in He1 as [[He1%Hends _]|(i & C & HC & [(_ & [= ->] & ->)|(-> & _)])]; [naive_solver| |by apply Hfresh in Hn].
      apply (sa_edges _ _ _ _ Hs) in He2 as [[He2%Hends _]|(j & D & HD & [(Hj & _)|(Hj & u & Hu & Heq)])]; [naive_solver| |].
      * rewrite <- Hj in Hn. by apply Hfresh in Hn.
      * apply newAt_inj in Hj as <-. rewrite HC in HD. injection HD as <-. apply list_elem_of_lookup_2, HCs in HC as [_ _ _ Hl].
        destruct (Hl _ _ Hu) as (? & Hk & _). apply shifted_inj in Heq as ->; done.
  - intros He. destruct (decide (Exists (λ C, (d, t) ∈ linksOf C) Cs)) as [Hex|Hno].
    + apply Exists_exists in Hex as (C & HC & Hl). apply list_elem_of_lookup in HC as [i HC]. right. exists (newAt TS i), (StartByte C).
      split_and!; [done| |]; apply (sa_edges _ _ _ _ Hs); right; exists i, C; (split; [done|]); [by left|right].
      split; [done|]. by exists t.
    + left. split; [|by apply (Hends n t d)]. apply (sa_edges _ _ _ _ Hs). left. split; [done|]. intros (_ & C & HC & Hl).
      apply Hno, Exists_exists. by exists C.
Qed.

Lemma separated_through n Cs TS TS1 a u New :
  wf TS → live TS n → separatedAll n Cs TS TS1 → live TS a → ¬ live TS New → hasEdge TS1 a u New →
  (∀ C, C ∈ Cs → separable TS n C) →
  ∃ s, u = atOffset s ∧ ∀ w d, hasEdge TS1 New w d → ∃ t, w = shifted s t ∧ getKind t = LK_Instance ∧ hasEdge TS a t d.
Proof.
  intros Hwf Hn Hs Ha HNew He HCs. assert (∀ i, ¬ live TS (newAt TS i)) as Hfresh by (intros i Hi; by apply (newAt_fresh TS i) in Hi).
  apply (sa_edges _ _ _ _ Hs) in He as [[He _]|(i & C & HC & [(-> & -> & ->)|(-> & _)])]; [| |by apply Hfresh in Ha].
  { destruct HNew. by eapply wf_target; [apply Hwf|]. }
  exists (StartByte C). split; [done|]. intros w d Hw.
  apply (sa_edges _ _ _ _ Hs) in Hw as [[Hw%edge_source _]|(j & D & HD & [(Hj & _)|(Hj & t & Ht & ->)])]; [done| |].
  - rewrite <- Hj in Hn. by apply Hfresh in Hn.
  - apply newAt_inj in Hj as <-. rewrite HC in HD. injection HD as <-. apply list_elem_of_lookup_2, HCs in HC as [_ _ _ Hl].
    destruct (Hl _ _ Ht) as (? & Hk & _). by exists t.
Qed.

Lemma arranged_node n Cs v TS TS1 :
  wf TS → live TS n → separatedAll n Cs TS TS1 →
  (∀ C, C ∈ Cs → separable TS n C ∧ overlapping TS C) → describes TS1 n v →
  ∃ TS', modify (withInterfering v) n TS1 = Ok TS' ∧ arranged TS {[n]} (negb (bool_decide (Cs = []))) TS'.
Proof.
  intros Hwf Hn Hs HCs Hv. assert (live TS1 n) as Hn1 by (apply (sa_live _ _ _ _ Hs); by left).
  destruct (attribute_edit (withInterfering v) TS1 n) as (-> & Hwf2 & Hed2); [done|apply Hs|done|].
  set (TS2 := withLayouts _ TS1) in *. exists TS2. split; [done|].
  assert (∀ m, live TS2 m ↔ live TS1 m) as Hl2 by (intros m; apply live_alter).
  assert (∀ m, sizeOf TS2 m = sizeOf TS1 m) as Hsz2.
  { intros m. unfold sizeOf, TS2. rewrite withInfo_layouts. case_decide as Hm; [subst m|done]. by destruct (Layouts TS1 !! n). }
  assert (∀ m, infoOf TS2 m = if decide (m = n) then v else infoOf TS1 m) as Hinfo2.
  { intros m. unfold infoOf, TS2. rewrite withInfo_layouts. case_decide as Hm; [subst m|done]. by destruct Hn1 as [? ->]. }
  assert (∀ i m, live TS m → m ≠ newAt TS i) as Hfresh by (intros i m; by apply newAt_fresh).
  assert (∀ i, ¬ live TS (newAt TS i)) as Hfresh' by (intros i Hi; by apply (Hfresh i) in Hi).
  assert (∀ a t b, live TS a → a ≠ n → hasEdge TS2 a t b ↔ hasEdge TS a t b) as Hrest.
  { intros a t b Ha Hne. rewrite Hed2, (sa_edges _ _ _ _ Hs). split.
    - intros [[? _]|(i & C & _ & [[? _]|[-> _]])]; [done|done|by apply Hfresh' in Ha].
    - intros ?. left. split; [done|]. by intros [? _]. }
  split.
  - done.
  - apply Hs.
  - intros m Hm. apply Hl2, Hs. by left.
  - intros m Hm. rewrite Hsz2. by eapply separated_size.
  - intros m Hm Hmn%not_elem_of_singleton. rewrite Hinfo2, decide_False by done.
    assert (live TS1 m) as [N1 HN1] by (apply (sa_live _ _ _ _ Hs); by left). destruct Hm as [N HN].
    unfold infoOf. rewrite HN, HN1. by apply (sa_old _ _ _ _ Hs m).
  - intros i m Hi. rewrite <- (sa_layout _ _ _ _ Hs) by done. unfold layoutOf. by rewrite Hl2.
  - intros a t b Ha Han%not_elem_of_singleton. by apply Hrest.
  - intros a t b Ht. rewrite Hed2, (sa_edges _ _ _ _ Hs). split.
    + intros [[? _]|(i & C & _ & [(_ & -> & _)|(_ & u & _ & ->)])]; done.
    + intros He. left. split; [done|]. intros (-> & C & HC & Hl). destruct (HCs C HC) as [[_ _ _ Hm] _].
      destruct (Hm _ _ Hl) as (_ & Hk & _). congruence.
  - intros a t d Ha Ht. destruct (decide (a = n)) as [->|Hne].
    + rewrite <- (separated_fields n Cs TS TS1 t d); [|done|done|done|by intros C HC; apply HCs|done].
      unfold isField. rewrite Hed2. by setoid_rewrite Hed2.
    + unfold isField. rewrite Hrest by done. split; [|intros He; left; split; [done|by eapply wf_target; [apply Hwf|]]].
      intros [[? _]|(New & s & HNew & He & _)]; [done|]. destruct HNew. apply Hrest in He; [|done..]. by eapply wf_target; [apply Hwf|].
  - intros a t b. rewrite Hed2, (sa_edges _ _ _ _ Hs). intros [[? _]|(i & C & _ & [(_ & -> & _)|(_ & u & _ & ->)])]; [by left|by right..].
  - intros New HNew%Hl2 Hno. apply (sa_live _ _ _ _ Hs) in HNew as [?|(i & C & HC & ->)]; [done|]. exists n, (StartByte C).
    split_and!; [set_solver|done|]. apply Hed2, (sa_edges _ _ _ _ Hs). right. exists i, C. split; [done|]. by left.
  - intros a u New Ha HNew. rewrite Hed2. intros He. apply (separated_through n Cs TS TS1 a u New) in He as (s & ? & Hw); [|done..|].
    + exists s. split; [done|]. intros w d. rewrite Hed2. apply Hw.
    + intros C HC. by apply HCs.
  - intros m Hm%Hl2 Hcase. rewrite Hinfo2. eapply (describes_same TS1); [by intros t b|done|]. case_decide as Hmn; [by subst m|].
    destruct Hcase as [?%elem_of_singleton|Hm0]; [done|]. apply (sa_live _ _ _ _ Hs) in Hm as [?|(i & C & HC & ->)]; [done|].
    eapply separated_union; try done; by apply HCs, list_elem_of_lookup_2 with i.
  - rewrite negb_true_iff, bool_decide_eq_false. split.
    + intros Hne. destruct Cs as [|C Cs]; [done|]. exists (newAt TS 0). split; [|done]. apply Hl2, Hs. right. by exists 0, C.
    + intros (m & Hm%Hl2 & Hno) ->. apply (sa_live _ _ _ _ Hs) in Hm as [?|(i & C & HC & _)]; [done|by rewrite lookup_nil in HC].
Qed.

(** *** The children of a node and their components *)

(** The children of a node are in bytes of 64 bits, at offsets of 16. *)
Record placed TS (n : NodeID) : Prop := {
  pl_live : live TS n;
  pl_size : sizeOf TS n ≠ 0%Z;
  pl_links l : linkOf TS n l →
    instance_ok l.2 ∧ (Offset (OE l.2) ≤ 65535)%Z ∧ (0 < sizeOf TS l.1)%Z ∧ (fieldEnd (sizeOf TS l.1) l.2 < 2 ^ 64)%Z;
}.

Definition childOf TS (l : Link) : OrderedChild := mkChild l (extent (sizeOf TS l.1) (dimensions l.2)).

(** What is known of the children of [n]. *)
Record goodChild TS (n : NodeID) (c : OrderedChild) : Prop := {
  gc_of : c = childOf TS (ChildIt c);
  gc_link : linkOf TS n (ChildIt c);
  gc_ok : child_ok c;
  gc_tag : instance_ok (ChildIt c).2;
  gc_offset : (beginByte c ≤ 65535)%Z;
}.

Lemma childOf_good TS n l : placed TS n → linkOf TS n l → goodChild TS n (childOf TS l).
Proof.
  intros Hp Hl. destruct (pl_links _ _ Hp l Hl) as (Hi & Ho & Hs & He). split; try done.
  pose proof (extent_ge _ _ Hs (instance_positive _ Hi)). pose proof (ok_offset _ Hi). unfold fieldEnd in He.
  unfold child_ok, beginByte. cbn. lia.
Qed.

Lemma good_end TS n c : goodChild TS n c → endByte c = fieldEnd (sizeOf TS (ChildIt c).1) (ChildIt c).2.
Proof. intros [Hof _ Hok _ _]. rewrite (endByte_exact _ Hok). by rewrite Hof. Qed.

Lemma collectChildren_ok TS n N :
  wf TS → placed TS n → Layouts TS !! n = Some N →
  collectChildren n TS = Ok (childOf TS <$> childrenEdges isNotPointerEdge N).
Proof.
  intros Hwf Hp HN. unfold collectChildren. rewrite (deref_ok _ _ _ HN), bind_ok.
  assert (∀ l, l ∈ childrenEdges isNotPointerEdge N → linkOf TS n l) as Hl.
  { intros l [Hl Hk%not_pointer]%elem_of_childrenEdges. split; [|done]. exists N. by destruct l. }
  revert Hl. generalize (childrenEdges isNotPointerEdge N). intros ls. induction ls as [|l ls IH]; intros Hl; [done|]. cbn [mapM fmap list_fmap].
  destruct (pl_links _ _ Hp l) as (Hi & _ & Hs & He); [apply Hl; by left|].
  assert (live TS l.1) as [D HD] by (eapply wf_target; [apply Hwf|]; apply Hl; by left).
  rewrite (deref_ok _ _ _ HD), bind_ok, <- (sizeOf_node _ _ _ HD), getFieldSize_ok, bind_ok, IH; [done| |done..].
  intros k Hk. apply Hl. by right.
Qed.

(** The components of the children of [n]. *)
Record components TS (n : NodeID) (Cs : list Component) : Prop := {
  cs_ok C : C ∈ Cs → component_ok C;
  cs_sorted : StronglySorted (λ A B, EndByte A ≤ StartByte B)%Z Cs;
  cs_good C c : C ∈ Cs → c ∈ Elements C → goodChild TS n c;
  cs_all l : linkOf TS n l → ∃ C, C ∈ Cs ∧ l ∈ linksOf C;
  cs_NoDup : NoDup (concat (linksOf <$> Cs));
}.

Lemma linksOf_elem C l : l ∈ linksOf C → ∃ c, l = ChildIt c ∧ c ∈ Elements C.
Proof. apply list_elem_of_fmap. Qed.

Lemma components_separable TS n Cs C : components TS n Cs → C ∈ Cs → separable TS n C.
Proof.
  intros Hcs HC. pose proof (cs_ok _ _ _ Hcs C HC) as Hok. pose proof (λ c, cs_good _ _ _ Hcs C c HC) as Hgood.
  destruct (co_start _ Hok) as (h & k & Hh & Hs). assert (h ∈ Elements C) as Hin by (rewrite Hh; by left).
  pose proof (Hgood h Hin) as Hg. destruct (co_in _ Hok h Hin) as [_ He]. destruct (gc_ok _ _ _ Hg) as (Hb1 & Hb2 & Hb3).
  rewrite (endByte_exact h) in He by done. pose proof (gc_offset _ _ _ Hg).
  destruct (co_end _ Hok) as (e & Hein & Hee). destruct (gc_ok _ _ _ (Hgood e Hein)) as (He1 & He2 & He3).
  rewrite (endByte_exact e) in Hee by apply (Hgood e Hein). split; [lia|lia|lia|].
  intros d t (c & Hc & Hcin)%linksOf_elem. destruct (Hgood c Hcin) as [_ Hl _ Ht Hoff]. destruct (co_in _ Hok c Hcin) as [Hlow _].
  unfold beginByte in *. rewrite <- Hc in *. cbn [fst snd] in *. split; [apply Hl|]. split; [apply Ht|]. lia.
Qed.

Lemma components_NoDup TS n Cs C : components TS n Cs → C ∈ Cs → NoDup (linksOf C).
Proof.
  intros Hcs HC. pose proof (cs_NoDup _ _ _ Hcs) as Hnd. apply list_elem_of_split in HC as (pre & post & ->).
  rewrite fmap_app, concat_app in Hnd. apply NoDup_app in Hnd as (_ & _ & Hnd). by apply NoDup_app in Hnd as (? & _ & _).
Qed.

Lemma components_overlapping TS n Cs C :
  components TS n Cs → C ∈ Cs → HasManyElements C = true → overlapping TS C.
Proof.
  intros Hcs HC Hmany. pose proof (cs_ok _ _ _ Hcs C HC) as Hok. pose proof (λ c, cs_good _ _ _ Hcs C c HC) as Hgood.
  pose proof (components_NoDup _ _ _ _ Hcs HC) as Hnd.
  assert (∀ p c, p ∈ Elements C → c ∈ Elements C → (beginByte p ≤ beginByte c < endByte p)%Z →
    overlap TS (ChildIt c) (ChildIt p) ∧ overlap TS (ChildIt p) (ChildIt c)) as Hov.
  { intros p c Hp Hc Hb. unfold overlap. rewrite <- (good_end TS n p), <- (good_end TS n c) by auto.
    pose proof (endByte_exact c (gc_ok _ _ _ (Hgood c Hc))) as Hend. destruct (gc_ok _ _ _ (Hgood c Hc)) as (? & ? & ?).
    unfold beginByte in *. lia. }
  intros l (c & -> & Hc)%linksOf_elem. apply list_elem_of_split in Hc as Hsplit. destruct Hsplit as (pre & post & Heq).
  unfold linksOf in *. rewrite Heq, fmap_app in Hnd. cbn in Hnd. apply NoDup_app in Hnd as (_ & Hpre & [Hpost _]%NoDup_cons).
  destruct pre as [|x pre].
  - destruct post as [|y post]; [unfold HasManyElements in Hmany; by rewrite Heq in Hmany|].
    destruct (co_overlap _ Hok [c] y post) as (p & ->%list_elem_of_singleton & Hb); [done|done|].
    assert (y ∈ Elements C) as Hy by (rewrite Heq; right; by left).
    exists (ChildIt y). split_and!; [by apply list_elem_of_fmap_2|intros Hxy; apply Hpost; rewrite <- Hxy; by left|by apply Hov].
  - destruct (co_overlap _ Hok (x :: pre) c post) as (p & Hp & Hb); [done|done|].
    assert (p ∈ Elements C) as HpC by (rewrite Heq, elem_of_app; by left).
    exists (ChildIt p). split_and!; [by apply list_elem_of_fmap_2| |by destruct (Hov p c)].
    intros Hpc. apply (Hpre (ChildIt p)); [by apply list_elem_of_fmap_2|]. rewrite Hpc. by left.
Qed.

Lemma components_apart TS n Cs C D :
  components TS n Cs → C ∈ Cs → D ∈ Cs → C = D ∨ (EndByte C ≤ StartByte D)%Z ∨ (EndByte D ≤ StartByte C)%Z.
Proof.
  intros Hcs HC HD. apply list_elem_of_split in HC as (pre & post & Heq). pose proof (cs_sorted _ _ _ Hcs) as Hs.
  rewrite Heq in HD, Hs. apply elem_of_app in HD as [HD|[->|HD]%elem_of_cons]; [right; right|by left|right; left].
  - apply (StronglySorted_app_1_elem_of _ _ _ D C Hs HD). by left.
  - apply StronglySorted_app_1_r, StronglySorted_inv in Hs as [_ Hs]. rewrite Forall_forall in Hs. by apply Hs.
Qed.

Lemma components_distinct TS n Cs : components TS n Cs → NoDup Cs.
Proof.
  intros Hcs. assert (∀ C, C ∈ Cs → StartByte C < EndByte C)%Z as Hpos by (intros C HC; apply (components_separable _ _ _ _ Hcs HC)).
  pose proof (cs_sorted _ _ _ Hcs) as Hs. clear Hcs. induction Hs as [|C Cs Hs IH HF]; constructor.
  - intros HC. rewrite Forall_forall in HF. specialize (HF C HC). specialize (Hpos C ltac:(by left)). lia.
  - apply IH. intros D HD. apply Hpos. by right.
Qed.

Lemma filter_true {A} (f : A → bool) (l : list A) x : x ∈ filter (λ x, f x) l ↔ x ∈ l ∧ f x = true.
Proof. rewrite list_elem_of_filter. destruct (f x); naive_solver. Qed.

Lemma concat_filter {A B} (f : A → list B) (p : A → bool) (l : list A) :
  concat (f <$> filter (λ x, p x) l) `sublist_of` concat (f <$> l).
Proof.
  induction l as [|x l IH]; [done|]. rewrite filter_cons. case_decide; cbn; [by apply sublist_app|by apply sublist_inserts_l].
Qed.

(** The link that stands for a component: that of its node, or of its only child. *)
Definition standsFor TS (Cs : list Component) (C : Component) (l : Link) : Prop :=
  if HasManyElements C
  then ∃ i, filter (λ C, HasManyElements C) Cs !! i = Some C ∧ l = (newAt TS i, atOffset (StartByte C))
  else linksOf C = [l].

Lemma standsFor_unique TS n Cs C l k : components TS n Cs → standsFor TS Cs C l → standsFor TS Cs C k → l = k.
Proof.
  intros Hcs. unfold standsFor. destruct (HasManyElements C).
  - intros (i & Hi & ->) (j & Hj & ->). replace j with i; [done|]. eapply NoDup_lookup; [|done|done].
    by apply NoDup_filter, (components_distinct TS n).
  - intros -> [= ->]. done.
Qed.

Lemma few_elements C : component_ok C → HasManyElements C = false → ∃ c, Elements C = [c].
Proof.
  intros Hok Hm. destruct (co_start _ Hok) as (c & l & Hc & _). unfold HasManyElements in Hm. rewrite Hc in *.
  destruct l as [|d l]; [by exists c|done].
Qed.

Lemma stands_for TS n Cs TS1 l :
  wf TS → live TS n → components TS n Cs → separatedAll n (filter (λ C, HasManyElements C) Cs) TS TS1 → linkOf TS1 n l →
  ∃ C, C ∈ Cs ∧ standsFor TS Cs C l ∧ Offset (OE l.2) = StartByte C ∧ fieldEnd (sizeOf TS1 l.1) l.2 = EndByte C.
Proof.
  intros Hwf Hn Hcs Hs [He Hk]. apply (sa_edges _ _ _ _ Hs) in He as [[He Hno]|(i & C & HC & [(_ & Hu & Hnew)|(-> & _)])].
  - destruct (cs_all _ _ _ Hcs l) as (C & HC & Hl); [done|]. pose proof (cs_ok _ _ _ Hcs C HC) as Hok. exists C. split; [done|].
    assert (HasManyElements C = false) as Hm.
    { apply not_true_iff_false. intros Hm. apply Hno. split; [done|]. exists C. split; [by apply filter_true|by destruct l]. }
    destruct (few_elements C Hok Hm) as [c Hc]. unfold standsFor. rewrite Hm. unfold linksOf in *. rewrite Hc in *.
    apply list_elem_of_singleton in Hl as ->. split; [done|].
    assert (goodChild TS n c) as Hg by (apply (cs_good _ _ _ Hcs C); [done|rewrite Hc; by left]).
    rewrite (separated_size _ _ _ _ _ Hs), <- (good_end TS n) by (done || (eapply wf_target; [apply Hwf|done])).
    destruct (co_start _ Hok) as (h & k & Hh & <-), (co_end _ Hok) as (e & Hein & <-). rewrite Hc in *.
    injection Hh as <- <-. apply list_elem_of_singleton in Hein as ->. done.
  - destruct l as [b u]. cbn in Hu, Hnew. subst b u. pose proof (list_elem_of_lookup_2 _ _ _ HC) as Hin.
    apply filter_true in Hin as [HCs Hm]. exists C. split; [done|]. unfold standsFor. rewrite Hm. split; [by exists i|].
    split; [done|]. assert (live TS1 (newAt TS i)) as [N1 HN1] by (apply (sa_live _ _ _ _ Hs); right; by exists i, C).
    cbn [fst snd]. rewrite (sizeOf_node _ _ _ HN1). destruct (sa_new _ _ _ _ Hs i C N1 HC HN1) as [-> _]. unfold fieldEnd. cbn. lia.
  - by apply (newAt_fresh TS i) in Hn.
Qed.

Lemma separated_apart TS n Cs TS1 :
  wf TS → live TS n → components TS n Cs → separatedAll n (filter (λ C, HasManyElements C) Cs) TS TS1 →
  describes TS1 n AllChildrenAreNonInterfering.
Proof.
  intros Hwf Hn Hcs Hs l k Hl Hk Hne [Ho1 Ho2].
  destruct (stands_for TS n Cs TS1 l) as (C & HC & HlC & HSC & HEC), (stands_for TS n Cs TS1 k) as (D & HD & HkD & HSD & HED); try done.
  destruct (components_apart TS n Cs C D) as [->|[?|?]]; [done|done|done| |lia|lia].
  apply Hne. by eapply standsFor_unique.
Qed.

Lemma separatedAll_nil n TS : wf TS → live TS n → separatedAll n [] TS TS.
Proof.
  intros Hwf Hn. destruct (separateAll_ok TS n []) as (TS' & [= <-] & Hs); [done|done|by constructor| |done].
  intros C HC. by apply elem_of_nil in HC.
Qed.

Lemma separateComponents_ok TS n Cs c :
  wf TS → live TS n → components TS n Cs → Cs ≠ [] →
  ∃ d TS', separateComponents n Cs (c, TS) = Ok (c || d, TS') ∧ arranged TS {[n]} d TS'.
Proof.
  intros Hwf Hn Hcs Hne. destruct Cs as [|C [|D Cs]]; [done| |].
  - assert (describes TS n (if HasManyElements C then AllChildrenAreInterfering else AllChildrenAreNonInterfering)) as Hd.
    { destruct (HasManyElements C) eqn:Hm.
      - pose proof (components_overlapping _ _ _ C Hcs ltac:(by left) Hm) as Ho. intros l Hl.
        destruct (cs_all _ _ _ Hcs l Hl) as (? & ->%list_elem_of_singleton & HlC). destruct (Ho l HlC) as (k & Hk & ? & ?).
        exists k. split_and!; [|done|done]. apply linksOf_elem in Hk as (e & -> & He). by apply (cs_good _ _ _ Hcs C); [left|].
      - apply (separated_apart TS n [C]); [done|done|done|].
        replace (filter (λ C, HasManyElements C) [C]) with (@nil Component); [by apply separatedAll_nil|].
        rewrite filter_cons, decide_False; [done|]. rewrite Hm. by intros []. }
    destruct (arranged_node n [] (if HasManyElements C then AllChildrenAreInterfering else AllChildrenAreNonInterfering) TS TS)
      as (TS' & Hrun & Ha); [done|done|by apply separatedAll_nil|intros E' HE; by apply elem_of_nil in HE|exact Hd|].
    exists false, TS'. cbn [separateComponents]. rewrite Hrun, bind_ok, orb_false_r. done.
  - set (Ds := filter (λ C, HasManyElements C) (C :: D :: Cs)).
    assert (∀ E', E' ∈ Ds → separable TS n E' ∧ overlapping TS E') as HDs.
    { intros E' [HE Hm]%filter_true. split; [by eapply components_separable|by eapply components_overlapping]. }
    destruct (separateAll_ok TS n Ds) as (TS1 & Hrun & Hs); [done|done| |by intros E' HE; apply HDs|].
    { eapply (sublist_NoDup _ (concat (linksOf <$> C :: D :: Cs))); [apply Hcs|apply concat_filter]. }
    destruct (arranged_node n Ds AllChildrenAreNonInterfering TS TS1) as (TS' & Hrun' & Ha); [done|done|done|done|by eapply separated_apart|].
    exists (existsb HasManyElements (C :: D :: Cs)), TS'. unfold separateComponents. fold Ds. rewrite Hrun, bind_ok, Hrun', bind_ok.
    split; [done|]. replace (existsb HasManyElements (C :: D :: Cs)) with (negb (bool_decide (Ds = []))); [done|].
    unfold Ds. generalize (C :: D :: Cs). intros l. induction l as [|x l IH]; [done|]. rewrite filter_cons. cbn [existsb].
    case_decide as Hx; destruct (HasManyElements x); [done|by destruct Hx|by destruct (Hx I)|done].
Qed.

Lemma childrenEdges_NoDup P N : NoDup (childrenEdges P N).
Proof. unfold childrenEdges. apply NoDup_filter, NoDup_links. Qed.

Lemma linkOf_children TS n N l : Layouts TS !! n = Some N → linkOf TS n l ↔ l ∈ childrenEdges isNotPointerEdge N.
Proof.
  intros HN. rewrite elem_of_childrenEdges, not_pointer. unfold linkOf, hasEdge. rewrite HN. destruct l as [d t]. naive_solver.
Qed.

Lemma identified TS n N c l :
  placed TS n → Layouts TS !! n = Some N → merge_sort childLe (childOf TS <$> childrenEdges isNotPointerEdge N) = c :: l →
  ∃ Cs, identifyComponents (MakeNewComponentFromChild c) l = Ok Cs ∧ Cs ≠ [] ∧ components TS n Cs.
Proof.
  intros Hp HN HL. set (ls := childrenEdges isNotPointerEdge N) in *.
  pose proof (merge_sort_Permutation childLe (childOf TS <$> ls)) as Hperm. rewrite HL in Hperm.
  assert (∀ e, e ∈ c :: l → goodChild TS n e) as Hgood.
  { intros e. rewrite Hperm. intros (k & -> & Hk)%list_elem_of_fmap. apply childOf_good; [done|]. by apply (linkOf_children TS n N). }
  assert (ChildIt <$> c :: l ≡ₚ ls) as Hlinks.
  { rewrite Hperm, <- list_fmap_compose. unfold compose. cbn. by rewrite list_fmap_id. }
  destruct (identifyComponents_ok (MakeNewComponentFromChild c) l) as (Cs & -> & Hcat & Hok & Hsort & _).
  - apply component_one.
  - apply Forall_forall. intros e He. apply (gc_ok TS n), Hgood. by right.
  - intros e ->%list_elem_of_singleton. apply (gc_ok TS n), Hgood. by left.
  - cbn [Elements MakeNewComponentFromChild app]. rewrite <- HL. apply sorted_begins. intros e.
    intros He. apply (ok_kind (ChildIt e).2), (gc_tag TS n), Hgood. by rewrite Hperm.
  - cbn [Elements MakeNewComponentFromChild app] in Hcat.
    assert (concat (linksOf <$> Cs) = ChildIt <$> c :: l) as Hcl.
    { rewrite <- Hcat. clear. induction Cs as [|C Cs IH]; [done|]. cbn. by rewrite fmap_app, IH. }
    assert (∀ C e, C ∈ Cs → e ∈ Elements C → e ∈ c :: l) as Hin.
    { intros C e HC He. rewrite <- Hcat. apply list_elem_of_In, in_concat. exists (Elements C).
      split; apply list_elem_of_In; [by apply list_elem_of_fmap_2|done]. }
    exists Cs. split; [done|]. split; [by intros ->|]. split.
    + by apply Forall_forall.
    + done.
    + intros C e HC He. by eapply Hgood, Hin.
    + intros k Hk. apply (linkOf_children TS n N) in Hk; [|done]. fold ls in Hk. rewrite <- Hlinks, <- Hcl in Hk.
      apply list_elem_of_In, in_concat in Hk as (K & HK%list_elem_of_In & Hk%list_elem_of_In).
      apply list_elem_of_fmap in HK as (C & -> & HC). by exists C.
    + rewrite Hcl, Hlinks. apply childrenEdges_NoDup.
Qed.

Lemma computeComponents_ok TS n c :
  wf TS → placed TS n → ∃ d TS', computeComponents n (c, TS) = Ok (c || d, TS') ∧ arranged TS {[n]} d TS'.
Proof.
  intros Hwf Hp. destruct (pl_live _ _ Hp) as [N HN]. unfold computeComponents. rewrite (deref_ok _ _ _ HN), bind_ok.
  pose proof (pl_size _ _ Hp) as Hsize. rewrite (sizeOf_node _ _ _ HN) in Hsize.
  rewrite assert_true by by apply negb_true_iff, Z.eqb_neq. rewrite (collectChildren_ok TS n N), bind_ok by done.
  pose proof (identified TS n N) as Hid. destruct (merge_sort _ _) as [|x [|y l]] eqn:HL.
  3: { destruct (Hid x (y :: l)) as (Cs & -> & Hne & Hcs); [done..|]. rewrite bind_ok.
       apply separateComponents_ok; [done|apply Hp|done|done]. }
  all: destruct (arranged_node n [] AllChildrenAreNonInterfering TS TS) as (TS' & -> & Ha);
    [done|apply Hp|apply separatedAll_nil; [done|apply Hp]|intros C HC; by apply elem_of_nil in HC| |
     exists false, TS'; rewrite bind_ok, orb_false_r; done].
  all: intros k k' Hk%(linkOf_children _ _ _ _ HN) Hk'%(linkOf_children _ _ _ _ HN) Hne; destruct Hne;
    apply (list_elem_of_fmap_2 (childOf TS)) in Hk, Hk';
    rewrite <- (merge_sort_Permutation childLe), HL in Hk, Hk'; try by apply elem_of_nil in Hk.
  apply list_elem_of_singleton in Hk, Hk'. rewrite <- Hk' in Hk. unfold childOf in Hk. congruence.
Qed.

Lemma placed_later TS V c TS1 n :
  wf TS → placed TS n → n ∉ V → arranged TS V c TS1 → placed TS1 n.
Proof.
  intros Hwf [Hl Hs Hk] HnV Ha. split.
  - by apply Ha.
  - by rewrite (ar_size _ _ _ _ Ha).
  - intros l [He%(ar_rest _ _ _ _ Ha) Hnp]; [|done|done]. rewrite (ar_size _ _ _ _ Ha); [by apply Hk|].
    eapply wf_target; [apply Hwf|done].
Qed.

(** ** The step *)

Lemma instance_view (l : Link) : getKind l.2 = LK_Instance → isNotPointerEdge l = true.
Proof. intros Hk. apply not_pointer. by rewrite Hk. Qed.

(** What a path of the new graph is in that of [TS]. *)
Lemma arranged_path TS V c TS' a b :
  wf TS → arranged TS V c TS' → tc (edge (filteredGraph isNotPointerEdge TS')) a b → live TS a →
  (live TS b → tc (edge (filteredGraph isNotPointerEdge TS)) a b) ∧
  (¬ live TS b → ∀ d, edge (filteredGraph isNotPointerEdge TS') b d → tc (edge (filteredGraph isNotPointerEdge TS)) a d).
Proof.
  intros Hwf Ha Hab Hl. set (R := edge (filteredGraph isNotPointerEdge TS)).
  assert (∀ x y, live TS x → live TS y → edge (filteredGraph isNotPointerEdge TS') x y → R x y) as Hold.
  { intros x y Hx Hy (t & He & Ht)%view_edge. apply view_edge. exists t. split; [|done].
    destruct (ar_kinds _ _ _ _ Ha _ _ _ He) as [?|Hk]; [done|]. apply (ar_fields _ _ _ _ Ha); [done|done|by left]. }
  assert (∀ x y d, live TS x → ¬ live TS y → edge (filteredGraph isNotPointerEdge TS') x y →
    edge (filteredGraph isNotPointerEdge TS') y d → R x d) as Hthrough.
  { intros x y d Hx Hy (t & He & _)%view_edge (w & Hw & _)%view_edge.
    destruct (ar_through _ _ _ _ Ha x t y) as (s & _ & Hs); [done..|]. destruct (Hs w d Hw) as (u & _ & Hk & Hu).
    apply view_edge. exists u. split; [done|]. by apply instance_view. }
  revert b Hab. apply (tc_ind_r (R := edge (filteredGraph isNotPointerEdge TS'))
    (λ z, (live TS z → tc R a z) ∧ (¬ live TS z → ∀ d, edge (filteredGraph isNotPointerEdge TS') z d → tc R a d))).
  - intros z Haz. split; [intros Hz; by apply tc_once, Hold|intros Hz d Hd; apply tc_once; by eapply Hthrough].
  - intros y z _ Hyz [IH1 IH2]. destruct (decide (live TS y)) as [Hy|Hy].
    + split; [intros Hz|intros Hz d Hd]; (eapply tc_r; [by apply IH1|]); [by apply Hold|by eapply Hthrough].
    + pose proof (IH2 Hy z Hyz) as Haz. split; [done|]. intros Hz. destruct Hz. apply tc_last in Haz as [x Hx].
      apply view_target, view_dom in Hx; [done|apply Hwf].
Qed.

Lemma arranged_dag TS V c TS' : wf TS → dag TS → arranged TS V c TS' → dag TS'.
Proof.
  intros Hwf Hdag Ha. assert (∀ x, live TS x → ¬ tc (edge (filteredGraph isNotPointerEdge TS')) x x) as Hold.
  { intros x Hx Hxx. apply (Hdag x). destruct (arranged_path TS V c TS' x x) as [Hp _]; auto. }
  intros x Hxx. destruct (decide (live TS x)) as [Hx|Hx]; [by apply (Hold x)|].
  apply tc_first in Hxx as (y & Hxy & Hyx). apply rtc_tc in Hyx as [->|Hyx].
  { apply view_edge in Hxy as (t & He & _). by eapply wf_loop; [apply Ha|]. }
  assert (live TS' x) as Hx' by (apply view_edge in Hxy as (t & He & _); by eapply edge_source).
  destruct (ar_parent _ _ _ _ Ha x) as (p & s & _ & Hp & Hpx); [done..|].
  apply view_edge in Hxy as Hw. destruct Hw as (w & Hw & _).
  destruct (ar_through _ _ _ _ Ha p (atOffset s) x) as (s' & _ & Hs); [done..|]. destruct (Hs w y Hw) as (t & _ & _ & Hy).
  apply (Hold y); [by eapply wf_target; [apply Hwf|]|]. by eapply tc_r.
Qed.

Lemma arranged_same TS V c TS' n N N' :
  wf TS → closed (filteredGraph isNotPointerEdge TS) V → arranged TS V c TS' → n ∉ V →
  Layouts TS !! n = Some N → Layouts TS' !! n = Some N' →
  Successors N' = Successors N ∧ isRoot LK_All N' = isRoot LK_All N.
Proof.
  intros Hwf HV Ha HnV HN HN'. assert (live TS n) as Hn by by eexists. split.
  - apply set_eq. intros [m t]. rewrite (edge_iff TS' n N'), (edge_iff TS n N) by done. by apply Ha.
  - assert (∀ M TS0, wf TS0 → Layouts TS0 !! n = Some M →
      anyLink (hasNonPointerLinkKind LK_All) (Predecessors M) = true ↔ ∃ a t, hasEdge TS0 a t n ∧ getKind t ≠ LK_Pointer) as Hroot.
    { intros M TS0 Hwf0 HM. rewrite anyLink_true. split.
      - intros ([a t] & Hl & Ht). exists a, t. split; [by apply (wf_pred TS0 (proj1 Hwf0) n M)|].
        apply (not_pointer (a, t)). revert Ht. unfold isNotPointerEdge, isPointerEdge, hasLinkKind, hasNonPointerLinkKind. cbn.
        by destruct (getKind t); repeat case_bool_decide.
      - intros (a & t & He & Ht). exists (a, t). split; [by apply (wf_pred TS0 (proj1 Hwf0) n M)|].
        unfold hasNonPointerLinkKind. cbn. by destruct (getKind t). }
    unfold isRoot. f_equal. apply eq_true_iff_eq. rewrite (Hroot N' TS'), (Hroot N TS) by (done || apply Ha).
    assert (∀ a t, hasEdge TS a t n → getKind t ≠ LK_Pointer → a ∉ V) as Hout.
    { intros a t He Ht HaV. apply HnV, (HV a n HaV). apply view_edge. exists t. split; [done|]. by apply not_pointer. }
    split; intros (a & t & He & Ht).
    + destruct (ar_kinds _ _ _ _ Ha _ _ _ He) as [?|Hk]; [by exists a, t|].
      destruct (decide (live TS a)) as [Hla|Hla].
      * exists a, t. split; [|done]. apply (ar_fields _ _ _ _ Ha); [done|done|]. by left.
      * destruct (ar_parent _ _ _ _ Ha a) as (p & s & HpV & Hp & Hpa); [by eapply edge_source|done|].
        destruct (ar_through _ _ _ _ Ha p (atOffset s) a) as (s' & _ & Hs); [done..|]. destruct (Hs t n He) as (u & _ & Hu & Hpn).
        exists p, u. split; [done|]. by rewrite Hu.
    + exists a, t. split; [|done]. apply (ar_rest _ _ _ _ Ha); [by eapply edge_source|by eapply Hout|done].
Qed.

(** C6: The last step of the data layout analysis. In a type system without cycles, whose children have sizes and are in bytes of 64 bits, the step succeeds and leaves a type system without cycles, where every node is what its information says: the bytes of the children of a structure do not overlap, and those of each child of a union overlap those of another. Every node keeps its fields, the same nodes at the same bytes, either directly or through one of the nodes created for a union, and no field is added; pointers, sizes and the layouts of the values are kept, and the step says that it changed the type system when it created a node. *)
Theorem interference_resolved TS :
  wf TS → dag TS → (∀ n, live TS n → placed TS n) →
  ∃ c TS', ComputeNonInterferingComponents TS = Ok (c, TS') ∧ wf TS' ∧ dag TS' ∧
    (∀ m, live TS' m → describes TS' m (infoOf TS' m)) ∧
    (∀ n t d, live TS n → getKind t = LK_Instance → isField TS TS' n t d ↔ hasEdge TS n t d) ∧
    (∀ New, live TS' New → ¬ live TS New → ∃ n s, live TS n ∧ hasEdge TS' n (atOffset s) New) ∧
    (∀ n t d, getKind t = LK_Pointer → hasEdge TS' n t d ↔ hasEdge TS n t d) ∧
    (∀ n, live TS n → live TS' n ∧ sizeOf TS' n = sizeOf TS n) ∧
    (∀ i n, (i < NID TS)%N → layoutOf TS' i n ↔ layoutOf TS i n) ∧
    (c = true ↔ ∃ New, live TS' New ∧ ¬ live TS New).
Proof using All.
  intros Hwf Hdag Hp. set (g := filteredGraph isNotPointerEdge TS). unfold ComputeNonInterferingComponents.
  destruct (forEachRoot_visits (λ _, true) (isRoot LK_All) isNotPointerEdge snd (computeComponents (E := E))
    (λ V (s : bool * LayoutTypeSystem E), arranged TS V s.1 s.2 ∧ closed g V) (false, TS))
    as ([c TS'] & Hrun & Ha & _); cbn [fst snd] in *; [apply Hwf|done| | | | |].
  - intros n N. apply root_not_pointer, Hwf.
  - intros V [c TS'] n N [Ha HV] HN. cbn [fst snd] in *.
    assert (live TS' n) as [N' HN'] by (apply (ar_live _ _ _ _ Ha); by eexists). exists N'. split_and!; [done|done|].
    intros HnV. destruct (arranged_same TS V c TS' n N N') as [HS HR]; [done..|]. unfold childrenEdges. by rewrite HS, HR.
  - intros n V [c TS1] Hn HnV Hm [Ha HV]. cbn [fst snd] in *.
    destruct (computeComponents_ok TS1 n c) as (d & TS2 & Hrun & Ha2); [apply Ha|by eapply placed_later; [|apply Hp| |]|].
    exists (c || d, TS2). split; [done|]. split; cbn [fst snd]; [|by apply closed_step].
    apply (arranged_visit TS V c d n TS1); try done. intros a t b He Ht. apply ok_kind.
    apply (pl_links TS a (Hp a ltac:(by eapply edge_source)) (b, t)). done.
  - split; [by apply arranged_start|]. intros a b Ha. by apply elem_of_empty in Ha.
  - exists c, TS'. split; [exact Hrun|]. split; [apply Ha|]. split; [by eapply arranged_dag|]. split; [|split; [apply Ha|]].
    + intros m Hm. apply (ar_described _ _ _ _ Ha); [done|]. destruct (decide (live TS m)); [left; by apply view_dom|by right].
    + split; [|split_and!; [apply Ha| |apply Ha|apply Ha]].
      * intros New HNew Hno. destruct (ar_parent _ _ _ _ Ha New HNew Hno) as (n & s & _ & ? & ?). by exists n, s.
      * intros n Hn. split; [by apply Ha|by apply (ar_size _ _ _ _ Ha)].
Qed.

(** *** Checks by evaluation *)

Definition placedLink TS (l : Link) : bool :=
  instanceOk l.2 && (Offset (OE l.2) <=? 65535)%Z && (0 <? sizeOf TS l.1)%Z && (fieldEnd (sizeOf TS l.1) l.2 <? 2 ^ 64)%Z.

Lemma placed_checked TS :
  wf TS → allLinks (λ _ l, isPointerEdge l || placedLink TS l) TS = true →
  forallb (λ n, negb (sizeOf TS n =? 0)%Z) (layoutsRange TS) = true → ∀ n, live TS n → placed TS n.
Proof.
  intros Hwf Hall Hs n Hn. rewrite forallb_forall in Hs. split; [done| |].
  - specialize (Hs n). rewrite <- list_elem_of_In, elem_of_layoutsRange in Hs by apply (wf_bound _ (proj1 Hwf)).
    by apply negb_true_iff, Z.eqb_neq in Hs.
  - intros [d t] [He Ht]. apply (allLinks_spec _ _ Hwf Hall) in He. apply orb_true_iff in He as [Hp|He].
    + by apply bool_decide_eq_true in Hp.
    + unfold placedLink in He. rewrite !andb_true_iff, !Z.ltb_lt, Z.leb_le in He. destruct He as (((?%instanceOk_spec & ?) & ?) & ?). done.
Qed.
End separation.

(** ** Examples *)

(** Two pairs of fields that overlap, and a pointer. *)
Definition overlapped : LayoutTypeSystem listClasses :=
  orEmpty (build [16; 4; 8; 4; 8]%Z
    [(0, instanceAt 0, 1); (0, instanceAt 0, 2); (0, instanceAt 8, 3); (0, instanceAt 10, 1); (0, instanceAt 14, 1); (4, pointerTag, 0)]%N).

Definition infosOf (TS : outcome (bool * LayoutTypeSystem listClasses)) : option (bool * list (InterferingChildrenInfo * Z)) :=
  match TS with Ok (c, TS) => Some (c, (λ n, (infoOf TS n, sizeOf TS n)) <$> layoutsRange TS) | Fault _ => None end.

Lemma interference_resolved_witness :
  infosOf (ComputeNonInterferingComponents overlapped) =
    Some (true, [(AllChildrenAreNonInterfering, 16); (AllChildrenAreNonInterfering, 4); (AllChildrenAreNonInterfering, 8);
      (AllChildrenAreNonInterfering, 4); (AllChildrenAreNonInterfering, 8); (AllChildrenAreInterfering, 8);
      (AllChildrenAreInterfering, 6)]%Z) ∧
  ∃ c TS', ComputeNonInterferingComponents overlapped = Ok (c, TS') ∧ ∀ m, live TS' m → describes TS' m (infoOf TS' m).
Proof.
  split; [vm_compute; reflexivity|].
  destruct (interference_resolved overlapped (orEmpty_wf _ _)) as (c & TS' & H1 & _ & _ & H2 & _).
  - apply acyclic_checked; [apply orEmpty_wf|vm_compute; reflexivity].
  - apply placed_checked; [apply orEmpty_wf|vm_compute; reflexivity|vm_compute; reflexivity].
  - exists c, TS'. exact (conj H1 H2).
Defined.
