(* ===== verification/DLASchedule.v ===== *)
(** * The schedule of the data layout analysis

    [dla::StepManager] (lib/DataLayoutAnalysis/Middleend/DLAStep.h and .cpp) and the steps
    that the analysis adds to it (lib/DataLayoutAnalysis/DLA.cpp): a step can be added
    when the ones it depends on have been, and nothing since then has invalidated them. *)

From stdpp Require Import gmap list.
From S2P Require Import Prelude.

(** ** Steps *)

(** The class of steps is open in the code; these are the ones rev.ng has, none of which
    depends on itself or invalidates itself. *)
(* lib/DataLayoutAnalysis/Middleend/DLAStep.cpp:14-30 Step::StepID *)
Inductive StepKind : Set :=
  | ArrangeAccessesHierarchically | CollapseEqualitySCC | CollapseInstanceAtOffset0SCC
  | CollapseSingleChild | CompactCompatibleArrays | ComputeNonInterferingComponents
  | ComputeUpperMemberAccesses | DecomposeStridedEdges | DeduplicateFields | MergePointerNodes
  | MergePointeesOfPointerUnion | PruneLayoutNodesWithoutLayout | PushDownPointers
  | RemoveInvalidStrideEdges | RemoveInvalidPointers | ResolveLeafUnions | SimplifyInstanceAtOffset0.

#[global] Instance StepKind_eq_dec : EqDecision StepKind.
Proof. solve_decision. Defined.

Definition allSteps : list StepKind :=
  [ArrangeAccessesHierarchically; CollapseEqualitySCC; CollapseInstanceAtOffset0SCC; CollapseSingleChild;
   CompactCompatibleArrays; ComputeNonInterferingComponents; ComputeUpperMemberAccesses; DecomposeStridedEdges;
   DeduplicateFields; MergePointerNodes; MergePointeesOfPointerUnion; PruneLayoutNodesWithoutLayout;
   PushDownPointers; RemoveInvalidStrideEdges; RemoveInvalidPointers; ResolveLeafUnions; SimplifyInstanceAtOffset0].

Definition stepNumber (S : StepKind) : nat :=
  match S with
  | ArrangeAccessesHierarchically => 0 | CollapseEqualitySCC => 1 | CollapseInstanceAtOffset0SCC => 2
  | CollapseSingleChild => 3 | CompactCompatibleArrays => 4 | ComputeNonInterferingComponents => 5
  | ComputeUpperMemberAccesses => 6 | DecomposeStridedEdges => 7 | DeduplicateFields => 8 | MergePointerNodes => 9
  | MergePointeesOfPointerUnion => 10 | PruneLayoutNodesWithoutLayout => 11 | PushDownPointers => 12
  | RemoveInvalidStrideEdges => 13 | RemoveInvalidPointers => 14 | ResolveLeafUnions => 15 | SimplifyInstanceAtOffset0 => 16
  end.

#[global] Instance StepKind_countable : Countable StepKind.
Proof. apply (inj_countable stepNumber (λ n, allSteps !! n)). by intros []. Defined.

(* lib/DataLayoutAnalysis/Middleend/DLAStep.h:59-374 Step::getDependencies *)
Definition getDependencies (S : StepKind) : gset StepKind :=
  match S with
  | SimplifyInstanceAtOffset0 => {[CollapseInstanceAtOffset0SCC]}
  | ComputeUpperMemberAccesses => {[CollapseInstanceAtOffset0SCC; CollapseEqualitySCC; PruneLayoutNodesWithoutLayout]}
  | RemoveInvalidStrideEdges | MergePointeesOfPointerUnion | CollapseSingleChild | ComputeNonInterferingComponents
  | DecomposeStridedEdges => {[ComputeUpperMemberAccesses]}
  | CompactCompatibleArrays | ArrangeAccessesHierarchically =>
    {[ComputeUpperMemberAccesses; DecomposeStridedEdges; PruneLayoutNodesWithoutLayout]}
  | _ => ∅
  end.

(* lib/DataLayoutAnalysis/Middleend/DLAStep.h:183-374 Step::getInvalidated *)
Definition getInvalidated (S : StepKind) : gset StepKind :=
  match S with
  | RemoveInvalidStrideEdges => {[ComputeUpperMemberAccesses; PruneLayoutNodesWithoutLayout]}
  | MergePointeesOfPointerUnion => {[ComputeUpperMemberAccesses; CollapseInstanceAtOffset0SCC; RemoveInvalidStrideEdges]}
  | DecomposeStridedEdges => {[DeduplicateFields]}
  | _ => ∅
  end.

(** ** The manager *)

(* lib/DataLayoutAnalysis/Middleend/DLAStep.h:404-412 StepManager *)
Record StepManager := mkManager {
  Schedule : list StepKind;
  InsertedSteps : gset StepKind;
  InvalidatedSteps : gset StepKind;
}.

(* lib/DataLayoutAnalysis/Middleend/DLAStep.h:412-412 StepManager::StepManager *)
Definition emptyManager : StepManager := mkManager [] ∅ ∅.

(* lib/DataLayoutAnalysis/Middleend/DLAStep.h:426-430 StepManager::reset *)
Definition reset (_ : StepManager) : StepManager := emptyManager.

(* lib/DataLayoutAnalysis/Middleend/DLAStep.cpp:105-110 StepManager::addStep *)
Definition invalidate (InvalidatedID : StepKind) (SM : StepManager) : StepManager :=
  if bool_decide (InvalidatedID ∈ InsertedSteps SM)
  then mkManager (Schedule SM) (InsertedSteps SM ∖ {[InvalidatedID]}) ({[InvalidatedID]} ∪ InvalidatedSteps SM)
  else SM.

(* lib/DataLayoutAnalysis/Middleend/DLAStep.cpp:74-118 StepManager::addStep *)
Definition addStep (S : StepKind) (SM : StepManager) : bool * StepManager :=
  let D := getDependencies S in
  if negb (bool_decide (D = ∅)) && bool_decide (S ∈ D) then (false, SM)
  else if negb (bool_decide (D = ∅))
       && existsb (λ DepID, bool_decide (DepID ∈ InvalidatedSteps SM) || negb (bool_decide (DepID ∈ InsertedSteps SM))) (elements D)
  then (false, SM)
  else
    let I := getInvalidated S in
    if negb (bool_decide (I = ∅)) && bool_decide (S ∈ I) then (false, SM)
    else
      let SM := foldl (λ SM x, invalidate x SM) SM (elements I) in
      (true, mkManager (Schedule SM ++ [S]) ({[S]} ∪ InsertedSteps SM) (InvalidatedSteps SM ∖ {[S]})).

Section valid_schedule.
  Context (addressLess : StepKind → StepKind → bool).

(** The sets are visited in an order of their own; [<] is that of the addresses. *)
(* lib/DataLayoutAnalysis/Middleend/DLAStep.h:376-392 intersect *)
Fixpoint intersect (l1 : list StepKind) : list StepKind → bool :=
  match l1 with
  | [] => λ _, false
  | x :: l1' =>
    fix advance (l2 : list StepKind) : bool :=
      match l2 with
      | [] => false
      | y :: l2' =>
        if addressLess x y then intersect l1' l2
        else if addressLess y x then advance l2'
        else true
      end
  end.

Context (visit : gset StepKind → list StepKind).

(* lib/DataLayoutAnalysis/Middleend/DLAStep.h:432-434 StepManager::hasValidSchedule *)
Definition hasValidSchedule (SM : StepManager) : bool :=
  negb (intersect (visit (InsertedSteps SM)) (visit (InvalidatedSteps SM))).

(* lib/DataLayoutAnalysis/Middleend/DLAStep.cpp:120-140 StepManager::run *)
Definition run {T} (runOnTypeSystem : StepKind → T → outcome (bool * T)) (SM : StepManager) (TS : T) : outcome T :=
  if negb (hasValidSchedule SM) then revng_abort else
  foldl (λ TS S, TS ← TS; '(_, TS) ← runOnTypeSystem S TS; Ok TS) (Ok TS) (Schedule SM).
End valid_schedule.

(** [revng_check(SM.addStep(...))], one step after the other. *)
Fixpoint addSteps (l : list StepKind) (SM : StepManager) : outcome StepManager :=
  match l with
  | [] => Ok SM
  | Step :: l => let '(added, SM) := addStep Step SM in revng_assert added;; addSteps l SM
  end.

(* lib/DataLayoutAnalysis/DLA.cpp:53-97 AnalyzeDataLayout::run *)
Definition dataLayoutSteps : list StepKind :=
  [RemoveInvalidPointers; CollapseEqualitySCC; CollapseInstanceAtOffset0SCC; SimplifyInstanceAtOffset0;
   PruneLayoutNodesWithoutLayout; ComputeUpperMemberAccesses; RemoveInvalidStrideEdges; PruneLayoutNodesWithoutLayout;
   ComputeUpperMemberAccesses; DecomposeStridedEdges;
   CollapseSingleChild; DeduplicateFields; MergePointeesOfPointerUnion; MergePointerNodes; CollapseInstanceAtOffset0SCC;
   SimplifyInstanceAtOffset0; PruneLayoutNodesWithoutLayout; ComputeUpperMemberAccesses; RemoveInvalidStrideEdges;
   PruneLayoutNodesWithoutLayout; ComputeUpperMemberAccesses;
   MergePointerNodes; CollapseSingleChild; DeduplicateFields; ArrangeAccessesHierarchically; CompactCompatibleArrays;
   PushDownPointers; MergePointerNodes; ResolveLeafUnions; CollapseSingleChild; DeduplicateFields;
   ComputeNonInterferingComponents].

(** ** The steps in force *)

(** A step has run, and no step since then has invalidated it. *)
Definition inForce (l : list StepKind) (d : StepKind) : Prop :=
  ∃ pre post, l = pre ++ d :: post ∧ ∀ k, k ∈ post → d ∉ getInvalidated k.

Record tracks (SM : StepManager) : Prop := {
  tracks_inserted d : d ∈ InsertedSteps SM ↔ inForce (Schedule SM) d;
  tracks_invalidated d : d ∈ InvalidatedSteps SM ↔ d ∈ Schedule SM ∧ ¬ inForce (Schedule SM) d;
}.

Lemma inForce_snoc l S d : inForce (l ++ [S]) d ↔ d = S ∨ inForce l d ∧ d ∉ getInvalidated S.
Proof.
  split.
  - intros (pre & post & Heq & Hpost). destruct post as [|k post _] using rev_ind.
    + apply app_inj_tail in Heq as [_ ->]. by left.
    + rewrite app_comm_cons, app_assoc in Heq. apply app_inj_tail in Heq as [-> <-]. right. split.
      * exists pre, post. split; [done|]. intros k' Hk. apply Hpost, elem_of_app. by left.
      * apply Hpost, elem_of_app. right. by apply list_elem_of_singleton.
  - intros [->|[(pre & post & -> & Hpost) Hd]].
    + exists l, []. split; [done|]. intros k Hk. by apply elem_of_nil in Hk.
    + exists pre, (post ++ [S]). split; [by rewrite <- app_assoc|].
      intros k [Hk| ->%list_elem_of_singleton]%elem_of_app; [by apply Hpost|done].
Qed.

Lemma inForce_in l d : inForce l d → d ∈ l.
Proof. intros (pre & post & -> & _). apply elem_of_app. right. by left. Qed.

Lemma invalidate_all l SM :
  let SM' := foldl (λ SM x, invalidate x SM) SM l in
  Schedule SM' = Schedule SM ∧
  (∀ d, d ∈ InsertedSteps SM' ↔ d ∈ InsertedSteps SM ∧ d ∉ l) ∧
  (∀ d, d ∈ InvalidatedSteps SM' ↔ d ∈ InvalidatedSteps SM ∨ d ∈ InsertedSteps SM ∧ d ∈ l).
Proof.
  revert SM. induction l as [|x l IH]; intros SM; cbn [foldl].
  { split_and!; [done|..]; intros d; rewrite elem_of_nil; tauto. }
  destruct (IH (invalidate x SM)) as (H1 & H2 & H3). cbn in *. unfold invalidate in *. case_bool_decide as Hx; cbn in *.
  - split_and!; [done|..]; intros d; rewrite ?H2, ?H3, ?elem_of_difference, ?elem_of_union, ?elem_of_singleton, ?elem_of_cons;
      destruct (decide (d = x)) as [->|]; tauto.
  - split_and!; [done|..]; intros d; rewrite ?H2, ?H3, ?elem_of_cons; destruct (decide (d = x)) as [->|]; tauto.
Qed.

Lemma no_self_dependency S : S ∉ getDependencies S.
Proof. destruct S; vm_compute; by intros ?. Qed.

Lemma no_self_invalidation S : S ∉ getInvalidated S.
Proof. destruct S; vm_compute; by intros ?. Qed.

Lemma intersect_disjoint less l1 l2 :
  (∀ x y, less x y = false → less y x = false → x = y) → (∀ x, x ∈ l1 → x ∉ l2) → intersect less l1 l2 = false.
Proof.
  intros Hless. revert l2. induction l1 as [|x l1 IH]; intros l2 Hd; [done|].
  induction l2 as [|y l2 IH2]; [done|]. cbn. destruct (less x y) eqn:Hxy.
  - apply IH. intros z Hz. apply Hd. by right.
  - destruct (less y x) eqn:Hyx.
    + apply IH2. intros z Hz Hz2. apply (Hd z Hz). by right.
    + exfalso. apply (Hd x); [by left|]. rewrite (Hless x y) by done. by left.
Qed.

Lemma addStep_spec SM Step :
  tracks SM →
  let '(added, SM') := addStep Step SM in
  (added = true ↔ ∀ d, d ∈ getDependencies Step → inForce (Schedule SM) d) ∧
  SM' = (if added then SM' else SM) ∧ (added = true → Schedule SM' = Schedule SM ++ [Step]) ∧ tracks SM'.
Proof.
  intros Htr. unfold addStep. pose proof (no_self_dependency Step) as Hsd. pose proof (no_self_invalidation Step) as Hsi.
  rewrite (bool_decide_eq_false_2 (Step ∈ getDependencies Step)), andb_false_r by done.
  rewrite (bool_decide_eq_false_2 (Step ∈ getInvalidated Step)), andb_false_r by done.
  destruct (negb (bool_decide (getDependencies Step = ∅)) && existsb _ _) eqn:Hdep.
  - apply andb_true_iff in Hdep as [_ (d & Hd%list_elem_of_In%elem_of_elements & Hx)%existsb_exists].
    split_and!; [|done|done|done]. split; [done|]. intros Hall. exfalso.
    apply orb_true_iff in Hx as [Hx%bool_decide_eq_true|Hx%negb_true_iff%bool_decide_eq_false].
    + apply (tracks_invalidated SM Htr) in Hx as [_ Hx]. by apply Hx, Hall.
    + by apply Hx, (tracks_inserted SM Htr), Hall.
  - destruct (invalidate_all (elements (getInvalidated Step)) SM) as (H1 & H2 & H3). cbn in *.
    split_and!; [|done|by rewrite H1|].
    + split; [|done]. intros _ d Hd. apply andb_false_iff in Hdep as [Hdep%negb_false_iff%bool_decide_eq_true|Hdep].
      { rewrite Hdep in Hd. by apply elem_of_empty in Hd. }
      apply (tracks_inserted SM Htr). destruct (decide (d ∈ InsertedSteps SM)) as [|Hn]; [done|].
      rewrite <- not_true_iff_false, existsb_exists in Hdep. destruct Hdep. exists d.
      split; [by apply list_elem_of_In, elem_of_elements|]. apply orb_true_iff. right. by apply negb_true_iff, bool_decide_eq_false.
    + split; cbn; intros d; rewrite H1, inForce_snoc.
      * rewrite elem_of_union, elem_of_singleton, H2, (tracks_inserted SM Htr), elem_of_elements. done.
      * rewrite elem_of_difference, elem_of_singleton, H3, (tracks_inserted SM Htr), (tracks_invalidated SM Htr), elem_of_elements.
        rewrite elem_of_app, list_elem_of_singleton. pose proof (inForce_in (Schedule SM) d).
        assert (inForce (Schedule SM) d ∨ ¬ inForce (Schedule SM) d)
          by (rewrite <- (tracks_inserted SM Htr); destruct (decide (d ∈ InsertedSteps SM)); auto).
        destruct (decide (d = Step)) as [->|]; [tauto|]. destruct (decide (d ∈ getInvalidated Step)); tauto.
Qed.

Lemma empty_tracks : tracks emptyManager.
Proof.
  split; cbn; intros d; rewrite elem_of_empty, ?elem_of_nil; [|tauto].
  split; [done|]. intros (pre & post & Heq & _). by destruct pre.
Qed.

(** C26: the manager tracks which steps are in force: a step is added exactly when each of
    those it depends on has run and no step that ran since then invalidates it; a step that
    is refused changes nothing; and, from an empty manager, no schedule that was built in
    this way is refused when it is run, whatever the order in which the sets of steps are
    visited. *)
Theorem schedule_in_force SM Step :
  tracks SM →
  let '(added, SM') := addStep Step SM in
  (added = true ↔ ∀ d, d ∈ getDependencies Step → inForce (Schedule SM) d) ∧
  Schedule SM' = (if added then Schedule SM ++ [Step] else Schedule SM) ∧
  tracks emptyManager ∧ tracks SM' ∧
  ∀ less visit, (∀ x y, less x y = false → less y x = false → x = y) → (∀ s x, x ∈ visit s ↔ x ∈ s) →
    hasValidSchedule less visit SM' = true.
Proof.
  intros Htr. pose proof (addStep_spec SM Step Htr) as Hs. destruct (addStep Step SM) as [added SM'].
  destruct Hs as (H1 & H2 & H3 & H4). split_and!; [done| |apply empty_tracks|done|].
  - destruct added; [by apply H3|by rewrite H2].
  - intros less visit Hless Hvisit. unfold hasValidSchedule. apply negb_true_iff, intersect_disjoint; [done|].
    intros x. rewrite !Hvisit, (tracks_inserted SM' H4), (tracks_invalidated SM' H4). tauto.
Qed.

Lemma schedule_in_force_witness :
  tracks emptyManager ∧
  (fst (addStep SimplifyInstanceAtOffset0 emptyManager) = true ↔
    ∀ d, d ∈ getDependencies SimplifyInstanceAtOffset0 → inForce [] d).
Proof.
  split; [exact empty_tracks|].
  exact (proj1 (schedule_in_force emptyManager SimplifyInstanceAtOffset0 empty_tracks)).
Defined.

(** Every step of the analysis is accepted where it is added: no [revng_check] fails, and
    they run in the order they are added in, with what they depend on in force. *)
Theorem analysis_schedule_accepted :
  ∃ SM, addSteps dataLayoutSteps emptyManager = Ok SM ∧ Schedule SM = dataLayoutSteps ∧ tracks SM ∧
    ∀ i Step d, dataLayoutSteps !! i = Some Step → d ∈ getDependencies Step → inForce (take i dataLayoutSteps) d.
Proof.
  assert (∀ l SM SM', tracks SM → addSteps l SM = Ok SM' → tracks SM' ∧ Schedule SM' = Schedule SM ++ l ∧
    ∀ i Step d, l !! i = Some Step → d ∈ getDependencies Step → inForce (Schedule SM ++ take i l) d) as Hall.
  { intros l. induction l as [|Step l IH]; intros SM SM' Htr Ha.
    - injection Ha as <-. split_and!; [done|by rewrite app_nil_r|done].
    - cbn in Ha. pose proof (addStep_spec SM Step Htr) as Hs. destruct (addStep Step SM) as [[] SM1]; [|done].
      destruct Hs as (H1 & _ & H3 & H4). destruct (IH SM1 SM' H4 Ha) as (H5 & H6 & H7). rewrite H3 in * by done.
      split_and!; [done|by rewrite H6, <- app_assoc|]. intros [|i] Step' d Hi Hd.
      + injection Hi as <-. cbn. rewrite app_nil_r. by apply H1.
      + cbn. specialize (H7 i Step' d Hi Hd). by rewrite <- app_assoc in H7. }
  destruct (addSteps dataLayoutSteps emptyManager) as [SM|f] eqn:Ha.
  - destruct (Hall _ _ _ empty_tracks Ha) as (H1 & H2 & H3). exists SM. by split_and!.
  - exfalso. assert (match addSteps dataLayoutSteps emptyManager with Ok _ => true | Fault _ => false end = true) as Hok
      by (vm_compute; reflexivity). by rewrite Ha in Hok.
Qed.
